(* ===== verification/_CoqProject ===== *)
-Q . S2P
Prelude.v
Storage.v
Claim.v
Maintainer.v
Ledger.v
Delivery.v
DeliveryRuns.v
Publish.v
Sweep.v
Guarantees.v
Views.v
MaintainerDemo.v
Text.v
Memory.v
MemorySafety.v
MemoryStore.v
ReadState.v
Utf8.v
ProcessOutput.v
ToolBoundary.v
DelegationTypes.v
DelegationStore.v
DelegationStatus.v
DelegationLog.v
DelegationGuarantees.v
InboxFiles.v
InboxProtocol.v
Receipts.v
InboxSync.v
InboxDemo.v
UploadQueue.v
StepLogic.v
UploadProofs.v
UploadSafety.v
UploadDelivery.v
Carriers.v
UploadOrder.v
UploadLive.v
UploadDemo.v
Knowledge.v
ClaimEdit.v
ClaimEditProofs.v
ClaimEditLive.v
Prepare.v
InboxEffect.v
InboxEffectProofs.v
InboxEffectSafety.v
InboxEffectJournal.v
InboxEffectBatches.v
InboxEffectDemo.v
ArbitrationTypes.v
ArbitrationChecks.v
ArbitrationStore.v
Resolution.v
Adoption.v
ArbitrationContext.v
SourceGraph.v
Analysis.v
ArbitrationRuns.v
ArbitrationDraws.v
Commitments.v
CommitmentWrites.v
CommitmentRules.v
CommitmentSteps.v
CommitmentOps.v
CommitmentService.v
CommitmentLiveness.v
CommitmentGuarantees.v
Provenance.v
ArbitrationDemo.v
TurnJournal.v
JsonLines.v
JournalFile.v
TurnJournalProofs.v
SessionStore.v
SessionProofs.v
FileText.v
FileTools.v
FileToolsProofs.v
FileLocks.v
