(* ===== verification/Prelude.v ===== *)
(** * A verification development for ACN (Agent Claim Network)

    ACN lets agents share what they know as claims.  An agent keeps its claims
    in files of its own and works on them in sessions; a Maintainer stores the
    claims and disputes of all agents, publishes policies to them through an
    outbox, and arbitrates disputes.  The parts modelled here, by the file
    that models them and the sources (under src/src/) it translates:

    - Prelude.v: results and the state-error monad that stands for
      [async fn ... -> Result], I/O fault schedules, orders and sorting, lists.
    - Storage.v (storage/yaml.rs, storage/mint.rs): a directory of YAML files
      is a finite map from file names to contents; a zero-byte file is a
      reserved name.  Every call that touches the disk consumes a bit of the
      fault schedule and may fail there; a theorem that quantifies over worlds
      quantifies over every place where a run may be cut.
    - Claim.v (claim/*.rs, time.rs): the data of the network; identifiers,
      their parsing and derivation; the clock of claim revisions.
    - Maintainer.v, Sweep.v (maintainer.rs, maintainer/outbox_io.rs,
      maintainer/sweep.rs, maintainer/arbitration/store.rs): the operations on
      the team store.  Ledger.v is the abstract specification of message
      delivery; Delivery.v proves that each operation is a step of it, and
      DeliveryRuns.v, Publish.v, Sweep.v, Guarantees.v, Views.v draw the
      consequences; MaintainerDemo.v has the concrete runs.
    - InboxFiles.v, InboxSync.v (agent/fs.rs, agent/inbox.rs): the inbox
      directory of an agent as a protocol between processes that share files,
      and its synchronisation with the Maintainer; InboxProtocol.v has the
      invariants, Receipts.v the end-to-end delivery, InboxDemo.v the runs.
    - UploadQueue.v (agent/maintainer_upload.rs, agent/consolidation_delivery.rs):
      what an agent owes the Maintainer, staged in a file and delivered by
      concurrent rounds.  Its world holds the schedule of what other tasks do
      to the queue whenever a lock is awaited and the order in which concurrent
      requests complete.  StepLogic.v is a logic of pre- and postconditions
      stable under such interference; UploadProofs.v, UploadSafety.v,
      UploadDelivery.v, Carriers.v, UploadOrder.v, UploadLive.v are proofs;
      UploadDemo.v the runs.
    - Knowledge.v (agent/runner.rs, agent/fs.rs, agent/dispute_report.rs): the
      files that changes of the claims go through under the knowledge lock, on
      top of the world of UploadQueue.v.  ClaimEdit.v (agent/claims.rs): edits
      with their recovery record, listings and pages; ClaimEditProofs.v,
      ClaimEditLive.v (with the runs).  Prepare.v (agent/claim_alignment.rs,
      agent/prepare.rs): is a plan up to date; from the drafts of a model to
      claims.  InboxEffect.v (agent/inbox.rs): the journalled
      application of a batch of messages; InboxEffectProofs.v, -Safety.v,
      -Journal.v, -Batches.v prove what it promises and
      InboxEffectDemo.v cuts a run short and resumes it.
    - DelegationTypes.v, DelegationStore.v (delegation/types.rs,
      delegation/store.rs): delegated tasks on disk; DelegationStatus.v,
      DelegationLog.v, DelegationGuarantees.v (with the runs).
    - Memory.v, MemorySafety.v, MemoryStore.v (memory.rs, memory_safety.rs,
      agent/fs.rs): the long-term memory texts, the scan that guards them and
      the files that hold them.  Text.v has the text functions they share.
    - ReadState.v (tool/read_state.rs): what a tool call may rely on having
      been read.  FileText.v (tool/file_text.rs): the scan of a file for a
      page, and which lines an edit leaves known.  FileTools.v (tool/file.rs,
      path_util.rs, the guarded write of storage/yaml.rs, parts of attachment.rs):
      paths, a file system with links, and the calls that read, patch and
      write files as trees of atomic steps; a system interleaves the steps of
      the calls of many sessions and processes with what other programs do.
      FileToolsProofs.v has a rely-guarantee logic for such steps and proves
      from it that no edit is blind; FileLocks.v has the resolution of paths in
      a growing tree of files, proves in another instance of the logic that no
      edit is lost, and runs schedules, races among them.
    - ProcessOutput.v with Utf8.v (tool/process/output.rs): bounded capture of
      the output of a process.  ToolBoundary.v (api/tool_boundary.rs,
      api/provider.rs): the cancellation state of a turn.
    - TurnJournal.v, JournalFile.v (session/turn_journal.rs): the events of a
      session's turns, their replay and what a later turn is told of the
      interrupted ones; the file of events, its writers and readers.
      TurnJournalProofs.v has the proofs and a run in which a line is cut
      short; JsonLines.v the facts on files of lines that may be cut.
    - SessionStore.v (session/mod.rs, the commit of a turn in
      agent/session_engine.rs): the directory of a session - metadata, transcript,
      provider history, checkpoints - from its creation to its deletion, with
      the turns that are shown of it.  The world is one session; a fault is a
      call that fails, for a write after any number of bytes, and a crash is
      that all later calls fail.  SessionProofs.v has a triple per operation,
      the history of a session with handles of any age, and its runs.
    - ArbitrationTypes.v, ArbitrationChecks.v, ArbitrationStore.v (types.rs,
      evaluator.rs, store.rs of maintainer/arbitration): the records of a
      dispute's arbitration, what is checked of them, and their files.
      Resolution.v, Adoption.v (resolution.rs): resolutions by a person and by
      an analysis, their commit, delivery and recovery.  ArbitrationContext.v
      (context.rs): what an analysis is shown and its semantic fingerprint;
      SourceGraph.v proves the search for source claims.
      Analysis.v (service.rs): the life of an analysis between its model calls.
      ArbitrationRuns.v (resolution_events.rs): deliveries and their retries,
      and any sequence of these locked sections and of the operations of the
      Maintainer.  Commitments.v has the invariant of a
      commit; ArbitrationDraws.v, CommitmentWrites.v, CommitmentRules.v (one
      rule per file operation), CommitmentSteps.v, -Ops.v,
      -Service.v (one triple per operation), -Liveness.v prove it and
      CommitmentGuarantees.v draws the consequences; Provenance.v
      traces every resolution back to its origin;
      ArbitrationDemo.v interrupts a resolution and resumes it.

    ** How the models correspond to the code

    A function of the source is a definition of the same name: pure code a
    pure function, fallible code a [Result], code with effects a computation
    in the monad [M] over the world of its component.  A world is a record of
    the files and the in-memory state that the component owns, with its fault
    schedule and, where the component is concurrent, the schedule of the
    others.  Loops are [Fixpoint]s on the list they walk; where the source
    loops on state, on fuel, with a proof that the fuel is enough: the length
    of a list that each round shortens ([internalize_loop], [carrier_ready],
    [prune], the upload rounds), the text left ([Utf8], paging), or a cap that
    each round but the last comes closer to ([load_source_graph]).  Instants
    are nanoseconds in [Z], claim texts strings, memory and output texts lists
    of scalars or bytes.  Integers that the source saturates or checks are
    written out so; other [usize] counters count things in memory and are [nat].

    Parameters stand for what the source takes from elsewhere: hash functions
    and the JSON serialisation below them ([claim_revision], [message_hash],
    ...), the random source of identifiers, the Unicode lower-casing table, the
    answers of the Maintainer over the network and those of the language
    model.  The hypotheses on them are that hashes of the versions of a claim
    differ ([claim_revision_inj]), as do those of two texts of a file
    ([revision_inj]), that ids given to new claims are new
    ([fresh_ids], [distinct]), that a JSON line is read back while a part
    of one is not ([codec], [message_codec]), and that the JSON of an event
    takes a bounded number of bytes per character of its texts
    ([serde_json_size]); each has an instance in a demo.

    ** What the theorems show

    - Maintainer: every operation refines the abstract ledger; a message is
      redelivered until acknowledged and never after; the outcomes of pull,
      acknowledgement, publication, retraction and sweep.
    - Inbox: no message is lost between ledger and agent; no finished message
      is taken again.
    - Knowledge: an edit that reached a claim file reaches the upload queue,
      and the Maintainer when the queue holds no consolidations; a batch of messages is carried out once, never over a
      version that its analysis has not seen, and survives any crash.
    - Upload queue: what is staged is never lost; retired claims wait for the
      claims that carry on their knowledge; an undisturbed queue drains.
    - Delegation: the life cycle of tasks, the numbering of their event logs
      and steering, the clean-up of sessions, under I/O faults, for commands
      that run one after the other.  The locks of a task make them do so, but
      for [create], which takes none: DelegationGuarantees.v shows what an
      abandon can do between its steps.
    - Memory, read evidence, process output, tool boundary: their bounds, their
      round trips and their agreement with reference definitions.
    - File tools: a page shows the file as it was read; an edit leaves known
      exactly the bytes that it wrote or kept of known ones, and who has read
      the lines around an edit may make it; with edit authority on, whatever
      other sessions, processes and programs do meanwhile, no edit is made of
      bytes that the caller was not shown; with write locks on, none is lost
      as long as only calls of these tools change files, in a tree without
      dangling links.
    - Turn journal: acknowledged events survive cut writes and keep their
      order; a replay is well formed, agrees with reference definitions, and
      tells a later turn of every tool call of an interrupted one inside tags
      that no text can close.
    - Sessions: while an append in doubt is followed by a reopening, the
      transcript is readable, gapless and holds what was acknowledged, and the
      session opens again after any faults; its metadata move along a life
      cycle; a session with messages is not deleted as empty.
    - Arbitration: a dispute's resolution is final but for one replacement of
      an automatic one by a person; it was entered by a person or is a proposal
      that a verification approved in full; a committed one is delivered or
      pending, and a pending one is delivered when the files can be written
      and nobody has changed the policy or taken the names that it reserved.

    StepLogic.v has the triples these proofs compose, whose postconditions
    hold against the interference of other tasks.  [guarded] ones serve
    arbitration: ids are drawn at random and checked only against the files of one dispute, so two
    disputes may be given the same resolution id; the theorems are about runs
    in which the ids drawn so far are [distinct], and a guarded triple is about
    the runs in which they still are at its end.

    ** Not modelled

    Network servers and clients, model providers and the turn loop that drives
    them, the MCP client, the terminal interface, SQLite session search, the
    vector router, configuration and start-up: their behaviour is in external
    protocols and libraries.  Of arbitration: the loops that call the model and
    the Router between the locked sections, the worker and event queues, and
    the observation of holders after a delivery.  Of the tools: searches,
    processes and the web, and the diff that is shown of a file change.  Left for later: the session
    engine with Dream, the expiry of sessions, the supervisor, policy
    deprecation.  Of the parts that are
    modelled: a sequence of operations that the source runs under a file lock
    is one step of a history (so are, without a lock, the creation of a
    delegated task and the loading of a session), a rename that is still in
    flight when its tool call is dropped is taken to end before the call's
    locks are released, tracing, logging and the wording of warnings are left out,
    and serde is trusted to read back what it wrote. *)

From Stdlib Require Export Ascii.
From stdpp Require Export prelude gmap strings sorting list_numbers.
From Stdlib Require Export ZArith Lia.

Declare Scope acn_scope.
Delimit Scope acn_scope with acn.

(** ** Machine integers

    [usize] and [u64] are 64-bit unsigned; both are read as [Z] with the
    saturating operations the source calls. *)

Definition u64_max : Z := 18446744073709551615.
Definition u32_max : Z := 4294967295.

Definition sat_add (m a b : Z) : Z := Z.min m (a + b)%Z.
Definition sat_sub (a b : Z) : Z := Z.max 0 (a - b)%Z.

Notation "a +sat b" := (sat_add u64_max a b) (at level 50, left associativity) : acn_scope.
Notation "a -sat b" := (sat_sub a b) (at level 50, left associativity) : acn_scope.
Notation "a '|>' f" := (f a) (at level 50, left associativity, only parsing) : acn_scope.

(** The record [eta a] with [v] for the field [proj a]. *)
Ltac eta_set eta a proj v :=
  let t := eval cbv beta delta [eta] in (eta a) in
  match t with
  | context C [?f] => constr_eq f (proj a); let t' := context C [v] in exact t'
  end.

Lemma sat_add_small a b : (a + b ≤ u64_max)%Z → sat_add u64_max a b = (a + b)%Z.
Proof. unfold sat_add. lia. Qed.

Lemma sat_add_bound m a b : (sat_add m a b ≤ m)%Z.
Proof. unfold sat_add. lia. Qed.

Lemma sat_sub_nonneg a b : (0 ≤ sat_sub a b)%Z.
Proof. unfold sat_sub. lia. Qed.

(** ** Results and the state-error monad

    [Result] is Rust's; [M W E A] is a fallible operation that threads a
    world [W]: the shape of every [async fn ... -> Result] of the source. *)

Inductive Result (E A : Type) : Type :=
| Ok (a : A)
| Err (e : E).
Arguments Ok {E A} a.
Arguments Err {E A} e.

#[export] Instance Result_ret {E} : MRet (Result E) := λ A a, Ok a.
#[export] Instance Result_bind {E} : MBind (Result E) :=
  λ A B f r, match r with Ok a => f a | Err e => Err e end.

#[export] Instance Result_eq_dec {E A} `{EqDecision E, EqDecision A} :
  EqDecision (Result E A).
Proof. solve_decision. Defined.

Definition is_ok {E A} (r : Result E A) : bool :=
  match r with Ok _ => true | Err _ => false end.

Definition map_err {E F A} (f : E → F) (r : Result E A) : Result F A :=
  match r with Ok a => Ok a | Err e => Err (f e) end.

Lemma result_bind_ok {E A B} (f : A → Result E B) (r : Result E A) b :
  (r ≫= f) = Ok b → ∃ a, r = Ok a ∧ f a = Ok b.
Proof. destruct r as [a|e]; [eauto | discriminate]. Qed.

Definition M (W E A : Type) : Type := W → Result E A * W.

#[export] Instance M_ret {W E} : MRet (M W E) := λ A a w, (Ok a, w).
#[export] Instance M_bind {W E} : MBind (M W E) := λ A B f m w,
  match m w with
  | (Ok a, w') => f a w'
  | (Err e, w') => (Err e, w')
  end.

Section monad.
Context {W E : Type}.

Definition fail {A} (e : E) : M W E A := λ w, (Err e, w).
Definition get_world : M W E W := λ w, (Ok w, w).
Definition gets {A} (f : W → A) : M W E A := λ w, (Ok (f w), w).
Definition modify (f : W → W) : M W E unit := λ w, (Ok tt, f w).
Definition lift_result {A} (r : Result E A) : M W E A := λ w, (r, w).

(** [for x in l { f(x)? }] *)
Fixpoint for_each {A} (f : A → M W E unit) (l : list A) : M W E unit :=
  match l with
  | [] => mret tt
  | x :: l' => _ ← f x; for_each f l'
  end.

Lemma bind_ok {A B} (f : A → M W E B) (m : M W E A) w b w' :
  (m ≫= f) w = (Ok b, w') → ∃ a w1, m w = (Ok a, w1) ∧ f a w1 = (Ok b, w').
Proof.
  unfold mbind, M_bind. destruct (m w) as [[a|e] w1]; [eauto | discriminate].
Qed.

Lemma bind_cases {A B} (f : A → M W E B) (m : M W E A) w r w' :
  (m ≫= f) w = (r, w') →
  (∃ a w1, m w = (Ok a, w1) ∧ f a w1 = (r, w')) ∨
  (∃ e, m w = (Err e, w') ∧ r = Err e).
Proof.
  unfold mbind, M_bind. destruct (m w) as [[a|e] w1]; intros H; simplify_eq; eauto 6.
Qed.

Lemma bind_step {A B} (f : A → M W E B) (m : M W E A) w a w1 :
  m w = (Ok a, w1) → (m ≫= f) w = f a w1.
Proof. unfold mbind, M_bind. by intros ->. Qed.

(** *** What an operation may do to the world

    [preserves R m]: whatever [m] returns, errors included, the world
    moves along [R].  For a preorder this composes through the monad, so
    an invariant of a whole handler reduces to its primitive steps. *)
Definition preserves {A} (R : W → W → Prop) (m : M W E A) : Prop :=
  ∀ w r w', m w = (r, w') → R w w'.

Lemma preserves_ret {A} R `{!Reflexive R} (a : A) : preserves R (mret a).
Proof. intros w r w' [= _ <-]. done. Qed.

Lemma preserves_fail {A} R `{!Reflexive R} e : preserves R (fail (A:=A) e).
Proof. intros w r w' [= _ <-]. done. Qed.

Lemma preserves_gets {A} R `{!Reflexive R} (f : W → A) : preserves R (gets f).
Proof. intros w r w' [= _ <-]. done. Qed.

Lemma preserves_lift {A} R `{!Reflexive R} (x : Result E A) : preserves R (lift_result x).
Proof. intros w r w' [= _ <-]. done. Qed.

Lemma preserves_bind {A B} R `{!Transitive R} (m : M W E A) (f : A → M W E B) :
  preserves R m → (∀ a, preserves R (f a)) → preserves R (m ≫= f).
Proof.
  intros Hm Hf w r w' [(a & w1 & H1 & H2)|(e & H1 & ->)]%bind_cases; [|by eapply Hm].
  etrans; [by eapply Hm | by eapply Hf].
Qed.

Lemma preserves_for_each {A} R `{!PreOrder R} (f : A → M W E unit) l :
  (∀ x, x ∈ l → preserves R (f x)) → preserves R (for_each f l).
Proof.
  induction l as [|x l IH]; intros Hf; simpl.
  - apply preserves_ret, _.
  - apply preserves_bind; [apply _ | apply Hf; set_solver | intros _].
    apply IH. intros y Hy. apply Hf. set_solver.
Qed.
End monad.

Create HintDb acn discriminated.
#[export] Hint Resolve preserves_ret preserves_fail preserves_gets preserves_lift : acn.

(** *** Converting and catching errors *)

Definition m_map_err {W E F A} (f : E → F) (m : M W E A) : M W F A :=
  λ w, let '(r, w') := m w in (map_err f r, w').

Definition m_try {W E A} (m : M W E A) : M W E (Result E A) :=
  λ w, let '(r, w') := m w in (Ok r, w').

Lemma preserves_m_map_err {W E F A} R (f : E → F) (m : M W E A) :
  preserves R m → preserves R (m_map_err f m).
Proof.
  intros Hm w r w'. unfold m_map_err. destruct (m w) eqn:Em. intros [= _ <-]. by eapply Hm.
Qed.

Lemma preserves_m_try {W E A} R (m : M W E A) : preserves R m → preserves R (m_try m).
Proof. intros Hm w r w'. unfold m_try. destruct (m w) eqn:Em. intros [= _ <-]. by eapply Hm. Qed.

#[export] Hint Resolve preserves_m_map_err preserves_m_try : acn.

Lemma m_try_bind {W E A B} (m : M W E A) (f : Result E A → M W E B) w :
  (m_try m ≫= f) w = let '(r, w') := m w in f r w'.
Proof. unfold m_try. unfold mbind, M_bind. by destruct (m w). Qed.

Lemma m_map_err_ok {W E F A} (f : E → F) (m : M W E A) w a w' :
  m_map_err f m w = (Ok a, w') → m w = (Ok a, w').
Proof. unfold m_map_err. destruct (m w) as [[]?]; simpl; congruence. Qed.

Lemma m_map_err_err {W E F A} (f : E → F) (m : M W E A) w e w' :
  m_map_err f m w = (Err e, w') → ∃ e0, m w = (Err e0, w') ∧ e = f e0.
Proof. unfold m_map_err. destruct (m w) as [[]?]; simpl; naive_solver. Qed.

(** ** Fallible I/O

    Every file-system call of the source can fail.  A world carries a fault
    schedule: each I/O step consumes one entry and fails when it is [true];
    an exhausted schedule means every further step succeeds.  A failed step
    leaves the rest of the world as it was, which is what the atomic
    write (temporary file, fsync, rename) of storage/yaml.rs provides. *)

Class HasIO (W : Type) := {
  faults : W → list bool;
  set_faults : list bool → W → W;
}.

Definition io_step {W E} `{HasIO W} (err : E) : M W E unit := λ w,
  match faults w with
  | [] => (Ok tt, w)
  | b :: fs => (if b then Err err else Ok tt, set_faults fs w)
  end.

(** ** Orders and stable sorting

    [sort_by cmp] is the stable sort that [slice::sort_by] specifies: the
    result is the unique stable rearrangement, here by insertion. *)

Class TotalCmp {A} (cmp : A → A → comparison) : Prop := {
  cmp_opp x y : cmp y x = CompOpp (cmp x y);
  cmp_le_trans x y z : cmp x y ≠ Gt → cmp y z ≠ Gt → cmp x z ≠ Gt;
}.

Definition cmp_le {A} (cmp : A → A → comparison) : relation A := λ x y, cmp x y ≠ Gt.

Definition cmp_on {A B} (f : A → B) (cmp : B → B → comparison) : A → A → comparison :=
  λ x y, cmp (f x) (f y).

(** [c1.cmp(..).then_with(|| c2.cmp(..))] *)
Definition cmp_then {A} (c1 c2 : A → A → comparison) : A → A → comparison :=
  λ x y, match c1 x y with Eq => c2 x y | c => c end.

(** [b.cmp(&a)] instead of [a.cmp(&b)] *)
Definition cmp_rev {A} (c : A → A → comparison) : A → A → comparison := λ x y, c y x.

#[global] Typeclasses Opaque cmp_on cmp_then cmp_rev.

Fixpoint insert_by {A} (cmp : A → A → comparison) (x : A) (l : list A) : list A :=
  match l with
  | [] => [x]
  | y :: l' => match cmp x y with Gt => y :: insert_by cmp x l' | _ => x :: l end
  end.

Definition sort_by {A} (cmp : A → A → comparison) (l : list A) : list A :=
  foldr (insert_by cmp) [] l.

Lemma cmp_lt_le_trans {A} (c : A → A → comparison) `{!TotalCmp c} x y z :
  c x y = Lt → c y z ≠ Gt → c x z = Lt.
Proof.
  intros H1 H2.
  assert (Hxz : c x z ≠ Gt) by (eapply (cmp_le_trans x y z); congruence).
  destruct (c x z) eqn:E; [|done|done].
  exfalso. apply (cmp_le_trans y z x H2).
  - by rewrite cmp_opp, E.
  - by rewrite cmp_opp, H1.
Qed.

Lemma cmp_le_lt_trans {A} (c : A → A → comparison) `{!TotalCmp c} x y z :
  c x y ≠ Gt → c y z = Lt → c x z = Lt.
Proof.
  intros H1 H2.
  assert (Hxz : c x z ≠ Gt) by (eapply (cmp_le_trans x y z); congruence).
  destruct (c x z) eqn:E; [|done|done].
  exfalso. apply (cmp_le_trans z x y).
  - by rewrite cmp_opp, E.
  - done.
  - by rewrite cmp_opp, H2.
Qed.

#[export] Instance Z_compare_total : TotalCmp Z.compare.
Proof.
  split.
  - intros x y. apply Z.compare_antisym.
  - intros x y z. rewrite !Z.compare_le_iff. lia.
Qed.

#[export] Instance Nat_compare_total : TotalCmp Nat.compare.
Proof.
  split.
  - intros x y. apply Nat.compare_antisym.
  - intros x y z. rewrite !Nat.compare_le_iff. lia.
Qed.

#[export] Instance cmp_on_total {A B} (f : A → B) c `{!TotalCmp c} : TotalCmp (cmp_on f c).
Proof. split; unfold cmp_on; intros; [apply cmp_opp | by eapply cmp_le_trans]. Qed.

#[export] Instance cmp_rev_total {A} (c : A → A → comparison) `{!TotalCmp c} :
  TotalCmp (cmp_rev c).
Proof. split; unfold cmp_rev; intros; [apply cmp_opp | by eapply cmp_le_trans]. Qed.

#[export] Instance cmp_then_total {A} (c1 c2 : A → A → comparison)
  `{!TotalCmp c1, !TotalCmp c2} : TotalCmp (cmp_then c1 c2).
Proof.
  split; unfold cmp_then.
  - intros x y. rewrite (cmp_opp x y). destruct (c1 x y); simpl; [apply cmp_opp|done|done].
  - intros x y z. destruct (c1 x y) eqn:E1, (c1 y z) eqn:E2; intros H1 H2; try done.
    + assert (c1 x z = Eq) as ->; [|by eapply cmp_le_trans].
      assert (Hle : c1 x z ≠ Gt) by (apply (cmp_le_trans x y z); congruence).
      assert (Hge : c1 z x ≠ Gt).
      { apply (cmp_le_trans z y x); rewrite cmp_opp, ?E1, ?E2; done. }
      rewrite (cmp_opp x z) in Hge. by destruct (c1 x z).
    + by rewrite (cmp_le_lt_trans c1 x y z) by congruence.
    + by rewrite (cmp_lt_le_trans c1 x y z) by congruence.
    + by rewrite (cmp_lt_le_trans c1 x y z) by congruence.
Qed.

Lemma ascii_compare_N a b : Ascii.compare a b = N.compare (Ascii.N_of_ascii a) (Ascii.N_of_ascii b).
Proof. reflexivity. Qed.

#[export] Instance String_compare_total : TotalCmp String.compare.
Proof.
  split.
  - intros x y. apply String.compare_antisym.
  - intros x. induction x as [|a x IH]; intros [|b y] [|c z]; simpl; try done.
    rewrite !ascii_compare_N.
    destruct (N.compare_spec (Ascii.N_of_ascii a) (Ascii.N_of_ascii b)) as [H1|H1|H1]; try done;
    destruct (N.compare_spec (Ascii.N_of_ascii b) (Ascii.N_of_ascii c)) as [H2|H2|H2]; try done;
    destruct (N.compare_spec (Ascii.N_of_ascii a) (Ascii.N_of_ascii c)) as [H3|H3|H3];
      try done; try lia. apply IH.
Qed.

Section sort.
Context {A : Type} (cmp : A → A → comparison).

Lemma insert_by_perm x l : insert_by cmp x l ≡ₚ x :: l.
Proof.
  induction l as [|y l IH]; [done|]; simpl.
  destruct (cmp x y); [done|done|]. rewrite IH. constructor.
Qed.

Lemma sort_by_perm l : sort_by cmp l ≡ₚ l.
Proof. induction l as [|x l IH]; [done|]; simpl. by rewrite insert_by_perm, IH. Qed.

Lemma elem_of_sort_by x l : x ∈ sort_by cmp l ↔ x ∈ l.
Proof. by rewrite sort_by_perm. Qed.

Lemma length_sort_by l : length (sort_by cmp l) = length l.
Proof. by rewrite sort_by_perm. Qed.

Context `{!TotalCmp cmp}.

Lemma insert_by_sorted x l :
  StronglySorted (cmp_le cmp) l → StronglySorted (cmp_le cmp) (insert_by cmp x l).
Proof.
  induction 1 as [|y l Hl IH Hy]; simpl; [repeat constructor|].
  assert (Htail : cmp_le cmp x y → Forall (cmp_le cmp x) (y :: l)).
  { intros Hxy. constructor; [done|]. eapply Forall_impl; [apply Hy|].
    intros z Hz. by eapply (cmp_le_trans x y z). }
  destruct (cmp x y) eqn:E.
  1,2: constructor; [by constructor | apply Htail; unfold cmp_le; congruence].
  constructor; [done|]. rewrite insert_by_perm. constructor; [|done].
  unfold cmp_le. by rewrite cmp_opp, E.
Qed.

Lemma sort_by_sorted l : StronglySorted (cmp_le cmp) (sort_by cmp l).
Proof. induction l; simpl; [constructor | by apply insert_by_sorted]. Qed.

Lemma sort_by_id l : StronglySorted (cmp_le cmp) l → sort_by cmp l = l.
Proof.
  induction 1 as [|x l Hl IH Hx]; [done|]. simpl. rewrite IH. destruct l as [|y l]; [done|]. simpl.
  apply Forall_cons in Hx as [Hxy _]. unfold cmp_le in Hxy. by destruct (cmp x y).
Qed.

(** When only equal elements compare [Eq], the order of the input does not
    matter: what makes a sort over a directory listing well defined. *)
Lemma sort_by_perm_unique l1 l2 :
  (∀ x y, x ∈ l1 → y ∈ l1 → cmp x y = Eq → x = y) →
  l1 ≡ₚ l2 → sort_by cmp l1 = sort_by cmp l2.
Proof.
  intros Heq Hp. apply (StronglySorted_unique_strong (cmp_le cmp)).
  - intros x y. rewrite !elem_of_sort_by, <-Hp. unfold cmp_le. intros Hx Hy H1 H2.
    apply Heq; [done..|]. rewrite (cmp_opp x y) in H2. by destruct (cmp x y).
  - apply sort_by_sorted.
  - apply sort_by_sorted.
  - by rewrite !sort_by_perm.
Qed.
End sort.

(** ** Lists *)

(** First-occurrence deduplication: the
    [if !out.contains(&x) { out.push(x) }] loop the source writes in several
    places.  [seen] is what has been pushed so far, in order. *)
Fixpoint dedup_onto {A} `{EqDecision A} (seen l : list A) : list A :=
  match l with
  | [] => seen
  | x :: l' => dedup_onto (if bool_decide (x ∈ seen) then seen else seen ++ [x]) l'
  end.

Definition dedup {A} `{EqDecision A} (l : list A) : list A := dedup_onto [] l.

Section dedup.
Context {A : Type} `{EqDecision A}.
Implicit Types l seen : list A.

Lemma elem_of_dedup_onto seen l x : x ∈ dedup_onto seen l ↔ x ∈ seen ∨ x ∈ l.
Proof.
  revert seen. induction l as [|y l IH]; intros seen; simpl; [set_solver|].
  rewrite IH. case_bool_decide; set_solver.
Qed.

Lemma NoDup_dedup_onto seen l : NoDup seen → NoDup (dedup_onto seen l).
Proof.
  revert seen. induction l as [|y l IH]; intros seen Hs; simpl; [done|].
  apply IH. case_bool_decide; [done|]. apply NoDup_app. split_and!; [done| |].
  - set_solver.
  - apply NoDup_singleton.
Qed.

Lemma elem_of_dedup l x : x ∈ dedup l ↔ x ∈ l.
Proof. unfold dedup. rewrite elem_of_dedup_onto. set_solver. Qed.

Lemma NoDup_dedup l : NoDup (dedup l).
Proof. apply NoDup_dedup_onto. constructor. Qed.

Lemma dedup_onto_app seen l : NoDup (seen ++ l) → dedup_onto seen l = seen ++ l.
Proof.
  revert seen. induction l as [|y l IH]; intros seen Hnd; simpl; [by rewrite app_nil_r|].
  rewrite bool_decide_false.
  - rewrite IH; rewrite <-(assoc_L (++)); done.
  - apply NoDup_app in Hnd. set_solver.
Qed.

Lemma dedup_id l : NoDup l → dedup l = l.
Proof. apply (dedup_onto_app []). Qed.

Lemma dedup_nil_iff l : dedup l = [] ↔ l = [].
Proof.
  split; [|by intros ->]. intros H. destruct l as [|x l]; [done|].
  assert (x ∈ dedup (x :: l)) as Hx by (apply elem_of_dedup; set_solver).
  rewrite H in Hx. set_solver.
Qed.
End dedup.

Lemma Forall_filter_in {A} (P : A → Prop) `{!∀ x, Decision (P x)} (l : list A) :
  Forall P (filter P l).
Proof. apply Forall_forall. intros x Hx%list_elem_of_filter. tauto. Qed.

(** A [BTreeMap<String, Vec<V>>] filled by [entry(k).or_default().push(v)],
    as the association list of its iteration order. *)
Fixpoint bt_push {V} (k : string) (v : V) (m : list (string * list V)) : list (string * list V) :=
  match m with
  | [] => [(k, [v])]
  | (k', vs) :: m' =>
      match String.compare k k' with
      | Lt => (k, [v]) :: m
      | Eq => (k', vs ++ [v]) :: m'
      | Gt => (k', vs) :: bt_push k v m'
      end
  end.

Definition bt_group {A V} (key : A → string) (value : A → V) (l : list A) : list (string * list V) :=
  fold_left (λ m a, bt_push (key a) (value a) m) l [].

Definition bt_pairs {V} (m : list (string * list V)) : list (string * V) :=
  m ≫= λ kvs, pair kvs.1 <$> kvs.2.

Section bt.
Context {V : Type}.
Implicit Types m : list (string * list V).

Lemma string_compare_eq (x y : string) : String.compare x y = Eq → x = y.
Proof. apply String.compare_eq_iff. Qed.

Lemma bt_pairs_push k v m : bt_pairs (bt_push k v m) ≡ₚ (k, v) :: bt_pairs m.
Proof.
  induction m as [|[k' vs] m IH]; [done|]. simpl.
  destruct (String.compare k k') eqn:Ec; csimpl; [|done|].
  - apply string_compare_eq in Ec as ->. unfold bt_pairs. csimpl.
    rewrite fmap_app. csimpl. rewrite <-(assoc_L (++)). csimpl.
    by rewrite <-Permutation_middle.
  - unfold bt_pairs in *. csimpl. rewrite IH. by rewrite <-Permutation_middle.
Qed.

Lemma bt_keys_push k v m k' : k' ∈ (bt_push k v m).*1 ↔ k' = k ∨ k' ∈ m.*1.
Proof.
  induction m as [|[k0 vs] m IH]; csimpl; [set_solver|].
  destruct (String.compare k k0) eqn:Ec; csimpl; rewrite !elem_of_cons, ?IH; [|tauto..].
  apply string_compare_eq in Ec as ->. tauto.
Qed.

Definition bt_sorted m : Prop := StronglySorted (λ x y, String.compare x y = Lt) m.*1.

Lemma bt_sorted_push k v m : bt_sorted m → bt_sorted (bt_push k v m).
Proof.
  unfold bt_sorted. induction m as [|[k0 vs] m IH]; csimpl; [repeat constructor|].
  intros Hs. inversion Hs as [|? ? Hs' Hall]; subst.
  destruct (String.compare k k0) eqn:Ec; csimpl; [done| |].
  - constructor; [done|]. constructor; [done|].
    eapply Forall_impl; [exact Hall|]. intros z Hz. simpl in Hz.
    eapply (cmp_lt_le_trans String.compare); [exact Ec|congruence].
  - constructor; [by apply IH|]. apply Forall_forall. intros z Hz%bt_keys_push.
    rewrite Forall_forall in Hall. destruct Hz as [->|Hz]; [|by apply Hall].
    rewrite cmp_opp, Ec. done.
Qed.
End bt.

Lemma bt_group_spec {A V} (key : A → string) (value : A → V) l :
  bt_pairs (bt_group key value l) ≡ₚ (λ a, (key a, value a)) <$> l ∧
  bt_sorted (bt_group key value l).
Proof.
  unfold bt_group.
  assert (∀ m : list (string * list V), bt_sorted m →
    bt_pairs (fold_left (λ m a, bt_push (key a) (value a) m) l m)
      ≡ₚ bt_pairs m ++ ((λ a, (key a, value a)) <$> l) ∧
    bt_sorted (fold_left (λ m a, bt_push (key a) (value a) m) l m)) as Hgen.
  { induction l as [|a l IH]; intros m Hm; csimpl; [by rewrite app_nil_r|].
    destruct (IH _ (bt_sorted_push (key a) (value a) m Hm)) as [Hp Hs]. split; [|done].
    rewrite Hp, bt_pairs_push. csimpl. by rewrite <-Permutation_middle. }
  by apply (Hgen []); constructor.
Qed.

(** ** Tactics *)

(** Peel one monadic bind off a successful run. *)
Ltac mbind_inv H :=
  let a := fresh "a" in let w := fresh "w" in let H1 := fresh H in
  apply bind_ok in H as (a & w & H1 & H).

(** Run the pure steps at the head of a computation. *)
Ltac mrun_in H :=
  cbv [mbind M_bind mret M_ret fail gets get_world modify lift_result] in H.
Ltac mrun := cbv [mbind M_bind mret M_ret fail gets get_world modify lift_result].

(** Case on every [match]/[if] that blocks a hypothesis. *)
Ltac case_in H :=
  repeat match type of H with
  | context [match ?x with _ => _ end] =>
      lazymatch x with
      | context [match _ with _ => _ end] => fail
      | _ => let E := fresh "E" in destruct x eqn:E; simplify_eq/=
      end
  end.

(** Discharge [preserves R m] along the structure of [m]. *)
Ltac solve_preserves :=
  repeat first
    [ progress intros
    | solve [eauto with acn typeclass_instances]
    | apply preserves_bind
    | apply preserves_for_each
    | match goal with
      | |- preserves _ (match ?x with _ => _ end) => destruct x
      end ].

Lemma StronglySorted_lookup_lt {A} (R : relation A) l i j x y :
  StronglySorted R l → l !! i = Some x → l !! j = Some y → i < j → R x y.
Proof.
  intros Hs Hx Hy Hij. rewrite <-(take_drop j l) in Hs. eapply StronglySorted_app_1_elem_of; [exact Hs|..].
  - apply (list_elem_of_lookup_2 _ i). by rewrite lookup_take_lt.
  - apply (list_elem_of_lookup_2 _ 0). by rewrite lookup_drop, Nat.add_0_r.
Qed.
