(* ===== verification/Storage.v ===== *)
(** * File storage (src/src/storage/yaml.rs, src/src/storage/mint.rs)

    A directory of [<key>.yaml] files is a finite map from keys to files; a
    file is either a stored value or the zero-byte placeholder that
    [mint_unique_id_in_dir] creates with O_CREAT|O_EXCL.  Writes are atomic:
    a failing write leaves the old file, as the temporary-file-and-rename
    protocol of [write_yaml_atomic] does. *)

From S2P Require Import Prelude.

Inductive StorageError :=
| IoFailed
| FileNotFound
| DecodeFailed
| MintZeroAttempts
| MintExhausted (last_collision : option string).

#[export] Instance StorageError_eq_dec : EqDecision StorageError.
Proof. solve_decision. Defined.

(** [From<StorageError>] of each caller's error type, applied by [?]. *)
Class FromStorage (E : Type) := from_storage : StorageError → E.
#[export] Instance FromStorage_id : FromStorage StorageError := λ e, e.

Inductive file (A : Type) :=
| Reserved
| Stored (a : A).
Arguments Reserved {A}.
Arguments Stored {A} a.

Definition file_value {A} (f : file A) : option A :=
  match f with Reserved => None | Stored a => Some a end.

(** Where a directory lives in the world. *)
Record Dir (W A : Type) := {
  dir_get : W → gmap string (file A);
  dir_set : gmap string (file A) → W → W;
}.
Arguments dir_get {W A} d w.
Arguments dir_set {W A} d m w.

Class DirLaws {W A} `{HasIO W} (d : Dir W A) : Prop := {
  dir_get_set m w : dir_get d (dir_set d m w) = m;
  dir_get_faults fs w : dir_get d (set_faults fs w) = dir_get d w;
  faults_dir_set m w : faults (dir_set d m w) = faults w;
}.

Section storage.
Context {W E : Type} `{HasIO W, FromStorage E}.

Definition io : M W E unit := io_step (from_storage IoFailed).

Section dir.
Context {A : Type} (d : Dir W A).

Definition read_yaml (key : string) : M W E A :=
  _ ← io;
  w ← get_world;
  match dir_get d w !! key with
  | None => fail (from_storage FileNotFound)
  | Some Reserved => fail (from_storage DecodeFailed)
  | Some (Stored a) => mret a
  end.

Definition write_yaml_atomic (key : string) (value : A) : M W E unit :=
  _ ← io;
  modify (λ w, dir_set d (<[key := Stored value]> (dir_get d w)) w).

(** [create_new(true)]: [false] when the file already exists. *)
Definition create_new (key : string) : M W E bool :=
  _ ← io;
  w ← get_world;
  if bool_decide (is_Some (dir_get d w !! key)) then mret false
  else _ ← modify (λ w, dir_set d (<[key := Reserved]> (dir_get d w)) w); mret true.

(** The directory scans of outbox_io::list and list_policies: a placeholder
    with a valid identifier for a name is skipped; any other empty file
    does not parse.  The order of the listing is the map's. *)
Fixpoint collect_files (valid_name : string → bool) (l : list (string * file A)) :
    Result E (list A) :=
  match l with
  | [] => Ok []
  | (_, Stored a) :: l' => rest ← collect_files valid_name l'; Ok (a :: rest)
  | (name, Reserved) :: l' =>
      if valid_name name then collect_files valid_name l'
      else Err (from_storage DecodeFailed)
  end.

Definition list_yaml (valid_name : string → bool) : M W E (list A) :=
  _ ← io;
  w ← get_world;
  lift_result (collect_files valid_name (map_to_list (dir_get d w))).

(** [mint_unique_id_in_dir]: draw candidates until one is free. *)
Fixpoint mint_loop (factory : M W E string) (attempts : nat) (last_collision : option string) :
    M W E string :=
  match attempts with
  | O => fail (from_storage (MintExhausted last_collision))
  | S attempts' =>
      candidate ← factory;
      created ← create_new candidate;
      if (created : bool) then mret candidate
      else mint_loop factory attempts' (Some candidate)
  end.

Definition mint_unique_id_in_dir (factory : M W E string) (max_attempts : nat) : M W E string :=
  if bool_decide (max_attempts = 0) then fail (from_storage MintZeroAttempts)
  else _ ← io; mint_loop factory max_attempts None.
End dir.

(** ** What a successful step did *)

Lemma io_inv r w w' : io w = (r, w') →
  (r = Ok tt ∨ r = Err (from_storage IoFailed)) ∧ (w' = w ∨ w' = set_faults (tail (faults w)) w).
Proof.
  unfold io, io_step. destruct (faults w) as [|[] fs] eqn:Ef; intros [= <- <-]; simpl; auto.
Qed.

Lemma io_no_fault w : faults w = [] → io w = (Ok tt, w).
Proof. unfold io, io_step. by intros ->. Qed.

Definition same_dir {A} (d : Dir W A) : relation W := λ w w', dir_get d w' = dir_get d w.

#[export] Instance same_dir_preorder {A} (d : Dir W A) : PreOrder (same_dir d).
Proof. split; [done|]. intros w1 w2 w3 H1 H2. unfold same_dir in *. congruence. Qed.

Section dir_lemmas.
Context {A : Type} (d : Dir W A) `{!DirLaws d}.

Lemma io_dir r w w' : io w = (r, w') → dir_get d w' = dir_get d w.
Proof. intros [_ [->| ->]]%io_inv; [done|]. by rewrite dir_get_faults. Qed.

Lemma read_yaml_inv key r w w' : read_yaml d key w = (r, w') →
  dir_get d w' = dir_get d w ∧
  (∀ a, r = Ok a → dir_get d w !! key = Some (Stored a)).
Proof.
  unfold read_yaml. intros [(? & w1 & H1 & H2)|(e & H1 & ->)]%bind_cases.
  - apply io_dir in H1 as <-. mrun_in H2.
    destruct (dir_get d w1 !! key) as [[|a]|] eqn:Ek; simplify_eq/=; naive_solver.
  - apply io_dir in H1. done.
Qed.

Lemma read_yaml_ok key a w w' : read_yaml d key w = (Ok a, w') →
  dir_get d w !! key = Some (Stored a) ∧ dir_get d w' = dir_get d w.
Proof. intros [? ?]%read_yaml_inv; auto. Qed.

Lemma read_yaml_run key a w : faults w = [] → dir_get d w !! key = Some (Stored a) →
  read_yaml d key w = (Ok a, w).
Proof.
  intros Hf Hk. unfold read_yaml. rewrite (bind_step _ _ w tt w) by by apply io_no_fault.
  mrun. by rewrite Hk.
Qed.

Lemma write_yaml_inv key v r w w' : write_yaml_atomic d key v w = (r, w') →
  (r = Ok tt ∧ dir_get d w' = <[key := Stored v]> (dir_get d w)) ∨
  (r = Err (from_storage IoFailed) ∧ dir_get d w' = dir_get d w).
Proof.
  unfold write_yaml_atomic. intros [(? & w1 & H1 & H2)|(e & H1 & ->)]%bind_cases.
  - apply io_dir in H1 as <-. mrun_in H2. simplify_eq. left.
    by rewrite dir_get_set.
  - right. split; [|by apply io_dir in H1]. apply io_inv in H1 as [[|] _]; congruence.
Qed.

Lemma write_yaml_ok key v w w' : write_yaml_atomic d key v w = (Ok tt, w') →
  dir_get d w' = <[key := Stored v]> (dir_get d w).
Proof. by intros [[_ ?]|[? _]]%write_yaml_inv. Qed.

Lemma write_yaml_run key v w : faults w = [] →
  write_yaml_atomic d key v w = (Ok tt, dir_set d (<[key := Stored v]> (dir_get d w)) w).
Proof.
  intros Hf. unfold write_yaml_atomic. by rewrite (bind_step _ _ w tt w) by by apply io_no_fault.
Qed.

Lemma create_new_inv key r w w' : create_new d key w = (r, w') →
  (r = Ok true ∧ dir_get d w !! key = None ∧ dir_get d w' = <[key := Reserved]> (dir_get d w)) ∨
  (r = Ok false ∧ is_Some (dir_get d w !! key) ∧ dir_get d w' = dir_get d w) ∨
  (r = Err (from_storage IoFailed) ∧ dir_get d w' = dir_get d w).
Proof.
  unfold create_new. intros [(? & w1 & H1 & H2)|(e & H1 & ->)]%bind_cases.
  - apply io_dir in H1 as <-. mrun_in H2.
    case_bool_decide as Hk; simplify_eq/=; [by auto|]. left.
    rewrite dir_get_set. split_and!; [done|by apply eq_None_not_Some|done].
  - right; right. split; [|by apply io_dir in H1]. apply io_inv in H1 as [[|] _]; congruence.
Qed.

(** The list of stored values of a directory. *)
Definition stored (m : gmap string (file A)) : list A := omap (file_value ∘ snd) (map_to_list m).

Lemma elem_of_stored m a : a ∈ stored m ↔ ∃ k, m !! k = Some (Stored a).
Proof.
  unfold stored. rewrite list_elem_of_omap. split.
  - intros ([k f] & Hin & Hv). apply elem_of_map_to_list in Hin. simpl in Hv.
    destruct f; simplify_eq/=. eauto.
  - intros [k Hk]. exists (k, Stored a). by rewrite elem_of_map_to_list.
Qed.

Lemma collect_files_ok valid_name l (r : list A) :
  collect_files valid_name l = Ok r → r = omap (file_value ∘ snd) l.
Proof.
  revert r. induction l as [|[k [|a]] l IH]; simpl; intros r Hr.
  - by simplify_eq.
  - destruct (valid_name k); [by apply IH | done].
  - apply result_bind_ok in Hr as (rest & H1 & H2). simplify_eq. f_equal. by apply IH.
Qed.

Lemma list_yaml_inv valid_name r w w' : list_yaml d valid_name w = (r, w') →
  dir_get d w' = dir_get d w ∧ (∀ l, r = Ok l → l = stored (dir_get d w)).
Proof.
  unfold list_yaml. intros [(? & w1 & H1 & H2)|(e & H1 & ->)]%bind_cases.
  - apply io_dir in H1 as <-. mrun_in H2.
    simplify_eq. split; [done|]. intros l Hl. by eapply collect_files_ok.
  - apply io_dir in H1. done.
Qed.

Definition names_valid (valid_name : string → bool) (m : gmap string (file A)) : Prop :=
  ∀ k, m !! k = Some Reserved → valid_name k = true.

Lemma list_yaml_run valid_name w : faults w = [] → names_valid valid_name (dir_get d w) →
  list_yaml d valid_name w = (Ok (stored (dir_get d w)), w).
Proof.
  intros Hf Hv. unfold list_yaml. rewrite (bind_step _ _ w tt w) by by apply io_no_fault.
  mrun. f_equal. unfold stored.
  assert (∀ l : list (string * file A), (∀ k, (k, Reserved) ∈ l → valid_name k = true) →
    collect_files valid_name l = Ok (omap (file_value ∘ snd) l)) as Hc.
  { induction l as [|[k [|a]] l IH]; intros Hl; simpl; [done| |].
    - rewrite Hl by set_solver. apply IH. set_solver.
    - rewrite IH by set_solver. done. }
  apply Hc. intros k Hk%elem_of_map_to_list. by apply Hv.
Qed.
End dir_lemmas.

(** Minting either reserves a fresh name that the factory drew, or leaves
    the directory as it was.  [I] is what the factory needs of the world. *)
Lemma mint_inv {A} (d : Dir W A) `{!DirLaws d} factory n (I : W → Prop) (Q : string → Prop) w r w' :
  (∀ w r w', I w → factory w = (r, w') →
    same_dir d w w' ∧ I w' ∧ ∀ c, r = Ok c → Q c) →
  (∀ fs w, I w → I (set_faults fs w)) → (∀ m w, I w → I (dir_set d m w)) →
  I w → mint_unique_id_in_dir d factory n w = (r, w') →
  I w' ∧
  ((∃ id, r = Ok id ∧ Q id ∧ dir_get d w !! id = None ∧
      dir_get d w' = <[id := Reserved]> (dir_get d w)) ∨
   ((∃ e, r = Err e) ∧ dir_get d w' = dir_get d w)).
Proof.
  intros Hfac Hfs Hset HI.
  assert (Hio : ∀ (r : Result E unit) w w', I w → io w = (r, w') → I w' ∧ same_dir d w w').
  { intros r0 w0 w1 HI0 Hs. split; [|by eapply io_dir].
    by apply io_inv in Hs as [_ [->| ->]]; auto. }
  unfold mint_unique_id_in_dir. case_bool_decide as Hn0.
  { intros [= <- <-]. eauto 6. }
  intros [(? & w1 & H1 & H2)|(e & H1 & ->)]%bind_cases;
    destruct (Hio _ _ _ HI H1) as [HI1 Hd1]; [|split; [done|right; by eauto]].
  revert H2. unfold same_dir in Hd1. rewrite <-Hd1. clear w HI H1 Hd1 Hn0. revert w1 HI1.
  generalize (@None string). induction n as [|n IH]; intros last w HI; simpl.
  { intros [= <- <-]. eauto 6. }
  intros [(c & w1 & H1 & H2)|(e & H1 & ->)]%bind_cases;
    destruct (Hfac _ _ _ HI H1) as (Hd1 & HI1 & HQ); [|by eauto 7]. unfold same_dir in Hd1.
  assert (HI2 : ∀ b w2, create_new d c w1 = (b, w2) → I w2).
  { unfold create_new. intros b w2 [(? & w1' & H3 & H4)|(? & H3 & _)]%bind_cases;
      destruct (Hio _ _ _ HI1 H3) as [HI3 _]; [|done].
    mrun_in H4. case_bool_decide; simplify_eq/=; auto. }
  apply bind_cases in H2 as [(b & w2 & H2 & H3)|(e & H2 & ->)]; specialize (HI2 _ _ H2).
  - destruct (create_new_inv d _ _ _ _ H2) as [(? & Hn & Hw)|[(? & _ & Hw)|[? _]]]; [| |congruence]; simplify_eq.
    + injection H3 as <- <-. split; [done|]. left. exists c. rewrite <-Hd1. eauto.
    + rewrite <-Hd1, <-Hw. eauto.
  - destruct (create_new_inv d _ _ _ _ H2) as [(? & _)|[(? & _)|[? Hw]]]; [congruence..|].
    split; [done|]. right. split; [eauto|]. by rewrite Hw.
Qed.

(** ** What the file operations do to the rest of the world

    A relation that ignores the fault schedule is preserved by every read;
    one that also ignores a directory is preserved by every operation on
    that directory, placeholders and failures included. *)

Class FaultClosed (R : relation W) : Prop := fault_closed fs w : R w (set_faults fs w).
Class DirClosed {A} (R : relation W) (d : Dir W A) : Prop := dir_closed m w : R w (dir_set d m w).

Section closed.
Context (R : relation W) `{!PreOrder R, !FaultClosed R}.

Lemma preserves_get : preserves (E:=E) R get_world.
Proof. by intros w r w' [= _ <-]. Qed.

Lemma preserves_io_step (e : E) : preserves R (io_step e).
Proof.
  intros w r w'. unfold io_step. destruct (faults w); intros [= _ <-]; [done|].
  apply fault_closed.
Qed.

Lemma preserves_io : preserves R io.
Proof. apply preserves_io_step. Qed.

Lemma preserves_read {A} (d : Dir W A) key : preserves R (read_yaml d key).
Proof.
  unfold read_yaml. apply preserves_bind; [apply _|apply preserves_io|]. intros _.
  apply preserves_bind; [apply _|apply preserves_get|]. intros w0.
  destruct (dir_get d w0 !! key) as [[|]|]; auto with acn typeclass_instances.
Qed.

Lemma preserves_list {A} (d : Dir W A) valid_name : preserves R (list_yaml d valid_name).
Proof.
  unfold list_yaml. apply preserves_bind; [apply _|apply preserves_io|]. intros _.
  apply preserves_bind; [apply _|apply preserves_get|]. intros w0.
  auto with acn typeclass_instances.
Qed.

Context {A : Type} (d : Dir W A) `{!DirClosed R d}.

Lemma preserves_dir_modify f : preserves (E:=E) R (modify (λ w, dir_set d (f w) w)).
Proof. intros w r w' [= _ <-]. apply dir_closed. Qed.

Lemma preserves_write key v : preserves R (write_yaml_atomic d key v).
Proof.
  unfold write_yaml_atomic. apply preserves_bind; [apply _|apply preserves_io|]. intros _.
  apply preserves_dir_modify.
Qed.

Lemma preserves_create_new key : preserves R (create_new d key).
Proof.
  unfold create_new. apply preserves_bind; [apply _|apply preserves_io|]. intros _.
  apply preserves_bind; [apply _|apply preserves_get|]. intros w0.
  case_bool_decide; [auto with acn typeclass_instances|].
  apply preserves_bind; [apply _|apply preserves_dir_modify|].
  auto with acn typeclass_instances.
Qed.

Lemma preserves_mint factory n :
  preserves R factory → preserves R (mint_unique_id_in_dir d factory n).
Proof.
  intros Hfac. unfold mint_unique_id_in_dir. case_bool_decide as Hn;
    [auto with acn typeclass_instances|].
  apply preserves_bind; [apply _|apply preserves_io|]. intros _. generalize (@None string).
  clear Hn. induction n as [|n IH]; intros last; simpl; [auto with acn typeclass_instances|].
  apply preserves_bind; [apply _|done|]. intros c.
  apply preserves_bind; [apply _|apply preserves_create_new|].
  intros []; [auto with acn typeclass_instances|apply IH].
Qed.
End closed.

#[export] Instance same_dir_faults {A} (d : Dir W A) `{!DirLaws d} : FaultClosed (same_dir d).
Proof. intros fs w. apply dir_get_faults. Qed.

Class DirDisjoint {A B} (d1 : Dir W A) (d2 : Dir W B) : Prop :=
  dir_get_set_ne : ∀ m w, dir_get d1 (dir_set d2 m w) = dir_get d1 w.

#[export] Instance same_dir_disjoint {A B} (d1 : Dir W A) (d2 : Dir W B) `{!DirDisjoint d1 d2} :
  DirClosed (same_dir d1) d2.
Proof. intros m w. apply dir_get_set_ne. Qed.
End storage.

#[export] Hint Resolve preserves_get preserves_io_step preserves_io preserves_read preserves_list
  preserves_write preserves_mint : acn.
