(* ===== verification/Claim.v ===== *)
(** * The claim data model and its identifiers (src/src/claim/, src/src/time.rs)

    Identifiers are UTF-8 byte strings; instants are nanoseconds since the
    epoch.  [Ids] models parsing, random and derived identifiers of id.rs;
    the records after it are the entities exchanged between Agent, Router
    and Maintainer; [Clock] models the time helpers of time.rs. *)

From S2P Require Import Prelude.

Abbreviation ClaimId := string (only parsing).
Abbreviation PolicyId := string (only parsing).
Abbreviation TraceId := string (only parsing).
Abbreviation DisputeId := string (only parsing).
Abbreviation InboxId := string (only parsing).
Abbreviation MaintainerActionId := string (only parsing).
Abbreviation SessionId := string (only parsing).
Abbreviation ArbitrationResolutionId := string (only parsing).
Abbreviation AgentId := string (only parsing).
Abbreviation DateTime := Z (only parsing).

Module Ids.

Inductive IdError :=
| WrongPrefix (expected actual : string)
| BadSuffix (suffix : string)
| BadAgentId (id : string)
| SourceIdBadPrefix (id : string).

(** [str::strip_prefix] *)
Fixpoint strip_prefix (p s : string) : option string :=
  match p, s with
  | EmptyString, _ => Some s
  | String a p', String b s' => if bool_decide (a = b) then strip_prefix p' s' else None
  | String _ _, EmptyString => None
  end.

Definition starts_with (p s : string) : bool :=
  match strip_prefix p s with Some _ => true | None => false end.

Fixpoint all_chars (f : ascii → bool) (s : string) : bool :=
  match s with
  | EmptyString => true
  | String a s' => f a && all_chars f s'
  end.

Definition in_range (lo hi : N) (a : ascii) : bool :=
  (lo <=? Ascii.N_of_ascii a)%N && (Ascii.N_of_ascii a <=? hi)%N.

Definition is_ascii_digit (a : ascii) : bool := in_range 48 57 a.
Definition is_ascii_uppercase (a : ascii) : bool := in_range 65 90 a.
Definition is_ascii_lowercase (a : ascii) : bool := in_range 97 122 a.
Definition is_ascii_hexdigit (a : ascii) : bool :=
  is_ascii_digit a || in_range 65 70 a || in_range 97 102 a.

Definition lower_hex_char (a : ascii) : bool :=
  is_ascii_hexdigit a && negb (is_ascii_uppercase a).

Definition good_suffix (suffix : string) : bool :=
  bool_decide (String.length suffix = 8) && all_chars lower_hex_char suffix.

(** [FromStr] of the [prefixed_id!] macro *)
Definition prefixed_from_str (prefix s : string) : Result IdError string :=
  match strip_prefix prefix s with
  | None => Err (WrongPrefix prefix s)
  | Some suffix =>
      if negb (bool_decide (String.length suffix = 8)) || negb (all_chars lower_hex_char suffix)
      then Err (BadSuffix suffix)
      else Ok s
  end.

Definition claim_prefix : string := "claim_".
Definition policy_prefix : string := "policy_".
Definition trace_prefix : string := "trace_".
Definition dispute_prefix : string := "dispute_".
Definition inbox_prefix : string := "inbox_".
Definition intent_prefix : string := "intent_".
Definition session_prefix : string := "session_".
Definition resolution_prefix : string := "resolution_".
Definition legacy_arbitration_prefix : string := "arbitration_".

Definition ClaimId_from_str := prefixed_from_str claim_prefix.
Definition PolicyId_from_str := prefixed_from_str policy_prefix.

(** [FromStr for ArbitrationResolutionId]: the old prefix is still read. *)
Definition ArbitrationResolutionId_from_str (value : string) : Result IdError string :=
  match
    match strip_prefix resolution_prefix value with
    | Some suffix => Some suffix
    | None => strip_prefix legacy_arbitration_prefix value
    end
  with
  | None => Err (WrongPrefix resolution_prefix value)
  | Some suffix =>
      if negb (bool_decide (String.length suffix = 8)) || negb (all_chars lower_hex_char suffix)
      then Err (BadSuffix suffix)
      else Ok value
  end.

Definition agent_id_char (c : ascii) : bool :=
  is_ascii_lowercase c || is_ascii_digit c
  || bool_decide (c = "-"%char) || bool_decide (c = "_"%char).

(** [AgentId::new] *)
Definition AgentId_new (s : string) : Result IdError string :=
  if bool_decide (s = EmptyString) || negb (all_chars agent_id_char s)
  then Err (BadAgentId s) else Ok s.

Inductive SourceId :=
| SourceClaim (c : ClaimId)
| SourcePolicy (p : PolicyId).

#[export] Instance SourceId_eq_dec : EqDecision SourceId.
Proof. solve_decision. Defined.

Definition SourceId_as_str (s : SourceId) : string :=
  match s with SourceClaim c => c | SourcePolicy p => p end.

(** [FromStr for SourceId]: dispatch on the prefix. *)
Definition SourceId_from_str (s : string) : Result IdError SourceId :=
  if starts_with claim_prefix s then
    match ClaimId_from_str s with Ok c => Ok (SourceClaim c) | Err e => Err e end
  else if starts_with policy_prefix s then
    match PolicyId_from_str s with Ok p => Ok (SourcePolicy p) | Err e => Err e end
  else Err (SourceIdBadPrefix s).

(** [{:0k x}]: [k] lower-case hexadecimal digits. *)
Definition hex_digit (n : Z) : ascii :=
  Ascii.ascii_of_N (Z.to_N (if (n <? 10)%Z then 48 + n else 87 + n)).

Fixpoint hex_fixed (k : nat) (n : Z) : string :=
  match k with
  | O => EmptyString
  | S k' => (hex_fixed k' (n / 16) +:+ String (hex_digit (n mod 16)) EmptyString)%Z
  end.

Definition nanos_per_sec : Z := 1000000000.
Definition i64_min : Z := -9223372036854775808.
Definition i64_max : Z := 9223372036854775807.

(** [timestamp_nanos_opt] falls back to [timestamp() * 1_000_000_000] for
    instants out of the 64-bit range; the product is taken modulo 2^64 as
    in a release build. *)
Definition timestamp_nanos (t : DateTime) : Z :=
  if ((i64_min <=? t) && (t <=? i64_max))%Z then t
  else ((t / nanos_per_sec) * nanos_per_sec)%Z.

Fixpoint le_bytes (k : nat) (n : Z) : list Z :=
  match k with
  | O => []
  | S k' => (n mod 256)%Z :: le_bytes k' (n / 256)%Z
  end.

Fixpoint str_bytes (s : string) : list Z :=
  match s with
  | EmptyString => []
  | String a s' => Z.of_N (Ascii.N_of_ascii a) :: str_bytes s'
  end.

(** [<str as Hash>::hash]: the bytes and a 0xff terminator. *)
Definition hash_str (s : string) : list Z := str_bytes s ++ [255%Z].

(** The bytes each kind of identifier feeds to the hasher between the
    timestamp and the salt. *)
Definition claim_payload (name scope : string) : list Z := hash_str name ++ hash_str scope.

Definition trace_payload (name : string) (inputs : list SourceId) (outputs : list ClaimId) : list Z :=
  hash_str name ++ (inputs ≫= λ i, hash_str (SourceId_as_str i)) ++ [0%Z]
    ++ (outputs ≫= hash_str).

Definition dispute_payload (name : string) (claims : list ClaimId) (summary : string) : list Z :=
  hash_str name ++ (claims ≫= hash_str) ++ hash_str summary.

Section random.
(** The [hex] crate's encoder and the standard library's hasher. *)
Context (hex_encode : list Z → string) (hasher_finish : list Z → Z).

Definition random_hex8 (buf : list Z) : string := hex_encode buf.

(** [$name::random], from four random bytes *)
Definition prefixed_random (prefix : string) (buf : list Z) : string :=
  prefix +:+ random_hex8 buf.

Definition derive_id_string (prefix : string) (created_at : DateTime) (salt_hex4 : string)
    (payload : list Z) : string :=
  let input := le_bytes 8 (timestamp_nanos created_at) ++ payload ++ hash_str salt_hex4 in
  prefix +:+ hex_fixed 8 (hasher_finish input mod 4294967296)%Z.

Definition ClaimId_from_claim_parts_with_salt created_at name scope salt : ClaimId :=
  derive_id_string claim_prefix created_at salt (claim_payload name scope).

Definition TraceId_from_trace_parts_with_salt created_at name inputs outputs salt : TraceId :=
  derive_id_string trace_prefix created_at salt (trace_payload name inputs outputs).

Definition DisputeId_from_dispute_parts_with_salt created_at name claims summary salt : DisputeId :=
  derive_id_string dispute_prefix created_at salt (dispute_payload name claims summary).
End random.
End Ids.
Import Ids.

(** ** Entities *)

Inductive Confidence := High | Medium | Low.
Inductive ClaimStatus := ClaimActive | ClaimStale | ClaimDeprecated.
Inductive PolicyMessageType := PolicyUpdateType | ClaimAttributeUpdateType.
Inductive PolicyStatus := PolicyActive | PolicyDeprecated.
Inductive DisputeStatus := DisputeOpen | DisputeResolved.

#[export] Instance Confidence_eq_dec : EqDecision Confidence.
Proof. solve_decision. Defined.
#[export] Instance ClaimStatus_eq_dec : EqDecision ClaimStatus.
Proof. solve_decision. Defined.
#[export] Instance PolicyMessageType_eq_dec : EqDecision PolicyMessageType.
Proof. solve_decision. Defined.
#[export] Instance PolicyStatus_eq_dec : EqDecision PolicyStatus.
Proof. solve_decision. Defined.
#[export] Instance DisputeStatus_eq_dec : EqDecision DisputeStatus.
Proof. solve_decision. Defined.

Record Claim := {
  claim_id : ClaimId;
  claim_name : string;
  claim_statement : string;
  claim_scope : string;
  claim_holder : AgentId;
  claim_confidence : Confidence;
  claim_status : ClaimStatus;
  claim_created_at : DateTime;
  claim_updated_at : option DateTime;
  claim_source_claim_ids : list SourceId;
  claim_evidence_summary : string;
}.

Definition effective_updated_at (c : Claim) : DateTime :=
  default (claim_created_at c) (claim_updated_at c).

Record Trace := {
  trace_id : TraceId;
  trace_name : string;
  trace_task : string;
  trace_agent : AgentId;
  trace_input_claims : list SourceId;
  trace_output_claims : list ClaimId;
  trace_created_at : DateTime;
}.

Record Policy := {
  policy_id : PolicyId;
  policy_message_type : PolicyMessageType;
  policy_name : string;
  policy_statement : string;
  policy_scope : string;
  policy_status : PolicyStatus;
  policy_created_at : DateTime;
  policy_updated_at : option DateTime;
  policy_target_agents : option (list AgentId);
}.

Record Dispute := {
  dispute_id : DisputeId;
  dispute_name : string;
  dispute_reporter_agent_id : AgentId;
  dispute_claims : list ClaimId;
  dispute_summary : string;
  dispute_status : DisputeStatus;
  dispute_created_at : DateTime;
  dispute_resolved_at : option DateTime;
}.

Inductive DisputeReportValidationError := InvalidLifecycleState.

(** [Dispute::validate_agent_report] *)
Definition validate_agent_report (d : Dispute) : Result DisputeReportValidationError unit :=
  if negb (bool_decide (dispute_status d = DisputeOpen)) || bool_decide (is_Some (dispute_resolved_at d))
  then Err InvalidLifecycleState
  else Ok tt.

Inductive ResolutionType := Coexist | LifecycleUpdate | ConflictResolved | Unresolved.
Inductive ResolutionBasis :=
| DirectAnalysis | PriorResolution | BasisPolicy | Evidence | InsufficientEvidence.
Inductive ResolvedBy := Automatic | Human.

#[export] Instance ResolutionType_eq_dec : EqDecision ResolutionType.
Proof. solve_decision. Defined.
#[export] Instance ResolutionBasis_eq_dec : EqDecision ResolutionBasis.
Proof. solve_decision. Defined.
#[export] Instance ResolvedBy_eq_dec : EqDecision ResolvedBy.
Proof. solve_decision. Defined.

Definition is_resolved (t : ResolutionType) : bool :=
  match t with Unresolved => false | _ => true end.

Record ClaimAssessment := {
  ca_claim_id : ClaimId;
  ca_recommended_status : ClaimStatus;
  ca_assessment : string;
  ca_recommended_scope : option string;
  ca_recommended_statement : option string;
  ca_reason : string;
}.

Record DisputeResolution := {
  dr_resolution_id : ArbitrationResolutionId;
  dr_resolved_by : ResolvedBy;
  dr_resolved_at : DateTime;
  dr_resolution_type : option ResolutionType;
  dr_resolution_basis : option ResolutionBasis;
  dr_conclusion : string;
  dr_claim_assessments : list ClaimAssessment;
  dr_rejection_reason : option string;
}.

Record ArbitrationResolutionContext := {
  arc_dispute_id : DisputeId;
  arc_resolution : DisputeResolution;
  arc_context_snapshot_hash : option string;
  arc_dispute_snapshot : Dispute;
  arc_direct_claim_snapshots : list Claim;
  arc_snapshot_source_resolution_id : option ArbitrationResolutionId;
}.

Inductive InboxMessageKind :=
| PolicyUpdate (policy : Policy)
| ClaimAttributeUpdate (policy : Policy)
    (arbitration_resolution : option ArbitrationResolutionContext).

Record InboxMessage := {
  msg_id : InboxId;
  msg_kind : InboxMessageKind;
  msg_handled_at : option DateTime;
}.

Definition msg_policy (m : InboxMessage) : Policy :=
  match msg_kind m with PolicyUpdate p | ClaimAttributeUpdate p _ => p end.

Definition msg_policy_id (m : InboxMessage) : PolicyId := policy_id (msg_policy m).

(** [InboxMessage::event_at] *)
Definition msg_event_at (m : InboxMessage) : DateTime :=
  let policy := msg_policy m in
  default (policy_created_at policy) (policy_updated_at policy).

Definition msg_message_type (m : InboxMessage) : PolicyMessageType :=
  match msg_kind m with
  | PolicyUpdate _ => PolicyUpdateType
  | ClaimAttributeUpdate _ _ => ClaimAttributeUpdateType
  end.

Record SweepNotificationItem := {
  sni_claim_id : ClaimId;
  sni_effective_updated_at : DateTime;
  sni_suggested_status : ClaimStatus;
}.

#[export] Instance SweepNotificationItem_eq_dec : EqDecision SweepNotificationItem.
Proof. solve_decision. Defined.

Record OfferedMark := {
  offered_agent : AgentId;
  first_offered_at : DateTime;
  last_offered_at : DateTime;
  attempts : Z;
}.

Record DeliveredMark := {
  delivered_agent : AgentId;
  sent_at : DateTime;
}.

Inductive OutboxTarget :=
| Broadcast
| Targeted (target_agent : AgentId).

#[export] Instance OutboxTarget_eq_dec : EqDecision OutboxTarget.
Proof. solve_decision. Defined.

Record OutboxEntry := {
  ob_inbox_id : InboxId;
  ob_action_id : MaintainerActionId;
  ob_target : OutboxTarget;
  ob_created_at : DateTime;
  ob_offered_to : list OfferedMark;
  ob_delivered_to : list DeliveredMark;
  ob_sweep_items : list SweepNotificationItem;
  ob_message : InboxMessage;
}.

(** The derived [PartialEq]s. *)
#[export] Instance Claim_eq_dec : EqDecision Claim.
Proof. solve_decision. Defined.
#[export] Instance Trace_eq_dec : EqDecision Trace.
Proof. solve_decision. Defined.
#[export] Instance Policy_eq_dec : EqDecision Policy.
Proof. solve_decision. Defined.
#[export] Instance Dispute_eq_dec : EqDecision Dispute.
Proof. solve_decision. Defined.
#[export] Instance ClaimAssessment_eq_dec : EqDecision ClaimAssessment.
Proof. solve_decision. Defined.
#[export] Instance DisputeResolution_eq_dec : EqDecision DisputeResolution.
Proof. solve_decision. Defined.
#[export] Instance ArbitrationResolutionContext_eq_dec : EqDecision ArbitrationResolutionContext.
Proof. solve_decision. Defined.
#[export] Instance InboxMessageKind_eq_dec : EqDecision InboxMessageKind.
Proof. solve_decision. Defined.
#[export] Instance InboxMessage_eq_dec : EqDecision InboxMessage.
Proof. solve_decision. Defined.

(** ** Time helpers *)

Module Clock.
Definition truncate_to_second (t : DateTime) : DateTime :=
  ((t / nanos_per_sec) * nanos_per_sec)%Z.

(** Every revision of an own claim is strictly later than the previous. *)
Definition next_claim_update_at (now previous : DateTime) : DateTime :=
  Z.max (truncate_to_second now) (previous + 1 * nanos_per_sec).
End Clock.

(** ** Identifier lemmas *)

Lemma string_app_cons a s r : String a s +:+ r = String a (s +:+ r).
Proof. reflexivity. Qed.

Lemma string_app_nil r : EmptyString +:+ r = r.
Proof. reflexivity. Qed.

Lemma strip_prefix_Some p s r : strip_prefix p s = Some r ↔ s = p +:+ r.
Proof.
  revert s. induction p as [|a p IH]; intros s; simpl.
  { rewrite string_app_nil. split; congruence. }
  rewrite string_app_cons.
  destruct s as [|b s]; [done|]. case_bool_decide as Hab.
  - subst. rewrite IH. split; [by intros ->|]. by intros [= ->].
  - split; [done|]. intros [= -> ?]. done.
Qed.

Lemma strip_prefix_app p r : strip_prefix p (p +:+ r) = Some r.
Proof. by apply strip_prefix_Some. Qed.

Lemma good_suffix_true suf :
  good_suffix suf = true ↔ String.length suf = 8 ∧ all_chars lower_hex_char suf = true.
Proof. unfold good_suffix. by rewrite andb_true_iff, bool_decide_eq_true. Qed.

Lemma prefixed_from_str_app prefix suf :
  good_suffix suf = true → prefixed_from_str prefix (prefix +:+ suf) = Ok (prefix +:+ suf).
Proof.
  intros [Hl Hc]%good_suffix_true. unfold prefixed_from_str.
  by rewrite strip_prefix_app, Hl, Hc, bool_decide_true.
Qed.

Lemma hex_digit_lower n : (0 ≤ n < 16)%Z → lower_hex_char (hex_digit n) = true.
Proof.
  intros Hn.
  assert (forallb (λ n, lower_hex_char (hex_digit n)) (seqZ 0 16) = true) as H by (vm_compute; reflexivity).
  rewrite forallb_forall in H. apply H. apply list_elem_of_In, elem_of_seqZ. lia.
Qed.

Lemma all_chars_app f s1 s2 : all_chars f (s1 +:+ s2) = all_chars f s1 && all_chars f s2.
Proof.
  induction s1 as [|a s1 IH]; [done|]. rewrite string_app_cons. simpl. rewrite IH.
  apply andb_assoc.
Qed.

Lemma string_length_app s1 s2 : String.length (s1 +:+ s2) = String.length s1 + String.length s2.
Proof. induction s1 as [|a s1 IH]; [done|]. rewrite string_app_cons. simpl. by rewrite IH. Qed.

Lemma hex_fixed_good k n : String.length (hex_fixed k n) = k ∧ all_chars lower_hex_char (hex_fixed k n) = true.
Proof.
  revert n. induction k as [|k IH]; intros n; simpl; [done|].
  destruct (IH (n / 16)%Z) as [H1 H2].
  rewrite string_length_app, all_chars_app, H1, H2. simpl.
  rewrite hex_digit_lower by (apply Z.mod_pos_bound; lia). split; [lia|done].
Qed.

Lemma str_bytes_inj s1 s2 : str_bytes s1 = str_bytes s2 → s1 = s2.
Proof.
  revert s2. induction s1 as [|a s1 IH]; intros [|b s2]; simpl; intros [=]; [done|].
  f_equal; [|by apply IH].
  rewrite <-(Ascii.ascii_N_embedding a), <-(Ascii.ascii_N_embedding b). f_equal. lia.
Qed.

(** A byte string that is valid UTF-8 never contains 0xff. *)
Definition utf8_free (s : string) : Prop := 255%Z ∉ str_bytes s.

Lemma hash_str_app_inj s1 s2 r1 r2 :
  utf8_free s1 → utf8_free s2 →
  hash_str s1 ++ r1 = hash_str s2 ++ r2 → s1 = s2 ∧ r1 = r2.
Proof.
  unfold utf8_free, hash_str. rewrite <-!(assoc_L (++)). simpl. intros H1 H2 Heq.
  assert (∀ l1 l2 : list Z, 255%Z ∉ l1 → 255%Z ∉ l2 →
    l1 ++ 255%Z :: r1 = l2 ++ 255%Z :: r2 → l1 = l2 ∧ r1 = r2) as Hgen.
  { clear. induction l1 as [|x l1 IH]; intros [|y l2] H1 H2 He; simplify_eq/=;
      [done|set_solver..|]. destruct (IH l2) as [-> ->]; [set_solver..|done|done]. }
  destruct (Hgen _ _ H1 H2 Heq) as [Hs Hr]. split; [by apply str_bytes_inj|done].
Qed.

Lemma hash_strs_inj l1 l2 :
  Forall utf8_free l1 → Forall utf8_free l2 →
  (l1 ≫= hash_str) = (l2 ≫= hash_str) → l1 = l2.
Proof.
  intros Hl1. revert l2. induction Hl1 as [|s l1 Hs Hl1 IH]; intros l2 Hl2 Heq.
  - destruct Hl2 as [|s2 l2]; [done|]. exfalso. revert Heq. simpl. unfold hash_str.
    by destruct (str_bytes s2).
  - destruct Hl2 as [|s2 l2 Hs2 Hl2].
    + exfalso. revert Heq. simpl. unfold hash_str. by destruct (str_bytes s).
    + simpl in Heq. apply hash_str_app_inj in Heq as [-> Heq]; [|done..].
      f_equal. by apply IH.
Qed.

(** A prefix-framed list stops at the first chunk that starts with 0. *)
Lemma hash_strs_sep_inj l1 l2 r1 r2 :
  Forall (λ s, utf8_free s ∧ head (str_bytes s) ≠ Some 0%Z) l1 →
  Forall (λ s, utf8_free s ∧ head (str_bytes s) ≠ Some 0%Z) l2 →
  (l1 ≫= hash_str) ++ 0%Z :: r1 = (l2 ≫= hash_str) ++ 0%Z :: r2 → l1 = l2 ∧ r1 = r2.
Proof.
  intros Hl1. revert l2. induction Hl1 as [|s l1 [Hs Hz] Hl1 IH]; intros l2 Hl2 Heq.
  - destruct Hl2 as [|s2 l2 [Hs2 Hz2]]; [by simplify_eq/=|]. exfalso. revert Heq Hz2. simpl.
    unfold hash_str. destruct (str_bytes s2); simpl; congruence.
  - destruct Hl2 as [|s2 l2 [Hs2 Hz2] Hl2].
    + exfalso. revert Heq Hz. simpl. unfold hash_str. destruct (str_bytes s); simpl; congruence.
    + simpl in Heq. rewrite <-!(assoc_L (++)) in Heq.
      apply hash_str_app_inj in Heq as [-> Heq]; [|done..].
      destruct (IH _ Hl2 Heq) as [-> ->]. done.
Qed.

(** ** Properties *)

(** A derived identifier (Claim, Trace or Dispute), whatever the hasher,
    the instant, the salt and the hashed fields are, is accepted by the parser
    of its own prefix, and the parser returns it unchanged. *)
Theorem derived_id_parses hasher_finish prefix created_at salt payload :
  let id := derive_id_string hasher_finish prefix created_at salt payload in
  prefixed_from_str prefix id = Ok id.
Proof.
  simpl. unfold derive_id_string. apply prefixed_from_str_app, good_suffix_true, hex_fixed_good.
Qed.

(** A source identifier that parses prints back to the string it was read
    from, and the two prefixes never overlap: a string starting with
    [policy_] is never read as a claim, nor the reverse, and a string with
    neither prefix is rejected with [SourceIdBadPrefix]. *)
Theorem source_id_roundtrip s :
  match SourceId_from_str s with
  | Ok (SourceClaim c) => c = s ∧ starts_with claim_prefix s = true ∧ ClaimId_from_str s = Ok c
  | Ok (SourcePolicy p) => p = s ∧ starts_with policy_prefix s = true ∧ PolicyId_from_str s = Ok p
  | Err (SourceIdBadPrefix s') =>
      s' = s ∧ starts_with claim_prefix s = false ∧ starts_with policy_prefix s = false
  | Err (BadSuffix suf) =>
      good_suffix suf = false ∧ (s = claim_prefix +:+ suf ∨ s = policy_prefix +:+ suf)
  | Err _ => False
  end.
Proof.
  unfold SourceId_from_str, ClaimId_from_str, PolicyId_from_str, starts_with, prefixed_from_str.
  assert (Hsuf : ∀ suf, negb (bool_decide (String.length suf = 8)) ||
      negb (all_chars lower_hex_char suf) = negb (good_suffix suf)).
  { intros suf. unfold good_suffix. by rewrite negb_andb. }
  destruct (strip_prefix claim_prefix s) as [suf|] eqn:Ec.
  - rewrite Hsuf. destruct (good_suffix suf) eqn:Eg; simpl; [done|].
    split; [done|]. left. by apply strip_prefix_Some.
  - destruct (strip_prefix policy_prefix s) as [suf|] eqn:Ep; [|done].
    rewrite Hsuf. destruct (good_suffix suf) eqn:Eg; simpl; [done|].
    split; [done|]. right. by apply strip_prefix_Some.
Qed.

Definition source_id_ok (i : SourceId) : Prop := SourceId_from_str (SourceId_as_str i) = Ok i.

Lemma source_id_ok_head i : source_id_ok i → head (str_bytes (SourceId_as_str i)) ≠ Some 0%Z.
Proof.
  unfold source_id_ok. intros H. pose proof (source_id_roundtrip (SourceId_as_str i)) as Hr.
  rewrite H in Hr. unfold starts_with in Hr.
  destruct i as [c|p]; destruct Hr as (_ & Hp & _); case_match eqn:E; try done;
    apply strip_prefix_Some in E; rewrite E; simpl; congruence.
Qed.

(** The bytes hashed for a trace determine its name, its input sources and
    its output claims: the explicit zero byte between the two lists makes the
    framing injective, so distinct traces feed distinct bytes to the hasher. *)
Theorem trace_payload_inj name1 name2 in1 in2 out1 out2
    (Hn1 : utf8_free name1) (Hn2 : utf8_free name2)
    (Hin1 : Forall (λ i, source_id_ok i ∧ utf8_free (SourceId_as_str i)) in1)
    (Hin2 : Forall (λ i, source_id_ok i ∧ utf8_free (SourceId_as_str i)) in2)
    (Ho1 : Forall utf8_free out1) (Ho2 : Forall utf8_free out2)
    (Heq : trace_payload name1 in1 out1 = trace_payload name2 in2 out2) :
  name1 = name2 ∧ in1 = in2 ∧ out1 = out2.
Proof.
  unfold trace_payload in Heq. apply hash_str_app_inj in Heq as [-> Heq]; [|done..].
  assert (Hmap : ∀ l : list SourceId, (l ≫= λ i, hash_str (SourceId_as_str i))
      = ((SourceId_as_str <$> l) ≫= hash_str)).
  { clear. induction l as [|i l IH]; [done|]. csimpl. by rewrite IH. }
  rewrite !Hmap in Heq. simpl in Heq.
  assert (Hfm : ∀ l, Forall (λ i, source_id_ok i ∧ utf8_free (SourceId_as_str i)) l →
      Forall (λ s, utf8_free s ∧ head (str_bytes s) ≠ Some 0%Z) (SourceId_as_str <$> l)).
  { clear. induction 1 as [|i l [Hi Hu] Hl IH]; csimpl; constructor; [|done].
    split; [done|by apply source_id_ok_head]. }
  apply hash_strs_sep_inj in Heq as [Hi Ho]; [|by apply Hfm..].
  split_and!; [done| |by apply hash_strs_inj].
  clear -Hi Hin1 Hin2. revert in2 Hin2 Hi.
  induction Hin1 as [|i l [Hok _] Hl IH]; intros [|j l2] Hin2 Hi; csimpl in *; simplify_eq; [done|].
  apply Forall_cons in Hin2 as [[Hok2 _] Hin2]. f_equal; [|by apply IH].
  unfold source_id_ok in *. congruence.
Qed.

Lemma trace_payload_inj_witness :
  let a := SourceClaim "claim_0000000a" in let b := SourcePolicy "policy_0000000b" in
  trace_payload "n" [a; b] [] ≠ trace_payload "n" [a] ["policy_0000000b"] .
Proof.
  simpl. intros Heq.
  assert (Hu : ∀ s, bool_decide (255%Z ∈ str_bytes s) = false → utf8_free s)
    by (intros s H%bool_decide_eq_false; done).
  destruct (trace_payload_inj "n" "n" [SourceClaim "claim_0000000a"; SourcePolicy "policy_0000000b"]
    [SourceClaim "claim_0000000a"] [] ["policy_0000000b"]
    ltac:(by apply Hu) ltac:(by apply Hu)
    ltac:(repeat constructor; by apply Hu) ltac:(repeat constructor; by apply Hu)
    ltac:(repeat constructor) ltac:(repeat constructor; by apply Hu) Heq) as (_ & Hin & _).
  discriminate Hin.
Defined.

(** The bytes hashed for a dispute determine its name, its claims and its
    summary even though no separator is written between the claims and the
    summary. *)
Theorem dispute_payload_inj name1 name2 claims1 claims2 summary1 summary2
    (Hu : Forall utf8_free (name1 :: summary1 :: claims1))
    (Hv : Forall utf8_free (name2 :: summary2 :: claims2))
    (Heq : dispute_payload name1 claims1 summary1 = dispute_payload name2 claims2 summary2) :
  name1 = name2 ∧ claims1 = claims2 ∧ summary1 = summary2.
Proof.
  apply Forall_cons in Hu as [Hn1 [Hs1 Hc1]%Forall_cons].
  apply Forall_cons in Hv as [Hn2 [Hs2 Hc2]%Forall_cons].
  assert (Hj : ∀ cs sm, (cs ≫= hash_str) ++ hash_str sm = ((cs ++ [sm]) ≫= hash_str)).
  { intros. rewrite bind_app. simpl. by rewrite app_nil_r. }
  unfold dispute_payload in Heq. apply hash_str_app_inj in Heq as [-> Heq]; [|done..].
  rewrite !Hj in Heq. apply hash_strs_inj in Heq; [|by apply Forall_app_2; [|constructor]..].
  apply app_inj_tail in Heq as [-> ->]. done.
Qed.

Lemma dispute_payload_inj_witness :
  dispute_payload "n" ["claim_0000000a"] "abc" ≠ dispute_payload "n" ["claim_0000000a"] "xabc".
Proof.
  intros Heq.
  assert (Hu : ∀ s, bool_decide (255%Z ∈ str_bytes s) = false → utf8_free s)
    by (intros s H%bool_decide_eq_false; done).
  destruct (dispute_payload_inj "n" "n" ["claim_0000000a"] ["claim_0000000a"] "abc" "xabc"
    ltac:(repeat constructor; by apply Hu) ltac:(repeat constructor; by apply Hu) Heq) as (_ & _ & H).
  discriminate H.
Defined.

(** A claim revision is always stamped strictly later than the version it
    replaces, and stays on a whole second when that version was on one. *)
Theorem next_claim_update_later now previous :
  (previous < Clock.next_claim_update_at now previous)%Z ∧
  ((previous mod nanos_per_sec = 0)%Z →
    (Clock.next_claim_update_at now previous mod nanos_per_sec = 0)%Z).
Proof.
  unfold Clock.next_claim_update_at, Clock.truncate_to_second, nanos_per_sec. split; [lia|].
  intros Hp. destruct (Z.max_spec (now / 1000000000 * 1000000000)
    (previous + 1 * 1000000000)) as [[_ ->]|[_ ->]].
  - rewrite Z.add_mod, Hp by lia. done.
  - by rewrite Z.mod_mul by lia.
Qed.

Lemma next_claim_update_later_witness :
  (5000000000 < Clock.next_claim_update_at 5300000000 5000000000)%Z ∧
  (Clock.next_claim_update_at 5300000000 5000000000 mod nanos_per_sec = 0)%Z.
Proof.
  destruct (next_claim_update_later 5300000000 5000000000) as [H1 H2].
  split; [exact H1|apply H2; reflexivity].
Defined.
