(* ===== verification/Maintainer.v ===== *)
(** * The Maintainer (src/src/maintainer.rs, src/src/maintainer/outbox_io.rs)

    The team store is a record of directories; every operation threads it
    and can fail at each I/O step.  The two outbox locks serialise the
    operations of all processes, so an operation is one atomic step here
    apart from its own failures. *)

From S2P Require Import Prelude Storage Claim.
Import Ids.

(** ** State *)

Record MaintainerDisputeRecord := {
  mdr_dispute : Dispute;
  mdr_resolution : option DisputeResolution;
}.

Definition MaintainerDisputeRecord_from (d : Dispute) : MaintainerDisputeRecord :=
  {| mdr_dispute := d; mdr_resolution := None |}.

Record TeamStore := {
  ts_policies : gmap string (file Policy);
  ts_outbox : gmap string (file OutboxEntry);
  ts_disputes : gmap string (file MaintainerDisputeRecord);
  ts_agents : gmap string (gmap string Claim);   (* agents/<id>/claims/ *)
  ts_entropy : nat → list Z;                     (* the random generator *)
  ts_drawn : nat;
  ts_faults : list bool;
}.

Definition set_policies m w := {| ts_policies := m; ts_outbox := ts_outbox w;
  ts_disputes := ts_disputes w; ts_agents := ts_agents w; ts_entropy := ts_entropy w;
  ts_drawn := ts_drawn w; ts_faults := ts_faults w |}.
Definition set_outbox m w := {| ts_policies := ts_policies w; ts_outbox := m;
  ts_disputes := ts_disputes w; ts_agents := ts_agents w; ts_entropy := ts_entropy w;
  ts_drawn := ts_drawn w; ts_faults := ts_faults w |}.
Definition set_disputes m w := {| ts_policies := ts_policies w; ts_outbox := ts_outbox w;
  ts_disputes := m; ts_agents := ts_agents w; ts_entropy := ts_entropy w;
  ts_drawn := ts_drawn w; ts_faults := ts_faults w |}.
Definition set_agents m w := {| ts_policies := ts_policies w; ts_outbox := ts_outbox w;
  ts_disputes := ts_disputes w; ts_agents := m; ts_entropy := ts_entropy w;
  ts_drawn := ts_drawn w; ts_faults := ts_faults w |}.
Definition set_ts_faults fs w := {| ts_policies := ts_policies w; ts_outbox := ts_outbox w;
  ts_disputes := ts_disputes w; ts_agents := ts_agents w; ts_entropy := ts_entropy w;
  ts_drawn := ts_drawn w; ts_faults := fs |}.
Definition bump_drawn w := {| ts_policies := ts_policies w; ts_outbox := ts_outbox w;
  ts_disputes := ts_disputes w; ts_agents := ts_agents w; ts_entropy := ts_entropy w;
  ts_drawn := S (ts_drawn w); ts_faults := ts_faults w |}.

#[export] Instance TeamStore_HasIO : HasIO TeamStore :=
  {| faults := ts_faults; set_faults := set_ts_faults |}.

Definition policies_dir : Dir TeamStore Policy := {| dir_get := ts_policies; dir_set := set_policies |}.
Definition outbox_dir : Dir TeamStore OutboxEntry := {| dir_get := ts_outbox; dir_set := set_outbox |}.
Definition disputes_dir : Dir TeamStore MaintainerDisputeRecord :=
  {| dir_get := ts_disputes; dir_set := set_disputes |}.

#[export] Instance policies_laws : DirLaws policies_dir.
Proof. by split. Qed.
#[export] Instance outbox_laws : DirLaws outbox_dir.
Proof. by split. Qed.
#[export] Instance disputes_laws : DirLaws disputes_dir.
Proof. by split. Qed.
#[export] Instance outbox_policies : DirDisjoint outbox_dir policies_dir.
Proof. done. Qed.
#[export] Instance outbox_disputes : DirDisjoint outbox_dir disputes_dir.
Proof. done. Qed.
#[export] Instance policies_outbox : DirDisjoint policies_dir outbox_dir.
Proof. done. Qed.

(** The configuration fields of [struct Maintainer]. *)
Record Maintainer := {
  stale_after : Z;
  deprecate_after : Z;
  id_mint_max_attempts : nat;
}.

Inductive MaintainerError :=
| StorageErr (e : StorageError)
| LockFailed
| ActionZeroAttempts
| ActionExhausted (last_collision : option string)
| InvalidReport (e : DisputeReportValidationError)
| DisputePayloadConflict (id : DisputeId)
| DeprecatedDirectClaims (id : DisputeId) (claims : list ClaimId)
| InvalidDisputeRecord.

#[export] Instance DisputeReportValidationError_eq_dec : EqDecision DisputeReportValidationError.
Proof. solve_decision. Defined.
#[export] Instance MaintainerError_eq_dec : EqDecision MaintainerError.
Proof. solve_decision. Defined.

#[export] Instance MaintainerError_storage : FromStorage MaintainerError := StorageErr.

Inductive InboxAckError :=
| UnknownInbox (inbox_id : InboxId)
| TargetMismatch (agent_id : AgentId) (inbox_id : InboxId)
| NotOffered (agent_id : AgentId) (inbox_id : InboxId)
| ReadOutbox (e : MaintainerError)
| LockOutbox (e : MaintainerError)
| PersistAck (inbox_id : InboxId) (e : MaintainerError).

Notation MM := (M TeamStore MaintainerError).

(** ** outbox_io.rs *)

Definition set_offered offered (e : OutboxEntry) : OutboxEntry :=
  {| ob_inbox_id := ob_inbox_id e; ob_action_id := ob_action_id e; ob_target := ob_target e;
     ob_created_at := ob_created_at e; ob_offered_to := offered; ob_delivered_to := ob_delivered_to e;
     ob_sweep_items := ob_sweep_items e; ob_message := ob_message e |}.
Definition set_delivered delivered (e : OutboxEntry) : OutboxEntry :=
  {| ob_inbox_id := ob_inbox_id e; ob_action_id := ob_action_id e; ob_target := ob_target e;
     ob_created_at := ob_created_at e; ob_offered_to := ob_offered_to e; ob_delivered_to := delivered;
     ob_sweep_items := ob_sweep_items e; ob_message := ob_message e |}.

(** [entry.offered_to.iter().any(|mark| &mark.agent_id == agent_id)] *)
Definition was_offered (agent : AgentId) (e : OutboxEntry) : bool :=
  bool_decide (agent ∈ offered_agent <$> ob_offered_to e).
Definition was_delivered (agent : AgentId) (e : OutboxEntry) : bool :=
  bool_decide (agent ∈ delivered_agent <$> ob_delivered_to e).

(** The first mark of the agent is updated in place; otherwise one is pushed. *)
Fixpoint mark_offered (agent : AgentId) (at_ : DateTime) (l : list OfferedMark) : list OfferedMark :=
  match l with
  | [] => [{| offered_agent := agent; first_offered_at := at_; last_offered_at := at_; attempts := 1 |}]
  | m :: l' =>
      if bool_decide (offered_agent m = agent)
      then {| offered_agent := agent; first_offered_at := first_offered_at m;
              last_offered_at := at_; attempts := sat_add u64_max (attempts m) 1 |} :: l'
      else m :: mark_offered agent at_ l'
  end.

Definition offer_entry (agent : AgentId) (at_ : DateTime) (e : OutboxEntry) : OutboxEntry :=
  set_offered (mark_offered agent at_ (ob_offered_to e)) e.

Definition deliver_entry (agent : AgentId) (at_ : DateTime) (e : OutboxEntry) : OutboxEntry :=
  set_delivered (ob_delivered_to e ++ [{| delivered_agent := agent; sent_at := at_ |}]) e.

Definition valid_inbox_name (k : string) : bool := is_ok (prefixed_from_str inbox_prefix k).
Definition valid_policy_name (k : string) : bool := is_ok (PolicyId_from_str k).

Definition outbox_list : MM (list OutboxEntry) := list_yaml outbox_dir valid_inbox_name.

Definition outbox_write (e : OutboxEntry) : MM unit :=
  write_yaml_atomic outbox_dir (ob_inbox_id e) e.

Definition record_offered (inbox_id : InboxId) (agent : AgentId) (offered_at : DateTime) : MM unit :=
  entry ← read_yaml outbox_dir inbox_id;
  write_yaml_atomic outbox_dir inbox_id (offer_entry agent offered_at entry).

Definition append_delivered (inbox_id : InboxId) (agent : AgentId) (at_ : DateTime) : MM unit :=
  entry ← read_yaml outbox_dir inbox_id;
  if was_delivered agent entry then mret tt
  else write_yaml_atomic outbox_dir inbox_id (deliver_entry agent at_ entry).

(** ** maintainer.rs: helpers *)

(** [normalize_target_agents]: [None] and the empty list both mean broadcast. *)
Definition normalize_target_agents (targets : option (list AgentId)) : option (list AgentId) :=
  match dedup (default [] targets) with
  | [] => None
  | unique => Some unique
  end.

Definition same_report_payload (existing incoming : Dispute) : bool :=
  bool_decide (dispute_id existing = dispute_id incoming)
  && bool_decide (dispute_name existing = dispute_name incoming)
  && bool_decide (dispute_reporter_agent_id existing = dispute_reporter_agent_id incoming)
  && bool_decide (dispute_claims existing = dispute_claims incoming)
  && bool_decide (dispute_summary existing = dispute_summary incoming)
  && bool_decide (dispute_created_at existing = dispute_created_at incoming).

Definition policy_inbox_kind_for_policy (p : Policy) : InboxMessageKind :=
  match policy_message_type p with
  | PolicyUpdateType => PolicyUpdate p
  | ClaimAttributeUpdateType => ClaimAttributeUpdate p None
  end.

Definition outbox_targets (p : Policy) : list OutboxTarget :=
  match policy_target_agents p with
  | Some (a :: l) => Targeted <$> (a :: l)
  | _ => [Broadcast]
  end.

Definition set_policy_deprecated (now : DateTime) (p : Policy) : Policy :=
  {| policy_id := policy_id p; policy_message_type := policy_message_type p;
     policy_name := policy_name p; policy_statement := policy_statement p;
     policy_scope := policy_scope p; policy_status := PolicyDeprecated;
     policy_created_at := policy_created_at p; policy_updated_at := Some now;
     policy_target_agents := normalize_target_agents (policy_target_agents p) |}.

(** The order in which a pull returns messages. *)
Definition pull_cmp : OutboxEntry → OutboxEntry → comparison :=
  cmp_then (cmp_on (λ e, msg_event_at (ob_message e)) Z.compare)
    (cmp_then (cmp_on ob_created_at Z.compare) (cmp_on ob_inbox_id String.compare)).

(** Whether a pull by [agent] returns [e]. *)
Definition pull_selects (active seen : list PolicyId) (agent : AgentId) (e : OutboxEntry) : bool :=
  if was_delivered agent e then false
  else match ob_target e with
  | Targeted target_agent => bool_decide (target_agent = agent)
  | Broadcast =>
      let snapshot := msg_policy (ob_message e) in
      match policy_status snapshot with
      | PolicyDeprecated => bool_decide (policy_id snapshot ∈ seen)
      | PolicyActive => bool_decide (policy_id snapshot ∈ active) || was_offered agent e
      end
  end.

Definition seen_policy_ids (agent : AgentId) (entries : list OutboxEntry) : list PolicyId :=
  (λ e, msg_policy_id (ob_message e))
    <$> filter (λ e, was_offered agent e || was_delivered agent e) entries.

Definition choose_entries (active : list PolicyId) (agent : AgentId) (entries : list OutboxEntry) :
    list OutboxEntry :=
  sort_by pull_cmp (filter (pull_selects active (seen_policy_ids agent entries) agent) entries).

(** The pre-check of [ack_inbox]: nothing is written until the whole batch passes. *)
Definition find_entry (entries : list OutboxEntry) (inbox_id : InboxId) : option OutboxEntry :=
  snd <$> list_find (λ e, ob_inbox_id e = inbox_id) entries.

Definition check_ack_one (entries : list OutboxEntry) (agent : AgentId) (inbox_id : InboxId) :
    Result InboxAckError unit :=
  match find_entry entries inbox_id with
  | None => Err (UnknownInbox inbox_id)
  | Some e =>
      let foreign := match ob_target e with
                     | Targeted target_agent => negb (bool_decide (target_agent = agent))
                     | Broadcast => false
                     end in
      if (foreign : bool) then Err (TargetMismatch agent inbox_id)
      else if negb (was_offered agent e) && negb (was_delivered agent e)
      then Err (NotOffered agent inbox_id)
      else Ok tt
  end.

Fixpoint check_ack (entries : list OutboxEntry) (agent : AgentId) (ids : list InboxId) :
    Result InboxAckError unit :=
  match ids with
  | [] => Ok tt
  | id :: ids' => _ ← check_ack_one entries agent id; check_ack entries agent ids'
  end.

(** A string made only of Unicode white space, by its UTF-8 encoding:
    [conclusion.trim().is_empty()]. *)
Fixpoint blank_bytes (fuel : nat) (l : list Z) : bool :=
  match fuel with
  | O => bool_decide (l = [])
  | S fuel' =>
      match l with
      | [] => true
      | (b :: l')%Z =>
          if ((9 <=? b) && (b <=? 13) || (b =? 32))%Z then blank_bytes fuel' l'
          else match l with
          | 194%Z :: c :: r => if ((c =? 133) || (c =? 160))%Z then blank_bytes fuel' r else false
          | 225%Z :: 154%Z :: 128%Z :: r => blank_bytes fuel' r
          | 226%Z :: 128%Z :: c :: r =>
              if ((128 <=? c) && (c <=? 138) || (c =? 168) || (c =? 169) || (c =? 175))%Z
              then blank_bytes fuel' r else false
          | 226%Z :: 129%Z :: 159%Z :: r => blank_bytes fuel' r
          | 227%Z :: 128%Z :: 128%Z :: r => blank_bytes fuel' r
          | _ => false
          end
      end
  end.

Definition string_blank (s : string) : bool := blank_bytes (String.length s) (str_bytes s).

(** arbitration/store.rs: what [write_dispute] checks before it writes. *)
Definition validate_dispute_record (r : MaintainerDisputeRecord) : bool :=
  match dispute_status (mdr_dispute r) with
  | DisputeOpen =>
      bool_decide (dispute_resolved_at (mdr_dispute r) = None)
      && match mdr_resolution r with None => true | Some _ => false end
  | DisputeResolved =>
      bool_decide (is_Some (dispute_resolved_at (mdr_dispute r)))
      && match mdr_resolution r with
         | None => true
         | Some res =>
             match dr_resolution_type res with Some k => is_resolved k | None => true end
             && negb (bool_decide (dr_resolution_basis res = Some InsufficientEvidence))
             && negb (string_blank (dr_conclusion res))
         end
  end.

Definition read_dispute (id : DisputeId) : MM MaintainerDisputeRecord := read_yaml disputes_dir id.

Definition write_dispute (r : MaintainerDisputeRecord) : MM unit :=
  if validate_dispute_record r
  then write_yaml_atomic disputes_dir (dispute_id (mdr_dispute r)) r
  else fail InvalidDisputeRecord.

(** ** maintainer.rs: operations *)

Section maintainer.
Context (hex_encode : list Z → string) (self : Maintainer).

Definition draw_id (prefix : string) : MM string := λ w,
  (Ok (prefixed_random hex_encode prefix (ts_entropy w (ts_drawn w))), bump_drawn w).

Definition lock_outbox_file : MM unit := io_step LockFailed.

Definition mint_policy_id : MM PolicyId :=
  mint_unique_id_in_dir policies_dir (draw_id policy_prefix) (id_mint_max_attempts self).

Definition mint_inbox_id_for_outbox : MM InboxId :=
  mint_unique_id_in_dir outbox_dir (draw_id inbox_prefix) (id_mint_max_attempts self).

Fixpoint mint_action_loop (used : list string) (attempts : nat) (last : option string) :
    MM MaintainerActionId :=
  match attempts with
  | O => fail (ActionExhausted last)
  | S attempts' =>
      candidate ← draw_id intent_prefix;
      if bool_decide (candidate ∈ used)
      then mint_action_loop used attempts' (Some candidate)
      else mret candidate
  end.

Definition mint_action_id_for_outbox : MM MaintainerActionId :=
  if bool_decide (id_mint_max_attempts self = 0) then fail ActionZeroAttempts
  else
    entries ← outbox_list;
    mint_action_loop (ob_action_id <$> entries) (id_mint_max_attempts self) None.

Definition new_entry (inbox_id : InboxId) (action_id : MaintainerActionId) (target : OutboxTarget)
    (now : DateTime) (sweep_items : list SweepNotificationItem) (kind : InboxMessageKind) : OutboxEntry :=
  {| ob_inbox_id := inbox_id; ob_action_id := action_id; ob_target := target;
     ob_created_at := now; ob_offered_to := []; ob_delivered_to := [];
     ob_sweep_items := sweep_items;
     ob_message := {| msg_id := inbox_id; msg_kind := kind; msg_handled_at := None |} |}.

Fixpoint create_entries_loop (kind : InboxMessageKind) (action_id : MaintainerActionId)
    (now : DateTime) (sweep_items : list SweepNotificationItem)
    (targets : list OutboxTarget) (count : nat) : MM nat :=
  match targets with
  | [] => mret count
  | target :: targets' =>
      inbox_id ← mint_inbox_id_for_outbox;
      _ ← outbox_write (new_entry inbox_id action_id target now sweep_items kind);
      create_entries_loop kind action_id now sweep_items targets' (S count)
  end.

Definition create_outbox_entries (policy : Policy) (action_id : MaintainerActionId)
    (now : DateTime) (sweep_items : list SweepNotificationItem) : MM nat :=
  create_entries_loop (policy_inbox_kind_for_policy policy) action_id now sweep_items
    (outbox_targets policy) 0.

Definition write_policy (p : Policy) : MM unit := write_yaml_atomic policies_dir (policy_id p) p.

Definition publish_new_policy (name statement scope : string) (now : DateTime)
    (target_agents : option (list AgentId)) : MM (PolicyId * nat) :=
  _ ← lock_outbox_file;
  action_id ← mint_action_id_for_outbox;
  id ← mint_policy_id;
  let policy := {| policy_id := id; policy_message_type := PolicyUpdateType;
    policy_name := name; policy_statement := statement; policy_scope := scope;
    policy_status := PolicyActive; policy_created_at := now; policy_updated_at := None;
    policy_target_agents := normalize_target_agents target_agents |} in
  _ ← write_policy policy;
  pushed ← create_outbox_entries policy action_id now [];
  mret (id, pushed).

Definition deprecate_policy (id : PolicyId) (now : DateTime) : MM nat :=
  _ ← lock_outbox_file;
  stored_policy ← read_yaml policies_dir id;
  let policy := set_policy_deprecated now stored_policy in
  action_id ← mint_action_id_for_outbox;
  _ ← write_yaml_atomic policies_dir id policy;
  create_outbox_entries policy action_id now [].

Definition CLAIM_ATTRIBUTE_POLICY_NAME : string := "claim_attribute_update_suggestion".
Definition CLAIM_ATTRIBUTE_POLICY_SCOPE : string := "maintainer / claim-attribute-update".

Definition claim_update_suggestion_locked (statement : string) (now : DateTime)
    (target_agents : option (list AgentId)) (sweep_items : list SweepNotificationItem) :
    MM (PolicyId * nat) :=
  action_id ← mint_action_id_for_outbox;
  id ← mint_policy_id;
  let policy := {| policy_id := id; policy_message_type := ClaimAttributeUpdateType;
    policy_name := CLAIM_ATTRIBUTE_POLICY_NAME; policy_statement := statement;
    policy_scope := CLAIM_ATTRIBUTE_POLICY_SCOPE; policy_status := PolicyActive;
    policy_created_at := now; policy_updated_at := None;
    policy_target_agents := normalize_target_agents target_agents |} in
  _ ← write_policy policy;
  pushed ← create_outbox_entries policy action_id now sweep_items;
  mret (id, pushed).

Definition claim_update_suggestion (statement : string) (now : DateTime)
    (target_agents : option (list AgentId)) : MM (PolicyId * nat) :=
  _ ← lock_outbox_file;
  claim_update_suggestion_locked statement now target_agents [].

(** Agents and mirrors *)

Definition ensure_agent_registered (agent : AgentId) : MM unit :=
  _ ← io;
  modify (λ w, set_agents (<[agent := default ∅ (ts_agents w !! agent)]> (ts_agents w)) w).

Definition upload_claim (claim : Claim) : MM unit :=
  _ ← io;
  _ ← io;
  modify (λ w, set_agents
    (<[claim_holder claim :=
        <[claim_id claim := claim]> (default ∅ (ts_agents w !! claim_holder claim))]>
      (ts_agents w)) w).

Definition agent_ids (w : TeamStore) : list AgentId :=
  sort_by String.compare
    (filter (λ a, is_ok (AgentId_new a)) ((map_to_list (ts_agents w)).*1)).

Definition list_agent_ids : MM (list AgentId) := _ ← io; gets agent_ids.

Definition agent_claims (w : TeamStore) (a : AgentId) : list (AgentId * Claim) :=
  (λ c, (a, c)) <$> ((map_to_list (default ∅ (ts_agents w !! a))).*2).

Definition list_all_claims : MM (list (AgentId * Claim)) :=
  agents ← list_agent_ids;
  _ ← io;
  gets (λ w, agents ≫= agent_claims w).

Definition list_policies : MM (list Policy) := list_yaml policies_dir valid_policy_name.

Definition active_policy_id_set : MM (list PolicyId) :=
  policies ← list_policies;
  mret (policy_id <$> filter (λ p, policy_status p = PolicyActive) policies).

Definition team_claims_cmp : AgentId * Claim → AgentId * Claim → comparison :=
  cmp_then (cmp_on (λ ac, claim_id ac.2) String.compare) (cmp_on fst String.compare).

Definition load_team_claims : MM (list (AgentId * Claim)) :=
  _ ← io;
  gets (λ w, sort_by team_claims_cmp
    (filter (λ a, is_ok (AgentId_new a)) ((map_to_list (ts_agents w)).*1) ≫= agent_claims w)).

Definition validate_new_dispute_direct_claims (d : Dispute) : MM unit :=
  mirrors ← load_team_claims;
  let deprecated := (λ ac : AgentId * Claim, claim_id ac.2) <$>
    filter (λ ac : AgentId * Claim,
      claim_status ac.2 = ClaimDeprecated ∧ claim_id ac.2 ∈ dispute_claims d) mirrors in
  if bool_decide (deprecated = []) then mret tt
  else fail (DeprecatedDirectClaims (dispute_id d) deprecated).

Definition report_dispute (d : Dispute) : MM unit :=
  match validate_agent_report d with
  | Err e => fail (InvalidReport e)
  | Ok _ =>
      _ ← io_step LockFailed;
      found ← m_try (read_dispute (dispute_id d));
      match found with
      | Ok existing =>
          if same_report_payload (mdr_dispute existing) d then mret tt
          else fail (DisputePayloadConflict (dispute_id d))
      | Err (StorageErr FileNotFound) =>
          _ ← validate_new_dispute_direct_claims d;
          write_dispute (MaintainerDisputeRecord_from d)
      | Err e => fail e
      end
  end.

(** Inbox delivery *)

Fixpoint offer_loop (agent : AgentId) (now : DateTime) (chosen : list OutboxEntry) :
    MM (list InboxMessage) :=
  match chosen with
  | [] => mret []
  | e :: chosen' =>
      _ ← record_offered (ob_inbox_id e) agent now;
      out ← offer_loop agent now chosen';
      mret (ob_message e :: out)
  end.

Definition pull_inbox (agent : AgentId) (now : DateTime) : MM (list InboxMessage) :=
  _ ← lock_outbox_file;
  _ ← ensure_agent_registered agent;
  active_policies ← active_policy_id_set;
  entries ← outbox_list;
  offer_loop agent now (choose_entries active_policies agent entries).

Fixpoint deliver_loop (agent : AgentId) (now : DateTime) (ids : list InboxId) :
    M TeamStore InboxAckError unit :=
  match ids with
  | [] => mret tt
  | id :: ids' =>
      _ ← m_map_err (PersistAck id) (append_delivered id agent now);
      deliver_loop agent now ids'
  end.

Definition ack_inbox (agent : AgentId) (inbox_ids : list InboxId) (now : DateTime) :
    M TeamStore InboxAckError unit :=
  _ ← m_map_err LockOutbox lock_outbox_file;
  entries ← m_map_err ReadOutbox outbox_list;
  let unique_ids := dedup inbox_ids in
  _ ← lift_result (check_ack entries agent unique_ids);
  deliver_loop agent now unique_ids.
End maintainer.
