(* ===== verification/Ledger.v ===== *)
(** * The outbox ledger: what the Maintainer promises about delivery

    An abstract specification of the outbox as a transition system with four
    kinds of steps, and the facts that follow from it by rule induction.
    Delivery.v proves that every operation of Maintainer.v, under any
    fault schedule, is a sequence of these steps. *)

From S2P Require Import Prelude Storage Claim Maintainer.
Import Ids.

Abbreviation Outbox := (gmap string (file OutboxEntry)).

(** The agents an entry may be handed to. *)
Definition addressed (agent : AgentId) (e : OutboxEntry) : Prop :=
  match ob_target e with Broadcast => True | Targeted t => t = agent end.

#[export] Instance addressed_dec agent e : Decision (addressed agent e).
Proof. unfold addressed. destruct (ob_target e); apply _. Defined.

Definition fresh_entry (k : string) (e : OutboxEntry) : Prop :=
  ob_inbox_id e = k ∧ msg_id (ob_message e) = k ∧ ob_offered_to e = [] ∧ ob_delivered_to e = [].

Inductive outbox_step : relation Outbox :=
| step_reserve m k :
    m !! k = None → valid_inbox_name k = true → outbox_step m (<[k := Reserved]> m)
| step_create m k e :
    m !! k = Some Reserved → fresh_entry k e → outbox_step m (<[k := Stored e]> m)
| step_offer m k e agent at_ :
    m !! k = Some (Stored e) → addressed agent e →
    outbox_step m (<[k := Stored (offer_entry agent at_ e)]> m)
| step_deliver m k e agent at_ :
    m !! k = Some (Stored e) → was_offered agent e = true → was_delivered agent e = false →
    outbox_step m (<[k := Stored (deliver_entry agent at_ e)]> m).

(** ** Marks *)

Lemma mark_offered_agents agent at_ l :
  offered_agent <$> mark_offered agent at_ l =
  if bool_decide (agent ∈ offered_agent <$> l) then offered_agent <$> l
  else (offered_agent <$> l) ++ [agent].
Proof.
  induction l as [|m l IH]; csimpl; [done|].
  destruct (decide (offered_agent m = agent)) as [<-|Hm].
  - rewrite bool_decide_true by done. rewrite bool_decide_true by (rewrite elem_of_cons; by left). done.
  - rewrite (bool_decide_false (offered_agent m = agent)) by done. csimpl. rewrite IH.
    destruct (decide (agent ∈ offered_agent <$> l)).
    + by rewrite !bool_decide_true by (rewrite ?elem_of_cons; auto).
    + by rewrite !bool_decide_false by (rewrite ?elem_of_cons; intuition congruence).
Qed.

Lemma was_offered_true agent e :
  was_offered agent e = true ↔ agent ∈ offered_agent <$> ob_offered_to e.
Proof. apply bool_decide_eq_true. Qed.

Lemma was_delivered_true agent e :
  was_delivered agent e = true ↔ agent ∈ delivered_agent <$> ob_delivered_to e.
Proof. apply bool_decide_eq_true. Qed.

Lemma was_offered_offer agent at_ e a :
  was_offered a (offer_entry agent at_ e) = bool_decide (a = agent) || was_offered a e.
Proof.
  apply eq_true_iff_eq. rewrite orb_true_iff, bool_decide_eq_true, !was_offered_true. simpl.
  rewrite mark_offered_agents. case_bool_decide; set_solver.
Qed.

Lemma was_delivered_deliver agent at_ e a :
  was_delivered a (deliver_entry agent at_ e) = bool_decide (a = agent) || was_delivered a e.
Proof.
  apply eq_true_iff_eq. rewrite orb_true_iff, bool_decide_eq_true, !was_delivered_true. simpl.
  rewrite fmap_app. set_solver.
Qed.

(** ** The ledger only grows *)

(** What no later step changes about an entry. *)
Definition entry_core (e : OutboxEntry) :=
  (ob_inbox_id e, ob_action_id e, ob_target e, ob_created_at e, ob_sweep_items e, ob_message e).

Record entry_le (e e' : OutboxEntry) : Prop := {
  le_core : entry_core e' = entry_core e;
  le_offered : (λ m, (offered_agent m, first_offered_at m)) <$> ob_offered_to e
    `prefix_of` ((λ m, (offered_agent m, first_offered_at m)) <$> ob_offered_to e');
  le_delivered : ob_delivered_to e `prefix_of` ob_delivered_to e';
}.

#[export] Instance entry_le_preorder : PreOrder entry_le.
Proof.
  split; [by split|]. intros e1 e2 e3 [H1 H2 H3] [H4 H5 H6].
  split; [congruence|by eapply transitivity..].
Qed.

Definition ledger_le (m m' : Outbox) : Prop :=
  ∀ k e, m !! k = Some (Stored e) → ∃ e', m' !! k = Some (Stored e') ∧ entry_le e e'.

#[export] Instance ledger_le_preorder : PreOrder ledger_le.
Proof.
  split; [intros m k e He; by exists e|]. intros m1 m2 m3 H1 H2 k e He.
  apply H1 in He as (e' & He & ?). apply H2 in He as (e'' & He & ?).
  exists e''. split; [done|by etrans].
Qed.

Lemma mark_offered_prefix agent at_ l :
  (λ m, (offered_agent m, first_offered_at m)) <$> l
    `prefix_of` ((λ m, (offered_agent m, first_offered_at m)) <$> mark_offered agent at_ l).
Proof.
  induction l as [|m l IH]; csimpl; [apply prefix_nil|].
  case_bool_decide; csimpl; [by subst|by apply prefix_cons].
Qed.

Lemma offer_entry_le agent at_ e : entry_le e (offer_entry agent at_ e).
Proof. split; [done|apply mark_offered_prefix|done]. Qed.

Lemma deliver_entry_le agent at_ e : entry_le e (deliver_entry agent at_ e).
Proof. split; [done..|]. by eexists. Qed.

Lemma ledger_le_insert m k v :
  (∀ e, m !! k = Some (Stored e) → ∃ e', v = Stored e' ∧ entry_le e e') →
  ledger_le m (<[k := v]> m).
Proof.
  intros Hv k' e He. destruct (decide (k' = k)) as [->|].
  - rewrite lookup_insert_eq. apply Hv in He as (e' & -> & ?). eauto.
  - rewrite lookup_insert_ne by done. by exists e.
Qed.

Lemma outbox_step_le m m' : outbox_step m m' → ledger_le m m'.
Proof.
  destruct 1; apply ledger_le_insert; intros e0 He0; simplify_eq;
    eauto using offer_entry_le, deliver_entry_le.
Qed.

Lemma outbox_run_le m m' : rtc outbox_step m m' → ledger_le m m'.
Proof. induction 1; [done|]. etrans; [by apply outbox_step_le|done]. Qed.

Lemma entry_le_offered agent e e' : entry_le e e' → was_offered agent e = true → was_offered agent e' = true.
Proof.
  intros [_ [r Hr] _]. rewrite !was_offered_true, !list_elem_of_fmap.
  intros (x & -> & Hx).
  assert ((offered_agent x, first_offered_at x) ∈
    (λ m, (offered_agent m, first_offered_at m)) <$> ob_offered_to e') as Hin.
  { rewrite Hr. apply elem_of_app. left. apply list_elem_of_fmap. eauto. }
  apply list_elem_of_fmap in Hin as (y & [= ? ?] & ?). eauto.
Qed.

Lemma entry_le_delivered agent e e' :
  entry_le e e' → was_delivered agent e = true → was_delivered agent e' = true.
Proof.
  intros [_ _ [r Hr]]. rewrite !was_delivered_true, Hr, fmap_app. set_solver.
Qed.

Lemma entry_le_addressed agent e e' : entry_le e e' → addressed agent e ↔ addressed agent e'.
Proof. intros [Hc _ _]. unfold addressed. injection Hc as _ _ Ht _ _ _. by rewrite Ht. Qed.

(** ** Invariants of the ledger *)

(** A file is named after the entry it holds, and a placeholder has a name
    the directory scan accepts. *)
Definition outbox_wf (m : Outbox) : Prop :=
  (∀ k e, m !! k = Some (Stored e) → ob_inbox_id e = k ∧ msg_id (ob_message e) = k) ∧
  names_valid valid_inbox_name m.

(** The delivery history of one entry. *)
Record marks_wf (e : OutboxEntry) : Prop := {
  offered_nodup : NoDup (offered_agent <$> ob_offered_to e);
  delivered_nodup : NoDup (delivered_agent <$> ob_delivered_to e);
  delivered_offered agent : was_delivered agent e = true → was_offered agent e = true;
  offered_addressed agent : was_offered agent e = true → addressed agent e;
  attempts_bounds : Forall (λ m, 1 ≤ attempts m ≤ u64_max)%Z (ob_offered_to e);
}.

Definition history_wf (m : Outbox) : Prop :=
  ∀ k e, m !! k = Some (Stored e) → marks_wf e.

Lemma marks_wf_fresh k e : fresh_entry k e → marks_wf e.
Proof.
  intros (_ & _ & Ho & Hd).
  split; unfold was_offered, was_delivered; rewrite ?Ho, ?Hd; csimpl;
    [apply NoDup_nil_2|apply NoDup_nil_2| | |apply Forall_nil_2];
    done.
Qed.

Lemma marks_wf_offer agent at_ e :
  marks_wf e → addressed agent e → marks_wf (offer_entry agent at_ e).
Proof.
  intros [H1 H2 H3 H4 H5] Ha. split.
  - simpl. rewrite mark_offered_agents. case_bool_decide; [done|].
    apply NoDup_app. split_and!; [done|set_solver|apply NoDup_singleton].
  - done.
  - intros a Hd. rewrite was_offered_offer. apply H3 in Hd. by rewrite Hd, orb_true_r.
  - intros a. rewrite was_offered_offer, orb_true_iff, bool_decide_eq_true.
    intros [->|Ho]; [done|by apply H4].
  - simpl. clear -H5. induction H5 as [|m l Hm Hl IH]; simpl; [repeat constructor; simpl; done|].
    case_bool_decide; constructor; [|done|done|done]. simpl. unfold sat_add.
    unfold u64_max in *. lia.
Qed.

Lemma marks_wf_deliver agent at_ e :
  marks_wf e → was_offered agent e = true → was_delivered agent e = false →
  marks_wf (deliver_entry agent at_ e).
Proof.
  intros [H1 H2 H3 H4 H5] Ho Hd. split; [done| |..|done|done].
  - simpl. rewrite fmap_app. apply NoDup_app.
    apply bool_decide_eq_false in Hd. split_and!; [done|set_solver|apply NoDup_singleton].
  - intros a. rewrite was_delivered_deliver, orb_true_iff, bool_decide_eq_true.
    intros [->|Ha]; [done|by apply H3].
Qed.

Lemma outbox_step_wf m m' : outbox_step m m' → outbox_wf m → outbox_wf m'.
Proof.
  intros Hs [H1 H2]. split.
  - intros k e. destruct Hs as [? k'|? k' e' Hk (? & ? & _)|? k' e' ? ? Hk|? k' e' ? ? Hk];
      rewrite lookup_insert_Some; intros [[-> [=]]|[? He]]; subst; try (by apply H1).
    + done.
    + by apply H1 in Hk.
    + by apply H1 in Hk.
  - intros k. destruct Hs; rewrite lookup_insert_Some; intros [[-> [=]]|[? He]]; try done; by apply H2.
Qed.

Lemma outbox_step_history m m' : outbox_step m m' → history_wf m → history_wf m'.
Proof.
  intros Hs H1 k e. destruct Hs as [? k'|? k' e' Hk Hf|? k' e' ? ? Hk|? k' e' ? ? Hk];
    rewrite lookup_insert_Some; intros [[-> [=]]|[? He]]; subst; try (by eapply H1).
  - by eapply marks_wf_fresh.
  - apply marks_wf_offer; [by eapply H1|done].
  - apply marks_wf_deliver; [by eapply H1|done..].
Qed.

Lemma outbox_run_wf m m' : rtc outbox_step m m' → outbox_wf m → outbox_wf m'.
Proof. induction 1; eauto using outbox_step_wf. Qed.

Lemma outbox_run_history m m' : rtc outbox_step m m' → history_wf m → history_wf m'.
Proof. induction 1; eauto using outbox_step_history. Qed.

Lemma outbox_wf_empty : outbox_wf ∅.
Proof. split; [intros k e|intros k]; by rewrite lookup_empty. Qed.

Lemma history_wf_empty : history_wf ∅.
Proof. intros k e. by rewrite lookup_empty. Qed.

(** In a well-formed outbox, looking an entry up in the listing is looking
    its file up in the directory. *)
Lemma find_entry_stored m id :
  outbox_wf m → find_entry (stored m) id = m !! id ≫= file_value.
Proof.
  intros [Hk _]. unfold find_entry.
  destruct (list_find (λ e, ob_inbox_id e = id) (stored m)) as [[i e]|] eqn:Hf; simpl.
  - apply list_find_Some in Hf as (Hi & He & _).
    apply list_elem_of_lookup_2, elem_of_stored in Hi as [k Hk'].
    destruct (Hk _ _ Hk') as [? _]. replace id with k by congruence. by rewrite Hk'.
  - apply list_find_None in Hf. rewrite Forall_forall in Hf.
    destruct (m !! id) as [[|e]|] eqn:Hid; simpl; [done| |done].
    destruct (Hf e); [apply elem_of_stored; eauto | by apply (Hk id e)].
Qed.
