(* ===== verification/Delivery.v ===== *)
(** * Inbox delivery: the Maintainer's operations refine the ledger

    Part one proves that every operation that touches the outbox moves it
    along [outbox_step] whatever its outcome, under any fault schedule.
    Part two states the delivery guarantees of pull and ACK. *)

From S2P Require Import Prelude Storage Claim Maintainer Ledger.
Import Ids.

(** ** The invariant of a team store, and the moves that keep it *)

Section delivery.
Context (hex_encode : list Z → string) (self : Maintainer).

Definition entropy_ok (w : TeamStore) : Prop :=
  ∀ n, good_suffix (hex_encode (ts_entropy w n)) = true.

Definition store_inv (w : TeamStore) : Prop :=
  outbox_wf (ts_outbox w) ∧ names_valid valid_policy_name (ts_policies w) ∧ entropy_ok w.

Definition moves (w w' : TeamStore) : Prop :=
  store_inv w → rtc outbox_step (ts_outbox w) (ts_outbox w') ∧ store_inv w'.

#[export] Instance moves_preorder : PreOrder moves.
Proof.
  split; [intros w Hw; done|]. intros w1 w2 w3 H1 H2 Hw.
  destruct (H1 Hw) as [Hr1 Hw2], (H2 Hw2) as [Hr2 Hw3]. split; [by etrans|done].
Qed.

#[export] Instance moves_faults : FaultClosed moves.
Proof. by intros fs w Hw. Qed.

(** An operation that touches neither the outbox, nor the policies, nor the
    generator moves nothing. *)
Lemma moves_quiet w w' :
  ts_outbox w' = ts_outbox w → ts_policies w' = ts_policies w → ts_entropy w' = ts_entropy w →
  moves w w'.
Proof.
  intros H1 H2 H3 (Hw & Hp & He). rewrite H1. split; [done|].
  unfold store_inv, entropy_ok. by rewrite H1, H2, H3.
Qed.

#[local] Instance moves_disputes : DirClosed moves disputes_dir.
Proof. intros m w. by apply moves_quiet. Qed.

Lemma draw_valid prefix w r w' :
  entropy_ok w → draw_id hex_encode prefix w = (r, w') →
  ts_outbox w' = ts_outbox w ∧ ts_policies w' = ts_policies w ∧ entropy_ok w' ∧
  ∀ c, r = Ok c → is_ok (prefixed_from_str prefix c) = true.
Proof.
  intros He [= <- <-]. split_and!; [done..|]. intros c [= <-].
  unfold prefixed_random, random_hex8. by rewrite prefixed_from_str_app by apply He.
Qed.

Lemma draw_moves prefix : preserves moves (draw_id hex_encode prefix).
Proof. intros w r w' [= _ <-]. by apply moves_quiet. Qed.

Lemma mint_inbox_moves w r w' :
  mint_inbox_id_for_outbox hex_encode self w = (r, w') → store_inv w →
  rtc outbox_step (ts_outbox w) (ts_outbox w') ∧ store_inv w' ∧
  ∀ id, r = Ok id → ts_outbox w' !! id = Some Reserved.
Proof.
  intros Hm (Hw & Hp & He).
  eapply (mint_inv outbox_dir _ _
    (λ v, entropy_ok v ∧ ts_policies v = ts_policies w)
    (λ c, valid_inbox_name c = true)) in Hm as [[He' Hp'] Hm]; [| |done..].
  2: { intros v r0 v' [Hv Hvp] (Ho & Hq & He' & Hc)%draw_valid; [|done].
       split_and!; [done|done|congruence|done]. }
  unfold store_inv. rewrite Hp'. simpl in Hm.
  destruct Hm as [(id & -> & Hv & Hn & Hs)|[[e ->] Hs]]; rewrite Hs.
  - assert (outbox_step (ts_outbox w) (<[id:=Reserved]> (ts_outbox w))) by by constructor.
    split_and!; [by apply rtc_once|by eapply outbox_step_wf|done|done|].
    intros id' [= <-]. apply lookup_insert_eq.
  - by split_and!.
Qed.

Lemma mint_policy_moves : preserves moves (mint_policy_id hex_encode self).
Proof.
  intros w r w' Hm (Hw & Hp & He).
  eapply (mint_inv policies_dir _ _
    (λ v, entropy_ok v ∧ ts_outbox v = ts_outbox w)
    (λ c, valid_policy_name c = true)) in Hm as [[He' Ho'] Hm]; [| |done..].
  2: { intros v r0 v' [Hv Hvp] (Ho & Hq & He' & Hc)%draw_valid; [|done].
       split_and!; [done|done|congruence|done]. }
  unfold store_inv. rewrite Ho'. split_and!; [done|done| |done]. simpl in Hm.
  destruct Hm as [(id & -> & Hv & Hn & ->)|[_ ->]]; [|done].
  intros k. rewrite lookup_insert_Some. intros [[<- _]|[_ ?]]; [done|by apply Hp].
Qed.

Lemma mint_action_moves : preserves moves (mint_action_id_for_outbox hex_encode self).
Proof.
  unfold mint_action_id_for_outbox, outbox_list. case_bool_decide as Hn; clear Hn;
    [auto with acn typeclass_instances|].
  apply preserves_bind; [apply _|apply preserves_list; apply _|]. intros es.
  generalize (@None string). induction (id_mint_max_attempts self) as [|n IH]; intros last; simpl;
    [auto with acn typeclass_instances|].
  apply preserves_bind; [apply _|apply draw_moves|]. intros c.
  case_bool_decide; [apply IH|auto with acn typeclass_instances].
Qed.

Lemma write_stored_moves w k e r w' :
  write_yaml_atomic outbox_dir k e w = (r, w') → store_inv w →
  outbox_step (ts_outbox w) (<[k := Stored e]> (ts_outbox w)) →
  rtc outbox_step (ts_outbox w) (ts_outbox w') ∧ store_inv w' ∧
  (r = Ok tt → ts_outbox w' = <[k := Stored e]> (ts_outbox w)).
Proof.
  intros Hw (Ho & Hp & He) Hs.
  assert (ts_policies w' = ts_policies w ∧ ts_entropy w' = ts_entropy w) as [Hp' He'].
  { unfold write_yaml_atomic, io, io_step in Hw. mrun_in Hw.
    case_in Hw; done. }
  unfold store_inv, entropy_ok. rewrite Hp', He'.
  apply write_yaml_inv in Hw as [[-> Hw]|[-> Hw]]; [| |apply _]; simpl in Hw; rewrite Hw.
  - split_and!; [by apply rtc_once|by eapply outbox_step_wf|done..].
  - by split_and!.
Qed.

(** *** Composite operations *)

Lemma create_entries_moves kind action_id now items targets n :
  preserves moves (create_entries_loop hex_encode self kind action_id now items targets n).
Proof.
  revert n. induction targets as [|t targets IH]; intros n; simpl;
    [auto with acn typeclass_instances|].
  intros w r w' [(id & w1 & H1 & H2)|(e & H1 & ->)]%bind_cases Hw.
  2: { by apply mint_inbox_moves in H1 as (? & ? & _). }
  apply mint_inbox_moves in H1 as (Hr1 & Hw1 & Hid); [|done]. specialize (Hid _ eq_refl).
  assert (outbox_step (ts_outbox w1)
    (<[id := Stored (new_entry id action_id t now items kind)]> (ts_outbox w1))) as Hstep
    by by constructor.
  apply bind_cases in H2 as [([] & w2 & H2 & H3)|(e & H2 & ->)];
    apply write_stored_moves in H2 as (Hr2 & Hw2 & _); [| done | done | | done | done].
  - destruct (IH _ _ _ _ H3 Hw2) as [Hr3 Hw3]. split; [by do 2 (etrans; [done|])|done].
  - split; [by etrans|done].
Qed.

Lemma write_policy_moves k p : preserves moves (write_yaml_atomic policies_dir k p).
Proof.
  unfold write_yaml_atomic. apply preserves_bind; [apply _|apply preserves_io; apply _|].
  intros _ w r w' [= _ <-] (Hw & Hp & He). split; [done|]. split_and!; [done| |done].
  intros k'. simpl. rewrite lookup_insert_Some. intros [[_ [=]]|[_ ?]]. by apply Hp.
Qed.

Lemma lock_moves {E} (e : E) : preserves moves (io_step e).
Proof. apply preserves_io_step; apply _. Qed.

Lemma modify_agents_moves {E} f : preserves (E:=E) moves (modify (λ w, set_agents (f w) w)).
Proof. intros w r w' [= _ <-]. by apply moves_quiet. Qed.

#[local] Hint Resolve create_entries_moves write_policy_moves mint_action_moves mint_policy_moves
  lock_moves modify_agents_moves moves_preorder moves_faults moves_disputes : acn.

Lemma publish_moves name statement scope now targets :
  preserves moves (publish_new_policy hex_encode self name statement scope now targets).
Proof.
  unfold publish_new_policy, lock_outbox_file, write_policy, create_outbox_entries.
  solve_preserves.
Qed.

Lemma deprecate_moves id now : preserves moves (deprecate_policy hex_encode self id now).
Proof. unfold deprecate_policy, lock_outbox_file, create_outbox_entries. solve_preserves. Qed.

Lemma suggestion_locked_moves statement now targets items :
  preserves moves (claim_update_suggestion_locked hex_encode self statement now targets items).
Proof. unfold claim_update_suggestion_locked, write_policy, create_outbox_entries. solve_preserves. Qed.

Lemma suggestion_moves statement now targets :
  preserves moves (claim_update_suggestion hex_encode self statement now targets).
Proof.
  unfold claim_update_suggestion, lock_outbox_file.
  pose proof suggestion_locked_moves. solve_preserves.
Qed.

Lemma upload_moves c : preserves moves (upload_claim c).
Proof. unfold upload_claim. solve_preserves. Qed.

Lemma report_moves d : preserves moves (report_dispute d).
Proof.
  unfold report_dispute, validate_new_dispute_direct_claims, load_team_claims, write_dispute.
  destruct (validate_agent_report d); [|solve_preserves].
  apply preserves_bind; [apply _|solve_preserves|]. intros _.
  apply preserves_bind; [apply _|apply preserves_m_try, preserves_read; apply _|solve_preserves].
Qed.

(** An offer or a receipt is written over the entry the file holds. *)
Lemma read_entry_moves k w r w' :
  read_yaml (E:=MaintainerError) outbox_dir k w = (r, w') → store_inv w →
  store_inv w' ∧ ts_outbox w' = ts_outbox w ∧
  ∀ e, r = Ok e → ts_outbox w !! k = Some (Stored e).
Proof.
  intros Hr Hw. split; [|by apply read_yaml_inv in Hr; [|apply _]].
  by eapply (preserves_read moves).
Qed.

Lemma record_offered_moves k agent at_ w r w' :
  record_offered k agent at_ w = (r, w') → store_inv w →
  (∀ e, ts_outbox w !! k = Some (Stored e) → addressed agent e) →
  rtc outbox_step (ts_outbox w) (ts_outbox w') ∧ store_inv w'.
Proof.
  unfold record_offered. intros [(e & w1 & H1 & H2)|(e & H1 & ->)]%bind_cases Hw Ha;
    destruct (read_entry_moves _ _ _ _ H1 Hw) as (Hw1 & Ho & He); [|by rewrite Ho].
  rewrite <-Ho in *. apply write_stored_moves in H2 as (? & ? & _); [done|done|].
  apply step_offer; eauto.
Qed.

Lemma append_delivered_moves k agent at_ w r w' :
  append_delivered k agent at_ w = (r, w') → store_inv w →
  (∀ e, ts_outbox w !! k = Some (Stored e) →
    was_offered agent e = true ∨ was_delivered agent e = true) →
  rtc outbox_step (ts_outbox w) (ts_outbox w') ∧ store_inv w'.
Proof.
  unfold append_delivered. intros [(e & w1 & H1 & H2)|(e & H1 & ->)]%bind_cases Hw Ha;
    destruct (read_entry_moves _ _ _ _ H1 Hw) as (Hw1 & Ho & He); [|by rewrite Ho].
  rewrite <-Ho in *. destruct (was_delivered agent e) eqn:Hd.
  { injection H2 as _ <-. done. }
  apply write_stored_moves in H2 as (? & ? & _); [done|done|].
  apply step_deliver; [by eauto| |done]. destruct (Ha e) as [?|?]; [by eauto|done|congruence].
Qed.

Lemma offer_loop_moves agent now chosen : ∀ w r w',
  offer_loop agent now chosen w = (r, w') → store_inv w →
  Forall (λ e, ∃ e', ts_outbox w !! ob_inbox_id e = Some (Stored e') ∧ addressed agent e') chosen →
  rtc outbox_step (ts_outbox w) (ts_outbox w') ∧ store_inv w'.
Proof.
  induction chosen as [|e chosen IH]; intros w r w' Hr Hw Hc; simpl in Hr.
  { by injection Hr as _ <-. }
  apply Forall_cons in Hc as [(e' & He' & Ha) Hc].
  assert (Hsame : ∀ e0, ts_outbox w !! ob_inbox_id e = Some (Stored e0) → addressed agent e0)
    by (intros ? ?; by simplify_eq).
  apply bind_cases in Hr as [([] & w1 & H1 & H2)|(er & H1 & ->)];
    destruct (record_offered_moves _ _ _ _ _ _ H1 Hw Hsame) as [Hr1 Hw1]; [|done].
  assert (Hc1 : Forall (λ e, ∃ e', ts_outbox w1 !! ob_inbox_id e = Some (Stored e') ∧
    addressed agent e') chosen).
  { eapply Forall_impl; [exact Hc|]. intros x (x' & Hx & Hax).
    destruct (outbox_run_le _ _ Hr1 _ _ Hx) as (x'' & Hx' & Hle). exists x''.
    split; [done|]. by apply (entry_le_addressed _ _ _ Hle). }
  apply bind_cases in H2 as [(out & w2 & H2 & H3)|(er & H2 & ->)];
    destruct (IH _ _ _ H2 Hw1 Hc1) as [Hr2 Hw2]; [injection H3 as _ <-|];
    (split; [by etrans|done]).
Qed.

Lemma deliver_loop_moves agent now ids : ∀ w r w',
  deliver_loop agent now ids w = (r, w') → store_inv w →
  Forall (λ id, ∃ e, ts_outbox w !! id = Some (Stored e) ∧
    (was_offered agent e = true ∨ was_delivered agent e = true)) ids →
  rtc outbox_step (ts_outbox w) (ts_outbox w') ∧ store_inv w'.
Proof.
  induction ids as [|id ids IH]; intros w r w' Hr Hw Hc; simpl in Hr.
  { by injection Hr as _ <-. }
  apply Forall_cons in Hc as [(e & He & Ho) Hc].
  assert (Hsame : ∀ e0, ts_outbox w !! id = Some (Stored e0) →
    was_offered agent e0 = true ∨ was_delivered agent e0 = true)
    by (intros ? ?; by simplify_eq).
  apply bind_cases in Hr as [([] & w1 & H1 & H2)|(er & H1 & ->)]; unfold m_map_err in H1;
    destruct (append_delivered id agent now w) as [r0 w0] eqn:H0;
    destruct (append_delivered_moves _ _ _ _ _ _ H0 Hw Hsame) as [Hr1 Hw1]; simplify_eq; [|done].
  assert (Hc1 : Forall (λ id, ∃ e, ts_outbox w1 !! id = Some (Stored e) ∧
    (was_offered agent e = true ∨ was_delivered agent e = true)) ids).
  { eapply Forall_impl; [exact Hc|]. intros x (x' & Hx & Hax).
    destruct (outbox_run_le _ _ Hr1 _ _ Hx) as (x'' & Hx' & Hle). exists x''.
    split; [done|]. destruct Hax; eauto using entry_le_offered, entry_le_delivered. }
  destruct (IH _ _ _ H2 Hw1 Hc1) as [Hr2 Hw2]. split; [by etrans|done].
Qed.

Lemma choose_entries_in active agent entries e :
  e ∈ choose_entries active agent entries ↔
  e ∈ entries ∧ pull_selects active (seen_policy_ids agent entries) agent e = true.
Proof.
  unfold choose_entries. rewrite elem_of_sort_by, list_elem_of_filter, Is_true_true. tauto.
Qed.

Lemma pull_selects_addressed active seen agent e :
  pull_selects active seen agent e = true → addressed agent e.
Proof.
  unfold pull_selects, addressed. destruct (was_delivered agent e), (ob_target e); try done.
  by intros ?%bool_decide_eq_true.
Qed.

Lemma chosen_addressed active agent m : outbox_wf m →
  Forall (λ e, ∃ e', m !! ob_inbox_id e = Some (Stored e') ∧ addressed agent e')
    (choose_entries active agent (stored m)).
Proof.
  intros [Hk _]. apply Forall_forall. intros e [[k He]%elem_of_stored Hs]%choose_entries_in.
  exists e. destruct (Hk _ _ He) as [-> _]. eauto using pull_selects_addressed.
Qed.

Lemma outbox_list_inv r w w' : outbox_list w = (r, w') →
  ts_outbox w' = ts_outbox w ∧ ∀ es, r = Ok es → es = stored (ts_outbox w).
Proof. intros H. by apply list_yaml_inv in H; [|apply _]. Qed.

Lemma pull_moves agent now : preserves moves (pull_inbox agent now).
Proof.
  unfold pull_inbox, lock_outbox_file, ensure_agent_registered, active_policy_id_set, list_policies.
  apply preserves_bind; [apply _|solve_preserves|]. intros _.
  apply preserves_bind; [apply _|solve_preserves|]. intros _.
  apply preserves_bind; [apply _|solve_preserves|]. intros active.
  intros w r w' [(es & w1 & H1 & H2)|(e & H1 & ->)]%bind_cases Hw.
  - assert (store_inv w1) as Hw1 by by eapply (preserves_list moves outbox_dir).
    apply outbox_list_inv in H1 as [Ho Hes]. rewrite (Hes _ eq_refl), <-Ho in *.
    eapply offer_loop_moves; [done|done|]. apply chosen_addressed, Hw1.
  - by eapply (preserves_list moves outbox_dir).
Qed.

Lemma check_ack_one_ok m agent id : outbox_wf m →
  check_ack_one (stored m) agent id = Ok tt ↔
  ∃ e, m !! id = Some (Stored e) ∧ addressed agent e ∧
    (was_offered agent e = true ∨ was_delivered agent e = true).
Proof.
  intros Hm. unfold check_ack_one. rewrite find_entry_stored by done.
  destruct (m !! id) as [[|e]|]; simpl; [naive_solver| |naive_solver].
  unfold addressed. split.
  - intros H. exists e. split; [done|].
    destruct (ob_target e) as [|t]; [|case_bool_decide; simpl in H; [|done]];
      destruct (was_offered agent e), (was_delivered agent e); naive_solver.
  - intros (e0 & [= <-] & Ha & Hod).
    destruct (ob_target e) as [|t]; [|rewrite bool_decide_true by done]; simpl;
      destruct (was_offered agent e), (was_delivered agent e); naive_solver.
Qed.

Lemma check_ack_ok es agent ids :
  check_ack es agent ids = Ok tt ↔ Forall (λ id, check_ack_one es agent id = Ok tt) ids.
Proof.
  induction ids as [|id ids IH]; simpl; [by split|]. rewrite Forall_cons, <-IH.
  unfold mbind, Result_bind. destruct (check_ack_one es agent id) as [[]|]; naive_solver.
Qed.

Lemma ack_moves agent ids now : preserves moves (ack_inbox agent ids now).
Proof.
  unfold ack_inbox, lock_outbox_file.
  apply preserves_bind; [apply _|apply preserves_m_map_err; solve_preserves|]. intros _.
  intros w r w' [(es & w1 & H1 & H2)|(e & H1 & ->)]%bind_cases Hw.
  2: { eapply (preserves_m_map_err moves ReadOutbox outbox_list);
         [by apply (preserves_list moves outbox_dir)|exact H1|done]. }
  apply m_map_err_ok in H1.
  assert (store_inv w1) as Hw1 by by eapply (preserves_list moves outbox_dir).
  apply outbox_list_inv in H1 as [Ho Hes]. rewrite (Hes _ eq_refl), <-Ho in *.
  apply bind_cases in H2 as [([] & w2 & [= Hc <-] & H3)|(e & [= _ <-] & ->)]; [|done].
  eapply deliver_loop_moves; [done|done|]. apply check_ack_ok in Hc.
  eapply Forall_impl; [exact Hc|]. intros id (e & ? & _ & ?)%check_ack_one_ok; [|apply Hw1]. eauto.
Qed.
End delivery.
