(* ===== verification/DeliveryRuns.v ===== *)
(** * Fault-free runs of pull and ACK

    With no I/O fault scheduled, pull_inbox and ack_inbox compute closed
    functions of the store; the guarantees are read off these. *)

From S2P Require Import Prelude Storage Claim Maintainer Ledger Delivery.
Import Ids.

Definition offer_all (agent : AgentId) (now : DateTime) (chosen : list OutboxEntry) (m : Outbox) : Outbox :=
  fold_left (λ m e, <[ob_inbox_id e := Stored (offer_entry agent now e)]> m) chosen m.

(** What acknowledging one id does to the outbox. *)
Definition deliver_one (agent : AgentId) (now : DateTime) (m : Outbox) (id : InboxId) : Outbox :=
  match m !! id with
  | Some (Stored e) =>
      if was_delivered agent e then m else <[id := Stored (deliver_entry agent now e)]> m
  | _ => m
  end.

Definition deliver_all (agent : AgentId) (now : DateTime) (ids : list InboxId) (m : Outbox) : Outbox :=
  fold_left (deliver_one agent now) ids m.

Definition active_ids (w : TeamStore) : list PolicyId :=
  policy_id <$> filter (λ p, policy_status p = PolicyActive) (stored (ts_policies w)).

Definition pull_choice (agent : AgentId) (w : TeamStore) : list OutboxEntry :=
  choose_entries (active_ids w) agent (stored (ts_outbox w)).

Definition registered (agent : AgentId) (w : TeamStore) : TeamStore :=
  set_agents (<[agent := default ∅ (ts_agents w !! agent)]> (ts_agents w)) w.

(** [ackable]: what the pre-check of a batch demands of one id. *)
Definition ackable (m : Outbox) (agent : AgentId) (id : InboxId) : Prop :=
  ∃ e, m !! id = Some (Stored e) ∧ addressed agent e ∧
    (was_offered agent e = true ∨ was_delivered agent e = true).

Definition receipted (m : Outbox) (agent : AgentId) (id : InboxId) : Prop :=
  ∃ e, m !! id = Some (Stored e) ∧ was_delivered agent e = true.

(** ** Listings *)

Lemma NoDup_keyed {A} (key : A → string) (l : list (string * file A)) :
  NoDup l.*1 → (∀ k a, (k, Stored a) ∈ l → key a = k) →
  NoDup (key <$> omap (file_value ∘ snd) l).
Proof.
  induction l as [|[k f] l IH]; csimpl; intros Hnd Hk; [constructor|].
  apply NoDup_cons in Hnd as [Hin Hnd].
  assert (IH' := IH Hnd (λ k a H, Hk k a (list_elem_of_further _ _ _ H))).
  destruct f as [|a]; simpl; [done|]. constructor; [|done].
  intros (b & Hab & ([k' f'] & Hb & Hv)%list_elem_of_omap)%list_elem_of_fmap. simpl in Hv.
  destruct f'; simplify_eq/=. apply Hin. rewrite <-(Hk k a), Hab by by left.
  rewrite (Hk k' b) by by right. apply list_elem_of_fmap. by eexists (_, _).
Qed.

Lemma stored_ids_nodup m : outbox_wf m → NoDup (ob_inbox_id <$> stored m).
Proof.
  intros [Hk _]. apply NoDup_keyed; [apply NoDup_fst_map_to_list|].
  intros k e He%elem_of_map_to_list. by apply Hk.
Qed.

Lemma stored_lookup m e : outbox_wf m → e ∈ stored m ↔ m !! ob_inbox_id e = Some (Stored e).
Proof.
  intros [Hk _]. rewrite elem_of_stored. split; [|by eauto].
  intros [k He]. by destruct (Hk _ _ He) as [-> _].
Qed.

Lemma NoDup_fmap_filter {A} (f : A → string) (P : A → Prop) `{!∀ x, Decision (P x)} l :
  NoDup (f <$> l) → NoDup (f <$> filter P l).
Proof.
  induction l as [|x l IH]; csimpl; [done|]. intros [Hx Hl]%NoDup_cons.
  rewrite filter_cons. case_decide; csimpl; [|by apply IH].
  constructor; [|by apply IH]. intros (y & Hy & [_ ?]%list_elem_of_filter)%list_elem_of_fmap.
  apply Hx. rewrite Hy. by apply list_elem_of_fmap_2.
Qed.

Lemma choice_nodup active agent m : outbox_wf m →
  NoDup (ob_inbox_id <$> choose_entries active agent (stored m)).
Proof.
  intros Hm. unfold choose_entries. rewrite sort_by_perm.
  by apply NoDup_fmap_filter, stored_ids_nodup.
Qed.

(** ** Offers *)

Lemma offer_all_ne agent now chosen m k :
  k ∉ ob_inbox_id <$> chosen → offer_all agent now chosen m !! k = m !! k.
Proof.
  unfold offer_all. revert m. induction chosen as [|e l IH]; intros m; csimpl; [done|].
  intros [Hk Hl]%not_elem_of_cons. rewrite IH by done. by apply lookup_insert_ne.
Qed.

Lemma offer_all_in agent now chosen m e :
  NoDup (ob_inbox_id <$> chosen) → e ∈ chosen →
  offer_all agent now chosen m !! ob_inbox_id e = Some (Stored (offer_entry agent now e)).
Proof.
  revert m. induction chosen as [|e' l IH]; intros m; csimpl; [set_solver|].
  intros [Hk Hl]%NoDup_cons [->|He]%elem_of_cons.
  - change (offer_all agent now l (<[ob_inbox_id e' := Stored (offer_entry agent now e')]> m)
      !! ob_inbox_id e' = Some (Stored (offer_entry agent now e'))).
    rewrite offer_all_ne by done. apply lookup_insert_eq.
  - by apply (IH (<[ob_inbox_id e' := Stored (offer_entry agent now e')]> m)).
Qed.

Lemma record_offered_run k agent now e w :
  faults w = [] → ts_outbox w !! k = Some (Stored e) →
  record_offered k agent now w =
    (Ok tt, set_outbox (<[k := Stored (offer_entry agent now e)]> (ts_outbox w)) w).
Proof.
  intros Hf He. unfold record_offered.
  rewrite (bind_step _ _ w e w) by by apply (read_yaml_run outbox_dir).
  by rewrite (write_yaml_run outbox_dir).
Qed.

Lemma offer_loop_run agent now chosen : ∀ w,
  faults w = [] → NoDup (ob_inbox_id <$> chosen) →
  Forall (λ e, ts_outbox w !! ob_inbox_id e = Some (Stored e)) chosen →
  offer_loop agent now chosen w =
    (Ok (ob_message <$> chosen), set_outbox (offer_all agent now chosen (ts_outbox w)) w).
Proof.
  induction chosen as [|e l IH]; intros w Hf; csimpl; [by destruct w|].
  intros [Hn Hnd]%NoDup_cons [He Hl]%Forall_cons.
  erewrite bind_step by by apply record_offered_run.
  rewrite (bind_step _ _ _ (ob_message <$> l) (set_outbox (offer_all agent now (e :: l) (ts_outbox w)) w)).
  { done. }
  rewrite IH; [done|done|done|].
  apply Forall_forall. intros x Hx. simpl. rewrite lookup_insert_ne.
  - rewrite Forall_forall in Hl. by apply Hl.
  - intros Heq. apply Hn. rewrite Heq. by apply list_elem_of_fmap_2.
Qed.

Lemma pull_inbox_run hex_encode agent now w :
  faults w = [] → store_inv hex_encode w →
  pull_inbox agent now w =
    (Ok (ob_message <$> pull_choice agent w),
     set_outbox (offer_all agent now (pull_choice agent w) (ts_outbox w)) (registered agent w)).
Proof.
  intros Hf (Ho & Hp & _). unfold pull_inbox, lock_outbox_file.
  rewrite (bind_step _ _ w tt w).
  2: { unfold io_step. by rewrite Hf. }
  rewrite (bind_step _ _ w tt (registered agent w)).
  2: { unfold ensure_agent_registered. by rewrite (bind_step _ _ w tt w) by by apply io_no_fault. }
  rewrite (bind_step _ _ _ (active_ids w) (registered agent w)).
  2: { unfold active_policy_id_set, list_policies.
       erewrite bind_step by by apply (list_yaml_run policies_dir). done. }
  erewrite bind_step.
  2: { apply (list_yaml_run outbox_dir); [done|]. apply Ho. }
  rewrite offer_loop_run; [done|done| |].
  - by apply choice_nodup.
  - apply Forall_forall. intros e [He _]%choose_entries_in. by apply stored_lookup.
Qed.

(** ** Receipts *)

Lemma append_delivered_run k agent now w :
  faults w = [] → (∃ e, ts_outbox w !! k = Some (Stored e)) →
  append_delivered k agent now w = (Ok tt, set_outbox (deliver_one agent now (ts_outbox w) k) w).
Proof.
  intros Hf [e He]. unfold append_delivered, deliver_one. rewrite He.
  rewrite (bind_step _ _ w e w) by by apply (read_yaml_run outbox_dir).
  destruct (was_delivered agent e); [by destruct w|]. by rewrite (write_yaml_run outbox_dir).
Qed.

Lemma deliver_one_le agent now m id : ledger_le m (deliver_one agent now m id).
Proof.
  unfold deliver_one. destruct (m !! id) as [[|e]|] eqn:He; [done| |done].
  destruct (was_delivered agent e); [done|].
  apply ledger_le_insert. intros e0 ?; simplify_eq. eauto using deliver_entry_le.
Qed.

Lemma deliver_all_le agent now ids m : ledger_le m (deliver_all agent now ids m).
Proof.
  unfold deliver_all. revert m. induction ids as [|id ids IH]; intros m; simpl; [done|].
  etrans; [apply deliver_one_le|apply IH].
Qed.

Lemma ledger_le_receipted m m' agent id : ledger_le m m' → receipted m agent id → receipted m' agent id.
Proof.
  intros Hle (e & He & Hd). apply Hle in He as (e' & He' & ?). exists e'. eauto using entry_le_delivered.
Qed.

Lemma ledger_le_ackable m m' agent id : ledger_le m m' → ackable m agent id → ackable m' agent id.
Proof.
  intros Hle (e & He & Ha & Hd). apply Hle in He as (e' & He' & Hle').
  exists e'. split_and!; [done|by apply (entry_le_addressed _ _ _ Hle')|].
  destruct Hd; eauto using entry_le_delivered, entry_le_offered.
Qed.

Lemma deliver_one_receipted agent now m id :
  (∃ e, m !! id = Some (Stored e)) → receipted (deliver_one agent now m id) agent id.
Proof.
  intros [e He]. unfold deliver_one, receipted. rewrite He.
  destruct (was_delivered agent e) eqn:Hd; [by eauto|]. rewrite lookup_insert_eq.
  eexists; split; [done|]. by rewrite was_delivered_deliver, bool_decide_true.
Qed.

Lemma deliver_all_receipted agent now ids m :
  Forall (ackable m agent) ids → Forall (receipted (deliver_all agent now ids m) agent) ids.
Proof.
  unfold deliver_all. revert m. induction ids as [|id ids IH]; intros m; simpl; [done|].
  intros [Hid Hids]%Forall_cons. constructor.
  - eapply ledger_le_receipted; [apply deliver_all_le|]. apply deliver_one_receipted.
    destruct Hid as (e & He & _). eauto.
  - apply IH. eapply Forall_impl; [done|]. intros x. apply ledger_le_ackable, deliver_one_le.
Qed.

(** Re-delivering what is delivered changes nothing. *)
Lemma deliver_all_id agent now ids m :
  Forall (receipted m agent) ids → deliver_all agent now ids m = m.
Proof.
  unfold deliver_all. induction ids as [|id ids IH]; simpl; [done|].
  intros [(e & He & Hd) Hids]%Forall_cons.
  assert (deliver_one agent now m id = m) as -> by (unfold deliver_one; by rewrite He, Hd).
  by apply IH.
Qed.

Lemma deliver_loop_run agent now ids : ∀ w,
  faults w = [] → Forall (ackable (ts_outbox w) agent) ids →
  deliver_loop agent now ids w = (Ok tt, set_outbox (deliver_all agent now ids (ts_outbox w)) w).
Proof.
  induction ids as [|id ids IH]; intros w Hf; simpl; [by destruct w|].
  intros [Hid Hids]%Forall_cons.
  rewrite (bind_step _ _ w tt (set_outbox (deliver_one agent now (ts_outbox w) id) w)).
  - rewrite IH; [done|done|]. simpl. eapply Forall_impl; [done|]. intros x.
    apply ledger_le_ackable, deliver_one_le.
  - unfold m_map_err. rewrite append_delivered_run; [done|done|].
    destruct Hid as (e & He & _). eauto.
Qed.

Lemma check_ack_ackable m agent ids : outbox_wf m →
  check_ack (stored m) agent ids = Ok tt ↔ Forall (ackable m agent) ids.
Proof.
  intros Hm. rewrite check_ack_ok. apply Forall_iff. intros id. by apply check_ack_one_ok.
Qed.

Lemma ack_inbox_run hex_encode agent ids now w :
  faults w = [] → store_inv hex_encode w →
  ack_inbox agent ids now w =
    match check_ack (stored (ts_outbox w)) agent (dedup ids) with
    | Ok _ => (Ok tt, set_outbox (deliver_all agent now (dedup ids) (ts_outbox w)) w)
    | Err e => (Err e, w)
    end.
Proof.
  intros Hf (Ho & Hp & _). unfold ack_inbox, lock_outbox_file.
  rewrite (bind_step _ _ w tt w).
  2: { unfold m_map_err, io_step. by rewrite Hf. }
  rewrite (bind_step _ _ w (stored (ts_outbox w)) w).
  2: { unfold m_map_err, outbox_list. rewrite (list_yaml_run outbox_dir); [done|done|]. apply Ho. }
  destruct (check_ack (stored (ts_outbox w)) agent (dedup ids)) as [[]|e] eqn:Hc; [|done].
  rewrite (bind_step _ _ w tt w) by done.
  rewrite deliver_loop_run; [done|done|]. by apply check_ack_ackable.
Qed.

(** ** Runs with faults: what a successful pull returned *)

Lemma offer_loop_msgs agent now chosen : ∀ w msgs w',
  offer_loop agent now chosen w = (Ok msgs, w') → msgs = ob_message <$> chosen.
Proof.
  induction chosen as [|e l IH]; intros w msgs w' H; simpl in H; [by injection H as <-|].
  do 2 mbind_inv H. injection H as <- <-. csimpl. f_equal. by eapply IH.
Qed.

(** The steps of a pull before its first offer touch neither directory. *)
Definition same_delivery (w w' : TeamStore) : Prop :=
  ts_policies w' = ts_policies w ∧ ts_outbox w' = ts_outbox w.

#[export] Instance same_delivery_preorder : PreOrder same_delivery.
Proof. split; [done|]. intros w1 w2 w3 [? ?] [? ?]. split; congruence. Qed.

#[export] Instance same_delivery_faults : FaultClosed same_delivery.
Proof. done. Qed.

Lemma register_same_delivery agent : preserves same_delivery (ensure_agent_registered agent).
Proof.
  apply preserves_bind; [apply _|apply preserves_io; apply _|]. by intros _ w r w' [= _ <-].
Qed.

Lemma active_ids_inv w act w' : active_policy_id_set w = (Ok act, w') →
  act = active_ids w ∧ same_delivery w w'.
Proof.
  unfold active_policy_id_set. intros H. mbind_inv H. injection H as <- <-.
  assert (same_delivery w w0) by by eapply (preserves_list same_delivery policies_dir).
  destruct (list_yaml_inv policies_dir _ _ _ _ H0) as [_ Hl]. by rewrite (Hl _ eq_refl).
Qed.

Lemma pull_choice_same agent w w' : same_delivery w w' → pull_choice agent w' = pull_choice agent w.
Proof. intros [H1 H2]. unfold pull_choice, active_ids. by rewrite H1, H2. Qed.

Lemma pull_inbox_msgs agent now w msgs w' :
  pull_inbox agent now w = (Ok msgs, w') → msgs = ob_message <$> pull_choice agent w.
Proof.
  unfold pull_inbox, lock_outbox_file. intros H.
  mbind_inv H. rename H0 into Hlock. mbind_inv H. rename H0 into Hreg.
  mbind_inv H. rename H0 into Hact. mbind_inv H. rename H0 into Hlist.
  apply offer_loop_msgs in H as ->.
  assert (same_delivery w w1) as Hs1.
  { etrans; [by eapply (preserves_io_step same_delivery)|by eapply register_same_delivery]. }
  apply active_ids_inv in Hact as [-> Hs2]. apply outbox_list_inv in Hlist as [_ Hes].
  rewrite (Hes _ eq_refl). rewrite <-(pull_choice_same agent w w1 Hs1).
  unfold pull_choice. by destruct Hs2 as [_ ->].
Qed.

Lemma pull_selects_not_delivered active seen agent e :
  pull_selects active seen agent e = true → was_delivered agent e = false.
Proof. unfold pull_selects. by destruct (was_delivered agent e). Qed.

(** ** Acknowledgement with faults *)

Section ack.
Context (hex_encode : list Z → string).

Lemma check_ack_one_err m agent id e :
  outbox_wf m → check_ack_one (stored m) agent id = Err e →
  match e with
  | UnknownInbox i => i = id ∧ m !! id ≫= file_value = None
  | TargetMismatch a i => a = agent ∧ i = id ∧
      ∃ en, m !! id = Some (Stored en) ∧ ¬ addressed agent en
  | NotOffered a i => a = agent ∧ i = id ∧
      ∃ en, m !! id = Some (Stored en) ∧ was_offered agent en = false ∧ was_delivered agent en = false
  | _ => False
  end.
Proof.
  intros Hm. unfold check_ack_one. rewrite find_entry_stored by done. unfold addressed.
  destruct (m !! id) as [[|en]|]; simpl; [by intros [= <-]| |by intros [= <-]].
  destruct (ob_target en) as [|t] eqn:Et; [|case_bool_decide]; simpl;
    destruct (was_offered agent en) eqn:?, (was_delivered agent en) eqn:?; simpl; intros [= <-];
    split_and!; try done; exists en; rewrite ?Et; done.
Qed.

Lemma check_ack_err m agent ids e :
  check_ack (stored m) agent ids = Err e → ∃ id, id ∈ ids ∧ check_ack_one (stored m) agent id = Err e.
Proof.
  induction ids as [|id ids IH]; simpl; [done|].
  unfold mbind, Result_bind. destruct (check_ack_one (stored m) agent id) as [[]|e0] eqn:He.
  - intros (i & ? & ?)%IH. exists i. split; [by right|done].
  - intros [= ->]. exists id. split; [by left|done].
Qed.

Lemma append_delivered_ok k agent now w w' :
  append_delivered k agent now w = (Ok tt, w') → receipted (ts_outbox w') agent k.
Proof.
  unfold append_delivered. intros H. mbind_inv H.
  apply (read_yaml_ok outbox_dir) in H0 as [He Ho]. simpl in *.
  destruct (was_delivered agent a) eqn:Hd.
  - injection H as <-. exists a. by rewrite Ho.
  - apply (write_yaml_ok outbox_dir) in H. simpl in H. rewrite H.
    exists (deliver_entry agent now a). rewrite lookup_insert_eq. split; [done|].
    by rewrite was_delivered_deliver, bool_decide_true.
Qed.

Lemma deliver_loop_inv agent now ids : ∀ w r w',
  deliver_loop agent now ids w = (r, w') → store_inv hex_encode w →
  Forall (ackable (ts_outbox w) agent) ids →
  (r = Ok tt ∧ Forall (receipted (ts_outbox w') agent) ids) ∨
  (∃ id e, r = Err (PersistAck id e) ∧ id ∈ ids).
Proof.
  induction ids as [|id ids IH]; intros w r w' H Hw Hids; simpl in H.
  { injection H as <- <-. by left. }
  apply Forall_cons in Hids as [Hid Hids].
  assert (Hmv : ∀ r0 w0, append_delivered id agent now w = (r0, w0) →
    store_inv hex_encode w0 ∧ ledger_le (ts_outbox w) (ts_outbox w0)).
  { intros r0 w0 H0. destruct (append_delivered_moves hex_encode _ _ _ _ _ _ H0 Hw) as [Hr Hw0].
    - intros e He. destruct Hid as (e' & He' & _ & Ho). by simplify_eq.
    - split; [done|by apply outbox_run_le]. }
  apply bind_cases in H as [([] & w1 & H1 & H2)|(er & H1 & ->)]; unfold m_map_err in H1;
    destruct (append_delivered id agent now w) as [r0 w0] eqn:H0; simplify_eq;
    destruct (Hmv _ _ eq_refl) as [Hw1 Hle].
  - destruct r0 as [[]|]; [|done].
    destruct (IH _ _ _ H2 Hw1) as [[-> Hrec]|(i & e & -> & Hi)].
    { eapply Forall_impl; [exact Hids|]. intros x. by apply ledger_le_ackable. }
    + left. split; [done|]. constructor; [|done].
      eapply ledger_le_receipted; [|by eapply append_delivered_ok].
      apply outbox_run_le. eapply (deliver_loop_moves hex_encode); [exact H2|done|].
      eapply Forall_impl; [exact Hids|]. intros x (e & He & _ & Ho). apply Hle in He as (e' & He & Hle').
      exists e'. split; [done|]. destruct Ho; eauto using entry_le_offered, entry_le_delivered.
    + right. exists i, e. split; [done|by right].
  - destruct r0 as [|e0]; simplify_eq/=. right. exists id, e0. split; [done|by left].
Qed.

(** Everything an acknowledgement can do, under any faults. *)
Lemma ack_inbox_inv agent ids now w r w' :
  ack_inbox agent ids now w = (r, w') → store_inv hex_encode w →
  match r with
  | Ok _ => Forall (receipted (ts_outbox w') agent) ids
  | Err (PersistAck id _) => id ∈ ids ∧ Forall (ackable (ts_outbox w) agent) ids
  | Err (LockOutbox _ | ReadOutbox _) => ts_outbox w' = ts_outbox w
  | Err e => ts_outbox w' = ts_outbox w ∧
      ∃ id, id ∈ ids ∧ check_ack_one (stored (ts_outbox w)) agent id = Err e
  end.
Proof.
  intros H Hw. unfold ack_inbox, lock_outbox_file in H.
  assert (Hlk : ∀ r0 w0, m_map_err LockOutbox (io_step LockFailed) w = (r0, w0) →
    ts_outbox w0 = ts_outbox w ∧ store_inv hex_encode w0).
  { intros r0 w0 H0. split.
    - eapply (preserves_m_map_err (same_dir outbox_dir)); [apply preserves_io_step; apply _|exact H0].
    - eapply (preserves_m_map_err (moves hex_encode)); [apply preserves_io_step; apply _|exact H0|done]. }
  apply bind_cases in H as [([] & w1 & H1 & H2)|(e & H1 & ->)];
    destruct (Hlk _ _ H1) as [Ho1 Hw1].
  2: { by apply m_map_err_err in H1 as (e0 & _ & ->). }
  apply bind_cases in H2 as [(es & w2 & H2 & H3)|(e & H2 & ->)].
  2: { apply m_map_err_err in H2 as (e0 & H2 & ->). apply outbox_list_inv in H2 as [-> _]. done. }
  apply m_map_err_ok in H2.
  assert (store_inv hex_encode w2) as Hw2 by (by eapply (preserves_list (moves hex_encode) outbox_dir)).
  apply outbox_list_inv in H2 as [Ho2 Hes]. rewrite (Hes _ eq_refl), <-Ho1, <-Ho2 in *.
  apply bind_cases in H3 as [([] & w4 & [= Hc <-] & H4)|(e & [= Hc <-] & ->)].
  - apply check_ack_ackable in Hc; [|apply Hw2].
    destruct (deliver_loop_inv _ _ _ _ _ _ H4 Hw2 Hc) as [[-> Hrec]|(i & e & -> & Hi)].
    + rewrite Forall_forall in *. intros x Hx. apply Hrec. by apply elem_of_dedup.
    + split; [by apply elem_of_dedup|].
      rewrite Forall_forall in *. intros x Hx. apply Hc. by apply elem_of_dedup.
  - apply check_ack_err in Hc as (id & Hid & Hc). rewrite elem_of_dedup in Hid.
    assert (H := check_ack_one_err _ _ _ _ (proj1 Hw2) Hc). destruct e; try done; (split; [done|exists id; done]).
Qed.
End ack.
