(* ===== verification/Publish.v ===== *)
(** * Publication: what a successful publish leaves in the team store

    publish_new_policy, deprecate_policy and claim_update_suggestion all end
    in [create_outbox_entries]; the lemmas say which files a successful call
    created and that it changed no existing one. *)

From S2P Require Import Prelude Storage Claim Maintainer Ledger Delivery DeliveryRuns.
Import Ids.

Section publish.
Context (hex_encode : list Z → string) (self : Maintainer).

Lemma draw_outbox prefix : preserves (same_dir outbox_dir) (draw_id hex_encode prefix).
Proof. by intros w r w' [= _ <-]. Qed.

Lemma draw_policies prefix : preserves (same_dir policies_dir) (draw_id hex_encode prefix).
Proof. by intros w r w' [= _ <-]. Qed.

#[local] Hint Resolve draw_outbox draw_policies same_dir_preorder same_dir_faults : acn.

Lemma mint_ok {A} (d : Dir TeamStore A) `{!DirLaws d} prefix w id w' :
  preserves (same_dir d) (draw_id hex_encode prefix) →
  mint_unique_id_in_dir (E:=MaintainerError) d (draw_id hex_encode prefix)
    (id_mint_max_attempts self) w = (Ok id, w') →
  dir_get d w !! id = None ∧ dir_get d w' = <[id := Reserved]> (dir_get d w).
Proof.
  intros Hd H. eapply (mint_inv d _ _ (λ _, True) (λ _, True)) in H as [_ H]; [| |done..].
  2: { intros v r v' _ Hv. split; [by eapply Hd|done]. }
  destruct H as [(? & [= <-] & _ & ? & ?)|[[? ?] _]]; done.
Qed.

(** A loop that appends one entry per target and touches nothing else. *)
Record entries_created (kind : InboxMessageKind) (action_id : MaintainerActionId) (now : DateTime)
    (items : list SweepNotificationItem) (targets : list OutboxTarget) (m m' : Outbox) : Prop := {
  created_kept k : is_Some (m !! k) → m' !! k = m !! k;
  created_all : Forall (λ t, ∃ k, m !! k = None ∧
    m' !! k = Some (Stored (new_entry k action_id t now items kind))) targets;
  created_only k e : m !! k = None → m' !! k = Some (Stored e) →
    ∃ t, t ∈ targets ∧ e = new_entry k action_id t now items kind;
}.

Lemma create_entries_policies kind action_id now items targets n :
  preserves (same_dir policies_dir) (create_entries_loop hex_encode self kind action_id now items targets n).
Proof.
  revert n. induction targets as [|t targets IH]; intros n; simpl;
    unfold mint_inbox_id_for_outbox, outbox_write; solve_preserves.
Qed.

Lemma create_entries_ok kind action_id now items targets : ∀ n w r w',
  create_entries_loop hex_encode self kind action_id now items targets n w = (Ok r, w') →
  r = n + length targets ∧
  entries_created kind action_id now items targets (ts_outbox w) (ts_outbox w').
Proof.
  induction targets as [|t targets IH]; intros n w r w' H; simpl in H.
  { injection H as <- <-. split; [simpl; lia|]. split; [done|constructor|].
    intros k e ?. congruence. }
  mbind_inv H. apply (mint_ok outbox_dir) in H0 as [Hn Hm]; [|apply draw_outbox].
  simpl in Hn, Hm. mbind_inv H. destruct a0.
  apply (write_yaml_ok outbox_dir) in H0. simpl in H0. rewrite Hm, insert_insert_eq in H0.
  apply IH in H as [-> [Hk Ha Ho]]. rewrite H0 in Hk, Ha, Ho. split; [simpl; lia|]. split.
  - intros k Hs. assert (k ≠ a) by (intros ->; rewrite Hn in Hs; by destruct Hs).
    rewrite Hk; rewrite lookup_insert_ne by done; done.
  - constructor.
    + exists a. split; [done|]. rewrite Hk; rewrite lookup_insert_eq; [done|by eexists].
    + eapply Forall_impl; [exact Ha|]. intros t' (k & Hk0 & Hk1). exists k. split; [|done].
      apply lookup_insert_None in Hk0. tauto.
  - intros k e Hk0 Hk1. destruct (decide (k = a)) as [->|Hne].
    + rewrite Hk in Hk1; rewrite lookup_insert_eq in *; [|by eexists].
      exists t. split; [by left|congruence].
    + destruct (Ho k e) as (t' & Ht & ->); [by rewrite lookup_insert_ne|done|].
      exists t'. split; [by right|done].
Qed.

Lemma mint_action_same R `{!PreOrder R, !FaultClosed R} :
  (∀ prefix, preserves R (draw_id hex_encode prefix)) →
  preserves R (mint_action_id_for_outbox hex_encode self).
Proof.
  intros Hd. unfold mint_action_id_for_outbox, outbox_list. case_bool_decide as Hn; clear Hn;
    [auto with acn typeclass_instances|].
  apply preserves_bind; [apply _|apply preserves_list; apply _|]. intros es.
  generalize (@None string). induction (id_mint_max_attempts self) as [|n IH]; intros last; simpl;
    [auto with acn typeclass_instances|].
  apply preserves_bind; [apply _|apply Hd|]. intros c.
  case_bool_decide; [apply IH|auto with acn typeclass_instances].
Qed.

(** An action id is new: no entry of the outbox carries it. *)
Lemma mint_action_fresh w id w' :
  mint_action_id_for_outbox hex_encode self w = (Ok id, w') →
  same_delivery w w' ∧ ∀ k e, ts_outbox w !! k = Some (Stored e) → ob_action_id e ≠ id.
Proof.
  intros H. split.
  { eapply mint_action_same; [apply _..| |exact H]. by intros p w0 r w1 [= _ <-]. }
  revert H. unfold mint_action_id_for_outbox. case_bool_decide as Hn; clear Hn; [done|].
  intros H. mbind_inv H. apply outbox_list_inv in H0 as [_ Hes]. rewrite (Hes _ eq_refl) in H.
  assert (id ∉ ob_action_id <$> stored (ts_outbox w)) as Hid.
  { revert H. generalize (@None string). revert w0.
    induction (id_mint_max_attempts self) as [|n IH]; intros w0 last H; simpl in H; [done|].
    mbind_inv H. case_bool_decide as Hc; [by eapply IH|]. by injection H as <- _. }
  intros k e He Heq. apply Hid. rewrite <-Heq. apply list_elem_of_fmap_2, elem_of_stored. eauto.
Qed.

(** The policy file and the entries that one publication leaves behind. *)
Record published (p : Policy) (items : list SweepNotificationItem) (now : DateTime)
    (w w' : TeamStore) : Prop := {
  pub_policies : ts_policies w' = <[policy_id p := Stored p]> (ts_policies w);
  pub_entries : ∃ action_id,
    (∀ k e, ts_outbox w !! k = Some (Stored e) → ob_action_id e ≠ action_id) ∧
    entries_created (policy_inbox_kind_for_policy p) action_id now items (outbox_targets p)
      (ts_outbox w) (ts_outbox w');
}.

Lemma emit_ok p items action_id now w n w' :
  (_ ← write_policy p; create_outbox_entries hex_encode self p action_id now items) w = (Ok n, w') →
  n = length (outbox_targets p) ∧
  ts_policies w' = <[policy_id p := Stored p]> (ts_policies w) ∧
  entries_created (policy_inbox_kind_for_policy p) action_id now items (outbox_targets p)
    (ts_outbox w) (ts_outbox w').
Proof.
  intros H. mbind_inv H. destruct a. unfold create_outbox_entries in H.
  assert (ts_outbox w0 = ts_outbox w) as <-
    by (eapply (preserves_write (same_dir outbox_dir) policies_dir); exact H0).
  apply (write_yaml_ok policies_dir) in H0. simpl in H0. rewrite <-H0.
  assert (ts_policies w' = ts_policies w0) as -> by by eapply create_entries_policies.
  by apply create_entries_ok in H as [-> H].
Qed.

(** The common body of publish_new_policy and claim_update_suggestion. *)
Definition mint_and_emit (mk : PolicyId → Policy) (now : DateTime)
    (items : list SweepNotificationItem) : MM (PolicyId * nat) :=
  action_id ← mint_action_id_for_outbox hex_encode self;
  id ← mint_policy_id hex_encode self;
  _ ← write_policy (mk id);
  pushed ← create_outbox_entries hex_encode self (mk id) action_id now items;
  mret (id, pushed).

Lemma mint_and_emit_ok mk now items w id n w' :
  (∀ id, policy_id (mk id) = id) →
  mint_and_emit mk now items w = (Ok (id, n), w') →
  ts_policies w !! id = None ∧ n = length (outbox_targets (mk id)) ∧ published (mk id) items now w w'.
Proof.
  intros Hmk. unfold mint_and_emit. intros H. mbind_inv H. rename a into act.
  apply mint_action_fresh in H0 as [Hs0 Hfresh]. mbind_inv H.
  assert (ts_outbox w1 = ts_outbox w0) as Ho1.
  { eapply (preserves_mint (same_dir outbox_dir) policies_dir); [apply draw_outbox|exact H0]. }
  apply (mint_ok policies_dir) in H0 as [Hn Hm]; [|apply draw_policies]. simpl in Hn, Hm.
  destruct Hs0 as [Hp0 Ho0]. rewrite Hp0 in Hn, Hm. rewrite Ho0 in Ho1.
  assert (H' : ∃ wn, (_ ← write_policy (mk a);
      create_outbox_entries hex_encode self (mk a) act now items) w1 = (Ok wn, w') ∧ (id, n) = (a, wn)).
  { mbind_inv H. mbind_inv H. injection H as <- <- <-. exists a1.
    by rewrite (bind_step _ _ _ _ _ H0). }
  destruct H' as (wn & H' & [= -> ->]). apply emit_ok in H' as (-> & Hp & He).
  split_and!; [done|done|]. split; [|exists act; split; [done|by rewrite <-Ho1]].
  rewrite Hp, Hm, Hmk. apply insert_insert_eq.
Qed.

Definition suggested_policy (statement : string) (now : DateTime)
    (targets : option (list AgentId)) (id : PolicyId) : Policy :=
  {| policy_id := id; policy_message_type := ClaimAttributeUpdateType;
     policy_name := CLAIM_ATTRIBUTE_POLICY_NAME; policy_statement := statement;
     policy_scope := CLAIM_ATTRIBUTE_POLICY_SCOPE; policy_status := PolicyActive;
     policy_created_at := now; policy_updated_at := None;
     policy_target_agents := normalize_target_agents targets |}.

Definition new_policy (name statement scope : string) (now : DateTime)
    (targets : option (list AgentId)) (id : PolicyId) : Policy :=
  {| policy_id := id; policy_message_type := PolicyUpdateType;
     policy_name := name; policy_statement := statement; policy_scope := scope;
     policy_status := PolicyActive; policy_created_at := now; policy_updated_at := None;
     policy_target_agents := normalize_target_agents targets |}.

Lemma suggestion_locked_ok statement now targets items w id n w' :
  claim_update_suggestion_locked hex_encode self statement now targets items w = (Ok (id, n), w') →
  let p := suggested_policy statement now targets id in
  ts_policies w !! id = None ∧ n = length (outbox_targets p) ∧ published p items now w w'.
Proof. by apply (mint_and_emit_ok (suggested_policy statement now targets)). Qed.

Lemma lock_same_delivery w r w' :
  lock_outbox_file w = (r, w') → same_delivery w w'.
Proof. apply (preserves_io_step same_delivery). Qed.

Lemma published_same p items now w0 w w' :
  same_delivery w0 w → published p items now w w' → published p items now w0 w'.
Proof. intros [H1 H2] [Hp He]. split; by rewrite <-?H1, <-?H2. Qed.

Lemma publish_ok name statement scope now targets w id n w' :
  publish_new_policy hex_encode self name statement scope now targets w = (Ok (id, n), w') →
  let p := new_policy name statement scope now targets id in
  ts_policies w !! id = None ∧ n = length (outbox_targets p) ∧ published p [] now w w'.
Proof.
  unfold publish_new_policy. intros H. mbind_inv H. apply lock_same_delivery in H0 as Hs.
  apply (mint_and_emit_ok (new_policy name statement scope now targets)) in H as (Hn & -> & Hpub); [|done].
  split_and!; [by rewrite <-(proj1 Hs)|done|by eapply published_same].
Qed.

Lemma deprecate_ok id now w n w' :
  deprecate_policy hex_encode self id now w = (Ok n, w') →
  ∃ p0, ts_policies w !! id = Some (Stored p0) ∧
    let p := set_policy_deprecated now p0 in
    n = length (outbox_targets p) ∧
    ts_policies w' = <[id := Stored p]> (ts_policies w) ∧
    ∃ action_id,
      (∀ k e, ts_outbox w !! k = Some (Stored e) → ob_action_id e ≠ action_id) ∧
      entries_created (policy_inbox_kind_for_policy p) action_id now [] (outbox_targets p)
        (ts_outbox w) (ts_outbox w').
Proof.
  unfold deprecate_policy. intros H. mbind_inv H. apply lock_same_delivery in H0 as [Hp0 Ho0].
  mbind_inv H. rename a0 into p0. exists p0.
  assert (same_delivery w0 w1) as [Hp1 Ho1]
    by by eapply (preserves_read same_delivery policies_dir).
  apply (read_yaml_ok policies_dir) in H0 as [He _]. simpl in He. rewrite Hp0 in He. split; [done|].
  mbind_inv H. apply mint_action_fresh in H0 as [[Hp2 Ho2] Hfresh]. mbind_inv H.
  assert (ts_outbox w3 = ts_outbox w2) as Ho3
    by (eapply (preserves_write (same_dir outbox_dir) policies_dir); exact H0).
  destruct a1. apply (write_yaml_ok policies_dir) in H0. simpl in H0.
  unfold create_outbox_entries in H.
  assert (ts_policies w' = ts_policies w3) as -> by by eapply create_entries_policies.
  apply create_entries_ok in H as [-> H].
  rewrite Ho3, Ho2, Ho1, Ho0 in H. rewrite Ho1, Ho0 in Hfresh. rewrite Hp2, Hp1, Hp0 in H0.
  split_and!; [done|done|]. eauto.
Qed.
End publish.
