(* ===== verification/Sweep.v ===== *)
(** * Claim sweep and ledger views (src/src/maintainer/sweep.rs, maintainer.rs)

    The sweep reads every mirrored claim, suggests a status for the ones that
    aged out, and notifies each holder once per (claim, update time, status).
    The views are the pure projections of the outbox behind the dashboard:
    the action rows, the open/closed filter and the send log. *)

From S2P Require Import Prelude Storage Claim Maintainer Ledger Delivery DeliveryRuns Publish.
Import Ids.

(** ** sweep.rs *)

Record SweepNotification := {
  sn_agent_id : AgentId;
  sn_stale_claims : list ClaimId;
  sn_deprecated_claims : list ClaimId;
  sn_policy_id : PolicyId;
  sn_pushed : nat;
}.

(** The source keeps the rendered text of the error. *)
Record SweepNotificationError := {
  sne_agent_id : AgentId;
  sne_stale_claims : list ClaimId;
  sne_deprecated_claims : list ClaimId;
  sne_error : MaintainerError;
}.

Record ClaimSweepReport := {
  csr_stale_claims : list (AgentId * ClaimId);
  csr_deprecated_claims : list (AgentId * ClaimId);
  csr_notifications : list SweepNotification;
  csr_notification_errors : list SweepNotificationError;
}.

Definition push_notification n (r : ClaimSweepReport) : ClaimSweepReport :=
  {| csr_stale_claims := csr_stale_claims r; csr_deprecated_claims := csr_deprecated_claims r;
     csr_notifications := csr_notifications r ++ [n];
     csr_notification_errors := csr_notification_errors r |}.
Definition push_notification_error n (r : ClaimSweepReport) : ClaimSweepReport :=
  {| csr_stale_claims := csr_stale_claims r; csr_deprecated_claims := csr_deprecated_claims r;
     csr_notifications := csr_notifications r;
     csr_notification_errors := csr_notification_errors r ++ [n] |}.

Definition newline : string := String (Ascii.ascii_of_nat 10) EmptyString.

Definition suggested_claim_ids (items : list SweepNotificationItem) (status : ClaimStatus) :
    list ClaimId :=
  sni_claim_id <$> filter (λ i, sni_suggested_status i = status) items.

Fixpoint join (sep : string) (l : list string) : string :=
  match l with
  | [] => EmptyString
  | [x] => x
  | x :: l' => x +:+ sep +:+ join sep l'
  end.

Definition format_claim_id_list (ids : list ClaimId) : string :=
  match ids with
  | [] => "[]"
  | _ => "[" +:+ join ", " ((λ id, "'" +:+ id +:+ "'") <$> ids) +:+ "]"
  end.

Definition claim_sweep_notification_statement (agent : AgentId)
    (stale_claims deprecated_claims : list ClaimId) : string :=
  "来自 ACN 团队 Maintainer 的通知：" +:+ newline +:+ "agent：" +:+ agent +:+ newline +:+ newline
  +:+ "根据 maintainer 的定期 claim sweep 机制，您有如下 local claims 建议调整 status 字段。"
  +:+ newline +:+ newline +:+ "建议调整 status 为 stale 的 claim："
  +:+ format_claim_id_list stale_claims +:+ newline
  +:+ "建议调整 status 为 deprecated 的 claim："
  +:+ format_claim_id_list deprecated_claims +:+ newline +:+ newline
  +:+ "注：本次调整为团队建议，具体处理办法请结合本 agent 的自身情况决定。".

Section sweep.
Context (hex_encode : list Z → string) (self : Maintainer).

(** The status a mirrored claim should move to, if it aged out. *)
Definition suggestion (now : DateTime) (c : Claim) : option ClaimStatus :=
  let age := (now - effective_updated_at c)%Z in
  match claim_status c with
  | ClaimActive => if (stale_after self <=? age)%Z then Some ClaimStale else None
  | ClaimStale => if (deprecate_after self <=? age)%Z then Some ClaimDeprecated else None
  | ClaimDeprecated => None
  end.

Definition sweep_item (now : DateTime) (ac : AgentId * Claim) :
    option (AgentId * SweepNotificationItem) :=
  s ← suggestion now ac.2;
  Some (ac.1, {| sni_claim_id := claim_id ac.2;
    sni_effective_updated_at := effective_updated_at ac.2; sni_suggested_status := s |}).

Definition candidates (now : DateTime) (status : ClaimStatus) (claims : list (AgentId * Claim)) :
    list (AgentId * ClaimId) :=
  (λ ac, (ac.1, claim_id ac.2)) <$> filter (λ ac, suggestion now ac.2 = Some status) claims.

Definition sweep_groups (now : DateTime) (claims : list (AgentId * Claim)) :
    list (AgentId * list SweepNotificationItem) :=
  bt_group fst snd (omap (sweep_item now) claims).

(** Suggestions already in the ledger, by addressee. *)
Definition scheduled (entries : list OutboxEntry) : list (AgentId * SweepNotificationItem) :=
  entries ≫= λ e, match ob_target e with
                  | Targeted target_agent => pair target_agent <$> ob_sweep_items e
                  | Broadcast => []
                  end.

Definition unscheduled (sched : list (AgentId * SweepNotificationItem)) (agent : AgentId)
    (items : list SweepNotificationItem) : list SweepNotificationItem :=
  sort_by (cmp_on sni_claim_id String.compare) (filter (λ i, (agent, i) ∉ sched) items).

Fixpoint notify_loop (sched : list (AgentId * SweepNotificationItem)) (now : DateTime)
    (groups : list (AgentId * list SweepNotificationItem)) (report : ClaimSweepReport) :
    MM ClaimSweepReport :=
  match groups with
  | [] => mret report
  | (agent_id, items0) :: groups' =>
      match unscheduled sched agent_id items0 with
      | [] => notify_loop sched now groups' report
      | items =>
          let stale_claims := suggested_claim_ids items ClaimStale in
          let deprecated_claims := suggested_claim_ids items ClaimDeprecated in
          let statement := claim_sweep_notification_statement agent_id stale_claims deprecated_claims in
          sent ← m_try (claim_update_suggestion_locked hex_encode self statement now
            (Some [agent_id]) items);
          notify_loop sched now groups'
            match sent with
            | Ok (policy_id, pushed) =>
                push_notification {| sn_agent_id := agent_id; sn_stale_claims := stale_claims;
                  sn_deprecated_claims := deprecated_claims; sn_policy_id := policy_id;
                  sn_pushed := pushed |} report
            | Err err =>
                push_notification_error {| sne_agent_id := agent_id; sne_stale_claims := stale_claims;
                  sne_deprecated_claims := deprecated_claims; sne_error := err |} report
            end
      end
  end.

Definition send_sweep_notifications (groups : list (AgentId * list SweepNotificationItem))
    (report : ClaimSweepReport) (now : DateTime) : MM ClaimSweepReport :=
  _ ← lock_outbox_file;
  entries ← outbox_list;
  notify_loop (scheduled entries) now groups report.

Definition run_stale_sweep (now : DateTime) : MM ClaimSweepReport :=
  claims ← list_all_claims;
  let report := {| csr_stale_claims := candidates now ClaimStale claims;
    csr_deprecated_claims := candidates now ClaimDeprecated claims;
    csr_notifications := []; csr_notification_errors := [] |} in
  let groups := sweep_groups now claims in
  if bool_decide (groups = []) then mret report
  else send_sweep_notifications groups report now.
End sweep.

(** ** Views of the outbox *)

Inductive TargetKind := KindBroadcast | KindTargeted | KindMixed | KindUnknown.

Record MaintainerActionRow := {
  mar_created_at : DateTime;
  mar_action_id : MaintainerActionId;
  mar_message_type : PolicyMessageType;
  mar_policy_id : PolicyId;
  mar_policy_name : string;
  mar_policy_scope : string;
  mar_policy_status : PolicyStatus;
  mar_target_kind : TargetKind;
  mar_inbox_ids : list InboxId;
  mar_target_agents : list AgentId;
  mar_delivered_agents : list AgentId;
  mar_outbox_entries : nat;
  mar_send_events : nat;
}.

Record SendLogRow := {
  slr_sent_at : DateTime;
  slr_agent_id : AgentId;
  slr_inbox_id : InboxId;
  slr_action_id : MaintainerActionId;
  slr_policy_id : PolicyId;
  slr_message_type : PolicyMessageType;
}.

(** [Vec::dedup]: consecutive duplicates are removed. *)
Fixpoint dedup_consecutive (l : list string) : list string :=
  match l with
  | x :: (y :: _) as l' => if bool_decide (x = y) then dedup_consecutive l' else x :: dedup_consecutive l'
  | _ => l
  end.

Definition sort_dedup (l : list string) : list string :=
  dedup_consecutive (sort_by String.compare l).

Definition target_agents_of (entries : list OutboxEntry) : list AgentId :=
  omap (λ e, match ob_target e with Targeted a => Some a | Broadcast => None end) entries.

Definition is_broadcast (e : OutboxEntry) : bool :=
  match ob_target e with Broadcast => true | Targeted _ => false end.

Definition target_kind_of (entries : list OutboxEntry) : TargetKind :=
  match existsb is_broadcast entries, existsb (λ e, negb (is_broadcast e)) entries with
  | true, false => KindBroadcast
  | false, true => KindTargeted
  | true, true => KindMixed
  | false, false => KindUnknown
  end.

Definition action_row (group : MaintainerActionId * list OutboxEntry) : option MaintainerActionRow :=
  let '(action_id, es) := group in
  let entries := sort_by (cmp_then (cmp_on ob_created_at Z.compare)
                                   (cmp_on ob_inbox_id String.compare)) es in
  first ← head entries;
  let first_policy := msg_policy (ob_message first) in
  Some {| mar_created_at := ob_created_at first;
    mar_action_id := action_id;
    mar_message_type := msg_message_type (ob_message first);
    mar_policy_id := policy_id first_policy;
    mar_policy_name := policy_name first_policy;
    mar_policy_scope := policy_scope first_policy;
    mar_policy_status := policy_status first_policy;
    mar_target_kind := target_kind_of entries;
    mar_inbox_ids := sort_dedup (ob_inbox_id <$> entries);
    mar_target_agents := sort_dedup (target_agents_of entries);
    mar_delivered_agents := sort_dedup (entries ≫= λ e, delivered_agent <$> ob_delivered_to e);
    mar_outbox_entries := length entries;
    mar_send_events := sum_list ((λ e, length (ob_delivered_to e)) <$> entries) |}.

Definition build_action_rows_from_entries (entries : list OutboxEntry) : list MaintainerActionRow :=
  sort_by (cmp_then (cmp_rev (cmp_on mar_created_at Z.compare)) (cmp_on mar_action_id String.compare))
    (omap action_row (bt_group ob_action_id id entries)).

(** [active_broadcast_deliveries_by_policy], read at one policy; [None] when
    no active broadcast of the policy was ever recorded. *)
Definition active_broadcast_deliveries (entries : list OutboxEntry) (p : PolicyId) : option (list AgentId) :=
  let es := filter (λ e, is_broadcast e = true ∧ policy_status (msg_policy (ob_message e)) = PolicyActive
                         ∧ msg_policy_id (ob_message e) = p) entries in
  match es with
  | [] => None
  | _ => Some (es ≫= λ e, (offered_agent <$> ob_offered_to e) ++ (delivered_agent <$> ob_delivered_to e))
  end.

Definition outbox_entry_is_open (e : OutboxEntry) (active_policies : list PolicyId)
    (deliveries : PolicyId → option (list AgentId)) : bool :=
  match ob_target e with
  | Targeted target_agent => negb (was_delivered target_agent e)
  | Broadcast =>
      let policy := msg_policy (ob_message e) in
      match policy_status policy with
      | PolicyActive => bool_decide (policy_id policy ∈ active_policies)
      | PolicyDeprecated =>
          match deliveries (policy_id policy) with
          | None => false
          | Some eligible => existsb (λ agent, negb (was_delivered agent e)) eligible
          end
      end
  end.

Definition newest_first : OutboxEntry → OutboxEntry → comparison :=
  cmp_then (cmp_rev (cmp_on ob_created_at Z.compare)) (cmp_rev (cmp_on ob_inbox_id String.compare)).

Definition matches_open (open : option bool) (is_open : bool) : bool :=
  match open with None => true | Some expected => eqb is_open expected end.

Definition list_outbox_entries (limit : option nat) (open : option bool) : MM (list OutboxEntry) :=
  active_policies ← active_policy_id_set;
  entries ← outbox_list;
  let deliveries := active_broadcast_deliveries entries in
  let kept := filter (λ e, matches_open open (outbox_entry_is_open e active_policies deliveries)) entries in
  let sorted := sort_by newest_first kept in
  mret match limit with Some n => take n sorted | None => sorted end.

Definition send_log_rows (e : OutboxEntry) : list SendLogRow :=
  (λ d, {| slr_sent_at := sent_at d; slr_agent_id := delivered_agent d;
           slr_inbox_id := ob_inbox_id e; slr_action_id := ob_action_id e;
           slr_policy_id := msg_policy_id (ob_message e);
           slr_message_type := msg_message_type (ob_message e) |}) <$> ob_delivered_to e.

Definition build_send_log_from_entries (entries : list OutboxEntry) : list SendLogRow :=
  sort_by (cmp_then (cmp_on slr_sent_at Z.compare) (cmp_on slr_agent_id String.compare))
    (entries ≫= send_log_rows).

Definition list_actions : MM (list MaintainerActionRow) :=
  entries ← outbox_list; mret (build_action_rows_from_entries entries).

Definition list_send_log : MM (list SendLogRow) :=
  entries ← outbox_list; mret (build_send_log_from_entries entries).

(** ** Grouping *)

Lemma sweep_item_spec self now ac agent i :
  sweep_item self now ac = Some (agent, i) ↔
  agent = ac.1 ∧ sni_claim_id i = claim_id ac.2 ∧
  sni_effective_updated_at i = effective_updated_at ac.2 ∧
  suggestion self now ac.2 = Some (sni_suggested_status i).
Proof.
  unfold sweep_item. destruct (suggestion self now ac.2) as [s|]; simpl; [|naive_solver].
  destruct i; simpl. naive_solver.
Qed.

Lemma sweep_groups_spec self now claims :
  bt_sorted (sweep_groups self now claims) ∧
  bt_pairs (sweep_groups self now claims) ≡ₚ omap (sweep_item self now) claims.
Proof.
  destruct (bt_group_spec fst snd (omap (sweep_item self now) claims)) as [Hp Hs].
  split; [done|]. unfold sweep_groups. rewrite Hp.
  rewrite <-(list_fmap_id (omap (sweep_item self now) claims)) at 2.
  apply Permutation_refl', list_fmap_ext. by intros i [x y].
Qed.

Lemma elem_of_unscheduled sched agent items i :
  i ∈ unscheduled sched agent items ↔ i ∈ items ∧ (agent, i) ∉ sched.
Proof. unfold unscheduled. rewrite elem_of_sort_by, list_elem_of_filter. tauto. Qed.

Lemma elem_of_scheduled entries agent i :
  (agent, i) ∈ scheduled entries ↔
  ∃ e, e ∈ entries ∧ ob_target e = Targeted agent ∧ i ∈ ob_sweep_items e.
Proof.
  unfold scheduled. rewrite list_elem_of_bind. split.
  - intros (e & Hin & He). destruct (ob_target e) eqn:Et; [set_solver|].
    apply list_elem_of_fmap in Hin as (j & [= -> ->] & Hj). eauto.
  - intros (e & He & Ht & Hi). exists e. rewrite Ht. split; [|done].
    apply list_elem_of_fmap. eauto.
Qed.

(** ** The sweep only takes ledger steps *)

Section moves.
Context (hex_encode : list Z → string) (self : Maintainer).

Lemma notify_loop_moves sched now groups : ∀ report,
  preserves (moves hex_encode) (notify_loop hex_encode self sched now groups report).
Proof.
  induction groups as [|[a items] groups IH]; intros report; simpl;
    [auto with acn typeclass_instances|].
  destruct (unscheduled sched a items) as [|i l]; [apply IH|].
  apply preserves_bind; [apply _|apply preserves_m_try, suggestion_locked_moves|intros; apply IH].
Qed.

Lemma sweep_moves now : preserves (moves hex_encode) (run_stale_sweep hex_encode self now).
Proof.
  unfold run_stale_sweep, list_all_claims, list_agent_ids, send_sweep_notifications,
    lock_outbox_file, outbox_list.
  pose proof notify_loop_moves. solve_preserves.
Qed.
End moves.

(** ** What a sweep sends *)

Definition all_claims (w : TeamStore) : list (AgentId * Claim) := agent_ids w ≫= agent_claims w.

Lemma list_all_claims_ok w cs w' :
  list_all_claims w = (Ok cs, w') → cs = all_claims w ∧ same_delivery w w'.
Proof.
  unfold list_all_claims, list_agent_ids. intros H.
  assert (Hio : ∀ r0 w0 w1, io (E:=MaintainerError) w0 = (r0, w1) →
    same_delivery w0 w1 ∧ ts_agents w1 = ts_agents w0).
  { by intros r0 w0 w1 [_ [->| ->]]%io_inv. }
  mbind_inv H. mbind_inv H0. apply Hio in H1 as [Hs1 Ha1]. injection H0 as <- <-.
  mbind_inv H. apply Hio in H0 as [Hs2 Ha2]. injection H as <- <-.
  split; [|by etrans]. unfold all_claims, agent_ids, agent_claims. by rewrite Ha2, Ha1.
Qed.

Lemma scheduled_mono m m' x : ledger_le m m' → x ∈ scheduled (stored m) → x ∈ scheduled (stored m').
Proof.
  destruct x as [a i]. intros Hle (e & [k He]%elem_of_stored & Ht & Hi)%elem_of_scheduled.
  destruct (Hle _ _ He) as (e' & He' & [Hc _ _]). injection Hc as _ _ Htg _ Hit _.
  apply elem_of_scheduled. exists e'. split; [apply elem_of_stored; eauto|].
  by rewrite Htg, Hit.
Qed.

Section sweep_props.
Context (hex_encode : list Z → string) (self : Maintainer).

(** One successful suggestion puts its items on the ledger of its addressee. *)
Lemma suggestion_scheduled statement now agent items w id n w' i :
  claim_update_suggestion_locked hex_encode self statement now (Some [agent]) items w
    = (Ok (id, n), w') →
  i ∈ items → (agent, i) ∈ scheduled (stored (ts_outbox w')).
Proof.
  intros (_ & _ & [_ (act & _ & [_ Hall _])])%suggestion_locked_ok Hi.
  apply Forall_cons in Hall as [(k & _ & Hk) _].
  apply elem_of_scheduled. eexists. split; [apply elem_of_stored; eauto|]. done.
Qed.

Lemma notify_loop_ok sched now groups : ∀ report w r w',
  notify_loop hex_encode self sched now groups report w = (Ok r, w') →
  store_inv hex_encode w → csr_notification_errors r = [] →
  csr_notification_errors report = [] ∧
  csr_stale_claims r = csr_stale_claims report ∧
  csr_deprecated_claims r = csr_deprecated_claims report ∧
  ∀ a i, (a, i) ∈ bt_pairs groups → (a, i) ∈ sched ∨ (a, i) ∈ scheduled (stored (ts_outbox w')).
Proof.
  induction groups as [|[a items] groups IH]; intros report w r w' H Hw Herr; simpl in H.
  { injection H as <- <-. split_and!; [done..|]. set_solver. }
  assert (Hin : ∀ x i, (x, i) ∈ bt_pairs ((a, items) :: groups) →
    (x = a ∧ i ∈ items) ∨ (x, i) ∈ bt_pairs groups).
  { intros x i. unfold bt_pairs. csimpl. rewrite elem_of_app, list_elem_of_fmap. naive_solver. }
  destruct (unscheduled sched a items) as [|i0 l] eqn:Hun.
  - destruct (IH _ _ _ _ H Hw Herr) as (H1 & H2 & H3 & H4). split_and!; [done..|].
    intros x i [[-> Hi]|Hx]%Hin; [left|by apply H4].
    destruct (decide ((a, i) ∈ sched)); [done|].
    assert (i ∈ unscheduled sched a items) as Hbad by by apply elem_of_unscheduled.
    rewrite Hun in Hbad. set_solver.
  - mbind_inv H. unfold m_try in H0.
    destruct (claim_update_suggestion_locked _ _ _ _ _ _ w) as [rs ws] eqn:Hsend.
    injection H0 as <- <-. destruct (suggestion_locked_moves _ _ _ _ _ _ _ _ _ Hsend Hw) as [_ Hws].
    destruct (IH _ _ _ _ H Hws Herr) as (H1 & H2 & H3 & H4).
    destruct rs as [[id n]|err]; simpl in *; [|by apply app_nil in H1 as [_ ?]].
    split_and!; [done..|]. intros x i [[-> Hi]|Hx]%Hin; [|by apply H4].
    destruct (decide ((a, i) ∈ sched)); [by left|right].
    assert (i ∈ i0 :: l) as Hil by (rewrite <-Hun; by apply elem_of_unscheduled).
    eapply scheduled_mono; [|by eapply suggestion_scheduled].
    apply outbox_run_le. by eapply notify_loop_moves.
Qed.

Lemma notify_loop_nothing sched now groups report w r w' :
  notify_loop hex_encode self sched now groups report w = (r, w') →
  (∀ x, x ∈ bt_pairs groups → x ∈ sched) → r = Ok report ∧ w' = w.
Proof.
  induction groups as [|[a items] groups IH]; intros H Hs; simpl in H.
  { by injection H as <- <-. }
  destruct (unscheduled sched a items) as [|i l] eqn:Hun.
  - apply IH; [done|]. intros x Hx. apply Hs. unfold bt_pairs. csimpl. set_solver.
  - exfalso. assert (i ∈ unscheduled sched a items) as [Hi Hn]%elem_of_unscheduled
      by (rewrite Hun; by left).
    apply Hn, Hs. unfold bt_pairs. csimpl. apply elem_of_app. left. by apply list_elem_of_fmap_2.
Qed.

Lemma pairs_sweep_groups now claims x :
  x ∈ bt_pairs (sweep_groups self now claims) ↔ x ∈ omap (sweep_item self now) claims.
Proof. by destruct (sweep_groups_spec self now claims) as [_ ->]. Qed.

Lemma groups_nil now claims :
  sweep_groups self now claims = [] → omap (sweep_item self now) claims = [].
Proof.
  intros H. destruct (sweep_groups_spec self now claims) as [_ Hp]. rewrite H in Hp. simpl in Hp.
  by apply Permutation_nil.
Qed.

Lemma sweep_ok now w r w' :
  run_stale_sweep hex_encode self now w = (Ok r, w') → store_inv hex_encode w →
  csr_notification_errors r = [] →
  csr_stale_claims r = candidates self now ClaimStale (all_claims w) ∧
  csr_deprecated_claims r = candidates self now ClaimDeprecated (all_claims w) ∧
  ∀ x, x ∈ omap (sweep_item self now) (all_claims w) → x ∈ scheduled (stored (ts_outbox w')).
Proof.
  unfold run_stale_sweep. intros H Hw Herr. mbind_inv H.
  assert (store_inv hex_encode w0) as Hw0.
  { unfold list_all_claims, list_agent_ids in H0.
    eapply (preserves_bind (moves hex_encode)); [| |exact H0|done]; [solve_preserves|solve_preserves]. }
  apply list_all_claims_ok in H0 as [-> Hs]. case_bool_decide as Hg.
  - injection H as <- <-. split_and!; [done..|]. apply groups_nil in Hg. rewrite Hg. set_solver.
  - unfold send_sweep_notifications in H. mbind_inv H. apply lock_same_delivery in H0 as Hs1.
    assert (store_inv hex_encode w1) as Hw1 by by eapply lock_moves.
    mbind_inv H. assert (store_inv hex_encode w2) as Hw2
      by by eapply (preserves_list (moves hex_encode) outbox_dir).
    apply outbox_list_inv in H1 as [Ho Hes]. rewrite (Hes _ eq_refl), <-Ho in H.
    assert (Hle : ledger_le (ts_outbox w2) (ts_outbox w')).
    { apply outbox_run_le. by eapply notify_loop_moves. }
    apply notify_loop_ok in H as (_ & -> & -> & H); [|done..]. split_and!; [done..|].
    intros [ag i] Hx. apply pairs_sweep_groups in Hx. destruct (H ag i Hx) as [Hin|Hin]; [|done].
    by eapply scheduled_mono.
Qed.
End sweep_props.
