(* ===== verification/Guarantees.v ===== *)
(** * What the Maintainer guarantees

    The operations as commands, the stores they reach from an empty team
    directory, and the guarantees on delivery, acknowledgement, publication
    and sweeping that the protocol document of the inbox relies on. *)

From S2P Require Import Prelude Storage Claim Maintainer Ledger Delivery DeliveryRuns Publish Sweep.
Import Ids.

(** ** Commands and reachable stores *)

Inductive command :=
| CPublish (name statement scope : string) (now : DateTime) (targets : option (list AgentId))
| CDeprecate (id : PolicyId) (now : DateTime)
| CSuggest (statement : string) (now : DateTime) (targets : option (list AgentId))
| CUpload (c : Claim)
| CReport (d : Dispute)
| CSweep (now : DateTime)
| CPull (agent : AgentId) (now : DateTime)
| CAck (agent : AgentId) (ids : list InboxId) (now : DateTime).

Section guarantees.
Context (hex_encode : list Z → string) (self : Maintainer).

(** Run a command under a fault schedule, and keep only the store. *)
Definition exec (step : list bool * command) (w : TeamStore) : TeamStore :=
  let w0 := set_ts_faults step.1 w in
  match step.2 with
  | CPublish n st sc now ts => (publish_new_policy hex_encode self n st sc now ts w0).2
  | CDeprecate id now => (deprecate_policy hex_encode self id now w0).2
  | CSuggest st now ts => (claim_update_suggestion hex_encode self st now ts w0).2
  | CUpload c => (upload_claim c w0).2
  | CReport d => (report_dispute d w0).2
  | CSweep now => (run_stale_sweep hex_encode self now w0).2
  | CPull agent now => (pull_inbox agent now w0).2
  | CAck agent ids now => (ack_inbox agent ids now w0).2
  end.

Definition exec_all (steps : list (list bool * command)) (w : TeamStore) : TeamStore :=
  fold_left (λ w s, exec s w) steps w.

Definition empty_store (w : TeamStore) : Prop :=
  ts_outbox w = ∅ ∧ ts_policies w = ∅ ∧ entropy_ok hex_encode w.

Definition reachable (w : TeamStore) : Prop :=
  ∃ w0 steps, empty_store w0 ∧ w = exec_all steps w0.

Lemma exec_moves s w : moves hex_encode w (exec s w).
Proof.
  destruct s as [fs c]. etrans; [apply (moves_faults hex_encode fs w)|].
  unfold exec. simpl.
  destruct c; (match goal with |- moves _ _ (?m ?w0).2 => destruct (m w0) eqn:Hrun end);
    [eapply publish_moves|eapply deprecate_moves|eapply suggestion_moves|eapply upload_moves
    |eapply report_moves|eapply sweep_moves|eapply pull_moves|eapply ack_moves]; exact Hrun.
Qed.

Lemma exec_all_moves steps w : moves hex_encode w (exec_all steps w).
Proof.
  revert w. induction steps as [|s steps IH]; intros w; simpl; [apply moves_preorder|].
  etrans; [apply exec_moves|apply IH].
Qed.

Lemma exec_all_wf steps w : store_inv hex_encode w → store_inv hex_encode (exec_all steps w).
Proof. intros Hw. by apply exec_all_moves. Qed.

Lemma exec_all_le steps w :
  store_inv hex_encode w → ledger_le (ts_outbox w) (ts_outbox (exec_all steps w)).
Proof. intros Hw. apply outbox_run_le. by apply exec_all_moves. Qed.

Lemma empty_store_inv w : empty_store w → store_inv hex_encode w.
Proof.
  intros (Ho & Hp & He). unfold store_inv. rewrite Ho, Hp.
  split_and!; [apply outbox_wf_empty| |done]. intros k. by rewrite lookup_empty.
Qed.

Lemma reachable_inv w : reachable w → store_inv hex_encode w ∧ history_wf (ts_outbox w).
Proof.
  intros (w0 & steps & H0 & ->).
  destruct (exec_all_moves steps w0 (empty_store_inv _ H0)) as [Hrun Hw]. split; [done|].
  eapply outbox_run_history; [exact Hrun|]. destruct H0 as [-> _]. apply history_wf_empty.
Qed.

(** C1. Refinement: under every fault schedule, each operation of the
    Maintainer that returns or fails leaves the outbox at the end of a run
    of the abstract ledger (reserve a fresh valid name, create an entry over
    a placeholder, offer to an addressee, record the receipt of an agent that
    was offered the message), and keeps the store well formed. *)
Theorem exec_refines_ledger steps w (Hw : store_inv hex_encode w) :
  rtc outbox_step (ts_outbox w) (ts_outbox (exec_all steps w)) ∧
  store_inv hex_encode (exec_all steps w).
Proof. by apply exec_all_moves. Qed.

(** Invariant of every reachable store: each file holds the entry it is
    named after; an agent appears at most once among the offers and at most
    once among the receipts of an entry; a receipt implies an offer; only the
    addressee of a targeted entry has either; attempt counters stay within
    [1, u64::MAX]. *)
Theorem reachable_ledger_wf w (Hr : reachable w) :
  outbox_wf (ts_outbox w) ∧ history_wf (ts_outbox w).
Proof. destruct (reachable_inv w Hr) as [[Ho _] Hh]. done. Qed.

Lemma pulled_unless_delivered agent w id e :
  store_inv hex_encode w → ts_outbox w !! id = Some (Stored e) →
  addressed agent e → was_offered agent e = true → was_delivered agent e = false →
  e ∈ pull_choice agent w.
Proof.
  intros (Ho & _) He Ha Hof Hd. apply choose_entries_in.
  assert (e ∈ stored (ts_outbox w)) as Hin by (apply elem_of_stored; eauto).
  split; [done|]. unfold pull_selects, addressed in *. rewrite Hd.
  destruct (ob_target e); [|by apply bool_decide_eq_true].
  rewrite Hof, orb_true_r. destruct (policy_status _); [done|].
  apply bool_decide_eq_true. unfold seen_policy_ids.
  apply list_elem_of_fmap. exists e. split; [done|]. apply list_elem_of_filter.
  by rewrite Hof.
Qed.

(** C2. At-least-once delivery: once a message was offered to an agent, then
    after any further operations with any faults, either the agent has
    acknowledged it or a fault-free pull succeeds and returns it again with
    the same content, even if its policy has been deprecated meanwhile. *)
Theorem redelivered_until_ack w steps agent id e now
    (Hr : reachable w) (He : ts_outbox w !! id = Some (Stored e))
    (Hoff : was_offered agent e = true) :
  let w' := set_ts_faults [] (exec_all steps w) in
  receipted (ts_outbox w') agent id ∨
  ∃ msgs w'', pull_inbox agent now w' = (Ok msgs, w'') ∧ ob_message e ∈ msgs.
Proof.
  destruct (reachable_inv w Hr) as [Hw Hh]. simpl.
  destruct (exec_all_le steps w Hw _ _ He) as (e' & He' & Hle).
  destruct (was_delivered agent e') eqn:Hd; [left; by exists e'|right].
  assert (Hw' := exec_all_wf steps w Hw).
  eexists _, _. split; [by apply (pull_inbox_run hex_encode)|].
  assert (ob_message e = ob_message e') as -> by (destruct Hle as [Hc _ _]; by injection Hc).
  apply list_elem_of_fmap_2. eapply pulled_unless_delivered; [done|exact He'| | |done].
  - apply (entry_le_addressed _ _ _ Hle). by apply (Hh _ _ He).
  - by eapply entry_le_offered.
Qed.

(** C21. At-most-once after ACK: once an agent's receipt of a message is
    recorded, no later pull of that agent, under any faults and after any
    further operations, returns a message with that id. *)
Theorem acked_never_returned w steps agent id now msgs w'
    (Hw : store_inv hex_encode w) (Hack : receipted (ts_outbox w) agent id)
    (Hpull : pull_inbox agent now (exec_all steps w) = (Ok msgs, w')) :
  id ∉ msg_id <$> msgs.
Proof.
  eapply ledger_le_receipted in Hack; [|by apply (exec_all_le steps w Hw)].
  assert (Hw1 := exec_all_wf steps w Hw). revert Hw1 Hack Hpull. generalize (exec_all steps w).
  clear w Hw. intros w Hw Hack Hpull.
  apply pull_inbox_msgs in Hpull as ->. rewrite <-list_fmap_compose. destruct Hw as ((Hk & _) & _).
  destruct Hack as (e & He & Hd).
  intros (e' & Hid & [[k He']%elem_of_stored Hs]%choose_entries_in)%list_elem_of_fmap.
  apply pull_selects_not_delivered in Hs. destruct (Hk _ _ He') as [_ Hm].
  simpl in Hid. assert (k = id) as -> by congruence. congruence.
Qed.

(** C37. Every outcome of an acknowledgement, under any faults: success means
    every listed receipt is recorded; a rejected batch (unknown id, foreign
    target, never offered) leaves the outbox as it was and names an offending
    id; a failed write names a listed id of an entirely acceptable batch. *)
Theorem ack_outcomes agent ids now w r w'
    (Hw : store_inv hex_encode w) (Hrun : ack_inbox agent ids now w = (r, w')) :
  match r with
  | Ok _ => Forall (receipted (ts_outbox w') agent) ids
  | Err (UnknownInbox id) =>
      ts_outbox w' = ts_outbox w ∧ id ∈ ids ∧ ts_outbox w !! id ≫= file_value = None
  | Err (TargetMismatch a id) => ts_outbox w' = ts_outbox w ∧ a = agent ∧ id ∈ ids ∧
      ∃ e, ts_outbox w !! id = Some (Stored e) ∧ ¬ addressed agent e
  | Err (NotOffered a id) => ts_outbox w' = ts_outbox w ∧ a = agent ∧ id ∈ ids ∧
      ∃ e, ts_outbox w !! id = Some (Stored e) ∧
        was_offered agent e = false ∧ was_delivered agent e = false
  | Err (ReadOutbox _ | LockOutbox _) => ts_outbox w' = ts_outbox w
  | Err (PersistAck id _) => id ∈ ids ∧ Forall (ackable (ts_outbox w) agent) ids
  end.
Proof.
  apply (ack_inbox_inv hex_encode) in Hrun; [|done]. destruct r as [?|[]]; try done;
    destruct Hrun as (Hs & i & Hi & Hc);
    apply (check_ack_one_err _ _ _ _ (proj1 Hw)) in Hc; naive_solver.
Qed.

(** Convergence of an interrupted acknowledgement: after a batch failed
    half way on a write, and after any further operations with any faults,
    retrying the same batch without faults succeeds and records every
    receipt. *)
Theorem ack_retry_converges agent ids now id e w w1 steps now'
    (Hw : store_inv hex_encode w)
    (Hrun : ack_inbox agent ids now w = (Err (PersistAck id e), w1)) :
  ∃ w2, ack_inbox agent ids now' (set_ts_faults [] (exec_all steps w1)) = (Ok tt, w2) ∧
    Forall (receipted (ts_outbox w2) agent) ids.
Proof.
  destruct (ack_moves hex_encode _ _ _ _ _ _ Hrun Hw) as [Hr1 Hw1].
  apply (ack_inbox_inv hex_encode) in Hrun as [_ Hack]; [|done].
  assert (Hw2 := exec_all_wf steps w1 Hw1).
  assert (Forall (ackable (ts_outbox (exec_all steps w1)) agent) (dedup ids)) as Hack2.
  { rewrite Forall_forall in *. intros x Hx. rewrite elem_of_dedup in Hx.
    eapply ledger_le_ackable; [exact (exec_all_le steps w1 Hw1)|].
    eapply ledger_le_ackable; [exact (outbox_run_le _ _ Hr1)|]. by apply Hack. }
  rewrite (ack_inbox_run hex_encode) by done. simpl.
  rewrite (proj2 (check_ack_ackable _ _ _ (proj1 Hw2)) Hack2).
  eexists. split; [done|]. simpl. apply (deliver_all_receipted _ now') in Hack2.
  rewrite Forall_forall in *. intros x Hx. apply Hack2. by apply elem_of_dedup.
Qed.

(** Acknowledging is idempotent: after a batch was acknowledged (under
    any faults), and after any further operations, a fault-free repetition of
    it succeeds and changes no outbox file. *)
Theorem ack_idempotent agent ids now w w1 steps now'
    (Hw : store_inv hex_encode w) (Hr : history_wf (ts_outbox w))
    (Hrun : ack_inbox agent ids now w = (Ok tt, w1)) :
  let w2 := set_ts_faults [] (exec_all steps w1) in
  ∃ w3, ack_inbox agent ids now' w2 = (Ok tt, w3) ∧ ts_outbox w3 = ts_outbox w2.
Proof.
  destruct (ack_moves hex_encode _ _ _ _ _ _ Hrun Hw) as [Hr1 Hw1].
  apply (ack_inbox_inv hex_encode) in Hrun as Hrec; [|done]. simpl.
  destruct (exec_all_moves steps w1 Hw1) as [Hr2 Hw2].
  assert (Hh : history_wf (ts_outbox (exec_all steps w1))).
  { eapply outbox_run_history; [exact Hr2|]. by eapply outbox_run_history. }
  assert (Forall (receipted (ts_outbox (exec_all steps w1)) agent) (dedup ids)) as Hrec2.
  { rewrite Forall_forall in *. intros x Hx. rewrite elem_of_dedup in Hx.
    eapply ledger_le_receipted; [exact (outbox_run_le _ _ Hr2)|]. by apply Hrec. }
  assert (Forall (ackable (ts_outbox (exec_all steps w1)) agent) (dedup ids)) as Hack2.
  { eapply Forall_impl; [exact Hrec2|]. intros x (e & He & Hd). exists e.
    split_and!; [done| |by right]. by apply (Hh _ _ He), (Hh _ _ He). }
  rewrite (ack_inbox_run hex_encode) by done. simpl.
  rewrite (proj2 (check_ack_ackable _ _ _ (proj1 Hw2)) Hack2).
  eexists. split; [done|]. simpl. by apply deliver_all_id.
Qed.

(** The documented rule for what an agent is to receive, stated on the store. *)
Definition seen_policy (w : TeamStore) (agent : AgentId) (p : PolicyId) : Prop :=
  ∃ k e, ts_outbox w !! k = Some (Stored e) ∧ msg_policy_id (ob_message e) = p ∧
    (was_offered agent e = true ∨ was_delivered agent e = true).

Definition deliverable (w : TeamStore) (agent : AgentId) (e : OutboxEntry) : Prop :=
  was_delivered agent e = false ∧ addressed agent e ∧
  (ob_target e = Broadcast →
    let p := msg_policy (ob_message e) in
    match policy_status p with
    | PolicyActive => was_offered agent e = true ∨
        ∃ k q, ts_policies w !! k = Some (Stored q) ∧ policy_id q = policy_id p ∧
          policy_status q = PolicyActive
    | PolicyDeprecated => seen_policy w agent (policy_id p)
    end).

Lemma pull_choice_spec agent w e :
  e ∈ pull_choice agent w ↔ (∃ k, ts_outbox w !! k = Some (Stored e)) ∧ deliverable w agent e.
Proof.
  unfold pull_choice. rewrite choose_entries_in, elem_of_stored. apply and_iff_compat_l.
  unfold pull_selects, deliverable, addressed.
  assert (Hseen : ∀ p, p ∈ seen_policy_ids agent (stored (ts_outbox w)) ↔ seen_policy w agent p).
  { intros p. unfold seen_policy_ids, seen_policy. rewrite list_elem_of_fmap.
    setoid_rewrite list_elem_of_filter. setoid_rewrite elem_of_stored.
    setoid_rewrite Is_true_true. setoid_rewrite orb_true_iff. naive_solver. }
  assert (Hact : ∀ p, p ∈ active_ids w ↔ ∃ k q, ts_policies w !! k = Some (Stored q) ∧
    policy_id q = p ∧ policy_status q = PolicyActive).
  { intros p. unfold active_ids. rewrite list_elem_of_fmap.
    setoid_rewrite list_elem_of_filter. setoid_rewrite elem_of_stored. split.
    - intros (q & -> & Hq & k & Hk). by exists k, q.
    - intros (k & q & Hk & <- & Hq). exists q. eauto. }
  destruct (was_delivered agent e); [naive_solver|].
  destruct (ob_target e) as [|t]; [|rewrite bool_decide_eq_true; naive_solver].
  destruct (policy_status (msg_policy (ob_message e))).
  - rewrite orb_true_iff, bool_decide_eq_true, Hact. naive_solver.
  - rewrite bool_decide_eq_true, Hseen. naive_solver.
Qed.

(** A fault-free pull succeeds; it returns exactly the messages that are
    deliverable to the agent, ordered by event time, then creation time, then
    id, each once; it records one offer on each returned entry, leaves every
    other entry alone, and registers the agent. *)
Theorem pull_inbox_spec agent now w
    (Hf : ts_faults w = []) (Hw : store_inv hex_encode w) :
  ∃ chosen w', pull_inbox agent now w = (Ok (ob_message <$> chosen), w') ∧
    NoDup (ob_inbox_id <$> chosen) ∧ StronglySorted (cmp_le pull_cmp) chosen ∧
    (∀ e, e ∈ chosen ↔ (∃ k, ts_outbox w !! k = Some (Stored e)) ∧ deliverable w agent e) ∧
    (∀ e, e ∈ chosen → ts_outbox w' !! ob_inbox_id e = Some (Stored (offer_entry agent now e))) ∧
    (∀ k, k ∉ ob_inbox_id <$> chosen → ts_outbox w' !! k = ts_outbox w !! k) ∧
    is_Some (ts_agents w' !! agent) ∧ ts_policies w' = ts_policies w.
Proof.
  exists (pull_choice agent w). eexists. split; [by apply (pull_inbox_run hex_encode)|].
  assert (Hnd : NoDup (ob_inbox_id <$> pull_choice agent w)) by apply choice_nodup, Hw.
  split_and!; [done| |apply pull_choice_spec| | |simpl; by rewrite lookup_insert_eq|done].
  - apply sort_by_sorted. unfold pull_cmp. apply _.
  - intros e He. by apply offer_all_in.
  - intros k Hk. by apply offer_all_ne.
Qed.

Lemma elem_of_outbox_targets a p :
  Targeted a ∈ outbox_targets p ↔ ∃ l, policy_target_agents p = Some l ∧ a ∈ l.
Proof.
  unfold outbox_targets. destruct (policy_target_agents p) as [[|b l]|].
  - split; [set_solver|]. intros (l & [= <-] & ?). set_solver.
  - rewrite list_elem_of_fmap. naive_solver.
  - split; [set_solver|naive_solver].
Qed.

(** A successful publication, under any faults: the policy id is new, the
    policy file holds the submitted fields as Active, exactly one entry per
    distinct target (one broadcast entry without targets) is created under a
    new id and one action id no earlier entry carries, nothing else in the
    outbox changes, and the returned count is the number of entries. *)
Theorem publish_effect name statement scope now targets w id n w'
    (Hrun : publish_new_policy hex_encode self name statement scope now targets w = (Ok (id, n), w')) :
  let p := new_policy name statement scope now targets id in
  ts_policies w !! id = None ∧ ts_policies w' = <[id := Stored p]> (ts_policies w) ∧
  n = Nat.max 1 (length (dedup (default [] targets))) ∧
  ∃ action_id, (∀ k e, ts_outbox w !! k = Some (Stored e) → ob_action_id e ≠ action_id) ∧
    entries_created (PolicyUpdate p) action_id now [] (outbox_targets p) (ts_outbox w) (ts_outbox w').
Proof.
  apply publish_ok in Hrun as (Hn & -> & [Hp He]). simpl. split_and!; [done|done| |done].
  unfold outbox_targets, new_policy, normalize_target_agents. simpl.
  destruct (dedup (default [] targets)) as [|a l]; [done|]. simpl. by rewrite length_fmap.
Qed.

Lemma fresh_pulled agent w k e :
  store_inv hex_encode w → ts_outbox w !! k = Some (Stored e) → deliverable w agent e → ∀ now,
  ∃ msgs w', pull_inbox agent now (set_ts_faults [] w) = (Ok msgs, w') ∧ ob_message e ∈ msgs.
Proof.
  intros Hw He Hd now. eexists _, _. split; [by apply (pull_inbox_run hex_encode)|].
  apply list_elem_of_fmap_2. apply pull_choice_spec. eauto.
Qed.

(** Publication reaches its audience: right after a successful publish,
    a fault-free pull by any agent (broadcast) or by any of the targets
    succeeds and returns a message carrying the published policy. *)
Theorem publish_then_pull name statement scope now targets w id n w' agent now'
    (Hw : store_inv hex_encode w)
    (Hrun : publish_new_policy hex_encode self name statement scope now targets w = (Ok (id, n), w'))
    (Haud : agent ∈ default [] targets ∨ default [] targets = []) :
  ∃ msgs w'' m, pull_inbox agent now' (set_ts_faults [] w') = (Ok msgs, w'') ∧
    m ∈ msgs ∧ msg_kind m = PolicyUpdate (new_policy name statement scope now targets id).
Proof.
  destruct (publish_moves _ _ _ _ _ _ _ _ _ _ Hrun Hw) as [_ Hw'].
  apply publish_ok in Hrun as (_ & _ & [Hp (act & _ & He)]).
  set (p := new_policy name statement scope now targets id) in *.
  assert (∃ t, t ∈ outbox_targets p ∧ (t = Broadcast ∨ t = Targeted agent)) as (t & Ht & Hta).
  { destruct Haud as [Ha|Ha].
    - exists (Targeted agent). split; [|by right]. apply elem_of_outbox_targets.
      unfold p, new_policy, normalize_target_agents. simpl.
      apply elem_of_dedup in Ha. destruct (dedup (default [] targets)); [set_solver|eauto].
    - exists Broadcast. split; [|by left]. unfold p, outbox_targets, new_policy, normalize_target_agents.
      simpl. rewrite Ha. set_solver. }
  destruct He as [_ Hall _]. rewrite Forall_forall in Hall.
  destruct (Hall t Ht) as (k & _ & Hk).
  destruct (fresh_pulled agent w' k _ Hw' Hk) with (now := now') as (msgs & w'' & Hrun & Hm).
  { unfold deliverable, addressed. simpl. split_and!; [done|by destruct Hta as [->| ->]|].
    intros ->. right. exists id, p. by rewrite Hp, lookup_insert_eq. }
  eexists _, _, _. split_and!; [exact Hrun|exact Hm|done].
Qed.

(** Retraction of a broadcast policy: after a successful deprecate, the
    retraction is one new message, and a fault-free pull returns it to an
    agent exactly when that agent was already offered, or had acknowledged, a
    message of the same policy. *)
Theorem deprecation_reaches_holders id now w n w' agent now' p0
    (Hw : store_inv hex_encode w)
    (Hp0 : ts_policies w !! id = Some (Stored p0)) (Hid : policy_id p0 = id)
    (Hb : default [] (policy_target_agents p0) = [])
    (Hrun : deprecate_policy hex_encode self id now w = (Ok n, w')) :
  n = 1 ∧ ∃ k msgs w'' e, ts_outbox w !! k = None ∧ ts_outbox w' !! k = Some (Stored e) ∧
    msg_policy (ob_message e) = set_policy_deprecated now p0 ∧
    pull_inbox agent now' (set_ts_faults [] w') = (Ok msgs, w'') ∧
    (k ∈ msg_id <$> msgs ↔ seen_policy w agent id).
Proof.
  destruct (deprecate_moves _ _ _ _ _ _ _ Hrun Hw) as [Hsteps Hw'].
  apply deprecate_ok in Hrun as (q & Hq & -> & Hp & act & _ & Hcr).
  assert (q = p0) as -> by congruence.
  assert (outbox_targets (set_policy_deprecated now p0) = [Broadcast]) as Htg.
  { unfold outbox_targets, set_policy_deprecated, normalize_target_agents. simpl. by rewrite Hb. }
  rewrite Htg in *. split; [done|]. destruct Hcr as [Hkept [(k & Hk0 & Hk1) _]%Forall_cons Honly].
  eexists k, _, _, _. split_and!; [done|exact Hk1| |by apply (pull_inbox_run hex_encode)|].
  { simpl. unfold msg_policy, policy_inbox_kind_for_policy. simpl.
    by destruct (policy_message_type p0). }
  set (e := new_entry _ _ _ _ _ _) in Hk1.
  assert (Hpol : msg_policy (ob_message e) = set_policy_deprecated now p0).
  { unfold msg_policy, e. simpl. unfold policy_inbox_kind_for_policy. simpl.
    by destruct (policy_message_type p0). }
  transitivity (e ∈ pull_choice agent w').
  { rewrite <-list_fmap_compose. destruct Hw' as [[Hkeys _] _]. split.
    - intros (e' & Heq & Hin)%list_elem_of_fmap.
      assert (Hin' := Hin). apply pull_choice_spec in Hin' as [[k' Hk'] _].
      destruct (Hkeys _ _ Hk') as [_ Hm]. simpl in Heq. assert (k' = k) as -> by congruence.
      simpl in Hk'. rewrite Hk1 in Hk'. by injection Hk' as <-.
    - intros Hin. apply list_elem_of_fmap. exists e. split; [done|exact Hin]. }
  rewrite pull_choice_spec. unfold deliverable. rewrite Hpol. simpl. rewrite Hid.
  transitivity (seen_policy w' agent id); [naive_solver|].
  unfold seen_policy. split; intros (k' & e' & He' & Hpe & Hs).
  - destruct (ts_outbox w !! k') as [f|] eqn:Hold.
    + rewrite Hkept in He' by eauto. by exists k', e'.
    + destruct (Honly _ _ Hold He') as (t & _ & ->). unfold was_offered, was_delivered in Hs.
      simpl in Hs. by destruct Hs.
  - exists k', e'. rewrite Hkept by (by eexists). done.
Qed.

(** A sweep that reports no notification error lists every mirrored claim
    that aged past its threshold, and leaves each of them, with the update
    time it was judged by, on the ledger of its holder as a targeted entry. *)
Theorem sweep_complete now w r w' agent c s
    (Hw : store_inv hex_encode w)
    (Hrun : run_stale_sweep hex_encode self now w = (Ok r, w'))
    (Herr : csr_notification_errors r = [])
    (Hc : (agent, c) ∈ all_claims w) (Hs : suggestion self now c = Some s) :
  (agent, claim_id c) ∈
    (if decide (s = ClaimStale) then csr_stale_claims r else csr_deprecated_claims r) ∧
  ∃ k e i, ts_outbox w' !! k = Some (Stored e) ∧ ob_target e = Targeted agent ∧
    i ∈ ob_sweep_items e ∧ sni_claim_id i = claim_id c ∧
    sni_effective_updated_at i = effective_updated_at c ∧ sni_suggested_status i = s.
Proof.
  apply (sweep_ok hex_encode self) in Hrun as (-> & -> & Hall); [|done..]. split.
  - assert (Hin : (agent, claim_id c) ∈ candidates self now s (all_claims w)).
    { apply list_elem_of_fmap. exists (agent, c). split; [done|]. by apply list_elem_of_filter. }
    unfold suggestion in Hs.
    destruct (claim_status c); [| |done]; case_match; simplify_eq; exact Hin.
  - set (i := {| sni_claim_id := claim_id c;
      sni_effective_updated_at := effective_updated_at c; sni_suggested_status := s |}).
    assert (Hi : (agent, i) ∈ scheduled (stored (ts_outbox w'))).
    { apply Hall, list_elem_of_omap. exists (agent, c). split; [done|].
      by apply sweep_item_spec. }
    apply elem_of_scheduled in Hi as (e & [k Hk]%elem_of_stored & Ht & Hi).
    by exists k, e, i.
Qed.

(** Sweeping is idempotent: after a sweep without notification errors and
    any further operations, a later sweep that finds no new candidate (no
    claim with a new update time or a new suggested status) sends nothing and
    leaves the store as it was, however its own I/O behaves. *)
Theorem sweep_no_repeat now w r w' steps now2 r2 w3
    (Hw : store_inv hex_encode w)
    (Hrun : run_stale_sweep hex_encode self now w = (Ok r, w'))
    (Herr : csr_notification_errors r = []) :
  let w2 := exec_all steps w' in
  omap (sweep_item self now2) (all_claims w2) ⊆ omap (sweep_item self now) (all_claims w) →
  run_stale_sweep hex_encode self now2 w2 = (Ok r2, w3) →
  csr_notifications r2 = [] ∧ csr_notification_errors r2 = [] ∧ ts_outbox w3 = ts_outbox w2 ∧
  ts_policies w3 = ts_policies w2.
Proof.
  simpl. intros Hsub Hrun2. destruct (sweep_moves hex_encode self _ _ _ _ Hrun Hw) as [_ Hw'].
  apply (sweep_ok hex_encode self) in Hrun as (_ & _ & Hall); [|done..].
  assert (Hle := exec_all_le steps w' Hw'). unfold run_stale_sweep in Hrun2. mbind_inv Hrun2.
  apply list_all_claims_ok in Hrun0 as [-> [Hp Ho]]. rewrite <-Ho, <-Hp.
  case_bool_decide; [by injection Hrun2 as <- <-|].
  unfold send_sweep_notifications in Hrun2. mbind_inv Hrun2.
  apply lock_same_delivery in Hrun0 as [Hp1 Ho1]. mbind_inv Hrun2.
  assert (Hs2 : same_delivery w1 w2)
    by (eapply (preserves_list same_delivery outbox_dir); exact Hrun0).
  apply outbox_list_inv in Hrun0 as [_ Hes]. rewrite (Hes _ eq_refl) in Hrun2.
  apply notify_loop_nothing in Hrun2 as [[= ->] ->].
  - destruct Hs2 as [-> ->]. done.
  - intros x Hx%pairs_sweep_groups. rewrite Ho1, Ho.
    eapply scheduled_mono; [exact Hle|]. by apply Hall, Hsub.
Qed.

(** *** Dispute reports *)

Lemma write_dispute_inv d w r w' :
  write_dispute (MaintainerDisputeRecord_from d) w = (r, w') →
  (r = Ok tt ∧ ts_disputes w' =
    <[dispute_id d := Stored (MaintainerDisputeRecord_from d)]> (ts_disputes w)) ∨
  (r ≠ Ok tt ∧ ts_disputes w' = ts_disputes w).
Proof.
  unfold write_dispute. destruct (validate_dispute_record _).
  - intros [[? ?]|[-> ?]]%(write_yaml_inv disputes_dir); [by left|by right].
  - intros [= <- <-]. by right.
Qed.

Definition same_reports (w w' : TeamStore) : Prop :=
  ts_disputes w' = ts_disputes w ∧ ts_agents w' = ts_agents w.

#[local] Instance same_reports_preorder : PreOrder same_reports.
Proof. split; [done|]. intros w1 w2 w3 [] []. split; congruence. Qed.

#[local] Instance same_reports_faults : FaultClosed same_reports.
Proof. done. Qed.

Lemma validate_new_inv d w r w' :
  validate_new_dispute_direct_claims d w = (r, w') →
  same_reports w w' ∧
  (r = Ok tt → ∀ a cs k c, AgentId_new a = Ok a → ts_agents w !! a = Some cs → cs !! k = Some c →
    claim_id c ∈ dispute_claims d → claim_status c ≠ ClaimDeprecated).
Proof.
  assert (Hp : preserves same_reports (validate_new_dispute_direct_claims d))
    by (unfold validate_new_dispute_direct_claims, load_team_claims; solve_preserves).
  intros H. split; [by eapply Hp|]. clear Hp. revert H.
  unfold validate_new_dispute_direct_claims, load_team_claims. intros H.
  intros ->. mbind_inv H. mbind_inv H0. injection H0 as <- <-.
  assert (same_reports w w1) as [_ Ha] by by eapply (preserves_io same_reports).
  case_bool_decide as Hnil; [|done]. rewrite Ha in Hnil. intros ag cs k c Hid Hcs Hc Hin Hdep.
  assert (claim_id c ∈ ([] : list ClaimId)) as Hbad; [|set_solver].
  rewrite <-Hnil. apply list_elem_of_fmap. exists (ag, c). split; [done|].
  apply list_elem_of_filter. split; [done|]. apply elem_of_sort_by, list_elem_of_bind. exists ag. split.
  - unfold agent_claims. rewrite Ha, Hcs. simpl. apply list_elem_of_fmap_2, list_elem_of_fmap.
    exists (k, c). split; [done|]. by apply elem_of_map_to_list.
  - apply list_elem_of_filter. rewrite Hid. split; [done|].
    apply list_elem_of_fmap. exists (ag, cs). split; [done|]. by apply elem_of_map_to_list.
Qed.

(** Dispute reports never overwrite: under any faults, a report leaves
    every stored dispute record as it is; when it succeeds the dispute is on
    record under its id with the reported payload, and either it already was
    (whatever its status or resolution since) or it is new, open, and none of
    its direct claims is mirrored as deprecated. *)
Theorem report_dispute_effect d w r w' (Hrun : report_dispute d w = (r, w')) :
  (∀ id rec, ts_disputes w !! id = Some (Stored rec) → ts_disputes w' !! id = Some (Stored rec)) ∧
  (r = Ok tt →
    (∃ rec, ts_disputes w !! dispute_id d = Some (Stored rec) ∧
      same_report_payload (mdr_dispute rec) d = true ∧ ts_disputes w' = ts_disputes w) ∨
    (ts_disputes w !! dispute_id d = None ∧ dispute_status d = DisputeOpen ∧
      dispute_resolved_at d = None ∧
      ts_disputes w' = <[dispute_id d := Stored (MaintainerDisputeRecord_from d)]> (ts_disputes w) ∧
      ∀ a cs k c, AgentId_new a = Ok a → ts_agents w !! a = Some cs → cs !! k = Some c →
        claim_id c ∈ dispute_claims d → claim_status c ≠ ClaimDeprecated)).
Proof.
  unfold report_dispute in Hrun. destruct (validate_agent_report d) as [[]|e] eqn:Hv;
    [|injection Hrun as <- <-; split; [by auto|done]].
  apply bind_cases in Hrun as [([] & w1 & H1 & H2)|(e & H1 & ->)];
    apply (preserves_io_step same_reports) in H1 as [Hd1 Ha1].
  2: { rewrite Hd1. split; [by auto|done]. }
  rewrite <-Hd1, <-Ha1. clear w Hd1 Ha1. rewrite m_try_bind in H2.
  destruct (read_dispute (dispute_id d) w1) as [r0 w2] eqn:Hread.
  assert (same_reports w1 w2) as [Hd2 Ha2] by by eapply (preserves_read same_reports disputes_dir).
  destruct r0 as [ex|e0].
  { apply (read_yaml_ok disputes_dir) in Hread as [Hex _]. simpl in Hex.
    destruct (same_report_payload (mdr_dispute ex) d) eqn:Hpay; injection H2 as <- <-;
      rewrite Hd2; (split; [by auto|]); [|done]. intros _. left. by exists ex. }
  destruct (decide (e0 = StorageErr FileNotFound)) as [->|Hne].
  2: { assert (r = Err e0 ∧ w' = w2) as [-> ->]
         by (destruct e0 as [[]| | | | | | |]; try done; by injection H2 as <- <-).
       rewrite Hd2. split; [by auto|done]. }
  assert (Hnone : ts_disputes w1 !! dispute_id d = None).
  { unfold read_dispute, read_yaml, io, io_step in Hread. mrun_in Hread. clear H2.
    case_in Hread; try done. }
  apply bind_cases in H2 as [([] & w3 & H2 & H3)|(e & H2 & ->)];
    apply validate_new_inv in H2 as [[Hd3 Ha3] Hok].
  2: { rewrite Hd3, Hd2. split; [by auto|done]. }
  apply write_dispute_inv in H3. rewrite Hd3, Hd2 in H3. destruct H3 as [[-> ->]|[Hr ->]];
    [|by split; [auto|]]. split.
  { intros id rec Hid. rewrite lookup_insert_ne; [done|congruence]. }
  intros _. right. unfold validate_agent_report in Hv.
  repeat case_bool_decide; simplify_eq/=. split_and!; [done|done| |done|].
  - by apply eq_None_not_Some.
  - rewrite <-Ha2. by apply Hok.
Qed.
End guarantees.
