(* ===== verification/Views.v ===== *)
(** * The dashboard views of the outbox (src/src/maintainer.rs)

    Properties of the projections defined in Sweep.v: the action rows
    partition the ledger, the send log lists every receipt in order, and the
    open filter agrees with what a pull still returns. *)

From S2P Require Import Prelude Storage Claim Maintainer Ledger Delivery DeliveryRuns Sweep Guarantees.
Import Ids.

Lemma sum_list_perm l1 l2 : l1 ≡ₚ l2 → sum_list l1 = sum_list l2.
Proof. induction 1; simpl; lia. Qed.

Lemma sum_list_app l1 l2 : sum_list (l1 ++ l2) = sum_list l1 + sum_list l2.
Proof. induction l1; simpl; lia. Qed.

Lemma StronglySorted_weaken {A} (R1 R2 : relation A) l :
  (∀ x y, R1 x y → R2 x y) → StronglySorted R1 l → StronglySorted R2 l.
Proof.
  intros HR. induction 1 as [|x l Hl IH Hx]; constructor; [done|].
  eapply Forall_impl; [exact Hx|]. intros y. apply HR.
Qed.

Lemma bt_sorted_NoDup {V} (m : list (string * list V)) : bt_sorted m → NoDup m.*1.
Proof.
  unfold bt_sorted. induction 1 as [|k l Hl IH Hk]; constructor; [|done].
  intros Hin. rewrite Forall_forall in Hk. specialize (Hk _ Hin).
  assert (Ha := String.compare_antisym k k). by rewrite Hk in Ha.
Qed.

Lemma bt_pairs_keys {V} (m : list (string * list V)) a :
  Forall (λ kvs, kvs.2 ≠ []) m → a ∈ m.*1 ↔ a ∈ (bt_pairs m).*1.
Proof.
  induction 1 as [|[k vs] m Hv Hm IH]; [done|]. unfold bt_pairs in *. csimpl.
  rewrite fmap_app, elem_of_app, elem_of_cons, IH, <-list_fmap_compose. csimpl.
  apply or_iff_compat_r. destruct vs as [|v vs]; [done|]. clear. split.
  - intros ->. by left.
  - rewrite list_elem_of_fmap. by intros (? & -> & _).
Qed.

Lemma bt_nonempty_push {V} (k : string) (v : V) m :
  Forall (λ kvs, kvs.2 ≠ []) m → Forall (λ kvs, kvs.2 ≠ []) (bt_push k v m).
Proof.
  induction 1 as [|[k' vs] m Hv Hm IH]; simpl; [by repeat constructor|].
  destruct (String.compare k k'); constructor; simpl in *; try done.
  - by destruct vs.
  - by constructor.
Qed.

Lemma bt_nonempty_group {A V} (key : A → string) (value : A → V) l :
  Forall (λ kvs, kvs.2 ≠ []) (bt_group key value l).
Proof.
  unfold bt_group. assert (Hg : ∀ m, Forall (λ kvs, kvs.2 ≠ []) m →
    Forall (λ kvs, kvs.2 ≠ []) (fold_left (λ m a, bt_push (key a) (value a) m) l m)).
  { induction l as [|a l IH]; intros m Hm; simpl; [done|]. by apply IH, bt_nonempty_push. }
  by apply Hg.
Qed.

Lemma action_row_spec g row : action_row g = Some row →
  mar_action_id row = g.1 ∧ mar_outbox_entries row = length g.2 ∧
  mar_send_events row = sum_list ((λ e, length (ob_delivered_to e)) <$> g.2) ∧
  ∃ e, e ∈ g.2 ∧ mar_created_at row = ob_created_at e ∧
    Forall (λ e', ob_created_at e ≤ ob_created_at e')%Z g.2.
Proof.
  destruct g as [aid es]. unfold action_row. intros H.
  set (srt := sort_by _ es) in H.
  assert (Hp : srt ≡ₚ es) by apply sort_by_perm.
  assert (Hs : StronglySorted (cmp_le (cmp_then (cmp_on ob_created_at Z.compare)
    (cmp_on ob_inbox_id String.compare))) srt) by (apply sort_by_sorted, _).
  destruct srt as [|e l]; simplify_option_eq. split_and!; [done| | |].
  - simpl. by rewrite <-Hp.
  - by rewrite <-(sum_list_perm _ _ (fmap_Permutation (λ e, length (ob_delivered_to e)) _ _ Hp)).
  - exists e. split; [rewrite <-Hp; by left|]. split; [done|]. rewrite <-Hp. constructor; [lia|].
    inversion Hs as [|? ? _ Hall]; subst. eapply Forall_impl; [exact Hall|]. intros e'.
    unfold cmp_le, cmp_then, cmp_on.
    destruct (Z.compare_spec (ob_created_at e) (ob_created_at e')); [lia|lia|done].
Qed.

Lemma action_row_total g : g.2 ≠ [] → is_Some (action_row g).
Proof.
  destruct g as [aid es]. simpl. intros Hne. unfold action_row.
  assert (Hl := length_sort_by (cmp_then (cmp_on ob_created_at Z.compare)
    (cmp_on ob_inbox_id String.compare)) es).
  destruct (sort_by _ es); [by destruct es|eauto].
Qed.

Lemma omap_rows groups : Forall (λ kvs, kvs.2 ≠ []) groups →
  mar_action_id <$> omap action_row groups = groups.*1 ∧
  sum_list (mar_outbox_entries <$> omap action_row groups) = length (bt_pairs groups) ∧
  sum_list (mar_send_events <$> omap action_row groups) =
    sum_list ((λ p, length (ob_delivered_to p.2)) <$> bt_pairs groups).
Proof.
  induction 1 as [|g groups Hne Hall (IH1 & IH2 & IH3)]; [done|].
  destruct (action_row_total g Hne) as [row Hrow]. csimpl. rewrite Hrow. csimpl.
  apply action_row_spec in Hrow as (-> & -> & -> & _). rewrite IH1, IH2, IH3.
  unfold bt_pairs. csimpl. rewrite fmap_app, length_app, length_fmap, sum_list_app.
  split_and!; [done|lia|]. rewrite <-list_fmap_compose. done.
Qed.

(** The action rows partition the ledger: one row per action id, ordered
    newest first; together they count every outbox entry once and every
    recorded receipt once. *)
Theorem action_rows_partition entries :
  let rows := build_action_rows_from_entries entries in
  NoDup (mar_action_id <$> rows) ∧
  (∀ a, a ∈ mar_action_id <$> rows ↔ a ∈ ob_action_id <$> entries) ∧
  sum_list (mar_outbox_entries <$> rows) = length entries ∧
  sum_list (mar_send_events <$> rows) = length (build_send_log_from_entries entries) ∧
  StronglySorted (λ r1 r2, mar_created_at r2 ≤ mar_created_at r1)%Z rows.
Proof.
  simpl. unfold build_action_rows_from_entries.
  set (groups := bt_group ob_action_id id entries). set (cmp := cmp_then _ _).
  destruct (bt_group_spec ob_action_id id entries) as [Hp Hs]. fold groups in Hp, Hs.
  destruct (omap_rows groups (bt_nonempty_group _ _ _)) as (Hids & Hn & Hsend).
  assert (Hids' : mar_action_id <$> sort_by cmp (omap action_row groups) ≡ₚ groups.*1)
    by (rewrite sort_by_perm; by rewrite Hids).
  split_and!.
  - rewrite Hids'. by apply bt_sorted_NoDup.
  - intros a. rewrite Hids', bt_pairs_keys by apply bt_nonempty_group. fold groups.
    rewrite Hp, <-list_fmap_compose. done.
  - rewrite (sum_list_perm _ (mar_outbox_entries <$> omap action_row groups)) by by rewrite sort_by_perm.
    rewrite Hn, Hp. by rewrite length_fmap.
  - rewrite (sum_list_perm _ (mar_send_events <$> omap action_row groups)) by by rewrite sort_by_perm.
    rewrite Hsend. unfold build_send_log_from_entries. rewrite length_sort_by.
    rewrite (sum_list_perm _ _ (fmap_Permutation _ _ _ Hp)).
    rewrite <-list_fmap_compose. clear. induction entries as [|e l IH]; csimpl; [done|].
    rewrite length_app, <-IH. unfold send_log_rows. by rewrite length_fmap.
  - eapply StronglySorted_weaken; [|apply sort_by_sorted; unfold cmp; apply _].
    intros r1 r2. unfold cmp_le, cmp, cmp_then, cmp_rev, cmp_on.
    destruct (Z.compare_spec (mar_created_at r2) (mar_created_at r1)); [lia|lia|done].
Qed.

(** The outbox listing: without faults the open and the closed listings
    split the ledger between them, each is ordered newest first with ids
    breaking ties, and a limit keeps the first rows of the same listing. *)
Theorem outbox_listing hex_encode w n
    (Hf : ts_faults w = []) (Hw : store_inv hex_encode w) :
  ∃ opened closed,
    list_outbox_entries None (Some true) w = (Ok opened, w) ∧
    list_outbox_entries None (Some false) w = (Ok closed, w) ∧
    opened ++ closed ≡ₚ stored (ts_outbox w) ∧
    StronglySorted (cmp_le newest_first) opened ∧ StronglySorted (cmp_le newest_first) closed ∧
    list_outbox_entries (Some n) (Some true) w = (Ok (take n opened), w).
Proof.
  set (is_open := λ e, outbox_entry_is_open e (active_ids w)
    (active_broadcast_deliveries (stored (ts_outbox w)))).
  assert (Hrun : ∀ limit open, list_outbox_entries limit open w =
    (Ok (let sorted := sort_by newest_first
           (filter (λ e, matches_open open (is_open e)) (stored (ts_outbox w))) in
         match limit with Some n => take n sorted | None => sorted end), w)).
  { intros limit open. unfold list_outbox_entries.
    rewrite (bind_step _ _ w (active_ids w) w).
    2: { unfold active_policy_id_set, list_policies.
         erewrite bind_step by (apply (list_yaml_run policies_dir); [done|apply Hw]). done. }
    rewrite (bind_step _ _ w (stored (ts_outbox w)) w); [done|].
    apply (list_yaml_run outbox_dir); [done|apply Hw]. }
  rewrite !Hrun. eexists _, _. split_and!; [done|done| | | |done].
  - rewrite !sort_by_perm. generalize (stored (ts_outbox w)) as l. intros l.
    induction l as [|e l IH]; [done|]. rewrite !filter_cons.
    destruct (is_open e) eqn:Ho; simpl.
    + by rewrite IH.
    + by rewrite <-Permutation_middle, IH.
  - apply sort_by_sorted. unfold newest_first. apply _.
  - apply sort_by_sorted. unfold newest_first. apply _.
Qed.

(** A closed entry is done: a fault-free pull never returns a closed
    targeted entry, and returns a closed broadcast of an Active snapshot only
    to an agent that still holds an unacknowledged offer of it. *)
Theorem closed_entry_pull hex_encode w k e agent now msgs w'
    (Hf : ts_faults w = []) (Hw : store_inv hex_encode w)
    (He : ts_outbox w !! k = Some (Stored e))
    (Hclosed : outbox_entry_is_open e (active_ids w)
      (active_broadcast_deliveries (stored (ts_outbox w))) = false)
    (Hact : ob_target e = Broadcast → policy_status (msg_policy (ob_message e)) = PolicyActive)
    (Hpull : pull_inbox agent now w = (Ok msgs, w'))
    (Hin : k ∈ msg_id <$> msgs) :
  ob_target e = Broadcast ∧ was_offered agent e = true ∧ was_delivered agent e = false.
Proof.
  apply pull_inbox_msgs in Hpull as ->. rewrite <-list_fmap_compose in Hin.
  apply list_elem_of_fmap in Hin as (e' & Hk & Hin). simpl in Hk.
  apply pull_choice_spec in Hin as [[k' He'] (Hd & Ha & Hb)].
  destruct Hw as [[Hkeys _] _]. destruct (Hkeys _ _ He') as [_ Hm].
  assert (k' = k) as -> by congruence. assert (e' = e) as -> by congruence.
  unfold outbox_entry_is_open in Hclosed. unfold addressed in Ha.
  destruct (ob_target e) as [|t].
  - specialize (Hb eq_refl). simpl in Hb. rewrite Hact in Hb, Hclosed by done.
    destruct Hb as [Ho|(kp & q & Hq & Hid & Hst)]; [done|].
    exfalso. apply bool_decide_eq_false in Hclosed. apply Hclosed. rewrite <-Hid.
    apply list_elem_of_fmap_2, list_elem_of_filter. split; [done|]. apply elem_of_stored. eauto.
  - subst. by rewrite Hd in Hclosed.
Qed.
