(* ===== verification/MaintainerDemo.v ===== *)
(** * Concrete runs of the Maintainer

    A team store with a deterministic identifier source, on which every
    guarantee of Guarantees.v and Views.v is instantiated. *)

From S2P Require Import Prelude Storage Claim Maintainer Ledger Delivery DeliveryRuns Publish Sweep.
From S2P Require Import Guarantees Views.
Import Ids.

Definition demo_hex (l : list Z) : string := hex_fixed 8 (default 0%Z (head l)).
Definition demo_self : Maintainer :=
  {| stale_after := 10; deprecate_after := 20; id_mint_max_attempts := 3 |}.
Definition demo_store : TeamStore :=
  {| ts_policies := ∅; ts_outbox := ∅; ts_disputes := ∅; ts_agents := ∅;
     ts_entropy := λ n, [Z.of_nat n]; ts_drawn := 0; ts_faults := [] |}.

Lemma demo_empty : empty_store demo_hex demo_store.
Proof. split_and!; [done..|]. intros n. apply good_suffix_true, hex_fixed_good. Defined.

Lemma demo_reachable steps : reachable demo_hex demo_self (exec_all demo_hex demo_self steps demo_store).
Proof. exists demo_store, steps. split; [apply demo_empty|done]. Defined.

Lemma demo_inv steps : store_inv demo_hex (exec_all demo_hex demo_self steps demo_store).
Proof. apply (reachable_inv demo_hex demo_self), demo_reachable. Qed.

Lemma demo_inv_faults fs steps :
  store_inv demo_hex (set_ts_faults fs (exec_all demo_hex demo_self steps demo_store)).
Proof. assert (H := demo_inv steps). generalize dependent (exec_all demo_hex demo_self steps demo_store). done. Qed.

(** A broadcast is published, agent [a] pulls it, then the policy is deprecated. *)
Definition demo_steps : list (list bool * command) :=
  [ ([], CPublish "n" "s" "sc" 100 None); ([], CPull "a" 101) ].
Definition demo_pulled : TeamStore := exec_all demo_hex demo_self demo_steps demo_store.
Definition demo_policy : Policy := new_policy "n" "s" "sc" 100 None "policy_00000001".
Definition demo_entry : OutboxEntry :=
  offer_entry "a" 101 (new_entry "inbox_00000002" "intent_00000000" Broadcast 100 [] (PolicyUpdate demo_policy)).

Lemma demo_pulled_inv : store_inv demo_hex demo_pulled.
Proof. exact (demo_inv demo_steps). Qed.

Example demo_pulled_entry : ts_outbox demo_pulled !! "inbox_00000002" = Some (Stored demo_entry).
Proof. vm_compute. reflexivity. Qed.

Lemma exec_refines_ledger_witness : rtc outbox_step ∅ (ts_outbox demo_pulled).
Proof. apply (exec_refines_ledger demo_hex demo_self demo_steps demo_store), (demo_inv []). Defined.

Lemma reachable_ledger_wf_witness : history_wf (ts_outbox demo_pulled).
Proof. apply (reachable_ledger_wf demo_hex demo_self demo_pulled), demo_reachable. Defined.

Lemma redelivered_until_ack_witness :
  let w' := set_ts_faults [] (exec_all demo_hex demo_self
              [([], CDeprecate "policy_00000001" 105); ([true], CPull "a" 106)] demo_pulled) in
  receipted (ts_outbox w') "a" "inbox_00000002" ∨
  ∃ msgs w'', pull_inbox "a" 110 w' = (Ok msgs, w'') ∧ ob_message demo_entry ∈ msgs.
Proof.
  apply (redelivered_until_ack demo_hex demo_self demo_pulled); [apply demo_reachable| |].
  - vm_compute. reflexivity.
  - reflexivity.
Defined.

Definition demo_acked : TeamStore :=
  exec_all demo_hex demo_self (demo_steps ++ [([], CAck "a" ["inbox_00000002"] 102)]) demo_store.

Lemma demo_receipted : receipted (ts_outbox demo_acked) "a" "inbox_00000002".
Proof. eexists. split; vm_compute; reflexivity. Defined.

Lemma acked_never_returned_witness :
  "inbox_00000002" ∉ msg_id <$> ([] : list InboxMessage).
Proof.
  eapply (acked_never_returned demo_hex demo_self demo_acked [([], CDeprecate "policy_00000009" 105)] "a"
    "inbox_00000002" 110); [apply demo_inv|apply demo_receipted|].
  vm_compute. reflexivity.
Defined.

Lemma ack_outcomes_witness :
  ts_outbox (ack_inbox "b" ["inbox_00000002"] 102 demo_pulled).2 = ts_outbox demo_pulled ∧
  (ack_inbox "b" ["inbox_00000002"] 102 demo_pulled).1 = Err (NotOffered "b" "inbox_00000002").
Proof.
  assert (Hrun : ack_inbox "b" ["inbox_00000002"] 102 demo_pulled
    = (Err (NotOffered "b" "inbox_00000002"), (ack_inbox "b" ["inbox_00000002"] 102 demo_pulled).2))
    by (vm_compute; reflexivity).
  split; [|exact (f_equal fst Hrun)].
  apply (ack_outcomes demo_hex _ _ _ _ _ _ demo_pulled_inv Hrun).
Defined.

(** The lock, the listing and the read succeed; the first write fails. *)
Definition demo_broken : TeamStore := set_ts_faults [false; false; false; true] demo_pulled.

Lemma demo_broken_inv : store_inv demo_hex demo_broken.
Proof. apply demo_inv_faults. Qed.

Lemma ack_retry_converges_witness :
  let w1 := (ack_inbox "a" ["inbox_00000002"] 102 demo_broken).2 in
  ∃ w2, ack_inbox "a" ["inbox_00000002"] 103
          (set_ts_faults [] (exec_all demo_hex demo_self [] w1)) = (Ok tt, w2) ∧
    Forall (receipted (ts_outbox w2) "a") ["inbox_00000002"].
Proof.
  eapply (ack_retry_converges demo_hex demo_self "a" ["inbox_00000002"] 102 "inbox_00000002"
    (StorageErr IoFailed) demo_broken); [apply demo_broken_inv|vm_compute; reflexivity].
Defined.

Lemma ack_idempotent_witness :
  let w1 := (ack_inbox "a" ["inbox_00000002"] 102 demo_pulled).2 in
  let w2 := set_ts_faults [] (exec_all demo_hex demo_self [([], CPull "a" 103)] w1) in
  ∃ w3, ack_inbox "a" ["inbox_00000002"] 104 w2 = (Ok tt, w3) ∧ ts_outbox w3 = ts_outbox w2.
Proof.
  apply (ack_idempotent demo_hex demo_self "a" ["inbox_00000002"] 102 demo_pulled).
  - exact demo_pulled_inv.
  - apply (reachable_inv demo_hex demo_self), demo_reachable.
  - vm_compute. reflexivity.
Defined.

Lemma pull_inbox_spec_witness : ∃ chosen w',
  pull_inbox "b" 103 demo_pulled = (Ok (ob_message <$> chosen), w') ∧ NoDup (ob_inbox_id <$> chosen).
Proof.
  destruct (pull_inbox_spec demo_hex "b" 103 demo_pulled) as (chosen & w' & H1 & H2 & _).
  - vm_compute. reflexivity.
  - exact demo_pulled_inv.
  - exists chosen, w'. exact (conj H1 H2).
Defined.

Lemma publish_effect_witness :
  ts_policies (publish_new_policy demo_hex demo_self "n" "s" "sc" 100 (Some ["a"; "b"; "a"]) demo_store).2
    !! "policy_00000001" ≠ None ∧
  (publish_new_policy demo_hex demo_self "n" "s" "sc" 100 (Some ["a"; "b"; "a"]) demo_store).1
    = Ok ("policy_00000001", 2).
Proof.
  set (run := publish_new_policy demo_hex demo_self "n" "s" "sc" 100 (Some ["a"; "b"; "a"]) demo_store).
  assert (Hrun : run = (Ok ("policy_00000001", 2), run.2)) by (vm_compute; reflexivity).
  split; [|exact (f_equal fst Hrun)].
  destruct (publish_effect demo_hex demo_self _ _ _ _ _ _ _ _ _ Hrun) as (_ & -> & _).
  by rewrite lookup_insert_eq.
Defined.

Lemma publish_then_pull_witness :
  let w' := (publish_new_policy demo_hex demo_self "n" "s" "sc" 100 (Some ["a"; "b"]) demo_store).2 in
  ∃ msgs w'' m, pull_inbox "b" 101 (set_ts_faults [] w') = (Ok msgs, w'') ∧ m ∈ msgs ∧
    msg_kind m = PolicyUpdate (new_policy "n" "s" "sc" 100 (Some ["a"; "b"]) "policy_00000001").
Proof.
  eapply (publish_then_pull demo_hex demo_self "n" "s" "sc" 100 (Some ["a"; "b"]) demo_store
    "policy_00000001" 2).
  - exact (demo_inv []).
  - vm_compute. reflexivity.
  - left. simpl. apply list_elem_of_further, list_elem_of_here.
Defined.

Lemma deprecation_reaches_holders_witness :
  let w' := (deprecate_policy demo_hex demo_self "policy_00000001" 105 demo_pulled).2 in
  1 = 1 ∧ ∃ k msgs w'' e, ts_outbox demo_pulled !! k = None ∧ ts_outbox w' !! k = Some (Stored e) ∧
      msg_policy (ob_message e) = set_policy_deprecated 105 demo_policy ∧
      pull_inbox "a" 106 (set_ts_faults [] w') = (Ok msgs, w'') ∧
      (k ∈ msg_id <$> msgs ↔ seen_policy demo_pulled "a" "policy_00000001").
Proof.
  apply (deprecation_reaches_holders demo_hex demo_self "policy_00000001" 105 demo_pulled).
  - exact demo_pulled_inv.
  - vm_compute. reflexivity.
  - vm_compute. reflexivity.
  - vm_compute. reflexivity.
  - vm_compute. reflexivity.
Defined.

(** A mirrored claim that aged past [stale_after]. *)
Definition demo_claim : Claim :=
  {| claim_id := "claim_000000aa"; claim_name := "c"; claim_statement := "s"; claim_scope := "sc";
     claim_holder := "a"; claim_confidence := High; claim_status := ClaimActive;
     claim_created_at := 5; claim_updated_at := None; claim_source_claim_ids := [];
     claim_evidence_summary := "e" |}.
Definition demo_mirror : TeamStore :=
  exec_all demo_hex demo_self [([], CUpload demo_claim)] demo_store.
Lemma demo_mirror_inv : store_inv demo_hex demo_mirror.
Proof. exact (demo_inv [([], CUpload demo_claim)]). Qed.

Definition demo_report : ClaimSweepReport :=
  {| csr_stale_claims := [("a", "claim_000000aa")]; csr_deprecated_claims := [];
     csr_notifications := [{| sn_agent_id := "a"; sn_stale_claims := ["claim_000000aa"];
       sn_deprecated_claims := []; sn_policy_id := "policy_00000001"; sn_pushed := 1 |}];
     csr_notification_errors := [] |}.

Example demo_sweep : run_stale_sweep demo_hex demo_self 100 demo_mirror
  = (Ok demo_report, (run_stale_sweep demo_hex demo_self 100 demo_mirror).2).
Proof. vm_compute. reflexivity. Qed.

Lemma sweep_complete_witness :
  ("a", "claim_000000aa") ∈ csr_stale_claims demo_report.
Proof.
  destruct (sweep_complete demo_hex demo_self 100 demo_mirror _ _ "a" demo_claim ClaimStale
    demo_mirror_inv demo_sweep) as [H _].
  - reflexivity.
  - apply list_elem_of_In. vm_compute. by left.
  - vm_compute. reflexivity.
  - exact H.
Defined.

Lemma sweep_no_repeat_witness :
  let w' := (run_stale_sweep demo_hex demo_self 100 demo_mirror).2 in
  ∃ r2 w3, run_stale_sweep demo_hex demo_self 200 (exec_all demo_hex demo_self [([], CPull "a" 150)] w')
    = (Ok r2, w3) ∧ csr_notifications r2 = [].
Proof.
  simpl. set (w2 := exec_all demo_hex demo_self [([], CPull "a" 150)]
    (run_stale_sweep demo_hex demo_self 100 demo_mirror).2).
  exists {| csr_stale_claims := [("a", "claim_000000aa")]; csr_deprecated_claims := [];
            csr_notifications := []; csr_notification_errors := [] |}.
  exists (run_stale_sweep demo_hex demo_self 200 w2).2.
  assert (Hrun2 : run_stale_sweep demo_hex demo_self 200 w2 =
    (Ok {| csr_stale_claims := [("a", "claim_000000aa")]; csr_deprecated_claims := [];
           csr_notifications := []; csr_notification_errors := [] |},
     (run_stale_sweep demo_hex demo_self 200 w2).2)) by (vm_compute; reflexivity).
  split; [exact Hrun2|].
  apply (sweep_no_repeat demo_hex demo_self 100 demo_mirror demo_report
    (run_stale_sweep demo_hex demo_self 100 demo_mirror).2 [([], CPull "a" 150)] 200
    {| csr_stale_claims := [("a", "claim_000000aa")]; csr_deprecated_claims := [];
       csr_notifications := []; csr_notification_errors := [] |}
    (run_stale_sweep demo_hex demo_self 200 w2).2
    demo_mirror_inv demo_sweep eq_refl); [|exact Hrun2].
  assert (H : omap (sweep_item demo_self 200) (all_claims w2) =
    omap (sweep_item demo_self 100) (all_claims demo_mirror)) by (vm_compute; reflexivity).
  fold w2. rewrite H. done.
Defined.

Definition demo_dispute : Dispute :=
  {| dispute_id := "dispute_00000001"; dispute_name := "d"; dispute_reporter_agent_id := "a";
     dispute_claims := ["claim_000000aa"]; dispute_summary := "x"; dispute_status := DisputeOpen;
     dispute_created_at := 7; dispute_resolved_at := None |}.

Lemma report_dispute_effect_witness :
  ts_disputes (report_dispute demo_dispute demo_mirror).2 !! "dispute_00000001" ≠ None.
Proof.
  assert (Hrun : report_dispute demo_dispute demo_mirror = (Ok tt, (report_dispute demo_dispute demo_mirror).2))
    by (vm_compute; reflexivity).
  destruct (report_dispute_effect demo_dispute demo_mirror _ _ Hrun) as [_ H].
  destruct (H eq_refl) as [(rec & Hrec & _ & ->)|(_ & _ & _ & -> & _)].
  - vm_compute in Hrec. discriminate Hrec.
  - rewrite lookup_insert_eq. discriminate.
Defined.

Lemma outbox_listing_witness : ∃ opened closed,
  opened ++ closed ≡ₚ stored (ts_outbox demo_pulled).
Proof.
  destruct (outbox_listing demo_hex demo_pulled 1) as (o & c & _ & _ & H & _).
  - vm_compute. reflexivity.
  - exact demo_pulled_inv.
  - exists o, c. exact H.
Defined.

(** The broadcast was offered to [a] and then retired: closed, still pulled. *)
Definition demo_retired : TeamStore :=
  set_ts_faults [] (exec_all demo_hex demo_self
    (demo_steps ++ [([], CDeprecate "policy_00000001" 105)]) demo_store).

Lemma closed_entry_pull_witness : was_offered "a" demo_entry = true.
Proof.
  set (run := pull_inbox "a" 106 demo_retired).
  set (msgs := ob_message <$> pull_choice "a" demo_retired).
  assert (Hrun : run = (Ok msgs, run.2)) by (vm_compute; reflexivity).
  eapply (closed_entry_pull demo_hex demo_retired "inbox_00000002" demo_entry "a" 106 msgs run.2).
  - vm_compute. reflexivity.
  - apply demo_inv_faults.
  - vm_compute. reflexivity.
  - vm_compute. reflexivity.
  - vm_compute. reflexivity.
  - exact Hrun.
  - apply list_elem_of_In. vm_compute. by left.
Defined.
