(* ===== verification/Text.v ===== *)
(** * Texts

    A Rust [String] as its list of Unicode scalar values, with the string
    operations that the modelled components call. *)

From S2P Require Import Prelude.

Abbreviation Text := (list Z).

Definition section_sign : Z := 167.
Definition line_feed : Z := 10.

(** [char::is_whitespace]: the Unicode White_Space property. *)
Definition is_whitespace (c : Z) : bool :=
  ((9 <=? c) && (c <=? 13) || (c =? 32) || (c =? 133) || (c =? 160) || (c =? 5760)
   || (8192 <=? c) && (c <=? 8202) || (c =? 8232) || (c =? 8233) || (c =? 8239)
   || (c =? 8287) || (c =? 12288))%Z.

Fixpoint trim_start (t : Text) : Text :=
  match t with
  | c :: t' => if is_whitespace c then trim_start t' else t
  | [] => []
  end.

Definition trim_end (t : Text) : Text := reverse (trim_start (reverse t)).
Definition trim (t : Text) : Text := trim_end (trim_start t).

(** [str::split(char)] *)
Fixpoint split_on (sep : Z) (t : Text) : list Text :=
  match t with
  | [] => [[]]
  | c :: t' =>
      if (c =? sep)%Z then [] :: split_on sep t'
      else match split_on sep t' with
           | piece :: pieces => (c :: piece) :: pieces
           | [] => [[c]]
           end
  end.

(** [str::contains(&str)] *)
Fixpoint text_starts_with (p t : Text) : bool :=
  match p, t with
  | [], _ => true
  | a :: p', b :: t' => (a =? b)%Z && text_starts_with p' t'
  | _ :: _, [] => false
  end.

Fixpoint text_contains (needle t : Text) : bool :=
  text_starts_with needle t ||
  match t with [] => false | _ :: t' => text_contains needle t' end.

(** An ASCII literal. *)
Fixpoint lit (s : string) : Text :=
  match s with
  | EmptyString => []
  | String a s' => Z.of_N (Ascii.N_of_ascii a) :: lit s'
  end.

(** ** Facts about splitting *)

Lemma split_on_nil sep t : split_on sep t ≠ [].
Proof. induction t as [|c t IH]; simpl; [done|]. destruct (c =? sep)%Z; [done|]. by destruct (split_on sep t). Qed.

Lemma split_on_no_sep sep t : Forall (λ p, sep ∉ p) (split_on sep t).
Proof.
  induction t as [|c t IH]; simpl; [repeat constructor; set_solver|].
  destruct (Z.eqb_spec c sep); [by constructor; [set_solver|]|].
  destruct (split_on sep t) as [|p ps]; [repeat constructor; set_solver|].
  apply Forall_cons in IH as [Hp Hps]. constructor; [set_solver|done].
Qed.

Lemma split_on_whole sep a : sep ∉ a → split_on sep a = [a].
Proof.
  induction a as [|c a IH]; intros Hs; simpl; [done|].
  destruct (Z.eqb_spec c sep); [set_solver|]. by rewrite IH by set_solver.
Qed.

Lemma split_on_app sep a r : sep ∉ a → split_on sep (a ++ sep :: r) = a :: split_on sep r.
Proof.
  induction a as [|c a IH]; intros Hs; simpl; [by rewrite Z.eqb_refl|].
  destruct (Z.eqb_spec c sep); [set_solver|]. by rewrite IH by set_solver.
Qed.

(** Splitting a text at a separator, and at any other place. *)
Lemma split_on_cut sep x y : split_on sep (x ++ sep :: y) = split_on sep x ++ split_on sep y.
Proof.
  induction x as [|c x IH]; simpl; [by rewrite Z.eqb_refl|]. rewrite IH.
  destruct (c =? sep)%Z; [done|]. pose proof (split_on_nil sep x). by destruct (split_on sep x).
Qed.

Lemma split_on_snoc sep x : ∃ ps p, split_on sep x = ps ++ [p].
Proof.
  destruct (split_on sep x) as [|p ps _] eqn:E using rev_ind; [by apply split_on_nil in E|]. by exists ps, p.
Qed.

Lemma split_on_join sep x y ps p q qs : split_on sep x = ps ++ [p] → split_on sep y = q :: qs →
  split_on sep (x ++ y) = ps ++ (p ++ q) :: qs.
Proof.
  intros Hx Hy. revert ps p Hx. induction x as [|c x IH]; intros ps p Hx; simpl in Hx.
  - destruct ps as [|? [|]]; by simplify_eq/=.
  - simpl. destruct (c =? sep)%Z.
    + destruct ps as [|p' ps]; injection Hx as <- Hx; [by apply split_on_nil in Hx|]. by rewrite (IH ps p).
    + destruct (split_on_snoc sep x) as (ps0 & p0 & E). rewrite E in Hx. destruct ps0 as [|a ps0]; simpl in Hx.
      * apply (app_inj_tail [] ps) in Hx as [<- <-]. by rewrite (IH [] p0 E).
      * apply (app_inj_tail ((c :: a) :: ps0) ps) in Hx as [<- <-]. by rewrite (IH (a :: ps0) p0 E).
Qed.
