(* ===== verification/Memory.v ===== *)
(** * Long-term memory texts (src/src/memory.rs)

    MEMORY.md and USER.md are lists of entries separated by the section
    sign; the operations work on the entry lists and the caps on the rendered
    texts. *)

From S2P Require Import Prelude Text.

Inductive MemoryTarget := TargetMemory | TargetUser.
#[export] Instance MemoryTarget_eq_dec : EqDecision MemoryTarget.
Proof. solve_decision. Defined.

Inductive MemoryOp :=
| OpAdd (target : MemoryTarget) (entry : Text)
| OpReplace (target : MemoryTarget) (old_text new_text : Text)
| OpRemove (target : MemoryTarget) (old_text : Text).

Definition op_target (op : MemoryOp) : MemoryTarget :=
  match op with OpAdd t _ | OpReplace t _ _ | OpRemove t _ => t end.

Definition op_new_text (op : MemoryOp) : option Text :=
  match op with
  | OpAdd _ entry => Some entry
  | OpReplace _ _ new_text => Some new_text
  | OpRemove _ _ => None
  end.

Record MemoryUsage := {
  mu_chars : Z;
  mu_cap_chars : Z;
  mu_percent : Z;
  mu_entry_count : nat;
}.

Inductive MemoryMessage := EntryExists | EntryAdded | EntryReplaced | EntryRemoved.

Record MemoryApplyReport := {
  mr_memory : MemoryUsage;
  mr_user : MemoryUsage;
  mr_target : option MemoryTarget;
  mr_target_entries : list Text;
  mr_no_op : bool;
  mr_message : option MemoryMessage;
}.

Inductive MemoryError :=
| CapacityExceeded (target : MemoryTarget) (current cap need_free : Z) (current_entries : list Text)
| AmbiguousSubstring (target : MemoryTarget) (matches : nat) (needle : Text)
| ReservedDelimiter (target : MemoryTarget)
| EmptyEntry (target : MemoryTarget).

(** ** Entries *)

Definition parse_entries (t : Text) : list Text :=
  dedup (filter (λ e, e ≠ []) (trim <$> split_on section_sign t)).

Definition ENTRY_DELIMITER : Text := [line_feed; section_sign; line_feed].

Fixpoint join_texts (sep : Text) (l : list Text) : Text :=
  match l with
  | [] => []
  | [x] => x
  | x :: l' => x ++ sep ++ join_texts sep l'
  end.

Definition render_entries (entries : list Text) : Text := join_texts ENTRY_DELIMITER entries.

Definition char_count (t : Text) : Z := Z.of_nat (length t).

Definition usage_for_entries (entries : list Text) (cap_chars : Z) : MemoryUsage :=
  let chars := char_count (render_entries entries) in
  {| mu_chars := chars; mu_cap_chars := cap_chars;
     mu_percent := (if 0 <? cap_chars then Z.min ((Z.min u64_max (chars * 100)) / cap_chars) 100 else 0)%Z;
     mu_entry_count := length entries |}.

Definition ensure_no_reserved_delimiter (target : MemoryTarget) (text : option Text) :
    Result MemoryError unit :=
  match text with
  | Some t => if bool_decide (section_sign ∈ t) then Err (ReservedDelimiter target) else Ok tt
  | None => Ok tt
  end.

Definition trim_entry (target : MemoryTarget) (entry : Text) : Result MemoryError Text :=
  match trim entry with
  | [] => Err (EmptyEntry target)
  | trimmed => Ok trimmed
  end.

Definition matching (entries : list Text) (needle : Text) : list (nat * Text) :=
  filter (λ ie, text_contains needle ie.2) (imap pair entries).

Definition unique_match_index (entries : list Text) (target : MemoryTarget) (needle0 : Text) :
    Result MemoryError nat :=
  let needle := trim needle0 in
  if bool_decide (needle = []) then Err (AmbiguousSubstring target 0 needle)
  else match matching entries needle with
       | [] => Err (AmbiguousSubstring target 0 needle)
       | [(idx, _)] => Ok idx
       | ((idx, first) :: _) as many =>
           if bool_decide (Forall (λ ie, ie.2 = first) many) then Ok idx
           else Err (AmbiguousSubstring target (length many) needle)
       end.

Definition replace_unique (entries : list Text) (target : MemoryTarget) (old_text new_text : Text) :
    Result MemoryError (list Text) :=
  idx ← unique_match_index entries target old_text;
  Ok (<[idx := new_text]> entries).

Definition remove_unique (entries : list Text) (target : MemoryTarget) (old_text : Text) :
    Result MemoryError (list Text) :=
  idx ← unique_match_index entries target old_text;
  Ok (take idx entries ++ drop (S idx) entries).

Definition ensure_capacity (target : MemoryTarget) (entries : list Text) (cap : Z) :
    Result MemoryError unit :=
  let current := char_count (render_entries entries) in
  if (cap <? current)%Z
  then Err (CapacityExceeded target current cap (current - cap)%Z entries)
  else Ok tt.

(** Both entry lists, and the one an operation addresses. *)
Record Lists := { l_memory : list Text; l_user : list Text }.

Definition get_target (t : MemoryTarget) (l : Lists) : list Text :=
  match t with TargetMemory => l_memory l | TargetUser => l_user l end.

Definition set_target (t : MemoryTarget) (es : list Text) (l : Lists) : Lists :=
  match t with
  | TargetMemory => {| l_memory := es; l_user := l_user l |}
  | TargetUser => {| l_memory := l_memory l; l_user := es |}
  end.

(** The body of the loop of [apply_ops_to_texts]. *)
Definition apply_op (op : MemoryOp) (l : Lists) : Result MemoryError (Lists * MemoryMessage) :=
  _ ← ensure_no_reserved_delimiter (op_target op) (op_new_text op);
  match op with
  | OpAdd target entry =>
      trimmed ← trim_entry target entry;
      if bool_decide (trimmed ∈ get_target target l) then Ok (l, EntryExists)
      else Ok (set_target target (get_target target l ++ [trimmed]) l, EntryAdded)
  | OpReplace target old_text new_text =>
      trimmed ← trim_entry target new_text;
      es ← replace_unique (get_target target l) target old_text trimmed;
      Ok (set_target target es l, EntryReplaced)
  | OpRemove target old_text =>
      es ← remove_unique (get_target target l) target old_text;
      Ok (set_target target es l, EntryRemoved)
  end.

Fixpoint apply_loop (ops : list MemoryOp) (l : Lists) (last : option (MemoryTarget * MemoryMessage)) :
    Result MemoryError (Lists * option (MemoryTarget * MemoryMessage)) :=
  match ops with
  | [] => Ok (l, last)
  | op :: ops' =>
      lm ← apply_op op l;
      apply_loop ops' lm.1 (Some (op_target op, lm.2))
  end.

Definition apply_ops_to_texts (memory user : Text) (memory_cap_chars user_cap_chars : Z)
    (ops : list MemoryOp) : Result MemoryError (Text * Text * MemoryApplyReport) :=
  let l0 := {| l_memory := parse_entries memory; l_user := parse_entries user |} in
  let original_memory := render_entries (l_memory l0) in
  let original_user := render_entries (l_user l0) in
  done_ ← apply_loop ops l0 None;
  let memory_entries := dedup (l_memory done_.1) in
  let user_entries := dedup (l_user done_.1) in
  _ ← ensure_capacity TargetMemory memory_entries memory_cap_chars;
  _ ← ensure_capacity TargetUser user_entries user_cap_chars;
  let next_memory := render_entries memory_entries in
  let next_user := render_entries user_entries in
  let report :=
    {| mr_memory := usage_for_entries memory_entries memory_cap_chars;
       mr_user := usage_for_entries user_entries user_cap_chars;
       mr_target := fst <$> done_.2;
       mr_target_entries :=
         match done_.2 with
         | Some (t, _) => get_target t {| l_memory := memory_entries; l_user := user_entries |}
         | None => []
         end;
       mr_no_op := bool_decide (next_memory = original_memory) && bool_decide (next_user = original_user);
       mr_message := snd <$> done_.2 |} in
  Ok (next_memory, next_user, report).

Record MemorySnapshot := {
  ms_memory_text : Text; ms_user_text : Text;
  ms_memory_entries : list Text; ms_user_entries : list Text;
  ms_memory_usage : MemoryUsage; ms_user_usage : MemoryUsage;
}.

Definition snapshot_texts (memory user : Text) (memory_cap_chars user_cap_chars : Z) : MemorySnapshot :=
  let memory_entries := parse_entries memory in
  let user_entries := parse_entries user in
  {| ms_memory_text := render_entries memory_entries; ms_user_text := render_entries user_entries;
     ms_memory_entries := memory_entries; ms_user_entries := user_entries;
     ms_memory_usage := usage_for_entries memory_entries memory_cap_chars;
     ms_user_usage := usage_for_entries user_entries user_cap_chars |}.

(** [format_count] on the decimal digits of the value. *)
Fixpoint format_digits (first_group idx : nat) (raw : list Z) : list Z :=
  match raw with
  | [] => []
  | ch :: raw' =>
      (if bool_decide (0 < idx ∧ idx `mod` 3 = first_group) then [44%Z; ch] else [ch])
      ++ format_digits first_group (S idx) raw'
  end.

Definition format_count (raw : list Z) : list Z := format_digits (length raw `mod` 3) 0 raw.

(** ** Lemmas on trimming *)

Lemma trim_start_head t : match trim_start t with c :: _ => is_whitespace c = false | [] => True end.
Proof. induction t as [|c t IH]; simpl; [done|]. destruct (is_whitespace c) eqn:E; done. Qed.

Lemma trim_start_id t : (match t with c :: _ => is_whitespace c = false | [] => True end) → trim_start t = t.
Proof. destruct t as [|c t]; simpl; [done|]. by intros ->. Qed.

Lemma trim_start_suffix t : ∃ ws, t = ws ++ trim_start t ∧ Forall (λ c, is_whitespace c = true) ws.
Proof.
  induction t as [|c t (ws & Hws & Hall)]; simpl; [by exists []|].
  destruct (is_whitespace c) eqn:E; [|by exists []].
  exists (c :: ws). simpl. rewrite <-Hws. auto.
Qed.

Lemma trim_start_length t : length (trim_start t) ≤ length t.
Proof. induction t as [|c t IH]; simpl; [lia|]. destruct (is_whitespace c); simpl; lia. Qed.

Lemma trim_start_app_ws ws t : Forall (λ c, is_whitespace c = true) ws → trim_start (ws ++ t) = trim_start t.
Proof. induction 1 as [|c ws Hc Hws IH]; simpl; [done|]. by rewrite Hc. Qed.

(** A trimmed text neither starts nor ends with white space. *)
Definition trimmed (t : Text) : Prop := trim t = t.

Lemma trim_start_trim_end t : trim_start t = t → trim_start (trim_end t) = trim_end t.
Proof.
  intros Ht. apply trim_start_id. unfold trim_end.
  destruct (trim_start_suffix (reverse t)) as (ws & Heq & Hws).
  apply (f_equal reverse) in Heq. rewrite reverse_involutive, reverse_app in Heq.
  destruct (reverse (trim_start (reverse t))) as [|c l]; [done|]. rewrite Heq in Ht. simpl in Ht.
  destruct (is_whitespace c) eqn:E; [|done].
  exfalso. apply (f_equal length) in Ht. simpl in Ht.
  pose proof (trim_start_length (l ++ reverse ws)). lia.
Qed.

Lemma trim_idemp t : trim (trim t) = trim t.
Proof.
  unfold trim. rewrite trim_start_trim_end by apply trim_start_id, trim_start_head.
  unfold trim_end. rewrite reverse_involutive. f_equal. apply trim_start_id, trim_start_head.
Qed.

Lemma trim_sublist t c : c ∈ trim t → c ∈ t.
Proof.
  unfold trim, trim_end. intros Hc.
  destruct (trim_start_suffix t) as (ws & Ht & _).
  destruct (trim_start_suffix (reverse (trim_start t))) as (ws' & Ht' & _).
  rewrite Ht. apply elem_of_app. right. rewrite <-(reverse_involutive (trim_start t)), Ht'.
  rewrite reverse_app. apply elem_of_app. by left.
Qed.

(** White space around a trimmed, non-empty text is what trimming removes. *)
Lemma trim_surround ws1 ws2 t :
  Forall (λ c, is_whitespace c = true) ws1 → Forall (λ c, is_whitespace c = true) ws2 →
  trim (ws1 ++ t ++ ws2) = trim (t ++ ws2) ∧ (trimmed t → t ≠ [] → trim (t ++ ws2) = t).
Proof.
  intros H1 H2. split.
  - unfold trim. by rewrite trim_start_app_ws.
  - intros Ht Hne. unfold trimmed, trim in Ht.
    assert (Hst : trim_start t = t).
    { apply trim_start_id. pose proof (trim_start_head t) as Hh.
      destruct (trim_start_suffix t) as (ws & Heq & _).
      destruct t as [|c t]; [done|]. simpl in *. destruct (is_whitespace c) eqn:E; [|done].
      exfalso. apply (f_equal length) in Ht. unfold trim_end in Ht.
      rewrite length_reverse in Ht. simpl in Ht.
      pose proof (trim_start_length t). pose proof (trim_start_length (reverse (trim_start t))) as Hl.
      rewrite length_reverse in Hl. lia. }
    rewrite Hst in Ht.
    assert (trim_start (t ++ ws2) = t ++ ws2) as Hst2.
    { apply trim_start_id. destruct t as [|c t]; [done|]. simpl in *.
      destruct (is_whitespace c) eqn:E; [|done].
      pose proof (trim_start_head t) as Hh. rewrite Hst in Hh. congruence. }
    unfold trim. rewrite Hst2. unfold trim_end in *. rewrite reverse_app.
    rewrite trim_start_app_ws; [exact Ht|]. apply Forall_reverse, H2.
Qed.

(** ** Parsing and rendering *)

(** What parsing produces and rendering expects. *)
Definition entry_wf (e : Text) : Prop := trimmed e ∧ e ≠ [] ∧ section_sign ∉ e.
Definition entries_wf (es : list Text) : Prop := NoDup es ∧ Forall entry_wf es.

Lemma trim_entry_wf e : section_sign ∉ e → trim e ≠ [] → entry_wf (trim e).
Proof.
  intros Hs Hne. split_and!; [apply trim_idemp|done|]. by intros ?%trim_sublist.
Qed.

Lemma parse_entries_wf t : entries_wf (parse_entries t).
Proof.
  unfold parse_entries. split; [apply NoDup_dedup|]. apply Forall_forall.
  intros e [Hne (p & -> & Hp)%list_elem_of_fmap]%elem_of_dedup%list_elem_of_filter.
  apply trim_entry_wf; [|done].
  pose proof (split_on_no_sep section_sign t) as Hall. rewrite Forall_forall in Hall. by apply Hall.
Qed.

Lemma trim_padded pre post e :
  Forall (λ c, is_whitespace c = true) pre → Forall (λ c, is_whitespace c = true) post →
  entry_wf e → trim (pre ++ e ++ post) = e.
Proof.
  intros Hpre Hpost (Ht & Hne & _). destruct (trim_surround pre post e Hpre Hpost) as [-> H]. by apply H.
Qed.

Lemma split_render pre es :
  Forall (λ c, is_whitespace c = true) pre → section_sign ∉ pre → Forall entry_wf es → es ≠ [] →
  trim <$> split_on section_sign (pre ++ render_entries es) = es.
Proof.
  intros Hpre Hs Hes. revert pre Hpre Hs.
  induction Hes as [|e es He Hes IH]; intros pre Hpre Hs Hne; [done|].
  assert (Hlf : Forall (λ c, is_whitespace c = true) [line_feed]) by by repeat constructor.
  destruct es as [|e' es].
  - unfold render_entries. simpl. rewrite split_on_whole.
    + csimpl. f_equal. rewrite <-(app_nil_r (pre ++ e)), <-(assoc_L (++)). by apply trim_padded.
    + destruct He as (_ & _ & ?). set_solver.
  - change (render_entries (e :: e' :: es)) with (e ++ ENTRY_DELIMITER ++ render_entries (e' :: es)).
    unfold ENTRY_DELIMITER.
    replace (pre ++ e ++ [line_feed; section_sign; line_feed] ++ render_entries (e' :: es))
      with ((pre ++ e ++ [line_feed]) ++ section_sign :: [line_feed] ++ render_entries (e' :: es))
      by (by rewrite <-!(assoc_L (++))).
    rewrite split_on_app.
    + rewrite fmap_cons. f_equal; [by apply trim_padded|]. apply (IH [line_feed]); [done| |done].
      apply not_elem_of_cons. split; [done|set_solver].
    + destruct He as (_ & _ & ?). intros [?|[?|Hl]%elem_of_app]%elem_of_app; [done..|].
      apply list_elem_of_singleton in Hl. done.
Qed.

Lemma parse_render es : entries_wf es → parse_entries (render_entries es) = es.
Proof.
  intros [Hnd Hall]. unfold parse_entries. destruct (decide (es = [])) as [->|Hne]; [done|].
  rewrite <-(app_nil_l (render_entries es)), split_render; [|constructor|set_solver|done|done].
  assert (filter (λ e, e ≠ []) es = es) as ->.
  { clear Hnd Hne. induction Hall as [|e es (_ & He & _) Hes IH]; [done|].
    rewrite filter_cons, decide_True by done. by rewrite IH. }
  by apply dedup_id.
Qed.

(** ** Operations keep the entries well formed *)

Lemma unique_match_index_ok es target needle idx :
  unique_match_index es target needle = Ok idx →
  ∃ e, es !! idx = Some e ∧ text_contains (trim needle) e = true ∧
    ∀ j e', es !! j = Some e' → text_contains (trim needle) e' = true → e' = e.
Proof.
  unfold unique_match_index. case_bool_decide as Hn; [done|].
  assert (Hin : ∀ i e, (i, e) ∈ matching es (trim needle) ↔
    es !! i = Some e ∧ text_contains (trim needle) e = true).
  { intros i e. unfold matching. rewrite list_elem_of_filter. simpl. rewrite Is_true_true.
    rewrite elem_of_lookup_imap. naive_solver. }
  destruct (matching es (trim needle)) as [|[i e] rest] eqn:Hm; [done|].
  assert (Hi : es !! i = Some e ∧ text_contains (trim needle) e = true) by (apply Hin; by left).
  intros H.
  assert (Forall (λ ie, ie.2 = e) ((i, e) :: rest) ∧ idx = i) as [Hall ->].
  { destruct rest as [|r rest]; [injection H as <-; by repeat constructor|].
    destruct (decide (Forall (λ ie, ie.2 = e) ((i, e) :: r :: rest))) as [Hd|Hd].
    - rewrite bool_decide_true in H by done. by injection H as <-.
    - by rewrite bool_decide_false in H by done. }
  exists e. destruct Hi as [He Hc]. split_and!; [done..|]. intros j e' Hj Hc'.
  assert (Hje : (j, e') ∈ (i, e) :: rest) by by apply Hin.
  rewrite Forall_forall in Hall. by apply (Hall _ Hje).
Qed.

Definition lists_wf (l : Lists) : Prop := Forall entry_wf (l_memory l) ∧ Forall entry_wf (l_user l).

Lemma set_target_wf t es l : lists_wf l → Forall entry_wf es → lists_wf (set_target t es l).
Proof. intros [? ?] ?. by destruct t. Qed.

Lemma get_target_wf t l : lists_wf l → Forall entry_wf (get_target t l).
Proof. intros [? ?]. by destruct t. Qed.

Lemma trim_entry_ok target e t : trim_entry target e = Ok t → t = trim e ∧ t ≠ [].
Proof. unfold trim_entry. destruct (trim e); [done|]. by intros [= <-]. Qed.

Lemma apply_op_wf op l l' msg : apply_op op l = Ok (l', msg) → lists_wf l → lists_wf l'.
Proof.
  unfold apply_op. intros ([] & Hres & H)%result_bind_ok Hl.
  assert (Hnew : ∀ t e tr, op_new_text op = Some e → trim_entry t e = Ok tr → entry_wf tr).
  { intros t e tr Hop Htr. rewrite Hop in Hres. simpl in Hres. case_bool_decide as Hs; [done|].
    apply trim_entry_ok in Htr as [-> ?]. by apply trim_entry_wf. }
  destruct op as [t e|t o n|t o]; apply result_bind_ok in H as (x & Hx & H).
  - case_bool_decide; injection H as <- <-; [done|]. apply set_target_wf; [done|].
    apply Forall_app_2; [by apply get_target_wf|]. constructor; [|done]. by apply (Hnew t e).
  - apply result_bind_ok in H as (es & Hes & H). injection H as <- <-.
    apply set_target_wf; [done|]. unfold replace_unique in Hes.
    apply result_bind_ok in Hes as (idx & Hidx & Hes). injection Hes as <-.
    apply Forall_insert; [by apply get_target_wf|]. by apply (Hnew t n).
  - injection H as <- <-. apply set_target_wf; [done|]. unfold remove_unique in Hx.
    apply result_bind_ok in Hx as (idx & Hidx & Hx). injection Hx as <-.
    apply Forall_app_2; [apply Forall_take|apply Forall_drop]; by apply get_target_wf.
Qed.

Lemma apply_loop_wf ops : ∀ l last r,
  apply_loop ops l last = Ok r → lists_wf l → lists_wf r.1.
Proof.
  induction ops as [|op ops IH]; intros l last r H Hl; simpl in H; [by injection H as <-|].
  apply result_bind_ok in H as ([l' msg] & Hop & H). eapply IH; [exact H|]. by eapply apply_op_wf.
Qed.

Lemma dedup_entries_wf es : Forall entry_wf es → entries_wf (dedup es).
Proof.
  intros H. split; [apply NoDup_dedup|]. rewrite Forall_forall in *.
  intros e He. rewrite elem_of_dedup in He. by apply H.
Qed.

(** ** Properties *)

(** C38. Rendering and parsing are inverse on well-formed entry lists, and
    whatever text is on disk, parsing it gives a well-formed list (trimmed,
    non-empty, without the reserved sign, without duplicates) that rendering
    and parsing again leaves unchanged. *)
Theorem memory_roundtrip text :
  entries_wf (parse_entries text) ∧
  parse_entries (render_entries (parse_entries text)) = parse_entries text ∧
  (∀ es, entries_wf es → parse_entries (render_entries es) = es).
Proof.
  split_and!; [apply parse_entries_wf|apply parse_render, parse_entries_wf|apply parse_render].
Qed.

(** A batch that applies: both resulting texts are within their caps in
    Unicode characters, parse back to well-formed lists whose sizes and lengths
    are the ones reported, and [no_op] is reported exactly when neither
    normalised text changed. *)
Theorem apply_ops_result memory user cap_m cap_u ops m' u' report
    (H : apply_ops_to_texts memory user cap_m cap_u ops = Ok (m', u', report)) :
  (char_count m' ≤ cap_m)%Z ∧ (char_count u' ≤ cap_u)%Z ∧
  render_entries (parse_entries m') = m' ∧ render_entries (parse_entries u') = u' ∧
  mr_memory report = usage_for_entries (parse_entries m') cap_m ∧
  mr_user report = usage_for_entries (parse_entries u') cap_u ∧
  (mr_no_op report = true ↔
    m' = render_entries (parse_entries memory) ∧ u' = render_entries (parse_entries user)) ∧
  (∀ t, mr_target report = Some t →
    mr_target_entries report = parse_entries (match t with TargetMemory => m' | TargetUser => u' end)).
Proof.
  unfold apply_ops_to_texts in H. apply result_bind_ok in H as ([l last] & Hl & H).
  apply result_bind_ok in H as ([] & Hm & H). apply result_bind_ok in H as ([] & Hu & H).
  simpl in *.
  assert (lists_wf l) as [Hwm Hwu].
  { apply apply_loop_wf in Hl; [done|]. split; apply parse_entries_wf. }
  apply dedup_entries_wf in Hwm, Hwu. injection H as <- <- <-. simpl.
  rewrite !parse_render by done. unfold ensure_capacity in Hm, Hu.
  split_and!; try done.
  - destruct (Z.ltb_spec cap_m (char_count (render_entries (dedup (l_memory l))))); [done|lia].
  - destruct (Z.ltb_spec cap_u (char_count (render_entries (dedup (l_user l))))); [done|lia].
  - by rewrite andb_true_iff, !bool_decide_eq_true.
  - intros t Ht. destruct last as [[t' msg]|]; [|done]. simplify_eq/=. destruct t; by rewrite parse_render.
Qed.

(** Replacing and removing by substring never guess: a removal succeeds
    only when every entry that contains the trimmed needle is one and the same
    text, that entry is the one removed, and the other entries keep their
    order. *)
Theorem remove_unique_exact es target needle es'
    (H : remove_unique es target needle = Ok es') :
  ∃ before e after, es = before ++ e :: after ∧ es' = before ++ after ∧
    text_contains (trim needle) e = true ∧
    (∀ e', e' ∈ es → text_contains (trim needle) e' = true → e' = e) ∧
    (NoDup es → Forall (λ e', text_contains (trim needle) e' = false) es').
Proof.
  unfold remove_unique in H. apply result_bind_ok in H as (idx & Hidx & [= <-]).
  apply unique_match_index_ok in Hidx as (e & He & Hc & Huniq).
  exists (take idx es), e, (drop (S idx) es).
  assert (Hes : es = take idx es ++ e :: drop (S idx) es) by (symmetry; by apply take_drop_middle).
  assert (Hall : ∀ e', e' ∈ es → text_contains (trim needle) e' = true → e' = e).
  { intros e' [j Hj]%list_elem_of_lookup. by eapply Huniq. }
  split_and!; [done..|]. intros Hnd. apply Forall_forall. intros e' He'.
  destruct (text_contains (trim needle) e') eqn:Hc'; [|done]. exfalso.
  assert (e' ∈ es) as Hin by (rewrite Hes; set_solver).
  assert (e' = e) as -> by by apply Hall.
  rewrite Hes in Hnd. apply NoDup_app in Hnd as (_ & Hd & Hnd2). apply NoDup_cons in Hnd2 as [Hn _].
  apply elem_of_app in He' as [?|?]; [|done]. eapply Hd; [done|by left].
Qed.

Lemma apply_ops_result_witness :
  ∃ m' u' report, apply_ops_to_texts [97; 167; 32; 98; 98]%Z [] 20 5
      [OpAdd TargetMemory [32; 99]; OpReplace TargetMemory [98] [100]]%Z = Ok (m', u', report) ∧
    render_entries (parse_entries m') = m' ∧ mr_no_op report = false.
Proof.
  destruct (apply_ops_to_texts [97; 167; 32; 98; 98]%Z [] 20 5
      [OpAdd TargetMemory [32; 99]; OpReplace TargetMemory [98] [100]]%Z) as [[[m' u'] report]|] eqn:E;
    [|vm_compute in E; discriminate E].
  exists m', u', report. split; [done|].
  split; [apply (apply_ops_result _ _ _ _ _ _ _ _ E)|].
  vm_compute in E. injection E as <- <- <-. reflexivity.
Defined.

Lemma remove_unique_exact_witness :
  ∃ before e after, [[97]; [98; 99]; [100]]%Z = before ++ e :: after ∧ [[97]; [100]]%Z = before ++ after.
Proof.
  destruct (remove_unique_exact [[97]; [98; 99]; [100]]%Z TargetUser [32; 99]%Z [[97]; [100]]%Z)
    as (b & e & a & H1 & H2 & _); [vm_compute; reflexivity|].
  exists b, e, a. exact (conj H1 H2).
Defined.

Lemma memory_roundtrip_witness :
  parse_entries (render_entries [[97]; [98; 99]]%Z) = [[97]; [98; 99]]%Z.
Proof.
  apply (memory_roundtrip []). split.
  - vm_compute. repeat constructor; rewrite ?elem_of_cons, ?elem_of_nil; intuition discriminate.
  - repeat constructor; try discriminate; apply (bool_decide_eq_false_1 _); reflexivity.
Defined.
