(* ===== verification/MemorySafety.v ===== *)
(** * The safety scan of memory texts (src/src/memory_safety.rs)

    Texts bound for the long-term memory, or for claims shared with the team,
    are refused when they hold an invisible character or all the terms of a
    threat pattern.  The terms are looked for in the text with its letters in
    lower case and each run of white space as one space.  The lower case of a
    character is the standard library's; what is used of it is that white
    space comes from white space only. *)

From S2P Require Import Prelude Text Memory.

Inductive MemorySafetyError :=
| InvisibleUnicode (codepoint : Z)
| ThreatPatternFound (pattern_id : string).

#[export] Instance MemorySafetyError_eq_dec : EqDecision MemorySafetyError.
Proof. solve_decision. Defined.

Definition in_range (lo hi c : Z) : bool := ((lo <=? c) && (c <=? hi))%Z.

Definition is_invisible_injection_char (ch : Z) : bool :=
  if (ch =? 9)%Z || (ch =? 10)%Z || (ch =? 13)%Z then false
  else in_range 0x0 0x1F ch || in_range 0x7F 0x9F ch || (ch =? 0xAD)%Z || (ch =? 0x34F)%Z
    || (ch =? 0x61C)%Z || (ch =? 0x6DD)%Z || (ch =? 0x70F)%Z || (ch =? 0x890)%Z || (ch =? 0x891)%Z
    || (ch =? 0x8E2)%Z || (ch =? 0x180E)%Z || in_range 0x1BCA 0x1BCD ch || in_range 0x1D173 0x1D17A ch
    || in_range 0x200B 0x200F ch || in_range 0x202A 0x202E ch || in_range 0x2060 0x206F ch
    || in_range 0xFE00 0xFE0F ch || (ch =? 0xFEFF)%Z || in_range 0xFFF9 0xFFFB ch
    || in_range 0xE0100 0xE01EF ch.

Record ThreatPattern := { tp_id : string; tp_terms : list Text }.

Definition pattern (id : string) (terms : list string) : ThreatPattern :=
  {| tp_id := id; tp_terms := lit <$> terms |}.

Definition pattern_matches (p : ThreatPattern) (text : Text) : bool :=
  forallb (λ term, text_contains term text) (tp_terms p).

Definition THREAT_PATTERNS : list ThreatPattern :=
  [
   pattern "prompt_injection" ["ignore"; "instructions"];
   pattern "role_hijack" ["you are now"];
   pattern "deception_hide" ["do not tell"; "user"];
   pattern "sys_prompt_override" ["system prompt"; "override"];
   pattern "sys_prompt_override" ["override"; "previous"; "rules"];
   pattern "disregard_rules" ["disregard"; "instructions"];
   pattern "disregard_rules" ["disregard"; "rules"];
   pattern "bypass_restrictions" ["act as if"; "no"; "restrictions"];
   pattern "bypass_restrictions" ["act as though"; "no"; "rules"];
   pattern "exfil_curl" ["curl"; "$"; "key"];
   pattern "exfil_curl" ["curl"; "$"; "token"];
   pattern "exfil_curl" ["curl"; "$"; "secret"];
   pattern "exfil_curl" ["curl"; "$"; "password"];
   pattern "exfil_curl" ["curl"; "$"; "credential"];
   pattern "exfil_curl" ["curl"; "api_key"];
   pattern "exfil_curl" ["curl"; "token="];
   pattern "exfil_wget" ["wget"; "$"; "key"];
   pattern "exfil_wget" ["wget"; "$"; "token"];
   pattern "exfil_wget" ["wget"; "$"; "secret"];
   pattern "exfil_upload" ["curl"; ".env"];
   pattern "exfil_upload" ["curl"; "credentials"];
   pattern "exfil_upload" ["curl"; "id_rsa"];
   pattern "exfil_upload" ["curl"; ".netrc"];
   pattern "exfil_upload" ["curl"; ".npmrc"];
   pattern "exfil_upload" ["curl"; ".pypirc"];
   pattern "exfil_upload" ["wget"; ".env"];
   pattern "exfil_upload" ["wget"; "credentials"];
   pattern "exfil_upload" ["wget"; "id_rsa"];
   pattern "read_secrets" ["cat"; ".env"];
   pattern "read_secrets" ["cat"; "credentials"];
   pattern "read_secrets" ["cat"; ".netrc"];
   pattern "read_secrets" ["cat"; ".pgpass"];
   pattern "read_secrets" ["cat"; ".npmrc"];
   pattern "read_secrets" ["cat"; ".pypirc"];
   pattern "read_secrets" ["cat"; "id_rsa"];
   pattern "read_secrets" ["cat"; ".aws/config"];
   pattern "ssh_backdoor" ["authorized_keys"];
   pattern "ssh_access" ["$home/.ssh"];
   pattern "ssh_access" ["~/.ssh"]].

Section scan.
Context (to_lowercase : Z → Text).

(** The loop over [content.chars().flat_map(char::to_lowercase)]. *)
Fixpoint normalize_loop (last_was_space : bool) (chars : Text) : Text :=
  match chars with
  | [] => []
  | ch :: chars' =>
      if is_whitespace ch then
        if last_was_space then normalize_loop true chars' else 32%Z :: normalize_loop true chars'
      else ch :: normalize_loop false chars'
  end.

Definition normalize_for_scan (content : Text) : Text :=
  normalize_loop false (content ≫= to_lowercase).

Definition scan_memory_content (content : Text) : Result MemorySafetyError unit :=
  match list_find (λ ch, is_invisible_injection_char ch = true) content with
  | Some (_, ch) => Err (InvisibleUnicode ch)
  | None =>
      match list_find (λ p, pattern_matches p (normalize_for_scan content) = true) THREAT_PATTERNS with
      | Some (_, p) => Err (ThreatPatternFound (tp_id p))
      | None => Ok tt
      end
  end.

Fixpoint scan_memory_ops (ops : list MemoryOp) : Result MemorySafetyError unit :=
  match ops with
  | [] => Ok tt
  | OpAdd _ entry :: ops' => _ ← scan_memory_content entry; scan_memory_ops ops'
  | OpReplace _ _ new_text :: ops' => _ ← scan_memory_content new_text; scan_memory_ops ops'
  | OpRemove _ _ :: ops' => scan_memory_ops ops'
  end.

(** ** Facts *)

Lemma scan_ok content : scan_memory_content content = Ok tt ↔
  Forall (λ ch, is_invisible_injection_char ch = false) content ∧
  ∀ p, p ∈ THREAT_PATTERNS → pattern_matches p (normalize_for_scan content) = false.
Proof.
  unfold scan_memory_content. split.
  - destruct (list_find _ content) as [[]|] eqn:E1; [done|].
    destruct (list_find _ THREAT_PATTERNS) as [[]|] eqn:E2; [done|]. intros _.
    apply list_find_None in E1, E2. rewrite Forall_forall in E2. split.
    + eapply Forall_impl; [exact E1|]. intros c. apply not_true_is_false.
    + intros p Hp. by apply not_true_is_false, E2.
  - intros [H1 H2].
    destruct (list_find _ content) as [[i c]|] eqn:E1.
    { apply list_find_Some in E1 as (Hi & Hc & _). apply list_elem_of_lookup_2 in Hi.
      rewrite Forall_forall in H1. by rewrite (H1 _ Hi) in Hc. }
    destruct (list_find _ THREAT_PATTERNS) as [[i p]|] eqn:E2; [|done].
    apply list_find_Some in E2 as (Hi & Hp & _). apply list_elem_of_lookup_2 in Hi. by rewrite H2 in Hp.
Qed.

Lemma scan_ops_ok ops : scan_memory_ops ops = Ok tt ↔
  ∀ op t, op ∈ ops → op_new_text op = Some t → scan_memory_content t = Ok tt.
Proof.
  induction ops as [|[tg e|tg o n|tg o] ops IH]; simpl; [set_solver|..].
  - destruct (scan_memory_content e) as [[]|err] eqn:E; mrun; simpl; rewrite ?IH.
    + set_solver.
    + split; [done|]. intros H. rewrite (H _ e (list_elem_of_here _ _) eq_refl) in E. done.
  - destruct (scan_memory_content n) as [[]|err] eqn:E; mrun; simpl; rewrite ?IH.
    + set_solver.
    + split; [done|]. intros H. rewrite (H _ n (list_elem_of_here _ _) eq_refl) in E. done.
  - rewrite IH. set_solver.
Qed.

Lemma text_starts_app p t r : text_starts_with p t = true → text_starts_with p (t ++ r) = true.
Proof.
  revert t. induction p as [|a p IH]; intros [|b t]; simpl; try done.
  intros [-> Hp]%andb_prop. simpl. by apply IH.
Qed.

Lemma text_contains_app p l t r : text_contains p t = true → text_contains p (l ++ t ++ r) = true.
Proof.
  intros Ht. induction l as [|a l IH]; simpl.
  - induction t as [|b t IHt]; simpl in *.
    + destruct p; [by destruct r|done].
    + apply orb_prop in Ht as [Ht|Ht]; apply orb_true_iff; [left|right; by apply IHt].
      destruct p as [|c p]; [done|]. simpl in *. apply andb_prop in Ht as [-> Ht].
      simpl. by apply text_starts_app.
  - rewrite IH. by rewrite orb_true_r.
Qed.
End scan.
