(* ===== verification/ReadState.v ===== *)
(** * Read evidence of the file tools (src/src/tool/read_state.rs)

    What each caller has read of each file, at which content revision, in
    which line ranges; a write is permitted only against fresh evidence.  The
    store is bounded, and a turn can be rolled back through a checkpoint.
    The mutex makes every operation atomic, so each is one function here. *)

From S2P Require Import Prelude.

(** A path by its components ([std::path]); prefixes are of another platform. *)
Inductive Component := RootDir | CurDir | ParentDir | Normal (name : string).

#[export] Instance Component_eq_dec : EqDecision Component.
Proof. solve_decision. Defined.
#[export] Instance Component_countable : Countable Component.
Proof.
  refine (inj_countable'
    (λ c, match c with Normal n => inl n | RootDir => inr 0 | CurDir => inr 1 | ParentDir => inr 2 end)
    (λ x, match x with inl n => Normal n | inr 0 => RootDir | inr 1 => CurDir | inr _ => ParentDir end) _).
  by intros [].
Defined.

Definition Path : Type := list Component.

Definition READ_STATE_MAX_ENTRIES : nat := 1024.
Definition READ_STATE_MAX_RANGES_PER_FILE : nat := 256.

Record ContentRevision := { sha256 : string; byte_len : Z }.
#[export] Instance ContentRevision_eq_dec : EqDecision ContentRevision.
Proof. solve_decision. Defined.

(** ** Line ranges *)

Record LineRange := { lr_start : Z; lr_end : Z }.

Definition LineRange_new (start end_ : Z) : option LineRange :=
  if (0 <? start)%Z && (start <=? end_)%Z then Some {| lr_start := start; lr_end := end_ |} else None.

Definition touches (self other : LineRange) : bool :=
  (lr_start self <=? sat_add u64_max (lr_end other) 1)%Z &&
  (lr_start other <=? sat_add u64_max (lr_end self) 1)%Z.

Definition merge (self other : LineRange) : LineRange :=
  {| lr_start := Z.min (lr_start self) (lr_start other); lr_end := Z.max (lr_end self) (lr_end other) |}.

Definition range_contains (self : LineRange) (start end_ : Z) : bool :=
  (lr_start self <=? start)%Z && (end_ <=? lr_end self)%Z.

Definition range_cmp : LineRange → LineRange → comparison :=
  cmp_then (cmp_on lr_start Z.compare) (cmp_on lr_end Z.compare).

(** The loop of [merge_ranges]: [merged] is kept in reverse, its last element
    at the head. *)
Fixpoint merge_loop (merged : list LineRange) (ranges : list LineRange) : list LineRange :=
  match ranges with
  | [] => reverse merged
  | range :: ranges' =>
      match merged with
      | last :: rest =>
          if touches last range then merge_loop (merge last range :: rest) ranges'
          else merge_loop (range :: merged) ranges'
      | [] => merge_loop [range] ranges'
      end
  end.

Definition merge_ranges (ranges : list LineRange) : list LineRange :=
  merge_loop [] (sort_by range_cmp ranges).

Definition covers_whole_file (ranges : list LineRange) (total_lines : Z) : bool :=
  match ranges with
  | [r] => (0 <? total_lines)%Z && (lr_start r =? 1)%Z && (lr_end r =? total_lines)%Z
  | _ => false
  end.

(** [logical_line_count] on the bytes of the text. *)
Definition logical_line_count (text : list Z) : Z :=
  match text with
  | [] => 0%Z
  | _ => sat_add u64_max (Z.of_nat (length (filter (λ b, b = 10%Z) text)))
           (if decide (last text = Some 10%Z) then 0 else 1)
  end.

(** ** Evidence, state and authority *)

Record ReadEvidence := {
  re_path : Path;
  re_revision : ContentRevision;
  re_total_lines : Z;
  re_ends_with_newline : bool;
  re_ranges : list LineRange;
  re_complete : bool;
}.

Section evidence.
(** The SHA-256 digest in hexadecimal (crates ring and hex). *)
Context (sha256_hex : list Z → string).

Definition ContentRevision_from_bytes (bytes : list Z) : ContentRevision :=
  {| sha256 := sha256_hex bytes; byte_len := Z.min u64_max (Z.of_nat (length bytes)) |}.

Definition complete_text (path : Path) (text : list Z) : ReadEvidence :=
  let total_lines := logical_line_count text in
  {| re_path := path; re_revision := ContentRevision_from_bytes text; re_total_lines := total_lines;
     re_ends_with_newline := bool_decide (last text = Some 10%Z);
     re_ranges := option_list (LineRange_new 1 total_lines); re_complete := true |}.

Definition known_ranges (path : Path) (text : list Z) (ranges : list LineRange) (complete : bool) :
    ReadEvidence :=
  {| re_path := path; re_revision := ContentRevision_from_bytes text;
     re_total_lines := logical_line_count text;
     re_ends_with_newline := bool_decide (last text = Some 10%Z);
     re_ranges := ranges; re_complete := complete |}.
End evidence.

Record FileReadState := {
  frs_revision : ContentRevision;
  frs_total_lines : Z;
  frs_ends_with_newline : bool;
  frs_ranges : list LineRange;
  frs_complete : bool;
}.

Record ReadAuthority := {
  ra_total_lines : Z;
  ra_ends_with_newline : bool;
  ra_ranges : list LineRange;
  ra_complete : bool;
}.

Definition covers (a : ReadAuthority) (start end_ : Z) : bool :=
  ra_complete a || existsb (λ r, range_contains r start end_) (ra_ranges a).

Definition has_eof (a : ReadAuthority) : bool :=
  ra_complete a
  || ((0 <? ra_total_lines a)%Z && existsb (λ r, (lr_end r =? ra_total_lines a)%Z) (ra_ranges a)).

Inductive ReadStateVerdict := Missing | Fresh (a : ReadAuthority) | Stale.

(** ** The store *)

Record ReadStateScope := { rs_session_id : option string; rs_caller_id : option string }.
#[export] Instance ReadStateScope_eq_dec : EqDecision ReadStateScope.
Proof. solve_decision. Defined.
#[export] Instance ReadStateScope_countable : Countable ReadStateScope.
Proof.
  refine (inj_countable' (λ s, (rs_session_id s, rs_caller_id s))
    (λ p, {| rs_session_id := p.1; rs_caller_id := p.2 |}) _). by intros [].
Defined.

Abbreviation ReadStateKey := (ReadStateScope * Path)%type.

Record ReadStateCheckpoint := {
  cp_turn_id : string;
  cp_before : gmap ReadStateKey (option FileReadState);
}.

Record Inner := {
  in_map : gmap ReadStateKey FileReadState;
  in_order : list ReadStateKey;
  in_checkpoints : gmap ReadStateScope ReadStateCheckpoint;
}.

Definition ReadStateStore_default : Inner := {| in_map := ∅; in_order := []; in_checkpoints := ∅ |}.

Definition set_checkpoints cps (s : Inner) : Inner :=
  {| in_map := in_map s; in_order := in_order s; in_checkpoints := cps |}.

Inductive CheckpointError := AlreadyActive (turn_id : string) | OwnerMismatch (expected : string) | NoCheckpoint.

Definition begin_checkpoint (scope : ReadStateScope) (turn_id : string) (s : Inner) :
    Result CheckpointError Inner :=
  match in_checkpoints s !! scope with
  | Some existing => Err (AlreadyActive (cp_turn_id existing))
  | None => Ok (set_checkpoints
      (<[scope := {| cp_turn_id := turn_id; cp_before := ∅ |}]> (in_checkpoints s)) s)
  end.

Definition ensure_checkpoint_owner (s : Inner) (scope : ReadStateScope) (turn_id : string) :
    Result CheckpointError unit :=
  match in_checkpoints s !! scope with
  | Some cp => if bool_decide (cp_turn_id cp = turn_id) then Ok tt else Err (OwnerMismatch (cp_turn_id cp))
  | None => Err NoCheckpoint
  end.

Definition commit_checkpoint (scope : ReadStateScope) (turn_id : string) (s : Inner) :
    Result CheckpointError Inner :=
  _ ← ensure_checkpoint_owner s scope turn_id;
  Ok (set_checkpoints (delete scope (in_checkpoints s)) s).

(** [entry(key).or_insert(before)] on the checkpoint of the owner, if any. *)
Definition capture_before (owner : ReadStateScope) (key : ReadStateKey) (s : Inner) : Inner :=
  let before := in_map s !! key in
  match in_checkpoints s !! owner with
  | Some cp =>
      match cp_before cp !! key with
      | Some _ => s
      | None => set_checkpoints (<[owner :=
          {| cp_turn_id := cp_turn_id cp; cp_before := <[key := before]> (cp_before cp) |}]>
          (in_checkpoints s)) s
      end
  | None => s
  end.

Definition remove_key (key : ReadStateKey) (s : Inner) : Inner :=
  {| in_map := delete key (in_map s); in_order := filter (λ k, k ≠ key) (in_order s);
     in_checkpoints := in_checkpoints s |}.

Definition insert_state_untracked (key : ReadStateKey) (state : FileReadState) (s : Inner) : Inner :=
  {| in_map := <[key := state]> (in_map s);
     in_order := match in_map s !! key with Some _ => in_order s | None => in_order s ++ [key] end;
     in_checkpoints := in_checkpoints s |}.

(** The eviction loop of [insert_state]. *)
Fixpoint evict_loop (fuel : nat) (owner : ReadStateScope) (s : Inner) : Inner :=
  match fuel with
  | O => s
  | S fuel' =>
      if bool_decide (READ_STATE_MAX_ENTRIES < length (in_order s)) then
        match in_order s with
        | evicted :: _ => evict_loop fuel' owner (remove_key evicted (capture_before owner evicted s))
        | [] => s
        end
      else s
  end.

Definition insert_state (owner : ReadStateScope) (key : ReadStateKey) (state : FileReadState) (s : Inner) : Inner :=
  let s1 := insert_state_untracked key state s in
  evict_loop (length (in_order s1)) owner s1.

(** [enforce_capacity] pops from the front. *)
Fixpoint enforce_loop (order : list ReadStateKey) (m : gmap ReadStateKey FileReadState) :
    gmap ReadStateKey FileReadState * list ReadStateKey :=
  if bool_decide (READ_STATE_MAX_ENTRIES < length order) then
    match order with
    | evicted :: order' => enforce_loop order' (delete evicted m)
    | [] => (m, order)
    end
  else (m, order).

Definition enforce_capacity (s : Inner) : Inner :=
  let '(m, order) := enforce_loop (in_order s) (in_map s) in
  {| in_map := m; in_order := order; in_checkpoints := in_checkpoints s |}.

Definition restore_one (s : Inner) (kv : ReadStateKey * option FileReadState) : Inner :=
  match kv.2 with Some state => insert_state_untracked kv.1 state s | None => s end.

Definition rollback_checkpoint (scope : ReadStateScope) (turn_id : string) (s : Inner) :
    Result CheckpointError Inner :=
  _ ← ensure_checkpoint_owner s scope turn_id;
  match in_checkpoints s !! scope with
  | None => Ok s
  | Some cp =>
      let images := map_to_list (cp_before cp) in
      let s0 := set_checkpoints (delete scope (in_checkpoints s)) s in
      let s1 := fold_left (λ s k, remove_key k s) images.*1 s0 in
      let s2 := fold_left restore_one images s1 in
      Ok (enforce_capacity s2)
  end.

(** The state that [record] computes from the previous one. *)
Definition record_state (old : option FileReadState) (e : ReadEvidence) : FileReadState :=
  let state := match old with
    | Some existing => if bool_decide (frs_revision existing = re_revision e) then existing
        else {| frs_revision := re_revision e; frs_total_lines := re_total_lines e;
                frs_ends_with_newline := re_ends_with_newline e; frs_ranges := []; frs_complete := false |}
    | None => {| frs_revision := re_revision e; frs_total_lines := re_total_lines e;
                 frs_ends_with_newline := re_ends_with_newline e; frs_ranges := []; frs_complete := false |}
    end in
  let ranges := merge_ranges (frs_ranges state ++ re_ranges e) in
  let complete := frs_complete state || re_complete e in
  {| frs_revision := frs_revision state; frs_total_lines := re_total_lines e;
     frs_ends_with_newline := re_ends_with_newline e; frs_ranges := ranges;
     frs_complete := complete || covers_whole_file ranges (re_total_lines e) |}.

Definition record (scope : ReadStateScope) (e : ReadEvidence) (s : Inner) : Inner :=
  let key := (scope, re_path e) in
  let s1 := capture_before scope key s in
  let state := record_state (in_map s1 !! key) e in
  if bool_decide (READ_STATE_MAX_RANGES_PER_FILE < length (frs_ranges state))
  then remove_key key s1
  else insert_state scope key state s1.

Definition authority_of (state : FileReadState) : ReadAuthority :=
  {| ra_total_lines := frs_total_lines state; ra_ends_with_newline := frs_ends_with_newline state;
     ra_ranges := frs_ranges state; ra_complete := frs_complete state |}.

Definition evaluate (scope : ReadStateScope) (path : Path) (revision : ContentRevision) (s : Inner) :
    ReadStateVerdict * Inner :=
  let key := (scope, path) in
  match in_map s !! key with
  | None => (Missing, s)
  | Some state =>
      if bool_decide (frs_revision state = revision) then (Fresh (authority_of state), s)
      else (Stale, remove_key key (capture_before scope key s))
  end.

Definition clear_path (scope : ReadStateScope) (path : Path) (s : Inner) : Inner :=
  let key := (scope, path) in
  remove_key key (capture_before scope key s).

Definition clear_matching (P : ReadStateKey → bool) (s : Inner) : Inner :=
  {| in_map := filter (λ kv, P kv.1 = false) (in_map s);
     in_order := filter (λ k, P k = false) (in_order s);
     in_checkpoints := (λ cp, {| cp_turn_id := cp_turn_id cp;
       cp_before := filter (λ kv, P kv.1 = false) (cp_before cp) |}) <$> in_checkpoints s |}.

Definition clear_scope (scope : ReadStateScope) : Inner → Inner :=
  clear_matching (λ k, bool_decide (k.1 = scope)).

Definition clear_session (session_id : string) : Inner → Inner :=
  clear_matching (λ k, bool_decide (rs_session_id k.1 = Some session_id)).

(** ** Merging ranges *)

Definition range_ok (r : LineRange) : Prop := (1 ≤ lr_start r ≤ lr_end r ∧ lr_end r ≤ u64_max)%Z.
Definition line_in (l : Z) (rs : list LineRange) : Prop :=
  ∃ r, r ∈ rs ∧ (lr_start r ≤ l ≤ lr_end r)%Z.

(** Sorted, and separated by at least one uncovered line. *)
Definition apart : relation LineRange := λ a b, (lr_end a + 1 < lr_start b)%Z.
Definition normalized (rs : list LineRange) : Prop := StronglySorted apart rs ∧ Forall range_ok rs.

Lemma touches_spec a b :
  range_ok a → range_ok b → (lr_start a ≤ lr_start b)%Z →
  touches a b = true ↔ (lr_start b ≤ lr_end a + 1)%Z.
Proof.
  unfold range_ok, touches, sat_add. intros Ha Hb Hab. rewrite andb_true_iff, !Z.leb_le. lia.
Qed.

Lemma line_in_cons l r rs : line_in l (r :: rs) ↔ (lr_start r ≤ l ≤ lr_end r)%Z ∨ line_in l rs.
Proof. unfold line_in. setoid_rewrite elem_of_cons. naive_solver. Qed.

Lemma line_in_perm l rs1 rs2 : rs1 ≡ₚ rs2 → line_in l rs1 ↔ line_in l rs2.
Proof. intros H. unfold line_in. by setoid_rewrite H. Qed.

Lemma StronglySorted_reverse {A} (R : relation A) l :
  StronglySorted (flip R) l → StronglySorted R (reverse l).
Proof.
  induction 1 as [|x l Hl IH Hx]; [constructor|]. rewrite reverse_cons.
  apply StronglySorted_app_2; [|done|repeat constructor].
  intros y z Hy Hz. apply list_elem_of_singleton in Hz as ->. rewrite elem_of_reverse in Hy.
  rewrite Forall_forall in Hx. by apply Hx.
Qed.

Lemma merge_loop_spec ranges : ∀ merged,
  StronglySorted (flip apart) merged → Forall range_ok merged → Forall range_ok ranges →
  StronglySorted (λ a b, lr_start a ≤ lr_start b)%Z ranges →
  (∀ last rest r, merged = last :: rest → r ∈ ranges → (lr_start last ≤ lr_start r)%Z) →
  normalized (merge_loop merged ranges) ∧
  ∀ l, line_in l (merge_loop merged ranges) ↔ line_in l merged ∨ line_in l ranges.
Proof.
  induction ranges as [|r ranges IH]; intros merged Hs Hok Hrok Hsr Hle; simpl.
  - split; [split; [by apply StronglySorted_reverse|by apply Forall_reverse]|].
    intros l. rewrite (line_in_perm l (reverse merged) merged) by apply reverse_Permutation.
    split; [by left|]. intros [?|(? & ?%elem_of_nil & _)]; done.
  - apply Forall_cons in Hrok as [Hr Hrok]. apply StronglySorted_cons in Hsr as [Hhd Hsr].
    rewrite Forall_forall in Hhd.
    destruct merged as [|lst rest].
    + destruct (IH [r]) as [Hn Hl]; [repeat constructor|by constructor|done|done| |].
      { intros ? ? r' [= <- <-] Hr'. by apply Hhd. }
      split; [done|]. intros l. rewrite Hl, !line_in_cons. unfold line_in at 1 3.
      setoid_rewrite elem_of_nil. naive_solver.
    + apply Forall_cons in Hok as [Hlok Hok]. apply StronglySorted_cons in Hs as [Hlr Hs].
      assert (Hlst : (lr_start lst ≤ lr_start r)%Z) by (apply (Hle lst rest); [done|by left]).
      destruct (touches lst r) eqn:Ht.
      * apply touches_spec in Ht; [|done..]. unfold range_ok in *.
        destruct (IH (merge lst r :: rest)) as [Hn Hl]; [| |done|done| |].
        -- constructor; [done|]. eapply Forall_impl; [exact Hlr|]. intros x.
           unfold flip, apart, merge. simpl. lia.
        -- constructor; [unfold range_ok, merge; simpl; lia|done].
        -- intros ? ? r' [= <- <-] Hr'. simpl. specialize (Hhd _ Hr'). lia.
        -- split; [done|]. intros l. rewrite Hl, !line_in_cons.
           assert ((lr_start (merge lst r) ≤ l ≤ lr_end (merge lst r))%Z ↔
             (lr_start lst ≤ l ≤ lr_end lst)%Z ∨ (lr_start r ≤ l ≤ lr_end r)%Z) by (simpl; lia).
           tauto.
      * assert (Hnt : ¬ (lr_start r ≤ lr_end lst + 1)%Z)
          by (rewrite <-touches_spec by done; by rewrite Ht).
        destruct (IH (r :: lst :: rest)) as [Hn Hl]; [| |done|done| |].
        -- constructor; [by constructor|]. constructor; [unfold flip, apart; lia|].
           eapply Forall_impl; [exact Hlr|]. unfold range_ok, flip, apart in *. intros x. simpl. lia.
        -- constructor; [done|]. by constructor.
        -- intros ? ? r' [= <- <-] Hr'. by apply Hhd.
        -- split; [done|]. intros l. rewrite Hl, !line_in_cons. tauto.
Qed.

Lemma merge_ranges_spec rs : Forall range_ok rs →
  normalized (merge_ranges rs) ∧ ∀ l, line_in l (merge_ranges rs) ↔ line_in l rs.
Proof.
  intros Hok. destruct (merge_loop_spec (sort_by range_cmp rs) []) as [Hn Hl].
  - constructor.
  - constructor.
  - by rewrite sort_by_perm.
  - assert (Hs : StronglySorted (cmp_le range_cmp) (sort_by range_cmp rs))
      by (apply sort_by_sorted; unfold range_cmp; apply _).
    induction Hs as [|r l Hl IH Hr]; constructor; [done|].
    eapply Forall_impl; [exact Hr|]. intros r'. unfold cmp_le, range_cmp, cmp_then, cmp_on.
    destruct (Z.compare_spec (lr_start r) (lr_start r')); [lia|lia|done].
  - done.
  - split; [done|]. intros l. unfold merge_ranges. rewrite Hl.
    rewrite (line_in_perm l (sort_by range_cmp rs) rs) by apply sort_by_perm.
    split; [|by right]. intros [(? & ?%elem_of_nil & _)|?]; done.
Qed.

(** In a normalized list, an interval whose every line is covered lies within
    one range. *)
Lemma normalized_covers rs a b : normalized rs → (a ≤ b)%Z →
  existsb (λ r, range_contains r a b) rs = true ↔ ∀ l, (a ≤ l ≤ b)%Z → line_in l rs.
Proof.
  intros [Hs Hok] Hab. rewrite existsb_exists. split.
  - intros (r & Hin & Hc) l Hl. unfold range_contains in Hc. rewrite andb_true_iff, !Z.leb_le in Hc.
    exists r. split; [by apply list_elem_of_In|lia].
  - intros Hall. destruct (Hall a) as (r & Hin & Hr); [lia|].
    exists r. split; [by apply list_elem_of_In|]. unfold range_contains.
    rewrite andb_true_iff, !Z.leb_le. split; [lia|].
    destruct (Z.le_gt_cases b (lr_end r)) as [?|Hgt]; [done|exfalso].
    destruct (Hall (lr_end r + 1)%Z) as (r' & Hin' & Hr'); [lia|].
    assert (Hord : r = r' ∨ apart r r' ∨ apart r' r).
    { clear -Hs Hin Hin'. induction Hs as [|x l Hl IH Hx]; [set_solver|].
      rewrite Forall_forall in Hx. apply elem_of_cons in Hin as [->|Hin], Hin' as [->|Hin']; auto. }
    unfold apart in Hord. rewrite Forall_forall in Hok. pose proof (Hok _ Hin) as H1.
    pose proof (Hok _ Hin') as H2. unfold range_ok in *. destruct Hord as [->|[?|?]]; lia.
Qed.

Lemma normalized_cons r rs : normalized (r :: rs) → range_ok r ∧ normalized rs ∧ ∀ l, line_in l rs → (lr_end r + 1 < l)%Z.
Proof.
  intros [Hs Hok].
  apply StronglySorted_cons in Hs as [Hr Hs]. apply Forall_cons in Hok as [Hok Hoks].
  split; [done|]. split; [done|]. intros l (x & Hx & Hl). rewrite Forall_forall in Hr. specialize (Hr x Hx). unfold apart in Hr. lia.
Qed.

(** Ranges in normal form are determined by their lines. *)
Lemma normalized_unique a : ∀ b, normalized a → normalized b → (∀ l, line_in l a ↔ line_in l b) → a = b.
Proof.
  assert (Hno : ∀ l, ¬ line_in l []) by (intros l (r & ?%not_elem_of_nil & _); done).
  assert (Hne : ∀ r rs, normalized (r :: rs) → ¬ ∀ l, line_in l (r :: rs) ↔ line_in l []).
  { intros r rs [Hr _]%normalized_cons H. apply (Hno (lr_start r)), H, line_in_cons. left. unfold range_ok in Hr. lia. }
  induction a as [|r1 a IH]; intros [|r2 b] Ha Hb Heq; [done| | |].
  - destruct (Hne r2 b Hb). by setoid_rewrite Heq.
  - by destruct (Hne r1 a Ha).
  - apply normalized_cons in Ha as (Hr1 & Ha & Hl1), Hb as (Hr2 & Hb & Hl2). unfold range_ok in *.
    assert (H12 : ∀ l, (lr_start r1 ≤ l ≤ lr_end r1)%Z → (lr_start r2 ≤ l ≤ lr_end r2)%Z ∨ (lr_end r2 + 1 < l)%Z).
    { intros l Hl. destruct (proj1 (line_in_cons l r2 b)); [apply Heq, line_in_cons; by left|by left|right; by apply Hl2]. }
    assert (H21 : ∀ l, (lr_start r2 ≤ l ≤ lr_end r2)%Z → (lr_start r1 ≤ l ≤ lr_end r1)%Z ∨ (lr_end r1 + 1 < l)%Z).
    { intros l Hl. destruct (proj1 (line_in_cons l r1 a)); [apply Heq, line_in_cons; by left|by left|right; by apply Hl1]. }
    assert (r1 = r2) as <-.
    { pose proof (H12 (lr_start r1)). pose proof (H21 (lr_start r2)). pose proof (H12 (lr_end r2 + 1)%Z). pose proof (H21 (lr_end r1 + 1)%Z).
      destruct r1, r2; simpl in *. f_equal; lia. }
    f_equal. apply IH; [done|done|]. intros l. specialize (Heq l). rewrite !line_in_cons in Heq. split; intros Hl.
    + destruct (proj1 Heq (or_intror Hl)) as [?|?]; [|done]. apply Hl1 in Hl. lia.
    + destruct (proj2 Heq (or_intror Hl)) as [?|?]; [|done]. apply Hl2 in Hl. lia.
Qed.

(** ** The invariant of the store *)

Definition state_ok (st : FileReadState) : Prop :=
  normalized (frs_ranges st) ∧ length (frs_ranges st) ≤ READ_STATE_MAX_RANGES_PER_FILE.

Record store_ok (s : Inner) : Prop := {
  ok_nodup : NoDup (in_order s);
  ok_dom k : k ∈ in_order s ↔ is_Some (in_map s !! k);
  ok_bound : length (in_order s) ≤ READ_STATE_MAX_ENTRIES;
  ok_states k st : in_map s !! k = Some st → state_ok st;
}.

(** The queue lists the map's keys: everything but the bound. *)
Definition queue_ok (s : Inner) : Prop :=
  NoDup (in_order s) ∧ (∀ k, k ∈ in_order s ↔ is_Some (in_map s !! k)) ∧
  ∀ k st, in_map s !! k = Some st → state_ok st.

Lemma store_ok_queue s : store_ok s ↔ queue_ok s ∧ length (in_order s) ≤ READ_STATE_MAX_ENTRIES.
Proof. split; [intros []; by split|intros [(? & ? & ?) ?]; by split]. Qed.

Lemma capture_map owner key s : in_map (capture_before owner key s) = in_map s.
Proof. unfold capture_before. destruct (_ !! owner); [|done]. by destruct (_ !! key). Qed.

Lemma capture_order owner key s : in_order (capture_before owner key s) = in_order s.
Proof. unfold capture_before. destruct (_ !! owner); [|done]. by destruct (_ !! key). Qed.

Lemma queue_ok_capture owner key s : queue_ok s → queue_ok (capture_before owner key s).
Proof. unfold queue_ok. by rewrite capture_map, capture_order. Qed.

Lemma queue_ok_remove key s : queue_ok s → queue_ok (remove_key key s).
Proof.
  intros (H1 & H2 & H3). split_and!; simpl.
  - by apply NoDup_filter.
  - intros k. rewrite list_elem_of_filter, H2. destruct (decide (k = key)) as [->|].
    + rewrite lookup_delete_eq. split; [naive_solver|by intros []].
    + rewrite lookup_delete_ne by done. tauto.
  - intros k st [_ ?]%lookup_delete_Some. by eapply H3.
Qed.

Lemma queue_ok_insert key st s : queue_ok s → state_ok st → queue_ok (insert_state_untracked key st s).
Proof.
  intros (H1 & H2 & H3) Hst. unfold insert_state_untracked. split_and!; simpl.
  - destruct (in_map s !! key) eqn:E; [done|]. apply NoDup_app. split_and!; [done| |apply NoDup_singleton].
    intros k Hk ->%list_elem_of_singleton. apply H2 in Hk. rewrite E in Hk. by destruct Hk.
  - intros k. destruct (decide (k = key)) as [->|].
    + rewrite lookup_insert_eq. split; [by eauto|intros _].
      destruct (in_map s !! key) eqn:E; [apply H2; eauto|set_solver].
    + rewrite lookup_insert_ne by done. rewrite <-H2. destruct (in_map s !! key); set_solver.
  - intros k st'. rewrite lookup_insert_Some. intros [[_ <-]|[_ ?]]; [done|by eapply H3].
Qed.

Lemma length_remove_head (k : ReadStateKey) (l : list ReadStateKey) :
  NoDup (k :: l) → length (filter (λ x, x ≠ k) (k :: l)) = length l.
Proof.
  intros [Hn Hl]%NoDup_cons. rewrite filter_cons_False by naive_solver.
  f_equal. clear Hl. induction l as [|x l IH]; [done|]. apply not_elem_of_cons in Hn as [Hx Hn].
  rewrite filter_cons_True by congruence. f_equal. by apply IH.
Qed.

(** The eviction loop ends within the length of the queue, below the cap. *)
Lemma evict_loop_ok fuel owner s :
  queue_ok s → length (in_order s) ≤ fuel + READ_STATE_MAX_ENTRIES →
  store_ok (evict_loop fuel owner s).
Proof.
  revert s. induction fuel as [|fuel IH]; intros s Hq Hlen; simpl.
  { apply store_ok_queue. split; [done|lia]. }
  case_bool_decide as Hgt; [|apply store_ok_queue; split; [done|lia]].
  destruct (in_order s) as [|k l] eqn:Ho; [simpl in *; lia|].
  apply IH; [by apply queue_ok_remove, queue_ok_capture|].
  simpl. rewrite capture_order, Ho, length_remove_head; [simpl in Hlen; lia|].
  rewrite <-Ho. apply Hq.
Qed.

Lemma insert_state_ok owner key st s : queue_ok s → state_ok st → store_ok (insert_state owner key st s).
Proof.
  intros Hq Hst. unfold insert_state. apply evict_loop_ok; [by apply queue_ok_insert|lia].
Qed.

Lemma record_state_ranges old e :
  (∀ st, old = Some st → normalized (frs_ranges st)) → Forall range_ok (re_ranges e) →
  normalized (frs_ranges (record_state old e)) ∧
  ∀ l, line_in l (frs_ranges (record_state old e)) ↔
    line_in l (re_ranges e) ∨
    ∃ st, old = Some st ∧ frs_revision st = re_revision e ∧ line_in l (frs_ranges st).
Proof.
  intros Hold He. unfold record_state.
  set (base := match old with Some ex => if bool_decide (frs_revision ex = re_revision e) then ex else _ | None => _ end).
  assert (Hbase : Forall range_ok (frs_ranges base) ∧ ∀ l, line_in l (frs_ranges base) ↔
    ∃ st, old = Some st ∧ frs_revision st = re_revision e ∧ line_in l (frs_ranges st)).
  { unfold base. destruct old as [st|].
    - destruct (Hold st eq_refl) as [_ Hok]. case_bool_decide; simpl.
      + split; [done|]. intros l. naive_solver.
      + split; [constructor|]. intros l. split; [intros (? & ?%elem_of_nil & _); done|naive_solver].
    - split; [constructor|]. intros l. split; [intros (? & ?%elem_of_nil & _); done|naive_solver]. }
  destruct Hbase as [Hbok Hbl]. simpl.
  destruct (merge_ranges_spec (frs_ranges base ++ re_ranges e)) as [Hn Hl]; [by apply Forall_app_2|].
  split; [done|]. intros l. rewrite Hl. unfold line_in at 1. setoid_rewrite elem_of_app.
  rewrite <-Hbl. unfold line_in. naive_solver.
Qed.

(** ** Histories of operations *)

Inductive rs_op :=
| RsBegin (scope : ReadStateScope) (turn_id : string)
| RsCommit (scope : ReadStateScope) (turn_id : string)
| RsRollback (scope : ReadStateScope) (turn_id : string)
| RsRecord (scope : ReadStateScope) (e : ReadEvidence)
| RsEvaluate (scope : ReadStateScope) (path : Path) (revision : ContentRevision)
| RsClearPath (scope : ReadStateScope) (path : Path)
| RsClearScope (scope : ReadStateScope)
| RsClearSession (session_id : string).

Definition keep_on_error (s : Inner) (r : Result CheckpointError Inner) : Inner :=
  match r with Ok s' => s' | Err _ => s end.

Definition rs_step (s : Inner) (op : rs_op) : Inner :=
  match op with
  | RsBegin scope t => keep_on_error s (begin_checkpoint scope t s)
  | RsCommit scope t => keep_on_error s (commit_checkpoint scope t s)
  | RsRollback scope t => keep_on_error s (rollback_checkpoint scope t s)
  | RsRecord scope e => record scope e s
  | RsEvaluate scope p rev => (evaluate scope p rev s).2
  | RsClearPath scope p => clear_path scope p s
  | RsClearScope scope => clear_scope scope s
  | RsClearSession sid => clear_session sid s
  end.

Definition rs_run (ops : list rs_op) (s : Inner) : Inner := fold_left rs_step ops s.

(** [LineRange::new] and the width of usize. *)
Definition op_valid (op : rs_op) : Prop :=
  match op with RsRecord _ e => Forall range_ok (re_ranges e) | _ => True end.

(** *** A property of single states, carried by the map and by the images *)

Section states.
Context (P : ReadStateKey → FileReadState → Prop).

Record all_states (s : Inner) : Prop := {
  in_map_P k st : in_map s !! k = Some st → P k st;
  image_P sc cp k st : in_checkpoints s !! sc = Some cp → cp_before cp !! k = Some (Some st) → P k st;
}.

Lemma all_states_default : all_states ReadStateStore_default.
Proof. split; simpl; [intros k st|intros sc cp k st]; by rewrite lookup_empty. Qed.

Lemma all_capture owner key s : all_states s → all_states (capture_before owner key s).
Proof.
  intros [Hm Hi]. split; [intros k st; rewrite capture_map; apply Hm|].
  intros sc cp k st. unfold capture_before.
  destruct (in_checkpoints s !! owner) as [c|] eqn:Hc; [|apply Hi].
  destruct (cp_before c !! key) eqn:Hb; [apply Hi|]. simpl.
  rewrite lookup_insert_Some. intros [[<- <-]|[_ ?]]; [|by eapply Hi]. simpl.
  rewrite lookup_insert_Some. intros [[<- ?]|[_ ?]]; [by apply Hm|by eapply Hi].
Qed.

Lemma all_remove key s : all_states s → all_states (remove_key key s).
Proof. intros [Hm Hi]. split; [|exact Hi]. simpl. intros k st [_ ?]%lookup_delete_Some. by apply Hm. Qed.

Lemma all_insert key st s : all_states s → P key st → all_states (insert_state_untracked key st s).
Proof.
  intros [Hm Hi] Hst. split; [|exact Hi]. simpl. intros k st'.
  rewrite lookup_insert_Some. intros [[<- <-]|[_ ?]]; [done|by apply Hm].
Qed.

Lemma all_evict fuel owner s : all_states s → all_states (evict_loop fuel owner s).
Proof.
  revert s. induction fuel as [|fuel IH]; intros s Hs; simpl; [done|].
  case_bool_decide; [|done]. destruct (in_order s) as [|k l]; [done|].
  by apply IH, all_remove, all_capture.
Qed.

Lemma all_checkpoints s cps : all_states s →
  (∀ sc cp k st, cps !! sc = Some cp → cp_before cp !! k = Some (Some st) → P k st) →
  all_states (set_checkpoints cps s).
Proof. intros [Hm Hi] H. by split. Qed.

Lemma enforce_loop_sub order : ∀ m k st, (enforce_loop order m).1 !! k = Some st → m !! k = Some st.
Proof.
  induction order as [|x order IH]; intros m k st; [done|]. simpl enforce_loop.
  destruct (bool_decide _); [|done]. intros H. apply IH in H. by apply lookup_delete_Some in H as [_ ?].
Qed.

Lemma all_remove_keys keys s : all_states s → all_states (fold_left (λ s k, remove_key k s) keys s).
Proof. revert s. induction keys as [|k keys IH]; intros s Hs; simpl; [done|]. by apply IH, all_remove. Qed.

Lemma all_restore images s : all_states s → (∀ k st, (k, Some st) ∈ images → P k st) →
  all_states (fold_left restore_one images s).
Proof.
  revert s. induction images as [|[k v] images IH]; intros s Hs Hi; simpl; [done|].
  apply IH; [|intros k' st Hin; apply Hi; by right]. unfold restore_one. simpl.
  destruct v as [st|]; [|done]. apply all_insert; [done|]. apply Hi. by left.
Qed.

Lemma all_rollback scope t s : all_states s → all_states (keep_on_error s (rollback_checkpoint scope t s)).
Proof.
  intros Hs. unfold rollback_checkpoint.
  destruct (ensure_checkpoint_owner s scope t) as [[]|]; simpl; [|done].
  destruct (in_checkpoints s !! scope) as [cp|] eqn:Hcp; [|done]. simpl.
  set (s1 := fold_left restore_one _ _). assert (all_states s1) as [Hm Hi].
  { unfold s1. apply all_restore.
    - apply all_remove_keys, all_checkpoints; [done|]. intros sc cp' k st [_ ?]%lookup_delete_Some.
      by eapply (image_P _ Hs).
    - intros k st Hin%elem_of_map_to_list. by eapply (image_P _ Hs). }
  unfold enforce_capacity. destruct (enforce_loop (in_order s1) (in_map s1)) as [m o] eqn:He.
  split; [|exact Hi]. simpl. intros k st Hk. apply Hm, (enforce_loop_sub (in_order s1)).
  by rewrite He.
Qed.

Lemma all_clear Q s : all_states s → all_states (clear_matching Q s).
Proof.
  intros [Hm Hi]. split; simpl.
  - intros k st [? _]%map_lookup_filter_Some. by apply Hm.
  - intros sc cp k st. rewrite lookup_fmap. intros (c & Hc & ->)%fmap_Some. simpl.
    intros [? _]%map_lookup_filter_Some. by eapply Hi.
Qed.

(** Only [record] computes a new state. *)
Lemma all_step s op : all_states s →
  (∀ sc e, op = RsRecord sc e →
    P (sc, re_path e) (record_state (in_map s !! (sc, re_path e)) e) ∨
    READ_STATE_MAX_RANGES_PER_FILE <
      length (frs_ranges (record_state (in_map s !! (sc, re_path e)) e))) →
  all_states (rs_step s op).
Proof.
  intros Hs Hrec. destruct op as [sc t|sc t|sc t|sc e|sc p rev|sc p|sc|sid]; simpl.
  - unfold begin_checkpoint. destruct (in_checkpoints s !! sc) eqn:E; simpl; [done|].
    apply all_checkpoints; [done|]. intros sc' cp k st. rewrite lookup_insert_Some.
    intros [[_ <-]|[_ ?]]; simpl; [by rewrite lookup_empty|by eapply (image_P _ Hs)].
  - unfold commit_checkpoint. destruct (ensure_checkpoint_owner s sc t) as [[]|]; simpl; [|done].
    apply all_checkpoints; [done|]. intros sc' cp k st [_ ?]%lookup_delete_Some. by eapply (image_P _ Hs).
  - by apply all_rollback.
  - unfold record. rewrite capture_map. assert (Hc := all_capture sc (sc, re_path e) s Hs).
    case_bool_decide as Hlen; [by apply all_remove|].
    destruct (Hrec sc e eq_refl) as [HP|?]; [|done].
    unfold insert_state. by apply all_evict, all_insert.
  - unfold evaluate. destruct (in_map s !! (sc, p)); [|done].
    case_bool_decide; [done|]. by apply all_remove, all_capture.
  - by apply all_remove, all_capture.
  - by apply all_clear.
  - by apply all_clear.
Qed.
End states.

Lemma enforce_loop_ok order : ∀ m m' order',
  NoDup order → (∀ k, k ∈ order ↔ is_Some (m !! k)) → enforce_loop order m = (m', order') →
  NoDup order' ∧ (∀ k, k ∈ order' ↔ is_Some (m' !! k)) ∧ length order' ≤ READ_STATE_MAX_ENTRIES ∧
  (length order ≤ READ_STATE_MAX_ENTRIES → m' = m).
Proof.
  induction order as [|x order IH]; intros m m' order' Hnd Hdom H.
  { injection H as <- <-. split_and!; [done|done|simpl; lia|done]. }
  simpl enforce_loop in H. case_bool_decide as Hlen.
  - apply NoDup_cons in Hnd as [Hx Hnd]. apply IH in H as (H1 & H2 & H3 & H4); [|done|].
    + split_and!; [exact H1|exact H2|exact H3|simpl in *; intros ?; exfalso; lia].
    + intros k. destruct (decide (k = x)) as [->|Hne].
      * rewrite lookup_delete_eq. split; [done|by intros []].
      * rewrite lookup_delete_ne, <-Hdom by done. set_solver.
  - injection H as <- <-. split_and!; [done|done|simpl in *; lia|done].
Qed.

Lemma enforce_capacity_ok s : queue_ok s → store_ok (enforce_capacity s).
Proof.
  intros (H1 & H2 & H3). unfold enforce_capacity.
  destruct (enforce_loop (in_order s) (in_map s)) as [m o] eqn:He.
  assert (Hsub := enforce_loop_sub (in_order s) (in_map s)). rewrite He in Hsub. simpl in Hsub.
  apply enforce_loop_ok in He as (Ha & Hb & Hc & _); [|done..].
  split; [done..|]. intros k st Hk. by eapply H3, Hsub.
Qed.

Lemma queue_ok_remove_keys keys s : queue_ok s → queue_ok (fold_left (λ s k, remove_key k s) keys s).
Proof. revert s. induction keys as [|k keys IH]; intros s Hs; simpl; [done|]. by apply IH, queue_ok_remove. Qed.

Lemma queue_ok_restore images s : queue_ok s → (∀ k st, (k, Some st) ∈ images → state_ok st) →
  queue_ok (fold_left restore_one images s).
Proof.
  revert s. induction images as [|[k v] images IH]; intros s Hs Hi; simpl; [done|].
  apply IH; [|intros k' st Hin; eapply Hi; by right]. unfold restore_one. simpl.
  destruct v as [st|]; [|done]. apply queue_ok_insert; [done|]. eapply Hi. by left.
Qed.




Definition inner_ok (s : Inner) : Prop := store_ok s ∧ all_states (λ _, state_ok) s.

Lemma record_state_ok old e :
  (∀ st, old = Some st → state_ok st) → Forall range_ok (re_ranges e) →
  state_ok (record_state old e) ∨
  READ_STATE_MAX_RANGES_PER_FILE < length (frs_ranges (record_state old e)).
Proof.
  intros Hold He. destruct (record_state_ranges old e) as [Hn _]; [intros st Hst; by apply Hold|done|].
  destruct (decide (READ_STATE_MAX_RANGES_PER_FILE < length (frs_ranges (record_state old e))));
    [by right|left; split; [done|lia]].
Qed.

Lemma clear_matching_ok Q s : store_ok s → store_ok (clear_matching Q s).
Proof.
  intros [H1 H2 H3 H4]. split; simpl.
  - by apply NoDup_filter.
  - intros k. rewrite list_elem_of_filter, H2. split.
    + intros [HQ [st Hst]]. exists st. by apply map_lookup_filter_Some.
    + intros [st [Hst HQ]%map_lookup_filter_Some]. eauto.
  - etrans; [apply length_filter|done].
  - intros k st [? _]%map_lookup_filter_Some. by eapply H4.
Qed.

Lemma rs_step_ok s op : inner_ok s → op_valid op → inner_ok (rs_step s op).
Proof.
  intros [Hs Ha] Hop.
  assert (Hrec : ∀ sc e, op = RsRecord sc e →
    state_ok (record_state (in_map s !! (sc, re_path e)) e) ∨
    READ_STATE_MAX_RANGES_PER_FILE < length (frs_ranges (record_state (in_map s !! (sc, re_path e)) e))).
  { intros sc e ->. apply record_state_ok; [|done]. intros st. by eapply Hs. }
  split; [|by apply (all_step (λ _, state_ok))].
  assert (Hq := proj1 (proj1 (store_ok_queue s) Hs)).
  assert (Hrm : ∀ owner key, store_ok (remove_key key (capture_before owner key s))).
  { intros owner key. apply store_ok_queue. split; [by apply queue_ok_remove, queue_ok_capture|].
    simpl. rewrite capture_order. etrans; [apply length_filter|apply Hs]. }
  destruct op as [sc t|sc t|sc t|sc e|sc p rev|sc p|sc|sid]; simpl.
  - unfold begin_checkpoint. destruct (in_checkpoints s !! sc); simpl; [done|by destruct Hs; split].
  - unfold commit_checkpoint. destruct (ensure_checkpoint_owner s sc t) as [[]|]; simpl; [|done].
    by destruct Hs; split.
  - unfold rollback_checkpoint. destruct (ensure_checkpoint_owner s sc t) as [[]|]; simpl; [|done].
    destruct (in_checkpoints s !! sc) as [cp|] eqn:Hcp; [|done]. simpl.
    apply enforce_capacity_ok, queue_ok_restore.
    + by apply queue_ok_remove_keys.
    + intros k st Hin%elem_of_map_to_list. by eapply (image_P _ _ Ha).
  - unfold record. rewrite capture_map. case_bool_decide as Hlen; [apply Hrm|].
    destruct (Hrec sc e eq_refl) as [Hst|?]; [|done].
    apply insert_state_ok; [by apply queue_ok_capture|done].
  - unfold evaluate. destruct (in_map s !! (sc, p)); [|done]. case_bool_decide; [done|apply Hrm].
  - apply Hrm.
  - by apply clear_matching_ok.
  - by apply clear_matching_ok.
Qed.

Lemma inner_ok_default : inner_ok ReadStateStore_default.
Proof.
  split; [|apply all_states_default]. split; simpl.
  - constructor.
  - intros k. rewrite lookup_empty. split; [set_solver|by intros []].
  - unfold READ_STATE_MAX_ENTRIES. lia.
  - intros k st. by rewrite lookup_empty.
Qed.

Lemma filter_absent (k : ReadStateKey) (l : list ReadStateKey) : k ∉ l → filter (λ x, x ≠ k) l = l.
Proof.
  induction l as [|x l IH]; [done|]. intros [Hx Hl]%not_elem_of_cons.
  rewrite filter_cons_True by congruence. by rewrite IH.
Qed.

Lemma evict_keeps fuel owner key : ∀ s, NoDup (in_order s) → last (in_order s) = Some key →
  in_map (evict_loop fuel owner s) !! key = in_map s !! key.
Proof.
  induction fuel as [|fuel IH]; intros s Hnd Hlast; simpl; [done|]. case_bool_decide as Hlen; [|done].
  destruct (in_order s) as [|k order] eqn:Ho; [done|].
  assert (k ≠ key ∧ last order = Some key) as [Hne Hl].
  { destruct order as [|k' order]; [simpl in Hlen; unfold READ_STATE_MAX_ENTRIES in Hlen; lia|]. split; [|done].
    intros ->. apply NoDup_cons in Hnd as [Hnd _]. by apply Hnd, (last_Some_elem_of (k' :: order)). }
  rewrite IH; simpl; rewrite ?capture_order, ?capture_map, ?Ho.
  - by rewrite lookup_delete_ne.
  - by apply NoDup_filter.
  - apply NoDup_cons in Hnd as [Hk _]. rewrite filter_cons_False by naive_solver. by rewrite (filter_absent k order Hk).
Qed.

(** What was just recorded is not evicted by it. *)
Lemma record_kept scope e s : inner_ok s →
  let st := record_state (in_map s !! (scope, re_path e)) e in
  length (frs_ranges st) ≤ READ_STATE_MAX_RANGES_PER_FILE →
  in_map (record scope e s) !! (scope, re_path e) = Some st.
Proof.
  intros [[Hnd Hdom Hbound _] _] st Hlen. unfold record. rewrite capture_map. fold st. rewrite bool_decide_false by lia.
  unfold insert_state, insert_state_untracked. rewrite capture_map, capture_order.
  destruct (in_map s !! (scope, re_path e)) eqn:E; simpl.
  - destruct (length (in_order s)) as [|n] eqn:El; simpl; [apply lookup_insert_eq|].
    rewrite bool_decide_false by lia. apply lookup_insert_eq.
  - rewrite evict_keeps; simpl; [apply lookup_insert_eq| |by rewrite last_snoc].
    apply NoDup_app. split; [done|]. split; [|apply NoDup_singleton].
    intros k Hk ->%list_elem_of_singleton. apply Hdom in Hk as [? Hk]. congruence.
Qed.

Lemma rs_run_snoc ops op s : rs_run (ops ++ [op]) s = rs_step (rs_run ops s) op.
Proof. unfold rs_run. by rewrite fold_left_app. Qed.

Lemma rs_run_ok ops : Forall op_valid ops → inner_ok (rs_run ops ReadStateStore_default).
Proof.
  induction ops as [|op ops IH] using rev_ind; intros Hv; [apply inner_ok_default|].
  apply Forall_app in Hv as [Hv Hop]. rewrite rs_run_snoc. rewrite Forall_singleton in Hop.
  apply rs_step_ok; [by apply IH|done].
Qed.

(** *** Where authority comes from *)

(** Line [l] of the file was shown to [key]'s caller at [rev]. *)
Definition was_read (ops : list rs_op) (key : ReadStateKey) (rev : ContentRevision) (l : Z) : Prop :=
  ∃ e, RsRecord key.1 e ∈ ops ∧ re_path e = key.2 ∧ re_revision e = rev ∧ line_in l (re_ranges e).

Definition read_whole (ops : list rs_op) (key : ReadStateKey) (rev : ContentRevision) : Prop :=
  ∃ e, RsRecord key.1 e ∈ ops ∧ re_path e = key.2 ∧ re_revision e = rev ∧
    (re_complete e = true ∨
     (0 < re_total_lines e)%Z ∧ ∀ l, (1 ≤ l ≤ re_total_lines e)%Z → was_read ops key rev l).

Definition justified (ops : list rs_op) (key : ReadStateKey) (st : FileReadState) : Prop :=
  (∀ l, line_in l (frs_ranges st) → was_read ops key (frs_revision st) l) ∧
  (frs_complete st = true → read_whole ops key (frs_revision st)).

Lemma was_read_mono ops ops' key rev l : ops ⊆ ops' → was_read ops key rev l → was_read ops' key rev l.
Proof. intros Hsub (e & He & ?). exists e. split; [by apply Hsub|done]. Qed.

Lemma justified_mono ops ops' key st : ops ⊆ ops' → justified ops key st → justified ops' key st.
Proof.
  intros Hsub [H1 H2]. split; [intros l Hl; eapply was_read_mono; eauto|].
  intros (e & He & Hp & Hr & Hc)%H2. exists e. split_and!; [by apply Hsub|done|done|].
  destruct Hc as [?|[? Hc]]; [by left|right]. split; [done|]. intros l Hl. eapply was_read_mono; eauto.
Qed.

Lemma covers_whole_file_spec ranges n : covers_whole_file ranges n = true →
  (0 < n)%Z ∧ ∀ l, (1 ≤ l ≤ n)%Z → line_in l ranges.
Proof.
  destruct ranges as [|r [|]]; simpl; [done| |done].
  rewrite !andb_true_iff, Z.ltb_lt, !Z.eqb_eq. intros [[Hn H1] H2]. split; [done|].
  intros l Hl. exists r. split; [by left|lia].
Qed.

Lemma record_justified ops sc e old :
  RsRecord sc e ∈ ops → Forall range_ok (re_ranges e) →
  (∀ st, old = Some st → normalized (frs_ranges st) ∧ justified ops (sc, re_path e) st) →
  justified ops (sc, re_path e) (record_state old e).
Proof.
  intros He Hok Hold.
  destruct (record_state_ranges old e) as [_ Hl]; [intros st Hst; by apply Hold|done|].
  assert (Hrev : frs_revision (record_state old e) = re_revision e).
  { unfold record_state. simpl. destruct old as [st|]; [|done]. by case_bool_decide. }
  assert (Hlines : ∀ l, line_in l (frs_ranges (record_state old e)) →
    was_read ops (sc, re_path e) (re_revision e) l).
  { intros l [Hin|(st & Hst & Hr & Hin)]%Hl.
    - by exists e.
    - destruct (Hold _ Hst) as [_ [Hj _]]. rewrite <-Hr. by apply Hj. }
  split; rewrite Hrev; [done|]. intros Hc.
  assert (Hcases : re_complete e = true ∨
    (∃ st, old = Some st ∧ frs_revision st = re_revision e ∧ frs_complete st = true) ∨
    covers_whole_file (frs_ranges (record_state old e)) (re_total_lines e) = true).
  { revert Hc. unfold record_state at 1. simpl. rewrite !orb_true_iff.
    intros [[Hc|Hc]|Hc]; [|by left|by right; right].
    destruct old as [st|]; [|done]. case_bool_decide; [|done]. right; left. eauto. }
  destruct Hcases as [Hce|[(st & Hst & Hr & Hcs)|Hcov]].
  - exists e. eauto.
  - destruct (Hold _ Hst) as [_ [_ Hj]]. rewrite <-Hr. by apply Hj.
  - apply covers_whole_file_spec in Hcov as [Hn Hcov]. exists e. split_and!; [done..|right].
    split; [done|]. intros l Hl1. by apply Hlines, Hcov.
Qed.

Lemma rs_run_justified ops : Forall op_valid ops →
  all_states (justified ops) (rs_run ops ReadStateStore_default).
Proof.
  induction ops as [|op ops IH] using rev_ind; intros Hv; [apply all_states_default|].
  assert (Hv' := Hv). apply Forall_app in Hv as [Hv Hop]. rewrite Forall_singleton in Hop.
  rewrite rs_run_snoc. specialize (IH Hv).
  assert (Hmono : all_states (justified (ops ++ [op])) (rs_run ops ReadStateStore_default)).
  { split; intros *; [intros H%(in_map_P _ _ IH)|intros H1 H2; pose proof (image_P _ _ IH _ _ _ _ H1 H2) as H];
      (eapply justified_mono; [|exact H]); set_solver. }
  apply all_step; [done|]. intros sc e ->. left. apply record_justified; [set_solver|done|].
  intros st Hst. split; [|by apply (in_map_P _ _ Hmono)].
  destruct (rs_run_ok ops Hv) as [Hs _]. by eapply (ok_states _ Hs).
Qed.

(** ** Properties *)

(** Merging is exact and canonical: the merged ranges cover the same lines
    as the input and are sorted with a gap between any two, so an interval lies
    within one merged range exactly when every one of its lines was covered. *)
Theorem merge_ranges_exact rs a b (Hok : Forall range_ok rs) (Hab : (a ≤ b)%Z) :
  (∀ l, line_in l (merge_ranges rs) ↔ line_in l rs) ∧ normalized (merge_ranges rs) ∧
  (existsb (λ r, range_contains r a b) (merge_ranges rs) = true ↔
    ∀ l, (a ≤ l ≤ b)%Z → line_in l rs).
Proof.
  destruct (merge_ranges_spec rs Hok) as [Hn Hl]. split_and!; [done|done|].
  rewrite normalized_covers by done. by setoid_rewrite Hl.
Qed.

(** Invariant of the store after any history of operations: the eviction
    queue lists every remembered file exactly once, at most 1024 files are
    remembered, and each has at most 256 ranges, sorted and separated. *)
Theorem read_state_invariant ops (Hv : Forall op_valid ops) :
  let s := rs_run ops ReadStateStore_default in
  NoDup (in_order s) ∧ (∀ k, k ∈ in_order s ↔ is_Some (in_map s !! k)) ∧
  size (in_map s) ≤ 1024 ∧
  ∀ k st, in_map s !! k = Some st → normalized (frs_ranges st) ∧ length (frs_ranges st) ≤ 256.
Proof.
  simpl. destruct (rs_run_ok ops Hv) as [[H1 H2 H3 H4] _]. split_and!; [done|done| |by apply H4].
  assert ((map_to_list (in_map (rs_run ops ReadStateStore_default))).*1 ≡ₚ
    in_order (rs_run ops ReadStateStore_default)) as Hp.
  { apply NoDup_Permutation; [apply NoDup_fst_map_to_list|done|]. intros k. rewrite H2.
    rewrite list_elem_of_fmap. split.
    - intros ([k' st] & -> & Hin%elem_of_map_to_list). simpl. eauto.
    - intros [st Hst]. exists (k, st). by rewrite elem_of_map_to_list. }
  apply Permutation_length in Hp. rewrite length_fmap, length_map_to_list in Hp. rewrite Hp. exact H3.
Qed.

(** No authority without reading: whenever the store answers Fresh for a
    revision, after any history (checkpoints, rollbacks, evictions and
    clearings included), a covered interval was read line by line by that very
    caller at that very revision, or the whole file was; and a claim to the end
    of the file is backed in the same way. *)
Theorem fresh_authority_was_read ops scope path rev auth s' a b
    (Hv : Forall op_valid ops) (Hab : (a ≤ b)%Z)
    (He : evaluate scope path rev (rs_run ops ReadStateStore_default) = (Fresh auth, s')) :
  (covers auth a b = true →
    read_whole ops (scope, path) rev ∨ ∀ l, (a ≤ l ≤ b)%Z → was_read ops (scope, path) rev l) ∧
  (has_eof auth = true →
    read_whole ops (scope, path) rev ∨ was_read ops (scope, path) rev (ra_total_lines auth)).
Proof.
  unfold evaluate in He.
  destruct (in_map (rs_run ops ReadStateStore_default) !! (scope, path)) as [st|] eqn:Hst; [|done].
  case_bool_decide as Hrev; [|done]. injection He as <- <-.
  destruct (rs_run_ok ops Hv) as [Hs _]. destruct (ok_states _ Hs _ _ Hst) as [Hn _].
  destruct (in_map_P _ _ (rs_run_justified ops Hv) _ _ Hst) as [Hj1 Hj2]. rewrite Hrev in Hj1, Hj2.
  unfold covers, has_eof. simpl. rewrite !orb_true_iff. split.
  - intros [Hc|Hc]; [left; by apply Hj2|right]. intros l Hl. apply Hj1.
    by eapply normalized_covers in Hc.
  - rewrite andb_true_iff, existsb_exists. intros [Hc|[Ht (r & Hin & Hr%Z.eqb_eq)]];
      [left; by apply Hj2|right]. apply Hj1.
    exists r. apply list_elem_of_In in Hin. split; [done|].
    destruct Hn as [_ Hok]. rewrite Forall_forall in Hok. specialize (Hok _ Hin).
    unfold range_ok in Hok. lia.
Qed.

(** ** Rollback *)

(** Operations of one caller between begin and rollback. *)
Definition own_op (scope : ReadStateScope) (op : rs_op) : Prop :=
  match op with
  | RsRecord sc _ | RsEvaluate sc _ _ | RsClearPath sc _ => sc = scope
  | _ => False
  end.

(** The checkpoint of [scope] holds the original image of every key that may
    differ from [m0]. *)
Definition tracks (m0 : gmap ReadStateKey FileReadState) (scope : ReadStateScope) (turn_id : string)
    (s : Inner) : Prop :=
  ∃ cp, in_checkpoints s !! scope = Some cp ∧ cp_turn_id cp = turn_id ∧
    ∀ k, match cp_before cp !! k with
         | Some v => v = m0 !! k
         | None => in_map s !! k = m0 !! k
         end.

Definition captured (scope : ReadStateScope) (key : ReadStateKey) (s : Inner) : Prop :=
  ∃ cp, in_checkpoints s !! scope = Some cp ∧ is_Some (cp_before cp !! key).

Section tracks.
Context (m0 : gmap ReadStateKey FileReadState) (scope : ReadStateScope) (turn_id : string).

Lemma tracks_capture key s : tracks m0 scope turn_id s →
  tracks m0 scope turn_id (capture_before scope key s) ∧ captured scope key (capture_before scope key s).
Proof.
  intros (cp & Hcp & Ht & Hk). unfold capture_before. rewrite Hcp.
  destruct (cp_before cp !! key) as [v|] eqn:Hb.
  - split; exists cp; [done|]. split; [done|]. by rewrite Hb.
  - split; eexists; simpl; rewrite lookup_insert_eq; (split; [done|]); simpl.
    + split; [done|]. intros k. destruct (decide (k = key)) as [->|].
      * rewrite lookup_insert_eq. specialize (Hk key). by rewrite Hb in Hk.
      * rewrite lookup_insert_ne by done. apply Hk.
    + rewrite lookup_insert_eq. eauto.
Qed.

Lemma tracks_change key s s' : tracks m0 scope turn_id s → captured scope key s →
  in_checkpoints s' = in_checkpoints s → (∀ k, k ≠ key → in_map s' !! k = in_map s !! k) →
  tracks m0 scope turn_id s'.
Proof.
  intros (cp & Hcp & Ht & Hk) (cp' & Hcp' & Hb) Hc Hm. exists cp. rewrite Hc. split_and!; [done..|].
  intros k. specialize (Hk k). destruct (cp_before cp !! k) as [v|] eqn:Hv; [done|].
  rewrite Hm; [done|]. intros ->. assert (cp' = cp) as -> by congruence.
  rewrite Hv in Hb. by destruct Hb.
Qed.

Lemma tracks_remove key s : tracks m0 scope turn_id s →
  tracks m0 scope turn_id (remove_key key (capture_before scope key s)).
Proof.
  intros [Ht Hc]%(tracks_capture key). eapply tracks_change; [exact Ht|exact Hc|done|].
  intros k Hk. simpl. by rewrite lookup_delete_ne.
Qed.

Lemma tracks_evict fuel s : tracks m0 scope turn_id s → tracks m0 scope turn_id (evict_loop fuel scope s).
Proof.
  revert s. induction fuel as [|fuel IH]; intros s Hs; simpl; [done|].
  case_bool_decide; [|done]. destruct (in_order s); [done|]. by apply IH, tracks_remove.
Qed.

Lemma tracks_step s op : own_op scope op → tracks m0 scope turn_id s →
  tracks m0 scope turn_id (rs_step s op).
Proof.
  intros Hown Hs. destruct op; simpl in *; try done; subst.
  - unfold record. rewrite capture_map. case_bool_decide; [by apply tracks_remove|].
    apply (tracks_capture (scope, re_path e)) in Hs as [Ht Hc].
    unfold insert_state. apply tracks_evict. eapply tracks_change; [exact Ht|exact Hc|done|].
    intros k Hk. simpl. by rewrite lookup_insert_ne.
  - unfold evaluate. destruct (in_map s !! (scope, path)); [|done].
    case_bool_decide; [done|by apply tracks_remove].
  - by apply tracks_remove.
Qed.
End tracks.

Lemma remove_keys_map keys : ∀ s k,
  in_map (fold_left (λ s k, remove_key k s) keys s) !! k =
  if decide (k ∈ keys) then None else in_map s !! k.
Proof.
  induction keys as [|x keys IH]; intros s k; simpl.
  - done.
  - rewrite IH. simpl. destruct (decide (k = x)) as [->|Hne].
    + rewrite lookup_delete_eq. rewrite (decide_True (P:=x ∈ x :: keys)) by set_solver. by case_decide.
    + rewrite lookup_delete_ne by done. repeat case_decide; set_solver.
Qed.

Lemma restore_map images : ∀ s k, NoDup images.*1 →
  in_map (fold_left restore_one images s) !! k =
  match list_find (λ kv, kv.1 = k) images with
  | Some (_, (_, Some st)) => Some st
  | _ => in_map s !! k
  end.
Proof.
  induction images as [|[x v] images IH]; intros s k Hnd; [done|].
  apply NoDup_cons in Hnd as [Hx Hnd]. simpl fold_left. rewrite IH by done. simpl.
  destruct (decide (x = k)) as [->|Hne].
  - assert (list_find (λ kv, kv.1 = k) images = None) as ->.
    { apply list_find_None, Forall_forall. intros [k' v'] Hin Heq. apply Hx. simpl in *. subst.
      by apply (list_elem_of_fmap_2 fst _ (k, v')). }
    unfold restore_one. simpl. destruct v; simpl; [apply lookup_insert_eq|done].
  - assert (in_map (restore_one s (x, v)) !! k = in_map s !! k) as ->
      by (unfold restore_one; destruct v; simpl; [by apply lookup_insert_ne|done]).
    destruct (list_find (λ kv, kv.1 = k) images) as [[i [k' v']]|]; simpl; [|done]. by destruct v'.
Qed.

Lemma list_find_image (m : gmap ReadStateKey (option FileReadState)) k v :
  m !! k = Some v → ∃ i, list_find (λ kv, kv.1 = k) (map_to_list m) = Some (i, (k, v)).
Proof.
  intros Hk. destruct (list_find_elem_of (λ kv, kv.1 = k) (map_to_list m) (k, v)) as [[i [k' v']] Hf];
    [by apply elem_of_map_to_list|done|].
  exists i. rewrite Hf. apply list_find_Some in Hf as (Hi & Heq & _). simpl in Heq. subst k'.
  apply list_elem_of_lookup_2, elem_of_map_to_list in Hi. by simplify_eq.
Qed.

Lemma remove_checkpoints keys : ∀ s,
  in_checkpoints (fold_left (λ s k, remove_key k s) keys s) = in_checkpoints s.
Proof. induction keys as [|k keys IH]; intros s; simpl; [done|]. by rewrite IH. Qed.

Lemma restore_checkpoints images : ∀ s,
  in_checkpoints (fold_left restore_one images s) = in_checkpoints s.
Proof. induction images as [|[k []] images IH]; intros s; simpl; [done|..]; by rewrite IH. Qed.

Lemma tracks_run m0 scope turn_id l : ∀ s,
  Forall op_valid l → Forall (own_op scope) l → inner_ok s → tracks m0 scope turn_id s →
  inner_ok (rs_run l s) ∧ tracks m0 scope turn_id (rs_run l s).
Proof.
  induction l as [|op l IH]; intros s Hv Ho Hs Ht; [done|].
  apply Forall_cons in Hv as [Hv Hvl], Ho as [Ho Hol].
  apply (IH (rs_step s op)); [done|done|by apply rs_step_ok|by apply tracks_step].
Qed.

(** The store between the restoration of the images and the capacity check. *)
Definition restored (scope : ReadStateScope) (cp : ReadStateCheckpoint) (s : Inner) : Inner :=
  let images := map_to_list (cp_before cp) in
  fold_left restore_one images
    (fold_left (λ s k, remove_key k s) images.*1 (set_checkpoints (delete scope (in_checkpoints s)) s)).

Lemma restored_map m0 scope cp s :
  (∀ k, match cp_before cp !! k with Some v => v = m0 !! k | None => in_map s !! k = m0 !! k end) →
  in_map (restored scope cp s) = m0.
Proof.
  intros Hk. apply map_eq. intros k. unfold restored.
  rewrite restore_map by apply NoDup_fst_map_to_list.
  rewrite remove_keys_map. specialize (Hk k). destruct (cp_before cp !! k) as [v|] eqn:Hb.
  - destruct (list_find_image _ _ _ Hb) as [i ->]. rewrite <-Hk. destruct v as [st|]; [done|].
    rewrite decide_True; [done|]. apply list_elem_of_fmap. exists (k, None).
    by rewrite elem_of_map_to_list.
  - assert (list_find (λ kv, kv.1 = k) (map_to_list (cp_before cp)) = None) as ->.
    { apply list_find_None, Forall_forall. intros [k' v'] Hin%elem_of_map_to_list Heq.
      simpl in Heq. subst. by rewrite Hb in Hin. }
    rewrite decide_False; [done|].
    intros ([k' v'] & -> & Hin%elem_of_map_to_list)%list_elem_of_fmap. simpl in Hb. congruence.
Qed.

Lemma restored_queue scope cp s :
  inner_ok s → in_checkpoints s !! scope = Some cp → queue_ok (restored scope cp s).
Proof.
  intros Hs Hcp. apply queue_ok_restore.
  - apply queue_ok_remove_keys. exact (proj1 (proj1 (store_ok_queue s) (proj1 Hs))).
  - intros k st Hin%elem_of_map_to_list. by eapply (image_P _ _ (proj2 Hs)).
Qed.

(** A queue over the keys of a store within capacity is within capacity. *)
Lemma enforce_same s s0 : queue_ok s → store_ok s0 → in_map s = in_map s0 →
  in_map (enforce_capacity s) = in_map s0.
Proof.
  intros (Hnd & Hdom & _) [Hnd0 Hdom0 Hlen0 _] Hmap.
  assert (Hlen : length (in_order s) ≤ READ_STATE_MAX_ENTRIES).
  { rewrite (Permutation_length (l:=in_order s) (l':=in_order s0)); [done|].
    apply NoDup_Permutation; [done..|]. intros k. by rewrite Hdom, Hdom0, Hmap. }
  unfold enforce_capacity. destruct (enforce_loop (in_order s) (in_map s)) as [m o] eqn:He. simpl.
  apply enforce_loop_ok in He as (_ & _ & _ & Heq); [|done..]. by rewrite Heq.
Qed.

Lemma begin_tracks scope turn_id s0 s1 : inner_ok s0 → begin_checkpoint scope turn_id s0 = Ok s1 →
  inner_ok s1 ∧ tracks (in_map s0) scope turn_id s1.
Proof.
  intros Hs0 Hbegin. assert (Hs1 := rs_step_ok s0 (RsBegin scope turn_id) Hs0 I).
  unfold rs_step in Hs1. rewrite Hbegin in Hs1. split; [exact Hs1|].
  unfold begin_checkpoint in Hbegin. destruct (in_checkpoints s0 !! scope); [done|].
  injection Hbegin as <-. eexists. simpl. rewrite lookup_insert_eq. split_and!; [done..|].
  intros k. simpl. by rewrite lookup_empty.
Qed.

(** C27. Rollback: after a checkpoint was opened on any reachable store, and
    nothing happened to the store but that this very caller recorded, evaluated
    and cleared single files, any number of times (evictions included), rolling
    the turn back succeeds and gives every key, of every caller, exactly the
    evidence it had when the turn began.  Turns in which a scope or a session
    was cleared, as a compaction does, or other callers used the store are not
    meant: such a clear is final, and so are the evictions by others. *)
Theorem rollback_restores ops scope turn_id s1 turn_ops
    (Hv : Forall op_valid ops) (Hv2 : Forall op_valid turn_ops)
    (Hbegin : begin_checkpoint scope turn_id (rs_run ops ReadStateStore_default) = Ok s1)
    (Hown : Forall (own_op scope) turn_ops) :
  ∃ s2, rollback_checkpoint scope turn_id (rs_run turn_ops s1) = Ok s2 ∧
    in_map s2 = in_map (rs_run ops ReadStateStore_default) ∧
    in_checkpoints s2 !! scope = None.
Proof.
  assert (Hs0 := rs_run_ok ops Hv). revert Hs0 Hbegin. generalize (rs_run ops ReadStateStore_default).
  intros s0 Hs0 Hbegin. destruct (begin_tracks _ _ _ _ Hs0 Hbegin) as [Hs1 Ht1].
  destruct (tracks_run _ _ _ _ _ Hv2 Hown Hs1 Ht1) as [Hs (cp & Hcp & Hturn & Hk)].
  revert Hs Hcp Hk. generalize (rs_run turn_ops s1). intros s Hs Hcp Hk.
  exists (enforce_capacity (restored scope cp s)). split_and!.
  - unfold rollback_checkpoint, ensure_checkpoint_owner. rewrite Hcp, bool_decide_true by done. done.
  - apply enforce_same; [by apply restored_queue|apply Hs0|by apply restored_map].
  - unfold enforce_capacity. destruct (enforce_loop _ _). simpl. unfold restored.
    rewrite restore_checkpoints, remove_checkpoints. apply lookup_delete_eq.
Qed.

(** ** Witnesses *)

Definition demo_scope : ReadStateScope := {| rs_session_id := Some "s"; rs_caller_id := None |}.
Definition demo_path : Path := [RootDir; Normal "f"].
Definition demo_rev (c : string) : ContentRevision := {| sha256 := c; byte_len := 9 |}.
Definition demo_read (c : string) (a b : Z) : ReadEvidence :=
  {| re_path := demo_path; re_revision := demo_rev c; re_total_lines := 9; re_ends_with_newline := true;
     re_ranges := [{| lr_start := a; lr_end := b |}]; re_complete := false |}.
Definition demo_ops : list rs_op :=
  [RsRecord demo_scope (demo_read "r" 4 6); RsRecord demo_scope (demo_read "r" 1 3)].

Lemma demo_ops_valid : Forall op_valid demo_ops.
Proof. repeat constructor; unfold range_ok, u64_max; simpl; lia. Defined.

Lemma merge_ranges_exact_witness :
  normalized (merge_ranges [{| lr_start := 4; lr_end := 6 |}; {| lr_start := 1; lr_end := 3 |}]).
Proof.
  apply (merge_ranges_exact _ 1 6); [|lia].
  repeat constructor; unfold range_ok, u64_max; simpl; lia.
Defined.

Lemma read_state_invariant_witness :
  size (in_map (rs_run demo_ops ReadStateStore_default)) ≤ 1024.
Proof. destruct (read_state_invariant demo_ops demo_ops_valid) as (_ & _ & H & _). exact H. Defined.

Lemma fresh_authority_was_read_witness :
  read_whole demo_ops (demo_scope, demo_path) (demo_rev "r") ∨
  ∀ l, (2 ≤ l ≤ 5)%Z → was_read demo_ops (demo_scope, demo_path) (demo_rev "r") l.
Proof.
  eapply (fresh_authority_was_read demo_ops demo_scope demo_path (demo_rev "r") _ _ 2 5 demo_ops_valid).
  - lia.
  - vm_compute. reflexivity.
  - vm_compute. reflexivity.
Defined.

Lemma rollback_restores_witness :
  ∃ s1 s2, begin_checkpoint demo_scope "t" (rs_run demo_ops ReadStateStore_default) = Ok s1 ∧
    rollback_checkpoint demo_scope "t"
      (rs_run [RsEvaluate demo_scope demo_path (demo_rev "x"); RsRecord demo_scope (demo_read "x" 1 9)] s1) = Ok s2 ∧
    in_map s2 = in_map (rs_run demo_ops ReadStateStore_default).
Proof.
  destruct (begin_checkpoint demo_scope "t" (rs_run demo_ops ReadStateStore_default)) as [s1|] eqn:E;
    [|vm_compute in E; discriminate E].
  destruct (rollback_restores demo_ops demo_scope "t" s1
    [RsEvaluate demo_scope demo_path (demo_rev "x"); RsRecord demo_scope (demo_read "x" 1 9)])
    as (s2 & H1 & H2 & _).
  - exact demo_ops_valid.
  - repeat constructor; unfold range_ok, u64_max; simpl; lia.
  - exact E.
  - repeat constructor.
  - exists s1, s2. exact (conj eq_refl (conj H1 H2)).
Defined.
