(* ===== verification/Utf8.v ===== *)
(** * UTF-8 as the standard library validates it

    [core::str::from_utf8] and [char::encode_utf8], used by the process
    output buffer: the decoder classifies the front of a byte string as one
    scalar, an invalid sequence of known length, or an incomplete suffix. *)

From S2P Require Import Prelude.

(** A Unicode scalar value. *)
Definition is_scalar (c : Z) : Prop := (0 ≤ c < 55296 ∨ 57344 ≤ c < 1114112)%Z.

Definition REPLACEMENT_CHARACTER : Z := 65533.

(** [char::encode_utf8] *)
Definition utf8_encode (c : Z) : list Z :=
  if (c <? 128)%Z then [c]
  else if (c <? 2048)%Z then [192 + c / 64; 128 + c mod 64]%Z
  else if (c <? 65536)%Z then [224 + c / 4096; 128 + (c / 64) mod 64; 128 + c mod 64]%Z
  else [240 + c / 262144; 128 + (c / 4096) mod 64; 128 + (c / 64) mod 64; 128 + c mod 64]%Z.

Inductive utf8_step :=
| U8Char (c : Z) (width : nat)
| U8Bad (error_len : nat)
| U8More.

Definition in_byte_range (lo hi b : Z) : bool := ((lo <=? b) && (b <=? hi))%Z.
Definition is_continuation (b : Z) : bool := in_byte_range 128 191 b.

(** The second byte of a three- or four-byte sequence. *)
Definition second_of_three (b0 b1 : Z) : bool :=
  if (b0 =? 224)%Z then in_byte_range 160 191 b1
  else if (b0 =? 237)%Z then in_byte_range 128 159 b1
  else is_continuation b1.
Definition second_of_four (b0 b1 : Z) : bool :=
  if (b0 =? 240)%Z then in_byte_range 144 191 b1
  else if (b0 =? 244)%Z then in_byte_range 128 143 b1
  else is_continuation b1.

(** [run_utf8_validation] at one position, on a non-empty input. *)
Definition utf8_next (b0 : Z) (l : list Z) : utf8_step :=
  if in_byte_range 0 127 b0 then U8Char b0 1
  else if in_byte_range 194 223 b0 then
    match l with
    | [] => U8More
    | b1 :: _ =>
        if is_continuation b1 then U8Char ((b0 - 192) * 64 + (b1 - 128))%Z 2 else U8Bad 1
    end
  else if in_byte_range 224 239 b0 then
    match l with
    | [] => U8More
    | b1 :: l' =>
        if second_of_three b0 b1 then
          match l' with
          | [] => U8More
          | b2 :: _ =>
              if is_continuation b2
              then U8Char ((b0 - 224) * 4096 + (b1 - 128) * 64 + (b2 - 128))%Z 3 else U8Bad 2
          end
        else U8Bad 1
    end
  else if in_byte_range 240 244 b0 then
    match l with
    | [] => U8More
    | b1 :: l' =>
        if second_of_four b0 b1 then
          match l' with
          | [] => U8More
          | b2 :: l'' =>
              if is_continuation b2 then
                match l'' with
                | [] => U8More
                | b3 :: _ =>
                    if is_continuation b3
                    then U8Char ((b0 - 240) * 262144 + (b1 - 128) * 4096
                                 + (b2 - 128) * 64 + (b3 - 128))%Z 4
                    else U8Bad 3
                end
              else U8Bad 2
          end
        else U8Bad 1
    end
  else U8Bad 1.

(** The result of [from_utf8]: the scalars of the valid prefix, the bytes
    after it, and why it stopped ([None]: it did not). *)
Inductive utf8_error := Utf8ErrorLen (n : nat) | Utf8Incomplete.

Fixpoint from_utf8_loop (fuel : nat) (l : list Z) : list Z * list Z * option utf8_error :=
  match fuel, l with
  | O, _ | _, [] => ([], l, None)
  | S fuel', b0 :: l' =>
      match utf8_next b0 l' with
      | U8Char c n =>
          let '(cs, rest, err) := from_utf8_loop fuel' (drop n l) in (c :: cs, rest, err)
      | U8Bad n => ([], l, Some (Utf8ErrorLen n))
      | U8More => ([], l, Some Utf8Incomplete)
      end
  end.

Definition from_utf8 (l : list Z) : list Z * list Z * option utf8_error := from_utf8_loop (length l) l.

(** The scalars of a byte string that is known to be valid. *)
Definition decode_valid (l : list Z) : option (list Z) :=
  match from_utf8 l with (cs, _, None) => Some cs | _ => None end.

Definition encode_all (cs : list Z) : list Z := cs ≫= utf8_encode.

#[global] Arguments encode_all : simpl never.

(** ** Facts *)

Ltac solve_bytes :=
  unfold second_of_three, second_of_four, is_continuation, in_byte_range in *;
  repeat match goal with
  | H : (_ && _) = true |- _ => apply andb_true_iff in H as [? ?]
  | H : (_ && _) = false |- _ => apply andb_false_iff in H
  | H : context [if ?b then _ else _] |- _ => destruct b eqn:?; try done
  | |- context [if ?b then _ else _] => destruct b eqn:?; try done
  end;
  rewrite ?Z.leb_le, ?Z.leb_gt, ?Z.ltb_lt, ?Z.ltb_ge, ?Z.eqb_eq, ?Z.eqb_neq in *.

Lemma utf8_encode_length c : 1 ≤ length (utf8_encode c) ≤ 4.
Proof. unfold utf8_encode. repeat case_match; simpl; lia. Qed.

(** The width that the first byte announces: the two copies of the match in
    pop_front_utf8_scalar and tail_from_char_offset. *)
Definition scalar_width (first : Z) : nat :=
  if in_byte_range 0 127 first then 1
  else if in_byte_range 194 223 first then 2
  else if in_byte_range 224 239 first then 3
  else if in_byte_range 240 244 first then 4
  else 1.

Lemma in_byte_range_true lo hi b : (lo ≤ b ≤ hi)%Z → in_byte_range lo hi b = true.
Proof. intros. unfold in_byte_range. apply andb_true_iff. rewrite !Z.leb_le. lia. Qed.

Lemma in_byte_range_false lo hi b : (b < lo ∨ hi < b)%Z → in_byte_range lo hi b = false.
Proof.
  intros H. unfold in_byte_range. apply andb_false_iff. rewrite !Z.leb_gt. lia.
Qed.

Ltac byte_case :=
  first [ rewrite in_byte_range_true by lia | rewrite in_byte_range_false by lia
        | rewrite in_byte_range_true by (Z.to_euclidean_division_equations; lia) ].

Lemma utf8_encode_width c : is_scalar c →
  ∃ b bs, utf8_encode c = b :: bs ∧ scalar_width b = length (utf8_encode c).
Proof.
  unfold is_scalar, utf8_encode, scalar_width. intros Hc.
  destruct (Z.ltb_spec c 128); [|destruct (Z.ltb_spec c 2048); [|destruct (Z.ltb_spec c 65536)]];
    (eexists _, _; split; [reflexivity|]); simpl length.
  - by byte_case.
  - assert (2 ≤ c / 64 < 32)%Z by (split; [apply Z.div_le_lower_bound|apply Z.div_lt_upper_bound]; lia).
    by repeat byte_case.
  - assert (0 ≤ c / 4096 < 16)%Z by (split; [apply Z.div_le_lower_bound|apply Z.div_lt_upper_bound]; lia).
    by repeat byte_case.
  - assert (0 ≤ c / 262144 < 5)%Z by (split; [apply Z.div_le_lower_bound|apply Z.div_lt_upper_bound]; lia).
    by repeat byte_case.
Qed.

Ltac zdiv_lia := Z.to_euclidean_division_equations; lia.

Definition is_byte (b : Z) : Prop := (0 ≤ b < 256)%Z.

Lemma utf8_encode_next c r : is_scalar c →
  ∃ b bs, utf8_encode c = b :: bs ∧ utf8_next b (bs ++ r) = U8Char c (length (utf8_encode c)).
Proof.
  unfold is_scalar, utf8_encode. intros Hc.
  destruct (Z.ltb_spec c 128) as [H1|H1];
    [|destruct (Z.ltb_spec c 2048) as [H2|H2]; [|destruct (Z.ltb_spec c 65536) as [H3|H3]]];
    (eexists _, _; split; [reflexivity|]); simpl length; simpl app;
    unfold utf8_next, second_of_three, second_of_four, is_continuation.
  - by byte_case.
  - assert (2 ≤ c / 64 < 32)%Z by zdiv_lia. repeat byte_case. f_equal. zdiv_lia.
  - assert (0 ≤ c / 4096 < 16)%Z by zdiv_lia. do 3 byte_case.
    assert (in_byte_range 128 191 (128 + c mod 64) = true) as -> by (byte_case; done).
    destruct (Z.eqb_spec (224 + c / 4096) 224);
      [|destruct (Z.eqb_spec (224 + c / 4096) 237)];
      (rewrite in_byte_range_true by zdiv_lia); f_equal; zdiv_lia.
  - assert (0 ≤ c / 262144 < 5)%Z by zdiv_lia. do 4 byte_case.
    assert (in_byte_range 128 191 (128 + c mod 64) = true) as -> by (byte_case; done).
    assert (in_byte_range 128 191 (128 + (c / 64) mod 64) = true) as -> by (byte_case; done).
    destruct (Z.eqb_spec (240 + c / 262144) 240);
      [|destruct (Z.eqb_spec (240 + c / 262144) 244)];
      (rewrite in_byte_range_true by zdiv_lia); f_equal; zdiv_lia.
Qed.

Lemma in_byte_range_spec lo hi b : reflect (lo ≤ b ≤ hi)%Z (in_byte_range lo hi b).
Proof.
  unfold in_byte_range. apply iff_reflect. rewrite andb_true_iff, !Z.leb_le. done.
Qed.

Ltac byte_cases H :=
  repeat match type of H with
  | context [if in_byte_range ?lo ?hi ?b then _ else _] =>
      destruct (in_byte_range_spec lo hi b)
  | context [if (?a =? ?b)%Z then _ else _] => destruct (Z.eqb_spec a b)
  | context [match ?l with [] => _ | _ => _ end] => destruct l
  end; simplify_eq.

(** What a decoded scalar is: the bytes it was read from, re-encoded. *)
Lemma utf8_next_char b l c n : utf8_next b l = U8Char c n →
  is_scalar c ∧ n = length (utf8_encode c) ∧ ∃ r, b :: l = utf8_encode c ++ r.
Proof.
  unfold utf8_next, second_of_three, second_of_four, is_continuation. intros H.
  byte_cases H; unfold is_scalar, utf8_encode.
  all: repeat match goal with
  | |- context [if (?x <? ?y)%Z then _ else _] => destruct (Z.ltb_spec x y); try zdiv_lia
  end.
  all: split_and!; [zdiv_lia | reflexivity |]; eexists; simpl; repeat f_equal; try reflexivity; zdiv_lia.
Qed.

Lemma utf8_next_bad b l n : utf8_next b l = U8Bad n → 1 ≤ n ≤ S (length l).
Proof.
  unfold utf8_next. intros H.
  repeat (case_match; simplify_eq; try (simpl; zdiv_lia)).
Qed.

(** A verdict other than "incomplete" does not depend on what follows. *)
Lemma utf8_next_app b l r : utf8_next b l ≠ U8More → utf8_next b (l ++ r) = utf8_next b l.
Proof.
  unfold utf8_next. intros H.
  destruct l as [|b1 [|b2 [|b3 l]]]; simpl in *; repeat case_match; done.
Qed.

(** ** Lossy decoding of a whole stream

    [lossy fuel l]: the scalars of [l], each invalid sequence read as one
    replacement character, and the incomplete suffix that is left. *)
Fixpoint lossy_loop (fuel : nat) (l : list Z) : list Z * list Z :=
  match fuel, l with
  | O, _ | _, [] => ([], l)
  | S fuel', b0 :: l' =>
      match utf8_next b0 l' with
      | U8Char c n =>
          let '(cs, rest) := lossy_loop fuel' (drop n l) in (c :: cs, rest)
      | U8Bad n =>
          let '(cs, rest) := lossy_loop fuel' (drop n l) in (REPLACEMENT_CHARACTER :: cs, rest)
      | U8More => ([], l)
      end
  end.

Definition lossy (l : list Z) : list Z * list Z := lossy_loop (length l) l.

Lemma utf8_next_width b l c n : utf8_next b l = U8Char c n → 1 ≤ n ≤ S (length l).
Proof.
  intros (_ & -> & r & Hr)%utf8_next_char. pose proof (utf8_encode_length c).
  apply (f_equal length) in Hr. rewrite length_app in Hr. simpl in Hr. lia.
Qed.

Lemma lossy_loop_fuel f f' l : length l ≤ f → length l ≤ f' → lossy_loop f l = lossy_loop f' l.
Proof.
  revert f' l. induction f as [|f IH]; intros [|f'] [|b l] H1 H2; simpl in *; try done; try lia.
  destruct (utf8_next b l) as [c n|n|] eqn:E; [| |done].
  - apply utf8_next_width in E. erewrite IH; [done| |]; rewrite length_drop; simpl; lia.
  - apply utf8_next_bad in E. erewrite IH; [done| |]; rewrite length_drop; simpl; lia.
Qed.

Lemma lossy_cons b l :
  lossy (b :: l) =
    match utf8_next b l with
    | U8Char c n => let '(cs, rest) := lossy (drop n (b :: l)) in (c :: cs, rest)
    | U8Bad n => let '(cs, rest) := lossy (drop n (b :: l)) in (REPLACEMENT_CHARACTER :: cs, rest)
    | U8More => ([], b :: l)
    end.
Proof.
  unfold lossy at 1. cbn [lossy_loop length].
  destruct (utf8_next b l) as [c n|n|] eqn:E; [| |done]; unfold lossy.
  - apply utf8_next_width in E. erewrite lossy_loop_fuel; [done| |];
      rewrite ?length_drop; simpl; lia.
  - apply utf8_next_bad in E. erewrite lossy_loop_fuel; [done| |];
      rewrite ?length_drop; simpl; lia.
Qed.

Lemma utf8_ind (P : list Z → Prop) :
  P [] →
  (∀ b l c n, utf8_next b l = U8Char c n → P (drop n (b :: l)) → P (b :: l)) →
  (∀ b l n, utf8_next b l = U8Bad n → P (drop n (b :: l)) → P (b :: l)) →
  (∀ b l, utf8_next b l = U8More → P (b :: l)) →
  ∀ l, P l.
Proof.
  intros H0 Hc Hb Hm.
  assert (∀ k l, length l ≤ k → P l) as Hk; [|intros l; by apply (Hk (length l))].
  induction k as [|k IH]; intros [|b l] Hl; simpl in Hl; [done|lia|done|].
  destruct (utf8_next b l) as [c n|n|] eqn:E.
  - apply (Hc b l c n E), IH. apply utf8_next_width in E. rewrite length_drop. simpl. lia.
  - apply (Hb b l n E), IH. apply utf8_next_bad in E. rewrite length_drop. simpl. lia.
  - by apply Hm.
Qed.

(** Decoding resumes: the incomplete suffix of a first chunk, put in front of
    the next one, decodes as the whole does. *)
Lemma lossy_app l1 l2 :
  lossy (l1 ++ l2) =
    let '(cs1, r1) := lossy l1 in let '(cs2, r2) := lossy (r1 ++ l2) in (cs1 ++ cs2, r2).
Proof.
  revert l1. apply utf8_ind.
  - change (lossy []) with (@nil Z, @nil Z). simpl. by destruct (lossy l2).
  - intros b l c n E IH. pose proof (utf8_next_width _ _ _ _ E) as Hn.
    rewrite <-app_comm_cons, !lossy_cons, utf8_next_app by congruence. rewrite E.
    rewrite app_comm_cons, drop_app_le by (simpl; lia). rewrite IH.
    destruct (lossy (drop n (b :: l))) as [cs1 r1]. by destruct (lossy (r1 ++ l2)).
  - intros b l n E IH. pose proof (utf8_next_bad _ _ _ E) as Hn.
    rewrite <-app_comm_cons, !lossy_cons, utf8_next_app by congruence. rewrite E.
    rewrite app_comm_cons, drop_app_le by (simpl; lia). rewrite IH.
    destruct (lossy (drop n (b :: l))) as [cs1 r1]. by destruct (lossy (r1 ++ l2)).
  - intros b l E. rewrite (lossy_cons b l), E, <-app_comm_cons. by destruct (lossy (b :: l ++ l2)).
Qed.

Lemma replacement_scalar : is_scalar REPLACEMENT_CHARACTER.
Proof. unfold is_scalar, REPLACEMENT_CHARACTER. lia. Qed.

Lemma lossy_scalars l : Forall is_scalar (lossy l).1.
Proof.
  revert l. apply utf8_ind.
  - constructor.
  - intros b l c n E IH. rewrite lossy_cons, E. apply utf8_next_char in E as [Hc _].
    destruct (lossy (drop n (b :: l))). by constructor.
  - intros b l n E IH. rewrite lossy_cons, E.
    destruct (lossy (drop n (b :: l))). constructor; [apply replacement_scalar|done].
  - intros b l E. rewrite lossy_cons, E. constructor.
Qed.

Lemma encode_all_cons c cs : encode_all (c :: cs) = utf8_encode c ++ encode_all cs.
Proof. done. Qed.
Lemma encode_all_app cs1 cs2 : encode_all (cs1 ++ cs2) = encode_all cs1 ++ encode_all cs2.
Proof. apply bind_app. Qed.

(** At most three bytes are written for one that is read. *)
Lemma lossy_length l : length (encode_all (lossy l).1) ≤ 3 * length l.
Proof.
  revert l. apply utf8_ind.
  - simpl. lia.
  - intros b l c n E IH. rewrite lossy_cons, E. apply utf8_next_char in E as (_ & -> & r & Hr).
    rewrite Hr, drop_app_length in *. destruct (lossy r). simpl in *.
    rewrite encode_all_cons, !length_app. lia.
  - intros b l n E IH. rewrite lossy_cons, E. apply utf8_next_bad in E.
    destruct (lossy (drop n (b :: l))). simpl in *. rewrite length_drop in IH. simpl in IH. lia.
  - intros b l E. rewrite lossy_cons, E. simpl. lia.
Qed.

(** The lossy reading of well-formed text is that text. *)
Lemma lossy_encode cs : Forall is_scalar cs → lossy (encode_all cs) = (cs, []).
Proof.
  induction 1 as [|c cs Hc Hcs IH]; [done|]. rewrite encode_all_cons.
  destruct (utf8_encode_next c (encode_all cs) Hc) as (b & bs & Eb & En).
  rewrite Eb, <-app_comm_cons, lossy_cons, En, app_comm_cons, <-Eb, drop_app_length, IH. done.
Qed.

(** *** The two-stage reading: valid prefix, then the reason it ended *)

Lemma from_utf8_loop_fuel f f' l :
  length l ≤ f → length l ≤ f' → from_utf8_loop f l = from_utf8_loop f' l.
Proof.
  revert f' l. induction f as [|f IH]; intros [|f'] [|b l] H1 H2; simpl in *; try done; try lia.
  destruct (utf8_next b l) as [c n|n|] eqn:E; [|done..].
  apply utf8_next_width in E. erewrite IH; [done| |]; rewrite length_drop; simpl; lia.
Qed.

Lemma from_utf8_cons b l :
  from_utf8 (b :: l) =
    match utf8_next b l with
    | U8Char c n =>
        let '(cs, rest, err) := from_utf8 (drop n (b :: l)) in (c :: cs, rest, err)
    | U8Bad n => ([], b :: l, Some (Utf8ErrorLen n))
    | U8More => ([], b :: l, Some Utf8Incomplete)
    end.
Proof.
  unfold from_utf8 at 1. cbn [from_utf8_loop length].
  destruct (utf8_next b l) as [c n|n|] eqn:E; [|done..]. unfold from_utf8.
  apply utf8_next_width in E. erewrite from_utf8_loop_fuel; [done| |];
    rewrite ?length_drop; simpl; lia.
Qed.

Lemma from_utf8_encode cs r :
  Forall is_scalar cs →
  from_utf8 (encode_all cs ++ r) = let '(cs', rest, err) := from_utf8 r in (cs ++ cs', rest, err).
Proof.
  induction 1 as [|c cs Hc Hcs IH]; [simpl; by destruct (from_utf8 r) as [[??]?]|].
  rewrite encode_all_cons, <-(assoc_L (++)).
  destruct (utf8_encode_next c (encode_all cs ++ r) Hc) as (b & bs & Eb & En).
  rewrite Eb, <-app_comm_cons, from_utf8_cons, En, app_comm_cons, <-Eb, drop_app_length, IH.
  by destruct (from_utf8 r) as [[??]?].
Qed.

Lemma decode_valid_encode cs : Forall is_scalar cs → decode_valid (encode_all cs) = Some cs.
Proof.
  intros H. unfold decode_valid. rewrite <-(app_nil_r (encode_all cs)), from_utf8_encode by done.
  simpl. by rewrite app_nil_r.
Qed.

(** The contract of [Utf8Error]: the bytes before [valid_up_to] are the
    encoding of the scalars read, and the rest fails at its first byte. *)
Lemma from_utf8_spec l cs rest err : from_utf8 l = (cs, rest, err) →
  Forall is_scalar cs ∧ l = encode_all cs ++ rest ∧
  lossy l = (let '(cs', r) := lossy rest in (cs ++ cs', r)) ∧
  match err with
  | None => rest = []
  | Some (Utf8ErrorLen n) => ∃ b r, rest = b :: r ∧ utf8_next b r = U8Bad n
  | Some Utf8Incomplete => ∃ b r, rest = b :: r ∧ utf8_next b r = U8More
  end.
Proof.
  revert l cs rest err. apply (utf8_ind (λ l, ∀ cs rest err, _ → _)).
  - intros cs rest err [= <- <- <-]. done.
  - intros b l c n E IH cs rest err. rewrite from_utf8_cons, E.
    destruct (from_utf8 (drop n (b :: l))) as [[cs' rest'] err'] eqn:E'. intros [= <- <- <-].
    destruct (IH _ _ _ eq_refl) as (H1 & H2 & H3 & H4).
    rewrite lossy_cons, E, H3.
    apply utf8_next_char in E as (Hc & -> & r & Hr). rewrite Hr, drop_app_length in *.
    split_and!; [by constructor| |by destruct (lossy rest')|done].
    rewrite encode_all_cons, <-(assoc_L (++)). by rewrite <-H2.
  - intros b l n E _ cs rest err. rewrite from_utf8_cons, E. intros [= <- <- <-].
    split_and!; [done|done|by destruct (lossy (b :: l))|eauto].
  - intros b l E cs rest err. rewrite from_utf8_cons, E. intros [= <- <- <-].
    split_and!; [done|done|by destruct (lossy (b :: l))|eauto].
Qed.

(** [String::from_utf8_lossy]: an unfinished last sequence is one replacement
    character too. *)
Definition from_utf8_lossy (bytes : list Z) : list Z :=
  let '(cs, rest) := lossy bytes in
  cs ++ match rest with [] => [] | _ => [REPLACEMENT_CHARACTER] end.

Lemma from_utf8_lossy_scalars bytes : Forall is_scalar (from_utf8_lossy bytes).
Proof.
  unfold from_utf8_lossy. pose proof (lossy_scalars bytes) as H. destruct (lossy bytes) as [cs rest].
  apply Forall_app_2; [done|].
  destruct rest; [constructor|]. constructor; [apply replacement_scalar|constructor].
Qed.
