(* ===== verification/ProcessOutput.v ===== *)
(** * tool/process/output.rs: the bounded output of a child process

    The buffer keeps a stable head and a rolling tail of a stream whose bytes
    arrive in arbitrary chunks.  [retained] is the reference: what must be
    kept of a list of scalars.  The theorems say that the code keeps exactly
    that whatever the chunks, that the byte accounts add up, and that paging
    with cursors delivers every retained byte once and terminates. *)

From S2P Require Import Prelude Utf8.
Local Open Scope Z_scope.
Local Open Scope acn_scope.

Module ProcessOutput.

(** ** Data *)

Record ProcessOutput := {
  po_bytes : list Z;
  po_cursor : Z;
  po_truncated : bool;
  po_omitted_bytes : Z;
  po_page_contiguous : bool;
  po_has_more_retained : bool;
}.

Record BoundedOutput := {
  max_bytes : Z;
  head_limit : Z;
  head : list Z;
  head_sealed : bool;
  tail : list Z;
  head_chars : Z;
  tail_chars : Z;
  pending_utf8 : list Z;
  cursor : Z;
  omitted_bytes : Z;
  incomplete : bool;
}.

Definition new (max_bytes : Z) : BoundedOutput := {|
  max_bytes := max_bytes; head_limit := max_bytes / 2;
  head := []; head_sealed := false; tail := []; head_chars := 0; tail_chars := 0;
  pending_utf8 := []; cursor := 0; omitted_bytes := 0; incomplete := false |}.

Definition set_pending (p : list Z) (o : BoundedOutput) : BoundedOutput := {|
  max_bytes := max_bytes o; head_limit := head_limit o; head := head o;
  head_sealed := head_sealed o; tail := tail o; head_chars := head_chars o;
  tail_chars := tail_chars o; pending_utf8 := p; cursor := cursor o;
  omitted_bytes := omitted_bytes o; incomplete := incomplete o |}.

Definition mark_incomplete (o : BoundedOutput) : BoundedOutput := {|
  max_bytes := max_bytes o; head_limit := head_limit o; head := head o;
  head_sealed := head_sealed o; tail := tail o; head_chars := head_chars o;
  tail_chars := tail_chars o; pending_utf8 := pending_utf8 o; cursor := cursor o;
  omitted_bytes := omitted_bytes o; incomplete := true |}.

Definition blen (l : list Z) : Z := Z.of_nat (length l).

(** ** Operations *)

(** [pop_front_utf8_scalar]: the remaining deque and the announced width. *)
Definition pop_front_utf8_scalar (tail : list Z) : list Z * Z :=
  match tail with
  | [] => (tail, 0)
  | first :: _ => (drop (scalar_width first) tail, Z.of_nat (scalar_width first))
  end.

(** The [while] of append_char.  Each round pops at least one byte of a
    non-empty tail, so [length tail] rounds are enough. *)
Fixpoint make_room (fuel : nat) (need limit : Z) (st : list Z * Z * Z) : list Z * Z * Z :=
  let '(tail, tail_chars, omitted) := st in
  match fuel with
  | O => st
  | S fuel' =>
      if limit <? blen tail +sat need then
        let '(tail', removed) := pop_front_utf8_scalar tail in
        make_room fuel' need limit (tail', tail_chars -sat 1, omitted +sat removed)
      else st
  end.

Definition append_char (value : Z) (o : BoundedOutput) : BoundedOutput :=
  let cursor' := cursor o +sat 1 in
  let bytes := utf8_encode value in
  if negb (head_sealed o) && (blen (head o) +sat blen bytes <=? head_limit o) then
    {| max_bytes := max_bytes o; head_limit := head_limit o; head := head o ++ bytes;
       head_sealed := head_sealed o; tail := tail o; head_chars := head_chars o +sat 1;
       tail_chars := tail_chars o; pending_utf8 := pending_utf8 o; cursor := cursor';
       omitted_bytes := omitted_bytes o; incomplete := incomplete o |}
  else
    let tail_limit := max_bytes o -sat blen (head o) in
    if tail_limit <? blen bytes then
      {| max_bytes := max_bytes o; head_limit := head_limit o; head := head o;
         head_sealed := true; tail := []; head_chars := head_chars o; tail_chars := 0;
         pending_utf8 := pending_utf8 o; cursor := cursor';
         omitted_bytes := omitted_bytes o +sat (blen (tail o) +sat blen bytes);
         incomplete := incomplete o |}
    else
      let '(tail', tail_chars', omitted') :=
        make_room (length (tail o)) (blen bytes) tail_limit
          (tail o, tail_chars o, omitted_bytes o) in
      {| max_bytes := max_bytes o; head_limit := head_limit o; head := head o;
         head_sealed := true; tail := tail' ++ bytes; head_chars := head_chars o;
         tail_chars := tail_chars' +sat 1; pending_utf8 := pending_utf8 o; cursor := cursor';
         omitted_bytes := omitted'; incomplete := incomplete o |}.

Definition append_chars (cs : list Z) (o : BoundedOutput) : BoundedOutput :=
  fold_left (λ o c, append_char c o) cs o.

(** The [loop] of append: a round either ends it or drains at least one byte
    of the pending buffer. *)
Fixpoint append_loop (fuel : nat) (o : BoundedOutput) : BoundedOutput :=
  match fuel with
  | O => o
  | S fuel' =>
      match from_utf8 (pending_utf8 o) with
      | (cs, _, None) => append_chars cs (set_pending [] o)
      | (_, rest, Some err) =>
          let valid_up_to := (length (pending_utf8 o) - length rest)%nat in
          if (0 <? valid_up_to)%nat then
            match decode_valid (take valid_up_to (pending_utf8 o)) with
            | None => mark_incomplete o
            | Some cs =>
                append_loop fuel'
                  (append_chars cs (set_pending (drop valid_up_to (pending_utf8 o)) o))
            end
          else
            match err with
            | Utf8Incomplete => o
            | Utf8ErrorLen n =>
                append_loop fuel'
                  (append_char REPLACEMENT_CHARACTER (set_pending (drop n (pending_utf8 o)) o))
            end
      end
  end.

Definition append (bytes : list Z) (o : BoundedOutput) : BoundedOutput :=
  let o := set_pending (pending_utf8 o ++ bytes) o in
  append_loop (S (length (pending_utf8 o))) o.

Definition finish (o : BoundedOutput) : BoundedOutput :=
  match pending_utf8 o with
  | [] => o
  | _ => append_char REPLACEMENT_CHARACTER (set_pending [] o)
  end.

Definition render_bytes (head tail : list Z) : list Z := head ++ tail.

Definition snapshot (o : BoundedOutput) : ProcessOutput := {|
  po_bytes := render_bytes (head o) (tail o);
  po_cursor := cursor o;
  po_truncated := (0 <? omitted_bytes o) || incomplete o;
  po_omitted_bytes := omitted_bytes o;
  po_page_contiguous := omitted_bytes o =? 0;
  po_has_more_retained := false |}.

(** [tail_from_char_offset]: the offset loop, then the skip. *)
Fixpoint char_offset (n : nat) (l : list Z) (byte_offset : nat) : option nat :=
  match n with
  | O => Some byte_offset
  | S n' =>
      match l !! byte_offset with
      | None => None
      | Some first => char_offset n' l (byte_offset + scalar_width first)%nat
      end
  end.

Definition tail_from_char_offset (tail : list Z) (offset : nat) : list Z :=
  match char_offset offset tail 0 with
  | None => []
  | Some byte_offset => drop byte_offset tail
  end.

(** [text.chars().skip(skip).collect::<String>().into_bytes()], empty when
    the bytes are not valid text. *)
Definition skip_chars (skip : Z) (bytes : list Z) : list Z :=
  match decode_valid bytes with
  | Some cs => encode_all (drop (Z.to_nat skip) cs)
  | None => []
  end.

Definition snapshot_since (c : Z) (o : BoundedOutput) : ProcessOutput :=
  let current := snapshot o in
  if cursor o <? c then
    {| po_bytes := []; po_cursor := po_cursor current; po_truncated := true;
       po_omitted_bytes := po_omitted_bytes current; po_page_contiguous := false;
       po_has_more_retained := false |}
  else if c =? cursor o then
    {| po_bytes := []; po_cursor := po_cursor current; po_truncated := po_truncated current;
       po_omitted_bytes := po_omitted_bytes current; po_page_contiguous := true;
       po_has_more_retained := false |}
  else if omitted_bytes o =? 0 then
    {| po_bytes := skip_chars c (po_bytes current); po_cursor := po_cursor current;
       po_truncated := po_truncated current; po_omitted_bytes := po_omitted_bytes current;
       po_page_contiguous := true; po_has_more_retained := false |}
  else
    let head_len := head_chars o in
    if c <? head_len then
      {| po_bytes := skip_chars c (head o); po_cursor := head_len; po_truncated := true;
         po_omitted_bytes := po_omitted_bytes current; po_page_contiguous := true;
         po_has_more_retained := true |}
    else
      let tail_start := cursor o -sat tail_chars o in
      if c <? tail_start then
        {| po_bytes := []; po_cursor := tail_start; po_truncated := true;
           po_omitted_bytes := po_omitted_bytes current; po_page_contiguous := true;
           po_has_more_retained := negb (bool_decide (tail o = [])) |}
      else
        {| po_bytes := tail_from_char_offset (tail o) (Z.to_nat (c -sat tail_start));
           po_cursor := po_cursor current; po_truncated := po_truncated current;
           po_omitted_bytes := po_omitted_bytes current; po_page_contiguous := true;
           po_has_more_retained := false |}.

(** A reader: read a page, go on from its cursor while there is more. *)
Fixpoint read_pages (fuel : nat) (c : Z) (o : BoundedOutput) : list ProcessOutput :=
  match fuel with
  | O => []
  | S fuel' =>
      let p := snapshot_since c o in
      p :: if po_has_more_retained p then read_pages fuel' (po_cursor p) o else []
  end.

(** ** The reference: what is kept of a list of scalars *)

Definition width (c : Z) : Z := blen (utf8_encode c).
Definition size (cs : list Z) : Z := blen (encode_all cs).

(** How many scalars the longest prefix of at most [limit] bytes has. *)
Fixpoint fit (limit : Z) (cs : list Z) : nat :=
  match cs with
  | [] => 0
  | c :: cs' => if width c <=? limit then S (fit (limit - width c) cs') else 0
  end.

(** Where the longest suffix of at most [limit] bytes starts. *)
Fixpoint tail_drop (limit : Z) (cs : list Z) : nat :=
  match cs with
  | [] => 0
  | _ :: cs' => if size cs <=? limit then 0 else S (tail_drop limit cs')
  end.

Definition kept_head (m : Z) (cs : list Z) : nat := fit (m / 2) cs.
Definition tail_budget (m : Z) (cs : list Z) : Z := m - size (take (kept_head m cs) cs).
Definition kept_tail (m : Z) (cs : list Z) : nat :=
  (kept_head m cs + tail_drop (tail_budget m cs) (drop (kept_head m cs) cs))%nat.

Definition retained (m : Z) (cs pending : list Z) : BoundedOutput :=
  let h := kept_head m cs in
  let k := kept_tail m cs in
  {| max_bytes := m; head_limit := m / 2;
     head := encode_all (take h cs);
     head_sealed := negb (h =? length cs)%nat;
     tail := encode_all (drop k cs);
     head_chars := Z.of_nat h;
     tail_chars := Z.of_nat (length cs - k);
     pending_utf8 := pending;
     cursor := Z.of_nat (length cs);
     omitted_bytes := size (take (k - h) (drop h cs));
     incomplete := false |}.

(** ** Sizes *)

Lemma width_bounds c : 1 ≤ width c ≤ 4.
Proof. unfold width, blen. pose proof (utf8_encode_length c). lia. Qed.

Lemma blen_app l1 l2 : blen (l1 ++ l2) = blen l1 + blen l2.
Proof. unfold blen. rewrite length_app. lia. Qed.

Lemma size_nil : size [] = 0.
Proof. done. Qed.

Lemma size_cons c cs : size (c :: cs) = width c + size cs.
Proof. unfold size, width. by rewrite encode_all_cons, blen_app. Qed.

Lemma size_app cs1 cs2 : size (cs1 ++ cs2) = size cs1 + size cs2.
Proof. unfold size. by rewrite encode_all_app, blen_app. Qed.

Lemma size_snoc cs c : size (cs ++ [c]) = size cs + width c.
Proof. rewrite size_app, size_cons, size_nil. lia. Qed.

Lemma size_length cs : Z.of_nat (length cs) ≤ size cs.
Proof.
  induction cs as [|c cs IH]; [done|]. rewrite size_cons. pose proof (width_bounds c). simpl. lia.
Qed.

Lemma size_take_drop n cs : size cs = size (take n cs) + size (drop n cs).
Proof. by rewrite <-size_app, take_drop. Qed.

Lemma fit_le limit cs : (fit limit cs ≤ length cs)%nat.
Proof.
  revert limit. induction cs as [|c cs IH]; intros limit; simpl; [done|].
  case_match; [|lia]. specialize (IH (limit - width c)). lia.
Qed.

Lemma fit_size limit cs : 0 ≤ limit → size (take (fit limit cs) cs) ≤ limit.
Proof.
  revert limit. induction cs as [|c cs IH]; intros limit Hl; simpl; [done|].
  destruct (Z.leb_spec (width c) limit); simpl; [|done].
  rewrite size_cons. specialize (IH (limit - width c)). lia.
Qed.

Lemma fit_snoc limit cs c :
  fit limit (cs ++ [c]) =
    if (fit limit cs =? length cs)%nat && (size cs + width c <=? limit)
    then S (length cs) else fit limit cs.
Proof.
  revert limit. induction cs as [|d cs IH]; intros limit.
  - simpl. rewrite size_nil, Z.add_0_l. by destruct (width c <=? limit).
  - rewrite size_cons. simpl. destruct (Z.leb_spec (width d) limit); [|done].
    rewrite IH. simpl Nat.eqb.
    replace (size cs + width c <=? limit - width d)
      with (width d + size cs + width c <=? limit)
      by (apply Bool.eq_iff_eq_true; rewrite !Z.leb_le; lia).
    by case_match.
Qed.

Lemma fit_all limit cs : fit limit cs = length cs → 0 ≤ limit → size cs ≤ limit.
Proof. intros H Hl. pose proof (fit_size limit cs Hl) as Hs. rewrite H, firstn_all in Hs. done. Qed.

Lemma tail_drop_le limit cs : (tail_drop limit cs ≤ length cs)%nat.
Proof. induction cs as [|c cs IH]; simpl; [done|]. case_match; lia. Qed.

Lemma tail_drop_size limit cs : 0 ≤ limit → size (drop (tail_drop limit cs) cs) ≤ limit.
Proof.
  intros Hl. induction cs as [|c cs IH]; [done|]. cbn [tail_drop].
  destruct (Z.leb_spec (size (c :: cs)) limit); done.
Qed.

Lemma tail_drop_fits limit cs : size cs ≤ limit → tail_drop limit cs = 0%nat.
Proof. destruct cs as [|c cs]; [done|]. intros H. cbn [tail_drop]. by destruct (Z.leb_spec (size (c :: cs)) limit); [|lia]. Qed.

Lemma tail_drop_twice l' l cs : l' ≤ l →
  tail_drop l' cs = (tail_drop l cs + tail_drop l' (drop (tail_drop l cs) cs))%nat.
Proof.
  intros Hl. induction cs as [|c cs IH]; [done|]. cbn [tail_drop].
  destruct (Z.leb_spec (size (c :: cs)) l) as [H1|H1]; [done|].
  destruct (Z.leb_spec (size (c :: cs)) l') as [H2|H2]; [lia|]. simpl. by rewrite IH.
Qed.

Lemma tail_drop_snoc limit cs c : 0 ≤ limit →
  tail_drop limit (cs ++ [c]) =
    if limit <? width c then S (length cs) else tail_drop (limit - width c) cs.
Proof.
  intros H0. induction cs as [|d cs IH].
  - simpl. rewrite size_cons, size_nil.
    destruct (Z.ltb_spec limit (width c)); destruct (Z.leb_spec (width c + 0) limit); done || lia.
  - rewrite <-app_comm_cons. cbn [tail_drop]. rewrite IH, app_comm_cons, size_snoc. clear IH.
    rewrite size_cons.
    pose proof (width_bounds d). pose proof (size_length cs).
    destruct (Z.ltb_spec limit (width c)).
    + destruct (Z.leb_spec (width d + size cs + width c) limit); [lia|done].
    + replace (width d + size cs + width c <=? limit) with (width d + size cs <=? limit - width c)
        by (apply Bool.eq_iff_eq_true; rewrite !Z.leb_le; lia).
      done.
Qed.

(** ** append_char keeps what the reference keeps *)

Lemma blen_encode cs : blen (encode_all cs) = size cs.
Proof. done. Qed.

Lemma encode_all_snoc cs c : encode_all (cs ++ [c]) = encode_all cs ++ utf8_encode c.
Proof. rewrite encode_all_app, encode_all_cons. by rewrite app_nil_r. Qed.

Lemma pop_front_scalar c cs : is_scalar c →
  pop_front_utf8_scalar (encode_all (c :: cs)) = (encode_all cs, width c).
Proof.
  intros (b & bs & Eb & Ew)%utf8_encode_width. rewrite encode_all_cons. unfold width, blen.
  assert (utf8_encode c ++ encode_all cs = b :: bs ++ encode_all cs) as E by (by rewrite Eb).
  unfold pop_front_utf8_scalar. rewrite E, Ew, <-E, drop_app_length. done.
Qed.

Lemma make_room_spec fuel need limit ts om :
  Forall is_scalar ts → (length ts ≤ fuel)%nat → 0 ≤ om → 0 ≤ need ≤ limit →
  om + size ts + need ≤ u64_max →
  make_room fuel need limit (encode_all ts, Z.of_nat (length ts), om) =
    let j := tail_drop (limit - need) ts in
    (encode_all (drop j ts), Z.of_nat (length ts - j), om + size (take j ts)).
Proof.
  revert ts om. induction fuel as [|fuel IH]; intros ts om Hts Hf Hom Hl Hmax.
  - destruct ts; [|simpl in Hf; lia]. simpl. by rewrite size_nil, Z.add_0_r.
  - cbn [make_room]. rewrite blen_encode, sat_add_small by lia.
    destruct ts as [|c ts].
    + rewrite size_nil. destruct (Z.ltb_spec limit (0 + need)); [lia|].
      simpl. by rewrite size_nil, Z.add_0_r.
    + inversion Hts as [|? ? Hc Hts']; subst. cbn [tail_drop].
      destruct (Z.ltb_spec limit (size (c :: ts) + need));
        destruct (Z.leb_spec (size (c :: ts)) (limit - need)); try lia.
      * rewrite pop_front_scalar by done. simpl in Hf. rewrite size_cons in *.
        pose proof (width_bounds c). pose proof (size_length ts).
        rewrite sat_add_small by lia.
        replace (sat_sub (Z.of_nat (length (c :: ts))) 1) with (Z.of_nat (length ts))
          by (unfold sat_sub; simpl; lia).
        rewrite IH by (done || lia). cbn zeta. simpl drop. simpl take. rewrite size_cons.
        by rewrite (Z.add_assoc om).
      * simpl. by rewrite size_nil, Z.add_0_r.
Qed.

Ltac po_simpl :=
  cbn [max_bytes head_limit head head_sealed tail head_chars tail_chars pending_utf8 cursor
       omitted_bytes incomplete negb andb].

Section keep.
Context (m : Z) (Hm : 0 ≤ m ≤ u64_max).

Lemma half_bounds : 0 ≤ m / 2 ≤ m.
Proof. zdiv_lia. Qed.

Lemma kept_head_le cs : (kept_head m cs ≤ length cs)%nat.
Proof. apply fit_le. Qed.

Lemma kept_head_size cs : size (take (kept_head m cs) cs) ≤ m / 2.
Proof. apply fit_size, half_bounds. Qed.

Lemma tail_budget_nonneg cs : 0 ≤ tail_budget m cs.
Proof. unfold tail_budget. pose proof (kept_head_size cs). pose proof half_bounds. lia. Qed.

Lemma kept_tail_le cs : (kept_head m cs ≤ kept_tail m cs ≤ length cs)%nat.
Proof.
  unfold kept_tail. pose proof (kept_head_le cs).
  pose proof (tail_drop_le (tail_budget m cs) (drop (kept_head m cs) cs)) as H2.
  rewrite length_drop in H2. lia.
Qed.

(** Head, gap and tail are a split of the scalars. *)
Lemma kept_split cs :
  size cs = size (take (kept_head m cs) cs)
    + size (take (kept_tail m cs - kept_head m cs) (drop (kept_head m cs) cs))
    + size (drop (kept_tail m cs) cs).
Proof.
  pose proof (kept_tail_le cs). rewrite (size_take_drop (kept_head m cs) cs) at 1.
  rewrite (size_take_drop (kept_tail m cs - kept_head m cs) (drop (kept_head m cs) cs)) at 1.
  rewrite drop_drop.
  replace (kept_head m cs + (kept_tail m cs - kept_head m cs))%nat with (kept_tail m cs) by lia.
  lia.
Qed.

Lemma kept_head_snoc cs c :
  kept_head m (cs ++ [c]) =
    if (kept_head m cs =? length cs)%nat && (size cs + width c <=? m / 2)
    then S (length cs) else kept_head m cs.
Proof. apply fit_snoc. Qed.

Lemma append_char_head cs c p :
  kept_head m cs = length cs → size cs + width c ≤ m / 2 →
  append_char c (retained m cs p) = retained m (cs ++ [c]) p.
Proof.
  intros Hh Hsz. pose proof (width_bounds c). pose proof (size_length cs).
  pose proof half_bounds.
  assert (kept_head m (cs ++ [c]) = S (length cs)) as Hh'.
  { rewrite kept_head_snoc, Hh, Nat.eqb_refl, (proj2 (Z.leb_le _ _) Hsz). done. }
  assert (kept_tail m cs = length cs) as Hk by (pose proof (kept_tail_le cs); lia).
  assert (length (cs ++ [c]) = S (length cs)) as Hlen by (rewrite length_app; simpl; lia).
  assert (kept_tail m (cs ++ [c]) = S (length cs)) as Hk'
    by (pose proof (kept_tail_le (cs ++ [c])); lia).
  unfold append_char, retained. po_simpl.
  rewrite Hh, Nat.eqb_refl, firstn_all, blen_encode. fold (width c).
  rewrite (sat_add_small (size cs)) by lia. rewrite (proj2 (Z.leb_le _ _) Hsz). po_simpl.
  rewrite Hh', Hk', Hk, Hlen, Nat.eqb_refl, !Nat.sub_diag, <-encode_all_snoc.
  rewrite !sat_add_small by lia. rewrite !drop_ge, !take_ge by (simpl; lia).
  f_equal; lia.
Qed.

(** Once the head is sealed, a further scalar only moves the tail. *)
Lemma kept_sealed cs c :
  (kept_head m cs =? length cs)%nat && (size cs + width c <=? m / 2) = false →
  kept_head m (cs ++ [c]) = kept_head m cs ∧
  tail_budget m (cs ++ [c]) = tail_budget m cs ∧
  kept_tail m (cs ++ [c]) =
    if tail_budget m cs <? width c then S (length cs)
    else (kept_tail m cs
          + tail_drop (tail_budget m cs - width c) (drop (kept_tail m cs) cs))%nat.
Proof.
  intros Hs. assert (kept_head m (cs ++ [c]) = kept_head m cs) as Hh
    by (rewrite kept_head_snoc, Hs; done).
  assert (tail_budget m (cs ++ [c]) = tail_budget m cs) as Hb.
  { unfold tail_budget. rewrite Hh, take_app_le; [done|]. apply kept_head_le. }
  split_and!; [done..|]. pose proof (kept_head_le cs). unfold kept_tail at 1.
  rewrite Hh, Hb, drop_app_le, tail_drop_snoc by (apply tail_budget_nonneg || done).
  case_match; [rewrite length_drop; lia|].
  pose proof (width_bounds c). unfold kept_tail.
  rewrite (tail_drop_twice (tail_budget m cs - width c) (tail_budget m cs)) by lia.
  rewrite drop_drop. lia.
Qed.

Lemma sealed_branch cs c :
  (kept_head m cs =? length cs)%nat && (size cs + width c <=? m / 2) = false →
  size cs + width c ≤ u64_max →
  (kept_head m cs =? length cs)%nat
    && (size (take (kept_head m cs) cs) +sat width c <=? m / 2) = false.
Proof.
  intros Hs Hmax. destruct (Nat.eqb_spec (kept_head m cs) (length cs)) as [Hh|]; [|done].
  rewrite Hh, take_ge, sat_add_small by lia. done.
Qed.

Lemma append_char_tail cs c p :
  Forall is_scalar cs →
  (kept_head m cs =? length cs)%nat && (size cs + width c <=? m / 2) = false →
  size cs + width c ≤ u64_max →
  append_char c (retained m cs p) = retained m (cs ++ [c]) p.
Proof.
  intros Hcs Hs Hmax. pose proof (width_bounds c). pose proof (size_length cs).
  destruct (kept_sealed cs c Hs) as (Hh & Hb & Hk).
  pose proof (kept_head_le cs) as Hhl. pose proof (kept_tail_le cs) as Hkl.
  pose proof (sealed_branch cs c Hs Hmax) as Hbr.
  pose proof (kept_split cs) as Hsplit. pose proof (tail_budget_nonneg cs) as Hb0.
  assert (length (cs ++ [c]) = S (length cs)) as Hlen by (rewrite length_app; simpl; lia).
  set (h := kept_head m cs) in *. set (k := kept_tail m cs) in *.
  assert (∀ l : list Z, 0 ≤ size l) as Hpos by (intros l; pose proof (size_length l); lia).
  pose proof (Hpos (take h cs)). pose proof (Hpos (drop k cs)).
  pose proof (Hpos (take (k - h) (drop h cs))).
  pose proof (half_bounds). pose proof (kept_head_size cs) as Hhs. fold h in Hhs.
  assert (sat_sub m (size (take h cs)) = tail_budget m cs) as Hlim.
  { unfold sat_sub, tail_budget. fold h. lia. }
  assert ((h =? S (length cs))%nat = false) as Hseal by (apply Nat.eqb_neq; lia).
  unfold append_char, retained. po_simpl. fold h k. rewrite Bool.negb_involutive, !blen_encode.
  fold (width c). rewrite Hbr. po_simpl.
  rewrite Hh, Hk, Hlen, Hseal, Hlim, (take_app_le cs) by done. po_simpl.
  destruct (Z.ltb_spec (tail_budget m cs) (width c)).
  - rewrite (sat_add_small (size (drop k cs))), !sat_add_small by lia. rewrite (drop_ge (cs ++ [c])) by lia.
    rewrite Nat.sub_diag. f_equal; [lia|]. rewrite drop_app_le by done.
    rewrite (take_ge (drop h cs ++ [c])) by (rewrite length_app, length_drop; simpl; lia).
    rewrite size_snoc, (size_take_drop (k - h) (drop h cs)), drop_drop.
    replace (h + (k - h))%nat with k by lia. lia.
  - set (j := tail_drop (tail_budget m cs - width c) (drop k cs)) in *.
    assert (j ≤ length cs - k)%nat as Hj
      by (etrans; [apply tail_drop_le|]; by rewrite length_drop).
    replace (Z.of_nat (length cs - k)) with (Z.of_nat (length (drop k cs)))
      by (by rewrite length_drop).
    rewrite make_room_spec; [|by apply Forall_drop| |lia..].
    2: { pose proof (size_length (drop k cs)). unfold size, blen in *. lia. }
    fold j. cbn zeta. rewrite !sat_add_small by (rewrite ?length_drop; lia).
    rewrite <-encode_all_snoc, drop_drop, length_drop. f_equal; [|lia|lia|].
    + rewrite drop_app_le by lia. done.
    + rewrite drop_app_le, take_app_le by (rewrite ?length_drop; lia).
      replace (k + j - h)%nat with ((k - h) + j)%nat by lia.
      rewrite <-(take_take_drop (drop h cs) (k - h) j), size_app, drop_drop.
      by replace (h + (k - h))%nat with k by lia.
Qed.

Lemma append_char_retained cs c p :
  Forall is_scalar cs → size cs + width c ≤ u64_max →
  append_char c (retained m cs p) = retained m (cs ++ [c]) p.
Proof.
  intros Hcs Hmax.
  destruct ((kept_head m cs =? length cs)%nat && (size cs + width c <=? m / 2)) eqn:E.
  - apply andb_true_iff in E as [E1%Nat.eqb_eq E2%Z.leb_le]. by apply append_char_head.
  - by apply append_char_tail.
Qed.

Lemma append_chars_retained cs cs' p :
  Forall is_scalar cs → Forall is_scalar cs' → size (cs ++ cs') ≤ u64_max →
  append_chars cs' (retained m cs p) = retained m (cs ++ cs') p.
Proof.
  intros Hcs Hcs'. revert cs Hcs. induction Hcs' as [|c cs' Hc Hcs' IH]; intros cs Hcs Hmax.
  - by rewrite app_nil_r.
  - unfold append_chars in *. simpl. rewrite size_app, size_cons in Hmax.
    pose proof (size_length cs'). rewrite append_char_retained by (done || lia).
    rewrite IH, <-(assoc_L (++)); [done| |].
    + by apply Forall_app_2; [|constructor].
    + rewrite <-(assoc_L (++)), size_app. simpl. rewrite size_cons. lia.
Qed.

Lemma set_pending_retained cs p q : set_pending q (retained m cs p) = retained m cs q.
Proof. done. Qed.

Lemma append_loop_retained fuel cs p :
  (length p < fuel)%nat → Forall is_scalar cs → size (cs ++ (lossy p).1) ≤ u64_max →
  append_loop fuel (retained m cs p) = retained m (cs ++ (lossy p).1) (lossy p).2.
Proof.
  revert cs p. induction fuel as [|fuel IH]; intros cs p Hf Hcs Hmax; [lia|].
  cbn [append_loop]. change (pending_utf8 (retained m cs p)) with p.
  destruct (from_utf8 p) as [[cs1 rest] err] eqn:E.
  destruct (from_utf8_spec _ _ _ _ E) as (H1 & H2 & H3 & H4).
  rewrite H3 in Hmax |- *. destruct (lossy rest) as [cs2 r2] eqn:E2. cbn [fst snd] in *.
  assert (size (cs ++ cs1) ≤ u64_max) as Hmax1.
  { rewrite (assoc_L (++)), size_app in Hmax. pose proof (size_length cs2). lia. }
  destruct err as [err|].
  2: { subst rest. rewrite set_pending_retained, append_chars_retained by done. injection E2 as <- <-.
       by rewrite app_nil_r. }
  assert (length p - length rest = length (encode_all cs1))%nat as ->
    by (rewrite H2, length_app; lia).
  destruct (Nat.ltb_spec 0 (length (encode_all cs1))) as [Hv|Hv].
  - rewrite H2, take_app_length, drop_app_length, decode_valid_encode by done.
    rewrite set_pending_retained, append_chars_retained by done.
    rewrite H2, length_app in Hf. rewrite IH; rewrite ?E2; cbn [fst snd].
    + by rewrite (assoc_L (++)).
    + lia.
    + by apply Forall_app_2.
    + by rewrite <-(assoc_L (++)).
  - assert (cs1 = []) as ->.
    { destruct cs1 as [|c ?]; [done|]. pose proof (size_length (c :: cs1)) as Hs.
      unfold size, blen in Hs. simpl in Hs. lia. }
    change (p = rest) in H2. subst rest. simpl app in *. destruct err as [n|].
    + destruct H4 as (b & r & -> & Hb). pose proof (utf8_next_bad _ _ _ Hb) as Hn.
      rewrite lossy_cons, Hb in E2. destruct (lossy (drop n (b :: r))) as [cs3 r3] eqn:E3.
      injection E2 as <- <-.
      rewrite set_pending_retained, append_char_retained; [|done|].
      2: { rewrite size_app, size_cons in Hmax. pose proof (size_length cs3). lia. }
      rewrite IH; rewrite ?E3; cbn [fst snd].
      * by rewrite <-(assoc_L (++)).
      * rewrite length_drop. simpl in *. lia.
      * apply Forall_app_2; [done|]. constructor; [apply replacement_scalar|constructor].
      * by rewrite <-(assoc_L (++)).
    + destruct H4 as (b & r & -> & Hb). rewrite lossy_cons, Hb in E2. injection E2 as <- <-.
      by rewrite app_nil_r.
Qed.

Lemma append_retained cs p bytes :
  Forall is_scalar cs → size (cs ++ (lossy (p ++ bytes)).1) ≤ u64_max →
  append bytes (retained m cs p) =
    retained m (cs ++ (lossy (p ++ bytes)).1) (lossy (p ++ bytes)).2.
Proof.
  intros Hcs Hmax. unfold append.
  rewrite set_pending_retained. apply append_loop_retained; [|done..]. simpl. lia.
Qed.

Lemma new_retained : new m = retained m [] [].
Proof. done. Qed.
End keep.

(** What the drain worker of a stream leaves after these reads. *)
Definition appended (m : Z) (chunks : list (list Z)) : BoundedOutput :=
  fold_left (λ o bytes, append bytes o) chunks (new m).

Lemma appended_retained m chunks :
  0 ≤ m ≤ u64_max → 3 * blen (mjoin chunks) ≤ u64_max →
  appended m chunks = retained m (lossy (mjoin chunks)).1 (lossy (mjoin chunks)).2.
Proof.
  intros Hm Hmax. unfold appended. rewrite new_retained.
  assert (∀ done rest, 3 * blen (done ++ mjoin rest) ≤ u64_max →
    fold_left (λ o bytes, append bytes o) rest (retained m (lossy done).1 (lossy done).2) =
    retained m (lossy (done ++ mjoin rest)).1 (lossy (done ++ mjoin rest)).2) as Hgen.
  { clear chunks Hmax. intros d rest. revert d.
    induction rest as [|b rest IH]; intros d Hd; [by rewrite app_nil_r|].
    cbn [fold_left]. change (mjoin (b :: rest)) with (b ++ mjoin rest) in *.
    assert (size (lossy (d ++ b)).1 ≤ u64_max) as Hs.
    { pose proof (lossy_length (d ++ b)). rewrite (assoc_L (++)), blen_app in Hd.
      unfold size, blen in *. lia. }
    pose proof (lossy_app d b) as Happ. pose proof (lossy_scalars d) as Hsc.
    destruct (lossy d) as [cs1 r1]. destruct (lossy (r1 ++ b)) as [cs2 r2] eqn:E.
    rewrite Happ in Hs. cbn [fst snd] in *.
    rewrite append_retained; rewrite ?E; cbn [fst snd]; [|done..].
    rewrite (assoc_L (++)), <-IH by (by rewrite <-(assoc_L (++))). by rewrite Happ. }
  by apply (Hgen []).
Qed.

(** ** Paging *)

Lemma skip_chars_encode n cs : Forall is_scalar cs →
  skip_chars (Z.of_nat n) (encode_all cs) = encode_all (drop n cs).
Proof. intros H. unfold skip_chars. by rewrite decode_valid_encode, Nat2Z.id. Qed.

Lemma char_offset_encode n pre cs : Forall is_scalar cs → (n ≤ length cs)%nat →
  char_offset n (pre ++ encode_all cs) (length pre) =
    Some (length (pre ++ encode_all (take n cs))).
Proof.
  revert pre cs. induction n as [|n IH]; intros pre cs Hcs Hn.
  - simpl. by rewrite app_nil_r.
  - destruct Hcs as [|c cs Hc Hcs]; [simpl in Hn; lia|]. cbn [char_offset take].
    destruct (utf8_encode_width c Hc) as (b & bs & Eb & Ew).
    rewrite !encode_all_cons, lookup_app_r, Nat.sub_diag by done.
    assert ((utf8_encode c ++ encode_all cs) !! 0%nat = Some b) as -> by (by rewrite Eb).
    rewrite Ew, <-length_app, !(assoc_L (++)). apply IH; [done|simpl in Hn; lia].
Qed.

Lemma tail_from_encode n cs : Forall is_scalar cs → (n ≤ length cs)%nat →
  tail_from_char_offset (encode_all cs) n = encode_all (drop n cs).
Proof.
  intros Hcs Hn. unfold tail_from_char_offset.
  pose proof (char_offset_encode n [] cs Hcs Hn) as H. cbn [app length] in H. rewrite H.
  rewrite <-(take_drop n cs) at 2. by rewrite encode_all_app, drop_app_length.
Qed.

Section paging.
Context (m : Z) (Hm : 0 ≤ m ≤ u64_max) (cs p : list Z) (Hcs : Forall is_scalar cs).
Let h := kept_head m cs.
Let k := kept_tail m cs.
Let o := retained m cs p.

(** The scalars of [cs] from [a] up to [b]. *)
Definition slice (a b : nat) (l : list Z) : list Z := take (b - a) (drop a l).

(** The next page from a cursor: where it ends and what it carries. *)
Definition page_end (c : nat) : nat :=
  if decide (h = k) then length cs else if decide (c < h)%nat then h
  else if decide (c < k)%nat then k else length cs.

Lemma omitted_zero : omitted_bytes o = 0 ↔ h = k.
Proof.
  unfold o, retained. po_simpl. fold h k. pose proof (kept_tail_le m cs) as Hle. fold h k in Hle.
  pose proof (size_length (take (k - h) (drop h cs))) as Hs.
  rewrite length_take, length_drop in Hs. split.
  - intros H0. rewrite H0 in Hs. lia.
  - intros ->. by rewrite Nat.sub_diag.
Qed.

Lemma snapshot_since_page (c : nat) :
  (c < length cs)%nat →
  po_bytes (snapshot_since (Z.of_nat c) o) =
    (if decide (h ≠ k ∧ h ≤ c < k)%nat then [] else encode_all (slice c (page_end c) cs)) ∧
  po_cursor (snapshot_since (Z.of_nat c) o) = Z.of_nat (page_end c) ∧
  po_has_more_retained (snapshot_since (Z.of_nat c) o) = (page_end c <? length cs)%nat ∧
  po_page_contiguous (snapshot_since (Z.of_nat c) o) = true.
Proof.
  intros Hc. pose proof (kept_tail_le m cs) as Hle. fold h k in Hle.
  pose proof omitted_zero as H0.
  assert (∀ a, slice a (length cs) cs = drop a cs) as Hsl.
  { intros a. unfold slice. apply take_ge. by rewrite length_drop. }
  unfold snapshot_since, page_end.
  change (cursor o) with (Z.of_nat (length cs)). change (head_chars o) with (Z.of_nat h).
  change (tail_chars o) with (Z.of_nat (length cs - k)).
  replace (sat_sub (Z.of_nat (length cs)) (Z.of_nat (length cs - k))) with (Z.of_nat k)
    by (unfold sat_sub; lia).
  destruct (Z.ltb_spec (Z.of_nat (length cs)) (Z.of_nat c)); [lia|].
  destruct (Z.eqb_spec (Z.of_nat c) (Z.of_nat (length cs))); [lia|].
  destruct (Z.eqb_spec (omitted_bytes o) 0) as [E|E]; rewrite H0 in E.
  - rewrite decide_False by tauto. rewrite decide_True by done.
    cbn [po_bytes po_cursor po_has_more_retained po_page_contiguous snapshot].
    rewrite Nat.ltb_irrefl, Hsl. split_and!; [|done..].
    change (head o) with (encode_all (take h cs)). change (tail o) with (encode_all (drop k cs)).
    unfold render_bytes. rewrite <-E, <-encode_all_app, take_drop. by apply skip_chars_encode.
  - rewrite (decide_False (P := h = k)) by done.
    destruct (Z.ltb_spec (Z.of_nat c) (Z.of_nat h)).
    { rewrite (decide_False (P := _ ∧ _)), (decide_True (P := (c < h)%nat)) by lia.
      cbn [po_bytes po_cursor po_has_more_retained po_page_contiguous].
      change (head o) with (encode_all (take h cs)).
      rewrite skip_chars_encode by (by apply Forall_take).
      split_and!; [|done| |done].
      - unfold slice. by rewrite skipn_firstn_comm.
      - symmetry. apply Nat.ltb_lt. lia. }
    rewrite (decide_False (P := (c < h)%nat)) by lia.
    destruct (Z.ltb_spec (Z.of_nat c) (Z.of_nat k)).
    + rewrite (decide_True (P := _ ∧ _)), (decide_True (P := (c < k)%nat)) by lia.
      cbn [po_bytes po_cursor po_has_more_retained po_page_contiguous].
      change (tail o) with (encode_all (drop k cs)). split_and!; [done|done| |done].
      pose proof (size_length (drop k cs)) as Hs. rewrite length_drop in Hs.
      destruct (Nat.ltb_spec k (length cs)).
      * rewrite bool_decide_false; [done|]. intros E'. unfold size, blen in Hs. rewrite E' in Hs.
        simpl in Hs. lia.
      * rewrite drop_ge by lia. done.
    + rewrite (decide_False (P := _ ∧ _)), (decide_False (P := (c < k)%nat)) by lia.
      cbn [po_bytes po_cursor po_has_more_retained po_page_contiguous snapshot].
      rewrite Nat.ltb_irrefl, Hsl. split_and!; [|done..].
      change (tail o) with (encode_all (drop k cs)).
      replace (sat_sub (Z.of_nat c) (Z.of_nat k)) with (Z.of_nat (c - k)) by (unfold sat_sub; lia).
      rewrite Nat2Z.id, tail_from_encode by (by apply Forall_drop || (rewrite length_drop; lia)).
      rewrite drop_drop. by replace (k + (c - k))%nat with c by lia.
Qed.
(** What a reader still has to get from cursor [c] on. *)
Definition rest_from (c : nat) : list Z := drop c (take h cs) ++ drop (Nat.max c k) cs.

Definition delivers (c : nat) (pages : list ProcessOutput) : Prop :=
  mjoin (po_bytes <$> pages) = encode_all (rest_from c) ∧
  (∃ l, last pages = Some l ∧ po_has_more_retained l = false ∧
    po_cursor l = Z.of_nat (length cs)) ∧
  Forall (λ q, po_page_contiguous q = true) pages.

Definition page_text (c : nat) : list Z :=
  if decide (h ≠ k ∧ h ≤ c < k)%nat then [] else slice c (page_end c) cs.

Lemma delivers_end f : delivers (length cs) (read_pages (S f) (Z.of_nat (length cs)) o).
Proof.
  cbn [read_pages]. unfold snapshot_since. change (cursor o) with (Z.of_nat (length cs)).
  rewrite Z.ltb_irrefl, Z.eqb_refl. cbn [po_has_more_retained]. split_and!.
  - unfold rest_from. rewrite !drop_ge; [done|lia|]. rewrite length_take. lia.
  - eexists. split; [reflexivity|]. done.
  - by repeat constructor.
Qed.

Lemma delivers_step f c :
  (c < length cs)%nat →
  rest_from c = page_text c ++ (if (page_end c <? length cs)%nat then rest_from (page_end c) else []) →
  ((page_end c < length cs)%nat → delivers (page_end c) (read_pages f (Z.of_nat (page_end c)) o)) →
  (page_end c ≤ length cs)%nat →
  delivers c (read_pages (S f) (Z.of_nat c) o).
Proof.
  intros Hc Hrest Hnext Hle. destruct (snapshot_since_page c Hc) as (Hb & Hcur & Hmore & Hcont).
  cbn [read_pages]. rewrite Hmore, Hcur. set (q := snapshot_since (Z.of_nat c) o) in *.
  assert (po_bytes q = encode_all (page_text c)) as Hb'
    by (rewrite Hb; unfold page_text; by case_decide).
  destruct (Nat.ltb_spec (page_end c) (length cs)) as [Hlt|Hge].
  - destruct (Hnext Hlt) as (H1 & (l & H2 & H3) & H4). split_and!.
    + rewrite fmap_cons. change (mjoin (?x :: ?l)) with (x ++ mjoin l).
      by rewrite H1, Hb', Hrest, encode_all_app.
    + exists l. split; [|done]. by rewrite last_cons, H2.
    + by constructor.
  - split_and!.
    + rewrite fmap_cons. change (mjoin (?x :: ?l)) with (x ++ mjoin l).
      by rewrite Hrest, Hb', app_nil_r, app_nil_r.
    + exists q. split; [done|]. rewrite Hmore, Hcur. split; [done|lia].
    + by repeat constructor.
Qed.

Lemma slice_drop a b l : (a ≤ b)%nat → slice a b l ++ drop b l = drop a l.
Proof.
  intros Hab. unfold slice. replace b with (a + (b - a))%nat at 2 by lia.
  by rewrite <-drop_drop, take_drop.
Qed.

Lemma slice_end a : slice a (length cs) cs = drop a cs.
Proof. unfold slice. apply take_ge. by rewrite length_drop. Qed.

Lemma read_pages_deliver c :
  (c ≤ length cs)%nat → delivers c (read_pages 3 (Z.of_nat c) o).
Proof.
  intros Hc. pose proof (kept_tail_le m cs) as Hle. fold h k in Hle.
  assert (∀ f c, h ≠ k → (k ≤ c < length cs)%nat → delivers c (read_pages (S f) (Z.of_nat c) o))
    as Htail.
  { intros f a Hne Ha. assert (page_end a = length cs) as He
      by (unfold page_end; repeat case_decide; lia).
    apply delivers_step; rewrite ?He; [lia| |lia|lia]. rewrite Nat.ltb_irrefl, app_nil_r.
    unfold page_text, rest_from. rewrite He, decide_False, slice_end by lia.
    rewrite (drop_ge (take h cs)) by (rewrite length_take; lia). by rewrite Nat.max_l by lia. }
  assert (∀ f c, h ≠ k → (h ≤ c < k)%nat → delivers c (read_pages (S (S f)) (Z.of_nat c) o))
    as Hgap.
  { intros f a Hne Ha. assert (page_end a = k) as He
      by (unfold page_end; repeat case_decide; lia).
    apply delivers_step; rewrite ?He; [lia| |intros; apply Htail; lia|lia].
    unfold page_text, rest_from. rewrite decide_True by lia.
    rewrite (drop_ge (take h cs) a), Nat.max_r by (rewrite ?length_take; lia).
    destruct (Nat.ltb_spec k (length cs)).
    - rewrite (drop_ge (take h cs)) by (rewrite length_take; lia). by rewrite Nat.max_id.
    - by rewrite drop_ge by lia. }
  destruct (decide (c = length cs)) as [->|Hne]; [apply delivers_end|].
  destruct (decide (h = k)) as [Ehk|Ehk].
  { assert (page_end c = length cs) as He by (unfold page_end; by rewrite decide_True).
    apply delivers_step; rewrite ?He; [lia| |lia|lia]. rewrite Nat.ltb_irrefl, app_nil_r.
    unfold page_text, rest_from. rewrite He, decide_False, slice_end, <-Ehk by lia.
    destruct (Nat.le_ge_cases c h).
    - rewrite Nat.max_r by done. rewrite <-(slice_drop c h cs) by done. f_equal.
      unfold slice. by rewrite skipn_firstn_comm.
    - rewrite (drop_ge (take h cs)) by (rewrite length_take; lia). by rewrite Nat.max_l. }
  destruct (decide (k ≤ c)%nat); [apply Htail; lia|].
  destruct (decide (h ≤ c)%nat); [apply Hgap; lia|].
  assert (page_end c = h) as He by (unfold page_end; repeat case_decide; lia).
  apply delivers_step; rewrite ?He; [lia| |intros; apply Hgap; lia|lia].
  rewrite (proj2 (Nat.ltb_lt h (length cs))) by lia.
  unfold page_text, rest_from. rewrite He, decide_False by lia.
  rewrite (drop_ge (take h cs) h), !Nat.max_r by (rewrite ?length_take; lia).
  unfold slice. by rewrite skipn_firstn_comm.
Qed.
End paging.

(** ** The longest prefix and suffix *)

Lemma fit_longest limit cs n : (n ≤ length cs)%nat → size (take n cs) ≤ limit → (n ≤ fit limit cs)%nat.
Proof.
  revert limit n. induction cs as [|c cs IH]; intros limit [|n] Hn Hs; simpl in Hn; try lia.
  simpl take in Hs. rewrite size_cons in Hs. simpl. pose proof (size_length (take n cs)).
  destruct (Z.leb_spec (width c) limit); [|lia]. apply le_n_S, IH; lia.
Qed.

Lemma tail_drop_longest limit cs j : size (drop j cs) ≤ limit → (tail_drop limit cs ≤ j)%nat.
Proof.
  revert j. induction cs as [|c cs IH]; intros j Hj; [simpl; lia|]. cbn [tail_drop].
  destruct (Z.leb_spec (size (c :: cs)) limit); [lia|]. destruct j as [|j]; [simpl in Hj; lia|].
  apply le_n_S, IH, Hj.
Qed.

Lemma finish_appended m chunks :
  0 ≤ m ≤ u64_max → 3 * blen (mjoin chunks) + 3 ≤ u64_max →
  finish (appended m chunks) = retained m (from_utf8_lossy (mjoin chunks)) [].
Proof.
  intros Hm Hmax. rewrite appended_retained by lia. unfold from_utf8_lossy.
  pose proof (lossy_scalars (mjoin chunks)) as Hsc. pose proof (lossy_length (mjoin chunks)) as Hl.
  destruct (lossy (mjoin chunks)) as [cs [|b rest]]; cbn [fst snd] in *.
  - unfold finish. change (pending_utf8 (retained m cs [])) with (@nil Z). by rewrite app_nil_r.
  - unfold finish. change (pending_utf8 (retained m cs (b :: rest))) with (b :: rest). cbn iota.
    rewrite set_pending_retained, append_char_retained; [done..|].
    unfold size, blen in *. change (width REPLACEMENT_CHARACTER) with 3. lia.
Qed.

(** ** Properties *)

(** C39. However a stream is cut into reads, also in the middle of a UTF-8
    sequence, the buffer ends up as the reference [retained]: the lossy
    reading of the whole stream, of which the longest prefix within half the
    budget is the head and the longest suffix of the remainder that still
    fits is the tail, with an unfinished last sequence pending. *)
Theorem append_reference m chunks :
  0 ≤ m ≤ u64_max → 3 * blen (mjoin chunks) ≤ u64_max →
  let '(cs, rest) := lossy (mjoin chunks) in
  appended m chunks = retained m cs rest ∧
  (∀ chunks', mjoin chunks' = mjoin chunks → appended m chunks' = appended m chunks) ∧
  (∀ n, (n ≤ length cs)%nat → size (take n cs) ≤ m / 2 → (n ≤ kept_head m cs)%nat) ∧
  (∀ n, (kept_head m cs ≤ n)%nat →
    size (drop n cs) ≤ m - size (take (kept_head m cs) cs) → (kept_tail m cs ≤ n)%nat).
Proof.
  intros Hm Hmax. destruct (lossy (mjoin chunks)) as [cs rest] eqn:E. split_and!.
  - rewrite appended_retained by done. by rewrite E.
  - intros chunks' Hj. rewrite !appended_retained, Hj by (rewrite ?Hj; done). done.
  - intros n. apply fit_longest.
  - intros n Hn Hs. unfold kept_tail.
    assert (tail_drop (tail_budget m cs) (drop (kept_head m cs) cs) ≤ n - kept_head m cs)%nat; [|lia].
    apply tail_drop_longest. rewrite drop_drop.
    by replace (kept_head m cs + (n - kept_head m cs))%nat with n by lia.
Qed.

(** C40. After the end of the stream the snapshot never exceeds the budget,
    retained and omitted bytes add up to the bytes of the text, the cursor
    counts its scalars, and nothing is omitted exactly when the text fits
    the budget, in which case the snapshot is the text. *)
Theorem snapshot_accounts m chunks :
  0 ≤ m ≤ u64_max → 3 * blen (mjoin chunks) + 3 ≤ u64_max →
  let cs := from_utf8_lossy (mjoin chunks) in
  let s := snapshot (finish (appended m chunks)) in
  blen (po_bytes s) ≤ m ∧
  blen (po_bytes s) + po_omitted_bytes s = size cs ∧
  po_cursor s = Z.of_nat (length cs) ∧
  (po_truncated s = false ↔ size cs ≤ m) ∧
  (size cs ≤ m → po_bytes s = encode_all cs).
Proof.
  intros Hm Hmax cs s. unfold s. rewrite finish_appended by done. fold cs.
  set (h := kept_head m cs). set (k := kept_tail m cs).
  unfold snapshot, retained, render_bytes.
  cbn [po_bytes po_omitted_bytes po_cursor po_truncated head tail cursor omitted_bytes incomplete].
  fold h k. rewrite blen_app, !blen_encode, Bool.orb_false_r.
  pose proof (kept_split m cs) as Hsp. fold h k in Hsp.
  pose proof (kept_tail_le m cs) as Hle. fold h k in Hle.
  pose proof (kept_head_size m Hm cs) as Hh. fold h in Hh. pose proof (half_bounds m Hm).
  pose proof (tail_drop_size (tail_budget m cs) (drop h cs) (tail_budget_nonneg m Hm cs)) as Ht.
  rewrite drop_drop in Ht. change (h + _)%nat with k in Ht. unfold tail_budget in Ht. fold h in Ht.
  assert (size cs ≤ m → h = k) as Hfit.
  { intros Hs. unfold k, kept_tail. fold h. rewrite tail_drop_fits; [lia|].
    unfold tail_budget. fold h. pose proof (size_take_drop h cs). lia. }
  split_and!; [lia|lia|done| |].
  - rewrite Z.ltb_ge. split; [lia|]. intros Hs%Hfit. by rewrite <-Hs, Nat.sub_diag.
  - intros <-%Hfit. by rewrite <-encode_all_app, take_drop.
Qed.

(** Reading pages from any cursor takes at most three of them and ends
    at the end of the stream: together they carry exactly the retained
    scalars from that cursor on, each once and in order, the gap between
    head and tail is an empty page, and only the last page says that nothing
    more is retained. *)
Theorem pages_deliver_retained m cs p c :
  0 ≤ m ≤ u64_max → Forall is_scalar cs → (c ≤ length cs)%nat →
  let pages := read_pages 3 (Z.of_nat c) (retained m cs p) in
  mjoin (po_bytes <$> pages) =
    encode_all (drop c (take (kept_head m cs) cs)
                ++ drop (Nat.max c (kept_tail m cs)) cs) ∧
  (∃ l, last pages = Some l ∧ po_has_more_retained l = false ∧
    po_cursor l = Z.of_nat (length cs)) ∧
  Forall (λ q, po_page_contiguous q = true) pages.
Proof.
  intros Hm Hcs Hc. apply (read_pages_deliver m Hm cs p Hcs c Hc).
Qed.

(** ** Witnesses: a budget of six bytes, chunks that cut a sequence *)

(** The bytes of "ab", then a three-byte scalar cut in two, then "cdefg". *)
Definition demo_chunks : list (list Z) :=
  [[97; 98; 228]; [189; 160; 99; 100]; [101; 102; 103]].

Lemma append_reference_witness :
  let '(cs, rest) := lossy (mjoin demo_chunks) in
  appended 6 demo_chunks = retained 6 cs rest ∧
  (∀ chunks', mjoin chunks' = mjoin demo_chunks → appended 6 chunks' = appended 6 demo_chunks) ∧
  (∀ n, (n ≤ length cs)%nat → size (take n cs) ≤ 6 / 2 → (n ≤ kept_head 6 cs)%nat) ∧
  (∀ n, (kept_head 6 cs ≤ n)%nat →
    size (drop n cs) ≤ 6 - size (take (kept_head 6 cs) cs) → (kept_tail 6 cs ≤ n)%nat).
Proof. apply (append_reference 6 demo_chunks); vm_compute; intuition discriminate. Defined.

Lemma snapshot_accounts_witness :
  po_bytes (snapshot (finish (appended 6 demo_chunks))) = [97; 98; 100; 101; 102; 103] ∧
  po_omitted_bytes (snapshot (finish (appended 6 demo_chunks))) = 4 ∧
  blen (po_bytes (snapshot (finish (appended 6 demo_chunks)))) ≤ 6.
Proof.
  split; [vm_compute; reflexivity|]. split; [vm_compute; reflexivity|].
  apply (snapshot_accounts 6 demo_chunks); vm_compute; intuition discriminate.
Defined.

Lemma pages_deliver_retained_witness :
  po_bytes <$> read_pages 3 0 (retained 6 (from_utf8_lossy (mjoin demo_chunks)) []) =
    [[97; 98]; []; [100; 101; 102; 103]] ∧
  mjoin (po_bytes <$> read_pages 3 (Z.of_nat 0) (retained 6 (from_utf8_lossy (mjoin demo_chunks)) [])) =
    encode_all (drop 0 (take (kept_head 6 (from_utf8_lossy (mjoin demo_chunks)))
                             (from_utf8_lossy (mjoin demo_chunks)))
                ++ drop (Nat.max 0 (kept_tail 6 (from_utf8_lossy (mjoin demo_chunks))))
                        (from_utf8_lossy (mjoin demo_chunks))).
Proof.
  split; [vm_compute; reflexivity|].
  apply (pages_deliver_retained 6 (from_utf8_lossy (mjoin demo_chunks)) [] 0).
  - vm_compute. intuition discriminate.
  - apply from_utf8_lossy_scalars.
  - apply Nat.le_0_l.
Defined.

End ProcessOutput.
