(* ===== verification/ToolBoundary.v ===== *)
(** * api/tool_boundary.rs, api/provider.rs: cancelling a session turn

    The dispatch state of one turn behind its mutex, and the cancellation
    tokens it drives.  Every operation takes the mutex once, so the requests
    of concurrent tasks are the interleavings of atomic steps: a list of
    requests.  Only the two [cancel] calls of set_cancel_reason happen after
    the mutex is released; they set one-way flags, and [signal_step] lets them
    arrive late. *)

From S2P Require Import Prelude.

Module ToolBoundary.

Inductive ToolCallSkipReason := TurnCancelledBeforeDispatch | TurnInterruptedBeforeDispatch.

#[export] Instance ToolCallSkipReason_eq_dec : EqDecision ToolCallSkipReason.
Proof. solve_decision. Defined.

Record DispatchState := {
  cancelled : option ToolCallSkipReason;
  explicit_cancel : bool;
}.

(** [ProviderRecoveryInterrupt]: its token and its flag. *)
Record ProviderRecoveryInterrupt := {
  recovery_token : bool;
  preserve_flag : bool;
}.

Record ToolBoundaryControl := {
  dispatch : DispatchState;
  cancellation : bool;
  recovery_cancellation : ProviderRecoveryInterrupt;
}.

Definition new : ToolBoundaryControl := {|
  dispatch := {| cancelled := None; explicit_cancel := false |};
  cancellation := false;
  recovery_cancellation := {| recovery_token := false; preserve_flag := false |} |}.

(** [ProviderRecoveryInterrupt::cancel] *)
Definition recovery_cancel (p : ProviderRecoveryInterrupt) : ProviderRecoveryInterrupt :=
  {| recovery_token := true; preserve_flag := preserve_flag p |}.

Definition preserve_successful_response (p : ProviderRecoveryInterrupt) : ProviderRecoveryInterrupt :=
  {| recovery_token := recovery_token p; preserve_flag := true |}.

Definition should_preserve_successful_response (p : ProviderRecoveryInterrupt) : bool :=
  preserve_flag p.

(** ** The critical section of set_cancel_reason, and what follows it *)

Definition set_dispatch (reason : ToolCallSkipReason) (replace_existing : bool)
    (d : DispatchState) : DispatchState * bool :=
  if bool_decide (cancelled d = None) || replace_existing
  then ({| cancelled := Some reason; explicit_cancel := replace_existing |}, true)
  else (d, false).

Definition cancel_tools (c : ToolBoundaryControl) : ToolBoundaryControl :=
  {| dispatch := dispatch c; cancellation := true;
     recovery_cancellation := recovery_cancellation c |}.

Definition cancel_recovery (c : ToolBoundaryControl) : ToolBoundaryControl :=
  {| dispatch := dispatch c; cancellation := cancellation c;
     recovery_cancellation := recovery_cancel (recovery_cancellation c) |}.

Definition with_dispatch (d : DispatchState) (c : ToolBoundaryControl) : ToolBoundaryControl :=
  {| dispatch := d; cancellation := cancellation c;
     recovery_cancellation := recovery_cancellation c |}.

Definition set_cancel_reason (reason : ToolCallSkipReason) (replace_existing : bool)
    (c : ToolBoundaryControl) : ToolBoundaryControl :=
  let '(d, changed) := set_dispatch reason replace_existing (dispatch c) in
  let c := with_dispatch d c in
  if changed then
    let c := cancel_recovery c in
    if replace_existing then cancel_tools c else c
  else c.

Definition cancel (reason : ToolCallSkipReason) : ToolBoundaryControl → ToolBoundaryControl :=
  set_cancel_reason reason true.

Definition cancel_if_open (reason : ToolCallSkipReason) : ToolBoundaryControl → ToolBoundaryControl :=
  set_cancel_reason reason false.

Definition cancel_after_running_tools (reason : ToolCallSkipReason) (c : ToolBoundaryControl) :
    ToolBoundaryControl :=
  cancel_tools (set_cancel_reason reason false c).

Definition try_reserve_dispatch (c : ToolBoundaryControl) : Result ToolCallSkipReason unit :=
  match cancelled (dispatch c) with None => Ok tt | Some r => Err r end.

Definition cancel_reason (c : ToolBoundaryControl) : option ToolCallSkipReason :=
  cancelled (dispatch c).

Definition is_cancelled (c : ToolBoundaryControl) : bool := bool_decide (is_Some (cancel_reason c)).

Definition is_explicit_cancel (c : ToolBoundaryControl) : bool := explicit_cancel (dispatch c).

Definition should_commit_successful_response (c : ToolBoundaryControl) : bool :=
  is_cancelled c && negb (is_explicit_cancel c)
    && should_preserve_successful_response (recovery_cancellation c).

(** The adapter's report that a max-token response can be committed. *)
Definition preserve_response (c : ToolBoundaryControl) : ToolBoundaryControl :=
  {| dispatch := dispatch c; cancellation := cancellation c;
     recovery_cancellation := preserve_successful_response (recovery_cancellation c) |}.

(** ** Interleavings *)

Inductive request :=
| ReqCancel (r : ToolCallSkipReason)
| ReqSteer (r : ToolCallSkipReason)
| ReqShutdown (r : ToolCallSkipReason)
| ReqDispatch
| ReqPreserve.

#[export] Instance request_eq_dec : EqDecision request.
Proof. solve_decision. Defined.

Definition serve (q : request) (c : ToolBoundaryControl) : ToolBoundaryControl :=
  match q with
  | ReqCancel r => cancel r c
  | ReqSteer r => cancel_if_open r c
  | ReqShutdown r => cancel_after_running_tools r c
  | ReqDispatch => c
  | ReqPreserve => preserve_response c
  end.

Definition run (qs : list request) (c : ToolBoundaryControl) : ToolBoundaryControl :=
  fold_left (λ c q, serve q c) qs c.

(** The tools dispatched along the way: the outcome of each ReqDispatch. *)
Fixpoint dispatches (qs : list request) (c : ToolBoundaryControl) :
    list (Result ToolCallSkipReason unit) :=
  match qs with
  | [] => []
  | q :: qs' =>
      match q with ReqDispatch => [try_reserve_dispatch c] | _ => [] end
        ++ dispatches qs' (serve q c)
  end.

(** *** What the history decides *)

Definition explicit_reason (q : request) : option ToolCallSkipReason :=
  match q with ReqCancel r => Some r | _ => None end.
Definition any_reason (q : request) : option ToolCallSkipReason :=
  match q with ReqCancel r | ReqSteer r | ReqShutdown r => Some r | _ => None end.

(** The reason a history ends with: its last explicit cancel, and without
    one its first interruption. *)
Definition verdict (qs : list request) : option ToolCallSkipReason :=
  match last (omap explicit_reason qs) with
  | Some r => Some r
  | None => head (omap any_reason qs)
  end.

Definition stops_tools (q : request) : bool :=
  match q with ReqCancel _ | ReqShutdown _ => true | _ => false end.

(** What is on record after a history. *)
Definition after (qs : list request) : ToolBoundaryControl := {|
  dispatch := {| cancelled := verdict qs;
                 explicit_cancel := negb (bool_decide (omap explicit_reason qs = [])) |};
  cancellation := existsb stops_tools qs;
  recovery_cancellation := {| recovery_token := negb (bool_decide (omap any_reason qs = []));
                              preserve_flag := bool_decide (ReqPreserve ∈ qs) |} |}.

Lemma run_snoc qs q c : run (qs ++ [q]) c = serve q (run qs c).
Proof. unfold run. by rewrite fold_left_app. Qed.

Lemma run_app qs1 qs2 c : run (qs1 ++ qs2) c = run qs2 (run qs1 c).
Proof. unfold run. by rewrite fold_left_app. Qed.

Lemma explicit_any qs r : last (omap explicit_reason qs) = Some r → omap any_reason qs ≠ [].
Proof.
  intros H E. destruct (omap explicit_reason qs) as [|r' rs] eqn:E'; [done|].
  assert (r' ∈ omap explicit_reason qs) as (q & Hq & Hr)%list_elem_of_omap
    by (rewrite E'; constructor).
  assert (r' ∈ omap any_reason qs) as Hin.
  { apply list_elem_of_omap. exists q. split; [done|]. by destruct q. }
  rewrite E in Hin. set_solver.
Qed.

Lemma head_snoc {A} (l : list A) x : head (l ++ [x]) = Some (default x (head l)).
Proof. by destruct l. Qed.

Lemma verdict_none qs : verdict qs = None ↔ omap any_reason qs = [].
Proof.
  unfold verdict. split.
  - destruct (last _) eqn:E; [done|]. by destruct (omap any_reason qs).
  - intros H. destruct (last (omap explicit_reason qs)) eqn:E.
    + by apply explicit_any in E.
    + by rewrite H.
Qed.

Lemma no_reason_no_explicit qs : omap any_reason qs = [] → omap explicit_reason qs = [].
Proof.
  intros H. destruct (last (omap explicit_reason qs)) eqn:E; [by apply explicit_any in E|].
  by apply last_None in E.
Qed.

Lemma omap_snoc {A B} (f : A → option B) l x :
  omap f (l ++ [x]) = omap f l ++ match f x with Some y => [y] | None => [] end.
Proof. rewrite omap_app. simpl. by destruct (f x). Qed.

Lemma snoc_not_nil {A} (l : list A) x `{!Decision (l ++ [x] = [])} :
  bool_decide (l ++ [x] = []) = false.
Proof. apply bool_decide_false. by destruct l. Qed.

Lemma preserve_snoc qs q :
  bool_decide (ReqPreserve ∈ qs ++ [q]) = bool_decide (ReqPreserve ∈ qs) || bool_decide (q = ReqPreserve).
Proof.
  apply eq_true_iff_eq. rewrite orb_true_iff, !bool_decide_eq_true, elem_of_app, list_elem_of_singleton.
  naive_solver.
Qed.

Lemma verdict_steer qs q r :
  explicit_reason q = None → any_reason q = Some r →
  verdict (qs ++ [q]) = Some (default r (verdict qs)).
Proof.
  intros He Ha. unfold verdict. rewrite !omap_snoc, He, Ha, app_nil_r, head_snoc.
  by destruct (last _).
Qed.

Lemma steer_after qs q r :
  explicit_reason q = None → any_reason q = Some r →
  set_dispatch r false (dispatch (after qs)) =
    (dispatch (after (qs ++ [q])), bool_decide (verdict qs = None)).
Proof.
  intros He Ha. unfold set_dispatch, after. cbn [dispatch cancelled explicit_cancel].
  rewrite (verdict_steer qs q r), omap_snoc, He, app_nil_r by done.
  case_bool_decide as Hv; cbn [orb]; [|by destruct (verdict qs)].
  rewrite Hv. apply verdict_none, no_reason_no_explicit in Hv. by rewrite Hv.
Qed.

Lemma serve_after qs q : serve q (after qs) = after (qs ++ [q]).
Proof.
  assert (∀ r, any_reason q = Some r → explicit_reason q = None →
    set_cancel_reason r false (after qs) =
      with_dispatch (dispatch (after (qs ++ [q]))) (cancel_recovery (after qs))) as Hsteer.
  { intros r Ha He. unfold set_cancel_reason. rewrite (steer_after qs q r) by done.
    case_bool_decide as Hv; [done|]. unfold with_dispatch, cancel_recovery, recovery_cancel, after.
    cbn -[omap existsb]. rewrite verdict_none in Hv.
    by rewrite (bool_decide_eq_false_2 (omap any_reason qs = [])). }
  destruct q as [r|r|r| |]; cbn [serve].
  - unfold cancel, set_cancel_reason, set_dispatch, after, cancel_tools, cancel_recovery, with_dispatch,
      recovery_cancel. cbn -[omap existsb]. rewrite orb_true_r. cbn -[omap existsb].
    unfold verdict. rewrite !omap_snoc, existsb_app, preserve_snoc. cbn -[omap].
    by rewrite last_snoc, !snoc_not_nil, !orb_true_r, orb_false_r.
  - unfold cancel_if_open. rewrite (Hsteer r) by done.
    unfold after, cancel_recovery, with_dispatch, recovery_cancel. cbn -[omap existsb].
    rewrite (omap_snoc any_reason), existsb_app, preserve_snoc. cbn -[omap].
    by rewrite snoc_not_nil, !orb_false_r.
  - unfold cancel_after_running_tools. rewrite (Hsteer r) by done.
    unfold after, cancel_recovery, with_dispatch, recovery_cancel, cancel_tools. cbn -[omap existsb].
    rewrite (omap_snoc any_reason), existsb_app, preserve_snoc. cbn -[omap].
    by rewrite snoc_not_nil, orb_true_r, orb_false_r.
  - unfold after, verdict. rewrite !omap_snoc, existsb_app, preserve_snoc. cbn -[omap].
    by rewrite !app_nil_r, !orb_false_r.
  - unfold preserve_response, preserve_successful_response, after, verdict.
    rewrite !omap_snoc, existsb_app, preserve_snoc. cbn -[omap].
    by rewrite !app_nil_r, orb_false_r, orb_true_r.
Qed.

Lemma run_after qs : run qs new = after qs.
Proof.
  induction qs as [|q qs IH] using rev_ind; [done|]. by rewrite run_snoc, IH, serve_after.
Qed.

(** ** Properties *)

(** The state of a turn is a function of the requests it served: an
    explicit cancel is never overwritten by a steer or a shutdown, a later
    explicit cancel replaces an earlier one, without any the first
    interruption stays, and each token is set exactly when some request of
    its kind was served. *)
Theorem turn_state_is_history qs : run qs new = after qs.
Proof. apply run_after. Qed.

(** A reservation succeeds exactly when no interruption was served
    before it, and a refusal names the reason in force; once one is refused,
    every later reservation is, whatever is served in between. *)
Theorem dispatch_closed qs :
  try_reserve_dispatch (run qs new) =
    match verdict qs with None => Ok tt | Some r => Err r end ∧
  (verdict qs = None ↔ ∀ q, q ∈ qs → any_reason q = None) ∧
  (verdict qs ≠ None → ∀ qs', Forall (λ o, is_ok o = false) (dispatches qs' (run qs new))).
Proof.
  split_and!.
  - rewrite run_after. done.
  - rewrite verdict_none. split.
    + intros H q Hq. destruct (any_reason q) as [r|] eqn:E; [|done].
      assert (r ∈ omap any_reason qs) as Hin by (apply list_elem_of_omap; eauto).
      rewrite H in Hin. set_solver.
    + intros H. destruct (omap any_reason qs) as [|r rs] eqn:E; [done|].
      assert (r ∈ omap any_reason qs) as (q & Hq & Hr)%list_elem_of_omap
        by (rewrite E; constructor). by rewrite H in Hr.
  - intros Hv qs'. revert qs Hv. induction qs' as [|q qs' IH]; intros qs Hv; [constructor|].
    cbn [dispatches]. apply Forall_app_2.
    + destruct q; try constructor; [|constructor]. unfold try_reserve_dispatch.
      rewrite run_after. cbn. by destruct (verdict qs).
    + rewrite <-run_snoc. apply IH. rewrite verdict_none in *. rewrite omap_snoc.
      by destruct (omap any_reason qs).
Qed.

(** A successful response is committed exactly when the turn was
    interrupted, never explicitly cancelled, and the adapter reported that
    the response can be kept; and running tools are only stopped by an
    explicit cancel or a shutdown, never by a steer alone. *)
Theorem commit_and_stop_rules qs :
  (should_commit_successful_response (run qs new) = true ↔
    verdict qs ≠ None ∧ omap explicit_reason qs = [] ∧ ReqPreserve ∈ qs) ∧
  (cancellation (run qs new) = true ↔
    ∃ r, ReqCancel r ∈ qs ∨ ReqShutdown r ∈ qs) ∧
  (recovery_token (recovery_cancellation (run qs new)) = true ↔ verdict qs ≠ None).
Proof.
  rewrite run_after, verdict_none. split_and!.
  - unfold should_commit_successful_response, is_cancelled, is_explicit_cancel, cancel_reason,
      should_preserve_successful_response, after. cbn -[omap].
    rewrite !andb_true_iff, !negb_true_iff, negb_false_iff, !bool_decide_eq_true, <-verdict_none,
      <-not_eq_None_Some. tauto.
  - cbn. rewrite existsb_exists. setoid_rewrite <-list_elem_of_In. split.
    + intros ([r|r|r| |] & Hq & Hs); try done; eauto.
    + intros (r & [H|H]); eexists; (split; [exact H|done]).
  - cbn. rewrite negb_true_iff, bool_decide_eq_false. done.
Qed.

End ToolBoundary.
