(* ===== verification/DelegationTypes.v ===== *)
(** * delegation/types.rs: subagent records and the bounds on their texts

    The data of a delegated task, its status, and the truncations that every
    text goes through before it is written or shown. *)

From S2P Require Import Prelude Text.

(** ** Constants *)

Definition SUMMARY_TEXT_LIMIT : nat := 1200.
Definition SUMMARY_FIELD_LIMIT : nat := 320.
Definition SUMMARY_CHANGED_FILES_LIMIT : nat := 8.
Definition SUMMARY_CHANGED_FILE_LIMIT : nat := 160.
Definition READ_TEXT_MAX_CHARS : nat := 12000.
Definition MAX_EVENT_TAIL_LIMIT : nat := 50.

(** ** Data *)

Inductive DelegationStatus := Queued | Running | Completed | Failed | Abandoned.

#[export] Instance DelegationStatus_eq_dec : EqDecision DelegationStatus.
Proof. solve_decision. Defined.

Definition is_terminal (s : DelegationStatus) : bool :=
  match s with Completed | Failed | Abandoned => true | Queued | Running => false end.

Definition sort_rank (s : DelegationStatus) : Z :=
  match s with Running => 0 | Queued => 1 | Failed => 2 | Completed => 3 | Abandoned => 4 end.

(** [{:?}] *)
Definition status_debug (s : DelegationStatus) : Text :=
  match s with
  | Queued => lit "Queued"
  | Running => lit "Running"
  | Completed => lit "Completed"
  | Failed => lit "Failed"
  | Abandoned => lit "Abandoned"
  end.

Record DelegationCreateRequest := {
  rq_parent_session_id : string;
  rq_parent_turn_id : string;
  rq_owner_agent_id : string;
  rq_title : Text;
  rq_role : Text;
  rq_objective : Text;
  rq_constraints : list Text;
}.

(** Instants are integers; the schema version is constant. *)
Record DelegationMetadata := {
  dm_id : string;
  dm_parent_session_id : string;
  dm_parent_turn_id : string;
  dm_owner_agent_id : string;
  dm_title : Text;
  dm_role : Text;
  dm_objective : Text;
  dm_constraints : list Text;
  dm_status : DelegationStatus;
  dm_created_at : Z;
  dm_updated_at : Z;
  dm_started_at : option Z;
  dm_completed_at : option Z;
  dm_current_step : option Text;
  dm_progress_summary : option Text;
  dm_error_summary : option Text;
  dm_result_ref : option Text;
  dm_changed_files : list Text;
}.

Record DelegationArtifactRef := {
  art_path : Text;
  art_description : option Text;
}.

Record DelegationProgress := {
  pr_current_step : option Text;
  pr_summary : Text;
  pr_artifacts : list DelegationArtifactRef;
  pr_updated_at : Z;
}.

Record DelegationUpdate := {
  up_current_step : option Text;
  up_summary : Text;
  up_artifacts : list DelegationArtifactRef;
}.

Record DelegationResult := {
  dr_status : DelegationStatus;
  dr_summary : Text;
  dr_changed_files : list Text;
  dr_artifacts : list DelegationArtifactRef;
  dr_error_summary : option Text;
  dr_completed_at : Z;
}.

Inductive ToolExecutionOutcome :=
| OutcomeCompleted
| OutcomeDispatchFailure
| OutcomeBusinessFailure
| OutcomeProcessExit (exit_code : option Z) (success : bool)
| OutcomeProcessTerminated (signal : option Z)
| OutcomeProcessRunning
| OutcomeHttpResponse (http_status : Z).

Inductive DelegationEventKind :=
| EvCreated
| EvQueued
| EvStarted
| EvStatusChanged (from to : DelegationStatus)
| EvProgressUpdated (current_step : option Text) (summary : Text)
    (artifacts : list DelegationArtifactRef)
| EvSteered (instruction : Text)
| EvToolStarted (tool_name summary : Text)
| EvToolCompleted (tool_name summary : Text) (outcome : option ToolExecutionOutcome)
| EvCompactionFailed (error : Text)
| EvCompleted (summary : Text) (changed_files : list Text)
| EvFailed (error : Text)
| EvAbandoned (reason : Text).

Record DelegationEvent := {
  de_seq : Z;
  de_at : Z;
  de_kind : DelegationEventKind;
}.

Record DelegationSteering := {
  st_seq : Z;
  st_at : Z;
  st_instruction : Text;
}.

Record DelegationSummary := {
  su_id : string;
  su_title : Text;
  su_role : Text;
  su_status : DelegationStatus;
  su_current_step : option Text;
  su_created_at : Z;
  su_updated_at : Z;
  su_started_at : option Z;
  su_completed_at : option Z;
  su_error_summary : option Text;
  su_progress_summary : option Text;
  su_result_ref : option Text;
  su_changed_files : list Text;
}.

Record DelegationCompactionState := {
  cs_compacted_until : Z;
  cs_summary : Text;
  cs_summary_updated_at : Z;
}.

(** ** Operations *)

Definition truncate_text (value : Text) (max_chars : nat) : Text :=
  if bool_decide (max_chars = 0) then []
  else
    let out := take max_chars value in
    if bool_decide (length out = length value) then out else out ++ lit "...".

Definition truncate_text_with_flag (value : Text) (max_chars : nat) : Text * bool :=
  if bool_decide (length value ≤ max_chars) then (value, false)
  else (truncate_text value max_chars, true).

Definition clamp_event_tail_limit (limit : nat) : nat := Nat.min (Nat.max limit 1) MAX_EVENT_TAIL_LIMIT.

Definition metadata_new (id : string) (rq : DelegationCreateRequest) (now : Z) :
    DelegationMetadata := {|
  dm_id := id; dm_parent_session_id := rq_parent_session_id rq;
  dm_parent_turn_id := rq_parent_turn_id rq; dm_owner_agent_id := rq_owner_agent_id rq;
  dm_title := rq_title rq; dm_role := rq_role rq; dm_objective := rq_objective rq;
  dm_constraints := rq_constraints rq; dm_status := Queued;
  dm_created_at := now; dm_updated_at := now; dm_started_at := None; dm_completed_at := None;
  dm_current_step := None; dm_progress_summary := None; dm_error_summary := None;
  dm_result_ref := None; dm_changed_files := [] |}.

Definition summary (m : DelegationMetadata) : DelegationSummary := {|
  su_id := dm_id m;
  su_title := truncate_text (dm_title m) SUMMARY_FIELD_LIMIT;
  su_role := truncate_text (dm_role m) SUMMARY_FIELD_LIMIT;
  su_status := dm_status m;
  su_current_step := (λ v, truncate_text v SUMMARY_FIELD_LIMIT) <$> dm_current_step m;
  su_created_at := dm_created_at m; su_updated_at := dm_updated_at m;
  su_started_at := dm_started_at m; su_completed_at := dm_completed_at m;
  su_error_summary := (λ v, truncate_text v SUMMARY_FIELD_LIMIT) <$> dm_error_summary m;
  su_progress_summary := (λ v, truncate_text v SUMMARY_TEXT_LIMIT) <$> dm_progress_summary m;
  su_result_ref := (λ v, truncate_text v SUMMARY_FIELD_LIMIT) <$> dm_result_ref m;
  su_changed_files :=
    (λ p, truncate_text p SUMMARY_CHANGED_FILE_LIMIT)
      <$> take SUMMARY_CHANGED_FILES_LIMIT (dm_changed_files m) |}.

Definition progress (u : DelegationUpdate) (updated_at : Z) : DelegationProgress := {|
  pr_current_step := up_current_step u; pr_summary := up_summary u;
  pr_artifacts := up_artifacts u; pr_updated_at := updated_at |}.

(** ** Bounding (delegation/store.rs) *)

Definition bound_artifact (a : DelegationArtifactRef) : DelegationArtifactRef := {|
  art_path := truncate_text (art_path a) SUMMARY_FIELD_LIMIT;
  art_description := (λ v, truncate_text v SUMMARY_FIELD_LIMIT) <$> art_description a |}.

Definition bound_progress (p : DelegationProgress) : DelegationProgress := {|
  pr_current_step := (λ v, truncate_text v SUMMARY_FIELD_LIMIT) <$> pr_current_step p;
  pr_summary := truncate_text (pr_summary p) SUMMARY_TEXT_LIMIT;
  pr_artifacts := bound_artifact <$> take 8 (pr_artifacts p);
  pr_updated_at := pr_updated_at p |}.

Definition bound_artifacts (l : list DelegationArtifactRef) : list DelegationArtifactRef :=
  bound_artifact <$> take SUMMARY_CHANGED_FILES_LIMIT l.

Definition bound_changed_files (l : list Text) : list Text :=
  (λ p, truncate_text p SUMMARY_CHANGED_FILE_LIMIT) <$> take SUMMARY_CHANGED_FILES_LIMIT l.

Definition bound_result (r : DelegationResult) : DelegationResult := {|
  dr_status := dr_status r;
  dr_summary := truncate_text (dr_summary r) READ_TEXT_MAX_CHARS;
  dr_changed_files := bound_changed_files (dr_changed_files r);
  dr_artifacts := bound_artifacts (dr_artifacts r);
  dr_error_summary := (λ v, truncate_text v SUMMARY_FIELD_LIMIT) <$> dr_error_summary r;
  dr_completed_at := dr_completed_at r |}.

Definition bound_event_kind (k : DelegationEventKind) : DelegationEventKind :=
  match k with
  | EvProgressUpdated current_step summary artifacts =>
      EvProgressUpdated ((λ v, truncate_text v SUMMARY_FIELD_LIMIT) <$> current_step)
        (truncate_text summary SUMMARY_TEXT_LIMIT) (bound_artifacts artifacts)
  | EvSteered instruction => EvSteered (truncate_text instruction SUMMARY_TEXT_LIMIT)
  | EvToolStarted tool_name summary =>
      EvToolStarted (truncate_text tool_name SUMMARY_FIELD_LIMIT)
        (truncate_text summary SUMMARY_TEXT_LIMIT)
  | EvToolCompleted tool_name summary outcome =>
      EvToolCompleted (truncate_text tool_name SUMMARY_FIELD_LIMIT)
        (truncate_text summary SUMMARY_TEXT_LIMIT) outcome
  | EvCompleted summary changed_files =>
      EvCompleted (truncate_text summary SUMMARY_TEXT_LIMIT) (bound_changed_files changed_files)
  | EvFailed error => EvFailed (truncate_text error SUMMARY_FIELD_LIMIT)
  | EvCompactionFailed error => EvCompactionFailed (truncate_text error SUMMARY_FIELD_LIMIT)
  | EvAbandoned reason => EvAbandoned (truncate_text reason SUMMARY_FIELD_LIMIT)
  | EvCreated | EvQueued | EvStarted | EvStatusChanged _ _ => k
  end.

(** ** The size of an event *)

Definition artifact_texts (a : DelegationArtifactRef) : list Text := art_path a :: option_list (art_description a).

(** The texts of an event; all its other members are of bounded size. *)
Definition event_texts (k : DelegationEventKind) : list Text :=
  match k with
  | EvCreated | EvQueued | EvStarted | EvStatusChanged _ _ => []
  | EvProgressUpdated current_step summary artifacts =>
      option_list current_step ++ summary :: (artifacts ≫= artifact_texts)
  | EvSteered text | EvFailed text | EvCompactionFailed text | EvAbandoned text => [text]
  | EvToolStarted tool_name summary | EvToolCompleted tool_name summary _ => [tool_name; summary]
  | EvCompleted summary changed_files => summary :: changed_files
  end.

(** In JSON a character takes up to six bytes (a control character is written
    as backslash, u and four digits), a text has its name, quotes and
    punctuation around it, and the members of bounded size (numbers, instants,
    the names of variants) come on top. *)
Definition JSON_CHAR_BYTES : Z := 6.
Definition JSON_TEXT_BYTES : Z := 64.
Definition JSON_REST_BYTES : Z := 1024.

Definition texts_size (l : list Text) : Z :=
  foldr (λ t n, (JSON_CHAR_BYTES * Z.of_nat (length t) + JSON_TEXT_BYTES + n)%Z) 0%Z l.

(** What [serde_json::to_vec] makes of events, as far as its size goes. *)
Definition serde_json_size (event_bytes : DelegationEvent → Z) : Prop :=
  ∀ e, (2 ≤ event_bytes e ≤ JSON_REST_BYTES + texts_size (event_texts (de_kind e)))%Z.

(** Events with an instant and a number, all of whose texts were bounded. *)
Definition bounded_event (e : DelegationEvent) : Prop := bound_event_kind (de_kind e) = de_kind e.

(** ** Truncation is stable *)

#[global] Arguments truncate_text : simpl never.

Lemma truncate_text_short value n : n ≠ 0 → length value ≤ n → truncate_text value n = value.
Proof.
  intros Hn Hl. unfold truncate_text. rewrite bool_decide_false by done.
  rewrite take_ge by done. by rewrite bool_decide_true.
Qed.

Lemma truncate_text_long value n : n ≠ 0 → n < length value →
  truncate_text value n = take n value ++ lit "...".
Proof.
  intros Hn Hl. unfold truncate_text. rewrite bool_decide_false by done.
  rewrite bool_decide_false; [done|]. rewrite length_take. lia.
Qed.

Lemma truncate_text_length value n : length (truncate_text value n) ≤ n + 3.
Proof.
  unfold truncate_text. case_bool_decide; [simpl; lia|].
  case_bool_decide; rewrite ?length_app, length_take; simpl; lia.
Qed.

Lemma truncate_text_idemp value n : truncate_text (truncate_text value n) n = truncate_text value n.
Proof.
  destruct (decide (n = 0)) as [->|Hn]; [done|].
  destruct (decide (length value ≤ n)) as [Hs|Hs].
  - by rewrite !(truncate_text_short value n).
  - rewrite (truncate_text_long value n) by (done || lia).
    rewrite truncate_text_long; [|done|rewrite length_app, length_take; simpl; lia].
    rewrite take_app_le by (rewrite length_take; lia). by rewrite take_take, Nat.min_id.
Qed.

Lemma truncate_opt_idemp (v : option Text) n :
  (λ x, truncate_text x n) <$> ((λ x, truncate_text x n) <$> v) = (λ x, truncate_text x n) <$> v.
Proof. destruct v; simpl; [|done]. by rewrite truncate_text_idemp. Qed.

Lemma bound_artifact_idemp a : bound_artifact (bound_artifact a) = bound_artifact a.
Proof.
  unfold bound_artifact. cbn [art_path art_description]. by rewrite truncate_text_idemp, truncate_opt_idemp.
Qed.

Lemma fmap_take_idemp {A} (f : A → A) n l :
  (∀ x, f (f x) = f x) → f <$> take n (f <$> take n l) = f <$> take n l.
Proof.
  intros Hf. rewrite <-fmap_take, take_take, Nat.min_id, <-list_fmap_compose.
  apply list_fmap_ext. intros i x _. apply Hf.
Qed.

Lemma bound_artifacts_idemp l : bound_artifacts (bound_artifacts l) = bound_artifacts l.
Proof. apply fmap_take_idemp, bound_artifact_idemp. Qed.

Lemma bound_changed_files_idemp l : bound_changed_files (bound_changed_files l) = bound_changed_files l.
Proof. apply fmap_take_idemp. intros x. apply truncate_text_idemp. Qed.

Lemma bound_event_kind_idemp k : bound_event_kind (bound_event_kind k) = bound_event_kind k.
Proof.
  destruct k; simpl;
    by rewrite ?truncate_opt_idemp, ?truncate_text_idemp, ?bound_artifacts_idemp,
      ?bound_changed_files_idemp.
Qed.

(** ** Bounded events are small *)

Lemma texts_size_app l1 l2 : texts_size (l1 ++ l2) = (texts_size l1 + texts_size l2)%Z.
Proof. induction l1 as [|t l1 IH]; simpl; [done|]. rewrite IH. lia. Qed.

Lemma texts_size_bound l n k : Forall (λ t : Text, length t ≤ n) l → length l ≤ k →
  (0 ≤ texts_size l ≤ Z.of_nat k * (6 * Z.of_nat n + 64))%Z.
Proof.
  intros Hl Hk. assert (0 ≤ texts_size l ≤ Z.of_nat (length l) * (6 * Z.of_nat n + 64))%Z; [|nia].
  clear Hk k. induction Hl as [|t l Ht _ IH]; simpl; [lia|]. unfold JSON_CHAR_BYTES, JSON_TEXT_BYTES. nia.
Qed.

Lemma truncate_opt_length (v : option Text) n :
  Forall (λ t : Text, length t ≤ n + 3) (option_list ((λ t, truncate_text t n) <$> v)) ∧
  length (option_list ((λ t, truncate_text t n) <$> v)) ≤ 1.
Proof. destruct v; simpl; (split; [|lia]); repeat constructor. apply truncate_text_length. Qed.

Lemma bound_artifacts_texts l :
  Forall (λ t : Text, length t ≤ 323) (bound_artifacts l ≫= artifact_texts) ∧ length (bound_artifacts l ≫= artifact_texts) ≤ 16.
Proof.
  unfold bound_artifacts. assert (Hlen : length (take SUMMARY_CHANGED_FILES_LIMIT l) ≤ 8) by (rewrite length_take; unfold SUMMARY_CHANGED_FILES_LIMIT; lia).
  revert Hlen. generalize (take SUMMARY_CHANGED_FILES_LIMIT l). intros l' Hlen.
  assert (Forall (λ t : Text, length t ≤ 323) ((bound_artifact <$> l') ≫= artifact_texts) ∧
    length ((bound_artifact <$> l') ≫= artifact_texts) ≤ 2 * length l') as [H1 H2]; [clear Hlen|split; [done|lia]].
  induction l' as [|a l' [IH1 IH2]]; csimpl; [split; [constructor|done]|].
  destruct (truncate_opt_length (art_description a) SUMMARY_FIELD_LIMIT) as [Hd1 Hd2]. split.
  - constructor; [apply truncate_text_length|]. by apply Forall_app.
  - rewrite length_app. simpl in *. lia.
Qed.

Lemma bound_changed_files_texts l :
  Forall (λ t : Text, length t ≤ 163) (bound_changed_files l) ∧ length (bound_changed_files l) ≤ 8.
Proof.
  unfold bound_changed_files. split.
  - apply Forall_fmap, Forall_true. intros t. apply truncate_text_length.
  - rewrite length_fmap, length_take. unfold SUMMARY_CHANGED_FILES_LIMIT. lia.
Qed.

Lemma truncate_size value n : (0 ≤ texts_size [truncate_text value n] ≤ 6 * Z.of_nat (n + 3) + 64)%Z.
Proof.
  pose proof (texts_size_bound [truncate_text value n] (n + 3) 1) as H.
  destruct H as [H1 H2]; [repeat constructor; apply truncate_text_length|done|]. lia.
Qed.

Lemma bound_event_kind_size k : (texts_size (event_texts (bound_event_kind k)) <= 50000)%Z.
Proof.
  destruct k; cbn [bound_event_kind event_texts]; try (vm_compute; discriminate);
    try (etrans; [apply truncate_size|]; vm_compute; discriminate).
  - destruct (truncate_opt_length current_step SUMMARY_FIELD_LIMIT) as [Hc1 Hc2].
    destruct (bound_artifacts_texts artifacts) as [Ha1 Ha2].
    rewrite texts_size_app. apply (texts_size_bound _ _ 1) in Hc1; [|done]. apply (texts_size_bound _ _ 16) in Ha1; [|done].
    pose proof (truncate_size summary0 SUMMARY_TEXT_LIMIT) as Hs. simpl texts_size in *. unfold SUMMARY_FIELD_LIMIT, SUMMARY_TEXT_LIMIT in *. lia.
  - pose proof (truncate_size tool_name SUMMARY_FIELD_LIMIT) as H1. pose proof (truncate_size summary0 SUMMARY_TEXT_LIMIT) as H2.
    simpl texts_size in *. unfold SUMMARY_FIELD_LIMIT, SUMMARY_TEXT_LIMIT in *. lia.
  - pose proof (truncate_size tool_name SUMMARY_FIELD_LIMIT) as H1. pose proof (truncate_size summary0 SUMMARY_TEXT_LIMIT) as H2.
    simpl texts_size in *. unfold SUMMARY_FIELD_LIMIT, SUMMARY_TEXT_LIMIT in *. lia.
  - destruct (bound_changed_files_texts changed_files) as [Hc1 Hc2]. apply (texts_size_bound _ _ 8) in Hc1; [|done].
    pose proof (truncate_size summary0 SUMMARY_TEXT_LIMIT) as Hs. simpl texts_size in *. unfold SUMMARY_TEXT_LIMIT in *. lia.
Qed.
