(* ===== verification/DelegationStore.v ===== *)
(** * delegation/store.rs: the files of a delegated task

    One directory per task.  Documents (delegation.yaml, progress.json,
    result.md, events.seq) are replaced atomically; logs (events.jsonl,
    steering.jsonl) are appended to, and an append can fail half-way: nothing
    written, a torn line, a whole line without its newline, or a whole line
    whose sync failed.  Each I/O step consumes one entry of the fault
    schedule.  An operation on a task holds the task's lock from its first
    step to its last, so concurrent callers are sequences of operations; only
    [create] takes no lock, and a history has it in one piece (what may fall
    into it is in DelegationGuarantees.v). *)

From S2P Require Import Prelude Text Utf8 DelegationTypes.

(** ** Files *)

Inductive line (A : Type) :=
| LEntry (a : A)
| LBlank (bytes : Z)
| LCorrupt (bytes : Z).
Arguments LEntry {A} a.
Arguments LBlank {A} bytes.
Arguments LCorrupt {A} bytes.

(** What follows the last newline, if anything: a whole entry or rubble. *)
Inductive fragment (A : Type) :=
| FEntry (a : A)
| FBad (bytes : Z).
Arguments FEntry {A} a.
Arguments FBad {A} bytes.

Record log (A : Type) := {
  lg_lines : list (line A);
  lg_fragment : option (fragment A);
}.
Arguments Build_log {A} lg_lines lg_fragment.
Arguments lg_lines {A} l.
Arguments lg_fragment {A} l.

Inductive document (A : Type) := Document (a : A) | Garbled.
Arguments Document {A} a.
Arguments Garbled {A}.

Inductive seq_text := SeqEmpty | SeqNumber (n : Z) | SeqGarbled.

Record DelegDir := {
  dd_metadata : option (document DelegationMetadata);
  dd_events : option (log DelegationEvent);
  dd_event_seq : option seq_text;
  dd_steering : option (log DelegationSteering);
  dd_progress : option (document DelegationProgress);
  dd_result : option Text;
  dd_compaction : option (document DelegationCompactionState);
}.

Definition empty_dir : DelegDir :=
  {| dd_metadata := None; dd_events := None; dd_event_seq := None; dd_steering := None;
     dd_progress := None; dd_result := None; dd_compaction := None |}.

Definition put_metadata m (d : DelegDir) : DelegDir :=
  {| dd_metadata := Some (Document m); dd_events := dd_events d; dd_event_seq := dd_event_seq d;
     dd_steering := dd_steering d; dd_progress := dd_progress d; dd_result := dd_result d;
     dd_compaction := dd_compaction d |}.
Definition put_events l (d : DelegDir) : DelegDir :=
  {| dd_metadata := dd_metadata d; dd_events := Some l; dd_event_seq := dd_event_seq d;
     dd_steering := dd_steering d; dd_progress := dd_progress d; dd_result := dd_result d;
     dd_compaction := dd_compaction d |}.
Definition put_event_seq n (d : DelegDir) : DelegDir :=
  {| dd_metadata := dd_metadata d; dd_events := dd_events d; dd_event_seq := Some (SeqNumber n);
     dd_steering := dd_steering d; dd_progress := dd_progress d; dd_result := dd_result d;
     dd_compaction := dd_compaction d |}.
Definition put_steering l (d : DelegDir) : DelegDir :=
  {| dd_metadata := dd_metadata d; dd_events := dd_events d; dd_event_seq := dd_event_seq d;
     dd_steering := Some l; dd_progress := dd_progress d; dd_result := dd_result d;
     dd_compaction := dd_compaction d |}.
Definition put_progress p (d : DelegDir) : DelegDir :=
  {| dd_metadata := dd_metadata d; dd_events := dd_events d; dd_event_seq := dd_event_seq d;
     dd_steering := dd_steering d; dd_progress := Some (Document p); dd_result := dd_result d;
     dd_compaction := dd_compaction d |}.
Definition put_result t (d : DelegDir) : DelegDir :=
  {| dd_metadata := dd_metadata d; dd_events := dd_events d; dd_event_seq := dd_event_seq d;
     dd_steering := dd_steering d; dd_progress := dd_progress d; dd_result := Some t;
     dd_compaction := dd_compaction d |}.
Definition put_compaction s (d : DelegDir) : DelegDir :=
  {| dd_metadata := dd_metadata d; dd_events := dd_events d; dd_event_seq := dd_event_seq d;
     dd_steering := dd_steering d; dd_progress := dd_progress d; dd_result := dd_result d;
     dd_compaction := Some (Document s) |}.

(** How an I/O step ends.  For a step that is not an append every failure
    leaves the files as they were, except where the operation says. *)
Inductive io_fault :=
| IoFine
| IoFails
| IoTorn (bytes : Z)
| IoNoNewline
| IoUnsynced.

#[export] Instance io_fault_eq_dec : EqDecision io_fault.
Proof. solve_decision. Defined.

Record Delegations := {
  ds_dirs : gmap string DelegDir;
  ds_faults : list io_fault;
}.

Inductive DelegationStoreError :=
| DIo
| DFileLock
| DStorage
| DJson
| DJsonLine (line : nat)
| DNotFound (id : string)
| DIdCollisionExhausted (last_id : option string)
| DCannotSteer (id : string) (status : DelegationStatus)
| DCannotTransition (id : string) (from to : DelegationStatus)
| DNonTerminalResult (id : string) (status : DelegationStatus)
| DCannotUpdateProgress (id : string) (status : DelegationStatus)
| DParentSessionMismatch (expected actual : string)
| DAbandonIncomplete (session_id : string) (failures : list string).

Notation DM := (M Delegations DelegationStoreError).

Definition EVENT_TAIL_READ_WINDOW_BYTES : Z := 262144.
Definition EVENT_TAIL_REPAIR_MAX_LINE_BYTES : Z := 262144.
Definition DEFAULT_STEERING_READ_LIMIT : nat := 64.
Definition ID_MAX_ATTEMPTS : nat := 100.
Definition RESULT_MD : Text := lit "result.md".

(** ** Primitive steps *)

Definition take_fault : DM io_fault := λ w,
  match ds_faults w with
  | [] => (Ok IoFine, w)
  | f :: fs => (Ok f, {| ds_dirs := ds_dirs w; ds_faults := fs |})
  end.

Definition step (err : DelegationStoreError) : DM unit :=
  f ← take_fault;
  if bool_decide (f = IoFine) then mret tt else fail err.

(** A write below [id]'s directory; create_dir_all makes the directory. *)
Definition update_dir (id : string) (f : DelegDir → DelegDir) : DM unit :=
  modify (λ w, {| ds_dirs := <[id := f (default empty_dir (ds_dirs w !! id))]> (ds_dirs w);
                  ds_faults := ds_faults w |}).

Definition read_dir (id : string) : DM (option DelegDir) := gets (λ w, ds_dirs w !! id).

(** [write_text_atomic] / [write_yaml_atomic]: temporary file, fsync, rename. *)
Definition write_atomic (id : string) (f : DelegDir → DelegDir) : DM unit :=
  _ ← step DStorage;
  update_dir id f.

(** [FileLockGuard::lock_exclusive]: it makes the parent directory of the lock
    file, also when the lock is then not obtained. *)
Definition file_lock_for (id : string) : DM unit :=
  f ← take_fault;
  if bool_decide (f = IoFails) then fail DFileLock
  else
    _ ← update_dir id (λ d, d);
    if bool_decide (f = IoFine) then mret tt else fail DFileLock.

Section store.
(** The length in bytes of an event's line, with its newline: what serde_json
    makes of it. *)
Context (event_bytes : DelegationEvent → Z).

(** ** Logs *)

Definition fragment_bytes {A} (bytes : A → Z) (fr : option (fragment A)) : Z :=
  match fr with
  | None => 0
  | Some (FEntry a) => bytes a - 1
  | Some (FBad n) => n
  end%Z.

Definition line_bytes {A} (bytes : A → Z) (l : line A) : Z :=
  match l with LEntry a => bytes a | LBlank n | LCorrupt n => n end.

Definition lines_bytes {A} (bytes : A → Z) (ls : list (line A)) : Z :=
  foldr (λ l n, (line_bytes bytes l + n)%Z) 0%Z ls.

(** The writes of one line: whole, cut after [n] bytes, without its newline.
    A line that follows a fragment joins it. *)
Definition push_line {A} (bytes : A → Z) (a : A) (lg : log A) : log A :=
  match lg_fragment lg with
  | None => Build_log (lg_lines lg ++ [LEntry a]) None
  | Some _ =>
      Build_log (lg_lines lg ++ [LCorrupt (fragment_bytes bytes (lg_fragment lg) + bytes a)]) None
  end.

Definition push_torn {A} (bytes : A → Z) (n : Z) (lg : log A) : log A :=
  if (n <=? 0)%Z then lg
  else Build_log (lg_lines lg) (Some (FBad (fragment_bytes bytes (lg_fragment lg) + n))).

Definition push_unterminated {A} (bytes : A → Z) (a : A) (lg : log A) : log A :=
  match lg_fragment lg with
  | None => Build_log (lg_lines lg) (Some (FEntry a))
  | Some _ => Build_log (lg_lines lg)
                (Some (FBad (fragment_bytes bytes (lg_fragment lg) + bytes a - 1)))
  end.

Definition append_effect {A} (bytes : A → Z) (f : io_fault) (a : A) (lg : log A) : log A :=
  match f with
  | IoFine | IoUnsynced => push_line bytes a lg
  | IoFails => lg
  | IoTorn n => push_torn bytes n lg
  | IoNoNewline => push_unterminated bytes a lg
  end.

(** [create(true).append(true)], write_all, sync_data *)
Definition append_log {A} (bytes : A → Z) (get : DelegDir → option (log A))
    (put : log A → DelegDir → DelegDir) (id : string) (a : A) : DM unit :=
  f ← take_fault;
  _ ← (if bool_decide (f = IoFails) then mret tt
       else update_dir id (λ d, put (append_effect bytes f a (default (Build_log [] None) (get d))) d));
  if bool_decide (f = IoFine) then mret tt else fail DIo.

(** ** Reading the tail of the events *)

(** The lines that start inside the window of the last
    EVENT_TAIL_READ_WINDOW_BYTES bytes: from offset 0 when the file is no
    larger, and otherwise after the first newline of the window. *)
Fixpoint window_lines {A} (bytes : A → Z) (extra : Z) (ls : list (line A)) : list (line A) :=
  if (lines_bytes bytes ls + extra <? EVENT_TAIL_READ_WINDOW_BYTES)%Z then ls
  else match ls with [] => [] | _ :: ls' => window_lines bytes extra ls' end.

Definition tail_window {A} (bytes : A → Z) (lg : log A) : list (line A) * option (fragment A) :=
  let extra := fragment_bytes bytes (lg_fragment lg) in
  if (lines_bytes bytes (lg_lines lg) + extra <=? EVENT_TAIL_READ_WINDOW_BYTES)%Z
  then (lg_lines lg, lg_fragment lg)
  else (window_lines bytes extra (lg_lines lg),
        if (extra <? EVENT_TAIL_READ_WINDOW_BYTES)%Z then lg_fragment lg else None).

Definition push_bounded {A} (limit : nat) (tail : list A) (a : A) : list A :=
  (if bool_decide (length tail = limit) then drop 1 tail else tail) ++ [a].

(** The loop over complete lines; a fragment comes last and may be partial. *)
Fixpoint tail_loop {A} (limit idx : nat) (ls : list (line A)) (tail : list A) :
    Result DelegationStoreError (list A) :=
  match ls with
  | [] => Ok tail
  | LBlank _ :: ls' => tail_loop limit (S idx) ls' tail
  | LEntry a :: ls' => tail_loop limit (S idx) ls' (push_bounded limit tail a)
  | LCorrupt _ :: _ => Err (DJsonLine (S idx))
  end.

Definition read_tail {A} (bytes : A → Z) (limit : nat) (lg : log A) :
    Result DelegationStoreError (list A) :=
  let '(ls, fr) := tail_window bytes lg in
  tail ← tail_loop limit 0 ls [];
  Ok match fr with Some (FEntry a) => push_bounded limit tail a | _ => tail end.

Definition read_events_tail_unlocked (id : string) (limit : nat) : DM (list DelegationEvent) :=
  _ ← step DIo;
  d ← read_dir id;
  match d ≫= dd_events with
  | None => mret []
  | Some lg => lift_result (read_tail event_bytes (clamp_event_tail_limit limit) lg)
  end.

(** [BufReader::lines]: every line and the fragment must parse. *)
Fixpoint parse_lines {A} (idx : nat) (ls : list (line A)) : Result DelegationStoreError (list A) :=
  match ls with
  | [] => Ok []
  | LBlank _ :: ls' => parse_lines (S idx) ls'
  | LEntry a :: ls' => rest ← parse_lines (S idx) ls'; Ok (a :: rest)
  | LCorrupt _ :: _ => Err (DJsonLine (S idx))
  end.

Definition all_lines {A} (lg : log A) : list (line A) :=
  lg_lines lg ++ match lg_fragment lg with
                 | None => []
                 | Some (FEntry a) => [LEntry a]
                 | Some (FBad n) => [LCorrupt n]
                 end.

Definition read_events_unlocked (id : string) : DM (list DelegationEvent) :=
  _ ← step DIo;
  d ← read_dir id;
  match d ≫= dd_events with
  | None => mret []
  | Some lg => lift_result (parse_lines 0 (all_lines lg))
  end.

(** ** Appending an event *)

Definition truncate_events_tail (id : string) (lg : log DelegationEvent) : DM unit :=
  f ← take_fault;
  _ ← (if bool_decide (f = IoFine ∨ f = IoUnsynced)
       then update_dir id (put_events (Build_log (lg_lines lg) None)) else mret tt);
  if bool_decide (f = IoFine) then mret tt else fail DIo.

Definition repair_events_tail_unlocked (id : string) : DM unit :=
  _ ← step DIo;
  d ← read_dir id;
  match d ≫= dd_events with
  | None => mret tt
  | Some lg =>
      match lg_fragment lg with
      | None => mret tt
      | Some fr =>
          if (EVENT_TAIL_REPAIR_MAX_LINE_BYTES <? fragment_bytes event_bytes (Some fr))%Z
          then truncate_events_tail id lg
          else
            match fr with
            | FEntry e =>
                f ← take_fault;
                _ ← (if bool_decide (f = IoFine ∨ f = IoUnsynced)
                     then update_dir id (put_events (Build_log (lg_lines lg ++ [LEntry e]) None))
                     else mret tt);
                if bool_decide (f = IoFine) then mret tt else fail DIo
            | FBad _ => truncate_events_tail id lg
            end
      end
  end.

Definition read_event_seq_unlocked (id : string) : DM (option Z) :=
  _ ← step DIo;
  d ← read_dir id;
  match d ≫= dd_event_seq with
  | None | Some SeqEmpty => mret None
  | Some (SeqNumber n) => mret (Some n)
  | Some SeqGarbled => fail DIo
  end.

Definition write_event_seq_unlocked (id : string) (seq : Z) : DM unit :=
  write_atomic id (put_event_seq seq).

Definition read_last_event_seq_unlocked (id : string) : DM (option Z) :=
  tail ← read_events_tail_unlocked id 1;
  mret (de_seq <$> last tail).

Definition next_event_seq_unlocked (id : string) : DM Z :=
  sidecar_seq ← read_event_seq_unlocked id;
  last_event_seq ← read_last_event_seq_unlocked id;
  match last_event_seq with
  | Some s =>
      _ ← (if bool_decide (sidecar_seq = Some s) then mret tt else write_event_seq_unlocked id s);
      mret (sat_add u64_max s 1)
  | None => mret 1%Z
  end.

Definition append_event_unlocked (id : string) (kind : DelegationEventKind) (at_ : Z) :
    DM DelegationEvent :=
  _ ← repair_events_tail_unlocked id;
  seq ← next_event_seq_unlocked id;
  let event := {| de_seq := seq; de_at := at_; de_kind := bound_event_kind kind |} in
  _ ← append_log event_bytes dd_events put_events id event;
  _ ← write_event_seq_unlocked id seq;
  mret event.

Definition append_status_change_unlocked (id : string) (from to : DelegationStatus) (at_ : Z) :
    DM unit :=
  if bool_decide (from = to) then mret tt
  else _ ← append_event_unlocked id (EvStatusChanged from to) at_; mret tt.

(** ** Metadata *)

Definition load (id : string) : DM DelegationMetadata :=
  _ ← step DStorage;
  d ← read_dir id;
  match d ≫= dd_metadata with
  | None => fail (DNotFound id)
  | Some Garbled => fail DStorage
  | Some (Document m) => mret m
  end.

Definition write_metadata (m : DelegationMetadata) : DM unit :=
  write_atomic (dm_id m) (put_metadata m).

(** The fields that an operation may change. *)
Definition with_state (m : DelegationMetadata) (status : DelegationStatus) (updated_at : Z)
    (started_at completed_at : option Z) (current_step progress_summary error_summary
    result_ref : option Text) (changed_files : list Text) : DelegationMetadata := {|
  dm_id := dm_id m; dm_parent_session_id := dm_parent_session_id m;
  dm_parent_turn_id := dm_parent_turn_id m; dm_owner_agent_id := dm_owner_agent_id m;
  dm_title := dm_title m; dm_role := dm_role m; dm_objective := dm_objective m;
  dm_constraints := dm_constraints m; dm_status := status; dm_created_at := dm_created_at m;
  dm_updated_at := updated_at; dm_started_at := started_at; dm_completed_at := completed_at;
  dm_current_step := current_step; dm_progress_summary := progress_summary;
  dm_error_summary := error_summary; dm_result_ref := result_ref;
  dm_changed_files := changed_files |}.

Definition touch (m : DelegationMetadata) (now : Z) : DelegationMetadata :=
  with_state m (dm_status m) now (dm_started_at m) (dm_completed_at m) (dm_current_step m)
    (dm_progress_summary m) (dm_error_summary m) (dm_result_ref m) (dm_changed_files m).

Definition read_progress (id : string) : DM (option DelegationProgress) :=
  _ ← step DIo;
  d ← read_dir id;
  match d ≫= dd_progress with
  | None => mret None
  | Some Garbled => fail DJson
  | Some (Document p) => mret (Some p)
  end.

Definition read_compaction_state (id : string) : DM (option DelegationCompactionState) :=
  _ ← step DIo;
  d ← read_dir id;
  match d ≫= dd_compaction with
  | None => mret None
  | Some Garbled => fail DJson
  | Some (Document s) => mret (Some s)
  end.

Definition write_compaction_state (id : string) (s : DelegationCompactionState) : DM unit :=
  write_atomic id (put_compaction s).

Definition newline : Text := [line_feed].

(** The text of [write_result_markdown]. *)
Definition result_markdown (r : DelegationResult) : Text :=
  lit "# Subagent Result" ++ newline ++ newline
  ++ lit "status: " ++ status_debug (dr_status r) ++ newline ++ newline
  ++ dr_summary r ++ newline
  ++ (if bool_decide (dr_changed_files r = []) then []
      else newline ++ lit "changed_files:" ++ newline
             ++ (dr_changed_files r ≫= λ p, lit "- " ++ p ++ newline))
  ++ (match dr_artifacts r with
      | [] => []
      | artifacts =>
          newline ++ lit "artifacts:" ++ newline
            ++ (artifacts ≫= λ a, lit "- " ++ art_path a
                  ++ (match art_description a with Some d => lit ": " ++ d | None => [] end)
                  ++ newline)
      end)
  ++ (match dr_error_summary r with
      | Some error => newline ++ lit "error_summary:" ++ newline ++ error ++ newline
      | None => []
      end).

Definition write_result_markdown (id : string) (r : DelegationResult) : DM unit :=
  write_atomic id (put_result (result_markdown r)).

(** [read_text_bounded]: at most [4 * max_chars + 16] bytes of the file, read
    as lossy text, then cut to [max_chars] scalars. *)
Definition read_text_bounded (content : Text) (max_chars : nat) : Text * bool :=
  let byte_limit := Nat.max (max_chars * 4 + 16) 16 in
  let bytes := take byte_limit (encode_all content) in
  let file_truncated := bool_decide (length bytes < length (encode_all content)) in
  let '(text, text_truncated) := truncate_text_with_flag (from_utf8_lossy bytes) max_chars in
  (text, file_truncated || text_truncated).

Definition read_optional_text_bounded (id : string) (max_chars : nat) : DM (option Text * bool) :=
  _ ← step DIo;
  d ← read_dir id;
  match d ≫= dd_result with
  | None => mret (None, false)
  | Some content =>
      let '(text, truncated) := read_text_bounded content max_chars in mret (Some text, truncated)
  end.

(** ** Creation *)

Definition create_dir (id : string) : DM bool :=
  _ ← step DIo;
  d ← read_dir id;
  if bool_decide (is_Some d) then mret false else _ ← update_dir id (λ d, d); mret true.

Definition remove_dir (id : string) : DM unit :=
  _ ← step DIo;
  modify (λ w, {| ds_dirs := delete id (ds_dirs w); ds_faults := ds_faults w |}).

Definition initialize_created_delegation (m : DelegationMetadata) (now : Z) : DM unit :=
  _ ← write_metadata m;
  _ ← append_event_unlocked (dm_id m) EvCreated now;
  _ ← append_event_unlocked (dm_id m) EvQueued now;
  mret tt.

Definition cleanup_failed_create_dir {A} (id : string) (source_error : DelegationStoreError) : DM A :=
  _ ← m_try (remove_dir id);
  fail source_error.

Definition ensure_parent_session_matches (expected : option string) (actual : string) : DM unit :=
  match expected with
  | None => mret tt
  | Some e => if bool_decide (e = actual) then mret tt else fail (DParentSessionMismatch e actual)
  end.

(** [id_factory k] is the id that the [k]-th call of the factory returns. *)
Fixpoint create_loop (rq : DelegationCreateRequest) (id_factory : nat → string) (now : Z)
    (attempts k : nat) (last_id : option string) : DM DelegationMetadata :=
  match attempts with
  | O => fail (DIdCollisionExhausted last_id)
  | S attempts' =>
      let id := id_factory k in
      created ← create_dir id;
      if (created : bool) then
        let m := metadata_new id rq now in
        r ← m_try (initialize_created_delegation m now);
        match r with
        | Ok _ => mret m
        | Err e => cleanup_failed_create_dir id e
        end
      else create_loop rq id_factory now attempts' (S k) (Some id)
  end.

Definition create_with_id_factory (expected : option string) (rq : DelegationCreateRequest)
    (id_factory : nat → string) (now : Z) : DM DelegationMetadata :=
  _ ← ensure_parent_session_matches expected (rq_parent_session_id rq);
  _ ← step DIo;
  create_loop rq id_factory now ID_MAX_ATTEMPTS 0 None.

(** ** Listing *)

Definition sort_metadata : DelegationMetadata → DelegationMetadata → comparison :=
  cmp_then (cmp_on (λ m, sort_rank (dm_status m)) Z.compare)
    (cmp_then (cmp_rev (cmp_on dm_created_at Z.compare)) (cmp_on dm_id String.compare)).

(** [read_yaml] of the metadata of one directory entry. *)
Definition read_listed (d : DelegDir) : DM DelegationMetadata :=
  _ ← step DStorage;
  match dd_metadata d with
  | Some (Document m) => mret m
  | None | Some Garbled => fail DStorage
  end.

Fixpoint list_loop (strict : bool) (l : list (string * DelegDir)) : DM (list DelegationMetadata) :=
  match l with
  | [] => mret []
  | (_, d) :: l' =>
      r ← m_try (read_listed d);
      match r with
      | Ok m => rest ← list_loop strict l'; mret (m :: rest)
      | Err e => if strict then fail e else list_loop strict l'
      end
  end.

Definition list_metadata_inner (strict : bool) : DM (list DelegationMetadata) :=
  _ ← step DIo;
  w ← get_world;
  out ← list_loop strict (map_to_list (ds_dirs w));
  mret (sort_by sort_metadata out).

Fixpoint failures_loop (l : list (string * DelegDir)) : DM (list DelegationMetadata * list string) :=
  match l with
  | [] => mret ([], [])
  | (name, d) :: l' =>
      r ← m_try (read_listed d);
      rest ← failures_loop l';
      match r with
      | Ok m => mret (m :: rest.1, rest.2)
      | Err _ => mret (rest.1, name :: rest.2)
      end
  end.

Definition list_metadata_with_failures : DM (list DelegationMetadata * list string) :=
  _ ← step DIo;
  w ← get_world;
  out ← failures_loop (map_to_list (ds_dirs w));
  mret (sort_by sort_metadata out.1, out.2).

Record DelegationListPage := {
  lp_summaries : list DelegationSummary;
  lp_omitted : nat;
}.

Definition list_page_from_metadata (metadata : list DelegationMetadata) (limit : nat) :
    DelegationListPage :=
  let summaries := summary <$> take (Nat.max limit 1) metadata in
  {| lp_summaries := summaries; lp_omitted := length metadata - length summaries |}.

Definition list_page (limit : nat) : DM DelegationListPage :=
  metadata ← list_metadata_inner false; mret (list_page_from_metadata metadata limit).

Definition list_page_strict (limit : nat) : DM DelegationListPage :=
  metadata ← list_metadata_inner true; mret (list_page_from_metadata metadata limit).

(** ** Transitions *)

Definition transition_metadata (m : DelegationMetadata) (status : DelegationStatus) (now : Z)
    (reason_text : Text) (progress : option DelegationProgress) : DelegationMetadata :=
  let gave_up := bool_decide (status = Failed ∨ status = Abandoned) in
  with_state m status now
    (match status with Running => Some (default now (dm_started_at m)) | _ => dm_started_at m end)
    (if is_terminal status then Some now else dm_completed_at m)
    (dm_current_step m)
    (match progress with Some p => Some (pr_summary p) | None => dm_progress_summary m end)
    (if gave_up then Some (truncate_text reason_text SUMMARY_FIELD_LIMIT) else dm_error_summary m)
    (if gave_up then Some RESULT_MD else dm_result_ref m)
    (dm_changed_files m).

Definition transition_result (m : DelegationMetadata) (status : DelegationStatus) (now : Z)
    (reason_text : Text) (progress : option DelegationProgress) : DelegationResult :=
  bound_result {|
    dr_status := status;
    dr_summary := match progress with
                  | Some p => pr_summary p
                  | None => status_debug status ++ lit ": " ++ reason_text
                  end;
    dr_changed_files := dm_changed_files m;
    dr_artifacts := match progress with Some p => pr_artifacts p | None => [] end;
    dr_error_summary := Some reason_text;
    dr_completed_at := now |}.

Definition transition (id : string) (status : DelegationStatus) (reason : option Text) (now : Z) :
    DM DelegationMetadata :=
  _ ← file_lock_for id;
  m ← load id;
  let previous := dm_status m in
  if is_terminal previous then
    if bool_decide (status = Abandoned) then mret m
    else fail (DCannotTransition id previous status)
  else if bool_decide (previous = status) then mret m
  else
    let reason_text :=
      match reason, status with
      | Some r, _ => r
      | None, Failed => lit "failed"
      | None, Abandoned => lit "abandoned"
      | None, _ => []
      end in
    let gave_up := bool_decide (status = Failed ∨ status = Abandoned) in
    progress ← (if gave_up then
                  r ← m_try (read_progress id);
                  mret match r with Ok p => p | Err _ => None end
                else mret None);
    let m' := transition_metadata m status now reason_text progress in
    _ ← (if gave_up then write_result_markdown id (transition_result m status now reason_text progress)
         else mret tt);
    _ ← write_metadata m';
    _ ← append_status_change_unlocked id previous status now;
    _ ← (match status with
         | Running => _ ← append_event_unlocked id EvStarted now; mret tt
         | Abandoned => _ ← append_event_unlocked id (EvAbandoned reason_text) now; mret tt
         | Failed => _ ← append_event_unlocked id (EvFailed reason_text) now; mret tt
         | Completed | Queued => mret tt
         end);
    mret m'.

Definition start (id : string) (now : Z) : DM DelegationMetadata := transition id Running None now.

Definition abandon (id : string) (reason : Text) (now : Z) : DM DelegationMetadata :=
  transition id Abandoned (Some reason) now.

Definition progress_metadata (m : DelegationMetadata) (p : DelegationProgress) (now : Z) :
    DelegationMetadata :=
  with_state m (dm_status m) now (dm_started_at m) (dm_completed_at m) (pr_current_step p)
    (Some (pr_summary p)) (dm_error_summary m) (dm_result_ref m) (dm_changed_files m).

Definition update_progress (id : string) (update : DelegationUpdate) (now : Z) :
    DM DelegationMetadata :=
  _ ← file_lock_for id;
  let p := bound_progress (progress update now) in
  m ← load id;
  if bool_decide (dm_status m ≠ Running) then fail (DCannotUpdateProgress id (dm_status m))
  else
    _ ← write_atomic id (put_progress p);
    let m' := progress_metadata m p now in
    _ ← write_metadata m';
    _ ← append_event_unlocked id
          (EvProgressUpdated (pr_current_step p) (pr_summary p) (pr_artifacts p)) now;
    mret m'.

(** The bytes of a steering line are never measured. *)
Definition append_steering_unlocked (id : string) (item : DelegationSteering) : DM unit :=
  append_log (λ _, 1%Z) dd_steering put_steering id item.

Definition steer (id : string) (instruction : Text) (now : Z) : DM DelegationMetadata :=
  _ ← file_lock_for id;
  m ← load id;
  if is_terminal (dm_status m) then fail (DCannotSteer id (dm_status m))
  else
    let m' := touch m now in
    _ ← write_metadata m';
    let instruction := truncate_text instruction SUMMARY_TEXT_LIMIT in
    event ← append_event_unlocked id (EvSteered instruction) now;
    _ ← append_steering_unlocked id
          {| st_seq := de_seq event; st_at := de_at event; st_instruction := instruction |};
    mret m'.

Definition complete_metadata (m : DelegationMetadata) (r : DelegationResult) : DelegationMetadata :=
  with_state m (dr_status r) (dr_completed_at r) (dm_started_at m) (Some (dr_completed_at r))
    (dm_current_step m) (Some (truncate_text (dr_summary r) SUMMARY_TEXT_LIMIT))
    (dr_error_summary r) (Some RESULT_MD) (dr_changed_files r).

(** The event of a result; a non-terminal one has been rejected before. *)
Definition result_event (r : DelegationResult) : DelegationEventKind :=
  match dr_status r with
  | Completed => EvCompleted (dr_summary r) (dr_changed_files r)
  | Failed => EvFailed (default (lit "subagent failed") (dr_error_summary r))
  | Abandoned | Queued | Running =>
      EvAbandoned (default (lit "subagent abandoned") (dr_error_summary r))
  end.

Definition complete (id : string) (result : DelegationResult) : DM DelegationMetadata :=
  _ ← file_lock_for id;
  let result := bound_result result in
  let now := dr_completed_at result in
  m ← load id;
  let previous := dm_status m in
  if negb (is_terminal (dr_status result)) then fail (DNonTerminalResult id (dr_status result))
  else if is_terminal previous then fail (DCannotTransition id previous (dr_status result))
  else if negb (bool_decide (previous = Running)
                || bool_decide (previous = Queued) && bool_decide (dr_status result ≠ Completed))
  then fail (DCannotTransition id previous (dr_status result))
  else
    let m' := complete_metadata m result in
    _ ← write_result_markdown id result;
    _ ← write_metadata m';
    _ ← append_status_change_unlocked id previous (dr_status result) now;
    _ ← append_event_unlocked id (result_event result) now;
    mret m'.

Definition append_event (id : string) (kind : DelegationEventKind) (now : Z) : DM unit :=
  _ ← file_lock_for id;
  m ← load id;
  if is_terminal (dm_status m) then mret tt
  else _ ← append_event_unlocked id kind now; mret tt.

(** ** Abandoning what a session left *)

Definition belongs_to (expected : option string) (session : string) (m : DelegationMetadata) : bool :=
  bool_decide (dm_parent_session_id m = session) || bool_decide (expected = Some session).

Fixpoint abandon_loop (expected : option string) (session : string) (reason : Text) (now : Z)
    (l : list DelegationMetadata) (updated : list DelegationMetadata) (failures : list string) :
    DM (list DelegationMetadata * list string) :=
  match l with
  | [] => mret (updated, failures)
  | m :: l' =>
      if belongs_to expected session m && negb (is_terminal (dm_status m)) then
        r ← m_try (abandon (dm_id m) reason now);
        match r with
        | Ok m' =>
            abandon_loop expected session reason now l'
              (if bool_decide (dm_status m' = Abandoned) then updated ++ [m'] else updated) failures
        | Err _ => abandon_loop expected session reason now l' updated (failures ++ [dm_id m])
        end
      else abandon_loop expected session reason now l' updated failures
  end.

Definition abandon_unfinished_for_session (expected : option string) (session : string)
    (reason : Text) (now : Z) : DM (list DelegationMetadata) :=
  listed ← list_metadata_with_failures;
  out ← abandon_loop expected session reason now listed.1 [] listed.2;
  if bool_decide (out.2 = []) then mret out.1 else fail (DAbandonIncomplete session out.2).

Definition abandon_unfinished_for_session_best_effort (expected : option string) (session : string)
    (reason : Text) (now : Z) : DM (list DelegationMetadata) :=
  listed ← m_try (list_metadata_inner false);
  match listed with
  | Err _ => mret []
  | Ok l => out ← abandon_loop expected session reason now l [] []; mret out.1
  end.

(** ** Steering *)

Fixpoint merge_steering (after_seq : Z) (limit : nat) (events : list DelegationEvent)
    (out : list DelegationSteering) : list DelegationSteering :=
  match events with
  | [] => out
  | e :: events' =>
      if (de_seq e <=? after_seq)%Z then merge_steering after_seq limit events' out
      else
        match de_kind e with
        | EvSteered instruction =>
            if bool_decide (de_seq e ∈ st_seq <$> out)
            then merge_steering after_seq limit events' out
            else
              let out := out ++ [{| st_seq := de_seq e; st_at := de_at e;
                                    st_instruction := instruction |}] in
              if bool_decide (limit ≤ length out) then out
              else merge_steering after_seq limit events' out
        | _ => merge_steering after_seq limit events' out
        end
  end.

Definition merge_steering_from_events_unlocked (id : string) (after_seq : Z) (limit : nat)
    (out : list DelegationSteering) : DM (list DelegationSteering) :=
  events ← read_events_tail_unlocked id DEFAULT_STEERING_READ_LIMIT;
  mret (merge_steering after_seq limit events out).

(** The reading loop stops at the limit, before later lines are parsed. *)
Fixpoint steering_loop (after_seq : Z) (limit idx : nat) (ls : list (line DelegationSteering))
    (out : list DelegationSteering) : Result DelegationStoreError (list DelegationSteering) :=
  match ls with
  | [] => Ok out
  | LBlank _ :: ls' => steering_loop after_seq limit (S idx) ls' out
  | LCorrupt _ :: _ => Err (DJsonLine (S idx))
  | LEntry item :: ls' =>
      if (st_seq item <=? after_seq)%Z then steering_loop after_seq limit (S idx) ls' out
      else
        let out := out ++ [item] in
        if bool_decide (limit ≤ length out) then Ok out
        else steering_loop after_seq limit (S idx) ls' out
  end.

Definition steering_cmp : DelegationSteering → DelegationSteering → comparison :=
  cmp_on st_seq Z.compare.

Definition read_steering_after (id : string) (after_seq : Z) (limit : nat) :
    DM (list DelegationSteering) :=
  let limit := Nat.min (Nat.max limit 1) DEFAULT_STEERING_READ_LIMIT in
  _ ← step DIo;
  d ← read_dir id;
  match d ≫= dd_steering with
  | None => merge_steering_from_events_unlocked id after_seq limit []
  | Some lg =>
      out ← lift_result (steering_loop after_seq limit 0 (all_lines lg) []);
      if bool_decide (length out < limit) then
        out ← merge_steering_from_events_unlocked id after_seq limit out;
        mret (take limit (sort_by steering_cmp out))
      else mret out
  end.

(** ** Reading *)

Inductive DelegationReadMode := ReadSummary | ReadResult | ReadEventsTail (limit : nat).

Inductive DelegationRead :=
| SummaryRead (summary : DelegationSummary) (progress : option DelegationProgress)
    (compaction_summary : option Text)
| ResultRead (summary : DelegationSummary) (result_markdown : option Text) (truncated : bool)
| EventsTailRead (summary : DelegationSummary) (events : list DelegationEvent).

Definition read (id : string) (mode : DelegationReadMode) : DM DelegationRead :=
  m ← load id;
  match mode with
  | ReadSummary =>
      p ← read_progress id;
      s ← read_compaction_state id;
      mret (SummaryRead (summary m) (bound_progress <$> p)
              (match s with
               | Some s => if bool_decide (trim (cs_summary s) = []) then None else Some (cs_summary s)
               | None => None
               end))
  | ReadResult =>
      r ← read_optional_text_bounded id READ_TEXT_MAX_CHARS;
      mret (ResultRead (summary m) r.1 r.2)
  | ReadEventsTail limit =>
      events ← read_events_tail_unlocked id limit;
      mret (EventsTailRead (summary m) events)
  end.

End store.
