(* ===== verification/DelegationStatus.v ===== *)
(** * The life of a delegated task, under any I/O faults

    Every operation of delegation/store.rs moves the stored metadata of every
    task along the legal edges of its status, never touches a terminal one,
    and keeps its identity; abandoning what a session left, when it reports
    success, leaves no unfinished task of that session. *)

From S2P Require Import Prelude Text DelegationTypes DelegationStore.

(** ** The abstract life of a task *)

Inductive legal_edge : DelegationStatus → DelegationStatus → Prop :=
| edge_start : legal_edge Queued Running
| edge_fail_queued : legal_edge Queued Failed
| edge_abandon_queued : legal_edge Queued Abandoned
| edge_complete : legal_edge Running Completed
| edge_fail : legal_edge Running Failed
| edge_abandon : legal_edge Running Abandoned.

Definition same_task (m m' : DelegationMetadata) : Prop :=
  dm_id m' = dm_id m ∧ dm_parent_session_id m' = dm_parent_session_id m ∧
  dm_parent_turn_id m' = dm_parent_turn_id m ∧ dm_owner_agent_id m' = dm_owner_agent_id m ∧
  dm_title m' = dm_title m ∧ dm_role m' = dm_role m ∧ dm_objective m' = dm_objective m ∧
  dm_constraints m' = dm_constraints m ∧ dm_created_at m' = dm_created_at m.

(** One write of the metadata of a task that is not over. *)
Definition task_step (m m' : DelegationMetadata) : Prop :=
  same_task m m' ∧ is_terminal (dm_status m) = false ∧
  (dm_status m' = dm_status m ∨ legal_edge (dm_status m) (dm_status m')).

Definition stored_metadata (w : Delegations) (id : string) : option (document DelegationMetadata) :=
  ds_dirs w !! id ≫= dd_metadata.

Definition named (w : Delegations) : Prop :=
  ∀ id m, stored_metadata w id = Some (Document m) → dm_id m = id.

(** What the metadata on record may become; with [task_moves], no metadata
    appears out of nothing. *)
Definition task_history (w w' : Delegations) : Prop :=
  named w → named w' ∧
  ∀ id m, stored_metadata w id = Some (Document m) →
    ∃ m', stored_metadata w' id = Some (Document m') ∧ rtc task_step m m'.

Definition task_moves (w w' : Delegations) : Prop :=
  named w → named w' ∧
  (∀ id m, stored_metadata w id = Some (Document m) →
    ∃ m', stored_metadata w' id = Some (Document m') ∧ rtc task_step m m') ∧
  (∀ id m', stored_metadata w' id = Some (Document m') →
    ∃ m, stored_metadata w id = Some (Document m)).

Definition quiet (w w' : Delegations) : Prop :=
  ∀ id, stored_metadata w' id = stored_metadata w id.

Lemma task_moves_history w w' : task_moves w w' → task_history w w'.
Proof. intros H Hn. destruct (H Hn) as (H1 & H2 & _). done. Qed.

#[export] Instance task_history_preorder : PreOrder task_history.
Proof.
  split; [intros w Hw; split; [done|eauto using rtc_refl]|]. intros w1 w2 w3 H12 H23 H1.
  destruct (H12 H1) as [H2 Hs12], (H23 H2) as [H3 Hs23]. split; [done|]. intros id m Hm.
  destruct (Hs12 id m Hm) as (m' & Hm' & Hr). destruct (Hs23 id m' Hm') as (m'' & Hm'' & Hr').
  exists m''. split; [done|]. by etrans.
Qed.

#[export] Instance task_moves_preorder : PreOrder task_moves.
Proof.
  split; [intros w Hw; split_and!; [done|eauto using rtc_refl|eauto]|].
  intros w1 w2 w3 H12 H23 H1.
  destruct (H12 H1) as (H2 & _ & Hb12), (H23 H2) as (H3 & _ & Hb23).
  assert (task_history w1 w3) as H13
    by (etrans; apply task_moves_history; [exact H12|exact H23]).
  destruct (H13 H1) as [_ Hf]. split_and!; [done..|].
  intros id m' Hm'. destruct (Hb23 id m' Hm') as (m & Hm). by apply (Hb12 id m).
Qed.

#[export] Instance quiet_preorder : PreOrder quiet.
Proof. split; [done|]. intros w1 w2 w3 H1 H2 id. by rewrite H2, H1. Qed.

Lemma quiet_task_moves w w' : quiet w w' → task_moves w w'.
Proof.
  intros Hq Hw. split_and!; [intros id m; rewrite Hq; apply Hw| |].
  - intros id m Hm. exists m. rewrite Hq. split; [done|constructor].
  - intros id m Hm. exists m. by rewrite <-Hq.
Qed.

(** ** Operations from a known state *)

(** [runs P R Q m]: started where [P] holds, [m] moves the world along [R]
    whatever its outcome, and a result satisfies [Q]. *)
Definition runs {A} (P : Delegations → Prop) (R : relation Delegations)
    (Q : A → Delegations → Prop) (m : DM A) : Prop :=
  ∀ w r w', P w → m w = (r, w') → R w w' ∧ (∀ a, r = Ok a → Q a w').

Section runs.
Context (R : relation Delegations) `{!PreOrder R}.

Lemma runs_bind {A B} P Q Q' (m : DM A) (f : A → DM B) :
  runs P R Q m → (∀ a, runs (Q a) R Q' (f a)) → runs P R Q' (m ≫= f).
Proof.
  intros Hm Hf w r w' Hw [(a & w1 & H1 & H2)|(e & H1 & ->)]%bind_cases.
  - destruct (Hm _ _ _ Hw H1) as [HR HQ].
    destruct (Hf a _ _ _ (HQ a eq_refl) H2) as [HR' HQ']. split; [by etrans|done].
  - destruct (Hm _ _ _ Hw H1) as [HR _]. split; [done|]. intros a [=].
Qed.

Lemma runs_ret {A} P (Q : A → Delegations → Prop) a :
  (∀ w, P w → Q a w) → runs P R Q (mret a).
Proof. intros HQ w r w' Hw [= <- <-]. split; [done|]. intros ? [= <-]. auto. Qed.

Lemma runs_fail {A} P (Q : A → Delegations → Prop) e : runs P R Q (fail e).
Proof. intros w r w' Hw [= <- <-]. split; [done|]. intros ? [=]. Qed.

Lemma runs_weaken {A} (P P' : Delegations → Prop) (R' : relation Delegations)
    (Q Q' : A → Delegations → Prop) m :
  (∀ w, P w → P' w) → (∀ w w', R' w w' → R w w') → (∀ a w, Q' a w → Q a w) →
  runs P' R' Q' m → runs P R Q m.
Proof.
  intros HP HR HQ Hm w r w' Hw Hr. destruct (Hm w r w' (HP w Hw) Hr) as [H1 H2]. split; auto.
Qed.

Lemma runs_preserves {A} P (Q : A → Delegations → Prop) m :
  preserves R m → (∀ a w w', P w → R w w' → Q a w') → runs P R Q m.
Proof. intros Hm HQ w r w' Hw Hr. split; [by eapply Hm|]. intros a _. eapply HQ; [done|by eapply Hm]. Qed.

Lemma runs_to_preserves {A} (Q : A → Delegations → Prop) m : runs (λ _, True) R Q m → preserves R m.
Proof. intros Hm w r w' Hr. by destruct (Hm w r w' I Hr). Qed.

Lemma runs_try {A} P Q (m : DM A) :
  runs P R Q m → runs P R (λ r w, ∀ a, r = Ok a → Q a w) (m_try m).
Proof.
  intros Hm w r w' Hw. unfold m_try. destruct (m w) as [r0 w0] eqn:E. intros [= <- <-].
  destruct (Hm _ _ _ Hw E) as [HR HQ]. split; [done|]. intros a [= <-]. done.
Qed.
End runs.

(** ** Everything but a metadata write is quiet *)

Section quiet.
Context (event_bytes : DelegationEvent → Z).

Lemma take_fault_dirs w r w' : take_fault w = (r, w') → ds_dirs w' = ds_dirs w.
Proof. unfold take_fault. destruct (ds_faults w) eqn:E; intros [= _ <-]; [done|]. done. Qed.

Lemma step_dirs err w r w' : step err w = (r, w') → ds_dirs w' = ds_dirs w.
Proof.
  unfold step, take_fault, mbind, M_bind. destruct (ds_faults w) as [|f fs]; simpl.
  - by intros [= _ <-].
  - destruct (bool_decide _); by intros [= _ <-].
Qed.

Lemma take_fault_quiet : preserves quiet take_fault.
Proof. intros w r w' H id. unfold stored_metadata. by rewrite (take_fault_dirs _ _ _ H). Qed.

Lemma step_quiet err : preserves quiet (step err).
Proof.
  apply preserves_bind; [apply _|apply take_fault_quiet|]. intros f.
  case_bool_decide; [apply preserves_ret|apply preserves_fail]; apply _.
Qed.

Lemma update_dir_quiet id f :
  (∀ d, dd_metadata (f d) = dd_metadata d) → preserves quiet (update_dir id f).
Proof.
  intros Hf w r w' [= _ <-] id'. unfold stored_metadata. simpl.
  destruct (decide (id = id')) as [<-|Hne]; [|by rewrite lookup_insert_ne].
  rewrite lookup_insert_eq. simpl. rewrite Hf. by destruct (ds_dirs w !! id).
Qed.

Lemma read_dir_quiet id : preserves quiet (read_dir id).
Proof. apply preserves_gets, _. Qed.

Lemma get_world_quiet {E} : preserves quiet (@get_world Delegations E).
Proof. by intros w r w' [= _ <-]. Qed.
End quiet.

#[export] Hint Resolve take_fault_quiet step_quiet read_dir_quiet : acn.
#[export] Hint Extern 1 (preserves quiet (update_dir _ _)) =>
  apply update_dir_quiet; intros ?; reflexivity : acn.

Ltac solve_quiet :=
  repeat first
    [ progress intros
    | solve [eauto with acn typeclass_instances]
    | apply preserves_bind
    | apply preserves_m_try
    | progress cbn [mbind M_bind]
    | match goal with
      | |- preserves _ (match ?x with _ => _ end) => destruct x
      | |- preserves _ (let '(_, _) := ?x in _) => destruct x
      end ].

Section quiet_ops.
Context (event_bytes : DelegationEvent → Z).

Lemma write_atomic_quiet id f :
  (∀ d, dd_metadata (f d) = dd_metadata d) → preserves quiet (write_atomic id f).
Proof.
  intros Hf. apply preserves_bind; [apply _|apply step_quiet|]. intros _. by apply update_dir_quiet.
Qed.

Lemma file_lock_quiet id : preserves quiet (file_lock_for id).
Proof. unfold file_lock_for. solve_quiet. Qed.

Lemma append_log_quiet {A} (bytes : A → Z) get put id a :
  (∀ l d, dd_metadata (put l d) = dd_metadata d) →
  preserves quiet (append_log bytes get put id a).
Proof.
  intros Hp. unfold append_log. apply preserves_bind; [apply _|apply take_fault_quiet|]. intros f.
  apply preserves_bind; [apply _| |intros _; solve_quiet].
  case_bool_decide; [apply preserves_ret; apply _|]. by apply update_dir_quiet.
Qed.

Lemma append_event_quiet id kind now : preserves quiet (append_event_unlocked event_bytes id kind now).
Proof.
  unfold append_event_unlocked. apply preserves_bind; [apply _| |intros _].
  { unfold repair_events_tail_unlocked, truncate_events_tail. solve_quiet. }
  apply preserves_bind; [apply _| |intros seq].
  { unfold next_event_seq_unlocked, read_event_seq_unlocked, read_last_event_seq_unlocked,
      read_events_tail_unlocked, write_event_seq_unlocked.
    solve_quiet. }
  apply preserves_bind; [apply _|by apply append_log_quiet|intros _].
  apply preserves_bind; [apply _|by apply write_atomic_quiet|intros _]. solve_quiet.
Qed.

Lemma append_status_quiet id from to now :
  preserves quiet (append_status_change_unlocked event_bytes id from to now).
Proof.
  unfold append_status_change_unlocked. case_bool_decide; [solve_quiet|].
  apply preserves_bind; [apply _|apply append_event_quiet|]. solve_quiet.
Qed.

Lemma append_steering_quiet id item : preserves quiet (append_steering_unlocked id item).
Proof. by apply append_log_quiet. Qed.

Lemma write_result_quiet id r : preserves quiet (write_result_markdown id r).
Proof. by apply write_atomic_quiet. Qed.

Lemma read_progress_quiet id : preserves quiet (read_progress id).
Proof. unfold read_progress. solve_quiet. Qed.

Lemma read_events_tail_quiet id n : preserves quiet (read_events_tail_unlocked event_bytes id n).
Proof. unfold read_events_tail_unlocked. solve_quiet. Qed.
End quiet_ops.

(** ** The operations *)

Definition known (id : string) (m : DelegationMetadata) (w : Delegations) : Prop :=
  named w ∧ stored_metadata w id = Some (Document m).

Lemma known_quiet id m w w' : known id m w → quiet w w' → known id m w'.
Proof.
  intros [Hn Hm] Hq. split; [|by rewrite Hq]. by destruct (quiet_task_moves _ _ Hq Hn).
Qed.

Lemma named_quiet w w' : named w → quiet w w' → named w'.
Proof. intros Hn Hq. by destruct (quiet_task_moves _ _ Hq Hn). Qed.

Lemma quiet_runs {A} id m (op : DM A) :
  preserves quiet op → runs (known id m) task_moves (λ _, known id m) op.
Proof.
  intros Hop w r w' Hw Hr. apply Hop in Hr. split; [by apply quiet_task_moves|].
  intros _ _. by eapply known_quiet.
Qed.

Lemma quiet_named {A} (op : DM A) : preserves quiet op → runs named task_moves (λ _, named) op.
Proof.
  intros Hop w r w' Hw Hr. apply Hop in Hr. split; [by apply quiet_task_moves|].
  intros _ _. by eapply named_quiet.
Qed.

Lemma named_preserves {A} (Q : A → Delegations → Prop) (op : DM A) :
  runs named task_moves Q op → preserves task_moves op.
Proof. intros H w r w' Hr Hn. destruct (H w r w' Hn Hr) as [HR _]. by apply HR. Qed.

Lemma read_dir_bind {A} id (f : option DelegDir → DM A) w :
  (read_dir id ≫= f) w = f (ds_dirs w !! id) w.
Proof. done. Qed.

Lemma load_runs id : runs named task_moves (λ m, known id m) (load id).
Proof.
  unfold load. eapply (runs_bind _ named (λ _, named)); [apply quiet_named; solve_quiet|]. intros _.
  intros w r w' Hn Hr. rewrite read_dir_bind in Hr.
  destruct (ds_dirs w !! id ≫= dd_metadata) as [[m|]|] eqn:E; injection Hr as <- <-;
    (split; [reflexivity|]); intros ? [=]; subst. done.
Qed.

Lemma write_metadata_runs id m m' :
  task_step m m' → runs (known id m) task_moves (λ _, known id m') (write_metadata m').
Proof.
  intros Hs. unfold write_metadata, write_atomic.
  eapply (runs_bind _ _ (λ _, known id m)); [apply quiet_runs; solve_quiet|]. intros _.
  intros w r w' [Hn Hm] [= <- <-].
  assert (dm_id m' = id) as Hid by (destruct Hs as [[-> _] _]; by apply Hn).
  set (w' := {| ds_dirs := _; ds_faults := _ |}).
  assert (∀ id', stored_metadata w' id' =
    if decide (id' = id) then Some (Document m') else stored_metadata w id') as Hst.
  { intros id'. unfold stored_metadata, w'. simpl. rewrite Hid.
    case_decide as E; [subst id'; by rewrite lookup_insert_eq|by rewrite lookup_insert_ne]. }
  assert (named w') as Hn'.
  { intros id' m0. rewrite Hst. case_decide; [|apply Hn]. by intros [= <-]; subst. }
  split; [|intros _ _; split; [done|]; by rewrite Hst, decide_True].
  intros _. split_and!; [done| |].
  - intros id' m0 Hm0. rewrite Hst. case_decide as E.
    + subst id'. rewrite Hm in Hm0. injection Hm0 as <-. exists m'. split; [done|]. by apply rtc_once.
    + exists m0. split; [done|constructor].
  - intros id' m0. rewrite Hst. case_decide as E; [subst; eauto|eauto].
Qed.

Section ops.
Context (event_bytes : DelegationEvent → Z).

Lemma transition_metadata_step m status now reason p :
  is_terminal (dm_status m) = false → legal_edge (dm_status m) status →
  task_step m (transition_metadata m status now reason p).
Proof. intros Ht He. split; [by split_and!|]. split; [done|]. by right. Qed.

(** The statuses that a transition is called with. *)
Lemma started_edge s : is_terminal s = false → s ≠ Running → legal_edge s Running.
Proof. destruct s; try done. constructor. Qed.
Lemma abandoned_edge s : is_terminal s = false → legal_edge s Abandoned.
Proof. destruct s; try done; constructor. Qed.

Ltac qruns := eapply (runs_bind task_moves); [apply quiet_runs; try (solve_quiet; fail)|intros ?].

Lemma transition_runs id status reason now :
  status = Running ∨ status = Abandoned →
  runs named task_moves
    (λ m w, known id m w ∧ (status = Abandoned → is_terminal (dm_status m) = true))
    (transition event_bytes id status reason now).
Proof.
  intros Hstatus. unfold transition.
  eapply (runs_bind _ _ (λ _, named)); [apply quiet_named, file_lock_quiet|intros _].
  eapply (runs_bind task_moves); [apply load_runs|intros m].
  destruct (is_terminal (dm_status m)) eqn:Ht.
  { case_bool_decide; [apply (runs_ret task_moves); auto|apply (runs_fail task_moves)]. }
  case_bool_decide as Hsame.
  { apply (runs_ret task_moves). intros w Hw. split; [done|]. intros ->. by rewrite Hsame in Ht. }
  cbv zeta.
  eapply (runs_bind task_moves); [apply quiet_runs|intros p].
  { case_bool_decide; [|solve_quiet]. apply preserves_bind; [apply _| |solve_quiet].
    apply preserves_m_try, read_progress_quiet. }
  eapply (runs_bind task_moves); [apply quiet_runs|intros ?].
  { case_bool_decide; [apply write_result_quiet|solve_quiet]. }
  eapply (runs_bind task_moves); [eapply write_metadata_runs, transition_metadata_step; [done|]|intros ?].
  { destruct Hstatus as [->| ->]; [by apply started_edge|by apply abandoned_edge]. }
  eapply (runs_bind task_moves); [apply quiet_runs, append_status_quiet|intros ?].
  eapply (runs_bind task_moves); [apply quiet_runs|intros ?].
  { destruct status; solve_quiet; apply append_event_quiet. }
  apply (runs_ret task_moves). intros w Hw. split; [done|]. by intros ->.
Qed.

Lemma update_progress_runs id u now :
  runs named task_moves (λ m, known id m) (update_progress event_bytes id u now).
Proof.
  unfold update_progress.
  eapply (runs_bind _ _ (λ _, named)); [apply quiet_named, file_lock_quiet|intros _].
  cbv zeta. eapply (runs_bind task_moves); [apply load_runs|intros m].
  case_bool_decide as Hr; [apply (runs_fail task_moves)|].
  eapply (runs_bind task_moves); [by apply quiet_runs, write_atomic_quiet|intros ?].
  eapply (runs_bind task_moves); [eapply write_metadata_runs|intros ?].
  { split; [by split_and!|]. split; [|by left]. by destruct (dm_status m). }
  eapply (runs_bind task_moves); [apply quiet_runs, append_event_quiet|intros ?].
  by apply (runs_ret task_moves).
Qed.

Lemma steer_runs id text now :
  runs named task_moves (λ m w, known id m w ∧ is_terminal (dm_status m) = false)
    (steer event_bytes id text now).
Proof.
  unfold steer.
  eapply (runs_bind _ _ (λ _, named)); [apply quiet_named, file_lock_quiet|intros _].
  eapply (runs_bind task_moves); [apply load_runs|intros m].
  destruct (is_terminal (dm_status m)) eqn:Ht; [apply (runs_fail task_moves)|]. cbv zeta.
  eapply (runs_bind task_moves); [eapply (write_metadata_runs id m (touch m now))|intros ?].
  { split; [by split_and!|]. split; [done|by left]. }
  eapply (runs_bind task_moves); [apply quiet_runs, append_event_quiet|intros e].
  eapply (runs_bind task_moves); [apply quiet_runs, append_steering_quiet|intros ?].
  by apply (runs_ret task_moves).
Qed.

Lemma complete_edge previous status :
  is_terminal status = true →
  (bool_decide (previous = Running)
   || bool_decide (previous = Queued) && bool_decide (status ≠ Completed)) = true →
  is_terminal previous = false ∧ legal_edge previous status.
Proof. destruct previous, status; try done; intros _ _; split; done || constructor. Qed.

Lemma complete_runs id result :
  runs named task_moves (λ m w, known id m w ∧ is_terminal (dm_status m) = true)
    (complete event_bytes id result).
Proof.
  unfold complete.
  eapply (runs_bind _ _ (λ _, named)); [apply quiet_named, file_lock_quiet|intros _].
  cbv zeta. eapply (runs_bind task_moves); [apply load_runs|intros m].
  destruct (is_terminal (dr_status (bound_result result))) eqn:Ht; cbn [negb]; [|apply (runs_fail task_moves)].
  destruct (is_terminal (dm_status m)) eqn:Htm; [apply (runs_fail task_moves)|].
  match goal with |- context [if negb ?b then _ else _] => destruct b eqn:Hl end; cbn [negb];
    [|apply (runs_fail task_moves)].
  apply complete_edge in Hl as [_ He]; [|done].
  eapply (runs_bind task_moves); [apply quiet_runs, write_result_quiet|intros ?].
  eapply (runs_bind task_moves); [eapply write_metadata_runs|intros ?].
  { split; [by split_and!|]. split; [done|by right]. }
  eapply (runs_bind task_moves); [apply quiet_runs, append_status_quiet|intros ?].
  eapply (runs_bind task_moves); [apply quiet_runs, append_event_quiet|intros ?].
  by apply (runs_ret task_moves).
Qed.

Lemma append_event_runs id kind now :
  runs named task_moves (λ _, named) (append_event event_bytes id kind now).
Proof.
  unfold append_event.
  eapply (runs_bind _ _ (λ _, named)); [apply quiet_named, file_lock_quiet|intros _].
  eapply (runs_bind task_moves); [apply load_runs|intros m].
  destruct (is_terminal (dm_status m)).
  { apply (runs_ret task_moves). by intros w []. }
  eapply (runs_bind task_moves); [apply quiet_runs, append_event_quiet|intros ?].
  apply (runs_ret task_moves). by intros w [].
Qed.

(** *** Creation *)

(** What the creation of [id] may do: other tasks keep their metadata. *)
Definition elsewhere (id : string) (w w' : Delegations) : Prop :=
  named w → named w' ∧ ∀ id', id' ≠ id → stored_metadata w' id' = stored_metadata w id'.

#[export] Instance elsewhere_preorder id : PreOrder (elsewhere id).
Proof.
  split; [done|]. intros w1 w2 w3 H1 H2 Hn. destruct (H1 Hn) as [Hn2 E1], (H2 Hn2) as [Hn3 E2].
  split; [done|]. intros id' Hne. by rewrite E2, E1.
Qed.

Lemma quiet_elsewhere {A} id (op : DM A) : preserves quiet op → preserves (elsewhere id) op.
Proof.
  intros Hop w r w' Hr Hn. apply Hop in Hr. split; [by eapply named_quiet|]. intros id' _. apply Hr.
Qed.

Lemma write_metadata_elsewhere m : preserves (elsewhere (dm_id m)) (write_metadata m).
Proof.
  apply preserves_bind; [apply _|apply quiet_elsewhere; solve_quiet|].
  intros _ w r w' [= _ <-] Hn. unfold named, stored_metadata. simpl. split.
  - intros id m0. destruct (decide (id = dm_id m)) as [->|Hne]; [|rewrite lookup_insert_ne by done; apply Hn].
    rewrite lookup_insert_eq. by intros [= <-].
  - intros id Hne. by rewrite lookup_insert_ne.
Qed.

Lemma remove_dir_elsewhere id : preserves (elsewhere id) (remove_dir id).
Proof.
  apply preserves_bind; [apply _|apply quiet_elsewhere; solve_quiet|].
  intros _ w r w' [= _ <-] Hn. unfold named, stored_metadata. simpl. split.
  - intros id' m. destruct (decide (id' = id)) as [->|Hne]; [by rewrite lookup_delete_eq|].
    rewrite lookup_delete_ne by done. apply Hn.
  - intros id' Hne. by rewrite lookup_delete_ne.
Qed.

Lemma initialize_elsewhere m now :
  preserves (elsewhere (dm_id m)) (initialize_created_delegation event_bytes m now).
Proof.
  unfold initialize_created_delegation.
  apply preserves_bind; [apply _|apply write_metadata_elsewhere|intros _].
  apply quiet_elsewhere. solve_quiet; apply append_event_quiet.
Qed.

Lemma create_dir_inv id w r w' : create_dir id w = (r, w') →
  quiet w w' ∧ (r = Ok true → ds_dirs w !! id = None ∧ ds_dirs w' !! id = Some empty_dir) ∧
  (r = Ok false → ds_dirs w' = ds_dirs w).
Proof.
  intros Hr.
  assert (preserves quiet (create_dir id)) as Hq by (unfold create_dir; solve_quiet).
  split; [by apply Hq in Hr|]. unfold create_dir in Hr.
  destruct r as [b|]; [|done]. apply bind_ok in Hr as (? & w1 & H1 & Hr). rewrite read_dir_bind in Hr.
  assert (ds_dirs w1 = ds_dirs w) as Hd by apply (step_dirs _ _ _ _ H1).
  rewrite Hd in Hr. case_bool_decide as Hs; injection Hr as <- <-; (split; [|done]); [done|].
  intros _. simpl. rewrite Hd. apply eq_None_not_Some in Hs. by rewrite Hs, lookup_insert_eq.
Qed.

(** The new task is the only one that changes; on success it is on record. *)
Lemma created_history id w w1 w2 :
  quiet w w1 → ds_dirs w !! id = None → elsewhere id w1 w2 → task_history w w2.
Proof.
  intros Hq Hfresh He Hn. destruct (He (named_quiet _ _ Hn Hq)) as [Hn2 Hsame].
  split; [done|]. intros id' m Hm. exists m. split; [|constructor].
  rewrite Hsame; [by rewrite Hq|]. intros ->. unfold stored_metadata in Hm. by rewrite Hfresh in Hm.
Qed.

Lemma initialize_stored m now w w' :
  initialize_created_delegation event_bytes m now w = (Ok tt, w') →
  stored_metadata w' (dm_id m) = Some (Document m).
Proof.
  intros ([] & w1 & H1 & H2)%bind_ok.
  assert (stored_metadata w1 (dm_id m) = Some (Document m)) as Hm.
  { unfold write_metadata, write_atomic in H1. apply bind_ok in H1 as ([] & w0 & _ & [= <-]).
    unfold stored_metadata. simpl. by rewrite lookup_insert_eq. }
  rewrite <-Hm. revert H2. generalize (Ok (E:=DelegationStoreError) tt). intros r H2.
  match type of H2 with ?op w1 = _ => assert (preserves quiet op) as Hq end.
  { solve_quiet; apply append_event_quiet. }
  apply (Hq _ _ _ H2).
Qed.

Lemma create_loop_history rq ids now attempts k last_id w r w' :
  create_loop event_bytes rq ids now attempts k last_id w = (r, w') →
  task_history w w' ∧
  (∀ m, r = Ok m → m = metadata_new (dm_id m) rq now ∧ ds_dirs w !! dm_id m = None ∧
    stored_metadata w' (dm_id m) = Some (Document m)).
Proof.
  revert k last_id w. induction attempts as [|n IH]; intros k last_id w; cbn [create_loop].
  { intros [= <- <-]. split; [done|]. by intros m [=]. }
  intros [(a & w1 & H1 & H2)|(e & H1 & ->)]%bind_cases; apply create_dir_inv in H1 as (Hq & Hd & Hsame).
  - destruct a; [|destruct (IH _ _ _ H2) as [Hh Hok]; split;
      [etrans; [by apply task_moves_history, quiet_task_moves|exact Hh]|by rewrite <-Hsame]].
    destruct (Hd eq_refl) as [Hfresh _]. cbv zeta in H2. rewrite m_try_bind in H2.
    set (m := metadata_new (ids k) rq now) in *.
    destruct (initialize_created_delegation event_bytes m now w1) as [ri w2] eqn:Ei.
    pose proof (initialize_elsewhere m now _ _ _ Ei) as Hel. change (dm_id m) with (ids k) in Hel.
    destruct ri as [[]|e]; [injection H2 as <- <-|].
    + split; [by eapply created_history|]. intros m0 [= <-]. split_and!; [done|done|].
      by apply initialize_stored in Ei.
    + unfold cleanup_failed_create_dir in H2. rewrite m_try_bind in H2.
      destruct (remove_dir (ids k) w2) as [rr w3] eqn:Er. injection H2 as <- <-.
      apply remove_dir_elsewhere in Er. split; [|by intros m0 [=]].
      eapply created_history; [done..|]. by etrans.
  - split; [by apply task_moves_history, quiet_task_moves|]. by intros m [=].
Qed.

(** *** Abandoning what a session left *)

(** Since [m] was listed, its task has only moved on. *)
Definition listed (m : DelegationMetadata) (w : Delegations) : Prop :=
  ∃ m0, stored_metadata w (dm_id m) = Some (Document m0) ∧ rtc task_step m m0.

Lemma task_step_from_terminal m m' :
  rtc task_step m m' → is_terminal (dm_status m) = true → m' = m.
Proof. intros Hr Ht. inversion Hr as [|? m1 ? Hs]; [done|]. destruct Hs as (_ & Hf & _). congruence. Qed.

Lemma listed_moves m w w' : named w → task_moves w w' → listed m w → listed m w'.
Proof.
  intros Hn Hw (m0 & Hm & Hr). destruct (Hw Hn) as (_ & Hf & _).
  destruct (Hf _ _ Hm) as (m1 & Hm1 & Hr1). exists m1. split; [done|]. by etrans.
Qed.

(** Over: the task's metadata on record is terminal. *)
Definition over (id : string) (w : Delegations) : Prop :=
  ∃ m, stored_metadata w id = Some (Document m) ∧ is_terminal (dm_status m) = true.

Lemma over_moves id w w' : named w → task_moves w w' → over id w → over id w'.
Proof.
  intros Hn Hw (m & Hm & Ht). destruct (Hw Hn) as (_ & Hf & _).
  destruct (Hf _ _ Hm) as (m1 & Hm1 & Hr1). exists m1. split; [done|].
  by rewrite (task_step_from_terminal _ _ Hr1 Ht).
Qed.

Lemma abandon_moves id reason now : preserves task_moves (abandon event_bytes id reason now).
Proof. eapply named_preserves, transition_runs. by right. Qed.

Lemma abandon_loop_moves expected session reason now l updated failures :
  preserves task_moves (abandon_loop event_bytes expected session reason now l updated failures).
Proof.
  revert updated failures. induction l as [|m l IH]; intros updated failures; cbn [abandon_loop].
  { apply preserves_ret, _. }
  destruct (belongs_to expected session m && negb (is_terminal (dm_status m))); [|apply IH].
  apply preserves_bind; [apply _|apply preserves_m_try, abandon_moves|].
  intros [m'|e]; apply IH.
Qed.

Lemma abandon_loop_failures expected session reason now l updated failures w u f w' :
  abandon_loop event_bytes expected session reason now l updated failures w = (Ok (u, f), w') →
  ∃ more, f = failures ++ more.
Proof.
  revert updated failures w. induction l as [|m l IH]; intros updated failures w; cbn [abandon_loop].
  { intros [= <- <- <-]. exists []. by rewrite app_nil_r. }
  destruct (belongs_to expected session m && negb (is_terminal (dm_status m))); [|apply IH].
  rewrite m_try_bind. destruct (abandon event_bytes (dm_id m) reason now w) as [[m'|e] w1].
  - apply IH.
  - intros (more & ->)%IH. exists (dm_id m :: more). by rewrite <-(assoc_L (++)).
Qed.

(** The loop itself never fails: a task that cannot be abandoned is noted. *)
Lemma abandon_loop_total expected session reason now l updated failures w e w' :
  abandon_loop event_bytes expected session reason now l updated failures w ≠ (Err e, w').
Proof.
  revert updated failures w. induction l as [|m l IH]; intros updated failures w; cbn [abandon_loop].
  { done. }
  destruct (belongs_to expected session m && negb (is_terminal (dm_status m))); [|apply IH].
  rewrite m_try_bind. destruct (abandon event_bytes (dm_id m) reason now w) as [[m'|e'] w1]; apply IH.
Qed.

Lemma abandon_loop_over expected session reason now l updated w u w' :
  named w → Forall (λ m, listed m w) l →
  abandon_loop event_bytes expected session reason now l updated [] w = (Ok (u, []), w') →
  Forall (λ m, belongs_to expected session m = true → over (dm_id m) w') l.
Proof.
  revert updated w. induction l as [|m l IH]; intros updated w Hn Hl Hr; [constructor|].
  cbn [abandon_loop] in Hr. inversion Hl as [|? ? Hm Hl']; subst.
  destruct (belongs_to expected session m && negb (is_terminal (dm_status m))) eqn:E.
  - rewrite m_try_bind in Hr.
    destruct (abandon event_bytes (dm_id m) reason now w) as [[m'|e] w1] eqn:Ea.
    2: { by apply abandon_loop_failures in Hr as (more & ?). }
    pose proof (abandon_moves _ _ _ _ _ _ Ea) as Hmv. destruct (Hmv Hn) as (Hn1 & _).
    destruct (transition_runs (dm_id m) Abandoned (Some reason) now (or_intror eq_refl) w _ _ Hn Ea)
      as [_ Hq].
    destruct (Hq m' eq_refl) as [[_ Hm'] Ht]. specialize (Ht eq_refl).
    constructor.
    + intros _. eapply over_moves; [exact Hn1|by eapply abandon_loop_moves|]. by exists m'.
    + eapply IH; [done| |exact Hr]. eapply Forall_impl; [exact Hl'|]. intros m0 Hm0.
      exact (listed_moves _ _ _ Hn Hmv Hm0).
  - constructor; [|by eapply IH]. intros Hb. rewrite Hb in E. cbn in E.
    apply negb_false_iff in E. destruct Hm as (m0 & Hm0 & Hr0).
    rewrite (task_step_from_terminal _ _ Hr0 E) in Hm0.
    eapply over_moves; [exact Hn|by eapply abandon_loop_moves|]. by exists m.
Qed.

Lemma failures_loop_ok l w ms fs w' :
  failures_loop l w = (Ok (ms, fs), w') →
  ds_dirs w' = ds_dirs w ∧
  (∀ m, m ∈ ms → ∃ id d, (id, d) ∈ l ∧ dd_metadata d = Some (Document m)) ∧
  (fs = [] → ∀ id d, (id, d) ∈ l → ∃ m, m ∈ ms ∧ dd_metadata d = Some (Document m)).
Proof.
  revert w ms fs w'. induction l as [|[id d] l IH]; intros w ms fs w'; cbn [failures_loop].
  { intros [= <- <- <-]. split_and!; [done|set_solver|set_solver]. }
  rewrite m_try_bind. destruct (read_listed d w) as [rd w1] eqn:Er.
  assert (ds_dirs w1 = ds_dirs w ∧ (∀ m, rd = Ok m → dd_metadata d = Some (Document m))) as [Hd Hok].
  { unfold read_listed in Er. apply bind_cases in Er as [(? & w2 & H1 & H2)|(e & H1 & ->)].
    - apply step_dirs in H1.
      destruct (dd_metadata d) as [[m|]|]; injection H2 as <- <-; (split; [done|]); intros ? [=].
      by subst.
    - apply step_dirs in H1. split; [done|]. by intros ? [=]. }
  intros ([ms1 fs1] & w2 & H1 & H2)%bind_ok. apply IH in H1 as (Hd2 & Hin & Hall). simpl in H2.
  destruct rd as [m|e]; injection H2 as <- <- <-; (split; [congruence|]).
  - specialize (Hok m eq_refl). split.
    + intros m0 [->|Hm0]%elem_of_cons; [exists id, d; set_solver|].
      destruct (Hin m0 Hm0) as (id0 & d0 & ? & ?). exists id0, d0. set_solver.
    + intros Hf id0 d0 [[= -> ->]|H0]%elem_of_cons; [exists m; set_solver|].
      destruct (Hall Hf id0 d0 H0) as (m0 & ? & ?). exists m0. set_solver.
  - split; [|done]. intros m0 Hm0. destruct (Hin m0 Hm0) as (id0 & d0 & ? & ?). exists id0, d0. set_solver.
Qed.

(** ** Histories *)

Inductive command :=
| CCreate (expected : option string) (rq : DelegationCreateRequest) (ids : nat → string) (now : Z)
| CStart (id : string) (now : Z)
| CProgress (id : string) (u : DelegationUpdate) (now : Z)
| CSteer (id : string) (instruction : Text) (now : Z)
| CComplete (id : string) (r : DelegationResult)
| CAbandon (id : string) (reason : Text) (now : Z)
| CEvent (id : string) (kind : DelegationEventKind) (now : Z)
| CAbandonAll (expected : option string) (session : string) (reason : Text) (now : Z).

(** What a command leaves, whatever it returns. *)
Definition exec (c : command) (w : Delegations) : Delegations :=
  match c with
  | CCreate expected rq ids now => (create_with_id_factory event_bytes expected rq ids now w).2
  | CStart id now => (start event_bytes id now w).2
  | CProgress id u now => (update_progress event_bytes id u now w).2
  | CSteer id instruction now => (steer event_bytes id instruction now w).2
  | CComplete id r => (complete event_bytes id r w).2
  | CAbandon id reason now => (abandon event_bytes id reason now w).2
  | CEvent id kind now => (append_event event_bytes id kind now w).2
  | CAbandonAll expected session reason now =>
      (abandon_unfinished_for_session event_bytes expected session reason now w).2
  end.

(** Each command of a history meets faults of its own. *)
Definition exec_faulty (w : Delegations) (cf : command * list io_fault) : Delegations :=
  exec cf.1 {| ds_dirs := ds_dirs w; ds_faults := cf.2 |}.

Definition exec_all (h : list (command * list io_fault)) (w : Delegations) : Delegations :=
  fold_left exec_faulty h w.

Lemma failures_loop_quiet l : preserves quiet (failures_loop l).
Proof.
  induction l as [|[name d] l IH]; cbn [failures_loop]; [apply preserves_ret, _|].
  apply preserves_bind; [apply _|apply preserves_m_try; unfold read_listed; solve_quiet|intros r].
  apply preserves_bind; [apply _|exact IH|]. intros rest. destruct r; apply preserves_ret, _.
Qed.

Lemma list_with_failures_quiet : preserves quiet list_metadata_with_failures.
Proof.
  unfold list_metadata_with_failures. apply preserves_bind; [apply _|apply step_quiet|intros _].
  apply preserves_bind; [apply _|apply get_world_quiet|intros w].
  apply preserves_bind; [apply _|apply failures_loop_quiet|]. intros out. apply preserves_ret, _.
Qed.

Lemma abandon_all_moves expected session reason now :
  preserves task_moves (abandon_unfinished_for_session event_bytes expected session reason now).
Proof.
  unfold abandon_unfinished_for_session. apply preserves_bind; [apply _| |intros l].
  { intros w r w' H. by apply quiet_task_moves, (list_with_failures_quiet _ _ _ H). }
  apply preserves_bind; [apply _|apply abandon_loop_moves|]. intros out.
  case_bool_decide; [apply preserves_ret, _|apply preserves_fail, _].
Qed.

Lemma create_history expected rq ids now :
  preserves task_history (create_with_id_factory event_bytes expected rq ids now).
Proof.
  assert (∀ A (op : DM A), preserves quiet op → preserves task_history op) as Hq.
  { intros A op Hop w r w' H. by apply task_moves_history, quiet_task_moves, (Hop _ _ _ H). }
  unfold create_with_id_factory. apply preserves_bind; [apply _|apply Hq|intros _].
  { unfold ensure_parent_session_matches. solve_quiet. }
  apply preserves_bind; [apply _|apply Hq; solve_quiet|intros _].
  intros w r w' H. by apply create_loop_history in H as [Hh _].
Qed.

Lemma exec_history c w : task_history w (exec c w).
Proof.
  assert (∀ A (op : DM A), preserves task_moves op → task_history w (op w).2) as Hop.
  { intros A op Hop. destruct (op w) as [r w'] eqn:E. by eapply task_moves_history, Hop. }
  destruct c; cbn [exec].
  - destruct (create_with_id_factory _ _ _ _ _ w) as [r w'] eqn:E. by eapply create_history.
  - apply Hop. eapply named_preserves, transition_runs. by left.
  - apply Hop. eapply named_preserves, update_progress_runs.
  - apply Hop. eapply named_preserves, steer_runs.
  - apply Hop. eapply named_preserves, complete_runs.
  - apply Hop, abandon_moves.
  - apply Hop. eapply named_preserves, append_event_runs.
  - apply Hop, abandon_all_moves.
Qed.

Lemma exec_all_history h w : task_history w (exec_all h w).
Proof.
  revert w. induction h as [|[c fs] h IH]; intros w; [reflexivity|].
  unfold exec_all. simpl. etrans; [|apply IH]. exact (exec_history c {| ds_dirs := ds_dirs w; ds_faults := fs |}).
Qed.

Lemma task_steps_facts m m' : rtc task_step m m' →
  same_task m m' ∧ rtc legal_edge (dm_status m) (dm_status m') ∧
  (is_terminal (dm_status m) = true → m' = m).
Proof.
  induction 1 as [m|m1 m2 m3 Hs Hr (Hsame & He & Ht)].
  - split_and!; [by split_and!|constructor|done].
  - destruct Hs as (Hsame1 & Hnt & Hedge). split_and!.
    + unfold same_task in *. destruct_and!. split_and!; congruence.
    + destruct Hedge as [<-|He1]; [done|]. by eapply rtc_l.
    + congruence.
Qed.

(** A listing without failures holds every record. *)
Lemma list_with_failures_complete w ms w' :
  named w → list_metadata_with_failures w = (Ok (ms, []), w') →
  (∀ id m, stored_metadata w id = Some (Document m) → m ∈ ms) ∧ Forall (λ m, listed m w') ms.
Proof.
  intros Hn H1. pose proof (list_with_failures_quiet _ _ _ H1) as Hq.
  unfold list_metadata_with_failures in H1.
  apply bind_ok in H1 as (? & wa & Ha & H1). apply step_dirs in Ha.
  apply bind_ok in H1 as (wb & ? & [= <- <-] & H1).
  apply bind_ok in H1 as ([ms0 fs0] & wc & Hc & [= <- -> <-]).
  apply failures_loop_ok in Hc as (Hdirs & Hin & Hall). cbn [fst snd] in *. split.
  - intros id m Hm. apply elem_of_sort_by. unfold stored_metadata in Hm. rewrite <-Ha in Hm.
    destruct (ds_dirs wa !! id) as [d|] eqn:Ed; [|done]. simpl in Hm.
    destruct (Hall eq_refl id d) as (m0 & Hm0 & Hd); [by apply elem_of_map_to_list|].
    rewrite Hm in Hd. by injection Hd as <-.
  - apply Forall_forall. intros m0 Hm0%elem_of_sort_by. destruct (Hin m0 Hm0) as (id0 & d0 & Hd0 & E0).
    apply elem_of_map_to_list in Hd0. assert (stored_metadata w id0 = Some (Document m0)) as Hs0.
    { unfold stored_metadata. rewrite <-Ha, Hd0. done. }
    exists m0. split; [|constructor]. by rewrite (Hn _ _ Hs0), Hq.
Qed.

(** ** Properties *)

(** C33. Under any history of commands that run one after the other, each with
    any I/O faults, the record
    of a task keeps its identity and its status only follows the legal edges;
    once it is terminal the record never changes again.  Records of distinct
    tasks stay under their own names. *)
Theorem tasks_follow_lifecycle h w id m :
  named w → stored_metadata w id = Some (Document m) →
  named (exec_all h w) ∧
  ∃ m', stored_metadata (exec_all h w) id = Some (Document m') ∧
    same_task m m' ∧ rtc legal_edge (dm_status m) (dm_status m') ∧
    (is_terminal (dm_status m) = true → m' = m).
Proof.
  intros Hn Hm. destruct (exec_all_history h w Hn) as [Hn' Hf]. split; [done|].
  destruct (Hf id m Hm) as (m' & Hm' & Hr). exists m'. split; [done|]. by apply task_steps_facts.
Qed.

(** When the clean-up of a session reports success, under any I/O faults,
    no task of that session is left unfinished. *)
Theorem abandon_leaves_none_unfinished expected session reason now w l w' id m :
  named w →
  abandon_unfinished_for_session event_bytes expected session reason now w = (Ok l, w') →
  stored_metadata w' id = Some (Document m) → belongs_to expected session m = true →
  is_terminal (dm_status m) = true.
Proof.
  intros Hn Hr Hm Hb. pose proof (abandon_all_moves _ _ _ _ _ _ _ Hr Hn) as (_ & Hf & Hback).
  destruct (Hback id m Hm) as (m1 & Hm1). destruct (Hf id m1 Hm1) as (m2 & Hm2 & Hsteps).
  rewrite Hm in Hm2. injection Hm2 as <-.
  unfold abandon_unfinished_for_session in Hr.
  apply bind_ok in Hr as ([ms fs] & w1 & H1 & Hr). apply bind_ok in Hr as ([u f] & w2 & H2 & H3).
  cbn [fst snd] in *. case_bool_decide as Ef; [|done]. subst f. injection H3 as <- <-.
  pose proof (list_with_failures_quiet _ _ _ H1) as Hq.
  destruct (abandon_loop_failures _ _ _ _ _ _ _ _ _ _ _ H2) as (more & Hmore).
  symmetry in Hmore. apply app_nil in Hmore as [-> ->].
  destruct (list_with_failures_complete _ _ _ Hn H1) as [Hall Hlisted].
  assert (named w1) as Hnc by (by eapply named_quiet).
  pose proof (abandon_loop_over _ _ _ _ _ _ _ _ _ Hnc Hlisted H2) as Hover.
  rewrite Forall_forall in Hover. destruct (Hover m1) as (m3 & Hm3 & Ht).
  - by eapply Hall.
  - destruct (task_steps_facts _ _ Hsteps) as ((_ & Hps & _) & _). unfold belongs_to in *.
    by rewrite <-Hps.
  - rewrite (Hn _ _ Hm1), Hm in Hm3. by injection Hm3 as ->.
Qed.
End ops.
