(* ===== verification/DelegationLog.v ===== *)
(** * The event log of a delegated task

    events.jsonl is appended to without atomicity.  Under any I/O faults the
    complete lines of the log are kept, their sequence numbers are 1, 2, 3,
    ..., and what follows the last newline is at most one torn line or one
    whole event, which the next append removes or terminates. *)

From S2P Require Import Prelude Text DelegationTypes DelegationStore DelegationStatus.

(** ** Well-formed logs *)

(** The number of the event at position [i], saturating like the counter. *)
Definition seq_at (i : nat) : Z := Z.min u64_max (Z.of_nat i + 1).

(** Events in the order of their numbers, each of bounded size. *)
Definition numbered (evs : list DelegationEvent) : Prop :=
  de_seq <$> evs = seq_at <$> seq 0 (length evs) ∧ Forall bounded_event evs.

Definition log_ok (lg : log DelegationEvent) : Prop :=
  ∃ evs, lg_lines lg = LEntry <$> evs ∧ numbered evs ∧
    match lg_fragment lg with
    | None => True
    | Some (FBad n) => (0 < n)%Z
    | Some (FEntry e) => de_seq e = seq_at (length evs) ∧ bounded_event e
    end.

Definition empty_log : log DelegationEvent := Build_log [] None.

Definition events_at (w : Delegations) (id : string) : log DelegationEvent :=
  default empty_log (ds_dirs w !! id ≫= dd_events).

Definition logs_ok (w : Delegations) : Prop := ∀ id, log_ok (events_at w id).

(** Complete lines are never lost or changed. *)
Definition log_moves (w w' : Delegations) : Prop :=
  logs_ok w → logs_ok w' ∧ ∀ id, lg_lines (events_at w id) `prefix_of` lg_lines (events_at w' id).

Definition log_quiet (w w' : Delegations) : Prop := ∀ id, events_at w' id = events_at w id.

#[export] Instance log_moves_preorder : PreOrder log_moves.
Proof.
  split; [done|]. intros w1 w2 w3 H12 H23 H1.
  destruct (H12 H1) as [H2 Hp12], (H23 H2) as [H3 Hp23]. split; [done|]. intros id.
  etrans; [apply Hp12|apply Hp23].
Qed.

#[export] Instance log_quiet_preorder : PreOrder log_quiet.
Proof. split; [done|]. intros w1 w2 w3 H1 H2 id. by rewrite H2, H1. Qed.

Lemma log_quiet_moves w w' : log_quiet w w' → log_moves w w'.
Proof. intros Hq Hw. split; [intros id|intros id]; rewrite Hq; [apply Hw|done]. Qed.

Lemma numbered_snoc evs e : numbered evs → de_seq e = seq_at (length evs) → bounded_event e → numbered (evs ++ [e]).
Proof.
  unfold numbered. intros [H Hb] He Hbe. split; [|apply Forall_app; by split; [|constructor]]. rewrite fmap_app, length_app, H. simpl.
  rewrite Nat.add_1_r, seq_S, fmap_app. csimpl. by rewrite He.
Qed.

Lemma numbered_lookup evs i e : numbered evs → evs !! i = Some e → de_seq e = seq_at i.
Proof.
  intros [H _] Hi. assert ((de_seq <$> evs) !! i = Some (de_seq e)) as E
    by (by rewrite list_lookup_fmap, Hi).
  rewrite H, list_lookup_fmap in E. apply lookup_lt_Some in Hi.
  rewrite lookup_seq_lt in E by done. by injection E.
Qed.

Lemma seq_at_next i : sat_add u64_max (seq_at i) 1 = seq_at (S i).
Proof. unfold sat_add, seq_at. lia. Qed.

Section log.
Context (event_bytes : DelegationEvent → Z).
Hypothesis event_size : serde_json_size event_bytes.

(** The window of the tail holds every event that was bounded. *)
Lemma event_bytes_bound e : bounded_event e → (2 ≤ event_bytes e < EVENT_TAIL_READ_WINDOW_BYTES)%Z.
Proof.
  unfold bounded_event. intros He. pose proof (event_size e) as H. pose proof (bound_event_kind_size (de_kind e)) as Hk.
  rewrite He in Hk. unfold EVENT_TAIL_READ_WINDOW_BYTES, JSON_REST_BYTES in *. lia.
Qed.

(** ** Reading the tail *)

Definition take_last {A} (n : nat) (l : list A) : list A := drop (length l - n) l.

Lemma push_bounded_last {A} limit (l : list A) a :
  limit ≠ 0 → length l ≤ limit → push_bounded limit l a = take_last limit (l ++ [a]).
Proof.
  intros Hn Hl. unfold push_bounded, take_last. rewrite length_app. simpl.
  case_bool_decide as E.
  - replace (length l + 1 - limit) with 1 by lia. by rewrite drop_app_le by lia.
  - by replace (length l + 1 - limit) with 0 by lia.
Qed.

Lemma take_last_length {A} n (l : list A) : length (take_last n l) ≤ n.
Proof. unfold take_last. rewrite length_drop. lia. Qed.

Lemma take_last_app {A} n (l1 l2 : list A) : take_last n (take_last n l1 ++ l2) = take_last n (l1 ++ l2).
Proof.
  unfold take_last. rewrite !length_app, length_drop.
  destruct (decide (length l1 ≤ n)) as [H|H].
  - replace (length l1 - n) with 0 by lia. by rewrite Nat.sub_0_r.
  - rewrite <-(drop_app_le l1 l2) by lia. rewrite drop_drop. f_equal. lia.
Qed.

Lemma tail_loop_entries {A} limit idx (evs tail : list A) :
  limit ≠ 0 → length tail ≤ limit →
  tail_loop limit idx (LEntry <$> evs) tail = Ok (take_last limit (tail ++ evs)).
Proof.
  intros Hn. revert idx tail. induction evs as [|e evs IH]; intros idx tail Hl; csimpl.
  - rewrite app_nil_r. unfold take_last. by replace (length tail - limit) with 0 by lia.
  - rewrite push_bounded_last by done. rewrite IH by apply take_last_length.
    by rewrite take_last_app, <-(assoc_L (++)).
Qed.

Lemma lines_bytes_entries evs :
  (0 ≤ lines_bytes event_bytes (LEntry <$> evs))%Z.
Proof.
  induction evs as [|e evs IH]; csimpl; [done|]. pose proof (event_size e). lia.
Qed.

Lemma window_lines_suffix extra evs : Forall bounded_event evs →
  ∃ k, window_lines event_bytes extra (LEntry <$> evs) = LEntry <$> drop k evs ∧
    (evs ≠ [] → (extra = 0)%Z → k < length evs).
Proof.
  induction 1 as [|e evs He Hb IH]; csimpl.
  - exists 0. case_match; done.
  - case_match eqn:E; [exists 0; split; [done|simpl; lia]|].
    destruct IH as (k & -> & Hk). exists (S k). split; [done|]. intros _ Hx. simpl.
    destruct evs as [|e' evs]; [|specialize (Hk ltac:(done) Hx); simpl in *; lia].
    apply Z.ltb_ge in E. pose proof (event_bytes_bound e He). simpl in E. lia.
Qed.

(** Every read of the tail gives the last events, at most [limit] of those in
    the window, and the last one whenever the log ends in a newline. *)
Lemma read_tail_clean limit lg evs :
  limit ≠ 0 → lg_lines lg = LEntry <$> evs → Forall bounded_event evs → lg_fragment lg = None →
  ∃ k, read_tail event_bytes limit lg = Ok (take_last limit (drop k evs)) ∧
    (evs ≠ [] → k < length evs).
Proof.
  intros Hn Hl Hb Hf. unfold read_tail, tail_window. rewrite Hf, Hl. simpl fragment_bytes.
  destruct (_ <=? _)%Z.
  - exists 0. rewrite tail_loop_entries by (simpl; lia). split; [done|].
    destruct evs; [done|]. simpl. lia.
  - destruct (window_lines_suffix 0 evs Hb) as (k & -> & Hk). exists k.
    simpl. rewrite tail_loop_entries by (simpl; lia). split; [done|]. intros He. by apply Hk.
Qed.

Lemma last_drop {A} k (l : list A) : k < length l → last (drop k l) = last l.
Proof. intros Hk. rewrite !last_lookup, lookup_drop, length_drop. f_equal. lia. Qed.

Lemma last_take_last {A} n (l : list A) : n ≠ 0 → last (take_last n l) = last l.
Proof.
  intros Hn. unfold take_last. destruct (decide (l = [])) as [->|Hl]; [done|].
  assert (0 < length l) by (destruct l; simpl; [done|lia]).
  rewrite last_drop; [done|lia].
Qed.

Lemma read_tail_last lg evs :
  lg_lines lg = LEntry <$> evs → Forall bounded_event evs → lg_fragment lg = None →
  ∃ tail, read_tail event_bytes 1 lg = Ok tail ∧ last tail = last evs.
Proof.
  intros Hl Hb Hf. destruct (read_tail_clean 1 lg evs) as (k & Hr & Hk); [done..|].
  eexists. split; [exact Hr|]. rewrite last_take_last by done.
  destruct (decide (evs = [])) as [->|He]; [by rewrite drop_nil|]. apply last_drop, Hk, He.
Qed.

(** ** Everything but an append and a repair is quiet *)

Lemma update_dir_events id f w r w' : update_dir id f w = (r, w') →
  r = Ok tt ∧ (∀ id', id' ≠ id → events_at w' id' = events_at w id') ∧
  events_at w' id = default empty_log (dd_events (f (default empty_dir (ds_dirs w !! id)))).
Proof.
  intros [= <- <-]. unfold events_at. simpl. split_and!; [done| |].
  - intros id' Hne. by rewrite lookup_insert_ne.
  - by rewrite lookup_insert_eq.
Qed.

Lemma default_dir_events w id :
  default empty_log (dd_events (default empty_dir (ds_dirs w !! id))) = events_at w id.
Proof. unfold events_at. by destruct (ds_dirs w !! id). Qed.

Lemma update_dir_log_quiet id f :
  (∀ d, dd_events (f d) = dd_events d) → preserves log_quiet (update_dir id f).
Proof.
  intros Hf w r w' (_ & Hne & He)%update_dir_events id'.
  destruct (decide (id' = id)) as [->|?]; [|by apply Hne]. by rewrite He, Hf, default_dir_events.
Qed.

Lemma take_fault_log_quiet : preserves log_quiet take_fault.
Proof. intros w r w' H id. unfold events_at. by rewrite (take_fault_dirs _ _ _ H). Qed.

Lemma step_log_quiet err : preserves log_quiet (step err).
Proof. intros w r w' H id. unfold events_at. by rewrite (step_dirs _ _ _ _ H). Qed.

Lemma read_dir_log_quiet id : preserves log_quiet (read_dir id).
Proof. apply preserves_gets, _. Qed.

Lemma write_atomic_log_quiet id f :
  (∀ d, dd_events (f d) = dd_events d) → preserves log_quiet (write_atomic id f).
Proof.
  intros Hf. apply preserves_bind; [apply _|apply step_log_quiet|].
  intros _. by apply update_dir_log_quiet.
Qed.

End log.

#[export] Hint Resolve take_fault_log_quiet step_log_quiet read_dir_log_quiet : acn.
#[export] Hint Extern 1 (preserves log_quiet (update_dir _ _)) =>
  apply update_dir_log_quiet; intros ?; reflexivity : acn.
#[export] Hint Extern 1 (preserves log_quiet (write_atomic _ _)) =>
  apply write_atomic_log_quiet; intros ?; reflexivity : acn.

Section append.
Context (event_bytes : DelegationEvent → Z).
Hypothesis event_size : serde_json_size event_bytes.

Definition clean (id : string) (w : Delegations) : Prop :=
  logs_ok w ∧ lg_fragment (events_at w id) = None.

Lemma clean_quiet id w w' : clean id w → log_quiet w w' → clean id w'.
Proof.
  intros [Ho Hf] Hq. split; [|by rewrite Hq]. by destruct (log_quiet_moves _ _ Hq Ho).
Qed.


Lemma quiet_log_runs {A} (P : Delegations → Prop) (op : DM A) :
  (∀ w w', P w → log_quiet w w' → P w') →
  preserves log_quiet op → runs P log_moves (λ _, P) op.
Proof.
  intros HP Hop w r w' Hw Hr. apply Hop in Hr. split; [by apply log_quiet_moves|].
  intros _ _. by eapply HP.
Qed.

Lemma logs_ok_quiet w w' : logs_ok w → log_quiet w w' → logs_ok w'.
Proof. intros Ho Hq. by destruct (log_quiet_moves _ _ Hq Ho). Qed.

(** The log of one task is replaced by a well-formed extension of it. *)
Lemma put_log_moves id lg w w' :
  logs_ok w → ds_dirs w' = <[id := put_events lg (default empty_dir (ds_dirs w !! id))]> (ds_dirs w) →
  log_ok lg → lg_lines (events_at w id) `prefix_of` lg_lines lg →
  log_moves w w' ∧ events_at w' id = lg.
Proof.
  intros Ho Hd Hlg Hp.
  assert (∀ id', events_at w' id' = if decide (id' = id) then lg else events_at w id') as Hev.
  { intros id'. unfold events_at. rewrite Hd. case_decide as E.
    - by rewrite E, lookup_insert_eq.
    - by rewrite lookup_insert_ne. }
  split; [|by rewrite Hev, decide_True]. intros _. split; intros id'; rewrite Hev; case_decide as E;
    [done|apply Ho|by rewrite E|done].
Qed.

Lemma take_fault_world w f w' : take_fault w = (Ok f, w') → ds_dirs w' = ds_dirs w ∧ log_quiet w w'.
Proof. intros H. split; [by apply take_fault_dirs in H|by apply take_fault_log_quiet in H]. Qed.

Definition log_close (lg : log DelegationEvent) (ls : list (line DelegationEvent)) : Prop :=
  log_ok (Build_log ls None) ∧ lg_lines lg `prefix_of` ls.

Lemma close_drop lg : log_ok lg → log_close lg (lg_lines lg).
Proof. intros (evs & Hl & Hn & _). split; [|done]. by exists evs. Qed.

Lemma close_terminate lg e :
  log_ok lg → lg_fragment lg = Some (FEntry e) → log_close lg (lg_lines lg ++ [LEntry e]).
Proof.
  intros (evs & Hl & Hn & Hf) E. rewrite E in Hf. split; [|by apply prefix_app_r].
  destruct Hf. exists (evs ++ [e]). rewrite Hl, fmap_app. split_and!; [done| |done]. by apply numbered_snoc.
Qed.

Lemma status_inv (op : DM unit) f w1 w2 r w' :
  op w1 = (Ok tt, w2) →
  (op ≫= λ _, if bool_decide (f = IoFine) then mret tt else fail DIo) w1 = (r, w') →
  w' = w2 ∧ (r = Ok tt → f = IoFine).
Proof.
  intros Hop. unfold mbind, M_bind. rewrite Hop. case_bool_decide; intros [= <- <-]; done.
Qed.

(** One repair write: it closes the log, or fails and changes nothing. *)
Lemma repair_write_runs id lg ls :
  log_close lg ls →
  runs (λ w, logs_ok w ∧ events_at w id = lg) log_moves (λ _, clean id)
    (f ← take_fault;
     _ ← (if bool_decide (f = IoFine ∨ f = IoUnsynced)
          then update_dir id (put_events (Build_log ls None)) else mret tt);
     if bool_decide (f = IoFine) then mret tt else fail DIo).
Proof.
  intros [Hok Hp] w r w' [Ho Hlg] Hr.
  apply bind_cases in Hr as [(f & w1 & H1 & H2)|(e & H1 & ->)].
  2: { apply take_fault_log_quiet in H1. split; [by apply log_quiet_moves|]. by intros ? [=]. }
  apply take_fault_world in H1 as [Hd1 Hq1].
  assert (events_at w1 id = lg) as Hlg1 by (by rewrite Hq1).
  assert (logs_ok w1) as Ho1 by (by eapply logs_ok_quiet).
  destruct (decide (f = IoFine ∨ f = IoUnsynced)) as [Hf|Hf].
  - rewrite (bool_decide_eq_true_2 (f = IoFine ∨ _)) in H2 by done.
    apply (status_inv _ _ _ _ _ _ eq_refl) in H2 as [-> _].
    destruct (put_log_moves id (Build_log ls None) w1
      {| ds_dirs := <[id := put_events (Build_log ls None) (default empty_dir (ds_dirs w1 !! id))]>
           (ds_dirs w1); ds_faults := ds_faults w1 |}) as [Hm He]; [done|done|done|by rewrite Hlg1|].
    split; [etrans; [by apply log_quiet_moves|exact Hm]|].
    intros _ _. destruct (Hm Ho1) as [Ho2 _]. split; [done|by rewrite He].
  - rewrite (bool_decide_eq_false_2 (f = IoFine ∨ _)) in H2 by done.
    apply (status_inv _ _ _ _ _ _ eq_refl) in H2 as [-> Hr]. split; [by apply log_quiet_moves|]. intros [] ->.
    destruct Hf. left. by apply Hr.
Qed.

(** Appending the next event, whatever the write does, keeps the log well
    formed; the write that succeeds adds exactly that event. *)
Lemma append_effect_ok f lg e :
  log_ok lg → lg_fragment lg = None → de_seq e = seq_at (length (lg_lines lg)) → bounded_event e →
  log_ok (append_effect event_bytes f e lg) ∧
  lg_lines lg `prefix_of` lg_lines (append_effect event_bytes f e lg).
Proof.
  intros (evs & Hl & Hn & _) Hf He Hbe. rewrite Hl, length_fmap in He.
  unfold append_effect, push_line, push_torn, push_unterminated. rewrite Hf. destruct f; simpl.
  - split; [|by apply prefix_app_r]. exists (evs ++ [e]). rewrite Hl, fmap_app.
    split_and!; [done| |done]. by apply numbered_snoc.
  - split; [|done]. exists evs. by rewrite Hf.
  - destruct (Z.leb_spec bytes 0); (split; [|done]); exists evs; [by rewrite Hf|].
    split_and!; [done|done|simpl; lia].
  - split; [|done]. by exists evs.
  - split; [|by apply prefix_app_r]. exists (evs ++ [e]). rewrite Hl, fmap_app.
    split_and!; [done| |done]. by apply numbered_snoc.
Qed.

Lemma append_log_runs id e :
  runs (λ w, clean id w ∧ de_seq e = seq_at (length (lg_lines (events_at w id))) ∧ bounded_event e) log_moves
    (λ _ _, True) (append_log event_bytes dd_events put_events id e).
Proof.
  intros w r w' [[Ho Hf] [He Hb]] Hr. unfold append_log in Hr.
  apply bind_cases in Hr as [(f & w1 & H1 & H2)|(er & H1 & ->)].
  2: { apply take_fault_log_quiet in H1. split; [by apply log_quiet_moves|done]. }
  apply take_fault_world in H1 as [Hd1 Hq1]. split; [|done].
  etrans; [by apply log_quiet_moves|]. rewrite <-Hq1 in Hf, He.
  assert (logs_ok w1) as Ho1 by (by eapply logs_ok_quiet).
  destruct (decide (f = IoFails)) as [Hfail|Hfail].
  - rewrite (bool_decide_eq_true_2 (f = IoFails)) in H2 by done. by apply (status_inv _ _ _ _ _ _ eq_refl) in H2 as [-> _].
  - rewrite (bool_decide_eq_false_2 (f = IoFails)) in H2 by done. apply (status_inv _ _ _ _ _ _ eq_refl) in H2 as [-> _].
    destruct (append_effect_ok f (events_at w1 id) e (Ho1 id) Hf He Hb) as [Hok Hp].
    eapply put_log_moves; [done|reflexivity| |]; by rewrite default_dir_events.
Qed.

Lemma repair_runs id :
  runs logs_ok log_moves (λ _, clean id) (repair_events_tail_unlocked event_bytes id).
Proof.
  unfold repair_events_tail_unlocked.
  eapply (runs_bind _ _ (λ _, logs_ok)); [apply quiet_log_runs, step_log_quiet; apply logs_ok_quiet|].
  intros _ w r w' Ho Hr. rewrite read_dir_bind in Hr.
  assert (∀ lg, ds_dirs w !! id ≫= dd_events = Some lg → events_at w id = lg) as Hev
    by (unfold events_at; by intros lg ->).
  destruct (ds_dirs w !! id ≫= dd_events) as [lg|] eqn:E.
  2: { injection Hr as <- <-. split; [done|]. intros _ _. split; [done|].
       unfold events_at. by rewrite E. }
  specialize (Hev lg eq_refl). pose proof (Ho id) as Hlg. rewrite Hev in Hlg.
  destruct (lg_fragment lg) as [fr|] eqn:Ef.
  2: { injection Hr as <- <-. split; [done|]. intros _ _. split; [done|by rewrite Hev]. }
  pose proof (repair_write_runs id lg _ (close_drop lg Hlg) w r w' (conj Ho Hev)) as Hdrop.
  case_match; [by apply Hdrop|]. destruct fr as [e|n]; [|by apply Hdrop].
  by apply (repair_write_runs id lg _ (close_terminate lg e Hlg Ef) w r w' (conj Ho Hev)).
Qed.

Lemma next_seq_runs id :
  runs (clean id) log_moves
    (λ s w, clean id w ∧ s = seq_at (length (lg_lines (events_at w id))))
    (next_event_seq_unlocked event_bytes id).
Proof.
  unfold next_event_seq_unlocked.
  eapply (runs_bind _ _ (λ _, clean id)); [apply quiet_log_runs; [apply clean_quiet|]|intros sidecar].
  { unfold read_event_seq_unlocked. solve_quiet. }
  eapply (runs_bind _ _ (λ s w, clean id w ∧
    match s with
    | Some s => ∃ n, length (lg_lines (events_at w id)) = S n ∧ s = seq_at n
    | None => lg_lines (events_at w id) = []
    end)).
  - intros w r w' Hc Hr. unfold read_last_event_seq_unlocked, read_events_tail_unlocked in Hr.
    assert (log_quiet w w') as Hq.
    { revert Hr. match goal with |- ?op w = _ → _ => assert (preserves log_quiet op) as Hop end.
      { solve_quiet. } apply Hop. }
    split; [by apply log_quiet_moves|]. intros a ->. split; [by eapply clean_quiet|]. rewrite Hq.
    apply bind_ok in Hr as (tail & w2 & Hr & [= <- <-]).
    apply bind_ok in Hr as (? & w1 & H1 & Hr). apply step_log_quiet in H1. rewrite read_dir_bind in Hr.
    destruct Hc as [Ho Hf]. rewrite <-(H1 id) in Hf |- *.
    destruct (Ho id) as (evs & Hl & Hn & _). pose proof (proj2 Hn) as Hb. rewrite <-(H1 id) in Hl. unfold events_at in *.
    destruct (ds_dirs w1 !! id ≫= dd_events) as [lg|]; simpl in *.
    + destruct (read_tail_last event_bytes event_size lg evs Hl Hb Hf) as (tl & Htl & Hlast).
      unfold clamp_event_tail_limit in Hr. simpl in Hr. rewrite Htl in Hr. injection Hr as <- <-.
      rewrite Hlast, Hl, length_fmap.
      destruct (last evs) as [e|] eqn:El; simpl.
      * rewrite last_lookup in El. exists (pred (length evs)).
        split; [apply lookup_lt_Some in El; lia|]. by eapply numbered_lookup.
      * by apply last_None in El as ->.
    + by injection Hr as <- <-.
  - intros [s|].
    + eapply (runs_bind _ _ (λ _ w, clean id w ∧ ∃ n, length (lg_lines (events_at w id)) = S n ∧ s = seq_at n)).
      * apply quiet_log_runs; [|case_bool_decide; solve_quiet].
        intros w w' [Hc (n & Hn & ->)] Hq. split; [by eapply clean_quiet|]. exists n. by rewrite Hq.
      * intros _. apply (runs_ret _). intros w [Hc (n & Hn & ->)]. split; [done|].
        by rewrite Hn, seq_at_next.
    + apply (runs_ret _). intros w [Hc Hl]. split; [done|]. by rewrite Hl.
Qed.

Lemma append_event_log_runs id kind now :
  runs logs_ok log_moves (λ _, logs_ok) (append_event_unlocked event_bytes id kind now).
Proof.
  intros w r w' Ho Hr. assert (log_moves w w') as Hm; [|split; [done|intros _ _; by apply Hm]].
  revert w r w' Ho Hr.
  cut (runs logs_ok log_moves (λ _ _, True) (append_event_unlocked event_bytes id kind now)).
  { intros H w r w' Ho Hr. by destruct (H w r w' Ho Hr). }
  unfold append_event_unlocked.
  eapply (runs_bind log_moves); [apply repair_runs|intros ?].
  eapply (runs_bind log_moves); [apply next_seq_runs|intros s]. cbv zeta.
  eapply (runs_bind log_moves); [|intros ?; apply (runs_preserves _); [|done]].
  - eapply (runs_weaken log_moves); [| | |apply append_log_runs]; [|done|done].
    intros w' [Hc ->]. split; [done|]. split; [done|apply bound_event_kind_idemp].
  - intros w r w' H. apply log_quiet_moves. revert H. apply preserves_bind; [apply _| |solve_quiet].
    apply write_atomic_log_quiet. done.
Qed.

Lemma log_quiet_preserves {A} (op : DM A) : preserves log_quiet op → preserves log_moves op.
Proof. intros Hop w r w' H. by apply log_quiet_moves, (Hop _ _ _ H). Qed.

Lemma append_event_log_moves id kind now :
  preserves log_moves (append_event_unlocked event_bytes id kind now).
Proof.
  intros w r w' H Ho. destruct (append_event_log_runs id kind now w r w' Ho H) as [Hm _]. by apply Hm.
Qed.

Lemma load_log_quiet id : preserves log_quiet (load id).
Proof. unfold load. solve_quiet. Qed.

Lemma file_lock_log_quiet id : preserves log_quiet (file_lock_for id).
Proof. unfold file_lock_for. solve_quiet. Qed.

Lemma append_steering_log_quiet id item : preserves log_quiet (append_steering_unlocked id item).
Proof.
  unfold append_steering_unlocked, append_log.
  apply preserves_bind; [apply _|apply take_fault_log_quiet|]. intros f.
  apply preserves_bind; [apply _| |intros _; solve_quiet].
  case_bool_decide; [apply preserves_ret; apply _|]. by apply update_dir_log_quiet.
Qed.

Lemma write_metadata_log_quiet m : preserves log_quiet (write_metadata m).
Proof. by apply write_atomic_log_quiet. Qed.

Lemma read_progress_log_quiet id : preserves log_quiet (read_progress id).
Proof. unfold read_progress. solve_quiet. Qed.

Lemma create_dir_log_quiet id : preserves log_quiet (create_dir id).
Proof. unfold create_dir. solve_quiet. Qed.

Lemma list_with_failures_log_quiet : preserves log_quiet list_metadata_with_failures.
Proof.
  assert (∀ l, preserves log_quiet (failures_loop l)) as Hloop.
  { induction l as [|[name d] l IH]; cbn [failures_loop]; [apply preserves_ret, _|].
    apply preserves_bind; [apply _|apply preserves_m_try; unfold read_listed; solve_quiet|intros r].
    apply preserves_bind; [apply _|exact IH|]. intros rest. destruct r; apply preserves_ret, _. }
  unfold list_metadata_with_failures. apply preserves_bind; [apply _|apply step_log_quiet|intros _].
  apply preserves_bind; [apply _|by intros w r w' [= _ <-]|intros w].
  apply preserves_bind; [apply _|apply Hloop|]. intros out. apply preserves_ret, _.
Qed.
End append.

#[export] Hint Resolve load_log_quiet file_lock_log_quiet append_steering_log_quiet
  write_metadata_log_quiet read_progress_log_quiet create_dir_log_quiet
  list_with_failures_log_quiet : acn.
#[export] Hint Resolve append_event_log_moves log_quiet_preserves : acn.

Section histories.
Context (event_bytes : DelegationEvent → Z).
Hypothesis event_size : serde_json_size event_bytes.

Lemma write_result_log_moves id r : preserves log_moves (write_result_markdown id r).
Proof. apply log_quiet_preserves. by apply write_atomic_log_quiet. Qed.

Lemma append_status_log_moves id from to now :
  preserves log_moves (append_status_change_unlocked event_bytes id from to now).
Proof. unfold append_status_change_unlocked. solve_quiet. Qed.

Hint Resolve write_result_log_moves append_status_log_moves : acn.

Lemma transition_log_moves id status reason now :
  preserves log_moves (transition event_bytes id status reason now).
Proof. unfold transition. solve_quiet. Qed.

Hint Resolve transition_log_moves : acn.

Lemma update_progress_log_moves id u now : preserves log_moves (update_progress event_bytes id u now).
Proof. unfold update_progress. solve_quiet. Qed.

Lemma steer_log_moves id text now : preserves log_moves (steer event_bytes id text now).
Proof. unfold steer. solve_quiet. Qed.

Lemma complete_log_moves id r : preserves log_moves (complete event_bytes id r).
Proof. unfold complete. solve_quiet. Qed.

Lemma append_event_op_log_moves id kind now : preserves log_moves (append_event event_bytes id kind now).
Proof. unfold append_event. solve_quiet. Qed.

Lemma abandon_loop_log_moves expected session reason now l updated failures :
  preserves log_moves (abandon_loop event_bytes expected session reason now l updated failures).
Proof.
  revert updated failures. induction l as [|m l IH]; intros updated failures; cbn [abandon_loop].
  { apply preserves_ret, _. }
  destruct (belongs_to expected session m && negb (is_terminal (dm_status m))); [|apply IH].
  apply preserves_bind; [apply _|apply preserves_m_try, transition_log_moves|].
  intros [m'|e]; apply IH.
Qed.

Lemma abandon_all_log_moves expected session reason now :
  preserves log_moves (abandon_unfinished_for_session event_bytes expected session reason now).
Proof.
  unfold abandon_unfinished_for_session. apply preserves_bind; [apply _|solve_quiet|intros l].
  apply preserves_bind; [apply _|apply abandon_loop_log_moves|]. intros out. solve_quiet.
Qed.

(** A directory that was not there before has no events to lose. *)
Lemma remove_dir_log id w r w' w0 :
  remove_dir id w = (r, w') → ds_dirs w0 !! id = None → log_moves w0 w → log_moves w0 w'.
Proof.
  intros Hr Hfresh Hm Ho. destruct (Hm Ho) as [Hok Hp].
  unfold remove_dir in Hr. apply bind_cases in Hr as [([] & w1 & H1 & [= _ <-])|(e & H1 & ->)].
  - pose proof (step_log_quiet _ _ _ _ H1) as Hq.
    set (w2 := {| ds_dirs := _; ds_faults := _ |}).
    assert (∀ id', events_at w2 id' = if decide (id' = id) then empty_log else events_at w id') as Hev.
    { intros id'. rewrite <-Hq. unfold events_at, w2. simpl. case_decide as E.
      - by rewrite E, lookup_delete_eq.
      - by rewrite lookup_delete_ne. }
    split; intros id'; rewrite Hev; case_decide as E; [by exists []|apply Hok| |apply Hp].
    unfold events_at. by rewrite E, Hfresh.
  - pose proof (step_log_quiet _ _ _ _ H1) as Hq. split; intros id'; rewrite Hq; [apply Hok|apply Hp].
Qed.

Lemma initialize_log_moves m now :
  preserves log_moves (initialize_created_delegation event_bytes m now).
Proof. unfold initialize_created_delegation. solve_quiet. Qed.

Lemma create_log_moves expected rq ids now :
  preserves log_moves (create_with_id_factory event_bytes expected rq ids now).
Proof.
  unfold create_with_id_factory. apply preserves_bind; [apply _| |intros _].
  { apply log_quiet_preserves. unfold ensure_parent_session_matches. solve_quiet. }
  apply preserves_bind; [apply _|solve_quiet|intros _].
  generalize ID_MAX_ATTEMPTS. intros n. generalize 0, (@None string). induction n as [|n IH];
    intros k last_id; cbn [create_loop]; [apply preserves_fail, _|].
  intros w r w' [(a & w1 & H1 & H2)|(e & H1 & ->)]%bind_cases;
    pose proof (log_quiet_moves _ _ (create_dir_log_quiet _ _ _ _ H1)) as Hm1; [|done].
  destruct a; [|etrans; [exact Hm1|by eapply IH]].
  apply create_dir_inv in H1 as (_ & Hd & _). destruct (Hd eq_refl) as [Hfresh _].
  cbv zeta in H2. rewrite m_try_bind in H2.
  destruct (initialize_created_delegation event_bytes _ now w1) as [ri w2] eqn:Ei.
  apply initialize_log_moves in Ei. assert (log_moves w w2) as Hm2 by (by etrans).
  destruct ri as [[]|e]; [by injection H2 as <- <-|].
  unfold cleanup_failed_create_dir in H2. rewrite m_try_bind in H2.
  destruct (remove_dir (ids k) w2) as [rr w3] eqn:Er. injection H2 as <- <-.
  by eapply remove_dir_log.
Qed.

Lemma exec_log_moves c w : log_moves w (exec event_bytes c w).
Proof.
  assert (∀ A (op : DM A), preserves log_moves op → log_moves w (op w).2) as Hop.
  { intros A op Hop. destruct (op w) as [r w'] eqn:E. by eapply Hop. }
  destruct c; cbn [exec]; apply Hop.
  - apply create_log_moves.
  - apply transition_log_moves.
  - apply update_progress_log_moves.
  - apply steer_log_moves.
  - apply complete_log_moves.
  - apply transition_log_moves.
  - apply append_event_op_log_moves.
  - apply abandon_all_log_moves.
Qed.

Lemma exec_all_log_moves h w : log_moves w (exec_all event_bytes h w).
Proof.
  revert w. induction h as [|[c fs] h IH]; intros w; [reflexivity|].
  unfold exec_all. simpl. etrans; [|apply IH].
  exact (exec_log_moves c {| ds_dirs := ds_dirs w; ds_faults := fs |}).
Qed.

(** ** Properties *)

(** C34. Under any history of commands that run one after the other, each
    with any I/O faults, the event log of every task stays well formed: its
    complete lines are whole events numbered 1, 2, 3, ... without gap or
    repetition, after them comes at most one unfinished write, and no complete
    line is ever lost or changed.  Texts of any length may be given: what is
    used of the JSON of an event is that it takes a bounded number of bytes
    for each character of its texts, on top of a constant. *)
Theorem event_log_is_gapless h w :
  logs_ok w →
  logs_ok (exec_all event_bytes h w) ∧
  (∀ id, lg_lines (events_at w id) `prefix_of` lg_lines (events_at (exec_all event_bytes h w) id)) ∧
  (∀ id, ∃ evs, lg_lines (events_at (exec_all event_bytes h w) id) = LEntry <$> evs ∧
    ∀ i e, evs !! i = Some e → de_seq e = Z.min u64_max (Z.of_nat i + 1)).
Proof.
  intros Ho. destruct (exec_all_log_moves h w Ho) as [Hok Hp]. split_and!; [done|done|].
  intros id. destruct (Hok id) as (evs & Hl & Hn & _). exists evs. split; [done|].
  intros i e. by apply numbered_lookup.
Qed.
End histories.
