(* ===== verification/DelegationGuarantees.v ===== *)
(** * What the operations on delegated tasks do when the disk works

    Without faults every operation is a pure function of the task's directory:
    the theorems give it for completion, on every branch, and for steering,
    whose reader gets exactly the instructions after its cursor.  The last
    part follows two failures to their consequences: an operation on an
    unknown id, and a torn line of the steering log. *)

From S2P Require Import Prelude Text Utf8 DelegationTypes DelegationStore DelegationStatus DelegationLog.

(** ** Reading a bounded text *)

Lemma encode_take k cs : ∃ j partial,
  take k (encode_all cs) = encode_all (take j cs) ++ partial ∧ length partial ≤ 3.
Proof.
  revert k. induction cs as [|c cs IH]; intros k.
  { exists 0, []. change (encode_all []) with (@nil Z). rewrite take_nil. split; [done|simpl; lia]. }
  rewrite encode_all_cons. pose proof (utf8_encode_length c).
  destruct (decide (length (utf8_encode c) ≤ k)) as [Hk|Hk].
  - destruct (IH (k - length (utf8_encode c))) as (j & partial & Ht & Hp).
    exists (S j), partial. split; [|done]. simpl. rewrite encode_all_cons, <-(assoc_L (++)), <-Ht.
    by rewrite take_app_ge by done.
  - exists 0, (take k (utf8_encode c)). rewrite take_app_le by lia. split; [done|].
    rewrite length_take. lia.
Qed.

Lemma encode_all_length cs : length cs ≤ length (encode_all cs) ≤ 4 * length cs.
Proof.
  induction cs as [|c cs IH]; [simpl; lia|]. rewrite encode_all_cons, length_app.
  pose proof (utf8_encode_length c). simpl. lia.
Qed.

Lemma from_utf8_lossy_encode_app cs l :
  Forall is_scalar cs → ∃ more, from_utf8_lossy (encode_all cs ++ l) = cs ++ more.
Proof.
  intros Hcs. unfold from_utf8_lossy. rewrite lossy_app, lossy_encode by done. simpl.
  destruct (lossy l) as [cs2 r]. eexists. by rewrite <-(assoc_L (++)).
Qed.

(** Reading a bounded number of bytes first, also when that cuts a character,
    gives what cutting the whole text to [max_chars] gives. *)
Lemma read_text_bounded_spec content max_chars :
  Forall is_scalar content →
  read_text_bounded content max_chars = truncate_text_with_flag content max_chars.
Proof.
  intros Hc. unfold read_text_bounded. set (limit := Nat.max _ 16).
  pose proof (encode_all_length content) as Hlen.
  destruct (decide (length (encode_all content) ≤ limit)) as [Hl|Hl].
  - rewrite take_ge by done. rewrite bool_decide_false by lia.
    assert (from_utf8_lossy (encode_all content) = content) as ->.
    { unfold from_utf8_lossy. rewrite lossy_encode by done. apply app_nil_r. }
    by destruct (truncate_text_with_flag content max_chars).
  - rewrite (bool_decide_eq_true_2 (length (take _ _) < _)) by (rewrite length_take; lia).
    destruct (encode_take limit content) as (j & partial & Ht & Hp). rewrite Ht.
    assert (max_chars < j ∧ j ≤ length content ∨ length content < j) as Hj.
    { apply (f_equal length) in Ht. rewrite length_take, length_app in Ht.
      pose proof (encode_all_length (take j content)) as Hlj. rewrite length_take in Hlj. lia. }
    destruct (from_utf8_lossy_encode_app (take j content) partial) as (more & ->); [by apply Forall_take|].
    unfold truncate_text_with_flag. rewrite !bool_decide_false; rewrite ?length_app, ?length_take;
      [|unfold limit in *; lia..].
    f_equal. destruct (decide (max_chars = 0)) as [->|Hn]; [done|].
    rewrite !truncate_text_long; [|done|unfold limit in *; lia|done|
      rewrite length_app, length_take; unfold limit in *; lia].
    f_equal. rewrite take_app_le by (rewrite length_take; unfold limit in *; lia).
    rewrite take_take. f_equal. unfold limit in *; lia.
Qed.

(** ** Pure effects on a directory *)

Definition dir_log (d : DelegDir) : log DelegationEvent := default empty_log (dd_events d).

(** The complete lines once the tail is repaired. *)
Definition repaired_lines (lg : log DelegationEvent) : list (line DelegationEvent) :=
  lg_lines lg ++ match lg_fragment lg with Some (FEntry e) => [LEntry e] | _ => [] end.

Definition next_event (kind : DelegationEventKind) (now : Z) (d : DelegDir) : DelegationEvent :=
  {| de_seq := seq_at (length (repaired_lines (dir_log d))); de_at := now;
     de_kind := bound_event_kind kind |}.

Definition log_event (kind : DelegationEventKind) (now : Z) (d : DelegDir) : DelegDir :=
  let e := next_event kind now d in
  put_event_seq (de_seq e)
    (put_events (Build_log (repaired_lines (dir_log d) ++ [LEntry e]) None) d).

Definition log_readable (d : DelegDir) : Prop :=
  log_ok (dir_log d) ∧ dd_event_seq d ≠ Some SeqGarbled.

Definition calm (dirs : gmap string DelegDir) : Delegations := {| ds_dirs := dirs; ds_faults := [] |}.

Lemma repaired_numbered lg :
  log_ok lg → ∃ evs, repaired_lines lg = LEntry <$> evs ∧ numbered evs.
Proof.
  intros (evs & Hl & Hn & Hf). unfold repaired_lines. rewrite Hl.
  destruct (lg_fragment lg) as [[e|n]|].
  - destruct Hf. exists (evs ++ [e]). rewrite fmap_app. split; [done|]. by apply numbered_snoc.
  - exists evs. by rewrite app_nil_r.
  - exists evs. by rewrite app_nil_r.
Qed.

Lemma log_event_readable kind now d : log_readable d → log_readable (log_event kind now d).
Proof.
  intros [Hok Hseq]. split; [|done]. unfold dir_log, log_event, next_event. simpl.
  destruct (repaired_numbered _ Hok) as (evs' & Hl' & Hn').
  set (e := {| de_seq := _ |}). exists (evs' ++ [e]). simpl. rewrite Hl', fmap_app.
  split_and!; [done| |done]. apply numbered_snoc; [done| |apply bound_event_kind_idemp]. unfold e. simpl.
  by rewrite Hl', length_fmap.
Qed.

(** *** Fault-free steps *)

Lemma step_calm err dirs : step err (calm dirs) = (Ok tt, calm dirs).
Proof. done. Qed.

Lemma bind_run {A B} (f : A → DM B) (m : DM A) w a w1 :
  m w = (Ok a, w1) → (m ≫= f) w = f a w1.
Proof. apply bind_step. Qed.

Lemma update_dir_calm id f dirs d :
  dirs !! id = Some d → update_dir id f (calm dirs) = (Ok tt, calm (<[id := f d]> dirs)).
Proof. intros Hd. unfold update_dir, modify, calm. simpl. by rewrite Hd. Qed.

Lemma write_atomic_calm id f dirs d :
  dirs !! id = Some d → write_atomic id f (calm dirs) = (Ok tt, calm (<[id := f d]> dirs)).
Proof. intros Hd. unfold write_atomic. erewrite bind_run by apply step_calm. by apply update_dir_calm. Qed.

Lemma file_lock_calm id dirs d :
  dirs !! id = Some d → file_lock_for id (calm dirs) = (Ok tt, calm dirs).
Proof.
  intros Hd. unfold file_lock_for. erewrite bind_run by reflexivity. simpl.
  erewrite bind_run by (by apply update_dir_calm). simpl. by rewrite insert_id.
Qed.

Lemma load_calm id dirs d m :
  dirs !! id = Some d → dd_metadata d = Some (Document m) → load id (calm dirs) = (Ok m, calm dirs).
Proof.
  intros Hd Hm. unfold load. erewrite bind_run by apply step_calm. rewrite read_dir_bind.
  simpl. by rewrite Hd; simpl; rewrite Hm.
Qed.

Section calm.
Context (event_bytes : DelegationEvent → Z).
Hypothesis event_size : serde_json_size event_bytes.

(** The directory after the tail of its events is repaired. *)
Definition repair_dir (d : DelegDir) : DelegDir :=
  match dd_events d with
  | None => d
  | Some lg => match lg_fragment lg with
               | None => d
               | Some _ => put_events (Build_log (repaired_lines lg) None) d
               end
  end.

Lemma repair_calm id dirs d :
  dirs !! id = Some d → log_readable d →
  repair_events_tail_unlocked event_bytes id (calm dirs) = (Ok tt, calm (<[id := repair_dir d]> dirs)).
Proof.
  intros Hd [Hok _]. unfold repair_events_tail_unlocked. erewrite bind_run by apply step_calm.
  rewrite read_dir_bind. simpl. rewrite Hd. simpl. unfold repair_dir, dir_log in *.
  destruct (dd_events d) as [lg|]; simpl in *; [|by rewrite insert_id].
  destruct (lg_fragment lg) as [[e|n]|] eqn:Ef; [| |by rewrite insert_id].
  - unfold fragment_bytes. destruct Hok as (evs & _ & _ & Hok). rewrite Ef in Hok.
    pose proof (event_bytes_bound event_bytes event_size e (proj2 Hok)) as He.
    destruct (Z.ltb_spec EVENT_TAIL_REPAIR_MAX_LINE_BYTES (event_bytes e - 1)).
    { unfold EVENT_TAIL_READ_WINDOW_BYTES, EVENT_TAIL_REPAIR_MAX_LINE_BYTES in *. lia. }
    erewrite bind_run by reflexivity. simpl. erewrite bind_run by (by apply update_dir_calm).
    unfold repaired_lines. by rewrite Ef.
  - unfold truncate_events_tail, repaired_lines. rewrite Ef, app_nil_r.
    case_match; erewrite bind_run by reflexivity; simpl;
      by erewrite bind_run by (by apply update_dir_calm).
Qed.

Lemma repair_dir_log d : log_readable d →
  lg_lines (dir_log (repair_dir d)) = repaired_lines (dir_log d) ∧
  lg_fragment (dir_log (repair_dir d)) = None ∧ dd_event_seq (repair_dir d) = dd_event_seq d ∧
  ∀ n lg, put_event_seq n (put_events lg (repair_dir d)) = put_event_seq n (put_events lg d).
Proof.
  intros _. unfold repair_dir, dir_log, repaired_lines. destruct (dd_events d) as [lg|] eqn:E; simpl.
  - destruct (lg_fragment lg) as [fr|] eqn:Ef; simpl; [done|].
    rewrite E. simpl. by rewrite Ef, app_nil_r.
  - rewrite E. simpl. done.
Qed.

Lemma next_seq_calm id dirs d evs :
  dirs !! id = Some d → dd_event_seq d ≠ Some SeqGarbled →
  lg_lines (dir_log d) = LEntry <$> evs → lg_fragment (dir_log d) = None → numbered evs →
  ∃ d', next_event_seq_unlocked event_bytes id (calm dirs)
          = (Ok (seq_at (length evs)), calm (<[id := d']> dirs)) ∧
    dd_events d' = dd_events d ∧
    ∀ n lg, put_event_seq n (put_events lg d') = put_event_seq n (put_events lg d).
Proof.
  intros Hd Hseq Hl Hf Hn. unfold next_event_seq_unlocked.
  assert (∃ s, read_event_seq_unlocked id (calm dirs) = (Ok s, calm dirs)) as (s & Hs).
  { unfold read_event_seq_unlocked. erewrite bind_run by apply step_calm. rewrite read_dir_bind.
    simpl. rewrite Hd. simpl. destruct (dd_event_seq d) as [[| |]|]; eauto. done. }
  erewrite bind_run by exact Hs.
  assert (read_last_event_seq_unlocked event_bytes id (calm dirs)
    = (Ok (de_seq <$> last evs), calm dirs)) as Hlast.
  { unfold read_last_event_seq_unlocked, read_events_tail_unlocked.
    destruct (read_tail_last event_bytes event_size _ evs Hl (proj2 Hn) Hf) as (tl & Htl & Hlt).
    rewrite <-Hlt. unfold dir_log in *.
    erewrite bind_run; [reflexivity|]. erewrite bind_run by apply step_calm. rewrite read_dir_bind.
    simpl. rewrite Hd. simpl. destruct (dd_events d) as [lg|]; simpl in *.
    - unfold lift_result, clamp_event_tail_limit. simpl. by rewrite Htl.
    - unfold read_tail, tail_window in Htl. simpl in Htl. by injection Htl as <-. }
  erewrite bind_run by exact Hlast. destruct (last evs) as [e|] eqn:El; simpl.
  - rewrite last_lookup in El. pose proof (lookup_lt_Some _ _ _ El) as Hlt.
    assert (seq_at (length evs) = sat_add u64_max (de_seq e) 1) as ->.
    { rewrite (numbered_lookup _ _ _ Hn El), seq_at_next. f_equal. lia. }
    case_bool_decide.
    + exists d. rewrite insert_id by done. done.
    + exists (put_event_seq (de_seq e) d). split; [|done].
      erewrite bind_run by (by apply write_atomic_calm). done.
  - apply last_None in El as ->. exists d. rewrite insert_id by done. done.
Qed.

Lemma append_event_calm id kind now dirs d :
  dirs !! id = Some d → log_readable d →
  append_event_unlocked event_bytes id kind now (calm dirs)
    = (Ok (next_event kind now d), calm (<[id := log_event kind now d]> dirs)).
Proof.
  intros Hd Hr. destruct (repair_dir_log d Hr) as (Hl & Hf & Hs & Hput).
  unfold append_event_unlocked. erewrite bind_run by (by apply repair_calm).
  destruct Hr as [Hok Hseq].
  assert (∃ evs, lg_lines (dir_log (repair_dir d)) = LEntry <$> evs ∧ numbered evs) as (evs & He & Hn).
  { rewrite Hl. by apply repaired_numbered. }
  edestruct (next_seq_calm id (<[id:=repair_dir d]> dirs) (repair_dir d) evs) as (d' & Hrun & Hev & Hput');
    [by rewrite lookup_insert_eq|by rewrite Hs|done|done|done|].
  erewrite bind_run by exact Hrun. rewrite insert_insert_eq. cbv zeta.
  assert (seq_at (length evs) = seq_at (length (repaired_lines (dir_log d)))) as ->
    by (by rewrite <-Hl, He, length_fmap).
  fold (next_event kind now d).
  assert (append_log event_bytes dd_events put_events id (next_event kind now d)
      (calm (<[id:=d']> dirs)) =
    (Ok tt, calm (<[id := put_events (Build_log (repaired_lines (dir_log d)
       ++ [LEntry (next_event kind now d)]) None) d']> dirs))) as Happ.
  { unfold append_log. erewrite bind_run by reflexivity. simpl.
    erewrite bind_run by (apply update_dir_calm; by rewrite lookup_insert_eq).
    rewrite insert_insert_eq, Hev. fold empty_log. fold (dir_log (repair_dir d)).
    unfold push_line. by rewrite Hf, Hl. }
  erewrite bind_run by exact Happ.
  erewrite bind_run by (unfold write_event_seq_unlocked; apply write_atomic_calm; by rewrite lookup_insert_eq).
  rewrite insert_insert_eq. unfold log_event. by rewrite Hput', Hput.
Qed.

(** ** Completion *)

(** Which results a task in a status accepts. *)
Definition accepts (previous status : DelegationStatus) : bool :=
  is_terminal status && match previous with
                        | Running => true
                        | Queued => negb (bool_decide (status = Completed))
                        | Completed | Failed | Abandoned => false
                        end.

Definition completed_dir (m : DelegationMetadata) (r : DelegationResult) (d : DelegDir) : DelegDir :=
  log_event (result_event r) (dr_completed_at r)
    (log_event (EvStatusChanged (dm_status m) (dr_status r)) (dr_completed_at r)
       (put_metadata (complete_metadata m r) (put_result (result_markdown r) d))).

Lemma accepts_edge previous status :
  accepts previous status = true ↔ is_terminal status = true ∧ legal_edge previous status.
Proof.
  split.
  - destruct previous, status; try done; intros _; split; done || constructor.
  - intros [Ht He]. by destruct He.
Qed.

Lemma complete_calm id result dirs d m :
  dirs !! id = Some d → log_readable d → dd_metadata d = Some (Document m) → dm_id m = id →
  accepts (dm_status m) (dr_status (bound_result result)) = true →
  complete event_bytes id result (calm dirs) =
    (Ok (complete_metadata m (bound_result result)),
     calm (<[id := completed_dir m (bound_result result) d]> dirs)).
Proof.
  intros Hd Hr Hm Hid Hacc. unfold complete. set (r := bound_result result) in *.
  erewrite bind_run by (by eapply file_lock_calm). cbv zeta.
  erewrite bind_run by (by eapply load_calm).
  assert (is_terminal (dr_status r) = true ∧ is_terminal (dm_status m) = false ∧
    bool_decide (dm_status m = Running)
      || bool_decide (dm_status m = Queued) && bool_decide (dr_status r ≠ Completed) = true ∧
    dm_status m ≠ dr_status r) as (-> & -> & -> & Hne).
  { clear -Hacc. unfold accepts in Hacc.
    destruct (dm_status m), (dr_status r); try done; by split_and!. }
  cbn [negb].
  erewrite bind_run by (unfold write_result_markdown; by apply write_atomic_calm).
  assert (dm_id (complete_metadata m r) = id) as Hid' by done.
  erewrite bind_run.
  2: { unfold write_metadata. rewrite Hid'. apply write_atomic_calm. by rewrite lookup_insert_eq. }
  rewrite insert_insert_eq. unfold append_status_change_unlocked.
  rewrite bool_decide_eq_false_2 by done.
  set (d2 := put_metadata _ _).
  assert (log_readable d2) as Hr2 by exact Hr.
  erewrite bind_run.
  2: { erewrite bind_run; [reflexivity|]. apply append_event_calm; [by rewrite lookup_insert_eq|exact Hr2]. }
  rewrite insert_insert_eq.
  erewrite bind_run.
  2: { apply append_event_calm; [by rewrite lookup_insert_eq|by apply log_event_readable]. }
  by rewrite insert_insert_eq.
Qed.

Lemma complete_refused id result dirs d m :
  dirs !! id = Some d → dd_metadata d = Some (Document m) →
  accepts (dm_status m) (dr_status result) = false →
  complete event_bytes id result (calm dirs) =
    (Err (if is_terminal (dr_status result) then DCannotTransition id (dm_status m) (dr_status result)
          else DNonTerminalResult id (dr_status result)), calm dirs).
Proof.
  intros Hd Hm Hacc. unfold complete.
  erewrite bind_run by (by eapply file_lock_calm). cbv zeta.
  erewrite bind_run by (by eapply load_calm).
  change (dr_status (bound_result result)) with (dr_status result).
  unfold accepts in Hacc. destruct (dr_status result), (dm_status m); done.
Qed.

(** ** Steering *)

Definition after_cursor (after_seq : Z) (items : list DelegationSteering) : list DelegationSteering :=
  filter (λ i, (after_seq < st_seq i)%Z) items.

(** The steering log of a task whose appends have all succeeded: [items] in
    increasing order, one for each steered event, numbered by it. *)
Definition steering_ok (d : DelegDir) (items : list DelegationSteering) : Prop :=
  dd_event_seq d ≠ Some SeqGarbled ∧
  (∃ evs, lg_lines (dir_log d) = LEntry <$> evs ∧ lg_fragment (dir_log d) = None ∧ numbered evs ∧
    (Z.of_nat (length evs) < u64_max)%Z ∧
    (∀ e, e ∈ evs → ∀ text, de_kind e = EvSteered text → de_seq e ∈ st_seq <$> items) ∧
    Forall (λ i, (st_seq i ≤ Z.of_nat (length evs))%Z) items) ∧
  StronglySorted (λ i j, (st_seq i < st_seq j)%Z) items ∧
  match dd_steering d with
  | None => items = []
  | Some lg => lg_lines lg = LEntry <$> items ∧ lg_fragment lg = None
  end.

Lemma steering_loop_items after_seq limit idx items out :
  length out < limit →
  steering_loop after_seq limit idx (LEntry <$> items) out =
    Ok (take limit (out ++ after_cursor after_seq items)).
Proof.
  revert idx out. induction items as [|i items IH]; intros idx out Hl; csimpl.
  - unfold after_cursor. rewrite filter_nil, app_nil_r, take_ge by lia. done.
  - unfold after_cursor. rewrite filter_cons. destruct (Z.leb_spec (st_seq i) after_seq).
    + rewrite decide_False by lia. by apply IH.
    + rewrite decide_True by lia. case_bool_decide as Hlim; rewrite length_app in Hlim; simpl in Hlim.
      * set (l := filter _ items).
        replace (out ++ i :: l) with ((out ++ [i]) ++ l) by (by rewrite <-(assoc_L (++))).
        rewrite (take_app_le (out ++ [i])) by (rewrite length_app; simpl; lia).
        by rewrite take_ge by (rewrite length_app; simpl; lia).
      * rewrite IH by (rewrite length_app; simpl; lia). by rewrite <-(assoc_L (++)).
Qed.

Lemma merge_nothing after_seq limit events out :
  (∀ e text, e ∈ events → de_kind e = EvSteered text → (after_seq < de_seq e)%Z →
    de_seq e ∈ st_seq <$> out) →
  merge_steering after_seq limit events out = out.
Proof.
  induction events as [|e events IH]; intros H; [done|]. cbn [merge_steering].
  assert (merge_steering after_seq limit events out = out) as E by (apply IH; set_solver).
  destruct (Z.leb_spec (de_seq e) after_seq); [done|].
  destruct (de_kind e) eqn:Ek; try done.
  rewrite bool_decide_true; [done|]. eapply H; [by constructor|done|done].
Qed.

Lemma sort_by_sorted_id {A} (cmp : A → A → comparison) (l : list A) :
  StronglySorted (λ x y, cmp x y = Lt) l → sort_by cmp l = l.
Proof.
  unfold sort_by. induction 1 as [|x l Hl IH Hx]; [done|]. simpl. rewrite IH.
  destruct l as [|y l]; [done|]. simpl. inversion Hx as [|? ? Hxy]; subst. by rewrite Hxy.
Qed.

Lemma StronglySorted_filter {A} (R : A → A → Prop) (P : A → Prop) `{!∀ x, Decision (P x)} l :
  StronglySorted R l → StronglySorted R (filter P l).
Proof.
  induction 1 as [|x l Hl IH Hx]; [constructor|]. rewrite filter_cons. case_decide; [|done].
  constructor; [done|]. apply Forall_forall. intros y [_ Hy]%list_elem_of_filter.
  by rewrite Forall_forall in Hx; apply Hx.
Qed.

Lemma read_tail_subset limit lg evs :
  limit ≠ 0 → lg_lines lg = LEntry <$> evs → Forall bounded_event evs → lg_fragment lg = None →
  ∃ tail, read_tail event_bytes limit lg = Ok tail ∧ ∀ e, e ∈ tail → e ∈ evs.
Proof.
  intros Hn Hl Hb Hf. destruct (read_tail_clean event_bytes event_size limit lg evs Hn Hl Hb Hf)
    as (k & Hr & _). eexists. split; [exact Hr|]. intros e. unfold take_last. rewrite drop_drop.
  intros He. rewrite <-(take_drop (k + (length (drop k evs) - limit)) evs). set_solver.
Qed.

Lemma read_events_tail_calm id limit dirs d evs :
  dirs !! id = Some d → lg_lines (dir_log d) = LEntry <$> evs → Forall bounded_event evs → lg_fragment (dir_log d) = None →
  ∃ tail, read_events_tail_unlocked event_bytes id limit (calm dirs) = (Ok tail, calm dirs) ∧
    ∀ e, e ∈ tail → e ∈ evs.
Proof.
  intros Hd Hl Hb Hf. unfold read_events_tail_unlocked, dir_log in *.
  erewrite bind_run by apply step_calm. rewrite read_dir_bind. simpl. rewrite Hd. simpl.
  destruct (dd_events d) as [lg|]; [|exists []; split; [done|set_solver]].
  destruct (read_tail_subset (clamp_event_tail_limit limit) lg evs) as (tl & Htl & Hsub); [|done..|].
  { unfold clamp_event_tail_limit, MAX_EVENT_TAIL_LIMIT. lia. }
  exists tl. split; [|done]. unfold lift_result. by rewrite Htl.
Qed.

Lemma merge_calm id after_seq limit out dirs d items :
  dirs !! id = Some d → steering_ok d items →
  (∀ i, i ∈ items → (after_seq < st_seq i)%Z → i ∈ out) →
  merge_steering_from_events_unlocked event_bytes id after_seq limit out (calm dirs)
    = (Ok out, calm dirs).
Proof.
  intros Hd (_ & (evs & Hl & Hf & [_ Hb] & _ & Hst & _) & _ & _) Hout.
  destruct (read_events_tail_calm id DEFAULT_STEERING_READ_LIMIT dirs d evs Hd Hl Hb Hf) as (tl & Htl & Hsub).
  unfold merge_steering_from_events_unlocked. erewrite bind_run by exact Htl.
  unfold mret, M_ret. rewrite merge_nothing; [done|].
  intros e text He Hk Hlt. pose proof (Hst e (Hsub e He) text Hk) as Hin.
  apply list_elem_of_fmap in Hin as (i & Hi & Hin). rewrite Hi in Hlt |- *.
  apply list_elem_of_fmap. eauto.
Qed.

Lemma read_steering_calm id after_seq limit dirs d items :
  dirs !! id = Some d → steering_ok d items →
  read_steering_after event_bytes id after_seq limit (calm dirs) =
    (Ok (take (Nat.min (Nat.max limit 1) DEFAULT_STEERING_READ_LIMIT) (after_cursor after_seq items)),
     calm dirs).
Proof.
  intros Hd Hok. unfold read_steering_after. cbv zeta.
  set (n := Nat.min (Nat.max limit 1) DEFAULT_STEERING_READ_LIMIT).
  assert (0 < n) as Hn by (unfold n, DEFAULT_STEERING_READ_LIMIT; lia).
  erewrite bind_run by apply step_calm. rewrite read_dir_bind. simpl. rewrite Hd. simpl.
  pose proof Hok as (_ & _ & Hsorted & Hlog).
  destruct (dd_steering d) as [lg|].
  - destruct Hlog as [Hl Hf]. unfold all_lines. rewrite Hl, Hf, app_nil_r.
    unfold lift_result. erewrite bind_run by (rewrite steering_loop_items by (simpl; lia); reflexivity).
    simpl. case_bool_decide as Hlen; [|by rewrite ?take_take, ?Nat.min_id].
    rewrite length_take in Hlen.
    assert (length (after_cursor after_seq items) < n) as Hlen' by lia.
    rewrite (take_ge (after_cursor after_seq items)) by lia.
    erewrite bind_run.
    2: { eapply merge_calm; [exact Hd|exact Hok|]. intros i Hi Hlt.
         by apply list_elem_of_filter. }
    unfold mret, M_ret. rewrite sort_by_sorted_id.
    + by rewrite take_ge by lia.
    + eapply (StronglySorted_filter _ (λ i, (after_seq < st_seq i)%Z)) in Hsorted.
      clear -Hsorted. unfold after_cursor. induction Hsorted as [|x l Hl IH Hx]; constructor; [done|].
      eapply Forall_impl; [exact Hx|]. intros y Hy. simpl in *. unfold steering_cmp, cmp_on.
      by apply Z.compare_lt_iff.
  - subst items. rewrite (merge_calm id after_seq n [] dirs d []) by done. unfold after_cursor.
    by rewrite filter_nil, take_nil.
Qed.

(** *** Steering a task *)

Definition steered_item (text : Text) (now : Z) (d : DelegDir) : DelegationSteering :=
  let instruction := truncate_text text SUMMARY_TEXT_LIMIT in
  {| st_seq := de_seq (next_event (EvSteered instruction) now d); st_at := now;
     st_instruction := instruction |}.

Definition steered_dir (m : DelegationMetadata) (text : Text) (now : Z) (d : DelegDir) : DelegDir :=
  let d1 := log_event (EvSteered (truncate_text text SUMMARY_TEXT_LIMIT)) now
              (put_metadata (touch m now) d) in
  put_steering (push_line (λ _, 1%Z) (steered_item text now d)
                  (default (Build_log [] None) (dd_steering d))) d1.

Lemma steer_calm id text now dirs d m :
  dirs !! id = Some d → log_readable d → dd_metadata d = Some (Document m) → dm_id m = id →
  is_terminal (dm_status m) = false →
  steer event_bytes id text now (calm dirs) =
    (Ok (touch m now), calm (<[id := steered_dir m text now d]> dirs)).
Proof.
  intros Hd Hr Hm Hid Ht. unfold steer.
  erewrite bind_run by (by eapply file_lock_calm). erewrite bind_run by (by eapply load_calm).
  rewrite Ht. cbv zeta. erewrite bind_run.
  2: { unfold write_metadata. change (dm_id (touch m now)) with (dm_id m). rewrite Hid.
       by apply write_atomic_calm. }
  erewrite bind_run.
  2: { apply append_event_calm; [by rewrite lookup_insert_eq|exact Hr]. }
  rewrite insert_insert_eq.
  assert (∀ dirs' d' item, dirs' !! id = Some d' →
    append_steering_unlocked id item (calm dirs') =
      (Ok tt, calm (<[id := put_steering (push_line (λ _, 1%Z) item
                              (default (Build_log [] None) (dd_steering d'))) d']> dirs'))) as Happ.
  { intros dirs' d' item Hd'. unfold append_steering_unlocked, append_log.
    erewrite bind_run by reflexivity. simpl. by erewrite bind_run by (by apply update_dir_calm). }
  erewrite bind_run by (apply Happ; by rewrite lookup_insert_eq).
  by rewrite insert_insert_eq.
Qed.

Lemma steering_ok_readable d items : steering_ok d items → log_readable d.
Proof.
  intros (Hs & (evs & Hl & Hf & Hn & _) & _ & _). split; [|done]. exists evs. by rewrite Hf.
Qed.

Lemma repaired_clean lg : lg_fragment lg = None → repaired_lines lg = lg_lines lg.
Proof. intros Hf. unfold repaired_lines. by rewrite Hf, app_nil_r. Qed.

Lemma StronglySorted_snoc {A} (R : A → A → Prop) l x :
  StronglySorted R l → Forall (λ y, R y x) l → StronglySorted R (l ++ [x]).
Proof.
  induction 1 as [|y l Hl IH Hy]; intros Hall; [repeat constructor|].
  inversion Hall as [|? ? Hyx Hall']; subst. simpl. constructor; [by apply IH|].
  apply Forall_app_2; [done|]. by repeat constructor.
Qed.

(** One more steering keeps the log in step with the events. *)
Lemma steered_ok m text now d items :
  steering_ok d items → (Z.of_nat (length (lg_lines (dir_log d))) + 1 < u64_max)%Z →
  steering_ok (steered_dir m text now d) (items ++ [steered_item text now d]).
Proof.
  intros (Hs & (evs & Hl & Hf & Hn & Hlt & Hst & Hle) & Hsorted & Hlog) Hmax.
  rewrite Hl, length_fmap in Hmax.
  set (i := steered_item text now d). set (d' := steered_dir m text now d).
  set (e := next_event (EvSteered (truncate_text text SUMMARY_TEXT_LIMIT)) now
              (put_metadata (touch m now) d)).
  assert (lg_lines (dir_log d') = LEntry <$> (evs ++ [e]) ∧ lg_fragment (dir_log d') = None) as [Hl' Hf'].
  { split; [|done]. unfold d', steered_dir, log_event, dir_log at 1. simpl.
    change (dir_log (put_metadata (touch m now) d)) with (dir_log d).
    rewrite (repaired_clean _ Hf), Hl, fmap_app. done. }
  assert (de_seq e = seq_at (length evs)) as He.
  { unfold e, next_event. simpl. change (dir_log (put_metadata (touch m now) d)) with (dir_log d).
    by rewrite (repaired_clean _ Hf), Hl, length_fmap. }
  assert (st_seq i = de_seq e) as Hi by done.
  assert (de_seq e = Z.of_nat (length evs) + 1)%Z as He' by (rewrite He; unfold seq_at; lia).
  split; [done|]. split_and!.
  - exists (evs ++ [e]). rewrite length_app. simpl. split_and!; [done|done| |lia| |].
    + apply numbered_snoc; [done|done|]. apply (bound_event_kind_idemp (EvSteered _)).
    + intros e0 [He0|He0%list_elem_of_singleton]%elem_of_app text0 Hk; rewrite fmap_app, elem_of_app.
      * left. by eapply Hst.
      * right. subst e0. rewrite <-Hi. by apply list_elem_of_fmap_2, list_elem_of_singleton.
    + apply Forall_app_2; [|constructor; [lia|constructor]].
      eapply Forall_impl; [exact Hle|]. simpl. lia.
  - apply StronglySorted_snoc; [done|]. eapply Forall_impl; [exact Hle|].
    intros y Hy. cbv beta in Hy |- *. rewrite Hi, He'. lia.
  - unfold d', steered_dir. simpl. fold i. destruct (dd_steering d) as [lg|]; simpl.
    + destruct Hlog as [Hsl Hsf]. unfold push_line. rewrite Hsf. simpl. by rewrite Hsl, fmap_app.
    + by subst items.
Qed.

(** ** Properties *)

(** Completing a task, without faults, on every branch: a terminal result
    that the task's status can legally move to is recorded in the metadata,
    in result.md and as two events, in that order and nothing else changes;
    any other result is refused with the error that says why, and nothing at
    all changes. *)
Theorem complete_spec id result dirs d m :
  dirs !! id = Some d → log_readable d → dd_metadata d = Some (Document m) → dm_id m = id →
  let r := bound_result result in
  (is_terminal (dr_status r) = true ∧ legal_edge (dm_status m) (dr_status r) ∧
   ∃ m', same_task m m' ∧ dm_status m' = dr_status r ∧
     dm_started_at m' = dm_started_at m ∧ dm_current_step m' = dm_current_step m ∧
     dm_updated_at m' = dr_completed_at r ∧ dm_completed_at m' = Some (dr_completed_at r) ∧
     dm_progress_summary m' = Some (truncate_text (dr_summary r) SUMMARY_TEXT_LIMIT) ∧
     dm_error_summary m' = dr_error_summary r ∧
     dm_result_ref m' = Some RESULT_MD ∧ dm_changed_files m' = dr_changed_files r ∧
     let recorded := put_metadata m' (put_result (result_markdown r) d) in
     let changed := EvStatusChanged (dm_status m) (dr_status r) in
     let d' := log_event (result_event r) (dr_completed_at r)
                 (log_event changed (dr_completed_at r) recorded) in
     complete event_bytes id result (calm dirs) = (Ok m', calm (<[id := d']> dirs))) ∨
  (¬ (is_terminal (dr_status r) = true ∧ legal_edge (dm_status m) (dr_status r)) ∧
   complete event_bytes id result (calm dirs) =
     (Err (if is_terminal (dr_status r) then DCannotTransition id (dm_status m) (dr_status r)
           else DNonTerminalResult id (dr_status r)), calm dirs)).
Proof.
  intros Hd Hr Hm Hid r. rewrite <-accepts_edge.
  destruct (accepts (dm_status m) (dr_status r)) eqn:E.
  - left. pose proof (proj1 (accepts_edge _ _) E) as [Ht He]. split_and!; [done..|].
    exists (complete_metadata m r). split_and!; try done.
    cbv zeta. fold (completed_dir m r d). by apply complete_calm.
  - right. split; [done|]. exact (complete_refused id result dirs d m Hd Hm E).
Qed.

(** A steered task: the instruction is recorded, truncated, under the next
    event number; the steering log stays in step with the events; and from
    then on a reader with any cursor gets exactly the instructions after it,
    in order and each once, up to its limit. *)
Theorem steering_delivered id text now dirs d m items after_seq limit :
  dirs !! id = Some d → dd_metadata d = Some (Document m) → dm_id m = id →
  is_terminal (dm_status m) = false →
  steering_ok d items → (Z.of_nat (length (lg_lines (dir_log d))) + 1 < u64_max)%Z →
  let dirs' := <[id := steered_dir m text now d]> dirs in
  let items' := items ++ [steered_item text now d] in
  steer event_bytes id text now (calm dirs) = (Ok (touch m now), calm dirs') ∧
  steering_ok (steered_dir m text now d) items' ∧
  read_steering_after event_bytes id after_seq limit (calm dirs') =
    (Ok (take (Nat.min (Nat.max limit 1) 64)
           (filter (λ i, (after_seq < st_seq i)%Z) items')), calm dirs').
Proof.
  intros Hd Hm Hid Ht Hok Hmax dirs' items'.
  pose proof (steered_ok m text now d items Hok Hmax) as Hok'. split_and!; [|done|].
  - apply steer_calm; try done. by eapply steering_ok_readable.
  - apply (read_steering_calm id after_seq limit dirs' (steered_dir m text now d) items'); [by apply lookup_insert_eq|done].
Qed.

End calm.

Section failures.
Context (event_bytes : DelegationEvent → Z).

(** ** An unknown id *)

(** The lock makes the directory before the metadata is looked for. *)
Lemma steer_unknown id text now dirs :
  dirs !! id = None →
  steer event_bytes id text now (calm dirs) = (Err (DNotFound id), calm (<[id := empty_dir]> dirs)).
Proof.
  intros Hd. unfold steer.
  assert (file_lock_for id (calm dirs) = (Ok tt, calm (<[id := empty_dir]> dirs))) as Hlock.
  { unfold file_lock_for. erewrite bind_run by reflexivity. simpl.
    unfold update_dir, modify, calm. simpl. unfold mbind, M_bind. simpl. by rewrite Hd. }
  erewrite bind_run by exact Hlock. unfold load, mbind, M_bind, step. simpl.
  unfold read_dir, gets. simpl. by rewrite lookup_insert_eq.
Qed.

Lemma list_loop_stray l dirs id d :
  (id, d) ∈ l → dd_metadata d = None → list_loop true l (calm dirs) = (Err DStorage, calm dirs).
Proof.
  induction l as [|[id' d'] l IH]; intros Hin Hd; [set_solver|]. cbn [list_loop].
  rewrite m_try_bind. unfold read_listed, mbind, M_bind, step. simpl.
  destruct (dd_metadata d') as [[m|]|] eqn:E; simpl; [|done|done].
  apply elem_of_cons in Hin as [[= <- <-]|Hin]; [congruence|].
  unfold M_bind. by rewrite IH.
Qed.

Lemma failures_loop_calm l dirs :
  ∃ ms fs, failures_loop l (calm dirs) = (Ok (ms, fs), calm dirs) ∧
    ∀ id d, (id, d) ∈ l → dd_metadata d = None → id ∈ fs.
Proof.
  induction l as [|[id d] l (ms & fs & Hr & Hin)]; cbn [failures_loop].
  { exists [], []. split; [done|set_solver]. }
  assert (∃ r, read_listed d (calm dirs) = (r, calm dirs) ∧
    (dd_metadata d = None → ∃ e, r = Err e)) as (r & Hread & Hnone).
  { unfold read_listed, mbind, M_bind, step. simpl.
    destruct (dd_metadata d) as [[m|]|]; eexists; (split; [reflexivity|]); eauto; done. }
  destruct r as [m|e].
  - exists (m :: ms), fs. split; [|].
    { rewrite m_try_bind, Hread. erewrite bind_run by exact Hr. done. }
    intros id' d' [[= -> ->]|Hl]%elem_of_cons Hd'; [by destruct (Hnone Hd')|by eapply Hin].
  - exists ms, (id :: fs). split.
    { rewrite m_try_bind, Hread. erewrite bind_run by exact Hr. done. }
    intros id' d' [[= -> ->]|Hl]%elem_of_cons Hd'; [by constructor|]. constructor. by eapply Hin.
Qed.

(** ** A torn steering line *)

(** A log with rubble: a corrupt line, or a torn one at the end. *)
Definition torn (lg : log DelegationSteering) (items : list DelegationSteering) : Prop :=
  ∃ n rest, all_lines lg = (LEntry <$> items) ++ LCorrupt n :: rest.

Lemma torn_cases lg items :
  torn lg items →
  (∃ n rest, lg_lines lg = (LEntry <$> items) ++ LCorrupt n :: rest) ∨
  (∃ n, lg_lines lg = LEntry <$> items ∧ lg_fragment lg = Some (FBad n)).
Proof.
  intros (n & rest & Ht). unfold all_lines in Ht.
  apply app_eq_inv in Ht as [(k & Hl & Hk)|(k & Hl & Hk)].
  - destruct k as [|c k]; [|injection Hk as <- _; eauto].
    rewrite app_nil_r in Hl. right. simpl in Hk.
    destruct (lg_fragment lg) as [[a|n']|]; try done. exists n'. done.
  - destruct k as [|c k].
    + rewrite app_nil_r in Hl. right. simpl in Hk.
      destruct (lg_fragment lg) as [[a|n']|]; try done. exists n'. done.
    + destruct (lg_fragment lg) as [[a|n']|]; simpl in Hk; try done; injection Hk as _ Hk;
        by apply (f_equal length) in Hk; rewrite length_app in Hk; simpl in Hk; lia.
Qed.

Lemma torn_lines lg items n rest :
  lg_lines lg = (LEntry <$> items) ++ LCorrupt n :: rest → torn lg items.
Proof.
  intros Hl. unfold torn, all_lines. rewrite Hl, <-(assoc_L (++)), <-app_comm_cons. eauto.
Qed.

(** Once torn, whatever is appended, the entries before the rubble are all
    that the log can still be read for. *)
Lemma torn_stays f item lg items :
  torn lg items → torn (append_effect (λ _, 1%Z) f item lg) items.
Proof.
  intros Ht. pose proof (torn_cases lg items Ht) as [(n & rest & Hl)|(n & Hl & Hf)].
  - assert (∀ l, lg_lines lg `prefix_of` lg_lines l → torn l items) as Hp.
    { intros l [more Hm]. eapply torn_lines. by rewrite Hm, Hl, <-(assoc_L (++)), <-app_comm_cons. }
    apply Hp. unfold append_effect, push_line, push_torn, push_unterminated.
    repeat case_match; simpl; by try apply prefix_app_r.
  - unfold append_effect, push_line, push_torn, push_unterminated. rewrite Hf.
    destruct f; try (by eapply (torn_lines _ _ _ []); simpl; rewrite Hl); [done| |].
    + case_match; [done|]. eexists _, []. unfold all_lines. simpl. by rewrite Hl.
    + eexists _, []. unfold all_lines. simpl. by rewrite Hl.
Qed.

Lemma steering_loop_torn after_seq limit idx items out n rest :
  length out + length (after_cursor after_seq items) < limit →
  steering_loop after_seq limit idx ((LEntry <$> items) ++ LCorrupt n :: rest) out =
    Err (DJsonLine (S (idx + length items))).
Proof.
  revert idx out. unfold after_cursor. induction items as [|i items IH]; intros idx out Hl; csimpl.
  - by rewrite Nat.add_0_r.
  - rewrite filter_cons in Hl. destruct (Z.leb_spec (st_seq i) after_seq).
    + rewrite decide_False in Hl by lia. rewrite IH by done. by rewrite Nat.add_succ_comm.
    + rewrite decide_True in Hl by lia. simpl in Hl.
      rewrite bool_decide_false by (rewrite length_app; simpl; lia).
      rewrite IH by (rewrite length_app; simpl; lia). by rewrite Nat.add_succ_comm.
Qed.

(** ** Properties of the failures *)

(** Steering an id that no task has is refused, but the refusal leaves a
    directory without metadata, and from then on every strict listing fails
    and every clean-up of a session reports that it is incomplete. *)
Theorem unknown_id_blocks_cleanup id text now dirs expected session reason now' :
  dirs !! id = None →
  let w := calm (<[id := empty_dir]> dirs) in
  steer event_bytes id text now (calm dirs) = (Err (DNotFound id), w) ∧
  list_metadata_inner true w = (Err DStorage, w) ∧
  ∃ names, id ∈ names ∧
    (abandon_unfinished_for_session event_bytes expected session reason now' w).1
      = Err (DAbandonIncomplete session names).
Proof.
  intros Hd w.
  assert ((id, empty_dir) ∈ map_to_list (ds_dirs w)) as Hin
    by (apply elem_of_map_to_list; apply lookup_insert_eq).
  split_and!; [by apply steer_unknown| |].
  - unfold list_metadata_inner. erewrite bind_run by apply step_calm.
    unfold mbind, M_bind, get_world. unfold w at 1. by rewrite (list_loop_stray _ _ id empty_dir).
  - destruct (failures_loop_calm (map_to_list (ds_dirs w)) (<[id := empty_dir]> dirs))
      as (ms & fs & Hr & Hfs).
    assert (list_metadata_with_failures w = (Ok (sort_by sort_metadata ms, fs), w)) as Hlist.
    { unfold list_metadata_with_failures. erewrite bind_run by apply step_calm.
      unfold mbind, M_bind, get_world. fold w in Hr |- *. by rewrite Hr. }
    unfold abandon_unfinished_for_session. erewrite bind_run by exact Hlist. cbn [fst snd].
    destruct (abandon_loop event_bytes expected session reason now' (sort_by sort_metadata ms) [] fs w)
      as [[[u f]|e] w'] eqn:E.
    + destruct (abandon_loop_failures _ _ _ _ _ _ _ _ _ _ _ _ E) as (more & ->).
      erewrite bind_run by exact E. cbn [fst snd].
      assert (id ∈ fs) as Hid by (by eapply Hfs). exists (fs ++ more). split; [set_solver|].
      rewrite bool_decide_false; [done|]. intros Hnil%app_nil. destruct Hnil as [-> _]. set_solver.
    + by apply abandon_loop_total in E.
Qed.

(** A steering append that is cut half-way (the append fails, the process
    stops) is never repaired, unlike the event log: whatever is appended
    later, a reader that has seen the instructions before it gets a parse
    error at that line. *)
Theorem torn_steering_blocks_reader id dirs d lg items fs more after_seq limit :
  dirs !! id = Some d → torn lg items →
  let lg' := foldl (λ lg fi, append_effect (λ _, 1%Z) fi.1 fi.2 lg) lg (zip fs more) in
  dd_steering d = Some lg' →
  length (filter (λ i, (after_seq < st_seq i)%Z) items) < Nat.min (Nat.max limit 1) 64 →
  read_steering_after event_bytes id after_seq limit (calm dirs)
    = (Err (DJsonLine (S (length items))), calm dirs).
Proof.
  intros Hd Ht lg' Hs Hlen.
  assert (torn lg' items) as (n & rest & Hl).
  { unfold lg'. clear Hs lg'. revert lg Ht. induction (zip fs more) as [|[f i] l IH]; intros lg Ht; [done|].
    simpl. by apply IH, torn_stays. }
  unfold read_steering_after. cbv zeta. erewrite bind_run by apply step_calm. rewrite read_dir_bind.
  simpl. rewrite Hd. simpl. rewrite Hs, Hl.
  unfold mbind, M_bind, lift_result. by rewrite steering_loop_torn.
Qed.
End failures.

(** * Delegated tasks on a concrete store

    A session with two tasks, one running, and the theorems of
    DelegationStatus, DelegationLog and DelegationGuarantees applied to it. *)

Definition demo_bytes (e : DelegationEvent) : Z := 100 + texts_size (event_texts (de_kind e)).

Lemma demo_bytes_size : serde_json_size demo_bytes.
Proof.
  intros e. assert (0 ≤ texts_size (event_texts (de_kind e)))%Z.
  { induction (event_texts (de_kind e)); simpl; unfold JSON_CHAR_BYTES, JSON_TEXT_BYTES; lia. }
  unfold demo_bytes, JSON_REST_BYTES. lia.
Qed.

Definition demo_rq : DelegationCreateRequest := {|
  rq_parent_session_id := "session_0000000a"; rq_parent_turn_id := "turn";
  rq_owner_agent_id := "alice"; rq_title := lit "survey"; rq_role := lit "reader";
  rq_objective := lit "read"; rq_constraints := [] |}.

Definition demo_id : string := "subagent_00000001".

(** Task 1 created and started without faults; task 2 created after the torn
    write of its first event was retried under another id. *)
Definition demo_history : list (command * list io_fault) :=
  [ (CCreate None demo_rq (λ _, demo_id) 10, []);
    (CStart demo_id 11, []);
    (CEvent demo_id (EvToolStarted (lit "grep") (lit "x")) 12,
       [IoFine; IoFine; IoFine; IoFine; IoFine; IoTorn 7]);
    (CCreate None demo_rq (λ _, "subagent_00000002") 13, []) ]%Z.

Definition demo_world : Delegations := exec_all demo_bytes demo_history (calm ∅).

Lemma demo_empty_named : named (calm ∅).
Proof. intros id m. unfold stored_metadata, calm. simpl. by rewrite lookup_empty. Qed.

Lemma named_calm w : named w → named (calm (ds_dirs w)).
Proof. done. Qed.

Lemma logs_ok_dir w id d : logs_ok w → ds_dirs w !! id = Some d → log_ok (dir_log d).
Proof. intros Ho Hd. specialize (Ho id). unfold events_at in Ho. by rewrite Hd in Ho. Qed.

Lemma demo_empty_logs : logs_ok (calm ∅).
Proof. intros id. unfold events_at, calm. simpl. rewrite lookup_empty. by exists []. Qed.

Lemma demo_named : named demo_world.
Proof. destruct (exec_all_history demo_bytes demo_history (calm ∅) demo_empty_named) as [H _]. exact H. Qed.

Lemma demo_logs : logs_ok demo_world.
Proof.
  destruct (exec_all_log_moves demo_bytes demo_bytes_size demo_history (calm ∅) demo_empty_logs) as [H _].
  exact H.
Qed.

Definition demo_metadata : DelegationMetadata :=
  transition_metadata (metadata_new demo_id demo_rq 10) Running 11 [] None.

Lemma demo_stored : stored_metadata demo_world demo_id = Some (Document demo_metadata).
Proof. vm_compute. reflexivity. Qed.

Definition demo_result (s : DelegationStatus) : DelegationResult := {|
  dr_status := s; dr_summary := lit "done"; dr_changed_files := [lit "a.rs"]; dr_artifacts := [];
  dr_error_summary := None; dr_completed_at := 20 |}.

(** The task is completed, then someone tries to abandon and restart it. *)
Definition demo_end : list (command * list io_fault) :=
  [ (CComplete demo_id (demo_result Completed), []); (CAbandon demo_id (lit "late") 21, []);
    (CStart demo_id 22, []); (CSteer demo_id (lit "again") 23, []) ]%Z.

Lemma tasks_follow_lifecycle_witness :
  named (exec_all demo_bytes demo_end demo_world) ∧
  ∃ m', stored_metadata (exec_all demo_bytes demo_end demo_world) demo_id = Some (Document m') ∧
    same_task demo_metadata m' ∧ rtc legal_edge (dm_status demo_metadata) (dm_status m') ∧
    (is_terminal (dm_status demo_metadata) = true → m' = demo_metadata).
Proof.
  exact (tasks_follow_lifecycle demo_bytes demo_end demo_world demo_id demo_metadata demo_named demo_stored).
Defined.

Lemma event_log_is_gapless_witness :
  lg_fragment (events_at demo_world demo_id) = Some (FBad 7) ∧
  logs_ok (exec_all demo_bytes demo_end demo_world).
Proof.
  split; [vm_compute; reflexivity|].
  exact (proj1 (event_log_is_gapless demo_bytes demo_bytes_size demo_end demo_world demo_logs)).
Defined.

Definition demo_cleanup : Result DelegationStoreError (list DelegationMetadata) * Delegations :=
  abandon_unfinished_for_session demo_bytes None "session_0000000a" (lit "closed") 30
    (calm (ds_dirs demo_world)).

Definition demo_abandoned : list DelegationMetadata :=
  match demo_cleanup.1 with Ok l => l | Err _ => [] end.

Lemma demo_cleanup_ok :
  abandon_unfinished_for_session demo_bytes None "session_0000000a" (lit "closed") 30
    (calm (ds_dirs demo_world)) = (Ok demo_abandoned, demo_cleanup.2).
Proof. vm_compute. reflexivity. Qed.

Definition demo_left : DelegationMetadata :=
  match stored_metadata demo_cleanup.2 demo_id with Some (Document m) => m | _ => demo_metadata end.

Lemma abandon_leaves_none_unfinished_witness :
  length demo_abandoned = 2 ∧ is_terminal (dm_status demo_left) = true.
Proof.
  split; [vm_compute; reflexivity|].
  apply (abandon_leaves_none_unfinished demo_bytes None "session_0000000a" (lit "closed") 30
           (calm (ds_dirs demo_world)) demo_abandoned demo_cleanup.2 demo_id demo_left).
  - exact (named_calm _ demo_named).
  - exact demo_cleanup_ok.
  - vm_compute. reflexivity.
  - vm_compute. reflexivity.
Defined.

Definition demo_dir : DelegDir := default empty_dir (ds_dirs demo_world !! demo_id).

Lemma demo_dir_at : ds_dirs demo_world !! demo_id = Some demo_dir.
Proof. vm_compute. reflexivity. Qed.

Lemma demo_readable : log_readable demo_dir.
Proof.
  split; [exact (logs_ok_dir _ _ _ demo_logs demo_dir_at)|]. vm_compute. discriminate.
Qed.

Lemma complete_spec_witness :
  ∃ m', dm_status m' = Completed ∧
    (complete demo_bytes demo_id (demo_result Completed) (calm (ds_dirs demo_world))).1 = Ok m'.
Proof.
  destruct (complete_spec demo_bytes demo_bytes_size demo_id (demo_result Completed)
    (ds_dirs demo_world) demo_dir demo_metadata demo_dir_at demo_readable)
    as [(_ & _ & m' & _ & Hs & _ & _ & _ & _ & _ & _ & _ & _ & H)|[H _]].
  - vm_compute. reflexivity.
  - reflexivity.
  - exists m'. split; [exact Hs|]. cbv zeta in H. rewrite H. reflexivity.
  - exfalso. apply H. split; [reflexivity|constructor].
Defined.

(** Task 2 has a whole event log and no steering yet. *)
Definition demo_id2 : string := "subagent_00000002".
Definition demo_dir2 : DelegDir := default empty_dir (ds_dirs demo_world !! demo_id2).
Definition demo_metadata2 : DelegationMetadata := metadata_new demo_id2 demo_rq 13.

Definition demo_events2 : list DelegationEvent :=
  [ {| de_seq := 1; de_at := 13; de_kind := EvCreated |};
    {| de_seq := 2; de_at := 13; de_kind := EvQueued |} ]%Z.

Lemma demo_steering_ok : steering_ok demo_dir2 [].
Proof.
  split; [vm_compute; discriminate|]. split_and!.
  - exists demo_events2. split; [vm_compute; reflexivity|]. split; [vm_compute; reflexivity|].
    split; [split; [vm_compute; reflexivity|repeat constructor]|]. split; [vm_compute; reflexivity|]. split; [|constructor].
    intros e He text Hk. unfold demo_events2 in He.
    apply elem_of_cons in He as [->|He]; [discriminate|].
    apply list_elem_of_singleton in He as ->. discriminate.
  - constructor.
  - vm_compute. reflexivity.
Qed.

Lemma steering_delivered_witness :
  st_instruction <$> [steered_item (lit "focus") 14 demo_dir2] = [lit "focus"] ∧
  read_steering_after demo_bytes demo_id2 0 8
    (calm (<[demo_id2 := steered_dir demo_metadata2 (lit "focus") 14 demo_dir2]> (ds_dirs demo_world)))
  = (Ok (take 8 (filter (λ i, (0 < st_seq i)%Z) ([] ++ [steered_item (lit "focus") 14 demo_dir2]))),
     calm (<[demo_id2 := steered_dir demo_metadata2 (lit "focus") 14 demo_dir2]> (ds_dirs demo_world))).
Proof.
  split; [reflexivity|].
  destruct (steering_delivered demo_bytes demo_bytes_size demo_id2 (lit "focus") 14
    (ds_dirs demo_world) demo_dir2 demo_metadata2 [] 0 8) as (_ & _ & H).
  - vm_compute. reflexivity.
  - vm_compute. reflexivity.
  - reflexivity.
  - reflexivity.
  - exact demo_steering_ok.
  - vm_compute. reflexivity.
  - exact H.
Defined.

Lemma unknown_id_blocks_cleanup_witness :
  steer demo_bytes "subagent_0badc0de" (lit "hello") 40 (calm (ds_dirs demo_world)) =
    (Err (DNotFound "subagent_0badc0de"),
     calm (<["subagent_0badc0de" := empty_dir]> (ds_dirs demo_world))).
Proof.
  destruct (unknown_id_blocks_cleanup demo_bytes "subagent_0badc0de" (lit "hello") 40
    (ds_dirs demo_world) None "session_0000000a" [] 41) as [H _].
  - vm_compute. reflexivity.
  - exact H.
Defined.

(** The steering log of a task whose second append was cut after 9 bytes. *)
Definition demo_item (n : Z) : DelegationSteering :=
  {| st_seq := n; st_at := n; st_instruction := lit "go" |}.

Definition demo_torn : log DelegationSteering := Build_log [LEntry (demo_item 3)] (Some (FBad 9)).

Lemma torn_steering_blocks_reader_witness :
  read_steering_after demo_bytes demo_id2 3 8
    (calm {[demo_id2 := put_steering (append_effect (λ _, 1%Z) IoFine (demo_item 5) demo_torn) empty_dir]})
  = (Err (DJsonLine 2),
     calm {[demo_id2 := put_steering (append_effect (λ _, 1%Z) IoFine (demo_item 5) demo_torn) empty_dir]}).
Proof.
  apply (torn_steering_blocks_reader demo_bytes demo_id2 _
    (put_steering (append_effect (λ _, 1%Z) IoFine (demo_item 5) demo_torn) empty_dir)
    demo_torn [demo_item 3] [IoFine] [demo_item 5] 3 8).
  - vm_compute. reflexivity.
  - exists 9%Z, []. reflexivity.
  - reflexivity.
  - vm_compute. lia.
Defined.

(** ** A task is abandoned while it is created

    [create] takes neither the lock of the task nor that of its directory.  It
    is cut here where the number of its first event has been found. *)

Definition append_event_number (id : string) : DM Z :=
  _ ← repair_events_tail_unlocked demo_bytes id; next_event_seq_unlocked demo_bytes id.

Definition append_event_numbered (id : string) (kind : DelegationEventKind) (at_ seq : Z) : DM unit :=
  _ ← append_log demo_bytes dd_events put_events id {| de_seq := seq; de_at := at_; de_kind := bound_event_kind kind |};
  write_event_seq_unlocked id seq.

Lemma append_event_cut id kind at_ w :
  (append_event_unlocked demo_bytes id kind at_ w).2 =
  ((seq ← append_event_number id; append_event_numbered id kind at_ seq) w).2.
Proof.
  unfold append_event_unlocked, append_event_number, append_event_numbered, mbind, M_bind.
  destruct (repair_events_tail_unlocked demo_bytes id w) as [[[]|e] w1]; [|done].
  destruct (next_event_seq_unlocked demo_bytes id w1) as [[seq|e] w2]; [|done].
  destruct (append_log _ _ _ _ _ w2) as [[[]|e] w3]; [|done]. by destruct (write_event_seq_unlocked id seq w3) as [[[]|e] w4].
Qed.

Definition create_begin (id : string) (now : Z) : DM Z :=
  _ ← create_dir id; _ ← write_metadata (metadata_new id demo_rq now); append_event_number id.

Definition create_end (id : string) (now seq : Z) : DM unit :=
  _ ← append_event_numbered id EvCreated now seq; _ ← append_event_unlocked demo_bytes id EvQueued now; mret tt.

(** Alone it makes a log with the numbers 1 and 2.  When the session abandons
    its tasks at the cut, the numbers repeat. *)
Lemma create_races_abandon :
  let create := seq ← create_begin demo_id 10; create_end demo_id 10 seq in
  let raced := seq ← create_begin demo_id 10;
    _ ← abandon_unfinished_for_session demo_bytes None "session_0000000a" (lit "closed") 11; create_end demo_id 10 seq in
  let numbers w := (λ l, match l with LEntry e => de_seq e | _ => 0%Z end) <$> lg_lines (events_at w demo_id) in
  (create (calm ∅)).2 = (create_with_id_factory demo_bytes None demo_rq (λ _, demo_id) 10 (calm ∅)).2 ∧
  numbers (create (calm ∅)).2 = [1; 2]%Z ∧ numbers (raced (calm ∅)).2 = [1; 2; 1; 2]%Z.
Proof. vm_compute. done. Qed.
