(* ===== verification/InboxFiles.v ===== *)
(** * An agent's inbox directory (src/src/agent/fs.rs, LocalFsInboxReader)

    A message is one file of [inbox/], named after its id: pending
    ([<id>.yaml]), leased ([<id>.processing.<pid>.<suffix>.yaml]) or finished
    ([<id>.done.yaml]).  The directory is shared by every process of the
    agent, without a lock: each file-system step of an operation is preceded
    by whatever the other processes did, and can fail.  Both come from a
    script in the world.  A process that stops is one whose remaining steps
    all fail; a new process starts with an empty [seen] set.

    The lease names carry random suffixes, which are taken to be distinct;
    here they are numbered in the order of the renames that use them. *)

From S2P Require Import Prelude Storage Claim Maintainer.

(** ** State *)

Inductive inbox_file :=
| Active (id : InboxId)
| Done (id : InboxId)
| Processing (id : InboxId) (lease : nat).

#[export] Instance inbox_file_eq_dec : EqDecision inbox_file.
Proof. solve_decision. Defined.

#[export] Instance inbox_file_countable : Countable inbox_file.
Proof.
  refine (inj_countable'
    (λ f, match f with
          | Active id => inl (inl id) | Done id => inl (inr id) | Processing id n => inr (id, n)
          end)
    (λ x, match x with
          | inl (inl id) => Active id | inl (inr id) => Done id | inr (id, n) => Processing id n
          end) _).
  by intros [].
Defined.

Definition file_id (f : inbox_file) : InboxId :=
  match f with Active id | Done id | Processing id _ => id end.

(** A file: when it was written, and its message unless it does not parse. *)
Record inbox_body := { ib_modified : DateTime; ib_message : option InboxMessage }.

Record InboxDir := {
  id_files : gmap inbox_file inbox_body;
  id_next_lease : nat;
}.

Definition set_files (m : gmap inbox_file inbox_body) (d : InboxDir) : InboxDir :=
  {| id_files := m; id_next_lease := id_next_lease d |}.
Definition put_file (f : inbox_file) (b : inbox_body) (d : InboxDir) : InboxDir :=
  set_files (<[f := b]> (id_files d)) d.
Definition drop_file (f : inbox_file) (d : InboxDir) : InboxDir :=
  set_files (delete f (id_files d)) d.
Definition move_file (f g : inbox_file) (b : inbox_body) (d : InboxDir) : InboxDir :=
  set_files (<[g := b]> (delete f (id_files d))) d.

(** One file-system step: what the other processes did before it, and whether
    it fails. *)
Record inbox_event := { ev_others : InboxDir → InboxDir; ev_fails : bool }.

Record LocalFsInboxReader := {
  ir_dir : InboxDir;
  ir_seen : gset InboxId;
  ir_script : list inbox_event;
}.

Inductive InboxError :=
| IoError
| IoNotFound
| BadYaml
| SnapshotConflict (id : InboxId).

Notation IM := (M LocalFsInboxReader InboxError).

(** ** File-system steps *)

Definition fs_step : IM bool := λ w,
  match ir_script w with
  | [] => (Ok true, w)
  | e :: es => (Ok (negb (ev_fails e)),
      {| ir_dir := ev_others e (ir_dir w); ir_seen := ir_seen w; ir_script := es |})
  end.

Definition on_dir (f : InboxDir → InboxDir) : IM unit :=
  modify (λ w, {| ir_dir := f (ir_dir w); ir_seen := ir_seen w; ir_script := ir_script w |}).

Definition look (f : inbox_file) : IM (option inbox_body) :=
  gets (λ w, id_files (ir_dir w) !! f).

Definition io_ok : IM unit := ok ← fs_step; if (ok : bool) then mret tt else fail IoError.

(** [fs::try_exists(..).unwrap_or(false)] *)
Definition try_exists (f : inbox_file) : IM bool :=
  ok ← fs_step; b ← look f; mret (ok && bool_decide (is_Some b)).

Definition metadata (f : inbox_file) : IM DateTime :=
  _ ← io_ok; b ← look f;
  match b with None => fail IoNotFound | Some b => mret (ib_modified b) end.

Definition read_message (f : inbox_file) : IM InboxMessage :=
  _ ← io_ok; b ← look f;
  match b with
  | None => fail IoNotFound
  | Some b => match ib_message b with None => fail BadYaml | Some m => mret m end
  end.

Definition write_message (f : inbox_file) (m : InboxMessage) (now : DateTime) : IM unit :=
  _ ← io_ok; on_dir (put_file f {| ib_modified := now; ib_message := Some m |}).

Definition remove_file (f : inbox_file) : IM unit :=
  _ ← io_ok; b ← look f;
  match b with None => fail IoNotFound | Some _ => on_dir (drop_file f) end.

(** A rename keeps the modification time. *)
Definition rename (f g : inbox_file) : IM unit :=
  _ ← io_ok; b ← look f;
  match b with None => fail IoNotFound | Some b => on_dir (move_file f g b) end.

(** [processing_path_for] and the rename to it. *)
Definition rename_to_processing (f : inbox_file) (id : InboxId) : IM inbox_file :=
  _ ← io_ok; b ← look f;
  match b with
  | None => fail IoNotFound
  | Some b =>
      n ← gets (λ w, id_next_lease (ir_dir w));
      _ ← on_dir (λ d, {| id_files := <[Processing id n := b]> (delete f (id_files d));
                          id_next_lease := S (id_next_lease d) |});
      mret (Processing id n)
  end.

(** The names that [read_dir] yields; each [next_entry] can fail. *)
Definition dir_names : IM (list inbox_file) :=
  _ ← io_ok; gets (λ w, (map_to_list (id_files (ir_dir w))).*1).

Definition mark_seen (id : InboxId) : IM unit :=
  modify (λ w, {| ir_dir := ir_dir w; ir_seen := {[id]} ∪ ir_seen w; ir_script := ir_script w |}).

(** ** Names *)

Definition is_pending_payload_yaml (f : inbox_file) : bool :=
  match f with Active _ => true | _ => false end.
Definition is_processing_payload_yaml (f : inbox_file) : bool :=
  match f with Processing _ _ => true | _ => false end.

(** ** Listing and leasing *)

Record PendingInboxMessage := {
  pim_msg : InboxMessage;
  pim_modified_at : DateTime;
  pim_path : inbox_file;
}.

Record ClaimedInboxMessage := {
  cim_message : InboxMessage;
  cim_lease_id : option inbox_file;
}.

Fixpoint scan_pending (names : list inbox_file) : IM (list PendingInboxMessage) :=
  match names with
  | [] => _ ← io_ok; mret []
  | path :: names' =>
      _ ← io_ok;
      if is_pending_payload_yaml path then
        msg ← read_message path;
        done_ ← try_exists (Done (msg_id msg));
        if (done_ : bool) then _ ← remove_file path; scan_pending names'
        else
          modified_at ← metadata path;
          pending ← scan_pending names';
          mret ({| pim_msg := msg; pim_modified_at := modified_at; pim_path := path |} :: pending)
      else scan_pending names'
  end.

Definition pending_cmp : PendingInboxMessage → PendingInboxMessage → comparison :=
  cmp_then (cmp_on (λ i, msg_event_at (pim_msg i)) Z.compare)
    (cmp_then (cmp_on pim_modified_at Z.compare) (cmp_on (λ i, msg_id (pim_msg i)) String.compare)).

(** The sorted pending messages that this process has not acknowledged. *)
Definition scan_unseen : IM (list PendingInboxMessage) :=
  names ← dir_names;
  pending ← scan_pending names;
  seen ← gets ir_seen;
  mret (filter (λ i, msg_id (pim_msg i) ∉ seen) (sort_by pending_cmp pending)).

Definition list_pending : IM (list InboxMessage) :=
  ok ← fs_step;
  if negb (ok : bool) then mret []
  else pending ← scan_unseen; mret (pim_msg <$> pending).

Section reader.
Context (processing_stale_after : Z).

(** [modified.elapsed().map(|age| age < stale_after).unwrap_or(true)] *)
Definition is_fresh (modified now : DateTime) : bool :=
  (now <? modified)%Z || (now - modified <? processing_stale_after)%Z.

Fixpoint recover_loop (now : DateTime) (names : list inbox_file) : IM unit :=
  match names with
  | [] => io_ok
  | path :: names' =>
      _ ← io_ok;
      if is_processing_payload_yaml path then
        modified ← metadata path;
        if is_fresh modified now then recover_loop now names'
        else
          found ← m_try (read_message path);
          match found with
          | Err _ => recover_loop now names'
          | Ok msg =>
              done_ ← try_exists (Done (msg_id msg));
              if (done_ : bool) then _ ← remove_file path; recover_loop now names'
              else
                active ← try_exists (Active (msg_id msg));
                if (active : bool) then _ ← remove_file path; recover_loop now names'
                else
                  moved ← m_try (rename path (Active (msg_id msg)));
                  match moved with
                  | Ok _ | Err IoNotFound => recover_loop now names'
                  | Err e => fail e
                  end
          end
      else recover_loop now names'
  end.

Definition recover_stale_processing (now : DateTime) : IM unit :=
  names ← dir_names; recover_loop now names.

Fixpoint claim_loop (pending : list PendingInboxMessage) : IM (list ClaimedInboxMessage) :=
  match pending with
  | [] => mret []
  | item :: pending' =>
      moved ← m_try (rename_to_processing (pim_path item) (msg_id (pim_msg item)));
      match moved with
      | Ok lease =>
          claimed ← claim_loop pending';
          mret ({| cim_message := pim_msg item; cim_lease_id := Some lease |} :: claimed)
      | Err IoNotFound => claim_loop pending'
      | Err e => fail e
      end
  end.

Definition claim_pending (now : DateTime) : IM (list ClaimedInboxMessage) :=
  ok ← fs_step;
  if negb (ok : bool) then mret []
  else
    _ ← recover_stale_processing now;
    pending ← scan_unseen;
    claim_loop pending.
End reader.

(** ** Acknowledging and releasing *)

Definition set_handled (at_ : option DateTime) (m : InboxMessage) : InboxMessage :=
  {| msg_id := msg_id m; msg_kind := msg_kind m; msg_handled_at := at_ |}.

(** Read the message, write it as done, remove the file. *)
Definition finish (f : inbox_file) (id : InboxId) (now : DateTime) : IM unit :=
  msg ← read_message f;
  _ ← write_message (Done id) (set_handled (Some (Clock.truncate_to_second now)) msg) now;
  remove_file f.

Definition ack (id : InboxId) (now : DateTime) : IM unit :=
  active ← try_exists (Active id);
  _ ← (if (active : bool) then finish (Active id) id now else mret tt);
  mark_seen id.

Definition ack_claimed (c : ClaimedInboxMessage) (now : DateTime) : IM unit :=
  let id := msg_id (cim_message c) in
  match cim_lease_id c with
  | None => ack id now
  | Some processing =>
      leased ← try_exists processing;
      _ ← (if (leased : bool) then finish processing id now
           else done_ ← try_exists (Done id);
                if (done_ : bool) then mret tt else ack id now);
      mark_seen id
  end.

Definition release_claimed (c : ClaimedInboxMessage) : IM unit :=
  let id := msg_id (cim_message c) in
  match cim_lease_id c with
  | None => mret tt
  | Some processing =>
      done_ ← try_exists (Done id);
      if (done_ : bool) then
        leased ← try_exists processing;
        if (leased : bool) then remove_file processing else mret tt
      else
        leased ← try_exists processing;
        if negb (leased : bool) then mret tt
        else
          active ← try_exists (Active id);
          if (active : bool) then mret tt else rename processing (Active id)
  end.

(** ** Accepting a pulled message *)

Definition processing_of (id : InboxId) (f : inbox_file) : bool :=
  match f with Processing id' _ => bool_decide (id' = id) | _ => false end.

Definition processing_paths_for_id (id : InboxId) : IM (list inbox_file) :=
  names ← dir_names;
  _ ← for_each (λ _, io_ok) names;
  _ ← io_ok;
  mret (filter (λ f, processing_of id f = true) names).

Definition ensure_existing_inbox_snapshot (expected : InboxMessage) (path : inbox_file) : IM unit :=
  actual ← read_message path;
  if bool_decide (set_handled None actual = set_handled None expected) then mret tt
  else fail (SnapshotConflict (msg_id expected)).

Definition accept_pulled (msg : InboxMessage) (now : DateTime) : IM unit :=
  _ ← io_ok;
  done_ ← try_exists (Done (msg_id msg));
  active ← try_exists (Active (msg_id msg));
  leased ← processing_paths_for_id (msg_id msg);
  let existing := (if (done_ : bool) then [Done (msg_id msg)] else [])
                  ++ (if (active : bool) then [Active (msg_id msg)] else []) ++ leased in
  match existing with
  | [] => write_message (Active (msg_id msg)) msg now
  | _ => for_each (ensure_existing_inbox_snapshot msg) existing
  end.
