(* ===== verification/InboxProtocol.v ===== *)
(** * How the processes of an agent share its inbox directory

    The operations of InboxFiles, run by several processes at once, only move
    the directory along six transitions.  Each operation is proved to do so
    while the other processes do the same between any two of its file-system
    steps (a rely/guarantee argument), and the transitions are proved to keep
    every message. *)

From S2P Require Import Prelude Storage Claim Maintainer InboxFiles.

Section protocol.
(** The message that the Maintainer keeps under an id. *)
Context (origin : InboxId → InboxMessage).
(** Whether file-system steps may fail. *)
Context (faulty : bool).

Definition is_origin (id : InboxId) (m : InboxMessage) : Prop :=
  msg_id m = id ∧ set_handled None m = set_handled None (origin id).

Definition body_ok (id : InboxId) (b : inbox_body) : Prop :=
  ∃ m, ib_message b = Some m ∧ is_origin id m.

Definition dir_ok (d : InboxDir) : Prop :=
  (∀ f b, id_files d !! f = Some b → body_ok (file_id f) b) ∧
  (∀ id n, is_Some (id_files d !! Processing id n) → n < id_next_lease d).

Definition held (id : InboxId) (d : InboxDir) : Prop :=
  ∃ f, file_id f = id ∧ is_Some (id_files d !! f).

Definition finished (id : InboxId) (d : InboxDir) : Prop := is_Some (id_files d !! Done id).

(** A leased file that is not the only trace of its message. *)
Definition superseded (id : InboxId) (n : nat) (d : InboxDir) : Prop :=
  n < id_next_lease d ∧
  (finished id d ∨ is_Some (id_files d !! Active id) ∨
   ∃ n', n < n' ∧ is_Some (id_files d !! Processing id n')).

Inductive inbox_move : InboxDir → InboxDir → Prop :=
| move_accept id b d : body_ok id b → inbox_move d (put_file (Active id) b d)
| move_finish id b d : body_ok id b → inbox_move d (put_file (Done id) b d)
| move_clean f d : finished (file_id f) d → (∀ id, f ≠ Done id) → inbox_move d (drop_file f d)
| move_supersede id n d : superseded id n d → inbox_move d (drop_file (Processing id n) d)
| move_restore id n b d :
    id_files d !! Processing id n = Some b →
    inbox_move d (move_file (Processing id n) (Active id) b d)
| move_lease id b d :
    id_files d !! Active id = Some b →
    inbox_move d {| id_files := <[Processing id (id_next_lease d) := b]>
                                  (delete (Active id) (id_files d));
                    id_next_lease := S (id_next_lease d) |}.

(** ** What the transitions keep *)

Definition stable (P : InboxDir → Prop) : Prop :=
  ∀ d d', dir_ok d → inbox_move d d' → P d → P d'.

Lemma lookup_put f g b d :
  is_Some (id_files (put_file f b d) !! g) ↔ f = g ∨ is_Some (id_files d !! g).
Proof. unfold put_file, set_files. simpl. rewrite lookup_insert_is_Some. destruct (decide (f = g)); naive_solver. Qed.

Lemma lookup_drop f g d :
  is_Some (id_files (drop_file f d) !! g) ↔ f ≠ g ∧ is_Some (id_files d !! g).
Proof. unfold drop_file, set_files. simpl. apply lookup_delete_is_Some. Qed.

Lemma lookup_move f g h b d :
  is_Some (id_files (move_file f g b d) !! h) ↔ g = h ∨ f ≠ h ∧ is_Some (id_files d !! h).
Proof.
  unfold move_file, set_files. simpl. rewrite lookup_insert_is_Some, lookup_delete_is_Some.
  destruct (decide (g = h)); naive_solver.
Qed.

Lemma move_ok : stable dir_ok.
Proof.
  intros d d' _ Hmove [Hb Hn]. destruct Hmove as [id b d Hg|id b d Hg|f d _ _|id n d _|id n b d Hf|id b d Hf];
    split.
  - intros g c. simpl. rewrite lookup_insert_Some. intros [[<- <-]|[_ Hc]]; [done|by apply Hb].
  - intros i n. rewrite lookup_put. intros [[=]|H]; by eapply Hn.
  - intros g c. simpl. rewrite lookup_insert_Some. intros [[<- <-]|[_ Hc]]; [done|by apply Hb].
  - intros i n. rewrite lookup_put. intros [[=]|H]; by eapply Hn.
  - intros g c. simpl. rewrite lookup_delete_Some. intros [_ Hc]. by apply Hb.
  - intros i n. rewrite lookup_drop. intros [_ H]. by eapply Hn.
  - intros g c. simpl. rewrite lookup_delete_Some. intros [_ Hc]. by apply Hb.
  - intros i k. rewrite lookup_drop. intros [_ H]. by eapply Hn.
  - intros g c. simpl. rewrite lookup_insert_Some, lookup_delete_Some.
    intros [[<- <-]|(_ & _ & Hc)]; [apply (Hb _ _ Hf)|by apply Hb].
  - intros i k. rewrite lookup_move. intros [[=]|[_ H]]; by eapply Hn.
  - intros g c. simpl. rewrite lookup_insert_Some, lookup_delete_Some.
    intros [[<- <-]|(_ & _ & Hc)]; [apply (Hb _ _ Hf)|by apply Hb].
  - intros i k. simpl. rewrite lookup_insert_is_Some, lookup_delete_is_Some.
    intros [[= <- <-]|(_ & _ & H)]; [lia|]. apply Hn in H. lia.
Qed.

Lemma next_stable n : stable (λ d, n < id_next_lease d).
Proof. intros d d' _ Hmove Hn. destruct Hmove; simpl in *; lia. Qed.

Lemma finished_stable id : stable (finished id).
Proof.
  unfold finished. intros d d' _ Hmove Hn. destruct Hmove as [i b d Hg|i b d Hg|f d _ Hf|i n d _|i n b d Hf|i b d Hf].
  - apply lookup_put. auto.
  - apply lookup_put. auto.
  - apply lookup_drop. auto.
  - apply lookup_drop. split; [discriminate|done].
  - apply lookup_move. right. split; [discriminate|done].
  - simpl. rewrite lookup_insert_is_Some, lookup_delete_is_Some. right. repeat (split; [discriminate|]). done.
Qed.

Lemma superseded_stable id n : stable (superseded id n).
Proof.
  intros d d' Hok Hmove [Hn Hs]. split; [by eapply next_stable|].
  destruct (decide (finished id d')) as [|Hnf]; [by left|right].
  assert (¬ finished id d) as Hnf' by (intros H; apply Hnf; by eapply finished_stable).
  destruct Hs as [?|Hs]; [done|].
  destruct Hmove as [i b d Hg|i b d Hg|f d Hf Hnd|i k d [Hk Hs']|i k b d Hf|i b d Hf].
  - destruct Hs as [Ha|(n' & Hlt & Hp)]; [left|right; exists n'; split; [done|]]; apply lookup_put; auto.
  - destruct Hs as [Ha|(n' & Hlt & Hp)]; [left|right; exists n'; split; [done|]]; apply lookup_put; auto.
  - destruct Hs as [Ha|(n' & Hlt & Hp)]; [left|right; exists n'; split; [done|]]; apply lookup_drop;
      (split; [|done]); by intros ->.
  - destruct Hs as [Ha|(n' & Hlt & Hp)]; [left; apply lookup_drop; split; [discriminate|done]|].
    destruct (decide (Processing i k = Processing id n')) as [[= -> ->]|Hne].
    + destruct Hs' as [?|[Ha|(n'' & Hlt' & Hp')]]; [done| |].
      * left. apply lookup_drop. split; [discriminate|done].
      * right. exists n''. split; [lia|]. apply lookup_drop. split; [intros [=]; lia|done].
    + right. exists n'. split; [done|]. by apply lookup_drop.
  - destruct Hs as [Ha|(n' & Hlt & Hp)]; [left; apply lookup_move; right; split; [discriminate|done]|].
    destruct (decide (Processing i k = Processing id n')) as [[= -> ->]|Hne].
    + left. apply lookup_move. by left.
    + right. exists n'. split; [done|]. apply lookup_move. auto.
  - simpl. destruct Hs as [Ha|(n' & Hlt & Hp)].
    + destruct (decide (i = id)) as [->|Hne].
      * right. exists (id_next_lease d). split; [done|]. by rewrite lookup_insert_eq.
      * left. rewrite lookup_insert_is_Some, lookup_delete_is_Some. right. split; [discriminate|].
        split; [congruence|done].
    + right. exists n'. split; [done|]. rewrite lookup_insert_is_Some, lookup_delete_is_Some.
      destruct (decide (Processing i (id_next_lease d) = Processing id n')); [by left|right].
      split; [done|]. split; [discriminate|done].
Qed.

Lemma held_stable id : stable (held id).
Proof.
  intros d d' Hok Hmove (f & Hid & Hf).
  destruct Hmove as [i b d Hg|i b d Hg|g d Hfin Hnd|i n d (Hn & Hs)|i n b d Hfile|i b d Hfile].
  - exists f. split; [done|]. apply lookup_put. auto.
  - exists f. split; [done|]. apply lookup_put. auto.
  - destruct (decide (g = f)) as [->|Hne].
    + exists (Done (file_id f)). split; [done|]. apply lookup_drop. auto.
    + exists f. split; [done|]. by apply lookup_drop.
  - destruct (decide (Processing i n = f)) as [<-|Hne].
    + simpl in Hid. subst i. destruct Hs as [Hfin|[Ha|(n' & Hlt & Hp)]];
        [exists (Done id)|exists (Active id)|exists (Processing id n')]; (split; [done|]); apply lookup_drop;
        (split; [|done]); intros [=]; lia.
    + exists f. split; [done|]. by apply lookup_drop.
  - destruct (decide (Processing i n = f)) as [<-|Hne].
    + exists (Active i). split; [done|]. apply lookup_move. auto.
    + exists f. split; [done|]. apply lookup_move. auto.
  - destruct (decide (Active i = f)) as [<-|Hne].
    + exists (Processing i (id_next_lease d)). split; [done|]. simpl. by rewrite lookup_insert_eq.
    + exists f. split; [done|]. simpl. rewrite lookup_insert_is_Some, lookup_delete_is_Some.
      destruct (decide (Processing i (id_next_lease d) = f)); auto.
Qed.

Lemma stable_conj P Q : stable P → stable Q → stable (λ d, P d ∧ Q d).
Proof. intros HP HQ d d' Hok Hm [? ?]. split; [by eapply HP|by eapply HQ]. Qed.

Lemma stable_pure (P : Prop) : stable (λ _, P).
Proof. by intros d d' _ _. Qed.

Lemma stable_Forall {A} (P : A → InboxDir → Prop) l :
  (∀ x, stable (P x)) → stable (λ d, Forall (λ x, P x d) l).
Proof.
  intros HP d d' Hok Hm Hl. eapply Forall_impl; [exact Hl|]. intros x. by eapply HP.
Qed.

Lemma stable_moves P d d' : stable P → dir_ok d → rtc inbox_move d d' → P d → dir_ok d' ∧ P d'.
Proof.
  intros HP Hok Hm. induction Hm as [|d1 d2 d3 H12 _ IH]; [done|]. intros Hp.
  apply IH; [by eapply move_ok|by eapply HP].
Qed.
Lemma moves_ok d d' : dir_ok d → rtc inbox_move d d' → dir_ok d'.
Proof. intros Hok Hm. by destruct (stable_moves (λ _, True) d d' (stable_pure True) Hok Hm I). Qed.

Lemma moves_keep P d d' : stable P → dir_ok d → rtc inbox_move d d' → P d → P d'.
Proof. intros HP Hok Hm Hp. by destruct (stable_moves P d d' HP Hok Hm Hp). Qed.

(** ** A logic for operations that run among others *)

Definition rely_ok (script : list inbox_event) : Prop :=
  Forall (λ e, (faulty = false → ev_fails e = false) ∧
    ∀ d, dir_ok d → rtc inbox_move d (ev_others e d)) script.

Definition safe {A} (P : InboxDir → Prop) (m : IM A) (Q : A → InboxDir → Prop) : Prop :=
  ∀ w r w', rely_ok (ir_script w) → dir_ok (ir_dir w) → P (ir_dir w) → m w = (r, w') →
    rtc inbox_move (ir_dir w) (ir_dir w') ∧ rely_ok (ir_script w') ∧
    ∀ a, r = Ok a → Q a (ir_dir w').

Lemma safe_ret {A} (a : A) P (Q : A → InboxDir → Prop) : (∀ d, P d → Q a d) → safe P (mret a) Q.
Proof. intros HQ w r w' Hr _ Hp [= <- <-]. split; [done|]. split; [done|]. intros ? [= <-]. auto. Qed.

Lemma safe_fail {A} e P (Q : A → InboxDir → Prop) : safe P (fail e) Q.
Proof. intros w r w' Hr _ _ [= <- <-]. done. Qed.

Lemma safe_bind {A B} (m : IM A) (f : A → IM B) P Q R :
  safe P m Q → (∀ a, safe (Q a) (f a) R) → safe P (m ≫= f) R.
Proof.
  intros Hm Hf w r w' Hr Hok Hp [(a & w1 & H1 & H2)|(e & H1 & ->)]%bind_cases.
  - destruct (Hm _ _ _ Hr Hok Hp H1) as (Hs & Hr1 & HQ). specialize (HQ a eq_refl).
    assert (dir_ok (ir_dir w1)) as Hok1 by by eapply moves_ok.
    destruct (Hf a _ _ _ Hr1 Hok1 HQ H2) as (Hs2 & Hr2 & HR). split; [by etrans|done].
  - destruct (Hm _ _ _ Hr Hok Hp H1) as (Hs & Hr1 & _). done.
Qed.

Lemma safe_pre {A} (P P' : InboxDir → Prop) (m : IM A) Q : (∀ d, P d → P' d) → safe P' m Q → safe P m Q.
Proof. intros HP Hm w r w' Hr Hok Hp. apply Hm; auto. Qed.

Lemma safe_both {A} P (m : IM A) Q Q' :
  safe P m Q → safe P m Q' → safe P m (λ a d, Q a d ∧ Q' a d).
Proof.
  intros HQ HQ' w r w' Hr Hok Hp E. destruct (HQ _ _ _ Hr Hok Hp E) as (? & ? & ?).
  destruct (HQ' _ _ _ Hr Hok Hp E) as (_ & _ & ?). split; [done|]. split; [done|]. auto.
Qed.

Lemma safe_pure {A} (φ : Prop) P (m : IM A) Q : (φ → safe P m Q) → safe (λ d, P d ∧ φ) m Q.
Proof. intros Hm w r w' Hr Hok [Hp Hφ]. by apply Hm. Qed.

Lemma safe_post {A} P (m : IM A) (Q Q' : A → InboxDir → Prop) :
  (∀ a d, Q' a d → Q a d) → safe P m Q' → safe P m Q.
Proof.
  intros HQ Hm w r w' Hr Hok Hp E. destruct (Hm _ _ _ Hr Hok Hp E) as (? & ? & H). naive_solver.
Qed.

(** What is stable survives whatever the operation does. *)
Lemma safe_frame {A} (R : InboxDir → Prop) P (m : IM A) Q :
  stable R → safe P m Q → safe (λ d, P d ∧ R d) m (λ a d, Q a d ∧ R d).
Proof.
  intros HR Hm w r w' Hr Hok [Hp HRd] E. destruct (Hm _ _ _ Hr Hok Hp E) as (Hs & ? & HQ).
  split; [done|]. split; [done|]. intros a Ha. split; [auto|]. by eapply moves_keep.
Qed.

Lemma safe_try {A} P (m : IM A) Q (R : Result InboxError A → InboxDir → Prop) :
  stable P → safe P m Q → (∀ a d, Q a d → R (Ok a) d) → (∀ e d, P d → R (Err e) d) →
  safe P (m_try m) R.
Proof.
  intros HP Hm HOk HErr w r w' Hr Hok Hp. unfold m_try. destruct (m w) as [r0 w0] eqn:E.
  intros [= <- <-]. destruct (Hm _ _ _ Hr Hok Hp E) as (Hs & ? & HQ). split; [done|]. split; [done|].
  intros a [= <-]. destruct r0 as [a|e]; [by apply HOk, HQ|].
  apply HErr. by eapply moves_keep.
Qed.

(** ** The file-system steps *)

Lemma safe_fs_step P : stable P → safe P fs_step (λ ok d, P d ∧ (faulty = false → ok = true)).
Proof.
  intros HP w r w' Hr Hok Hp. unfold fs_step. destruct (ir_script w) as [|e es] eqn:Es.
  - intros [= <- <-]. rewrite Es. split; [done|]. split; [done|]. by intros a [= <-].
  - intros [= <- <-]. simpl. inversion Hr as [|? ? [Hf He] Hes]; subst. specialize (He _ Hok).
    split; [done|]. split; [done|]. intros a [= <-]. split; [by eapply moves_keep|].
    intros Hff. by rewrite (Hf Hff).
Qed.

Lemma safe_io_ok P : stable P → safe P io_ok (λ _ d, P d).
Proof.
  intros HP. eapply safe_bind; [by apply safe_fs_step|]. intros [];
    [apply safe_ret; naive_solver|apply safe_fail].
Qed.

Lemma safe_gets {A} (f : LocalFsInboxReader → A) P (Q : A → InboxDir → Prop) :
  (∀ w, P (ir_dir w) → Q (f w) (ir_dir w)) → safe P (gets f) Q.
Proof. intros HQ w r w' Hr Hok Hp [= <- <-]. split; [done|]. split; [done|]. intros a [= <-]. auto. Qed.

Lemma safe_look f P : safe P (look f) (λ b d, P d ∧ id_files d !! f = b).
Proof. apply safe_gets. auto. Qed.

Lemma safe_on_dir f P (Q : unit → InboxDir → Prop) :
  (∀ d, dir_ok d → P d → inbox_move d (f d) ∧ Q tt (f d)) → safe P (on_dir f) Q.
Proof.
  intros HQ w r w' Hr Hok Hp [= <- <-]. simpl. destruct (HQ _ Hok Hp) as [? ?].
  split; [by apply rtc_once|]. split; [done|]. by intros [] _.
Qed.

(** [P] with what holds because the directory is well formed. *)
Lemma safe_ok {A} P (m : IM A) Q : safe (λ d, P d ∧ dir_ok d) m Q → safe P m Q.
Proof. intros Hm w r w' Hr Hok Hp. by apply Hm. Qed.

Lemma safe_try_exists_exact f P : stable P →
  safe P (try_exists f) (λ b d, P d ∧ (b = true → is_Some (id_files d !! f)) ∧
    (faulty = false → b = false → id_files d !! f = None)).
Proof.
  intros HP. eapply safe_bind; [by apply safe_fs_step|]. intros ok.
  eapply safe_bind; [apply safe_look|]. intros b. apply safe_ret. intros d [[Hp Hf] Hb].
  split; [done|]. subst b. split.
  - intros [_ ?%bool_decide_eq_true_1]%andb_prop. done.
  - intros Hff. rewrite (Hf Hff). simpl. rewrite bool_decide_eq_false. apply eq_None_not_Some.
Qed.

Lemma safe_try_exists f P : stable P →
  safe P (try_exists f) (λ b d, P d ∧ (b = true → is_Some (id_files d !! f))).
Proof. intros HP. eapply safe_post; [|by apply safe_try_exists_exact]. naive_solver. Qed.

Lemma safe_read_message f P : stable P →
  safe P (read_message f) (λ m d, P d ∧ is_origin (file_id f) m).
Proof.
  intros HP. eapply safe_bind; [by apply safe_io_ok|]. intros ?. apply safe_ok.
  eapply safe_bind; [apply safe_look|]. intros [b|]; [|apply safe_fail].
  destruct (ib_message b) as [m|] eqn:Em; [|apply safe_fail].
  apply safe_ret. intros d [[Hp [Hok _]] Hb]. split; [done|].
  destruct (Hok _ _ Hb) as (m' & Hm' & Ho). congruence.
Qed.

Lemma safe_metadata f P : stable P → safe P (metadata f) (λ _ d, P d).
Proof.
  intros HP. eapply safe_bind; [by apply safe_io_ok|]. intros ?.
  eapply safe_bind; [apply safe_look|]. intros [b|]; [|apply safe_fail]. apply safe_ret. naive_solver.
Qed.

Lemma safe_write_message f m now P :
  stable P → is_origin (file_id f) m → (∀ id n, f ≠ Processing id n) →
  safe P (write_message f m now) (λ _ d, P d ∧ is_Some (id_files d !! f)).
Proof.
  intros HP Ho Hf. eapply safe_bind; [by apply safe_io_ok|]. intros ?.
  apply safe_on_dir. intros d Hok Hp.
  assert (inbox_move d (put_file f {| ib_modified := now; ib_message := Some m |} d)) as Hm.
  { destruct f as [id|id|id n]; [apply move_accept|apply move_finish|by destruct (Hf id n)]; by exists m. }
  split; [done|]. split; [by eapply HP|]. apply lookup_put. by left.
Qed.

(** What justifies removing a file. *)
Definition removable (f : inbox_file) (d : InboxDir) : Prop :=
  match f with
  | Active id => finished id d
  | Processing id n => finished id d ∨ superseded id n d
  | Done _ => False
  end.

Lemma removable_stable f : stable (removable f).
Proof.
  destruct f as [id|id|id n]; simpl; [apply finished_stable|apply stable_pure|].
  intros d d' Hok Hm [?|?]; [left; by eapply finished_stable|right; by eapply superseded_stable].
Qed.

Lemma safe_remove_file f P : stable P →
  safe (λ d, P d ∧ removable f d) (remove_file f) (λ _ d, P d).
Proof.
  intros HP. eapply safe_bind; [by apply safe_io_ok, stable_conj, removable_stable|]. intros ?.
  eapply safe_bind; [apply safe_look|]. intros [b|]; [|apply safe_fail].
  apply safe_on_dir. intros d Hok [[Hp Hr] _].
  assert (inbox_move d (drop_file f d)) as Hm.
  { destruct f as [id|id|id n]; simpl in Hr; [by apply move_clean|done|].
    destruct Hr as [Hr|Hr]; [by apply move_clean|by apply move_supersede]. }
  split; [done|by eapply HP].
Qed.

Lemma safe_restore id n P : stable P →
  safe P (rename (Processing id n) (Active id)) (λ _ d, P d).
Proof.
  intros HP. eapply safe_bind; [by apply safe_io_ok|]. intros ?.
  eapply safe_bind; [apply safe_look|]. intros [b|]; [|apply safe_fail].
  apply safe_on_dir. intros d Hok [Hp Hb].
  assert (inbox_move d (move_file (Processing id n) (Active id) b d)) as Hm by by apply move_restore.
  split; [done|by eapply HP].
Qed.

Definition lease_of (id : InboxId) (f : inbox_file) : Prop := ∃ n, f = Processing id n.

Lemma safe_lease id P : stable P →
  safe P (rename_to_processing (Active id) id) (λ f d, P d ∧ lease_of id f).
Proof.
  intros HP. eapply safe_bind; [by apply safe_io_ok|]. intros ?.
  eapply safe_bind; [apply safe_look|]. intros [b|]; [|apply safe_fail].
  eapply safe_bind; [apply (safe_gets _ _ (λ n d, (P d ∧ id_files d !! Active id = Some b) ∧ n = id_next_lease d)); auto|].
  intros n. eapply safe_bind; [apply (safe_on_dir _ _ (λ _ d, P d))|].
  - intros d Hok [[Hp Hb] ->]. pose proof (move_lease id b d Hb) as Hm. split; [done|by eapply HP].
  - intros ?. apply safe_ret. intros d Hp. split; [done|by exists n].
Qed.

(** A name seen in the directory. *)
Definition known (f : inbox_file) (d : InboxDir) : Prop :=
  match f with Processing _ n => n < id_next_lease d | _ => True end ∧ held (file_id f) d.

Lemma known_stable f : stable (known f).
Proof.
  apply stable_conj; [|apply held_stable]. destruct f; [apply stable_pure..|apply next_stable].
Qed.

Lemma safe_dir_names P : stable P →
  safe P dir_names (λ names d, P d ∧ Forall (λ f, known f d) names).
Proof.
  intros HP. eapply safe_bind; [by apply safe_io_ok|]. intros ?. apply safe_ok.
  apply safe_gets. intros w [Hp [_ Hn]]. split; [done|].
  apply Forall_fmap, Forall_forall. intros [f b] Hin%elem_of_map_to_list. simpl.
  split; [|by exists f]. destruct f; [done..|]. by eapply Hn.
Qed.

Lemma safe_for_each {A} (f : A → IM unit) l P :
  (∀ x, x ∈ l → safe P (f x) (λ _ d, P d)) → safe P (for_each f l) (λ _ d, P d).
Proof.
  induction l as [|x l IH]; intros Hf; simpl; [by apply safe_ret|].
  eapply safe_bind; [apply Hf; set_solver|]. intros ?. apply IH. intros y Hy. apply Hf. set_solver.
Qed.

(** ** The operations *)

Lemma safe_mark_seen id P : safe P (mark_seen id) (λ _ d, P d).
Proof. intros w r w' Hr _ Hp [= <- <-]. done. Qed.

Definition item_ok (i : PendingInboxMessage) : Prop :=
  pim_path i = Active (msg_id (pim_msg i)) ∧ is_origin (msg_id (pim_msg i)) (pim_msg i).

Lemma safe_scan_pending names P : stable P →
  safe P (scan_pending names) (λ items d, P d ∧ Forall item_ok items).
Proof.
  intros HP. induction names as [|path names IH]; simpl.
  - eapply safe_bind; [by apply safe_io_ok|]. intros ?. by apply safe_ret.
  - eapply safe_bind; [by apply safe_io_ok|]. intros ?. destruct path as [id|id|id n]; simpl; [|apply IH..].
    eapply safe_bind; [by apply safe_read_message|]. intros m. simpl.
    eapply safe_bind; [by apply safe_try_exists, stable_conj, stable_pure|]. intros done_.
    destruct done_.
    + eapply safe_bind; [|intros ?; apply IH].
      eapply safe_pre; [|by apply safe_remove_file]. intros d ([Hp [Hid _]] & Hd). split; [done|].
      simpl. rewrite <-Hid. by apply Hd.
    + eapply safe_pre; [intros d H; exact (proj1 H)|].
      eapply safe_bind; [by apply safe_metadata, stable_conj, stable_pure|]. intros at_.
      eapply safe_bind; [apply safe_frame; [apply stable_pure|apply IH]|]. intros items.
      apply safe_ret. intros d [[Hp Hitems] [Hid Ho]]. split; [done|]. constructor; [|done].
      split; simpl; [by rewrite Hid|]. rewrite Hid. done.
Qed.

Lemma safe_scan_unseen P : stable P →
  safe P scan_unseen (λ items d, P d ∧ Forall item_ok items).
Proof.
  intros HP. eapply safe_bind; [by apply safe_dir_names|]. intros names.
  eapply safe_bind.
  { eapply safe_pre; [intros d H; exact (proj1 H)|]. by apply safe_scan_pending. }
  intros items. eapply safe_bind.
  { apply (safe_gets _ _ (λ _ d, P d ∧ Forall item_ok items)). auto. }
  intros seen. apply safe_ret. intros d [Hp Hi]. split; [done|].
  apply Forall_forall. intros i [_ Hin%elem_of_sort_by]%list_elem_of_filter.
  by eapply Forall_forall in Hi.
Qed.

Lemma safe_recover_loop stale now names P : stable P →
  safe (λ d, P d ∧ Forall (λ f, known f d) names) (recover_loop stale now names) (λ _ d, P d).
Proof.
  intros HP. induction names as [|path names IH]; simpl.
  { eapply safe_pre; [|by apply safe_io_ok]. naive_solver. }
  set (P' := λ d, P d ∧ Forall (λ f, known f d) names).
  assert (stable P') as HP' by by apply stable_conj, stable_Forall, known_stable.
  assert (stable (λ d, P' d ∧ known path d)) as HPk by by apply stable_conj, known_stable.
  apply (safe_pre _ (λ d, P' d ∧ known path d)).
  { intros d [Hp Hk]. inversion Hk; subst. split; [split|]; assumption. }
  eapply safe_bind; [by apply safe_io_ok|]. intros ?.
  assert (∀ Q : InboxDir → Prop, (∀ d, Q d → P' d) → safe Q (recover_loop stale now names) (λ _ d, P d)) as Hnext.
  { intros Q HQ. eapply safe_pre; [exact HQ|exact IH]. }
  destruct path as [id|id|id n]; simpl; [apply Hnext; naive_solver..|].
  eapply safe_bind; [by apply safe_metadata|]. intros modified.
  destruct (is_fresh stale modified now); [apply Hnext; naive_solver|].
  eapply safe_bind.
  { eapply (safe_try _ _ _ (λ r d, (P' d ∧ known (Processing id n) d) ∧
      (∀ m, r = Ok m → is_origin id m))); [exact HPk|by apply safe_read_message| |]; naive_solver. }
  intros [m|e]; [|apply Hnext; naive_solver].
  eapply (safe_pre _ (λ d, (P' d ∧ known (Processing id n) d) ∧ is_origin id m)); [naive_solver|].
  apply safe_pure. intros [Hid Ho]. rewrite Hid.
  eapply safe_bind; [by apply safe_try_exists|]. intros [].
  { eapply safe_bind; [|intros ?; apply Hnext; intros d H; exact H].
    eapply safe_pre; [|by apply safe_remove_file].
    intros d [[Hp _] Hd]. split; [done|]. left. by apply Hd. }
  eapply safe_pre; [intros d H; exact (proj1 H)|].
  eapply safe_bind; [by apply safe_try_exists|]. intros [].
  { eapply safe_bind; [|intros ?; apply Hnext; intros d H; exact H].
    eapply safe_pre; [|by apply safe_remove_file].
    intros d [[Hp [Hn _]] Ha]. split; [done|]. right. split; [done|]. right. left. by apply Ha. }
  eapply safe_pre; [intros d H; exact (proj1 (proj1 H))|].
  eapply safe_bind.
  { eapply (safe_try _ _ _ (λ _ d, P' d)); [exact HP'|by apply safe_restore| |]; auto. }
  intros [?|[]]; [by apply Hnext|apply safe_fail|by apply Hnext|apply safe_fail..].
Qed.

Definition claim_ok (c : ClaimedInboxMessage) : Prop :=
  is_origin (msg_id (cim_message c)) (cim_message c) ∧
  ∀ f, cim_lease_id c = Some f → lease_of (msg_id (cim_message c)) f.

Lemma safe_claim_loop pending P : stable P → Forall item_ok pending →
  safe P (claim_loop pending) (λ cs d, P d ∧ Forall claim_ok cs).
Proof.
  intros HP. induction pending as [|item pending IH]; intros Hok; simpl; [by apply safe_ret|].
  inversion Hok as [|? ? [Hpath Ho] Hrest]; subst. rewrite Hpath.
  eapply safe_bind.
  { eapply (safe_try _ _ _ (λ r d, P d ∧ ∀ f, r = Ok f → lease_of (msg_id (pim_msg item)) f));
      [exact HP|by apply safe_lease| |]; naive_solver. }
  assert (∀ Q : InboxDir → Prop, (∀ d, Q d → P d) →
    safe Q (claim_loop pending) (λ cs d, P d ∧ Forall claim_ok cs)) as Hnext.
  { intros Q HQ. eapply safe_pre; [exact HQ|by apply IH]. }
  intros [f|[]]; [|apply safe_fail|apply Hnext; naive_solver|apply safe_fail..].
  apply safe_pure. intros Hf. eapply safe_bind; [by apply Hnext|]. intros claimed.
  apply safe_ret. intros d [Hp Hc]. split; [done|]. constructor; [|done].
  split; [done|]. simpl. intros g [= <-]. by apply Hf.
Qed.

Lemma safe_recover_stale stale now P : stable P → safe P (recover_stale_processing stale now) (λ _ d, P d).
Proof.
  intros HP. eapply safe_bind; [by apply safe_dir_names|]. intros names. by apply safe_recover_loop.
Qed.

Lemma safe_claim_pending stale now P : stable P →
  safe P (claim_pending stale now) (λ cs d, P d ∧ Forall claim_ok cs).
Proof.
  intros HP. eapply safe_bind; [by apply safe_fs_step|]. intros ok.
  eapply safe_pre; [intros d H; exact (proj1 H)|]. destruct ok.
  - eapply safe_bind; [by apply safe_recover_stale|]. intros ?.
    eapply safe_bind; [by apply safe_scan_unseen|]. intros pending.
    apply safe_pure. intros Hitems. by apply safe_claim_loop.
  - apply safe_ret. intros d Hp. by split.
Qed.

Lemma safe_list_pending P : stable P → safe P list_pending (λ _ d, P d).
Proof.
  intros HP. eapply safe_bind; [by apply safe_fs_step|]. intros ok.
  eapply safe_pre; [intros d H; exact (proj1 H)|]. destruct ok.
  - eapply safe_bind; [by apply safe_scan_unseen|]. intros pending. apply safe_ret. naive_solver.
  - by apply safe_ret.
Qed.

(** Every file but a finished one may be finished. *)
Lemma safe_finish f id now P : stable P → file_id f = id → (∀ i, f ≠ Done i) →
  safe P (finish f id now) (λ _ d, P d ∧ finished id d).
Proof.
  intros HP Hid Hf. eapply safe_bind; [by apply safe_read_message|]. intros m. rewrite Hid.
  apply safe_pure. intros [Hm Ho].
  eapply safe_bind; [apply safe_write_message; [done| |discriminate]|].
  - split; [done|]. simpl. by rewrite <-Ho.
  - intros ?. assert (stable (λ d, P d ∧ finished id d)) as HP' by by apply stable_conj, finished_stable.
    eapply safe_pre; [|by apply safe_remove_file]. intros d [Hp Hd]. split; [by split|].
    destruct f as [i|i|i n]; simpl in *; subst i; [done|by destruct (Hf id)|by left].
Qed.

Lemma safe_ack id now P : stable P → safe P (ack id now) (λ _ d, P d).
Proof.
  intros HP. eapply safe_bind; [by apply safe_try_exists|]. intros active.
  eapply safe_bind; [|intros ?; apply safe_mark_seen].
  eapply safe_pre; [intros d H; exact (proj1 H)|].
  destruct active; [|by apply safe_ret].
  eapply safe_post; [|by apply safe_finish]. naive_solver.
Qed.

Lemma safe_ack_claimed c now P : stable P → claim_ok c → safe P (ack_claimed c now) (λ _ d, P d).
Proof.
  intros HP [_ Hc]. unfold ack_claimed. destruct (cim_lease_id c) as [f|]; [|by apply safe_ack].
  destruct (Hc f eq_refl) as [n ->].
  eapply safe_bind; [by apply safe_try_exists|]. intros leased.
  eapply safe_bind; [|intros ?; apply safe_mark_seen].
  eapply safe_pre; [intros d H; exact (proj1 H)|].
  destruct leased; [eapply safe_post; [|by apply safe_finish]; naive_solver|].
  eapply safe_bind; [by apply safe_try_exists|]. intros done_.
  eapply safe_pre; [intros d H; exact (proj1 H)|].
  destruct done_; [by apply safe_ret|by apply safe_ack].
Qed.

Lemma safe_release_claimed c P : stable P → claim_ok c → safe P (release_claimed c) (λ _ d, P d).
Proof.
  intros HP [_ Hc]. unfold release_claimed. destruct (cim_lease_id c) as [f|]; [|by apply safe_ret].
  destruct (Hc f eq_refl) as [n ->]. set (id := msg_id (cim_message c)) in *.
  eapply safe_bind; [by apply safe_try_exists|]. intros [].
  - apply (safe_pre _ (λ d, P d ∧ finished id d)); [naive_solver|].
    assert (stable (λ d, P d ∧ finished id d)) as HP' by by apply stable_conj, finished_stable.
    eapply safe_bind; [by apply safe_try_exists|]. intros [].
    + eapply safe_pre; [|by apply safe_remove_file]. intros d [[Hp Hd] _]. split; [done|by left].
    + apply safe_ret. naive_solver.
  - eapply safe_pre; [intros d H; exact (proj1 H)|].
    eapply safe_bind; [by apply safe_try_exists|]. intros [];
      (eapply safe_pre; [intros d H; exact (proj1 H)|]); [|by apply safe_ret].
    eapply safe_bind; [by apply safe_try_exists|]. intros [];
      (eapply safe_pre; [intros d H; exact (proj1 H)|]); [by apply safe_ret|by apply safe_restore].
Qed.

Lemma safe_processing_paths id P : stable P →
  safe P (processing_paths_for_id id) (λ l d, P d ∧ (l ≠ [] → held id d)).
Proof.
  intros HP. eapply safe_bind; [by apply safe_dir_names|]. intros names.
  assert (stable (λ d, P d ∧ Forall (λ f, known f d) names)) as HP'
    by by apply stable_conj, stable_Forall, known_stable.
  eapply safe_bind; [apply safe_for_each; intros ? _; exact (safe_io_ok _ HP')|]. intros ?.
  eapply safe_bind; [by apply safe_io_ok|]. intros ?. apply safe_ret. intros d [Hp Hk]. split; [done|].
  intros Hne. destruct (filter _ names) as [|f l] eqn:Ef; [done|].
  assert (f ∈ filter (λ f, processing_of id f = true) names) as Hin by (rewrite Ef; set_solver).
  apply list_elem_of_filter in Hin as [Hpo Hin]. eapply Forall_forall in Hk as [_ Hh]; [|exact Hin].
  destruct f as [| |i n]; try done. simpl in Hpo. apply bool_decide_eq_true in Hpo. by subst i.
Qed.

(** A message that has been accepted is in the directory. *)
Lemma safe_accept_pulled m now P : stable P → is_origin (msg_id m) m →
  safe P (accept_pulled m now) (λ _ d, P d ∧ held (msg_id m) d).
Proof.
  intros HP Ho. set (id := msg_id m).
  eapply safe_bind; [by apply safe_io_ok|]. intros ?.
  eapply safe_bind; [by apply safe_try_exists|]. intros done_.
  apply (safe_pre _ (λ d, P d ∧ (done_ = true → held id d))).
  { intros d [Hp Hd]. split; [done|]. intros E. exists (Done id). auto. }
  assert (stable (λ d, P d ∧ (done_ = true → held id d))) as HP1.
  { apply stable_conj; [done|]. intros d d' Hok Hm Hh E. eapply held_stable; eauto. }
  eapply safe_bind; [by apply safe_try_exists|]. intros active.
  apply (safe_pre _ (λ d, (P d ∧ (done_ = true → held id d)) ∧ (active = true → held id d))).
  { intros d [Hp Hd]. split; [done|]. intros E. exists (Active id). auto. }
  assert (stable (λ d, (P d ∧ (done_ = true → held id d)) ∧ (active = true → held id d))) as HP2.
  { apply stable_conj; [done|]. intros d d' Hok Hm Hh E. eapply held_stable; eauto. }
  eapply safe_bind; [by apply safe_processing_paths|]. intros leased.
  cbv zeta. fold id. set (existing := (if done_ then [Done id] else []) ++ (if active then [Active id] else []) ++ leased).
  apply (safe_pre _ (λ d, P d ∧ (existing ≠ [] → held id d))).
  { intros d [[[Hp H1] H2] H3]. split; [done|]. unfold existing.
    destruct done_; [auto|]. destruct active; [auto|]. done. }
  assert (stable (λ d, P d ∧ (existing ≠ [] → held id d))) as HP3.
  { apply stable_conj; [done|]. intros d d' Hok Hm Hh E. eapply held_stable; eauto. }
  destruct existing as [|f l] eqn:E.
  - eapply safe_post; [|by apply safe_write_message]. simpl. intros _ d [[Hp _] Ha].
    split; [done|]. by exists (Active id).
  - eapply safe_pre; [intros d [Hp Hh]; exact (conj Hp (Hh ltac:(discriminate)))|].
    assert (stable (λ d, P d ∧ held id d)) as HP4 by by apply stable_conj, held_stable.
    apply (safe_for_each _ _ (λ d, P d ∧ held id d)). intros g _.
    eapply safe_bind; [exact (safe_read_message g _ HP4)|]. intros actual.
    case_bool_decide; [|apply safe_fail]. apply safe_ret. naive_solver.
Qed.

(** *** A finished message is not handed out again *)

Lemma safe_scan_finished id names :
  safe (finished id) (scan_pending names)
    (λ items d, finished id d ∧ (faulty = false → id ∉ (λ i, msg_id (pim_msg i)) <$> items)).
Proof.
  pose proof (finished_stable id) as HP. induction names as [|path names IH]; simpl.
  - eapply safe_bind; [by apply safe_io_ok|]. intros ?. apply safe_ret. set_solver.
  - eapply safe_bind; [by apply safe_io_ok|]. intros ?. destruct path as [i|i|i n]; simpl; [|apply IH..].
    eapply safe_bind; [by apply safe_read_message|]. intros m. simpl. apply safe_pure. intros [Hid _].
    rewrite Hid. eapply safe_bind; [by apply safe_try_exists_exact|]. intros [].
    + eapply safe_bind; [|intros ?; apply IH].
      eapply safe_pre; [|by apply safe_remove_file]. simpl. intros d (Hp & Hd & _). split; [done|by apply Hd].
    + apply (safe_pre _ (λ d, finished id d ∧ (faulty = false → id ≠ i))).
      { intros d (Hp & _ & Hd). split; [done|]. intros Hff ->. specialize (Hd Hff eq_refl).
        unfold finished in Hp. rewrite Hd in Hp. by destruct Hp. }
      apply safe_pure. intros Hne.
      eapply safe_bind; [by apply safe_metadata|]. intros at_.
      eapply safe_bind; [apply IH|]. intros items. apply safe_ret. intros d [Hp Hi]. split; [done|].
      intros Hff. cbn [fmap list_fmap]. simpl. rewrite Hid. rewrite not_elem_of_cons. auto.
Qed.

Lemma safe_claim_loop_from pending P : stable P → Forall item_ok pending →
  safe P (claim_loop pending) (λ cs d, Forall (λ c, cim_message c ∈ pim_msg <$> pending) cs).
Proof.
  intros HP. induction pending as [|item pending IH]; intros Hok; simpl; [by apply safe_ret|].
  inversion Hok as [|? ? [Hpath Ho] Hrest]; subst. rewrite Hpath.
  eapply safe_bind.
  { eapply (safe_try _ _ _ (λ _ d, P d)); [exact HP|by apply safe_lease| |]; naive_solver. }
  assert (safe P (claim_loop pending) (λ cs d, Forall (λ c, cim_message c ∈ pim_msg item :: (pim_msg <$> pending)) cs))
    as Hnext.
  { eapply safe_post; [|by apply IH]. intros cs d. simpl. intros H. eapply Forall_impl; [exact H|].
    intros c Hc. apply elem_of_cons. by right. }
  intros [f|[]]; [|apply safe_fail|exact Hnext|apply safe_fail..].
  eapply safe_bind; [exact Hnext|]. intros claimed. apply safe_ret. intros d Hc.
  constructor; [simpl; set_solver|done].
Qed.

Lemma safe_claim_finished id stale now :
  safe (finished id) (claim_pending stale now)
    (λ cs d, faulty = false → id ∉ (λ c, msg_id (cim_message c)) <$> cs).
Proof.
  pose proof (finished_stable id) as HP.
  eapply safe_bind; [by apply safe_fs_step|]. intros ok.
  eapply safe_pre; [intros d H; exact (proj1 H)|]. destruct ok; [|apply safe_ret; set_solver].
  eapply safe_bind; [by apply safe_recover_stale|]. intros ?.
  eapply safe_bind.
  { eapply (safe_post _ _ (λ items d, (finished id d ∧ Forall item_ok items) ∧
      (faulty = false → id ∉ (λ i, msg_id (pim_msg i)) <$> items))); [intros items d H; exact H|].
    eapply safe_bind; [by apply safe_dir_names|]. intros names.
    eapply safe_pre; [intros d H; exact (proj1 H)|].
    eapply safe_bind; [apply (safe_both _ _ _ _ (safe_scan_finished id names) (safe_scan_pending names _ HP))|].
    intros items. eapply safe_bind; [apply (safe_gets _ _ (λ _ d,
      (finished id d ∧ (faulty = false → id ∉ (λ i, msg_id (pim_msg i)) <$> items)) ∧
      finished id d ∧ Forall item_ok items)); auto|].
    intros seen. apply safe_ret. intros d [[_ Hni] [Hp Hi]].
    assert (∀ i, i ∈ filter (λ i, msg_id (pim_msg i) ∉ seen) (sort_by pending_cmp items) → i ∈ items) as Hsub.
    { intros i [_ Hin%elem_of_sort_by]%list_elem_of_filter. done. }
    split; [split; [done|]|].
    - apply Forall_forall. intros i Hin%Hsub. by eapply Forall_forall in Hi.
    - intros Hff [i [-> Hin%Hsub]]%list_elem_of_fmap. apply (Hni Hff), list_elem_of_fmap. eauto. }
  intros pending. apply safe_pure. intros Hni. apply safe_pure. intros Hitems.
  eapply safe_post; [|by apply safe_claim_loop_from]. intros cs d Hcs Hff [c [Hid Hin]]%list_elem_of_fmap.
  eapply Forall_forall in Hcs; [|exact Hin]. apply list_elem_of_fmap in Hcs as (i & Hi & Hin').
  apply (Hni Hff), list_elem_of_fmap. exists i. by rewrite <-Hi.
Qed.
End protocol.

(** ** Commands *)

Inductive inbox_op :=
| OpList
| OpClaim (stale_after : Z) (now : DateTime)
| OpAck (id : InboxId) (now : DateTime)
| OpAckClaimed (c : ClaimedInboxMessage) (now : DateTime)
| OpRelease (c : ClaimedInboxMessage)
| OpAccept (m : InboxMessage) (now : DateTime).

Definition inbox_exec (op : inbox_op) : IM unit :=
  match op with
  | OpList => _ ← list_pending; mret tt
  | OpClaim stale_after now => _ ← claim_pending stale_after now; mret tt
  | OpAck id now => ack id now
  | OpAckClaimed c now => ack_claimed c now
  | OpRelease c => release_claimed c
  | OpAccept m now => accept_pulled m now
  end.

(** Leases come from [claim_pending], accepted messages from the Maintainer. *)
Definition inbox_op_ok (origin : InboxId → InboxMessage) (op : inbox_op) : Prop :=
  match op with
  | OpAckClaimed c _ | OpRelease c => claim_ok origin c
  | OpAccept m _ => is_origin origin (msg_id m) m
  | _ => True
  end.

Lemma safe_exec origin faulty op P : stable origin P → inbox_op_ok origin op →
  safe origin faulty P (inbox_exec op) (λ _ d, P d).
Proof.
  intros HP Hop. destruct op as [|stale_after now|id now|c now|c|m now]; simpl in *.
  - eapply safe_bind; [by apply safe_list_pending|]. intros ?. by apply safe_ret.
  - eapply safe_bind; [by apply safe_claim_pending|]. intros ?. apply safe_ret. naive_solver.
  - by apply safe_ack.
  - by apply safe_ack_claimed.
  - by apply safe_release_claimed.
  - eapply safe_post; [|by apply safe_accept_pulled]. naive_solver.
Qed.

(** ** Properties *)

(** C24. Whatever an agent's process does with its inbox, while its other
    processes do the same between any two of its file-system steps, and
    whichever of those steps fail: the directory keeps every message it held,
    with the content the Maintainer sent, a finished message stays finished,
    a message accepted without an error is held; and what the process did is
    again what the others may do. *)
Theorem inbox_messages_kept origin faulty op w r w' :
  rely_ok origin faulty (ir_script w) → dir_ok origin (ir_dir w) → inbox_op_ok origin op →
  inbox_exec op w = (r, w') →
  rtc (inbox_move origin) (ir_dir w) (ir_dir w') ∧ dir_ok origin (ir_dir w') ∧
  (∀ id, held id (ir_dir w) → held id (ir_dir w')) ∧
  (∀ id, finished id (ir_dir w) → finished id (ir_dir w')) ∧
  (∀ m now, op = OpAccept m now → r = Ok tt → held (msg_id m) (ir_dir w')).
Proof.
  intros Hr Hok Hop E.
  destruct (safe_exec origin faulty op (λ _, True) (stable_pure origin True) Hop w r w' Hr Hok I E) as (Hm & _ & _).
  split; [done|]. split; [by eapply moves_ok|]. split_and!.
  - intros id. eapply moves_keep; eauto using held_stable.
  - intros id. eapply moves_keep; eauto using finished_stable.
  - intros m now -> ->.
    by destruct (safe_accept_pulled origin faulty m now (λ _, True) (stable_pure origin True) Hop
      w (Ok tt) w' Hr Hok I E) as (_ & _ & H); apply (H tt).
Qed.

(** A message that is finished is never handed out again: as long as the
    file-system steps themselves succeed, no scan by any process returns it,
    whatever the other processes do in between, not even when the file of a
    lease or of a pending copy is still there. *)
Theorem finished_never_claimed origin id stale_after now w l w' :
  rely_ok origin false (ir_script w) → dir_ok origin (ir_dir w) → finished id (ir_dir w) →
  claim_pending stale_after now w = (Ok l, w') →
  id ∉ (λ c, msg_id (cim_message c)) <$> l ∧ finished id (ir_dir w').
Proof.
  intros Hr Hok Hf E. split.
  - destruct (safe_claim_finished origin false id stale_after now w _ w' Hr Hok Hf E) as (_ & _ & H).
    by apply (H l).
  - destruct (safe_claim_pending origin false stale_after now _ (finished_stable origin id)
      w _ w' Hr Hok Hf E) as (_ & _ & H). by apply (H l).
Qed.

(** ** Leases *)

Definition calm_reader (seen : gset InboxId) (d : InboxDir) : LocalFsInboxReader :=
  {| ir_dir := d; ir_seen := seen; ir_script := [] |}.

Lemma io_ok_calm seen d : io_ok (calm_reader seen d) = (Ok tt, calm_reader seen d).
Proof. done. Qed.

Lemma try_exists_calm f seen d :
  try_exists f (calm_reader seen d) = (Ok (bool_decide (is_Some (id_files d !! f))), calm_reader seen d).
Proof. done. Qed.

Lemma read_message_calm f b m seen d :
  id_files d !! f = Some b → ib_message b = Some m →
  read_message f (calm_reader seen d) = (Ok m, calm_reader seen d).
Proof.
  intros Hf Hm. unfold read_message. erewrite bind_step by apply io_ok_calm.
  unfold look. mrun. simpl. by rewrite Hf, Hm.
Qed.

Lemma metadata_calm f b seen d :
  id_files d !! f = Some b → metadata f (calm_reader seen d) = (Ok (ib_modified b), calm_reader seen d).
Proof.
  intros Hf. unfold metadata. erewrite bind_step by apply io_ok_calm. unfold look. mrun. simpl. by rewrite Hf.
Qed.

Lemma rename_calm f g b seen d :
  id_files d !! f = Some b → rename f g (calm_reader seen d) = (Ok tt, calm_reader seen (move_file f g b d)).
Proof.
  intros Hf. unfold rename. erewrite bind_step by apply io_ok_calm. unfold look. mrun. simpl. by rewrite Hf.
Qed.

Definition one_file (f : inbox_file) (b : inbox_body) (n : nat) : InboxDir :=
  {| id_files := {[f := b]}; id_next_lease := n |}.

Lemma names_one f b : (map_to_list ({[f := b]} : gmap inbox_file inbox_body)).*1 = [f].
Proof. by rewrite map_to_list_singleton. Qed.

Lemma recover_fresh stale_after now id n b seen k :
  is_fresh stale_after (ib_modified b) now = true →
  recover_stale_processing stale_after now (calm_reader seen (one_file (Processing id n) b k))
    = (Ok tt, calm_reader seen (one_file (Processing id n) b k)).
Proof.
  intros Hf. unfold recover_stale_processing, dir_names. mrun. simpl. rewrite names_one. simpl.
  unfold metadata, io_ok, fs_step, look. mrun. simpl. rewrite lookup_singleton_eq. simpl.
  by rewrite Hf.
Qed.

Lemma scan_one id b m seen k :
  ib_message b = Some m → msg_id m = id → id ∉ seen →
  scan_unseen (calm_reader seen (one_file (Active id) b k)) =
    (Ok [{| pim_msg := m; pim_modified_at := ib_modified b; pim_path := Active id |}],
     calm_reader seen (one_file (Active id) b k)).
Proof.
  intros Hb Hid Hs. unfold scan_unseen, dir_names. mrun. simpl. rewrite names_one. simpl.
  unfold read_message, metadata, try_exists, io_ok, fs_step, look. mrun. simpl.
  rewrite lookup_singleton_eq. simpl. rewrite Hb. simpl.
  rewrite lookup_singleton_ne by discriminate. simpl. rewrite lookup_singleton_eq. simpl.
  rewrite filter_cons_True, filter_nil; [done|]. simpl. by rewrite Hid.
Qed.

Lemma claim_loop_one id b m seen k :
  msg_id m = id →
  claim_loop [{| pim_msg := m; pim_modified_at := ib_modified b; pim_path := Active id |}]
    (calm_reader seen (one_file (Active id) b k)) =
    (Ok [{| cim_message := m; cim_lease_id := Some (Processing id k) |}],
     calm_reader seen (one_file (Processing id k) b (S k))).
Proof.
  intros Hid. simpl. rewrite m_try_bind.
  unfold rename_to_processing, io_ok, fs_step, look, on_dir. mrun. simpl.
  rewrite lookup_singleton_eq. simpl. rewrite Hid, delete_singleton_eq, insert_empty. done.
Qed.

Lemma claim_pending_one stale_after now id b m seen k :
  ib_message b = Some m → msg_id m = id → id ∉ seen →
  claim_pending stale_after now (calm_reader seen (one_file (Active id) b k)) =
    (Ok [{| cim_message := m; cim_lease_id := Some (Processing id k) |}],
     calm_reader seen (one_file (Processing id k) b (S k))).
Proof.
  intros Hb Hid Hs. unfold claim_pending. erewrite bind_step by reflexivity. cbn [negb].
  erewrite bind_step.
  2:{ unfold recover_stale_processing, dir_names. mrun. simpl. by rewrite names_one. }
  erewrite bind_step by (by apply scan_one). by apply claim_loop_one.
Qed.

Lemma recover_stale_one stale_after now id b m seen k n :
  ib_message b = Some m → msg_id m = id → is_fresh stale_after (ib_modified b) now = false →
  recover_stale_processing stale_after now (calm_reader seen (one_file (Processing id n) b k)) =
    (Ok tt, calm_reader seen (one_file (Active id) b k)).
Proof.
  intros Hb Hid Hf. unfold recover_stale_processing.
  assert (id_files (one_file (Processing id n) b k) !! Processing id n = Some b) as Hl
    by (simpl; by rewrite lookup_singleton_eq).
  erewrite bind_step by (unfold dir_names; mrun; simpl; by rewrite names_one). simpl.
  erewrite bind_step by apply io_ok_calm. erewrite bind_step by by apply metadata_calm. rewrite Hf.
  rewrite m_try_bind. rewrite (read_message_calm _ b m) by done. rewrite Hid.
  erewrite bind_step by apply try_exists_calm. simpl. rewrite lookup_singleton_ne by discriminate. simpl.
  erewrite bind_step by apply try_exists_calm. simpl. rewrite lookup_singleton_ne by discriminate. simpl.
  rewrite m_try_bind. rewrite (rename_calm _ _ b) by done.
  unfold move_file, set_files. simpl. by rewrite delete_singleton_eq, insert_empty.
Qed.

(** A lease lasts as long as the message file is young, not as long as the
    lease is: a rename keeps the modification time, so a message that arrived
    longer than the threshold ago and is leased now is taken back and leased
    again by the next scan of another process, at the same instant; the first
    process then still reports its acknowledgement as done, and the message
    stays to be handled by the second.  A younger message is left alone. *)
Theorem lease_age_is_message_age stale_after now id b m k :
  ib_message b = Some m → msg_id m = id →
  let d0 := one_file (Active id) b k in
  let d1 := one_file (Processing id k) b (S k) in
  let d2 := one_file (Processing id (S k)) b (S (S k)) in
  let lease n := {| cim_message := m; cim_lease_id := Some (Processing id n) |} in
  claim_pending stale_after now (calm_reader ∅ d0) = (Ok [lease k], calm_reader ∅ d1) ∧
  (is_fresh stale_after (ib_modified b) now = false →
   claim_pending stale_after now (calm_reader ∅ d1) = (Ok [lease (S k)], calm_reader ∅ d2) ∧
   ack_claimed (lease k) now (calm_reader ∅ d2) = (Ok tt, calm_reader {[id]} d2)) ∧
  (is_fresh stale_after (ib_modified b) now = true →
   claim_pending stale_after now (calm_reader ∅ d1) = (Ok [], calm_reader ∅ d1)).
Proof.
  intros Hb Hid d0 d1 d2 lease. split; [apply claim_pending_one; set_solver|]. split.
  - intros Hf. split.
    + unfold claim_pending. erewrite bind_step by reflexivity. cbn [negb].
      erewrite bind_step by (by eapply recover_stale_one).
      erewrite bind_step by (apply scan_one; [done|done|set_solver]). by apply claim_loop_one.
    + unfold ack_claimed. simpl. rewrite Hid.
      unfold ack, try_exists, mark_seen, fs_step, look. mrun. simpl.
      rewrite !lookup_singleton_ne by (intros [=]; lia). simpl.
      rewrite !lookup_singleton_ne by discriminate. simpl. unfold calm_reader. repeat f_equal. set_solver.
  - intros Hf. unfold claim_pending. erewrite bind_step by reflexivity. cbn [negb].
    erewrite bind_step by (by apply recover_fresh).
    unfold scan_unseen, dir_names. mrun. simpl. rewrite names_one. done.
Qed.
