(* ===== verification/Receipts.v ===== *)
(** * Who receipts a message

    Only an acknowledgement of the agent itself records a receipt of that
    agent, and only of the messages it names: every other operation of the
    Maintainer, under any faults, leaves the agent's receipts as they were. *)

From S2P Require Import Prelude Storage Claim Maintainer Ledger Delivery DeliveryRuns Publish Sweep Guarantees.
Import Ids.

Section receipts.
Context (hex_encode : list Z → string) (self : Maintainer) (agent : AgentId).

(** Every receipt of [agent] that is new is of one of [ids]. *)
Definition gains (ids : list InboxId) (w w' : TeamStore) : Prop :=
  ∀ id, receipted (ts_outbox w') agent id → receipted (ts_outbox w) agent id ∨ id ∈ ids.

#[export] Instance gains_preorder ids : PreOrder (gains ids).
Proof.
  split; [intros w id; by left|]. intros w1 w2 w3 H1 H2 id H3.
  destruct (H2 id H3) as [H|?]; [by apply H1|by right].
Qed.

#[export] Instance gains_faults ids : FaultClosed (gains ids).
Proof. intros fs w id. by left. Qed.

#[local] Instance gains_disputes ids : DirClosed (gains ids) disputes_dir.
Proof. intros m w id. by left. Qed.

#[local] Instance gains_policies ids : DirClosed (gains ids) policies_dir.
Proof. intros m w id. by left. Qed.

Lemma gains_same ids w w' : ts_outbox w' = ts_outbox w → gains ids w w'.
Proof. intros Ho id. rewrite Ho. by left. Qed.

(** A file is written: its receipts are old ones or of the named messages. *)
Lemma gains_insert ids w w' k v :
  ts_outbox w' = <[k := v]> (ts_outbox w) →
  (∀ e, v = Stored e → was_delivered agent e = true →
    receipted (ts_outbox w) agent k ∨ k ∈ ids) →
  gains ids w w'.
Proof.
  intros Ho Hv id (e & He & Hd). rewrite Ho in He.
  apply lookup_insert_Some in He as [[<- ->]|[_ He]]; [by eapply Hv|]. left. by exists e.
Qed.

Lemma draw_gains ids prefix : preserves (gains ids) (draw_id hex_encode prefix).
Proof. intros w r w' [= _ <-] id. by left. Qed.

Lemma create_new_gains ids key : preserves (gains ids) (create_new (E:=MaintainerError) outbox_dir key).
Proof.
  intros w r w' H. apply (create_new_inv outbox_dir) in H as [(_ & _ & H)|[(_ & _ & H)|[_ H]]]; simpl in H.
  - eapply gains_insert; [exact H|]. by intros e [=].
  - by apply gains_same.
  - by apply gains_same.
Qed.

Lemma write_outbox_gains ids k e w r w' :
  write_yaml_atomic (E:=MaintainerError) outbox_dir k e w = (r, w') →
  (was_delivered agent e = true → receipted (ts_outbox w) agent k ∨ k ∈ ids) → gains ids w w'.
Proof.
  intros H Hd. apply (write_yaml_inv outbox_dir) in H as [[_ H]|[_ H]]; simpl in H.
  - eapply gains_insert; [exact H|]. by intros e' [= <-].
  - by apply gains_same.
Qed.

Lemma mint_inbox_gains ids : preserves (gains ids) (mint_inbox_id_for_outbox hex_encode self).
Proof.
  unfold mint_inbox_id_for_outbox, mint_unique_id_in_dir. case_bool_decide as Hn;
    [auto with acn typeclass_instances|].
  apply preserves_bind; [apply _|apply preserves_io; apply _|]. intros ?. generalize (@None string).
  clear Hn. induction (id_mint_max_attempts self) as [|n IH]; intros last; simpl;
    [auto with acn typeclass_instances|].
  apply preserves_bind; [apply _|apply draw_gains|]. intros c.
  apply preserves_bind; [apply _|apply create_new_gains|].
  intros []; [auto with acn typeclass_instances|apply IH].
Qed.

Lemma mint_policy_gains ids : preserves (gains ids) (mint_policy_id hex_encode self).
Proof. apply preserves_mint; [apply _..|apply draw_gains]. Qed.

Lemma mint_action_gains ids : preserves (gains ids) (mint_action_id_for_outbox hex_encode self).
Proof.
  unfold mint_action_id_for_outbox, outbox_list. case_bool_decide as Hn; clear Hn;
    [auto with acn typeclass_instances|].
  apply preserves_bind; [apply _|apply preserves_list; apply _|]. intros es.
  generalize (@None string). induction (id_mint_max_attempts self) as [|n IH]; intros last; simpl;
    [auto with acn typeclass_instances|].
  apply preserves_bind; [apply _|apply draw_gains|]. intros c.
  case_bool_decide; [apply IH|auto with acn typeclass_instances].
Qed.

Lemma create_entries_gains ids kind action_id now items targets n :
  preserves (gains ids) (create_entries_loop hex_encode self kind action_id now items targets n).
Proof.
  revert n. induction targets as [|t targets IH]; intros n; simpl; [auto with acn typeclass_instances|].
  apply preserves_bind; [apply _|apply mint_inbox_gains|]. intros id.
  apply preserves_bind; [apply _| |intros ?; apply IH].
  intros w r w' H. eapply write_outbox_gains; [exact H|]. done.
Qed.

Lemma lock_gains ids {E} (e : E) : preserves (gains ids) (io_step e).
Proof. apply preserves_io_step; apply _. Qed.

Lemma modify_agents_gains ids {E} f : preserves (E:=E) (gains ids) (modify (λ w, set_agents (f w) w)).
Proof. intros w r w' [= _ <-] id. by left. Qed.

#[local] Hint Resolve create_entries_gains mint_action_gains mint_policy_gains lock_gains
  modify_agents_gains gains_preorder gains_faults gains_disputes gains_policies : acn.

Lemma suggestion_locked_gains ids statement now targets items :
  preserves (gains ids) (claim_update_suggestion_locked hex_encode self statement now targets items).
Proof. unfold claim_update_suggestion_locked, write_policy, create_outbox_entries. solve_preserves. Qed.

Lemma publish_gains ids name statement scope now targets :
  preserves (gains ids) (publish_new_policy hex_encode self name statement scope now targets).
Proof. unfold publish_new_policy, lock_outbox_file, write_policy, create_outbox_entries. solve_preserves. Qed.

Lemma deprecate_gains ids id now : preserves (gains ids) (deprecate_policy hex_encode self id now).
Proof. unfold deprecate_policy, lock_outbox_file, create_outbox_entries. solve_preserves. Qed.

Lemma suggestion_gains ids statement now targets :
  preserves (gains ids) (claim_update_suggestion hex_encode self statement now targets).
Proof. unfold claim_update_suggestion, lock_outbox_file. pose proof suggestion_locked_gains. solve_preserves. Qed.

Lemma upload_gains ids c : preserves (gains ids) (upload_claim c).
Proof. unfold upload_claim. solve_preserves. Qed.

Lemma report_gains ids d : preserves (gains ids) (report_dispute d).
Proof.
  unfold report_dispute, validate_new_dispute_direct_claims, load_team_claims, write_dispute.
  destruct (validate_agent_report d); [|solve_preserves].
  apply preserves_bind; [apply _|solve_preserves|]. intros _.
  apply preserves_bind; [apply _|apply preserves_m_try, preserves_read; apply _|solve_preserves].
Qed.

Lemma notify_loop_gains ids sched now groups : ∀ report,
  preserves (gains ids) (notify_loop hex_encode self sched now groups report).
Proof.
  induction groups as [|[a items] groups IH]; intros report; simpl; [auto with acn typeclass_instances|].
  destruct (unscheduled sched a items) as [|i l]; [apply IH|].
  apply preserves_bind; [apply _|apply preserves_m_try, suggestion_locked_gains|intros; apply IH].
Qed.

Lemma sweep_gains ids now : preserves (gains ids) (run_stale_sweep hex_encode self now).
Proof.
  unfold run_stale_sweep, list_all_claims, list_agent_ids, send_sweep_notifications,
    lock_outbox_file, outbox_list.
  pose proof notify_loop_gains. solve_preserves.
Qed.

(** *** Offers and receipts *)

Lemma record_offered_gains ids k a at_ : preserves (gains ids) (record_offered k a at_).
Proof.
  intros w r w' [(e & w1 & H1 & H2)|(e & H1 & ->)]%bind_cases;
    apply (read_yaml_inv outbox_dir) in H1 as [Ho He]; simpl in Ho; [|by apply gains_same].
  etrans; [by apply gains_same|]. eapply write_outbox_gains; [exact H2|]. intros Hd. left.
  exists e. split; [|done]. simpl in He. rewrite Ho. by apply He.
Qed.

Lemma append_delivered_gains ids k a at_ :
  (a = agent → k ∈ ids) → preserves (gains ids) (append_delivered k a at_).
Proof.
  intros Ha w r w' [(e & w1 & H1 & H2)|(e & H1 & ->)]%bind_cases;
    apply (read_yaml_inv outbox_dir) in H1 as [Ho He]; simpl in Ho; [|by apply gains_same].
  etrans; [by apply gains_same|]. destruct (was_delivered a e).
  { by injection H2 as _ <-. }
  eapply write_outbox_gains; [exact H2|]. rewrite was_delivered_deliver.
  intros [?%bool_decide_eq_true|Hd]%orb_true_iff; [right; auto|left].
  exists e. split; [|done]. simpl in He. rewrite Ho. by apply He.
Qed.

Lemma offer_loop_gains ids a now chosen : preserves (gains ids) (offer_loop a now chosen).
Proof.
  induction chosen as [|e chosen IH]; simpl; [auto with acn typeclass_instances|].
  apply preserves_bind; [apply _|apply record_offered_gains|]. intros ?.
  apply preserves_bind; [apply _|apply IH|]. auto with acn typeclass_instances.
Qed.

Lemma pull_gains ids a now : preserves (gains ids) (pull_inbox a now).
Proof.
  unfold pull_inbox, lock_outbox_file, ensure_agent_registered, active_policy_id_set, list_policies, outbox_list.
  pose proof offer_loop_gains. solve_preserves.
Qed.

Lemma deliver_loop_gains ids a now l :
  (a = agent → l ⊆ ids) → preserves (gains ids) (deliver_loop a now l).
Proof.
  induction l as [|id l IH]; intros Hl; simpl; [auto with acn typeclass_instances|].
  apply preserves_bind; [apply _|apply preserves_m_map_err, append_delivered_gains; set_solver|].
  intros ?. apply IH. set_solver.
Qed.

(** An acknowledgement adds no receipt beyond the messages it names. *)
Lemma ack_gains ids a l now : (a = agent → l ⊆ ids) → preserves (gains ids) (ack_inbox a l now).
Proof.
  intros Hl. unfold ack_inbox, lock_outbox_file, outbox_list.
  apply preserves_bind; [apply _|apply preserves_m_map_err, lock_gains|]. intros ?.
  apply preserves_bind; [apply _|apply preserves_m_map_err, preserves_list; apply _|]. intros es.
  apply preserves_bind; [apply _|auto with acn typeclass_instances|]. intros ?.
  apply deliver_loop_gains. intros Ha x Hx. rewrite elem_of_dedup in Hx. exact (Hl Ha x Hx).
Qed.

(** Commands of the Maintainer that are not an acknowledgement by [agent]. *)
Definition not_our_ack (c : command) : Prop :=
  match c with CAck a _ _ => a ≠ agent | _ => True end.

Lemma exec_gains s w : not_our_ack s.2 → gains [] w (exec hex_encode self s w).
Proof.
  destruct s as [fs c]. intros Hc. etrans; [apply (gains_faults [] fs w)|].
  unfold exec. simpl in *.
  destruct c; (match goal with |- gains _ _ (?m ?w0).2 => destruct (m w0) eqn:Hrun end);
    [eapply publish_gains|eapply deprecate_gains|eapply suggestion_gains|eapply upload_gains
    |eapply report_gains|eapply sweep_gains|eapply pull_gains|eapply (ack_gains [])]; try exact Hrun.
  intros ->. done.
Qed.

Lemma exec_all_gains steps w :
  Forall (λ s, not_our_ack s.2) steps → gains [] w (exec_all hex_encode self steps w).
Proof.
  revert w. induction steps as [|s steps IH]; intros w Hs; simpl; [apply gains_preorder|].
  apply Forall_cons in Hs as [Hs Hrest]. etrans; [by apply exec_gains|by apply IH].
Qed.
End receipts.
