(* ===== verification/InboxSync.v ===== *)
(** * Receiving messages (src/src/agent/inbox.rs, sync_inbox_to_local)

    For an agent with a Maintainer configured; without one the operation
    returns an empty report.

    An agent pulls its messages from the Maintainer, writes each to its inbox
    directory and then acknowledges what it wrote.  The Maintainer is that of
    Maintainer.v, serving other commands in between and failing at its own
    I/O; a request or its response can be lost on the way; the directory is
    that of InboxFiles.v, shared with the agent's other processes.  The main
    theorem is the end-to-end guarantee: a message that was ever offered to
    the agent is in its directory, or the next pull returns it. *)

From S2P Require Import Prelude Storage Claim Maintainer Ledger Delivery DeliveryRuns Guarantees Receipts InboxFiles InboxProtocol.

(** ** The link to the Maintainer *)

Inductive net_outcome := NetDelivered | NetRequestLost | NetResponseLost.

(** One request: what the Maintainer did for others before it, the faults of
    its own I/O while it serves it, and what the network does. *)
Record net_event := {
  ne_others : list (list bool * command);
  ne_faults : list bool;
  ne_outcome : net_outcome;
}.

Definition quiet_net : net_event := {| ne_others := []; ne_faults := []; ne_outcome := NetDelivered |}.

Record AgentLink := {
  al_team : TeamStore;
  al_reader : LocalFsInboxReader;
  al_net : list net_event;
}.

Inductive LinkError :=
| NetError
| PullRejected (e : MaintainerError)
| AckRejected (e : InboxAckError).

Notation LM := (M AgentLink LinkError).

Inductive InboxWarning := PullWarning (e : LinkError) | AckWarning (e : LinkError).

Record InboxSyncReport := {
  isr_pull_succeeded : bool;
  isr_accepted : nat;
  isr_warnings : list InboxWarning;
  isr_failure : option (InboxId * InboxError);
}.

Section sync.
Context (hex_encode : list Z → string) (self : Maintainer) (agent_id : AgentId).

Definition set_team (t : TeamStore) (net : list net_event) (l : AgentLink) : AgentLink :=
  {| al_team := t; al_reader := al_reader l; al_net := net |}.

(** A request to the Maintainer over the network. *)
Definition request {A E} (serve : M TeamStore E A) (reject : E → LinkError) : LM A := λ l,
  let ev := default quiet_net (head (al_net l)) in
  let team := exec_all hex_encode self (ne_others ev) (al_team l) in
  match ne_outcome ev with
  | NetRequestLost => (Err NetError, set_team team (tail (al_net l)) l)
  | _ =>
      let '(r, team') := serve (set_ts_faults (ne_faults ev) team) in
      (match ne_outcome ev with
       | NetDelivered => map_err reject r
       | _ => Err NetError
       end, set_team team' (tail (al_net l)) l)
  end.

(** An operation on the inbox directory. *)
Definition local {A} (m : IM A) : LM (Result InboxError A) := λ l,
  let '(r, reader) := m (al_reader l) in
  (Ok r, {| al_team := al_team l; al_reader := reader; al_net := al_net l |}).

Definition ack_persisted_inbox (inbox_ids : list InboxId) (now : DateTime) : LM (option InboxWarning) :=
  if bool_decide (inbox_ids = []) then mret None
  else
    r ← m_try (request (ack_inbox agent_id inbox_ids now) AckRejected);
    mret match r with Ok _ => None | Err err => Some (AckWarning err) end.

(** [persisted_ids] and [persisted_id_set] *)
Definition push_persisted (persisted : list InboxId) (id : InboxId) : list InboxId :=
  if bool_decide (id ∈ persisted) then persisted else persisted ++ [id].

Fixpoint accept_loop (pulled : list InboxMessage) (persisted : list InboxId) (now : DateTime) :
    LM (list InboxId * option (InboxId * InboxError)) :=
  match pulled with
  | [] => mret (persisted, None)
  | msg :: pulled' =>
      r ← local (accept_pulled msg now);
      match r with
      | Err err => mret (persisted, Some (msg_id msg, err))
      | Ok _ => accept_loop pulled' (push_persisted persisted (msg_id msg)) now
      end
  end.

Definition sync_inbox_to_local (now : DateTime) : LM InboxSyncReport :=
  pulled ← m_try (request (pull_inbox agent_id now) PullRejected);
  match pulled with
  | Err err =>
      mret {| isr_pull_succeeded := false; isr_accepted := 0;
              isr_warnings := [PullWarning err]; isr_failure := None |}
  | Ok pulled =>
      out ← accept_loop pulled [] now;
      warning ← ack_persisted_inbox out.1 now;
      mret {| isr_pull_succeeded := true; isr_accepted := length out.1;
              isr_warnings := option_list warning; isr_failure := out.2 |}
  end.

(** ** Histories *)

(** What happens to the link: the agent synchronises or works on its inbox
    directory, a new process starts, the Maintainer serves others. *)
Inductive link_command :=
| LSync (now : DateTime) (net : list net_event) (script : list inbox_event)
| LLocal (op : inbox_op) (script : list inbox_event)
| LRestart
| LTeam (steps : list (list bool * command)).

Definition with_reader (r : LocalFsInboxReader) (l : AgentLink) : AgentLink :=
  {| al_team := al_team l; al_reader := r; al_net := al_net l |}.

Definition with_script (script : list inbox_event) (r : LocalFsInboxReader) : LocalFsInboxReader :=
  {| ir_dir := ir_dir r; ir_seen := ir_seen r; ir_script := script |}.

Definition exec_link (l : AgentLink) (c : link_command) : AgentLink :=
  match c with
  | LSync now net script =>
      (sync_inbox_to_local now {| al_team := al_team l; al_reader := with_script script (al_reader l);
                                  al_net := net |}).2
  | LLocal op script => with_reader (inbox_exec op (with_script script (al_reader l))).2 l
  | LRestart => with_reader {| ir_dir := ir_dir (al_reader l); ir_seen := ∅; ir_script := [] |} l
  | LTeam steps => with_reader (al_reader l) {| al_team := exec_all hex_encode self steps (al_team l);
                                                al_reader := al_reader l; al_net := al_net l |}
  end.

Definition exec_links (cs : list link_command) (l : AgentLink) : AgentLink := fold_left exec_link cs l.

(** The messages of an outbox by their ids. *)
Definition sent (m : Outbox) (id : InboxId) : InboxMessage :=
  match m !! id ≫= file_value with
  | Some e => ob_message e
  | None => {| msg_id := id; msg_kind := PolicyUpdate {| policy_id := ""; policy_message_type := PolicyUpdateType;
      policy_name := ""; policy_statement := ""; policy_scope := ""; policy_status := PolicyActive;
      policy_created_at := 0; policy_updated_at := None; policy_target_agents := None |};
      msg_handled_at := None |}
  end.

(** The others follow the protocols: no other party acknowledges for this
    agent, and its other processes use the directory as this one does. *)
Definition net_ok (net : list net_event) : Prop :=
  Forall (λ ev, Forall (λ s, not_our_ack agent_id s.2) (ne_others ev)) net.

Definition link_command_ok (origin : InboxId → InboxMessage) (c : link_command) : Prop :=
  match c with
  | LSync _ net script => net_ok net ∧ rely_ok origin true script
  | LLocal op script => inbox_op_ok origin op ∧ rely_ok origin true script
  | LRestart => True
  | LTeam steps => Forall (λ s, not_our_ack agent_id s.2) steps
  end.

(** ** The invariant of the link *)

Section invariant.
(** The outbox at the end of the history, and so what every id stands for. *)
Context (final : Outbox).
Notation origin := (sent final).

Record link_ok (l : AgentLink) : Prop := {
  lk_reachable : reachable hex_encode self (al_team l);
  lk_dir : dir_ok origin (ir_dir (al_reader l));
  lk_receipts id : receipted (ts_outbox (al_team l)) agent_id id → held id (ir_dir (al_reader l));
}.

Lemma reachable_exec steps t : reachable hex_encode self t → reachable hex_encode self (exec_all hex_encode self steps t).
Proof.
  intros (t0 & steps0 & H0 & ->). exists t0, (steps0 ++ steps). split; [done|].
  unfold exec_all. by rewrite fold_left_app.
Qed.

Lemma reachable_le steps t : reachable hex_encode self t →
  ledger_le (ts_outbox t) (ts_outbox (exec_all hex_encode self steps t)).
Proof. intros Hr. apply exec_all_le. exact (proj1 (reachable_inv _ _ _ Hr)). Qed.

(** Whatever a request does, it is a history of the Maintainer that ends
    with the served command, or without it. *)
Lemma request_steps {A E} (serve : M TeamStore E A) reject c l r l' :
  (∀ fs t, (serve (set_ts_faults fs t)).2 = exec hex_encode self (fs, c) t) →
  request serve reject l = (r, l') →
  al_reader l' = al_reader l ∧ al_net l' = tail (al_net l) ∧
  let ev := default quiet_net (head (al_net l)) in
  let t := exec_all hex_encode self (ne_others ev) (al_team l) in
  (al_team l' = t ∧ r = Err NetError ∨
   al_team l' = exec hex_encode self (ne_faults ev, c) t ∧
   (∀ a, r = Ok a → (serve (set_ts_faults (ne_faults ev) t)).1 = Ok a)).
Proof.
  intros Hc. unfold request. set (ev := default quiet_net (head (al_net l))).
  set (t := exec_all hex_encode self (ne_others ev) (al_team l)).
  specialize (Hc (ne_faults ev) t). destruct (ne_outcome ev).
  - destruct (serve _) as [r0 t'] eqn:Es. intros [= <- <-]. simpl in *. split_and!; [done|done|right].
    split; [done|]. intros a. by destruct r0; intros [= ->].
  - intros [= <- <-]. simpl. split_and!; [done|done|by left].
  - destruct (serve _) as [r0 t'] eqn:Es. intros [= <- <-]. simpl in *. split_and!; [done|done|right].
    split; [done|]. by intros a [=].
Qed.

Lemma exec_one s t : exec hex_encode self s t = exec_all hex_encode self [s] t.
Proof. done. Qed.

Lemma net_ok_head net : net_ok net →
  Forall (λ s, not_our_ack agent_id s.2) (ne_others (default quiet_net (head net))) ∧ net_ok (tail net).
Proof. intros Hn. destruct net as [|ev net]; simpl; [by split; constructor|]. by inversion Hn. Qed.

(** A message of an earlier outbox is the one of the end. *)
Lemma sent_le m id e :
  ledger_le m final → m !! id = Some (Stored e) → sent final id = ob_message e.
Proof.
  intros Hle He. destruct (Hle _ _ He) as (e' & He' & [Hc _ _]). unfold sent. rewrite He'. simpl.
  by injection Hc.
Qed.

Lemma pulled_is_origin t agent m :
  reachable hex_encode self t → ledger_le (ts_outbox t) final → m ∈ ob_message <$> pull_choice agent t →
  is_origin origin (msg_id m) m.
Proof.
  intros Hr Hle (e & -> & He)%list_elem_of_fmap. apply choose_entries_in in He as [He _].
  apply elem_of_stored in He as [id He].
  destruct (reachable_inv _ _ _ Hr) as [[[Hwf _] _] _]. destruct (Hwf _ _ He) as [_ Hid].
  split; [done|]. by rewrite Hid, (sent_le _ _ _ Hle He).
Qed.

Lemma local_accept m now l r l' :
  is_origin origin (msg_id m) m → rely_ok origin true (ir_script (al_reader l)) →
  dir_ok origin (ir_dir (al_reader l)) → local (accept_pulled m now) l = (r, l') →
  al_team l' = al_team l ∧ al_net l' = al_net l ∧ rely_ok origin true (ir_script (al_reader l')) ∧
  rtc (inbox_move origin) (ir_dir (al_reader l)) (ir_dir (al_reader l')) ∧
  (r = Ok (Ok tt) → held (msg_id m) (ir_dir (al_reader l'))).
Proof.
  intros Ho Hr Hd. unfold local. destruct (accept_pulled m now (al_reader l)) as [r0 reader] eqn:E.
  intros [= <- <-]. simpl.
  destruct (safe_accept_pulled origin true m now (λ _, True) (stable_pure origin True) Ho
    _ _ _ Hr Hd I E) as (Hm & Hr' & Hh).
  split_and!; try done. intros [= ->]. by apply (Hh tt).
Qed.

Lemma accept_loop_spec now pulled : ∀ persisted l r l',
  Forall (λ m, is_origin origin (msg_id m) m) pulled →
  rely_ok origin true (ir_script (al_reader l)) → dir_ok origin (ir_dir (al_reader l)) →
  Forall (λ id, held id (ir_dir (al_reader l))) persisted →
  accept_loop pulled persisted now l = (r, l') →
  al_team l' = al_team l ∧ al_net l' = al_net l ∧
  rtc (inbox_move origin) (ir_dir (al_reader l)) (ir_dir (al_reader l')) ∧
  ∃ ids f, r = Ok (ids, f) ∧ Forall (λ id, held id (ir_dir (al_reader l'))) ids.
Proof.
  induction pulled as [|m pulled IH]; intros persisted l r l' Ho Hr Hd Hp H; simpl in H.
  { injection H as <- <-. split_and!; [done..|]. by exists persisted, None. }
  apply Forall_cons in Ho as [Hm Ho].
  apply bind_cases in H as [(r1 & l1 & H1 & H2)|(e & H1 & _)];
    [|unfold local in H1; by destruct (accept_pulled m now (al_reader l))].
  destruct (local_accept _ _ _ _ _ Hm Hr Hd H1) as (Ht1 & Hn1 & Hr1 & Hm1 & Hh).
  assert (dir_ok origin (ir_dir (al_reader l1))) as Hd1 by by eapply moves_ok.
  assert (Forall (λ id, held id (ir_dir (al_reader l1))) persisted) as Hp1.
  { eapply Forall_impl; [exact Hp|]. intros id Hid. eapply moves_keep; [apply held_stable|exact Hd|exact Hm1|exact Hid]. }
  destruct r1 as [[]|err].
  - apply IH in H2 as (Ht2 & Hn2 & Hm2 & Hout); [|done|done|done|].
    + split_and!; [congruence|congruence|by etrans|done].
    + unfold push_persisted. case_bool_decide; [done|]. apply Forall_app_2; [done|].
      constructor; [by apply Hh|constructor].
  - injection H2 as <- <-. split_and!; [done..|]. by eexists _, _.
Qed.

(** ** One synchronisation *)

Definition served (l l' : AgentLink) (ids : list InboxId) : Prop :=
  (∃ steps, al_team l' = exec_all hex_encode self steps (al_team l)) ∧
  gains agent_id ids (al_team l) (al_team l').

Lemma request_served {A E} (serve : M TeamStore E A) reject c ids l r l' :
  (∀ fs t, (serve (set_ts_faults fs t)).2 = exec hex_encode self (fs, c) t) →
  (∀ fs t, gains agent_id ids t (exec hex_encode self (fs, c) t)) →
  net_ok (al_net l) → request serve reject l = (r, l') →
  served l l' ids ∧ al_reader l' = al_reader l ∧ net_ok (al_net l').
Proof.
  intros Hc Hg Hn H. apply net_ok_head in Hn as [Hhead Htail].
  destruct (request_steps _ _ _ _ _ _ Hc H) as (Hr & Hnet & Hteam). split; [|by rewrite Hnet].
  set (ev := default quiet_net (head (al_net l))) in *.
  assert (gains agent_id ids (al_team l) (exec_all hex_encode self (ne_others ev) (al_team l))) as H1.
  { intros id Hid. left. destruct (exec_all_gains hex_encode self agent_id (ne_others ev) (al_team l) Hhead id Hid);
      [done|set_solver]. }
  cbv zeta in Hteam. unfold served. destruct Hteam as [[Ht _]|[Ht _]]; rewrite Ht.
  - split; [by exists (ne_others ev)|done].
  - split; [|by etrans]. exists (ne_others ev ++ [(ne_faults ev, c)]).
    unfold exec_all. by rewrite fold_left_app.
Qed.

Lemma pull_served now l r l' : net_ok (al_net l) →
  request (pull_inbox agent_id now) PullRejected l = (r, l') →
  served l l' [] ∧ al_reader l' = al_reader l ∧ net_ok (al_net l').
Proof.
  intros Hn H. eapply (request_served _ _ (CPull agent_id now)); [done| |done|exact H].
  intros fs t. by apply exec_gains.
Qed.

Lemma ack_served ids now l r l' : net_ok (al_net l) →
  request (ack_inbox agent_id ids now) AckRejected l = (r, l') →
  served l l' ids ∧ al_reader l' = al_reader l ∧ net_ok (al_net l').
Proof.
  intros Hn H. eapply (request_served _ _ (CAck agent_id ids now)); [done| |done|exact H].
  intros fs t. unfold exec. simpl. destruct (ack_inbox _ _ _ _) as [r0 t'] eqn:Ea. simpl.
  etrans; [apply (gains_faults agent_id ids fs t)|]. by eapply (ack_gains agent_id ids).
Qed.

Lemma pulled_messages now l msgs l' :
  request (pull_inbox agent_id now) PullRejected l = (Ok msgs, l') →
  ∃ t steps steps', t = exec_all hex_encode self steps (al_team l) ∧
    al_team l' = exec_all hex_encode self steps' t ∧ msgs = ob_message <$> pull_choice agent_id t.
Proof.
  intros H. destruct (request_steps (pull_inbox agent_id now) _ (CPull agent_id now) _ _ _ ltac:(done) H)
    as (_ & _ & [[_ ?]|[Ht Ha]]); [done|].
  set (ev := default quiet_net (head (al_net l))) in *.
  set (t0 := exec_all hex_encode self (ne_others ev) (al_team l)) in *.
  specialize (Ha msgs eq_refl). destruct (pull_inbox _ _ _) as [r1 t1] eqn:Ep. simpl in Ha. subst r1.
  apply pull_inbox_msgs in Ep. exists t0, (ne_others ev), [(ne_faults ev, CPull agent_id now)].
  split_and!; [done|by rewrite Ht|done].
Qed.

Lemma link_ok_weaken l l' ids :
  link_ok l → served l l' ids → dir_ok origin (ir_dir (al_reader l')) →
  (∀ id, held id (ir_dir (al_reader l)) → held id (ir_dir (al_reader l'))) →
  Forall (λ id, held id (ir_dir (al_reader l'))) ids → link_ok l'.
Proof.
  intros [Hr Hd Hrec] [[steps Ht] Hg] Hd' Hh Hids. split; [|done|].
  - rewrite Ht. by apply reachable_exec.
  - intros id Hid. destruct (Hg id Hid) as [Hold|Hin]; [by apply Hh, Hrec|].
    by eapply Forall_forall in Hids.
Qed.

Lemma exec_all_app steps steps' t :
  exec_all hex_encode self (steps ++ steps') t = exec_all hex_encode self steps' (exec_all hex_encode self steps t).
Proof. unfold exec_all. by rewrite fold_left_app. Qed.

Lemma accept_loop_team now pulled : ∀ persisted l r l',
  accept_loop pulled persisted now l = (r, l') →
  al_team l' = al_team l ∧ al_net l' = al_net l ∧ ∃ out, r = Ok out.
Proof.
  induction pulled as [|m pulled IH]; intros persisted l r l' H; simpl in H.
  { injection H as <- <-. eauto. }
  unfold local in H at 1. unfold mbind, M_bind in H.
  destruct (accept_pulled m now (al_reader l)) as [[[]|err] reader].
  - apply IH in H. done.
  - injection H as <- <-. simpl. eauto.
Qed.

Lemma ack_persisted_served ids now l r l' :
  net_ok (al_net l) → ack_persisted_inbox ids now l = (r, l') →
  served l l' ids ∧ al_reader l' = al_reader l ∧ ∃ out, r = Ok out.
Proof.
  intros Hn. unfold ack_persisted_inbox. case_bool_decide as E.
  - intros [= <- <-]. split; [|by eauto]. split; [by exists []|]. intros id. by left.
  - rewrite m_try_bind. destruct (request _ _ _) as [r1 l1] eqn:H1. intros [= <- <-].
    destruct (ack_served _ _ _ _ _ Hn H1) as (? & ? & _). by eauto.
Qed.

Lemma sync_ok now l r l' :
  link_ok l → net_ok (al_net l) → rely_ok origin true (ir_script (al_reader l)) →
  sync_inbox_to_local now l = (r, l') → ledger_le (ts_outbox (al_team l')) final → link_ok l'.
Proof.
  intros Hl Hn Hs H Hle. unfold sync_inbox_to_local in H. rewrite m_try_bind in H.
  destruct (request (pull_inbox agent_id now) PullRejected l) as [r1 l1] eqn:H1.
  destruct (pull_served _ _ _ _ Hn H1) as (Hserved1 & Hreader1 & Hn1).
  assert (link_ok l1) as Hl1.
  { eapply link_ok_weaken; [done|done| |by rewrite Hreader1|constructor]. rewrite Hreader1. apply Hl. }
  destruct r1 as [msgs|err]; [|by injection H as _ <-].
  destruct (pulled_messages _ _ _ _ H1) as (t & steps & steps' & Ht & Ht1 & ->).
  destruct (accept_loop (ob_message <$> pull_choice agent_id t) [] now l1) as [r2 l2] eqn:H2.
  destruct (accept_loop_team _ _ _ _ _ _ H2) as (Ht2 & Hn2 & out & ->).
  erewrite bind_step in H by exact H2.
  destruct (ack_persisted_inbox out.1 now l2) as [r3 l3] eqn:H3.
  rewrite <-Hn2 in Hn1. destruct (ack_persisted_served _ _ _ _ _ Hn1 H3) as (Hserved3 & Hreader3 & w3 & ->).
  erewrite bind_step in H by exact H3. injection H as _ <-.
  assert (ledger_le (ts_outbox t) final) as Hlet.
  { etrans; [|exact Hle]. destruct Hserved3 as [[steps3 ->] _]. rewrite Ht2, Ht1, <-exec_all_app.
    apply reachable_le. rewrite Ht. apply reachable_exec, Hl. }
  destruct (accept_loop_spec now (ob_message <$> pull_choice agent_id t) [] l1 (Ok out) l2)
    as (_ & _ & Hm & ids & f & [= ->] & Hids); [|by rewrite Hreader1|apply Hl1|constructor|exact H2|].
  { apply Forall_forall. intros m Hm. eapply pulled_is_origin; [|exact Hlet|exact Hm].
    rewrite Ht. apply reachable_exec, Hl. }
  eapply (link_ok_weaken l1 l3 ids); rewrite ?Hreader3.
  - done.
  - destruct Hserved3 as [Hs3 Hg3]. unfold served. by rewrite <-Ht2.
  - eapply moves_ok; [apply Hl1|exact Hm].
  - intros id. eapply moves_keep; [apply held_stable|apply Hl1|exact Hm].
  - done.
Qed.

(** ** Histories keep the invariant *)

Lemma exec_link_ok l c :
  link_ok l → link_command_ok origin c →
  ledger_le (ts_outbox (al_team (exec_link l c))) final → link_ok (exec_link l c).
Proof.
  intros Hl Hc Hle. destruct c as [now net script|op script| |steps]; simpl in *.
  - destruct Hc as [Hn Hs]. destruct (sync_inbox_to_local _ _) as [r l'] eqn:E. simpl in *.
    refine (sync_ok now _ r l' _ _ _ E Hle); [|exact Hn|exact Hs]. by destruct Hl.
  - destruct Hc as [Hop Hs]. destruct (inbox_exec op _) as [r reader] eqn:E. simpl in *.
    destruct (safe_exec origin true op (λ _, True) (stable_pure origin True) Hop
      (with_script script (al_reader l)) r reader Hs (lk_dir _ Hl) I E) as (Hm & _ & _). simpl in Hm.
    eapply (link_ok_weaken l _ []); [done| | | |constructor]; simpl.
    + split; [by exists []|]. intros id. by left.
    + eapply moves_ok; [apply Hl|exact Hm].
    + intros id. eapply moves_keep; [apply held_stable|apply Hl|exact Hm].
  - by destruct Hl.
  - eapply (link_ok_weaken l _ []); [done| |apply Hl|done|constructor].
    split; [by exists steps|]. by apply exec_all_gains.
Qed.
End invariant.

(** The Maintainer's part of any history is a history of the Maintainer. *)
Lemma exec_link_team l c : ∃ steps, al_team (exec_link l c) = exec_all hex_encode self steps (al_team l).
Proof.
  destruct c as [now net script|op script| |steps]; [|by exists []|by exists []|by exists steps].
  simpl. set (l0 := {| al_team := al_team l; al_reader := with_script script (al_reader l); al_net := net |}).
  change (al_team l) with (al_team l0). unfold sync_inbox_to_local. rewrite m_try_bind.
  assert (∀ A E (serve : M TeamStore E A) reject c l1 r l2,
    (∀ fs t, (serve (set_ts_faults fs t)).2 = exec hex_encode self (fs, c) t) →
    request serve reject l1 = (r, l2) →
    ∃ steps, al_team l2 = exec_all hex_encode self steps (al_team l1)) as Hreq.
  { intros A E serve reject c l1 r l2 Hc H. destruct (request_steps _ _ _ _ _ _ Hc H) as (_ & _ & Ht).
    cbv zeta in Ht. destruct Ht as [[-> _]|[-> _]]; [eauto|].
    eexists (_ ++ [_]). by rewrite exec_all_app, exec_one. }
  destruct (request (pull_inbox agent_id now) PullRejected l0) as [r1 l1] eqn:H1.
  apply (Hreq _ _ _ _ (CPull agent_id now)) in H1 as [steps1 H1]; [|done].
  destruct r1 as [msgs|err]; [|by exists steps1].
  destruct (accept_loop msgs [] now l1) as [r2 l2] eqn:H2.
  destruct (accept_loop_team _ _ _ _ _ _ H2) as (Ht2 & _ & out & ->).
  erewrite bind_step by exact H2. unfold ack_persisted_inbox. case_bool_decide as Eids.
  - exists steps1. simpl. by rewrite Ht2.
  - destruct (request (ack_inbox agent_id out.1 now) AckRejected l2) as [r3 l3] eqn:H3.
    erewrite (bind_step _ _ l2).
    2:{ rewrite m_try_bind, H3. reflexivity. }
    apply (Hreq _ _ _ _ (CAck agent_id out.1 now)) in H3 as [steps3 H3]; [|done].
    exists (steps1 ++ steps3). simpl. by rewrite exec_all_app, H3, Ht2, H1.
Qed.

Lemma exec_link_le l c : reachable hex_encode self (al_team l) →
  reachable hex_encode self (al_team (exec_link l c)) ∧
  ledger_le (ts_outbox (al_team l)) (ts_outbox (al_team (exec_link l c))).
Proof.
  intros Hr. destruct (exec_link_team l c) as [steps ->]. split; [by apply reachable_exec|by apply reachable_le].
Qed.

Lemma exec_links_le cs l : reachable hex_encode self (al_team l) →
  ledger_le (ts_outbox (al_team l)) (ts_outbox (al_team (exec_links cs l))).
Proof.
  revert l. induction cs as [|c cs IH]; intros l Hr; simpl; [done|].
  destruct (exec_link_le l c Hr) as [Hr' Hle]. etrans; [exact Hle|by apply IH].
Qed.

Lemma exec_links_ok final cs : ∀ l,
  link_ok final l → Forall (link_command_ok (sent final)) cs →
  ledger_le (ts_outbox (al_team (exec_links cs l))) final → link_ok final (exec_links cs l).
Proof.
  induction cs as [|c cs IH]; intros l Hl Hcs Hle; simpl in *; [done|].
  apply Forall_cons in Hcs as [Hc Hcs]. apply IH; [|done|done].
  apply exec_link_ok; [done|done|]. etrans; [|exact Hle].
  apply exec_links_le. by apply (exec_link_le l c), Hl.
Qed.

Definition fresh_link (l : AgentLink) : Prop :=
  empty_store hex_encode (al_team l) ∧ id_files (ir_dir (al_reader l)) = ∅.

Lemma fresh_link_ok final l : fresh_link l → link_ok final l.
Proof.
  intros [Ht Hd]. split.
  - by exists (al_team l), [].
  - split; [intros f b|intros id n]; rewrite Hd, lookup_empty; [done|by intros []].
  - intros id (e & He & _). destruct Ht as [Ho _]. by rewrite Ho, lookup_empty in He.
Qed.

(** C10. No message is lost between the Maintainer and an agent.  After any
    history of synchronisations, work on the inbox, restarts and other
    commands of the Maintainer, with any I/O failures on both sides, requests
    and responses lost, and the agent's other processes at work in the
    directory: a message that was ever offered to the agent is in its inbox
    directory with the content the Maintainer sent, or the next undisturbed
    pull returns it.  In particular a receipt is only ever recorded for a
    message that is held. *)
Theorem no_message_lost cs l0 id e now :
  fresh_link l0 →
  let l := exec_links cs l0 in
  Forall (link_command_ok (sent (ts_outbox (al_team l)))) cs →
  ts_outbox (al_team l) !! id = Some (Stored e) → was_offered agent_id e = true →
  (∃ f b m, file_id f = id ∧ id_files (ir_dir (al_reader l)) !! f = Some b ∧
     ib_message b = Some m ∧ set_handled None m = set_handled None (ob_message e)) ∨
  (¬ receipted (ts_outbox (al_team l)) agent_id id ∧
   ∃ msgs t, pull_inbox agent_id now (set_ts_faults [] (al_team l)) = (Ok msgs, t) ∧
     ob_message e ∈ msgs).
Proof.
  intros H0 l Hcs He Hoff.
  assert (link_ok (ts_outbox (al_team l)) l) as [Hr Hd Hrec].
  { apply exec_links_ok; [by apply fresh_link_ok|done|done]. }
  destruct (reachable_inv _ _ _ Hr) as [Hinv Hhist].
  destruct (was_delivered agent_id e) eqn:Hdel; [left|right; split].
  - destruct (Hrec id) as (f & Hid & [b Hf]); [by exists e|].
    destruct (proj1 Hd f b Hf) as (m & Hm & _ & Ho). exists f, b, m. split_and!; [done..|].
    rewrite Ho, Hid. unfold sent. by rewrite He.
  - intros (e' & He' & Hd'). congruence.
  - eexists _, _. split; [by apply (pull_inbox_run hex_encode)|]. apply list_elem_of_fmap_2.
    eapply (pulled_unless_delivered hex_encode); [done|exact He| |done|done].
    by apply (Hhist _ _ He).
Qed.
End sync.
