(* ===== verification/InboxDemo.v ===== *)
(** * Concrete runs of an agent's inbox

    Two processes of one agent and a Maintainer whose response is lost, on
    which the guarantees of InboxProtocol.v and InboxSync.v are instantiated. *)

From S2P Require Import Prelude Storage Claim Maintainer Ledger Delivery DeliveryRuns Guarantees.
From S2P Require Import Receipts MaintainerDemo InboxFiles InboxProtocol InboxSync.

(** Before each step another process scans the directory and leases what is
    pending. *)
Definition busy_event (fails : bool) : inbox_event :=
  {| ev_others := λ d, ir_dir (claim_pending 1800 200 (calm_reader ∅ d)).2; ev_fails := fails |}.

Lemma rely_nil origin faulty : rely_ok origin faulty [].
Proof. constructor. Defined.

Lemma busy_rely origin faulty fs :
  (faulty = false → Forall (λ b, b = false) fs) → rely_ok origin faulty (busy_event <$> fs).
Proof.
  intros Hf. apply Forall_fmap, Forall_forall. intros b Hb. split.
  - intros H. simpl. by eapply Forall_forall in Hb; [|exact (Hf H)].
  - intros d Hd. simpl. destruct (claim_pending 1800 200 (calm_reader ∅ d)) as [r w'] eqn:E.
    destruct (safe_claim_pending origin faulty 1800 200 (λ _, True) (stable_pure origin True)
      (calm_reader ∅ d) r w' (rely_nil origin faulty) Hd I E) as (Hm & _). exact Hm.
Qed.

Definition demo_msg : InboxMessage := ob_message demo_entry.
Definition demo_body : inbox_body := {| ib_modified := 50; ib_message := Some demo_msg |}.
Definition demo_origin (id : InboxId) : InboxMessage :=
  {| msg_id := id; msg_kind := msg_kind demo_msg; msg_handled_at := None |}.

Definition demo_leased : InboxDir := one_file (Processing "inbox_00000002" 0) demo_body 1.

Lemma demo_leased_ok : dir_ok demo_origin demo_leased.
Proof.
  split.
  - intros f b Hf. simpl in Hf. apply lookup_singleton_Some in Hf as [<- <-]. by exists demo_msg.
  - intros id n [b Hf]. simpl in Hf. apply lookup_singleton_Some in Hf as [Hf _].
    injection Hf as _ <-. simpl. lia.
Qed.

(** The lease of a first process is released, and acknowledged meanwhile by
    nobody; the scan of the second runs before every step. *)
Definition demo_claim : ClaimedInboxMessage :=
  {| cim_message := demo_msg; cim_lease_id := Some (Processing "inbox_00000002" 0) |}.

Lemma demo_claim_ok : claim_ok demo_origin demo_claim.
Proof. split; [done|]. intros f [= <-]. by exists 0. Qed.

Definition demo_reader : LocalFsInboxReader :=
  {| ir_dir := demo_leased; ir_seen := ∅; ir_script := busy_event <$> [false; true; false; false; true] |}.

Lemma inbox_messages_kept_witness :
  held "inbox_00000002" (ir_dir (inbox_exec (OpRelease demo_claim) demo_reader).2).
Proof.
  destruct (inbox_exec (OpRelease demo_claim) demo_reader) as [r w'] eqn:E.
  destruct (inbox_messages_kept demo_origin true (OpRelease demo_claim) demo_reader r w') as (_ & _ & H & _).
  - apply busy_rely. discriminate.
  - exact demo_leased_ok.
  - exact demo_claim_ok.
  - exact E.
  - apply H. exists (Processing "inbox_00000002" 0). split; [reflexivity|]. vm_compute. eauto.
Defined.

(** A finished message with a pending copy left behind. *)
Definition demo_residue : InboxDir :=
  put_file (Done "inbox_00000002") demo_body (one_file (Active "inbox_00000002") demo_body 1).

Lemma demo_residue_ok : dir_ok demo_origin demo_residue.
Proof.
  split.
  - intros f b Hf. unfold demo_residue, put_file, set_files in Hf. simpl in Hf.
    apply lookup_insert_Some in Hf as [[<- <-]|[_ Hf]]; [by exists demo_msg|].
    apply lookup_singleton_Some in Hf as [<- <-]. by exists demo_msg.
  - intros id n Hf. unfold demo_residue, put_file, set_files in Hf. simpl in Hf.
    destruct Hf as [b Hf]. apply lookup_insert_Some in Hf as [[Hf _]|[_ Hf]]; [discriminate|].
    apply lookup_singleton_Some in Hf as [Hf _]. discriminate.
Qed.

Definition demo_residue_reader : LocalFsInboxReader :=
  {| ir_dir := demo_residue; ir_seen := ∅; ir_script := busy_event <$> [false; false; false] |}.

Lemma finished_never_claimed_witness :
  "inbox_00000002" ∉ (λ c, msg_id (cim_message c)) <$> ([] : list ClaimedInboxMessage) ∧
  finished "inbox_00000002" (ir_dir (claim_pending 1800 200 demo_residue_reader).2).
Proof.
  apply (finished_never_claimed demo_origin "inbox_00000002" 1800 200 demo_residue_reader).
  - apply busy_rely. intros _. repeat constructor.
  - exact demo_residue_ok.
  - vm_compute. eauto.
  - vm_compute. reflexivity.
Defined.

Lemma lease_age_is_message_age_witness :
  ib_message demo_body = Some demo_msg ∧ is_fresh 1800 (ib_modified demo_body) 5000 = false ∧
  (claim_pending 1800 5000 (calm_reader ∅ (one_file (Processing "inbox_00000002" 0) demo_body 1))).1 =
    Ok [{| cim_message := demo_msg; cim_lease_id := Some (Processing "inbox_00000002" 1) |}].
Proof.
  split; [reflexivity|]. split; [reflexivity|].
  destruct (lease_age_is_message_age 1800 5000 "inbox_00000002" demo_body demo_msg 0) as (_ & H & _).
  - reflexivity.
  - reflexivity.
  - rewrite (proj1 (H eq_refl)). reflexivity.
Defined.

(** A broadcast is published; the agent pulls it, writes it while its other
    process is scanning, and the response to its acknowledgement is lost. *)
Definition demo_link : AgentLink :=
  {| al_team := demo_store;
     al_reader := calm_reader ∅ {| id_files := ∅; id_next_lease := 0 |}; al_net := [] |}.

Definition demo_net : list net_event :=
  [ {| ne_others := [([], CPull "b" 100)]; ne_faults := []; ne_outcome := NetDelivered |};
    {| ne_others := []; ne_faults := []; ne_outcome := NetResponseLost |} ].

Definition demo_history : list link_command :=
  [ LTeam [([], CPublish "n" "s" "sc" 100 None)];
    LSync 101 demo_net (busy_event <$> replicate 12 false);
    LLocal (OpClaim 1800 102) (busy_event <$> [false; true]);
    LRestart ].

Definition demo_end_link : AgentLink := exec_links demo_hex demo_self "a" demo_history demo_link.

Definition demo_end_entry : OutboxEntry :=
  match ts_outbox (al_team demo_end_link) !! "inbox_00000002" with
  | Some (Stored e) => e
  | _ => demo_entry
  end.

Lemma demo_history_ok :
  Forall (link_command_ok "a" (sent (ts_outbox (al_team demo_end_link)))) demo_history.
Proof.
  generalize (sent (ts_outbox (al_team demo_end_link))). intros origin.
  unfold demo_history.
  refine (Forall_cons_2 _ _ _ _ (Forall_cons_2 _ _ _ _ (Forall_cons_2 _ _ _ _
    (Forall_cons_2 _ _ _ _ (Forall_nil_2 _))))); simpl.
  - repeat constructor.
  - split; [repeat constructor|]. apply (busy_rely _ _ (replicate 12 false)). discriminate.
  - split; [exact I|]. apply (busy_rely _ _ [false; true]). discriminate.
  - exact I.
Qed.

Lemma no_message_lost_witness :
  was_delivered "a" demo_end_entry = true ∧
  ∃ f b m, file_id f = "inbox_00000002" ∧ id_files (ir_dir (al_reader demo_end_link)) !! f = Some b ∧
     ib_message b = Some m ∧ set_handled None m = set_handled None (ob_message demo_end_entry).
Proof.
  split; [vm_compute; reflexivity|].
  destruct (no_message_lost demo_hex demo_self "a" demo_history demo_link "inbox_00000002" demo_end_entry 200)
    as [H|[H _]].
  - split; [exact demo_empty|reflexivity].
  - exact demo_history_ok.
  - vm_compute. reflexivity.
  - vm_compute. reflexivity.
  - exact H.
  - exfalso. apply H. exists demo_end_entry. split; vm_compute; reflexivity.
Defined.
