(* ===== verification/UploadQueue.v ===== *)
(** * Uploads to the Maintainer (src/src/agent/maintainer_upload.rs,
    src/src/agent/consolidation_delivery.rs)

    Claims and disputes are staged in a pending file before anything is sent,
    and taken out of it when they are settled.  The queue lock is held only
    to read and rewrite the file, so other tasks of the agent stage further
    versions while requests are in flight; the delivery lock keeps to one
    delivery at a time.  A consolidation holds a retired claim back until
    the claims that carry its knowledge are acknowledged.

    The world carries what the others stage before each time the queue lock
    is taken, the answer to each request, whether the knowledge lock is free,
    and the I/O faults; it records what the Maintainer answered. *)

From S2P Require Import Prelude Storage Claim.
Import Ids.

(** ** consolidation_delivery.rs *)

Record ConsolidationDelivery := {
  cd_before : Claim;
  cd_retired : Claim;
  cd_carriers : list Claim;
}.

#[export] Instance ConsolidationDelivery_eq_dec : EqDecision ConsolidationDelivery.
Proof. solve_decision. Defined.

Definition acknowledge (acknowledged : list Claim) (claim : Claim) : list Claim :=
  filter (λ c, claim_id c ≠ claim_id claim) acknowledged ++ [claim].

Definition related_ids (groups : list ConsolidationDelivery) : gset ClaimId :=
  list_to_set (groups ≫= λ g, claim_id (cd_retired g) :: (claim_id <$> cd_carriers g)).

Definition is_deprecated (c : Claim) : bool := bool_decide (claim_status c = ClaimDeprecated).

Section delivery.
Context (groups : list ConsolidationDelivery) (acknowledged current : list Claim).

(** [visiting] holds the ids on the path, so each call extends it. *)
Fixpoint carrier_ready (fuel : nat) (visiting : gset ClaimId) (claim : Claim) : bool :=
  match fuel with
  | O => false
  | S fuel' =>
      if negb (is_deprecated claim) && bool_decide (claim ∈ current) && bool_decide (claim ∈ acknowledged)
      then true
      else if bool_decide (claim_id claim ∈ visiting) then false
      else existsb (λ g,
        bool_decide (cd_before g = claim) && bool_decide (cd_retired g ∈ current)
        && negb (bool_decide (cd_carriers g = []))
        && forallb (carrier_ready fuel' ({[claim_id claim]} ∪ visiting)) (cd_carriers g)) groups
  end.

(** Every nested call adds the id of a claim or carrier to the path. *)
Definition carrier_fuel : nat := S (S (length (groups ≫= cd_carriers))).

Definition ready (claim : Claim) : bool :=
  forallb (λ g,
    negb (bool_decide (cd_carriers g = []))
    && forallb (carrier_ready carrier_fuel ∅) (cd_carriers g))
    (filter (λ g, cd_retired g = claim) groups).
End delivery.

Definition supersede (groups : list ConsolidationDelivery) (claim : Claim) : list ConsolidationDelivery :=
  if is_deprecated claim then
    (λ g, if bool_decide (claim_id (cd_retired g) = claim_id claim)
          then {| cd_before := cd_before g; cd_retired := claim; cd_carriers := cd_carriers g |}
          else g) <$> groups
  else filter (λ g, claim_id (cd_retired g) ≠ claim_id claim) groups.

(** The indices of the groups whose [before] is a carrier of a kept group. *)
Definition prune_step (groups : list ConsolidationDelivery) (keep : gset nat) : gset nat :=
  keep ∪ list_to_set (elements keep ≫= λ index,
    match groups !! index with
    | None => []
    | Some g => cd_carriers g ≫= λ carrier,
        omap (λ ig, if bool_decide (cd_before ig.2 = carrier) then Some ig.1 else None)
          (imap pair groups)
    end).

Fixpoint prune_loop (fuel : nat) (groups : list ConsolidationDelivery) (keep : gset nat) : gset nat :=
  match fuel with
  | O => keep
  | S fuel' =>
      let next := prune_step groups keep in
      if bool_decide (next = keep) then keep else prune_loop fuel' groups next
  end.

(** The set grows by an index at least, up to all of them. *)
Definition prune_keep (groups : list ConsolidationDelivery) (pending : list Claim) : gset nat :=
  prune_loop (S (length groups)) groups
    (list_to_set (omap (λ ig, if bool_decide (cd_retired ig.2 ∈ pending) then Some ig.1 else None)
      (imap pair groups))).

Definition prune (groups : list ConsolidationDelivery) (acknowledged pending : list Claim) :
    list ConsolidationDelivery * list Claim :=
  let keep := prune_keep groups pending in
  let groups' := (filter (λ ig, ig.1 ∈ keep) (imap pair groups)).*2 in
  (groups', filter (λ c, claim_id c ∈ related_ids groups') acknowledged).

(** ** The pending file *)

Record PendingMaintainerUploads := {
  pu_consolidations : list ConsolidationDelivery;
  pu_acknowledgements : list Claim;
  pu_claims : list Claim;
  pu_durable_claim_ids : gset ClaimId;
  pu_disputes : list Dispute;
}.

Definition no_uploads : PendingMaintainerUploads :=
  {| pu_consolidations := []; pu_acknowledgements := []; pu_claims := [];
     pu_durable_claim_ids := ∅; pu_disputes := [] |}.

(** A [BTreeMap] by id, and its values in the order of the ids. *)
Definition by_key {A} (key : A → string) (l : list A) : gmap string A :=
  fold_left (λ m a, <[key a := a]> m) l ∅.
Definition values_by {A} (key : A → string) (m : gmap string A) : list A :=
  sort_by (cmp_on key String.compare) ((map_to_list m).*2).

(** A version is kept unless the newcomer is at least as new. *)
Definition replaces {A} (key : A → string) (stamp : A → DateTime) (m : gmap string A) (a : A) : bool :=
  match m !! key a with None => true | Some existing => (stamp existing <=? stamp a)%Z end.

Definition merge_claims (groups : list ConsolidationDelivery) (m : gmap string Claim)
    (claims : list Claim) : list ConsolidationDelivery * gmap string Claim :=
  fold_left (λ gm claim,
    if replaces claim_id effective_updated_at gm.2 claim
    then (supersede gm.1 claim, <[claim_id claim := claim]> gm.2) else gm) claims (groups, m).

Definition merge_disputes (m : gmap string Dispute) (disputes : list Dispute) : gmap string Dispute :=
  fold_left (λ m d, if replaces dispute_id dispute_created_at m d then <[dispute_id d := d]> m else m)
    disputes m.

Definition merge_pending_uploads (pending : PendingMaintainerUploads) (claims : list Claim)
    (disputes : list Dispute) : PendingMaintainerUploads :=
  let gm := merge_claims (pu_consolidations pending) (by_key claim_id (pu_claims pending)) claims in
  {| pu_consolidations := gm.1;
     pu_acknowledgements := pu_acknowledgements pending;
     pu_claims := values_by claim_id gm.2;
     pu_durable_claim_ids := filter (λ id, is_Some (gm.2 !! id)) (pu_durable_claim_ids pending);
     pu_disputes := values_by dispute_id
       (merge_disputes (by_key dispute_id (pu_disputes pending)) disputes) |}.

(** What is staged at once. *)
Record stage_request := {
  sr_claims : list Claim;
  sr_disputes : list Dispute;
  sr_durable : bool;
  sr_groups : list ConsolidationDelivery;
  sr_withdrawn : option PolicyId;
}.

Definition mark_durable (rq : stage_request) (p : PendingMaintainerUploads) : PendingMaintainerUploads :=
  if sr_durable rq then
    {| pu_consolidations := pu_consolidations p; pu_acknowledgements := pu_acknowledgements p;
       pu_claims := pu_claims p;
       pu_durable_claim_ids := pu_durable_claim_ids p ∪ list_to_set (claim_id <$> sr_claims rq);
       pu_disputes := pu_disputes p |}
  else p.

Definition merged_with (rq : stage_request) (p : PendingMaintainerUploads) : PendingMaintainerUploads :=
  merge_pending_uploads (mark_durable rq p) (sr_claims rq) (sr_disputes rq).

Definition set_consolidations (groups : list ConsolidationDelivery) (acks : list Claim)
    (p : PendingMaintainerUploads) : PendingMaintainerUploads :=
  {| pu_consolidations := groups; pu_acknowledgements := acks; pu_claims := pu_claims p;
     pu_durable_claim_ids := pu_durable_claim_ids p; pu_disputes := pu_disputes p |}.

(** The dependencies of claims that a withdrawn policy deprecates are dropped. *)
Definition withdraw_policy (policy : PolicyId) (p : PendingMaintainerUploads) : PendingMaintainerUploads :=
  let kept := filter (λ g, ¬ Exists (λ c, claim_id c = claim_id (cd_retired g) ∧
      claim_status c = ClaimDeprecated ∧ SourcePolicy policy ∈ claim_source_claim_ids c) (pu_claims p))
    (pu_consolidations p) in
  let pruned := prune kept (pu_acknowledgements p) (pu_claims p) in
  set_consolidations pruned.1 pruned.2 p.

Definition add_groups (groups : list ConsolidationDelivery) (p : PendingMaintainerUploads) :
    PendingMaintainerUploads :=
  set_consolidations
    (fold_left (λ gs g, filter (λ g', claim_id (cd_retired g') ≠ claim_id (cd_retired g)) gs ++ [g])
      groups (pu_consolidations p))
    (pu_acknowledgements p) p.

Definition staged (rq : stage_request) (p : PendingMaintainerUploads) : PendingMaintainerUploads :=
  let merged := merged_with rq p in
  add_groups (sr_groups rq)
    match sr_withdrawn rq with Some policy => withdraw_policy policy merged | None => merged end.

(** [rebind_consolidation]: the check and the change. *)
Definition can_rebind (previous : ConsolidationDelivery) (p : PendingMaintainerUploads) : bool :=
  bool_decide (cd_retired previous ∈ pu_claims p) && bool_decide (previous ∈ pu_consolidations p).

Definition rebound (revised : ConsolidationDelivery) (p : PendingMaintainerUploads) :
    PendingMaintainerUploads :=
  let carrier_ids := claim_id <$> cd_carriers revised in
  {| pu_consolidations :=
       filter (λ g, claim_id (cd_retired g) ≠ claim_id (cd_retired revised)) (pu_consolidations p)
         ++ [revised];
     pu_acknowledgements := pu_acknowledgements p;
     pu_claims := filter (λ c, claim_id c ∉ carrier_ids) (pu_claims p) ++ cd_carriers revised;
     pu_durable_claim_ids := pu_durable_claim_ids p ∪ list_to_set carrier_ids;
     pu_disputes := pu_disputes p |}.

(** ** After an attempt *)

Definition reconcile_map {A} (key : A → string) `{EqDecision A} (failed : gset string)
    (current : gmap string A) (attempted : list A) : gmap string A :=
  fold_left (λ m a,
    if bool_decide (key a ∈ failed) then
      if match m !! key a with None => true | Some c => bool_decide (c = a) end
      then <[key a := a]> m else m
    else
      if match m !! key a with None => false | Some c => bool_decide (c = a) end
      then delete (key a) m else m) attempted current.

(** The durable marks, updated in the same loop. *)
Definition reconcile_durable (failed : gset string) (failed_durable : gset ClaimId)
    (current : gmap string Claim) (attempted : list Claim) (durable : gset ClaimId) : gset ClaimId :=
  (fold_left (λ md a,
    if bool_decide (claim_id a ∈ failed) then
      (if match md.1 !! claim_id a with None => true | Some c => bool_decide (c = a) end
       then <[claim_id a := a]> md.1 else md.1,
       if bool_decide (claim_id a ∈ failed_durable) then {[claim_id a]} ∪ md.2 else md.2)
    else
      if match md.1 !! claim_id a with None => false | Some c => bool_decide (c = a) end
      then (delete (claim_id a) md.1, md.2 ∖ {[claim_id a]}) else md) attempted (current, durable)).2.

Definition reconcile_pending_uploads_after_attempt (current attempted failed : PendingMaintainerUploads) :
    PendingMaintainerUploads :=
  let acknowledgements := fold_left acknowledge (pu_acknowledgements attempted) (pu_acknowledgements current) in
  let failed_claims : gset string := list_to_set (claim_id <$> pu_claims failed) in
  let failed_disputes : gset string := list_to_set (dispute_id <$> pu_disputes failed) in
  let claims0 := by_key claim_id (pu_claims current) in
  let claims_by_id := reconcile_map claim_id failed_claims claims0 (pu_claims attempted) in
  let durable := reconcile_durable failed_claims (pu_durable_claim_ids failed) claims0
    (pu_claims attempted) (pu_durable_claim_ids current) in
  let disputes_by_id := reconcile_map dispute_id failed_disputes
    (by_key dispute_id (pu_disputes current)) (pu_disputes attempted) in
  let claims := values_by claim_id claims_by_id in
  let pruned := prune (pu_consolidations current) acknowledgements claims in
  {| pu_consolidations := pruned.1; pu_acknowledgements := pruned.2; pu_claims := claims;
     pu_durable_claim_ids := filter (λ id, is_Some (claims_by_id !! id)) durable;
     pu_disputes := values_by dispute_id disputes_by_id |}.

(** ** State *)

Inductive UploadErrorKind := ErrAuth | ErrForbidden | ErrRetryable | ErrConflict | ErrClient | ErrUnknown.

#[export] Instance UploadErrorKind_eq_dec : EqDecision UploadErrorKind.
Proof. solve_decision. Defined.

(** The errors of the client (src/src/maintainer/traits.rs). *)
Inductive MaintainerClientError :=
| MceAuth (operation : string) (status : Z)
| MceRetryable (operation : string) (timeout_secs : Z) (timed_out : bool) (message : string)
| MceClient (operation : string) (status : Z) (body : string)
| MceLegacyServer (operation : string) (status : Z).

Definition is_auth (e : MaintainerClientError) : bool := match e with MceAuth _ _ => true | _ => false end.
Definition is_retryable (e : MaintainerClientError) : bool :=
  match e with MceRetryable _ _ _ _ => true | _ => false end.

(** [None]: an error that is not one of the client's. *)
Definition classify_upload_error (err : option MaintainerClientError) : UploadErrorKind :=
  match err with
  | Some e =>
      if is_auth e then ErrAuth
      else if is_retryable e then ErrRetryable
      else match e with
           | MceClient _ status _ =>
               if (status =? 403)%Z then ErrForbidden
               else if (status =? 409)%Z then ErrConflict else ErrClient
           | _ => ErrUnknown
           end
  | None => ErrUnknown
  end.

(** What another task of the agent does: write a claim, stage a batch, or
    rebind a consolidation. *)
Inductive other_task :=
| OtherWrites (c : Claim)
| OtherStages (rq : stage_request)
| OtherRebinds (previous revised : ConsolidationDelivery).

Record UploadHome := {
  uh_client : bool;  (* is a Maintainer configured *)
  uh_pending : gmap string (file PendingMaintainerUploads);
  uh_claims : gmap string (file Claim);  (* the local claim files *)
  uh_others : list (list other_task);  (* before each time a lock is taken *)
  uh_knowledge : list bool;  (* is the knowledge lock free and no Dream commit pending *)
  uh_picks : list nat;  (* which request in flight completes next *)
  uh_answers : list (option (option MaintainerClientError));  (* the Maintainer's answers; [None] accepts *)
  uh_accepted : list Claim;  (* what it accepted *)
  uh_refused : list Claim;  (* claims dropped after a 401 or 403 *)
  uh_settled : list Dispute;  (* disputes it accepted or rejected with a 409 *)
  uh_faults : list bool;
}.

Definition set_pending m h := {|
  uh_client := uh_client h; uh_pending := m; uh_claims := uh_claims h; uh_others := uh_others h;
  uh_knowledge := uh_knowledge h; uh_picks := uh_picks h; uh_answers := uh_answers h;
  uh_accepted := uh_accepted h; uh_refused := uh_refused h; uh_settled := uh_settled h;
  uh_faults := uh_faults h |}.
Definition set_claims m h := {|
  uh_client := uh_client h; uh_pending := uh_pending h; uh_claims := m; uh_others := uh_others h;
  uh_knowledge := uh_knowledge h; uh_picks := uh_picks h; uh_answers := uh_answers h;
  uh_accepted := uh_accepted h; uh_refused := uh_refused h; uh_settled := uh_settled h;
  uh_faults := uh_faults h |}.
Definition set_others o h := {|
  uh_client := uh_client h; uh_pending := uh_pending h; uh_claims := uh_claims h; uh_others := o;
  uh_knowledge := uh_knowledge h; uh_picks := uh_picks h; uh_answers := uh_answers h;
  uh_accepted := uh_accepted h; uh_refused := uh_refused h; uh_settled := uh_settled h;
  uh_faults := uh_faults h |}.
Definition set_knowledge k h := {|
  uh_client := uh_client h; uh_pending := uh_pending h; uh_claims := uh_claims h;
  uh_others := uh_others h; uh_knowledge := k; uh_picks := uh_picks h;
  uh_answers := uh_answers h; uh_accepted := uh_accepted h; uh_refused := uh_refused h;
  uh_settled := uh_settled h; uh_faults := uh_faults h |}.
Definition set_picks p h := {|
  uh_client := uh_client h; uh_pending := uh_pending h; uh_claims := uh_claims h;
  uh_others := uh_others h; uh_knowledge := uh_knowledge h; uh_picks := p;
  uh_answers := uh_answers h; uh_accepted := uh_accepted h; uh_refused := uh_refused h;
  uh_settled := uh_settled h; uh_faults := uh_faults h |}.
Definition set_answers a h := {|
  uh_client := uh_client h; uh_pending := uh_pending h; uh_claims := uh_claims h;
  uh_others := uh_others h; uh_knowledge := uh_knowledge h; uh_picks := uh_picks h;
  uh_answers := a; uh_accepted := uh_accepted h; uh_refused := uh_refused h;
  uh_settled := uh_settled h; uh_faults := uh_faults h |}.
Definition log_accepted c h := {|
  uh_client := uh_client h; uh_pending := uh_pending h; uh_claims := uh_claims h;
  uh_others := uh_others h; uh_knowledge := uh_knowledge h; uh_picks := uh_picks h;
  uh_answers := uh_answers h; uh_accepted := uh_accepted h ++ [c]; uh_refused := uh_refused h;
  uh_settled := uh_settled h; uh_faults := uh_faults h |}.
Definition log_refused c h := {|
  uh_client := uh_client h; uh_pending := uh_pending h; uh_claims := uh_claims h;
  uh_others := uh_others h; uh_knowledge := uh_knowledge h; uh_picks := uh_picks h;
  uh_answers := uh_answers h; uh_accepted := uh_accepted h; uh_refused := uh_refused h ++ [c];
  uh_settled := uh_settled h; uh_faults := uh_faults h |}.
Definition log_settled d h := {|
  uh_client := uh_client h; uh_pending := uh_pending h; uh_claims := uh_claims h;
  uh_others := uh_others h; uh_knowledge := uh_knowledge h; uh_picks := uh_picks h;
  uh_answers := uh_answers h; uh_accepted := uh_accepted h; uh_refused := uh_refused h;
  uh_settled := uh_settled h ++ [d]; uh_faults := uh_faults h |}.
Definition set_uh_faults fs h := {|
  uh_client := uh_client h; uh_pending := uh_pending h; uh_claims := uh_claims h;
  uh_others := uh_others h; uh_knowledge := uh_knowledge h; uh_picks := uh_picks h;
  uh_answers := uh_answers h; uh_accepted := uh_accepted h; uh_refused := uh_refused h;
  uh_settled := uh_settled h; uh_faults := fs |}.

#[export] Instance UploadHome_HasIO : HasIO UploadHome :=
  {| faults := uh_faults; set_faults := set_uh_faults |}.

Definition pending_dir : Dir UploadHome PendingMaintainerUploads :=
  {| dir_get := uh_pending; dir_set := set_pending |}.
Definition claims_dir : Dir UploadHome Claim := {| dir_get := uh_claims; dir_set := set_claims |}.

#[export] Instance pending_laws : DirLaws pending_dir.
Proof. by split. Qed.
#[export] Instance claims_laws : DirLaws claims_dir.
Proof. by split. Qed.

Inductive UploadError :=
| UploadStorage (e : StorageError)
| UploadLock
| DeliveryDisabled
| DependencyChanged.

#[export] Instance UploadError_storage : FromStorage UploadError := UploadStorage.

Notation UM := (M UploadHome UploadError).

(** ** The queue file *)

Definition PENDING : string := "pending".

Definition nothing_pending (p : PendingMaintainerUploads) : bool :=
  bool_decide (pu_claims p = []) && bool_decide (pu_disputes p = []).

(** [LocalFsMaintainerUploadQueue::read]: no file is an empty queue. *)
Definition queue_read : UM PendingMaintainerUploads :=
  r ← m_try (read_yaml pending_dir PENDING);
  match r with
  | Ok p => mret p
  | Err (UploadStorage FileNotFound) => mret no_uploads
  | Err e => fail e
  end.

Definition write_or_clear (p : PendingMaintainerUploads) : UM unit :=
  if nothing_pending p
  then _ ← io; modify (λ h, set_pending (delete PENDING (uh_pending h)) h)
  else write_yaml_atomic pending_dir PENDING p.

(** What the file says, for the other tasks. *)
Definition pending_value (h : UploadHome) : option PendingMaintainerUploads :=
  match uh_pending h !! PENDING with
  | None => Some no_uploads
  | Some (Stored p) => Some p
  | Some Reserved => None
  end.

Definition store_pending (p : PendingMaintainerUploads) (h : UploadHome) : UploadHome :=
  set_pending (if nothing_pending p then delete PENDING (uh_pending h)
               else <[PENDING := Stored p]> (uh_pending h)) h.

(** The local file of a claim has this version or a later one: a claim is
    written before it is staged, each version with a later stamp. *)
Definition behind_local (h : UploadHome) (c : Claim) : bool :=
  match uh_claims h !! claim_id c with
  | Some (Stored l) => (effective_updated_at c <=? effective_updated_at l)%Z
  | _ => false
  end.

Definition is_local (h : UploadHome) (c : Claim) : bool :=
  match uh_claims h !! claim_id c with Some (Stored l) => bool_decide (l = c) | _ => false end.

Definition can_run (h : UploadHome) (t : other_task) : bool :=
  match t with
  | OtherWrites c =>
      match uh_claims h !! claim_id c with
      | Some (Stored l) => (effective_updated_at l <=? effective_updated_at c)%Z
      | _ => true
      end
  | OtherStages rq => forallb (behind_local h) (sr_claims rq)
  | OtherRebinds _ revised =>
      forallb (is_local h) (cd_carriers revised)
      && bool_decide (NoDup (claim_id <$> cd_carriers revised))
  end.

Definition run_other (h : UploadHome) (t : other_task) : UploadHome :=
  if negb (can_run h t) then h else
  match t with
  | OtherWrites c => set_claims (<[claim_id c := Stored c]> (uh_claims h)) h
  | OtherStages rq =>
      match pending_value h with Some p => store_pending (staged rq p) h | None => h end
  | OtherRebinds previous revised =>
      match pending_value h with
      | Some p => if can_rebind previous p then store_pending (rebound revised p) h else h
      | None => h
      end
  end.

(** Who writes or stages claims holds the knowledge lock. *)
Definition needs_knowledge (t : other_task) : bool :=
  match t with
  | OtherWrites _ | OtherRebinds _ _ => true
  | OtherStages rq => negb (bool_decide (sr_claims rq = []))
  end.

Definition prepend {A} (l : list A) (ls : list (list A)) : list (list A) :=
  match l, ls with
  | [], _ => ls
  | _, [] => [l]
  | _, l' :: ls' => (l ++ l') :: ls'
  end.

(** The others have been at work while a lock was awaited, those that need the
    knowledge lock only if it is not [held] here. *)
Definition await_others (held : bool) : UM unit := modify (λ h,
  let events := default [] (head (uh_others h)) in
  let waiting := filter (λ t, held && needs_knowledge t = true) events in
  let running := filter (λ t, ¬ (held && needs_knowledge t = true)) events in
  set_others (prepend waiting (tail (uh_others h))) (fold_left run_other running h)).

(** Taking [lock] and the lock file. *)
Definition lock_queue (held : bool) : UM unit := _ ← await_others held; io_step UploadLock.

Definition has_client : UM bool := gets uh_client.

(** [held]: the caller holds the knowledge lock. *)
Definition stage_maintainer_batch_held (held : bool) (rq : stage_request) : UM unit :=
  client ← has_client;
  if negb (client : bool) then mret tt
  else
    _ ← lock_queue held;
    p ← queue_read;
    write_or_clear (staged rq p).

Definition stage_maintainer_batch_inner : stage_request → UM unit := stage_maintainer_batch_held false.

(** Its caller, the Dream execution, reads the claims under the knowledge lock. *)
Definition rebind_consolidation (previous revised : ConsolidationDelivery) : UM unit :=
  client ← has_client;
  if negb (client : bool) then fail DeliveryDisabled
  else
    _ ← lock_queue true;
    p ← queue_read;
    if can_rebind previous p then write_or_clear (rebound revised p) else fail DependencyChanged.

Definition pending_consolidations : UM (list ConsolidationDelivery) :=
  client ← has_client;
  if negb (client : bool) then mret []
  else p ← queue_read; mret (pu_consolidations p).

(** ** Delivery *)

(** [try_lock_exclusive] on the knowledge lock and [ensure_knowledge_ready]. *)
Definition knowledge_ready : UM bool :=
  _ ← await_others false;
  _ ← io_step UploadLock;
  b ← gets (λ h, default true (head (uh_knowledge h)));
  _ ← modify (λ h, set_knowledge (tail (uh_knowledge h)) h);
  mret b.

(** [list_yaml_files]: what does not parse is skipped. *)
Fixpoint read_all (names : list string) : UM (list Claim) :=
  match names with
  | [] => mret []
  | name :: names' =>
      _ ← io;
      r ← m_try (read_yaml claims_dir name);
      match r with
      | Ok c => rest ← read_all names'; mret (c :: rest)
      | Err (UploadStorage DecodeFailed) => read_all names'
      | Err e => fail e
      end
  end.

Definition list_local_claims : UM (list Claim) :=
  _ ← io;
  _ ← io;
  names ← gets (λ h, (map_to_list (uh_claims h)).*1);
  read_all names.

(** [buffer_unordered]: of the first eight requests not completed, any may
    complete next. *)
Definition MAINTAINER_UPLOAD_MAX_CONCURRENCY : nat := 8.

Fixpoint completion {A} (picks : list nat) (l : list A) : list A :=
  match picks with
  | [] => l
  | i :: picks' =>
      let k := i mod Nat.min MAINTAINER_UPLOAD_MAX_CONCURRENCY (length l) in
      match l !! k with
      | Some x => x :: completion picks' (delete k l)
      | None => l
      end
  end.

Definition completed {A} (l : list A) : UM (list A) := λ h,
  (Ok (completion (uh_picks h) l), set_picks (drop (length l) (uh_picks h)) h).

(** One request; an exhausted stream of answers accepts. *)
Definition answer : UM (option UploadErrorKind) := λ h,
  (Ok (classify_upload_error <$> default None (head (uh_answers h))), set_answers (tail (uh_answers h)) h).

(** The queued versions of consolidated claims are brought up to date. *)
Fixpoint refresh_claims (related : gset ClaimId) (local claims : list Claim)
    (groups : list ConsolidationDelivery) : list Claim * list ConsolidationDelivery :=
  match claims with
  | [] => ([], groups)
  | queued :: claims' =>
      match (if bool_decide (claim_id queued ∈ related)
             then list_find (λ c, claim_id c = claim_id queued) local else None) with
      | Some (_, actual) =>
          let r := refresh_claims related local claims' (supersede groups actual) in
          (actual :: r.1, r.2)
      | None =>
          let r := refresh_claims related local claims' groups in (queued :: r.1, r.2)
      end
  end.

Definition refreshed (local : list Claim) (p : PendingMaintainerUploads) : PendingMaintainerUploads :=
  let r := refresh_claims (related_ids (pu_consolidations p)) local (pu_claims p) (pu_consolidations p) in
  {| pu_consolidations := r.2; pu_acknowledgements := pu_acknowledgements p; pu_claims := r.1;
     pu_durable_claim_ids := pu_durable_claim_ids p; pu_disputes := pu_disputes p |}.

Definition refresh_attempt (attempted : PendingMaintainerUploads) : UM PendingMaintainerUploads :=
  if bool_decide (pu_consolidations attempted = []) then mret attempted
  else
    free ← knowledge_ready;
    if negb (free : bool) then mret attempted
    else
      local ← list_local_claims;
      _ ← lock_queue true;
      p ← queue_read;
      let attempted := refreshed local p in
      _ ← write_or_clear attempted;
      mret attempted.

(** What failed so far: the claims, the ids marked durable, the counters. *)
Record UploadCounters := {
  uc_auth : nat; uc_forbidden : nat; uc_retryable : nat; uc_rejected : nat;
  uc_conflicts : nat;
}.

Definition count (k : UploadErrorKind) (n : UploadCounters) : UploadCounters :=
  {| uc_auth := uc_auth n + (if bool_decide (k = ErrAuth) then 1 else 0);
     uc_forbidden := uc_forbidden n + (if bool_decide (k = ErrForbidden) then 1 else 0);
     uc_retryable := uc_retryable n + (if bool_decide (k = ErrRetryable) then 1 else 0);
     uc_rejected := uc_rejected n +
       (if bool_decide (k = ErrClient ∨ k = ErrUnknown) then 1 else 0);
     uc_conflicts := uc_conflicts n + (if bool_decide (k = ErrConflict) then 1 else 0) |}.

Definition retain_failed_claim (claim : Claim) (durable : bool) (failed : PendingMaintainerUploads) :
    PendingMaintainerUploads :=
  {| pu_consolidations := pu_consolidations failed; pu_acknowledgements := pu_acknowledgements failed;
     pu_claims := pu_claims failed ++ [claim];
     pu_durable_claim_ids :=
       (if durable then {[claim_id claim]} else ∅) ∪ pu_durable_claim_ids failed;
     pu_disputes := pu_disputes failed |}.

(** A 401 or 403 keeps a durable claim only; a 409 on a claim is an error
    like any other. *)
Definition keeps_claim (k : UploadErrorKind) (durable : bool) : bool :=
  match k with ErrAuth | ErrForbidden => durable | _ => true end.

Definition claim_kind (k : UploadErrorKind) : UploadErrorKind :=
  match k with ErrConflict => ErrUnknown | k => k end.

Fixpoint upload_ready (durable_ids : gset ClaimId) (ready_claims : list Claim)
    (acks : list Claim) (failed : PendingMaintainerUploads) (n : UploadCounters) :
    UM (list Claim * PendingMaintainerUploads * UploadCounters) :=
  match ready_claims with
  | [] => mret (acks, failed, n)
  | claim :: rest =>
      a ← answer;
      match a with
      | None =>
          _ ← modify (log_accepted claim);
          upload_ready durable_ids rest (acknowledge acks claim) failed n
      | Some k =>
          let durable := bool_decide (claim_id claim ∈ durable_ids) in
          if keeps_claim k durable
          then upload_ready durable_ids rest acks (retain_failed_claim claim durable failed)
                 (count (claim_kind k) n)
          else
            _ ← modify (log_refused claim);
            upload_ready durable_ids rest acks failed (count (claim_kind k) n)
      end
  end.

Definition local_for (groups : list ConsolidationDelivery) : UM (option (list Claim)) :=
  if bool_decide (related_ids groups = ∅) then mret (Some [])
  else
    free ← knowledge_ready;
    if (free : bool) then local ← list_local_claims; mret (Some local) else mret None.

Definition is_ready (groups : list ConsolidationDelivery) (acks : list Claim) (local : option (list Claim))
    (claim : Claim) : bool :=
  negb (bool_decide (claim_id claim ∈ related_ids groups))
  || match local with
     | None => false
     | Some l => bool_decide (claim ∈ l) && ready groups acks l claim
     end.

(** Rounds: what is ready is sent, and its acknowledgements may make more
    ready.  Each round takes a claim out of [remaining], so that many rounds
    and one are enough. *)
Fixpoint upload_rounds (fuel : nat) (groups : list ConsolidationDelivery) (durable_ids : gset ClaimId)
    (remaining acks : list Claim) (failed : PendingMaintainerUploads) (n : UploadCounters) :
    UM (list Claim * list Claim * PendingMaintainerUploads * UploadCounters) :=
  match fuel with
  | O => mret (remaining, acks, failed, n)
  | S fuel' =>
      local ← local_for groups;
      let ready_claims := filter (λ c, is_ready groups acks local c = true) remaining in
      if bool_decide (ready_claims = []) then mret (remaining, acks, failed, n)
      else
        order ← completed ready_claims;
        r ← upload_ready durable_ids order acks failed n;
        upload_rounds fuel' groups durable_ids (filter (λ c, c ∉ ready_claims) remaining)
          r.1.1 r.1.2 r.2
  end.

Definition add_failed_dispute (d : Dispute) (failed : PendingMaintainerUploads) : PendingMaintainerUploads :=
  {| pu_consolidations := pu_consolidations failed; pu_acknowledgements := pu_acknowledgements failed;
     pu_claims := pu_claims failed; pu_durable_claim_ids := pu_durable_claim_ids failed;
     pu_disputes := pu_disputes failed ++ [d] |}.

Fixpoint report_disputes (disputes : list Dispute) (failed : PendingMaintainerUploads)
    (n : UploadCounters) : UM (PendingMaintainerUploads * UploadCounters) :=
  match disputes with
  | [] => mret (failed, n)
  | d :: rest =>
      a ← answer;
      match a with
      | None => _ ← modify (log_settled d); report_disputes rest failed n
      | Some ErrConflict =>
          _ ← modify (log_settled d); report_disputes rest failed (count ErrConflict n)
      | Some k => report_disputes rest (add_failed_dispute d failed) (count k n)
      end
  end.

Record MaintainerUploadReport := {
  mur_pending_claims : nat;
  mur_pending_disputes : nat;
  mur_blocked_claims : nat;
  mur_counters : UploadCounters;
}.

Definition no_counters : UploadCounters :=
  {| uc_auth := 0; uc_forbidden := 0; uc_retryable := 0; uc_rejected := 0; uc_conflicts := 0 |}.
Definition empty_report : MaintainerUploadReport :=
  {| mur_pending_claims := 0; mur_pending_disputes := 0; mur_blocked_claims := 0;
     mur_counters := no_counters |}.

Definition with_acknowledgements (acks : list Claim) (p : PendingMaintainerUploads) :
    PendingMaintainerUploads := set_consolidations (pu_consolidations p) acks p.

(** The last step: the file is read again, since it may have changed. *)
Definition finish_attempt (attempted failed : PendingMaintainerUploads) : UM unit :=
  _ ← lock_queue false;
  current ← queue_read;
  write_or_clear (reconcile_pending_uploads_after_attempt current attempted failed).

(** What follows the uploads: the disputes, the queue file, the report. *)
Definition settle_attempt (attempted : PendingMaintainerUploads)
    (r : list Claim * list Claim * PendingMaintainerUploads * UploadCounters) : UM MaintainerUploadReport :=
  let '(remaining, acks, failed, n) := r in
  let failed := fold_left (λ f c, retain_failed_claim c true f) remaining failed in
  order ← completed (pu_disputes attempted);
  d ← report_disputes order failed n;
  _ ← finish_attempt (with_acknowledgements acks attempted) d.1;
  mret {| mur_pending_claims := length (pu_claims d.1); mur_pending_disputes := length (pu_disputes d.1);
          mur_blocked_claims := length remaining; mur_counters := d.2 |}.

Definition deliver (attempted : PendingMaintainerUploads) : UM MaintainerUploadReport :=
  r ← upload_rounds (S (length (pu_claims attempted))) (pu_consolidations attempted)
        (pu_durable_claim_ids attempted) (pu_claims attempted) (pu_acknowledgements attempted)
        no_uploads no_counters;
  settle_attempt attempted r.

Definition upload_maintainer_batch_inner (rq : stage_request) : UM MaintainerUploadReport :=
  client ← has_client;
  if negb (client : bool) then mret empty_report
  else
    _ ← stage_maintainer_batch_inner rq;
    _ ← io_step UploadLock;      (* the delivery lock *)
    _ ← lock_queue false;
    attempted ← queue_read;
    if nothing_pending attempted then mret empty_report
    else
      attempted ← refresh_attempt attempted;
      if nothing_pending attempted then mret empty_report else deliver attempted.
