(* ===== verification/StepLogic.v ===== *)
(** * A program logic for fallible operations on a world with an invariant

    [triple P m Q]: from a world that satisfies the invariant and [P], the
    operation [m] keeps the invariant and moves the world along [step],
    errors included, and establishes [Q] when it succeeds.  [step] is a
    preorder that says what is never lost; facts that are stable along it
    survive any operation. *)

From S2P Require Import Prelude.

Section logic.
Context {W E : Type} (inv : W → Prop) (step : W → W → Prop) `{!PreOrder step}.

Definition triple {A} (P : W → Prop) (m : M W E A) (Q : A → W → Prop) : Prop :=
  ∀ w r w', inv w → P w → m w = (r, w') → step w w' ∧ inv w' ∧ ∀ a, r = Ok a → Q a w'.

Definition stable (P : W → Prop) : Prop := ∀ w w', inv w → step w w' → P w → P w'.

Lemma triple_ret {A} (a : A) P (Q : A → W → Prop) : (∀ w, inv w → P w → Q a w) → triple P (mret a) Q.
Proof. intros HQ w r w' Hi Hp [= <- <-]. split; [done|]. split; [done|]. intros ? [= <-]. auto. Qed.

Lemma triple_fail {A} e P (Q : A → W → Prop) : triple P (fail e) Q.
Proof. intros w r w' Hi Hp [= <- <-]. done. Qed.

Lemma triple_bind {A B} (m : M W E A) (f : A → M W E B) P Q R :
  triple P m Q → (∀ a, triple (Q a) (f a) R) → triple P (m ≫= f) R.
Proof.
  intros Hm Hf w r w' Hi Hp [(a & w1 & H1 & H2)|(e & H1 & ->)]%bind_cases.
  - destruct (Hm _ _ _ Hi Hp H1) as (Hs & Hi1 & HQ).
    destruct (Hf a _ _ _ Hi1 (HQ a eq_refl) H2) as (Hs2 & ? & ?). split; [by etrans|done].
  - destruct (Hm _ _ _ Hi Hp H1) as (? & ? & _). done.
Qed.

Lemma triple_pre {A} (P P' : W → Prop) (m : M W E A) Q :
  (∀ w, inv w → P w → P' w) → triple P' m Q → triple P m Q.
Proof. intros HP Hm w r w' Hi Hp. apply Hm; auto. Qed.

Lemma triple_post {A} P (m : M W E A) (Q Q' : A → W → Prop) :
  (∀ a w, inv w → Q' a w → Q a w) → triple P m Q' → triple P m Q.
Proof.
  intros HQ Hm w r w' Hi Hp E0. destruct (Hm _ _ _ Hi Hp E0) as (? & ? & H).
  split; [done|]. split; [done|]. intros a Ha. apply HQ; auto.
Qed.

Lemma triple_pure {A} (φ : Prop) P (m : M W E A) Q :
  (φ → triple P m Q) → triple (λ w, P w ∧ φ) m Q.
Proof. intros Hm w r w' Hi [Hp Hφ]. by apply Hm. Qed.

Lemma triple_frame {A} (R : W → Prop) P (m : M W E A) Q :
  stable R → triple P m Q → triple (λ w, P w ∧ R w) m (λ a w, Q a w ∧ R w).
Proof.
  intros HR Hm w r w' Hi [Hp Hr] E0. destruct (Hm _ _ _ Hi Hp E0) as (Hs & ? & HQ).
  split; [done|]. split; [done|]. intros a Ha. split; [auto|]. exact (HR _ _ Hi Hs Hr).
Qed.

Lemma triple_gets {A} (f : W → A) P : triple P (gets f) (λ a w, P w ∧ a = f w).
Proof. intros w r w' Hi Hp [= <- <-]. split; [done|]. split; [done|]. by intros a [= <-]. Qed.

Lemma triple_modify (f : W → W) P (Q : unit → W → Prop) :
  (∀ w, inv w → P w → step w (f w) ∧ inv (f w) ∧ Q tt (f w)) → triple P (modify f) Q.
Proof.
  intros HQ w r w' Hi Hp [= <- <-]. destruct (HQ _ Hi Hp) as (? & ? & ?).
  split; [done|]. split; [done|]. by intros [] _.
Qed.

(** The error branch keeps what is stable. *)
Lemma triple_try {A} P (m : M W E A) Q (R : Result E A → W → Prop) :
  stable P → triple P m Q → (∀ a w, Q a w → R (Ok a) w) → (∀ e w, P w → R (Err e) w) →
  triple P (m_try m) R.
Proof.
  intros HP Hm HOk HErr w r w' Hi Hp. unfold m_try. destruct (m w) as [r0 w0] eqn:E0.
  intros [= <- <-]. destruct (Hm _ _ _ Hi Hp E0) as (Hs & ? & HQ). split; [done|]. split; [done|].
  intros a [= <-]. destruct r0 as [a|e]; [by apply HOk, HQ|]. apply HErr. exact (HP _ _ Hi Hs Hp).
Qed.

Lemma stable_and P Q : stable P → stable Q → stable (λ w, P w ∧ Q w).
Proof. intros HP HQ w w' Hi Hm [Hp Hq]. split; [exact (HP _ _ Hi Hm Hp)|exact (HQ _ _ Hi Hm Hq)]. Qed.

Lemma stable_const (P : Prop) : stable (λ _, P).
Proof. by intros w w' _ _. Qed.

Lemma stable_all {A} (P : A → W → Prop) : (∀ x, stable (P x)) → stable (λ w, ∀ x, P x w).
Proof. intros HP w w' Hi Hs Hw x. exact (HP x _ _ Hi Hs (Hw x)). Qed.
End logic.

(** ** Guarded triples

    The same, relative to a property [ok] of the final world that only
    becomes harder to satisfy as the world [grows]: what holds of a run
    whose final world is [ok]. *)

Section guarded.
Context {W E : Type} (inv : W → Prop) (step grows : W → W → Prop) (ok : W → Prop).
Context `{!PreOrder step} `{!PreOrder grows} (ok_grows : ∀ w w', grows w w' → ok w' → ok w).

Definition guarded {A} (P : W → Prop) (m : M W E A) (Q : A → W → Prop) : Prop :=
  ∀ w r w', m w = (r, w') → (ok w → inv w ∧ P w) →
    grows w w' ∧ (ok w' → step w w' ∧ inv w' ∧ ∀ a, r = Ok a → Q a w').

Lemma guarded_intro {A} P (m : M W E A) Q : preserves grows m →
  (∀ w r w', ok w' → inv w → P w → m w = (r, w') → step w w' ∧ inv w' ∧ ∀ a, r = Ok a → Q a w') →
  guarded P m Q.
Proof.
  intros Hg Hm w r w' Hr Hp. pose proof (Hg _ _ _ Hr) as Hgr. split; [done|]. intros Hok.
  destruct (Hp (ok_grows _ _ Hgr Hok)). by apply (Hm w r w').
Qed.

Lemma guarded_ret {A} (a : A) P (Q : A → W → Prop) : (∀ w, inv w → P w → Q a w) → guarded P (mret a) Q.
Proof.
  intros HQ. apply guarded_intro; [apply preserves_ret, _|]. intros w r w' _ Hi Hp [= <- <-].
  split_and!; [done..|]. intros ? [= <-]. auto.
Qed.

Lemma guarded_fail {A} e P (Q : A → W → Prop) : guarded P (fail e) Q.
Proof. apply guarded_intro; [apply preserves_fail, _|]. by intros w r w' _ Hi Hp [= <- <-]. Qed.

Lemma guarded_bind {A B} (m : M W E A) (f : A → M W E B) P Q R :
  guarded P m Q → (∀ a, guarded (Q a) (f a) R) → guarded P (m ≫= f) R.
Proof.
  intros Hm Hf w r w' [(a & w1 & H1 & H2)|(e & H1 & ->)]%bind_cases Hp;
    destruct (Hm _ _ _ H1 Hp) as (Hg & HQ); [|by split; [|intros Hok; destruct (HQ Hok) as (? & ? & _)]].
  destruct (Hf a _ _ _ H2) as (Hg2 & HR); [intros Hok; destruct (HQ Hok) as (_ & ? & Ha); by split; [|apply Ha]|].
  split; [by etrans|]. intros Hok. destruct (HR Hok) as (? & ? & ?).
  destruct (HQ (ok_grows _ _ Hg2 Hok)) as (? & _). split; [by etrans|done].
Qed.

Lemma guarded_pre {A} (P P' : W → Prop) (m : M W E A) Q :
  (∀ w, inv w → P w → P' w) → guarded P' m Q → guarded P m Q.
Proof. intros HP Hm w r w' Hr Hp. apply Hm; [done|]. intros Hok. destruct (Hp Hok). split; auto. Qed.

Lemma guarded_post {A} P (m : M W E A) (Q Q' : A → W → Prop) :
  (∀ a w, inv w → Q' a w → Q a w) → guarded P m Q' → guarded P m Q.
Proof.
  intros HQ Hm w r w' Hr Hp. destruct (Hm _ _ _ Hr Hp) as (? & H). split; [done|]. intros Hok.
  destruct (H Hok) as (? & ? & HQ'). split_and!; [done..|]. auto.
Qed.

Lemma guarded_modify (f : W → W) P (Q : unit → W → Prop) : (∀ w, grows w (f w)) →
  (∀ w, inv w → P w → step w (f w) ∧ inv (f w) ∧ Q tt (f w)) → guarded P (modify f) Q.
Proof.
  intros Hg HQ. apply guarded_intro; [by intros w r w' [= _ <-]|]. intros w r w' _ Hi Hp [= <- <-].
  destruct (HQ _ Hi Hp) as (? & ? & ?). split_and!; [done..|]. by intros [] _.
Qed.

(** What the state tells may be assumed. *)
Lemma guarded_assume {A} (φ : Prop) (m : M W E A) P Q : preserves grows m →
  (∀ w, inv w → P w → φ) → (φ → guarded P m Q) → guarded P m Q.
Proof.
  intros Hg Hφ Hm. apply guarded_intro; [done|]. intros w r w' Hok Hi Hp Hr.
  destruct (Hm (Hφ w Hi Hp) w r w' Hr) as [_ H]; auto.
Qed.
End guarded.
