(* ===== verification/UploadProofs.v ===== *)
(** * What happens to the versions in the pending uploads

    Queues as maps from ids to versions: staging never replaces a version by
    an older one, and reconciling after an attempt takes out of the queue
    only a version that was attempted and did not fail. *)

From S2P Require Import Prelude Storage Claim UploadQueue StepLogic.

(** ** Versions by key *)

Section versions.
Context {A : Type} (key : A → string) (stamp : A → DateTime).

(** The list has this version of an item, or a later one. *)
Definition has_version (l : list A) (a : A) : Prop :=
  ∃ a', a' ∈ l ∧ key a' = key a ∧ (stamp a ≤ stamp a')%Z.

Lemma has_version_in l a : a ∈ l → has_version l a.
Proof. intros Ha. exists a. split_and!; [done|done|lia]. Qed.

Lemma has_version_mono l l' a : (∀ x, x ∈ l → has_version l' x) → has_version l a → has_version l' a.
Proof.
  intros Hl (a' & Hin & Hk & Hs). destruct (Hl _ Hin) as (b & Hb & Hkb & Hsb).
  exists b. split_and!; [done|congruence|lia].
Qed.

Lemma has_version_app l l' a : has_version (l ++ l') a ↔ has_version l a ∨ has_version l' a.
Proof. unfold has_version. setoid_rewrite elem_of_app. naive_solver. Qed.

(** A map that files each item under its key. *)
Definition keyed (m : gmap string A) : Prop := ∀ k a, m !! k = Some a → key a = k.

Lemma keyed_insert m a : keyed m → keyed (<[key a := a]> m).
Proof. intros Hm k b. rewrite lookup_insert_Some. intros [[<- <-]|[_ Hb]]; [done|by apply Hm]. Qed.

Lemma keyed_delete m k : keyed m → keyed (delete k m).
Proof. intros Hm k' b [_ Hb]%lookup_delete_Some. by apply Hm. Qed.

Lemma keyed_empty : keyed ∅.
Proof. intros k a. by rewrite lookup_empty. Qed.

Lemma by_key_fold l m : keyed m → NoDup (key <$> l) →
  keyed (fold_left (λ m a, <[key a := a]> m) l m) ∧
  ∀ k, fold_left (λ m a, <[key a := a]> m) l m !! k =
    match list_find (λ a, key a = k) l with Some (_, a) => Some a | None => m !! k end.
Proof.
  revert m. induction l as [|x l IH]; intros m Hm Hnd; simpl; [done|].
  apply NoDup_cons in Hnd as [Hx Hnd]. destruct (IH (<[key x := x]> m)) as [Hk Hl]; [by apply keyed_insert|done|].
  split; [done|]. intros k. rewrite Hl. destruct (decide (key x = k)) as [<-|Hne].
  - destruct (list_find _ l) as [[i a]|] eqn:Ef; simpl.
    + apply list_find_Some in Ef as (Hi & Hka & _). destruct Hx. apply list_elem_of_lookup_2 in Hi.
      rewrite <-Hka. by apply list_elem_of_fmap_2.
    + by rewrite lookup_insert_eq.
  - destruct (list_find _ l) as [[i a]|]; simpl; [done|]. by rewrite lookup_insert_ne.
Qed.

Lemma by_key_keyed l : NoDup (key <$> l) → keyed (by_key key l).
Proof. intros Hnd. by apply (by_key_fold l ∅ keyed_empty Hnd). Qed.

Lemma by_key_lookup l k a : NoDup (key <$> l) → by_key key l !! k = Some a ↔ a ∈ l ∧ key a = k.
Proof.
  intros Hnd. unfold by_key. destruct (by_key_fold l ∅ keyed_empty Hnd) as [_ Hl]. rewrite Hl.
  split.
  - destruct (list_find _ l) as [[i b]|] eqn:Ef; [|by rewrite lookup_empty]. intros [= <-].
    apply list_find_Some in Ef as (Hi & Hk & _). split; [by eapply list_elem_of_lookup_2|done].
  - intros [Ha Hk]. destruct (list_find _ l) as [[i b]|] eqn:Ef.
    + apply list_find_Some in Ef as (Hi & Hkb & _). f_equal.
      apply list_elem_of_lookup in Ha as [j Hj].
      assert (i = j) as ->; [|congruence].
      apply (NoDup_lookup _ i j k Hnd); rewrite list_lookup_fmap, ?Hi, ?Hj; simpl; congruence.
    + apply list_find_None in Ef. rewrite Forall_forall in Ef. by destruct (Ef _ Ha).
Qed.

Lemma elem_of_values_by m a : a ∈ values_by key m ↔ ∃ k, m !! k = Some a.
Proof.
  unfold values_by. rewrite elem_of_sort_by, list_elem_of_fmap. split.
  - intros ([k b] & -> & Hin%elem_of_map_to_list). eauto.
  - intros (k & Hk). exists (k, a). split; [done|by apply elem_of_map_to_list].
Qed.

Lemma values_by_NoDup m : keyed m → NoDup (key <$> values_by key m).
Proof.
  intros Hm. unfold values_by. rewrite (fmap_Permutation key _ _ (sort_by_perm _ _)).
  rewrite <-list_fmap_compose.
  replace ((key ∘ snd) <$> map_to_list m) with ((map_to_list m).*1); [apply NoDup_fst_map_to_list|].
  apply list_fmap_ext. intros i [k a] Hi. simpl.
  apply list_elem_of_lookup_2, elem_of_map_to_list in Hi. symmetry. by apply Hm.
Qed.

(** ** Merging newcomers *)

Definition merge_newer (m : gmap string A) (l : list A) : gmap string A :=
  fold_left (λ m a, if replaces key stamp m a then <[key a := a]> m else m) l m.

Definition map_has (m : gmap string A) (a : A) : Prop :=
  ∃ a', m !! key a = Some a' ∧ (stamp a ≤ stamp a')%Z.

Lemma merge_newer_keyed m l : keyed m → keyed (merge_newer m l).
Proof.
  revert m. induction l as [|x l IH]; intros m Hm; simpl; [done|]. apply IH.
  destruct (replaces _ _ _ _); [by apply keyed_insert|done].
Qed.

Lemma merge_one_has m x a : map_has m a ∨ a = x →
  map_has (if replaces key stamp m x then <[key x := x]> m else m) a.
Proof.
  unfold map_has, replaces. intros Ha.
  destruct (decide (key a = key x)) as [Hk|Hk].
  - rewrite Hk in *. destruct (m !! key x) as [e|] eqn:E.
    + destruct (Z.leb_spec (stamp e) (stamp x)).
      * exists x. rewrite lookup_insert_eq. destruct Ha as [(a' & [= <-] & Hle)| ->]; (split; [done|lia]).
      * exists e. split; [done|]. destruct Ha as [(a' & [= <-] & Hle)| ->]; lia.
    + exists x. rewrite lookup_insert_eq. split; [done|]. destruct Ha as [(? & ? & _)| ->]; [done|lia].
  - destruct Ha as [(a' & Hl & Hle)| ->]; [|done]. exists a'. split; [|done].
    destruct (match _ with None => _ | _ => _ end); [|done]. by rewrite lookup_insert_ne.
Qed.

Lemma merge_newer_has m l a : map_has m a ∨ a ∈ l → map_has (merge_newer m l) a.
Proof.
  revert m. induction l as [|x l IH]; intros m Ha; simpl; [set_solver|]. apply IH.
  destruct Ha as [Ha|[->|Ha]%elem_of_cons]; [left; apply merge_one_has; auto..|by right].
Qed.

Lemma merge_newer_from m l k a : merge_newer m l !! k = Some a → m !! k = Some a ∨ a ∈ l ∧ key a = k.
Proof.
  revert m. induction l as [|x l IH]; intros m; simpl; [auto|]. intros [Ha|[Ha Hk]]%IH; [|set_solver].
  destruct (replaces _ _ _ _); [|auto]. apply lookup_insert_Some in Ha as [[<- <-]|[_ Ha]]; set_solver.
Qed.

Lemma merge_newer_keeps m l k : is_Some (m !! k) → is_Some (merge_newer m l !! k).
Proof.
  revert m. induction l as [|x l IH]; intros m Hm; simpl; [done|]. apply IH.
  destruct (replaces _ _ _ _); [|done]. rewrite lookup_insert_is_Some. destruct (decide (key x = k)); auto.
Qed.

(** The queue after a merge has every version it had, and the newcomers'. *)
Lemma merged_has (l new : list A) a : NoDup (key <$> l) →
  has_version l a ∨ a ∈ new → has_version (values_by key (merge_newer (by_key key l) new)) a.
Proof.
  intros Hnd Ha. set (m := by_key key l).
  assert (map_has (merge_newer m new) a) as (a' & Hl & Hle).
  { destruct Ha as [(b & Hb & Hk & Hle)|Ha].
    - destruct (merge_newer_has m new b) as (b' & Hl' & Hle').
      { left. exists b. split; [by apply by_key_lookup|lia]. }
      exists b'. rewrite <-Hk. split; [done|lia].
    - apply merge_newer_has. by right. }
  exists a'. split; [apply elem_of_values_by; eauto|]. split; [|done].
  by apply (merge_newer_keyed m new (by_key_keyed l Hnd)) in Hl.
Qed.

Lemma merged_from (l new : list A) a : NoDup (key <$> l) →
  a ∈ values_by key (merge_newer (by_key key l) new) → a ∈ l ∨ a ∈ new.
Proof.
  intros Hnd [k Hk]%elem_of_values_by. apply merge_newer_from in Hk as [Hk|[? _]]; [|auto].
  apply by_key_lookup in Hk as [? _]; auto.
Qed.

Lemma merged_NoDup (l new : list A) : NoDup (key <$> l) →
  NoDup (key <$> values_by key (merge_newer (by_key key l) new)).
Proof. intros Hnd. by apply values_by_NoDup, merge_newer_keyed, by_key_keyed. Qed.

End versions.

(** ** Reconciling after an attempt *)

Section reconciling.
Context {A : Type} `{EqDecision A} (key : A → string).

(** What becomes of the item under [k]. *)
Definition reconciled (failed : gset string) (cur : option A) (k : string) (attempted : option A) : option A :=
  match attempted with
  | None => cur
  | Some a =>
      if bool_decide (k ∈ failed) then match cur with None => Some a | Some c => Some c end
      else if bool_decide (cur = Some a) then None else cur
  end.

Lemma reconcile_map_spec failed m l k : NoDup (key <$> l) →
  reconcile_map key failed m l !! k =
    reconciled failed (m !! k) k (snd <$> list_find (λ a, key a = k) l).
Proof.
  unfold reconcile_map. revert m. induction l as [|x l IH]; intros m Hnd; simpl; [done|].
  apply NoDup_cons in Hnd as [Hx Hnd]. rewrite IH by done. destruct (decide (key x = k)) as [<-|Hne]; simpl.
  - assert (list_find (λ a, key a = key x) l = None) as ->.
    { apply list_find_None, Forall_forall. intros b Hb Hk. apply Hx. rewrite <-Hk. by apply list_elem_of_fmap_2. }
    simpl. destruct (bool_decide (key x ∈ failed)); destruct (m !! key x) as [c|] eqn:Em.
    + case_bool_decide; [subst; by rewrite lookup_insert_eq|done].
    + by rewrite lookup_insert_eq.
    + rewrite (bool_decide_ext (Some c = Some x) (c = x)) by naive_solver.
      case_bool_decide; [by rewrite lookup_delete_eq|done].
    + by rewrite Em.
  - match goal with |- reconciled _ ?x _ _ = _ => assert (x = m !! k) as -> end.
    { repeat case_match; rewrite ?lookup_insert_ne, ?lookup_delete_ne; done. }
    by destruct (list_find _ l) as [[]|].
Qed.

Lemma reconcile_keyed failed m l : keyed key m → keyed key (reconcile_map key failed m l).
Proof.
  unfold reconcile_map. revert m. induction l as [|x l IH]; intros m Hm; simpl; [done|]. apply IH.
  repeat case_match; by auto using keyed_insert, keyed_delete.
Qed.
End reconciling.

(** * No version that was staged for upload is lost

    [never_lost] says what every operation on the upload queue keeps, other
    tasks and I/O faults included: each version of a claim or dispute is
    queued or settled, in that version or a later one. *)

(** ** The pending file *)

Definition pending_wf (p : PendingMaintainerUploads) : Prop :=
  NoDup (claim_id <$> pu_claims p) ∧ NoDup (dispute_id <$> pu_disputes p).

Notation has_claim := (has_version claim_id effective_updated_at).
Notation has_dispute := (has_version dispute_id dispute_created_at).

Lemma merge_claims_newer groups m claims :
  (merge_claims groups m claims).2 = merge_newer claim_id effective_updated_at m claims.
Proof.
  unfold merge_claims, merge_newer. revert groups m.
  induction claims as [|c l IH]; intros groups m; csimpl; [done|].
  destruct (replaces claim_id effective_updated_at m c); apply IH.
Qed.

Lemma staged_claims rq p : pu_claims (staged rq p) =
  values_by claim_id (merge_newer claim_id effective_updated_at (by_key claim_id (pu_claims p)) (sr_claims rq)).
Proof.
  transitivity (pu_claims (merged_with rq p)).
  - unfold staged, add_groups, withdraw_policy, set_consolidations. by destruct (sr_withdrawn rq).
  - unfold merged_with, merge_pending_uploads. simpl. rewrite merge_claims_newer.
    unfold mark_durable. by destruct (sr_durable rq).
Qed.

Lemma staged_disputes rq p : pu_disputes (staged rq p) =
  values_by dispute_id (merge_newer dispute_id dispute_created_at (by_key dispute_id (pu_disputes p)) (sr_disputes rq)).
Proof.
  transitivity (pu_disputes (merged_with rq p)).
  - unfold staged, add_groups, withdraw_policy, set_consolidations. by destruct (sr_withdrawn rq).
  - unfold merged_with, merge_pending_uploads. simpl. unfold mark_durable. by destruct (sr_durable rq).
Qed.

Lemma staged_wf rq p : pending_wf p → pending_wf (staged rq p).
Proof.
  intros [Hc Hd]. split; [rewrite staged_claims|rewrite staged_disputes]; by apply merged_NoDup.
Qed.

Lemma rebound_wf revised p :
  NoDup (claim_id <$> cd_carriers revised) → pending_wf p → pending_wf (rebound revised p).
Proof.
  intros Hr [Hc Hd]. split; [|done]. simpl. rewrite fmap_app. apply NoDup_app. split_and!; [| |done].
  2: by intros x (c & -> & [Hn _]%list_elem_of_filter)%list_elem_of_fmap.
  eapply sublist_NoDup; [exact Hc|]. apply fmap_sublist, sublist_filter.
Qed.

Section reconcile.
Context {A : Type} (key : A → string) `{EqDecision A} (failed : gset string).
Context (cur attempted : list A).
Context (Hcur : NoDup (key <$> cur)) (Hatt : NoDup (key <$> attempted)).
Let result := values_by key (reconcile_map key failed (by_key key cur) attempted).

Lemma find_by_key (l : list A) k a : NoDup (key <$> l) →
  (snd <$> list_find (λ a, key a = k) l) = Some a ↔ a ∈ l ∧ key a = k.
Proof.
  intros Hnd. rewrite <-(by_key_lookup key l k a Hnd). unfold by_key.
  destruct (by_key_fold key l ∅ (keyed_empty key) Hnd) as [_ Hl]. rewrite Hl.
  destruct (list_find _ l) as [[]|]; simpl; [naive_solver|by rewrite lookup_empty].
Qed.

Lemma reconcile_NoDup : NoDup (key <$> result).
Proof. by apply values_by_NoDup, reconcile_keyed, by_key_keyed. Qed.

Lemma reconcile_from a : a ∈ result → a ∈ cur ∨ a ∈ attempted.
Proof.
  intros [k Hk]%elem_of_values_by. rewrite reconcile_map_spec in Hk by done. unfold reconciled in Hk.
  destruct (snd <$> list_find (λ a0, key a0 = k) attempted) as [b|] eqn:Eb.
  - apply find_by_key in Eb as [Hb _]; [|done].
    destruct (by_key key cur !! k) as [c|] eqn:Ec; repeat case_bool_decide; simplify_eq;
      try (apply by_key_lookup in Ec as [? _]; [|done]); auto.
  - apply by_key_lookup in Hk as [? _]; auto.
Qed.

Lemma reconcile_keeps a : a ∈ cur → a ∈ result ∨ a ∈ attempted ∧ key a ∉ failed.
Proof.
  intros Ha. assert (by_key key cur !! key a = Some a) as Hl by by apply by_key_lookup.
  destruct (reconcile_map key failed (by_key key cur) attempted !! key a) as [b|] eqn:E.
  - left. apply elem_of_values_by. exists (key a). rewrite E. f_equal.
    rewrite reconcile_map_spec, Hl in E by done. unfold reconciled in E. repeat case_match; congruence.
  - right. rewrite reconcile_map_spec, Hl in E by done. unfold reconciled in E.
    destruct (snd <$> list_find (λ a0, key a0 = key a) attempted) as [c|] eqn:Ec; [|done].
    apply find_by_key in Ec as [Hc _]; [|done]. repeat case_bool_decide; naive_solver.
Qed.
End reconcile.

Lemma reconciled_claims current attempted failed :
  pu_claims (reconcile_pending_uploads_after_attempt current attempted failed) =
  values_by claim_id (reconcile_map claim_id (list_to_set (claim_id <$> pu_claims failed))
    (by_key claim_id (pu_claims current)) (pu_claims attempted)).
Proof. done. Qed.

Lemma reconciled_disputes current attempted failed :
  pu_disputes (reconcile_pending_uploads_after_attempt current attempted failed) =
  values_by dispute_id (reconcile_map dispute_id (list_to_set (dispute_id <$> pu_disputes failed))
    (by_key dispute_id (pu_disputes current)) (pu_disputes attempted)).
Proof. done. Qed.

Lemma completion_perm {A} picks (l : list A) : completion picks l ≡ₚ l.
Proof.
  revert l. induction picks as [|i picks IH]; intros l; simpl; [done|].
  destruct (l !! _) as [x|] eqn:E; [|done]. rewrite IH. by apply delete_Permutation in E.
Qed.

Lemma refresh_claims_spec related local claims groups :
  Forall2 (λ q c, c = q ∨ claim_id c = claim_id q ∧ c ∈ local) claims
    (refresh_claims related local claims groups).1.
Proof.
  revert groups. induction claims as [|q l IH]; intros groups; simpl; [constructor|].
  case_bool_decide; [|constructor; [by left|apply IH]].
  destruct (list_find _ local) as [[i c]|] eqn:E; (constructor; [|apply IH]); [|by left].
  apply list_find_Some in E as (Hi & Hk & _). right. split; [done|by eapply list_elem_of_lookup_2].
Qed.

(** ** Acknowledgements *)

Lemma prune_acks groups acks pending : (prune groups acks pending).2 ⊆ acks.
Proof. unfold prune. simpl. intros c [_ ?]%list_elem_of_filter. done. Qed.

Lemma staged_acks rq p : pu_acknowledgements (staged rq p) ⊆ pu_acknowledgements p.
Proof.
  transitivity (pu_acknowledgements (merged_with rq p)).
  - unfold staged, add_groups, withdraw_policy, set_consolidations.
    destruct (sr_withdrawn rq); simpl; [apply prune_acks|done].
  - unfold merged_with, merge_pending_uploads, mark_durable. simpl. by destruct (sr_durable rq).
Qed.

Lemma acknowledge_in acks c x : x ∈ acknowledge acks c → x ∈ acks ∨ x = c.
Proof. unfold acknowledge. intros [[_ ?]%list_elem_of_filter|?]%elem_of_app; set_solver. Qed.

Lemma acknowledge_all l acks : fold_left acknowledge l acks ⊆ acks ++ l.
Proof.
  revert acks. induction l as [|c l IH]; intros acks; simpl; [set_solver|].
  intros x [[?|?]%acknowledge_in|?]%IH%elem_of_app; set_solver.
Qed.

Lemma reconciled_acks current attempted failed :
  pu_acknowledgements (reconcile_pending_uploads_after_attempt current attempted failed) ⊆
    pu_acknowledgements current ++ pu_acknowledgements attempted.
Proof. unfold reconcile_pending_uploads_after_attempt. simpl. etrans; [apply prune_acks|apply acknowledge_all]. Qed.
