(* ===== verification/UploadSafety.v ===== *)
(** * Uploads lose nothing

    Every operation on the upload queue, run among other tasks and I/O
    faults, keeps each staged version queued or settled. *)

From S2P Require Import Prelude Storage Claim UploadQueue UploadProofs StepLogic.

(** ** What is kept *)

Definition queued (h : UploadHome) : list Claim := from_option pu_claims [] (pending_value h).
Definition queued_disputes (h : UploadHome) : list Dispute := from_option pu_disputes [] (pending_value h).
Definition settled_claims (h : UploadHome) : list Claim := uh_accepted h ++ uh_refused h.

Definition claim_tracked (h : UploadHome) (c : Claim) : Prop := has_claim (queued h ++ settled_claims h) c.
Definition dispute_tracked (h : UploadHome) (d : Dispute) : Prop :=
  has_dispute (queued_disputes h ++ uh_settled h) d.

Definition queue_ok (h : UploadHome) : Prop :=
  (∀ k c, uh_claims h !! k = Some (Stored c) → claim_id c = k) ∧
  ∀ p, pending_value h = Some p → pending_wf p ∧ pu_acknowledgements p ⊆ uh_accepted h ∧
    ∀ c, c ∈ pu_claims p → behind_local h c = true.

Record never_lost (h h' : UploadHome) : Prop := {
  nl_client : uh_client h' = uh_client h;
  nl_accepted c : c ∈ uh_accepted h → c ∈ uh_accepted h';
  nl_settled c : c ∈ settled_claims h → c ∈ settled_claims h';
  nl_disputes d : d ∈ uh_settled h → d ∈ uh_settled h';
  nl_behind c : behind_local h c = true → behind_local h' c = true;
  nl_tracked c : claim_tracked h c → claim_tracked h' c;
  nl_tracked_dispute d : dispute_tracked h d → dispute_tracked h' d;
}.

#[export] Instance never_lost_preorder : PreOrder never_lost.
Proof.
  split; [by split|]. intros h1 h2 h3 [] []. split; naive_solver congruence.
Qed.

(** What the schedules and the faults do not touch. *)
Definition core (h : UploadHome) :=
  (uh_client h, uh_pending h, uh_claims h, uh_accepted h, uh_refused h, uh_settled h).

Ltac core_eq H := unfold core in H; injection H as ? ? ? ? ? ?.

Lemma core_never_lost h h' : core h = core h' → never_lost h h'.
Proof.
  intros H. core_eq H. destruct h, h'; simpl in *; subst. by split.
Qed.

Lemma core_queue_ok h h' : core h = core h' → queue_ok h → queue_ok h'.
Proof. intros H. core_eq H. destruct h, h'; simpl in *; subst. done. Qed.

Lemma core_pending h h' : core h = core h' → pending_value h = pending_value h'.
Proof. intros H. core_eq H. destruct h, h'; simpl in *; subst. done. Qed.

Lemma core_store p h h' : core h = core h' → core (store_pending p h) = core (store_pending p h').
Proof. intros H. core_eq H. destruct h, h'; simpl in *; subst. done. Qed.

Local Notation triple := (StepLogic.triple (E:=UploadError) queue_ok never_lost).
Local Notation stable := (StepLogic.stable queue_ok never_lost).

Definition of_core (P : UploadHome → Prop) : Prop := ∀ h h', core h = core h' → P h → P h'.

(** An operation that only consumes its schedules. *)
Lemma triple_calm {A} (m : UM A) P (Q : A → UploadHome → Prop) :
  (∀ h r h', m h = (r, h') → core h = core h') →
  (∀ h a h', queue_ok h → P h → m h = (Ok a, h') → Q a h') → triple P m Q.
Proof.
  intros Hm HQ h r h' Hok Hp E. pose proof (Hm _ _ _ E) as Hc.
  split; [by apply core_never_lost|]. split; [by eapply core_queue_ok|]. intros a ->. by eapply HQ.
Qed.

(** ** Storing a queue *)

Lemma pending_store p h : ∃ p', pending_value (store_pending p h) = Some p' ∧
  pu_claims p' = pu_claims p ∧ pu_disputes p' = pu_disputes p ∧
  pu_acknowledgements p' ⊆ pu_acknowledgements p.
Proof.
  unfold pending_value, store_pending. simpl. destruct (nothing_pending p) eqn:E.
  - rewrite lookup_delete_eq. exists no_uploads. split; [done|].
    apply andb_prop in E as [->%bool_decide_eq_true_1 ->%bool_decide_eq_true_1]. set_solver.
  - rewrite lookup_insert_eq. by exists p.
Qed.

Definition storable (p : PendingMaintainerUploads) (h : UploadHome) : Prop :=
  pending_wf p ∧ pu_acknowledgements p ⊆ uh_accepted h ∧
  (∀ c, c ∈ pu_claims p → behind_local h c = true) ∧
  (∀ c, c ∈ queued h → has_claim (pu_claims p ++ settled_claims h) c) ∧
  (∀ d, d ∈ queued_disputes h → has_dispute (pu_disputes p ++ uh_settled h) d).

Lemma store_step p h : queue_ok h → storable p h →
  never_lost h (store_pending p h) ∧ queue_ok (store_pending p h).
Proof.
  intros [Hk Hq] (Hwf & Hack & Hb & Hc & Hd). destruct (pending_store p h) as (p' & Hp & Hpc & Hpd & Hpa).
  split.
  - split; try done; unfold claim_tracked, dispute_tracked, queued, queued_disputes; rewrite Hp; simpl;
      rewrite ?Hpc, ?Hpd; intros x; apply has_version_mono; intros y [Hy|Hy]%elem_of_app; auto.
    + apply has_version_app. right. by apply has_version_in.
    + apply has_version_app. right. by apply has_version_in.
  - split; [done|]. rewrite Hp. intros ? [= <-]. unfold pending_wf. rewrite Hpc, Hpd.
    split; [done|]. split; [etrans; [exact Hpa|done]|done].
Qed.

Lemma storable_core p h h' : core h = core h' → storable p h → storable p h'.
Proof. intros H. core_eq H. destruct h, h'; simpl in *; subst. done. Qed.

Lemma staged_storable rq p h : queue_ok h → pending_value h = Some p →
  forallb (behind_local h) (sr_claims rq) = true → storable (staged rq p) h.
Proof.
  intros [_ Hq] Hp Hrq. destruct (Hq _ Hp) as (Hwf & Hack & Hb). destruct Hwf as [Hc Hd].
  unfold storable, queued, queued_disputes. rewrite Hp. split; [by apply staged_wf|]. split; [etrans; [apply staged_acks|done]|].
  split; [|split]; cbn [from_option].
  - rewrite staged_claims. intros c [?|?]%merged_from; [auto| |done].
    rewrite forallb_forall in Hrq. apply Hrq. by apply list_elem_of_In.
  - intros c Hin. apply has_version_app. left. rewrite staged_claims.
    apply merged_has; [done|]. left. by apply has_version_in.
  - intros d Hin. apply has_version_app. left. rewrite staged_disputes.
    apply merged_has; [done|]. left. by apply has_version_in.
Qed.

Lemma is_local_lookup h c : is_local h c = true → uh_claims h !! claim_id c = Some (Stored c).
Proof. unfold is_local. destruct (_ !! _) as [[|l]|]; try done. by intros ->%bool_decide_eq_true_1. Qed.

Lemma local_behind h c : is_local h c = true → behind_local h c = true.
Proof. intros Hl%is_local_lookup. unfold behind_local. rewrite Hl. apply Z.leb_refl. Qed.

Lemma rebound_storable revised p h : queue_ok h → pending_value h = Some p →
  forallb (is_local h) (cd_carriers revised) = true → NoDup (claim_id <$> cd_carriers revised) →
  storable (rebound revised p) h.
Proof.
  intros [_ Hq] Hp Hl Hnd. destruct (Hq _ Hp) as (Hwf & Hack & Hb). rewrite forallb_forall in Hl.
  assert (∀ c, c ∈ cd_carriers revised → is_local h c = true) as Hloc
    by (intros c ?; by apply Hl, list_elem_of_In).
  unfold storable, queued, queued_disputes. rewrite Hp. split; [by apply rebound_wf|split; [done|split; [|split]]]; simpl.
  - intros c [[_ ?]%list_elem_of_filter|?]%elem_of_app; [auto|by apply local_behind, Hloc].
  - intros c Hc. apply has_version_app. left.
    destruct (decide (claim_id c ∈ claim_id <$> cd_carriers revised)) as [(l & Hk & Hcl)%list_elem_of_fmap|Hn].
    + exists l. split; [set_solver|]. split; [done|]. specialize (Hb _ Hc). unfold behind_local in Hb.
      rewrite Hk, (is_local_lookup _ _ (Hloc _ Hcl)) in Hb. lia.
    + apply has_version_in, elem_of_app. left. by apply list_elem_of_filter.
  - intros d Hin. apply has_version_app. left. by apply has_version_in.
Qed.

(** ** Interference *)

Lemma write_step c h : queue_ok h → can_run h (OtherWrites c) = true →
  never_lost h (set_claims (<[claim_id c := Stored c]> (uh_claims h)) h) ∧
  queue_ok (set_claims (<[claim_id c := Stored c]> (uh_claims h)) h).
Proof.
  intros [Hk Hq] Hc.
  assert (∀ x, behind_local h x = true →
    behind_local (set_claims (<[claim_id c := Stored c]> (uh_claims h)) h) x = true) as Hb.
  { intros x. unfold behind_local, can_run in *. simpl. rewrite lookup_insert.
    destruct (decide (claim_id c = claim_id x)) as [Hx|]; [rewrite Hx in *|done].
    destruct (_ !! claim_id x) as [[|l]|]; try done. lia. }
  split; [by split|]. split; simpl.
  - intros k d. rewrite lookup_insert_Some. intros [[<- [= <-]]|[_ ?]]; [done|by apply Hk].
  - intros p Hp. destruct (Hq p Hp) as (? & ? & Hl). split; [done|]. split; [done|].
    intros x Hx. by apply Hb, Hl.
Qed.

Lemma run_other_step t h : queue_ok h → never_lost h (run_other h t) ∧ queue_ok (run_other h t).
Proof.
  intros Hok. unfold run_other. destruct (can_run h t) eqn:E; simpl; [|done].
  destruct t as [c|rq|previous revised].
  - by apply write_step.
  - destruct (pending_value h) as [p|] eqn:Ep; [|done]. apply store_step; [done|]. by apply staged_storable.
  - destruct (pending_value h) as [p|] eqn:Ep; [|done]. destruct (can_rebind previous p); [|done].
    simpl in E. apply andb_prop in E as [E1 E2%bool_decide_eq_true_1].
    apply store_step; [done|]. by apply rebound_storable.
Qed.

Lemma run_others_step ts h : queue_ok h →
  never_lost h (fold_left run_other ts h) ∧ queue_ok (fold_left run_other ts h).
Proof.
  revert h. induction ts as [|t ts IH]; intros h Hok; simpl; [done|].
  destruct (run_other_step t h Hok) as [Hs Hok']. destruct (IH _ Hok') as [? ?]. split; [by etrans|done].
Qed.

Lemma run_other_claims t h : needs_knowledge t = false → uh_claims (run_other h t) = uh_claims h.
Proof.
  unfold run_other. destruct (can_run h t); simpl; [|done]. destruct t; try done. intros _.
  by destruct (pending_value h).
Qed.

Lemma run_others_claims ts h : Forall (λ t, needs_knowledge t = false) ts →
  uh_claims (fold_left run_other ts h) = uh_claims h.
Proof.
  intros Hts. revert h. induction Hts as [|t ts Ht _ IH]; intros h; simpl; [done|].
  by rewrite IH, run_other_claims.
Qed.

(** ** The steps of the operations *)

Lemma core_faults fs h : core h = core (set_uh_faults fs h).
Proof. done. Qed.

Lemma core_io_step e h r h' : io_step (E:=UploadError) e h = (r, h') → core h = core h'.
Proof. unfold io_step. destruct (faults h) as [|b fs]; intros [= _ <-]; done. Qed.

Lemma core_bind {A B} (m : UM A) (f : A → UM B) :
  (∀ h r h', m h = (r, h') → core h = core h') → (∀ a h r h', f a h = (r, h') → core h = core h') →
  ∀ h r h', (m ≫= f) h = (r, h') → core h = core h'.
Proof.
  intros Hm Hf h r h' [(a & h1 & H1 & H2)|(e & H1 & ->)]%bind_cases; [|by eapply Hm].
  etrans; [by eapply Hm|by eapply Hf].
Qed.

Ltac calm :=
  repeat first
    [ progress intros
    | match goal with
      | H : io_step _ _ = _ |- _ => by apply core_io_step in H
      | H : io _ = _ |- _ => by apply core_io_step in H
      | H : mret _ _ = _ |- _ => by injection H as _ <-
      | H : fail _ _ = _ |- _ => by injection H as _ <-
      | H : gets _ _ = _ |- _ => by injection H as _ <-
      | H : get_world _ = _ |- _ => by injection H as _ <-
      | H : lift_result _ _ = _ |- _ => by injection H as _ <-
      | H : m_try ?m _ = _ |- _ =>
          unfold m_try in H; let E := fresh in destruct (m _) eqn:E in H; injection H as _ <-; revert E
      | H : (_ ≫= _) _ = _ |- _ => revert H; apply core_bind
      | H : (match ?x with _ => _ end) _ = _ |- _ => destruct x
      end ].

Lemma core_queue_read h r h' : queue_read h = (r, h') → core h = core h'.
Proof. unfold queue_read, read_yaml. calm. Qed.

Lemma core_read_yaml key h r h' : read_yaml claims_dir key h = (r, h') → core h = core h'.
Proof. unfold read_yaml. calm. Qed.

Lemma core_read_all names h r h' : read_all names h = (r, h') → core h = core h'.
Proof.
  revert h r h'. induction names as [|k names IH]; simpl; [by calm|].
  apply core_bind; [apply core_io_step|intros _]. apply core_bind.
  - intros h r h'. unfold m_try. destruct (read_yaml _ _ h) eqn:E. intros [= _ <-]. by eapply core_read_yaml.
  - intros [c|e]; [apply core_bind; [exact IH|calm]|]. calm; eauto.
Qed.

Lemma core_list_local h r h' : list_local_claims h = (r, h') → core h = core h'.
Proof. unfold list_local_claims. calm. by eapply core_read_all. Qed.

Lemma stable_core P h h' : stable P → queue_ok h → core h = core h' → P h → P h'.
Proof. intros HP Hok Hc Hp. exact (HP _ _ Hok (core_never_lost _ _ Hc) Hp). Qed.

Lemma queue_read_value h p h' : queue_read h = (Ok p, h') → pending_value h = Some p.
Proof.
  unfold queue_read. rewrite m_try_bind. destruct (read_yaml pending_dir PENDING h) as [r h1] eqn:E.
  unfold read_yaml in E. unfold pending_value.
  apply bind_cases in E as [(? & h2 & H1 & H2)|(e & H1 & ->)].
  - assert (uh_pending h2 = uh_pending h) as Hp by by apply core_io_step in H1; core_eq H1.
    mrun_in H2. simpl in H2. rewrite Hp in H2.
    destruct (uh_pending h !! PENDING) as [[|q]|]; simplify_eq/=; mrun; naive_solver.
  - intros H2. apply io_inv in H1 as [[|[= ->]] _]; done.
Qed.

Lemma triple_queue_read P : stable P →
  triple P queue_read (λ p h, P h ∧ pending_value h = Some p).
Proof.
  intros HP. apply triple_calm; [apply core_queue_read|]. intros h p h' Hok Hp E.
  pose proof (core_queue_read _ _ _ E) as Hc. split; [by eapply stable_core|].
  rewrite <-(core_pending _ _ Hc). by eapply queue_read_value.
Qed.

Lemma triple_io_step P e : stable P → triple P (io_step e) (λ _ h, P h).
Proof.
  intros HP. apply triple_calm; [apply core_io_step|]. intros h [] h' Hok Hp E.
  eapply stable_core; [done..| |done]. by eapply core_io_step.
Qed.

(** The local claims, and what the others leave of them when the knowledge
    lock is held. *)
Lemma triple_await held P (L : gmap string (file Claim) → Prop) : stable P →
  triple (λ h, P h ∧ (held = true → L (uh_claims h))) (await_others held)
    (λ _ h, P h ∧ (held = true → L (uh_claims h))).
Proof.
  intros HP. unfold await_others. apply (triple_modify queue_ok never_lost).
  intros h Hok [Hp HL]. set (run := filter (λ t, ¬ (held && needs_knowledge t = true)) _).
  destruct (run_others_step run h Hok) as [Hs Hok'].
  assert (∀ o, core (fold_left run_other run h) = core (set_others o (fold_left run_other run h))) as Hc
    by done.
  split; [etrans; [exact Hs|apply core_never_lost, Hc]|]. split; [exact (core_queue_ok _ _ (Hc _) Hok')|].
  split; [exact (stable_core P _ _ HP Hok' (Hc _) (HP _ _ Hok Hs Hp))|].
  intros ->. simpl. rewrite run_others_claims; [by apply HL|]. apply Forall_forall.
  intros t [Ht _]%list_elem_of_filter. simpl in Ht. by destruct (needs_knowledge t).
Qed.

Lemma triple_lock_queue held P (L : gmap string (file Claim) → Prop) : stable P →
  triple (λ h, P h ∧ (held = true → L (uh_claims h))) (lock_queue held)
    (λ _ h, P h ∧ (held = true → L (uh_claims h))).
Proof.
  intros HP. unfold lock_queue.
  eapply (triple_bind queue_ok never_lost); [by apply (triple_await held P L)|].
  intros ?. apply triple_calm; [apply core_io_step|]. intros h [] h' Hok [Hp HL] E.
  pose proof (core_io_step _ _ _ _ E) as Hc. split; [by eapply stable_core|]. core_eq Hc.
  intros Hh. assert (uh_claims h' = uh_claims h) as -> by congruence. by apply HL.
Qed.

Lemma triple_lock P held : stable P → triple P (lock_queue held) (λ _ h, P h).
Proof.
  intros HP. eapply triple_pre; [|eapply triple_post; [|apply (triple_lock_queue held P (λ _, True) HP)]];
    naive_solver.
Qed.

Lemma write_or_clear_inv p h r h' : write_or_clear p h = (r, h') →
  (r = Ok tt ∧ core (store_pending p h) = core h') ∨ (∃ e, r = Err e) ∧ core h = core h'.
Proof.
  unfold write_or_clear, store_pending. destruct (nothing_pending p);
    intros [([] & h1 & H1 & H2)|(e & H1 & ->)]%bind_cases; apply io_inv in H1 as [_ H1].
  - injection H2 as <- <-. left. by destruct H1 as [->| ->].
  - right. split; [by eexists|]. by destruct H1 as [->| ->].
  - injection H2 as <- <-. left. by destruct H1 as [->| ->].
  - right. split; [by eexists|]. by destruct H1 as [->| ->].
Qed.

Lemma triple_write_or_clear p P : stable P →
  triple (λ h, P h ∧ storable p h) (write_or_clear p)
    (λ _ h, P h ∧ queued h = pu_claims p ∧ queued_disputes h = pu_disputes p).
Proof.
  intros HP h r h' Hok [Hp Hst] E.
  apply write_or_clear_inv in E as [[-> Hc]|[[e ->] Hc]].
  - destruct (store_step p h Hok Hst) as [Hs Hok'].
    assert (never_lost h h') as Hs' by (etrans; [exact Hs|by apply core_never_lost]).
    split; [done|]. split; [by eapply core_queue_ok|]. intros _ _. split; [exact (HP _ _ Hok Hs' Hp)|].
    destruct (pending_store p h) as (p' & Hpv & Hpc & Hpd & _).
    unfold queued, queued_disputes. by rewrite <-(core_pending _ _ Hc), Hpv.
  - split; [by apply core_never_lost|]. split; [by eapply core_queue_ok|]. done.
Qed.
