(* ===== verification/UploadDelivery.v ===== *)
(** * The operations of the upload queue keep what was staged *)

From S2P Require Import Prelude Storage Claim UploadQueue UploadProofs StepLogic UploadSafety.

Local Notation triple := (StepLogic.triple (E:=UploadError) queue_ok never_lost).
Local Notation stable := (StepLogic.stable queue_ok never_lost).

Ltac tbind := eapply (triple_bind queue_ok never_lost).
Ltac tpre := eapply (triple_pre queue_ok never_lost).
Ltac tpost := eapply (triple_post queue_ok never_lost).
Ltac tfail := apply (triple_fail queue_ok never_lost).
Ltac tret := apply (triple_ret queue_ok never_lost).

Lemma triple_has_client P : triple P has_client (λ b h, P h ∧ b = uh_client h).
Proof. apply triple_gets. apply _. Qed.

(** ** Staging *)

Definition all_behind (l : list Claim) (h : UploadHome) : Prop := forallb (behind_local h) l = true.

Lemma all_behind_stable l : stable (all_behind l).
Proof.
  intros h h' _ [] H. unfold all_behind in *. rewrite forallb_forall in *. auto.
Qed.

Lemma tracked_claim_stable c : stable (λ h, claim_tracked h c).
Proof. intros h h' _ []. auto. Qed.

Lemma tracked_dispute_stable d : stable (λ h, dispute_tracked h d).
Proof. intros h h' _ []. auto. Qed.

Lemma client_stable b : stable (λ h, uh_client h = b).
Proof. intros h h' _ [] <-. auto. Qed.

Definition request_tracked (rq : stage_request) (h : UploadHome) : Prop :=
  (∀ c, c ∈ sr_claims rq → claim_tracked h c) ∧ (∀ d, d ∈ sr_disputes rq → dispute_tracked h d).

Lemma request_tracked_stable rq : stable (request_tracked rq).
Proof. intros h h' _ [] []. split; auto. Qed.

Lemma staged_tracked rq p h : queue_ok h → pending_wf p →
  queued h = pu_claims (staged rq p) → queued_disputes h = pu_disputes (staged rq p) → request_tracked rq h.
Proof.
  intros _ [Hc Hd] Hq Hqd. unfold request_tracked, claim_tracked, dispute_tracked. rewrite Hq, Hqd.
  split; intros x Hx; apply has_version_app; left; [rewrite staged_claims|rewrite staged_disputes];
    apply merged_has; auto.
Qed.

Lemma triple_stage_held held rq P : stable P →
  triple (λ h, P h ∧ all_behind (sr_claims rq) h) (stage_maintainer_batch_held held rq)
    (λ _ h, P h ∧ (uh_client h = true → request_tracked rq h)).
Proof.
  intros HP. unfold stage_maintainer_batch_held. tbind; [apply triple_has_client|]. intros client.
  destruct client; simpl.
  - tpre; [intros h _ [H _]; exact H|].
    assert (stable (λ h, P h ∧ all_behind (sr_claims rq) h)) as HP'
      by (apply stable_and; [done|apply all_behind_stable]).
    tbind; [by apply triple_lock|]. intros ?. tbind; [by apply triple_queue_read|]. intros p. simpl.
    tpre; [|tpost; [|apply (triple_write_or_clear (staged rq p) (λ h, P h ∧ pending_wf p))]].
    + intros h Hok [[Hp Hb] Hpv]. split; [split; [done|by apply Hok]|]. by apply staged_storable.
    + intros _ h Hok ([Hp Hwf] & Hq & Hqd). split; [done|]. intros _. by eapply staged_tracked.
    + apply stable_and; [done|apply stable_const].
  - tret. intros h _ [[Hp _] Hc]. split; [done|]. congruence.
Qed.

Lemma triple_stage rq P : stable P →
  triple (λ h, P h ∧ all_behind (sr_claims rq) h) (stage_maintainer_batch_inner rq)
    (λ _ h, P h ∧ (uh_client h = true → request_tracked rq h)).
Proof. apply triple_stage_held. Qed.

(** Staging under the knowledge lock: nobody writes claims meanwhile. *)
Lemma stage_held_claims rq h r h' : queue_ok h → stage_maintainer_batch_held true rq h = (r, h') →
  uh_claims h' = uh_claims h.
Proof.
  intros Hok. unfold stage_maintainer_batch_held. intros E.
  apply bind_cases in E as [(client & h1 & H1 & E)|(e & H1 & _)]; [injection H1 as <- <-|discriminate H1].
  destruct (uh_client h); simpl in E; [|by injection E as _ <-].
  assert (∀ r1 h1, lock_queue true h = (r1, h1) → uh_claims h1 = uh_claims h ∧ queue_ok h1) as Hlock.
  { unfold lock_queue. intros r1 h1 [([] & h2 & H1 & H2)|(e & H1 & _)]%bind_cases; [|by inversion H1].
    destruct (triple_await true (λ _, True) (λ m, m = uh_claims h) (stable_const _ _ True) h _ _ Hok
      ltac:(done) H1) as (_ & Hok2 & HL). destruct (HL tt eq_refl) as [_ Hc].
    pose proof (core_io_step _ _ _ _ H2) as Hcore. split; [|by eapply core_queue_ok].
    core_eq Hcore. rewrite <-Hc by done. congruence. }
  apply bind_cases in E as [([] & h1 & H1 & E)|(e & H1 & _)]; [|by apply Hlock in H1 as [? _]].
  apply Hlock in H1 as [<- Hok1].
  apply bind_cases in E as [(p & h2 & H2 & E)|(e & H2 & _)]; apply core_queue_read in H2; core_eq H2; [|congruence].
  replace (uh_claims h1) with (uh_claims h2) by congruence.
  apply write_or_clear_inv in E as [[_ Hc]|[_ Hc]]; core_eq Hc; [|congruence].
  unfold store_pending in *. simpl in *. congruence.
Qed.

Definition all_local (l : list Claim) (h : UploadHome) : Prop := forallb (is_local h) l = true.

(** The caller of a rebind holds the knowledge lock: the carriers stay local. *)
Lemma triple_rebind previous revised P : stable P → NoDup (claim_id <$> cd_carriers revised) →
  triple (λ h, P h ∧ all_local (cd_carriers revised) h) (rebind_consolidation previous revised) (λ _ h, P h).
Proof.
  intros HP Hnd. unfold rebind_consolidation. tbind; [apply triple_has_client|]. intros [|]; simpl.
  - set (L := λ m : gmap string (file Claim), ∀ c, c ∈ cd_carriers revised → m !! claim_id c = Some (Stored c)).
    tbind.
    { tpre; [|apply (triple_lock_queue true P L HP)]. intros h _ [[Hp Hl] _]. split; [done|]. intros _ c Hc.
      apply is_local_lookup. unfold all_local in Hl. rewrite forallb_forall in Hl.
      by apply Hl, list_elem_of_In. }
    intros ?. tbind.
    { apply (triple_calm queue_read _ (λ p h, P h ∧ L (uh_claims h) ∧ pending_value h = Some p)); [apply core_queue_read|].
      intros h p h' Hok [Hp HL] E. pose proof (core_queue_read _ _ _ E) as Hc.
      split; [by eapply stable_core|]. split.
      - assert (uh_claims h' = uh_claims h) as -> by (core_eq Hc; congruence). by apply HL.
      - rewrite <-(core_pending _ _ Hc). by eapply queue_read_value. }
    intros p. simpl. destruct (can_rebind previous p); [|tfail].
    tpre; [|tpost; [|apply (triple_write_or_clear (rebound revised p) P HP)]]; [|naive_solver].
    intros h Hok (Hp & HL & Hpv). split; [done|]. apply rebound_storable; [done..| |done].
    apply forallb_forall. intros c Hc%list_elem_of_In. unfold is_local. rewrite (HL _ Hc).
    by apply bool_decide_eq_true_2.
  - tfail.
Qed.

(** ** Refreshing the consolidated claims *)

Definition attempt_ok (a : PendingMaintainerUploads) (h : UploadHome) : Prop :=
  pending_wf a ∧ pu_acknowledgements a ⊆ uh_accepted h ∧ ∀ c, c ∈ pu_claims a → behind_local h c = true.

Lemma attempt_ok_stable a : stable (attempt_ok a).
Proof. intros h h' _ [] (? & ? & ?). split; [done|]. split; [set_solver|auto]. Qed.

Definition acked (acks : list Claim) (h : UploadHome) : Prop := acks ⊆ uh_accepted h.

Lemma acked_stable acks : stable (acked acks).
Proof. intros h h' _ []. unfold acked. set_solver. Qed.

Lemma pending_attempt_ok p h : queue_ok h → pending_value h = Some p → attempt_ok p h.
Proof. intros [_ Hq] Hp. by apply Hq. Qed.

Definition read_from (local : list Claim) (m : gmap string (file Claim)) : Prop :=
  ∀ c, c ∈ local → m !! claim_id c = Some (Stored c).

Lemma refreshed_ids local p : claim_id <$> pu_claims (refreshed local p) = claim_id <$> pu_claims p.
Proof.
  unfold refreshed. simpl. pose proof (refresh_claims_spec (related_ids (pu_consolidations p)) local
    (pu_claims p) (pu_consolidations p)) as H.
  induction H as [|q c l l' Hc _ IH]; csimpl; [done|]. rewrite IH. destruct Hc as [->|[-> _]]; done.
Qed.

Lemma refreshed_storable local p h : queue_ok h → pending_value h = Some p →
  read_from local (uh_claims h) → storable (refreshed local p) h ∧ attempt_ok (refreshed local p) h.
Proof.
  intros Hok Hp HL. destruct (pending_attempt_ok _ _ Hok Hp) as ([Hc Hd] & Hack & Hb).
  pose proof (refresh_claims_spec (related_ids (pu_consolidations p)) local
    (pu_claims p) (pu_consolidations p)) as Hf.
  assert (pending_wf (refreshed local p)) as Hwf by (split; [by rewrite refreshed_ids|done]).
  assert (∀ c, c ∈ pu_claims (refreshed local p) → behind_local h c = true) as Hb'.
  { intros c [i Hi]%list_elem_of_lookup. simpl in Hi.
    destruct (Forall2_lookup_r _ _ _ _ _ Hf Hi) as (q & Hq & [->|[Hk Hl]]).
    - by eapply Hb, list_elem_of_lookup_2.
    - apply local_behind. unfold is_local. rewrite (HL _ Hl). by apply bool_decide_eq_true_2. }
  split; [|done]. split; [done|]. split; [done|]. split; [done|].
  unfold queued, queued_disputes. rewrite Hp. cbn [from_option]. split.
  - intros c Hin. pose proof (Hb _ Hin) as Hbc. apply list_elem_of_lookup in Hin as [i Hi].
    destruct (Forall2_lookup_l _ _ _ _ _ Hf Hi) as (c' & Hc' & Hcc).
    apply has_version_app. left. exists c'. split; [by eapply list_elem_of_lookup_2|].
    destruct Hcc as [->|[Hk Hl]]; [split; [done|lia]|]. split; [done|].
    unfold behind_local in Hbc. rewrite <-Hk, (HL _ Hl) in Hbc. lia.
  - intros d Hin. apply has_version_app. left. by apply has_version_in.
Qed.

Lemma read_yaml_claim key h c h' : read_yaml claims_dir key h = (Ok c, h') →
  uh_claims h !! key = Some (Stored c).
Proof. by intros [? _]%(read_yaml_ok claims_dir). Qed.

Lemma read_all_local names h l h' : queue_ok h → read_all names h = (Ok l, h') → read_from l (uh_claims h).
Proof.
  intros Hok. revert h l h' Hok. induction names as [|k names IH]; simpl; intros h l h' Hok E.
  { injection E as <- _. intros c []%elem_of_nil. }
  mbind_inv E. rewrite m_try_bind in E. destruct (read_yaml claims_dir k w) as [r h2] eqn:Er.
  apply core_io_step in E0. pose proof (core_read_yaml _ _ _ _ Er) as Hc.
  assert (core h = core h2) as Hc2 by congruence. assert (queue_ok h2) as Hok2 by by eapply core_queue_ok.
  assert (uh_claims h2 = uh_claims h) as Hcl by (core_eq Hc2; congruence).
  destruct r as [c|[[]| | |]]; try done.
  - mbind_inv E. injection E as <- _. apply IH in E1; [|done]. rewrite Hcl in E1.
    intros c' [->|Hin]%elem_of_cons; [|by apply E1].
    apply read_yaml_claim in Er. assert (uh_claims w = uh_claims h) as Hw by (core_eq E0; congruence).
    rewrite Hw in Er. destruct Hok as [Hk _]. by rewrite (Hk _ _ Er).
  - apply IH in E; [|done]. by rewrite Hcl in E.
Qed.

Lemma triple_list_local P : stable P →
  triple P list_local_claims (λ local h, P h ∧ read_from local (uh_claims h)).
Proof.
  intros HP. apply triple_calm; [apply core_list_local|]. intros h local h' Hok Hp E.
  pose proof (core_list_local _ _ _ E) as Hc. split; [by eapply stable_core|].
  assert (uh_claims h' = uh_claims h) as -> by (core_eq Hc; congruence).
  unfold list_local_claims in E. do 3 mbind_inv E.
  apply core_io_step in E0, E1. injection E2 as _ <-.
  assert (core h = core w0) as Hc0 by congruence. apply read_all_local in E; [|by eapply core_queue_ok].
  assert (uh_claims w0 = uh_claims h) as Hw by (core_eq Hc0; congruence). by rewrite Hw in E.
Qed.

Lemma triple_knowledge_ready P : stable P → triple P knowledge_ready (λ _ h, P h).
Proof.
  intros HP. unfold knowledge_ready.
  tbind; [tpre; [|exact (triple_await false P (λ _, True) HP)]; naive_solver|]. intros ?.
  tbind; [tpre; [|exact (triple_io_step P UploadLock HP)]; naive_solver|]. intros ?.
  apply triple_calm; [by intros h r h' [= _ <-]|]. intros h b h' Hok Hp [= _ <-]. by eapply stable_core.
Qed.

Lemma triple_refresh a P : stable P →
  triple (λ h, P h ∧ attempt_ok a h) (refresh_attempt a) (λ a' h, P h ∧ attempt_ok a' h).
Proof.
  intros HP. unfold refresh_attempt. case_bool_decide; [by tret|].
  assert (stable (λ h, P h ∧ attempt_ok a h)) as HP'
    by (apply stable_and; [done|apply attempt_ok_stable]).
  tbind; [by apply triple_knowledge_ready|]. intros free. destruct free; simpl; [|by tret].
  tbind; [by apply triple_list_local|]. intros local.
  tbind; [tpre; [|apply (triple_lock_queue true P (read_from local) HP)]; naive_solver|].
  intros ?. tbind.
  { apply (triple_calm queue_read _ (λ p h, P h ∧ read_from local (uh_claims h) ∧ pending_value h = Some p));
      [apply core_queue_read|].
    intros h p h' Hok [Hp HL] E. pose proof (core_queue_read _ _ _ E) as Hc.
    split; [by eapply stable_core|]. split.
    - assert (uh_claims h' = uh_claims h) as -> by (core_eq Hc; congruence). by apply HL.
    - rewrite <-(core_pending _ _ Hc). by eapply queue_read_value. }
  intros p. simpl. tbind.
  { tpre; [|apply (triple_write_or_clear (refreshed local p) (λ h, P h ∧ attempt_ok (refreshed local p) h))].
    - intros h Hok (Hp & HL & Hpv). destruct (refreshed_storable local p h Hok Hpv HL). done.
    - apply stable_and; [done|apply attempt_ok_stable]. }
  intros ?. tret. naive_solver.
Qed.

(** ** Sending *)

Lemma triple_answer P : stable P → triple P answer (λ _ h, P h).
Proof.
  intros HP. apply triple_calm; [by intros h r h' [= _ <-]|]. intros h a h' Hok Hp [= _ <-].
  by eapply stable_core.
Qed.

Lemma triple_completed {A} (l : list A) P : stable P →
  triple P (completed l) (λ l' h, P h ∧ l' ≡ₚ l).
Proof.
  intros HP. apply triple_calm; [by intros h r h' [= _ <-]|]. intros h a h' Hok Hp [= <- <-].
  split; [by eapply stable_core|apply completion_perm].
Qed.

Lemma log_step_claims h h' :
  uh_client h' = uh_client h → uh_pending h' = uh_pending h → uh_claims h' = uh_claims h →
  uh_settled h' = uh_settled h → (∀ c, c ∈ uh_accepted h → c ∈ uh_accepted h') →
  (∀ c, c ∈ settled_claims h → c ∈ settled_claims h') →
  queue_ok h → never_lost h h' ∧ queue_ok h'.
Proof.
  intros H1 H2 H3 H4 H0 H5 Hok. assert (pending_value h' = pending_value h) as Hp by (unfold pending_value; by rewrite H2).
  assert (∀ c, behind_local h' c = behind_local h c) as Hb by (intros c; unfold behind_local; by rewrite H3).
  split.
  - split; [done|done|done|by rewrite H4|intros c; by rewrite Hb|..].
    + intros c. unfold claim_tracked, queued. rewrite Hp. apply has_version_mono.
      intros x Hx. apply has_version_in. set_solver.
    + intros d. unfold dispute_tracked, queued_disputes. by rewrite Hp, H4.
  - destruct Hok as [Hk Hq]. split; [by rewrite H3|]. rewrite Hp. intros p Hpv. destruct (Hq _ Hpv) as (? & ? & Hc).
    split; [done|]. split; [set_solver|]. intros c. rewrite Hb. auto.
Qed.

Definition settled (c : Claim) (h : UploadHome) : Prop := c ∈ settled_claims h.

Lemma settled_stable c : stable (settled c).
Proof. intros h h' _ []. unfold settled. auto. Qed.

Lemma triple_log_accepted c P : stable P → triple P (modify (log_accepted c)) (λ _ h, P h ∧ settled c h ∧ acked [c] h).
Proof.
  intros HP. apply (triple_modify queue_ok never_lost). intros h Hok Hp.
  destruct (log_step_claims h (log_accepted c h)) as [Hs Hok']; try done.
  { simpl. set_solver. }
  { unfold settled_claims. simpl. set_solver. }
  split; [done|]. split; [done|]. split; [exact (HP _ _ Hok Hs Hp)|].
  unfold settled, settled_claims, acked. simpl. set_solver.
Qed.

Lemma triple_log_refused c P : stable P → triple P (modify (log_refused c)) (λ _ h, P h ∧ settled c h).
Proof.
  intros HP. apply (triple_modify queue_ok never_lost). intros h Hok Hp.
  destruct (log_step_claims h (log_refused c h)) as [Hs Hok']; try done.
  { unfold settled_claims. simpl. set_solver. }
  split; [done|]. split; [done|]. split; [exact (HP _ _ Hok Hs Hp)|].
  unfold settled, settled_claims. simpl. set_solver.
Qed.

Definition reported (d : Dispute) (h : UploadHome) : Prop := d ∈ uh_settled h.

Lemma reported_stable d : stable (reported d).
Proof. intros h h' _ []. unfold reported. auto. Qed.

Lemma triple_log_settled d P : stable P → triple P (modify (log_settled d)) (λ _ h, P h ∧ reported d h).
Proof.
  intros HP. apply (triple_modify queue_ok never_lost). intros h Hok Hp.
  assert (never_lost h (log_settled d h)) as Hs.
  { split; try done.
    - intros e He. simpl. set_solver.
    - intros e. unfold dispute_tracked, queued_disputes, pending_value. simpl. apply has_version_mono.
      intros x Hx. apply has_version_in. set_solver. }
  split; [done|]. split; [done|]. split; [exact (HP _ _ Hok Hs Hp)|]. unfold reported. simpl. set_solver.
Qed.

(** Every claim sent has failed, and is kept, or is settled. *)
Lemma triple_upload_ready durable ready acks failed n P : stable P →
  triple P (upload_ready durable ready acks failed n) (λ r h, P h ∧
    (pu_claims failed ⊆ pu_claims r.1.2 ∧ pu_disputes r.1.2 = pu_disputes failed) ∧
    (acked acks h → acked r.1.1 h) ∧
    ∀ c, c ∈ ready → c ∈ pu_claims r.1.2 ∨ settled c h).
Proof.
  revert acks failed n P. induction ready as [|c ready IH]; intros acks failed n P HP; simpl.
  { tret. intros h _ Hp. set_solver. }
  tbind; [by apply triple_answer|]. intros [k|].
  - destruct (keeps_claim k _).
    + tpost; [|by apply IH]. intros r h _ (Hp & [Hsub Hd] & Hk & Hr). simpl in Hsub. split; [done|].
      split; [set_solver|]. split; [done|]. set_solver.
    + tbind; [by apply triple_log_refused|]. intros ?.
      tpost; [|apply IH; apply stable_and; [done|apply settled_stable]].
      intros r h _ ((Hp & Hc) & Hf & Hk & Hr). split; [done|]. split; [done|]. split; [done|]. set_solver.
  - tbind; [by apply triple_log_accepted|]. intros ?.
    tpost; [|apply IH; apply stable_and; [done|apply stable_and; [apply settled_stable|apply (acked_stable [c])]]].
    intros r h _ ((Hp & Hc & Ha) & Hf & Hk & Hr). split; [done|]. split; [done|]. split; [|set_solver].
    intros Hacks. apply Hk. intros x [?| ->]%acknowledge_in; [by apply Hacks|]. apply Ha. set_solver.
Qed.

(** Each claim of the attempt remains to be sent, failed, or is settled. *)
Definition accounted (all remaining : list Claim) (failed : PendingMaintainerUploads) (h : UploadHome) : Prop :=
  ∀ c, c ∈ all → c ∈ remaining ∨ c ∈ pu_claims failed ∨ settled c h.

Lemma accounted_stable all remaining failed : stable (accounted all remaining failed).
Proof.
  intros h h' Hok Hs Ha c Hc. destruct (Ha c Hc) as [?|[?|Hd]]; [auto..|].
  right; right. exact (settled_stable c h h' Hok Hs Hd).
Qed.

Definition local_versions (local : option (list Claim)) (h : UploadHome) : Prop :=
  ∀ l c, local = Some l → c ∈ l → behind_local h c = true.

Lemma triple_local_for groups P : stable P →
  triple P (local_for groups) (λ local h, P h ∧ local_versions local h).
Proof.
  intros HP. unfold local_for. case_bool_decide; [tret; intros h _ Hp; split; [done|]; by intros l c [= <-] ?%elem_of_nil|].
  tbind; [by apply triple_knowledge_ready|]. intros []; [|by tret].
  tbind; [by apply triple_list_local|]. intros l. tret. intros h _ [Hp Hl]. split; [done|].
  intros ? c [= <-] Hc. apply local_behind. unfold is_local. rewrite (Hl _ Hc). by apply bool_decide_eq_true_2.
Qed.

Lemma triple_upload_rounds fuel groups durable all remaining acks failed n P : stable P →
  triple (λ h, P h ∧ accounted all remaining failed h ∧ acked acks h ∧ pu_disputes failed = [])
    (upload_rounds fuel groups durable remaining acks failed n)
    (λ r h, P h ∧ accounted all r.1.1.1 r.1.2 h ∧ acked r.1.1.2 h ∧ pu_disputes r.1.2 = []).
Proof.
  intros HP. revert remaining acks failed n.
  induction fuel as [|fuel IH]; intros remaining acks failed n; simpl; [by tret|].
  set (Q := λ h, P h ∧ accounted all remaining failed h ∧ acked acks h ∧ pu_disputes failed = []).
  assert (stable Q) as HQ.
  { apply stable_and; [done|]. apply stable_and; [apply accounted_stable|].
    apply stable_and; [apply acked_stable|apply stable_const]. }
  tbind; [by apply triple_local_for|]. intros local. tpre; [intros h _ [H _]; exact H|].
  simpl. case_bool_decide; [by tret|].
  set (ready := filter (λ c, is_ready groups acks local c = true) remaining).
  tbind; [by apply triple_completed|]. intros order. apply triple_pure. intros Hperm.
  tbind; [by apply triple_upload_ready|]. intros [[acks' failed'] n'].
  tpre; [|apply IH]. simpl. intros h _ ((Hp & Ha & Hack & Hd) & [Hsub Hfd] & Hk & Hr). split; [done|].
  split; [|split; [by apply Hk|congruence]]. intros c Hc. destruct (Ha c Hc) as [Hin|[Hf|Hs]]; [|set_solver..].
  destruct (decide (c ∈ ready)) as [Hcr|Hcr].
  - right. apply Hr. rewrite Hperm. exact Hcr.
  - left. by apply list_elem_of_filter.
Qed.

Lemma triple_report_disputes disputes failed n P : stable P →
  triple P (report_disputes disputes failed n) (λ r h, P h ∧
    (pu_disputes failed ⊆ pu_disputes r.1 ∧ pu_claims r.1 = pu_claims failed) ∧
    ∀ d, d ∈ disputes → d ∈ pu_disputes r.1 ∨ reported d h).
Proof.
  revert failed n P. induction disputes as [|d disputes IH]; intros failed n P HP; simpl.
  { tret. intros h _ Hp. set_solver. }
  assert (∀ failed n, triple P (_ ← modify (log_settled d); report_disputes disputes failed n) (λ r h, P h ∧
    (pu_disputes failed ⊆ pu_disputes r.1 ∧ pu_claims r.1 = pu_claims failed) ∧
    ∀ e, e ∈ d :: disputes → e ∈ pu_disputes r.1 ∨ reported e h)) as Hlog.
  { intros f m. tbind; [by apply triple_log_settled|]. intros ?.
    tpost; [|apply IH; apply stable_and; [done|apply reported_stable]].
    intros r h _ ((Hp & Hc) & Hf & Hr). split; [done|]. split; [done|]. set_solver. }
  assert (∀ failed n, triple P (report_disputes disputes (add_failed_dispute d failed) n) (λ r h, P h ∧
    (pu_disputes failed ⊆ pu_disputes r.1 ∧ pu_claims r.1 = pu_claims failed) ∧
    ∀ e, e ∈ d :: disputes → e ∈ pu_disputes r.1 ∨ reported e h)) as Hfail.
  { intros f m. tpost; [|by apply IH]. intros r h _ (Hp & [Hsub Hc] & Hr). simpl in Hsub. split; [done|]. set_solver. }
  tbind; [by apply triple_answer|]. intros [[]|]; auto.
Qed.

(** ** The end of an attempt, and the whole batch *)

Definition attempted_done (a failed : PendingMaintainerUploads) (h : UploadHome) : Prop :=
  (∀ c, c ∈ pu_claims a → c ∈ pu_claims failed ∨ settled c h) ∧
  (∀ d, d ∈ pu_disputes a → d ∈ pu_disputes failed ∨ reported d h).

Lemma attempted_done_stable a failed : stable (attempted_done a failed).
Proof.
  intros h h' Hok Hs [Hc Hd]. split.
  - intros c Hin. destruct (Hc c Hin) as [?|H]; [auto|]. right. exact (settled_stable c _ _ Hok Hs H).
  - intros d Hin. destruct (Hd d Hin) as [?|H]; [auto|]. right. exact (reported_stable d _ _ Hok Hs H).
Qed.

Lemma reconciled_storable a failed current h : queue_ok h → pending_value h = Some current →
  attempt_ok a h → attempted_done a failed h →
  storable (reconcile_pending_uploads_after_attempt current a failed) h.
Proof.
  intros Hok Hp ([Hac Had] & Haa & Hab) [Hdc Hdd]. destruct (pending_attempt_ok _ _ Hok Hp) as ([Hc Hd] & Hca & Hb).
  split.
  { split; [rewrite reconciled_claims|rewrite reconciled_disputes];
      apply reconcile_NoDup; try done. }
  split; [etrans; [apply reconciled_acks|set_solver]|].
  split.
  { rewrite reconciled_claims. intros c [?|?]%reconcile_from; auto. }
  unfold queued, queued_disputes. rewrite Hp. cbn [from_option]. split.
  - intros c Hin. apply has_version_in, elem_of_app. rewrite reconciled_claims.
    destruct (reconcile_keeps claim_id (list_to_set (claim_id <$> pu_claims failed))
      (pu_claims current) (pu_claims a) Hc Hac c Hin) as [?|[Ha Hn]]; [auto|].
    destruct (Hdc _ Ha) as [Hf|?]; [|auto]. destruct Hn. apply elem_of_list_to_set. by apply list_elem_of_fmap_2.
  - intros d Hin. apply has_version_in, elem_of_app. rewrite reconciled_disputes.
    destruct (reconcile_keeps dispute_id (list_to_set (dispute_id <$> pu_disputes failed))
      (pu_disputes current) (pu_disputes a) Hd Had d Hin) as [?|[Ha Hn]]; [auto|].
    destruct (Hdd _ Ha) as [Hf|?]; [|auto]. destruct Hn. apply elem_of_list_to_set. by apply list_elem_of_fmap_2.
Qed.

Lemma triple_finish a failed P : stable P →
  triple (λ h, P h ∧ attempt_ok a h ∧ attempted_done a failed h) (finish_attempt a failed) (λ _ h, P h).
Proof.
  intros HP. unfold finish_attempt.
  assert (stable (λ h, P h ∧ attempt_ok a h ∧ attempted_done a failed h)) as HQ.
  { apply stable_and; [done|]. apply stable_and; [apply attempt_ok_stable|apply attempted_done_stable]. }
  tbind; [by apply triple_lock|]. intros ?. tbind; [by apply triple_queue_read|]. intros current. simpl.
  tpre; [|tpost; [|by apply triple_write_or_clear]]; [|naive_solver].
  intros h Hok ((Hp & Ha & Hd) & Hc). split; [done|]. by apply reconciled_storable.
Qed.

Lemma retained_claims remaining failed c :
  c ∈ pu_claims (fold_left (λ f c, retain_failed_claim c true f) remaining failed) ↔
    c ∈ pu_claims failed ∨ c ∈ remaining.
Proof.
  revert failed. induction remaining as [|x l IH]; intros failed; simpl; [set_solver|].
  rewrite IH. simpl. set_solver.
Qed.

Lemma retained_disputes remaining failed :
  pu_disputes (fold_left (λ f c, retain_failed_claim c true f) remaining failed) = pu_disputes failed.
Proof. revert failed. induction remaining as [|x l IH]; intros failed; simpl; [done|]. by rewrite IH. Qed.

(** What the uploads of an attempt leave to settle. *)
Definition sent (a : PendingMaintainerUploads)
    (r : list Claim * list Claim * PendingMaintainerUploads * UploadCounters) (h : UploadHome) : Prop :=
  attempt_ok a h ∧ accounted (pu_claims a) r.1.1.1 r.1.2 h ∧ acked r.1.1.2 h ∧ pu_disputes r.1.2 = [].

Lemma sent_stable a r : stable (sent a r).
Proof.
  apply stable_and; [apply attempt_ok_stable|]. apply stable_and; [apply accounted_stable|].
  apply stable_and; [apply acked_stable|apply stable_const].
Qed.

Lemma triple_settle a r P : stable P → triple (λ h, P h ∧ sent a r h) (settle_attempt a r) (λ _ h, P h).
Proof.
  intros HP. destruct r as [[[remaining acks] failed] n]. unfold settle_attempt.
  set (failed' := fold_left _ remaining failed).
  assert (stable (λ h, P h ∧ sent a (remaining, acks, failed, n) h)) as HR
    by (apply stable_and; [done|apply sent_stable]).
  tbind; [by apply triple_completed|]. intros order. apply triple_pure. intros Hperm.
  tbind; [by apply triple_report_disputes|]. intros [failed2 n2]. simpl.
  tbind; [|intros ?; tret; intros h _ H; exact H].
  tpre; [|apply (triple_finish _ failed2 P HP)].
  intros h _ ((Hp & (Hwf & _ & Ha) & Hacc & Hack & _) & [_ Hc] & Hd). simpl in *.
  split; [done|]. split; [done|]. split.
  - intros c Hin. rewrite Hc. unfold failed'. rewrite retained_claims. destruct (Hacc c Hin) as [?|[?|?]]; auto.
  - intros d Hin. apply Hd. by rewrite Hperm.
Qed.

Lemma triple_send a P : stable P →
  triple (λ h, P h ∧ attempt_ok a h)
    (upload_rounds (S (length (pu_claims a))) (pu_consolidations a) (pu_durable_claim_ids a) (pu_claims a)
      (pu_acknowledgements a) no_uploads no_counters)
    (λ r h, P h ∧ sent a r h).
Proof.
  intros HP.
  assert (stable (λ h, P h ∧ attempt_ok a h)) as HQ by (apply stable_and; [done|apply attempt_ok_stable]).
  tpre; [|tpost; [|apply (triple_upload_rounds _ _ _ (pu_claims a) _ _ _ _ _ HQ)]].
  - intros h _ [Hp Ha]. split; [done|]. split; [intros c Hc; by left|]. split; [|done]. apply Ha.
  - intros r h _ ([Hp Ha] & H). by split.
Qed.

Lemma triple_deliver a P : stable P →
  triple (λ h, P h ∧ attempt_ok a h) (deliver a) (λ _ h, P h).
Proof.
  intros HP. unfold deliver. tbind; [by apply triple_send|]. intros r. by apply triple_settle.
Qed.

Lemma triple_batch rq P : stable P →
  triple (λ h, P h ∧ all_behind (sr_claims rq) h) (upload_maintainer_batch_inner rq)
    (λ _ h, P h ∧ (uh_client h = true → request_tracked rq h)).
Proof.
  intros HP. unfold upload_maintainer_batch_inner.
  tbind; [apply triple_has_client|]. intros client. destruct client; simpl.
  - tpre; [intros h _ [H _]; exact H|].
    tbind; [by apply triple_stage|]. intros ?.
    set (R := λ h, P h ∧ (uh_client h = true → request_tracked rq h)).
    assert (stable R) as HR.
    { apply stable_and; [done|]. intros h h' Hok Hs Hr Hcl.
      apply (request_tracked_stable rq h h' Hok Hs), Hr. destruct Hs. congruence. }
    tbind; [by apply triple_io_step|]. intros ?. tbind; [by apply triple_lock|]. intros ?.
    tbind; [by apply triple_queue_read|]. intros p.
    destruct (nothing_pending p); [tret; naive_solver|].
    tbind.
    { tpre; [|apply (triple_refresh p R HR)]. intros h Hok [? ?]. split; [done|by apply pending_attempt_ok]. }
    intros att. simpl. destruct (nothing_pending att); [tret; naive_solver|]. by apply triple_deliver.
  - tret. intros h _ [[Hp _] Hc]. split; [done|congruence].
Qed.
