(* ===== verification/Carriers.v ===== *)
(** * When a retired claim may be uploaded

    [covered]: the knowledge of a claim is with the Maintainer, in the claim
    itself or in the claims that a chain of consolidations put in its place.
    The path-marking search of consolidation_delivery.rs decides it. *)

From S2P Require Import Prelude Storage Claim UploadQueue.

Lemma size_list_to_set_le (l : list string) : size (list_to_set l : gset string) ≤ length l.
Proof.
  induction l as [|x l IH]; [by rewrite list_to_set_nil, size_empty|].
  rewrite list_to_set_cons, size_union_alt, size_singleton. simpl.
  assert (size ((list_to_set l : gset string) ∖ {[x]}) ≤ size (list_to_set l : gset string))
    by (apply subseteq_size; set_solver). lia.
Qed.

Section covered.
Context (groups : list ConsolidationDelivery) (acked current : list Claim).

Inductive covered : Claim → Prop :=
| covered_acked c :
    claim_status c ≠ ClaimDeprecated → c ∈ current → c ∈ acked → covered c
| covered_chain g :
    g ∈ groups → cd_retired g ∈ current → cd_carriers g ≠ [] →
    (∀ k, k ∈ cd_carriers g → covered k) → covered (cd_before g).

Notation carrier_ready := (carrier_ready groups acked current).

Definition here (c : Claim) : bool :=
  negb (is_deprecated c) && bool_decide (c ∈ current) && bool_decide (c ∈ acked).

Lemma here_spec c : here c = true ↔ claim_status c ≠ ClaimDeprecated ∧ c ∈ current ∧ c ∈ acked.
Proof.
  unfold here, is_deprecated. rewrite !andb_true_iff, negb_true_iff, bool_decide_eq_false, !bool_decide_eq_true.
  tauto.
Qed.

(** One step of the search, with the nested calls as a parameter. *)
Definition chained (ready : Claim → bool) (c : Claim) : bool :=
  existsb (λ g, bool_decide (cd_before g = c) && bool_decide (cd_retired g ∈ current)
    && negb (bool_decide (cd_carriers g = [])) && forallb ready (cd_carriers g)) groups.

Lemma chained_spec ready c : chained ready c = true ↔
  ∃ g, g ∈ groups ∧ cd_before g = c ∧ cd_retired g ∈ current ∧ cd_carriers g ≠ [] ∧
    ∀ k, k ∈ cd_carriers g → ready k = true.
Proof.
  unfold chained. rewrite existsb_exists. setoid_rewrite <-list_elem_of_In.
  setoid_rewrite andb_true_iff. setoid_rewrite andb_true_iff. setoid_rewrite andb_true_iff.
  setoid_rewrite negb_true_iff. setoid_rewrite bool_decide_eq_true. setoid_rewrite bool_decide_eq_false.
  setoid_rewrite forallb_forall. setoid_rewrite <-list_elem_of_In. naive_solver.
Qed.

Lemma chained_ext ready ready' c :
  (∀ g k, g ∈ groups → k ∈ cd_carriers g → ready k = ready' k) → chained ready c = chained ready' c.
Proof.
  intros H. apply eq_true_iff_eq. rewrite !chained_spec.
  split; intros (g & Hg & ? & ? & ? & Hk); exists g; split_and!; try done; intros k Hin;
    [rewrite <-(H g k)|rewrite (H g k)]; auto.
Qed.

Lemma carrier_ready_step fuel visiting c : carrier_ready (S fuel) visiting c =
  here c || (negb (bool_decide (claim_id c ∈ visiting)) &&
             chained (carrier_ready fuel ({[claim_id c]} ∪ visiting)) c).
Proof.
  simpl. unfold here. destruct (negb (is_deprecated c) && _ && _); [done|]. by case_bool_decide.
Qed.

Lemma carrier_ready_sound fuel visiting c : carrier_ready fuel visiting c = true → covered c.
Proof.
  revert visiting c. induction fuel as [|fuel IH]; intros visiting c; [done|]. rewrite carrier_ready_step.
  intros [(? & ? & ?)%here_spec|[_ (g & Hg & <- & Hr & Hne & Hk)%chained_spec]%andb_prop]%orb_prop;
    [by apply covered_acked|].
  apply covered_chain; [done..|]. intros k Hin. by eapply IH, Hk.
Qed.

(** ** The fuel is enough *)

Definition carrier_ids : gset ClaimId := list_to_set (claim_id <$> (groups ≫= cd_carriers)).

Lemma carrier_id_in g k : g ∈ groups → k ∈ cd_carriers g → claim_id k ∈ carrier_ids.
Proof.
  intros Hg Hk. apply elem_of_list_to_set, list_elem_of_fmap_2, list_elem_of_bind. eauto.
Qed.

Lemma visit_smaller (x : ClaimId) (C V : gset ClaimId) : x ∈ C → x ∉ V → size (C ∖ ({[x]} ∪ V)) < size (C ∖ V).
Proof. intros Hx Hv. apply subset_size. set_solver. Qed.

Lemma carrier_ready_fuel fuel fuel' visiting c :
  claim_id c ∈ carrier_ids → size (carrier_ids ∖ visiting) < fuel → fuel ≤ fuel' →
  carrier_ready fuel' visiting c = carrier_ready fuel visiting c.
Proof.
  revert fuel' visiting c. induction fuel as [|fuel IH]; intros [|fuel'] visiting c Hc Hs Hle; try lia.
  rewrite !carrier_ready_step. destruct (here c); [done|]. simpl. case_bool_decide as Hv; simpl; [done|].
  apply chained_ext. intros g k Hg Hk. apply IH; [by eapply carrier_id_in| |lia].
  pose proof (visit_smaller _ _ _ Hc Hv). lia.
Qed.

Lemma carrier_fuel_enough visiting : size (carrier_ids ∖ visiting) < carrier_fuel groups.
Proof.
  unfold carrier_fuel. assert (size (carrier_ids ∖ visiting) ≤ size carrier_ids) by (apply subseteq_size; set_solver).
  pose proof (size_list_to_set_le (claim_id <$> (groups ≫= cd_carriers))) as Hl.
  fold carrier_ids in Hl.
  rewrite length_fmap in Hl. lia.
Qed.

(** ** It finds every chain *)

Definition is_carrier (k : Claim) : Prop := ∃ g, g ∈ groups ∧ k ∈ cd_carriers g.

(** A chain of at most [n] consolidations. *)
Fixpoint covered_in (n : nat) (c : Claim) : bool :=
  here c || match n with O => false | S n' => chained (covered_in n') c end.

Lemma covered_in_mono n m c : n ≤ m → covered_in n c = true → covered_in m c = true.
Proof.
  revert m c. induction n as [|n IH]; intros [|m] c Hle; try lia; simpl; rewrite ?orb_true_iff; [done|intros [?|?]; [by left|done]|].
  intros [?|(g & Hg & ? & ? & ? & Hk)%chained_spec]; [auto|right]. apply chained_spec. exists g.
  split_and!; try done. intros k Hin. apply IH; [lia|auto].
Qed.

Lemma covered_depth c : covered c → ∃ n, covered_in n c = true.
Proof.
  induction 1 as [c H1 H2 H3|g Hg Hr Hne Hk IH].
  - exists 0. simpl. by rewrite (proj2 (here_spec c)).
  - assert (∃ n, ∀ k, k ∈ cd_carriers g → covered_in n k = true) as [n Hn].
    { clear Hne Hk Hg. induction (cd_carriers g) as [|k l IHl]; [exists 0; set_solver|].
      destruct IHl as [n1 Hn1]; [intros; apply IH; set_solver|].
      destruct (IH k) as [n2 Hn2]; [set_solver|]. exists (n1 `max` n2).
      intros k' [->|Hin]%elem_of_cons; eapply covered_in_mono; [|done| |by apply Hn1]; lia. }
    exists (S n). cbn [covered_in]. apply orb_true_iff. right. apply chained_spec. exists g. auto.
Qed.

Lemma least_depth n c : covered_in n c = true →
  ∃ m, m ≤ n ∧ covered_in m c = true ∧ ∀ i, i < m → covered_in i c = false.
Proof.
  induction n as [n IH] using lt_wf_ind. intros Hn.
  destruct (decide (Exists (λ i, covered_in i c = true) (seq 0 n))) as [He|Hno].
  - apply Exists_exists in He as (i & Hi%elem_of_seq & Hc). destruct Hi as [_ Hi]. simpl in Hi.
    destruct (IH i Hi Hc) as (m & Hm & ? & ?). exists m. split; [lia|done].
  - exists n. split; [done|]. split; [done|]. intros i Hi. apply not_true_is_false.
    intros Hc. apply Hno, Exists_exists. exists i. split; [apply elem_of_seq; lia|done].
Qed.

Context (ids_determine : ∀ g g' k k', g ∈ groups → g' ∈ groups → k ∈ cd_carriers g → k' ∈ cd_carriers g' →
  claim_id k = claim_id k' → k = k').

Lemma carrier_ready_complete n fuel visiting c :
  is_carrier c → size (carrier_ids ∖ visiting) < fuel → covered_in n c = true →
  (∀ x, is_carrier x → claim_id x ∈ visiting → covered_in n x = false) →
  carrier_ready fuel visiting c = true.
Proof.
  revert fuel visiting c. induction n as [n IH] using lt_wf_ind. intros [|fuel] visiting c Hc Hf Hn Hv; [lia|].
  rewrite carrier_ready_step. destruct (here c) eqn:Eh; [done|]. simpl.
  destruct (least_depth n c Hn) as (m & Hm & Hcm & Hleast).
  destruct m as [|m]; simpl in Hcm; rewrite Eh in Hcm; [done|]. simpl in Hcm.
  assert (claim_id c ∉ visiting) as Hnv by (intros Hin; rewrite (Hv c Hc Hin) in Hn; done).
  rewrite bool_decide_false by done. simpl. destruct Hc as (g0 & Hg0 & Hc0).
  apply chained_spec in Hcm as (g & Hg & Hb & Hr & Hne & Hk). apply chained_spec. exists g.
  split_and!; try done. intros k Hin. apply (IH m); [lia|by exists g| |by apply Hk|].
  - pose proof (visit_smaller (claim_id c) carrier_ids visiting (carrier_id_in _ _ Hg0 Hc0) Hnv). lia.
  - intros x Hx [Hid%elem_of_singleton|Hxv]%elem_of_union; apply not_true_is_false; intros Ht.
    + destruct Hx as (g' & Hg' & Hx'). assert (x = c) as -> by by eapply (ids_determine g' g0).
      rewrite Hleast in Ht by lia. done.
    + apply (covered_in_mono m n) in Ht; [|lia]. by rewrite (Hv x Hx Hxv) in Ht.
Qed.
End covered.

(** [ready]: every consolidation that retired this very version is covered. *)
Lemma ready_sound groups acked current c : ready groups acked current c = true →
  ∀ g, g ∈ groups → cd_retired g = c →
    cd_carriers g ≠ [] ∧ ∀ k, k ∈ cd_carriers g → covered groups acked current k.
Proof.
  unfold ready. rewrite forallb_forall. setoid_rewrite <-list_elem_of_In. intros H g Hg Hr.
  specialize (H g). rewrite andb_true_iff, negb_true_iff, bool_decide_eq_false, forallb_forall in H.
  setoid_rewrite <-list_elem_of_In in H. destruct H as [Hne Hk]; [by apply list_elem_of_filter|].
  split; [done|]. intros k Hin. by eapply carrier_ready_sound, Hk.
Qed.

Lemma covered_mono groups acked acked' current c :
  acked ⊆ acked' → covered groups acked current c → covered groups acked' current c.
Proof.
  intros Hsub. induction 1 as [c H1 H2 H3|g Hg Hr Hne Hk IH]; [apply covered_acked; auto|by apply covered_chain].
Qed.

(** ** Pruning *)

Section prune.
Context (groups : list ConsolidationDelivery) (pending : list Claim).

(** What a pending retirement waits for, along the chain. *)
Inductive needed : ConsolidationDelivery → Prop :=
| needed_pending g : g ∈ groups → cd_retired g ∈ pending → needed g
| needed_next g g' : needed g → g' ∈ groups → cd_before g' ∈ cd_carriers g → needed g'.

Lemma imap_pair_elem (i : nat) (g : ConsolidationDelivery) : (i, g) ∈ imap pair groups ↔ groups !! i = Some g.
Proof.
  rewrite list_elem_of_lookup. setoid_rewrite list_lookup_imap. split.
  - intros (j & Hj). destruct (groups !! j) as [g'|] eqn:Ej; simplify_eq/=. done.
  - intros Hg. exists i. by rewrite Hg.
Qed.

Lemma selected_index (f : ConsolidationDelivery → bool) i :
  i ∈ omap (λ ig, if f ig.2 then Some ig.1 else None) (imap pair groups) ↔
    ∃ g, groups !! i = Some g ∧ f g = true.
Proof.
  rewrite list_elem_of_omap. split.
  - intros ([j g] & Hin%imap_pair_elem & Hs). simpl in Hs. destruct (f g) eqn:E; simplify_eq. eauto.
  - intros (g & Hg & HQ). exists (i, g). split; [by apply imap_pair_elem|]. simpl. by rewrite HQ.
Qed.

Lemma prune_step_spec keep j : j ∈ prune_step groups keep ↔ j ∈ keep ∨
  ∃ i g g', i ∈ keep ∧ groups !! i = Some g ∧ groups !! j = Some g' ∧ cd_before g' ∈ cd_carriers g.
Proof.
  unfold prune_step. rewrite elem_of_union, elem_of_list_to_set, list_elem_of_bind. apply or_iff_compat_l. split.
  - intros (i & Hj & Hi%elem_of_elements). destruct (groups !! i) as [g|] eqn:Eg; [|by apply elem_of_nil in Hj].
    apply list_elem_of_bind in Hj as (k & Hsel & Hk).
    destruct (proj1 (selected_index (λ g, bool_decide (cd_before g = k)) j) Hsel)
      as (g' & Hg' & <-%bool_decide_eq_true_1). by exists i, g, g'.
  - intros (i & g & g' & Hi & Hg & Hg' & Hk). exists i. split; [|by apply elem_of_elements].
    rewrite Hg. apply list_elem_of_bind. exists (cd_before g'). split; [|done].
    pose proof (selected_index (λ g, bool_decide (cd_before g = cd_before g')) j) as Hsel.
    apply (proj2 Hsel).
    exists g'. by rewrite bool_decide_true.
Qed.

Definition indices : gset nat := list_to_set (seq 0 (length groups)).

Lemma prune_step_bounded keep : keep ⊆ indices → prune_step groups keep ⊆ indices.
Proof.
  intros Hk j [?|(i & g & g' & _ & _ & Hg' & _)]%prune_step_spec; [auto|].
  apply elem_of_list_to_set, elem_of_seq. apply lookup_lt_Some in Hg'. lia.
Qed.

Lemma prune_step_grows keep : keep ⊆ prune_step groups keep.
Proof. intros i Hi. apply prune_step_spec. by left. Qed.

(** The loop ends on a set closed under its step. *)
Lemma prune_loop_closed fuel keep : keep ⊆ indices → size indices < fuel + size keep →
  prune_step groups (prune_loop fuel groups keep) = prune_loop fuel groups keep.
Proof.
  revert keep. induction fuel as [|fuel IH]; intros keep Hk Hf; simpl.
  { apply subseteq_size in Hk. lia. }
  case_bool_decide as He; [done|]. apply IH; [by apply prune_step_bounded|].
  assert (size keep < size (prune_step groups keep)); [|lia].
  apply subset_size. split; [apply prune_step_grows|]. intros Hs. apply He.
  apply set_eq_subseteq. split; [done|apply prune_step_grows].
Qed.

Lemma prune_loop_least fuel keep (Q : nat → Prop) :
  (∀ i, i ∈ keep → Q i) →
  (∀ i g j g', Q i → groups !! i = Some g → groups !! j = Some g' → cd_before g' ∈ cd_carriers g → Q j) →
  keep ⊆ prune_loop fuel groups keep ∧ ∀ i, i ∈ prune_loop fuel groups keep → Q i.
Proof.
  revert keep. induction fuel as [|fuel IH]; intros keep HQ Hn; simpl; [done|].
  case_bool_decide; [done|]. destruct (IH (prune_step groups keep)) as [Hs Hl]; [|done|].
  - intros j [?|(i & g & g' & ? & ? & ? & ?)]%prune_step_spec; [auto|]. by eapply Hn, H3; [apply HQ|..].
  - split; [|done]. etrans; [apply prune_step_grows|exact Hs].
Qed.

Lemma seeds_bounded : (list_to_set (omap (λ ig, if bool_decide (cd_retired ig.2 ∈ pending) then Some ig.1 else None)
  (imap pair groups)) : gset nat) ⊆ indices.
Proof.
  intros j Hj%elem_of_list_to_set.
  destruct (proj1 (selected_index (λ g, bool_decide (cd_retired g ∈ pending)) j) Hj) as (g & Hg & _).
  apply elem_of_list_to_set, elem_of_seq. apply lookup_lt_Some in Hg. lia.
Qed.

Lemma indices_size : size indices ≤ length groups.
Proof.
  unfold indices. rewrite size_list_to_set by apply NoDup_seq. by rewrite length_seq.
Qed.

Lemma prune_keep_spec i g : groups !! i = Some g → i ∈ prune_keep groups pending → needed g.
Proof.
  intros Hg Hi. unfold prune_keep in Hi.
  match type of Hi with _ ∈ prune_loop ?n _ ?keep =>
    destruct (prune_loop_least n keep (λ i, ∀ g, groups !! i = Some g → needed g)) as [_ Hl] end;
    [| |by apply (Hl i)].
  - intros j Hj%elem_of_list_to_set h Hh.
    destruct (proj1 (selected_index (λ g, bool_decide (cd_retired g ∈ pending)) j) Hj)
      as (g' & Hg' & Hp%bool_decide_eq_true_1). simplify_eq.
    apply needed_pending; [by eapply list_elem_of_lookup_2|done].
  - intros j h k h' HQ Hj Hk Hb x Hx. simplify_eq.
    eapply needed_next; [by apply HQ|by eapply list_elem_of_lookup_2|done].
Qed.

Lemma needed_in g : needed g → g ∈ groups.
Proof. by destruct 1. Qed.

Lemma needed_kept g : needed g → ∀ i, groups !! i = Some g → i ∈ prune_keep groups pending.
Proof.
  set (keep0 := list_to_set (omap (λ ig, if bool_decide (cd_retired ig.2 ∈ pending) then Some ig.1 else None)
    (imap pair groups)) : gset nat).
  assert (prune_step groups (prune_keep groups pending) = prune_keep groups pending) as Hclosed.
  { apply prune_loop_closed; [apply seeds_bounded|]. pose proof indices_size. lia. }
  induction 1 as [g Hin Hp|g g' Hg IH Hin Hb]; intros i Hi.
  - eapply (prune_loop_least (S (length groups)) keep0 (λ _, True)); [done..|].
    pose proof (selected_index (λ g, bool_decide (cd_retired g ∈ pending)) i) as Hsel.
    apply elem_of_list_to_set, (proj2 Hsel).
    exists g. by rewrite bool_decide_true.
  - rewrite <-Hclosed. apply prune_step_spec. right.
    apply needed_in, list_elem_of_lookup in Hg as [j Hj]. exists j, g, g'. split; [by apply IH|done].
Qed.

Lemma prune_elem acks g : g ∈ (prune groups acks pending).1 ↔ needed g.
Proof.
  unfold prune. cbn [fst]. rewrite list_elem_of_fmap. split.
  - intros ([i h] & -> & [Hk Hi%imap_pair_elem]%list_elem_of_filter). by eapply prune_keep_spec.
  - intros Hg. pose proof (needed_in _ Hg) as [i Hi]%list_elem_of_lookup. exists (i, g). split; [done|].
    apply list_elem_of_filter. split; [by eapply needed_kept|by apply imap_pair_elem].
Qed.
End prune.
