(* ===== verification/UploadOrder.v ===== *)
(** * Nothing retired is uploaded before what replaces it *)

From S2P Require Import Prelude Storage Claim UploadQueue UploadProofs StepLogic UploadSafety UploadDelivery Carriers.

Local Notation triple := (StepLogic.triple (E:=UploadError) queue_ok never_lost).
Local Notation stable := (StepLogic.stable queue_ok never_lost).

(** ** Only an upload adds to what the Maintainer accepted *)

Definition same_accepted : relation UploadHome := λ h h', uh_accepted h' = uh_accepted h.

#[export] Instance same_accepted_preorder : PreOrder same_accepted.
Proof. split; [done|]. intros h1 h2 h3 H1 H2. unfold same_accepted in *. congruence. Qed.

Lemma core_accepted {A} (m : UM A) :
  (∀ h r h', m h = (r, h') → core h = core h') → preserves same_accepted m.
Proof. intros Hm h r h' E. specialize (Hm _ _ _ E). core_eq Hm. by unfold same_accepted. Qed.

Lemma run_others_accepted ts h : uh_accepted (fold_left run_other ts h) = uh_accepted h.
Proof.
  revert h. induction ts as [|t ts IH]; intros h; simpl; [done|]. rewrite IH. unfold run_other.
  destruct (can_run h t); simpl; [|done]. destruct t as [c|rq|previous revised]; [done|..];
    destruct (pending_value h) as [p|]; try done. by destruct (can_rebind previous p).
Qed.

Lemma await_accepted held : preserves same_accepted (await_others held).
Proof. intros h r h' [= _ <-]. unfold same_accepted. simpl. apply run_others_accepted. Qed.

Lemma modify_accepted f : (∀ h, uh_accepted (f h) = uh_accepted h) →
  preserves same_accepted (modify (E:=UploadError) f).
Proof. intros Hf h r h' [= _ <-]. apply Hf. Qed.

Lemma io_step_accepted e : preserves same_accepted (io_step (E:=UploadError) e).
Proof. apply core_accepted, core_io_step. Qed.

Lemma lock_accepted held : preserves same_accepted (lock_queue held).
Proof.
  apply preserves_bind; [apply _|apply await_accepted|intros _; apply io_step_accepted].
Qed.

Lemma knowledge_accepted : preserves same_accepted knowledge_ready.
Proof.
  unfold knowledge_ready. repeat (apply preserves_bind; [apply _| |intros ?]);
    [apply await_accepted|apply io_step_accepted|by apply preserves_gets|by apply modify_accepted|
     by apply preserves_ret].
Qed.

Lemma write_accepted p : preserves same_accepted (write_or_clear p).
Proof.
  intros h r h' [[_ Hc]|[_ Hc]]%write_or_clear_inv; core_eq Hc; by unfold same_accepted.
Qed.

Lemma local_for_accepted groups : preserves same_accepted (local_for groups).
Proof.
  unfold local_for. case_bool_decide; [by apply preserves_ret|].
  apply preserves_bind; [apply _|apply knowledge_accepted|]. intros []; [|by apply preserves_ret].
  apply preserves_bind; [apply _|apply core_accepted, core_list_local|intros ?; by apply preserves_ret].
Qed.

Lemma answer_accepted : preserves same_accepted answer.
Proof. by intros h r h' [= _ <-]. Qed.

Lemma completed_accepted {A} (l : list A) : preserves same_accepted (completed l).
Proof. by intros h r h' [= _ <-]. Qed.

Lemma report_accepted disputes failed n : preserves same_accepted (report_disputes disputes failed n).
Proof.
  revert failed n. induction disputes as [|d l IH]; intros failed n; simpl; [by apply preserves_ret|].
  apply preserves_bind; [apply _|apply answer_accepted|]. intros [[]|]; try apply IH;
    (apply preserves_bind; [apply _|by apply modify_accepted|intros _; apply IH]).
Qed.

Lemma finish_accepted a failed : preserves same_accepted (finish_attempt a failed).
Proof.
  unfold finish_attempt. apply preserves_bind; [apply _|apply lock_accepted|intros _].
  apply preserves_bind; [apply _|apply core_accepted, core_queue_read|intros p; apply write_accepted].
Qed.

Lemma settle_accepted a s : preserves same_accepted (settle_attempt a s).
Proof.
  destruct s as [[[remaining acks] failed] n]. unfold settle_attempt.
  apply preserves_bind; [apply _|apply completed_accepted|intros order].
  apply preserves_bind; [apply _|apply report_accepted|intros d].
  apply preserves_bind; [apply _|apply finish_accepted|intros _]. by apply preserves_ret.
Qed.

(** ** What each round sends *)

Lemma upload_ready_sent durable ready acks failed n h r h' :
  upload_ready durable ready acks failed n h = (r, h') →
  ∃ new, uh_accepted h' = uh_accepted h ++ new ∧ new ⊆ ready ∧ ∀ x, r = Ok x → x.1.1 ⊆ acks ++ new.
Proof.
  revert acks failed n h. induction ready as [|c ready IH]; intros acks failed n h; simpl.
  { intros [= <- <-]. exists []. rewrite app_nil_r. split_and!; [done..|]. intros x [= <-]. set_solver. }
  intros [(a & h1 & H1 & H2)|(e & H1 & ->)]%bind_cases; [|done].
  apply answer_accepted in H1. unfold same_accepted in H1. rewrite <-H1. destruct a as [k|].
  - destruct (keeps_claim k _).
    + apply IH in H2 as (new & -> & Hn & Hx). exists new. split_and!; [done|set_solver|done].
    + rewrite (bind_step _ _ h1 tt (log_refused c h1)) in H2 by done.
      apply IH in H2 as (new & -> & Hn & Hx). exists new. split_and!; [done|set_solver|done].
  - rewrite (bind_step _ _ h1 tt (log_accepted c h1)) in H2 by done.
    apply IH in H2 as (new & -> & Hn & Hx). exists (c :: new). simpl. rewrite <-(assoc_L (++)).
    split_and!; [done|set_solver|]. intros x Hok y Hy%(Hx x Hok).
    apply elem_of_app in Hy as [[?| ->]%acknowledge_in|?]; set_solver.
Qed.

Section sent.
Context (groups : list ConsolidationDelivery).

(** A claim accepted in an attempt: if it retires, what carries its knowledge
    was with the Maintainer and unchanged locally. *)
Definition justified (acked : list Claim) (h : UploadHome) (c : Claim) : Prop :=
  ∀ g, g ∈ groups → cd_retired g = c → cd_carriers g ≠ [] ∧
    ∃ local, c ∈ local ∧ (∀ l, l ∈ local → behind_local h l = true) ∧
      ∀ k, k ∈ cd_carriers g → covered groups acked local k.

Lemma sent_justified_mono acked acked' h h' c :
  acked ⊆ acked' → never_lost h h' → justified acked h c → justified acked' h' c.
Proof.
  intros Ha [] Hj g Hg Hr. destruct (Hj g Hg Hr) as (Hne & local & Hc & Hl & Hk).
  split; [done|]. exists local. split_and!; [done|by auto|]. intros k Hin. eapply covered_mono; [done|auto].
Qed.

Lemma is_ready_justified acks local h c :
  is_ready groups acks local c = true → local_versions local h → justified acks h c.
Proof.
  unfold is_ready. intros Hr Hl g Hg <-.
  assert (claim_id (cd_retired g) ∈ related_ids groups) as Hrel.
  { apply elem_of_list_to_set, list_elem_of_bind. exists g. split; [by left|done]. }
  rewrite bool_decide_true in Hr by done. simpl in Hr. destruct local as [l|]; [|done].
  apply andb_prop in Hr as [Hc%bool_decide_eq_true_1 Hready].
  destruct (ready_sound _ _ _ _ Hready g Hg eq_refl) as [Hne Hk]. split; [done|].
  exists l. split_and!; [done|intros x Hx; by eapply Hl|done].
Qed.

Lemma upload_rounds_sent fuel durable remaining acks failed n h r h' :
  queue_ok h → upload_rounds fuel groups durable remaining acks failed n h = (r, h') →
  never_lost h h' ∧ queue_ok h' ∧
  ∃ new, uh_accepted h' = uh_accepted h ++ new ∧ new ⊆ remaining ∧
    ∀ c, c ∈ new → justified (acks ++ new) h' c.
Proof.
  revert remaining acks failed n h. induction fuel as [|fuel IH]; intros remaining acks failed n h Hok; simpl.
  { intros [= _ <-]. split; [done|]. split; [done|]. exists []. rewrite app_nil_r. set_solver. }
  intros [(local & h1 & H1 & H2)|(e & H1 & ->)]%bind_cases;
    destruct (triple_local_for groups (λ _, True) (stable_const _ _ True) _ _ _ Hok I H1) as (Hs1 & Hok1 & Hl);
    apply local_for_accepted in H1; unfold same_accepted in H1; rewrite <-H1.
  2: { split; [done|]. split; [done|]. exists []. rewrite app_nil_r. set_solver. }
  destruct (Hl _ eq_refl) as [_ Hlocal]. clear Hl.
  set (ready := filter (λ c, is_ready groups acks local c = true) remaining) in *.
  case_bool_decide.
  { injection H2 as _ <-. split; [done|]. split; [done|]. exists []. rewrite app_nil_r. set_solver. }
  rewrite (bind_step _ _ h1 (completion (uh_picks h1) ready)
    (set_picks (drop (length ready) (uh_picks h1)) h1)) in H2 by done.
  set (h2 := set_picks _ h1) in *. assert (core h1 = core h2) as Hc2 by done.
  assert (queue_ok h2) as Hok2 by by eapply core_queue_ok.
  assert (∀ new h3, new ⊆ completion (uh_picks h1) ready → never_lost h1 h3 →
    ∀ acked c, acks ⊆ acked → c ∈ new → justified acked h3 c) as Hnew.
  { intros new h3 Hn Hs acked c Ha Hc. eapply sent_justified_mono; [exact Ha|exact Hs|].
    assert (c ∈ ready) as [Hr _]%list_elem_of_filter by (rewrite <-(completion_perm (uh_picks h1)); auto).
    by eapply is_ready_justified. }
  apply bind_cases in H2 as [([[acks' failed'] n'] & h3 & H2 & H3)|(e & H2 & ->)].
  - destruct (triple_upload_ready durable _ acks failed n (λ _, True) (stable_const _ _ True) _ _ _ Hok2 I H2)
      as (Hs3 & Hok3 & _).
    destruct (upload_ready_sent _ _ _ _ _ _ _ _ H2) as (new1 & Ha1 & Hn1 & Hx1).
    specialize (Hx1 _ eq_refl). simpl in Hx1.
    destruct (IH _ _ _ _ _ Hok3 H3) as (Hs4 & Hok4 & new2 & Ha2 & Hn2 & Hj2).
    assert (never_lost h1 h') as Hs1' by (etrans; [by apply core_never_lost|etrans; [exact Hs3|exact Hs4]]).
    split; [by etrans|]. split; [done|]. exists (new1 ++ new2).
    rewrite Ha2, Ha1, <-(assoc_L (++)). split; [done|]. split.
    + intros c [Hc%Hn1|Hc%Hn2]%elem_of_app.
      * rewrite completion_perm in Hc. by apply list_elem_of_filter in Hc as [_ ?].
      * by apply list_elem_of_filter in Hc as [_ ?].
    + intros c [Hc|Hc]%elem_of_app; [eapply Hnew; [exact Hn1|done|set_solver|done]|].
      eapply sent_justified_mono; [|reflexivity|by apply Hj2]. set_solver.
  - destruct (triple_upload_ready durable _ acks failed n (λ _, True) (stable_const _ _ True) _ _ _ Hok2 I H2)
      as (Hs3 & Hok3 & _).
    destruct (upload_ready_sent _ _ _ _ _ _ _ _ H2) as (new1 & Ha1 & Hn1 & _).
    assert (never_lost h1 h') as Hs1' by (etrans; [by apply core_never_lost|exact Hs3]).
    split; [by etrans|]. split; [done|]. exists new1. rewrite Ha1. split; [done|]. split.
    + intros c Hc%Hn1. rewrite completion_perm in Hc. by apply list_elem_of_filter in Hc as [_ ?].
    + intros c Hc. eapply Hnew; [exact Hn1|done|set_solver|done].
Qed.
End sent.

(** ** Histories *)

(** What happens to the queue of an agent: its own operations, the other
    tasks, and time (new schedules). *)
Inductive upload_event : UploadHome → UploadHome → Prop :=
| event_upload rq h r h' : all_behind (sr_claims rq) h →
    upload_maintainer_batch_inner rq h = (r, h') → upload_event h h'
| event_stage rq h r h' : all_behind (sr_claims rq) h →
    stage_maintainer_batch_inner rq h = (r, h') → upload_event h h'
| event_rebind previous revised h r h' :
    all_local (cd_carriers revised) h → NoDup (claim_id <$> cd_carriers revised) →
    rebind_consolidation previous revised h = (r, h') → upload_event h h'
| event_other t h : upload_event h (run_other h t)
| event_time h h' : core h = core h' → upload_event h h'.

Lemma upload_event_step h h' : queue_ok h → upload_event h h' → never_lost h h' ∧ queue_ok h'.
Proof.
  intros Hok He. destruct He as [rq h r h' Hb E|rq h r h' Hb E|previous revised h r h' Hl Hnd E|t h|h h' Hc].
  - by destruct (triple_batch rq (λ _, True) (stable_const _ _ True) h r h' Hok (conj I Hb) E) as (? & ? & _).
  - by destruct (triple_stage rq (λ _, True) (stable_const _ _ True) h r h' Hok (conj I Hb) E) as (? & ? & _).
  - by destruct (triple_rebind previous revised (λ _, True) (stable_const _ _ True) Hnd h r h' Hok (conj I Hl) E)
      as (? & ? & _).
  - by apply run_other_step.
  - split; [by apply core_never_lost|by eapply core_queue_ok].
Qed.

Lemma upload_events_step h h' : queue_ok h → rtc upload_event h h' → never_lost h h' ∧ queue_ok h'.
Proof.
  intros Hok Hs. induction Hs as [|h1 h2 h3 H12 _ IH]; [done|].
  destruct (upload_event_step _ _ Hok H12) as [Hs Hok2]. destruct (IH Hok2) as [? ?]. split; [by etrans|done].
Qed.

(** C11. No version of a claim or dispute that was staged for upload is ever
    lost.  Whatever uploads, stagings, rebinds, other tasks, I/O faults and
    answers of the Maintainer follow, each version that was queued or settled
    is still queued or settled, in that version or a later one: it leaves the
    queue only when the Maintainer accepted it, refused it with a 401 or 403,
    or had the dispute already.  A batch that returns a report has put all it
    was given on that record. *)
Theorem staged_never_lost h h' : queue_ok h → rtc upload_event h h' →
  (∀ c, claim_tracked h c → claim_tracked h' c) ∧
  (∀ d, dispute_tracked h d → dispute_tracked h' d) ∧
  ∀ rq report h'', all_behind (sr_claims rq) h' → uh_client h' = true →
    upload_maintainer_batch_inner rq h' = (Ok report, h'') →
    (∀ c, c ∈ sr_claims rq → claim_tracked h'' c) ∧ (∀ d, d ∈ sr_disputes rq → dispute_tracked h'' d).
Proof.
  intros Hok Hs. destruct (upload_events_step _ _ Hok Hs) as [Hl Hok'].
  split; [apply Hl|]. split; [apply Hl|]. intros rq report h'' Hb Hcl E.
  destruct (triple_batch rq (λ _, True) (stable_const _ _ True) _ _ _ Hok' (conj I Hb) E) as (Hs2 & _ & Hr).
  apply (Hr report eq_refl). destruct Hs2. congruence.
Qed.

(** C23. A claim that a consolidation retired reaches the Maintainer only after
    what replaces it.  In any attempt, under any interference and faults, every
    claim the Maintainer newly accepts was attempted, and for each
    consolidation of the attempt that retires this version there are
    carriers, each of which is covered: an active claim that the Maintainer
    has accepted and that is the local version, or one retired in turn by a
    consolidation whose carriers are covered. *)
Theorem retirement_waits_for_carriers attempted h r h' :
  queue_ok h → attempt_ok attempted h → deliver attempted h = (r, h') →
  ∃ new, uh_accepted h' = uh_accepted h ++ new ∧
    ∀ c, c ∈ new → c ∈ pu_claims attempted ∧
      ∀ g, g ∈ pu_consolidations attempted → cd_retired g = c →
        cd_carriers g ≠ [] ∧
        ∃ local, c ∈ local ∧ (∀ l, l ∈ local → behind_local h' l = true) ∧
          ∀ k, k ∈ cd_carriers g → covered (pu_consolidations attempted) (uh_accepted h') local k.
Proof.
  intros Hok Ha. unfold deliver. intros E.
  assert (∀ h1 new, uh_accepted h1 = uh_accepted h ++ new → never_lost h1 h' → uh_accepted h' = uh_accepted h1 →
    new ⊆ pu_claims attempted →
    (∀ c, c ∈ new → justified (pu_consolidations attempted) (pu_acknowledgements attempted ++ new) h1 c) →
    ∀ c, c ∈ new → c ∈ pu_claims attempted ∧ justified (pu_consolidations attempted) (uh_accepted h') h' c) as Hend.
  { intros h1 new H1 Hs Hacc Hn Hj c Hc. split; [auto|]. eapply sent_justified_mono; [|exact Hs|by apply Hj].
    rewrite Hacc, H1. destruct Ha as (_ & Hack & _). set_solver. }
  apply bind_cases in E as [(s & h1 & H1 & H2)|(e & H1 & ->)];
    destruct (upload_rounds_sent _ _ _ _ _ _ _ _ _ _ Hok H1) as (Hs1 & Hok1 & new & Hn & Hsub & Hj).
  - destruct (triple_send attempted (λ _, True) (stable_const _ _ True) _ _ _ Hok (conj I Ha) H1) as (_ & _ & Hsent).
    destruct (triple_settle attempted s (λ _, True) (stable_const _ _ True) _ _ _ Hok1 (Hsent _ eq_refl) H2)
      as (Hs2 & _ & _).
    assert (uh_accepted h' = uh_accepted h1) as Hacc by by eapply settle_accepted.
    exists new. split; [by rewrite Hacc|]. by eapply Hend.
  - exists new. split; [done|]. by eapply Hend.
Qed.
