(* ===== verification/UploadLive.v ===== *)
(** * What the queue decides, and when it drains *)

From S2P Require Import Prelude Storage Claim UploadQueue UploadProofs UploadSafety Carriers.

(** ** Exactness of the search and of the pruning *)

(** The path-marking search of [carrier_ready] decides coverage: when the
    carriers with one id are one version, it answers yes exactly for the
    claims whose knowledge the Maintainer holds, directly or by a chain of
    consolidations, and it always ends within the fuel. *)
Theorem carrier_search_exact groups acked current c :
  (∀ g g' k k', g ∈ groups → g' ∈ groups → k ∈ cd_carriers g → k' ∈ cd_carriers g' →
    claim_id k = claim_id k' → k = k') →
  is_carrier groups c →
  carrier_ready groups acked current (carrier_fuel groups) ∅ c = true ↔ covered groups acked current c.
Proof.
  intros Hids Hc. split; [apply carrier_ready_sound|]. intros [n Hn]%covered_depth.
  apply (carrier_ready_complete groups acked current Hids n); [done|apply carrier_fuel_enough|done|].
  set_solver.
Qed.

(** Pruning keeps exactly the consolidations that a pending retirement
    waits for, directly or along a chain of carriers consolidated in turn, in
    their order, and the acknowledgements of claims that those mention. *)
Theorem prune_exact groups acknowledged pending :
  (prune groups acknowledged pending).1 `sublist_of` groups ∧
  (∀ g, g ∈ (prune groups acknowledged pending).1 ↔ needed groups pending g) ∧
  ∀ c, c ∈ (prune groups acknowledged pending).2 ↔ c ∈ acknowledged ∧
    ∃ g, needed groups pending g ∧
      (claim_id c = claim_id (cd_retired g) ∨ ∃ k, k ∈ cd_carriers g ∧ claim_id c = claim_id k).
Proof.
  split; [|split; [intros g; apply prune_elem|]].
  - unfold prune. cbn [fst]. etrans; [apply fmap_sublist, sublist_filter|].
    replace ((imap pair groups).*2) with groups; [done|].
    apply list_eq. intros i. rewrite list_lookup_fmap, list_lookup_imap. by destruct (groups !! i).
  - intros c. unfold prune at 1. cbn [snd]. rewrite list_elem_of_filter.
    change (_.*2) with (prune groups acknowledged pending).1.
    unfold related_ids. rewrite elem_of_list_to_set, list_elem_of_bind.
    setoid_rewrite prune_elem. setoid_rewrite elem_of_cons. setoid_rewrite list_elem_of_fmap. naive_solver.
Qed.

(** ** Draining *)

(** No faults, no other task at work, and a Maintainer that accepts. *)
Record undisturbed (h : UploadHome) : Prop := {
  ud_client : uh_client h = true;
  ud_faults : uh_faults h = [];
  ud_others : uh_others h = [];
  ud_answers : uh_answers h = [];
}.

Lemma lock_queue_run held h : undisturbed h → lock_queue held h = (Ok tt, h).
Proof. destruct h. intros []. simpl in *. subst. by destruct held. Qed.

Lemma io_step_run e h : undisturbed h → io_step (E:=UploadError) e h = (Ok tt, h).
Proof. intros []. unfold io_step. simpl. by rewrite ud_faults0. Qed.

Lemma queue_read_run h p : undisturbed h → pending_value h = Some p → queue_read h = (Ok p, h).
Proof.
  intros Hu Hp. unfold queue_read. rewrite m_try_bind. unfold read_yaml, io.
  rewrite (bind_step _ _ h tt h) by by apply io_step_run. mrun. simpl. unfold pending_value in Hp.
  destruct (uh_pending h !! PENDING) as [[|q]|]; by simplify_eq.
Qed.

Lemma write_or_clear_run h p : undisturbed h → write_or_clear p h = (Ok tt, store_pending p h).
Proof.
  intros Hu. unfold write_or_clear, store_pending, write_yaml_atomic, io.
  destruct (nothing_pending p); by rewrite (bind_step _ _ h tt h) by by apply io_step_run.
Qed.

Lemma undisturbed_store p h : undisturbed h → undisturbed (store_pending p h).
Proof. by intros []. Qed.

Definition log_all (l : list Claim) (h : UploadHome) : UploadHome := fold_left (λ h c, log_accepted c h) l h.

Lemma log_all_spec l h : undisturbed h → undisturbed (log_all l h) ∧
  uh_accepted (log_all l h) = uh_accepted h ++ l ∧ uh_settled (log_all l h) = uh_settled h ∧
  uh_pending (log_all l h) = uh_pending h.
Proof.
  unfold log_all. revert h. induction l as [|c l IH]; intros h Hu; simpl; [by rewrite app_nil_r|].
  destruct (IH (log_accepted c h)) as (Hu' & Ha & Hs & Hp); [by destruct Hu|].
  split; [done|]. rewrite Ha, Hs, Hp. simpl. by rewrite <-(assoc_L (++)).
Qed.

Lemma upload_ready_run durable l acks failed n h : undisturbed h →
  upload_ready durable l acks failed n h = (Ok (fold_left acknowledge l acks, failed, n), log_all l h).
Proof.
  revert acks h. induction l as [|c l IH]; intros acks h Hu; simpl; [done|].
  assert (answer h = (Ok None, h)) as Ha.
  { unfold answer. destruct h, Hu. simpl in *. by subst. }
  rewrite (bind_step _ _ h None h Ha). rewrite (bind_step _ _ h tt (log_accepted c h)) by done.
  rewrite IH by by destruct Hu. done.
Qed.

Definition log_reports (l : list Dispute) (h : UploadHome) : UploadHome := fold_left (λ h c, log_settled c h) l h.

Lemma log_reports_spec l h : undisturbed h → undisturbed (log_reports l h) ∧
  uh_settled (log_reports l h) = uh_settled h ++ l ∧ uh_accepted (log_reports l h) = uh_accepted h ∧
  uh_pending (log_reports l h) = uh_pending h.
Proof.
  unfold log_reports. revert h. induction l as [|c l IH]; intros h Hu; simpl; [by rewrite app_nil_r|].
  destruct (IH (log_settled c h)) as (Hu' & Ha & Hs & Hp); [by destruct Hu|].
  split; [done|]. rewrite Ha, Hs, Hp. simpl. by rewrite <-(assoc_L (++)).
Qed.

Lemma report_disputes_run l failed n h : undisturbed h →
  report_disputes l failed n h = (Ok (failed, n), log_reports l h).
Proof.
  revert h. induction l as [|c l IH]; intros h Hu; simpl; [done|].
  assert (answer h = (Ok None, h)) as Ha.
  { unfold answer. destruct h, Hu. simpl in *. by subst. }
  rewrite (bind_step _ _ h None h Ha). rewrite (bind_step _ _ h tt (log_settled c h)) by done.
  rewrite IH by by destruct Hu. done.
Qed.

Lemma all_ready acks (l : list Claim) : filter (λ c, is_ready [] acks (Some []) c = true) l = l.
Proof.
  induction l as [|c l IH]; [done|]. rewrite filter_cons_True; [by rewrite IH|].
  unfold is_ready. rewrite bool_decide_false; [done|]. unfold related_ids. simpl. set_solver.
Qed.

Lemma undisturbed_picks p h : undisturbed h → undisturbed (set_picks p h).
Proof. by intros []. Qed.

(** Without consolidations one round sends everything. *)
Lemma upload_rounds_run n durable claims acks failed m h : undisturbed h → length claims ≤ n →
  ∃ order h', order ≡ₚ claims ∧
    upload_rounds (S n) [] durable claims acks failed m h =
      (Ok ([], fold_left acknowledge order acks, failed, m), h') ∧
    undisturbed h' ∧ uh_accepted h' = uh_accepted h ++ order ∧ uh_settled h' = uh_settled h ∧
    uh_pending h' = uh_pending h.
Proof.
  intros Hu Hn. simpl. rewrite (bind_step _ _ h (Some []) h) by done. rewrite all_ready.
  case_bool_decide as He.
  - subst. exists [], h. rewrite app_nil_r. split_and!; done.
  - set (order := completion (uh_picks h) claims).
    set (h1 := set_picks (drop (length claims) (uh_picks h)) h).
    rewrite (bind_step _ _ h order h1) by done.
    rewrite (bind_step _ _ h1 _ _ (upload_ready_run durable order acks failed m h1 (undisturbed_picks _ _ Hu))).
    destruct (log_all_spec order h1 (undisturbed_picks _ _ Hu)) as (Hu2 & Ha & Hs & Hp).
    exists order, (log_all order h1). split; [apply completion_perm|]. split; [|done].
    assert (filter (λ c, c ∉ claims) claims = []) as Hnil.
    { destruct (filter _ _) as [|x l] eqn:E; [done|].
      assert (x ∈ filter (λ c, c ∉ claims) claims) as [? ?]%list_elem_of_filter by (rewrite E; left). done. }
    rewrite Hnil. destruct n as [|n]; [by destruct claims; simpl in Hn; [|lia]|]. simpl. by rewrite (bind_step _ _ _ (Some []) (log_all order h1)).
Qed.

Lemma reconcile_all {A} `{EqDecision A} (key : A → string) (l : list A) : NoDup (key <$> l) →
  values_by key (reconcile_map key ∅ (by_key key l) l) = [].
Proof.
  intros Hnd. assert (reconcile_map key ∅ (by_key key l) l = ∅) as ->.
  { apply map_eq. intros k. rewrite reconcile_map_spec, lookup_empty by done. unfold reconciled.
    destruct (snd <$> list_find (λ a, key a = k) l) as [a|] eqn:E.
    - assert (by_key key l !! k = Some a) as ->.
      { apply by_key_lookup; [done|]. by apply find_by_key. }
      rewrite bool_decide_false by set_solver. by rewrite bool_decide_true.
    - destruct (by_key key l !! k) as [a|] eqn:Ea; [|done]. apply by_key_lookup in Ea as [Ha Hk]; [|done].
      assert ((snd <$> list_find (λ a, key a = k) l) = Some a) by by apply find_by_key. congruence. }
  unfold values_by. by rewrite map_to_list_empty.
Qed.

Lemma merge_claims_nil m claims : (merge_claims [] m claims).1 = [].
Proof.
  unfold merge_claims. assert (∀ m, (fold_left (λ gm claim,
    if replaces claim_id effective_updated_at gm.2 claim
    then (supersede gm.1 claim, <[claim_id claim := claim]> gm.2) else gm) claims ([], m)).1 = []) as H; [|apply H].
  induction claims as [|c l IH]; intros m'; simpl; [done|].
  destruct (replaces _ _ m' c); [|apply IH]. unfold supersede. destruct (is_deprecated c); apply IH.
Qed.

Lemma staged_plain rq p : pu_consolidations p = [] → sr_groups rq = [] → sr_withdrawn rq = None →
  pu_consolidations (staged rq p) = [].
Proof.
  intros Hp Hg Hw. unfold staged. rewrite Hg, Hw. unfold add_groups, merged_with, merge_pending_uploads. simpl.
  replace (pu_consolidations (mark_durable rq p)) with ([] : list ConsolidationDelivery)
    by (unfold mark_durable; by destruct (sr_durable rq)).
  apply merge_claims_nil.
Qed.

Lemma settle_attempt_run a acks n h : undisturbed h → pending_wf a →
  uh_pending h !! PENDING = Some (Stored a) →
  ∃ report order h', settle_attempt a ([], acks, no_uploads, n) h = (Ok report, h') ∧
    order ≡ₚ pu_disputes a ∧ uh_pending h' !! PENDING = None ∧ mur_pending_claims report = 0 ∧
    mur_pending_disputes report = 0 ∧ uh_accepted h' = uh_accepted h ∧ uh_settled h' = uh_settled h ++ order.
Proof.
  intros Hu [Hc Hd] Hp. unfold settle_attempt. simpl.
  set (order := completion (uh_picks h) (pu_disputes a)).
  set (h1 := set_picks (drop (length (pu_disputes a)) (uh_picks h)) h).
  rewrite (bind_step _ _ h order h1) by done.
  rewrite (bind_step _ _ h1 _ _ (report_disputes_run order no_uploads n h1 (undisturbed_picks _ _ Hu))).
  destruct (log_reports_spec order h1 (undisturbed_picks _ _ Hu)) as (Hu2 & Hs & Ha & Hp2).
  set (h2 := log_reports order h1) in *. simpl.
  assert (finish_attempt (with_acknowledgements acks a) no_uploads h2 =
    (Ok tt, set_pending (delete PENDING (uh_pending h2)) h2)) as Hf.
  { unfold finish_attempt. rewrite (bind_step _ _ _ _ _ (lock_queue_run false h2 Hu2)).
    assert (pending_value h2 = Some a) as Hv by (unfold pending_value; rewrite Hp2; simpl; by rewrite Hp).
    rewrite (bind_step _ _ _ _ _ (queue_read_run h2 a Hu2 Hv)). rewrite write_or_clear_run by done.
    unfold store_pending, nothing_pending. rewrite reconciled_claims, reconciled_disputes. simpl.
    by rewrite !reconcile_all. }
  rewrite (bind_step _ _ _ _ _ Hf). eexists _, order, _. split; [reflexivity|].
  split; [apply completion_perm|]. simpl. rewrite lookup_delete_eq, Ha, Hs. done.
Qed.

Lemma drain_run rq h p :
  undisturbed h → pending_value h = Some p → pending_wf p →
  pu_consolidations p = [] → sr_groups rq = [] → sr_withdrawn rq = None →
  ∃ report h', upload_maintainer_batch_inner rq h = (Ok report, h') ∧
    uh_pending h' !! PENDING = None ∧ mur_pending_claims report = 0 ∧ mur_pending_disputes report = 0 ∧
    (∀ c, c ∈ pu_claims p ++ sr_claims rq → has_claim (uh_accepted h') c) ∧
    (∀ d, d ∈ pu_disputes p ++ sr_disputes rq → has_dispute (uh_settled h') d).
Proof.
  intros Hu Hp Hwf Hcd Hg Hw. set (a := staged rq p). pose proof (staged_wf rq p Hwf) as Hwa.
  assert (∀ c, c ∈ pu_claims p ++ sr_claims rq → has_claim (pu_claims a) c) as Hca.
  { intros c Hc. unfold a. rewrite staged_claims. apply merged_has; [apply Hwf|].
    apply elem_of_app in Hc as [?|?]; [left; by apply has_version_in|by right]. }
  assert (∀ d, d ∈ pu_disputes p ++ sr_disputes rq → has_dispute (pu_disputes a) d) as Hda.
  { intros d Hd. unfold a. rewrite staged_disputes. apply merged_has; [apply Hwf|].
    apply elem_of_app in Hd as [?|?]; [left; by apply has_version_in|by right]. }
  unfold upload_maintainer_batch_inner.
  rewrite (bind_step _ _ h true h) by (unfold has_client; destruct Hu; mrun; by rewrite ud_client0). simpl.
  assert (stage_maintainer_batch_inner rq h = (Ok tt, store_pending a h)) as Hst.
  { unfold stage_maintainer_batch_inner, stage_maintainer_batch_held.
    rewrite (bind_step _ _ h true h) by (unfold has_client; destruct Hu; mrun; by rewrite ud_client0). simpl.
    rewrite (bind_step _ _ _ _ _ (lock_queue_run false h Hu)), (bind_step _ _ _ _ _ (queue_read_run h p Hu Hp)).
    by apply write_or_clear_run. }
  pose proof (undisturbed_store a h Hu) as Hu1. set (h1 := store_pending a h) in *.
  rewrite (bind_step _ _ _ _ _ Hst), (bind_step _ _ _ _ _ (io_step_run UploadLock h1 Hu1)),
    (bind_step _ _ _ _ _ (lock_queue_run false h1 Hu1)).
  destruct (nothing_pending a) eqn:En.
  - assert (uh_pending h1 !! PENDING = None) as Hnone.
    { unfold h1, store_pending. rewrite En. simpl. apply lookup_delete_eq. }
    rewrite (bind_step _ _ h1 no_uploads h1) by (apply queue_read_run; [done|]; unfold pending_value; by rewrite Hnone).
    apply andb_prop in En as [E1%bool_decide_eq_true_1 E2%bool_decide_eq_true_1]. rewrite E1 in Hca. rewrite E2 in Hda.
    exists empty_report, h1. split_and!; [done..| |].
    + intros c (x & Hx & _)%Hca. set_solver.
    + intros d (x & Hx & _)%Hda. set_solver.
  - assert (uh_pending h1 !! PENDING = Some (Stored a)) as Hsome.
    { unfold h1, store_pending. rewrite En. simpl. apply lookup_insert_eq. }
    rewrite (bind_step _ _ h1 a h1) by (apply queue_read_run; [done|]; unfold pending_value; by rewrite Hsome).
    rewrite En. rewrite (bind_step _ _ h1 a h1).
    2: { unfold refresh_attempt, a. by rewrite staged_plain. }
    rewrite En. unfold deliver. assert (pu_consolidations a = []) as -> by by apply staged_plain.
    destruct (upload_rounds_run (length (pu_claims a)) (pu_durable_claim_ids a) (pu_claims a)
      (pu_acknowledgements a) no_uploads no_counters h1 Hu1 (le_n _))
      as (order & h2 & Hperm & Hr & Hu2 & Ha2 & Hs2 & Hp2).
    rewrite (bind_step _ _ _ _ _ Hr). rewrite <-Hp2 in Hsome.
    destruct (settle_attempt_run a (fold_left acknowledge order (pu_acknowledgements a)) no_counters h2 Hu2 Hwa Hsome)
      as (report & dorder & h3 & Hset & Hdperm & Hnone & Hrc & Hrd & Ha3 & Hs3).
    exists report, h3. split_and!; [done..| |].
    + intros c Hc%Hca. rewrite Ha3, Ha2. eapply has_version_mono; [|exact Hc]. intros x Hx.
      apply has_version_in. rewrite elem_of_app, Hperm. by right.
    + intros d Hd%Hda. rewrite Hs3. eapply has_version_mono; [|exact Hd]. intros x Hx.
      apply has_version_in. rewrite elem_of_app, Hdperm. by right.
Qed.

(** C36. The queue drains.  When nothing else is at work, no I/O fails and the
    Maintainer accepts what it is sent, a batch that meets no consolidation
    leaves nothing pending: the queue file is gone, everything that was queued
    or staged with the batch was accepted, and the report says so. *)
Theorem upload_drains rq h p :
  undisturbed h → pending_value h = Some p → pending_wf p →
  pu_consolidations p = [] → sr_groups rq = [] → sr_withdrawn rq = None →
  ∃ report h', upload_maintainer_batch_inner rq h = (Ok report, h') ∧
    uh_pending h' !! PENDING = None ∧ mur_pending_claims report = 0 ∧ mur_pending_disputes report = 0 ∧
    (∀ c, c ∈ pu_claims p ++ sr_claims rq → has_claim (uh_accepted h') c) ∧
    (∀ d, d ∈ pu_disputes p ++ sr_disputes rq → has_dispute (uh_settled h') d).
Proof. apply drain_run. Qed.
