(* ===== verification/UploadDemo.v ===== *)
(** * Concrete runs of the upload queue

    A claim that a consolidation retires, the claim that carries its
    knowledge, and a dispute, on which the guarantees of UploadOrder.v and
    UploadLive.v are instantiated. *)

From S2P Require Import Prelude Storage Claim UploadQueue UploadProofs StepLogic UploadSafety.
From S2P Require Import UploadDelivery Carriers UploadOrder UploadLive.

Definition demo_version (id : string) (status : ClaimStatus) (at_ : DateTime) : Claim :=
  {| claim_id := id; claim_name := "n"; claim_statement := "s"; claim_scope := "sc"; claim_holder := "a";
     claim_confidence := High; claim_status := status; claim_created_at := 100; claim_updated_at := Some at_;
     claim_source_claim_ids := []; claim_evidence_summary := "e" |}.

Definition demo_before : Claim := demo_version "claim_0000000a" ClaimActive 100.
Definition demo_retired : Claim := demo_version "claim_0000000a" ClaimDeprecated 200.
Definition demo_carrier : Claim := demo_version "claim_0000000b" ClaimActive 200.
Definition demo_group : ConsolidationDelivery :=
  {| cd_before := demo_before; cd_retired := demo_retired; cd_carriers := [demo_carrier] |}.

Definition demo_dispute : Dispute :=
  {| dispute_id := "dispute_0000000c"; dispute_name := "n"; dispute_reporter_agent_id := "a";
     dispute_claims := ["claim_0000000a"; "claim_0000000b"]; dispute_summary := "s";
     dispute_status := DisputeOpen; dispute_created_at := 210; dispute_resolved_at := None |}.

Definition demo_uploads : PendingMaintainerUploads :=
  {| pu_consolidations := [demo_group]; pu_acknowledgements := []; pu_claims := [demo_retired; demo_carrier];
     pu_durable_claim_ids := {["claim_0000000a"; "claim_0000000b"]}; pu_disputes := [] |}.

Definition demo_request (claims : list Claim) (disputes : list Dispute) : stage_request :=
  {| sr_claims := claims; sr_disputes := disputes; sr_durable := false; sr_groups := []; sr_withdrawn := None |}.

Definition demo_home (p : PendingMaintainerUploads) (others : list (list other_task))
    (answers : list (option (option MaintainerClientError))) (faults : list bool) : UploadHome :=
  {| uh_client := true; uh_pending := {[PENDING := Stored p]};
     uh_claims := {["claim_0000000a" := Stored demo_retired; "claim_0000000b" := Stored demo_carrier]};
     uh_others := others; uh_knowledge := []; uh_picks := [1; 0]; uh_answers := answers;
     uh_accepted := []; uh_refused := []; uh_settled := []; uh_faults := faults |}.

Lemma demo_queue_ok others answers faults : queue_ok (demo_home demo_uploads others answers faults).
Proof.
  split.
  - intros k c. simpl. rewrite lookup_insert_Some, lookup_singleton_Some.
    intros [[<- [= <-]]|[_ [<- [= <-]]]]; reflexivity.
  - intros p [= <-]. split; [split; [vm_compute; repeat constructor; set_solver|constructor]|].
    split; [apply list_subseteq_nil|]. apply Forall_forall. repeat constructor.
Qed.

Lemma demo_attempt_ok others answers faults : attempt_ok demo_uploads (demo_home demo_uploads others answers faults).
Proof. apply pending_attempt_ok; [apply demo_queue_ok|reflexivity]. Qed.

(** The carrier is accepted in the first round, the retired claim in the
    second. *)
Example demo_delivery_order :
  uh_accepted (deliver demo_uploads (demo_home demo_uploads [] [] [])).2 = [demo_carrier; demo_retired].
Proof. vm_compute. reflexivity. Qed.

Lemma retirement_waits_for_carriers_witness : ∃ local, demo_retired ∈ local ∧
  covered [demo_group] [demo_carrier; demo_retired] local demo_carrier.
Proof.
  destruct (deliver demo_uploads (demo_home demo_uploads [] [] [])) as [r h'] eqn:E.
  pose proof demo_delivery_order as Ho. rewrite E in Ho. cbn [snd] in Ho.
  destruct (retirement_waits_for_carriers demo_uploads _ r h' (demo_queue_ok _ _ _) (demo_attempt_ok _ _ _) E)
    as (new & Ha & Hnew).
  rewrite Ho in Ha. cbn [demo_home uh_accepted app] in Ha. subst new.
  destruct (Hnew demo_retired (list_elem_of_further _ _ _ (list_elem_of_here _ _))) as [_ Hj].
  destruct (Hj demo_group (list_elem_of_here _ _) eq_refl) as (_ & local & Hl & _ & Hk).
  exists local. split; [exact Hl|]. rewrite <-Ho. apply Hk, list_elem_of_here.
Defined.

Lemma carrier_search_exact_witness :
  carrier_ready [demo_group] [demo_carrier] [demo_retired; demo_carrier] (carrier_fuel [demo_group]) ∅ demo_carrier
    = true ↔ covered [demo_group] [demo_carrier] [demo_retired; demo_carrier] demo_carrier.
Proof.
  apply (carrier_search_exact [demo_group] [demo_carrier] [demo_retired; demo_carrier] demo_carrier).
  - intros g g' k k' Hg%list_elem_of_singleton Hg'%list_elem_of_singleton. subst. simpl.
    intros Hk%list_elem_of_singleton Hk'%list_elem_of_singleton _. congruence.
  - exists demo_group. split; apply list_elem_of_here.
Defined.

(** While the batch is in flight another task stages a dispute; the first
    request fails, and so does the last write of the queue. *)
Definition demo_busy : UploadHome :=
  demo_home demo_uploads [[]; []; [OtherStages (demo_request [] [demo_dispute])]]
    [Some (Some (MceRetryable "upload" 20 true "x")); Some (Some (MceClient "upload" 403 "x"))] [false; false; false; false; false; false; false; false; true].

Lemma staged_never_lost_witness :
  claim_tracked (upload_maintainer_batch_inner (demo_request [] []) demo_busy).2 demo_retired.
Proof.
  destruct (upload_maintainer_batch_inner (demo_request [] []) demo_busy) as [r h'] eqn:E.
  destruct (staged_never_lost demo_busy h') as (Hc & _ & _).
  - apply demo_queue_ok.
  - apply rtc_once, (event_upload (demo_request [] []) demo_busy r h'); [reflexivity|exact E].
  - apply Hc. exists demo_retired. split; [apply list_elem_of_here|]. split; [reflexivity|]. reflexivity.
Defined.

Definition demo_plain : PendingMaintainerUploads :=
  {| pu_consolidations := []; pu_acknowledgements := []; pu_claims := [demo_retired];
     pu_durable_claim_ids := ∅; pu_disputes := [] |}.

Lemma upload_drains_witness : ∃ report h',
  upload_maintainer_batch_inner (demo_request [demo_carrier] [demo_dispute]) (demo_home demo_plain [] [] [])
    = (Ok report, h') ∧ uh_pending h' !! PENDING = None.
Proof.
  destruct (upload_drains (demo_request [demo_carrier] [demo_dispute]) (demo_home demo_plain [] [] []) demo_plain)
    as (report & h' & E & Hp & _); [done|reflexivity| |reflexivity..|].
  - split; [vm_compute; repeat constructor; set_solver|constructor].
  - exists report, h'. split; [exact E|exact Hp].
Defined.

(** A claim in flight is staged again, durable, in the same version; the
    request is answered with a 401 and the claim leaves the queue, mark and
    all. *)
Definition demo_restage : stage_request :=
  {| sr_claims := [demo_carrier]; sr_disputes := []; sr_durable := true; sr_groups := []; sr_withdrawn := None |}.

Example durable_restage_dropped :
  let h := demo_home no_uploads [[]; []; [OtherStages demo_restage]] [Some (Some (MceAuth "upload" 401))] [] in
  let h' := (upload_maintainer_batch_inner (demo_request [demo_carrier] []) h).2 in
  uh_pending h' !! PENDING = None ∧ uh_accepted h' = [] ∧ uh_refused h' = [demo_carrier].
Proof. vm_compute. repeat split. Qed.
