(* ===== verification/Knowledge.v ===== *)
(** * The knowledge of an agent (src/src/agent/runner.rs, src/src/agent/fs.rs,
    src/src/agent/dispute_report.rs, src/src/agent/claim_alignment.rs)

    Whoever changes the claims of an agent holds the knowledge lock, so edits,
    inbox effects and their recovery run one at a time.  Uploads do not hold
    it: they work on the queue meanwhile, which the world carries as what they
    do to it before each time the queue lock is taken.  The claim files and
    the queue are those of UploadQueue; here come the files that make a change
    of claims survive a crash. *)

From S2P Require Import Prelude Storage Claim UploadQueue StepLogic UploadProofs UploadSafety UploadDelivery.
Import Ids.

(** ** The files *)

(** agent/claims.rs: the record of an edit under way. *)
Record PendingClaimEdit := {
  pe_expected_revision : string;
  pe_target : Claim;
}.

(** agent/inbox.rs: the journal of what a batch of messages makes of the claims. *)
Inductive InboxEffectState := EffectPrepared | EffectApplied.

#[export] Instance InboxEffectState_eq_dec : EqDecision InboxEffectState.
Proof. solve_decision. Defined.

Record PlannedClaimUpdate := {
  pcu_target : Claim;
  pcu_preimage_hash : string;
}.

#[export] Instance PlannedClaimUpdate_eq_dec : EqDecision PlannedClaimUpdate.
Proof. solve_decision. Defined.

Record InboxEffectMember := {
  iem_inbox_id : InboxId;
  iem_resolution_id : option ArbitrationResolutionId;
  iem_message_hash : string;
}.

#[export] Instance InboxEffectMember_eq_dec : EqDecision InboxEffectMember.
Proof. solve_decision. Defined.

Record InboxEffectPlan := {
  ep_schema_version : Z;
  ep_inbox_id : InboxId;
  ep_resolution_id : option ArbitrationResolutionId;
  ep_message_hash : string;
  ep_batch_members : list InboxEffectMember;
  ep_batch_hash : option string;
  ep_analysis_claims : option (list Claim);
  ep_applied_claims : list Claim;
  ep_state : InboxEffectState;
  ep_prepared_at : DateTime;
  ep_new_claims : list Claim;
  ep_updated_claims : list PlannedClaimUpdate;
  ep_deprecated_claim_ids : list ClaimId;
  ep_new_disputes : list Dispute;
  ep_trace : option Trace;
  ep_warnings : list string;
}.

#[export] Instance InboxEffectPlan_eq_dec : EqDecision InboxEffectPlan.
Proof. solve_decision. Defined.

Record InboxEffectRef := {
  er_schema_version : Z;
  er_canonical_inbox_id : InboxId;
  er_batch_hash : string;
}.

#[export] Instance InboxEffectRef_eq_dec : EqDecision InboxEffectRef.
Proof. solve_decision. Defined.

Inductive InboxEffectRecord :=
| EffectPlan (plan : InboxEffectPlan)
| EffectRef (reference : InboxEffectRef).

#[export] Instance InboxEffectRecord_eq_dec : EqDecision InboxEffectRecord.
Proof. solve_decision. Defined.

(** agent/fs.rs: the disputes already reported, by the set of their claims. *)
Record ReportedDisputeClaimSetRecord := {
  rd_first_dispute_id : DisputeId;
  rd_reported_at : DateTime;
}.

Definition ReportedDisputeClaimSetsFile : Type := gmap string ReportedDisputeClaimSetRecord.

Record KnowledgeHome := {
  kh_upload : UploadHome;
  kh_router : bool;  (* is a router configured *)
  kh_dream_pending : bool;  (* a Dream commit is under way or awaits recovery *)
  kh_edit : gmap string (file PendingClaimEdit);
  kh_effects : gmap string (file InboxEffectRecord);
  kh_traces : gmap string (file Trace);
  kh_reported : gmap string (file ReportedDisputeClaimSetsFile);
  kh_env : list (UploadHome → UploadHome);  (* what uploads do to the queue *)
}.

Definition set_upload u h := {| kh_upload := u; kh_router := kh_router h;
  kh_dream_pending := kh_dream_pending h; kh_edit := kh_edit h; kh_effects := kh_effects h;
  kh_traces := kh_traces h; kh_reported := kh_reported h; kh_env := kh_env h |}.
Definition set_edit e h := {| kh_upload := kh_upload h; kh_router := kh_router h;
  kh_dream_pending := kh_dream_pending h; kh_edit := e; kh_effects := kh_effects h;
  kh_traces := kh_traces h; kh_reported := kh_reported h; kh_env := kh_env h |}.
Definition set_effects e h := {| kh_upload := kh_upload h; kh_router := kh_router h;
  kh_dream_pending := kh_dream_pending h; kh_edit := kh_edit h; kh_effects := e;
  kh_traces := kh_traces h; kh_reported := kh_reported h; kh_env := kh_env h |}.
Definition set_traces t h := {| kh_upload := kh_upload h; kh_router := kh_router h;
  kh_dream_pending := kh_dream_pending h; kh_edit := kh_edit h; kh_effects := kh_effects h;
  kh_traces := t; kh_reported := kh_reported h; kh_env := kh_env h |}.
Definition set_reported r h := {| kh_upload := kh_upload h; kh_router := kh_router h;
  kh_dream_pending := kh_dream_pending h; kh_edit := kh_edit h; kh_effects := kh_effects h;
  kh_traces := kh_traces h; kh_reported := r; kh_env := kh_env h |}.
Definition set_env e h := {| kh_upload := kh_upload h; kh_router := kh_router h;
  kh_dream_pending := kh_dream_pending h; kh_edit := kh_edit h; kh_effects := kh_effects h;
  kh_traces := kh_traces h; kh_reported := kh_reported h; kh_env := e |}.

#[export] Instance KnowledgeHome_HasIO : HasIO KnowledgeHome :=
  {| faults := λ h, uh_faults (kh_upload h);
     set_faults := λ fs h, set_upload (set_uh_faults fs (kh_upload h)) h |}.

Definition edit_dir : Dir KnowledgeHome PendingClaimEdit := {| dir_get := kh_edit; dir_set := set_edit |}.
Definition effects_dir : Dir KnowledgeHome InboxEffectRecord := {| dir_get := kh_effects; dir_set := set_effects |}.
Definition traces_dir : Dir KnowledgeHome Trace := {| dir_get := kh_traces; dir_set := set_traces |}.
Definition reported_dir : Dir KnowledgeHome ReportedDisputeClaimSetsFile :=
  {| dir_get := kh_reported; dir_set := set_reported |}.

#[export] Instance edit_laws : DirLaws edit_dir.
Proof. by split. Qed.
#[export] Instance effects_laws : DirLaws effects_dir.
Proof. by split. Qed.
#[export] Instance traces_laws : DirLaws traces_dir.
Proof. by split. Qed.
#[export] Instance reported_laws : DirLaws reported_dir.
Proof. by split. Qed.

Inductive KnowledgeError :=
| KStorage (e : StorageError)
| KUpload (e : UploadError)
| KLock
| KnowledgeBusy
| KNotOwned (id : ClaimId)
| KEmptyUpdate
| KRevisionConflict (id : ClaimId) (expected current : string)
| KEmptyField (field : string)
| KUnsafeField (field : string)
| KPageLimit (limit : Z)
| KTraceConflict (id : TraceId)
| KStalePlan
| KEffect (what : string) (inbox_id : InboxId).

#[export] Instance KnowledgeError_storage : FromStorage KnowledgeError := KStorage.

Notation KM := (M KnowledgeHome KnowledgeError).

(** An operation of the upload queue or on the claim files. *)
Definition up {A} (m : UM A) : KM A := λ h,
  let '(r, u) := m (kh_upload h) in (map_err KUpload r, set_upload u h).

Definition team_services_configured : KM bool :=
  gets (λ h, uh_client (kh_upload h) && kh_router h).

(** Taking the knowledge lock. *)
Definition lock_knowledge : KM unit := io_step KLock.

Definition ensure_knowledge_ready : KM unit :=
  _ ← io;
  busy ← gets kh_dream_pending;
  if (busy : bool) then fail KnowledgeBusy else mret tt.

(** ** Claim files *)

Definition list_claims_local : KM (list Claim) := up list_local_claims.
Definition read_claim_file (id : ClaimId) : KM Claim := up (read_yaml claims_dir id).
Definition write_claim (claim : Claim) : KM unit := up (write_yaml_atomic claims_dir (claim_id claim) claim).

Definition remove_if_present {A} (d : Dir KnowledgeHome A) (key : string) : KM unit :=
  _ ← io; modify (λ h, dir_set d (delete key (dir_get d h)) h).

(** Uploads have been at work on the queue while its lock was awaited; the
    knowledge lock is held here. *)
Definition await_uploads : KM unit := modify (λ h,
  set_env (tail (kh_env h)) (set_upload (default id (head (kh_env h)) (kh_upload h)) h)).

Definition stage (rq : stage_request) : KM unit :=
  _ ← await_uploads; up (stage_maintainer_batch_held true rq).

Definition stage_maintainer_batch_with_durable_claims (claims : list Claim) (disputes : list Dispute) : KM unit :=
  stage {| sr_claims := claims; sr_disputes := disputes; sr_durable := true; sr_groups := [];
           sr_withdrawn := None |}.

(** ** Reported disputes *)

Definition REPORTED : string := "reported_dispute_claim_sets".

(** [ids.join(..)] *)
Fixpoint join_with (sep : string) (l : list string) : string :=
  match l with
  | [] => EmptyString
  | [s] => s
  | s :: l' => (s +:+ sep +:+ join_with sep l')%string
  end.

(** [Vec::dedup]: runs of equal elements. *)
Fixpoint dedup_runs (l : list string) : list string :=
  match l with
  | [] => []
  | a :: l' =>
      match l' with
      | b :: _ => if bool_decide (a = b) then dedup_runs l' else a :: dedup_runs l'
      | [] => [a]
      end
  end.

Definition reported_dispute_claim_set_key (claims : list ClaimId) : string :=
  join_with " | " (dedup_runs (sort_by String.compare claims)).

Definition read_reported : KM ReportedDisputeClaimSetsFile :=
  r ← m_try (read_yaml reported_dir REPORTED);
  match r with
  | Ok f => mret f
  | Err (KStorage FileNotFound) => mret ∅
  | Err e => fail e
  end.

Definition contains_claim_set (claims : list ClaimId) : KM bool :=
  f ← read_reported;
  mret (bool_decide (is_Some (f !! reported_dispute_claim_set_key claims))).

Definition record_claim_set (claims : list ClaimId) (dispute : DisputeId) (reported_at : DateTime) : KM unit :=
  f ← read_reported;
  let key := reported_dispute_claim_set_key claims in
  let entry := default {| rd_first_dispute_id := dispute; rd_reported_at := reported_at |} (f !! key) in
  write_yaml_atomic reported_dir REPORTED (<[key := entry]> f).

Definition dispute_claim_set_reported (d : Dispute) : KM bool := contains_claim_set (dispute_claims d).

Definition record_dispute_if_new (now : DateTime) (d : Dispute) : KM bool :=
  known ← contains_claim_set (dispute_claims d);
  if (known : bool) then mret false
  else _ ← record_claim_set (dispute_claims d) (dispute_id d) now; mret true.

(** * What the operations on the knowledge home do to it *)

(** Everything but the schedules. *)
Definition kcore (h : KnowledgeHome) :=
  (core (kh_upload h), kh_router h, kh_dream_pending h, kh_edit h, kh_effects h, kh_traces h,
   kh_reported h, kh_env h).

Definition same_kcore : relation KnowledgeHome := λ h h', kcore h' = kcore h.

#[export] Instance same_kcore_preorder : PreOrder same_kcore.
Proof. split; [done|]. intros h1 h2 h3. unfold same_kcore. congruence. Qed.

(** The files of the agent, the queue apart. *)
Definition claim_files (h : KnowledgeHome) : gmap string (file Claim) := uh_claims (kh_upload h).

Definition kfiles (h : KnowledgeHome) :=
  (claim_files h, kh_edit h, kh_effects h, kh_traces h, kh_reported h, kh_router h, kh_dream_pending h).

(** What an upload may do to the queue while the knowledge lock is held. *)
Definition keeps_queue (f : UploadHome → UploadHome) : Prop :=
  ∀ u, queue_ok u → queue_ok (f u) ∧ never_lost u (f u) ∧ uh_claims (f u) = uh_claims u.

Definition kwf (h : KnowledgeHome) : Prop := queue_ok (kh_upload h) ∧ Forall keeps_queue (kh_env h).

(** Nothing but the queue moved, and it lost nothing. *)
Definition calm (h h' : KnowledgeHome) : Prop :=
  kwf h → kwf h' ∧ never_lost (kh_upload h) (kh_upload h') ∧ kfiles h' = kfiles h.

#[export] Instance calm_preorder : PreOrder calm.
Proof.
  split; [by intros h|]. intros h1 h2 h3 H12 H23 (H2 & N1 & F1)%H12. destruct (H23 H2) as (H3 & N2 & F2).
  split; [done|]. split; [by etrans|congruence].
Qed.

Section kcore.
Context (h h' : KnowledgeHome) (Hk : kcore h' = kcore h).

Lemma kcore_core : core (kh_upload h') = core (kh_upload h).
Proof. unfold kcore in Hk. congruence. Qed.
Lemma kcore_router : kh_router h' = kh_router h.
Proof. unfold kcore in Hk. congruence. Qed.
Lemma kcore_edit : kh_edit h' = kh_edit h.
Proof. unfold kcore in Hk. congruence. Qed.
Lemma kcore_effects : kh_effects h' = kh_effects h.
Proof. unfold kcore in Hk. congruence. Qed.
Lemma kcore_traces : kh_traces h' = kh_traces h.
Proof. unfold kcore in Hk. congruence. Qed.
Lemma kcore_env : kh_env h' = kh_env h.
Proof. unfold kcore in Hk. congruence. Qed.
Lemma kcore_claims : claim_files h' = claim_files h.
Proof. pose proof kcore_core as Hc. core_eq Hc. unfold claim_files. congruence. Qed.
Lemma kcore_files : kfiles h' = kfiles h.
Proof. unfold kfiles. rewrite kcore_claims. unfold kcore in Hk. congruence. Qed.
Lemma kcore_wf : kwf h → kwf h'.
Proof. intros [Hq He]. split; [by eapply core_queue_ok, Hq; rewrite kcore_core|by rewrite kcore_env]. Qed.
Lemma kcore_lost : never_lost (kh_upload h) (kh_upload h').
Proof. by apply core_never_lost; rewrite kcore_core. Qed.
End kcore.

Lemma kcore_calm h h' : same_kcore h h' → calm h h'.
Proof. intros Hk Hw. split; [by apply (kcore_wf h)|]. split; [by apply kcore_lost|by apply kcore_files]. Qed.

(** ** Steps that change nothing *)

Lemma io_kcore {E} (e : E) : preserves same_kcore (io_step (W:=KnowledgeHome) e).
Proof.
  intros h r h'. unfold io_step. destruct (faults h) as [|b fs]; [by intros [= _ <-]|]. by intros [= _ <-].
Qed.

Lemma up_kcore {A} (m : UM A) : (∀ u r u', m u = (r, u') → core u = core u') → preserves same_kcore (up m).
Proof.
  intros Hm h r h'. unfold up. destruct (m (kh_upload h)) as [r0 u] eqn:E0. intros [= _ <-].
  apply Hm in E0. unfold same_kcore, kcore. simpl. by rewrite E0.
Qed.

Lemma up_inv {A} (m : UM A) h r h' : up m h = (r, h') →
  ∃ r0 u, m (kh_upload h) = (r0, u) ∧ r = map_err KUpload r0 ∧ h' = set_upload u h.
Proof. unfold up. destruct (m (kh_upload h)) as [r0 u]. intros [= <- <-]. eauto. Qed.

Lemma read_kcore {A} (d : Dir KnowledgeHome A) key : preserves same_kcore (read_yaml (E:=KnowledgeError) d key).
Proof.
  apply preserves_bind; [apply _|apply io_kcore|]. intros _ h r h' H. unfold get_world in H. mrun_in H.
  by repeat case_match; injection H as _ <-.
Qed.

Lemma dir_get_kcore {A} (d : Dir KnowledgeHome A) `{!DirLaws d} key h r h' :
  read_yaml (E:=KnowledgeError) d key h = (r, h') →
  ∀ a, r = Ok a → dir_get d h !! key = Some (Stored a).
Proof. intros H a ->. by apply read_yaml_ok in H as [? _]. Qed.

Lemma read_not_found {A} (d : Dir KnowledgeHome A) `{!DirLaws d} key h h' :
  read_yaml d key h = (Err (KStorage FileNotFound), h') → dir_get d h !! key = None.
Proof.
  unfold read_yaml. intros [(? & h1 & H1 & H2)|(e & H1 & [= <-])]%bind_cases.
  - pose proof (io_dir d _ _ _ H1) as <-. unfold get_world in H2. mrun_in H2. by repeat case_match.
  - by apply io_inv in H1 as [[|] _].
Qed.

Lemma ready_kcore : preserves same_kcore ensure_knowledge_ready.
Proof.
  apply preserves_bind; [apply _|apply io_kcore|]. intros _. apply preserves_bind; [apply _|by apply preserves_gets|].
  intros []; [apply preserves_fail, _|apply preserves_ret, _].
Qed.

Lemma list_claims_kcore : preserves same_kcore list_claims_local.
Proof. apply up_kcore, core_list_local. Qed.

Lemma read_claim_kcore id : preserves same_kcore (read_claim_file id).
Proof. apply up_kcore. intros u r u' H. by eapply core_read_yaml. Qed.

Lemma read_claim_ok id h c h' : read_claim_file id h = (Ok c, h') → claim_files h !! id = Some (Stored c).
Proof.
  unfold read_claim_file. intros H. apply up_inv in H as (r0 & u & H & Hr & ->). destruct r0; [|done]. injection Hr as ->.
  by apply read_yaml_claim in H.
Qed.

#[export] Hint Resolve io_kcore ready_kcore list_claims_kcore read_claim_kcore read_kcore : acn.

(** ** Writes *)

(** An error of the file system or the upload queue. *)
Definition storage_error (e : KnowledgeError) : Prop :=
  match e with KStorage _ | KUpload _ => True | _ => False end.

Lemma write_claim_inv c h r h' : write_claim c h = (r, h') →
  (r = Ok tt ∧ kcore h' = kcore (set_upload (set_claims (<[claim_id c := Stored c]> (claim_files h)) (kh_upload h)) h)) ∨
  ((∃ e, r = Err e ∧ storage_error e) ∧ same_kcore h h').
Proof.
  unfold write_claim. intros H. apply up_inv in H as (r0 & u & H & -> & ->). unfold write_yaml_atomic in H.
  apply bind_cases in H as [([] & u1 & H1 & H2)|(e & H1 & ->)]; apply core_io_step in H1.
  - injection H2 as <- <-. left. split; [done|]. unfold kcore, claim_files. simpl. core_eq H1.
    unfold core. simpl. congruence.
  - right. split; [by exists (KUpload e)|]. unfold same_kcore, kcore. simpl. by rewrite H1.
Qed.

Lemma write_file_inv {A} (d : Dir KnowledgeHome A) key v h r h' :
  (∀ m h1 h2, kcore h1 = kcore h2 → kcore (dir_set d m h1) = kcore (dir_set d m h2)) →
  (∀ h1 h2, kcore h1 = kcore h2 → dir_get d h1 = dir_get d h2) →
  write_yaml_atomic (E:=KnowledgeError) d key v h = (r, h') →
  (r = Ok tt ∧ kcore h' = kcore (dir_set d (<[key := Stored v]> (dir_get d h)) h)) ∨
  ((∃ e, r = Err e ∧ storage_error e) ∧ same_kcore h h').
Proof.
  intros Hs Hg. unfold write_yaml_atomic. intros [([] & h1 & H1 & H2)|(e & H1 & ->)]%bind_cases;
    pose proof (io_inv _ _ _ H1) as [He _]; apply io_kcore in H1.
  - injection H2 as <- <-. left. split; [done|]. rewrite (Hg h1 h H1). by apply Hs.
  - right. split; [|done]. exists e. split; [done|]. by destruct He as [|[= ->]].
Qed.

Lemma remove_file_inv {A} (d : Dir KnowledgeHome A) key h r h' :
  (∀ m h1 h2, kcore h1 = kcore h2 → kcore (dir_set d m h1) = kcore (dir_set d m h2)) →
  (∀ h1 h2, kcore h1 = kcore h2 → dir_get d h1 = dir_get d h2) →
  remove_if_present d key h = (r, h') →
  (r = Ok tt ∧ kcore h' = kcore (dir_set d (delete key (dir_get d h)) h)) ∨
  ((∃ e, r = Err e ∧ storage_error e) ∧ same_kcore h h').
Proof.
  intros Hs Hg. unfold remove_if_present. intros [([] & h1 & H1 & H2)|(e & H1 & ->)]%bind_cases;
    pose proof (io_inv _ _ _ H1) as [He _]; apply io_kcore in H1.
  - injection H2 as <- <-. left. split; [done|]. rewrite (Hg h1 h H1). by apply Hs.
  - right. split; [|done]. exists e. split; [done|]. by destruct He as [|[= ->]].
Qed.

Ltac dir_kcore := intros; unfold kcore in *; simpl in *; congruence.

(** ** The queue *)

Lemma behind_written h c : claim_files h !! claim_id c = Some (Stored c) → all_behind [c] (kh_upload h).
Proof.
  intros Hc. unfold all_behind. simpl. rewrite andb_true_r. apply local_behind. unfold is_local.
  unfold claim_files in Hc. rewrite Hc. by apply bool_decide_eq_true_2.
Qed.

Lemma await_uploads_calm : preserves calm await_uploads.
Proof.
  intros h r h' [= _ <-] [Hq He]. unfold kfiles, claim_files. simpl.
  destruct (kh_env h) as [|f env]; simpl; [split; [by split|done]|].
  apply Forall_cons in He as [Hf He]. destruct (Hf _ Hq) as (Hq' & Hn & Hc).
  split; [by split|]. split; [done|]. congruence.
Qed.

Lemma stage_calm rq h r h' : kwf h → all_behind (sr_claims rq) (kh_upload h) → stage rq h = (r, h') →
  kwf h' ∧ never_lost (kh_upload h) (kh_upload h') ∧ kfiles h' = kfiles h ∧
  (r = Ok tt → uh_client (kh_upload h) = true → request_tracked rq (kh_upload h')).
Proof.
  intros Hw Hb. unfold stage. intros [([] & h1 & H1 & H2)|(e & H1 & ->)]%bind_cases; [|done].
  destruct (await_uploads_calm _ _ _ H1 Hw) as ([Hq1 He1] & Hn1 & Hf1).
  apply up_inv in H2 as (r0 & u & H2 & -> & ->).
  assert (all_behind (sr_claims rq) (kh_upload h1)) as Hb1.
  { eapply all_behind_stable; [exact (proj1 Hw)|done|done]. }
  destruct (triple_stage_held true rq (λ _, True) (stable_const _ _ True) _ _ _ Hq1 (conj I Hb1) H2) as (Hn2 & Hq2 & Hr).
  pose proof (stage_held_claims _ _ _ _ Hq1 H2) as Hc.
  split; [by split|]. split; [by etrans|]. split.
  { unfold kfiles, claim_files in *. simpl. congruence. }
  intros Hok Hcl. destruct r0 as [[]|]; [|done]. apply (Hr tt eq_refl). by rewrite (nl_client _ _ Hn2), (nl_client _ _ Hn1).
Qed.

Lemma stage_durable_calm claims disputes h r h' : kwf h → all_behind claims (kh_upload h) →
  stage_maintainer_batch_with_durable_claims claims disputes h = (r, h') →
  kwf h' ∧ never_lost (kh_upload h) (kh_upload h') ∧ kfiles h' = kfiles h ∧
  (r = Ok tt → uh_client (kh_upload h) = true →
    (∀ c, c ∈ claims → claim_tracked (kh_upload h') c) ∧
    (∀ d, d ∈ disputes → dispute_tracked (kh_upload h') d)).
Proof. intros Hw Hb H. by apply (stage_calm _ _ _ _ Hw) in H. Qed.

Lemma kfiles_claims h h' : kfiles h' = kfiles h → claim_files h' = claim_files h.
Proof. unfold kfiles. congruence. Qed.

Lemma kfiles_edit h h' : kfiles h' = kfiles h → kh_edit h' = kh_edit h.
Proof. unfold kfiles. congruence. Qed.
