(* ===== verification/ClaimEdit.v ===== *)
(** * Editing own claims (src/src/agent/claims.rs)

    An edit is compare-and-set on a revision of the claim.  In team mode it is
    recorded first, then written to the claim file, then staged for upload,
    and the record removed; whoever works on the claims next completes or
    discards an edit that was cut short.  Here are the operations, the pages
    of the listing, and that no written edit is ever missing from the
    upload queue for good. *)

From S2P Require Import Prelude Storage Claim UploadQueue Knowledge Text MemorySafety Utf8.

(** The [char]s of a [String], whose bytes are valid UTF-8. *)
Definition chars (s : string) : Text :=
  from_utf8_lossy ((λ a, Z.of_N (Ascii.N_of_ascii a)) <$> String.list_ascii_of_string s).

(** ** Pages *)

Definition MAX_CLAIM_PAGE_LIMIT : Z := 100.
Definition CLAIM_SUMMARY_NAME_CHARS : nat := 120.
Definition CLAIM_SUMMARY_SCOPE_CHARS : nat := 240.

Record BoundedText := { bt_text : Text; bt_truncated : bool }.

Definition bounded_text (value : Text) (limit : nat) : BoundedText :=
  {| bt_text := take limit value; bt_truncated := bool_decide (limit < length value) |}.

Record ClaimSummary := {
  cs_id : ClaimId;
  cs_name : BoundedText;
  cs_scope : BoundedText;
  cs_confidence : Confidence;
  cs_status : ClaimStatus;
  cs_updated_at : DateTime;
}.

Definition ClaimSummary_from_claim (c : Claim) : ClaimSummary :=
  {| cs_id := claim_id c; cs_name := bounded_text (chars (claim_name c)) CLAIM_SUMMARY_NAME_CHARS;
     cs_scope := bounded_text (chars (claim_scope c)) CLAIM_SUMMARY_SCOPE_CHARS;
     cs_confidence := claim_confidence c; cs_status := claim_status c;
     cs_updated_at := effective_updated_at c |}.

Record ClaimListPage := {
  clp_items : list ClaimSummary;
  clp_offset : nat;
  clp_limit : nat;
  clp_omitted : nat;
  clp_next_offset : option nat;
}.

(** [saturating_add] on offsets below the address space does not saturate:
    [returned] is zero from [total] on. *)
Definition page_tail (offset returned total : nat) : nat * option nat :=
  let returned_end := Nat.min (offset + returned) total in
  (total - returned_end, if bool_decide (returned_end < total) then Some returned_end else None).

(** Newest first, then by id. *)
Definition claim_list_cmp : Claim → Claim → comparison :=
  cmp_then (cmp_rev (cmp_on effective_updated_at Z.compare)) (cmp_on claim_id String.compare).

#[export] Instance claim_list_cmp_total : TotalCmp claim_list_cmp.
Proof. apply _. Qed.

Section pages.
Context (str_to_lowercase : Text → Text).

Definition claim_matches (query : option Text) (c : Claim) : bool :=
  match query with
  | None => true
  | Some q =>
      text_contains q (str_to_lowercase (chars (claim_name c)))
      || text_contains q (str_to_lowercase (chars (claim_scope c)))
      || text_contains q (str_to_lowercase (chars (claim_statement c)))
  end.

Definition normalize_query (query : option Text) : option Text :=
  match query with
  | Some q => if bool_decide (trim q = []) then None else Some (str_to_lowercase (trim q))
  | None => None
  end.

Definition listed_claims (claims : list Claim) (query : option Text) (include_deprecated : bool) : list Claim :=
  sort_by claim_list_cmp
    (filter (λ c, (include_deprecated || negb (is_deprecated c)) && claim_matches (normalize_query query) c = true)
      claims).

Definition claim_list_page (claims : list Claim) (query : option Text) (include_deprecated : bool)
    (offset limit : nat) : ClaimListPage :=
  let listed := listed_claims claims query include_deprecated in
  let items := ClaimSummary_from_claim <$> take limit (drop offset listed) in
  let '(omitted, next_offset) := page_tail offset (length items) (length listed) in
  {| clp_items := items; clp_offset := offset; clp_limit := limit; clp_omitted := omitted;
     clp_next_offset := next_offset |}.
End pages.

Definition validate_page_limit (limit : nat) : Result KnowledgeError unit :=
  if (1 <=? Z.of_nat limit)%Z && (Z.of_nat limit <=? MAX_CLAIM_PAGE_LIMIT)%Z then Ok tt
  else Err (KPageLimit (Z.of_nat limit)).

(** ** Edits *)

Record ClaimUpdate := {
  cu_id : ClaimId;
  cu_expected_revision : string;
  cu_name : option string;
  cu_statement : option string;
  cu_scope : option string;
  cu_evidence_summary : option string;
  cu_confidence : option Confidence;
  cu_status : option ClaimStatus;
}.

Record ClaimUpdateResult := {
  cur_claim : Claim;
  cur_revision : string;
  cur_sync_pending : bool;  (* the warning is present exactly when it is set *)
}.

Definition EDIT : string := "claim_edit_pending".

Definition validate_update (u : ClaimUpdate) : Result KnowledgeError unit :=
  match cu_name u, cu_statement u, cu_scope u, cu_evidence_summary u, cu_confidence u, cu_status u with
  | None, None, None, None, None, None => Err KEmptyUpdate
  | _, _, _, _, _, _ => Ok tt
  end.

(** The fields that are given; everything else is the current claim's. *)
Definition apply_update (u : ClaimUpdate) (c : Claim) : Claim :=
  {| claim_id := claim_id c;
     claim_name := default (claim_name c) (cu_name u);
     claim_statement := default (claim_statement c) (cu_statement u);
     claim_scope := default (claim_scope c) (cu_scope u);
     claim_holder := claim_holder c;
     claim_confidence := default (claim_confidence c) (cu_confidence u);
     claim_status := default (claim_status c) (cu_status u);
     claim_created_at := claim_created_at c;
     claim_updated_at := claim_updated_at c;
     claim_source_claim_ids := claim_source_claim_ids c;
     claim_evidence_summary := default (claim_evidence_summary c) (cu_evidence_summary u) |}.

Definition set_updated_at (t : DateTime) (c : Claim) : Claim :=
  {| claim_id := claim_id c; claim_name := claim_name c; claim_statement := claim_statement c;
     claim_scope := claim_scope c; claim_holder := claim_holder c;
     claim_confidence := claim_confidence c; claim_status := claim_status c;
     claim_created_at := claim_created_at c; claim_updated_at := Some t;
     claim_source_claim_ids := claim_source_claim_ids c;
     claim_evidence_summary := claim_evidence_summary c |}.

Section edits.
Context (agent_id : AgentId).
Context (to_lowercase : Z → Text).  (* char::to_lowercase *)
Context (claim_revision : Claim → string).  (* SHA-256 of the claim as JSON *)

Definition validate_field (field value : string) : Result KnowledgeError unit :=
  if bool_decide (trim (chars value) = []) then Err (KEmptyField field)
  else map_err (λ _, KUnsafeField field) (scan_memory_content to_lowercase (chars value)).

Definition validate_shared_claim_text (c : Claim) : Result KnowledgeError unit :=
  _ ← validate_field "name" (claim_name c);
  _ ← validate_field "statement" (claim_statement c);
  _ ← validate_field "scope" (claim_scope c);
  validate_field "evidence_summary" (claim_evidence_summary c).

Definition read_owned_claim (id : ClaimId) : KM Claim :=
  claim ← read_claim_file id;
  if bool_decide (claim_holder claim = agent_id) then mret claim else fail (KNotOwned id).

Definition clear_pending_claim_edit : KM unit := remove_if_present edit_dir EDIT.

Definition recover_pending_claim_edit_locked : KM unit :=
  team ← team_services_configured;
  if negb (team : bool) then mret tt
  else
    _ ← ensure_knowledge_ready;
    r ← m_try (read_yaml edit_dir EDIT);
    match r with
    | Err (KStorage FileNotFound) => mret tt
    | Err e => fail e
    | Ok pending =>
        current ← read_owned_claim (claim_id (pe_target pending));
        if bool_decide (claim_revision current = pe_expected_revision pending)
        then clear_pending_claim_edit
        else
          _ ← stage_maintainer_batch_with_durable_claims [current] [];
          clear_pending_claim_edit
    end.

(** The lock is taken only when there is something to recover. *)
Definition recover_pending_claim_edit : KM unit :=
  team ← team_services_configured;
  if negb (team : bool) then mret tt
  else
    _ ← io;
    present ← gets (λ h, bool_decide (is_Some (kh_edit h !! EDIT)));
    if negb (present : bool) then mret tt
    else _ ← lock_knowledge; recover_pending_claim_edit_locked.

Definition update_claim (now : DateTime) (u : ClaimUpdate) : KM ClaimUpdateResult :=
  _ ← lift_result (validate_update u);
  _ ← lock_knowledge;
  _ ← ensure_knowledge_ready;
  _ ← recover_pending_claim_edit_locked;
  current ← read_owned_claim (cu_id u);
  let current_revision := claim_revision current in
  if negb (bool_decide (cu_expected_revision u = current_revision))
  then fail (KRevisionConflict (cu_id u) (cu_expected_revision u) current_revision)
  else
    let edited := apply_update u current in
    _ ← lift_result (validate_shared_claim_text edited);
    let next := set_updated_at
      (Clock.next_claim_update_at (Clock.truncate_to_second now) (effective_updated_at current)) edited in
    team ← team_services_configured;
    _ ← (if (team : bool)
         then write_yaml_atomic edit_dir EDIT
           {| pe_expected_revision := current_revision; pe_target := next |}
         else mret tt);
    _ ← write_claim next;
    _ ← (if (team : bool)
         then _ ← stage_maintainer_batch_with_durable_claims [next] []; clear_pending_claim_edit
         else mret tt);
    mret {| cur_claim := next; cur_revision := claim_revision next; cur_sync_pending := team |}.
End edits.
