(* ===== verification/ClaimEditProofs.v ===== *)
(** * Edits are never lost, and pages list every claim once *)

From S2P Require Import Prelude Storage Claim UploadQueue UploadProofs StepLogic UploadSafety UploadDelivery Knowledge Text MemorySafety ClaimEdit.

Section edits.
Context (agent_id : AgentId) (to_lowercase : Z → Text) (claim_revision : Claim → string).

Local Notation recover_locked := (recover_pending_claim_edit_locked agent_id claim_revision).
Local Notation update := (update_claim agent_id to_lowercase claim_revision).

Definition team (h : KnowledgeHome) : bool := uh_client (kh_upload h) && kh_router h.

Definition local_is (h : KnowledgeHome) (c : Claim) : Prop := claim_files h !! claim_id c = Some (Stored c).

Definition recorded (h : KnowledgeHome) (e : PendingClaimEdit) : Prop := kh_edit h !! EDIT = Some (Stored e).

Definition tracked (h : KnowledgeHome) (c : Claim) : Prop := claim_tracked (kh_upload h) c.

(** A version is safe when it is tracked, or when the local file has it, or a
    later one, and the record of the edit makes the next recovery stage it. *)
Definition covered (h : KnowledgeHome) (c : Claim) : Prop :=
  tracked h c ∨ ∃ e l, recorded h e ∧ claim_id (pe_target e) = claim_id c ∧ claim_id l = claim_id c ∧
    local_is h l ∧ (effective_updated_at c ≤ effective_updated_at l)%Z ∧ claim_revision l ≠ pe_expected_revision e.

(** The record was written over a version that the local file had. *)
Definition record_ok (h : KnowledgeHome) : Prop :=
  ∀ e, recorded h e → ∃ p l, pe_expected_revision e = claim_revision p ∧
    claim_id p = claim_id (pe_target e) ∧ claim_id l = claim_id p ∧ local_is h l ∧
    (effective_updated_at p ≤ effective_updated_at l)%Z ∧ claim_holder l = agent_id.

Lemma kfiles_local h h' c : kfiles h' = kfiles h → local_is h c → local_is h' c.
Proof. unfold kfiles, local_is. intros H. injection H as H _ _ _ _ _ _. by rewrite H. Qed.

Lemma kfiles_recorded h h' e : kfiles h' = kfiles h → recorded h' e → recorded h e.
Proof. unfold kfiles, recorded. intros H. injection H as _ H _ _ _ _ _. by rewrite H. Qed.

Lemma covered_calm h h' c : never_lost (kh_upload h) (kh_upload h') → kfiles h' = kfiles h →
  covered h c → covered h' c.
Proof.
  intros Hn Hf [Ht|(e & l & He & Hid & Hl & Hloc & Hs & Hr)]; [left; by apply (nl_tracked _ _ Hn)|].
  right. exists e, l. split; [by apply (kfiles_recorded h' h)|]. split_and!; try done. by apply (kfiles_local h).
Qed.

Lemma record_ok_calm h h' : kfiles h' = kfiles h → record_ok h → record_ok h'.
Proof.
  intros Hf Hr e He. destruct (Hr e) as (p & l & ? & ? & ? & ? & ? & ?); [by apply (kfiles_recorded h h')|].
  exists p, l. split_and!; try done. by apply (kfiles_local h).
Qed.

Lemma team_calm h h' : never_lost (kh_upload h) (kh_upload h') → kfiles h' = kfiles h → team h' = team h.
Proof. unfold team, kfiles. intros Hn H. injection H as _ _ _ _ _ H _. by rewrite H, (nl_client _ _ Hn). Qed.

(** What every operation keeps. *)
Definition kinv (h : KnowledgeHome) : Prop := kwf h ∧ record_ok h.

Record kstep (h h' : KnowledgeHome) : Prop := {
  ks_inv : kinv h';
  ks_covered c : covered h c → covered h' c;
  ks_lost : never_lost (kh_upload h) (kh_upload h');
  ks_router : kh_router h' = kh_router h;
}.

Lemma kstep_refl h : kinv h → kstep h h.
Proof. by split. Qed.

Lemma kstep_trans h1 h2 h3 : kstep h1 h2 → kstep h2 h3 → kstep h1 h3.
Proof. intros [? ? ? ?] [? ? ? ?]. split; [done|auto|by etrans|congruence]. Qed.

Lemma kstep_team h h' : kstep h h' → team h' = team h.
Proof. intros [_ _ Hn Hr]. unfold team. by rewrite Hr, (nl_client _ _ Hn). Qed.

Lemma calm_kstep h h' : kinv h → kwf h' → never_lost (kh_upload h) (kh_upload h') → kfiles h' = kfiles h → kstep h h'.
Proof.
  intros [Hw Hr] Hw' Hn Hf. split; [split; [done|by eapply record_ok_calm]|intros c; by apply covered_calm|done|].
  unfold kfiles in Hf. congruence.
Qed.

Lemma kcore_kstep h h' : kinv h → same_kcore h h' → kstep h h'.
Proof.
  intros Hi Hk. destruct (kcore_calm _ _ Hk (proj1 Hi)) as (? & ? & ?). by apply calm_kstep.
Qed.

(** ** Recovery *)

Lemma owned_kcore id : preserves same_kcore (read_owned_claim agent_id id).
Proof.
  apply preserves_bind; [apply _|apply read_claim_kcore|]. intros c. case_bool_decide;
    [apply preserves_ret, _|apply preserves_fail, _].
Qed.

Lemma read_owned_ok id h c h' : kwf h → read_owned_claim agent_id id h = (Ok c, h') →
  local_is h c ∧ claim_id c = id ∧ claim_holder c = agent_id.
Proof.
  intros Hw. unfold read_owned_claim. intros (c0 & h1 & H1 & H2)%bind_ok. apply read_claim_ok in H1.
  case_bool_decide; [|done]. injection H2 as -> _. destruct Hw as [[Hk _] _].
  pose proof (Hk _ _ H1) as Hid. unfold local_is. by rewrite Hid.
Qed.

(** Removing the record when every version it covers is tracked. *)
Lemma clear_kstep h r h' : kinv h →
  (∀ c, covered h c → tracked h c) → clear_pending_claim_edit h = (r, h') →
  kstep h h' ∧ claim_files h' = claim_files h ∧ (r = Ok tt → kh_edit h' !! EDIT = None).
Proof.
  intros Hi Hc H. unfold clear_pending_claim_edit in H.
  apply remove_file_inv in H; [|dir_kcore..]. destruct H as [[-> Hk]|[(e & -> & _) Hk]].
  - assert (kh_edit h' !! EDIT = None) as Hnone by (rewrite (kcore_edit _ _ Hk); apply lookup_delete_eq).
    split; [|split; [exact (kcore_claims _ _ Hk)|done]]. split; [split|..].
    + apply (kcore_wf _ _ Hk). apply Hi.
    + intros e He. unfold recorded in He. congruence.
    + intros c Hcov. left. apply (nl_tracked _ _ (kcore_lost _ _ Hk)). by apply Hc.
    + exact (kcore_lost _ _ Hk).
    + exact (kcore_router _ _ Hk).
  - split; [by apply kcore_kstep|]. split; [by apply kcore_claims|done].
Qed.

(** When there is no record, what is covered is tracked. *)
Lemma unrecorded_tracked h c : kh_edit h !! EDIT = None → covered h c → tracked h c.
Proof. intros Hn [?|(e & l & He & _)]; [done|]. unfold recorded in He. congruence. Qed.

Lemma tracked_later h l c : claim_id l = claim_id c → (effective_updated_at c ≤ effective_updated_at l)%Z →
  tracked h l → tracked h c.
Proof. intros Hid Hs (x & Hx & Hk & Hle). exists x. split; [done|]. split; [congruence|lia]. Qed.

Lemma local_is_unique h l l' : claim_id l = claim_id l' → local_is h l → local_is h l' → l = l'.
Proof. unfold local_is. intros Hid Hl Hl'. rewrite Hid in Hl. congruence. Qed.

(** What is done with the record, once it and the local claim are read. *)
Lemma settle_edit_step e l h r h' : kinv h → team h = true → recorded h e → local_is h l →
  claim_id l = claim_id (pe_target e) →
  (if bool_decide (claim_revision l = pe_expected_revision e) then clear_pending_claim_edit
   else _ ← stage_maintainer_batch_with_durable_claims [l] []; clear_pending_claim_edit) h = (r, h') →
  kstep h h' ∧ claim_files h' = claim_files h ∧
  (r = Ok tt → kh_edit h' !! EDIT = None ∧ ∀ c, covered h c → tracked h' c).
Proof.
  intros Hi Hteam He Hl Hid H. case_bool_decide as Hrev.
  - assert (∀ c, covered h c → tracked h c) as Hc.
    { intros c [?|(e' & l' & He' & ? & ? & Hl' & _ & Hr)]; [done|]. unfold recorded in *.
      assert (e' = e) as -> by congruence.
      assert (l' = l) as -> by (eapply local_is_unique; [|done..]; congruence). by destruct Hr. }
    destruct (clear_kstep _ _ _ Hi Hc H) as (Hs & Hf & Hok). split; [done|]. split; [done|].
    intros Hr. split; [by apply Hok|]. intros c Hcov. apply unrecorded_tracked; [by apply Hok|].
    by apply (ks_covered _ _ Hs).
  - assert (uh_client (kh_upload h) = true) as Hcl by by apply andb_prop in Hteam as [? _].
    assert (∀ r1 h1, stage_maintainer_batch_with_durable_claims [l] [] h = (r1, h1) →
      kstep h h1 ∧ kfiles h1 = kfiles h ∧ (r1 = Ok tt → tracked h1 l)) as Hst.
    { intros r1 h1 H1. destruct (stage_durable_calm _ _ _ _ _ (proj1 Hi) (behind_written _ _ Hl) H1)
        as (Hw1 & Hn1 & Hf1 & Htr). split; [by apply calm_kstep|]. split; [done|]. intros Hr.
      apply (Htr Hr Hcl). by left. }
    apply bind_cases in H as [([] & h1 & H1 & H)|(err & H1 & ->)]; destruct (Hst _ _ H1) as (Hs1 & Hf1 & Htr).
    2: { split; [done|]. split; [by apply kfiles_claims|done]. }
    specialize (Htr eq_refl).
    assert (∀ c, covered h1 c → tracked h1 c) as Hc.
    { intros c [?|(e' & l' & He' & Hid' & Hll & Hl' & Hle & Hr)]; [done|].
      apply (kfiles_recorded h h1 e' Hf1) in He'. unfold recorded in *. assert (e' = e) as -> by congruence.
      apply (tracked_later _ l); [congruence| |done].
      assert (l' = l) as <-; [|done]. eapply (local_is_unique h1); [congruence|done|]. by apply (kfiles_local h). }
    destruct (clear_kstep _ _ _ (ks_inv _ _ Hs1) Hc H) as (Hs & Hf & Hok).
    split; [by eapply kstep_trans|]. split; [rewrite Hf; by apply kfiles_claims|].
    intros Hr. split; [by apply Hok|]. intros c Hcov. apply unrecorded_tracked; [by apply Hok|].
    by apply (ks_covered _ _ Hs), (ks_covered _ _ Hs1).
Qed.

Lemma recover_step h r h' : kinv h → team h = true → recover_locked h = (r, h') →
  kstep h h' ∧ claim_files h' = claim_files h ∧
  (r = Ok tt → kh_edit h' !! EDIT = None ∧ ∀ c, covered h c → tracked h' c).
Proof.
  intros Hi Hteam H. unfold recover_pending_claim_edit_locked, team_services_configured in H.
  apply bind_cases in H as [(b & h0 & H0 & H)|(e & H0 & ->)]; [|done].
  injection H0 as <- <-. unfold team in Hteam. rewrite Hteam in H. simpl in H.
  assert (∀ h1, same_kcore h h1 → kstep h h1 ∧ claim_files h1 = claim_files h) as Hquiet.
  { intros h1 Hk. split; [by apply kcore_kstep|by apply kcore_claims]. }
  apply bind_cases in H as [([] & h1 & H1 & H)|(e & H1 & ->)]; apply ready_kcore in H1;
    [|by destruct (Hquiet _ H1)].
  rewrite m_try_bind in H. destruct (read_yaml edit_dir EDIT h1) as [r1 h2] eqn:E1.
  assert (same_kcore h h2) as Hk2 by (etrans; [exact H1|by eapply read_kcore]).
  destruct (Hquiet _ Hk2) as [Hs2 Hc2]. destruct r1 as [e|err].
  - assert (recorded h2 e) as Hrd.
    { unfold recorded. rewrite (kcore_edit _ _ Hk2), <-(kcore_edit _ _ H1).
      exact (dir_get_kcore _ _ _ _ _ E1 _ eq_refl). }
    apply bind_cases in H as [(l & h3 & H3 & H)|(err & H3 & ->)]; pose proof (owned_kcore _ _ _ _ H3) as Hk3.
    2: { by destruct (Hquiet h'); [etrans|]. }
    destruct (read_owned_ok _ _ _ _ (proj1 (ks_inv _ _ Hs2)) H3) as (Hl & Hid & _).
    assert (same_kcore h h3) as Hk by by etrans. destruct (Hquiet _ Hk) as [Hs3 Hc3].
    apply (settle_edit_step e l) in H; [|by apply Hs3|by rewrite (kstep_team _ _ Hs3)|
      by unfold recorded; rewrite (kcore_edit _ _ Hk3)|by unfold local_is; rewrite (kcore_claims _ _ Hk3)|done].
    destruct H as (Hs & Hf & Hok). split; [by eapply kstep_trans|]. split; [congruence|].
    intros Hr. destruct (Hok Hr) as [? Htr]. split; [done|]. intros c Hcov. by apply Htr, (ks_covered _ _ Hs3).
  - assert (h' = h2) as -> by (repeat case_match; by injection H).
    split; [done|]. split; [done|]. intros ->.
    assert (err = KStorage FileNotFound) as -> by (repeat case_match; by simplify_eq).
    apply read_not_found in E1; [|apply _]. simpl in E1.
    assert (kh_edit h2 !! EDIT = None) as Hn by by rewrite (kcore_edit _ _ Hk2), <-(kcore_edit _ _ H1).
    split; [done|]. intros c Hcov. by apply unrecorded_tracked, (ks_covered _ _ Hs2).
Qed.

Lemma recover_kstep h r h' : kinv h → recover_locked h = (r, h') →
  kstep h h' ∧ claim_files h' = claim_files h ∧
  (r = Ok tt → team h = true → kh_edit h' !! EDIT = None ∧ ∀ c, covered h c → tracked h' c).
Proof.
  intros Hi H. destruct (team h) eqn:Hteam.
  { destruct (recover_step _ _ _ Hi Hteam H) as (? & ? & ?); by auto. }
  unfold recover_pending_claim_edit_locked, team_services_configured in H.
  apply bind_cases in H as [(b & h0 & H0 & H)|(e & H0 & ->)]; [|done].
  injection H0 as <- <-. unfold team in Hteam. rewrite Hteam in H. injection H as <- <-.
  split; [by apply kstep_refl|done].
Qed.

(** ** Writing a claim file *)

(** A version is written over an earlier one of the agent's. *)
Definition can_write (h : KnowledgeHome) (c : Claim) : Prop :=
  claim_holder c = agent_id ∧
  ∀ l, claim_files h !! claim_id c = Some (Stored l) → (effective_updated_at l < effective_updated_at c)%Z.

Definition kwrite (c : Claim) (h : KnowledgeHome) : KnowledgeHome :=
  set_upload (set_claims (<[claim_id c := Stored c]> (claim_files h)) (kh_upload h)) h.

(** SHA-256 does not collide on the versions of a claim. *)
Context (claim_revision_inj : ∀ a b, claim_revision a = claim_revision b → a = b).

Lemma kwrite_local c d h : local_is (kwrite c h) d ↔ d = c ∨ claim_id d ≠ claim_id c ∧ local_is h d.
Proof.
  unfold local_is, kwrite, claim_files. simpl. rewrite lookup_insert_Some. split.
  - intros [[_ [= ->]]|[Hne Hd]]; [by left|right; split; congruence].
  - intros [->|[Hne Hd]]; [by left|right; split; congruence].
Qed.

(** What was recorded over an earlier version does not have the revision of a later one. *)
Lemma later_revision h e c : record_ok h → recorded h e → can_write h c →
  claim_id (pe_target e) = claim_id c → claim_revision c ≠ pe_expected_revision e.
Proof.
  intros Hr He [_ Hw] Hid. destruct (Hr e He) as (p & l & -> & Hp & Hlp & Hl & Hle & _).
  intros ->%claim_revision_inj. specialize (Hw l). unfold local_is in Hl.
  rewrite Hlp in Hl. specialize (Hw Hl). lia.
Qed.

Lemma kwrite_wf c h : kwf h → can_write h c → kwf (kwrite c h) ∧ never_lost (kh_upload h) (kh_upload (kwrite c h)).
Proof.
  intros Hw Hc. assert (can_run (kh_upload h) (OtherWrites c) = true) as Hrun.
  { unfold can_run. destruct Hc as [_ Hc]. unfold claim_files in Hc.
    destruct (uh_claims (kh_upload h) !! claim_id c) as [[|l]|]; try done. specialize (Hc l eq_refl). lia. }
  destruct (write_step c _ (proj1 Hw) Hrun) as [Hn Hq]. split; [split; [done|apply Hw]|done].
Qed.

Lemma kwrite_step c h : kinv h → can_write h c → kstep h (kwrite c h).
Proof.
  intros [Hw Hr] Hc. destruct (kwrite_wf c h Hw Hc) as [Hw' Hn]. split; [split| |done|done].
  - done.
  - intros e He. destruct (Hr e He) as (p & l & ? & Hp & Hlp & Hl & Hle & Hh).
    destruct (decide (claim_id l = claim_id c)) as [Hid|Hne].
    + exists p, c. split_and!; [done|done|congruence|by apply kwrite_local; left| |apply Hc].
      destruct Hc as [_ Hc]. unfold local_is in Hl. rewrite Hid in Hl. specialize (Hc _ Hl). lia.
    + exists p, l. split_and!; try done. apply kwrite_local. auto.
  - intros x [Ht|(e & l & He & Hid & Hll & Hl & Hle & Hrev)]; [left; by apply (nl_tracked _ _ Hn)|right].
    destruct (decide (claim_id l = claim_id c)) as [Hlc|Hne].
    + exists e, c. split_and!; [done|done|congruence|by apply kwrite_local; left| |].
      * destruct Hc as [_ Hc]. unfold local_is in Hl. rewrite Hlc in Hl. specialize (Hc _ Hl). lia.
      * eapply (later_revision h); [done..|congruence].
    + exists e, l. split_and!; try done. apply kwrite_local. auto.
Qed.

(** Recording an edit, when no other is recorded. *)
Lemma record_kstep e l h r h' : kinv h → kh_edit h !! EDIT = None → local_is h l →
  pe_expected_revision e = claim_revision l → claim_id (pe_target e) = claim_id l → claim_holder l = agent_id →
  write_yaml_atomic (E:=KnowledgeError) edit_dir EDIT e h = (r, h') →
  kstep h h' ∧ claim_files h' = claim_files h ∧ (r = Ok tt → recorded h' e).
Proof.
  intros Hi Hn Hl Hexp Hid Hh H. apply write_file_inv in H; [|dir_kcore..].
  destruct H as [[-> Hk]|[(err & -> & _) Hk]].
  2: { split; [by apply kcore_kstep|]. split; [by apply kcore_claims|done]. }
  assert (recorded h' e) as He.
  { unfold recorded. rewrite (kcore_edit _ _ Hk). apply lookup_insert_eq. }
  assert (claim_files h' = claim_files h) as Hf by exact (kcore_claims _ _ Hk).
  split; [|done]. split; [split|..].
  - apply (kcore_wf _ _ Hk). apply Hi.
  - intros e' He'. unfold recorded in *. assert (e' = e) as -> by congruence.
    exists l, l. unfold local_is. rewrite Hf. by split_and!.
  - intros c Hc. left. apply (nl_tracked _ _ (kcore_lost _ _ Hk)). change (tracked h c). by apply unrecorded_tracked.
  - exact (kcore_lost _ _ Hk).
  - exact (kcore_router _ _ Hk).
Qed.

(** ** Updates *)

Lemma validate_field_ok field value : validate_field to_lowercase field value = Ok tt →
  trim (chars value) ≠ [] ∧ scan_memory_content to_lowercase (chars value) = Ok tt.
Proof.
  unfold validate_field. case_bool_decide; [done|]. by destruct (scan_memory_content _ _) as [[]|].
Qed.

(** The version that an update makes of the current one. *)
Definition edited (now : DateTime) (u : ClaimUpdate) (c : Claim) : Claim :=
  set_updated_at (Clock.next_claim_update_at (Clock.truncate_to_second now) (effective_updated_at c))
    (apply_update u c).

Lemma edited_later now u c : (effective_updated_at c < effective_updated_at (edited now u c))%Z.
Proof.
  unfold edited, effective_updated_at at 2. simpl. unfold Clock.next_claim_update_at.
  pose proof (Z.le_max_r (Clock.truncate_to_second (Clock.truncate_to_second now))
    (effective_updated_at c + 1 * Ids.nanos_per_sec)). unfold Ids.nanos_per_sec in *. lia.
Qed.

Lemma edited_can_write now u c h : local_is h c → claim_holder c = agent_id → can_write h (edited now u c).
Proof.
  intros Hl Hh. split; [done|]. intros l Hl'. unfold local_is in Hl. simpl in Hl'.
  assert (l = c) as -> by congruence. apply edited_later.
Qed.

Lemma stage_error rq h e h' : stage rq h = (Err e, h') → storage_error e.
Proof.
  unfold stage. intros [([] & h1 & H1 & H2)|(e' & H1 & _)]%bind_cases; [|done].
  apply up_inv in H2 as (r0 & u & _ & Hr & _). destruct r0; simplify_eq/=. done.
Qed.

Lemma clear_error h e h' : clear_pending_claim_edit h = (Err e, h') → storage_error e.
Proof.
  unfold clear_pending_claim_edit, remove_if_present. intros [([] & h1 & H1 & H2)|(e' & H1 & [= <-])]%bind_cases; [done|].
  apply io_inv in H1 as [[|[= ->]] _]; done.
Qed.

(** What an update leaves behind, however it ends. *)
Record update_effect (now : DateTime) (u : ClaimUpdate) (h : KnowledgeHome)
    (r : Result KnowledgeError ClaimUpdateResult) (h' : KnowledgeHome) : Prop := {
  ue_step : kstep h h';
  ue_files : claim_files h' = claim_files h ∧ (∀ res, r ≠ Ok res) ∨
    ∃ cur, local_is h cur ∧ claim_id cur = cu_id u ∧ claim_holder cur = agent_id ∧
      cu_expected_revision u = claim_revision cur ∧
      validate_shared_claim_text to_lowercase (apply_update u cur) = Ok tt ∧
      claim_files h' = <[cu_id u := Stored (edited now u cur)]> (claim_files h) ∧
      (team h = true → covered h' (edited now u cur)) ∧
      (∀ e, r = Err e → storage_error e) ∧
      ∀ res, r = Ok res → cur_claim res = edited now u cur ∧ cur_revision res = claim_revision (edited now u cur) ∧
        cur_sync_pending res = team h ∧
        (team h = true → tracked h' (edited now u cur) ∧ kh_edit h' !! EDIT = None);
}.

Lemma update_early now u h h1 h' e : kstep h h1 → claim_files h1 = claim_files h → same_kcore h1 h' →
  update_effect now u h (Err e) h'.
Proof.
  intros Hs Hf Hk. split.
  - eapply kstep_trans; [done|]. apply kcore_kstep; [apply Hs|done].
  - left. split; [rewrite (kcore_claims _ _ Hk); done|done].
Qed.

(** From the check of the revision on. *)
Lemma update_tail now u cur h h1 r h' : kstep h h1 → claim_files h1 = claim_files h → team h1 = team h →
  (team h = true → kh_edit h1 !! EDIT = None) →
  local_is h1 cur → claim_id cur = cu_id u → claim_holder cur = agent_id →
  cu_expected_revision u = claim_revision cur →
  validate_shared_claim_text to_lowercase (apply_update u cur) = Ok tt →
  (_ ← (if team h then write_yaml_atomic edit_dir EDIT
          {| pe_expected_revision := claim_revision cur; pe_target := edited now u cur |} else mret tt);
   _ ← write_claim (edited now u cur);
   _ ← (if team h
        then _ ← stage_maintainer_batch_with_durable_claims [edited now u cur] []; clear_pending_claim_edit
        else mret tt);
   mret {| cur_claim := edited now u cur; cur_revision := claim_revision (edited now u cur);
           cur_sync_pending := team h |}) h1 = (r, h') →
  update_effect now u h r h'.
Proof.
  intros Hs1 Hf1 Ht Hnone Hl Hid Hh Hexp Hval H. set (next := edited now u cur) in *.
  assert (∀ r2 h2, (if team h then write_yaml_atomic edit_dir EDIT
      {| pe_expected_revision := claim_revision cur; pe_target := next |} else mret tt) h1 = (r2, h2) →
    kstep h1 h2 ∧ claim_files h2 = claim_files h1 ∧
    (r2 = Ok tt → team h = true → recorded h2 {| pe_expected_revision := claim_revision cur; pe_target := next |})) as Hrec.
  { intros r2 h2. destruct (team h).
    - intros H2. apply (record_kstep _ cur) in H2 as (? & ? & ?); [by auto|apply Hs1|by apply Hnone|done..].
    - intros [= <- <-]. split; [apply kstep_refl, Hs1|]. done. }
  apply bind_cases in H as [([] & h2 & H2 & H)|(e & H2 & ->)]; destruct (Hrec _ _ H2) as (Hs2 & Hf2 & Hrec2).
  2: { eapply update_early; [exact (kstep_trans _ _ _ Hs1 Hs2)|congruence|done]. }
  assert (local_is h2 cur) as Hl2 by (unfold local_is; rewrite Hf2; exact Hl).
  assert (kstep h h2) as Hsh2 by by eapply kstep_trans.
  apply bind_cases in H as [([] & h3 & H3 & H)|(e & H3 & ->)]; apply write_claim_inv in H3 as [[Hr3 Hk3]|[(e3 & Hr3 & _) Hk3]];
    [|done|done|]; [|eapply update_early; [exact Hsh2|congruence|done]].
  change (kcore h3 = kcore (kwrite next h2)) in Hk3.
  assert (can_write h2 next) as Hcw by by apply edited_can_write.
  pose proof (kwrite_step _ _ (ks_inv _ _ Hs2) Hcw) as Hsw.
  assert (kstep h h3) as Hs3.
  { eapply kstep_trans; [exact Hsh2|]. eapply kstep_trans; [exact Hsw|apply kcore_kstep; [apply Hsw|exact Hk3]]. }
  assert (claim_files h3 = <[cu_id u := Stored next]> (claim_files h)) as Hf3.
  { rewrite (kcore_claims _ _ Hk3). unfold kwrite, claim_files at 1. simpl. by rewrite Hid, Hf2, Hf1. }
  assert (local_is h3 next) as Hl3.
  { unfold local_is. rewrite Hf3. change (claim_id next) with (claim_id cur). rewrite Hid. apply lookup_insert_eq. }
  assert (claim_revision next ≠ claim_revision cur) as Hrev.
  { intros Heq%claim_revision_inj. pose proof (edited_later now u cur). fold next in H0. rewrite Heq in H0. lia. }
  assert (team h3 = team h) as Ht3 by exact (kstep_team _ _ Hs3).
  specialize (Hrec2 eq_refl).
  assert (team h = true → recorded h3 {| pe_expected_revision := claim_revision cur; pe_target := next |}) as Hrec3.
  { intros Hteam. unfold recorded. rewrite (kcore_edit _ _ Hk3). exact (Hrec2 Hteam). }
  assert (team h = true → covered h3 next) as Hcov3.
  { intros Hteam. right. eexists _, next. split; [exact (Hrec3 Hteam)|]. by split_and!. }
  assert (∀ r4 h4, (if team h then _ ← stage_maintainer_batch_with_durable_claims [next] [];
        clear_pending_claim_edit else mret tt) h3 = (r4, h4) →
    kstep h3 h4 ∧ claim_files h4 = claim_files h3 ∧
    (r4 = Ok tt → team h = true → kh_edit h4 !! EDIT = None ∧ tracked h4 next) ∧
    (∀ e, r4 = Err e → storage_error e)) as Hset.
  { intros r4 h4 H4. destruct (team h) eqn:Eteam.
    - pose proof (settle_edit_step _ next h3 r4 h4 (ks_inv _ _ Hs3) Ht3 (Hrec3 eq_refl) Hl3 eq_refl) as Hse.
      simpl in Hse. rewrite bool_decide_eq_false_2 in Hse by done. destruct (Hse H4) as (? & ? & Hok).
      split; [done|]. split; [done|]. split.
      { intros Hr _. destruct (Hok Hr) as [? Htr]. split; [done|]. apply Htr. by apply Hcov3. }
      intros e ->. apply bind_cases in H4 as [([] & h5 & _ & H5)|(e' & H5 & [= <-])];
        [by apply clear_error in H5|by apply stage_error in H5].
    - injection H4 as <- <-. split; [apply kstep_refl, Hs3|]. done. }
  assert (∀ r4 h4, kstep h3 h4 → claim_files h4 = claim_files h3 → (∀ e, r4 = Err e → storage_error e) → (∀ res, r4 = Ok res → cur_claim res = next ∧
      cur_revision res = claim_revision next ∧ cur_sync_pending res = team h ∧
      (team h = true → tracked h4 next ∧ kh_edit h4 !! EDIT = None)) → update_effect now u h r4 h4) as Hend.
  { intros r4 h4 Hs4 Hf4 Herr Hok. split; [by eapply kstep_trans|]. right. exists cur. fold next.
    split_and!; try done; [unfold local_is; rewrite <-Hf1; exact Hl|congruence|].
    intros Hteam. by apply (ks_covered _ _ Hs4), Hcov3. }
  apply bind_cases in H as [([] & h4 & H4 & H)|(e & H4 & ->)]; destruct (Hset _ _ H4) as (Hs4 & Hf4 & Hok4 & Herr4).
  - injection H as <- <-. apply Hend; [done..|]. intros res [= <-]. simpl. split_and!; [done..|].
    intros Hteam. by destruct (Hok4 eq_refl Hteam).
  - apply Hend; [done..| |done]. intros e' [= <-]. by apply Herr4.
Qed.

Lemma update_outcome now u h r h' : kinv h → update now u h = (r, h') → update_effect now u h r h'.
Proof.
  intros Hi H. unfold update_claim in H.
  apply bind_cases in H as [([] & h0 & H0 & H)|(e & H0 & ->)].
  2: { apply (update_early _ _ _ h); [by apply kstep_refl|done|]. by injection H0 as _ <-. }
  injection H0 as Hval <-.
  apply bind_cases in H as [([] & h1 & H1 & H)|(e & H1 & ->)]; apply io_kcore in H1.
  2: { by apply (update_early _ _ _ h); [apply kstep_refl|..]. }
  apply bind_cases in H as [([] & h2 & H2 & H)|(e & H2 & ->)]; apply ready_kcore in H2.
  2: { apply (update_early _ _ _ h); [by apply kstep_refl|done|by etrans]. }
  assert (same_kcore h h2) as Hk2 by by etrans. pose proof (kcore_kstep _ _ Hi Hk2) as Hs2.
  apply bind_cases in H as [([] & h3 & H3 & H)|(e & H3 & ->)];
    destruct (recover_kstep _ _ _ (ks_inv _ _ Hs2) H3) as (Hs3 & Hf3 & Hnone);
    [|eapply update_early; [by eapply kstep_trans|rewrite Hf3; by apply kcore_claims|done]].
  assert (kstep h h3) as Hsh3 by by eapply kstep_trans.
  assert (claim_files h3 = claim_files h) as Hfh3 by (rewrite Hf3; by apply kcore_claims).
  apply bind_cases in H as [(cur & h4 & H4 & H)|(e & H4 & ->)]; pose proof (owned_kcore _ _ _ _ H4) as Hk4;
    [|by eapply update_early].
  destruct (read_owned_ok _ _ _ _ (proj1 (ks_inv _ _ Hsh3)) H4) as (Hl & Hid & Hh).
  case_bool_decide as Hexp; simpl in H; [|injection H as <- <-; by eapply update_early].
  apply bind_cases in H as [([] & h5 & H5 & H)|(e & H5 & ->)];
    [|injection H5 as _ <-; by eapply update_early].
  injection H5 as Hv <-.
  apply bind_cases in H as [(b & h5 & H5 & H)|(e & H5 & ->)]; [|done]. injection H5 as <- <-.
  change (uh_client (kh_upload h4) && kh_router h4) with (team h4) in H.
  assert (kstep h h4) as Hs4 by (eapply kstep_trans; [exact Hsh3|apply kcore_kstep; [apply Hsh3|done]]).
  assert (team h4 = team h) as Ht4 by by apply kstep_team. rewrite Ht4 in H.
  eapply (update_tail now u cur h h4); try done.
  - by rewrite (kcore_claims _ _ Hk4).
  - intros Hteam. rewrite (kcore_edit _ _ Hk4). apply Hnone; [done|]. by rewrite (kstep_team _ _ Hs2).
  - unfold local_is. by rewrite (kcore_claims _ _ Hk4).
Qed.

(** ** Histories *)

(** What happens to the knowledge of an agent: edits and recoveries, with
    whatever faults strike them; changes by the other holders of the knowledge
    lock, who write a later version of a claim and stage what they wrote; the
    uploads; and time, other files and new schedules. *)
Inductive knowledge_event : KnowledgeHome → KnowledgeHome → Prop :=
| ke_update now u h r h' : update now u h = (r, h') → knowledge_event h h'
| ke_recover h r h' : recover_locked h = (r, h') → knowledge_event h h'
| ke_write c h : can_write h c → knowledge_event h (kwrite c h)
| ke_stage rq h r h' : all_behind (sr_claims rq) (kh_upload h) → stage rq h = (r, h') → knowledge_event h h'
| ke_upload f h : keeps_queue f → knowledge_event h (set_upload (f (kh_upload h)) h)
| ke_time h h' : core (kh_upload h') = core (kh_upload h) → kh_router h' = kh_router h → kh_edit h' = kh_edit h →
    Forall keeps_queue (kh_env h') → knowledge_event h h'.

Lemma knowledge_event_step h h' : kinv h → knowledge_event h h' → kstep h h'.
Proof.
  intros Hi He. destruct He as [now u h r h' H|h r h' H|c h Hc|rq h r h' Hb H|f h Hf|h h' Hu Hrt Hed Henv].
  - by apply update_outcome in H as [? _].
  - by apply recover_kstep in H as [? _].
  - by apply kwrite_step.
  - apply stage_calm in H as (? & ? & ? & _); [by apply calm_kstep|apply Hi|done].
  - destruct (Hf _ (proj1 (proj1 Hi))) as (Hq & Hn & Hc). apply calm_kstep; [done| |done|].
    + split; [done|apply Hi].
    + unfold kfiles, claim_files. simpl. by rewrite Hc.
  - assert (never_lost (kh_upload h) (kh_upload h')) as Hn by by apply core_never_lost.
    assert (claim_files h' = claim_files h) as Hcl by (unfold claim_files; unfold core in Hu; congruence).
    assert (∀ c, local_is h c → local_is h' c) as Hl by (intros c; unfold local_is; by rewrite Hcl).
    assert (∀ e, recorded h' e ↔ recorded h e) as Hrec by (intros e; unfold recorded; by rewrite Hed).
    split; [split; [split; [by eapply core_queue_ok, Hi|done]|]| |done|done].
    + intros e He%Hrec. destruct (proj2 Hi e He) as (p & l & ? & ? & ? & ? & ? & ?). exists p, l.
      split_and!; try done. by apply Hl.
    + intros c [Ht|(e & l & He & Hid & Hll & Hloc & Hle & Hr)]; [left; by apply (nl_tracked _ _ Hn)|right].
      exists e, l. split_and!; try done; [by apply Hrec|by apply Hl].
Qed.

Lemma knowledge_events_step h h' : kinv h → rtc knowledge_event h h' → kstep h h'.
Proof.
  intros Hi Hs. induction Hs as [h|h1 h2 h3 H12 _ IH]; [by apply kstep_refl|].
  pose proof (knowledge_event_step _ _ Hi H12) as Hs. eapply kstep_trans; [done|]. apply IH, Hs.
Qed.

Lemma recover_unlocked_step h r h' : kinv h → team h = true → recover_pending_claim_edit agent_id claim_revision h = (r, h') →
  kstep h h' ∧ (r = Ok tt → ∀ c, covered h c → tracked h' c).
Proof.
  intros Hi Hteam H. unfold recover_pending_claim_edit, team_services_configured in H.
  apply bind_cases in H as [(b & h0 & H0 & H)|(e & H0 & ->)]; [|done].
  injection H0 as <- <-. unfold team in Hteam. rewrite Hteam in H. simpl in H.
  apply bind_cases in H as [([] & h1 & H1 & H)|(e & H1 & ->)]; apply io_kcore in H1;
    [|split; [by apply kcore_kstep|done]].
  pose proof (kcore_kstep _ _ Hi H1) as Hs1.
  apply bind_cases in H as [(b & h2 & H2 & H)|(e & H2 & ->)]; [|done]. injection H2 as <- <-.
  case_bool_decide as Hp; simpl in H.
  - apply bind_cases in H as [([] & h3 & H3 & H)|(e & H3 & ->)]; apply io_kcore in H3;
      pose proof (kcore_kstep _ _ (ks_inv _ _ Hs1) H3) as Hs3; [|split; [by eapply kstep_trans|done]].
    assert (kstep h h3) as Hs by by eapply kstep_trans.
    apply recover_step in H as (Hs4 & _ & Hok); [|apply Hs|by rewrite (kstep_team _ _ Hs)].
    split; [by eapply kstep_trans|]. intros Hr c Hc. apply (proj2 (Hok Hr)). by apply (ks_covered _ _ Hs).
  - injection H as <- <-. split; [done|]. intros _ c Hc. apply unrecorded_tracked.
    + destruct (kh_edit h1 !! EDIT) eqn:E; [|done]. by destruct Hp.
    + by apply (ks_covered _ _ Hs1).
Qed.

Lemma update_covered now u h0 r h1 h2 c :
  kinv h0 → team h0 = true → update now u h0 = (r, h1) →
  local_is h1 c → claim_files h0 !! claim_id c ≠ Some (Stored c) →
  rtc knowledge_event h1 h2 → kinv h2 ∧ team h2 = true ∧ covered h2 c ∧
  ∀ res, r = Ok res → cur_claim res = c ∧ tracked h1 c.
Proof.
  intros Hi Hteam Hu Hl Hnew Hs. apply update_outcome in Hu as [Hs1 Hf]; [|done].
  destruct Hf as [[Hf _]|(cur & Hcur & Hid & Hh & _ & _ & Hf & Hcov & _ & Hok)].
  { unfold local_is in Hl. by rewrite Hf in Hl. }
  assert (c = edited now u cur) as ->.
  { unfold local_is in Hl. rewrite Hf, lookup_insert_Some in Hl. destruct Hl as [[_ [= <-]]|[_ ?]]; [done|congruence]. }
  assert (kstep h1 h2) as Hs2 by (apply knowledge_events_step; [apply Hs1|done]).
  split; [apply Hs2|]. split; [by rewrite (kstep_team _ _ Hs2), (kstep_team _ _ Hs1)|].
  split; [by apply (ks_covered _ _ Hs2), Hcov|].
  intros res Hr. destruct (Hok _ Hr) as (-> & _ & _ & Ht). split; [done|]. by apply Ht.
Qed.

(** C20. An edit that reached the claim file reaches the upload queue.  In team
    mode, whatever way an update ends that changed the claim file, success,
    error or crash, and whatever happens after it, edits, recoveries and other
    changes of the claims, uploads, faults: the written version is tracked, in
    the queue or settled with the Maintainer in that version or a later one,
    or else the record of the edit stands; an update that succeeds has it
    tracked at once, and so does any later recovery that succeeds, which is
    the first thing every operation on the claims does. *)
Theorem written_edits_reach_queue now u h0 r h1 h2 c :
  kinv h0 → team h0 = true → update now u h0 = (r, h1) →
  local_is h1 c → claim_files h0 !! claim_id c ≠ Some (Stored c) →
  rtc knowledge_event h1 h2 →
  (∀ res, r = Ok res → cur_claim res = c ∧ tracked h1 c) ∧
  (tracked h2 c ∨ ∃ e, recorded h2 e ∧ claim_id (pe_target e) = claim_id c) ∧
  ∀ h3, recover_pending_claim_edit agent_id claim_revision h2 = (Ok tt, h3) → tracked h3 c.
Proof.
  intros Hi Hteam Hu Hl Hnew Hs.
  destruct (update_covered _ _ _ _ _ _ _ Hi Hteam Hu Hl Hnew Hs) as (Hi2 & Hteam2 & Hcov & Hok).
  split; [done|]. split.
  - destruct Hcov as [|(e & l & He & Hide & _)]; [by left|right; by exists e].
  - intros h3 H3. destruct (recover_unlocked_step h2 (Ok tt) h3) as [_ Hrec]; [done..|by apply Hrec].
Qed.

(** C30. An update is a compare-and-set on one claim of the agent.  It changes
    the claim files only when the expected revision is that of the local
    version: then exactly the given fields of that claim change, its stamp
    becomes strictly later, and all its texts are non-empty and pass the
    safety scan.  When it is refused, over the revision, the owner, a text, an
    empty update or a busy knowledge base, no claim file changes. *)
Theorem update_is_compare_and_set now u h r h' : kinv h → update now u h = (r, h') →
  claim_files h' = claim_files h ∧ (∀ res, r ≠ Ok res) ∨
  ∃ cur, local_is h cur ∧ claim_id cur = cu_id u ∧ claim_holder cur = agent_id ∧
    (∀ c, claim_revision c = cu_expected_revision u → c = cur) ∧
    claim_files h' = <[cu_id u := Stored (edited now u cur)]> (claim_files h) ∧
    (effective_updated_at cur < effective_updated_at (edited now u cur))%Z ∧
    Forall (λ text, trim (chars text) ≠ [] ∧ scan_memory_content to_lowercase (chars text) = Ok tt)
      [claim_name (edited now u cur); claim_statement (edited now u cur); claim_scope (edited now u cur);
       claim_evidence_summary (edited now u cur)] ∧
    match r with
    | Ok res => cur_claim res = edited now u cur ∧ cur_revision res = claim_revision (edited now u cur) ∧
        cur_sync_pending res = team h
    | Err e => storage_error e
    end.
Proof.
  intros Hi H. apply update_outcome in H as [_ [?|(cur & Hcur & Hid & Hh & Hexp & Hval & Hf & _ & Herr & Hok)]];
    [by left|right|done].
  exists cur. split_and!; [done|done|done| |done|apply edited_later| |].
  - intros c Hc. apply claim_revision_inj. congruence.
  - unfold validate_shared_claim_text in Hval.
    apply result_bind_ok in Hval as ([] & H1 & Hval). apply result_bind_ok in Hval as ([] & H2 & Hval).
    apply result_bind_ok in Hval as ([] & H3 & H4). apply validate_field_ok in H1, H2, H3, H4.
    repeat (constructor; [done|]). constructor.
  - destruct r as [res|e]; [|by apply Herr]. by destruct (Hok _ eq_refl) as (? & ? & ? & _).
Qed.
End edits.

(** ** Pages *)

Section pages.
Context (str_to_lowercase : Text → Text) (claims : list Claim) (query : option Text)
  (include_deprecated : bool) (limit : nat).

Local Notation page offset := (claim_list_page str_to_lowercase claims query include_deprecated offset limit).
Local Notation listed := (listed_claims str_to_lowercase claims query include_deprecated).

(** Reading page after page, as [next_offset] says. *)
Fixpoint read_pages (fuel offset : nat) : option (list ClaimSummary) :=
  match fuel with
  | O => None
  | S fuel' =>
      let p := page offset in
      match clp_next_offset p with
      | None => Some (clp_items p)
      | Some next => app (clp_items p) <$> read_pages fuel' next
      end
  end.

Lemma page_items offset : clp_items (page offset) = ClaimSummary_from_claim <$> take limit (drop offset listed).
Proof. done. Qed.

Lemma page_omitted offset :
  clp_omitted (page offset) = length listed - Nat.min (offset + length (clp_items (page offset))) (length listed).
Proof. done. Qed.

Lemma page_next offset : 1 ≤ limit →
  clp_next_offset (page offset) = if decide (offset + limit < length listed) then Some (offset + limit) else None.
Proof.
  intros Hl. unfold claim_list_page, page_tail. simpl.
  rewrite length_fmap, length_take, length_drop. case_bool_decide; case_decide; (done || (f_equal; lia) || lia).
Qed.

Lemma read_pages_from fuel offset : 1 ≤ limit → length listed - offset < fuel →
  read_pages fuel offset = Some (ClaimSummary_from_claim <$> drop offset listed).
Proof.
  intros Hl. revert offset. induction fuel as [|fuel IH]; intros offset Hf; [lia|].
  cbn [read_pages]. rewrite page_next, page_items by done. case_decide as Hd.
  - rewrite IH by lia. simpl. f_equal. rewrite <-fmap_app, <-drop_drop. by rewrite take_drop.
  - f_equal. rewrite take_ge; [done|]. rewrite length_drop. lia.
Qed.

Lemma listed_perm : listed ≡ₚ filter (λ c, (include_deprecated || negb (is_deprecated c))
  && claim_matches str_to_lowercase (normalize_query str_to_lowercase query) c = true) claims.
Proof. apply sort_by_perm. Qed.

(** C31. Paging through the claims of an agent, from the first page and from
    each page to the offset it names next, ends, within one page more than
    there are claims, and delivers every claim that the filter lets through
    exactly once, newest first and then by identifier; each page holds at
    most [limit] claims and says truthfully how many remain. *)
Theorem pages_deliver_all : 1 ≤ limit → NoDup (claim_id <$> claims) →
  read_pages (S (length claims)) 0 = Some (ClaimSummary_from_claim <$> listed) ∧
  StronglySorted (cmp_le claim_list_cmp) listed ∧ NoDup (claim_id <$> listed) ∧
  (∀ c, c ∈ listed ↔ c ∈ claims ∧ (include_deprecated = true ∨ claim_status c ≠ ClaimDeprecated) ∧
    claim_matches str_to_lowercase (normalize_query str_to_lowercase query) c = true) ∧
  ∀ offset, length (clp_items (page offset)) ≤ limit ∧
    (offset ≤ length listed → clp_omitted (page offset) = length listed - offset - length (clp_items (page offset))).
Proof.
  intros Hl Hnd. assert (length listed ≤ length claims) as Hlen.
  { rewrite (Permutation_length listed_perm). apply length_filter. }
  split; [rewrite read_pages_from by lia; done|]. split; [apply (sort_by_sorted claim_list_cmp)|].
  split.
  { rewrite (fmap_Permutation claim_id _ _ listed_perm).
    eapply sublist_NoDup; [exact Hnd|apply fmap_sublist, sublist_filter]. }
  split.
  - intros c. rewrite (elem_of_Permutation_proper c _ _ listed_perm), list_elem_of_filter, andb_true_iff, orb_true_iff, negb_true_iff.
    unfold is_deprecated. rewrite bool_decide_eq_false. tauto.
  - intros offset. rewrite page_omitted, page_items, length_fmap, length_take, length_drop. split; lia.
Qed.
End pages.
