(* ===== verification/ClaimEditLive.v ===== *)
(** * An interrupted edit gets through *)

From S2P Require Import Prelude Storage Claim Text MemorySafety MemoryStore UploadQueue StepLogic UploadProofs.
From S2P Require Import UploadSafety UploadDelivery UploadLive UploadDemo Knowledge ClaimEdit ClaimEditProofs.
Import Ids.

Section live.
Context (agent_id : AgentId) (claim_revision : Claim → string).

(** Nothing else at work, no fault, no Dream commit, and files that parse. *)
Record at_rest (h : KnowledgeHome) : Prop := {
  ar_team : team h = true;
  ar_upload : undisturbed (kh_upload h);
  ar_env : kh_env h = [];
  ar_dream : kh_dream_pending h = false;
  ar_record : kh_edit h !! EDIT ≠ Some Reserved;
}.

Lemma up_run {A} (m : UM A) h a u : m (kh_upload h) = (Ok a, u) → up m h = (Ok a, set_upload u h).
Proof. unfold up. by intros ->. Qed.

Lemma set_upload_id h : set_upload (kh_upload h) h = h.
Proof. by destruct h. Qed.

Lemma rest_faults h : at_rest h → faults h = [].
Proof. intros []. by destruct ar_upload0. Qed.

Lemma rest_io {E} (e : E) h : at_rest h → io_step e h = (Ok tt, h).
Proof. intros Hr. unfold io_step. by rewrite (rest_faults _ Hr). Qed.

Lemma rest_team h : at_rest h → team_services_configured h = (Ok true, h).
Proof. intros Hr. unfold team_services_configured, gets. by rewrite (ar_team _ Hr : _ && _ = true). Qed.

Lemma rest_ready h : at_rest h → ensure_knowledge_ready h = (Ok tt, h).
Proof.
  intros Hr. unfold ensure_knowledge_ready. rewrite (bind_step _ _ h tt h) by by apply rest_io.
  unfold gets. mrun. by rewrite (ar_dream _ Hr).
Qed.

Lemma rest_read_owned h c : at_rest h → local_is h c → claim_holder c = agent_id →
  read_owned_claim agent_id (claim_id c) h = (Ok c, h).
Proof.
  intros Hr Hl Hh. unfold read_owned_claim. rewrite (bind_step _ _ h c h).
  { by rewrite bool_decide_eq_true_2. }
  rewrite <-(set_upload_id h) at 2. apply up_run, read_yaml_run; [apply (ud_faults _ (ar_upload _ Hr))|done].
Qed.

Lemma rest_stage h p claims : at_rest h → pending_value (kh_upload h) = Some p →
  stage_maintainer_batch_with_durable_claims claims [] h =
    (Ok tt, set_upload (store_pending (staged {| sr_claims := claims; sr_disputes := []; sr_durable := true;
      sr_groups := []; sr_withdrawn := None |} p) (kh_upload h)) h).
Proof.
  intros Hr Hp. unfold stage_maintainer_batch_with_durable_claims, stage.
  assert (await_uploads h = (Ok tt, h)) as Haw.
  { unfold await_uploads, modify. rewrite (ar_env _ Hr). simpl. f_equal. destruct h; simpl.
    pose proof (ar_env _ Hr) as He. simpl in He. by rewrite He. }
  rewrite (bind_step _ _ _ _ _ Haw). apply up_run. pose proof (ar_upload _ Hr) as Hu.
  unfold stage_maintainer_batch_held.
  rewrite (bind_step _ _ (kh_upload h) true (kh_upload h)) by (unfold has_client, gets; by rewrite (ud_client _ Hu)).
  simpl. rewrite (bind_step _ _ _ _ _ (lock_queue_run true _ Hu)), (bind_step _ _ _ _ _ (queue_read_run _ p Hu Hp)).
  by apply write_or_clear_run.
Qed.

Lemma rest_clear h : at_rest h → clear_pending_claim_edit h = (Ok tt, set_edit (delete EDIT (kh_edit h)) h).
Proof.
  intros Hr. unfold clear_pending_claim_edit, remove_if_present, io.
  by rewrite (bind_step _ _ h tt h) by by apply rest_io.
Qed.

(** What a recovery does at rest. *)
Lemma rest_recover h p : kinv agent_id claim_revision h → at_rest h → pending_value (kh_upload h) = Some p →
  pending_wf p → pu_consolidations p = [] →
  ∃ h' p', recover_pending_claim_edit agent_id claim_revision h = (Ok tt, h') ∧
    undisturbed (kh_upload h') ∧ pending_value (kh_upload h') = Some p' ∧ pending_wf p' ∧ pu_consolidations p' = [].
Proof.
  intros Hi Hr Hp Hwf Hcd. unfold recover_pending_claim_edit, recover_pending_claim_edit_locked.
  pose proof (ar_upload _ Hr) as Hu. rewrite (bind_step _ _ h true h) by by apply rest_team. simpl.
  unfold io. rewrite (bind_step _ _ h tt h) by by apply rest_io.
  rewrite (bind_step _ _ h (bool_decide (is_Some (kh_edit h !! EDIT))) h) by done.
  case_bool_decide as Hpres; simpl; [|exists h, p; by split_and!].
  unfold lock_knowledge. rewrite (bind_step _ _ h tt h) by by apply rest_io.
  rewrite (bind_step _ _ h true h) by by apply rest_team. simpl.
  rewrite (bind_step _ _ h tt h) by by apply rest_ready.
  destruct Hpres as [[|e] He]; [by destruct (ar_record _ Hr)|].
  rewrite m_try_bind. rewrite (read_yaml_run edit_dir EDIT e h) by (done || by apply rest_faults).
  destruct (proj2 Hi e He) as (q & l & Hexp & Hq & Hlq & Hl & _ & Hh).
  assert (claim_id (pe_target e) = claim_id l) as -> by congruence.
  rewrite (bind_step _ _ h l h) by by apply rest_read_owned.
  case_bool_decide.
  - rewrite rest_clear by done. eexists _, p. by split_and!.
  - rewrite (bind_step _ _ _ _ _ (rest_stage h p [l] Hr Hp)).
    set (rq := {| sr_claims := [l] |}). set (h1 := set_upload _ h).
    assert (at_rest h1) as Hr1.
    { destruct Hr. split; try done. by apply undisturbed_store. }
    rewrite rest_clear by done. eexists _, (if nothing_pending (staged rq p) then no_uploads else staged rq p).
    split; [done|]. split; [by apply undisturbed_store|].
    destruct (nothing_pending (staged rq p)) eqn:En.
    + split; [unfold pending_value, store_pending; simpl; rewrite En, lookup_delete_eq; reflexivity|].
      by repeat split; try constructor.
    + split; [unfold pending_value, store_pending; simpl; rewrite En, lookup_insert_eq; reflexivity|].
      split; [by apply staged_wf|by apply staged_plain].
Qed.

(** [upload_maintainer_batch(Vec::new(), Vec::new())]. *)
Definition nothing_new : stage_request :=
  {| sr_claims := []; sr_disputes := []; sr_durable := false; sr_groups := []; sr_withdrawn := None |}.

(** C29. An interrupted edit is delivered.  Take any moment after an update
    changed the claim file, whatever interrupted it and whatever came since.
    Once nothing is at work, no fault strikes and the upload queue holds no
    consolidations (a retired claim would wait for the claims that carry on
    its knowledge), the next operation on the claims recovers the edit, and the
    next upload to an accepting Maintainer leaves nothing pending: the written
    version, or a later one, has been accepted by the Maintainer, or had been
    refused by it for good.  The agent is in a team. *)
Theorem interrupted_edit_delivered to_lowercase now u h0 r h1 h2 c p :
  (∀ a b, claim_revision a = claim_revision b → a = b) →
  kinv agent_id claim_revision h0 → team h0 = true →
  update_claim agent_id to_lowercase claim_revision now u h0 = (r, h1) →
  local_is h1 c → claim_files h0 !! claim_id c ≠ Some (Stored c) →
  rtc (knowledge_event agent_id to_lowercase claim_revision) h1 h2 →
  at_rest h2 → pending_value (kh_upload h2) = Some p → pu_consolidations p = [] →
  ∃ h3 report u4,
    recover_pending_claim_edit agent_id claim_revision h2 = (Ok tt, h3) ∧
    upload_maintainer_batch_inner nothing_new (kh_upload h3) = (Ok report, u4) ∧
    mur_pending_claims report = 0 ∧ has_claim (uh_accepted u4 ++ uh_refused (kh_upload h3)) c.
Proof.
  intros Hinj Hi Hteam Hu Hl Hnew Hs Hr Hp Hcd.
  destruct (update_covered _ _ _ Hinj _ _ _ _ _ _ _ Hi Hteam Hu Hl Hnew Hs) as (Hi2 & Hteam2 & Hcov & _).
  destruct (rest_recover h2 p Hi2 Hr Hp (proj1 (proj2 (proj1 (proj1 Hi2)) p Hp)) Hcd)
    as (h3 & p3 & Hrec & Hu3 & Hp3 & Hwf3 & Hcd3).
  destruct (recover_unlocked_step _ _ _ _ _ Hi2 Hteam2 Hrec) as [Hs3 Htr]. specialize (Htr eq_refl c Hcov).
  destruct (drain_run nothing_new _ p3 Hu3 Hp3 Hwf3 Hcd3 eq_refl eq_refl)
    as (report & u4 & Hup & _ & Hpc & _ & Hacc & _).
  exists h3, report, u4. split; [done|]. split; [done|]. split; [done|].
  unfold tracked, claim_tracked, queued, settled_claims in Htr. rewrite Hp3 in Htr. simpl in Htr.
  destruct (triple_batch nothing_new (λ _, True) (stable_const _ _ True) _ _ _ (proj1 (proj1 (ks_inv _ _ _ _ Hs3)))
    (conj I (eq_refl : all_behind [] _)) Hup) as (Hn & _ & _).
  apply has_version_app in Htr as [(x & Hx & Hk & Hle)|Htr].
  - destruct (Hacc x) as (y & Hy & Hky & Hley); [apply elem_of_app; by left|].
    exists y. split; [set_solver|]. split; [congruence|lia].
  - eapply has_version_mono; [|exact Htr]. intros x [Hx|Hx]%elem_of_app; apply has_version_in, elem_of_app;
      [left; by apply (nl_accepted _ _ Hn)|by right].
Qed.
End live.

(** * Concrete edits of a claim

    An edit that is cut short between the write of the claim file and its
    staging, recovered and delivered; the guarantees of ClaimEditProofs.v and
    ClaimEditLive.v are instantiated on it. *)

(** ** A revision that tells all versions apart *)

Definition confidence_code (c : Confidence) : nat := match c with High => 0 | Medium => 1 | Low => 2 end.
Definition status_code (s : ClaimStatus) : nat := match s with ClaimActive => 0 | ClaimStale => 1 | ClaimDeprecated => 2 end.
Definition source_code (s : SourceId) : nat * string :=
  match s with SourceClaim id => (0, id) | SourcePolicy id => (1, id) end.

#[local] Instance source_code_inj : Inj (=) (=) source_code.
Proof. intros [?|?] [?|?] [=]; by subst. Qed.

Definition claim_code (c : Claim) :=
  (claim_id c, claim_name c, claim_statement c, claim_scope c, claim_holder c,
   (confidence_code (claim_confidence c), status_code (claim_status c), claim_created_at c, claim_updated_at c,
    source_code <$> claim_source_claim_ids c, claim_evidence_summary c)).

Lemma claim_code_inj a b : claim_code a = claim_code b → a = b.
Proof.
  destruct a as [? ? ? ? ? ca sa ? ? srca ?], b as [? ? ? ? ? cb sb ? ? srcb ?]. unfold claim_code. simpl.
  intros [=]. subst. assert (ca = cb) as -> by by destruct ca, cb.
  assert (sa = sb) as -> by by destruct sa, sb. assert (srca = srcb) as ->; [|done].
  by apply (inj (fmap source_code)).
Qed.

Fixpoint bits (p : positive) : string :=
  match p with
  | xH => EmptyString
  | xO p' => String "0" (bits p')
  | xI p' => String "1" (bits p')
  end.

Lemma bits_inj p q : bits p = bits q → p = q.
Proof. revert q. induction p as [p IH|p IH|]; intros [q|q|]; simpl; try done; intros [=]; f_equal; by apply IH. Qed.

Definition demo_revision (c : Claim) : string := bits (encode (claim_code c)).

Lemma demo_revision_inj a b : demo_revision a = demo_revision b → a = b.
Proof. intros H%bits_inj%(inj encode). by apply claim_code_inj. Qed.

(** ** The run *)

Definition demo_claim : Claim :=
  {| claim_id := "claim_0000000a"; claim_name := "retry rule"; claim_statement := "retry twice";
     claim_scope := "imports"; claim_holder := "a"; claim_confidence := High; claim_status := ClaimActive;
     claim_created_at := 100; claim_updated_at := None; claim_source_claim_ids := [];
     claim_evidence_summary := "tests" |}.

Definition demo_update : ClaimUpdate :=
  {| cu_id := "claim_0000000a"; cu_expected_revision := demo_revision demo_claim; cu_name := None;
     cu_statement := Some "retry three times"; cu_scope := None; cu_evidence_summary := None;
     cu_confidence := Some Low; cu_status := None |}.

Definition demo_now : DateTime := 5000000000.

Definition demo_edited : Claim := edited demo_now demo_update demo_claim.

Definition demo_knowledge (fs : list bool) : KnowledgeHome :=
  {| kh_upload := {| uh_client := true; uh_pending := ∅; uh_claims := {["claim_0000000a" := Stored demo_claim]};
       uh_others := []; uh_knowledge := []; uh_picks := []; uh_answers := []; uh_accepted := [];
       uh_refused := []; uh_settled := []; uh_faults := fs |};
     kh_router := true; kh_dream_pending := false; kh_edit := ∅; kh_effects := ∅; kh_traces := ∅;
     kh_reported := ∅; kh_env := [] |}.

Lemma demo_kinv fs : kinv "a" demo_revision (demo_knowledge fs).
Proof.
  split; [split; [split|constructor]|].
  - intros k c. simpl. rewrite lookup_singleton_Some. intros [<- [= <-]]. reflexivity.
  - intros p [= <-]. split; [split; constructor|]. split; [apply list_subseteq_nil|]. intros c Hc. by apply not_elem_of_nil in Hc.
  - intros e He. unfold recorded in He. simpl in He. by rewrite lookup_empty in He.
Qed.

Notation demo_run fs := (update_claim "a" ascii_lowercase demo_revision demo_now demo_update (demo_knowledge fs)).

(** The staging is struck: the claim file and the record are written. *)
Definition crash_faults : list bool := [false; false; false; false; false; false; false; true].

Example demo_crash : (demo_run crash_faults).1 = Err (KUpload UploadLock) ∧
  claim_files (demo_run crash_faults).2 !! "claim_0000000a" = Some (Stored demo_edited) ∧
  uh_pending (kh_upload (demo_run crash_faults).2) = ∅.
Proof. vm_compute. done. Qed.

(** Another holder of the lock writes a later version of the same claim. *)
Definition demo_overwrite : Claim := set_updated_at 9000000000 demo_edited.

Definition after_crash : KnowledgeHome := (demo_run crash_faults).2.
Definition after_overwrite : KnowledgeHome := kwrite demo_overwrite after_crash.

Lemma crash_run : demo_run crash_faults = (Err (KUpload UploadLock), after_crash).
Proof. vm_compute. reflexivity. Qed.

Lemma crash_local : local_is after_crash demo_edited.
Proof. vm_compute. reflexivity. Qed.

Lemma crash_new : claim_files (demo_knowledge crash_faults) !! claim_id demo_edited ≠ Some (Stored demo_edited).
Proof. vm_compute. discriminate. Qed.

Lemma crash_history : rtc (knowledge_event "a" ascii_lowercase demo_revision) after_crash after_overwrite.
Proof.
  apply rtc_once, ke_write. split; [reflexivity|]. intros l Hl. vm_compute in Hl. injection Hl as <-. vm_compute. reflexivity.
Qed.

Lemma written_edits_reach_queue_witness :
  ∃ h3, recover_pending_claim_edit "a" demo_revision after_overwrite = (Ok tt, h3) ∧
    tracked h3 demo_edited ∧ queued (kh_upload h3) = [demo_overwrite].
Proof.
  exists (recover_pending_claim_edit "a" demo_revision after_overwrite).2.
  assert (recover_pending_claim_edit "a" demo_revision after_overwrite =
    (Ok tt, (recover_pending_claim_edit "a" demo_revision after_overwrite).2)) as Hr by (vm_compute; reflexivity).
  split; [exact Hr|]. split; [|vm_compute; reflexivity].
  destruct (written_edits_reach_queue "a" ascii_lowercase demo_revision demo_revision_inj demo_now demo_update
    (demo_knowledge crash_faults) (Err (KUpload UploadLock)) after_crash after_overwrite demo_edited
    (demo_kinv _) eq_refl crash_run crash_local crash_new crash_history) as (_ & _ & H).
  exact (H _ Hr).
Defined.

Lemma interrupted_edit_delivered_witness :
  ∃ h3 report u4, recover_pending_claim_edit "a" demo_revision after_overwrite = (Ok tt, h3) ∧
    mur_pending_claims report = 0 ∧ has_claim (uh_accepted u4 ++ uh_refused (kh_upload h3)) demo_edited.
Proof.
  destruct (interrupted_edit_delivered "a" demo_revision ascii_lowercase demo_now demo_update
    (demo_knowledge crash_faults) (Err (KUpload UploadLock)) after_crash after_overwrite demo_edited no_uploads
    demo_revision_inj (demo_kinv _) eq_refl crash_run crash_local crash_new crash_history) as (h3 & rep & u4 & H1 & _ & H2 & H3).
  - split; [vm_compute; reflexivity|split; vm_compute; reflexivity|vm_compute; reflexivity|vm_compute; reflexivity|].
    vm_compute. discriminate.
  - vm_compute. reflexivity.
  - reflexivity.
  - exists h3, rep, u4. auto.
Defined.

(** Without faults the update succeeds; a second one with the old revision is
    refused. *)
Lemma update_is_compare_and_set_witness :
  claim_files (demo_run []).2 !! "claim_0000000a" = Some (Stored demo_edited) ∧
  claim_files (update_claim "a" ascii_lowercase demo_revision demo_now demo_update (demo_run []).2).2 =
    claim_files (demo_run []).2 ∧
  (effective_updated_at demo_claim < effective_updated_at demo_edited)%Z.
Proof.
  assert (demo_run [] = ((demo_run []).1, (demo_run []).2)) as Hr by (vm_compute; reflexivity).
  destruct (update_is_compare_and_set "a" ascii_lowercase demo_revision demo_revision_inj _ _ _ _ _ (demo_kinv []) Hr)
    as [[_ H]|(cur & Hc & Hid & _ & Hrev & Hf & Hlt & _)].
  { exfalso. eapply H. vm_compute. reflexivity. }
  specialize (Hrev demo_claim eq_refl). subst cur.
  split; [rewrite Hf; vm_compute; reflexivity|]. split; [vm_compute; reflexivity|]. exact Hlt.
Defined.

Definition demo_listing : list Claim :=
  [demo_claim; set_updated_at 300 (demo_version "claim_0000000b" ClaimDeprecated 200); demo_version "claim_0000000c" ClaimActive 400].

Lemma pages_deliver_all_witness :
  read_pages id demo_listing None false 1 4 0 =
    Some (ClaimSummary_from_claim <$> listed_claims id demo_listing None false) ∧
  claim_id <$> listed_claims id demo_listing None false = ["claim_0000000c"; "claim_0000000a"].
Proof.
  split; [|vm_compute; reflexivity].
  apply (pages_deliver_all id demo_listing None false 1); [lia|]. vm_compute. repeat (constructor; [set_solver|]). constructor.
Defined.
