(* ===== verification/Prepare.v ===== *)
(** * Is a plan for the claims still up to date?
    (src/src/agent/claim_alignment.rs)

    A change of several claims is planned from a snapshot of them, and may be
    carried out after a crash.  The plan is compared with the claims as they
    are now: what the plan has written counts as expected, anything else that
    differs from the snapshot makes the plan stale. *)

From S2P Require Import Prelude Storage Claim UploadQueue UploadProofs.
Import Ids.

(** A target found written, although its progress was not saved. *)
Definition observe_applied (targets current applied : list Claim) : list Claim :=
  fold_left (λ acc t,
    if negb (existsb (λ c, bool_decide (claim_id c = claim_id t)) acc) && bool_decide (t ∈ current)
    then acc ++ [t] else acc) targets applied.

Record ClaimChange := {
  cc_id : ClaimId;
  cc_before : option Claim;
  cc_current : option Claim;
  cc_changed_fields : list string;
}.

(** The fields whose JSON differs, or ["existence"]. *)
Definition changed_fields (before current : option Claim) : list string :=
  match before, current with
  | Some b, Some c =>
      omap (λ '(name, same), if (same : bool) then None else Some name)
        [("name", bool_decide (claim_name b = claim_name c));
         ("statement", bool_decide (claim_statement b = claim_statement c));
         ("scope", bool_decide (claim_scope b = claim_scope c));
         ("holder", bool_decide (claim_holder b = claim_holder c));
         ("confidence", bool_decide (claim_confidence b = claim_confidence c));
         ("status", bool_decide (claim_status b = claim_status c));
         ("created_at", bool_decide (claim_created_at b = claim_created_at c));
         ("updated_at", bool_decide (claim_updated_at b = claim_updated_at c));
         ("source_claim_ids", bool_decide (claim_source_claim_ids b = claim_source_claim_ids c));
         ("evidence_summary", bool_decide (claim_evidence_summary b = claim_evidence_summary c))]
  | _, _ => ["existence"]
  end.

(** What each claim of the plan should be now; [None]: it should not exist. *)
Definition expected_claims (analysis : option (list Claim)) (targets applied : list Claim) :
    gmap string (option Claim) :=
  let base := fold_left (λ m c, <[claim_id c := Some c]> m) (default [] analysis) ∅ in
  let with_targets := fold_left (λ m t, if decide (is_Some (m !! claim_id t)) then m else <[claim_id t := None]> m)
    targets base in
  fold_left (λ m c, if bool_decide (c ∈ targets) then <[claim_id c := Some c]> m else m) applied with_targets.

Definition id_cmp : string * option Claim → string * option Claim → comparison := cmp_on fst String.compare.

Definition changes (analysis : option (list Claim)) (targets applied current : list Claim) : list ClaimChange :=
  let now := by_key claim_id current in
  omap (λ '(id, before),
    let actual := now !! id in
    if bool_decide (actual = before) then None
    else Some {| cc_id := id; cc_before := before; cc_current := actual;
                 cc_changed_fields := changed_fields before actual |})
    (sort_by id_cmp (map_to_list (expected_claims analysis targets applied))).

Definition analysis_is_stale (analysis : option (list Claim)) (differences : list ClaimChange) : bool :=
  negb (bool_decide (is_Some analysis)) || negb (match differences with [] => true | _ => false end).

(** ** What it decides *)

#[export] Instance id_cmp_total : TotalCmp id_cmp.
Proof. apply _. Qed.

Lemma no_changes analysis targets applied current :
  changes analysis targets applied current = [] ↔
  ∀ id before, expected_claims analysis targets applied !! id = Some before → by_key claim_id current !! id = before.
Proof.
  unfold changes. split.
  - intros Hnil id before Hid. destruct (decide (by_key claim_id current !! id = before)) as [|Hne]; [done|].
    assert ((id, before) ∈ sort_by id_cmp (map_to_list (expected_claims analysis targets applied))) as Hin.
    { apply elem_of_sort_by. by apply elem_of_map_to_list. }
    match type of Hnil with ?l = [] => assert (∃ x, x ∈ l) as [x Hx] end; [|rewrite Hnil in Hx; by apply not_elem_of_nil in Hx].
    eexists. apply list_elem_of_omap. exists (id, before). split; [done|]. by rewrite bool_decide_eq_false_2.
  - intros H. apply elem_of_nil_inv. intros x ([id before] & Hin & Hx)%list_elem_of_omap.
    apply elem_of_sort_by in Hin. apply elem_of_map_to_list in Hin.
    rewrite bool_decide_eq_true_2 in Hx; [done|]. by apply H.
Qed.

Lemma not_stale analysis targets applied current :
  analysis_is_stale analysis (changes analysis targets applied current) = false ↔
  is_Some analysis ∧ ∀ id before, expected_claims analysis targets applied !! id = Some before →
    by_key claim_id current !! id = before.
Proof.
  rewrite <-no_changes. unfold analysis_is_stale. rewrite orb_false_iff, !negb_false_iff, bool_decide_eq_true.
  split; intros [? H]; (split; [done|]); [by destruct (changes _ _ _ _)|by rewrite H].
Qed.

(** The plan's own writes are expected, whatever order they came in. *)
Lemma expected_applied analysis targets applied c : c ∈ applied → c ∈ targets → NoDup (claim_id <$> applied) →
  expected_claims analysis targets applied !! claim_id c = Some (Some c).
Proof.
  unfold expected_claims. generalize (fold_left (λ m t, if decide (is_Some (m !! claim_id t)) then m else <[claim_id t := None]> m)
    targets (fold_left (λ (m : gmap string (option Claim)) c, <[claim_id c := Some c]> m) (default [] analysis) ∅)).
  induction applied as [|a l IH]; intros m Hin Ht Hnd; [by apply not_elem_of_nil in Hin|]. simpl.
  apply NoDup_cons in Hnd as [Ha Hnd]. apply elem_of_cons in Hin as [<-|Hin]; [|by apply IH].
  rewrite bool_decide_eq_true_2 by done. clear IH.
  assert (<[claim_id c := Some c]> m !! claim_id c = Some (Some c)) as Hm by apply lookup_insert_eq.
  revert Hm. generalize (<[claim_id c := Some c]> m). induction l as [|b l IH]; intros m' Hm'; simpl; [done|].
  simpl in Ha. apply not_elem_of_cons in Ha as [Hne Ha]. apply NoDup_cons in Hnd as [_ Hnd].
  apply IH; [done..|]. case_bool_decide; [|done]. rewrite lookup_insert_ne by congruence. done.
Qed.

(** * From the model's answer to claims and disputes
    (src/src/agent/prepare.rs, src/src/agent/inbox.rs)

    The language model answers with drafts: new claims, new versions of the
    agent's claims, disputes.  Before anything is written each draft is
    checked against what the model was shown; one bad draft refuses the whole
    answer.  The answer itself, the JSON with its placeholders resolved, is
    given. *)

Record ClaimDraft := {
  cdr_id : string;
  cdr_name : string;
  cdr_statement : string;
  cdr_scope : string;
  cdr_confidence : Confidence;
  cdr_status : option string;
  cdr_evidence_summary : string;
  cdr_source_claim_ids : list string;
}.

Record DisputeDraft := {
  ddr_id : string;
  ddr_name : string;
  ddr_claims : list string;
  ddr_summary : string;
}.

Record InternalizeOutcome := {
  io_new_claims : list ClaimDraft;
  io_updated_claims : list ClaimDraft;
  io_new_disputes : list DisputeDraft;
}.

Inductive PrepareError :=
| BadDraftId (field : string) (id : string)
| BadSource (field : string) (raw : string)
| PolicyNotVisible (field : string) (raw : string)
| SelfSource (field : string) (raw : string)
| SourceNotVisible (field : string) (raw : string)
| NotALocalClaim (id : ClaimId)
| RepeatedUpdate (id : ClaimId)
| MissingStatus (id : ClaimId)
| InvalidStatus (raw : string)
| RepeatedDisputeClaim
| TooFewDisputeClaims
| DisputeClaimNotVisible
| DisputeOnDeprecated (id : DisputeId)
| MissingPolicySource (field : string).

Definition push_source_id_once (sources : list SourceId) (source : SourceId) : list SourceId :=
  if bool_decide (source ∈ sources) then sources else sources ++ [source].

(** The loops over [source_claim_ids] of [prepare_claims] and
    [prepare_claim_updates]. *)
Fixpoint prepare_sources (field : string) (id : ClaimId) (allowed : option (gset ClaimId))
    (raws : list string) (sources : list SourceId) : Result PrepareError (list SourceId) :=
  match raws with
  | [] => Ok sources
  | raw :: raws' =>
      match SourceId_from_str raw with
      | Err _ => Err (BadSource field raw)
      | Ok s =>
          if bool_decide (s = SourceClaim id) then Err (SelfSource field raw)
          else
            if match allowed, s with
               | Some visible, SourceClaim c => bool_decide (c ∈ visible)
               | _, _ => true
               end
            then prepare_sources field id allowed raws' (push_source_id_once sources s)
            else Err (SourceNotVisible field raw)
      end
  end.

Definition check_policy_source (field : string) (allowed_policy_ids : gset PolicyId) (raw : string) :
    Result PrepareError unit :=
  match SourceId_from_str raw with
  | Err _ => Err (BadSource field raw)
  | Ok (SourceClaim _) => Ok tt
  | Ok (SourcePolicy p) => if bool_decide (p ∈ allowed_policy_ids) then Ok tt else Err (PolicyNotVisible field raw)
  end.

Fixpoint check_all {A} (f : A → Result PrepareError unit) (l : list A) : Result PrepareError unit :=
  match l with
  | [] => Ok tt
  | a :: l' => _ ← f a; check_all f l'
  end.

Definition validate_visible_policy_sources (field : string) (drafts : list ClaimDraft)
    (allowed_policy_ids : gset PolicyId) : Result PrepareError unit :=
  check_all (λ d, check_all (check_policy_source field allowed_policy_ids) (cdr_source_claim_ids d)) drafts.

Fixpoint prepare_claims (drafts : list ClaimDraft) (allowed : option (gset ClaimId)) (holder : AgentId)
    (now : DateTime) : Result PrepareError (list Claim) :=
  match drafts with
  | [] => Ok []
  | draft :: drafts' =>
      match ClaimId_from_str (cdr_id draft) with
      | Err _ => Err (BadDraftId "new_claims" (cdr_id draft))
      | Ok id =>
          sources ← prepare_sources "new_claims" id allowed (cdr_source_claim_ids draft) [];
          rest ← prepare_claims drafts' allowed holder now;
          Ok ({| claim_id := id; claim_name := cdr_name draft; claim_statement := cdr_statement draft;
                 claim_scope := cdr_scope draft; claim_holder := holder;
                 claim_confidence := cdr_confidence draft; claim_status := ClaimActive;
                 claim_created_at := Clock.truncate_to_second now; claim_updated_at := None;
                 claim_source_claim_ids := sources; claim_evidence_summary := cdr_evidence_summary draft |}
              :: rest)
      end
  end.

(** The ids of the new claims, before they are prepared. *)
Fixpoint check_new_ids (drafts : list ClaimDraft) : Result PrepareError (list ClaimId) :=
  match drafts with
  | [] => Ok []
  | d :: drafts' =>
      match ClaimId_from_str (cdr_id d) with
      | Err _ => Err (BadDraftId "new_claims" (cdr_id d))
      | Ok id => rest ← check_new_ids drafts'; Ok (id :: rest)
      end
  end.

Definition parse_status (raw : string) : Result PrepareError ClaimStatus :=
  if bool_decide (raw = "active") then Ok ClaimActive
  else if bool_decide (raw = "stale") then Ok ClaimStale
  else if bool_decide (raw = "deprecated") then Ok ClaimDeprecated
  else Err (InvalidStatus raw).

Fixpoint prepare_claim_updates (drafts : list ClaimDraft) (local_by_id : gmap ClaimId Claim)
    (allowed : option (gset ClaimId)) (now : DateTime) (seen_ids : gset ClaimId) :
    Result PrepareError (list Claim) :=
  match drafts with
  | [] => Ok []
  | draft :: drafts' =>
      match ClaimId_from_str (cdr_id draft) with
      | Err _ => Err (BadDraftId "updated_claims" (cdr_id draft))
      | Ok id =>
          match local_by_id !! id with
          | None => Err (NotALocalClaim id)
          | Some existing =>
              if bool_decide (id ∈ seen_ids) then Err (RepeatedUpdate id)
              else
                match cdr_status draft with
                | None => Err (MissingStatus id)
                | Some status_raw =>
                    status ← parse_status status_raw;
                    sources ← prepare_sources "updated_claims" id allowed (cdr_source_claim_ids draft) [];
                    rest ← prepare_claim_updates drafts' local_by_id allowed now ({[id]} ∪ seen_ids);
                    Ok ({| claim_id := id; claim_name := cdr_name draft; claim_statement := cdr_statement draft;
                           claim_scope := cdr_scope draft; claim_holder := claim_holder existing;
                           claim_confidence := cdr_confidence draft; claim_status := status;
                           claim_created_at := claim_created_at existing;
                           claim_updated_at :=
                             Some (Clock.next_claim_update_at now (effective_updated_at existing));
                           claim_source_claim_ids := sources;
                           claim_evidence_summary := cdr_evidence_summary draft |} :: rest)
                end
          end
      end
  end.

Fixpoint parse_claim_ids (raws : list string) : Result PrepareError (list ClaimId) :=
  match raws with
  | [] => Ok []
  | raw :: raws' =>
      match ClaimId_from_str raw with
      | Err _ => Err (BadDraftId "new_disputes.claims" raw)
      | Ok id => rest ← parse_claim_ids raws'; Ok (id :: rest)
      end
  end.

Fixpoint prepare_disputes (drafts : list DisputeDraft) (allowed : option (gset ClaimId))
    (reporter_agent_id : AgentId) (now : DateTime) : Result PrepareError (list Dispute) :=
  match drafts with
  | [] => Ok []
  | d :: drafts' =>
      parsed ← parse_claim_ids (ddr_claims d);
      if negb (bool_decide (NoDup parsed)) then Err RepeatedDisputeClaim
      else if bool_decide (length parsed < 2) then Err TooFewDisputeClaims
      else if match allowed with
              | Some visible => negb (forallb (λ id, bool_decide (id ∈ visible)) parsed)
              | None => false
              end then Err DisputeClaimNotVisible
      else
        match prefixed_from_str dispute_prefix (ddr_id d) with
        | Err _ => Err (BadDraftId "new_disputes" (ddr_id d))
        | Ok id =>
            rest ← prepare_disputes drafts' allowed reporter_agent_id now;
            Ok ({| dispute_id := id; dispute_name := ddr_name d; dispute_reporter_agent_id := reporter_agent_id;
                   dispute_claims := parsed; dispute_summary := ddr_summary d; dispute_status := DisputeOpen;
                   dispute_created_at := Clock.truncate_to_second now; dispute_resolved_at := None |} :: rest)
        end
  end.

(** The status of each claim once the batch is done. *)
Definition final_statuses (existing : gmap ClaimId Claim) (written : list Claim) : gmap ClaimId ClaimStatus :=
  fold_left (λ m c, <[claim_id c := claim_status c]> m) written (claim_status <$> existing).

Definition validate_new_disputes_against_final_claim_status (existing : gmap ClaimId Claim)
    (new_claims updated_claims : list Claim) (new_disputes : list Dispute) : Result PrepareError unit :=
  let statuses := final_statuses existing (new_claims ++ updated_claims) in
  check_all (λ d,
    if existsb (λ id, bool_decide (statuses !! id = Some ClaimDeprecated)) (dispute_claims d)
    then Err (DisputeOnDeprecated (dispute_id d)) else Ok tt) new_disputes.

(** A claim that comes of an update of claim attributes names a policy of the
    batch; a single one is filled in. *)
Definition missing_cau_policy_source (field : string) (sources : list string) (batch : gset PolicyId) :
    Result PrepareError (option PolicyId) :=
  if existsb (λ s, bool_decide (s ∈ batch)) sources then Ok None
  else match elements batch with
       | [id] => Ok (Some id)
       | _ => Err (MissingPolicySource field)
       end.

Definition add_source (id : PolicyId) (d : ClaimDraft) : ClaimDraft :=
  {| cdr_id := cdr_id d; cdr_name := cdr_name d; cdr_statement := cdr_statement d; cdr_scope := cdr_scope d;
     cdr_confidence := cdr_confidence d; cdr_status := cdr_status d;
     cdr_evidence_summary := cdr_evidence_summary d;
     cdr_source_claim_ids := cdr_source_claim_ids d ++ [id] |}.

Fixpoint provenance (field : string) (drafts : list ClaimDraft) (batch : gset PolicyId) :
    Result PrepareError (list ClaimDraft) :=
  match drafts with
  | [] => Ok []
  | d :: drafts' =>
      missing ← missing_cau_policy_source field (cdr_source_claim_ids d) batch;
      rest ← provenance field drafts' batch;
      Ok (match missing with Some id => add_source id d | None => d end :: rest)
  end.

Definition ensure_cau_policy_provenance (outcome : InternalizeOutcome) (batch : gset PolicyId) :
    Result PrepareError InternalizeOutcome :=
  new_claims ← provenance "new_claims" (io_new_claims outcome) batch;
  updated_claims ← provenance "updated_claims" (io_updated_claims outcome) batch;
  Ok {| io_new_claims := new_claims; io_updated_claims := updated_claims;
        io_new_disputes := io_new_disputes outcome |}.
