(* ===== verification/InboxEffect.v ===== *)
(** * Applying inbox messages to the claims (src/src/agent/inbox.rs)

    What a batch of claim-attribute messages makes of the agent's claims is
    planned once and journalled before anything is written; the plan is then
    carried out claim by claim, and its progress journalled, so that a run
    that is cut short is resumed and not planned again.  All of it happens
    under the knowledge lock. *)

From stdpp Require Import pretty.
From S2P Require Import Prelude Storage Claim UploadQueue UploadProofs Knowledge Prepare.
Import Ids.

Definition INBOX_EFFECT_SCHEMA_VERSION : Z := 1.

Definition STALE_PLAN_WARNING : string :=
  "恢复时 Claim 已变化或缺少分析快照，已放弃本批尚未执行的 Claim 修改及 Dispute；已执行结果保留。".

Definition reported_warning (id : DisputeId) : string :=
  ("dispute=" +:+ id +:+ " 的 claim-set 已报告，未再次上报")%string.
Definition repeated_warning (id : DisputeId) : string :=
  ("dispute=" +:+ id +:+ " 的 claim-set 在当前 CAU 中重复，未再次上报")%string.

(** [plan.new_claims] chained with the targets of [plan.updated_claims]. *)
Definition plan_targets (p : InboxEffectPlan) : list Claim :=
  ep_new_claims p ++ (pcu_target <$> ep_updated_claims p).

Definition has_applied (applied : list Claim) (t : Claim) : bool :=
  existsb (λ a, bool_decide (claim_id a = claim_id t)) applied.

Definition with_applied (applied : list Claim) (p : InboxEffectPlan) : InboxEffectPlan :=
  {| ep_schema_version := ep_schema_version p; ep_inbox_id := ep_inbox_id p;
     ep_resolution_id := ep_resolution_id p; ep_message_hash := ep_message_hash p;
     ep_batch_members := ep_batch_members p; ep_batch_hash := ep_batch_hash p;
     ep_analysis_claims := ep_analysis_claims p; ep_applied_claims := applied; ep_state := ep_state p;
     ep_prepared_at := ep_prepared_at p; ep_new_claims := ep_new_claims p;
     ep_updated_claims := ep_updated_claims p; ep_deprecated_claim_ids := ep_deprecated_claim_ids p;
     ep_new_disputes := ep_new_disputes p; ep_trace := ep_trace p; ep_warnings := ep_warnings p |}.

Definition with_state (st : InboxEffectState) (p : InboxEffectPlan) : InboxEffectPlan :=
  {| ep_schema_version := ep_schema_version p; ep_inbox_id := ep_inbox_id p;
     ep_resolution_id := ep_resolution_id p; ep_message_hash := ep_message_hash p;
     ep_batch_members := ep_batch_members p; ep_batch_hash := ep_batch_hash p;
     ep_analysis_claims := ep_analysis_claims p; ep_applied_claims := ep_applied_claims p; ep_state := st;
     ep_prepared_at := ep_prepared_at p; ep_new_claims := ep_new_claims p;
     ep_updated_claims := ep_updated_claims p; ep_deprecated_claim_ids := ep_deprecated_claim_ids p;
     ep_new_disputes := ep_new_disputes p; ep_trace := ep_trace p; ep_warnings := ep_warnings p |}.

(** The disputes that are left, and the warnings about the others. *)
Definition with_disputes (disputes : list Dispute) (warnings : list string) (p : InboxEffectPlan) : InboxEffectPlan :=
  {| ep_schema_version := ep_schema_version p; ep_inbox_id := ep_inbox_id p;
     ep_resolution_id := ep_resolution_id p; ep_message_hash := ep_message_hash p;
     ep_batch_members := ep_batch_members p; ep_batch_hash := ep_batch_hash p;
     ep_analysis_claims := ep_analysis_claims p; ep_applied_claims := ep_applied_claims p; ep_state := ep_state p;
     ep_prepared_at := ep_prepared_at p; ep_new_claims := ep_new_claims p;
     ep_updated_claims := ep_updated_claims p; ep_deprecated_claim_ids := ep_deprecated_claim_ids p;
     ep_new_disputes := disputes; ep_trace := ep_trace p; ep_warnings := warnings |}.

Definition with_trace (t : option Trace) (p : InboxEffectPlan) : InboxEffectPlan :=
  {| ep_schema_version := ep_schema_version p; ep_inbox_id := ep_inbox_id p;
     ep_resolution_id := ep_resolution_id p; ep_message_hash := ep_message_hash p;
     ep_batch_members := ep_batch_members p; ep_batch_hash := ep_batch_hash p;
     ep_analysis_claims := ep_analysis_claims p; ep_applied_claims := ep_applied_claims p; ep_state := ep_state p;
     ep_prepared_at := ep_prepared_at p; ep_new_claims := ep_new_claims p;
     ep_updated_claims := ep_updated_claims p; ep_deprecated_claim_ids := ep_deprecated_claim_ids p;
     ep_new_disputes := ep_new_disputes p; ep_trace := t; ep_warnings := ep_warnings p |}.

(** What is left of a plan that went stale: what it has written. *)
Definition discarded (current : list Claim) (p : InboxEffectPlan) : InboxEffectPlan :=
  let applied := ep_applied_claims p in
  let warn := negb (forallb (has_applied applied) (plan_targets p)) || negb (bool_decide (ep_new_disputes p = [])) in
  {| ep_schema_version := ep_schema_version p; ep_inbox_id := ep_inbox_id p;
     ep_resolution_id := ep_resolution_id p; ep_message_hash := ep_message_hash p;
     ep_batch_members := ep_batch_members p; ep_batch_hash := ep_batch_hash p;
     ep_analysis_claims := Some current; ep_applied_claims := applied; ep_state := ep_state p;
     ep_prepared_at := ep_prepared_at p; ep_new_claims := []; ep_updated_claims := [];
     ep_deprecated_claim_ids := claim_id <$> filter (λ c, is_deprecated c = true) applied;
     ep_new_disputes := []; ep_trace := if bool_decide (applied = []) then None else ep_trace p;
     ep_warnings := if warn then ep_warnings p ++ [STALE_PLAN_WARNING] else ep_warnings p |}.

Definition set_outputs (ids : list ClaimId) (t : Trace) : Trace :=
  {| trace_id := trace_id t; trace_name := trace_name t; trace_task := trace_task t;
     trace_agent := trace_agent t; trace_input_claims := trace_input_claims t;
     trace_output_claims := ids; trace_created_at := trace_created_at t |}.

(** ** Journal files *)

Definition read_inbox_effect_record (inbox_id : InboxId) : KM (option InboxEffectRecord) :=
  r ← m_try (read_yaml effects_dir inbox_id);
  match r with
  | Ok record => mret (Some record)
  | Err (KStorage FileNotFound) => mret None
  | Err e => fail e
  end.

Definition write_plan (p : InboxEffectPlan) : KM unit :=
  write_yaml_atomic effects_dir (ep_inbox_id p) (EffectPlan p).

Definition effect_plan_members (p : InboxEffectPlan) : list InboxEffectMember :=
  match ep_batch_members p with
  | [] => [{| iem_inbox_id := ep_inbox_id p; iem_resolution_id := ep_resolution_id p;
              iem_message_hash := ep_message_hash p |}]
  | ms => ms
  end.

(** Every other member of the batch refers to the plan. *)
Fixpoint repair_refs_loop (canonical : InboxId) (batch_hash : string) (members : list InboxEffectMember) : KM unit :=
  match members with
  | [] => mret tt
  | m :: members' =>
      let expected := EffectRef {| er_schema_version := INBOX_EFFECT_SCHEMA_VERSION;
        er_canonical_inbox_id := canonical; er_batch_hash := batch_hash |} in
      existing ← read_inbox_effect_record (iem_inbox_id m);
      _ ← match existing with
          | Some e => if bool_decide (e = expected) then mret tt
                      else fail (KEffect "different batch plan" (iem_inbox_id m))
          | None => write_yaml_atomic effects_dir (iem_inbox_id m) expected
          end;
      repair_refs_loop canonical batch_hash members'
  end.

Definition repair_claim_attribute_update_refs (p : InboxEffectPlan) : KM unit :=
  match ep_batch_hash p with
  | None => mret tt
  | Some h => repair_refs_loop (ep_inbox_id p) h (tail (effect_plan_members p))
  end.

Definition persist_prepared_claim_attribute_update_plan (p : InboxEffectPlan) : KM unit :=
  _ ← write_plan p; repair_claim_attribute_update_refs p.

(** ** Carrying out a plan *)

Definition discard_stale_inbox_plan (p : InboxEffectPlan) : KM InboxEffectPlan :=
  current ← list_claims_local;
  let targets := plan_targets p in
  let p := with_applied (observe_applied targets current (ep_applied_claims p)) p in
  let differences := changes (ep_analysis_claims p) targets (ep_applied_claims p) current in
  if negb (analysis_is_stale (ep_analysis_claims p) differences) then mret p
  else
    let p := discarded current p in
    _ ← write_plan p; mret p.

(** Disputes over a set of claims already reported, or twice in the plan. *)
Fixpoint unreported_disputes (disputes : list Dispute) (accepted : gset string) (warnings : list string) :
    KM (list Dispute * list string) :=
  match disputes with
  | [] => mret ([], warnings)
  | d :: disputes' =>
      reported ← dispute_claim_set_reported d;
      if (reported : bool)
      then unreported_disputes disputes' accepted (warnings ++ [reported_warning (dispute_id d)])
      else
        let key := reported_dispute_claim_set_key (dispute_claims d) in
        if bool_decide (key ∈ accepted)
        then unreported_disputes disputes' accepted (warnings ++ [repeated_warning (dispute_id d)])
        else
          rest ← unreported_disputes disputes' ({[key]} ∪ accepted) warnings;
          mret (d :: rest.1, rest.2)
  end.

(** Targets that deprecate a claim come last. *)
Definition write_order (targets : list Claim) : list Claim :=
  filter (λ t, is_deprecated t = false) targets ++ filter (λ t, is_deprecated t = true) targets.

Fixpoint write_targets (targets : list Claim) (p : InboxEffectPlan) : KM InboxEffectPlan :=
  match targets with
  | [] => mret p
  | t :: targets' =>
      if has_applied (ep_applied_claims p) t then write_targets targets' p
      else
        _ ← write_claim t;
        let p := with_applied (ep_applied_claims p ++ [t]) p in
        _ ← write_plan p;
        write_targets targets' p
  end.

Definition write_plan_trace (t : Trace) : KM unit :=
  r ← m_try (read_yaml traces_dir (trace_id t));
  match r with
  | Ok existing => if bool_decide (existing = t) then mret tt else fail (KTraceConflict (trace_id t))
  | Err (KStorage FileNotFound) => write_yaml_atomic traces_dir (trace_id t) t
  | Err e => fail e
  end.

(** [warnings.sort(); warnings.dedup()] *)
Definition tidy_warnings (p : InboxEffectPlan) : InboxEffectPlan :=
  with_disputes (ep_new_disputes p) (dedup_runs (sort_by String.compare (ep_warnings p))) p.

Definition apply_claim_attribute_update_effect (p : InboxEffectPlan) : KM (InboxEffectPlan * (list Claim * list Dispute)) :=
  team ← team_services_configured;
  p ← (if (team : bool)
       then dw ← unreported_disputes (ep_new_disputes p) ∅ (ep_warnings p); mret (with_disputes dw.1 dw.2 p)
       else mret p);
  current ← list_claims_local;
  let targets := plan_targets p in
  let differences := changes (ep_analysis_claims p) targets (ep_applied_claims p) current in
  if negb (forallb (has_applied (ep_applied_claims p)) targets
           || negb (analysis_is_stale (ep_analysis_claims p) differences))
  then fail KStalePlan
  else
    p ← write_targets (write_order targets) p;
    latest ← list_claims_local;
    let claims_to_upload := filter (λ c, c ∈ latest) (ep_applied_claims p) in
    let p := with_trace (set_outputs (claim_id <$> ep_applied_claims p) <$> ep_trace p) p in
    _ ← match ep_trace p with Some t => write_plan_trace t | None => mret tt end;
    mret (tidy_warnings p, (claims_to_upload, ep_new_disputes p)).

Fixpoint record_disputes (now : DateTime) (disputes : list Dispute) : KM unit :=
  match disputes with
  | [] => mret tt
  | d :: disputes' => _ ← record_dispute_if_new now d; record_disputes now disputes'
  end.

Definition apply_persisted_claim_attribute_update_plan (now : DateTime) (p : InboxEffectPlan) : KM InboxEffectPlan :=
  _ ← repair_claim_attribute_update_refs p;
  if negb (bool_decide (ep_state p = EffectPrepared)) then mret p
  else
    p ← discard_stale_inbox_plan p;
    pu ← apply_claim_attribute_update_effect p;
    let '(p, (claims, disputes)) := pu in
    _ ← stage_maintainer_batch_with_durable_claims claims disputes;
    team ← team_services_configured;
    _ ← (if (team : bool) then record_disputes now disputes else mret tt);
    let p := with_state EffectApplied p in
    _ ← write_plan p;
    mret p.

(** ** Which plan a message belongs to *)

Section hashes.
Context (message_hash : InboxMessage → string).  (* inbox_effect_hash *)
Context (members_hash : list InboxEffectMember → string).
Context (claim_hash : Claim → string).

Definition cau_resolution_context (m : InboxMessage) : option ArbitrationResolutionContext :=
  match msg_kind m with ClaimAttributeUpdate _ r => r | PolicyUpdate _ => None end.

Definition member_of (m : InboxMessage) : InboxEffectMember :=
  {| iem_inbox_id := msg_id m; iem_resolution_id := (λ c, dr_resolution_id (arc_resolution c)) <$> cau_resolution_context m;
     iem_message_hash := message_hash m |}.

Fixpoint effect_members_loop (seen : gset InboxId) (messages : list InboxMessage) :
    Result KnowledgeError (list InboxEffectMember) :=
  match messages with
  | [] => Ok []
  | m :: messages' =>
      if bool_decide (msg_id m ∈ seen) then Err (KEffect "repeated message" (msg_id m))
      else rest ← effect_members_loop ({[msg_id m]} ∪ seen) messages'; Ok (member_of m :: rest)
  end.

Definition effect_members_from_messages := effect_members_loop ∅.

Definition validate_effect_plan_integrity (p : InboxEffectPlan) : Result KnowledgeError unit :=
  if negb (bool_decide (ep_schema_version p = INBOX_EFFECT_SCHEMA_VERSION))
  then Err (KEffect "schema" (ep_inbox_id p))
  else
    let members := effect_plan_members p in
    match members with
    | [] => Err (KEffect "empty batch" (ep_inbox_id p))
    | canonical :: _ =>
        if negb (bool_decide (iem_inbox_id canonical = ep_inbox_id p))
           || negb (bool_decide (iem_resolution_id canonical = ep_resolution_id p))
           || negb (bool_decide (iem_message_hash canonical = ep_message_hash p))
        then Err (KEffect "canonical member" (ep_inbox_id p))
        else if negb (bool_decide (NoDup (iem_inbox_id <$> members)))
        then Err (KEffect "repeated member" (ep_inbox_id p))
        else
          match ep_batch_hash p, ep_batch_members p with
          | None, [] => Ok tt
          | Some expected, _ :: _ =>
              if bool_decide (members_hash members = expected) then Ok tt
              else Err (KEffect "batch hash" (ep_inbox_id p))
          | _, _ => Err (KEffect "batch hash" (ep_inbox_id p))
          end
    end.

Definition validate_effect_ref (r : InboxEffectRef) (p : InboxEffectPlan) (m : InboxMessage) : Result KnowledgeError unit :=
  if negb (bool_decide (er_schema_version r = INBOX_EFFECT_SCHEMA_VERSION)) then Err (KEffect "ref schema" (msg_id m))
  else if negb (bool_decide (er_canonical_inbox_id r = ep_inbox_id p))
          || negb (bool_decide (ep_batch_hash p = Some (er_batch_hash r)))
  then Err (KEffect "ref" (msg_id m)) else Ok tt.

Definition validate_effect_plan_message_member (p : InboxEffectPlan) (m : InboxMessage) : Result KnowledgeError unit :=
  match list_find (λ x, iem_inbox_id x = msg_id m) (effect_plan_members p) with
  | None => Err (KEffect "not a member" (msg_id m))
  | Some (_, x) => if bool_decide (x = member_of m) then Ok tt else Err (KEffect "different payload" (msg_id m))
  end.

(** The plan that a journal record stands for, from the plans read so far. *)
Definition load_claim_attribute_update_effect_batch (m : InboxMessage) (record : InboxEffectRecord)
    (batches : gmap InboxId InboxEffectPlan) : KM (InboxId * gmap InboxId InboxEffectPlan) :=
  let canonical_id := match record with
    | EffectPlan p => ep_inbox_id p
    | EffectRef r => er_canonical_inbox_id r
    end in
  batch ← match batches !! canonical_id with
          | Some p => mret p
          | None =>
              plan ← match record with
                     | EffectPlan p => mret p
                     | EffectRef r =>
                         canonical ← read_inbox_effect_record (er_canonical_inbox_id r);
                         match canonical with
                         | Some (EffectPlan p) => mret p
                         | _ => fail (KEffect "ref without a plan" (msg_id m))
                         end
                     end;
              _ ← lift_result (validate_effect_plan_integrity plan);
              mret plan
          end;
  _ ← match record with
      | EffectPlan p => if bool_decide (p = batch) then mret tt else fail (KEffect "different batch plan" (msg_id m))
      | EffectRef r => lift_result (validate_effect_ref r batch m)
      end;
  _ ← lift_result (validate_effect_plan_message_member batch m);
  mret (canonical_id, <[canonical_id := batch]> batches).

(** ** Planning *)

(** [validate_arbitration_message] *)
Definition validate_arbitration_message (c : ArbitrationResolutionContext) : bool :=
  let direct := claim_id <$> arc_direct_claim_snapshots c in
  let disputed := dispute_claims (arc_dispute_snapshot c) in
  let assessed := ca_claim_id <$> dr_claim_assessments (arc_resolution c) in
  bool_decide (arc_dispute_id c = dispute_id (arc_dispute_snapshot c))
  && match dr_resolution_type (arc_resolution c) with Some k => is_resolved k | None => true end
  && negb (bool_decide (dr_resolution_basis (arc_resolution c) = Some InsufficientEvidence))
  && bool_decide (NoDup direct) && bool_decide (NoDup disputed)
  && bool_decide (list_to_set direct =@{gset ClaimId} list_to_set disputed)
  && (bool_decide (assessed = [])
      || bool_decide (NoDup assessed) && bool_decide (list_to_set assessed =@{gset ClaimId} list_to_set direct)).

Definition claim_semantics_equal (l r : Claim) : bool :=
  bool_decide (claim_id l = claim_id r) && bool_decide (claim_name l = claim_name r)
  && bool_decide (claim_statement l = claim_statement r) && bool_decide (claim_scope l = claim_scope r)
  && bool_decide (claim_holder l = claim_holder r) && bool_decide (claim_confidence l = claim_confidence r)
  && bool_decide (claim_status l = claim_status r)
  && bool_decide (claim_evidence_summary l = claim_evidence_summary r)
  && forallb (λ s, bool_decide (s ∈ claim_source_claim_ids r)) (claim_source_claim_ids l)
  && forallb (λ s, bool_decide (s ∈ claim_source_claim_ids l)) (claim_source_claim_ids r).

(** A dispute over the claims of a resolved one, whose claims still say what
    they said then. *)
Definition repeats_resolved_arbitration_input (candidate : Dispute) (c : ArbitrationResolutionContext)
    (editable_local updates : gmap ClaimId Claim) : bool :=
  bool_decide (NoDup (dispute_claims candidate))
  && bool_decide (NoDup (dispute_claims (arc_dispute_snapshot c)))
  && bool_decide (list_to_set (dispute_claims candidate) =@{gset ClaimId}
                  list_to_set (dispute_claims (arc_dispute_snapshot c)))
  && forallb (λ snapshot,
       match updates !! claim_id snapshot with
       | Some now => claim_semantics_equal now snapshot
       | None =>
           match editable_local !! claim_id snapshot with
           | Some now => claim_semantics_equal now snapshot
           | None => true
           end
       end)
     (filter (λ s, is_Some (editable_local !! claim_id s)) (arc_direct_claim_snapshots c)).

Definition inbox_policy_ids (messages : list InboxMessage) : list PolicyId :=
  fold_left (λ out m, if bool_decide (msg_policy_id m ∈ out) then out else out ++ [msg_policy_id m]) messages [].

Definition direct_claims (messages : list InboxMessage) : list Claim :=
  omap cau_resolution_context messages ≫= arc_direct_claim_snapshots.

Section planning.
Context (agent_id : AgentId).
(** What the language model answers, after its placeholders are resolved. *)
Context (generate : list InboxMessage → list Claim → DateTime * InternalizeOutcome).
Context (trace_id_for : DateTime → string → list SourceId → list ClaimId → TraceId).  (* TraceId::from_trace_parts *)

Fixpoint editable_claims (direct_ids seen : gset ClaimId) (claims : list Claim) : Result KnowledgeError (list Claim) :=
  match claims with
  | [] => Ok []
  | c :: claims' =>
      if negb (bool_decide (claim_holder c = agent_id)) then Err (KNotOwned (claim_id c))
      else if bool_decide (claim_id c ∈ seen) then Err (KEffect "repeated local claim" (claim_id c))
      else
        rest ← editable_claims direct_ids ({[claim_id c]} ∪ seen) claims';
        Ok (if negb (is_deprecated c) || bool_decide (claim_id c ∈ direct_ids) then c :: rest else rest)
  end.

Definition claim_sources (l : list Claim) : list SourceId := l ≫= claim_source_claim_ids.
Definition source_claims (l : list SourceId) : list ClaimId :=
  omap (λ s, match s with SourceClaim c => Some c | SourcePolicy _ => None end) l.
Definition source_policies (l : list SourceId) : list PolicyId :=
  omap (λ s, match s with SourcePolicy p => Some p | SourceClaim _ => None end) l.

(** The validator of the model's answer. *)
Definition prepare_answer (messages : list InboxMessage) (local : list Claim) (now : DateTime)
    (answer : InternalizeOutcome) : Result PrepareError (list Claim * list Claim * list Dispute) :=
  let local_by_id := by_key claim_id local in
  let shown := direct_claims messages ++ local in
  let batch : gset PolicyId := list_to_set (inbox_policy_ids messages) in
  let policies : gset PolicyId := batch ∪ list_to_set (source_policies (claim_sources shown)) in
  outcome ← ensure_cau_policy_provenance answer batch;
  _ ← validate_visible_policy_sources "new_claims" (io_new_claims outcome) policies;
  _ ← validate_visible_policy_sources "updated_claims" (io_updated_claims outcome) policies;
  new_ids ← check_new_ids (io_new_claims outcome);
  let sources : gset ClaimId :=
    list_to_set ((claim_id <$> shown) ++ source_claims (claim_sources shown) ++ new_ids) in
  let disputable : gset ClaimId := list_to_set ((claim_id <$> shown) ++ new_ids) in
  new_claims ← prepare_claims (io_new_claims outcome) (Some sources) agent_id now;
  updated_claims ← prepare_claim_updates (io_updated_claims outcome) local_by_id (Some sources) now ∅;
  _ ← (if forallb (λ c, bool_decide (claim_holder c = agent_id)) updated_claims then Ok tt
       else Err (NotALocalClaim EmptyString));
  new_disputes ← prepare_disputes (io_new_disputes outcome) (Some disputable) agent_id now;
  _ ← validate_new_disputes_against_final_claim_status
        (by_key claim_id (direct_claims messages ++ local)) new_claims updated_claims new_disputes;
  Ok (new_claims, updated_claims, new_disputes).

Definition sorted_source_ids (l : list SourceId) : list SourceId :=
  sort_by (cmp_on SourceId_as_str String.compare) (remove_dups l).

Definition plan_trace_task (messages : list InboxMessage) : string :=
  match messages with
  | [m] =>
      match cau_resolution_context m with
      | None => "内化 ClaimAttributeUpdate"
      | Some c => ("内化 ClaimAttributeUpdate resolution " +:+ dr_resolution_id (arc_resolution c))%string
      end
  | _ => ("批量内化 " +:+ pretty (length messages) +:+ " 条 ClaimAttributeUpdate")%string
  end.

Definition plan_trace (messages : list InboxMessage) (now : DateTime) (direct_ids : list ClaimId)
    (new_claims updates : list Claim) (new_disputes : list Dispute) : option Trace :=
  let outputs := claim_id <$> new_claims ++ updates in
  if bool_decide (outputs = []) && bool_decide (new_disputes = []) then None
  else
    let inputs := sorted_source_ids ((SourcePolicy <$> inbox_policy_ids messages) ++ (SourceClaim <$> direct_ids)
                                     ++ claim_sources (new_claims ++ updates)) in
    let name := "inbox_claim_attribute_update"%string in
    Some {| trace_id := trace_id_for now name inputs outputs; trace_name := name;
            trace_task := plan_trace_task messages; trace_agent := agent_id; trace_input_claims := inputs;
            trace_output_claims := outputs; trace_created_at := Clock.truncate_to_second now |}.

(** The updates that deprecate a claim, in order and once. *)
Definition newly_deprecated (local_by_id : gmap ClaimId Claim) (updates : list Claim) : list ClaimId :=
  dedup_runs (sort_by String.compare (claim_id <$> filter (λ t, is_deprecated t
    && match local_by_id !! claim_id t with Some c => negb (is_deprecated c) | None => false end = true) updates)).

Definition prepare_claim_attribute_update_effect (messages : list InboxMessage) : KM InboxEffectPlan :=
  members ← lift_result (effect_members_from_messages messages);
  match members with
  | [] => fail (KEffect "empty batch" EmptyString)
  | canonical :: _ =>
      all_local ← list_claims_local;
      let direct_ids := claim_id <$> direct_claims messages in
      editable ← lift_result (editable_claims (list_to_set direct_ids) ∅ all_local);
      let local := sort_by (cmp_on claim_id String.compare) editable in
      let local_by_id := by_key claim_id local in
      let '(now, answer) := generate messages local in
      prepared ← lift_result (map_err (λ _, KEffect "answer refused" (iem_inbox_id canonical))
        (prepare_answer messages local now answer));
      let '(new_claims, updates, disputes) := prepared in
      let new_disputes := filter (λ d, ¬ Exists (λ c,
        repeats_resolved_arbitration_input d c local_by_id (by_key claim_id updates) = true)
        (omap cau_resolution_context messages)) disputes in
      let '(batch_members, batch_hash) :=
        if bool_decide (length members = 1) then ([], None) else (members, Some (members_hash members)) in
      mret {| ep_schema_version := INBOX_EFFECT_SCHEMA_VERSION; ep_inbox_id := iem_inbox_id canonical;
              ep_resolution_id := iem_resolution_id canonical; ep_message_hash := iem_message_hash canonical;
              ep_batch_members := batch_members; ep_batch_hash := batch_hash;
              ep_analysis_claims := Some local; ep_applied_claims := []; ep_state := EffectPrepared;
              ep_prepared_at := now; ep_new_claims := new_claims;
              ep_updated_claims := (λ t, {| pcu_target := t;
                pcu_preimage_hash := from_option claim_hash EmptyString (local_by_id !! claim_id t) |}) <$> updates;
              ep_deprecated_claim_ids := newly_deprecated local_by_id updates;
              ep_new_disputes := new_disputes;
              ep_trace := plan_trace messages now (remove_dups direct_ids) new_claims updates new_disputes;
              ep_warnings := [] |}
  end.

(** ** A batch of messages *)

Record InternalizeSummary := {
  is_trace_id : option TraceId;
  is_new_claim_ids : list ClaimId;
  is_updated_claim_ids : list ClaimId;
  is_deprecated_claim_ids : list ClaimId;
  is_new_dispute_ids : list DisputeId;
  is_warnings : list string;
}.

Definition no_summary : InternalizeSummary :=
  {| is_trace_id := None; is_new_claim_ids := []; is_updated_claim_ids := []; is_deprecated_claim_ids := [];
     is_new_dispute_ids := []; is_warnings := [] |}.

Definition effect_summary (p : InboxEffectPlan) : InternalizeSummary :=
  let claims := fold_left (λ acc c, if has_applied acc c then acc else acc ++ [c])
    (ep_applied_claims p) (plan_targets p) in
  {| is_trace_id := trace_id <$> ep_trace p;
     is_new_claim_ids := claim_id <$> filter (λ c, claim_updated_at c = None) claims;
     is_updated_claim_ids := claim_id <$> filter (λ c, claim_updated_at c ≠ None) claims;
     is_deprecated_claim_ids := ep_deprecated_claim_ids p;
     is_new_dispute_ids := dispute_id <$> ep_new_disputes p;
     is_warnings := ep_warnings p |}.

(** The messages after this one that have no journal record yet. *)
Fixpoint take_unplanned (messages : list (InboxMessage * option InboxEffectRecord)) :
    KM (list InboxMessage * list (InboxMessage * option InboxEffectRecord)) :=
  match messages with
  | [] => mret ([], [])
  | (m, record) :: messages' =>
      record ← match record with
               | Some r => mret (Some r)
               | None => read_inbox_effect_record (msg_id m)
               end;
      match record with
      | Some r => mret ([], (m, Some r) :: messages')
      | None => rest ← take_unplanned messages'; mret (m :: rest.1, rest.2)
      end
  end.

(** The fuel is the number of messages: each round settles one at least. *)
Fixpoint internalize_loop (fuel : nat) (now : DateTime)
    (messages : list (InboxMessage * option InboxEffectRecord)) (batches : gmap InboxId InboxEffectPlan)
    (applied : gset InboxId) (summaries : list InternalizeSummary) : KM (list InternalizeSummary) :=
  match fuel, messages with
  | _, [] | O, _ => mret summaries
  | S fuel', (m, record) :: messages' =>
      record ← match record with
               | Some r => mret (Some r)
               | None => read_inbox_effect_record (msg_id m)
               end;
      match record with
      | Some r =>
          loaded ← load_claim_attribute_update_effect_batch m r batches;
          let '(canonical_id, batches) := loaded in
          if bool_decide (canonical_id ∈ applied)
          then internalize_loop fuel' now messages' batches applied summaries
          else
            match batches !! canonical_id with
            | None => fail (KEffect "batch cache" canonical_id)
            | Some plan =>
                p ← apply_persisted_claim_attribute_update_plan now plan;
                internalize_loop fuel' now messages' (<[canonical_id := p]> batches)
                  ({[canonical_id]} ∪ applied) (summaries ++ [effect_summary p])
            end
      | None =>
          split ← take_unplanned messages';
          let '(group, rest) := split in
          prepared ← prepare_claim_attribute_update_effect (m :: group);
          _ ← persist_prepared_claim_attribute_update_plan prepared;
          p ← apply_persisted_claim_attribute_update_plan now prepared;
          internalize_loop fuel' now rest batches applied (summaries ++ [effect_summary p])
      end
  end.

Fixpoint read_records (messages : list InboxMessage) : KM (list (InboxMessage * option InboxEffectRecord)) :=
  match messages with
  | [] => mret []
  | m :: messages' =>
      r ← read_inbox_effect_record (msg_id m);
      rest ← read_records messages';
      mret ((m, r) :: rest)
  end.

(** What is journalled already is checked before anything is done. *)
Fixpoint load_records (messages : list (InboxMessage * option InboxEffectRecord))
    (batches : gmap InboxId InboxEffectPlan) : KM (gmap InboxId InboxEffectPlan) :=
  match messages with
  | [] => mret batches
  | (_, None) :: messages' => load_records messages' batches
  | (m, Some r) :: messages' =>
      loaded ← load_claim_attribute_update_effect_batch m r batches;
      load_records messages' loaded.2
  end.

(** [internalize_claim_attribute_update_messages], up to the upload that
    follows it, once the journals of the batch are locked. *)
Definition internalize_claim_attribute_update_messages (now : DateTime) (messages : list InboxMessage) :
    KM (list InternalizeSummary) :=
  if bool_decide (messages = []) then mret []
  else if negb (forallb (λ m,
      match msg_kind m with
      | PolicyUpdate _ => false
      | ClaimAttributeUpdate _ r => match r with Some c => validate_arbitration_message c | None => true end
      end) messages)
  then fail (KEffect "invalid message" EmptyString)
  else
    _ ← lock_knowledge;
    _ ← ensure_knowledge_ready;
    records ← read_records messages;
    batches ← load_records records ∅;
    internalize_loop (length messages) now records batches ∅ [].
End planning.
End hashes.
