(* ===== verification/InboxEffectProofs.v ===== *)
(** * Plans are carried out on the claims they were made for *)

From S2P Require Import Prelude Storage Claim UploadQueue UploadProofs StepLogic UploadSafety UploadDelivery Knowledge Text MemorySafety ClaimEdit ClaimEditProofs Prepare InboxEffect.

(** Everything but the schedules and the journals. *)
Definition jcore (h : KnowledgeHome) :=
  (core (kh_upload h), kh_router h, kh_dream_pending h, kh_edit h, kh_env h).

Definition same_jcore : relation KnowledgeHome := λ h h', jcore h' = jcore h.

#[export] Instance same_jcore_preorder : PreOrder same_jcore.
Proof. split; [done|]. intros h1 h2 h3. unfold same_jcore. congruence. Qed.

Lemma kcore_jcore h h' : same_kcore h h' → same_jcore h h'.
Proof. unfold same_kcore, kcore, same_jcore, jcore. congruence. Qed.

Lemma preserves_kcore_jcore {A} (m : KM A) : preserves same_kcore m → preserves same_jcore m.
Proof. intros Hm h r h' H. by eapply kcore_jcore, Hm. Qed.

Section jcore.
Context (h h' : KnowledgeHome) (Hj : same_jcore h h').

Lemma jcore_core : core (kh_upload h') = core (kh_upload h).
Proof. unfold same_jcore, jcore in Hj. congruence. Qed.
Lemma jcore_claims : claim_files h' = claim_files h.
Proof. pose proof jcore_core as Hc. core_eq Hc. unfold claim_files. congruence. Qed.
Lemma jcore_wf : kwf h → kwf h'.
Proof.
  intros [Hq He]. split; [by eapply core_queue_ok, Hq; rewrite jcore_core|].
  unfold same_jcore, jcore in Hj. congruence.
Qed.
Lemma jcore_lost : never_lost (kh_upload h) (kh_upload h').
Proof. by apply core_never_lost; rewrite jcore_core. Qed.
Lemma jcore_client : uh_client (kh_upload h') = uh_client (kh_upload h).
Proof. pose proof jcore_core as Hc. core_eq Hc. congruence. Qed.
Lemma jcore_event agent_id lower revision : kwf h → knowledge_event agent_id lower revision h h'.
Proof.
  intros [_ He]. apply ke_time; [exact jcore_core| | |]; unfold same_jcore, jcore in Hj; congruence.
Qed.
End jcore.

(** ** Steps on the journals *)

Lemma read_jcore {A} (d : Dir KnowledgeHome A) key : preserves same_jcore (read_yaml (E:=KnowledgeError) d key).
Proof. apply preserves_kcore_jcore, read_kcore. Qed.

Lemma list_jcore : preserves same_jcore list_claims_local.
Proof. apply preserves_kcore_jcore, list_claims_kcore. Qed.

Lemma write_jcore {A} (d : Dir KnowledgeHome A) key v :
  (∀ m h, jcore (dir_set d m h) = jcore h) → preserves same_jcore (write_yaml_atomic (E:=KnowledgeError) d key v).
Proof.
  intros Hd. apply preserves_bind; [apply _|apply preserves_kcore_jcore, io_kcore|].
  intros _ h r h' [= _ <-]. apply Hd.
Qed.

Lemma try_read_jcore {A B} (d : Dir KnowledgeHome A) key (f : Result KnowledgeError A → KM B) :
  (∀ r, preserves same_jcore (f r)) → preserves same_jcore (m_try (read_yaml d key) ≫= f).
Proof. intros Hf. apply preserves_bind; [apply _|apply preserves_m_try, read_jcore|done]. Qed.

Lemma read_record_jcore id : preserves same_jcore (read_inbox_effect_record id).
Proof.
  apply try_read_jcore. intros [v|e]; [apply preserves_ret, _|].
  repeat case_match; first [apply preserves_ret, _|apply preserves_fail, _].
Qed.

Lemma write_plan_jcore p : preserves same_jcore (write_plan p).
Proof. by apply write_jcore. Qed.

Lemma repair_jcore p : preserves same_jcore (repair_claim_attribute_update_refs p).
Proof.
  unfold repair_claim_attribute_update_refs. destruct (ep_batch_hash p) as [bh|]; [|apply preserves_ret, _].
  generalize (tail (effect_plan_members p)). intros ms. induction ms as [|m ms IH]; simpl; [apply preserves_ret, _|].
  apply preserves_bind; [apply _|apply read_record_jcore|]. intros e.
  apply preserves_bind; [apply _| |intros _; exact IH].
  destruct e as [e|]; [|by apply write_jcore]. case_bool_decide; [apply preserves_ret, _|apply preserves_fail, _].
Qed.

Lemma read_reported_jcore : preserves same_jcore read_reported.
Proof.
  apply try_read_jcore. intros [v|e]; [apply preserves_ret, _|].
  repeat case_match; first [apply preserves_ret, _|apply preserves_fail, _].
Qed.

Lemma contains_jcore claims : preserves same_jcore (contains_claim_set claims).
Proof. apply preserves_bind; [apply _|apply read_reported_jcore|]. intros f. apply preserves_ret, _. Qed.

Lemma unreported_jcore disputes accepted warnings : preserves same_jcore (unreported_disputes disputes accepted warnings).
Proof.
  revert accepted warnings. induction disputes as [|d ds IH]; intros accepted warnings; simpl; [apply preserves_ret, _|].
  apply preserves_bind; [apply _|apply contains_jcore|]. intros []; simpl; [apply IH|].
  case_bool_decide; [apply IH|]. apply preserves_bind; [apply _|apply IH|]. intros rest. apply preserves_ret, _.
Qed.

Lemma record_dispute_jcore now d : preserves same_jcore (record_dispute_if_new now d).
Proof.
  apply preserves_bind; [apply _|apply contains_jcore|]. intros []; simpl; [apply preserves_ret, _|].
  apply preserves_bind; [apply _| |intros _; apply preserves_ret, _].
  apply preserves_bind; [apply _|apply read_reported_jcore|]. intros f. by apply write_jcore.
Qed.

Lemma record_disputes_jcore now ds : preserves same_jcore (record_disputes now ds).
Proof.
  induction ds as [|d ds IH]; simpl; [apply preserves_ret, _|].
  apply preserves_bind; [apply _|apply record_dispute_jcore|]. intros _. exact IH.
Qed.

Lemma write_trace_jcore t : preserves same_jcore (write_plan_trace t).
Proof.
  apply try_read_jcore. intros [v|e]; [case_bool_decide; [apply preserves_ret, _|apply preserves_fail, _]|].
  repeat case_match; first [apply preserves_fail, _|by apply write_jcore].
Qed.

Lemma team_jcore : preserves same_jcore team_services_configured.
Proof. apply preserves_gets, _. Qed.

(** ** Listing the claims *)

Definition local_at (h : KnowledgeHome) (id : ClaimId) : option Claim := claim_files h !! id ≫= file_value.

Lemma local_at_is h c : kwf h → local_at h (claim_id c) = Some c ↔ local_is h c.
Proof.
  intros _. unfold local_at, local_is. destruct (claim_files h !! claim_id c) as [[|d]|]; simpl; naive_solver.
Qed.

Lemma local_at_id h id c : kwf h → local_at h id = Some c → claim_id c = id.
Proof.
  intros [[Hk _] _]. unfold local_at. destruct (claim_files h !! id) as [[|d]|] eqn:E; simpl; try done.
  intros [= ->]. by apply Hk in E.
Qed.

Lemma read_yaml_decode key h h' : read_yaml (E:=UploadError) claims_dir key h = (Err (UploadStorage DecodeFailed), h') →
  uh_claims h !! key = Some Reserved.
Proof.
  unfold read_yaml. intros [(? & h1 & H1 & H2)|(e & H1 & [= <-])]%bind_cases.
  - pose proof (io_dir claims_dir _ _ _ H1) as Hd. simpl in Hd. unfold get_world in H2. mrun_in H2. simpl in H2.
    rewrite Hd in H2. by destruct (uh_claims h !! key) as [[|c]|].
  - by apply io_inv in H1 as [[|] _].
Qed.

Lemma read_all_exact names h l h' : read_all names h = (Ok l, h') →
  l = omap (λ name, uh_claims h !! name ≫= file_value) names.
Proof.
  revert h l h'. induction names as [|n ns IH]; intros h l h' H; cbn [read_all] in H; [by injection H as <- _|].
  apply bind_ok in H as ([] & h1 & H1 & H). pose proof (core_io_step _ _ _ _ H1) as C1.
  rewrite m_try_bind in H. destruct (read_yaml claims_dir n h1) as [r h2] eqn:E2.
  pose proof (core_read_yaml _ _ _ _ E2) as C2.
  assert (uh_claims h1 = uh_claims h ∧ uh_claims h2 = uh_claims h) as [E1 E3].
  { core_eq C1. core_eq C2. split; congruence. }
  cbn [omap list_omap]. destruct r as [c|e].
  - apply bind_ok in H as (rest & h3 & H3 & [= <- _]). apply IH in H3 as ->.
    apply read_yaml_claim in E2. rewrite <-E1, E2. simpl. by rewrite E1, E3.
  - destruct e as [[]| | |]; try done. apply read_yaml_decode in E2.
    rewrite <-E1, E2. simpl. apply IH in H as ->. by rewrite E1, E3.
Qed.

Lemma list_exact h l h' : kwf h → list_claims_local h = (Ok l, h') →
  NoDup (claim_id <$> l) ∧ ∀ id, by_key claim_id l !! id = local_at h id.
Proof.
  intros Hw H. unfold list_claims_local in H. apply up_inv in H as (r & u & H & Hr & ->).
  destruct r as [l0|]; [|done]. injection Hr as <-.
  unfold list_local_claims in H.
  apply bind_ok in H as ([] & u1 & H1 & H). pose proof (core_io_step _ _ _ _ H1) as C1.
  apply bind_ok in H as ([] & u2 & H2 & H). pose proof (core_io_step _ _ _ _ H2) as C2.
  apply bind_ok in H as (names & u3 & [= <- <-] & H). apply read_all_exact in H as ->.
  assert (uh_claims u2 = claim_files h) as -> by (core_eq C1; core_eq C2; unfold claim_files; congruence).
  assert (∀ c, c ∈ omap (λ name, claim_files h !! name ≫= file_value) (map_to_list (claim_files h)).*1 ↔
    local_at h (claim_id c) = Some c) as Hin.
  { intros c. rewrite list_elem_of_omap. split.
    - intros (n & _ & Hc). by rewrite (local_at_id h n c Hw Hc).
    - intros Hc. exists (claim_id c). split; [|done]. unfold local_at in Hc.
      destruct (claim_files h !! claim_id c) as [f|] eqn:E; [|done]. apply list_elem_of_fmap.
      exists (claim_id c, f). split; [done|]. by apply elem_of_map_to_list. }
  assert (NoDup (claim_id <$> omap (λ name, claim_files h !! name ≫= file_value) (map_to_list (claim_files h)).*1)) as Hnd.
  { pose proof (NoDup_fst_map_to_list (claim_files h)) as Hnd. revert Hnd.
    generalize ((map_to_list (claim_files h)).*1). intros ns Hnd. induction Hnd as [|n ns Hn Hnd IH]; simpl; [constructor|].
    destruct (claim_files h !! n ≫= file_value) as [c|] eqn:E; simpl; [|exact IH]. constructor; [|exact IH].
    intros (d & Hid & (m & Hm & Hd)%list_elem_of_omap)%list_elem_of_fmap. apply Hn.
    rewrite <-(local_at_id h n c Hw E), Hid, (local_at_id h m d Hw Hd). done. }
  split; [exact Hnd|]. intros id.
  destruct (local_at h id) as [c|] eqn:E.
  - pose proof (local_at_id _ _ _ Hw E) as <-. apply by_key_lookup; [done|]. split; [|done]. by apply Hin.
  - destruct (by_key claim_id _ !! id) as [c|] eqn:Eb; [|done]. apply by_key_lookup in Eb as [Hc <-]; [|done].
    apply Hin in Hc. congruence.
Qed.

Lemma list_elem h l h' c : kwf h → list_claims_local h = (Ok l, h') → c ∈ l ↔ local_at h (claim_id c) = Some c.
Proof.
  intros Hw H. destruct (list_exact _ _ _ Hw H) as [Hnd Hl]. rewrite <-Hl, by_key_lookup by done. tauto.
Qed.

(** ** Plans *)

(** The version that the plan was made for. *)
Definition analysed (p : InboxEffectPlan) (id : ClaimId) : option Claim :=
  by_key claim_id (default [] (ep_analysis_claims p)) !! id.

Record plan_wf (agent_id : AgentId) (p : InboxEffectPlan) : Prop := {
  pw_targets : NoDup (claim_id <$> plan_targets p);
  pw_applied : NoDup (claim_id <$> ep_applied_claims p);
  pw_sub : plan_targets p = [] ∨ ep_applied_claims p ⊆ plan_targets p;
  pw_holder t : t ∈ plan_targets p → claim_holder t = agent_id;
  pw_later t a : t ∈ plan_targets p → analysed p (claim_id t) = Some a → (effective_updated_at a < effective_updated_at t)%Z;
}.

Lemma expected_unapplied analysis targets applied t : t ∈ targets →
  (∀ a, a ∈ applied → a ∈ targets → claim_id a ≠ claim_id t) →
  expected_claims analysis targets applied !! claim_id t = Some (by_key claim_id (default [] analysis) !! claim_id t).
Proof.
  intros Ht Ha. unfold expected_claims.
  assert (∀ l (m : gmap string (option Claim)) (m0 : gmap string Claim),
    (∀ k, m !! k = Some <$> m0 !! k) →
    ∀ k, fold_left (λ m c, <[claim_id c := Some c]> m) l m !! k =
      Some <$> fold_left (λ m c, <[claim_id c := c]> m) l m0 !! k) as Hbase.
  { induction l as [|c l IH]; intros m m0 Hm k; simpl; [done|]. apply IH. intros k'.
    destruct (decide (claim_id c = k')) as [<-|]; [by rewrite !lookup_insert_eq|by rewrite !lookup_insert_ne]. }
  specialize (Hbase (default [] analysis) ∅ ∅ (λ k, eq_refl)).
  set (base := fold_left _ (default [] analysis) (∅ : gmap string (option Claim))) in *.
  change (fold_left (λ m c, <[claim_id c := c]> m) (default [] analysis) ∅)
    with (by_key claim_id (default [] analysis)) in Hbase.
  assert (∀ l m, (∀ a, a ∈ l → a ∈ targets → claim_id a ≠ claim_id t) →
    fold_left (λ (m : gmap string (option Claim)) c, if bool_decide (c ∈ targets) then <[claim_id c := Some c]> m else m) l m
      !! claim_id t = m !! claim_id t) as Happ.
  { induction l as [|c l IH]; intros m Hl; simpl; [done|]. rewrite IH by set_solver.
    case_bool_decide as Hc; [|done]. rewrite lookup_insert_ne; [done|]. apply Hl; [left|done]. }
  rewrite Happ by done. clear Happ Ha.
  assert (∀ l m, (m !! claim_id t = None → t ∈ l) → (∀ o, m !! claim_id t = Some o → base !! claim_id t = Some o ∨ base !! claim_id t = None ∧ o = None) →
    (m !! claim_id t = None → base !! claim_id t = None) →
    fold_left (λ (m : gmap string (option Claim)) t, if decide (is_Some (m !! claim_id t)) then m else <[claim_id t := None]> m) l m
      !! claim_id t = Some (base !! claim_id t ≫= id)) as Htg.
  { induction l as [|c l IH]; intros m Hin Hm Hn; simpl.
    - destruct (m !! claim_id t) as [o|] eqn:E; [|specialize (Hin eq_refl); by apply not_elem_of_nil in Hin].
      destruct (Hm o eq_refl) as [->|[-> ->]]; done.
    - apply IH.
      + destruct (decide (is_Some (m !! claim_id c))) as [Hs|Hs].
        * intros E. specialize (Hin E). apply elem_of_cons in Hin as [<-|?]; [|done]. rewrite E in Hs. by destruct Hs.
        * destruct (decide (claim_id c = claim_id t)) as [Heq|Hne]; [rewrite Heq, lookup_insert_eq; done|].
          rewrite lookup_insert_ne by done. intros E. specialize (Hin E). apply elem_of_cons in Hin as [->|?]; done.
      + intros o. destruct (decide (is_Some (m !! claim_id c))) as [Hs|Hs]; [by apply Hm|].
        destruct (decide (claim_id c = claim_id t)) as [Heq|Hne].
        * rewrite Heq, lookup_insert_eq. intros [= <-]. right. split; [|done]. apply Hn.
          rewrite Heq in Hs. by apply eq_None_not_Some.
        * rewrite lookup_insert_ne by done. apply Hm.
      + destruct (decide (is_Some (m !! claim_id c))) as [Hs|Hs]; [by apply Hn|].
        destruct (decide (claim_id c = claim_id t)) as [Heq|Hne]; [by rewrite Heq, lookup_insert_eq|].
        rewrite lookup_insert_ne by done. apply Hn. }
  rewrite Htg; [|by intros _|by intros o ->; left|done].
  rewrite Hbase. by destruct (by_key claim_id (default [] analysis) !! claim_id t).
Qed.

Lemma has_applied_spec applied t : has_applied applied t = true ↔ ∃ a, a ∈ applied ∧ claim_id a = claim_id t.
Proof.
  unfold has_applied. rewrite existsb_exists. setoid_rewrite bool_decide_eq_true.
  setoid_rewrite <-list_elem_of_In. done.
Qed.

Lemma has_applied_app applied a t : claim_id a ≠ claim_id t → has_applied (applied ++ [a]) t = has_applied applied t.
Proof.
  intros Hne. unfold has_applied. rewrite existsb_app. simpl. by rewrite bool_decide_eq_false_2, !orb_false_r.
Qed.

(** ** Writing the targets *)

Section writing.
Context (agent_id : AgentId) (lower : Z → Text) (revision : Claim → string).

Definition todo (applied ts : list Claim) : list Claim := filter (λ t, has_applied applied t = false) ts.

Lemma todo_ext a b ts : (∀ t, t ∈ ts → has_applied a t = has_applied b t) → todo a ts = todo b ts.
Proof.
  induction ts as [|t ts IH]; intros H; [done|]. unfold todo in *.
  destruct (has_applied a t) eqn:E; rewrite (H t ltac:(left)) in E;
    [rewrite !filter_cons_False by (rewrite ?H by left; congruence)
    |rewrite !filter_cons_True by (rewrite ?H by left; congruence); f_equal]; apply IH; set_solver.
Qed.

(** The claims once [w] is written. *)
Definition after (h : KnowledgeHome) (w : list Claim) (id : ClaimId) : option Claim :=
  match list_find (λ t, claim_id t = id) w with Some (_, t) => Some t | None => local_at h id end.

Lemma local_at_kwrite c h id : local_at (kwrite c h) id = if decide (claim_id c = id) then Some c else local_at h id.
Proof.
  unfold local_at, kwrite, claim_files. simpl. case_decide as Hid; [subst; by rewrite lookup_insert_eq|by rewrite lookup_insert_ne].
Qed.

Lemma local_at_claims h h' : claim_files h' = claim_files h → local_at h' = local_at h.
Proof. unfold local_at. by intros ->. Qed.

Lemma can_write_local h h' c : local_at h' (claim_id c) = local_at h (claim_id c) → can_write agent_id h c → can_write agent_id h' c.
Proof.
  intros Hl [Hh Hc]. split; [done|]. intros l Hl'. apply Hc. unfold local_at in Hl. rewrite Hl' in Hl. simpl in Hl.
  by destruct (claim_files h !! claim_id c) as [[|d]|]; simplify_eq/=.
Qed.

Record writes (ts : list Claim) (p : InboxEffectPlan) (h : KnowledgeHome)
    (r : Result KnowledgeError InboxEffectPlan) (h' : KnowledgeHome) (w rest : list Claim) : Prop := {
  wr_todo : todo (ep_applied_claims p) ts = w ++ rest;
  wr_local id : local_at h' id = after h w id;
  wr_wf : kwf h';
  wr_lost : never_lost (kh_upload h) (kh_upload h');
  wr_events : rtc (knowledge_event agent_id lower revision) h h';
  wr_ok p' : r = Ok p' → rest = [] ∧ p' = with_applied (ep_applied_claims p ++ w) p;
  wr_err e : r = Err e → storage_error e;
}.

Lemma kwrite_event c h : can_write agent_id h c → knowledge_event agent_id lower revision h (kwrite c h).
Proof. apply ke_write. Qed.

Lemma write_targets_spec ts : ∀ p h r h', kwf h → NoDup (claim_id <$> ts) →
  (∀ t, t ∈ ts → has_applied (ep_applied_claims p) t = false → can_write agent_id h t) →
  write_targets ts p h = (r, h') → ∃ w rest, writes ts p h r h' w rest.
Proof.
  induction ts as [|t ts IH]; intros p h r h' Hw Hnd Hcan H; cbn [write_targets] in H.
  { injection H as <- <-. exists [], []. split; try done. intros p' [= <-]. split; [done|].
    rewrite app_nil_r. by destruct p. }
  apply NoDup_cons in Hnd as [Ht Hnd].
  assert (∀ t', t' ∈ ts → claim_id t ≠ claim_id t') as Hne.
  { intros t' Ht' Heq. apply Ht. rewrite Heq. by apply list_elem_of_fmap_2. }
  destruct (has_applied (ep_applied_claims p) t) eqn:Ea.
  { destruct (IH p h r h' Hw Hnd) as (w & rest & []); [by intros t' Ht'; apply Hcan; right|done|].
    exists w, rest. split; try done. unfold todo. rewrite filter_cons_False by congruence. done. }
  assert (todo (ep_applied_claims p) (t :: ts) = t :: todo (ep_applied_claims p) ts) as Htd
    by (unfold todo; by rewrite filter_cons_True).
  assert (can_write agent_id h t) as Hct by (apply Hcan; [left|done]).
  apply bind_cases in H as [([] & h1 & H1 & H)|(e & H1 & ->)]; apply write_claim_inv in H1 as [[Hr1 Hk1]|[(e1 & Hr1 & He1) Hk1]];
    [|done|done|].
  2: { exists [], (todo (ep_applied_claims p) (t :: ts)).
       split; [done|by rewrite (local_at_claims _ _ (kcore_claims _ _ Hk1))|by apply (kcore_wf h)|by apply kcore_lost| |done|].
       - by apply rtc_once, jcore_event, Hw; apply kcore_jcore.
       - intros e' [= <-]. by injection Hr1 as ->. }
  change (kcore h1 = kcore (kwrite t h)) in Hk1. destruct (kwrite_wf agent_id t h Hw Hct) as [Hww Hwn].
  assert (kwf h1) as Hw1 by by apply (kcore_wf (kwrite t h)).
  assert (never_lost (kh_upload h) (kh_upload h1)) as Hn1 by (etrans; [exact Hwn|by apply kcore_lost]).
  assert (rtc (knowledge_event agent_id lower revision) h h1) as He1.
  { eapply rtc_l; [by apply kwrite_event|]. apply rtc_once, jcore_event; [|done]. by apply kcore_jcore. }
  assert (∀ id, local_at h1 id = after h [t] id) as Hl1.
  { intros id. rewrite (local_at_claims _ _ (kcore_claims _ _ Hk1)), local_at_kwrite. unfold after. simpl.
    by case_decide. }
  apply bind_cases in H as [([] & h2 & H2 & H)|(e & H2 & ->)]; pose proof (write_plan_jcore _ _ _ _ H2) as Hj2.
  2: { exists [t], (todo (ep_applied_claims p) ts). split; [by rewrite Htd| | | | |done|].
       - intros id. by rewrite (local_at_claims _ _ (jcore_claims _ _ Hj2)).
       - by apply (jcore_wf h1).
       - etrans; [exact Hn1|by apply jcore_lost].
       - eapply rtc_r; [exact He1|by apply jcore_event].
       - intros e' [= <-]. apply write_file_inv in H2; [|dir_kcore..].
         destruct H2 as [[? _]|[(e2 & [= ->] & ?) _]]; done. }
  set (p1 := with_applied (ep_applied_claims p ++ [t]) p) in *.
  assert (∀ id, local_at h2 id = after h [t] id) as Hl2.
  { intros id. by rewrite (local_at_claims _ _ (jcore_claims _ _ Hj2)). }
  assert (todo (ep_applied_claims p1) ts = todo (ep_applied_claims p) ts) as Htd1.
  { apply todo_ext. intros t' Ht'. simpl. by apply has_applied_app, Hne. }
  destruct (IH p1 h2 r h') as (w & rest & [E1 E2 E3 E4 E5 E6 E7]); [by apply (jcore_wf h1)|done| |done|].
  { intros t' Ht' Ha. simpl in Ha. rewrite has_applied_app in Ha by by apply Hne.
    apply (can_write_local h); [|by apply Hcan; [right|]]. rewrite Hl2. unfold after. simpl.
    rewrite decide_False; [done|by apply Hne]. }
  exists (t :: w), rest. split.
  - rewrite Htd, <-Htd1, E1. done.
  - intros id. rewrite E2. unfold after at 1. rewrite Hl2. unfold after. simpl.
    destruct (decide (claim_id t = id)) as [<-|Hid].
    + assert (list_find (λ t', claim_id t' = claim_id t) w = None) as ->; [|done].
      apply list_find_None, Forall_forall. intros t' Ht' Heq.
      assert (t' ∈ todo (ep_applied_claims p) ts) as [_ Hin]%list_elem_of_filter
        by (rewrite <-Htd1, E1; apply elem_of_app; by left).
      by apply (Hne t' Hin).
    + by destruct (list_find (λ t', claim_id t' = id) w) as [[i x]|].
  - exact E3.
  - etrans; [exact Hn1|]. etrans; [exact (jcore_lost _ _ Hj2)|exact E4].
  - etrans; [exact He1|]. eapply rtc_l; [by apply jcore_event|exact E5].
  - intros p' Hp'. destruct (E6 p' Hp') as [-> ->]. split; [done|]. simpl. by rewrite <-app_assoc.
  - exact E7.
Qed.

End writing.

(** ** Freshness *)

Section freshness.
Context (agent_id : AgentId).

Lemma analysed_applied p applied : analysed (with_applied applied p) = analysed p.
Proof. done. Qed.

Lemma fresh_targets p h l h0 : kwf h → list_claims_local h = (Ok l, h0) → plan_wf agent_id p →
  analysis_is_stale (ep_analysis_claims p)
    (changes (ep_analysis_claims p) (plan_targets p) (ep_applied_claims p) l) = false →
  ∀ t, t ∈ plan_targets p →
    if has_applied (ep_applied_claims p) t then local_at h (claim_id t) = Some t
    else local_at h (claim_id t) = analysed p (claim_id t) ∧ can_write agent_id h t.
Proof.
  intros Hw Hl Hp [_ Hs]%not_stale t Ht. destruct (list_exact _ _ _ Hw Hl) as [_ Hk].
  assert (ep_applied_claims p ⊆ plan_targets p) as Hsub.
  { destruct (pw_sub _ _ Hp) as [Hnil|]; [|done]. rewrite Hnil in Ht. by apply not_elem_of_nil in Ht. }
  destruct (has_applied (ep_applied_claims p) t) eqn:Ea.
  - apply has_applied_spec in Ea as (a & Ha & Hid).
    assert (a = t) as ->.
    { assert (∀ x, x ∈ plan_targets p → claim_id x = claim_id t → by_key claim_id (plan_targets p) !! claim_id t = Some x) as Hk'
        by (intros x Hx Hxt; apply by_key_lookup; [apply Hp|done]).
      pose proof (Hk' a (Hsub a Ha) Hid). pose proof (Hk' t Ht eq_refl). congruence. }
    rewrite <-Hk. apply Hs. apply expected_applied; [done|done|apply Hp].
  - assert (local_at h (claim_id t) = analysed p (claim_id t)) as Heq.
    { rewrite <-Hk. apply Hs. apply expected_unapplied; [done|]. intros a Ha _ Hid.
      apply not_true_iff_false in Ea. apply Ea. apply has_applied_spec. eauto. }
    split; [done|]. split; [by apply (pw_holder _ _ Hp)|]. intros x Hx. apply (pw_later _ _ Hp); [done|].
    rewrite <-Heq. unfold local_at. by rewrite Hx.
Qed.

Lemma still_fresh p h h' l l' h0 h0' : kwf h → kwf h' → claim_files h' = claim_files h →
  list_claims_local h = (Ok l, h0) → list_claims_local h' = (Ok l', h0') →
  analysis_is_stale (ep_analysis_claims p)
    (changes (ep_analysis_claims p) (plan_targets p) (ep_applied_claims p) l) = false →
  analysis_is_stale (ep_analysis_claims p)
    (changes (ep_analysis_claims p) (plan_targets p) (ep_applied_claims p) l') = false.
Proof.
  intros Hw Hw' Hf Hl Hl'. rewrite !not_stale. destruct (list_exact _ _ _ Hw Hl) as [_ Hk].
  destruct (list_exact _ _ _ Hw' Hl') as [_ Hk']. intros [? H]. split; [done|].
  intros id b Hb. rewrite Hk', (local_at_claims _ _ Hf), <-Hk. by apply H.
Qed.

Lemma observe_spec targets current applied :
  (∀ a, a ∈ applied → a ∈ observe_applied targets current applied) ∧
  (∀ a, a ∈ observe_applied targets current applied → a ∈ applied ∨ a ∈ targets ∧ a ∈ current) ∧
  (NoDup (claim_id <$> applied) → NoDup (claim_id <$> observe_applied targets current applied)).
Proof.
  unfold observe_applied. revert applied. induction targets as [|t ts IH]; intros applied; simpl; [by auto|].
  change (existsb (λ c, bool_decide (claim_id c = claim_id t)) applied) with (has_applied applied t).
  destruct (has_applied applied t) eqn:Ea; simpl.
  { destruct (IH applied) as (H1 & H2 & H3). split; [done|]. split; [|done]. intros a [?|[? ?]]%H2; [by left|right]. set_solver. }
  case_bool_decide as Hc.
  - destruct (IH (applied ++ [t])) as (H1 & H2 & H3). split; [|split].
    + intros a Ha. apply H1, elem_of_app. by left.
    + intros a [[Ha|Heq%list_elem_of_singleton]%elem_of_app|[? ?]]%H2; [by left|subst a; right; split; [left|done]|right; split; [by right|done]].
    + intros Hnd. apply H3. rewrite fmap_app. apply NoDup_app. split; [done|]. split; [|by repeat constructor; apply not_elem_of_nil].
      intros x (a & -> & Ha)%list_elem_of_fmap Hx. simpl in Hx. apply list_elem_of_singleton in Hx.
      apply not_true_iff_false in Ea. apply Ea, has_applied_spec. eauto.
  - destruct (IH applied) as (H1 & H2 & H3). split; [done|]. split; [|done]. intros a [?|[? ?]]%H2; [by left|right; split; [by right|done]].
Qed.

Lemma observed_wf p current : plan_wf agent_id p →
  plan_wf agent_id (with_applied (observe_applied (plan_targets p) current (ep_applied_claims p)) p).
Proof.
  intros Hp. destruct (observe_spec (plan_targets p) current (ep_applied_claims p)) as (H1 & H2 & H3).
  split; [apply Hp|apply H3, Hp| |apply Hp|apply Hp].
  destruct (pw_sub _ _ Hp) as [?|Hs]; [by left|right]. intros a [Ha|[Ha _]]%H2; [by apply Hs|done].
Qed.

Lemma write_order_perm ts : write_order ts ≡ₚ ts.
Proof.
  unfold write_order. induction ts as [|t ts IH]; [done|]. destruct (is_deprecated t) eqn:E.
  - rewrite (filter_cons_False _ t) by congruence. rewrite (filter_cons_True _ t) by done.
    rewrite <-Permutation_middle. by rewrite IH.
  - rewrite (filter_cons_True _ t) by done. rewrite (filter_cons_False _ t) by congruence. simpl. by rewrite IH.
Qed.

(** When a claim was deprecated, every target that is kept had been written. *)
Lemma retires_last applied ts w rest t : todo applied (write_order ts) = w ++ rest → t ∈ w → is_deprecated t = true →
  ∀ t', t' ∈ ts → is_deprecated t' = false → has_applied applied t' = false → t' ∈ w.
Proof.
  intros Htd Ht Hd t' Ht' Hd' Ha. unfold todo, write_order in Htd. rewrite filter_app in Htd.
  symmetry in Htd. apply app_eq_app in Htd as [l [[-> _]|[Hl _]]].
  - apply elem_of_app. left. apply list_elem_of_filter. split; [done|]. by apply list_elem_of_filter.
  - assert (t ∈ filter (λ t, has_applied applied t = false) (filter (λ t, is_deprecated t = false) ts)) as Hin.
    { rewrite Hl. apply elem_of_app. by left. }
    apply list_elem_of_filter in Hin as [_ [Hd2 _]%list_elem_of_filter]. congruence.
Qed.
End freshness.
