(* ===== verification/InboxEffectSafety.v ===== *)
(** * What carrying out a plan does to the claims *)

From S2P Require Import Prelude Storage Claim UploadQueue UploadProofs StepLogic UploadSafety UploadDelivery Knowledge Text MemorySafety ClaimEdit ClaimEditProofs Prepare InboxEffect InboxEffectProofs.

(** ** Errors *)

(** [m] does not end with the error "the plan is stale". *)
Definition not_stale_err {A} (m : KM A) : Prop := ∀ h e h', m h = (Err e, h') → e ≠ KStalePlan.

Lemma nse_bind {A B} (m : KM A) (f : A → KM B) : not_stale_err m → (∀ a, not_stale_err (f a)) → not_stale_err (m ≫= f).
Proof. intros Hm Hf h e h' [(a & h1 & _ & H)|(e' & H & [= <-])]%bind_cases; [by eapply Hf|by eapply Hm]. Qed.

Lemma nse_ret {A} (a : A) : not_stale_err (mret a).
Proof. by intros h e h'. Qed.

Lemma nse_fail {A} e : e ≠ KStalePlan → not_stale_err (fail (A:=A) e).
Proof. by intros He h e' h' [= <- _]. Qed.

Lemma nse_io e : e ≠ KStalePlan → not_stale_err (io_step (W:=KnowledgeHome) e).
Proof. intros He h e' h'. unfold io_step. destruct (faults h) as [|[] fs]; intros [=]; by subst. Qed.

Lemma nse_up {A} (m : UM A) : not_stale_err (up m).
Proof. intros h e h' (r0 & u & _ & Hr & _)%up_inv. destruct r0; [done|]. by injection Hr as ->. Qed.

Lemma nse_read {A} (d : Dir KnowledgeHome A) key : not_stale_err (read_yaml d key).
Proof.
  apply nse_bind; [by apply nse_io|]. intros _ h e h' H. unfold get_world in H. mrun_in H.
  repeat case_match; simplify_eq; done.
Qed.

Lemma nse_write {A} (d : Dir KnowledgeHome A) key v : not_stale_err (write_yaml_atomic d key v).
Proof. apply nse_bind; [by apply nse_io|]. by intros _ h e h'. Qed.

Lemma nse_try_read {A B} (d : Dir KnowledgeHome A) key (f : Result KnowledgeError A → KM B) :
  (∀ a, not_stale_err (f (Ok a))) → (∀ e, e ≠ KStalePlan → not_stale_err (f (Err e))) →
  not_stale_err (m_try (read_yaml d key) ≫= f).
Proof.
  intros Ha He h e h'. rewrite m_try_bind. destruct (read_yaml d key h) as [[a|e1] h1] eqn:E; intros H; [by eapply Ha|].
  eapply He, H. by eapply nse_read.
Qed.

#[local] Hint Resolve nse_ret nse_up nse_read nse_write : nse.
#[local] Hint Extern 1 (not_stale_err (fail _)) => by apply nse_fail : nse.

Lemma nse_record id : not_stale_err (read_inbox_effect_record id).
Proof. apply nse_try_read; [eauto with nse|]. intros e He. repeat case_match; auto using nse_fail with nse. Qed.

Lemma nse_reported : not_stale_err read_reported.
Proof. apply nse_try_read; [eauto with nse|]. intros e He. repeat case_match; auto using nse_fail with nse. Qed.

Lemma nse_contains claims : not_stale_err (contains_claim_set claims).
Proof. apply nse_bind; [apply nse_reported|eauto with nse]. Qed.

Lemma nse_unreported disputes accepted warnings : not_stale_err (unreported_disputes disputes accepted warnings).
Proof.
  revert accepted warnings. induction disputes as [|d ds IH]; intros accepted warnings; simpl; [eauto with nse|].
  apply nse_bind; [apply nse_contains|]. intros []; [apply IH|]. case_bool_decide; [apply IH|].
  apply nse_bind; [apply IH|eauto with nse].
Qed.

Lemma nse_repair p : not_stale_err (repair_claim_attribute_update_refs p).
Proof.
  unfold repair_claim_attribute_update_refs. destruct (ep_batch_hash p); [|eauto with nse].
  generalize (tail (effect_plan_members p)). intros ms. induction ms as [|m ms IH]; simpl; [eauto with nse|].
  apply nse_bind; [apply nse_record|]. intros e. apply nse_bind; [|done].
  destruct e; [|eauto with nse]. case_bool_decide; eauto with nse.
Qed.

Lemma nse_trace t : not_stale_err (write_plan_trace t).
Proof.
  apply nse_try_read; [intros a; case_bool_decide; eauto with nse|].
  intros e He. repeat case_match; auto using nse_fail with nse.
Qed.

Lemma write_trace_opt o h r h' : match o with Some t => write_plan_trace t | None => mret tt end h = (r, h') →
  same_jcore h h' ∧ ∀ e, r = Err e → e ≠ KStalePlan.
Proof.
  destruct o as [t|]; [|by intros [= <- <-]]. intros H. split; [by eapply write_trace_jcore|].
  intros e ->. by eapply nse_trace.
Qed.

Lemma nse_disputes now ds : not_stale_err (record_disputes now ds).
Proof.
  induction ds as [|d ds IH]; simpl; [eauto with nse|]. apply nse_bind; [|done].
  apply nse_bind; [apply nse_contains|]. intros []; [eauto with nse|]. apply nse_bind; [|eauto with nse].
  apply nse_bind; [apply nse_reported|eauto with nse].
Qed.

(** ** Which claims a plan may write *)

(** The plan has nothing left to do, or its progress and its snapshot are all
    that the claims show. *)
Definition fresh (p : InboxEffectPlan) (h : KnowledgeHome) : Prop :=
  plan_targets p = [] ∨ ∃ hl l h0, kwf hl ∧ claim_files hl = claim_files h ∧ list_claims_local hl = (Ok l, h0) ∧
    analysis_is_stale (ep_analysis_claims p)
      (changes (ep_analysis_claims p) (plan_targets p) (ep_applied_claims p) l) = false.

Section safety.
Context (agent_id : AgentId) (lower : Z → Text) (revision : Claim → string).

Local Notation event := (knowledge_event agent_id lower revision).
Local Notation wf := (plan_wf agent_id).

Record quiet (h h' : KnowledgeHome) : Prop := {
  qt_wf : kwf h';
  qt_claims : claim_files h' = claim_files h;
  qt_lost : never_lost (kh_upload h) (kh_upload h');
  qt_events : rtc event h h';
}.

Lemma quiet_jcore h h' : kwf h → same_jcore h h' → quiet h h'.
Proof.
  intros Hw Hj. split; [by apply (jcore_wf h)|by apply jcore_claims|by apply jcore_lost|].
  by apply rtc_once, jcore_event.
Qed.

Lemma quiet_trans h1 h2 h3 : quiet h1 h2 → quiet h2 h3 → quiet h1 h3.
Proof. intros [? ? ? ?] [? ? ? ?]. split; [done|congruence|by etrans|by etrans]. Qed.

Lemma quiet_refl h : kwf h → quiet h h.
Proof. by split. Qed.

(** *** Leaving out what is stale *)

Lemma discard_spec p h r h' : kwf h → wf p → discard_stale_inbox_plan p h = (r, h') →
  same_jcore h h' ∧
  match r with
  | Ok p' => wf p' ∧ fresh p' h ∧ ep_inbox_id p' = ep_inbox_id p ∧ ep_state p' = ep_state p ∧
      (plan_targets p' = [] ∨ plan_targets p' = plan_targets p ∧ analysed p' = analysed p ∧
        ∀ t, has_applied (ep_applied_claims p') t = false → has_applied (ep_applied_claims p) t = false)
  | Err e => e ≠ KStalePlan
  end.
Proof.
  intros Hw Hp H. unfold discard_stale_inbox_plan in H.
  apply bind_cases in H as [(l & h1 & H1 & H)|(e & H1 & ->)]; pose proof (list_jcore _ _ _ H1) as Hj1;
    [|split; [done|by eapply nse_up]].
  cbv zeta in H. set (p1 := with_applied _ p) in *.
  pose proof (observed_wf agent_id p l Hp) as Hp1. fold p1 in Hp1.
  destruct (observe_spec (plan_targets p) l (ep_applied_claims p)) as (Hob & _ & _).
  destruct (analysis_is_stale _ _) eqn:Es; simpl in H.
  - apply bind_cases in H as [([] & h2 & H2 & H)|(e & H2 & ->)]; pose proof (write_plan_jcore _ _ _ _ H2) as Hj2;
      (split; [|try by eapply nse_write]).
    + injection H as _ <-. by etrans.
    + injection H as <- _. split; [|split; [by left|split; [done|split; [done|]]]].
      * split; [constructor|apply Hp1|by left|by intros t ?%not_elem_of_nil|by intros t a ?%not_elem_of_nil].
      * by left.
    + by etrans.
  - injection H as <- <-. split; [done|]. split; [done|]. split; [right; by exists h, l, h1|].
    split; [done|]. split; [done|]. right. split; [done|]. split; [done|].
    intros t Ha. apply not_true_iff_false in Ha. apply not_true_iff_false. intros Hap. apply Ha.
    apply has_applied_spec in Hap as (a & Hin & Hid). apply has_applied_spec. exists a. split; [by apply Hob|done].
Qed.

(** *** Writing what is left *)

Lemma fresh_jcore p h h' l' h0' : kwf h → same_jcore h h' → fresh p h → list_claims_local h' = (Ok l', h0') →
  forallb (has_applied (ep_applied_claims p)) (plan_targets p) ||
  negb (analysis_is_stale (ep_analysis_claims p)
    (changes (ep_analysis_claims p) (plan_targets p) (ep_applied_claims p) l')) = true ∧
  (plan_targets p = [] ∨ analysis_is_stale (ep_analysis_claims p)
    (changes (ep_analysis_claims p) (plan_targets p) (ep_applied_claims p) l') = false).
Proof.
  intros Hw Hj [Hnil|(hl & l & h0 & Hwl & Hcl & Hl & Hf)] Hl'; [split; [by rewrite Hnil|by left]|].
  assert (claim_files h' = claim_files hl) as Hcf by (rewrite Hcl; by apply jcore_claims).
  pose proof (still_fresh p hl h' l l' h0 h0' Hwl (jcore_wf _ _ Hj Hw) Hcf Hl Hl' Hf) as Hs.
  split; [|by right]. rewrite Hs. apply orb_true_r.
Qed.

(** What was written, of the plan [p] in the world [h]. *)
Record carried (p : InboxEffectPlan) (h h' : KnowledgeHome) (w : list Claim) : Prop := {
  ca_local id : local_at h' id = after h w id;
  ca_target t : t ∈ w → t ∈ plan_targets p ∧ has_applied (ep_applied_claims p) t = false ∧
    local_at h (claim_id t) = analysed p (claim_id t);
  ca_retire t : t ∈ w → is_deprecated t = true → ∀ t', t' ∈ plan_targets p → is_deprecated t' = false →
    local_at h' (claim_id t') = Some t';
  ca_wf : kwf h';
  ca_lost : never_lost (kh_upload h) (kh_upload h');
  ca_events : rtc event h h';
}.

Lemma after_ext h h' w : claim_files h' = claim_files h → after h' w = after h w.
Proof. intros Hf. unfold after. by rewrite (local_at_claims _ _ Hf). Qed.

Lemma after_in h w t : NoDup (claim_id <$> w) → t ∈ w → after h w (claim_id t) = Some t.
Proof.
  intros Hnd Ht. unfold after. destruct (list_find (λ t', claim_id t' = claim_id t) w) as [[i x]|] eqn:E.
  - apply list_find_Some in E as (Hx & Hid & _). f_equal.
    apply list_elem_of_lookup in Ht as [j Hj].
    assert (i = j) as ->; [|congruence]. eapply (NoDup_lookup (claim_id <$> w)); [done|..]; rewrite list_lookup_fmap.
    + by rewrite Hx.
    + rewrite Hj. simpl. by rewrite Hid.
  - apply list_find_None in E. rewrite Forall_forall in E. by destruct (E t Ht).
Qed.

Lemma after_not_in h w id : (∀ t, t ∈ w → claim_id t ≠ id) → after h w id = local_at h id.
Proof.
  intros Hn. unfold after. destruct (list_find _ w) as [[i x]|] eqn:E; [|done].
  apply list_find_Some in E as (Hx & Hid & _). destruct (Hn x); [by eapply list_elem_of_lookup_2|done].
Qed.

Lemma carried_quiet_l p h1 h2 h3 w : quiet h1 h2 → carried p h2 h3 w → carried p h1 h3 w.
Proof.
  intros [Hw Hf Hn He] [E1 E2 E3 E4 E5 E6]. split; try done.
  - intros id. by rewrite E1, (after_ext h1).
  - intros t Ht. rewrite <-(local_at_claims _ _ Hf). by apply E2.
  - by etrans.
  - by etrans.
Qed.

Lemma carried_quiet_r p h1 h2 h3 w : carried p h1 h2 w → quiet h2 h3 → carried p h1 h3 w.
Proof.
  intros [E1 E2 E3 E4 E5 E6] [Hw Hf Hn He]. pose proof (local_at_claims _ _ Hf) as Hl. split; try done.
  - intros id. by rewrite Hl, E1.
  - intros t Ht Hd t' Ht' Hd'. rewrite Hl. by apply (E3 t).
  - by etrans.
  - by etrans.
Qed.

Lemma fresh_files p h h' : claim_files h' = claim_files h → fresh p h → fresh p h'.
Proof. intros Hf [?|(hl & l & h0 & ? & Hc & ? & ?)]; [by left|right]. exists hl, l, h0. by rewrite Hc. Qed.

Lemma carried_plan p p' h h' w : carried p' h h' w →
  (plan_targets p' = [] ∨ plan_targets p' = plan_targets p ∧ analysed p' = analysed p ∧
    ∀ t, has_applied (ep_applied_claims p') t = false → has_applied (ep_applied_claims p) t = false) →
  carried p h h' w.
Proof.
  intros [E1 E2 E3 E4 E5 E6] Hp. split; try done.
  - intros t Ht. destruct (E2 t Ht) as (Hin & Ha & Hl). destruct Hp as [Hnil|(Ht' & Han & Hap)].
    + rewrite Hnil in Hin. by apply not_elem_of_nil in Hin.
    + rewrite <-Ht', <-Han. auto.
  - intros t Ht. destruct (E2 t Ht) as (Hin & _). destruct Hp as [Hnil|(<- & _)]; [|by apply (E3 t)].
    rewrite Hnil in Hin. by apply not_elem_of_nil in Hin.
Qed.

Lemma carried_nil p h h' : quiet h h' → carried p h h' [].
Proof.
  intros [Hw Hf Hn He]. split; try done; [|by intros t ?%not_elem_of_nil..].
  intros id. by rewrite (local_at_claims _ _ Hf).
Qed.

Lemma write_spec p h hl l h0 r h' : kwf h → wf p → kwf hl → claim_files h = claim_files hl → list_claims_local hl = (Ok l, h0) →
  (plan_targets p = [] ∨ analysis_is_stale (ep_analysis_claims p)
    (changes (ep_analysis_claims p) (plan_targets p) (ep_applied_claims p) l) = false) →
  write_targets (write_order (plan_targets p)) p h = (r, h') →
  ∃ w, carried p h h' w ∧
    match r with Ok p' => p' = with_applied (ep_applied_claims p ++ w) p | Err e => e ≠ KStalePlan end.
Proof.
  intros Hw Hp Hwl Hfl Hl [Hnil|Hf] H.
  { rewrite Hnil in H. injection H as <- <-. exists []. split; [by apply carried_nil, quiet_refl|].
    rewrite app_nil_r. by destruct p. }
  assert (∀ t, t ∈ plan_targets p →
    if has_applied (ep_applied_claims p) t then local_at h (claim_id t) = Some t
    else local_at h (claim_id t) = analysed p (claim_id t) ∧ can_write agent_id h t) as Hft.
  { intros t Ht. pose proof (fresh_targets agent_id p hl l h0 Hwl Hl Hp Hf t Ht) as Hc.
    rewrite (local_at_claims _ _ Hfl). destruct (has_applied _ t); [done|]. destruct Hc as [? Hc]. split; [done|].
    apply (can_write_local agent_id hl); [by rewrite (local_at_claims _ _ Hfl)|done]. }
  pose proof (pw_targets _ _ Hp) as Hnd. pose proof (write_order_perm (plan_targets p)) as Hperm.
  assert (∀ t, t ∈ write_order (plan_targets p) ↔ t ∈ plan_targets p) as Hin by (intros t; by rewrite Hperm).
  destruct (write_targets_spec agent_id lower revision (write_order (plan_targets p)) p h r h')
    as (w & rest & [E1 E2 E3 E4 E5 E6 E7]); [done| | |done|].
  { eapply NoDup_Permutation_proper; [|exact Hnd]. by rewrite Hperm. }
  { intros t Ht%Hin Ha. pose proof (Hft t Ht) as Hc. rewrite Ha in Hc. apply Hc. }
  assert (∀ t, t ∈ w → t ∈ plan_targets p ∧ has_applied (ep_applied_claims p) t = false) as Hwt.
  { intros t Ht. assert (t ∈ todo (ep_applied_claims p) (write_order (plan_targets p))) as Htd
      by (rewrite E1; apply elem_of_app; by left).
    apply list_elem_of_filter in Htd as [Ha Ht']. by apply Hin in Ht'. }
  assert (NoDup (claim_id <$> w)) as Hndw.
  { assert (NoDup (claim_id <$> w ++ rest)) as Hall; [|by rewrite fmap_app in Hall; apply NoDup_app in Hall as [? _]].
    rewrite <-E1. eapply sublist_NoDup; [|apply fmap_sublist, sublist_filter].
    eapply NoDup_Permutation_proper; [|exact Hnd]. by rewrite Hperm. }
  exists w. split; [|destruct r as [p'|e]; [by destruct (E6 p' eq_refl) as [_ ->]|]].
  - split; try done.
    + intros t Ht. destruct (Hwt t Ht) as [Ht' Ha]. split; [done|]. split; [done|].
      pose proof (Hft t Ht') as Hc. rewrite Ha in Hc. apply Hc.
    + intros t Ht Hd t' Ht' Hd'. rewrite E2. destruct (has_applied (ep_applied_claims p) t') eqn:Ea.
      * pose proof (Hft t' Ht') as Hc. rewrite Ea in Hc. rewrite after_not_in; [done|].
        intros x Hx Hid. destruct (Hwt x Hx) as [Hx' Hxa].
        assert (by_key claim_id (plan_targets p) !! claim_id t' = Some x) by by apply by_key_lookup.
        assert (by_key claim_id (plan_targets p) !! claim_id t' = Some t') by by apply by_key_lookup.
        congruence.
      * apply after_in; [done|]. by eapply retires_last.
  - intros ->. by destruct (E7 KStalePlan eq_refl).
Qed.

Lemma effect_spec p h r h' : kwf h → wf p → fresh p h → apply_claim_attribute_update_effect p h = (r, h') →
  ∃ w, carried p h h' w ∧
    match r with
    | Ok (p', (claims, disputes)) => ep_inbox_id p' = ep_inbox_id p ∧ ep_state p' = ep_state p ∧
        ep_applied_claims p' = ep_applied_claims p ++ w ∧ disputes = ep_new_disputes p' ∧
        ∀ c, c ∈ claims ↔ c ∈ ep_applied_claims p' ∧ local_at h' (claim_id c) = Some c
    | Err e => e ≠ KStalePlan
    end.
Proof.
  intros Hw Hp Hf H. unfold apply_claim_attribute_update_effect in H.
  assert (∀ h1 e, same_jcore h h1 → e ≠ KStalePlan → ∃ w, carried p h h1 w ∧ e ≠ KStalePlan) as Hearly.
  { intros h1 e Hj He. exists []. split; [|done]. by apply carried_nil, quiet_jcore. }
  apply bind_cases in H as [(b & h1 & H1 & H)|(e & H1 & ->)]; [|done]. injection H1 as <- <-.
  apply bind_cases in H as [(p1 & h1 & H1 & H)|(e & H1 & ->)].
  2: { destruct (_ && _) in H1; [|done]. apply bind_cases in H1 as [(? & ? & _ & [=])|(e' & H1 & [= <-])].
       apply Hearly; [by eapply unreported_jcore|by eapply nse_unreported]. }
  assert (same_jcore h h1 ∧ ∃ ds ws, p1 = with_disputes ds ws p) as [Hj1 (ds & ws & ->)].
  { destruct (_ && _) in H1; [|injection H1 as <- <-; split; [done|]; exists (ep_new_disputes p), (ep_warnings p); by destruct p].
    apply bind_ok in H1 as (dw & h2 & H1 & [= <- <-]). split; [by eapply unreported_jcore|by eexists _, _]. }
  clear H1. set (p1 := with_disputes ds ws p) in *.
  assert (wf p1) as Hp1 by (split; apply Hp). assert (fresh p1 h) as Hf1 by exact Hf.
  apply bind_cases in H as [(l & h2 & H2 & H)|(e & H2 & ->)]; pose proof (list_jcore _ _ _ H2) as Hj2.
  2: { apply Hearly; [by etrans|by eapply nse_up]. }
  destruct (fresh_jcore p1 h h1 l h2 Hw Hj1 Hf1 H2) as [Hgo Hfr]. cbv zeta in H. rewrite Hgo in H. simpl in H.
  pose proof (jcore_wf _ _ Hj1 Hw) as Hw1. pose proof (jcore_wf _ _ Hj2 Hw1) as Hw2.
  assert (quiet h h2) as Hq by (apply quiet_jcore; [done|by etrans]).
  assert (∀ r3 h3, write_targets (write_order (plan_targets p1)) p1 h2 = (r3, h3) → ∃ w, carried p h h3 w ∧
    match r3 with Ok p' => p' = with_applied (ep_applied_claims p1 ++ w) p1 | Err e => e ≠ KStalePlan end) as Hws.
  { intros r3 h3 H3. destruct (write_spec p1 h2 h1 l h2 r3 h3 Hw2 Hp1 Hw1 (jcore_claims _ _ Hj2) H2 Hfr H3) as (w & Hca & Hr3).
    exists w. split; [|done]. by destruct (carried_quiet_l p1 _ _ _ _ Hq Hca); split. }
  apply bind_cases in H as [(p2 & h3 & H3 & H)|(e & H3 & ->)]; apply Hws in H3 as (w & Hca' & Hr3); [|by exists w].
  subst p2.
  pose proof (ca_wf _ _ _ _ Hca') as Hw3.
  apply bind_cases in H as [(l4 & h4 & H4 & H)|(e & H4 & ->)]; pose proof (list_jcore _ _ _ H4) as Hj4.
  2: { exists w. split; [|by eapply nse_up]. eapply carried_quiet_r; [done|by apply quiet_jcore]. }
  cbv zeta in H. set (p4 := with_trace _ _) in H.
  assert (same_jcore h3 h' ∧ match r with
    | Ok (p', (cs, ds')) => p' = tidy_warnings p4 ∧ ds' = ep_new_disputes p4 ∧
        cs = filter (λ c, c ∈ l4) (ep_applied_claims p ++ w)
    | Err e => e ≠ KStalePlan end) as [Hj5 Hr].
  { apply bind_cases in H as [([] & h5 & H5 & H)|(e & H5 & ->)]; (split; [etrans; [exact Hj4|]|]).
    - injection H as _ <-. by eapply write_trace_opt.
    - by injection H as <- _.
    - by eapply write_trace_opt.
    - by eapply (write_trace_opt _ _ _ _ H5). }
  clear H.
  exists w. split; [eapply carried_quiet_r; [done|by apply quiet_jcore]|].
  destruct r as [[p' [cs ds']]|e]; [|done]. destruct Hr as (-> & -> & ->).
  split; [done|]. split; [done|]. split; [done|]. split; [done|]. intros c.
  rewrite list_elem_of_filter, (list_elem _ _ _ c Hw3 H4), (local_at_claims _ _ (jcore_claims _ _ Hj5)). simpl. tauto.
Qed.

(** *** A whole run *)

Lemma all_behind_local l h : (∀ c, c ∈ l → local_at h (claim_id c) = Some c) → all_behind l (kh_upload h).
Proof.
  intros H. unfold all_behind. rewrite forallb_forall. intros c Hc%list_elem_of_In.
  assert (claim_files h !! claim_id c = Some (Stored c)) as Hl.
  { specialize (H c Hc). unfold local_at in H. destruct (claim_files h !! claim_id c) as [[|]|]; simpl in H; by simplify_eq. }
  apply behind_written in Hl. unfold all_behind in Hl. simpl in Hl. by rewrite andb_true_r in Hl.
Qed.

Lemma stage_quiet claims disputes h r h' : kwf h → (∀ c, c ∈ claims → local_at h (claim_id c) = Some c) →
  stage_maintainer_batch_with_durable_claims claims disputes h = (r, h') →
  quiet h h' ∧ (∀ e, r = Err e → e ≠ KStalePlan) ∧
  (r = Ok tt → uh_client (kh_upload h) = true →
    (∀ c, c ∈ claims → tracked h' c) ∧ (∀ d, d ∈ disputes → dispute_tracked (kh_upload h') d)).
Proof.
  intros Hw Hl H. pose proof (all_behind_local _ _ Hl) as Hb.
  destruct (stage_durable_calm _ _ _ _ _ Hw Hb H) as (Hw' & Hn & Hf & Htr). split; [|split; [|done]].
  - split; [done|by apply kfiles_claims|done|]. apply rtc_once. by eapply ke_stage, H.
  - intros e ->. by apply stage_error in H as [] || (apply stage_error in H; intros ->).
Qed.

Record applied_run (p : InboxEffectPlan) (h : KnowledgeHome) (r : Result KnowledgeError InboxEffectPlan)
    (h' : KnowledgeHome) (w : list Claim) : Prop := {
  ar_carried : carried p h h' w;
  ar_error e : r = Err e → e ≠ KStalePlan;
  ar_done p' : r = Ok p' → ep_state p = EffectPrepared →
    ep_state p' = EffectApplied ∧ kh_effects h' !! ep_inbox_id p = Some (Stored (EffectPlan p')) ∧ w ⊆ ep_applied_claims p' ∧
    (uh_client (kh_upload h) = true →
      (∀ c, c ∈ ep_applied_claims p' → local_at h' (claim_id c) = Some c → tracked h' c) ∧
      (∀ d, d ∈ ep_new_disputes p' → dispute_tracked (kh_upload h') d));
}.

Lemma quiet_run p h r h' : quiet h h' → (∀ e, r = Err e → e ≠ KStalePlan) → (∀ p', r = Ok p' → ep_state p ≠ EffectPrepared) →
  applied_run p h r h' [].
Proof. intros Hq He Hp. split; [by apply carried_nil|done|]. intros p' Hr Hs. by destruct (Hp p' Hr). Qed.

(** The end of a run: staging, recording the disputes, the journal. *)
Lemma finish_spec now claims p h r h' : kwf h →
  (∀ c, c ∈ claims → local_at h (claim_id c) = Some c) →
  (_ ← stage_maintainer_batch_with_durable_claims claims (ep_new_disputes p);
   team ← team_services_configured;
   _ ← (if (team : bool) then record_disputes now (ep_new_disputes p) else mret tt);
   let p := with_state EffectApplied p in
   _ ← write_plan p;
   mret p) h = (r, h') →
  quiet h h' ∧ match r with
  | Ok p' => p' = with_state EffectApplied p ∧ kh_effects h' !! ep_inbox_id p = Some (Stored (EffectPlan p')) ∧
      (uh_client (kh_upload h) = true →
       (∀ c, c ∈ claims → tracked h' c) ∧ (∀ d, d ∈ ep_new_disputes p → dispute_tracked (kh_upload h') d))
  | Err e => e ≠ KStalePlan
  end.
Proof.
  intros Hw Hl H.
  apply bind_cases in H as [([] & h1 & H1 & H)|(e & H1 & ->)];
    destruct (stage_quiet _ _ _ _ _ Hw Hl H1) as (Hq1 & He1 & Ht1); [|split; [done|by apply He1]].
  specialize (Ht1 eq_refl). pose proof (qt_wf _ _ Hq1) as Hw1.
  apply bind_cases in H as [(b & h2 & H2 & H)|(e & H2 & ->)]; [|done]. injection H2 as <- <-.
  assert (∀ r2 h2, (if uh_client (kh_upload h1) && kh_router h1 then record_disputes now (ep_new_disputes p) else mret tt) h1 = (r2, h2) →
    same_jcore h1 h2 ∧ ∀ e, r2 = Err e → e ≠ KStalePlan) as Hrec.
  { intros r2 h2 H2. destruct (_ && _) in H2; [|by injection H2 as <- <-].
    split; [by eapply record_disputes_jcore|]. intros e ->. by eapply nse_disputes. }
  apply bind_cases in H as [([] & h2 & H2 & H)|(e & H2 & ->)]; apply Hrec in H2 as [Hj2 He2].
  2: { split; [|by apply He2]. eapply quiet_trans; [exact Hq1|by apply quiet_jcore]. }
  cbv zeta in H. apply bind_cases in H as [([] & h3 & H3 & H)|(e & H3 & ->)]; pose proof (write_plan_jcore _ _ _ _ H3) as Hj3.
  2: { split; [|by eapply nse_write]. eapply quiet_trans; [exact Hq1|apply quiet_jcore; [done|by etrans]]. }
  injection H as <- <-. assert (quiet h1 h3) as Hq3 by (apply quiet_jcore; [done|by etrans]).
  split; [by eapply quiet_trans|]. split; [done|]. split.
  { apply write_yaml_ok in H3; [|apply _]. simpl in H3. rewrite H3. apply lookup_insert_eq. }
  intros Hcl. destruct (Ht1 Hcl) as [Htc Htd]. pose proof (qt_lost _ _ Hq3) as Hn.
  split; intros x Hx; [apply (nl_tracked _ _ Hn); by apply Htc|apply (nl_tracked_dispute _ _ Hn); by apply Htd].
Qed.

Lemma apply_run now p h r h' : kwf h → wf p → apply_persisted_claim_attribute_update_plan now p h = (r, h') →
  ∃ w, applied_run p h r h' w.
Proof.
  intros Hw Hp H. unfold apply_persisted_claim_attribute_update_plan in H.
  apply bind_cases in H as [([] & h1 & H1 & H)|(e & H1 & ->)]; pose proof (repair_jcore _ _ _ _ H1) as Hj1.
  2: { exists []. apply quiet_run; [by apply quiet_jcore| |done]. intros e' [= <-]. by eapply nse_repair. }
  case_bool_decide as Hst; simpl in H.
  2: { injection H as <- <-. exists []. by apply quiet_run; [apply quiet_jcore| |]. }
  pose proof (jcore_wf _ _ Hj1 Hw) as Hw1.
  apply bind_cases in H as [(p2 & h2 & H2 & H)|(e & H2 & ->)]; destruct (discard_spec _ _ _ _ Hw1 Hp H2) as [Hj2 Hd].
  2: { exists []. apply quiet_run; [apply quiet_jcore; [done|by etrans]| |done]. by intros e' [= <-]. }
  destruct Hd as (Hp2 & Hf2 & Hid2 & Hst2 & Hsub). pose proof (jcore_wf _ _ Hj2 Hw1) as Hw2.
  apply (fresh_files _ _ h2) in Hf2; [|by apply jcore_claims].
  assert (quiet h h2) as Hq2 by (apply quiet_jcore; [done|by etrans]).
  apply bind_cases in H as [([p3 [cs ds]] & h3 & H3 & H)|(e & H3 & ->)];
    destruct (effect_spec _ _ _ _ Hw2 Hp2 Hf2 H3) as (w & Hca & Hr3); apply (carried_quiet_l _ h) in Hca; try done;
    apply (carried_plan p) in Hca; try done; exists w.
  2: { split; [done| |done]. by intros e' [= <-]. }
  destruct Hr3 as (Hid3 & Hst3 & Happ & -> & Hcs).
  destruct (finish_spec now cs p3 h3 r h') as [Hq Hr]; [apply Hca|by intros c [_ ?]%Hcs|exact H|].
  split.
  - by eapply carried_quiet_r.
  - by intros e ->.
  - intros p' -> _. destruct Hr as (-> & Hj & Htr). rewrite <-Hid2, <-Hid3. split; [done|]. split; [done|].
    split; [simpl; rewrite Happ; set_solver|]. intros Hcl.
    destruct Htr as [Htc Htd]; [by rewrite (nl_client _ _ (ca_lost _ _ _ _ Hca))|]. split; [|done].
    intros c Hc Hl. apply Htc, Hcs. split; [done|]. by rewrite <-(local_at_claims _ _ (qt_claims _ _ Hq)).
Qed.

(** C19. A plan only ever writes over what it was made for.  However a run on a
    plan ends, success, error or crash: a claim file that changed holds a
    target of the plan, and held before exactly the version that the analysis
    had seen, none where it had seen none; so an edit that came in between is
    never overwritten.  And claims are retired last: when the run deprecated a
    claim, every target that replaces or keeps a claim is in place. *)
Theorem plan_never_overwrites now p h r h' : kwf h → wf p →
  apply_persisted_claim_attribute_update_plan now p h = (r, h') →
  (∀ id, local_at h' id ≠ local_at h id → ∃ t, t ∈ plan_targets p ∧ claim_id t = id ∧
    local_at h' id = Some t ∧ local_at h id = analysed p id) ∧
  (∀ t t', t ∈ plan_targets p → is_deprecated t = true → local_at h (claim_id t) ≠ Some t →
    local_at h' (claim_id t) = Some t → t' ∈ plan_targets p → is_deprecated t' = false →
    local_at h' (claim_id t') = Some t').
Proof.
  intros Hw Hp H. destruct (apply_run _ _ _ _ _ Hw Hp H) as (w & [[E1 E2 E3 _ _ _] _ _]).
  assert (∀ id, local_at h' id ≠ local_at h id → ∃ t, t ∈ w ∧ claim_id t = id ∧ local_at h' id = Some t) as Hch.
  { intros id. rewrite E1. unfold after. destruct (list_find _ w) as [[i t]|] eqn:E; [|done]. intros _.
    apply list_find_Some in E as (Hi & Hid & _). exists t. split; [by eapply list_elem_of_lookup_2|done]. }
  split.
  - intros id (t & Ht & <- & Hl)%Hch. destruct (E2 t Ht) as (? & _ & ?). by exists t.
  - intros t t' Ht Hd Hold Hnew Ht' Hd'. destruct (Hch (claim_id t)) as (x & Hx & _ & Hl); [congruence|].
    apply (E3 x); [done|congruence|done|done].
Qed.

(** C28. A plan that was carried out is with the upload queue for good.  In team
    mode, when a run on a prepared plan succeeds, the journal holds the plan
    as carried out; and from then on, whatever happens to the claims and the
    queue, each claim that the plan wrote, unless a later change had replaced
    it by the end of the run, and each dispute that it raised is in the queue
    or settled with the Maintainer, in that version or a later one. *)
Theorem applied_plan_is_staged now p h p' h' h2 : (∀ a b, revision a = revision b → a = b) →
  kinv agent_id revision h → wf p → ep_state p = EffectPrepared → uh_client (kh_upload h) = true →
  apply_persisted_claim_attribute_update_plan now p h = (Ok p', h') → rtc event h' h2 →
  kh_effects h' !! ep_inbox_id p = Some (Stored (EffectPlan p')) ∧ ep_state p' = EffectApplied ∧
  (∀ id, local_at h' id ≠ local_at h id → ∃ t, t ∈ ep_applied_claims p' ∧ local_at h' id = Some t) ∧
  (∀ c, c ∈ ep_applied_claims p' → local_at h' (claim_id c) = Some c → tracked h2 c) ∧
  (∀ d, d ∈ ep_new_disputes p' → dispute_tracked (kh_upload h2) d).
Proof.
  intros Hinj Hi Hp Hst Hcl H Hs. destruct (apply_run _ _ _ _ _ (proj1 Hi) Hp H) as (w & [[E1 _ _ _ _ E6] _ Hd]).
  destruct (Hd p' eq_refl Hst) as (Hst' & Hj & Hw & Htr). destruct (Htr Hcl) as [Htc Htd].
  assert (kstep agent_id revision h' h2) as Hk.
  { eapply knowledge_events_step; [exact Hinj| |exact Hs]. by apply (ks_inv _ _ h h'), (knowledge_events_step _ lower). }
  split; [done|]. split; [done|]. split; [|split].
  - intros id. rewrite E1. unfold after. destruct (list_find _ w) as [[i t]|] eqn:E; [|done]. intros _.
    apply list_find_Some in E as (Hx & _ & _). exists t. split; [|done]. apply Hw. by eapply list_elem_of_lookup_2.
  - intros c Hc Hl. apply (nl_tracked _ _ (ks_lost _ _ _ _ Hk)). by apply Htc.
  - intros d Hdd. apply (nl_tracked_dispute _ _ (ks_lost _ _ _ _ Hk)). by apply Htd.
Qed.
End safety.
