(* ===== verification/InboxEffectJournal.v ===== *)
(** * Plans made from an answer may be carried out *)

From S2P Require Import Prelude Storage Claim Text MemorySafety UploadQueue StepLogic UploadProofs UploadSafety.
From S2P Require Import UploadDelivery Knowledge ClaimEdit ClaimEditProofs Prepare.
From S2P Require Import InboxEffect InboxEffectProofs InboxEffectSafety.
Import Ids.

(** ** What the validators let through *)

Lemma provenance_ids field drafts batch out : provenance field drafts batch = Ok out → cdr_id <$> out = cdr_id <$> drafts.
Proof.
  revert out. induction drafts as [|d ds IH]; intros out; simpl; [by intros [= <-]|].
  intros (m & _ & (rest & Hr & [= <-])%result_bind_ok)%result_bind_ok. rewrite !fmap_cons, (IH _ Hr). by destruct m.
Qed.

Lemma prepare_claims_ids drafts allowed holder now out : prepare_claims drafts allowed holder now = Ok out →
  claim_id <$> out = cdr_id <$> drafts ∧ ∀ c, c ∈ out → claim_holder c = holder.
Proof.
  revert out. induction drafts as [|d ds IH]; intros out; simpl.
  { intros [= <-]. split; [done|]. by intros c ?%not_elem_of_nil. }
  destruct (ClaimId_from_str (cdr_id d)) as [id|] eqn:Eid; [|done].
  intros (src & _ & (rest & Hr & [= <-])%result_bind_ok)%result_bind_ok. apply IH in Hr as [Hids Hh].
  rewrite !fmap_cons, Hids. split; [|by intros c [->|?]%elem_of_cons; [|apply Hh]].
  unfold ClaimId_from_str, prefixed_from_str in Eid. repeat case_match; by simplify_eq/=.
Qed.

Lemma next_update_later now previous : (previous < Clock.next_claim_update_at now previous)%Z.
Proof.
  unfold Clock.next_claim_update_at. pose proof (Z.le_max_r (Clock.truncate_to_second now)
    (previous + 1 * Ids.nanos_per_sec)). unfold Ids.nanos_per_sec in *. lia.
Qed.

Lemma prepare_updates_spec drafts local allowed now seen out :
  prepare_claim_updates drafts local allowed now seen = Ok out →
  NoDup (claim_id <$> out) ∧ ∀ c, c ∈ out → claim_id c ∉ seen ∧
    ∃ e, local !! claim_id c = Some e ∧ (effective_updated_at e < effective_updated_at c)%Z.
Proof.
  revert seen out. induction drafts as [|d ds IH]; intros seen out; simpl.
  { intros [= <-]. split; [constructor|]. by intros c ?%not_elem_of_nil. }
  destruct (ClaimId_from_str (cdr_id d)) as [id|]; [|done]. destruct (local !! id) as [e|] eqn:El; [|done].
  case_bool_decide as Hs; [done|]. destruct (cdr_status d); [|done].
  intros (st & _ & (src & _ & (rest & Hr & [= <-])%result_bind_ok)%result_bind_ok)%result_bind_ok.
  apply IH in Hr as [Hnd Hc]. split.
  - simpl. constructor; [|done]. intros (c & Heq & Hin)%list_elem_of_fmap. destruct (Hc c Hin) as [Hnot _].
    apply Hnot. rewrite <-Heq. apply elem_of_union_l, elem_of_singleton_2. done.
  - intros c [->|Hin]%elem_of_cons.
    + split; [done|]. exists e. split; [done|]. unfold effective_updated_at at 2. simpl. apply next_update_later.
    + destruct (Hc c Hin) as [Hnot ?]. split; [|done]. intros Hx. by apply Hnot, elem_of_union_r.
Qed.

Lemma editable_nodup agent_id ids seen l out : editable_claims agent_id ids seen l = Ok out →
  NoDup (claim_id <$> out) ∧ ∀ c, c ∈ out → claim_id c ∉ seen.
Proof.
  revert seen out. induction l as [|c l IH]; intros seen out; simpl.
  { intros [= <-]. split; [constructor|]. by intros c ?%not_elem_of_nil. }
  case_bool_decide; [|done]. simpl. case_bool_decide as Hs; [done|].
  intros (rest & [Hnd Hc]%IH & [= <-])%result_bind_ok.
  assert (∀ x, x ∈ rest → claim_id x ∉ seen) as Hc' by (intros x Hx Hin; apply (Hc x Hx); by apply elem_of_union_r).
  destruct (_ || _); [|done]. split.
  - simpl. constructor; [|done]. intros (x & Heq & Hin)%list_elem_of_fmap. apply (Hc x Hin). rewrite <-Heq.
    by apply elem_of_union_l, elem_of_singleton_2.
  - intros x [->|Hin]%elem_of_cons; [done|by apply Hc'].
Qed.

Lemma planned_targets f (updates : list Claim) :
  pcu_target <$> ((λ t, {| pcu_target := t; pcu_preimage_hash := f t |}) <$> updates) = updates.
Proof. induction updates as [|t ts IH]; [done|]. rewrite !fmap_cons, IH. done. Qed.

Lemma members_no_stale hash seen messages e : effect_members_loop hash seen messages = Err e → e ≠ KStalePlan.
Proof.
  revert seen e. induction messages as [|m ms IH]; intros seen e; simpl; [done|]. case_bool_decide; [by intros [= <-]|].
  destruct (effect_members_loop hash _ ms) eqn:E; [done|]. intros [= <-]. by eapply IH.
Qed.

Lemma members_loop_ids hash seen messages ms : effect_members_loop hash seen messages = Ok ms →
  iem_inbox_id <$> ms = msg_id <$> messages ∧ NoDup (msg_id <$> messages) ∧ ∀ m, m ∈ messages → msg_id m ∉ seen.
Proof.
  revert seen ms. induction messages as [|m l IH]; intros seen ms; simpl.
  { intros [= <-]. split; [done|]. split; [constructor|]. by intros m ?%not_elem_of_nil. }
  case_bool_decide as Hs; [done|]. intros (rest & (Hids & Hnd & Hn)%IH & [= <-])%result_bind_ok.
  rewrite !fmap_cons, Hids. split; [done|]. split.
  - constructor; [|done]. intros (x & Heq & Hx)%list_elem_of_fmap. apply (Hn x Hx). rewrite <-Heq.
    by apply elem_of_union_l, elem_of_singleton_2.
  - intros x [->|Hx]%elem_of_cons; [done|]. intros Hin. by apply (Hn x Hx), elem_of_union_r.
Qed.

Lemma members_ids hash messages ms : effect_members_from_messages hash messages = Ok ms →
  iem_inbox_id <$> ms = msg_id <$> messages.
Proof. by intros [? _]%members_loop_ids. Qed.

Lemma editable_no_stale agent_id ids seen l e : editable_claims agent_id ids seen l = Err e → e ≠ KStalePlan.
Proof.
  revert seen e. induction l as [|c l IH]; intros seen e; simpl; [done|]. case_bool_decide; simpl; [|by intros [= <-]].
  case_bool_decide; [by intros [= <-]|]. destruct (editable_claims agent_id ids _ l) eqn:E; [done|].
  intros [= <-]. by eapply IH.
Qed.

(** ** Plans made from an answer *)

Section batches.
Context (message_hash : InboxMessage → string) (members_hash : list InboxEffectMember → string)
  (claim_hash : Claim → string) (agent_id : AgentId)
  (generate : list InboxMessage → list Claim → DateTime * InternalizeOutcome)
  (trace_id_for : DateTime → string → list SourceId → list ClaimId → TraceId).

(** The ids given to new claims are new: they are minted when the
    placeholders of the answer are resolved. *)
Definition fresh_ids : Prop := ∀ messages local,
  let drafts := io_new_claims (generate messages local).2 in
  NoDup (cdr_id <$> drafts) ∧ ∀ d, d ∈ drafts → cdr_id d ∉ claim_id <$> local.

Context (Hgen : fresh_ids).

Local Notation wf := (plan_wf agent_id).

Lemma prepare_answer_spec messages local now drafts new updates disputes :
  prepare_answer agent_id messages local now drafts = Ok (new, updates, disputes) →
  claim_id <$> new = cdr_id <$> io_new_claims drafts ∧ (∀ c, c ∈ new ++ updates → claim_holder c = agent_id) ∧
  NoDup (claim_id <$> updates) ∧
  ∀ c, c ∈ updates → ∃ e, by_key claim_id local !! claim_id c = Some e ∧ (effective_updated_at e < effective_updated_at c)%Z.
Proof.
  unfold prepare_answer. intros H.
  apply result_bind_ok in H as (o & H0 & H).
  apply result_bind_ok in H as ([] & _ & H). apply result_bind_ok in H as ([] & _ & H).
  apply result_bind_ok in H as (ids & _ & H). apply result_bind_ok in H as (ncs & Hn & H).
  apply result_bind_ok in H as (ups & Hu & H). apply result_bind_ok in H as ([] & Hh & H).
  apply result_bind_ok in H as (ds & _ & H). apply result_bind_ok in H as ([] & _ & [= <- <- <-]).
  apply prepare_claims_ids in Hn as [Hids Hholder]. apply prepare_updates_spec in Hu as [Hnd Hups].
  unfold ensure_cau_policy_provenance in H0. apply result_bind_ok in H0 as (pn & Hpn & H0).
  apply result_bind_ok in H0 as (pu & _ & [= <-]). simpl in *. apply provenance_ids in Hpn.
  split; [congruence|]. split; [|split; [done|]].
  - intros c [?|Hc]%elem_of_app; [by apply Hholder|].
    destruct (forallb _ ups) eqn:E; [|done]. rewrite forallb_forall in E. apply list_elem_of_In, E in Hc.
    by apply bool_decide_eq_true in Hc.
  - intros c Hc. by destruct (Hups c Hc).
Qed.

Lemma prepare_plan messages h r h' :
  prepare_claim_attribute_update_effect message_hash members_hash claim_hash agent_id generate trace_id_for messages h = (r, h') →
  same_kcore h h' ∧ match r with
  | Ok p => wf p ∧ ep_state p = EffectPrepared ∧ ep_applied_claims p = [] ∧
      effect_members_from_messages message_hash messages = Ok (effect_plan_members p) ∧
      ep_inbox_id p = default EmptyString (head (iem_inbox_id <$> effect_plan_members p)) ∧
      (1 < length messages → is_Some (ep_batch_hash p))
  | Err e => e ≠ KStalePlan
  end.
Proof.
  unfold prepare_claim_attribute_update_effect. intros H.
  apply bind_cases in H as [(ms & h0 & H0 & H)|(e & H0 & ->)]; injection H0 as Hms <-.
  2: { split; [done|by eapply members_no_stale]. }
  destruct ms as [|canonical ms]; [by injection H as <- <-|].
  apply bind_cases in H as [(all & h1 & H1 & H)|(e & H1 & ->)]; pose proof (list_claims_kcore _ _ _ H1) as Hk.
  2: { split; [done|by eapply nse_up]. }
  cbv zeta in H. apply bind_cases in H as [(editable & h2 & H2 & H)|(e & H2 & ->)]; injection H2 as Hed <-.
  2: { split; [done|by eapply editable_no_stale]. }
  set (local := sort_by _ editable) in *. destruct (generate messages local) as [now answer] eqn:Eg.
  apply bind_cases in H as [(prep & h2 & H2 & H)|(e & H2 & ->)]; injection H2 as Hpr <-.
  2: { split; [done|]. destruct (prepare_answer _ _ _ _ _); [done|]. by injection Hpr as <-. }
  destruct (prepare_answer _ _ _ _ _) as [[[new updates] disputes]|] eqn:Ea; [|done]. injection Hpr as <-.
  pose proof (Hgen messages local) as [Hfnd Hfresh]. rewrite Eg in Hfnd, Hfresh. simpl in Hfnd, Hfresh.
  apply prepare_answer_spec in Ea as (Hids & Hholder & Hnd & Hups).
  assert (NoDup (claim_id <$> local)) as Hndl.
  { apply (NoDup_Permutation_proper (claim_id <$> local) (claim_id <$> editable)).
    - apply fmap_Permutation, sort_by_perm.
    - by apply editable_nodup in Hed as [? _]. }
  assert (∀ c, c ∈ new → claim_id c ∉ claim_id <$> local) as Hnew.
  { intros c Hc. apply (list_elem_of_fmap_2 claim_id) in Hc. rewrite Hids in Hc.
    apply list_elem_of_fmap in Hc as (d & -> & Hd). by apply Hfresh. }
  assert (∀ c, c ∈ updates → claim_id c ∈ claim_id <$> local) as Hup.
  { intros c Hc. destruct (Hups c Hc) as (e & He & _). apply by_key_lookup in He as [He <-]; [|done].
    by apply list_elem_of_fmap_2. }
  set (batch := if bool_decide _ then _ else _) in H. destruct batch as [bm bh] eqn:Eb. injection H as <- <-.
  split; [done|]. split; [split|]; unfold plan_targets; simpl; rewrite ?planned_targets.
  - rewrite fmap_app. apply NoDup_app. split; [by rewrite Hids|]. split; [|done].
    intros id (c & -> & Hc)%list_elem_of_fmap Hx. apply (Hnew c Hc).
    apply list_elem_of_fmap in Hx as (x & -> & Hx). by apply Hup.
  - constructor.
  - right. apply list_subseteq_nil.
  - exact Hholder.
  - intros t a Ht. unfold analysed. simpl. intros Ha. apply elem_of_app in Ht as [Ht|Ht].
    + apply by_key_lookup in Ha as [Ha Heq]; [|done]. destruct (Hnew t Ht). rewrite <-Heq. by apply list_elem_of_fmap_2.
    + destruct (Hups t Ht) as (e & He & Hlt). congruence.
  - split; [done|]. split; [done|]. rewrite Hms. apply members_ids in Hms as Hlen.
    apply (f_equal length) in Hlen. rewrite !length_fmap in Hlen.
    subst batch. unfold effect_plan_members. simpl. case_bool_decide as Hone; injection Eb as <- <-.
    + destruct ms; [|done]. split; [by destruct canonical|]. split; [done|]. simpl in Hlen. lia.
    + split; [done|]. split; [done|]. by eexists.
Qed.
End batches.

(** * Journals of plans, and every run on a batch of messages *)

Section journals.
Context (agent_id : AgentId).

Local Notation wf := (plan_wf agent_id).

(** ** Journals *)

(** Every journalled plan may be carried out. *)
Definition journal_ok (h : KnowledgeHome) : Prop :=
  ∀ id p, kh_effects h !! id = Some (Stored (EffectPlan p)) → wf p ∧ ep_inbox_id p = id.

(** Which message a plan is journalled under, and the messages it answers. *)
Definition key_of (p : InboxEffectPlan) : InboxId * list InboxEffectMember := (ep_inbox_id p, effect_plan_members p).

(** Journals stay in order, and no entry changes but that of [k]. *)
Definition jstep (k : option InboxId) : relation KnowledgeHome := λ h h',
  (journal_ok h → journal_ok h') ∧
  ∀ id f, kh_effects h !! id = Some f → Some id ≠ k → kh_effects h' !! id = Some f.

#[export] Instance jstep_preorder k : PreOrder (jstep k).
Proof. split; [by intros h|]. intros h1 h2 h3 [? ?] [? ?]. split; auto. Qed.

Lemma jstep_weaken k h h' : jstep None h h' → jstep k h h'.
Proof. intros [? H]. split; [done|]. intros id f Hf _. by apply H. Qed.

Section key.
Context (K : InboxId * list InboxEffectMember).

Local Notation jsafe := (jstep (Some K.1)).

Definition good (p : InboxEffectPlan) : Prop := wf p ∧ key_of p = K.

Lemma jsafe_effects k h h' : kh_effects h' = kh_effects h → jstep k h h'.
Proof. intros He. split; [|by rewrite He]. intros H id p. rewrite He. exact (H id p). Qed.

Lemma jsafe_kcore {A} k (m : KM A) : preserves same_kcore m → preserves (jstep k) m.
Proof. intros Hm h r h' H. by apply jsafe_effects, kcore_effects, (Hm _ _ _ H). Qed.

Lemma jsafe_write {A} (d : Dir KnowledgeHome A) key v :
  (∀ m h, kh_effects (dir_set d m h) = kh_effects h) → preserves jsafe (write_yaml_atomic (E:=KnowledgeError) d key v).
Proof.
  intros Hd. apply preserves_bind; [apply _|apply jsafe_kcore, io_kcore|].
  intros _ h r h' [= _ <-]. by apply jsafe_effects.
Qed.

Lemma jsafe_plan p : good p → preserves jsafe (write_plan p).
Proof.
  intros [Hp HK]. apply preserves_bind; [apply _|apply jsafe_kcore, io_kcore|].
  intros _ h r h' [= _ <-]. split.
  - intros H id p'. simpl. rewrite lookup_insert_Some. intros [[<- [= <-]]|[_ Hl]]; [done|by eapply H].
  - intros id f Hf Hne. simpl. rewrite lookup_insert_ne; [done|]. intros Heq. apply Hne. by rewrite <-HK, <-Heq.
Qed.

Lemma jsafe_try_read {A B} (d : Dir KnowledgeHome A) key (f : Result KnowledgeError A → KM B) :
  (∀ r, preserves jsafe (f r)) → preserves jsafe (m_try (read_yaml d key) ≫= f).
Proof. intros Hf. apply preserves_bind; [apply _|apply preserves_m_try, jsafe_kcore, read_kcore|done]. Qed.

Ltac jsafe_leaf := first [apply preserves_ret, _|apply preserves_fail, _|by apply jsafe_write].

Lemma record_kcore id : preserves same_kcore (read_inbox_effect_record id).
Proof.
  apply preserves_bind; [apply _|apply preserves_m_try, read_kcore|].
  intros [v|e]; repeat case_match; first [apply preserves_ret, _|apply preserves_fail, _].
Qed.

Lemma record_some id e h h' : read_inbox_effect_record id h = (Ok (Some e), h') → kh_effects h !! id = Some (Stored e).
Proof.
  unfold read_inbox_effect_record. rewrite m_try_bind. destruct (read_yaml effects_dir id h) as [[v|e'] h1] eqn:E.
  - intros [= <- _]. exact (dir_get_kcore _ _ _ _ _ E _ eq_refl).
  - repeat case_match; by intros [=].
Qed.

Lemma record_none id h h' : read_inbox_effect_record id h = (Ok None, h') → kh_effects h !! id = None.
Proof.
  unfold read_inbox_effect_record. rewrite m_try_bind. destruct (read_yaml effects_dir id h) as [[v|e'] h1] eqn:E; [done|].
  intros H. assert (e' = KStorage FileNotFound) as -> by (repeat case_match; by simplify_eq).
  by apply read_not_found in E; [|apply _].
Qed.

(** A reference is only written where there is no record. *)
Lemma repair_loop_spec canonical bh ms h r h' : repair_refs_loop canonical bh ms h = (r, h') →
  jstep None h h' ∧ (r = Ok tt → ∀ m, m ∈ ms → kh_effects h' !! iem_inbox_id m =
    Some (Stored (EffectRef {| er_schema_version := INBOX_EFFECT_SCHEMA_VERSION; er_canonical_inbox_id := canonical; er_batch_hash := bh |}))).
Proof.
  revert h r h'. induction ms as [|m ms IH]; intros h r h' H; cbn [repair_refs_loop] in H.
  { injection H as <- <-. split; [done|]. by intros _ m ?%not_elem_of_nil. }
  cbv zeta in H. set (expected := EffectRef _) in *.
  apply bind_cases in H as [(e & h1 & H1 & H)|(e & H1 & ->)].
  2: { split; [|done]. by eapply jsafe_kcore, H1; apply record_kcore. }
  pose proof (record_kcore _ _ _ _ H1) as Hk1. pose proof (jsafe_effects None _ _ (kcore_effects _ _ Hk1)) as Hj1.
  assert (∀ r2 h2, match e with Some e => if bool_decide (e = expected) then mret tt else fail (KEffect "different batch plan" (iem_inbox_id m))
      | None => write_yaml_atomic effects_dir (iem_inbox_id m) expected end h1 = (r2, h2) →
    jstep None h1 h2 ∧ (r2 = Ok tt → kh_effects h2 !! iem_inbox_id m = Some (Stored expected))) as Hstep.
  { intros r2 h2 H2. destruct e as [e|].
    - apply record_some in H1. case_bool_decide as He; injection H2 as <- <-; (split; [done|]); [|done].
      intros _. by rewrite (kcore_effects _ _ Hk1), H1, He.
    - apply record_none in H1. apply (write_yaml_inv effects_dir) in H2 as [[-> Hw]|[He Hw]]; simpl in Hw.
      + split; [|intros _; by rewrite Hw, lookup_insert_eq]. rewrite (kcore_effects _ _ Hk1) in Hw. split.
        * intros Hok id p. rewrite Hw, lookup_insert_Some. intros [[_ [=]]|[_ Hl]]. apply (Hok id p).
          by rewrite (kcore_effects _ _ Hk1).
        * intros id f. rewrite (kcore_effects _ _ Hk1), Hw. intros Hf _. rewrite lookup_insert_ne; [done|]. intros <-. congruence.
      + split; [|by rewrite He]. by apply jsafe_effects. }
  apply bind_cases in H as [([] & h2 & H2 & H)|(e' & H2 & ->)]; apply Hstep in H2 as [Hj2 Hs2].
  2: { split; [by etrans|done]. }
  apply IH in H as [Hj3 Hs3]. split; [etrans; [exact Hj1|by etrans]|]. intros Hr x [->|Hx]%elem_of_cons; [|by apply Hs3].
  apply (proj2 Hj3); [by apply Hs2|done].
Qed.

Lemma repair_spec p h r h' : repair_claim_attribute_update_refs p h = (r, h') → jstep None h h'.
Proof.
  unfold repair_claim_attribute_update_refs. destruct (ep_batch_hash p); [|by intros [= _ <-]].
  intros H. by apply repair_loop_spec in H as [? _].
Qed.

Lemma reported_jsafe : preserves jsafe read_reported.
Proof. apply jsafe_try_read. intros [v|e]; repeat case_match; jsafe_leaf. Qed.

Lemma contains_jsafe claims : preserves jsafe (contains_claim_set claims).
Proof. apply preserves_bind; [apply _|apply reported_jsafe|]. intros f. jsafe_leaf. Qed.

Lemma unreported_jsafe disputes accepted warnings : preserves jsafe (unreported_disputes disputes accepted warnings).
Proof.
  revert accepted warnings. induction disputes as [|d ds IH]; intros accepted warnings; simpl; [jsafe_leaf|].
  apply preserves_bind; [apply _|apply contains_jsafe|]. intros []; simpl; [apply IH|].
  case_bool_decide; [apply IH|]. apply preserves_bind; [apply _|apply IH|]. intros rest. jsafe_leaf.
Qed.

Lemma record_disputes_jsafe now ds : preserves jsafe (record_disputes now ds).
Proof.
  induction ds as [|d ds IH]; simpl; [jsafe_leaf|]. apply preserves_bind; [apply _| |intros _; exact IH].
  apply preserves_bind; [apply _|apply contains_jsafe|]. intros []; simpl; [jsafe_leaf|].
  apply preserves_bind; [apply _| |intros _; jsafe_leaf].
  apply preserves_bind; [apply _|apply reported_jsafe|]. intros f. by apply jsafe_write.
Qed.

Lemma trace_jsafe o : preserves jsafe (match o with Some t => write_plan_trace t | None => mret tt end).
Proof.
  destruct o as [t|]; [|jsafe_leaf]. apply jsafe_try_read.
  intros [v|e]; [case_bool_decide|]; repeat case_match; jsafe_leaf.
Qed.

(** [m] keeps the journals in order, and a plan that it returns is in order. *)
Definition good_plan {A} (plan : A → InboxEffectPlan) (m : KM A) : Prop :=
  ∀ h r h', m h = (r, h') → jsafe h h' ∧ ∀ a, r = Ok a → good (plan a).

Lemma good_bind {A B} (Q : A → Prop) (plan : B → InboxEffectPlan) (m : KM A) (f : A → KM B) :
  (∀ h r h', m h = (r, h') → jsafe h h' ∧ ∀ a, r = Ok a → Q a) → (∀ a, Q a → good_plan plan (f a)) →
  good_plan plan (m ≫= f).
Proof.
  intros Hm Hf h r h' [(a & h1 & H1 & H2)|(e & H1 & ->)]%bind_cases.
  - apply Hm in H1 as [Hj Ha]. specialize (Ha a eq_refl). destruct (Hf a Ha _ _ _ H2) as [Hj2 ?].
    split; [by etrans|done].
  - apply Hm in H1 as [Hj _]. split; [done|]. by intros a [=].
Qed.

Lemma good_step {A B} (plan : B → InboxEffectPlan) (m : KM A) (f : A → KM B) :
  preserves jsafe m → (∀ a, good_plan plan (f a)) → good_plan plan (m ≫= f).
Proof.
  intros Hm Hf. apply (good_bind (λ _, True)); [|auto]. intros h r h' H. split; [by eapply Hm|done].
Qed.

Lemma good_ret {A} (plan : A → InboxEffectPlan) a : good (plan a) → good_plan plan (mret a).
Proof. intros Ha h r h' [= <- <-]. split; [done|]. by intros a' [= <-]. Qed.

Lemma discard_good p : good p → good_plan id (discard_stale_inbox_plan p).
Proof.
  intros Hp. apply good_step; [apply jsafe_kcore, list_claims_kcore|]. intros l. cbv zeta.
  set (p1 := with_applied _ p). assert (good p1) as [Hp1 HK] by (split; [by apply observed_wf, Hp|apply Hp]).
  destruct (negb _); [by apply good_ret|].
  assert (good (discarded l p1)) as Hd.
  { split; [|done]. split; [constructor|apply Hp1|by left|by intros t ?%not_elem_of_nil|by intros t a ?%not_elem_of_nil]. }
  apply good_step; [by apply jsafe_plan|]. intros _. by apply good_ret.
Qed.

Lemma write_targets_good ts p : good p → ts ⊆ plan_targets p → good_plan id (write_targets ts p).
Proof.
  revert p. induction ts as [|t ts IH]; intros p Hp Hts; cbn [write_targets]; [by apply good_ret|].
  assert (t ∈ plan_targets p) as Ht by (apply Hts; left).
  assert (ts ⊆ plan_targets p) as Hts' by (intros x Hx; apply Hts; by right).
  destruct (has_applied (ep_applied_claims p) t) eqn:Ea; [by apply IH|].
  assert (good (with_applied (ep_applied_claims p ++ [t]) p)) as Hp'.
  { destruct Hp as [[P1 P2 P3 P4 P5] HK]. split; [|done]. split; try done.
    - simpl. rewrite fmap_app. apply NoDup_app. split; [done|]. split; [|by repeat constructor; apply not_elem_of_nil].
      intros x (a & -> & Ha)%list_elem_of_fmap Hx. simpl in Hx. apply list_elem_of_singleton in Hx.
      apply not_true_iff_false in Ea. apply Ea, has_applied_spec. eauto.
    - destruct P3 as [?|P3]; [by left|right]. intros x [Hx|Heq%list_elem_of_singleton]%elem_of_app; [by apply P3|by subst]. }
  apply good_step.
  { intros h r h' H. apply write_claim_inv in H as [[_ Hk]|[_ Hk]]; apply jsafe_effects; exact (kcore_effects _ _ Hk). }
  intros _. apply good_step; [by apply jsafe_plan|]. intros _. by apply IH.
Qed.

Lemma effect_good p : good p → good_plan fst (apply_claim_attribute_update_effect p).
Proof.
  intros Hp. unfold apply_claim_attribute_update_effect.
  apply good_step; [apply preserves_gets, _|]. intros team. apply (good_bind good).
  { intros h r h' H. destruct team; [|injection H as <- <-; split; [done|by intros a [= <-]]].
    apply bind_cases in H as [(dw & h1 & H1 & [= <- <-])|(e & H1 & ->)]; apply unreported_jsafe in H1; (split; [done|]).
    - intros a [= <-]. destruct Hp as [Hp HK]. split; [|done]. by split; apply Hp.
    - done. }
  clear p Hp. intros p Hp. apply good_step; [apply jsafe_kcore, list_claims_kcore|]. intros l. cbv zeta.
  destruct (negb _).
  { intros h r h' [= <- <-]. split; [done|]. by intros a [=]. }
  apply (good_bind good); [apply (write_targets_good _ _ Hp)|].
  { intros t. by rewrite write_order_perm. }
  clear p Hp. intros p Hp. apply good_step; [apply jsafe_kcore, list_claims_kcore|]. intros l'. cbv zeta.
  apply good_step; [apply trace_jsafe|]. intros _. apply good_ret. simpl. destruct Hp as [Hp HK]. split; [|done]. by split; apply Hp.
Qed.

Lemma stage_jsafe claims disputes h r h' : kwf h → (∀ c, c ∈ claims → local_at h (claim_id c) = Some c) →
  stage_maintainer_batch_with_durable_claims claims disputes h = (r, h') → jsafe h h'.
Proof.
  intros Hw Hl H. destruct (stage_durable_calm _ _ _ _ _ Hw (all_behind_local _ _ Hl) H) as (_ & _ & Hf & _).
  apply jsafe_effects. unfold kfiles in Hf. congruence.
Qed.

End key.

(** ** A run on one plan *)

Definition stored (h : KnowledgeHome) (p : InboxEffectPlan) : Prop :=
  kh_effects h !! ep_inbox_id p = Some (Stored (EffectPlan p)).

(** What a claim becomes: itself, or a later version of the agent's. *)
Definition claims_forward : relation KnowledgeHome := λ h h', ∀ id c, local_at h id = Some c →
  ∃ c', local_at h' id = Some c' ∧
    (c' = c ∨ claim_holder c' = agent_id ∧ (effective_updated_at c < effective_updated_at c')%Z).

#[export] Instance claims_forward_preorder : PreOrder claims_forward.
Proof.
  split; [intros h id c Hc; exists c; auto|]. intros h1 h2 h3 H12 H23 id c Hc.
  destruct (H12 id c Hc) as (c2 & Hc2 & H2). destruct (H23 id c2 Hc2) as (c3 & Hc3 & H3). exists c3. split; [done|].
  destruct H2 as [->|[? ?]]; [done|]. right. destruct H3 as [->|[? ?]]; [done|]. split; [done|lia].
Qed.

Lemma forward_claims h h' : claim_files h' = claim_files h → claims_forward h h'.
Proof. intros Hf id c Hc. exists c. rewrite (local_at_claims _ _ Hf). auto. Qed.

Context (lower : Z → Text) (revision : Claim → string).

Lemma carried_forward p h h' w : wf p → carried agent_id lower revision p h h' w → claims_forward h h'.
Proof.
  intros Hp Hc id c Hl. rewrite (ca_local _ _ _ _ _ _ _ Hc). unfold after.
  destruct (list_find (λ t, claim_id t = id) w) as [[i t]|] eqn:E; [|exists c; auto].
  apply list_find_Some in E as (Hi & <- & _). apply list_elem_of_lookup_2 in Hi.
  destruct (ca_target _ _ _ _ _ _ _ Hc t Hi) as (Ht & _ & Ha). exists t. split; [done|]. right.
  split; [by apply (pw_holder _ _ Hp)|]. apply (pw_later _ _ Hp _ _ Ht). congruence.
Qed.

Record run (h h' : KnowledgeHome) : Prop := {
  rn_wf : kwf h';
  rn_journal : journal_ok h';
  rn_forward : claims_forward h h';
  rn_lost : never_lost (kh_upload h) (kh_upload h');
  rn_events : rtc (knowledge_event agent_id lower revision) h h';
}.

Lemma run_trans h1 h2 h3 : run h1 h2 → run h2 h3 → run h1 h3.
Proof. intros [? ? ? ? ?] [? ? ? ? ?]. split; [done|done|by etrans..]. Qed.

Lemma run_quiet k h h' : kwf h → journal_ok h → same_jcore h h' → jstep k h h' → run h h'.
Proof.
  intros Hw Hj Hs [Hj' _]. destruct (quiet_jcore agent_id lower revision _ _ Hw Hs). split; [done|auto|by apply forward_claims|done|done].
Qed.

Lemma run_kcore h h' : kwf h → journal_ok h → same_kcore h h' → run h h'.
Proof. intros Hw Hj Hk. apply (run_quiet None); [done|done|by apply kcore_jcore|]. by apply jsafe_effects, kcore_effects. Qed.

(** The entry that a run on [p] may change. *)
Definition touched (p : InboxEffectPlan) : option InboxId :=
  if decide (ep_state p = EffectPrepared) then Some (ep_inbox_id p) else None.

Lemma apply_journal now p h r h' : kwf h → wf p → apply_persisted_claim_attribute_update_plan now p h = (r, h') →
  jstep (touched p) h h' ∧ ∀ p', r = Ok p' → wf p' ∧ key_of p' = key_of p.
Proof.
  intros Hw Hp H. unfold apply_persisted_claim_attribute_update_plan in H.
  apply bind_cases in H as [([] & h1 & H1 & H)|(e & H1 & ->)]; pose proof (repair_jcore _ _ _ _ H1) as Hj1;
    apply repair_spec in H1; [|split; [by apply jstep_weaken|done]].
  unfold touched. case_bool_decide as Hst; simpl in H.
  2: { injection H as <- <-. rewrite decide_False by done. split; [done|]. by intros p' [= <-]. }
  rewrite decide_True by done. apply (jstep_weaken (Some (ep_inbox_id p))) in H1.
  assert (good (key_of p) p) as Hg by done. pose proof (jcore_wf _ _ Hj1 Hw) as Hw1.
  apply bind_cases in H as [(p2 & h2 & H2 & H)|(e & H2 & ->)]; destruct (discard_good (key_of p) p Hg _ _ _ H2) as [Hs2 Hg2];
    [|split; [by etrans|done]]. specialize (Hg2 p2 eq_refl). simpl in Hg2.
  destruct (discard_spec _ _ _ _ _ Hw1 Hp H2) as (Hj2 & _ & Hf2 & _). apply (fresh_files _ _ h2) in Hf2; [|by apply jcore_claims].
  pose proof (jcore_wf _ _ Hj2 Hw1) as Hw2.
  apply bind_cases in H as [([p3 [cs ds]] & h3 & H3 & H)|(e & H3 & ->)];
    destruct (effect_good (key_of p) p2 Hg2 _ _ _ H3) as [Hs3 Hg3]; [|split; [etrans; [done|by etrans]|done]].
  specialize (Hg3 _ eq_refl). simpl in Hg3.
  destruct (effect_spec agent_id lower revision _ _ _ _ Hw2 (proj1 Hg2) Hf2 H3) as (w & Hca & Hid3 & Hst3 & Happ & -> & Hcs).
  assert (jstep (Some (ep_inbox_id p)) h h3) as Hs by (etrans; [exact H1|by etrans]).
  apply bind_cases in H as [([] & h4 & H4 & H)|(e & H4 & ->)];
    apply (stage_jsafe (key_of p)) in H4; try apply Hca; try (by intros c [_ ?]%Hcs); [|split; [by etrans|done]].
  apply bind_cases in H as [(b & h5 & H5 & H)|(e & H5 & ->)]; [|done]. injection H5 as <- <-.
  assert (∀ r5 h5, (if uh_client (kh_upload h4) && kh_router h4 then record_disputes now (ep_new_disputes p3) else mret tt) h4 = (r5, h5) →
    jstep (Some (ep_inbox_id p)) h4 h5) as Hrec.
  { intros r5 h5 H5. destruct (_ && _) in H5; [|by injection H5 as _ <-]. by apply (record_disputes_jsafe (key_of p)) in H5. }
  apply bind_cases in H as [([] & h5 & H5 & H)|(e & H5 & ->)]; apply Hrec in H5; [|split; [etrans; [exact Hs|by etrans]|done]].
  cbv zeta in H. assert (good (key_of p) (with_state EffectApplied p3)) as Hg4 by (destruct Hg3 as [[] HK]; split; [by split|done]).
  apply bind_cases in H as [([] & h6 & H6 & H)|(e & H6 & ->)]; apply (jsafe_plan (key_of p) _ Hg4) in H6;
    [|split; [etrans; [exact Hs|etrans; [done|by etrans]]|done]].
  injection H as <- <-. split; [etrans; [exact Hs|etrans; [done|by etrans]]|]. by intros p' [= <-].
Qed.

Lemma apply_one now p h r h' : kwf h → journal_ok h → wf p → apply_persisted_claim_attribute_update_plan now p h = (r, h') →
  run h h' ∧ jstep (touched p) h h' ∧ r ≠ Err KStalePlan ∧ ∀ p', r = Ok p' →
    key_of p' = key_of p ∧ ep_state p' = EffectApplied ∧ (stored h p ∨ ep_state p = EffectPrepared → stored h' p').
Proof.
  intros Hw Hj Hp H. destruct (apply_run agent_id lower revision _ _ _ _ _ Hw Hp H) as (w & [Hc He Hd]).
  destruct (apply_journal _ _ _ _ _ Hw Hp H) as [Hs Hg]. split; [|split; [done|split]].
  - pose proof (carried_forward _ _ _ _ Hp Hc). destruct Hc. split; try done. by apply Hs.
  - intros ->. by apply (He KStalePlan).
  - intros p' ->. destruct (Hg p' eq_refl) as [_ HK]. split; [done|].
    destruct (decide (ep_state p = EffectPrepared)) as [Hst|Hst].
    + destruct (Hd p' eq_refl Hst) as (? & Hl & _). split; [done|]. intros _. unfold stored.
      injection HK as -> _. done.
    + assert (p' = p) as ->.
      { unfold apply_persisted_claim_attribute_update_plan in H. apply bind_ok in H as ([] & h1 & _ & H).
        rewrite bool_decide_eq_false_2 in H by done. by injection H as <-. }
      split; [by destruct (ep_state p)|]. intros [Hl|?]; [|done]. apply (proj2 Hs); [done|].
      unfold touched. by rewrite decide_False.
Qed.
End journals.
