(* ===== verification/InboxEffectBatches.v ===== *)
(** * Every message of a batch is settled, once *)

From S2P Require Import Prelude Storage Claim UploadQueue UploadProofs StepLogic UploadSafety UploadDelivery Knowledge Text MemorySafety ClaimEdit ClaimEditProofs Prepare InboxEffect InboxEffectProofs InboxEffectSafety InboxEffectJournal.
Import Ids.

(** The message whose record holds the plan. *)
Definition record_key (r : InboxEffectRecord) : InboxId :=
  match r with EffectPlan p => ep_inbox_id p | EffectRef f => er_canonical_inbox_id f end.

(** The message has a record, and its plan has been carried out. *)
Definition settled (h : KnowledgeHome) (m : InboxMessage) : Prop :=
  ∃ r p, kh_effects h !! msg_id m = Some (Stored r) ∧ record_key r = ep_inbox_id p ∧ stored h p ∧ ep_state p = EffectApplied.

Section batches.
Context (message_hash : InboxMessage → string) (members_hash : list InboxEffectMember → string)
  (claim_hash : Claim → string) (agent_id : AgentId)
  (generate : list InboxMessage → list Claim → DateTime * InternalizeOutcome)
  (trace_id_for : DateTime → string → list SourceId → list ClaimId → TraceId)
  (Hgen : fresh_ids generate) (lower : Z → Text) (revision : Claim → string).

Local Notation wf := (plan_wf agent_id).
Local Notation journal_ok := (journal_ok agent_id).
Local Notation jstep := (jstep agent_id).
Local Notation run := (run agent_id lower revision).
Local Notation messages_with_records := (list (InboxMessage * option InboxEffectRecord)).
Local Notation loop := (internalize_loop message_hash members_hash claim_hash agent_id generate trace_id_for).

Record loop_inv (messages : messages_with_records) (batches : gmap InboxId InboxEffectPlan)
    (applied : gset InboxId) (h : KnowledgeHome) : Prop := {
  li_wf : kwf h;
  li_journal : journal_ok h;
  li_batches id p : batches !! id = Some p → ep_inbox_id p = id ∧ stored h p;
  li_applied id : id ∈ applied → ∃ p, batches !! id = Some p ∧ ep_state p = EffectApplied;
  li_plans m p : (m, Some (EffectPlan p)) ∈ messages → stored h p ∨ is_Some (batches !! ep_inbox_id p);
  li_records m r : (m, Some r) ∈ messages → ∃ r', kh_effects h !! msg_id m = Some (Stored r') ∧ record_key r' = record_key r;
}.

Lemma integrity_no_stale p : validate_effect_plan_integrity members_hash p ≠ Err KStalePlan.
Proof. unfold validate_effect_plan_integrity. by repeat case_match. Qed.

Lemma ref_no_stale f p m : validate_effect_ref f p m ≠ Err KStalePlan.
Proof. unfold validate_effect_ref. by repeat case_match. Qed.

Lemma member_no_stale p m : validate_effect_plan_message_member message_hash p m ≠ Err KStalePlan.
Proof. unfold validate_effect_plan_message_member. by repeat case_match. Qed.

Lemma ready_no_stale h h' : ensure_knowledge_ready h ≠ (Err KStalePlan, h').
Proof.
  intros [([] & h1 & _ & H)|(e & H & [= <-])]%bind_cases; [|by apply io_inv in H as [[|] _]].
  apply bind_cases in H as [([] & h2 & _ & H)|(e & H & _)]; done.
Qed.

Lemma stored_wf h p : journal_ok h → stored h p → wf p.
Proof. intros Hj Hs. by apply (Hj _ _ Hs). Qed.

Lemma stored_unique h p q : stored h p → stored h q → ep_inbox_id p = ep_inbox_id q → p = q.
Proof. unfold stored. intros Hp Hq Hid. rewrite Hid in Hp. congruence. Qed.

Lemma inv_sub messages messages' batches applied h : messages' ⊆ messages →
  loop_inv messages batches applied h → loop_inv messages' batches applied h.
Proof. intros Hsub [? ? ? ? H5 H6]. split; try done; [intros m p Hm; by apply (H5 m), Hsub|intros m r Hm; by apply H6, Hsub]. Qed.

Lemma inv_kcore messages batches applied h h' : same_kcore h h' →
  loop_inv messages batches applied h → loop_inv messages batches applied h'.
Proof.
  intros Hk [H1 H2 H3 H4 H5 H6]. pose proof (kcore_effects _ _ Hk) as He.
  split; [by apply (kcore_wf h)| | |done| |].
  - by apply (jsafe_effects agent_id None h).
  - intros id p. unfold stored. rewrite He. apply H3.
  - intros m p. unfold stored. rewrite He. apply H5.
  - intros m r. rewrite He. apply H6.
Qed.

Lemma settled_kcore h h' m : same_kcore h h' → settled h m → settled h' m.
Proof. intros Hk (r & p & ? & ? & ? & ?). exists r, p. unfold stored. by rewrite (kcore_effects _ _ Hk). Qed.

(** A record that is carried out is not touched. *)
Lemma settled_step h h' p m : journal_ok h → jstep (touched p) h h' →
  (stored h p ∨ kh_effects h !! ep_inbox_id p = None) → settled h m → settled h' m.
Proof.
  intros Hj [_ Hf] Hp (r & q & Hr & Hk & Hq & Hst). exists r, q.
  assert (∀ f, kh_effects h !! ep_inbox_id q = Some f → Some (ep_inbox_id q) ≠ touched p) as Hne.
  { intros f Hfq. unfold touched. case_decide as Hpst; [|done]. intros [= Heq]. destruct Hp as [Hp|Hp].
    - pose proof (stored_unique _ _ _ Hq Hp Heq). congruence.
    - unfold stored in Hq. congruence. }
  split; [|split; [done|split; [|done]]].
  - apply Hf; [done|]. intros Heq. unfold touched in Heq. case_decide as Hpst; [|done]. injection Heq as Heq.
    destruct Hp as [Hp|Hp]; [|congruence]. unfold stored in Hp. rewrite <-Heq, Hr in Hp. injection Hp as ->.
    simpl in Hk. apply (Hne _ Hq). unfold touched. rewrite decide_True by done. congruence.
  - apply Hf; [exact Hq|by eapply Hne].
Qed.

(** ** Reading the plan of a record *)

Lemma load_spec messages m r batches applied h res h' :
  loop_inv messages batches applied h → (m, Some r) ∈ messages →
  load_claim_attribute_update_effect_batch message_hash members_hash m r batches h = (res, h') →
  same_kcore h h' ∧ res ≠ Err KStalePlan ∧ ∀ id batches', res = Ok (id, batches') →
    id = record_key r ∧ loop_inv messages batches' applied h' ∧ ∃ p, batches' = <[id := p]> batches.
Proof.
  intros Hi Hm H. unfold load_claim_attribute_update_effect_batch in H.
  change (match r with EffectPlan p => ep_inbox_id p | EffectRef r0 => er_canonical_inbox_id r0 end) with (record_key r) in H.
  cbv zeta in H.
  assert (∀ r1 h1, match batches !! record_key r with
      | Some p => mret p
      | None => plan ← match r with
                 | EffectPlan p => mret p
                 | EffectRef r => canonical ← read_inbox_effect_record (er_canonical_inbox_id r);
                     match canonical with Some (EffectPlan p) => mret p | _ => fail (KEffect "ref without a plan" (msg_id m)) end
                 end;
          _ ← lift_result (validate_effect_plan_integrity members_hash plan); mret plan
      end h = (r1, h1) → same_kcore h h1 ∧ r1 ≠ Err KStalePlan ∧ ∀ p, r1 = Ok p →
        ep_inbox_id p = record_key r ∧ stored h p) as Hb.
  { intros r1 h1 H1. destruct (batches !! record_key r) as [p|] eqn:Ebt.
    { injection H1 as <- <-. split; [done|]. split; [done|]. intros p' [= <-]. by apply (li_batches _ _ _ _ Hi). }
    apply bind_cases in H1 as [(p & h2 & H2 & H1)|(e & H2 & ->)].
    - assert (same_kcore h h2 ∧ ep_inbox_id p = record_key r ∧ stored h p) as (Hk & Hid & Hst).
      { destruct r as [q|f].
        - injection H2 as <- <-. split; [done|]. split; [done|]. by destruct (li_plans _ _ _ _ Hi m q Hm) as [?|[? E]];
            [|simpl in Ebt; congruence].
        - apply bind_ok in H2 as (c & h3 & H3 & H2). pose proof (record_kcore _ _ _ _ H3) as Hk.
          destruct c as [[q|]|]; [|done..]. injection H2 as <- <-. apply record_some in H3.
          split; [done|]. destruct (li_journal _ _ _ _ Hi _ _ H3) as [_ Hid]. split; [done|]. unfold stored. by rewrite Hid. }
      apply bind_cases in H1 as [([] & h3 & H3 & H1)|(e & H3 & ->)]; injection H3 as Hv <-.
      + injection H1 as <- <-. split; [done|]. split; [done|]. by intros p' [= <-].
      + split; [done|]. split; [|done]. intros [= ->]. by apply integrity_no_stale in Hv.
    - destruct r as [q|f]; [done|].
      apply bind_cases in H2 as [(c & h3 & H3 & H2)|(e' & H3 & [= <-])].
      + pose proof (record_kcore _ _ _ _ H3) as Hk. destruct c as [[q|]|]; [done|..]; injection H2 as <- <-; by split.
      + split; [by eapply record_kcore|]. split; [|done]. intros [= ->]. by apply (nse_record _ _ _ _ H3). }
  apply bind_cases in H as [(b & h1 & H1 & H)|(e & H1 & ->)]; apply Hb in H1 as (Hk & He & Hbs); [|split; [done|split; [by intros [= ->]|by intros ? ? [=]]]].
  destruct (Hbs b eq_refl) as [Hid Hst]. clear Hb He Hbs.
  apply bind_cases in H as [([] & h2 & H2 & H)|(e & H2 & ->)].
  2: { destruct r as [p|f]; [case_bool_decide; [done|]; injection H2 as <- <-; split; [done|split; [done|by intros ? ? [=]]]|].
       injection H2 as Hv <-. split; [done|]. split; [|done]. intros [= ->]. by apply ref_no_stale in Hv. }
  assert (h2 = h1) as ->.
  { destruct r as [p|f]; [case_bool_decide; [by injection H2|done]|by injection H2]. }
  apply bind_cases in H as [([] & h3 & H3 & H)|(e & H3 & ->)]; injection H3 as Hv <-.
  2: { split; [done|]. split; [|done]. intros [= ->]. by apply member_no_stale in Hv. }
  injection H as <- <-. split; [done|]. split; [done|]. intros id batches' [= <- <-]. split; [done|].
  split; [|by exists b].
  apply (inv_kcore _ _ _ h); [done|]. destruct Hi as [I1 I2 I3 I4 I5 I6]. split; try done.
  - intros id p. rewrite lookup_insert_Some. intros [[<- <-]|[_ ?]]; [done|by apply I3].
  - intros id Hin. destruct (I4 id Hin) as (p & Hp & Hpst). exists p. split; [|done].
    rewrite lookup_insert_Some. destruct (decide (record_key r = id)) as [<-|]; [left|by right]. split; [done|].
    destruct (I3 _ _ Hp). eapply stored_unique; [done..|congruence].
  - intros m' p Hm'. destruct (I5 m' p Hm') as [?|Hs]; [by left|right]. rewrite lookup_insert_is_Some'. by right.
Qed.

(** ** One round *)

Lemma inv_apply messages batches applied h h' id p p' : loop_inv messages batches applied h →
  batches !! id = Some p → run h h' → jstep (touched p) h h' → key_of p' = key_of p → stored h' p' →
  ep_state p' = EffectApplied → loop_inv messages (<[id := p']> batches) ({[id]} ∪ applied) h'.
Proof.
  intros [I1 I2 I3 I4 I5 I6] Hb Hr [_ Hs] [= Hid' _] Hp' Hst. destruct (I3 _ _ Hb) as [Hid Hp].
  assert (∀ q, stored h q → ep_inbox_id q ≠ id → stored h' q) as Hkeep.
  { intros q Hq Hne. apply Hs; [done|]. unfold touched. case_decide; congruence. }
  split; [apply Hr|apply Hr| | | |].
  - intros id2 q. rewrite lookup_insert_Some. intros [[<- <-]|[Hne Hq]]; [split; [congruence|done]|].
    destruct (I3 _ _ Hq) as [Hid2 Hsq]. split; [done|]. apply Hkeep; [done|congruence].
  - intros id2 Hin. destruct (decide (id2 = id)) as [->|Hne]; [exists p'; by rewrite lookup_insert_eq|].
    rewrite lookup_insert_ne by done. apply I4. by apply elem_of_union in Hin as [Hid2%elem_of_singleton|?].
  - intros m q Hm. rewrite lookup_insert_is_Some'. destruct (decide (ep_inbox_id q = id)) as [Heq|Hne]; [right; by left|].
    destruct (I5 m q Hm) as [Hq|Hq]; [left; by apply Hkeep|right; by right].
  - intros m r Hm. destruct (I6 m r Hm) as (r' & Hr' & Hk). destruct (decide (msg_id m = id)) as [Heq|Hne].
    + exists (EffectPlan p'). unfold stored in Hp, Hp'. rewrite Heq, <-Hid, Hp in Hr'. injection Hr' as <-.
      split; [congruence|]. simpl in *. congruence.
    + exists r'. split; [|done]. apply Hs; [done|]. unfold touched. case_decide; congruence.
Qed.

Lemma inv_absent messages batches applied h h' k : loop_inv messages batches applied h → kh_effects h !! k = None →
  run h h' → jstep (Some k) h h' → loop_inv messages batches applied h'.
Proof.
  intros [I1 I2 I3 I4 I5 I6] Hk Hr [_ Hs].
  assert (∀ id f, kh_effects h !! id = Some f → kh_effects h' !! id = Some f) as Hkeep.
  { intros id f Hf. apply Hs; [done|]. intros [= ->]. congruence. }
  split; [apply Hr|apply Hr| |done| |].
  - intros id p Hp. destruct (I3 id p Hp). split; [done|]. by apply Hkeep.
  - intros m p Hm. destruct (I5 m p Hm); [left; by apply Hkeep|by right].
  - intros m r Hm. destruct (I6 m r Hm) as (r' & ? & ?). exists r'. split; [|done]. by apply Hkeep.
Qed.

Lemma settled_absent h h' k m : kh_effects h !! k = None → jstep (Some k) h h' → settled h m → settled h' m.
Proof.
  intros Hk [_ Hs] (r & p & Hr & Hrk & Hp & Hst).
  assert (∀ id f, kh_effects h !! id = Some f → kh_effects h' !! id = Some f) as Hkeep.
  { intros id f Hf. apply Hs; [done|]. intros [= ->]. congruence. }
  exists r, p. split; [by apply Hkeep|]. split; [done|]. split; [by apply Hkeep|done].
Qed.

Lemma take_spec messages h res h' : take_unplanned messages h = (res, h') →
  same_kcore h h' ∧ res ≠ Err KStalePlan ∧ ∀ group rest, res = Ok (group, rest) →
    messages.*1 = group ++ rest.*1 ∧
    ∀ m r, (m, Some r) ∈ rest → (m, Some r) ∈ messages ∨ kh_effects h !! msg_id m = Some (Stored r).
Proof.
  revert h res h'. induction messages as [|[m o] ms IH]; intros h res h' H; cbn [take_unplanned] in H.
  { injection H as <- <-. split; [done|]. split; [done|]. intros group rest [= <- <-]. split; [done|]. by intros m r ?%not_elem_of_nil. }
  apply bind_cases in H as [(o' & h1 & H1 & H)|(e & H1 & ->)].
  2: { destruct o as [r|]; [done|]. split; [by eapply record_kcore|]. split; [|by intros ? ? [=]].
       intros [= ->]. by apply (nse_record _ _ _ _ H1). }
  assert (same_kcore h h1 ∧ ∀ r, o' = Some r → o = Some r ∨ kh_effects h !! msg_id m = Some (Stored r)) as [Hk Ho].
  { destruct o as [r|]; [injection H1 as <- <-; split; [done|by left]|].
    split; [by eapply record_kcore|]. intros r ->. right. by eapply record_some. }
  destruct o' as [r|].
  { injection H as <- <-. split; [done|]. split; [done|]. intros group rest [= <- <-]. split; [done|].
    intros m' r' [[= -> ->]|?]%elem_of_cons; [|left; by right]. destruct (Ho r eq_refl) as [->|?]; [left; left|by right]. }
  apply bind_cases in H as [([group rest] & h2 & H2 & H)|(e & H2 & ->)]; apply IH in H2 as (Hk2 & He2 & Hs2).
  2: { split; [by etrans|]. split; [by intros [= ->]|by intros ? ? [=]]. }
  injection H as <- <-. split; [by etrans|]. split; [done|]. intros g r' [= <- <-].
  destruct (Hs2 _ _ eq_refl) as [Hms Hin]. split; [by rewrite fmap_cons, Hms|].
  intros m' r Hr. destruct (Hin m' r Hr) as [?|Hf]; [left; by right|right]. by rewrite <-(kcore_effects _ _ Hk).
Qed.

Lemma group_spec now m group h res h' : kwf h → journal_ok h → kh_effects h !! msg_id m = None →
  (prepared ← prepare_claim_attribute_update_effect message_hash members_hash claim_hash agent_id generate trace_id_for (m :: group);
   _ ← persist_prepared_claim_attribute_update_plan prepared;
   apply_persisted_claim_attribute_update_plan now prepared) h = (res, h') →
  run h h' ∧ jstep (Some (msg_id m)) h h' ∧ res ≠ Err KStalePlan ∧
  ∀ p, res = Ok p → ∀ x, x ∈ m :: group → settled h' x.
Proof.
  intros Hw Hj Hnone H.
  apply bind_cases in H as [(p & h1 & H1 & H)|(e & H1 & ->)]; apply (prepare_plan _ _ _ _ _ _ Hgen) in H1 as [Hk1 Hp1].
  2: { split; [by apply run_kcore|]. split; [by apply jsafe_effects, kcore_effects|]. split; [by intros [= ->]|done]. }
  destruct Hp1 as (Hp & Hst & Happ & Hmem & Hhead & Hbh).
  apply members_loop_ids in Hmem as (Hids & Hnd & _). rewrite Hids in Hhead. simpl in Hhead.
  assert (run h h1) as Hr1 by by apply run_kcore.
  assert (jstep (Some (msg_id m)) h h1) as Hs1 by by apply jsafe_effects, kcore_effects.
  assert (∀ r2 h2, persist_prepared_claim_attribute_update_plan p h1 = (r2, h2) →
    run h1 h2 ∧ jstep (Some (msg_id m)) h1 h2 ∧ r2 ≠ Err KStalePlan ∧ (r2 = Ok tt → stored h2 p ∧
      ∀ x, x ∈ group → ∃ r, kh_effects h2 !! msg_id x = Some (Stored r) ∧ record_key r = msg_id m)) as Hpers.
  { intros r2 h2 H2. pose proof (rn_wf _ _ _ _ _ Hr1) as Hw1. pose proof (rn_journal _ _ _ _ _ Hr1) as Hj1.
    apply bind_cases in H2 as [([] & h3 & H3 & H2)|(e & H3 & ->)]; pose proof (write_plan_jcore _ _ _ _ H3) as Hc3;
      pose proof (jsafe_plan agent_id (key_of p) p (conj Hp eq_refl) _ _ _ H3) as Hs3; simpl in Hs3; rewrite Hhead in Hs3;
      pose proof (run_quiet agent_id lower revision _ _ _ Hw1 Hj1 Hc3 Hs3) as Hr3.
    2: { split; [done|]. split; [done|]. split; [|done]. intros [= ->]. by apply (nse_write _ _ _ _ _ _ H3). }
    assert (stored h3 p) as Hst3.
    { unfold stored. apply (write_yaml_ok effects_dir) in H3. simpl in H3. rewrite H3. apply lookup_insert_eq. }
    pose proof (repair_jcore _ _ _ _ H2) as Hc2. pose proof (repair_spec agent_id _ _ _ _ H2) as Hs2.
    split; [eapply run_trans; [exact Hr3|]; eapply run_quiet; [apply Hr3|apply Hr3|done|done]|].
    split; [etrans; [exact Hs3|by apply jstep_weaken]|].
    split; [intros ->; by apply (nse_repair _ _ _ _ H2)|]. intros ->. split; [by apply (proj2 Hs2)|].
    intros x Hx. destruct (Hbh ltac:(destruct group; [by apply not_elem_of_nil in Hx|simpl; lia])) as [bh Hb].
    unfold repair_claim_attribute_update_refs in H2. rewrite Hb in H2.
    destruct (repair_loop_spec agent_id _ _ _ _ _ _ H2) as [_ Hrefs].
    assert (∃ y, y ∈ tail (effect_plan_members p) ∧ iem_inbox_id y = msg_id x) as (y & Hy & Hyx).
    { destruct (effect_plan_members p) as [|c ms]; [done|]. simpl. rewrite fmap_cons, fmap_cons in Hids. injection Hids as _ Hids.
      apply (list_elem_of_fmap_2 msg_id) in Hx. rewrite <-Hids in Hx. apply list_elem_of_fmap in Hx as (y & -> & Hy). by exists y. }
    eexists. rewrite <-Hyx. split; [by apply Hrefs|]. simpl. done. }
  apply bind_cases in H as [([] & h2 & H2 & H)|(e & H2 & ->)]; apply Hpers in H2 as (Hr2 & Hs2 & He2 & Hst2).
  2: { split; [by eapply run_trans|]. split; [by etrans|]. split; [by intros [= ->]|done]. }
  destruct (Hst2 eq_refl) as [Hsp Hrefs].
  destruct (apply_one agent_id lower revision now p h2 res h') as (Hr3 & Hs3 & He3 & Hok3);
    [apply Hr2|apply Hr2|done|done|].
  assert (touched p = Some (msg_id m)) as Ht by (unfold touched; by rewrite decide_True, Hhead). rewrite Ht in Hs3.
  split; [by eapply run_trans, run_trans|]. split; [etrans; [exact Hs1|by etrans]|]. split; [done|].
  intros p' -> x Hx. destruct (Hok3 p' eq_refl) as ([= Hid Hmem'] & Hst' & Hstored). specialize (Hstored (or_introl Hsp)).
  assert (msg_id m ∉ msg_id <$> group) as Hnm by (rewrite fmap_cons in Hnd; by apply NoDup_cons in Hnd as [? _]).
  apply elem_of_cons in Hx as [->|Hx].
  - exists (EffectPlan p'), p'. split; [|done]. unfold stored in Hstored. congruence.
  - destruct (Hrefs x Hx) as (r & Hr & Hrk). exists r, p'. split; [|split; [congruence|done]].
    apply (proj2 Hs3); [done|]. intros [= Heq]. apply Hnm. rewrite <-Heq. by apply list_elem_of_fmap_2.
Qed.

(** ** The loop *)

Lemma run_inv messages batches applied h h' : loop_inv messages batches applied h → same_kcore h h' → run h h'.
Proof. intros [? ? _ _ _ _] Hk. by apply run_kcore. Qed.

Lemma loop_spec fuel : ∀ now messages batches applied summaries h res h',
  loop_inv messages batches applied h → length messages ≤ fuel →
  loop fuel now messages batches applied summaries h = (res, h') →
  run h h' ∧ (∀ m, settled h m → settled h' m) ∧ res ≠ Err KStalePlan ∧
  ∀ s, res = Ok s → ∀ m, m ∈ messages.*1 → settled h' m.
Proof.
  induction fuel as [|fuel IH]; intros now messages batches applied summaries h res h' Hi Hlen H.
  { destruct messages as [|[m o] ms]; [|simpl in Hlen; lia]. injection H as <- <-.
    split; [by eapply run_inv|]. split; [done|]. split; [done|]. by intros s _ m ?%not_elem_of_nil. }
  destruct messages as [|[m o] ms].
  { injection H as <- <-. split; [by eapply run_inv|]. split; [done|]. split; [done|].
    by intros s _ m ?%not_elem_of_nil. }
  cbn [internalize_loop] in H. simpl in Hlen. assert (length ms ≤ fuel) as Hlen' by lia.
  assert (∀ h1 e, same_kcore h h1 → e ≠ KStalePlan → run h h1 ∧ (∀ m, settled h m → settled h1 m) ∧
    (Err e : Result KnowledgeError (list InternalizeSummary)) ≠ Err KStalePlan ∧
    ∀ s, (Err e : Result KnowledgeError (list InternalizeSummary)) = Ok s → ∀ x, x ∈ ((m, o) :: ms).*1 → settled h1 x) as Hearly.
  { intros h1 e Hk He. split; [by eapply run_inv|]. split; [intros x; by apply settled_kcore|].
    split; [by intros [= ->]|done]. }
  apply bind_cases in H as [(o' & h1 & H1 & H)|(e & H1 & ->)].
  2: { destruct o; [done|]. apply Hearly; [by eapply record_kcore|by eapply nse_record]. }
  assert (same_kcore h h1 ∧ (o' = None → kh_effects h1 !! msg_id m = None) ∧
    (∀ r, o' = Some r → loop_inv ((m, Some r) :: ms) batches applied h1)) as (Hk1 & Hnone & Hsome).
  { destruct o as [r|].
    { injection H1 as <- <-. split; [done|]. split; [done|]. by intros r' [= <-]. }
    pose proof (record_kcore _ _ _ _ H1) as Hk. split; [done|]. split.
    { intros ->. rewrite (kcore_effects _ _ Hk). by eapply record_none. }
    intros r ->. apply record_some in H1. apply (inv_kcore _ _ _ h); [done|].
    destruct Hi as [I1 I2 I3 I4 I5 I6]. split; try done.
    - intros x p [[= -> <-]|Hin]%elem_of_cons; [left|apply (I5 x p); by right].
      unfold stored. by rewrite (proj2 (I2 _ _ H1)).
    - intros x r' [[= -> ->]|Hin]%elem_of_cons; [by exists r|apply I6; by right]. }
  assert (run h h1) as Hr1 by (by eapply run_inv).
  assert (∀ x, settled h x → settled h1 x) as Hse1 by (intros x; by apply settled_kcore).
  destruct o' as [r|].
  - specialize (Hsome r eq_refl).
    apply bind_cases in H as [([id bs] & h2 & H2 & H)|(e & H2 & ->)];
      destruct (load_spec _ m r _ _ _ _ _ Hsome ltac:(left) H2) as (Hk2 & He2 & Hok2).
    2: { apply Hearly; [by etrans|]. intros ->. by destruct He2. }
    destruct (Hok2 _ _ eq_refl) as (-> & Hi2 & p & Hbs). cbv zeta in H.
    assert (bs !! record_key r = Some p) as Hp by (rewrite Hbs; apply lookup_insert_eq).
    assert (run h h2) as Hr2 by (eapply run_trans; [done|]; by eapply run_inv).
    assert (∀ x, settled h x → settled h2 x) as Hse2 by (intros x Hx; by apply (settled_kcore h1), Hse1).
    destruct (li_batches _ _ _ _ Hi2 _ _ Hp) as [Hid Hst].
    destruct (li_records _ _ _ _ Hi2 m r ltac:(left)) as (r' & Hr' & Hrk).
    assert (∀ messages' bs' ap', loop_inv ((m, Some r) :: ms) bs' ap' messages' → loop_inv ms bs' ap' messages') as Htl
      by (intros ????; eapply inv_sub; [|done]; intros ? ?; by right).
    case_bool_decide as Hap.
    + destruct (li_applied _ _ _ _ Hi2 _ Hap) as (q & Hq & Hqst). rewrite Hp in Hq. injection Hq as <-.
      assert (settled h2 m) as Hm by (exists r', p; split_and!; congruence || done).
      destruct (IH _ _ _ _ _ _ _ _ (Htl _ _ _ Hi2) Hlen' H) as (Hr & Hse & He & Hok).
      split; [by eapply run_trans|]. split; [auto|]. split; [done|].
      intros s Hs x [->|Hx]%elem_of_cons; [by apply Hse|by eapply Hok].
    + rewrite Hp in H. apply bind_cases in H as [(p' & h3 & H3 & H)|(e & H3 & ->)];
        destruct (apply_one agent_id lower revision _ _ _ _ _ (li_wf _ _ _ _ Hi2) (li_journal _ _ _ _ Hi2)
          (stored_wf _ _ (li_journal _ _ _ _ Hi2) Hst) H3) as (Hr3 & Hs3 & He3 & Hok3).
      2: { split; [by eapply run_trans|]. split; [|split; [by intros [= ->]|done]].
           intros x Hx. eapply settled_step; [apply Hi2|done|by left|auto]. }
      destruct (Hok3 p' eq_refl) as (HK & Hst3 & Hstored). specialize (Hstored (or_introl Hst)).
      pose proof (inv_apply _ _ _ _ _ _ _ _ Hi2 Hp Hr3 Hs3 HK Hstored Hst3) as Hi3.
      assert (∀ x, settled h2 x → settled h3 x) as Hse3.
      { intros x Hx. eapply settled_step; [apply Hi2|done|by left|done]. }
      assert (settled h3 m) as Hm.
      { destruct (li_records _ _ _ _ Hi3 m r ltac:(left)) as (r3 & Hr3' & Hrk3). exists r3, p'.
        split; [done|]. split; [|done]. injection HK as -> _. congruence. }
      destruct (IH _ _ _ _ _ _ _ _ (Htl _ _ _ Hi3) Hlen' H) as (Hr & Hse & He & Hok).
      split; [by eapply run_trans, run_trans|]. split; [auto|]. split; [done|].
      intros s Hs x [->|Hx]%elem_of_cons; [by apply Hse|by eapply Hok].
  - specialize (Hnone eq_refl). apply (inv_kcore _ _ _ h h1 Hk1) in Hi as Hi1.
    apply bind_cases in H as [([group rest] & h2 & H2 & H)|(e & H2 & ->)]; apply take_spec in H2 as (Hk2 & He2 & Hok2).
    2: { apply Hearly; [by etrans|]. intros ->. by destruct He2. }
    destruct (Hok2 _ _ eq_refl) as [Hms Hrest]. assert (same_kcore h h2) as Hk by by etrans.
    assert (loop_inv rest batches applied h2) as Hi2.
    { apply (inv_kcore _ _ _ h1); [done|]. destruct Hi1 as [I1 I2 I3 I4 I5 I6]. split; try done.
      - intros x p Hx. destruct (Hrest x _ Hx) as [Hin|Hf]; [apply (I5 x); by right|]. left.
        unfold stored. by rewrite (proj2 (I2 _ _ Hf)).
      - intros x r Hx. destruct (Hrest x _ Hx) as [Hin|Hf]; [apply I6; by right|by exists r]. }
    assert (kh_effects h2 !! msg_id m = None) as Hn2 by by rewrite (kcore_effects _ _ Hk2).
    assert (run h h2) as Hr2 by (by eapply run_inv).
    assert (∃ res3 h3, (prepared ← prepare_claim_attribute_update_effect message_hash members_hash claim_hash agent_id generate trace_id_for (m :: group);
       _ ← persist_prepared_claim_attribute_update_plan prepared;
       apply_persisted_claim_attribute_update_plan now prepared) h2 = (res3, h3) ∧
      match res3 with Ok p => loop fuel now rest batches applied (summaries ++ [effect_summary p]) h3 = (res, h')
        | Err e => h' = h3 ∧ res = Err e end) as (res3 & h3 & H3 & Hcont).
    { eexists _, _. split; [apply surjective_pairing|]. unfold mbind, M_bind in H |- *.
      destruct (prepare_claim_attribute_update_effect _ _ _ _ _ _ _ h2) as [[prep|e] h3]; [|by injection H as <- <-].
      destruct (persist_prepared_claim_attribute_update_plan prep h3) as [[[]|e] h4]; [|by injection H as <- <-].
      destruct (apply_persisted_claim_attribute_update_plan now prep h4) as [[p|e] h5]; [done|by injection H as <- <-]. }
    destruct (group_spec now m group _ _ _ (li_wf _ _ _ _ Hi2) (li_journal _ _ _ _ Hi2) Hn2 H3) as (Hr3 & Hs3 & He3 & Hok3).
    assert (∀ x, settled h x → settled h3 x) as Hse3.
    { intros x Hx. apply (settled_absent _ _ _ _ Hn2 Hs3). by apply (settled_kcore h). }
    destruct res3 as [p|e].
    2: { destruct Hcont as [-> ->]. split; [by eapply run_trans|]. split; [done|]. split; [by intros [= ->]|done]. }
    assert (length rest ≤ fuel) as Hlr.
    { apply (f_equal length) in Hms. rewrite length_app, !length_fmap in Hms. lia. }
    destruct (IH _ _ _ _ _ _ _ _ (inv_absent _ _ _ _ _ _ Hi2 Hn2 Hr3 Hs3) Hlr Hcont) as (Hr & Hse & He & Hok).
    split; [by eapply run_trans, run_trans|]. split; [auto|]. split; [done|].
    intros s Hs x Hx. rewrite fmap_cons, Hms in Hx. simpl in Hx.
    rewrite app_comm_cons in Hx. apply elem_of_app in Hx as [Hx|Hx]; [|by eapply Hok]. apply Hse. by apply (Hok3 p).
Qed.

(** ** Batches *)

Local Notation internalize := (internalize_claim_attribute_update_messages message_hash members_hash claim_hash agent_id generate trace_id_for).

Lemma read_records_spec messages h res h' : read_records messages h = (res, h') →
  same_kcore h h' ∧ res ≠ Err KStalePlan ∧ ∀ l, res = Ok l → l.*1 = messages ∧
    ∀ m r, (m, Some r) ∈ l → kh_effects h !! msg_id m = Some (Stored r).
Proof.
  revert h res h'. induction messages as [|m ms IH]; intros h res h' H; cbn [read_records] in H.
  { injection H as <- <-. split; [done|]. split; [done|]. intros l [= <-]. split; [done|]. by intros m r ?%not_elem_of_nil. }
  apply bind_cases in H as [(o & h1 & H1 & H)|(e & H1 & ->)]; pose proof (record_kcore _ _ _ _ H1) as Hk.
  2: { split; [done|]. split; [|by intros ? [=]]. intros [= ->]. by apply (nse_record _ _ _ _ H1). }
  apply bind_cases in H as [(l & h2 & H2 & H)|(e & H2 & ->)]; apply IH in H2 as (Hk2 & He2 & Hl).
  2: { split; [by etrans|]. split; [by intros [= ->]|by intros ? [=]]. }
  injection H as <- <-. split; [by etrans|]. split; [done|]. intros l' [= <-]. destruct (Hl l eq_refl) as [<- Hin].
  split; [done|]. intros m' r [[= -> <-]|Hr]%elem_of_cons; [by eapply record_some|].
  rewrite <-(kcore_effects _ _ Hk). by apply Hin.
Qed.

Lemma load_records_spec all messages batches h res h' : messages ⊆ all → loop_inv all batches ∅ h →
  load_records message_hash members_hash messages batches h = (res, h') →
  same_kcore h h' ∧ res ≠ Err KStalePlan ∧ ∀ bs, res = Ok bs → loop_inv all bs ∅ h' ∧
    ∀ id p, bs !! id = Some p → batches !! id = Some p ∨ ∃ m r, (m, Some r) ∈ messages ∧ id = record_key r.
Proof.
  revert batches h. induction messages as [|[m o] ms IH]; intros batches h Hsub Hi H; cbn [load_records] in H.
  { injection H as <- <-. split; [done|]. split; [done|]. intros bs [= <-]. split; [done|]. auto. }
  assert (ms ⊆ all) as Hsub' by (intros x Hx; apply Hsub; by right). destruct o as [r|].
  - apply bind_cases in H as [([id bs] & h1 & H1 & H)|(e & H1 & ->)];
      destruct (load_spec all m r _ _ _ _ _ Hi (Hsub _ ltac:(left)) H1) as (Hk & He & Hok).
    2: { split; [done|]. split; [by intros [= ->]|by intros ? [=]]. }
    destruct (Hok _ _ eq_refl) as (-> & Hi1 & p & ->). destruct (IH _ _ Hsub' Hi1 H) as (Hk2 & He2 & Hbs).
    split; [by etrans|]. split; [done|]. intros bs Hres. destruct (Hbs bs Hres) as [Hi2 Hin]. split; [done|].
    intros id q [Hq|(x & r' & Hx & ->)]%Hin.
    + apply lookup_insert_Some in Hq as [[<- <-]|[_ ?]]; [right; exists m, r; split; [left|done]|by left].
    + right. exists x, r'. split; [by right|done].
  - destruct (IH _ _ Hsub' Hi H) as (Hk2 & He2 & Hbs). split; [done|]. split; [done|]. intros bs Hres.
    destruct (Hbs bs Hres) as [Hi2 Hin]. split; [done|]. intros id q [Hq|(x & r' & Hx & ->)]%Hin; [by left|].
    right. exists x, r'. split; [by right|done].
Qed.

(** What [internalize] comes to: its guards, then the loop. *)
Lemma internalize_inv now messages h res h' : kwf h → journal_ok h → internalize now messages h = (res, h') →
  (same_kcore h h' ∧ (∀ s, res = Ok s → messages = []) ∧ res ≠ Err KStalePlan) ∨
  ∃ records batches h1, same_kcore h h1 ∧ records.*1 = messages ∧ loop_inv records batches ∅ h1 ∧
    (∀ m r, (m, Some r) ∈ records → kh_effects h1 !! msg_id m = Some (Stored r)) ∧
    (∀ id p, batches !! id = Some p → ∃ m r, (m, Some r) ∈ records ∧ id = record_key r) ∧
    loop (length messages) now records batches ∅ [] h1 = (res, h').
Proof.
  intros Hw Hj H. unfold internalize_claim_attribute_update_messages in H.
  case_bool_decide as Hnil; [left; by injection H as <- <-|].
  destruct (negb _); [left; by injection H as <- <-|].
  apply bind_cases in H as [([] & h0 & H0 & H)|(e & H0 & ->)]; pose proof (io_kcore _ _ _ _ H0) as Hk0.
  2: { left. split; [done|]. split; [done|]. intros [= ->]. by apply (nse_io KLock ltac:(done) _ _ _ H0). }
  apply bind_cases in H as [([] & h1 & H1 & H)|(e & H1 & ->)]; pose proof (ready_kcore _ _ _ H1) as Hk1.
  2: { left. split; [by etrans|]. split; [done|]. intros [= ->]. by apply ready_no_stale in H1. }
  apply bind_cases in H as [(records & h2 & H2 & H)|(e & H2 & ->)]; apply read_records_spec in H2 as (Hk2 & He2 & Hrec).
  2: { left. split; [etrans; [exact Hk0|by etrans]|]. split; [done|]. by intros [= ->]. }
  destruct (Hrec _ eq_refl) as [Hms Hst]. assert (same_kcore h h1) as Hkh1 by by etrans.
  assert (loop_inv records ∅ ∅ h2) as Hi.
  { apply (inv_kcore _ _ _ h1); [done|].
    assert (journal_ok h1) as Hj1 by by apply (jsafe_effects agent_id None h); [apply kcore_effects|].
    split; [by apply (kcore_wf h)|done| | | |].
    - intros id p. by rewrite lookup_empty.
    - intros id Hid. by apply elem_of_empty in Hid.
    - intros m p Hm%Hst. left. unfold stored. by rewrite (proj2 (Hj1 _ _ Hm)).
    - intros m r Hm%Hst. by exists r. }
  apply bind_cases in H as [(bs & h3 & H3 & H)|(e & H3 & ->)];
    destruct (load_records_spec _ _ _ _ _ _ (reflexivity _) Hi H3) as (Hk3 & He3 & Hbs).
  2: { left. split; [etrans; [exact Hkh1|by etrans]|]. split; [done|]. by intros [= ->]. }
  destruct (Hbs _ eq_refl) as [Hi3 Hin]. right. exists records, bs, h3.
  split; [etrans; [exact Hkh1|by etrans]|]. split; [done|]. split; [done|]. split; [|split; [|done]].
  - intros m r Hm%Hst. by rewrite (kcore_effects _ _ Hk3), (kcore_effects _ _ Hk2).
  - intros id p [Hp|?]%Hin; [by rewrite lookup_empty in Hp|done].
Qed.

Lemma internalize_run now messages h res h' : kwf h → journal_ok h → internalize now messages h = (res, h') →
  run h h' ∧ (∀ m, settled h m → settled h' m) ∧ res ≠ Err KStalePlan ∧
  ∀ s, res = Ok s → ∀ m, m ∈ messages → settled h' m.
Proof.
  intros Hw Hj [(Hk & Hs & He)|(records & bs & h1 & Hk & Hms & Hi & _ & _ & H)]%internalize_inv; [..|done|done].
  - split; [by apply run_kcore|]. split; [intros m; by apply settled_kcore|]. split; [done|].
    intros s ->. rewrite (Hs s eq_refl). by intros m ?%not_elem_of_nil.
  - apply loop_spec in H as (Hr & Hse & He & Hok); [|done|by rewrite <-Hms, length_fmap].
    split; [eapply run_trans; [by apply run_kcore|done]|].
    split; [intros m Hm; by apply Hse, (settled_kcore h)|]. split; [done|]. rewrite <-Hms. exact Hok.
Qed.

(** C18. Messages are carried out safely and, once accepted, settled.  Take any
    claims, queue and journals in order, and let a batch of claim-attribute
    messages be internalized, with whatever faults strike.  Then a local claim
    stays what it was or becomes a strictly later version of the agent's own;
    the changes are steps of the history that edits run in, so that what they
    guarantee stands; the upload queue loses nothing; the journals stay in
    order and what was settled stays so; the run never fails over a stale
    plan; and when it succeeds every message of the batch has a record whose
    plan has been carried out. *)
Theorem message_batch_settled now messages h res h' : kwf h → journal_ok h →
  internalize now messages h = (res, h') →
  kwf h' ∧ journal_ok h' ∧ claims_forward agent_id h h' ∧ never_lost (kh_upload h) (kh_upload h') ∧
  rtc (knowledge_event agent_id lower revision) h h' ∧ (∀ m, settled h m → settled h' m) ∧
  res ≠ Err KStalePlan ∧ ∀ s, res = Ok s → ∀ m, m ∈ messages → settled h' m.
Proof. intros Hw Hj H. by destruct (internalize_run _ _ _ _ _ Hw Hj H) as ([] & ? & ? & ?). Qed.

(** ** Messages that are settled already *)

Lemma apply_settled now p h r h' : ep_state p = EffectApplied →
  apply_persisted_claim_attribute_update_plan now p h = (r, h') → same_jcore h h' ∧ ∀ p', r = Ok p' → p' = p.
Proof.
  intros Hst H. unfold apply_persisted_claim_attribute_update_plan in H. rewrite Hst in H.
  apply bind_cases in H as [([] & h1 & H1 & H)|(e & H1 & ->)]; pose proof (repair_jcore _ _ _ _ H1) as Hj; [|done].
  injection H as <- <-. split; [done|]. by intros p' [= <-].
Qed.

Lemma settled_loop fuel : ∀ now messages batches applied summaries h res h',
  loop_inv messages batches applied h → (∀ id p, batches !! id = Some p → ep_state p = EffectApplied) →
  (∀ m, m ∈ messages.*1 → settled h m) →
  loop fuel now messages batches applied summaries h = (res, h') → same_jcore h h'.
Proof.
  induction fuel as [|fuel IH]; intros now messages batches applied summaries h res h' Hi Hb Hset H.
  { by destruct messages as [|[m o] ms]; injection H as _ <-. }
  destruct messages as [|[m o] ms]; [by injection H as _ <-|]. cbn [internalize_loop] in H.
  destruct (Hset m ltac:(left)) as (r0 & p0 & Hr0 & Hk0 & Hp0 & Hst0).
  assert (∀ m, m ∈ ms.*1 → settled h m) as Hset' by (intros x Hx; apply Hset; by right).
  apply bind_cases in H as [(o' & h1 & H1 & H)|(e & H1 & ->)].
  2: { destruct o; [done|]. apply kcore_jcore. by eapply record_kcore. }
  assert (same_kcore h h1 ∧ ∃ r, o' = Some r ∧ record_key r = record_key r0 ∧
    loop_inv ((m, Some r) :: ms) batches applied h1) as (Hk1 & r & -> & Hrk & Hi1).
  { destruct o as [r|].
    { injection H1 as <- <-. split; [done|]. exists r. split; [done|]. split; [|done].
      destruct (li_records _ _ _ _ Hi m r ltac:(left)) as (r' & Hr' & Hk'). rewrite Hr0 in Hr'. by injection Hr' as <-. }
    pose proof (record_kcore _ _ _ _ H1) as Hk. split; [done|]. destruct o' as [r|].
    2: { apply record_none in H1. congruence. }
    apply record_some in H1. rewrite Hr0 in H1. injection H1 as <-. exists r0. split; [done|]. split; [done|].
    apply (inv_kcore _ _ _ h); [done|]. destruct Hi as [I1 I2 I3 I4 I5 I6]. split; try done.
    - intros x p [[= -> <-]|Hin]%elem_of_cons; [left|apply (I5 x p); by right].
      unfold stored. by rewrite (proj2 (I2 _ _ Hr0)).
    - intros x r' [[= -> ->]|Hin]%elem_of_cons; [by exists r0|apply I6; by right]. }
  apply bind_cases in H as [([id bs] & h2 & H2 & H)|(e & H2 & ->)];
    destruct (load_spec _ m r _ _ _ _ _ Hi1 ltac:(left) H2) as (Hk2 & _ & Hok2).
  2: { apply kcore_jcore. by etrans. }
  destruct (Hok2 _ _ eq_refl) as (-> & Hi2 & p & Hbs). cbv zeta in H. assert (same_kcore h h2) as Hk by by etrans.
  assert (bs !! record_key r = Some p) as Hp by (rewrite Hbs; apply lookup_insert_eq).
  assert (ep_state p = EffectApplied) as Hst.
  { destruct (li_batches _ _ _ _ Hi2 _ _ Hp) as [Hid Hsp]. unfold stored in Hsp. rewrite (kcore_effects _ _ Hk) in Hsp.
    assert (p = p0) as -> by (eapply stored_unique; [exact Hsp|done|congruence]). done. }
  assert (∀ id q, bs !! id = Some q → ep_state q = EffectApplied) as Hb2.
  { intros id q. rewrite Hbs, lookup_insert_Some. intros [[_ <-]|[_ ?]]; [done|by eapply Hb]. }
  assert (loop_inv ms bs applied h2) as Hi3 by (eapply inv_sub; [|done]; intros ? ?; by right).
  case_bool_decide as Hap.
  - etrans; [by apply kcore_jcore|]. eapply (IH _ _ _ _ _ _ _ _ Hi3 Hb2); [|done].
    intros x Hx. by apply (settled_kcore h), Hset'.
  - rewrite Hp in H. apply bind_cases in H as [(p' & h3 & H3 & H)|(e & H3 & ->)];
      destruct (apply_settled _ _ _ _ _ Hst H3) as [Hj3 Hok3]; [|etrans; [by apply kcore_jcore|done]].
    rewrite (Hok3 _ eq_refl) in *. destruct (li_batches _ _ _ _ Hi2 _ _ Hp) as [Hid Hsp].
    destruct (apply_one agent_id lower revision _ _ _ _ _ (li_wf _ _ _ _ Hi2) (li_journal _ _ _ _ Hi2)
      (stored_wf _ _ (li_journal _ _ _ _ Hi2) Hsp) H3) as (Hr3 & Hs3 & _ & Hok4).
    destruct (Hok4 p eq_refl) as (HK & _ & Hst4). specialize (Hst4 (or_introl Hsp)).
    etrans; [by apply kcore_jcore|]. etrans; [exact Hj3|].
    eapply (IH _ _ _ _ _ _ _ _ (inv_apply _ _ _ _ _ _ _ _ Hi3 Hp Hr3 Hs3 HK Hst4 Hst)); [| |done].
    + intros id q. rewrite lookup_insert_Some. intros [[_ <-]|[_ ?]]; [done|by eapply Hb2].
    + intros x Hx. eapply settled_step; [apply Hi2|done|by left|]. by apply (settled_kcore h), Hset'.
Qed.

(** A settled message is not carried out again.  When every message of a
    batch is settled already, because its internalization was repeated or
    delivered twice, internalizing the batch changes no claim, no entry of the
    upload queue and no record of an edit, whether or not it succeeds. *)
Theorem settled_messages_stay now messages h res h' : kwf h → journal_ok h → (∀ m, m ∈ messages → settled h m) →
  internalize now messages h = (res, h') →
  claim_files h' = claim_files h ∧ uh_pending (kh_upload h') = uh_pending (kh_upload h) ∧ kh_edit h' = kh_edit h.
Proof.
  intros Hw Hj Hset H. assert (same_jcore h h') as Hjc.
  { apply internalize_inv in H as [(Hk & _)|(records & bs & h1 & Hk & Hms & Hi & Hst & Hbs & H)]; [by apply kcore_jcore| |done|done].
    etrans; [by apply kcore_jcore|]. eapply (settled_loop _ _ _ _ _ _ _ _ _ Hi); [| |exact H].
    - intros id p Hp. destruct (Hbs _ _ Hp) as (m & r & Hm & Hid). destruct (li_batches _ _ _ _ Hi _ _ Hp) as [Hpid Hsp].
      assert (m ∈ messages) as Hmm by (rewrite <-Hms; apply list_elem_of_fmap; by exists (m, Some r)).
      destruct (Hset m Hmm) as (r0 & q & Hr0 & Hk0 & Hq & Hqst).
      rewrite <-(kcore_effects _ _ Hk), (Hst m r Hm) in Hr0. injection Hr0 as <-.
      unfold stored in Hsp. rewrite (kcore_effects _ _ Hk) in Hsp.
      assert (p = q) as -> by (eapply stored_unique; [exact Hsp|done|congruence]). done.
    - intros m Hm. rewrite Hms in Hm. by apply (settled_kcore h), Hset. }
  pose proof (jcore_core _ _ Hjc) as Hc. core_eq Hc. unfold same_jcore, jcore in Hjc.
  split; [unfold claim_files; congruence|]. split; congruence.
Qed.
End batches.
