(* ===== verification/InboxEffectDemo.v ===== *)
(** * A batch of messages, cut short and resumed

    Two messages make the agent replace its claim by a new one; the run is
    struck after the new claim is written, and resumed.  The guarantees of
    InboxEffectSafety.v and InboxEffectBatches.v are instantiated on it. *)

From S2P Require Import Prelude Storage Claim UploadQueue UploadProofs UploadSafety UploadDelivery UploadLive Knowledge Text MemorySafety MemoryStore ClaimEdit ClaimEditProofs ClaimEditLive UploadDemo Prepare InboxEffect InboxEffectProofs InboxEffectSafety InboxEffectJournal InboxEffectBatches.
Import Ids.

Definition demo_policy : Policy :=
  {| policy_id := "policy_0000000a"; policy_message_type := ClaimAttributeUpdateType; policy_name := "retries";
     policy_statement := "retry five times"; policy_scope := "imports"; policy_status := PolicyActive;
     policy_created_at := 100; policy_updated_at := None; policy_target_agents := None |}.

Definition demo_message (id : InboxId) : InboxMessage :=
  {| msg_id := id; msg_kind := ClaimAttributeUpdate demo_policy None; msg_handled_at := None |}.

Definition demo_messages : list InboxMessage := [demo_message "inbox_0000000a"; demo_message "inbox_0000000b"].

Definition demo_draft (id : string) (status : option string) : ClaimDraft :=
  {| cdr_id := id; cdr_name := "retry rule"; cdr_statement := "retry five times"; cdr_scope := "imports";
     cdr_confidence := High; cdr_status := status; cdr_evidence_summary := "policy"; cdr_source_claim_ids := [] |}.

(** The model replaces the claim, unless its new claim is there. *)
Definition demo_generate (messages : list InboxMessage) (local : list Claim) : DateTime * InternalizeOutcome :=
  (7000000000%Z,
   if bool_decide ("claim_0000000b" ∈ claim_id <$> local)
   then {| io_new_claims := []; io_updated_claims := []; io_new_disputes := [] |}
   else {| io_new_claims := [demo_draft "claim_0000000b" None];
           io_updated_claims := [demo_draft "claim_0000000a" (Some "deprecated")]; io_new_disputes := [] |}).

Lemma demo_fresh : fresh_ids demo_generate.
Proof.
  intros messages local. unfold demo_generate. simpl. case_bool_decide as Hin; simpl.
  - split; [constructor|]. by intros d ?%not_elem_of_nil.
  - split; [apply NoDup_singleton|]. intros d ->%list_elem_of_singleton. exact Hin.
Qed.

Notation demo_prepare := (prepare_claim_attribute_update_effect msg_id
  (λ ms, join_with "," (iem_inbox_id <$> ms)) demo_revision "a" demo_generate (λ _ _ _ _, "trace_0000000a") demo_messages).
Notation demo_internalize := (internalize_claim_attribute_update_messages msg_id
  (λ ms, join_with "," (iem_inbox_id <$> ms)) demo_revision "a" demo_generate (λ _ _ _ _, "trace_0000000a") 8000000000%Z demo_messages).

Lemma demo_journal fs : journal_ok "a" (demo_knowledge fs).
Proof. intros id p. simpl. by rewrite lookup_empty. Qed.

(** ** The run *)

(** The journal entry of the new claim is struck: the claim is written, the
    old one not yet deprecated. *)
Definition batch_faults : list bool := repeat false 23 ++ [true].

Definition cut_short : KnowledgeHome := (demo_internalize (demo_knowledge batch_faults)).2.
Definition resumed : KnowledgeHome := (demo_internalize cut_short).2.

Lemma cut_run : demo_internalize (demo_knowledge batch_faults) = (Err (KStorage IoFailed), cut_short).
Proof. vm_compute. reflexivity. Qed.

Lemma resumed_run : demo_internalize cut_short = ((demo_internalize cut_short).1, resumed).
Proof. vm_compute. reflexivity. Qed.

Example cut_claims : claim_status <$> (claim_files cut_short !! "claim_0000000a" ≫= file_value) = Some ClaimActive ∧
  claim_status <$> (claim_files cut_short !! "claim_0000000b" ≫= file_value) = Some ClaimActive.
Proof. split; vm_compute; reflexivity. Qed.

Lemma cut_ok : kwf cut_short ∧ journal_ok "a" cut_short.
Proof.
  destruct (internalize_run _ _ _ "a" _ _ demo_fresh ascii_lowercase demo_revision _ _ _ _ _ (proj1 (demo_kinv _)) (demo_journal _) cut_run)
    as ([] & _). done.
Qed.

Lemma resumed_ok : kwf resumed ∧ journal_ok "a" resumed ∧ ∀ m, m ∈ demo_messages → settled resumed m.
Proof.
  destruct (internalize_run _ _ _ "a" _ _ demo_fresh ascii_lowercase demo_revision _ _ _ _ _ (proj1 cut_ok) (proj2 cut_ok) resumed_run)
    as ([] & _ & _ & Hs). split; [done|]. split; [done|]. eapply Hs. vm_compute. reflexivity.
Qed.

Lemma message_batch_settled_witness :
  (∀ m, m ∈ demo_messages → settled resumed m) ∧ claims_forward "a" cut_short resumed ∧
  claim_status <$> (claim_files resumed !! "claim_0000000a" ≫= file_value) = Some ClaimDeprecated.
Proof.
  destruct (message_batch_settled _ _ _ "a" _ _ demo_fresh ascii_lowercase demo_revision _ _ _ _ _
    (proj1 cut_ok) (proj2 cut_ok) resumed_run) as (_ & _ & Hf & _ & _ & _ & _ & Hs).
  split; [eapply Hs; vm_compute; reflexivity|]. split; [exact Hf|vm_compute; reflexivity].
Defined.

Definition repeated : KnowledgeHome := (demo_internalize resumed).2.

Lemma repeated_run : demo_internalize resumed = ((demo_internalize resumed).1, repeated).
Proof. vm_compute. reflexivity. Qed.

Lemma settled_messages_stay_witness : claim_files repeated = claim_files resumed ∧
  uh_pending (kh_upload repeated) = uh_pending (kh_upload resumed).
Proof.
  destruct resumed_ok as (Hw & Hj & Hs).
  destruct (settled_messages_stay _ _ _ "a" _ _ ascii_lowercase demo_revision _ _ _ _ _ Hw Hj Hs repeated_run) as (H1 & H2 & _).
  split; [exact H1|exact H2].
Defined.

(** ** One plan *)

Definition no_plan : InboxEffectPlan :=
  {| ep_schema_version := 0; ep_inbox_id := ""; ep_resolution_id := None; ep_message_hash := ""; ep_batch_members := [];
     ep_batch_hash := None; ep_analysis_claims := None; ep_applied_claims := []; ep_state := EffectApplied;
     ep_prepared_at := 0; ep_new_claims := []; ep_updated_claims := []; ep_deprecated_claim_ids := [];
     ep_new_disputes := []; ep_trace := None; ep_warnings := [] |}.

Definition demo_plan : InboxEffectPlan :=
  match (demo_prepare (demo_knowledge [])).1 with Ok p => p | Err _ => no_plan end.

Lemma demo_plan_run : demo_prepare (demo_knowledge []) = (Ok demo_plan, (demo_prepare (demo_knowledge [])).2).
Proof. vm_compute. reflexivity. Qed.

Lemma demo_plan_wf : plan_wf "a" demo_plan.
Proof. by destruct (prepare_plan _ _ _ _ _ _ demo_fresh _ _ _ _ demo_plan_run) as [_ [? _]]. Qed.

Notation demo_apply := (apply_persisted_claim_attribute_update_plan 8000000000%Z demo_plan (demo_knowledge [])).

Definition carried_home : KnowledgeHome := (demo_apply).2.
Definition carried_plan : InboxEffectPlan := match (demo_apply).1 with Ok p => p | Err _ => no_plan end.

Lemma demo_apply_run : demo_apply = (Ok carried_plan, carried_home).
Proof. vm_compute. reflexivity. Qed.

Definition new_version : Claim :=
  {| claim_id := "claim_0000000b"; claim_name := "retry rule"; claim_statement := "retry five times"; claim_scope := "imports";
     claim_holder := "a"; claim_confidence := High; claim_status := ClaimActive; claim_created_at := 7000000000;
     claim_updated_at := None; claim_source_claim_ids := [SourcePolicy "policy_0000000a"]; claim_evidence_summary := "policy" |}.

Lemma plan_never_overwrites_witness :
  local_at (demo_knowledge []) "claim_0000000a" = analysed demo_plan "claim_0000000a" ∧
  local_at carried_home "claim_0000000b" = Some new_version.
Proof.
  destruct (plan_never_overwrites "a" ascii_lowercase demo_revision _ _ _ _ _ (proj1 (demo_kinv [])) demo_plan_wf demo_apply_run) as [H1 H2].
  split.
  - destruct (H1 "claim_0000000a") as (t & _ & _ & _ & H); [vm_compute; discriminate|exact H].
  - apply (H2 (default new_version (local_at carried_home "claim_0000000a")) new_version).
    + vm_compute. right. left.
    + vm_compute. reflexivity.
    + vm_compute. discriminate.
    + vm_compute. reflexivity.
    + vm_compute. left.
    + vm_compute. reflexivity.
Defined.

(** A later version of the new claim, written by another holder of the lock. *)
Definition overwritten : KnowledgeHome := kwrite (set_updated_at 9000000000 new_version) carried_home.

Lemma overwrite_history : rtc (knowledge_event "a" ascii_lowercase demo_revision) carried_home overwritten.
Proof.
  apply rtc_once, ke_write. split; [reflexivity|]. intros l Hl. vm_compute in Hl. injection Hl as <-. vm_compute. reflexivity.
Qed.

Lemma applied_plan_is_staged_witness : tracked overwritten new_version ∧ ep_state carried_plan = EffectApplied.
Proof.
  destruct (applied_plan_is_staged "a" ascii_lowercase demo_revision _ _ _ _ _ _ demo_revision_inj (demo_kinv []) demo_plan_wf
    eq_refl eq_refl demo_apply_run overwrite_history) as (_ & Hst & _ & Htr & _).
  split; [|exact Hst]. apply Htr; [vm_compute; left|vm_compute; reflexivity].
Defined.
