(* ===== verification/ArbitrationTypes.v ===== *)
(** * Records of dispute arbitration (src/src/maintainer/arbitration/types.rs)

    The analysis of a dispute, its frozen context, the proposal and its
    verification, and the resolution records; with the pure checks of
    store.rs, evaluator.rs, resolution.rs and service.rs on them.  A message
    text that only a person reads is the constructor of its cause; a
    confidence is an IEEE 754 double ([spec_float], 53 bits of precision). *)

From Stdlib Require Import SpecFloat.
From S2P Require Import Prelude Storage Claim Maintainer.
Import Ids.

(** ** Floating point *)

Abbreviation f64 := spec_float.

#[export] Instance f64_eq_dec : EqDecision f64.
Proof. solve_decision. Defined.

Definition f64_zero : f64 := S754_zero false.
Definition f64_one : f64 := S754_finite false 4503599627370496 (-52).

(** [a <= b] and [a == b] of IEEE 754: false when either is not a number. *)
Definition f64_le (a b : f64) : bool := SFleb a b.
Definition f64_eqb (a b : f64) : bool := SFeqb a b.

Definition is_finite (x : f64) : bool :=
  match x with S754_zero _ | S754_finite _ _ _ => true | _ => false end.

(** [x.is_finite() && (0.0..=1.0).contains(&x)] *)
Definition in_unit_interval (x : f64) : bool :=
  is_finite x && (f64_le f64_zero x && f64_le x f64_one).

(** ** Configuration *)

Inductive ArbitrationMode := ModeShadow | ModeAuto | ModeManual.
Inductive LlmProvider := Anthropic | OpenAiChat | OpenAiResponses.
Inductive ReasoningEffort := EffortNone | EffortLow | EffortMedium | EffortHigh | EffortXhigh | EffortMax.

Record MaintainerArbitrationConfig := {
  cfg_mode : ArbitrationMode;
  cfg_confidence_threshold : f64;
  cfg_max_source_claims : nat;
}.

(** The part of [LlmChatConfig] that arbitration reads. *)
Record LlmChatConfig := {
  llm_provider : LlmProvider;
  llm_model : string;
  llm_reasoning_effort : option ReasoningEffort;
  llm_max_tokens : Z;
  llm_context_window : Z;
  llm_timeout_secs : Z;
  llm_retry_count : nat;
  llm_retry_base_delay_ms : Z;
  llm_retry_max_delay_ms : Z;
}.

(** ** Identifiers and states *)

Abbreviation ArbitrationAnalysisId := string.
Definition analysis_prefix : string := "analysis_".

Inductive LegacyAnalysisSource := SourceAutomatic | SourceManual.

Record AnalysisJob := {
  job_dispute_id : DisputeId;
  job_analysis_id : ArbitrationAnalysisId;
}.

Inductive AnalysisState :=
| Pending | WaitingContext | WaitingReanalysis | Proposing | Verifying
| Approved | StateUnresolved | Failed | Adopting | Adopted.

Definition is_terminal (s : AnalysisState) : bool :=
  match s with Approved | StateUnresolved | Failed | Adopted => true | _ => false end.

Definition is_recoverable (s : AnalysisState) : bool :=
  match s with
  | Pending | WaitingContext | WaitingReanalysis | Proposing | Verifying | Adopting => true
  | _ => false
  end.

Inductive AnalysisPhase := PhaseProposal | PhaseVerification.

Record AnalysisLease := {
  lease_token : string;
  lease_phase : AnalysisPhase;
  lease_expires_at : DateTime;
  lease_renewed_at : DateTime;
}.

(** The argument of each warning text. *)
Inductive WarningDetail :=
| AboutClaim (id : ClaimId)
| AboutDispute (id : DisputeId)
| AboutScope (scope : string)
| AboutLimit (limit : nat).

Record ContextWarning := { cw_code : string; cw_detail : WarningDetail }.

Record PriorResolutionContext := {
  prc_dispute_id : DisputeId;
  prc_resolution : DisputeResolution;
}.

(** router/traits.rs *)
Record DisputeRef := {
  ref_id : DisputeId;
  ref_name : string;
  ref_claim_ids : list ClaimId;
  ref_summary : string;
  ref_status : DisputeStatus;
}.

Record FrozenArbitrationContext := {
  fc_generated_at : DateTime;
  fc_dispute : Dispute;
  fc_direct_claims : list Claim;
  fc_source_claims : list Claim;
  fc_policies : list Policy;
  fc_router_candidate_claims : list Claim;
  fc_router_disputes : list DisputeRef;
  fc_prior_resolutions : list PriorResolutionContext;
  fc_warnings : list ContextWarning;
}.

Record ArbitrationProposal := {
  ap_resolution_type : ResolutionType;
  ap_resolution_basis : ResolutionBasis;
  ap_conclusion : string;
  ap_claim_assessments : list ClaimAssessment;
  ap_confidence : f64;
  ap_evidence_refs : list string;
  ap_missing_evidence : list string;
  ap_human_review_reason : option string;
  ap_reasoning : string;
}.

Inductive VerificationVerdict := VerdictApprove | VerdictUnresolved.

Record ClaimAssessmentVerification := {
  cav_claim_id : ClaimId;
  cav_agreed : bool;
  cav_reason : string;
}.

Record ArbitrationVerification := {
  av_verdict : VerificationVerdict;
  av_resolution_type_agreed : bool;
  av_resolution_basis_agreed : bool;
  av_conclusion_agreed : bool;
  av_claim_assessments : list ClaimAssessmentVerification;
  av_confidence : f64;
  av_missing_evidence : list string;
  av_reasoning : string;
}.

(** ** Resolution records *)

Record DeliveryTargetIntent := {
  dti_inbox_id : InboxId;
  dti_target_agent : AgentId;
  dti_inbox_message : InboxMessage;
}.

Record DeliveryIntent := {
  di_policy : Policy;
  di_maintainer_action_id : MaintainerActionId;
  di_targets : list DeliveryTargetIntent;
}.

Record ResolutionEventTarget := {
  ret_dispute_id : DisputeId;
  ret_resolution_id : ArbitrationResolutionId;
}.

Definition ARBITRATION_SCHEMA_VERSION : Z := 2.
Definition CURRENT_SEMANTIC_PROJECTION_VERSION : Z := 6.
Definition ARBITRATION_PROMPT_VERSION : string := "maintainer-dispute-arbitration-v8".

Record ArbitrationResolutionRecord := {
  rr_schema_version : Z;
  rr_resolution_id : ArbitrationResolutionId;
  rr_dispute_id : DisputeId;
  rr_created_at : DateTime;
  rr_resolution : DisputeResolution;
  rr_dispute_snapshot : Dispute;
  rr_direct_claim_snapshots : list Claim;
  rr_semantic_fingerprint : option string;
  rr_context_snapshot_hash : option string;
  rr_analysis_source_id : option ArbitrationAnalysisId;
  rr_delivery_intent : option DeliveryIntent;
  rr_snapshot_source_resolution_id : option ArbitrationResolutionId;
}.

Record PendingResolutionDelivery := {
  prd_schema_version : Z;
  prd_target : ResolutionEventTarget;
  prd_resolution_record : option ArbitrationResolutionRecord;
  prd_created_at : DateTime;
  prd_retry_count : Z;
  prd_next_retry_at : option DateTime;
}.

(** ** The analysis *)

(** What a re-analysis found changed: context.rs, [describe_changes]. *)
Inductive ChangedPart :=
| PreviousUnavailable | DisputeChanged | DirectClaimsChanged | SourceClaimsChanged
| PoliciesChanged | RouterCandidatesChanged | RouterDisputesChanged | ConfigurationChanged.

(** Why the automatic or human adoption of an analysis is blocked. *)
Inductive BlockedReason :=
| DirectClaimsIncomplete
| InputChanged (reason : list ChangedPart)
| InputKeepsChanging
| HumanAdoptionOwns (analysis : ArbitrationAnalysisId)
| ResolutionCameFirst (resolution : ArbitrationResolutionId).

(** The cause of an error of the store, the service or a resolution. *)
Inductive Reason :=
(* store.rs *)
| NoCurrentAnalysis
| JobReplaced
| AnalysisSchema (version : Z)
| ContextWithoutHash
| RetryWithoutWaiting
| RoundOutOfRange
| SnapshotOfOther
| AlreadyCreatedDifferently
| ResolutionSchema (version : Z)
| ResolutionIdInconsistent
| NotRequestedResolution
(* context.rs *)
| DirectClaimRepeated (id : ClaimId)
| DirectClaimNotUnique (id : ClaimId) (mirrors : nat)
| DirectClaimHolder (id : ClaimId) (path_agent holder : AgentId)
(* evaluator.rs *)
| ConfidenceOutOfRange
| TextEmpty
| UnresolvedBasis
| UnresolvedWithAssessments
| ResolvedBasis
| AssessmentsMissing
| EvidenceRepeated
| EvidenceOutside (ids : list string)
| EvidenceIncomplete (ids : list string)
| ApprovesUnresolved
| CoverageWrong
| AssessmentTextBlank
| LeaseBaseOverflow
(* service.rs *)
| ReportDiffers (id : DisputeId)
| OrphanDiffers (id : DisputeId)
| DisputeAlreadyResolved (id : DisputeId)
| AnalysisCommitting (id : DisputeId)
| NotAdoptable (id : ArbitrationAnalysisId) (state : AnalysisState)
| AdoptionBlocked (reason : BlockedReason)
| AnalysisInputChanged
| CannotSaveContext (state : AnalysisState)
| ClosedByResolution
| LeaseMissing
| LeaseTakenOver
| ContextMissing
| ProposalMissing
| MirrorNotReady
(* resolution.rs *)
| StateCannotAdopt (state : AnalysisState)
| HumanResolvedFirst (resolution : ArbitrationResolutionId)
| ClosedByOther (id : DisputeId)
| UnresolvedCannotAdopt
| FingerprintMissing
| SnapshotHashMissing
| HumanIntentFixed (owner : ArbitrationAnalysisId)
| UsedByOther (by_ : ResolvedBy)
| AdoptedNotCurrent
| AdoptionOvertaken (resolution : ArbitrationResolutionId)
| IntentMissing
| IntentIdInconsistent
| PendingTargetDiffers
| PendingIntentDiffers
| SeveralHumanIntents
| HumanRecordMissing
| RecordNotCurrent
| EventTargetDiffers
| AdoptingOtherResolution
| NoHolder (id : DisputeId)
| ResolutionIdsExhausted
| ActionIdsExhausted
| PolicyDiffers (id : PolicyId)
| OutboxEntryDiffers (id : InboxId)
| InputInvalid
| RecoveredOther (resolution : ArbitrationResolutionId)
| NoStructuredResolution
| ExpectedResolutionDiffers
| NotAutomatic.

Inductive ArbError :=
| AStorage (e : StorageError)
| AMaintainer (e : MaintainerError)
| ALockDispute
| ARouter
| AProvider                    (* the model call failed *)
| AInvalidOutput (why : Reason)  (* ArbitrationOutputValidationError *)
| ANotReady (why : Reason)     (* ContextNotReadyError *)
| AConflict (why : Reason)     (* AnalysisConflict *)
| AFailure (why : Reason).     (* any other anyhow error *)

#[export] Instance ArbError_storage : FromStorage ArbError := AStorage.

Definition is_analysis_conflict (e : ArbError) : bool :=
  match e with AConflict _ => true | _ => false end.

Definition is_context_not_ready (e : ArbError) : bool :=
  match e with ANotReady _ => true | _ => false end.

(** The public text of an analysis error: the log keeps the details of a
    failed model call or context build. *)
Inductive ErrorMessage :=
| ProposalCallFailed | VerificationCallFailed | ContextBuildFailed
| HandledByResolution
| BlockedMessage (reason : BlockedReason)
| ErrorText (e : ArbError).

Record AnalysisError := {
  ae_code : string;
  ae_message : ErrorMessage;
}.

Record AnalysisRound := {
  ar_round : Z;
  ar_started_at : DateTime;
  ar_completed_at : option DateTime;
  ar_semantic_projection_version : Z;
  ar_semantic_fingerprint : string;
  ar_context_snapshot_hash : string;
  ar_proposal : ArbitrationProposal;
  ar_verification : ArbitrationVerification;
  ar_context_change_reason : option (list ChangedPart);
}.

Record ArbitrationAnalysis := {
  an_schema_version : Z;
  an_analysis_id : ArbitrationAnalysisId;
  an_dispute_id : DisputeId;
  an_legacy_source : LegacyAnalysisSource;
  an_report_snapshot : option Dispute;
  an_created_at : DateTime;
  an_updated_at : DateTime;
  an_prompt_version : string;
  an_mode : ArbitrationMode;
  an_model : string;
  an_confidence_threshold : f64;
  an_semantic_projection_version : Z;
  an_semantic_fingerprint : option string;
  an_context_snapshot_hash : option string;
  an_context : option FrozenArbitrationContext;
  an_state : AnalysisState;
  an_analysis_round : Z;
  an_rounds : list AnalysisRound;
  an_context_change_count : Z;
  an_next_retry_at : option DateTime;
  an_context_change_reason : option (list ChangedPart);
  an_lease : option AnalysisLease;
  an_proposal : option ArbitrationProposal;
  an_verification : option ArbitrationVerification;
  an_resolution_id : option ArbitrationResolutionId;
  an_pending_resolution : option ArbitrationResolutionRecord;
  an_error : option AnalysisError;
  an_delivery_error : bool;
  an_adoption_blocked_reason : option BlockedReason;
  an_context_prepare_attempts : Z;
}.

(** ** Decidable equality *)

#[export] Instance ArbitrationMode_eq_dec : EqDecision ArbitrationMode.
Proof. solve_decision. Defined.
#[export] Instance LegacyAnalysisSource_eq_dec : EqDecision LegacyAnalysisSource.
Proof. solve_decision. Defined.
#[export] Instance AnalysisJob_eq_dec : EqDecision AnalysisJob.
Proof. solve_decision. Defined.
#[export] Instance AnalysisState_eq_dec : EqDecision AnalysisState.
Proof. solve_decision. Defined.
#[export] Instance AnalysisPhase_eq_dec : EqDecision AnalysisPhase.
Proof. solve_decision. Defined.
#[export] Instance AnalysisLease_eq_dec : EqDecision AnalysisLease.
Proof. solve_decision. Defined.
#[export] Instance WarningDetail_eq_dec : EqDecision WarningDetail.
Proof. solve_decision. Defined.
#[export] Instance ContextWarning_eq_dec : EqDecision ContextWarning.
Proof. solve_decision. Defined.
#[export] Instance PriorResolutionContext_eq_dec : EqDecision PriorResolutionContext.
Proof. solve_decision. Defined.
#[export] Instance DisputeRef_eq_dec : EqDecision DisputeRef.
Proof. solve_decision. Defined.
#[export] Instance FrozenArbitrationContext_eq_dec : EqDecision FrozenArbitrationContext.
Proof. solve_decision. Defined.
#[export] Instance ArbitrationProposal_eq_dec : EqDecision ArbitrationProposal.
Proof. solve_decision. Defined.
#[export] Instance VerificationVerdict_eq_dec : EqDecision VerificationVerdict.
Proof. solve_decision. Defined.
#[export] Instance ClaimAssessmentVerification_eq_dec : EqDecision ClaimAssessmentVerification.
Proof. solve_decision. Defined.
#[export] Instance ArbitrationVerification_eq_dec : EqDecision ArbitrationVerification.
Proof. solve_decision. Defined.
#[export] Instance DeliveryTargetIntent_eq_dec : EqDecision DeliveryTargetIntent.
Proof. solve_decision. Defined.
#[export] Instance DeliveryIntent_eq_dec : EqDecision DeliveryIntent.
Proof. solve_decision. Defined.
#[export] Instance ResolutionEventTarget_eq_dec : EqDecision ResolutionEventTarget.
Proof. solve_decision. Defined.
#[export] Instance ArbitrationResolutionRecord_eq_dec : EqDecision ArbitrationResolutionRecord.
Proof. solve_decision. Defined.
#[export] Instance PendingResolutionDelivery_eq_dec : EqDecision PendingResolutionDelivery.
Proof. solve_decision. Defined.
#[export] Instance ChangedPart_eq_dec : EqDecision ChangedPart.
Proof. solve_decision. Defined.
#[export] Instance BlockedReason_eq_dec : EqDecision BlockedReason.
Proof. solve_decision. Defined.
#[export] Instance Reason_eq_dec : EqDecision Reason.
Proof. solve_decision. Defined.
#[export] Instance ArbError_eq_dec : EqDecision ArbError.
Proof. solve_decision. Defined.
#[export] Instance ErrorMessage_eq_dec : EqDecision ErrorMessage.
Proof. solve_decision. Defined.
#[export] Instance AnalysisError_eq_dec : EqDecision AnalysisError.
Proof. solve_decision. Defined.
#[export] Instance AnalysisRound_eq_dec : EqDecision AnalysisRound.
Proof. solve_decision. Defined.
#[export] Instance ArbitrationAnalysis_eq_dec : EqDecision ArbitrationAnalysis.
Proof. solve_decision. Defined.
