(* ===== verification/ArbitrationChecks.v ===== *)
(** * Pure functions on arbitration records

    Field updates of an analysis, the checks of store.rs before it writes
    or recovers a record, the validation of a model's answer
    (evaluator.rs), and the decision whether a verified proposal is
    approved (service.rs). *)

From Stdlib Require Import SpecFloat.
From S2P Require Import Prelude Storage Claim Maintainer ArbitrationTypes.
Import Ids.

(** ** Field updates *)

Definition an_eta (a : ArbitrationAnalysis) : ArbitrationAnalysis :=
  {| an_schema_version := an_schema_version a; an_analysis_id := an_analysis_id a;
     an_dispute_id := an_dispute_id a; an_legacy_source := an_legacy_source a;
     an_report_snapshot := an_report_snapshot a; an_created_at := an_created_at a;
     an_updated_at := an_updated_at a; an_prompt_version := an_prompt_version a;
     an_mode := an_mode a; an_model := an_model a;
     an_confidence_threshold := an_confidence_threshold a;
     an_semantic_projection_version := an_semantic_projection_version a;
     an_semantic_fingerprint := an_semantic_fingerprint a;
     an_context_snapshot_hash := an_context_snapshot_hash a; an_context := an_context a;
     an_state := an_state a; an_analysis_round := an_analysis_round a; an_rounds := an_rounds a;
     an_context_change_count := an_context_change_count a; an_next_retry_at := an_next_retry_at a;
     an_context_change_reason := an_context_change_reason a; an_lease := an_lease a;
     an_proposal := an_proposal a; an_verification := an_verification a;
     an_resolution_id := an_resolution_id a; an_pending_resolution := an_pending_resolution a;
     an_error := an_error a; an_delivery_error := an_delivery_error a;
     an_adoption_blocked_reason := an_adoption_blocked_reason a;
     an_context_prepare_attempts := an_context_prepare_attempts a |}.

(** [a] with the field read by [proj] replaced by [v]. *)
Ltac an_set a proj v :=
  let t := eval cbv beta delta [an_eta] in (an_eta a) in
  match t with
  | context C [?f] => constr_eq f (proj a); let t' := context C [v] in exact t'
  end.

Definition set_legacy_source v a : ArbitrationAnalysis := ltac:(an_set a an_legacy_source v).
Definition set_report_snapshot v a : ArbitrationAnalysis := ltac:(an_set a an_report_snapshot v).
Definition set_updated_at v a : ArbitrationAnalysis := ltac:(an_set a an_updated_at v).
Definition set_mode v a : ArbitrationAnalysis := ltac:(an_set a an_mode v).
Definition set_semantic_fingerprint v a : ArbitrationAnalysis := ltac:(an_set a an_semantic_fingerprint v).
Definition set_context_snapshot_hash v a : ArbitrationAnalysis := ltac:(an_set a an_context_snapshot_hash v).
Definition set_context v a : ArbitrationAnalysis := ltac:(an_set a an_context v).
Definition set_state v a : ArbitrationAnalysis := ltac:(an_set a an_state v).
Definition set_analysis_round v a : ArbitrationAnalysis := ltac:(an_set a an_analysis_round v).
Definition set_rounds v a : ArbitrationAnalysis := ltac:(an_set a an_rounds v).
Definition set_context_change_count v a : ArbitrationAnalysis := ltac:(an_set a an_context_change_count v).
Definition set_next_retry_at v a : ArbitrationAnalysis := ltac:(an_set a an_next_retry_at v).
Definition set_context_change_reason v a : ArbitrationAnalysis := ltac:(an_set a an_context_change_reason v).
Definition set_lease v a : ArbitrationAnalysis := ltac:(an_set a an_lease v).
Definition set_proposal v a : ArbitrationAnalysis := ltac:(an_set a an_proposal v).
Definition set_verification v a : ArbitrationAnalysis := ltac:(an_set a an_verification v).
Definition set_resolution_id v a : ArbitrationAnalysis := ltac:(an_set a an_resolution_id v).
Definition set_pending_resolution v a : ArbitrationAnalysis := ltac:(an_set a an_pending_resolution v).
Definition set_error v a : ArbitrationAnalysis := ltac:(an_set a an_error v).
Definition set_delivery_error v a : ArbitrationAnalysis := ltac:(an_set a an_delivery_error v).
Definition set_adoption_blocked_reason v a : ArbitrationAnalysis := ltac:(an_set a an_adoption_blocked_reason v).
Definition set_context_prepare_attempts v a : ArbitrationAnalysis := ltac:(an_set a an_context_prepare_attempts v).
Definition set_confidence_threshold v a : ArbitrationAnalysis := ltac:(an_set a an_confidence_threshold v).

(** A sequence of assignments, in the order of the source. *)
Notation "a '|>' f" := (f a) (at level 50, left associativity, only parsing) : acn_scope.
Open Scope acn_scope.

(** ** The derived equality of analyses *)

Definition strip_proposal (p : ArbitrationProposal) : ArbitrationProposal :=
  {| ap_resolution_type := ap_resolution_type p; ap_resolution_basis := ap_resolution_basis p;
     ap_conclusion := ap_conclusion p; ap_claim_assessments := ap_claim_assessments p;
     ap_confidence := f64_zero; ap_evidence_refs := ap_evidence_refs p;
     ap_missing_evidence := ap_missing_evidence p;
     ap_human_review_reason := ap_human_review_reason p; ap_reasoning := ap_reasoning p |}.

Definition strip_verification (v : ArbitrationVerification) : ArbitrationVerification :=
  {| av_verdict := av_verdict v; av_resolution_type_agreed := av_resolution_type_agreed v;
     av_resolution_basis_agreed := av_resolution_basis_agreed v;
     av_conclusion_agreed := av_conclusion_agreed v;
     av_claim_assessments := av_claim_assessments v; av_confidence := f64_zero;
     av_missing_evidence := av_missing_evidence v; av_reasoning := av_reasoning v |}.

Definition strip_round (r : AnalysisRound) : AnalysisRound :=
  {| ar_round := ar_round r; ar_started_at := ar_started_at r; ar_completed_at := ar_completed_at r;
     ar_semantic_projection_version := ar_semantic_projection_version r;
     ar_semantic_fingerprint := ar_semantic_fingerprint r;
     ar_context_snapshot_hash := ar_context_snapshot_hash r;
     ar_proposal := strip_proposal (ar_proposal r);
     ar_verification := strip_verification (ar_verification r);
     ar_context_change_reason := ar_context_change_reason r |}.

(** An analysis apart from its floating point numbers, and those numbers. *)
Definition strip (a : ArbitrationAnalysis) : ArbitrationAnalysis :=
  a |> set_confidence_threshold f64_zero
    |> set_proposal (strip_proposal <$> an_proposal a)
    |> set_verification (strip_verification <$> an_verification a)
    |> set_rounds (strip_round <$> an_rounds a).

Definition floats (a : ArbitrationAnalysis) : list f64 :=
  [an_confidence_threshold a]
  ++ match an_proposal a with Some p => [ap_confidence p] | None => [] end
  ++ match an_verification a with Some v => [av_confidence v] | None => [] end
  ++ (an_rounds a ≫= λ r, [ap_confidence (ar_proposal r); av_confidence (ar_verification r)]).

(** [PartialEq] for [ArbitrationAnalysis]: numbers compare as IEEE 754. *)
Definition analysis_eqb (a b : ArbitrationAnalysis) : bool :=
  bool_decide (strip a = strip b)
  && forallb (λ xy : f64 * f64, f64_eqb xy.1 xy.2) (zip (floats a) (floats b)).

(** ** store.rs *)

Definition validate_analysis (a : ArbitrationAnalysis) : Result Reason unit :=
  if negb (bool_decide (an_schema_version a = ARBITRATION_SCHEMA_VERSION))
  then Err (AnalysisSchema (an_schema_version a))
  else if negb (bool_decide (bool_decide (is_Some (an_context a)) =
      bool_decide (is_Some (an_semantic_fingerprint a)) && bool_decide (is_Some (an_context_snapshot_hash a))))
  then Err ContextWithoutHash
  else if negb (bool_decide (bool_decide (an_state a = WaitingReanalysis) =
      bool_decide (is_Some (an_next_retry_at a))))
  then Err RetryWithoutWaiting
  else if bool_decide (an_analysis_round a = 0)%Z || bool_decide (3 < an_analysis_round a)%Z
  then Err RoundOutOfRange
  else match an_report_snapshot a with
  | Some snapshot =>
      if negb (bool_decide (dispute_id snapshot = an_dispute_id a)) then Err SnapshotOfOther else Ok tt
  | None => Ok tt
  end.

Definition normalize_legacy_adoption_mode (a : ArbitrationAnalysis)
    (source_hint : option LegacyAnalysisSource) : ArbitrationAnalysis :=
  let is_manual := bool_decide (an_legacy_source a = SourceManual)
                   || bool_decide (source_hint = Some SourceManual) in
  if is_manual then a |> set_legacy_source SourceManual |> set_mode ModeManual
  else match source_hint with
  | Some source => a |> set_legacy_source source
  | None => a
  end.

(** The order of [(created_at, updated_at, analysis_id)]. *)
Definition analysis_cmp : ArbitrationAnalysis → ArbitrationAnalysis → comparison :=
  cmp_then (cmp_on an_created_at Z.compare)
    (cmp_then (cmp_on an_updated_at Z.compare) (cmp_on an_analysis_id String.compare)).

Definition select_legacy_current_analysis (automatic manual : option ArbitrationAnalysis) :
    option ArbitrationAnalysis :=
  let automatic := (λ a, normalize_legacy_adoption_mode a (Some SourceAutomatic)) <$> automatic in
  let manual := (λ a, normalize_legacy_adoption_mode a (Some SourceManual)) <$> manual in
  match automatic, manual with
  | None, None => None
  | Some a, None | None, Some a => Some a
  | Some automatic, Some manual =>
      match bool_decide (an_state automatic = Adopting), bool_decide (an_state manual = Adopting) with
      | true, false => Some automatic
      | false, true => Some manual
      | _, _ => Some (match analysis_cmp manual automatic with Gt => manual | _ => automatic end)
      end
  end.

(** Whether the recovery scan schedules an analysis again. *)
Definition recoverable_analysis (include_auto_approved : bool) (a : ArbitrationAnalysis) : bool :=
  is_recoverable (an_state a)
  || (include_auto_approved
      && bool_decide (an_state a = Approved)
      && bool_decide (an_mode a = ModeAuto)
      && bool_decide (an_adoption_blocked_reason a = None)).

(** ** resolution.rs *)

(** [text.is_some_and(|value| value.trim().is_empty())] *)
Definition option_blank (o : option string) : bool :=
  match o with Some v => string_blank v | None => false end.

(** The elements of [l], each once: whether they are exactly those of [expected]. *)
Definition covers_exactly (expected l : list string) : bool :=
  bool_decide (NoDup l) && bool_decide (l ⊆ expected) && bool_decide (expected ⊆ l).

Definition assessment_blank (a : ClaimAssessment) : bool :=
  string_blank (ca_assessment a) || string_blank (ca_reason a)
  || option_blank (ca_recommended_scope a) || option_blank (ca_recommended_statement a).

Definition validate_assessments (direct_claim_ids : list ClaimId) (assessments : list ClaimAssessment) :
    Result Reason unit :=
  match assessments with
  | [] => Ok tt
  | _ =>
      if negb (covers_exactly direct_claim_ids (ca_claim_id <$> assessments)) then Err CoverageWrong
      else if existsb assessment_blank assessments then Err AssessmentTextBlank
      else Ok tt
  end.

(** ** evaluator.rs *)

Definition visible_evidence_ids (c : FrozenArbitrationContext) : list string :=
  [dispute_id (fc_dispute c)]
  ++ (claim_id <$> fc_direct_claims c) ++ (claim_id <$> fc_source_claims c)
  ++ (policy_id <$> fc_policies c)
  ++ (claim_id <$> fc_router_candidate_claims c)
  ++ (ref_id <$> fc_router_disputes c)
  ++ ((λ p, dr_resolution_id (prc_resolution p)) <$> fc_prior_resolutions c).

Definition check_proposal_shape (direct_ids : list ClaimId) (p : ArbitrationProposal) : Result Reason unit :=
  if bool_decide (ap_resolution_type p = Unresolved) then
    if negb (bool_decide (ap_resolution_basis p = InsufficientEvidence)) then Err UnresolvedBasis
    else if negb (bool_decide (ap_claim_assessments p = [])) then Err UnresolvedWithAssessments
    else Ok tt
  else
    if bool_decide (ap_resolution_basis p = InsufficientEvidence) then Err ResolvedBasis
    else if bool_decide (ap_claim_assessments p = []) then Err AssessmentsMissing
    else validate_assessments direct_ids (ap_claim_assessments p).

Definition check_evidence (direct_ids visible refs : list string) : Result Reason unit :=
  if negb (bool_decide (NoDup refs)) then Err EvidenceRepeated
  else
    let invalid := filter (λ id, id ∉ visible) refs in
    if negb (bool_decide (invalid = [])) then Err (EvidenceOutside invalid)
    else
      let missing_direct := filter (λ id, id ∉ refs) direct_ids in
      if negb (bool_decide (missing_direct = [])) then Err (EvidenceIncomplete missing_direct)
      else Ok tt.

Definition validate_proposal (c : FrozenArbitrationContext) (p : ArbitrationProposal) : Result Reason unit :=
  if negb (in_unit_interval (ap_confidence p)) then Err ConfidenceOutOfRange
  else if string_blank (ap_conclusion p) || string_blank (ap_reasoning p) then Err TextEmpty
  else
    let direct_ids := claim_id <$> fc_direct_claims c in
    _ ← check_proposal_shape direct_ids p;
    check_evidence direct_ids (visible_evidence_ids c) (ap_evidence_refs p).

Definition validate_verification (c : FrozenArbitrationContext) (p : ArbitrationProposal)
    (v : ArbitrationVerification) : Result Reason unit :=
  if negb (in_unit_interval (av_confidence v)) then Err ConfidenceOutOfRange
  else if string_blank (av_reasoning v) then Err TextEmpty
  else match av_verdict v with
  | VerdictUnresolved =>
      if negb (bool_decide (av_claim_assessments v = [])) then Err UnresolvedWithAssessments else Ok tt
  | VerdictApprove =>
      if bool_decide (ap_resolution_type p = Unresolved) then Err ApprovesUnresolved
      else if negb (covers_exactly (claim_id <$> fc_direct_claims c)
                      (cav_claim_id <$> av_claim_assessments v))
      then Err CoverageWrong
      else if existsb (λ a, string_blank (cav_reason a)) (av_claim_assessments v)
      then Err AssessmentTextBlank
      else Ok tt
  end.

(** [lease_base_duration], in milliseconds: the time a whole provider call
    can take, retries and their delays included.  A [Duration] holds at
    most [u64::MAX] seconds. *)
Definition duration_max_ms : Z := u64_max * 1000 + 999.

Fixpoint backoff_loop (base max_delay : Z) (retries retry : nat) (backoff : Z) : Z :=
  match retries with
  | O => backoff
  | S retries' =>
      let multiplier := Z.shiftl 1 (Z.min (Z.of_nat retry) 63) in
      let millis := Z.min (Z.min u64_max (base * multiplier)) max_delay in
      backoff_loop base max_delay retries' (S retry) (sat_add duration_max_ms backoff millis)
  end.

Definition lease_base_duration (llm : LlmChatConfig) : Result Reason Z :=
  let attempts := sat_add u64_max (Z.of_nat (llm_retry_count llm)) 1 in
  let provider := (llm_timeout_secs llm * Z.min attempts u32_max)%Z in
  if bool_decide (u64_max < provider)%Z then Err LeaseBaseOverflow
  else
    let backoff := backoff_loop (llm_retry_base_delay_ms llm) (llm_retry_max_delay_ms llm)
                     (llm_retry_count llm) 0 0 in
    Ok (sat_add duration_max_ms (provider * 1000) backoff).

(** ** service.rs *)

Definition analysis_is_approved (a : ArbitrationAnalysis) (threshold : f64) : bool :=
  match an_proposal a, an_verification a with
  | Some p, Some v =>
      is_resolved (ap_resolution_type p)
      && f64_le threshold (ap_confidence p)
      && f64_le threshold (av_confidence v)
      && bool_decide (av_verdict v = VerdictApprove)
      && av_resolution_type_agreed v && av_resolution_basis_agreed v && av_conclusion_agreed v
      && forallb cav_agreed (av_claim_assessments v)
  | _, _ => false
  end.

Definition public_analysis_error (code : string) (e : ArbError) : ErrorMessage :=
  if bool_decide (code = "proposal_failed"%string) then ProposalCallFailed
  else if bool_decide (code = "verification_failed"%string) then VerificationCallFailed
  else if bool_decide (code = "context_build_failed"%string) then ContextBuildFailed
  else ErrorText e.

Definition set_failed (code : string) (e : ArbError) (now : DateTime) (a : ArbitrationAnalysis) :
    ArbitrationAnalysis :=
  a |> set_state Failed |> set_lease None |> set_updated_at now
    |> set_error (Some {| ae_code := code; ae_message := public_analysis_error code e |}).

(** [map_adoption_commit_error]: the texts that say the matter is settled
    ("已…", "不能采用") become conflicts. *)
Definition says_settled (r : Reason) : bool :=
  match r with
  | JobReplaced | AlreadyCreatedDifferently | ReportDiffers _ | DisputeAlreadyResolved _
  | ClosedByResolution | LeaseTakenOver | AnalysisInputChanged | AdoptionBlocked _
  | StateCannotAdopt _ | HumanResolvedFirst _ | ClosedByOther _ | UnresolvedCannotAdopt
  | HumanIntentFixed _ | UsedByOther _ | AdoptedNotCurrent | AdoptionOvertaken _
  | PolicyDiffers _ | OutboxEntryDiffers _ | RecoveredOther _ | AdoptingOtherResolution => true
  | _ => false
  end.

Definition map_adoption_commit_error (e : ArbError) : ArbError :=
  match e with
  | AFailure r => if says_settled r then AConflict r else e
  | _ => e
  end.

(** Resolution has closed the dispute: an analysis that still runs or waits
    becomes a record of the audit; one that is committing is left to its
    recovery. *)
Definition preempted (now : DateTime) (a : ArbitrationAnalysis) : ArbitrationAnalysis :=
  a |> set_state Failed |> set_lease None |> set_next_retry_at None
    |> set_error (Some {| ae_code := "analysis_preempted"; ae_message := HandledByResolution |})
    |> set_updated_at now.

Definition preempt_analysis_for_resolution (a : ArbitrationAnalysis) (now : DateTime) :
    option ArbitrationAnalysis :=
  if negb (is_recoverable (an_state a)) || bool_decide (an_state a = Adopting) then None
  else Some (preempted now a).
