(* ===== verification/ArbitrationStore.v ===== *)
(** * The store of arbitration (src/src/maintainer/arbitration/store.rs)

    The arbitration directories beside the team store.  A nested path
    ([<dispute>/<id>.yaml]) is one key.  The per-dispute lock serialises
    the operations of all processes on a dispute: an operation that holds
    it is one step here, apart from its own failures. *)

From S2P Require Import Prelude Storage Claim Maintainer ArbitrationTypes ArbitrationChecks.
Import Ids.

(** ** State *)

(** maintainer/history.rs *)
Record PolicyEventRecord := {
  per_event_id : string;
  per_policy : Policy;            (* the fields copied from the policy *)
  per_occurred_at : DateTime;
  per_target_agents : list AgentId;
}.

Record DisputeResolutionEventRecord := {
  dre_event_id : string;
  dre_dispute_id : DisputeId;
  dre_occurred_at : DateTime;
  dre_summary : option string;
}.

Record AgentQuery := { aq_scope : string; aq_semantic_query : option string }.

Record RouterQueryResult := {
  rq_candidate_claims : list Claim;
  rq_disputes : list DisputeRef;
}.

Record ArbStore := {
  as_team : TeamStore;
  as_current : gmap string (file ArbitrationAnalysis);
  as_legacy_automatic : gmap string (file ArbitrationAnalysis);
  as_legacy_manual : gmap string (file ArbitrationAnalysis);
  as_resolutions : gmap string (file ArbitrationResolutionRecord);
  as_decisions : gmap string (file ArbitrationResolutionRecord);  (* legacy, by dispute/resolution *)
  as_pending : gmap string (file PendingResolutionDelivery);
  as_observe : gmap string (file ResolutionEventTarget);
  as_policy_index : gmap string (file ResolutionEventTarget);
  as_inbox_index : gmap string (file ResolutionEventTarget);
  as_claim_index : gmap string (file ResolutionEventTarget);  (* by claim/dispute *)
  as_policy_events : list PolicyEventRecord;
  as_resolution_events : list DisputeResolutionEventRecord;
  as_router : AgentQuery → option RouterQueryResult;  (* what the router answers now *)
  as_clock : nat → DateTime;      (* successive readings of the clock *)
  as_ticks : nat;
}.

Definition as_eta (w : ArbStore) : ArbStore :=
  {| as_team := as_team w; as_current := as_current w; as_legacy_automatic := as_legacy_automatic w;
     as_legacy_manual := as_legacy_manual w; as_resolutions := as_resolutions w;
     as_decisions := as_decisions w; as_pending := as_pending w; as_observe := as_observe w;
     as_policy_index := as_policy_index w; as_inbox_index := as_inbox_index w;
     as_claim_index := as_claim_index w; as_policy_events := as_policy_events w;
     as_resolution_events := as_resolution_events w; as_router := as_router w;
     as_clock := as_clock w; as_ticks := as_ticks w |}.

Ltac as_set w proj v :=
  let t := eval cbv beta delta [as_eta] in (as_eta w) in
  match t with
  | context C [?f] => constr_eq f (proj w); let t' := context C [v] in exact t'
  end.

Definition put_team v w : ArbStore := ltac:(as_set w as_team v).
Definition put_current v w : ArbStore := ltac:(as_set w as_current v).
Definition put_resolutions v w : ArbStore := ltac:(as_set w as_resolutions v).
Definition put_pending v w : ArbStore := ltac:(as_set w as_pending v).
Definition put_observe v w : ArbStore := ltac:(as_set w as_observe v).
Definition put_policy_index v w : ArbStore := ltac:(as_set w as_policy_index v).
Definition put_inbox_index v w : ArbStore := ltac:(as_set w as_inbox_index v).
Definition put_claim_index v w : ArbStore := ltac:(as_set w as_claim_index v).
Definition put_policy_events v w : ArbStore := ltac:(as_set w as_policy_events v).
Definition put_resolution_events v w : ArbStore := ltac:(as_set w as_resolution_events v).
Definition put_router v w : ArbStore := ltac:(as_set w as_router v).
Definition put_ticks v w : ArbStore := ltac:(as_set w as_ticks v).
Definition put_legacy_automatic v w : ArbStore := ltac:(as_set w as_legacy_automatic v).
Definition put_legacy_manual v w : ArbStore := ltac:(as_set w as_legacy_manual v).
Definition put_decisions v w : ArbStore := ltac:(as_set w as_decisions v).

#[export] Instance ArbStore_HasIO : HasIO ArbStore :=
  {| faults := λ w, ts_faults (as_team w);
     set_faults := λ fs w, put_team (set_ts_faults fs (as_team w)) w |}.

Definition current_dir : Dir ArbStore ArbitrationAnalysis := {| dir_get := as_current; dir_set := put_current |}.
Definition automatic_dir : Dir ArbStore ArbitrationAnalysis :=
  {| dir_get := as_legacy_automatic; dir_set := put_legacy_automatic |}.
Definition manual_dir : Dir ArbStore ArbitrationAnalysis :=
  {| dir_get := as_legacy_manual; dir_set := put_legacy_manual |}.
Definition resolutions_dir : Dir ArbStore ArbitrationResolutionRecord :=
  {| dir_get := as_resolutions; dir_set := put_resolutions |}.
Definition decisions_dir : Dir ArbStore ArbitrationResolutionRecord :=
  {| dir_get := as_decisions; dir_set := put_decisions |}.
Definition pending_dir : Dir ArbStore PendingResolutionDelivery := {| dir_get := as_pending; dir_set := put_pending |}.
Definition observe_dir : Dir ArbStore ResolutionEventTarget := {| dir_get := as_observe; dir_set := put_observe |}.
Definition policy_index_dir : Dir ArbStore ResolutionEventTarget :=
  {| dir_get := as_policy_index; dir_set := put_policy_index |}.
Definition inbox_index_dir : Dir ArbStore ResolutionEventTarget :=
  {| dir_get := as_inbox_index; dir_set := put_inbox_index |}.
Definition claim_index_dir : Dir ArbStore ResolutionEventTarget :=
  {| dir_get := as_claim_index; dir_set := put_claim_index |}.

#[export] Instance current_laws : DirLaws current_dir.
Proof. by split. Qed.
#[export] Instance automatic_laws : DirLaws automatic_dir.
Proof. by split. Qed.
#[export] Instance manual_laws : DirLaws manual_dir.
Proof. by split. Qed.
#[export] Instance resolutions_laws : DirLaws resolutions_dir.
Proof. by split. Qed.
#[export] Instance decisions_laws : DirLaws decisions_dir.
Proof. by split. Qed.
#[export] Instance pending_laws : DirLaws pending_dir.
Proof. by split. Qed.
#[export] Instance observe_laws : DirLaws observe_dir.
Proof. by split. Qed.
#[export] Instance policy_index_laws : DirLaws policy_index_dir.
Proof. by split. Qed.
#[export] Instance inbox_index_laws : DirLaws inbox_index_dir.
Proof. by split. Qed.
#[export] Instance claim_index_laws : DirLaws claim_index_dir.
Proof. by split. Qed.

Notation AM := (M ArbStore ArbError).

(** An operation of the Maintainer on the team store. *)
Definition team {A} (m : MM A) : AM A := λ w,
  let '(r, t) := m (as_team w) in (map_err AMaintainer r, put_team t w).

(** [self.clock.now()] *)
Definition clock_now : AM DateTime := λ w, (Ok (as_clock w (as_ticks w)), put_ticks (S (as_ticks w)) w).

(** ** Files *)

(** [read_optional_yaml] *)
Definition read_optional {A} (d : Dir ArbStore A) (key : string) : AM (option A) :=
  found ← m_try (read_yaml d key);
  match found with
  | Ok value => mret (Some value)
  | Err (AStorage FileNotFound) => mret None
  | Err e => fail e
  end.

(** [fs::remove_file], a missing file being as good *)
Definition remove_file {A} (d : Dir ArbStore A) (key : string) : AM unit :=
  _ ← io; modify (λ w, dir_set d (delete key (dir_get d w)) w).

Definition create_once_yaml {A} (d : Dir ArbStore A) (eqb : A → A → bool) (key : string) (value : A) : AM unit :=
  found ← read_optional d key;
  match found with
  | Some existing => if eqb existing value then mret tt else fail (AFailure AlreadyCreatedDifferently)
  | None => write_yaml_atomic d key value
  end.

(** [store.rs::list_yaml]: every file must parse, in the directory's order. *)
Definition list_records {A} (d : Dir ArbStore A) : AM (list A) := list_yaml d (λ _, false).

Definition nested (dir name : string) : string := dir +:+ "/" +:+ name.

(** ** Disputes and analyses *)

Definition lock_dispute (id : DisputeId) : AM unit := io_step ALockDispute.

Definition read_dispute (id : DisputeId) : AM MaintainerDisputeRecord := team (Maintainer.read_dispute id).
Definition write_dispute (r : MaintainerDisputeRecord) : AM unit := team (Maintainer.write_dispute r).

Definition list_disputes : AM (list MaintainerDisputeRecord) :=
  team (list_yaml disputes_dir (λ _, false)).

Definition read_current_analysis (id : DisputeId) : AM (option ArbitrationAnalysis) :=
  current ← read_optional current_dir id;
  match current with
  | Some a => mret (Some (normalize_legacy_adoption_mode a None))
  | None =>
      automatic ← read_optional automatic_dir id;
      manual ← read_optional manual_dir id;
      mret (select_legacy_current_analysis automatic manual)
  end.

Definition create_report_analysis (a : ArbitrationAnalysis) : AM unit :=
  create_once_yaml current_dir analysis_eqb (an_dispute_id a) a.

Definition replace_current_analysis (a : ArbitrationAnalysis) : AM unit :=
  write_yaml_atomic current_dir (an_dispute_id a) a.

Definition read_analysis (job : AnalysisJob) : AM ArbitrationAnalysis :=
  current ← read_current_analysis (job_dispute_id job);
  match current with
  | None => fail (AFailure NoCurrentAnalysis)
  | Some a =>
      if bool_decide (an_analysis_id a = job_analysis_id job) then mret a
      else fail (AFailure JobReplaced)
  end.

Definition is_current_analysis_job (job : AnalysisJob) : AM bool :=
  current ← read_current_analysis (job_dispute_id job);
  mret (match current with
        | Some a => bool_decide (an_analysis_id a = job_analysis_id job)
        | None => false
        end).

(** [?] on a pure check. *)
Definition check (r : Result Reason unit) : AM unit := lift_result (map_err AFailure r).

Definition write_analysis (a : ArbitrationAnalysis) : AM unit :=
  _ ← check (validate_analysis a);
  write_yaml_atomic current_dir (an_dispute_id a) a.

(** ** Resolutions *)

Definition write_resolution_record (r : ArbitrationResolutionRecord) : AM unit :=
  if negb (bool_decide (rr_schema_version r = ARBITRATION_SCHEMA_VERSION))
  then fail (AFailure (ResolutionSchema (rr_schema_version r)))
  else if negb (bool_decide (rr_resolution_id r = dr_resolution_id (rr_resolution r)))
  then fail (AFailure ResolutionIdInconsistent)
  else write_yaml_atomic resolutions_dir (rr_dispute_id r) r.

Definition read_current_resolution_record (id : DisputeId) : AM (option ArbitrationResolutionRecord) :=
  read_optional resolutions_dir id.

Definition resolution_id_exists (id : DisputeId) (resolution_id : ArbitrationResolutionId) : AM bool :=
  current ← read_current_resolution_record id;
  let is_current := match current with
                    | Some r => bool_decide (rr_resolution_id r = resolution_id)
                    | None => false
                    end in
  if is_current : bool then mret true
  else _ ← io; gets (λ w, bool_decide (is_Some (as_decisions w !! nested id resolution_id))).

Definition read_resolution_record (id : DisputeId) (resolution_id : ArbitrationResolutionId) :
    AM ArbitrationResolutionRecord :=
  stored ← read_optional resolutions_dir id;
  record ← match stored with
           | Some r => mret r
           | None => read_yaml decisions_dir (nested id resolution_id)
           end;
  if bool_decide (rr_resolution_id record = resolution_id) then mret record
  else fail (AFailure NotRequestedResolution).

(** ** Pending deliveries and observations *)

Definition write_pending_delivery (p : PendingResolutionDelivery) : AM unit :=
  write_yaml_atomic pending_dir (ret_resolution_id (prd_target p)) p.

Definition read_pending_delivery (id : ArbitrationResolutionId) : AM (option PendingResolutionDelivery) :=
  read_optional pending_dir id.

Definition remove_pending_delivery (id : ArbitrationResolutionId) : AM unit := remove_file pending_dir id.

Definition list_pending_deliveries : AM (list PendingResolutionDelivery) := list_records pending_dir.

Definition write_pending_observation (t : ResolutionEventTarget) : AM unit :=
  write_yaml_atomic observe_dir (ret_resolution_id t) t.

Definition remove_pending_observation (id : ArbitrationResolutionId) : AM unit := remove_file observe_dir id.

Definition list_pending_observations : AM (list ResolutionEventTarget) := list_records observe_dir.

Definition record_target (r : ArbitrationResolutionRecord) : ResolutionEventTarget :=
  {| ret_dispute_id := rr_dispute_id r; ret_resolution_id := rr_resolution_id r |}.

Definition register_resolution_event_targets (r : ArbitrationResolutionRecord) : AM unit :=
  let target := record_target r in
  _ ← match rr_delivery_intent r with
      | Some intent =>
          _ ← write_yaml_atomic policy_index_dir (policy_id (di_policy intent)) target;
          for_each (λ delivery, write_yaml_atomic inbox_index_dir (dti_inbox_id delivery) target)
            (di_targets intent)
      | None => mret tt
      end;
  for_each (λ claim : Claim,
      write_yaml_atomic claim_index_dir (nested (claim_id claim) (rr_dispute_id r)) target)
    (rr_direct_claim_snapshots r).

(** ** History: maintainer/history.rs *)

Definition ensure_policy_event (e : PolicyEventRecord) : AM unit :=
  _ ← io;
  events ← gets as_policy_events;
  if bool_decide (per_event_id e ∈ per_event_id <$> events) then mret tt
  else _ ← io; modify (λ w, put_policy_events (as_policy_events w ++ [e]) w).

Definition ensure_dispute_resolution_event (e : DisputeResolutionEventRecord) : AM unit :=
  _ ← io;
  events ← gets as_resolution_events;
  if bool_decide (dre_event_id e ∈ dre_event_id <$> events) then mret tt
  else _ ← io; modify (λ w, put_resolution_events (as_resolution_events w ++ [e]) w).

(** ** Recovery scan *)

Definition job_cmp : AnalysisJob → AnalysisJob → comparison :=
  cmp_then (cmp_on job_dispute_id String.compare) (cmp_on job_analysis_id String.compare).

(** What the scan finds for one dispute file: a file that cannot be read or
    does not hold what its name says is logged and skipped. *)
Definition recoverable_job (include_auto_approved : bool) (name : string)
    (f : file MaintainerDisputeRecord) : AM (list AnalysisJob) :=
  match f with
  | Reserved => mret []
  | Stored dispute =>
      if negb (validate_dispute_record dispute) then mret []
      else if negb (bool_decide (name = dispute_id (mdr_dispute dispute))) then mret []
      else
        let id := dispute_id (mdr_dispute dispute) in
        found ← m_try (read_optional current_dir id);
        current ← match found with
                  | Ok (Some a) => mret (Some (normalize_legacy_adoption_mode a None))
                  | Ok None =>
                      automatic ← m_try (read_optional automatic_dir id);
                      manual ← m_try (read_optional manual_dir id);
                      mret (select_legacy_current_analysis
                        (match automatic with Ok a => a | Err _ => None end)
                        (match manual with Ok a => a | Err _ => None end))
                  | Err _ => mret None
                  end;
        mret (match current with
              | None => []
              | Some a =>
                  if negb (is_ok (validate_analysis a)) then []
                  else if negb (bool_decide (an_dispute_id a = id)) then []
                  else if recoverable_analysis
                      (include_auto_approved
                       && bool_decide (dispute_status (mdr_dispute dispute) = DisputeOpen)) a
                  then [{| job_dispute_id := id; job_analysis_id := an_analysis_id a |}]
                  else []
              end)
  end.

(** Each dispute file is read on its own; a read that fails isolates it. *)
Fixpoint recover_loop (include_auto_approved : bool) (l : list (string * file MaintainerDisputeRecord)) :
    AM (list AnalysisJob) :=
  match l with
  | [] => mret []
  | (name, f) :: l' =>
      readable ← m_try (io (E:=ArbError));
      jobs ← match readable with
             | Ok _ => recoverable_job include_auto_approved name f
             | Err _ => mret []
             end;
      rest ← recover_loop include_auto_approved l';
      mret (jobs ++ rest)
  end.

Definition recoverable_jobs (include_auto_approved : bool) : AM (list AnalysisJob) :=
  _ ← io;
  disputes ← gets (λ w, map_to_list (ts_disputes (as_team w)));
  jobs ← recover_loop include_auto_approved disputes;
  mret (dedup (sort_by job_cmp jobs)).

(** The adoptions whose resolution is fixed but not yet delivered. *)
Fixpoint adopting_loop (jobs : list AnalysisJob) : AM (list AnalysisJob) :=
  match jobs with
  | [] => mret []
  | job :: jobs' =>
      found ← m_try (read_analysis job);
      rest ← adopting_loop jobs';
      mret (match found with
            | Ok a => if bool_decide (an_state a = Adopting) then job :: rest else rest
            | Err _ => rest
            end)
  end.

Definition recoverable_adoption_jobs : AM (list AnalysisJob) :=
  jobs ← recoverable_jobs false;
  adopting_loop jobs.
