(* ===== verification/Resolution.v ===== *)
(** * Resolutions (src/src/maintainer/arbitration/resolution.rs)

    Adopting an analysis, resolving by hand, rejecting and replacing an
    automatic resolution, and the delivery of a committed resolution.  A
    commit first stores its pending delivery, then the resolution record,
    then the dispute; the pending delivery is removed only after policy,
    outbox entries, indexes and history are in place. *)

From S2P Require Import Prelude Storage Claim Maintainer ArbitrationTypes ArbitrationChecks ArbitrationStore.
Import Ids.

(** ** Inputs *)

Record HumanResolutionInput := {
  hi_conclusion : string;
  hi_notify_affected_agents : bool;
  hi_resolution_type : option ResolutionType;
  hi_resolution_basis : option ResolutionBasis;
  hi_claim_assessments : list ClaimAssessment;
}.

Record RejectResolutionInput := {
  ri_expected_resolution_id : ArbitrationResolutionId;
  ri_rejection_reason : string;
  ri_conclusion : string;
  ri_resolution_type : option ResolutionType;
  ri_resolution_basis : option ResolutionBasis;
  ri_claim_assessments : list ClaimAssessment;
}.

Definition unresolved_type (t : option ResolutionType) : bool :=
  match t with Some k => negb (is_resolved k) | None => false end.

Definition validate_human_input (i : HumanResolutionInput) : Result Reason unit :=
  if string_blank (hi_conclusion i) then Err InputInvalid
  else if unresolved_type (hi_resolution_type i) then Err InputInvalid
  else if bool_decide (hi_resolution_basis i = Some InsufficientEvidence) then Err InputInvalid
  else if negb (bool_decide (hi_claim_assessments i = [])) && negb (hi_notify_affected_agents i)
  then Err InputInvalid
  else Ok tt.

Definition validate_reject_input (i : RejectResolutionInput) : Result Reason unit :=
  if string_blank (ri_rejection_reason i) || string_blank (ri_conclusion i) then Err InputInvalid
  else if unresolved_type (ri_resolution_type i) then Err InputInvalid
  else if bool_decide (ri_resolution_basis i = Some InsufficientEvidence) then Err InputInvalid
  else Ok tt.

Definition assessments_match (left right : list ClaimAssessment) : bool :=
  bool_decide (length left = length right) && forallb (λ a, bool_decide (a ∈ right)) left.

Definition human_resolution_matches_input (r : ArbitrationResolutionRecord) (i : HumanResolutionInput) : bool :=
  let resolution := rr_resolution r in
  bool_decide (dr_rejection_reason resolution = None)
  && bool_decide (dr_conclusion resolution = hi_conclusion i)
  && bool_decide (dr_resolution_type resolution = hi_resolution_type i)
  && bool_decide (dr_resolution_basis resolution = hi_resolution_basis i)
  && assessments_match (dr_claim_assessments resolution) (hi_claim_assessments i)
  && bool_decide (bool_decide (is_Some (rr_delivery_intent r)) = hi_notify_affected_agents i).

Definition replacement_resolution_matches_input (r : ArbitrationResolutionRecord)
    (i : RejectResolutionInput) : bool :=
  let resolution := rr_resolution r in
  bool_decide (dr_rejection_reason resolution = Some (ri_rejection_reason i))
  && bool_decide (dr_conclusion resolution = ri_conclusion i)
  && bool_decide (dr_resolution_type resolution = ri_resolution_type i)
  && bool_decide (dr_resolution_basis resolution = ri_resolution_basis i)
  && assessments_match (dr_claim_assessments resolution) (ri_claim_assessments i)
  && bool_decide (is_Some (rr_delivery_intent r)).

(** ** The statement of the policy that announces a resolution *)

Definition line_break : string := String "010" EmptyString.

Definition status_debug (s : ClaimStatus) : string :=
  match s with ClaimActive => "Active" | ClaimStale => "Stale" | ClaimDeprecated => "Deprecated" end.

Fixpoint join_lines (l : list string) : string :=
  match l with
  | [] => EmptyString
  | [x] => x
  | x :: l' => x +:+ line_break +:+ join_lines l'
  end.

Definition arbitration_policy_statement (d : Dispute) (snapshots : list Claim) (r : DisputeResolution) :
    string :=
  join_lines (
    ["Maintainer 已裁决 dispute " +:+ dispute_id d +:+ "。";
     "Resolution: " +:+ dr_resolution_id r;
     EmptyString;
     "Conclusion: " +:+ dr_conclusion r;
     EmptyString;
     "Original dispute: " +:+ dispute_summary d;
     EmptyString;
     "Direct claims:"; EmptyString]
    ++ ((λ c, "- " +:+ claim_id c +:+ " holder=" +:+ claim_holder c +:+ " status="
              +:+ status_debug (claim_status c) +:+ " scope=" +:+ claim_scope c
              +:+ " statement=" +:+ claim_statement c) <$> snapshots)
    ++ match dr_claim_assessments r with
       | [] => []
       | assessments =>
           [EmptyString; "Assessments:"; EmptyString]
           ++ ((λ a, "- " +:+ ca_claim_id a +:+ " recommended_status="
                     +:+ status_debug (ca_recommended_status a) +:+ " assessment=" +:+ ca_assessment a
                     +:+ " reason=" +:+ ca_reason a) <$> assessments)
       end).

(** context.rs: the mirrors of the disputed claims, each found once and
    under its holder, in the order of their ids. *)
Fixpoint resolve_loop (ids : list ClaimId) (all_claims : list (AgentId * Claim)) (seen : list ClaimId)
    (direct : list Claim) : Result Reason (list Claim) :=
  match ids with
  | [] => Ok direct
  | id :: ids' =>
      if bool_decide (id ∈ seen) then Err (DirectClaimRepeated id)
      else match filter (λ ac : AgentId * Claim, claim_id ac.2 = id) all_claims with
      | [(path_agent, claim)] =>
          if bool_decide (path_agent = claim_holder claim)
          then resolve_loop ids' all_claims (id :: seen) (direct ++ [claim])
          else Err (DirectClaimHolder id path_agent (claim_holder claim))
      | matches => Err (DirectClaimNotUnique id (length matches))
      end
  end.

Definition resolve_direct_claims (ids : list ClaimId) (all_claims : list (AgentId * Claim)) :
    Result Reason (list Claim) :=
  direct ← resolve_loop ids all_claims [] [];
  Ok (sort_by (cmp_on claim_id String.compare) direct).

(** ** Delivery *)

(** Tells a placeholder from a file that does not parse: no file of the model
    does not, so the length is always 0, but the call may fail. *)
Definition is_zero_length : AM bool := _ ← io; mret true.

Definition ensure_policy (p : Policy) : AM unit :=
  found ← m_try (team (read_yaml policies_dir (policy_id p)));
  match found with
  | Ok existing =>
      if bool_decide (existing = p) then mret tt else fail (AFailure (PolicyDiffers (policy_id p)))
  | Err (AMaintainer (StorageErr FileNotFound)) => team (write_yaml_atomic policies_dir (policy_id p) p)
  | Err (AMaintainer (StorageErr DecodeFailed)) =>
      empty ← is_zero_length;
      if (empty : bool) then team (write_yaml_atomic policies_dir (policy_id p) p) else fail (AMaintainer (StorageErr DecodeFailed))
  | Err e => fail e
  end.

Definition same_payload (existing wanted : OutboxEntry) : bool :=
  bool_decide (ob_inbox_id existing = ob_inbox_id wanted)
  && bool_decide (ob_action_id existing = ob_action_id wanted)
  && bool_decide (ob_target existing = ob_target wanted)
  && bool_decide (ob_created_at existing = ob_created_at wanted)
  && bool_decide (ob_message existing = ob_message wanted).

Definition ensure_outbox_entry (wanted : OutboxEntry) : AM unit :=
  found ← m_try (team (read_yaml outbox_dir (ob_inbox_id wanted)));
  match found with
  | Ok existing =>
      if same_payload existing wanted then mret tt
      else fail (AFailure (OutboxEntryDiffers (ob_inbox_id wanted)))
  | Err (AMaintainer (StorageErr FileNotFound)) => team (outbox_write wanted)
  | Err (AMaintainer (StorageErr DecodeFailed)) =>
      empty ← is_zero_length;
      if (empty : bool) then team (outbox_write wanted) else fail (AMaintainer (StorageErr DecodeFailed))
  | Err e => fail e
  end.

Definition intent_entry (r : ArbitrationResolutionRecord) (i : DeliveryIntent) (t : DeliveryTargetIntent) :
    OutboxEntry :=
  {| ob_inbox_id := dti_inbox_id t; ob_action_id := di_maintainer_action_id i;
     ob_target := Targeted (dti_target_agent t); ob_created_at := rr_created_at r;
     ob_offered_to := []; ob_delivered_to := []; ob_sweep_items := [];
     ob_message := dti_inbox_message t |}.

Definition policy_event (r : ArbitrationResolutionRecord) (i : DeliveryIntent) : PolicyEventRecord :=
  {| per_event_id := "resolution_policy:" +:+ rr_resolution_id r;
     per_policy := di_policy i;
     per_occurred_at := default (policy_created_at (di_policy i)) (policy_updated_at (di_policy i));
     per_target_agents := default [] (policy_target_agents (di_policy i)) |}.

Definition ensure_resolution_history (r : ArbitrationResolutionRecord) : AM unit :=
  _ ← match rr_delivery_intent r with
      | Some i => ensure_policy_event (policy_event r i)
      | None => mret tt
      end;
  ensure_dispute_resolution_event
    {| dre_event_id := "resolution:" +:+ rr_resolution_id r; dre_dispute_id := rr_dispute_id r;
       dre_occurred_at := dr_resolved_at (rr_resolution r);
       dre_summary := Some (dr_conclusion (rr_resolution r)) |}.

Definition ensure_delivery (r : ArbitrationResolutionRecord) : AM unit :=
  _ ← match rr_delivery_intent r with
      | Some i =>
          _ ← team lock_outbox_file;
          _ ← ensure_policy (di_policy i);
          for_each (λ t, ensure_outbox_entry (intent_entry r i t)) (di_targets i)
      | None => mret tt
      end;
  _ ← register_resolution_event_targets r;
  _ ← write_pending_observation (record_target r);
  _ ← ensure_resolution_history r;
  remove_pending_delivery (rr_resolution_id r).

Definition upgraded (p : PendingResolutionDelivery) (r : ArbitrationResolutionRecord) :
    PendingResolutionDelivery :=
  {| prd_schema_version := prd_schema_version p; prd_target := prd_target p;
     prd_resolution_record := Some r; prd_created_at := prd_created_at p;
     prd_retry_count := prd_retry_count p; prd_next_retry_at := prd_next_retry_at p |}.

Definition new_pending (r : ArbitrationResolutionRecord) (now : DateTime) : PendingResolutionDelivery :=
  {| prd_schema_version := ARBITRATION_SCHEMA_VERSION; prd_target := record_target r;
     prd_resolution_record := Some r; prd_created_at := now; prd_retry_count := 0;
     prd_next_retry_at := None |}.

Definition persist_pending_delivery (r : ArbitrationResolutionRecord) (now : DateTime) : AM unit :=
  found ← read_pending_delivery (rr_resolution_id r);
  match found with
  | Some existing =>
      if negb (bool_decide (prd_target existing = record_target r)) then fail (AFailure PendingTargetDiffers)
      else match prd_resolution_record existing with
      | Some stored => if bool_decide (stored = r) then mret tt else fail (AFailure PendingIntentDiffers)
      | None => write_pending_delivery (upgraded existing r)
      end
  | None => write_pending_delivery (new_pending r now)
  end.

(** ** Commits *)

Definition resolved_by_record (r : DisputeResolution) (at_ : DateTime) (d : MaintainerDisputeRecord) :
    MaintainerDisputeRecord :=
  {| mdr_dispute := {| dispute_id := dispute_id (mdr_dispute d); dispute_name := dispute_name (mdr_dispute d);
       dispute_reporter_agent_id := dispute_reporter_agent_id (mdr_dispute d);
       dispute_claims := dispute_claims (mdr_dispute d); dispute_summary := dispute_summary (mdr_dispute d);
       dispute_status := DisputeResolved; dispute_created_at := dispute_created_at (mdr_dispute d);
       dispute_resolved_at := Some at_ |};
     mdr_resolution := Some r |}.

Definition is_open (d : MaintainerDisputeRecord) : bool :=
  bool_decide (dispute_status (mdr_dispute d) = DisputeOpen) && bool_decide (mdr_resolution d = None).

Definition preempt_current_analysis_locked (id : DisputeId) (now : DateTime) : AM unit :=
  _ ← m_try (
    current ← read_current_analysis id;
    match current with
    | None => mret tt
    | Some a =>
        match preempt_analysis_for_resolution a now with
        | Some a' => write_analysis a'
        | None => mret tt
        end
    end);
  mret tt.

(** A resolution by a person that was begun but not committed. *)
Definition recover_human_resolution_locked (id : DisputeId) (d : MaintainerDisputeRecord) :
    AM (MaintainerDisputeRecord * option ArbitrationResolutionRecord) :=
  current ← read_current_resolution_record id;
  deliveries ← list_pending_deliveries;
  let pending_human := filter (λ r, rr_dispute_id r = id ∧ dr_resolved_by (rr_resolution r) = Human)
                         (omap prd_resolution_record deliveries) in
  pending ← match pending_human with
            | [] => mret None
            | [r] => mret (Some r)
            | _ => fail (AFailure SeveralHumanIntents)
            end;
  let stored := match pending with Some r => Some r | None => current end in
  d' ← match stored with
       | Some r =>
           let recovers_open := bool_decide (mdr_resolution d = None) in
           let recovers_replacement :=
             bool_decide (is_Some (dr_rejection_reason (rr_resolution r)))
             && match mdr_resolution d with
                | Some c => bool_decide (dr_resolved_by c = Automatic)
                            && negb (bool_decide (dr_resolution_id c = rr_resolution_id r))
                | None => false
                end in
           if bool_decide (dr_resolved_by (rr_resolution r) = Human) && (recovers_open || recovers_replacement)
           then
             let d' := resolved_by_record (rr_resolution r) (dr_resolved_at (rr_resolution r)) d in
             _ ← write_resolution_record r;
             _ ← write_dispute d';
             mret d'
           else mret d
       | None => mret d
       end;
  match mdr_resolution d' with
  | None => mret (d', None)
  | Some c =>
      if negb (bool_decide (dr_resolved_by c = Human)) then mret (d', None)
      else match stored with
      | None => fail (AFailure HumanRecordMissing)
      | Some r =>
          if bool_decide (rr_resolution_id r = dr_resolution_id c) then mret (d', Some r)
          else fail (AFailure RecordNotCurrent)
      end
  end.

(** ** The service *)

Section resolution.
Context (hex_encode : list Z → string) (self : Maintainer).

Definition draw (prefix : string) : AM string := team (draw_id hex_encode prefix).

Fixpoint mint_resolution_loop (id : DisputeId) (attempts : nat) : AM ArbitrationResolutionId :=
  match attempts with
  | O => fail (AFailure ResolutionIdsExhausted)
  | S attempts' =>
      candidate ← draw resolution_prefix;
      taken ← resolution_id_exists id candidate;
      if taken : bool then mint_resolution_loop id attempts' else mret candidate
  end.

Definition mint_resolution_id (id : DisputeId) : AM ArbitrationResolutionId :=
  mint_resolution_loop id (Nat.max (id_mint_max_attempts self) 1).

Fixpoint used_actions (disputes : list MaintainerDisputeRecord) : AM (list MaintainerActionId) :=
  match disputes with
  | [] => mret []
  | d :: disputes' =>
      record ← read_current_resolution_record (dispute_id (mdr_dispute d));
      rest ← used_actions disputes';
      mret (match record ≫= rr_delivery_intent with
            | Some i => di_maintainer_action_id i :: rest
            | None => rest
            end)
  end.

Fixpoint mint_action_ids (used : list MaintainerActionId) (attempts : nat) : AM MaintainerActionId :=
  match attempts with
  | O => fail (AFailure ActionIdsExhausted)
  | S attempts' =>
      candidate ← draw intent_prefix;
      if bool_decide (candidate ∈ used) then mint_action_ids used attempts' else mret candidate
  end.

Definition mint_action_id : AM MaintainerActionId :=
  entries ← team outbox_list;
  disputes ← list_disputes;
  used ← used_actions disputes;
  mint_action_ids ((ob_action_id <$> entries) ++ used) (Nat.max (id_mint_max_attempts self) 1).

Definition ARBITRATION_POLICY_NAME : string := "dispute_arbitration".
Definition ARBITRATION_POLICY_SCOPE : string := "maintainer / dispute-arbitration".

Record DeliveryContext := {
  dc_context_snapshot_hash : option string;
  dc_snapshot_source_resolution_id : option ArbitrationResolutionId;
}.

(** A [BTreeSet] of the holders, in order. *)
Definition holders_of (d : Dispute) (snapshots : list Claim) : list AgentId :=
  dedup (sort_by String.compare
    (claim_holder <$> filter (λ c, claim_id c ∈ dispute_claims d) snapshots)).

Fixpoint intent_targets (kind : InboxMessageKind) (agents : list AgentId) : AM (list DeliveryTargetIntent) :=
  match agents with
  | [] => mret []
  | a :: agents' =>
      inbox_id ← team (mint_inbox_id_for_outbox hex_encode self);
      rest ← intent_targets kind agents';
      mret ({| dti_inbox_id := inbox_id; dti_target_agent := a;
               dti_inbox_message := {| msg_id := inbox_id; msg_kind := kind; msg_handled_at := None |} |}
            :: rest)
  end.

Definition build_delivery_intent (d : Dispute) (snapshots : list Claim) (r : DisputeResolution)
    (dc : DeliveryContext) (now : DateTime) : AM DeliveryIntent :=
  let holders := holders_of d snapshots in
  if bool_decide (holders = []) then fail (AFailure (NoHolder (dispute_id d)))
  else
    _ ← team lock_outbox_file;
    id ← team (mint_policy_id hex_encode self);
    action_id ← mint_action_id;
    let policy := {| policy_id := id; policy_message_type := ClaimAttributeUpdateType;
      policy_name := ARBITRATION_POLICY_NAME; policy_statement := arbitration_policy_statement d snapshots r;
      policy_scope := ARBITRATION_POLICY_SCOPE; policy_status := PolicyActive; policy_created_at := now;
      policy_updated_at := None; policy_target_agents := Some holders |} in
    let context := {| arc_dispute_id := dispute_id d; arc_resolution := r;
      arc_context_snapshot_hash := dc_context_snapshot_hash dc; arc_dispute_snapshot := d;
      arc_direct_claim_snapshots := snapshots;
      arc_snapshot_source_resolution_id := dc_snapshot_source_resolution_id dc |} in
    targets ← intent_targets (ClaimAttributeUpdate policy (Some context)) holders;
    mret {| di_policy := policy; di_maintainer_action_id := action_id; di_targets := targets |}.

Definition load_direct_snapshots (ids : list ClaimId) : AM (list Claim) :=
  all_claims ← team load_team_claims;
  lift_result (map_err AFailure (resolve_direct_claims ids all_claims)).

(** The error of a delivery is logged; the pending delivery is retried later. *)
Definition try_delivery (r : ArbitrationResolutionRecord) : AM unit :=
  _ ← m_try (ensure_delivery r); mret tt.

(** A resolution of a person recovered inside a request: answered as this
    request's when the input is the same. *)
Definition answer_recovered (r : ArbitrationResolutionRecord) (same_input : bool) (id : DisputeId)
    (now : DateTime) : AM ArbitrationResolutionRecord :=
  _ ← preempt_current_analysis_locked id now;
  _ ← persist_pending_delivery r (rr_created_at r);
  _ ← try_delivery r;
  if same_input then mret r else fail (AFailure (RecoveredOther (rr_resolution_id r))).

(** The common end of the two resolutions by a person. *)
Definition commit_human (r : ArbitrationResolutionRecord) (d : MaintainerDisputeRecord) (now : DateTime) :
    AM ArbitrationResolutionRecord :=
  _ ← persist_pending_delivery r now;
  _ ← write_resolution_record r;
  _ ← write_dispute (resolved_by_record (rr_resolution r) now d);
  _ ← preempt_current_analysis_locked (rr_dispute_id r) now;
  _ ← try_delivery r;
  mret r.

Definition resolve_human (id : DisputeId) (input : HumanResolutionInput) (now : DateTime) :
    AM ArbitrationResolutionRecord :=
  _ ← check (validate_human_input input);
  _ ← lock_dispute id;
  d ← read_dispute id;
  _ ← check (validate_assessments (dispute_claims (mdr_dispute d)) (hi_claim_assessments input));
  recovered ← (if bool_decide (dispute_status (mdr_dispute d) = DisputeOpen)
               then recover_human_resolution_locked id d else mret (d, None));
  match recovered with
  | (_, Some r) => answer_recovered r (human_resolution_matches_input r input) id now
  | (d, None) =>
      if negb (bool_decide (dispute_status (mdr_dispute d) = DisputeOpen))
      then fail (AFailure (DisputeAlreadyResolved id))
      else
        found ← m_try (load_direct_snapshots (dispute_claims (mdr_dispute d)));
        snapshots ← match found with
                    | Ok s => mret s
                    | Err e =>
                        if negb (hi_notify_affected_agents input)
                           && bool_decide (hi_claim_assessments input = [])
                        then mret [] else fail e
                    end;
        resolution_id ← mint_resolution_id id;
        let resolution := {| dr_resolution_id := resolution_id; dr_resolved_by := Human;
          dr_resolved_at := now; dr_resolution_type := hi_resolution_type input;
          dr_resolution_basis := hi_resolution_basis input; dr_conclusion := hi_conclusion input;
          dr_claim_assessments := hi_claim_assessments input; dr_rejection_reason := None |} in
        intent ← (if hi_notify_affected_agents input
                  then i ← build_delivery_intent (mdr_dispute d) snapshots resolution
                             {| dc_context_snapshot_hash := None;
                                dc_snapshot_source_resolution_id := None |} now;
                       mret (Some i)
                  else mret None);
        commit_human
          {| rr_schema_version := ARBITRATION_SCHEMA_VERSION; rr_resolution_id := resolution_id;
             rr_dispute_id := id; rr_created_at := now; rr_resolution := resolution;
             rr_dispute_snapshot := mdr_dispute d; rr_direct_claim_snapshots := snapshots;
             rr_semantic_fingerprint := None; rr_context_snapshot_hash := None;
             rr_analysis_source_id := None; rr_delivery_intent := intent;
             rr_snapshot_source_resolution_id := None |} d now
  end.

Definition replace_resolution (id : DisputeId) (input : RejectResolutionInput) (now : DateTime)
    (d : MaintainerDisputeRecord) : AM ArbitrationResolutionRecord :=
  match mdr_resolution d with
  | None => fail (AFailure NoStructuredResolution)
  | Some current =>
      if negb (bool_decide (dr_resolution_id current = ri_expected_resolution_id input))
      then fail (AFailure ExpectedResolutionDiffers)
      else if negb (bool_decide (dr_resolved_by current = Automatic)) then fail (AFailure NotAutomatic)
      else
        _ ← check (validate_assessments (dispute_claims (mdr_dispute d)) (ri_claim_assessments input));
        superseded ← read_resolution_record id (ri_expected_resolution_id input);
        found ← m_try (load_direct_snapshots (dispute_claims (mdr_dispute d)));
        let snapshots := match found with Ok s => s | Err _ => rr_direct_claim_snapshots superseded end in
        let source := match found with Ok _ => None | Err _ => Some (rr_resolution_id superseded) end in
        resolution_id ← mint_resolution_id id;
        let resolution := {| dr_resolution_id := resolution_id; dr_resolved_by := Human;
          dr_resolved_at := now; dr_resolution_type := ri_resolution_type input;
          dr_resolution_basis := ri_resolution_basis input; dr_conclusion := ri_conclusion input;
          dr_claim_assessments := ri_claim_assessments input;
          dr_rejection_reason := Some (ri_rejection_reason input) |} in
        intent ← build_delivery_intent (mdr_dispute d) snapshots resolution
                   {| dc_context_snapshot_hash := rr_context_snapshot_hash superseded;
                      dc_snapshot_source_resolution_id := source |} now;
        commit_human
          {| rr_schema_version := ARBITRATION_SCHEMA_VERSION; rr_resolution_id := resolution_id;
             rr_dispute_id := id; rr_created_at := now; rr_resolution := resolution;
             rr_dispute_snapshot := mdr_dispute d; rr_direct_claim_snapshots := snapshots;
             rr_semantic_fingerprint := rr_semantic_fingerprint superseded;
             rr_context_snapshot_hash := rr_context_snapshot_hash superseded;
             rr_analysis_source_id := None; rr_delivery_intent := Some intent;
             rr_snapshot_source_resolution_id := source |} d now
  end.

Definition reject_and_replace (id : DisputeId) (input : RejectResolutionInput) (now : DateTime) :
    AM ArbitrationResolutionRecord :=
  _ ← check (validate_reject_input input);
  _ ← lock_dispute id;
  d ← read_dispute id;
  let prior := dr_resolution_id <$> mdr_resolution d in
  recovered ← recover_human_resolution_locked id d;
  match recovered with
  | (d', Some r) =>
      if negb (bool_decide (prior = Some (rr_resolution_id r)))
      then answer_recovered r (replacement_resolution_matches_input r input) id now
      else replace_resolution id input now d'
  | (d', None) => replace_resolution id input now d'
  end.
End resolution.
