(* ===== verification/Adoption.v ===== *)
(** * Adopting an analysis (src/src/maintainer/arbitration/resolution.rs)

    An adoption fixes its resolution in the analysis before it commits:
    whoever recovers it commits the same record. *)

From S2P Require Import Prelude Storage Claim Maintainer ArbitrationTypes ArbitrationChecks ArbitrationStore.
From S2P Require Import Resolution.
Import Ids.

Definition fixed_analysis_resolution (job : AnalysisJob) (a : ArbitrationAnalysis) :
    AM ArbitrationResolutionRecord :=
  match an_resolution_id a with
  | None => fail (AFailure IntentMissing)
  | Some resolution_id =>
      record ← match an_pending_resolution a with
               | Some r => mret r
               | None => read_resolution_record (job_dispute_id job) resolution_id
               end;
      if bool_decide (rr_resolution_id record = resolution_id) then mret record
      else fail (AFailure IntentIdInconsistent)
  end.

Definition find_human_analysis_adoption_owner (id : DisputeId) : AM (option AnalysisJob) :=
  current ← read_current_analysis id;
  match current with
  | None => mret None
  | Some a =>
      if negb (bool_decide (an_state a = Adopting)) then mret None
      else
        let candidate := {| job_dispute_id := id; job_analysis_id := an_analysis_id a |} in
        record ← fixed_analysis_resolution candidate a;
        mret (if bool_decide (dr_resolved_by (rr_resolution record) = Human) then Some candidate else None)
  end.

(** What the outcome of the delivery leaves in the analysis. *)
Definition adopted (now : DateTime) (a : ArbitrationAnalysis) : ArbitrationAnalysis :=
  a |> set_state Adopted |> set_delivery_error false |> set_pending_resolution None |> set_updated_at now.

Definition still_adopting (now : DateTime) (a : ArbitrationAnalysis) : ArbitrationAnalysis :=
  a |> set_state Adopting |> set_delivery_error true |> set_updated_at now.

Definition finish_analysis_adoption_locked (a : ArbitrationAnalysis) (d : MaintainerDisputeRecord)
    (r : ArbitrationResolutionRecord) (now : DateTime) : AM ArbitrationAnalysis :=
  _ ← persist_pending_delivery r now;
  _ ← write_resolution_record r;
  _ ← (if bool_decide (dispute_status (mdr_dispute d) = DisputeOpen)
       then write_dispute (resolved_by_record (rr_resolution r) (dr_resolved_at (rr_resolution r)) d)
       else mret tt);
  delivered ← m_try (ensure_delivery r);
  let a' := match delivered with Ok _ => adopted now a | Err _ => still_adopting now a end in
  _ ← write_analysis a';
  mret a'.

(** Another resolution is current: the adoption is given up. *)
Definition overtaken (resolution : ArbitrationResolutionId) (now : DateTime) (a : ArbitrationAnalysis) :
    ArbitrationAnalysis :=
  a |> set_state Approved |> set_pending_resolution None
    |> set_adoption_blocked_reason (Some (ResolutionCameFirst resolution))
    |> set_error (Some {| ae_code := "adoption_preempted";
                          ae_message := BlockedMessage (ResolutionCameFirst resolution) |})
    |> set_updated_at now.

Definition owned_by_human (owner : ArbitrationAnalysisId) (now : DateTime) (a : ArbitrationAnalysis) :
    ArbitrationAnalysis :=
  a |> set_state Approved
    |> set_adoption_blocked_reason (Some (HumanAdoptionOwns owner))
    |> set_error (Some {| ae_code := "adoption_preempted_by_human";
                          ae_message := BlockedMessage (HumanAdoptionOwns owner) |})
    |> set_updated_at now.

(** The resolution that stands in the way of committing [r], if any. *)
Definition other_resolution (d : MaintainerDisputeRecord) (r : ArbitrationResolutionRecord) :
    option ArbitrationResolutionId :=
  match mdr_resolution d with
  | Some c => if bool_decide (dr_resolution_id c = rr_resolution_id r) then None
              else Some (dr_resolution_id c)
  | None => None
  end.

Definition commit_or_yield (job : AnalysisJob) (a : ArbitrationAnalysis) (r : ArbitrationResolutionRecord)
    (now : DateTime) : AM AnalysisState :=
  d ← read_dispute (job_dispute_id job);
  match other_resolution d r with
  | Some c => _ ← write_analysis (overtaken c now a); mret Approved
  | None => a' ← finish_analysis_adoption_locked a d r now; mret (an_state a')
  end.

Definition recover_analysis_adoption (job : AnalysisJob) (now : DateTime) : AM AnalysisState :=
  _ ← lock_dispute (job_dispute_id job);
  a ← read_analysis job;
  if negb (bool_decide (an_state a = Adopting)) then mret (an_state a)
  else
    r ← fixed_analysis_resolution job a;
    owner ← (if bool_decide (dr_resolved_by (rr_resolution r) = Automatic)
             then find_human_analysis_adoption_owner (job_dispute_id job) else mret None);
    match owner with
    | Some o =>
        if bool_decide (o = job) then commit_or_yield job a r now
        else _ ← write_analysis (owned_by_human (job_analysis_id o) now a); mret Approved
    | None => commit_or_yield job a r now
    end.

(** The caller holds the lock of the dispute. *)
Definition resume_matching_analysis_adoption_locked (job : AnalysisJob) (expected : ResolvedBy)
    (now : DateTime) : AM (option ArbitrationResolutionRecord) :=
  owner ← find_human_analysis_adoption_owner (job_dispute_id job);
  _ ← match owner with
      | Some o => if bool_decide (o = job) then mret tt else fail (AFailure (HumanIntentFixed (job_analysis_id o)))
      | None => mret tt
      end;
  a ← read_analysis job;
  if negb (bool_decide (an_state a = Adopting) || bool_decide (an_state a = Adopted)) then mret None
  else
    r ← fixed_analysis_resolution job a;
    if negb (bool_decide (dr_resolved_by (rr_resolution r) = expected))
    then fail (AFailure (UsedByOther (dr_resolved_by (rr_resolution r))))
    else
      d ← read_dispute (job_dispute_id job);
      if bool_decide (an_state a = Adopted) then
        if bool_decide (dr_resolution_id <$> mdr_resolution d = Some (rr_resolution_id r))
        then mret (Some r) else fail (AFailure AdoptedNotCurrent)
      else match other_resolution d r with
      | Some c => _ ← write_analysis (overtaken c now a); fail (AFailure (AdoptionOvertaken c))
      | None => _ ← finish_analysis_adoption_locked a d r now; mret (Some r)
      end.

(** The deliverer finds the resolution in its pending file, or where that
    file is of an older version, in the current record. *)
Definition can_recover_commit (r : ArbitrationResolutionRecord) (d : MaintainerDisputeRecord) : bool :=
  match mdr_resolution d with
  | None => true
  | Some current =>
      bool_decide (dr_resolved_by (rr_resolution r) = Human)
      && bool_decide (is_Some (dr_rejection_reason (rr_resolution r)))
      && bool_decide (dr_resolved_by current = Automatic)
  end.

Definition recover_pending_delivery (target : ResolutionEventTarget) : AM unit :=
  _ ← lock_dispute (ret_dispute_id target);
  pending ← read_pending_delivery (ret_resolution_id target);
  current_record ← read_current_resolution_record (ret_dispute_id target);
  let mine := match current_record with
              | Some r => if bool_decide (rr_resolution_id r = ret_resolution_id target) then Some r else None
              | None => None
              end in
  let record := match pending ≫= prd_resolution_record with Some r => Some r | None => mine end in
  match record with
  | None => remove_pending_delivery (ret_resolution_id target)
  | Some r =>
      if negb (bool_decide (rr_resolution_id r = ret_resolution_id target))
         || negb (bool_decide (rr_dispute_id r = ret_dispute_id target))
      then fail (AFailure EventTargetDiffers)
      else
        d ← read_dispute (ret_dispute_id target);
        let is_current := bool_decide (dr_resolution_id <$> mdr_resolution d = Some (ret_resolution_id target)) in
        if negb is_current && negb (can_recover_commit r d)
        then remove_pending_delivery (ret_resolution_id target)
        else
          _ ← (if negb is_current then
                 _ ← write_resolution_record r;
                 write_dispute (resolved_by_record (rr_resolution r) (dr_resolved_at (rr_resolution r)) d)
               else mret tt);
          _ ← match mine with
              | Some _ => mret tt
              | None => write_resolution_record r
              end;
          ensure_delivery r
  end.

Definition complete_analysis_adoption_after_delivery (target : ResolutionEventTarget) (now : DateTime) :
    AM unit :=
  _ ← lock_dispute (ret_dispute_id target);
  stored ← read_current_resolution_record (ret_dispute_id target);
  match stored with
  | None => mret tt
  | Some r =>
      if negb (bool_decide (rr_resolution_id r = ret_resolution_id target)) then mret tt
      else match rr_analysis_source_id r with
      | None => mret tt
      | Some source_id =>
          current ← read_current_analysis (ret_dispute_id target);
          match current with
          | None => mret tt
          | Some a =>
              if negb (bool_decide (an_analysis_id a = source_id)) then mret tt
              else if negb (bool_decide (an_state a = Adopting)) then mret tt
              else if negb (bool_decide (an_resolution_id a = Some (ret_resolution_id target)))
              then fail (AFailure AdoptingOtherResolution)
              else write_analysis (adopted now a)
          end
      end
  end.

Section adoption.
Context (hex_encode : list Z → string) (self : Maintainer).

(** The resolution record an approved analysis proposes. *)
Definition adoption_resolution (id : ArbitrationResolutionId) (by_ : ResolvedBy) (now : DateTime)
    (p : ArbitrationProposal) : DisputeResolution :=
  {| dr_resolution_id := id; dr_resolved_by := by_; dr_resolved_at := now;
     dr_resolution_type := Some (ap_resolution_type p);
     dr_resolution_basis := Some (ap_resolution_basis p); dr_conclusion := ap_conclusion p;
     dr_claim_assessments := ap_claim_assessments p; dr_rejection_reason := None |}.

(** The intent is fixed in the analysis. *)
Definition adopting (r : ArbitrationResolutionRecord) (now : DateTime) (a : ArbitrationAnalysis) :
    ArbitrationAnalysis :=
  a |> set_state Adopting |> set_resolution_id (Some (rr_resolution_id r))
    |> set_pending_resolution (Some r) |> set_lease None |> set_updated_at now.

Definition or_fail {A} (o : option A) (why : Reason) : AM A :=
  match o with Some x => mret x | None => fail (AFailure why) end.

Definition begin_analysis_adoption_locked (job : AnalysisJob) (by_ : ResolvedBy) (now : DateTime) :
    AM ArbitrationResolutionRecord :=
  a ← read_analysis job;
  if negb (bool_decide (an_state a = Approved)) then fail (AFailure (StateCannotAdopt (an_state a)))
  else
    d0 ← read_dispute (job_dispute_id job);
    recovered ← recover_human_resolution_locked (job_dispute_id job) d0;
    match recovered with
    | (_, Some human) =>
        _ ← try_delivery human;
        fail (AFailure (HumanResolvedFirst (rr_resolution_id human)))
    | (d, None) =>
        if negb (is_open d) then fail (AFailure (ClosedByOther (job_dispute_id job)))
        else
          p ← or_fail (an_proposal a) ProposalMissing;
          if negb (is_resolved (ap_resolution_type p)) then fail (AFailure UnresolvedCannotAdopt)
          else
            c ← or_fail (an_context a) ContextMissing;
            fingerprint ← or_fail (an_semantic_fingerprint a) FingerprintMissing;
            snapshot_hash ← or_fail (an_context_snapshot_hash a) SnapshotHashMissing;
            resolution_id ← mint_resolution_id hex_encode self (job_dispute_id job);
            let resolution := adoption_resolution resolution_id by_ now p in
            intent ← build_delivery_intent hex_encode self (fc_dispute c) (fc_direct_claims c) resolution
                       {| dc_context_snapshot_hash := Some snapshot_hash;
                          dc_snapshot_source_resolution_id := None |} now;
            let r := {| rr_schema_version := ARBITRATION_SCHEMA_VERSION;
              rr_resolution_id := resolution_id; rr_dispute_id := job_dispute_id job;
              rr_created_at := now; rr_resolution := resolution; rr_dispute_snapshot := fc_dispute c;
              rr_direct_claim_snapshots := fc_direct_claims c;
              rr_semantic_fingerprint := Some fingerprint;
              rr_context_snapshot_hash := Some snapshot_hash;
              rr_analysis_source_id := Some (an_analysis_id a); rr_delivery_intent := Some intent;
              rr_snapshot_source_resolution_id := None |} in
            let a' := adopting r now a in
            _ ← write_analysis a';
            _ ← finish_analysis_adoption_locked a' d r now;
            mret r
    end.
End adoption.
