(* ===== verification/ArbitrationContext.v ===== *)
(** * The context of an arbitration (src/src/maintainer/arbitration/context.rs)

    What a model is shown of a dispute: its claims, the graph of their
    sources, the governing policies, the evidence of the router and the
    prior resolutions of the same claims; and the projection of it whose
    hash decides whether an adopted analysis is still up to date. *)

From S2P Require Import Prelude Storage Claim Maintainer ArbitrationTypes ArbitrationChecks ArbitrationStore.
From S2P Require Import Resolution.
Import Ids.

(** ** The graph of source claims *)

Definition claim_sources (c : Claim) : list ClaimId :=
  omap (λ s, match s with SourceClaim id => Some id | SourcePolicy _ => None end) (claim_source_claim_ids c).

(** The elements of a [BTreeSet] built from [l]. *)
Definition btree_set (l : list string) : list string := dedup (sort_by String.compare l).

Record graph_state := {
  gs_seen : list ClaimId;
  gs_next : list ClaimId;
  gs_claims : list Claim;
  gs_warnings : list ContextWarning;
}.

Definition warn (code : string) (detail : WarningDetail) (s : graph_state) : graph_state :=
  {| gs_seen := gs_seen s; gs_next := gs_next s; gs_claims := gs_claims s;
     gs_warnings := gs_warnings s ++ [{| cw_code := code; cw_detail := detail |}] |}.

Definition see (id : ClaimId) (s : graph_state) : graph_state :=
  {| gs_seen := id :: gs_seen s; gs_next := gs_next s; gs_claims := gs_claims s; gs_warnings := gs_warnings s |}.

Definition add_source (c : Claim) (s : graph_state) : graph_state :=
  {| gs_seen := gs_seen s; gs_next := gs_next s ++ claim_sources c; gs_claims := gs_claims s ++ [c];
     gs_warnings := gs_warnings s |}.

(** One level of the graph; [true] when the limit stops the search. *)
Fixpoint level_loop (all_claims : list (AgentId * Claim)) (max_source_claims : nat)
    (frontier : list ClaimId) (s : graph_state) : graph_state * bool :=
  match frontier with
  | [] => (s, false)
  | id :: frontier' =>
      if bool_decide (id ∈ gs_seen s) then level_loop all_claims max_source_claims frontier' s
      else
        let s := see id s in
        if bool_decide (max_source_claims ≤ length (gs_claims s))
        then (warn "source_graph_truncated" (AboutLimit max_source_claims) s, true)
        else match filter (λ ac : AgentId * Claim, claim_id ac.2 = id) all_claims with
        | [] => level_loop all_claims max_source_claims frontier' (warn "source_claim_missing" (AboutClaim id) s)
        | [(agent, claim)] =>
            if bool_decide (agent = claim_holder claim)
            then level_loop all_claims max_source_claims frontier' (add_source claim s)
            else level_loop all_claims max_source_claims frontier'
                   (warn "source_claim_ambiguous" (AboutClaim id) s)
        | _ => level_loop all_claims max_source_claims frontier'
                 (warn "source_claim_ambiguous" (AboutClaim id) s)
        end
  end.

Definition clear_next (s : graph_state) : graph_state :=
  {| gs_seen := gs_seen s; gs_next := []; gs_claims := gs_claims s; gs_warnings := gs_warnings s |}.

(** Levels, until the frontier is empty: [None] when the fuel runs out. *)
Fixpoint levels (fuel : nat) (all_claims : list (AgentId * Claim)) (max_source_claims : nat)
    (frontier : list ClaimId) (s : graph_state) : option graph_state :=
  match frontier with
  | [] => Some s
  | _ =>
      match fuel with
      | O => None
      | S fuel' =>
          match level_loop all_claims max_source_claims frontier (clear_next s) with
          | (s', true) => Some s'
          | (s', false) => levels fuel' all_claims max_source_claims (btree_set (gs_next s')) s'
          end
      end
  end.

(** Every level but the last adds a claim, and the limit bounds those. *)
Definition load_source_graph (direct_claims : list Claim) (all_claims : list (AgentId * Claim))
    (max_source_claims : nat) : option (list Claim * list ContextWarning) :=
  let s := {| gs_seen := claim_id <$> direct_claims; gs_next := []; gs_claims := []; gs_warnings := [] |} in
  s' ← levels (max_source_claims + 2) all_claims max_source_claims
         (btree_set (direct_claims ≫= claim_sources)) s;
  mret (gs_claims s', gs_warnings s').

(** ** Policies and prior resolutions *)

Definition governs (p : Policy) : bool :=
  bool_decide (policy_message_type p = PolicyUpdateType) && bool_decide (policy_status p = PolicyActive).

(** Placeholders of policies being minted are skipped. *)
Definition load_governance_policies : MM (list Policy) :=
  policies ← list_yaml policies_dir (λ _, true);
  mret (sort_by (cmp_on policy_id String.compare) (filter (λ p, governs p = true) policies)).

Definition prior_cmp : PriorResolutionContext → PriorResolutionContext → comparison :=
  cmp_then (cmp_on (λ p, dr_resolved_at (prc_resolution p)) Z.compare)
    (cmp_on (λ p, dr_resolution_id (prc_resolution p)) String.compare).

(** The resolutions of the other disputes about the same set of claims. *)
Definition prior_of (claims : list ClaimId) (current : DisputeId) (d : MaintainerDisputeRecord) :
    option PriorResolutionContext :=
  if negb (bool_decide (btree_set (dispute_claims (mdr_dispute d)) = btree_set claims)) then None
  else if bool_decide (dispute_id (mdr_dispute d) = current) then None
  else (λ r, {| prc_dispute_id := dispute_id (mdr_dispute d); prc_resolution := r |}) <$> mdr_resolution d.

Definition load_prior_resolutions (claims : list ClaimId) (current : DisputeId) :
    AM (list PriorResolutionContext) :=
  disputes ← list_disputes;
  mret (sort_by prior_cmp (omap (prior_of claims current) disputes)).

(** ** Evidence of the router *)

Definition arbitration_query_text (d : Dispute) (claims : list Claim) : string :=
  dispute_name d +:+ line_break +:+ dispute_summary d +:+ line_break
  +:+ join_lines ((λ c, claim_id c +:+ " | " +:+ claim_name c +:+ " | " +:+ claim_statement c
                        +:+ " | " +:+ claim_evidence_summary c) <$> claims).

Record evidence := {
  ev_candidates : list (ClaimId * Claim);       (* the first answer for an id is kept *)
  ev_disputes : list (DisputeId * DisputeRef);
  ev_warnings : list ContextWarning;
}.

Definition ev_warn (code : string) (detail : WarningDetail) (e : evidence) : evidence :=
  {| ev_candidates := ev_candidates e; ev_disputes := ev_disputes e;
     ev_warnings := ev_warnings e ++ [{| cw_code := code; cw_detail := detail |}] |}.

Definition find_by {A} (key : string) (l : list (string * A)) : option A :=
  snd <$> (snd <$> list_find (λ kv, kv.1 = key) l).

Definition add_candidate (e : evidence) (c : Claim) : evidence :=
  match find_by (claim_id c) (ev_candidates e) with
  | Some existing =>
      if bool_decide (existing = c) then e
      else ev_warn "router_candidate_conflict" (AboutClaim (claim_id c)) e
  | None => {| ev_candidates := ev_candidates e ++ [(claim_id c, c)]; ev_disputes := ev_disputes e;
               ev_warnings := ev_warnings e |}
  end.

Definition add_dispute (e : evidence) (d : DisputeRef) : evidence :=
  match find_by (ref_id d) (ev_disputes e) with
  | Some existing =>
      if bool_decide (existing = d) then e
      else ev_warn "router_dispute_conflict" (AboutDispute (ref_id d)) e
  | None => {| ev_candidates := ev_candidates e; ev_disputes := ev_disputes e ++ [(ref_id d, d)];
               ev_warnings := ev_warnings e |}
  end.

Definition add_answer (router : AgentQuery → option RouterQueryResult) (query_text : string)
    (e : evidence) (scope : string) : evidence :=
  match router {| aq_scope := scope; aq_semantic_query := Some query_text |} with
  | Some result =>
      fold_left add_dispute (rq_disputes result) (fold_left add_candidate (rq_candidate_claims result) e)
  | None => ev_warn "router_query_failed" (AboutScope scope) e
  end.

Definition load_router_evidence (router : AgentQuery → option RouterQueryResult) (d : Dispute)
    (direct_claims : list Claim) : list Claim * list DisputeRef * list ContextWarning :=
  let e := fold_left (add_answer router (arbitration_query_text d direct_claims))
             (btree_set (claim_scope <$> direct_claims))
             {| ev_candidates := []; ev_disputes := []; ev_warnings := [] |} in
  ((sort_by (cmp_on fst String.compare) (ev_candidates e)).*2,
   (sort_by (cmp_on fst String.compare) (ev_disputes e)).*2, ev_warnings e).

(** ** The semantic projection *)

Record SemanticDisputeV2 := {
  sd_id : string; sd_name : string; sd_reporter_agent_id : string; sd_claims : list string;
  sd_summary : string; sd_created_at : DateTime;
}.

Record SemanticClaimV2 := {
  sc_id : string; sc_name : string; sc_statement : string; sc_scope : string; sc_holder : string;
  sc_confidence : Confidence; sc_status : ClaimStatus; sc_created_at : DateTime;
  sc_source_claim_ids : list string; sc_evidence_summary : string;
}.

Record SemanticPolicyV2 := {
  sp_id : string; sp_message_type : PolicyMessageType; sp_name : string; sp_statement : string;
  sp_scope : string; sp_status : PolicyStatus; sp_created_at : DateTime;
  sp_target_agents : option (list string);
}.

Record SemanticRouterDisputeV3 := {
  sr_id : string; sr_name : string; sr_claim_ids : list string; sr_summary : string;
  sr_status : DisputeStatus;
}.

Record SemanticPriorResolutionV2 := {
  spr_dispute_id : string; spr_resolved_by : ResolvedBy; spr_resolution_type : option ResolutionType;
  spr_resolution_basis : option ResolutionBasis; spr_conclusion : string;
  spr_claim_assessments : list ClaimAssessment; spr_rejection_reason : option string;
}.

Record SemanticEvaluatorConfigV3 := {
  se_provider : LlmProvider; se_model : string; se_reasoning_effort : option ReasoningEffort;
  se_max_tokens : Z; se_context_window : Z; se_confidence_threshold : f64; se_max_source_claims : nat;
}.

Record SemanticInputV6 := {
  si_schema_version : Z; si_prompt_version : string; si_dispute : SemanticDisputeV2;
  si_direct_claims : list SemanticClaimV2; si_source_claims : list SemanticClaimV2;
  si_policies : list SemanticPolicyV2; si_router_candidate_claims : list SemanticClaimV2;
  si_router_disputes : list SemanticRouterDisputeV3;
  si_prior_resolutions : list SemanticPriorResolutionV2; si_warning_codes : list string;
  si_evaluator : SemanticEvaluatorConfigV3;
}.

#[export] Instance SemanticDisputeV2_eq_dec : EqDecision SemanticDisputeV2.
Proof. solve_decision. Defined.
#[export] Instance SemanticClaimV2_eq_dec : EqDecision SemanticClaimV2.
Proof. solve_decision. Defined.
#[export] Instance SemanticPolicyV2_eq_dec : EqDecision SemanticPolicyV2.
Proof. solve_decision. Defined.
#[export] Instance SemanticRouterDisputeV3_eq_dec : EqDecision SemanticRouterDisputeV3.
Proof. solve_decision. Defined.
#[export] Instance SemanticPriorResolutionV2_eq_dec : EqDecision SemanticPriorResolutionV2.
Proof. solve_decision. Defined.

Definition governance_policy_ids (c : FrozenArbitrationContext) : list string := policy_id <$> fc_policies c.

Definition semantic_dispute (d : Dispute) : SemanticDisputeV2 :=
  {| sd_id := dispute_id d; sd_name := dispute_name d;
     sd_reporter_agent_id := dispute_reporter_agent_id d;
     sd_claims := btree_set (dispute_claims d);
     sd_summary := dispute_summary d; sd_created_at := dispute_created_at d |}.

(** Provenance by policies that do not govern is left out: an agent that
    applies the policy of a resolution does not change the input. *)
Definition semantic_source (governance : list string) (s : SourceId) : bool :=
  match s with SourceClaim _ => true | SourcePolicy p => bool_decide (p ∈ governance) end.

Definition semantic_claim (governance : list string) (c : Claim) : SemanticClaimV2 :=
  {| sc_id := claim_id c; sc_name := claim_name c; sc_statement := claim_statement c;
     sc_scope := claim_scope c; sc_holder := claim_holder c; sc_confidence := claim_confidence c;
     sc_status := claim_status c; sc_created_at := claim_created_at c;
     sc_source_claim_ids := btree_set
       (SourceId_as_str <$> filter (λ s, semantic_source governance s = true) (claim_source_claim_ids c));
     sc_evidence_summary := claim_evidence_summary c |}.

Definition semantic_claims (governance : list string) (l : list Claim) : list SemanticClaimV2 :=
  sort_by (cmp_on sc_id String.compare) (semantic_claim governance <$> l).

Definition semantic_policy (p : Policy) : SemanticPolicyV2 :=
  {| sp_id := policy_id p; sp_message_type := policy_message_type p; sp_name := policy_name p;
     sp_statement := policy_statement p; sp_scope := policy_scope p; sp_status := policy_status p;
     sp_created_at := policy_created_at p; sp_target_agents := btree_set <$> policy_target_agents p |}.

Definition semantic_policies (l : list Policy) : list SemanticPolicyV2 :=
  sort_by (cmp_on sp_id String.compare) (semantic_policy <$> l).

Definition semantic_router_dispute (d : DisputeRef) : SemanticRouterDisputeV3 :=
  {| sr_id := ref_id d; sr_name := ref_name d; sr_claim_ids := btree_set (ref_claim_ids d);
     sr_summary := ref_summary d; sr_status := ref_status d |}.

Definition semantic_router_disputes (l : list DisputeRef) : list SemanticRouterDisputeV3 :=
  sort_by (cmp_on sr_id String.compare) (semantic_router_dispute <$> l).

Definition semantic_prior (p : PriorResolutionContext) : SemanticPriorResolutionV2 :=
  let r := prc_resolution p in
  {| spr_dispute_id := prc_dispute_id p; spr_resolved_by := dr_resolved_by r;
     spr_resolution_type := dr_resolution_type r; spr_resolution_basis := dr_resolution_basis r;
     spr_conclusion := dr_conclusion r;
     spr_claim_assessments := sort_by (cmp_on ca_claim_id String.compare) (dr_claim_assessments r);
     spr_rejection_reason := dr_rejection_reason r |}.

(** [Vec::dedup]: of equal neighbours the first is kept. *)
Fixpoint dedup_runs_of {A} `{EqDecision A} (l : list A) : list A :=
  match l with
  | [] => []
  | x :: l' =>
      match dedup_runs_of l' with
      | y :: rest => if bool_decide (x = y) then y :: rest else x :: y :: rest
      | [] => [x]
      end
  end.

Definition from_frozen (c : FrozenArbitrationContext) (cfg : MaintainerArbitrationConfig) (llm : LlmChatConfig) :
    SemanticInputV6 :=
  let governance := governance_policy_ids c in
  {| si_schema_version := CURRENT_SEMANTIC_PROJECTION_VERSION;
     si_prompt_version := ARBITRATION_PROMPT_VERSION;
     si_dispute := semantic_dispute (fc_dispute c);
     si_direct_claims := semantic_claims governance (fc_direct_claims c);
     si_source_claims := semantic_claims governance (fc_source_claims c);
     si_policies := semantic_policies (fc_policies c);
     si_router_candidate_claims := semantic_claims governance (fc_router_candidate_claims c);
     si_router_disputes := semantic_router_disputes (fc_router_disputes c);
     si_prior_resolutions := dedup_runs_of (semantic_prior <$> fc_prior_resolutions c);
     si_warning_codes := btree_set (cw_code <$> fc_warnings c);
     si_evaluator := {| se_provider := llm_provider llm; se_model := llm_model llm;
       se_reasoning_effort := llm_reasoning_effort llm; se_max_tokens := llm_max_tokens llm;
       se_context_window := llm_context_window llm;
       se_confidence_threshold := cfg_confidence_threshold cfg;
       se_max_source_claims := cfg_max_source_claims cfg |} |}.

(** ** Building a context *)

Record BuiltArbitrationContext := {
  bc_frozen : FrozenArbitrationContext;
  bc_semantic_fingerprint : string;
  bc_context_snapshot_hash : string;
}.

Section build.
(** serde_json and SHA-256: the hash of a value. *)
Context (semantic_sha : SemanticInputV6 → string) (frozen_sha : FrozenArbitrationContext → string).
Context (cfg : MaintainerArbitrationConfig) (llm : LlmChatConfig).

Definition built (c : FrozenArbitrationContext) : BuiltArbitrationContext :=
  {| bc_frozen := c; bc_semantic_fingerprint := semantic_sha (from_frozen c cfg llm);
     bc_context_snapshot_hash := frozen_sha c |}.

Definition build (id : DisputeId) (generated_at : DateTime) : AM BuiltArbitrationContext :=
  record ← read_dispute id;
  all_claims ← team load_team_claims;
  direct_claims ← lift_result (map_err ANotReady
    (resolve_direct_claims (dispute_claims (mdr_dispute record)) all_claims));
  let '(source_claims, graph_warnings) :=
    default ([], []) (load_source_graph direct_claims all_claims (cfg_max_source_claims cfg)) in
  policies ← team load_governance_policies;
  router ← gets as_router;
  let '(candidates, disputes, warnings) := load_router_evidence router (mdr_dispute record) direct_claims in
  prior ← load_prior_resolutions (dispute_claims (mdr_dispute record)) id;
  mret (built {| fc_generated_at := generated_at; fc_dispute := mdr_dispute record;
    fc_direct_claims := direct_claims; fc_source_claims := source_claims; fc_policies := policies;
    fc_router_candidate_claims := candidates; fc_router_disputes := disputes;
    fc_prior_resolutions := prior; fc_warnings := graph_warnings ++ warnings |}).

(** [describe_changes]: the parts of the input that differ. *)
Definition changed_parts (previous current : FrozenArbitrationContext) : list ChangedPart :=
  let before := governance_policy_ids previous in
  let after := governance_policy_ids current in
  let part (same : bool) (p : ChangedPart) := if same then [] else [p] in
  part (bool_decide (semantic_dispute (fc_dispute previous) = semantic_dispute (fc_dispute current)))
    DisputeChanged
  ++ part (bool_decide (semantic_claims before (fc_direct_claims previous)
                        = semantic_claims after (fc_direct_claims current))) DirectClaimsChanged
  ++ part (bool_decide (semantic_claims before (fc_source_claims previous)
                        = semantic_claims after (fc_source_claims current))) SourceClaimsChanged
  ++ part (bool_decide (semantic_policies (fc_policies previous) = semantic_policies (fc_policies current)))
    PoliciesChanged
  ++ part (bool_decide (semantic_claims before (fc_router_candidate_claims previous)
                        = semantic_claims after (fc_router_candidate_claims current)))
    RouterCandidatesChanged
  ++ part (bool_decide (semantic_router_disputes (fc_router_disputes previous)
                        = semantic_router_disputes (fc_router_disputes current))) RouterDisputesChanged.

Definition describe_changes (previous : option FrozenArbitrationContext) (current : FrozenArbitrationContext) :
    list ChangedPart :=
  match previous with
  | None => [PreviousUnavailable]
  | Some previous =>
      match changed_parts previous current with
      | [] => [ConfigurationChanged]
      | changed => changed
      end
  end.
End build.
