(* ===== verification/SourceGraph.v ===== *)
(** * The source graph of an analysis

    The breadth-first search of context.rs ([load_source_graph]) ends within
    its fuel, on cyclic graphs too, and finds exactly the usable claims that
    the direct claims rest on, up to the limit of the configuration. *)

From S2P Require Import Prelude Storage Claim ArbitrationTypes ArbitrationContext.
Import Ids.

Lemma elem_of_btree_set x l : x ∈ btree_set l ↔ x ∈ l.
Proof. unfold btree_set. by rewrite elem_of_dedup, elem_of_sort_by. Qed.

Section graph.
Context (direct_claims : list Claim) (all_claims : list (AgentId * Claim)) (limit : nat).

Abbreviation direct_ids := (claim_id <$> direct_claims).

(** The only mirror of [id], in the directory of its holder. *)
Definition usable (id : ClaimId) (c : Claim) : Prop :=
  filter (λ ac : AgentId * Claim, claim_id ac.2 = id) all_claims = [(claim_holder c, c)].

(** The ids that the direct claims rest on, through usable claims. *)
Inductive rests_on : ClaimId → Prop :=
| rests_direct c id : c ∈ direct_claims → id ∈ claim_sources c → rests_on id
| rests_step id c id' : rests_on id → id ∉ direct_ids → usable id c → id' ∈ claim_sources c → rests_on id'.

Definition source_claim (c : Claim) : Prop :=
  rests_on (claim_id c) ∧ claim_id c ∉ direct_ids ∧ usable (claim_id c) c.

Lemma usable_id id c : usable id c → claim_id c = id.
Proof.
  intros Hu. assert (H : (claim_holder c, c) ∈ filter (λ ac : AgentId * Claim, claim_id ac.2 = id) all_claims)
    by (unfold usable in Hu; rewrite Hu; by apply list_elem_of_singleton).
  by apply list_elem_of_filter in H as [? _].
Qed.

Lemma usable_unique id c c' : usable id c → usable id c' → c = c'.
Proof. unfold usable. intros -> [= _ ->]. done. Qed.

(** What holds between two ids of a level: [todo] is what is left of it. *)
Record explored (todo : list ClaimId) (s : graph_state) : Prop := {
  ex_direct id : id ∈ direct_ids → id ∈ gs_seen s;
  ex_seen id : id ∈ gs_seen s → id ∈ direct_ids ∨ rests_on id;
  ex_sound c : c ∈ gs_claims s → source_claim c ∧ claim_id c ∈ gs_seen s;
  ex_nodup : NoDup (claim_id <$> gs_claims s);
  ex_bound : length (gs_claims s) ≤ limit;
  ex_todo id : id ∈ todo ++ gs_next s → rests_on id;
  ex_found id c : id ∈ gs_seen s → id ∉ direct_ids → usable id c → c ∈ gs_claims s;
  ex_closed c id : c ∈ direct_claims ∨ c ∈ gs_claims s → id ∈ claim_sources c →
    id ∈ gs_seen s ∨ id ∈ todo ++ gs_next s;
}.

Lemma explored_warn code detail todo s : explored todo s → explored todo (warn code detail s).
Proof. by intros []. Qed.

Lemma explored_skip id todo s : explored (id :: todo) s → id ∈ gs_seen s → explored todo s.
Proof.
  intros [H1 H2 H3 H4 H5 H6 H7 H8] Hid. split; try done; [intros; apply H6; set_solver|].
  intros c id' Hc Hs. destruct (H8 c id' Hc Hs) as [?|H]; [by left|]. simpl in H.
  apply elem_of_cons in H as [ ->|?]; auto.
Qed.

(** An id without a usable mirror. *)
Lemma explored_see id todo s : explored (id :: todo) s → (∀ c, ¬ usable id c) → explored todo (see id s).
Proof.
  intros [H1 H2 H3 H4 H5 H6 H7 H8] Hno. split; simpl; try done.
  - set_solver.
  - intros id' [ ->|?]%elem_of_cons; [right; apply H6; set_solver|auto].
  - intros c Hc. destruct (H3 c Hc). set_solver.
  - intros; apply H6; set_solver.
  - intros id' c [ ->|Hs]%elem_of_cons Hd Hu; [by destruct (Hno c)|eauto].
  - intros c id' Hc Hs. destruct (H8 c id' Hc Hs) as [?|H]; [set_solver|]. simpl in H.
    apply elem_of_cons in H as [ ->|?]; set_solver.
Qed.

Lemma explored_add id c todo s : explored (id :: todo) s → id ∉ gs_seen s → usable id c →
  length (gs_claims s) < limit → explored todo (add_source c (see id s)).
Proof.
  intros [H1 H2 H3 H4 H5 H6 H7 H8] Hid Hu Hlt. pose proof (usable_id _ _ Hu) as Hc.
  assert (Hr : rests_on id) by (apply H6; set_solver).
  assert (Hd : id ∉ direct_ids) by auto.
  split; simpl.
  - set_solver.
  - intros id' [ ->|?]%elem_of_cons; auto.
  - intros c' [Hc'| ->%list_elem_of_singleton]%elem_of_app; [destruct (H3 c' Hc'); set_solver|].
    unfold source_claim. rewrite Hc. split; [done|set_solver].
  - rewrite fmap_app. apply NoDup_app. split; [done|]. split; [|apply NoDup_singleton].
    intros x Hx ->%list_elem_of_singleton. rewrite Hc in Hx.
    apply list_elem_of_fmap in Hx as (c' & -> & Hc'). by destruct (H3 c' Hc').
  - rewrite length_app. simpl. lia.
  - intros id' Hi. rewrite !elem_of_app in Hi. destruct Hi as [Hi|[Hi|Hi]]; [apply H6; set_solver..|]. by eapply rests_step.
  - intros id' c' [ ->|Hs]%elem_of_cons Hd' Hu'; apply elem_of_app; [|left; eauto].
    right. apply list_elem_of_singleton. by eapply usable_unique.
  - intros c' id' Hc' Hs.
    assert (Hor : (c' ∈ direct_claims ∨ c' ∈ gs_claims s) ∨ c' = c).
    { destruct Hc' as [?|[?|?%list_elem_of_singleton]%elem_of_app]; auto. }
    destruct Hor as [Hor| ->]; [|set_solver].
    destruct (H8 c' id' Hor Hs) as [?|H]; [set_solver|]. simpl in H. apply elem_of_cons in H as [ ->|?]; set_solver.
Qed.

(** A level that ends has seen all of its ids and found nothing to go on
    with unless it found a claim; one that the limit ends has found as many
    claims as allowed and says so. *)
Lemma level_explored frontier s s' stop : explored frontier s →
  level_loop all_claims limit frontier s = (s', stop) →
  (length (gs_claims s') = length (gs_claims s) → gs_next s' = gs_next s) ∧ length (gs_claims s) ≤ length (gs_claims s') ∧
  if stop then (∀ c, c ∈ gs_claims s' → source_claim c) ∧ NoDup (claim_id <$> gs_claims s') ∧
      length (gs_claims s') = limit ∧ "source_graph_truncated" ∈ cw_code <$> gs_warnings s'
  else explored [] s'.
Proof.
  revert s. induction frontier as [|id frontier IH]; intros s Hi Hl; simpl in Hl; [by injection Hl as <- <-|].
  case_bool_decide as Hseen; [by apply (IH s); [eapply explored_skip|]|].
  case_bool_decide as Hlim.
  { injection Hl as <- <-. simpl. split; [done|]. split; [done|].
    destruct Hi as [_ _ H3 H4 H5 _ _ _]. split; [intros c Hc; apply (H3 c Hc)|].
    split; [done|]. split; [lia|]. rewrite fmap_app. set_solver. }
  destruct (filter _ all_claims) as [|[agent c] [|]] eqn:Hf.
  - refine (IH _ _ Hl). apply explored_warn, explored_see; [done|].
    intros c. unfold usable. by rewrite Hf.
  - case_bool_decide as Hag; subst.
    + destruct (IH (add_source c (see id s))) as (Hn & Hlen & Hr); [|done|]; [apply explored_add; auto; lia|].
      simpl in *. rewrite length_app in Hlen. simpl in Hlen. split; [|split; [lia|done]].
      intros E. lia.
    + refine (IH _ _ Hl). apply explored_warn, explored_see; [done|].
      intros c'. unfold usable. rewrite Hf. congruence.
  - refine (IH _ _ Hl). apply explored_warn, explored_see; [done|].
    intros c'. unfold usable. by rewrite Hf.
Qed.

(** What the search promises of its result. *)
Definition searched (s : graph_state) : Prop :=
  (∀ c, c ∈ gs_claims s → source_claim c) ∧ NoDup (claim_id <$> gs_claims s) ∧
  length (gs_claims s) ≤ limit ∧
  ((∀ c, source_claim c → c ∈ gs_claims s) ∨
   (length (gs_claims s) = limit ∧ "source_graph_truncated" ∈ cw_code <$> gs_warnings s)).

Lemma explored_searched s : explored [] s → gs_next s = [] → searched s.
Proof.
  intros [H1 H2 H3 H4 H5 H6 H7 H8] Hn. rewrite Hn in H8.
  split; [intros c Hc; apply (H3 c Hc)|]. split; [done|]. split; [done|]. left.
  assert (Hseen : ∀ id, rests_on id → id ∈ gs_seen s).
  { intros id. induction 1 as [c id Hc Hid|id c id' Hr IH Hd Hu Hid].
    - destruct (H8 c id) as [?|H]; [by left|done|done|by apply not_elem_of_nil in H].
    - destruct (H8 c id') as [?|H]; [right; by apply (H7 id)|done|done|by apply not_elem_of_nil in H]. }
  intros c (Hr & Hd & Hu). apply (H7 (claim_id c)); auto.
Qed.

Lemma explored_next s : explored [] s → explored (btree_set (gs_next s)) (clear_next s).
Proof.
  intros [H1 H2 H3 H4 H5 H6 H7 H8]. split; try done.
  - intros id. rewrite app_nil_r, elem_of_btree_set. apply H6.
  - intros c id Hc Hid. rewrite app_nil_r, elem_of_btree_set. by apply (H8 c).
Qed.

Lemma levels_searched fuel frontier s : explored frontier (clear_next s) → gs_next s = [] ∨ frontier ≠ [] →
  frontier = [] ∨ limit < length (gs_claims s) + fuel →
  ∃ s', levels fuel all_claims limit frontier s = Some s' ∧ searched s'.
Proof.
  revert frontier s. induction fuel as [|fuel IH]; intros frontier s Hi Hn Hfuel.
  - destruct frontier as [|id frontier].
    + exists s. split; [done|]. destruct Hn as [Hn|]; [|done]. apply explored_searched; [|done].
      destruct s. simpl in Hn. by subst.
    + destruct Hfuel as [|Hfuel]; [done|]. pose proof (ex_bound _ _ Hi). simpl in *. lia.
  - destruct frontier as [|id frontier].
    + exists s. split; [done|]. destruct Hn as [Hn|]; [|done]. apply explored_searched; [|done].
      destruct s. simpl in Hn. by subst.
    + destruct Hfuel as [|Hfuel]; [done|].
      change (levels (S fuel) all_claims limit (id :: frontier) s) with
        (match level_loop all_claims limit (id :: frontier) (clear_next s) with
         | (s', true) => Some s'
         | (s', false) => levels fuel all_claims limit (btree_set (gs_next s')) s'
         end).
      destruct (level_loop all_claims limit (id :: frontier) (clear_next s)) as [s1 stop] eqn:El.
      apply level_explored in El as (Hnext & Hlen & Hr); [|done]. simpl in Hnext, Hlen. destruct stop.
      * exists s1. split; [done|]. destruct Hr as (? & ? & ? & ?). split; [done|]. split; [done|]. split; [lia|auto].
      * apply IH; [by apply explored_next|..].
        -- destruct (gs_next s1) as [|x l] eqn:E; [by left|]. right. intros Hb.
           assert (x ∈ btree_set (x :: l)) as Hx by (apply elem_of_btree_set; set_solver).
           rewrite Hb in Hx. by apply not_elem_of_nil in Hx.
        -- destruct (decide (length (gs_claims s1) = length (gs_claims s))) as [E|E]; [left|right; lia].
           by rewrite (Hnext E).
Qed.

(** C9. The search for the claims that a dispute rests on ends, on cyclic
    graphs too.  It finds claims once each, none of them direct, each the only
    mirror of its id in its holder's directory and reached through such claims;
    and it finds all of these, or as many as the configuration allows with a
    warning that the search was cut short. *)
Theorem source_graph_exact : ∃ claims warnings,
  load_source_graph direct_claims all_claims limit = Some (claims, warnings) ∧
  (∀ c, c ∈ claims → source_claim c) ∧ NoDup (claim_id <$> claims) ∧ length claims ≤ limit ∧
  ((∀ c, source_claim c → c ∈ claims) ∨
   (length claims = limit ∧ "source_graph_truncated" ∈ cw_code <$> warnings)).
Proof.
  set (s := {| gs_seen := direct_ids; gs_next := []; gs_claims := []; gs_warnings := [] |}).
  destruct (levels_searched (limit + 2) (btree_set (direct_claims ≫= claim_sources)) s) as (s' & Hs & H1 & H2 & H3 & H4).
  - split; simpl; [done|by left|by intros c ?%not_elem_of_nil|constructor|lia| |by intros id c ? []|].
    + intros id. rewrite app_nil_r, elem_of_btree_set. intros (c & Hid & Hc)%list_elem_of_bind. by eapply rests_direct.
    + intros c id Hc Hid. right. destruct Hc as [Hc|Hc%not_elem_of_nil]; [|done].
      rewrite app_nil_r, elem_of_btree_set. apply list_elem_of_bind. eauto.
  - by left.
  - right. simpl. lia.
  - exists (gs_claims s'), (gs_warnings s'). split; [|done]. unfold load_source_graph.
    change (levels (limit + 2) all_claims limit (btree_set (direct_claims ≫= claim_sources)) s ≫=
      (λ s', mret (gs_claims s', gs_warnings s')) = Some (gs_claims s', gs_warnings s')).
    by rewrite Hs.
Qed.
End graph.
