(* ===== verification/Analysis.v ===== *)
(** * The analysis service (src/src/maintainer/arbitration/service.rs)

    The locked sections of the service, one definition each: between them
    other workers, requests and processes may run.  The lease token of a
    phase is its fencing token: a result is saved only under the token that
    the analysis holds. *)

From S2P Require Import Prelude Storage Claim Maintainer ArbitrationTypes ArbitrationChecks ArbitrationStore.
From S2P Require Import Resolution Adoption ArbitrationContext.
Import Ids.

Definition LEASE_SAFETY_MARGIN_MS : Z := 30 * 1000.
Definition DEFAULT_CONTEXT_PREPARE_MAX_ATTEMPTS : nat := 6.
Definition FIRST_REANALYSIS_DELAY : Z := 5 * 60 * nanos_per_sec.
Definition SECOND_REANALYSIS_DELAY : Z := 15 * 60 * nanos_per_sec.
Definition nanos_per_milli : Z := 1000000.

Record ReportDisputeResult := {
  rdr_created : bool;
  rdr_current_analysis : option ArbitrationAnalysis;
  rdr_should_enqueue : bool;
}.

(** The fields of [struct ArbitrationService] that do not change. *)
Record ArbitrationService := {
  srv_config : MaintainerArbitrationConfig;
  srv_model : string;
  srv_lease_ms : Z;                       (* lease_duration *)
  srv_context_prepare_max_attempts : nat;
}.

Definition ArbitrationService_new (cfg : MaintainerArbitrationConfig) (model : string)
    (lease_base_ms : Z) : ArbitrationService :=
  {| srv_config := cfg; srv_model := model;
     srv_lease_ms := sat_add duration_max_ms lease_base_ms LEASE_SAFETY_MARGIN_MS;
     srv_context_prepare_max_attempts := DEFAULT_CONTEXT_PREPARE_MAX_ATTEMPTS |}.

(** ** Pure steps *)

Definition ensure_adoption_preconditions (job : AnalysisJob) (a : ArbitrationAnalysis)
    (d : MaintainerDisputeRecord) : Result ArbError unit :=
  if negb (bool_decide (an_state a = Approved))
  then Err (AConflict (NotAdoptable (an_analysis_id a) (an_state a)))
  else match an_adoption_blocked_reason a with
  | Some reason => Err (AConflict (AdoptionBlocked reason))
  | None =>
      if negb (is_open d) then Err (AConflict (DisputeAlreadyResolved (job_dispute_id job))) else Ok tt
  end.

(** [expires_at] says when another worker may take over, not when the owner
    must stop: only the token decides whether a result is accepted. *)
Definition ensure_lease (a : ArbitrationAnalysis) (expected_token : string) (expected_phase : AnalysisPhase) :
    Result Reason unit :=
  match an_lease a with
  | None => Err LeaseMissing
  | Some lease =>
      if negb (bool_decide (lease_phase lease = expected_phase))
         || negb (bool_decide (lease_token lease = expected_token))
      then Err LeaseTakenOver
      else Ok tt
  end.

Definition map_last {A} (f : A → A) (l : list A) : list A :=
  match last l with
  | None => l
  | Some x => take (pred (length l)) l ++ [f x]
  end.

Definition set_round_reason (reason : list ChangedPart) (r : AnalysisRound) : AnalysisRound :=
  {| ar_round := ar_round r; ar_started_at := ar_started_at r; ar_completed_at := ar_completed_at r;
     ar_semantic_projection_version := ar_semantic_projection_version r;
     ar_semantic_fingerprint := ar_semantic_fingerprint r;
     ar_context_snapshot_hash := ar_context_snapshot_hash r; ar_proposal := ar_proposal r;
     ar_verification := ar_verification r; ar_context_change_reason := Some reason |}.

(** The input changed before the adoption: analyse again after five, then
    fifteen minutes; a third change leaves the decision to a person. *)
Definition scheduled (reason : list ChangedPart) (now : DateTime) (a : ArbitrationAnalysis) : ArbitrationAnalysis :=
  let count := sat_add u32_max (an_context_change_count a) 1 in
  let a := a |> set_context_change_count count |> set_context_change_reason (Some reason)
    |> set_rounds (map_last (set_round_reason reason) (an_rounds a)) |> set_updated_at now
    |> set_lease None |> set_resolution_id None |> set_pending_resolution None
    |> set_delivery_error false |> set_error None in
  if bool_decide (count = 1)%Z then
    a |> set_analysis_round 2 |> set_state WaitingReanalysis
      |> set_next_retry_at (Some (now + FIRST_REANALYSIS_DELAY)%Z) |> set_adoption_blocked_reason None
  else if bool_decide (count = 2)%Z then
    a |> set_analysis_round 3 |> set_state WaitingReanalysis
      |> set_next_retry_at (Some (now + SECOND_REANALYSIS_DELAY)%Z) |> set_adoption_blocked_reason None
  else
    a |> set_state Approved |> set_next_retry_at None
      |> set_adoption_blocked_reason (Some InputKeepsChanging).

Definition restarted (now : DateTime) (a : ArbitrationAnalysis) : ArbitrationAnalysis :=
  a |> set_semantic_fingerprint None |> set_context_snapshot_hash None |> set_context None
    |> set_proposal None |> set_verification None |> set_context_change_reason None
    |> set_lease None |> set_next_retry_at None |> set_state Pending
    |> set_context_prepare_attempts 0 |> set_updated_at now.

Definition prepares (s : AnalysisState) : bool :=
  match s with Pending | WaitingContext => true | _ => false end.

Definition waiting_context (now : DateTime) (a : ArbitrationAnalysis) : ArbitrationAnalysis :=
  a |> set_state WaitingContext
    |> set_context_prepare_attempts (sat_add u32_max (an_context_prepare_attempts a) 1)
    |> set_updated_at now.

(** The last round of an approved or unresolved analysis. *)
Definition completed_round (now : DateTime) (a : ArbitrationAnalysis) : option AnalysisRound :=
  match an_semantic_fingerprint a, an_context_snapshot_hash a, an_proposal a, an_verification a, an_context a with
  | Some fingerprint, Some snapshot_hash, Some proposal, Some verification, Some context =>
      Some {| ar_round := an_analysis_round a; ar_started_at := fc_generated_at context;
              ar_completed_at := Some now;
              ar_semantic_projection_version := an_semantic_projection_version a;
              ar_semantic_fingerprint := fingerprint; ar_context_snapshot_hash := snapshot_hash;
              ar_proposal := proposal; ar_verification := verification;
              ar_context_change_reason := an_context_change_reason a |}
  | _, _, _, _, _ => None
  end.

Definition verified (threshold : f64) (v : ArbitrationVerification) (now : DateTime) (a : ArbitrationAnalysis) :
    ArbitrationAnalysis :=
  let a := a |> set_verification (Some v) in
  let a := a |> set_state (if analysis_is_approved a threshold then Approved else StateUnresolved)
    |> set_lease None |> set_updated_at now in
  match completed_round now a with
  | Some round => a |> set_rounds (an_rounds a ++ [round])
  | None => a
  end.

Definition wanted_state (p : AnalysisPhase) : AnalysisState :=
  match p with PhaseProposal => Proposing | PhaseVerification => Verifying end.

Definition lease_valid (now : DateTime) (a : ArbitrationAnalysis) : bool :=
  match an_lease a with Some l => bool_decide (now < lease_expires_at l)%Z | None => false end.

Definition retry_not_due (now : DateTime) (a : ArbitrationAnalysis) : bool :=
  match an_next_retry_at a with Some retry_at => bool_decide (now < retry_at)%Z | None => false end.

Section service.
Context (hex_encode : list Z → string) (maintainer : Maintainer) (self : ArbitrationService).

Definition mode : ArbitrationMode := cfg_mode (srv_config self).
Definition threshold : f64 := cfg_confidence_threshold (srv_config self).

Definition random_lease_token : AM string := team (λ w,
  (Ok (hex_encode (ts_entropy w (ts_drawn w))), bump_drawn w)).

Definition new_lease (phase : AnalysisPhase) (now : DateTime) : AM AnalysisLease :=
  token ← random_lease_token;
  mret {| lease_token := token; lease_phase := phase;
          lease_expires_at := (now + srv_lease_ms self * nanos_per_milli)%Z; lease_renewed_at := now |}.

Definition fresh_analysis (id : DisputeId) (analysis_id : ArbitrationAnalysisId) (now : DateTime) :
    ArbitrationAnalysis :=
  {| an_schema_version := ARBITRATION_SCHEMA_VERSION; an_analysis_id := analysis_id; an_dispute_id := id;
     an_legacy_source := SourceAutomatic; an_report_snapshot := None; an_created_at := now;
     an_updated_at := now; an_prompt_version := ARBITRATION_PROMPT_VERSION; an_mode := mode;
     an_model := srv_model self; an_confidence_threshold := threshold;
     an_semantic_projection_version := CURRENT_SEMANTIC_PROJECTION_VERSION;
     an_semantic_fingerprint := None; an_context_snapshot_hash := None; an_context := None;
     an_state := Pending; an_analysis_round := 1; an_rounds := []; an_context_change_count := 0;
     an_next_retry_at := None; an_context_change_reason := None; an_lease := None; an_proposal := None;
     an_verification := None; an_resolution_id := None; an_pending_resolution := None; an_error := None;
     an_delivery_error := false; an_adoption_blocked_reason := None; an_context_prepare_attempts := 0 |}.

Definition new_analysis (id : DisputeId) : AM ArbitrationAnalysis :=
  now ← clock_now;
  analysis_id ← draw hex_encode analysis_prefix;
  mret (fresh_analysis id analysis_id now).

(** ** Reports *)

Definition validate_direct_claims (d : Dispute) : AM unit := team (validate_new_dispute_direct_claims d).

(** An analysis without its dispute: what a crash between the two writes of
    a report leaves. *)
Definition orphan_matches (orphan : ArbitrationAnalysis) (d : Dispute) : bool :=
  match an_report_snapshot orphan with
  | Some snapshot => same_report_payload snapshot d
  | None => false
  end.

Definition report_analysis (d : Dispute) : AM ArbitrationAnalysis :=
  found ← read_current_analysis (dispute_id d);
  match found with
  | Some existing =>
      if orphan_matches existing d then mret existing
      else fail (AConflict (OrphanDiffers (dispute_id d)))
  | None =>
      fresh ← new_analysis (dispute_id d);
      let a := set_report_snapshot (Some d) fresh in
      _ ← create_report_analysis a;
      mret a
  end.

Definition report_new (d : Dispute) : AM ReportDisputeResult :=
  _ ← validate_direct_claims d;
  if bool_decide (mode = ModeManual) then
    orphan ← read_current_analysis (dispute_id d);
    let differs := match orphan with Some o => negb (orphan_matches o d) | None => false end in
    if differs : bool then fail (AConflict (OrphanDiffers (dispute_id d)))
    else
      _ ← write_dispute (MaintainerDisputeRecord_from d);
      mret {| rdr_created := true; rdr_current_analysis := orphan;
              rdr_should_enqueue := match orphan with
                                    | Some o => is_recoverable (an_state o)
                                    | None => false
                                    end |}
  else
    a ← report_analysis d;
    _ ← write_dispute (MaintainerDisputeRecord_from d);
    mret {| rdr_created := true; rdr_current_analysis := Some a; rdr_should_enqueue := true |}.

Definition report_dispute (d : Dispute) : AM ReportDisputeResult :=
  match validate_agent_report d with
  | Err e => fail (AMaintainer (InvalidReport e))
  | Ok _ =>
      _ ← lock_dispute (dispute_id d);
      found ← m_try (read_dispute (dispute_id d));
      match found with
      | Ok existing =>
          if negb (same_report_payload (mdr_dispute existing) d)
          then fail (AConflict (ReportDiffers (dispute_id d)))
          else
            current ← read_current_analysis (dispute_id d);
            mret {| rdr_created := false; rdr_current_analysis := current;
                    rdr_should_enqueue := negb (bool_decide (mode = ModeManual))
                      && match current with Some a => is_recoverable (an_state a) | None => false end |}
      | Err (AMaintainer (StorageErr FileNotFound)) => report_new d
      | Err e => fail e
      end
  end.

Definition create_analysis (id : DisputeId) : AM ArbitrationAnalysis :=
  _ ← lock_dispute id;
  d ← read_dispute id;
  if negb (is_open d) then fail (AConflict (DisputeAlreadyResolved id))
  else
    current ← read_current_analysis id;
    if match current with Some a => bool_decide (an_state a = Adopting) | None => false end
    then fail (AConflict (AnalysisCommitting id))
    else
      a ← new_analysis id;
      _ ← replace_current_analysis a;
      mret a.

(** ** The phases of an analysis *)

Definition start_reanalysis_round (job : AnalysisJob) : AM unit :=
  _ ← lock_dispute (job_dispute_id job);
  a ← read_analysis job;
  if negb (bool_decide (an_state a = WaitingReanalysis)) then mret tt
  else
    now ← clock_now;
    if retry_not_due now a then mret tt
    else
      now ← clock_now;
      write_analysis (restarted now a).

Definition record_waiting_context (job : AnalysisJob) : AM Z :=
  _ ← lock_dispute (job_dispute_id job);
  a ← read_analysis job;
  if negb (prepares (an_state a)) then mret (an_context_prepare_attempts a)
  else
    now ← clock_now;
    let a' := waiting_context now a in
    _ ← write_analysis a';
    mret (an_context_prepare_attempts a').

Definition with_context (b : BuiltArbitrationContext) (lease : AnalysisLease) (now : DateTime)
    (a : ArbitrationAnalysis) : ArbitrationAnalysis :=
  a |> set_semantic_fingerprint (Some (bc_semantic_fingerprint b))
    |> set_context_snapshot_hash (Some (bc_context_snapshot_hash b))
    |> set_context (Some (bc_frozen b)) |> set_state Proposing |> set_lease (Some lease)
    |> set_updated_at now |> set_error None.

Definition closed_under_way (now : DateTime) (a : ArbitrationAnalysis) : ArbitrationAnalysis :=
  a |> set_state Failed
    |> set_error (Some {| ae_code := "analysis_preempted"; ae_message := HandledByResolution |})
    |> set_updated_at now.

Definition save_prepared_context (job : AnalysisJob) (b : BuiltArbitrationContext) : AM string :=
  _ ← lock_dispute (job_dispute_id job);
  d ← read_dispute (job_dispute_id job);
  a ← read_analysis job;
  if negb (is_open d) then
    now ← clock_now;
    _ ← write_analysis (closed_under_way now a);
    fail (AConflict ClosedByResolution)
  else if negb (prepares (an_state a)) then fail (AFailure (CannotSaveContext (an_state a)))
  else
    now ← clock_now;
    lease ← new_lease PhaseProposal now;
    _ ← write_analysis (with_context b lease now a);
    mret (lease_token lease).

Definition acquire_phase (job : AnalysisJob) (phase : AnalysisPhase) : AM (option string) :=
  _ ← lock_dispute (job_dispute_id job);
  a ← read_analysis job;
  if negb (bool_decide (an_state a = wanted_state phase)) then mret None
  else
    now ← clock_now;
    if lease_valid now a then mret None
    else
      lease ← new_lease phase now;
      _ ← write_analysis (a |> set_lease (Some lease) |> set_updated_at now);
      mret (Some (lease_token lease)).

Definition retoken (token : string) (l : AnalysisLease) : AnalysisLease :=
  {| lease_token := token; lease_phase := lease_phase l; lease_expires_at := lease_expires_at l;
     lease_renewed_at := lease_renewed_at l |}.

Definition proposed (p : ArbitrationProposal) (lease : AnalysisLease) (now : DateTime) (a : ArbitrationAnalysis) :
    ArbitrationAnalysis :=
  a |> set_proposal (Some p) |> set_state Verifying |> set_lease (Some lease) |> set_updated_at now.

Definition save_proposal (job : AnalysisJob) (token : string) (p : ArbitrationProposal) : AM string :=
  _ ← lock_dispute (job_dispute_id job);
  now ← clock_now;
  a ← read_analysis job;
  _ ← check (ensure_lease a token PhaseProposal);
  d ← read_dispute (job_dispute_id job);
  if negb (is_open d) then
    _ ← write_analysis (closed_under_way now a |> set_lease None);
    fail (AConflict ClosedByResolution)
  else
    lease ← new_lease PhaseVerification now;
    _ ← write_analysis (proposed p (retoken token lease) now a);
    mret token.

Definition save_verification (job : AnalysisJob) (token : string) (v : ArbitrationVerification) : AM unit :=
  _ ← lock_dispute (job_dispute_id job);
  now ← clock_now;
  a ← read_analysis job;
  _ ← check (ensure_lease a token PhaseVerification);
  write_analysis (verified threshold v now a).

Definition mark_analysis_preempted (job : AnalysisJob) : AM unit :=
  _ ← lock_dispute (job_dispute_id job);
  a ← read_analysis job;
  now ← clock_now;
  match preempt_analysis_for_resolution a now with
  | Some a' => write_analysis a'
  | None => mret tt
  end.

Definition finish_failed (job : AnalysisJob) (token code : string) (e : ArbError) : AM unit :=
  _ ← lock_dispute (job_dispute_id job);
  now ← clock_now;
  a ← read_analysis job;
  match an_lease a with
  | None => fail (AFailure LeaseMissing)
  | Some lease =>
      _ ← check (ensure_lease a token (lease_phase lease));
      write_analysis (set_failed code e now a)
  end.

Definition finish_failed_without_lease (job : AnalysisJob) (code : string) (e : ArbError) : AM unit :=
  _ ← lock_dispute (job_dispute_id job);
  a ← read_analysis job;
  if is_terminal (an_state a) then mret tt
  else
    now ← clock_now;
    write_analysis (set_failed code e now a).

(** ** Adoption: two locked sections around the building of the context *)

Definition schedule_reanalysis (a : ArbitrationAnalysis) (reason : list ChangedPart) : AM unit :=
  now ← clock_now;
  write_analysis (scheduled reason now a).

Definition resume_adoption (job : AnalysisJob) (by_ : ResolvedBy) : AM (option ArbitrationResolutionRecord) :=
  now ← clock_now;
  m_map_err map_adoption_commit_error (resume_matching_analysis_adoption_locked job by_ now).

(** The first section: [Some] when the adoption is already fixed. *)
Definition adopt_check (job : AnalysisJob) (by_ : ResolvedBy) : AM (option ArbitrationResolutionRecord) :=
  _ ← lock_dispute (job_dispute_id job);
  resumed ← resume_adoption job by_;
  match resumed with
  | Some r => mret (Some r)
  | None =>
      a ← read_analysis job;
      d ← read_dispute (job_dispute_id job);
      _ ← lift_result (ensure_adoption_preconditions job a d);
      mret None
  end.

Definition blocked (reason : BlockedReason) (now : DateTime) (a : ArbitrationAnalysis) : ArbitrationAnalysis :=
  a |> set_adoption_blocked_reason (Some reason) |> set_updated_at now.

(** The second section: the context built meanwhile must still have the
    fingerprint that was analysed. *)
Definition adopt_commit (job : AnalysisJob) (by_ : ResolvedBy)
    (current : Result ArbError BuiltArbitrationContext) : AM ArbitrationResolutionRecord :=
  _ ← lock_dispute (job_dispute_id job);
  resumed ← resume_adoption job by_;
  match resumed with
  | Some r => mret r
  | None =>
      a ← read_analysis job;
      d ← read_dispute (job_dispute_id job);
      _ ← lift_result (ensure_adoption_preconditions job a d);
      match current with
      | Err (ANotReady _) =>
          now ← clock_now;
          _ ← write_analysis (blocked DirectClaimsIncomplete now a);
          fail (AConflict (AdoptionBlocked DirectClaimsIncomplete))
      | Err e => fail e
      | Ok b =>
          if negb (bool_decide (an_semantic_fingerprint a = Some (bc_semantic_fingerprint b))) then
            let reason := describe_changes (an_context a) (bc_frozen b) in
            if bool_decide (an_mode a = ModeAuto) && bool_decide (mode = ModeAuto) then
              _ ← schedule_reanalysis a reason;
              fail (AConflict AnalysisInputChanged)
            else
              now ← clock_now;
              _ ← write_analysis (blocked (InputChanged reason) now
                    (set_context_change_reason (Some reason) a));
              fail (AConflict (AdoptionBlocked (InputChanged reason)))
          else
            now ← clock_now;
            m_map_err map_adoption_commit_error
              (begin_analysis_adoption_locked hex_encode maintainer job by_ now)
      end
  end.
End service.
