(* ===== verification/ArbitrationRuns.v ===== *)
(** * Runs of arbitration

    Every locked section of the service, of the resolutions and of the event
    scheduler as a command; a run is any sequence of commands of any number
    of workers, requests and processes, each under its own faults.  A crash
    is a fault after which the worker sends no more commands. *)


From S2P Require Import Prelude Storage Claim Maintainer Guarantees ArbitrationTypes ArbitrationChecks.
From S2P Require Import ArbitrationStore Resolution Adoption ArbitrationContext Analysis.
Import Ids.

(** ** Events of resolutions (src/src/maintainer/arbitration/resolution_events.rs)

    A committed resolution is delivered, and its effect observed, by events
    whose durable trace is a file; a failing event backs off. *)

Inductive ResolutionEvent :=
| Deliver (target : ResolutionEventTarget)
| Refresh (target : ResolutionEventTarget)
| RecoverAdoption (job : AnalysisJob).

#[export] Instance ResolutionEvent_eq_dec : EqDecision ResolutionEvent.
Proof. solve_decision. Defined.

(** Delays in nanoseconds. *)
Definition RETRY_INITIAL_DELAY : Z := 1 * nanos_per_sec.
Definition RETRY_MAX_DELAY : Z := 30 * nanos_per_sec.

(** Delivering, and moving the source analysis on from adopting. *)
Definition process_delivery (target : ResolutionEventTarget) (now : DateTime) : AM unit :=
  _ ← recover_pending_delivery target;
  complete_analysis_adoption_after_delivery target now.

Definition delivery_backoff (retry_count : Z) : Z :=
  Z.min (RETRY_INITIAL_DELAY * Z.shiftl 1 (Z.min retry_count 5)) RETRY_MAX_DELAY.

Definition retried (p : PendingResolutionDelivery) (now : DateTime) : PendingResolutionDelivery :=
  {| prd_schema_version := prd_schema_version p; prd_target := prd_target p;
     prd_resolution_record := prd_resolution_record p; prd_created_at := prd_created_at p;
     prd_retry_count := sat_add u32_max (prd_retry_count p) 1;
     prd_next_retry_at := Some (now + delivery_backoff (prd_retry_count p))%Z |}.

(** A delivery whose file is gone is rebuilt from the current resolution:
    only the update of the analysis is left to do. *)
Definition rebuilt_delivery (target : ResolutionEventTarget) (r : ArbitrationResolutionRecord) :
    PendingResolutionDelivery :=
  {| prd_schema_version := ARBITRATION_SCHEMA_VERSION; prd_target := target;
     prd_resolution_record := Some r; prd_created_at := rr_created_at r; prd_retry_count := 0;
     prd_next_retry_at := None |}.

Definition retry_delivery (target : ResolutionEventTarget) (now : DateTime) : AM (option Z) :=
  found ← read_pending_delivery (ret_resolution_id target);
  pending ← match found with
            | Some p => mret (Some p)
            | None =>
                current ← read_current_resolution_record (ret_dispute_id target);
                mret (match current with
                      | Some r =>
                          if bool_decide (rr_resolution_id r = ret_resolution_id target)
                             && bool_decide (is_Some (rr_delivery_intent r))
                          then Some (rebuilt_delivery target r) else None
                      | None => None
                      end)
            end;
  match pending with
  | None => mret None
  | Some p =>
      _ ← write_pending_delivery (retried p now);
      mret (Some (delivery_backoff (prd_retry_count p)))
  end.

Definition persist_retry (event : ResolutionEvent) (now : DateTime) : AM (option Z) :=
  match event with
  | Refresh target => _ ← write_pending_observation target; mret (Some RETRY_INITIAL_DELAY)
  | Deliver target => retry_delivery target now
  | RecoverAdoption _ => mret (Some RETRY_INITIAL_DELAY)
  end.

Inductive arb_command :=
(* service.rs *)
| AReport (d : Dispute)
| ACreate (id : DisputeId)
| AStartRound (job : AnalysisJob)
| AWaitContext (job : AnalysisJob)
| ASaveContext (job : AnalysisJob) (b : BuiltArbitrationContext)
| AAcquire (job : AnalysisJob) (phase : AnalysisPhase)
| ASaveProposal (job : AnalysisJob) (token : string) (p : ArbitrationProposal)
| ASaveVerification (job : AnalysisJob) (token : string) (v : ArbitrationVerification)
| APreempt (job : AnalysisJob)
| AFail (job : AnalysisJob) (token code : string) (e : ArbError)
| AFailUnleased (job : AnalysisJob) (code : string) (e : ArbError)
| AAdoptCheck (job : AnalysisJob) (by_ : ResolvedBy)
| AAdoptCommit (job : AnalysisJob) (by_ : ResolvedBy) (current : Result ArbError BuiltArbitrationContext)
(* resolution.rs *)
| ARecoverAdoption (job : AnalysisJob) (now : DateTime)
| AResolve (id : DisputeId) (input : HumanResolutionInput) (now : DateTime)
| AReject (id : DisputeId) (input : RejectResolutionInput) (now : DateTime)
| ADeliver (target : ResolutionEventTarget)
| AComplete (target : ResolutionEventTarget) (now : DateTime)
(* resolution_events.rs *)
| ARetry (event : ResolutionEvent) (now : DateTime)
| AObserved (id : ArbitrationResolutionId)
(* maintainer.rs *)
| ATeam (fs : list bool) (c : command).

Section runs.
Context (hex_encode : list Z → string) (maintainer : Maintainer) (self : ArbitrationService).

(** What a command leaves, whatever it returns. *)
Definition arb_exec (step : list bool * arb_command) (w : ArbStore) : ArbStore :=
  let w0 := set_faults step.1 w in
  match step.2 with
  | AReport d => (report_dispute hex_encode self d w0).2
  | ACreate id => (create_analysis hex_encode self id w0).2
  | AStartRound job => (start_reanalysis_round job w0).2
  | AWaitContext job => (record_waiting_context job w0).2
  | ASaveContext job b => (save_prepared_context hex_encode self job b w0).2
  | AAcquire job phase => (acquire_phase hex_encode self job phase w0).2
  | ASaveProposal job token p => (save_proposal hex_encode self job token p w0).2
  | ASaveVerification job token v => (save_verification self job token v w0).2
  | APreempt job => (mark_analysis_preempted job w0).2
  | AFail job token code e => (finish_failed job token code e w0).2
  | AFailUnleased job code e => (finish_failed_without_lease job code e w0).2
  | AAdoptCheck job by_ => (adopt_check job by_ w0).2
  | AAdoptCommit job by_ current => (adopt_commit hex_encode maintainer self job by_ current w0).2
  | ARecoverAdoption job now => (recover_analysis_adoption job now w0).2
  | AResolve id input now => (resolve_human hex_encode maintainer id input now w0).2
  | AReject id input now => (reject_and_replace hex_encode maintainer id input now w0).2
  | ADeliver target => (recover_pending_delivery target w0).2
  | AComplete target now => (complete_analysis_adoption_after_delivery target now w0).2
  | ARetry event now => (persist_retry event now w0).2
  | AObserved id => (remove_pending_observation id w0).2
  | ATeam fs c => put_team (exec hex_encode maintainer (fs, c) (as_team w)) w
  end.

Definition arb_run (steps : list (list bool * arb_command)) (w : ArbStore) : ArbStore :=
  fold_left (λ w s, arb_exec s w) steps w.
End runs.
