(* ===== verification/ArbitrationDraws.v ===== *)
(** * The generator along the operations of arbitration

    Every operation only advances the generator of random names, whatever
    it returns. *)

From S2P Require Import Prelude Storage Claim Maintainer ArbitrationTypes ArbitrationChecks ArbitrationStore.
From S2P Require Import Resolution Adoption ArbitrationContext Analysis ArbitrationRuns.
Import Ids.

Definition tgrows (t t' : TeamStore) : Prop := ts_entropy t' = ts_entropy t ∧ ts_drawn t ≤ ts_drawn t'.
Definition grows (w w' : ArbStore) : Prop := tgrows (as_team w) (as_team w').

#[export] Instance tgrows_preorder : PreOrder tgrows.
Proof. split; [by split|]. intros t1 t2 t3 [] []. split; [congruence|lia]. Qed.
#[export] Instance grows_preorder : PreOrder grows.
Proof. split; [by intros w|]. intros w1 w2 w3. unfold grows. apply transitivity. Qed.
#[export] Instance tgrows_faults : FaultClosed tgrows.
Proof. by intros fs t. Qed.
#[export] Instance grows_faults : FaultClosed grows.
Proof. by intros fs w. Qed.

#[export] Instance tgrows_policies : DirClosed tgrows policies_dir.
Proof. by intros m t. Qed.
#[export] Instance tgrows_outbox : DirClosed tgrows outbox_dir.
Proof. by intros m t. Qed.
#[export] Instance tgrows_disputes : DirClosed tgrows disputes_dir.
Proof. by intros m t. Qed.

#[export] Instance grows_current : DirClosed grows current_dir.
Proof. by intros m w. Qed.
#[export] Instance grows_automatic : DirClosed grows automatic_dir.
Proof. by intros m w. Qed.
#[export] Instance grows_manual : DirClosed grows manual_dir.
Proof. by intros m w. Qed.
#[export] Instance grows_resolutions : DirClosed grows resolutions_dir.
Proof. by intros m w. Qed.
#[export] Instance grows_decisions : DirClosed grows decisions_dir.
Proof. by intros m w. Qed.
#[export] Instance grows_pending : DirClosed grows pending_dir.
Proof. by intros m w. Qed.
#[export] Instance grows_observe : DirClosed grows observe_dir.
Proof. by intros m w. Qed.
#[export] Instance grows_policy_index : DirClosed grows policy_index_dir.
Proof. by intros m w. Qed.
#[export] Instance grows_inbox_index : DirClosed grows inbox_index_dir.
Proof. by intros m w. Qed.
#[export] Instance grows_claim_index : DirClosed grows claim_index_dir.
Proof. by intros m w. Qed.

Lemma grows_modify f : (∀ w, grows w (f w)) → preserves (E:=ArbError) grows (modify f).
Proof. intros Hf w r w' [= _ <-]. apply Hf. Qed.

Lemma team_grows {A} (m : MM A) : preserves tgrows m → preserves grows (team m).
Proof.
  intros Hm w r w'. unfold team. destruct (m (as_team w)) as [r0 t] eqn:Em. intros [= _ <-]. exact (Hm _ _ _ Em).
Qed.

Lemma clock_grows : preserves grows clock_now.
Proof. by intros w r w' [= _ <-]. Qed.

#[export] Hint Resolve team_grows clock_grows preserves_io preserves_io_step preserves_read preserves_list
  preserves_get preserves_write preserves_m_try preserves_m_map_err grows_preorder grows_faults
  tgrows_preorder tgrows_faults preserves_mint : acn.

Lemma read_optional_grows {A} (d : Dir ArbStore A) key : preserves grows (read_optional d key).
Proof.
  unfold read_optional. apply preserves_bind; [apply _|auto with acn typeclass_instances|].
  intros [a|[[]| | | | | | | |]]; auto with acn typeclass_instances.
Qed.

Lemma remove_grows {A} (d : Dir ArbStore A) `{!DirClosed grows d} key : preserves grows (remove_file d key).
Proof.
  unfold remove_file. apply preserves_bind; [apply _|apply preserves_io; apply _|intros _].
  apply grows_modify. intros w. apply dir_closed.
Qed.
#[export] Hint Resolve read_optional_grows remove_grows : acn.

Section draws.
Context (hex_encode : list Z → string) (self : Maintainer).

Lemma draw_id_grows prefix : preserves tgrows (draw_id hex_encode prefix).
Proof. intros t r t' [= _ <-]. split; simpl; [done|lia]. Qed.

Lemma read_current_grows id : preserves grows (read_current_analysis id).
Proof. unfold read_current_analysis. solve_preserves. Qed.

Lemma read_analysis_grows job : preserves grows (read_analysis job).
Proof. unfold read_analysis. pose proof read_current_grows. solve_preserves. Qed.

Lemma read_dispute_grows id : preserves grows (read_dispute id).
Proof. apply team_grows. unfold Maintainer.read_dispute. solve_preserves. Qed.

Lemma write_dispute_grows d : preserves grows (write_dispute d).
Proof. apply team_grows. unfold Maintainer.write_dispute. solve_preserves. Qed.

Lemma write_analysis_grows a : preserves grows (write_analysis a).
Proof. unfold write_analysis, check. solve_preserves. Qed.

Lemma write_record_grows r : preserves grows (write_resolution_record r).
Proof. unfold write_resolution_record. solve_preserves. Qed.

Lemma read_record_grows id rid : preserves grows (read_resolution_record id rid).
Proof.
  unfold read_resolution_record. apply preserves_bind; [apply _|apply read_optional_grows|intros stored].
  apply preserves_bind; [apply _| |intros r; case_bool_decide; auto with acn typeclass_instances].
  destruct stored; auto with acn typeclass_instances.
Qed.
End draws.
#[export] Hint Resolve draw_id_grows read_current_grows read_analysis_grows read_dispute_grows write_dispute_grows
  write_analysis_grows write_record_grows read_record_grows : acn.

Section deliveries.
Lemma policy_grows p : preserves grows (ensure_policy p).
Proof. unfold ensure_policy, is_zero_length. solve_preserves. Qed.

Lemma entry_grows e : preserves grows (ensure_outbox_entry e).
Proof. unfold ensure_outbox_entry, is_zero_length, outbox_write. solve_preserves. Qed.

Lemma register_grows r : preserves grows (register_resolution_event_targets r).
Proof. unfold register_resolution_event_targets. solve_preserves. Qed.

Lemma history_grows r : preserves grows (ensure_resolution_history r).
Proof.
  unfold ensure_resolution_history, ensure_policy_event, ensure_dispute_resolution_event.
  assert (∀ f : ArbStore → list PolicyEventRecord, preserves (E:=ArbError) grows (modify (λ w, put_policy_events (f w) w)))
    by (intros; by apply grows_modify).
  assert (∀ f : ArbStore → list DisputeResolutionEventRecord, preserves (E:=ArbError) grows (modify (λ w, put_resolution_events (f w) w)))
    by (intros; by apply grows_modify).
  solve_preserves.
Qed.

Lemma delivery_grows r : preserves grows (ensure_delivery r).
Proof.
  pose proof policy_grows. pose proof entry_grows. pose proof register_grows. pose proof history_grows.
  unfold ensure_delivery, write_pending_observation, remove_pending_delivery, lock_outbox_file. solve_preserves.
Qed.

Lemma persist_grows r now : preserves grows (persist_pending_delivery r now).
Proof. unfold persist_pending_delivery, read_pending_delivery, write_pending_delivery. solve_preserves. Qed.

Lemma preempt_grows id now : preserves grows (preempt_current_analysis_locked id now).
Proof. unfold preempt_current_analysis_locked. solve_preserves. apply preserves_m_try. solve_preserves. Qed.
End deliveries.
#[export] Hint Resolve delivery_grows persist_grows preempt_grows : acn.

Lemma recover_human_grows id d : preserves grows (recover_human_resolution_locked id d).
Proof.
  unfold recover_human_resolution_locked, read_current_resolution_record, list_pending_deliveries, list_records.
  solve_preserves.
Qed.
#[export] Hint Resolve recover_human_grows : acn.

Lemma try_delivery_grows r : preserves grows (try_delivery r).
Proof. unfold try_delivery. solve_preserves. Qed.
#[export] Hint Resolve try_delivery_grows : acn.

Section flows.
Context (hex_encode : list Z → string) (self : Maintainer).

Lemma mint_grows id : preserves grows (mint_resolution_id hex_encode self id).
Proof.
  unfold mint_resolution_id. generalize (Nat.max (id_mint_max_attempts self) 1) as n.
  induction n as [|n IH]; simpl; unfold draw, resolution_id_exists, read_current_resolution_record; solve_preserves.
Qed.

Lemma mint_action_grows : preserves grows (mint_action_id hex_encode self).
Proof.
  unfold mint_action_id, outbox_list, list_disputes.
  assert (Hu : ∀ l, preserves grows (used_actions l)).
  { induction l as [|d l IH]; simpl; unfold read_current_resolution_record; solve_preserves. }
  assert (Hm : ∀ used n, preserves grows (mint_action_ids hex_encode used n)).
  { intros used n. induction n as [|n IH]; simpl; unfold draw; solve_preserves. }
  solve_preserves.
Qed.

Lemma targets_grows kind agents : preserves grows (intent_targets hex_encode self kind agents).
Proof. induction agents as [|a agents IH]; simpl; unfold mint_inbox_id_for_outbox; solve_preserves. Qed.
End flows.
#[export] Hint Resolve mint_grows mint_action_grows targets_grows : acn.

Section operations.
Context (hex_encode : list Z → string) (self : Maintainer).

Lemma build_grows d snapshots r dc now : preserves grows (build_delivery_intent hex_encode self d snapshots r dc now).
Proof. unfold build_delivery_intent, lock_outbox_file, mint_policy_id. solve_preserves. Qed.

Lemma snapshots_grows ids : preserves grows (load_direct_snapshots ids).
Proof.
  unfold load_direct_snapshots, load_team_claims. solve_preserves. apply team_grows. solve_preserves.
Qed.

Lemma commit_human_grows r d now : preserves grows (commit_human r d now).
Proof. unfold commit_human. solve_preserves. Qed.

Lemma finish_grows a d r now : preserves grows (finish_analysis_adoption_locked a d r now).
Proof. unfold finish_analysis_adoption_locked. solve_preserves. Qed.
End operations.
#[export] Hint Resolve build_grows snapshots_grows commit_human_grows finish_grows : acn.

Lemma fixed_grows job a : preserves grows (fixed_analysis_resolution job a).
Proof. unfold fixed_analysis_resolution. solve_preserves. Qed.
#[export] Hint Resolve fixed_grows : acn.

Lemma find_owner_grows id : preserves grows (find_human_analysis_adoption_owner id).
Proof. unfold find_human_analysis_adoption_owner. solve_preserves. Qed.

Lemma commit_or_yield_grows job a r now : preserves grows (commit_or_yield job a r now).
Proof. unfold commit_or_yield. solve_preserves. Qed.
#[export] Hint Resolve find_owner_grows commit_or_yield_grows : acn.
