(* ===== verification/Commitments.v ===== *)
(** * What a committed resolution guarantees: state and primitive steps

    The invariant ties a dispute's resolution to its record and says that
    the record is pending or delivered; the step says what no operation
    takes back.  This file has the invariant and the rules of the
    primitive writes; CommitmentSteps.v follows the operations. *)

From S2P Require Import Prelude Storage Claim Maintainer Ledger Delivery StepLogic ArbitrationTypes.
From S2P Require Import ArbitrationChecks ArbitrationStore Resolution Adoption ArbitrationDraws.
Import Ids.

Definition disp (w : ArbStore) := ts_disputes (as_team w).

Definition at_dispute (k : DisputeId) (d : MaintainerDisputeRecord) (w : ArbStore) : Prop :=
  disp w !! k = Some (Stored d).

(** The resolution with this id is the dispute's. *)
Definition current_id (k : DisputeId) (id : ArbitrationResolutionId) (w : ArbStore) : Prop :=
  ∃ d c, at_dispute k d w ∧ mdr_resolution d = Some c ∧ dr_resolution_id c = id.

Definition pending_record (r : ArbitrationResolutionRecord) (w : ArbStore) : Prop :=
  ∃ p, as_pending w !! rr_resolution_id r = Some (Stored p) ∧ prd_resolution_record p = Some r.

Definition analysis_file (k : DisputeId) (a : ArbitrationAnalysis) (w : ArbStore) : Prop :=
  as_current w !! k = Some (Stored a) ∨ as_legacy_automatic w !! k = Some (Stored a)
  ∨ as_legacy_manual w !! k = Some (Stored a).

(** Where a resolution record can be found. *)
Definition occurs (r : ArbitrationResolutionRecord) (w : ArbStore) : Prop :=
  pending_record r w ∨ (∃ k, as_resolutions w !! k = Some (Stored r))
  ∨ (∃ k, as_decisions w !! k = Some (Stored r))
  ∨ (∃ k a, analysis_file k a w ∧ an_pending_resolution a = Some r).

(** ** Delivery *)

Definition sent_entry (e : OutboxEntry) (w : ArbStore) : Prop :=
  ∃ e', ts_outbox (as_team w) !! ob_inbox_id e = Some (Stored e') ∧ same_payload e' e = true.

(** Every holder's message is in the outbox, the policy is published and the
    history records both. *)
Record delivered (r : ArbitrationResolutionRecord) (w : ArbStore) : Prop := {
  del_entries i t : rr_delivery_intent r = Some i → t ∈ di_targets i → sent_entry (intent_entry r i t) w;
  del_policy i : rr_delivery_intent r = Some i →
    ∃ p, ts_policies (as_team w) !! policy_id (di_policy i) = Some (Stored p);
  del_policy_event i : rr_delivery_intent r = Some i →
    per_event_id (policy_event r i) ∈ per_event_id <$> as_policy_events w;
  del_event : ("resolution:" +:+ rr_resolution_id r) ∈ dre_event_id <$> as_resolution_events w;
}.

(** ** What is never taken back *)

Definition resolution_le (o o' : option DisputeResolution) : Prop :=
  match o with
  | None => True
  | Some c => o' = Some c ∨
      (dr_resolved_by c = Automatic ∧ ∃ c', o' = Some c' ∧ dr_resolved_by c' = Human ∧ is_Some (dr_rejection_reason c'))
  end.

Record dispute_le (d d' : MaintainerDisputeRecord) : Prop := {
  dle_report : same_report_payload (mdr_dispute d) (mdr_dispute d') = true;
  dle_resolved : dispute_status (mdr_dispute d) = DisputeResolved → dispute_status (mdr_dispute d') = DisputeResolved;
  dle_resolution : resolution_le (mdr_resolution d) (mdr_resolution d');
}.

Definition disputes_le (m m' : gmap string (file MaintainerDisputeRecord)) : Prop :=
  ∀ k d, m !! k = Some (Stored d) → ∃ d', m' !! k = Some (Stored d') ∧ dispute_le d d'.

Lemma same_report_true d d' : same_report_payload d d' = true ↔
  dispute_id d = dispute_id d' ∧ dispute_name d = dispute_name d' ∧
  dispute_reporter_agent_id d = dispute_reporter_agent_id d' ∧ dispute_claims d = dispute_claims d' ∧
  dispute_summary d = dispute_summary d' ∧ dispute_created_at d = dispute_created_at d'.
Proof. unfold same_report_payload. rewrite !andb_true_iff, !bool_decide_eq_true. tauto. Qed.

#[export] Instance dispute_le_preorder : PreOrder dispute_le.
Proof.
  split.
  - intros d. split; [by apply same_report_true|done|]. unfold resolution_le. destruct (mdr_resolution d); auto.
  - intros d1 d2 d3 [H1 H2 H3] [H4 H5 H6]. split; [|auto|].
    + apply same_report_true in H1, H4. apply same_report_true. intuition congruence.
    + unfold resolution_le in *. destruct (mdr_resolution d1) as [c|]; [|done].
      destruct H3 as [H3|(Ha & c' & H3 & Hh & Hr)]; rewrite H3 in H6; [done|].
      right. split; [done|]. destruct H6 as [H6|(? & _)]; [eauto|congruence].
Qed.

#[export] Instance disputes_le_preorder : PreOrder disputes_le.
Proof.
  split; [intros m k d Hd; by exists d|]. intros m1 m2 m3 H1 H2 k d Hd.
  apply H1 in Hd as (d' & Hd & ?). apply H2 in Hd as (d'' & Hd & ?). exists d''. split; [done|by etrans].
Qed.

Section commitments.
Context (hex_encode : list Z → string).

Definition resolution_id_of (t : TeamStore) (n : nat) : ArbitrationResolutionId :=
  prefixed_random hex_encode resolution_prefix (ts_entropy t n).

(** The id was drawn. *)
Definition known (id : ArbitrationResolutionId) (w : ArbStore) : Prop :=
  ∃ n, n < ts_drawn (as_team w) ∧ id = resolution_id_of (as_team w) n.

(** What an operation on the team store may do, apart from the disputes. *)
Record tstep (t t' : TeamStore) : Prop := {
  ts_inv : store_inv hex_encode t → store_inv hex_encode t' ∧ ledger_le (ts_outbox t) (ts_outbox t');
  ts_stay k p : ts_policies t !! k = Some (Stored p) → ∃ p', ts_policies t' !! k = Some (Stored p');
  ts_same_entropy : ts_entropy t' = ts_entropy t;
  ts_drawn_le : ts_drawn t ≤ ts_drawn t';
}.

#[export] Instance tstep_preorder : PreOrder tstep.
Proof.
  split; [intros t; split; [done|eauto|done|done]|].
  intros t1 t2 t3 [H1 H2 H3 H4] [H5 H6 H7 H8]. split; [|intros k p (p' & H)%H2; eauto|congruence|lia].
  intros (H9 & H10)%H1. apply H5 in H9 as (? & ?). split; [done|by etrans].
Qed.

(** No id was drawn twice so far. *)
Definition distinct (w : ArbStore) : Prop :=
  NoDup (resolution_id_of (as_team w) <$> seq 0 (ts_drawn (as_team w))).

Lemma distinct_grows w w' : grows w w' → distinct w' → distinct w.
Proof.
  unfold grows, distinct, resolution_id_of. intros [-> Hd] Hn.
  eapply sublist_NoDup; [exact Hn|].
  replace (ts_drawn (as_team w')) with (ts_drawn (as_team w) + (ts_drawn (as_team w') - ts_drawn (as_team w))) by lia.
  rewrite seq_app, fmap_app. by apply sublist_inserts_r.
Qed.

Lemma distinct_inj w i j : distinct w → i < ts_drawn (as_team w) → j < ts_drawn (as_team w) →
  resolution_id_of (as_team w) i = resolution_id_of (as_team w) j → i = j.
Proof.
  intros Hn Hi Hj He. unfold distinct in Hn. eapply NoDup_lookup; [exact Hn| |].
  - by rewrite list_lookup_fmap, lookup_seq_lt.
  - rewrite list_lookup_fmap, lookup_seq_lt by done. simpl. by rewrite He.
Qed.

Record dstep (w w' : ArbStore) : Prop := {
  ds_disputes : disputes_le (disp w) (disp w');
  ds_team : tstep (as_team w) (as_team w');
  ds_policy_events : as_policy_events w ⊆ as_policy_events w';
  ds_events : as_resolution_events w ⊆ as_resolution_events w';
}.

#[export] Instance dstep_preorder : PreOrder dstep.
Proof.
  split; [intros w; split; [done|done|set_solver|set_solver]|].
  intros w1 w2 w3 [H1 H2 H3 H4] [H5 H6 H7 H8]. split; [by etrans|by etrans|set_solver|set_solver].
Qed.

(** ** The invariant *)

(** Each holder has a message of its own. *)
Definition intent_ok (i : DeliveryIntent) : Prop :=
  Forall (λ t, msg_id (dti_inbox_message t) = dti_inbox_id t) (di_targets i) ∧ NoDup (dti_inbox_id <$> di_targets i).

Record record_ok (r : ArbitrationResolutionRecord) : Prop := {
  rok_schema : rr_schema_version r = ARBITRATION_SCHEMA_VERSION;
  rok_id : rr_resolution_id r = dr_resolution_id (rr_resolution r);
  rok_targets i : rr_delivery_intent r = Some i → intent_ok i;
}.

Definition slot_ok (k : string) (p : PendingResolutionDelivery) : Prop :=
  ret_resolution_id (prd_target p) = k ∧ ∀ r, prd_resolution_record p = Some r → record_target r = prd_target p.

Record dinv (w : ArbStore) : Prop := {
  di_team : store_inv hex_encode (as_team w);
  di_occurs r : occurs r w → known (rr_resolution_id r) w ∧ record_ok r;
  di_agree r r' : occurs r w → occurs r' w → rr_resolution_id r = rr_resolution_id r' → r = r';
  di_disputes k d : at_dispute k d w → dispute_id (mdr_dispute d) = k;
  di_modern k d : at_dispute k d w →
    dispute_status (mdr_dispute d) = DisputeResolved ↔ is_Some (mdr_resolution d);
  di_resolutions k r : as_resolutions w !! k = Some (Stored r) → rr_dispute_id r = k;
  di_pending k p : as_pending w !! k = Some (Stored p) → slot_ok k p;
  di_analyses k a : analysis_file k a w →
    an_dispute_id a = k ∧ ∀ r, an_pending_resolution a = Some r → rr_dispute_id r = k;
  (* a dispute's resolution has a record that is pending or delivered *)
  di_committed k d c : at_dispute k d w → mdr_resolution d = Some c →
    ∃ r, rr_resolution r = c ∧ rr_resolution_id r = dr_resolution_id c ∧ rr_dispute_id r = k
      ∧ (pending_record r w ∨ delivered r w);
  (* a stored record is the dispute's, or pending and able to become it *)
  di_stored k r : as_resolutions w !! k = Some (Stored r) →
    current_id k (rr_resolution_id r) w
    ∨ (pending_record r w ∧ ∀ d, at_dispute k d w → can_recover_commit r d = true);
  di_decisions k id r : as_decisions w !! nested k id = Some (Stored r) → rr_resolution_id r = id → rr_dispute_id r = k;
  di_readable k : as_resolutions w !! k ≠ Some Reserved;
  (* the id of a dispute's resolution is the id of no other record *)
  di_exact k d c : at_dispute k d w → mdr_resolution d = Some c →
    known (dr_resolution_id c) w ∧ ∀ r, occurs r w → rr_resolution_id r = dr_resolution_id c → rr_resolution r = c;
}.

Definition unused (id : ArbitrationResolutionId) (w : ArbStore) : Prop :=
  (∀ r, occurs r w → rr_resolution_id r ≠ id) ∧
  ∀ k d c, at_dispute k d w → mdr_resolution d = Some c → dr_resolution_id c ≠ id.

(** A record that may be written: one that occurs, or one with a new id. *)
Record introducible (r : ArbitrationResolutionRecord) (w : ArbStore) : Prop := {
  int_known : known (rr_resolution_id r) w;
  int_ok : record_ok r;
  int_new : occurs r w ∨ unused (rr_resolution_id r) w;
}.

(** ** Frames

    [frame cur res pen]: the disputes stay; the current analyses, the
    resolution records and the pending deliveries stay unless the flag
    says otherwise. *)
Record frame (cur res pen : bool) (w w' : ArbStore) : Prop := {
  fr_disp : disp w' = disp w;
  fr_team : tstep (as_team w) (as_team w');
  fr_policy_events : as_policy_events w ⊆ as_policy_events w';
  fr_events : as_resolution_events w ⊆ as_resolution_events w';
  fr_cur : cur = false → as_current w' = as_current w;
  fr_automatic : as_legacy_automatic w' = as_legacy_automatic w;
  fr_manual : as_legacy_manual w' = as_legacy_manual w;
  fr_decisions : as_decisions w' = as_decisions w;
  fr_res : res = false → as_resolutions w' = as_resolutions w;
  fr_pen : pen = false → as_pending w' = as_pending w;
}.

Abbreviation aside := (frame false false false).

#[export] Instance frame_preorder cur res pen : PreOrder (frame cur res pen).
Proof.
  split; [intros w; split; try done; set_solver|].
  intros w1 w2 w3 [] []. split; try congruence; [by etrans|set_solver|set_solver| | |];
    intros Hf; repeat match goal with H : _ = false → _ |- _ => specialize (H Hf) end; congruence.
Qed.

Lemma frame_weaken cur res pen w w' : aside w w' → frame cur res pen w w'.
Proof. intros []. split; auto. Qed.

Lemma frame_grows cur res pen w w' : frame cur res pen w w' → grows w w'.
Proof. intros []. by destruct fr_team0. Qed.

Lemma frame_dstep cur res pen w w' : frame cur res pen w w' → dstep w w'.
Proof. intros []. split; [by rewrite fr_disp0|done..]. Qed.

#[export] Instance frame_faults cur res pen : FaultClosed (frame cur res pen).
Proof.
  intros fs w. split; try done; [|set_solver..]. simpl. split; [|eauto|done|done].
  intros Hi. split; [|done]. exact Hi.
Qed.

(** ** What survives *)

Lemma sent_entry_step e w w' :
  store_inv hex_encode (as_team w) → dstep w w' → sent_entry e w → sent_entry e w'.
Proof.
  intros Hi Hs (e1 & H1 & Hp). destruct (ts_inv _ _ (ds_team _ _ Hs) Hi) as [_ Hl].
  destruct (Hl _ _ H1) as (e2 & H2 & [Hc _ _]). exists e2. split; [done|].
  unfold entry_core in Hc. injection Hc as Hc1 Hc2 Hc3 Hc4 Hc5 Hc6.
  unfold same_payload in *. by rewrite Hc1, Hc2, Hc3, Hc4, Hc6.
Qed.

Lemma delivered_step r w w' :
  store_inv hex_encode (as_team w) → dstep w w' → delivered r w → delivered r w'.
Proof.
  intros Hi Hs [H1 H2 H3 H4]. split.
  - intros i t Hr Ht. by eapply sent_entry_step, H1.
  - intros i (p & Hp)%H2. by eapply ts_stay in Hp; [|by apply Hs].
  - intros i (x & Hx & Hin)%H3%list_elem_of_fmap. apply list_elem_of_fmap. exists x. split; [done|].
    by apply Hs.
  - apply list_elem_of_fmap in H4 as (x & Hx & Hin). apply list_elem_of_fmap. exists x. split; [done|].
    by apply Hs.
Qed.

Lemma resolution_id_step w w' n : dstep w w' →
  resolution_id_of (as_team w') n = resolution_id_of (as_team w) n.
Proof. intros Hs. unfold resolution_id_of. by rewrite (ts_same_entropy _ _ (ds_team _ _ Hs)). Qed.

Lemma known_step id w w' : dstep w w' → known id w → known id w'.
Proof.
  intros Hs (n & Hn & ->). exists n. split.
  - pose proof (ts_drawn_le _ _ (ds_team _ _ Hs)). lia.
  - by rewrite (resolution_id_step w w').
Qed.

Lemma current_id_disp k id w w' : disp w' = disp w → current_id k id w → current_id k id w'.
Proof. unfold current_id, at_dispute. by intros ->. Qed.

Lemma pending_record_eq r w w' : as_pending w' = as_pending w → pending_record r w → pending_record r w'.
Proof. unfold pending_record. by intros ->. Qed.

(** A frame that keeps the records of the pending deliveries. *)
Lemma dinv_pending w w' : frame false false true w w' → (∀ r, pending_record r w' ↔ pending_record r w) →
  (∀ k p, as_pending w' !! k = Some (Stored p) → slot_ok k p) → dinv w → dinv w'.
Proof.
  intros Hf Hp Hok [H1 H3 H4 H5 H6 H7 H8 H9 H10 H11 H12 H13 H14]. pose proof (frame_dstep _ _ _ _ _ Hf) as Hs.
  assert (Hd : disp w' = disp w) by apply Hf.
  assert (Hr : as_resolutions w' = as_resolutions w) by by apply Hf.
  assert (Hc : as_current w' = as_current w) by by apply Hf.
  assert (Ha : ∀ k a, analysis_file k a w' ↔ analysis_file k a w).
  { intros k a. unfold analysis_file. by rewrite Hc, (fr_automatic _ _ _ _ _ Hf), (fr_manual _ _ _ _ _ Hf). }
  assert (Ho : ∀ r, occurs r w' ↔ occurs r w).
  { intros r. unfold occurs. rewrite Hr, (fr_decisions _ _ _ _ _ Hf), Hp. by setoid_rewrite Ha. }
  split.
  - by apply (fr_team _ _ _ _ _ Hf).
  - intros r Hor. apply Ho in Hor. destruct (H3 _ Hor). split; [by eapply known_step|done].
  - intros r r' Hor Hor'. apply Ho in Hor, Hor'. by apply H4.
  - intros k d. unfold at_dispute. rewrite Hd. apply H5.
  - intros k d. unfold at_dispute. rewrite Hd. apply H6.
  - intros k r. rewrite Hr. apply H7.
  - exact Hok.
  - intros k a. rewrite Ha. apply H9.
  - intros k d c. unfold at_dispute. rewrite Hd. intros Hk Hc'.
    destruct (H10 _ _ _ Hk Hc') as (r & ? & ? & ? & Hor). exists r. split_and!; [done..|].
    destruct Hor as [Hor|Hor]; [left; by apply Hp|right; by eapply delivered_step].
  - intros k r. rewrite Hr. intros Hk. destruct (H11 _ _ Hk) as [?|[? Hcan]].
    + left. by eapply current_id_disp.
    + right. split; [by apply Hp|]. intros d. unfold at_dispute. rewrite Hd. apply Hcan.
  - intros k id r. rewrite (fr_decisions _ _ _ _ _ Hf). apply H12.
  - intros k. rewrite Hr. apply H13.
  - intros k d c. unfold at_dispute. rewrite Hd. intros Hk Hc'. destruct (H14 k d c Hk Hc') as [? He].
    split; [by eapply known_step|]. intros r Hor. apply Ho in Hor. auto.
Qed.

(** A frame that writes no record keeps the invariant. *)
Lemma dinv_aside w w' : aside w w' → dinv w → dinv w'.
Proof.
  intros Hf Hi. assert (Hp : as_pending w' = as_pending w) by by apply Hf.
  apply dinv_pending with w; [|intros r; unfold pending_record; by rewrite Hp|rewrite Hp; apply Hi|done].
  destruct Hf. by split.
Qed.

(** ** Facts that a frame keeps *)

Class Keeps (cur res pen : bool) (K : ArbStore → Prop) : Prop :=
  keeps w w' : dinv w → frame cur res pen w w' → K w → K w'.

#[export] Instance keeps_const cur res pen (P : Prop) : Keeps cur res pen (λ _, P).
Proof. by intros w w' _ _. Qed.
#[export] Instance keeps_and cur res pen K L :
  Keeps cur res pen K → Keeps cur res pen L → Keeps cur res pen (λ w, K w ∧ L w).
Proof. intros HK HL w w' Hi Hf [Hk Hl]. split; [exact (HK _ _ Hi Hf Hk)|exact (HL _ _ Hi Hf Hl)]. Qed.
#[export] Instance keeps_at_dispute cur res pen k d : Keeps cur res pen (at_dispute k d).
Proof. intros w w' _ Hf. unfold at_dispute. by rewrite (fr_disp _ _ _ _ _ Hf). Qed.
#[export] Instance keeps_current_id cur res pen k id : Keeps cur res pen (current_id k id).
Proof. intros w w' _ Hf. apply current_id_disp, Hf. Qed.
#[export] Instance keeps_pending cur res r : Keeps cur res false (pending_record r).
Proof. intros w w' _ Hf. by apply pending_record_eq, Hf. Qed.
#[export] Instance keeps_known cur res pen id : Keeps cur res pen (known id).
Proof. intros w w' _ Hf. by eapply known_step, frame_dstep. Qed.
#[export] Instance keeps_delivered cur res pen r : Keeps cur res pen (delivered r).
Proof. intros w w' Hi Hf. eapply delivered_step; [by apply Hi|by eapply frame_dstep]. Qed.
#[export] Instance keeps_sent cur res pen e : Keeps cur res pen (sent_entry e).
Proof. intros w w' Hi Hf. eapply sent_entry_step; [by apply Hi|by eapply frame_dstep]. Qed.
#[export] Instance keeps_file k a : Keeps false true true (analysis_file k a).
Proof.
  intros w w' _ Hf. unfold analysis_file.
  by rewrite (fr_cur _ _ _ _ _ Hf eq_refl), (fr_automatic _ _ _ _ _ Hf), (fr_manual _ _ _ _ _ Hf).
Qed.
#[export] Instance keeps_aside cur res pen K : Keeps cur res pen K → Keeps false false false K | 100.
Proof. intros HK w w' Hi Hf. apply HK; [done|by apply frame_weaken]. Qed.
#[export] Instance keeps_occurs r : Keeps false false false (occurs r).
Proof.
  intros w w' Hi Hf. unfold occurs. intros [Hp|[[k Hr]|[[k Hd]|(k & a & Hk & Ha)]]].
  - left. by apply (keeps_pending false false r w).
  - right; left. exists k. by rewrite (fr_res _ _ _ _ _ Hf).
  - right; right; left. exists k. by rewrite (fr_decisions _ _ _ _ _ Hf).
  - do 3 right. exists k, a. split; [|done]. unfold analysis_file in *.
    by rewrite (fr_cur _ _ _ _ _ Hf), (fr_automatic _ _ _ _ _ Hf), (fr_manual _ _ _ _ _ Hf).
Qed.

Lemma occurs_aside r w w' : aside w w' → occurs r w' → occurs r w.
Proof.
  intros Hf. unfold occurs, pending_record, analysis_file.
  by rewrite (fr_pen _ _ _ _ _ Hf), (fr_res _ _ _ _ _ Hf), (fr_decisions _ _ _ _ _ Hf),
    (fr_cur _ _ _ _ _ Hf), (fr_automatic _ _ _ _ _ Hf), (fr_manual _ _ _ _ _ Hf).
Qed.

#[export] Instance keeps_unused id : Keeps false false false (unused id).
Proof.
  intros w w' _ Hf [Hu Hd]. split; [intros r Hr; apply Hu; by eapply occurs_aside|].
  intros k d c. unfold at_dispute. rewrite (fr_disp _ _ _ _ _ Hf). apply Hd.
Qed.

#[export] Instance keeps_introducible r : Keeps false false false (introducible r).
Proof.
  intros w w' Hi Hf [H1 H2 H3]. split; [by eapply known_step, H1; eapply frame_dstep|done|].
  destruct H3 as [H3|H3]; [left; by eapply keeps_occurs|right; by eapply keeps_unused].
Qed.
End commitments.
