(* ===== verification/CommitmentWrites.v ===== *)
(** * Rules for the primitive operations of arbitration

    Which operations leave analyses, records and deliveries alone, what the
    reads tell, and what each write needs to keep the invariant. *)

From S2P Require Import Prelude Storage Claim Maintainer Ledger Delivery StepLogic ArbitrationTypes.
From S2P Require Import ArbitrationChecks ArbitrationStore Resolution Adoption ArbitrationDraws Commitments.
Import Ids.

Section writes.
Context (hex_encode : list Z → string) (self : Maintainer).

Abbreviation dinv := (dinv hex_encode).
Abbreviation dstep := (dstep hex_encode).
Abbreviation frame := (frame hex_encode).
Abbreviation aside := (frame false false false).
Abbreviation Keeps := (Keeps hex_encode).
Abbreviation T := (guarded dinv dstep grows (distinct hex_encode)).

(** ** The team store *)

(** A step of the team store that leaves the disputes. *)
Definition tquiet (t t' : TeamStore) : Prop := tstep hex_encode t t' ∧ ts_disputes t' = ts_disputes t.

#[export] Instance tquiet_preorder : PreOrder tquiet.
Proof.
  split; [by split|]. intros t1 t2 t3 [H1 H2] [H3 H4]. split; [by etrans|congruence].
Qed.

#[export] Instance tquiet_faults : FaultClosed tquiet.
Proof. intros fs t. split; [|done]. split; [|eauto|done|done]. intros Hi. split; [exact Hi|done]. Qed.

Lemma draw_tquiet prefix : preserves tquiet (draw_id hex_encode prefix).
Proof.
  intros t r t' [= _ <-]. split; [|done]. split; [|eauto|done|simpl; lia].
  intros Hi. split; [exact Hi|done].
Qed.

Lemma draw_step prefix t r t' : draw_id hex_encode prefix t = (r, t') →
  r = Ok (prefixed_random hex_encode prefix (ts_entropy t (ts_drawn t))) ∧ t' = bump_drawn t.
Proof. by intros [= <- <-]. Qed.

(** Minting touches its own directory only. *)
Lemma mint_rest {A} (d : Dir TeamStore A) `{!DirLaws d} prefix n t r t' :
  (∀ m t, ts_entropy (dir_set d m t) = ts_entropy t ∧ ts_drawn (dir_set d m t) = ts_drawn t
    ∧ ts_disputes (dir_set d m t) = ts_disputes t) →
  (∀ t, dir_get d (bump_drawn t) = dir_get d t) →
  mint_unique_id_in_dir d (draw_id hex_encode prefix) n t = (r, t') →
  (ts_entropy t' = ts_entropy t ∧ ts_drawn t ≤ ts_drawn t' ∧ ts_disputes t' = ts_disputes t) ∧
  ((∃ c, dir_get d t !! c = None ∧ dir_get d t' = <[c := Reserved]> (dir_get d t)) ∨ dir_get d t' = dir_get d t).
Proof.
  intros Hset Hbump Hm.
  eapply (mint_inv d _ n (λ v, ts_entropy v = ts_entropy t ∧ ts_drawn t ≤ ts_drawn v ∧ ts_disputes v = ts_disputes t)
    (λ _, True)) in Hm as [HI Hm]; [| |done| |done].
  - split; [done|]. destruct Hm as [(c & _ & _ & Hn & Hs)|[_ Hs]]; eauto.
  - intros v r0 v' (He & Hd & Hq) [-> ->]%draw_step. split_and!; [apply Hbump|done|simpl; lia|done|done].
  - intros m v (He & Hd & Hq). destruct (Hset m v) as (-> & -> & ->). done.
Qed.

Lemma mint_policy_tquiet : preserves tquiet (mint_policy_id hex_encode self).
Proof.
  intros t r t' Hm. pose proof (mint_policy_moves hex_encode self _ _ _ Hm) as Hmv.
  apply (mint_rest policies_dir) in Hm as [(He & Hd & Hq) Hp]; [|done|done]. split; [|done].
  split; [|intros k p Hk|done|done].
  - intros [Ho Hi]%Hmv. split; [done|by apply outbox_run_le].
  - simpl in Hp. destruct Hp as [(c & Hn & ->)| ->]; [|eauto]. exists p.
    rewrite lookup_insert_ne; [done|congruence].
Qed.

Lemma mint_inbox_tquiet : preserves tquiet (mint_inbox_id_for_outbox hex_encode self).
Proof.
  intros t r t' Hm. assert (Hpol : ts_policies t' = ts_policies t).
  { assert (Hpr : preserves (same_dir policies_dir) (mint_inbox_id_for_outbox hex_encode self)).
    { apply preserves_mint; [apply _..|]. by intros w r0 w' [= _ <-]. }
    by apply Hpr in Hm. }
  pose proof (λ Hi, mint_inbox_moves hex_encode self _ _ _ Hm Hi) as Hmv.
  apply (mint_rest outbox_dir) in Hm as [(He & Hd & Hq) Hp]; [|done|done]. split; [|done].
  split; [|intros k p; rewrite Hpol; eauto|done|done].
  intros Hi. destruct (Hmv Hi) as (Hr & Hi' & _). split; [done|by apply outbox_run_le].
Qed.

Lemma write_policy_tquiet k p : preserves tquiet (write_yaml_atomic (E:=MaintainerError) policies_dir k p).
Proof.
  unfold write_yaml_atomic. apply preserves_bind; [apply _|apply preserves_io; apply _|].
  intros _ t r t' [= _ <-]. split; [|done]. split; simpl; [| |done|done].
  - intros Hi. destruct (write_policy_moves hex_encode k p (set_ts_faults [] t) (Ok tt) _ eq_refl) as [Hr Hi'];
      [exact Hi|]. split; [exact Hi'|done].
  - intros k' p' Hk. destruct (decide (k' = k)) as [->|]; [rewrite lookup_insert_eq; eauto|].
    rewrite lookup_insert_ne by done. eauto.
Qed.

(** The entry is written only where no entry is stored. *)
Lemma outbox_write_tquiet e t r t' :
  (∀ e', ts_outbox t !! ob_inbox_id e ≠ Some (Stored e')) → msg_id (ob_message e) = ob_inbox_id e →
  outbox_write e t = (r, t') → tquiet t t'.
Proof.
  intros Hn Hid Hw. unfold outbox_write, write_yaml_atomic in Hw.
  apply bind_cases in Hw as [([] & t1 & H1 & H2)|(e0 & H1 & _)].
  2: { exact (preserves_io_step tquiet _ _ _ _ H1). }
  assert (Ho : ts_outbox t1 = ts_outbox t) by by apply (io_dir outbox_dir) in H1.
  pose proof (preserves_io_step tquiet _ _ _ _ H1) as Hq. etrans; [exact Hq|]. injection H2 as _ <-.
  split; [|done]. split; simpl; [|eauto|done|done]. rewrite Ho. intros ([Hw1 Hw2] & Hi). rewrite Ho in *.
  split; [split; [split|exact Hi]|].
  - intros k e'. simpl. rewrite lookup_insert_Some. intros [[<- [= <-]]|[_ Hk]]; [done|by apply Hw1].
  - intros k. simpl. rewrite lookup_insert_Some. intros [[_ [=]]|[_ Hk]]. by apply Hw2.
  - apply ledger_le_insert. intros e' He'. by destruct (Hn e').
Qed.

(** ** Operations beside the records *)

Lemma team_aside {A} (m : MM A) : preserves tquiet m → preserves aside (team m).
Proof.
  intros Hm w r w'. unfold team. destruct (m (as_team w)) as [r0 t] eqn:Em. intros [= _ <-].
  destruct (Hm _ _ _ Em) as [Ht Hd]. split; try done; set_solver.
Qed.

Lemma clock_aside : preserves aside clock_now.
Proof. intros w r w' [= _ <-]. split; try done; set_solver. Qed.

#[local] Instance observe_aside : DirClosed aside observe_dir.
Proof. intros m w. split; try done; set_solver. Qed.
#[local] Instance policy_index_aside : DirClosed aside policy_index_dir.
Proof. intros m w. split; try done; set_solver. Qed.
#[local] Instance inbox_index_aside : DirClosed aside inbox_index_dir.
Proof. intros m w. split; try done; set_solver. Qed.
#[local] Instance claim_index_aside : DirClosed aside claim_index_dir.
Proof. intros m w. split; try done; set_solver. Qed.

Lemma policy_events_aside l : preserves (E:=ArbError) aside (modify (λ w, put_policy_events (as_policy_events w ++ l) w)).
Proof. intros w r w' [= _ <-]. split; try done; simpl; set_solver. Qed.

Lemma resolution_events_aside l :
  preserves (E:=ArbError) aside (modify (λ w, put_resolution_events (as_resolution_events w ++ l) w)).
Proof. intros w r w' [= _ <-]. split; try done; simpl; set_solver. Qed.

#[local] Hint Resolve team_aside clock_aside policy_events_aside resolution_events_aside draw_tquiet
  mint_policy_tquiet mint_inbox_tquiet write_policy_tquiet preserves_io preserves_io_step preserves_read
  preserves_list preserves_get preserves_write tquiet_preorder tquiet_faults : acn.

Lemma read_optional_aside {A} (d : Dir ArbStore A) key : preserves aside (read_optional d key).
Proof.
  unfold read_optional. apply preserves_bind; [apply _|auto with acn typeclass_instances|].
  intros [a|[[]| | | | | | | |]]; auto with acn typeclass_instances.
Qed.
#[local] Hint Resolve read_optional_aside : acn.

Lemma read_current_aside id : preserves aside (read_current_analysis id).
Proof. unfold read_current_analysis. solve_preserves. Qed.
#[local] Hint Resolve read_current_aside : acn.

Lemma read_analysis_aside job : preserves aside (read_analysis job).
Proof. unfold read_analysis. solve_preserves. Qed.

Lemma read_dispute_aside id : preserves aside (read_dispute id).
Proof. unfold read_dispute, Maintainer.read_dispute. solve_preserves. Qed.

Lemma lock_dispute_aside id : preserves aside (lock_dispute id).
Proof. unfold lock_dispute. solve_preserves. Qed.

Lemma list_disputes_aside : preserves aside list_disputes.
Proof. unfold list_disputes. solve_preserves. Qed.
#[local] Hint Resolve list_disputes_aside : acn.

Lemma draw_aside prefix : preserves aside (draw hex_encode prefix).
Proof. unfold draw. solve_preserves. Qed.
#[local] Hint Resolve draw_aside : acn.

Lemma resolution_id_exists_aside id rid : preserves aside (resolution_id_exists id rid).
Proof. unfold resolution_id_exists, read_current_resolution_record. solve_preserves. Qed.
#[local] Hint Resolve resolution_id_exists_aside : acn.

Lemma mint_resolution_aside id : preserves aside (mint_resolution_id hex_encode self id).
Proof.
  unfold mint_resolution_id. generalize (Nat.max (id_mint_max_attempts self) 1) as n.
  induction n as [|n IH]; simpl; solve_preserves.
Qed.

Lemma mint_action_aside : preserves aside (mint_action_id hex_encode self).
Proof.
  unfold mint_action_id, outbox_list.
  assert (Hu : ∀ l, preserves aside (used_actions l)).
  { induction l as [|d l IH]; simpl; unfold read_current_resolution_record; solve_preserves. }
  assert (Hm : ∀ used n, preserves aside (mint_action_ids hex_encode used n)).
  { intros used n. induction n as [|n IH]; simpl; solve_preserves. }
  solve_preserves.
Qed.
#[local] Hint Resolve mint_action_aside : acn.

Lemma intent_targets_aside kind agents : preserves aside (intent_targets hex_encode self kind agents).
Proof. induction agents as [|a agents IH]; simpl; solve_preserves. Qed.
#[local] Hint Resolve intent_targets_aside : acn.

Lemma build_intent_aside d snapshots r dc now :
  preserves aside (build_delivery_intent hex_encode self d snapshots r dc now).
Proof. unfold build_delivery_intent, lock_outbox_file. solve_preserves. Qed.

Lemma load_snapshots_aside ids : preserves aside (load_direct_snapshots ids).
Proof.
  unfold load_direct_snapshots, load_team_claims. solve_preserves.
  apply team_aside. solve_preserves.
Qed.

Lemma register_aside r : preserves aside (register_resolution_event_targets r).
Proof. unfold register_resolution_event_targets. solve_preserves. Qed.

Lemma observation_aside t : preserves aside (write_pending_observation t).
Proof. unfold write_pending_observation. solve_preserves. Qed.

Lemma history_aside r : preserves aside (ensure_resolution_history r).
Proof.
  unfold ensure_resolution_history, ensure_policy_event, ensure_dispute_resolution_event. solve_preserves.
Qed.

Lemma ensure_policy_aside p : preserves aside (ensure_policy p).
Proof. unfold ensure_policy, is_zero_length. solve_preserves. Qed.
End writes.
