(* ===== verification/CommitmentRules.v ===== *)
(** * Triples for the writes of arbitration

    Each write with what it needs of the store: a record is written only
    when it is pending, a dispute is committed only to a stored pending
    record, and a pending delivery is removed only once it is delivered or
    can no longer be committed. *)

From S2P Require Import Prelude Storage Claim Maintainer Ledger Delivery StepLogic ArbitrationTypes.
From S2P Require Import ArbitrationChecks ArbitrationStore Resolution Adoption ArbitrationDraws Commitments CommitmentWrites.
Import Ids.

Section rules.
Context (hex_encode : list Z → string).

Abbreviation dinv := (dinv hex_encode).
Abbreviation dstep := (dstep hex_encode).
Abbreviation frame := (frame hex_encode).
Abbreviation aside := (frame false false false).
Abbreviation Keeps := (Keeps hex_encode).
Abbreviation introducible := (introducible hex_encode).
Abbreviation T := (guarded dinv dstep grows (distinct hex_encode)).

Lemma T_bind {A B} (m : AM A) (f : A → AM B) P Q R : T P m Q → (∀ a, T (Q a) (f a) R) → T P (m ≫= f) R.
Proof. apply guarded_bind; [apply _..|apply distinct_grows]. Qed.

(** When only the state matters to what follows. *)
Lemma T_seq {A B} (m : AM A) (f : A → AM B) P Q R :
  T P m (λ _, Q) → (∀ a, T Q (f a) R) → T P (m ≫= f) R.
Proof. intros Hm Hf. by eapply T_bind. Qed.

Lemma T_ret {A} (a : A) P (Q : A → ArbStore → Prop) : (∀ w, dinv w → P w → Q a w) → T P (mret a : AM A) Q.
Proof. apply guarded_ret; [apply _..|apply distinct_grows]. Qed.

Lemma T_fail {A} e P (Q : A → ArbStore → Prop) : T P (fail e : AM A) Q.
Proof. apply guarded_fail; [apply _..|apply distinct_grows]. Qed.

Lemma T_intro {A} P (m : AM A) Q : preserves grows m →
  (∀ w r w', distinct hex_encode w' → dinv w → P w → m w = (r, w') → dstep w w' ∧ dinv w' ∧ ∀ a, r = Ok a → Q a w') →
  T P m Q.
Proof. apply guarded_intro, distinct_grows. Qed.

Lemma T_pre {A} (P P' : ArbStore → Prop) (m : AM A) Q : (∀ w, dinv w → P w → P' w) → T P' m Q → T P m Q.
Proof. apply guarded_pre. Qed.

Lemma T_post {A} P (m : AM A) (Q Q' : A → ArbStore → Prop) :
  (∀ a w, dinv w → Q' a w → Q a w) → T P m Q' → T P m Q.
Proof. apply guarded_post. Qed.

Lemma T_modify (f : ArbStore → ArbStore) P (Q : unit → ArbStore → Prop) : (∀ w, grows w (f w)) →
  (∀ w, dinv w → P w → dstep w (f w) ∧ dinv (f w) ∧ Q tt (f w)) → T P (modify f : AM unit) Q.
Proof. apply guarded_modify, distinct_grows. Qed.

(** What the state tells may be assumed. *)
Lemma T_assume {A} (φ : Prop) (m : AM A) P Q : preserves grows m →
  (∀ w, dinv w → P w → φ) → (φ → T P m Q) → T P m Q.
Proof. apply guarded_assume, distinct_grows. Qed.

Lemma T_pure {A} (φ : Prop) (m : AM A) P Q : preserves grows m → (φ → T P m Q) → T (λ w, P w ∧ φ) m Q.
Proof.
  intros Hg Hm. apply (T_assume φ); [done|by intros w _ [_ ?]|]. intros Hφ.
  eapply T_pre; [|by apply Hm]. by intros w _ [? _].
Qed.

Lemma aside_grows {A} cur res pen (m : AM A) : preserves (frame cur res pen) m → preserves grows m.
Proof. intros Hm w r w' Hr. by eapply frame_grows, Hm. Qed.

Lemma triple_aside {A} (m : AM A) K : preserves aside m → Keeps false false false K → T K m (λ _, K).
Proof.
  intros Hm HK. apply T_intro; [by eapply aside_grows|]. intros w r w' _ Hi Hk Hr. pose proof (Hm _ _ _ Hr) as Hf.
  split; [by eapply frame_dstep|]. split; [by eapply dinv_aside|]. intros _ _. by eapply HK.
Qed.

(** What a read tells is added to what is known. *)
Lemma triple_learn {A} (m : AM A) K (Q : A → ArbStore → Prop) :
  preserves aside m → Keeps false false false K →
  (∀ w a w', dinv w → K w → m w = (Ok a, w') → Q a w') → T K m (λ a w, K w ∧ Q a w).
Proof.
  intros Hm HK HQ. apply T_intro; [by eapply aside_grows|]. intros w r w' _ Hi Hk Hr. pose proof (Hm _ _ _ Hr) as Hf.
  split; [by eapply frame_dstep|]. split; [by eapply dinv_aside|]. intros a ->.
  split; [by eapply HK|by eapply HQ].
Qed.

(** ** Reads *)

Lemma read_missing {A} (d : Dir ArbStore A) `{!DirLaws d} key w w' :
  read_yaml (E:=ArbError) d key w = (Err (AStorage FileNotFound), w') → dir_get d w' !! key = None.
Proof.
  unfold read_yaml. intros [(? & w1 & H1 & H2)|(e & H1 & He)]%bind_cases.
  - mrun_in H2. destruct (dir_get d w1 !! key) as [[]|] eqn:Hk; by simplify_eq.
  - apply io_inv in H1 as [[?|?] _]; simplify_eq.
Qed.

Lemma read_optional_inv {A} (d : Dir ArbStore A) `{!DirLaws d} key w o w' :
  read_optional d key w = (Ok o, w') →
  match o with
  | Some a => dir_get d w' !! key = Some (Stored a)
  | None => dir_get d w' !! key = None
  end.
Proof.
  unfold read_optional. rewrite m_try_bind. destruct (read_yaml d key w) as [r1 w1] eqn:Er.
  destruct r1 as [a|e].
  - intros [= <- <-]. apply (read_yaml_ok d) in Er as [Hk ->]. done.
  - destruct e as [[]| | | | | | | |]; intros H; mrun_in H; simplify_eq/=.
    by eapply read_missing.
Qed.

Lemma triple_read_optional {A} (d : Dir ArbStore A) `{!DirLaws d} key K :
  Keeps false false false K →
  T K (read_optional d key) (λ o w, K w ∧
    match o with Some a => dir_get d w !! key = Some (Stored a) | None => dir_get d w !! key = None end).
Proof.
  intros HK. apply triple_learn; [apply read_optional_aside|done|].
  intros w o w' _ _ Hr. by eapply read_optional_inv.
Qed.

Lemma team_run {A} (m : MM A) w a w' : team m w = (Ok a, w') →
  ∃ t, m (as_team w) = (Ok a, t) ∧ w' = put_team t w.
Proof. unfold team. destruct (m (as_team w)) as [[a0|e] t] eqn:Em; intros [= <- <-]; eauto. Qed.

Lemma triple_read_dispute id K : Keeps false false false K →
  T K (read_dispute id) (λ d w, K w ∧ at_dispute id d w).
Proof.
  intros HK. apply triple_learn; [apply read_dispute_aside|done|].
  intros w d w' _ _ (t & Hr & ->)%team_run. unfold at_dispute, disp. simpl.
  apply (read_yaml_ok disputes_dir) in Hr as [Hk Hd]. by rewrite <-Hd in Hk.
Qed.

(** What the code knows of an analysis it has read. *)
Record seen (k : DisputeId) (a : ArbitrationAnalysis) (w : ArbStore) : Prop := {
  seen_id : an_dispute_id a = k;
  seen_pending r : an_pending_resolution a = Some r → rr_dispute_id r = k ∧ occurs r w;
}.

#[export] Instance keeps_seen k a : Keeps false false false (seen k a).
Proof.
  intros w w' Hi Hf [H1 H2]. split; [done|]. intros r (? & Ho)%H2. split; [done|].
  by eapply (keeps_occurs hex_encode).
Qed.

Lemma file_seen k a w : dinv w → analysis_file k a w → seen k a w.
Proof.
  intros Hi Hf. destruct (di_analyses _ _ Hi _ _ Hf) as [Hk Hp]. split; [done|].
  intros r Hr. split; [by apply Hp|]. do 3 right. eauto.
Qed.

Lemma seen_normalized k a hint w : seen k a w → seen k (normalize_legacy_adoption_mode a hint) w.
Proof.
  intros [H1 H2]. unfold normalize_legacy_adoption_mode.
  destruct (_ || _); [by split|]. destruct hint; by split.
Qed.

Lemma seen_selected k automatic manual a w :
  (∀ x, automatic = Some x → seen k x w) → (∀ x, manual = Some x → seen k x w) →
  select_legacy_current_analysis automatic manual = Some a → seen k a w.
Proof.
  intros H1 H2 Hs. assert (Ha : ∃ x h, (automatic = Some x ∨ manual = Some x) ∧ a = normalize_legacy_adoption_mode x h).
  { unfold select_legacy_current_analysis in Hs. destruct automatic as [x|], manual as [y|]; simplify_eq/=; eauto 6.
    case_bool_decide; case_bool_decide; simplify_eq/=; eauto 6; destruct (analysis_cmp _ _); eauto 6. }
  destruct Ha as (x & h & [Hx|Hx] & ->); apply seen_normalized; auto.
Qed.

Lemma triple_read_current id K : Keeps false false false K →
  T K (read_current_analysis id) (λ o w, K w ∧ ∀ a, o = Some a → seen id a w).
Proof.
  intros HK. unfold read_current_analysis.
  eapply T_bind; [by apply (triple_read_optional current_dir)|]. intros [c|]; simpl.
  { apply T_ret. intros w Hi [Hk Hc]. split; [done|]. intros a [= <-].
    apply seen_normalized, file_seen; [done|by left]. }
  eapply T_pre; [|eapply T_bind; [apply (triple_read_optional automatic_dir id K); done|]].
  { by intros w _ [? _]. }
  intros automatic. simpl.
  set (K1 w := K w ∧ ∀ x, automatic = Some x → seen id x w).
  assert (HK1 : Keeps false false false K1).
  { intros w w' Hi Hf [Hk Hx]. split; [by eapply HK|]. intros x H. eapply keeps_seen; eauto. }
  apply T_pre with K1.
  { intros w Hi [Hk Hx]. split; [done|]. intros x ->. apply file_seen; [done|]. right. by left. }
  eapply T_bind; [apply (triple_read_optional manual_dir id K1); done|]. intros manual. simpl.
  apply T_ret. intros w Hi [[Hk Hx] Hy]. split; [done|]. intros a Ha. eapply seen_selected; [done| |done].
  intros y ->. apply file_seen; [done|]. right. by right.
Qed.

Lemma triple_read_analysis job K : Keeps false false false K →
  T K (read_analysis job) (λ a w, K w ∧ seen (job_dispute_id job) a w ∧ an_analysis_id a = job_analysis_id job).
Proof.
  intros HK. unfold read_analysis. eapply T_bind; [by apply triple_read_current|]. intros [a|]; simpl.
  - case_bool_decide as Hid; [|apply T_fail]. apply T_ret. intros w _ [? Hs]. split_and!; [done|by apply Hs|done].
  - apply T_fail.
Qed.

Lemma triple_list_pending K : Keeps false false false K →
  T K list_pending_deliveries (λ l w, K w ∧ ∀ p, p ∈ l → ∃ k, as_pending w !! k = Some (Stored p)).
Proof.
  intros HK. apply triple_learn; [apply preserves_list; apply _|done|].
  intros w l w' _ _ Hl. unfold list_pending_deliveries, list_records in Hl.
  apply (list_yaml_inv pending_dir) in Hl as [Hd Hl]. rewrite (Hl _ eq_refl), <-Hd.
  intros p Hp. by apply elem_of_stored.
Qed.

(** ** Writes *)

Lemma triple_write {A} (d : Dir ArbStore A) `{!DirClosed grows d} key v K (Q : ArbStore → Prop) : Keeps false false false K →
  (∀ w, dinv w → K w → let w' := dir_set d (<[key := Stored v]> (dir_get d w)) w in
    dstep w w' ∧ dinv w' ∧ Q w') →
  T K (write_yaml_atomic d key v) (λ _, Q).
Proof.
  intros HK Hw. unfold write_yaml_atomic. eapply T_seq; [apply triple_aside; [apply preserves_io; apply _|done]|].
  intros _. apply T_modify; [intros w; apply dir_closed|done].
Qed.

Lemma triple_remove {A} (d : Dir ArbStore A) `{!DirClosed grows d} key K (Q : ArbStore → Prop) : Keeps false false false K →
  (∀ w, dinv w → K w → let w' := dir_set d (delete key (dir_get d w)) w in dstep w w' ∧ dinv w' ∧ Q w') →
  T K (remove_file d key) (λ _, Q).
Proof.
  intros HK Hw. unfold remove_file. eapply T_seq; [apply triple_aside; [apply preserves_io; apply _|done]|].
  intros _. apply T_modify; [intros w; apply dir_closed|done].
Qed.

Lemma triple_check r P : T P (check r) (λ _, P).
Proof.
  destruct r as [[]|e]; [by apply (T_ret tt)|exact (T_fail (AFailure e) P (λ _, P))]. Qed.

(** What is known of the records after a write. *)
Record records_ok (w : ArbStore) : Prop := {
  rec_known r : occurs r w → known hex_encode (rr_resolution_id r) w ∧ record_ok r;
  rec_agree r r' : occurs r w → occurs r' w → rr_resolution_id r = rr_resolution_id r' → r = r';
  rec_exact k d c : at_dispute k d w → mdr_resolution d = Some c →
    known hex_encode (dr_resolution_id c) w ∧
    ∀ r, occurs r w → rr_resolution_id r = dr_resolution_id c → rr_resolution r = c;
}.

(** Introducing a record keeps them. *)
Lemma introduced w w' r0 : dinv w → introducible r0 w → disp w' = disp w →
  (∀ id, known hex_encode id w → known hex_encode id w') → (∀ r, occurs r w' → occurs r w ∨ r = r0) → records_ok w'.
Proof.
  intros Hi [Hk Hok Hn] Hdisp Hkn Ho.
  assert (Heq : ∀ r, occurs r w → rr_resolution_id r = rr_resolution_id r0 → r = r0).
  { intros r Hr Hid. destruct Hn as [Hn|[Hn _]]; [by eapply di_agree|by destruct (Hn r)]. }
  split.
  - intros r [Hr|Hr]%Ho; [|subst; auto]. destruct (di_occurs _ _ Hi _ Hr). auto.
  - intros r r' [Hr|Hr]%Ho [Hr'|Hr']%Ho Hid; subst; [by eapply di_agree|by apply Heq|symmetry; by apply Heq|done].
  - intros k d c Hd Hc. unfold at_dispute in Hd. rewrite Hdisp in Hd.
    destruct (di_exact _ _ Hi k d c Hd Hc) as [Hkc He]. split; [by apply Hkn|]. intros r [Hr|Hr]%Ho Hid; [by apply He|].
    subst r. destruct Hn as [Hn|[_ Hn]]; [by apply He|]. by destruct (Hn k d c Hd Hc).
Qed.

(** So does forgetting some. *)
Lemma retained w w' : dinv w → disp w' = disp w →
  (∀ id, known hex_encode id w → known hex_encode id w') → (∀ r, occurs r w' → occurs r w) → records_ok w'.
Proof.
  intros Hi Hdisp Hkn Ho. split.
  - intros r Hr%Ho. destruct (di_occurs _ _ Hi _ Hr). auto.
  - intros r r' Hr%Ho Hr'%Ho. by apply Hi.
  - intros k d c Hd Hc. unfold at_dispute in Hd. rewrite Hdisp in Hd.
    destruct (di_exact _ _ Hi k d c Hd Hc) as [Hkc He]. split; [by apply Hkn|]. auto.
Qed.

(** *** Analyses *)

Definition writable (a : ArbitrationAnalysis) (w : ArbStore) : Prop :=
  ∀ r, an_pending_resolution a = Some r → rr_dispute_id r = an_dispute_id a ∧ introducible r w.

#[export] Instance keeps_writable a : Keeps false false false (writable a).
Proof.
  intros w w' Hi Hf Hw r (? & Hr)%Hw. split; [done|]. by eapply (keeps_introducible hex_encode).
Qed.

(** The pending resolution stays the one that was read, or is dropped. *)
Lemma seen_writable k a a' w : dinv w → seen k a w → an_dispute_id a' = an_dispute_id a →
  an_pending_resolution a' = None ∨ an_pending_resolution a' = an_pending_resolution a → writable a' w.
Proof.
  intros Hi [Hk Hs] Hid Hp r Hr. destruct Hp as [Hp|Hp]; [congruence|]. rewrite Hp in Hr.
  destruct (Hs _ Hr) as [Hd Ho]. split; [congruence|]. destruct (di_occurs _ _ Hi _ Ho). split; [done|done|by left].
Qed.

Definition put_analysis (a : ArbitrationAnalysis) (w : ArbStore) : ArbStore :=
  put_current (<[an_dispute_id a := Stored a]> (as_current w)) w.

Lemma put_analysis_frame a w : frame true false false w (put_analysis a w).
Proof. split; try done; set_solver. Qed.

Lemma put_analysis_files a w k a' : analysis_file k a' (put_analysis a w) →
  (k = an_dispute_id a ∧ a' = a) ∨ analysis_file k a' w.
Proof.
  unfold analysis_file, put_analysis. simpl. rewrite lookup_insert_Some.
  intros [[[<- [= <-]]|[_ ?]]|?]; auto.
Qed.

Lemma put_analysis_inv a w : dinv w → writable a w → dinv (put_analysis a w).
Proof.
  intros Hi Hw. pose proof (put_analysis_frame a w) as Hf. pose proof (frame_dstep _ _ _ _ _ _ Hf) as Hs.
  assert (Ho : ∀ r, occurs r (put_analysis a w) → occurs r w ∨ an_pending_resolution a = Some r).
  { intros r [Hp|[Hr|[Hd|(k & a' & [[-> ->]|Hk]%put_analysis_files & Hp)]]]; [left; by left|left; right; by left| |auto|].
    - left. do 2 right. by left.
    - left. do 3 right. eauto. }
  assert (records_ok (put_analysis a w)) as [H3 H4 H5].
  { destruct (an_pending_resolution a) as [r0|] eqn:Hp.
    - apply (introduced w _ r0); [done|by apply Hw|done|intros id; by eapply known_step|naive_solver].
    - apply (retained w); [done|done|intros id; by eapply known_step|naive_solver]. }
  split; [apply Hi|done|done|apply Hi|apply Hi|apply Hi|apply Hi| | | |apply Hi|apply Hi|done].
  - intros k a' [[-> ->]|Hk]%put_analysis_files; [|by apply Hi]. split; [done|]. intros r Hr. by apply Hw.
  - intros k d c Hk Hc. destruct (di_committed _ _ Hi k d c Hk Hc) as (r & ? & ? & ? & Hor).
    exists r. split_and!; [done..|]. destruct Hor; [by left|right].
    eapply delivered_step; [apply Hi|done|done].
  - apply Hi.
Qed.

Lemma triple_put_analysis a K : Keeps true false false K → Keeps false false false K →
  T (λ w, K w ∧ writable a w) (write_yaml_atomic current_dir (an_dispute_id a) a)
    (λ _ w, K w ∧ as_current w !! an_dispute_id a = Some (Stored a)).
Proof.
  intros HK HK'. apply triple_write; [apply _..|]. intros w Hi [Hk Hw]. simpl.
  fold (put_analysis a w). split_and!.
  - eapply frame_dstep, put_analysis_frame.
  - by apply put_analysis_inv.
  - eapply HK; [done|apply put_analysis_frame|done].
  - apply lookup_insert_eq.
Qed.

Lemma triple_write_analysis a K : Keeps true false false K → Keeps false false false K →
  T (λ w, K w ∧ writable a w) (write_analysis a)
    (λ _ w, K w ∧ as_current w !! an_dispute_id a = Some (Stored a)).
Proof.
  intros HK HK'. unfold write_analysis. eapply T_seq; [apply triple_check|]. intros _.
  by apply triple_put_analysis.
Qed.

(** *** Pending deliveries *)

Definition put_delivery (p : PendingResolutionDelivery) (w : ArbStore) : ArbStore :=
  put_pending (<[ret_resolution_id (prd_target p) := Stored p]> (as_pending w)) w.

Lemma put_delivery_frame p w : frame false false true w (put_delivery p w).
Proof. split; try done; set_solver. Qed.

(** The slot of a delivery is free, of an older version, or holds the record. *)
Definition slot_for (r : ArbitrationResolutionRecord) (w : ArbStore) : Prop :=
  ∀ p, as_pending w !! rr_resolution_id r = Some (Stored p) →
    prd_resolution_record p = None ∨ prd_resolution_record p = Some r.

#[export] Instance keeps_slot cur res r : Keeps cur res false (slot_for r).
Proof. intros w w' Hi Hf. unfold slot_for. by rewrite (fr_pen _ _ _ _ _ _ Hf). Qed.

Lemma put_delivery_pending p r w : prd_resolution_record p = Some r → record_target r = prd_target p →
  slot_for r w → pending_record r (put_delivery p w) ∧ ∀ r', pending_record r' w → pending_record r' (put_delivery p w).
Proof.
  intros Hp Ht Hs. unfold pending_record, put_delivery. simpl. rewrite <-Ht. simpl. split.
  - exists p. by rewrite lookup_insert_eq.
  - intros r' (p' & Hk & Hr'). destruct (decide (rr_resolution_id r' = rr_resolution_id r)) as [He|He].
    + rewrite He in *. destruct (Hs _ Hk); simplify_eq. exists p. by rewrite lookup_insert_eq.
    + exists p'. by rewrite lookup_insert_ne.
Qed.

Lemma put_delivery_inv p r w : dinv w → prd_resolution_record p = Some r → record_target r = prd_target p →
  introducible r w → slot_for r w → dinv (put_delivery p w).
Proof.
  intros Hi Hp Ht Hn Hs. pose proof (put_delivery_frame p w) as Hf. pose proof (frame_dstep _ _ _ _ _ _ Hf) as Hst.
  destruct (put_delivery_pending p r w Hp Ht Hs) as [_ Hkeep].
  assert (Ho : ∀ r', occurs r' (put_delivery p w) → occurs r' w ∨ r' = r).
  { intros r' [(p' & Hk & Hr')|Hr']; [|left; by right]. unfold put_delivery in Hk. simpl in Hk.
    apply lookup_insert_Some in Hk as [[_ [= <-]]|[_ Hk]]; [right; congruence|left; left; by exists p']. }
  destruct (introduced w (put_delivery p w) r Hi Hn eq_refl (λ id, known_step hex_encode id _ _ Hst) Ho) as [H3 H4 H5].
  split; [apply Hi|done|done|apply Hi|apply Hi|apply Hi| |apply Hi| | |apply Hi|apply Hi|done].
  - intros k p'. unfold put_delivery. simpl. rewrite lookup_insert_Some.
    intros [[<- [= <-]]|[_ Hk]]; [|by apply Hi]. split; [done|]. intros r' Hr'. congruence.
  - intros k d c Hk Hc. destruct (di_committed _ _ Hi k d c Hk Hc) as (r' & ? & ? & ? & Hor).
    exists r'. split_and!; [done..|]. destruct Hor; [left; auto|right].
    eapply delivered_step; [apply Hi|done|done].
  - intros k r' Hk. destruct (di_stored _ _ Hi k r' Hk) as [?|[? ?]]; [by left|right; auto].
Qed.

Lemma triple_write_delivery p r K : prd_resolution_record p = Some r → record_target r = prd_target p →
  Keeps false false true K → Keeps false false false K →
  T (λ w, K w ∧ introducible r w ∧ slot_for r w) (write_pending_delivery p) (λ _ w, K w ∧ pending_record r w).
Proof.
  intros Hp Ht HK HK'. apply triple_write; [apply _..|]. intros w Hi (Hk & Hn & Hs). simpl.
  fold (put_delivery p w). split_and!.
  - eapply frame_dstep, put_delivery_frame.
  - by eapply put_delivery_inv.
  - eapply HK; [done|apply put_delivery_frame|done].
  - exact (proj1 (put_delivery_pending _ _ _ Hp Ht Hs)).
Qed.

(** What must hold for a pending delivery to be removed. *)
Definition removable (id : ArbitrationResolutionId) (w : ArbStore) : Prop :=
  ∀ r, pending_record r w → rr_resolution_id r = id →
    (delivered r w ∧ current_id (rr_dispute_id r) id w) ∨
    ∃ d, at_dispute (rr_dispute_id r) d w ∧ can_recover_commit r d = false
      ∧ dr_resolution_id <$> mdr_resolution d ≠ Some id.

#[export] Instance keeps_removable id : Keeps false false false (removable id).
Proof.
  intros w w' Hi Hf Hr r Hp Hid. unfold pending_record in Hp. rewrite (fr_pen _ _ _ _ _ _ Hf) in Hp by done.
  destruct (Hr r Hp Hid) as [[? ?]|(d & Hd & ?)]; [left|right; exists d].
  - split; [by eapply (keeps_delivered hex_encode)|]. by eapply current_id_disp; [apply Hf|].
  - split; [|done]. by eapply (keeps_at_dispute hex_encode false false false).
Qed.

Definition drop_delivery (id : ArbitrationResolutionId) (w : ArbStore) : ArbStore :=
  put_pending (delete id (as_pending w)) w.

Lemma drop_delivery_frame id w : frame false false true w (drop_delivery id w).
Proof. split; try done; set_solver. Qed.

Lemma drop_delivery_pending id r w : pending_record r w → rr_resolution_id r ≠ id →
  pending_record r (drop_delivery id w).
Proof. intros (p & Hk & Hp) Hne. exists p. unfold drop_delivery. simpl. by rewrite lookup_delete_ne. Qed.

Lemma drop_delivery_inv id w : dinv w → removable id w → dinv (drop_delivery id w).
Proof.
  intros Hi Hr. pose proof (drop_delivery_frame id w) as Hf. pose proof (frame_dstep _ _ _ _ _ _ Hf) as Hst.
  assert (Ho : ∀ r, occurs r (drop_delivery id w) → occurs r w).
  { intros r [(p & Hk & Hp)|?]; [|by right]. left. exists p. split; [|done].
    unfold drop_delivery in Hk. simpl in Hk. by apply lookup_delete_Some in Hk as [_ ?]. }
  destruct (retained w (drop_delivery id w) Hi eq_refl (λ id, known_step hex_encode id _ _ Hst) Ho) as [H3 H4 H5].
  split; [apply Hi|done|done|apply Hi|apply Hi|apply Hi| |apply Hi| | |apply Hi|apply Hi|done].
  - intros k p. unfold drop_delivery. simpl. rewrite lookup_delete_Some. intros [_ ?]. by apply Hi.
  - intros k d c Hk Hc. destruct (di_committed _ _ Hi k d c Hk Hc) as (r & Hrc & Hid & Hdk & Hor).
    exists r. split_and!; [done..|]. destruct Hor as [Hp|Hd].
    2: { right. eapply delivered_step; [apply Hi|done|done]. }
    destruct (decide (rr_resolution_id r = id)) as [He|He]; [|left; by apply drop_delivery_pending].
    destruct (Hr r Hp He) as [[Hd _]|(d' & Hd' & _ & Hne)].
    + right. eapply delivered_step; [apply Hi|done|done].
    + rewrite Hdk in Hd'. assert (d' = d) as -> by (unfold at_dispute, disp in *; simpl in *; congruence).
      rewrite Hc in Hne. simpl in Hne. congruence.
  - intros k r Hk. destruct (di_stored _ _ Hi k r Hk) as [?|[Hp Hcan]]; [by left|].
    destruct (decide (rr_resolution_id r = id)) as [He|He]; [|right; split; [by apply drop_delivery_pending|done]].
    pose proof (di_resolutions _ _ Hi _ _ Hk) as Hdk.
    destruct (Hr r Hp He) as [[_ Hc]|(d & Hd & Hf' & _)]; rewrite Hdk in *.
    + left. by rewrite He.
    + rewrite (Hcan d Hd) in Hf'. done.
Qed.

Lemma triple_remove_pending id K : Keeps false false true K → Keeps false false false K →
  T (λ w, K w ∧ removable id w) (remove_pending_delivery id) (λ _, K).
Proof.
  intros HK HK'. apply triple_remove; [apply _..|]. intros w Hi [Hk Hr]. simpl. fold (drop_delivery id w).
  split_and!; [eapply frame_dstep, drop_delivery_frame|by apply drop_delivery_inv|].
  eapply HK; [done|apply drop_delivery_frame|done].
Qed.

(** *** Resolution records *)

Definition stored_record (r : ArbitrationResolutionRecord) (w : ArbStore) : Prop :=
  as_resolutions w !! rr_dispute_id r = Some (Stored r).

#[export] Instance keeps_stored cur pen r : Keeps cur false pen (stored_record r).
Proof. intros w w' Hi Hf. unfold stored_record. by rewrite (fr_res _ _ _ _ _ _ Hf). Qed.

(** The record is the dispute's, or may become it. *)
Definition placeable (r : ArbitrationResolutionRecord) (w : ArbStore) : Prop :=
  current_id (rr_dispute_id r) (rr_resolution_id r) w
  ∨ ∀ d, at_dispute (rr_dispute_id r) d w → can_recover_commit r d = true.

#[export] Instance keeps_placeable cur res pen r : Keeps cur res pen (placeable r).
Proof.
  intros w w' Hi Hf [Hc|Hd]; [left; by eapply current_id_disp; [apply Hf|]|right].
  intros d. unfold at_dispute. rewrite (fr_disp _ _ _ _ _ _ Hf). apply Hd.
Qed.

Definition put_record (r : ArbitrationResolutionRecord) (w : ArbStore) : ArbStore :=
  put_resolutions (<[rr_dispute_id r := Stored r]> (as_resolutions w)) w.

Lemma put_record_frame r w : frame false true false w (put_record r w).
Proof. split; try done; set_solver. Qed.

Lemma put_record_inv r w : dinv w → pending_record r w → placeable r w → dinv (put_record r w).
Proof.
  intros Hi Hp Hpl. pose proof (put_record_frame r w) as Hf. pose proof (frame_dstep _ _ _ _ _ _ Hf) as Hst.
  assert (Ho : ∀ r', occurs r' (put_record r w) → occurs r' w).
  { intros r' [?|[[k Hk]|?]]; [by left| |by do 2 right]. unfold put_record in Hk. simpl in Hk.
    apply lookup_insert_Some in Hk as [[_ [= <-]]|[_ Hk]]; [by left|right; left; by exists k]. }
  destruct (retained w (put_record r w) Hi eq_refl (λ id, known_step hex_encode id _ _ Hst) Ho) as [H3 H4 H5].
  split; [apply Hi|done|done|apply Hi|apply Hi| |apply Hi|apply Hi| | |apply Hi| |done].
  - intros k r'. unfold put_record. simpl. rewrite lookup_insert_Some. intros [[<- [= <-]]|[_ Hk]]; [done|by apply Hi].
  - intros k d c Hk Hc. destruct (di_committed _ _ Hi k d c Hk Hc) as (r' & ? & ? & ? & Hor).
    exists r'. split_and!; [done..|]. destruct Hor; [by left|right].
    eapply delivered_step; [apply Hi|done|done].
  - intros k r'. unfold put_record. simpl. rewrite lookup_insert_Some.
    intros [[<- [= <-]]|[_ Hk]]; [|by apply Hi]. destruct Hpl; [by left|by right].
  - intros k. unfold put_record. simpl. rewrite lookup_insert_Some. intros [[_ [=]]|[_ H]]. by apply Hi in H.
Qed.

Lemma triple_write_record r K : Keeps false true false K → Keeps false false false K →
  T (λ w, K w ∧ pending_record r w ∧ placeable r w) (write_resolution_record r)
    (λ _ w, K w ∧ pending_record r w ∧ stored_record r w).
Proof.
  intros HK HK'. unfold write_resolution_record.
  destruct (negb _); [apply T_fail|]. destruct (negb _); [apply T_fail|].
  apply triple_write; [apply _..|]. intros w Hi (Hk & Hp & Hpl). simpl. fold (put_record r w). split_and!.
  - eapply frame_dstep, put_record_frame.
  - by apply put_record_inv.
  - eapply HK; [done|apply put_record_frame|done].
  - done.
  - apply lookup_insert_eq.
Qed.

(** *** Committing a dispute *)

Definition put_dispute (d : MaintainerDisputeRecord) (w : ArbStore) : ArbStore :=
  put_team (set_disputes (<[dispute_id (mdr_dispute d) := Stored d]> (disp w)) (as_team w)) w.

(** The dispute [d] as the record [r] resolves it. *)
Definition committed_by (r : ArbitrationResolutionRecord) (at_ : DateTime) (d : MaintainerDisputeRecord) :=
  resolved_by_record (rr_resolution r) at_ d.

Lemma commit_le r at_ d : can_recover_commit r d = true → dispute_le d (committed_by r at_ d).
Proof.
  intros Hc. split; [by apply same_report_true|done|]. unfold resolution_le, can_recover_commit in *.
  destruct (mdr_resolution d) as [c|]; [|done]. rewrite !andb_true_iff, !bool_decide_eq_true in Hc.
  right. destruct Hc as [[? ?] ?]. split; [done|]. simpl. eauto.
Qed.

Lemma put_dispute_at d k d' w : at_dispute k d' (put_dispute d w) →
  (k = dispute_id (mdr_dispute d) ∧ d' = d) ∨ (k ≠ dispute_id (mdr_dispute d) ∧ at_dispute k d' w).
Proof.
  unfold at_dispute, put_dispute, disp. simpl. rewrite lookup_insert_Some.
  intros [[<- [= <-]]|[? ?]]; auto.
Qed.

Lemma commit_step r at_ d k w : dinv w → at_dispute k d w → can_recover_commit r d = true →
  dstep w (put_dispute (committed_by r at_ d) w).
Proof.
  intros Hi Hd Hc. pose proof (di_disputes _ _ Hi _ _ Hd) as Hid.
  split; [|split; simpl; [|eauto|done|done]|simpl; set_solver..].
  - intros k' d' Hk. unfold put_dispute, disp. simpl. rewrite Hid.
    destruct (decide (k' = k)) as [->|Hne].
    + rewrite lookup_insert_eq. unfold at_dispute, disp in *. simplify_eq. eauto using commit_le.
    + rewrite lookup_insert_ne by done. exists d'. by split.
  - intros Hs. split; [exact Hs|done].
Qed.

Lemma commit_inv r at_ d k w : dinv w → at_dispute k d w → can_recover_commit r d = true →
  rr_dispute_id r = k → pending_record r w → stored_record r w → dinv (put_dispute (committed_by r at_ d) w).
Proof.
  intros Hi Hd Hc Hk Hp Hst. pose proof (commit_step r at_ d k w Hi Hd Hc) as Hs.
  pose proof (di_disputes _ _ Hi _ _ Hd) as Hid.
  assert (Hne : ∀ k' d', at_dispute k' d' (put_dispute (committed_by r at_ d) w) →
    (k' = k ∧ d' = committed_by r at_ d) ∨ (k' ≠ k ∧ at_dispute k' d' w)).
  { intros k' d' Hk'. apply put_dispute_at in Hk'. simpl in Hk'. by rewrite Hid in Hk'. }
  assert (Hrok : rr_resolution_id r = dr_resolution_id (rr_resolution r)).
  { apply (di_occurs _ _ Hi r). by left. }
  assert (Hat : at_dispute k (committed_by r at_ d) (put_dispute (committed_by r at_ d) w)).
  { unfold at_dispute, put_dispute, disp. simpl. rewrite Hid. apply lookup_insert_eq. }
  split; [apply Hi| |apply Hi| | |apply Hi|apply Hi|apply Hi| | |apply Hi|apply Hi|].
  - intros r' Hr'. destruct (di_occurs _ _ Hi _ Hr'). split; [by eapply known_step|done].
  - intros k' d' [[-> ->]|[_ Hk']]%Hne; [done|by apply Hi].
  - intros k' d' [[-> ->]|[_ Hk']]%Hne; [by split|by eapply Hi].
  - intros k' d' c [[-> ->]|[_ Hk']]%Hne.
    + intros [= <-]. exists r. split_and!; [done..|by left].
    + intros Hc'. destruct (di_committed _ _ Hi k' d' c Hk' Hc') as (r' & ? & ? & ? & Hor).
      exists r'. split_and!; [done..|]. destruct Hor; [by left|right].
      eapply delivered_step; [apply Hi|done|done].
  - intros k' r' Hk'. destruct (decide (k' = k)) as [->|Hnk].
    + unfold stored_record in Hst. rewrite Hk in Hst. simpl in Hk'. rewrite Hst in Hk'. injection Hk' as <-.
      left. exists (committed_by r at_ d), (rr_resolution r). by split_and!.
    + destruct (di_stored _ _ Hi k' r' Hk') as [(d' & c & Hd' & ?)|[? Hcan]].
      * left. exists d', c. split; [|done]. unfold at_dispute, put_dispute, disp in *. simpl. rewrite Hid.
        by rewrite lookup_insert_ne.
      * right. split; [done|]. intros d' [[-> _]|[_ Hd']]%Hne; [done|by apply Hcan].
  - intros k' d' c [[-> ->]|[_ Hk']]%Hne.
    + intros [= <-]. split.
      * eapply known_step; [exact Hs|]. rewrite <-Hrok. apply (di_occurs _ _ Hi r). by left.
      * intros r' Hr' Hid'. assert (Hrr : r' = r); [|by rewrite Hrr].
        eapply (di_agree _ _ Hi); [exact Hr'|by left|congruence].
    + intros Hc'. destruct (di_exact _ _ Hi k' d' c Hk' Hc') as [Hkc He]. split; [by eapply known_step|exact He].
Qed.

(** What holds once the record [r] is the dispute's. *)
Definition committed_record (r : ArbitrationResolutionRecord) (w : ArbStore) : Prop :=
  current_id (rr_dispute_id r) (rr_resolution_id r) w.

Lemma write_dispute_run d w res w' : write_dispute d w = (res, w') →
  (aside w w' ∧ res ≠ Ok tt) ∨ ∃ v, aside w v ∧ res = Ok tt ∧ w' = put_dispute d v.
Proof.
  unfold write_dispute, Maintainer.write_dispute, team. destruct (validate_dispute_record d).
  2: { intros [= <- <-]. left. by destruct w. }
  assert (Hf : aside w (set_faults (tail (faults w)) w)) by apply (frame_faults hex_encode false false false).
  revert Hf. unfold write_yaml_atomic, io, io_step, mbind, M_bind, modify. simpl.
  destruct (ts_faults (as_team w)) as [|[] fs] eqn:Ef; simpl; intros Hf [= <- <-].
  - right. by exists w.
  - left. by split.
  - right. eexists. by split; [exact Hf|].
Qed.

Lemma triple_commit r at_ d k K : Keeps false false false K →
  (∀ w, dinv w → K w → K (put_dispute (committed_by r at_ d) w)) →
  T (λ w, K w ∧ at_dispute k d w ∧ can_recover_commit r d = true ∧ rr_dispute_id r = k
          ∧ pending_record r w ∧ stored_record r w)
    (write_dispute (committed_by r at_ d))
    (λ _ w, K w ∧ at_dispute k (committed_by r at_ d) w ∧ pending_record r w ∧ stored_record r w
            ∧ committed_record r w).
Proof.
  intros HK HKd. apply T_intro; [apply write_dispute_grows|].
  intros w res w' _ Hi (Hk & Hd & Hc & Hrk & Hp & Hst) [[Hf Hres]|(v & Hf & -> & ->)]%write_dispute_run.
  { split; [by eapply frame_dstep|]. split; [by eapply dinv_aside|]. by intros []. }
  assert (Hi' : dinv v) by by eapply dinv_aside.
  assert (Hd' : at_dispute k d v) by exact (keeps_at_dispute hex_encode false false false k d w v Hi Hf Hd).
  assert (Hp' : pending_record r v) by exact (keeps_pending hex_encode false false r w v Hi Hf Hp).
  assert (Hst' : stored_record r v) by exact (keeps_stored false false r w v Hi Hf Hst).
  assert (Hid : dispute_id (mdr_dispute d) = k) by exact (di_disputes _ _ Hi _ _ Hd).
  split; [etrans; [by eapply frame_dstep|by eapply commit_step]|].
  split; [by eapply commit_inv|]. intros [] _.
  assert (Hat : at_dispute k (committed_by r at_ d) (put_dispute (committed_by r at_ d) v)).
  { unfold at_dispute, put_dispute, disp. simpl. rewrite Hid. apply lookup_insert_eq. }
  split_and!; [apply HKd; [done|exact (HK w v Hi Hf Hk)]|done|done|done|].
  exists (committed_by r at_ d), (rr_resolution r). rewrite Hrk. split_and!; [done|done|].
  symmetry. apply (di_occurs _ _ Hi' r). by left.
Qed.

(** *** Reporting a dispute *)

Definition unreported (k : DisputeId) (w : ArbStore) : Prop := disp w !! k = None.

#[export] Instance keeps_unreported cur res pen k : Keeps cur res pen (unreported k).
Proof. intros w w' _ Hf. unfold unreported. by rewrite (fr_disp _ _ _ _ _ _ Hf). Qed.

Lemma report_le (m : gmap string (file MaintainerDisputeRecord)) k d : m !! k = None → disputes_le m (<[k := Stored d]> m).
Proof. intros Hn k' d' Hd. exists d'. split; [|done]. rewrite lookup_insert_ne; [done|congruence]. Qed.

Lemma report_step d w : unreported (dispute_id d) w → dstep w (put_dispute (MaintainerDisputeRecord_from d) w).
Proof.
  intros Hn. split; simpl; [by apply report_le|split; simpl; [|eauto|done|done]|set_solver..].
  intros Hs. split; [exact Hs|done].
Qed.

Lemma report_inv d w : dinv w → unreported (dispute_id d) w → dispute_status d = DisputeOpen →
  dinv (put_dispute (MaintainerDisputeRecord_from d) w).
Proof.
  intros Hi Hn Ho. pose proof (report_step d w Hn) as Hs.
  assert (Hat : ∀ k d', at_dispute k d' (put_dispute (MaintainerDisputeRecord_from d) w) →
    (k = dispute_id d ∧ d' = MaintainerDisputeRecord_from d) ∨ at_dispute k d' w).
  { intros k d' [[-> ->]|[_ H]]%put_dispute_at; [by left|by right]. }
  assert (Hcur : ∀ k id, current_id k id w → current_id k id (put_dispute (MaintainerDisputeRecord_from d) w)).
  { intros k id (d' & c & Hd & ?). exists d', c. split; [|done]. unfold at_dispute, put_dispute, disp in *. simpl.
    rewrite lookup_insert_ne; [done|]. intros <-. unfold unreported, disp in Hn. congruence. }
  split; [apply Hi| |apply Hi| | |apply Hi|apply Hi|apply Hi| | |apply Hi|apply Hi|].
  - intros r Hr. destruct (di_occurs _ _ Hi _ Hr). split; [by eapply known_step|done].
  - intros k d' [[-> ->]|H]%Hat; [done|by apply Hi].
  - intros k d' [[-> ->]|H]%Hat; [|by eapply Hi]. simpl. rewrite Ho. split; [done|by intros [? [=]]].
  - intros k d' c [[-> ->]|H]%Hat; [done|]. intros Hc.
    destruct (di_committed _ _ Hi k d' c H Hc) as (r & ? & ? & ? & Hor). exists r. split_and!; [done..|].
    destruct Hor; [by left|right]. eapply delivered_step; [apply Hi|done|done].
  - intros k r Hk. destruct (di_stored _ _ Hi k r Hk) as [?|[Hp Hcan]]; [left; by apply Hcur|].
    right. split; [done|]. intros d' [[-> ->]|H]%Hat; [done|by apply Hcan].
  - intros k d' c [[-> ->]|H]%Hat; [done|]. intros Hc. destruct (di_exact _ _ Hi k d' c H Hc) as [Hkc He].
    split; [by eapply known_step|exact He].
Qed.

Lemma triple_report d : dispute_status d = DisputeOpen →
  T (unreported (dispute_id d)) (write_dispute (MaintainerDisputeRecord_from d)) (λ _ _, True).
Proof.
  intros Ho. apply T_intro; [apply write_dispute_grows|]. intros w res w' _ Hi Hn [[Hf Hres]|(v & Hf & -> & ->)]%write_dispute_run.
  { split; [by eapply frame_dstep|]. split; [by eapply dinv_aside|done]. }
  assert (Hi' : dinv v) by by eapply dinv_aside.
  assert (Hn' : unreported (dispute_id d) v) by exact (keeps_unreported false false false _ w v Hi Hf Hn).
  split; [etrans; [by eapply frame_dstep|by apply report_step]|]. split; [by apply report_inv|done].
Qed.
End rules.
