(* ===== verification/CommitmentSteps.v ===== *)
(** * The operations on resolutions keep their commitments

    Delivery establishes [delivered]; adoption, human resolution,
    replacement and the two recoveries commit only pending records. *)

From S2P Require Import Prelude Storage Claim Maintainer Ledger Delivery StepLogic ArbitrationTypes.
From S2P Require Import ArbitrationChecks ArbitrationStore Resolution Adoption ArbitrationDraws Commitments CommitmentWrites.
From S2P Require Import CommitmentRules.
Import Ids.

Section steps.
Context (hex_encode : list Z → string).

Abbreviation dinv := (dinv hex_encode).
Abbreviation dstep := (dstep hex_encode).
Abbreviation frame := (frame hex_encode).
Abbreviation aside := (frame false false false).
Abbreviation Keeps := (Keeps hex_encode).
Abbreviation introducible := (introducible hex_encode).
Abbreviation T := (guarded dinv dstep grows (distinct hex_encode)).

(** ** Delivery *)

Definition policy_stored (id : PolicyId) (w : ArbStore) : Prop :=
  ∃ p, ts_policies (as_team w) !! id = Some (Stored p).
Definition policy_event_in (id : string) (w : ArbStore) : Prop := id ∈ per_event_id <$> as_policy_events w.
Definition event_in (id : string) (w : ArbStore) : Prop := id ∈ dre_event_id <$> as_resolution_events w.

#[export] Instance keeps_policy_stored cur res pen id : Keeps cur res pen (policy_stored id).
Proof. intros w w' Hi Hf (p & Hp). by eapply ts_stay in Hp; [|by apply Hf]. Qed.
#[export] Instance keeps_policy_event cur res pen id : Keeps cur res pen (policy_event_in id).
Proof.
  intros w w' Hi Hf (x & Hx & Hin)%list_elem_of_fmap. apply list_elem_of_fmap. exists x. split; [done|].
  by apply Hf.
Qed.
#[export] Instance keeps_event cur res pen id : Keeps cur res pen (event_in id).
Proof.
  intros w w' Hi Hf (x & Hx & Hin)%list_elem_of_fmap. apply list_elem_of_fmap. exists x. split; [done|].
  by apply Hf.
Qed.

Lemma team_try {A} (m : MM A) w : m_try (team m) w =
  let '(r, t) := m (as_team w) in (Ok (map_err AMaintainer r), put_team t w).
Proof. unfold m_try, team. by destruct (m (as_team w)). Qed.

Lemma read_stored_not {A} (d : Dir TeamStore A) `{!DirLaws d} key t e t' :
  read_yaml (E:=MaintainerError) d key t = (Err e, t') →
  e = StorageErr FileNotFound ∨ e = StorageErr DecodeFailed →
  ∀ a, dir_get d t' !! key ≠ Some (Stored a).
Proof.
  unfold read_yaml. intros [(? & t1 & H1 & H2)|(e0 & H1 & He)]%bind_cases Hd.
  - mrun_in H2. destruct (dir_get d t1 !! key) as [[]|] eqn:Hk; simplify_eq; congruence.
  - apply io_inv in H1 as [[?|?] _]; simplify_eq; destruct Hd; discriminate.
Qed.

(** The entry a delivery writes or finds. *)
Lemma ensure_outbox_run e w r w' : msg_id (ob_message e) = ob_inbox_id e →
  ensure_outbox_entry e w = (r, w') → aside w w' ∧ (r = Ok tt → sent_entry e w').
Proof.
  intros Hid. unfold ensure_outbox_entry.
  intros Hrun. unfold mbind, M_bind in Hrun. rewrite team_try in Hrun.
  destruct (read_yaml outbox_dir (ob_inbox_id e) (as_team w)) as [r0 t] eqn:Er.
  assert (Hq : aside w (put_team t w)).
  { eapply (team_aside hex_encode (read_yaml outbox_dir (ob_inbox_id e))); [apply preserves_read; apply _|].
    unfold team. by rewrite Er. }
  assert (Hwrite : ∀ w1, aside w w1 → (∀ a, ts_outbox (as_team w1) !! ob_inbox_id e ≠ Some (Stored a)) →
    team (outbox_write e) w1 = (r, w') → aside w w' ∧ (r = Ok tt → sent_entry e w')).
  { intros w1 Hq1 Hn. unfold team. simpl. destruct (outbox_write e (as_team w1)) as [r1 t1] eqn:Ew. intros [= <- <-].
    destruct (outbox_write_tquiet hex_encode e (as_team w1) r1 t1 Hn Hid Ew) as [Ht Hd]. split.
    - etrans; [exact Hq1|]. by split; try done; simpl; set_solver.
    - intros Hr. destruct r1 as [[]|]; [|done]. exists e.
      apply (write_yaml_ok outbox_dir) in Ew. simpl in Ew |- *. rewrite Ew, lookup_insert_eq.
      split; [done|]. unfold same_payload. by rewrite !bool_decide_true. }
  destruct r0 as [existing|err]; simpl in Hrun.
  - apply (read_yaml_ok outbox_dir) in Er as [Hk Hd]. rewrite <-Hd in Hk.
    destruct (same_payload existing e) eqn:Hs; injection Hrun as <- <-; split; try done.
    intros _. by exists existing.
  - destruct err as [[]| | | | | | |]; try (injection Hrun as <- <-; split; done).
    + eapply Hwrite; [exact Hq| |done]. eapply (read_stored_not outbox_dir); [done|auto].
    + unfold is_zero_length, mbind, M_bind in Hrun. destruct (io (put_team t w)) as [[[]|e1] w1] eqn:Hio.
      * eapply (Hwrite w1); [etrans; [exact Hq|]; by eapply (preserves_io (E:=ArbError) aside)| |done].
        apply io_inv in Hio as [_ Hw1]. assert (ts_outbox (as_team w1) = ts_outbox t) as -> by (by destruct Hw1 as [->| ->]). eapply (read_stored_not outbox_dir); [done|auto].
      * injection Hrun as <- <-. split; [etrans; [exact Hq|]; by eapply (preserves_io (E:=ArbError) aside)|done].
Qed.

Lemma triple_outbox e K : msg_id (ob_message e) = ob_inbox_id e → Keeps false false false K →
  T K (ensure_outbox_entry e) (λ _ w, K w ∧ sent_entry e w).
Proof.
  intros Hid HK. apply T_intro; [apply entry_grows|]. intros w r w' _ Hi Hk Hr. destruct (ensure_outbox_run e w r w' Hid Hr) as [Hf Hs].
  split; [by eapply frame_dstep|]. split; [by eapply dinv_aside|].
  intros [] ->. split; [exact (HK w w' Hi Hf Hk)|by apply Hs].
Qed.

Lemma triple_outboxes {X} (f : X → OutboxEntry) l K :
  Forall (λ x, msg_id (ob_message (f x)) = ob_inbox_id (f x)) l → Keeps false false false K →
  T K (for_each (λ x, ensure_outbox_entry (f x)) l) (λ _ w, K w ∧ ∀ x, x ∈ l → sent_entry (f x) w).
Proof.
  intros Hl. revert K. induction Hl as [|x l Hx Hl IH]; intros K HK; simpl.
  { apply T_ret. intros w _ Hk. split; [done|]. intros x Hx. by apply elem_of_nil in Hx. }
  eapply T_seq; [by apply triple_outbox|]. intros _.
  eapply T_post; [|apply (IH (λ w, K w ∧ sent_entry (f x) w)); apply _].
  intros _ w _ [[Hk Hs] Hr]. split; [done|]. intros y [->|Hy]%elem_of_cons; auto.
Qed.

Lemma triple_policy p K : Keeps false false false K →
  T K (ensure_policy p) (λ _ w, K w ∧ policy_stored (policy_id p) w).
Proof.
  intros HK. apply triple_learn; [apply ensure_policy_aside|done|]. intros w [] w' _ _ Hrun.
  unfold ensure_policy, mbind, M_bind in Hrun. rewrite team_try in Hrun.
  destruct (read_yaml policies_dir (policy_id p) (as_team w)) as [r0 t] eqn:Er.
  assert (Hwrite : ∀ w1, team (write_yaml_atomic policies_dir (policy_id p) p) w1 = (Ok tt, w') →
    policy_stored (policy_id p) w').
  { intros w1 (t' & Hw & ->)%team_run. apply (write_yaml_ok policies_dir) in Hw. exists p. simpl in Hw |- *.
    by rewrite Hw, lookup_insert_eq. }
  destruct r0 as [existing|err]; simpl in Hrun.
  - apply (read_yaml_ok policies_dir) in Er as [Hk Hd]. rewrite <-Hd in Hk.
    case_bool_decide; [|done]. injection Hrun as <-. exists existing. exact Hk.
  - destruct err as [[]| | | | | | |]; try done; [by eapply Hwrite|].
    unfold is_zero_length, mbind, M_bind in Hrun. destruct (io (E:=ArbError) (put_team t w)) as [[[]|e1] w1]; [exact (Hwrite _ Hrun)|done].
Qed.

Lemma triple_policy_event e K : Keeps false false false K →
  T K (ensure_policy_event e) (λ _ w, K w ∧ policy_event_in (per_event_id e) w).
Proof.
  intros HK. apply triple_learn.
  - unfold ensure_policy_event. pose proof (policy_events_aside hex_encode) as He.
    pose proof (preserves_io (E:=ArbError) aside) as Hio. solve_preserves.
  - done.
  - intros w [] w' _ _. unfold ensure_policy_event. intros ([] & w1 & _ & Hr)%bind_ok.
    mrun_in Hr. case_bool_decide as Hin; [injection Hr as <-; exact Hin|].
    destruct (io w1) as [[[]|] w2]; [|done]. injection Hr as <-. unfold policy_event_in. simpl.
    rewrite fmap_app. apply elem_of_app. right. by left.
Qed.

Lemma triple_resolution_event e K : Keeps false false false K →
  T K (ensure_dispute_resolution_event e) (λ _ w, K w ∧ event_in (dre_event_id e) w).
Proof.
  intros HK. apply triple_learn.
  - unfold ensure_dispute_resolution_event. pose proof (resolution_events_aside hex_encode) as He.
    pose proof (preserves_io (E:=ArbError) aside) as Hio. solve_preserves.
  - done.
  - intros w [] w' _ _. unfold ensure_dispute_resolution_event. intros ([] & w1 & _ & Hr)%bind_ok.
    mrun_in Hr. case_bool_decide as Hin; [injection Hr as <-; exact Hin|].
    destruct (io w1) as [[[]|] w2]; [|done]. injection Hr as <-. unfold event_in. simpl.
    rewrite fmap_app. apply elem_of_app. right. by left.
Qed.

(** Everything of the delivery but the removal of its pending file. *)
Lemma triple_history r K : Keeps false false false K →
  T K (ensure_resolution_history r) (λ _ w, (K w ∧
    ∀ i, rr_delivery_intent r = Some i → policy_event_in (per_event_id (policy_event r i)) w) ∧
    event_in ("resolution:" +:+ rr_resolution_id r) w).
Proof.
  intros HK. unfold ensure_resolution_history.
  apply (T_seq _ _ _ _ (λ w, K w ∧
    ∀ i, rr_delivery_intent r = Some i → policy_event_in (per_event_id (policy_event r i)) w)).
  - destruct (rr_delivery_intent r) as [i|].
    + eapply T_post; [|by apply triple_policy_event]. intros _ w _ [Hk He]. split; [done|].
      by intros i' [= <-].
    + apply T_ret. by intros w _ Hk.
  - intros _. apply (triple_resolution_event {| dre_event_id := _ |}). intros w w' Hi Hf [Hk He].
    split; [exact (HK w w' Hi Hf Hk)|]. intros i Hr. eapply keeps_policy_event; eauto.
Qed.

(** A record in hand: it occurs in the store, so its id is its own. *)
Lemma triple_ensure_delivery r K : Keeps false false true K → Keeps false false false K →
  T (λ w, K w ∧ committed_record r w ∧ occurs r w) (ensure_delivery r) (λ _ w, K w ∧ delivered r w).
Proof.
  intros HK HK'. apply (T_assume _ (record_ok r)); [apply delivery_grows|by intros w Hi (_ & _ & Ho); apply (di_occurs _ _ Hi r)|].
  intros Hok.
  set (K1 w := (K w ∧ committed_record r w) ∧ occurs r w).
  assert (HK1 : Keeps false false false K1).
  { unfold K1, committed_record. apply _. }
  set (entries w := ∀ i t, rr_delivery_intent r = Some i → t ∈ di_targets i → sent_entry (intent_entry r i t) w).
  set (policies w := ∀ i, rr_delivery_intent r = Some i → policy_stored (policy_id (di_policy i)) w).
  set (K2 w := K1 w ∧ entries w ∧ policies w).
  assert (HK2 : Keeps false false false K2).
  { intros w w' Hi Hf (Hk & He & Hp). split_and!; [exact (HK1 w w' Hi Hf Hk)| |].
    - intros i t Hr Ht. eapply keeps_sent; eauto.
    - intros i Hr. eapply keeps_policy_stored; eauto. }
  unfold ensure_delivery. apply (T_seq _ _ _ _ K2).
  { apply T_pre with K1. { unfold K1. tauto. }
    destruct (rr_delivery_intent r) as [i|] eqn:Hint.
    - eapply T_seq; [apply triple_aside; [apply team_aside, preserves_io_step; apply _|apply _]|]. intros _.
      eapply T_seq; [by apply triple_policy|]. intros _.
      eapply T_post; [|apply (triple_outboxes (intent_entry r i) _ (λ w, K1 w ∧ policy_stored (policy_id (di_policy i)) w)); [|apply _]].
      + intros _ w _ [[Hk Hp] He]. split_and!; [done| |].
        * intros i' t Hr. assert (i' = i) as -> by congruence. apply He.
        * intros i' Hr. assert (i' = i) as -> by congruence. exact Hp.
      + apply (rok_targets _ Hok i Hint).
    - apply T_ret. intros w _ Hk. split_and!; [done|intros i t Hr|intros i Hr]; congruence. }
  intros _. eapply T_seq; [apply triple_aside; [apply register_aside|apply _]|]. intros _.
  eapply T_seq; [apply triple_aside; [apply observation_aside|apply _]|]. intros _.
  eapply T_seq; [by apply triple_history|]. intros _.
  eapply T_pre; [|eapply T_post; [|apply (triple_remove_pending _ _ (λ w, K w ∧ delivered r w)); apply _]].
  - intros w Hi [[(((Hk & Hc) & Ho) & He & Hp) Hpe] Hev].
    assert (Hdel : delivered r w) by by split.
    split; [done|]. intros r' Hr' Hid. left.
    assert (Hr : r' = r) by (eapply di_agree; eauto; by left). by subst r'.
  - done.
Qed.

(** ** Pending deliveries *)

Lemma introducible_slot r w : dinv w → introducible r w → slot_for r w.
Proof.
  intros Hi [Hk Hok Hn] p Hp. destruct (prd_resolution_record p) as [r'|] eqn:Hr; [|by left]. right. f_equal.
  destruct (di_pending _ _ Hi _ _ Hp) as [Hid Ht]. pose proof (Ht _ Hr) as Hrt.
  assert (Hid' : rr_resolution_id r' = rr_resolution_id r) by by rewrite <-Hid, <-Hrt.
  assert (Hor : occurs r' w). { left. exists p. by rewrite Hid'. }
  destruct Hn as [Hn|[Hn _]]; [by eapply di_agree|by destruct (Hn r')].
Qed.

Lemma triple_persist r now K : Keeps false false true K → Keeps false false false K →
  T (λ w, K w ∧ introducible r w) (persist_pending_delivery r now) (λ _ w, K w ∧ pending_record r w).
Proof.
  intros HK HK'. unfold persist_pending_delivery, read_pending_delivery.
  eapply T_bind; [apply (triple_read_optional _ pending_dir); apply _|]. intros [p|]; simpl.
  - case_bool_decide as Ht; simpl; [|apply T_fail].
    destruct (prd_resolution_record p) as [stored|] eqn:Hp.
    + case_bool_decide as Hs; [|apply T_fail]. subst stored. apply T_ret.
      intros w Hi [[Hk Hn] Hpe]. split; [done|]. by exists p.
    + eapply T_pre; [|by apply (triple_write_delivery _ (upgraded p r))].
      intros w Hi [[Hk Hn] _]. split_and!; [done..|by apply introducible_slot].
  - eapply T_pre; [|by apply (triple_write_delivery _ (new_pending r now))].
    intros w Hi [[Hk Hn] _]. split_and!; [done..|by apply introducible_slot].
Qed.

(** ** Analyses closed by a resolution *)

(** A write that fails leaves what its frame keeps. *)
Lemma triple_frame_try {A} cur res pen (m : AM A) K P :
  preserves (frame cur res pen) m → Keeps cur res pen K → (∀ w, P w → K w) →
  T P m (λ _ _, True) → T P (m_try m) (λ _, K).
Proof.
  intros Hf HK Hpk Hm w r w' Hr Hp. unfold m_try in Hr. destruct (m w) as [r0 w0] eqn:Em. injection Hr as <- <-.
  destruct (Hm _ _ _ Em Hp) as (Hg & HQ). split; [done|]. intros Hok.
  destruct (HQ Hok) as (Hs & Hi' & _). split_and!; [done..|]. intros _ _.
  destruct (Hp (distinct_grows hex_encode _ _ Hg Hok)) as [Hi Hpw].
  exact (HK _ _ Hi (Hf _ _ _ Em) (Hpk _ Hpw)).
Qed.

Lemma aside_frame {A} cur res pen (m : AM A) : preserves aside m → preserves (frame cur res pen) m.
Proof. intros Hm w r w' Hr. by eapply frame_weaken, Hm. Qed.

Lemma write_analysis_frame a : preserves (frame true false false) (write_analysis a).
Proof.
  unfold write_analysis, check, write_yaml_atomic. apply preserves_bind; [apply _|apply preserves_lift, _|].
  intros _. apply preserves_bind; [apply _|apply aside_frame, preserves_io; apply _|].
  intros _ w r w' [= _ <-]. apply put_analysis_frame.
Qed.

Lemma preempt_frame id now : preserves (frame true false false) (preempt_current_analysis_locked id now).
Proof.
  unfold preempt_current_analysis_locked. apply preserves_bind; [apply _| |intros _; apply preserves_ret, _].
  apply preserves_m_try, preserves_bind; [apply _|apply aside_frame, read_current_aside|].
  intros [a|]; [|apply preserves_ret, _].
  destruct (preempt_analysis_for_resolution a now); [apply write_analysis_frame|apply preserves_ret, _].
Qed.

Lemma triple_write_seen k a a' K : an_dispute_id a' = an_dispute_id a →
  an_pending_resolution a' = None ∨ an_pending_resolution a' = an_pending_resolution a →
  Keeps true false false K → Keeps false false false K →
  T (λ w, K w ∧ seen k a w) (write_analysis a')
    (λ _ w, K w ∧ as_current w !! an_dispute_id a' = Some (Stored a')).
Proof.
  intros Hid Hp HK HK'. eapply T_pre; [|by apply triple_write_analysis]. intros w Hi [Hk Hs].
  split; [done|]. by eapply seen_writable.
Qed.

Lemma triple_preempt id now K : Keeps true false false K → Keeps false false false K →
  T K (preempt_current_analysis_locked id now) (λ _, K).
Proof.
  intros HK HK'. unfold preempt_current_analysis_locked.
  apply (T_seq _ _ _ _ K); [|intros _; by apply T_ret].
  apply (triple_frame_try true false false); [|done|done|].
  - apply preserves_bind; [apply _|apply aside_frame, read_current_aside|].
    intros [a|]; [|apply preserves_ret, _].
    destruct (preempt_analysis_for_resolution a now); [apply write_analysis_frame|apply preserves_ret, _].
  - eapply T_bind; [by apply triple_read_current|]. intros [a|]; simpl; [|by apply T_ret].
    destruct (preempt_analysis_for_resolution a now) as [a'|] eqn:Ha; [|by apply T_ret].
    unfold preempt_analysis_for_resolution in Ha. destruct (_ || _); [done|]. injection Ha as <-.
    eapply T_post; [|eapply T_pre; [|apply (triple_write_seen id a (preempted now a) K); [done|by right|done|done]]].
    + done.
    + intros w _ [Hk Hs]. split; [done|by apply Hs].
Qed.
End steps.
