(* ===== verification/CommitmentOps.v ===== *)
(** * The resolution operations keep their commitments

    Recovery, resolution by a person, replacement, adoption and delivery,
    each followed through its writes. *)

From S2P Require Import Prelude Storage Claim Maintainer Ledger Delivery StepLogic ArbitrationTypes.
From S2P Require Import ArbitrationChecks ArbitrationStore Resolution Adoption ArbitrationDraws Commitments.
From S2P Require Import CommitmentWrites CommitmentRules CommitmentSteps.
Import Ids.

Section ops.
Context (hex_encode : list Z → string) (self : Maintainer).

Abbreviation dinv := (dinv hex_encode).
Abbreviation dstep := (dstep hex_encode).
Abbreviation frame := (frame hex_encode).
Abbreviation aside := (frame false false false).
Abbreviation Keeps := (Keeps hex_encode).
Abbreviation introducible := (introducible hex_encode).
Abbreviation T := (guarded dinv dstep grows (distinct hex_encode)).

(** A step that touches no record. *)
Lemma T_aside {A B} (m : AM A) (f : A → AM B) K R : preserves aside m → Keeps false false false K →
  (∀ a, T K (f a) R) → T K (m ≫= f) R.
Proof. intros Hm HK Hf. eapply T_seq; [by apply triple_aside|done]. Qed.

(** ** Records in hand *)

(** The record is stored where no analysis write can reach it. *)
Definition filed (r : ArbitrationResolutionRecord) (w : ArbStore) : Prop := pending_record r w ∨ stored_record r w.

#[export] Instance keeps_filed cur r : Keeps cur false false (filed r).
Proof.
  intros w w' Hi Hf [Hp|Hs]; [left|right].
  - exact (keeps_pending hex_encode _ _ r w w' Hi Hf Hp).
  - exact (keeps_stored hex_encode _ _ r w w' Hi Hf Hs).
Qed.

#[export] Instance keeps_committed cur res pen r : Keeps cur res pen (committed_record r).
Proof. apply keeps_current_id. Qed.

Lemma filed_occurs r w : filed r w → occurs r w.
Proof. intros [?|?]; [by left|right; left; eauto]. Qed.

Lemma occurs_introducible r w : dinv w → occurs r w → introducible r w.
Proof. intros Hi Ho. destruct (di_occurs _ _ Hi _ Ho). split; [done|done|by left]. Qed.

Lemma outbox_frame e : msg_id (ob_message e) = ob_inbox_id e → preserves aside (ensure_outbox_entry e).
Proof. intros He w r w' Hr. by apply (ensure_outbox_run hex_encode) in Hr as [? _]. Qed.

Lemma remove_pending_frame id : preserves (frame false false true) (remove_pending_delivery id).
Proof.
  unfold remove_pending_delivery, remove_file. apply preserves_bind; [apply _|apply aside_frame, preserves_io; apply _|].
  intros _ w r w' [= _ <-]. apply drop_delivery_frame.
Qed.

Lemma for_each_frame {X} (f : X → AM unit) l : Forall (λ x, preserves aside (f x)) l → preserves aside (for_each f l).
Proof.
  induction 1 as [|x l Hx Hl IH]; simpl; [apply preserves_ret, _|]. by apply preserves_bind; [apply _| |].
Qed.

Lemma frame_seq {A B} cur res pen (m : AM A) (k : AM B) :
  preserves (frame cur res pen) m → preserves (frame cur res pen) k → preserves (frame cur res pen) (_ ← m; k).
Proof. intros Hm Hk. by apply preserves_bind; [apply _|done|]. Qed.

Lemma ensure_delivery_frame r : record_ok r → preserves (frame false false true) (ensure_delivery r).
Proof.
  intros Hok. unfold ensure_delivery. apply frame_seq; [apply aside_frame|].
  { destruct (rr_delivery_intent r) as [i|] eqn:Hr; [|apply preserves_ret, _].
    apply frame_seq; [apply team_aside, preserves_io_step; apply _|]. apply frame_seq; [apply ensure_policy_aside|].
    apply for_each_frame. eapply Forall_impl; [exact (proj1 (rok_targets _ Hok i Hr))|]. intros t Ht. by apply outbox_frame. }
  apply frame_seq; [apply aside_frame, register_aside|].
  apply frame_seq; [apply aside_frame, observation_aside|].
  apply frame_seq; [apply aside_frame, history_aside|apply remove_pending_frame].
Qed.

(** ** Attempting a delivery *)

Lemma triple_attempt r K : Keeps false false true K → Keeps false false false K →
  T (λ w, K w ∧ committed_record r w ∧ filed r w) (m_try (ensure_delivery r)) (λ _, K).
Proof.
  intros HK HK'. apply (T_assume hex_encode (record_ok r)); [apply preserves_m_try, delivery_grows| |].
  { intros w Hi (_ & _ & Hf). by apply (di_occurs _ _ Hi r), filed_occurs. }
  intros Hok. apply (triple_frame_try _ false false true); [by apply ensure_delivery_frame|done|by intros w (? & _)|].
  eapply T_pre; [|eapply T_post; [|apply (triple_ensure_delivery hex_encode r K)]]; [|done..].
  intros w Hi (Hk & Hc & Hf). split_and!; [done..|by apply filed_occurs].
Qed.

Lemma triple_try_delivery r K : Keeps false false true K → Keeps false false false K →
  T (λ w, K w ∧ committed_record r w ∧ filed r w) (try_delivery r) (λ _, K).
Proof.
  intros HK HK'. unfold try_delivery. eapply T_seq; [by apply triple_attempt|]. intros _. by apply T_ret.
Qed.

(** ** Recovery of a resolution by a person *)

(** The record is the dispute's and can be found again. *)
Definition at_hand (id : DisputeId) (r : ArbitrationResolutionRecord) (w : ArbStore) : Prop :=
  rr_dispute_id r = id ∧ filed r w ∧ committed_record r w.

#[export] Instance keeps_at_hand cur id r : Keeps cur false false (at_hand id r).
Proof. unfold at_hand. apply _. Qed.

(** Not the dispute's resolution, but able to become it: it is pending. *)
Lemma uncommitted_pending id r d w : dinv w → at_dispute id d w → rr_dispute_id r = id → filed r w →
  can_recover_commit r d = true → dr_resolution_id <$> mdr_resolution d ≠ Some (rr_resolution_id r) →
  pending_record r w.
Proof.
  intros Hi Hd Hk [?|Hs] _ Hne; [done|]. unfold stored_record in Hs. rewrite Hk in Hs.
  destruct (di_stored _ _ Hi _ _ Hs) as [(d' & c & Hd' & Hc & Hid)|[? _]]; [|done].
  assert (d' = d) as -> by (unfold at_dispute in *; congruence). rewrite Hc in Hne. simpl in Hne. congruence.
Qed.

(** Writing the record, then committing the dispute to it. *)
Lemma triple_write_uncommitted id r d : rr_dispute_id r = id → can_recover_commit r d = true →
  T (λ w, at_dispute id d w ∧ pending_record r w) (write_resolution_record r)
    (λ _ w, at_dispute id d w ∧ pending_record r w ∧ stored_record r w).
Proof.
  intros Hk Hc. eapply T_pre; [|apply (triple_write_record hex_encode r (at_dispute id d)); apply _].
  intros w Hi [Hd Hp]. split_and!; [done..|]. right. intros d' Hd'. rewrite Hk in Hd'.
  unfold at_dispute in *. simplify_eq. exact Hc.
Qed.

Definition committed_to (id : DisputeId) (r : ArbitrationResolutionRecord) (d : MaintainerDisputeRecord)
    (w : ArbStore) : Prop :=
  at_dispute id d w ∧ pending_record r w ∧ stored_record r w ∧ committed_record r w.

Lemma triple_commit_stored id r at_ d : rr_dispute_id r = id → can_recover_commit r d = true →
  T (λ w, at_dispute id d w ∧ pending_record r w ∧ stored_record r w)
    (write_dispute (resolved_by_record (rr_resolution r) at_ d)) (λ _, committed_to id r (committed_by r at_ d)).
Proof.
  intros Hk Hc.
  eapply T_post; [|eapply T_pre; [|apply (triple_commit hex_encode r at_ d id (λ _, True)); [apply _|done]]].
  - by intros _ w _ (_ & ?).
  - intros w _ (? & ? & ?). by split_and!.
Qed.

Lemma T_write_commit {A} id r at_ d (m : AM A) R : rr_dispute_id r = id → can_recover_commit r d = true →
  T (committed_to id r (committed_by r at_ d)) m R →
  T (λ w, at_dispute id d w ∧ pending_record r w)
    (_ ← write_resolution_record r; _ ← write_dispute (resolved_by_record (rr_resolution r) at_ d); m) R.
Proof.
  intros Hk Hc Hm. eapply T_seq; [by apply triple_write_uncommitted|]. intros _.
  eapply T_seq; [by apply triple_commit_stored|]. intros _. exact Hm.
Qed.

Lemma triple_write_commit id r at_ d : rr_dispute_id r = id → can_recover_commit r d = true →
  T (λ w, at_dispute id d w ∧ pending_record r w)
    (_ ← write_resolution_record r; write_dispute (resolved_by_record (rr_resolution r) at_ d))
    (λ _, committed_to id r (committed_by r at_ d)).
Proof.
  intros Hk Hc. eapply T_seq; [by apply triple_write_uncommitted|]. intros _. by apply triple_commit_stored.
Qed.

(** The last step of the recovery: the record the dispute is committed to. *)
Definition recovered_answer (d : MaintainerDisputeRecord) (stored : option ArbitrationResolutionRecord) :
    AM (MaintainerDisputeRecord * option ArbitrationResolutionRecord) :=
  match mdr_resolution d with
  | None => mret (d, None)
  | Some c =>
      if negb (bool_decide (dr_resolved_by c = Human)) then mret (d, None)
      else match stored with
      | None => fail (AFailure HumanRecordMissing)
      | Some r =>
          if bool_decide (rr_resolution_id r = dr_resolution_id c) then mret (d, Some r)
          else fail (AFailure RecordNotCurrent)
      end
  end.

Lemma triple_recovered_answer id d stored :
  T (λ w, at_dispute id d w ∧ ∀ r, stored = Some r → rr_dispute_id r = id ∧ filed r w) (recovered_answer d stored)
    (λ '(d', o) w, at_dispute id d' w ∧ ∀ r, o = Some r → at_hand id r w).
Proof.
  unfold recovered_answer. destruct (mdr_resolution d) as [c|] eqn:Hc.
  2: { by apply T_ret; intros w _ [? _]. }
  case_bool_decide; simpl. 2: { by apply T_ret; intros w _ [? _]. }
  destruct stored as [r|]; [|apply T_fail]. case_bool_decide as Hid; [|apply T_fail].
  apply T_ret. intros w _ [Hd Hs]. split; [done|]. intros ? [= <-]. destruct (Hs r eq_refl) as [Hk Hf].
  split_and!; [done..|]. exists d, c. rewrite Hk. by split_and!.
Qed.


#[export] Instance keeps_found {X} cur res pen (o : option X) (K : X → ArbStore → Prop) :
  (∀ x, Keeps cur res pen (K x)) → Keeps cur res pen (λ w, ∀ x, o = Some x → K x w).
Proof. intros HK w w' Hi Hf Hw x Hx. exact (HK x w w' Hi Hf (Hw x Hx)). Qed.

Definition on_hand (id : DisputeId) (r : ArbitrationResolutionRecord) (w : ArbStore) : Prop :=
  rr_dispute_id r = id ∧ filed r w.

#[export] Instance keeps_on_hand cur id r : Keeps cur false false (on_hand id r).
Proof. unfold on_hand. apply _. Qed.

Lemma listed_on_hand id p r k w : dinv w → as_pending w !! k = Some (Stored p) →
  prd_resolution_record p = Some r → rr_dispute_id r = id → on_hand id r w.
Proof.
  intros Hi Hp Hr Hk. split; [done|]. left. exists p. split; [|done].
  destruct (di_pending _ _ Hi _ _ Hp) as [Hid Ht]. specialize (Ht _ Hr). by rewrite <-Hid, <-Ht in Hp.
Qed.

(** What the recovery may commit. *)
Lemma recovers_can r d : dr_resolved_by (rr_resolution r) = Human →
  bool_decide (mdr_resolution d = None) || (bool_decide (is_Some (dr_rejection_reason (rr_resolution r)))
    && match mdr_resolution d with
       | Some c => bool_decide (dr_resolved_by c = Automatic) && negb (bool_decide (dr_resolution_id c = rr_resolution_id r))
       | None => false
       end) = true →
  can_recover_commit r d = true ∧ dr_resolution_id <$> mdr_resolution d ≠ Some (rr_resolution_id r).
Proof.
  intros Hh. unfold can_recover_commit. destruct (mdr_resolution d) as [c|]; [|done]. simpl.
  rewrite !andb_true_iff, negb_true_iff, bool_decide_eq_false, !bool_decide_eq_true.
  intros (? & ? & ?). split; [auto|congruence].
Qed.

Lemma triple_recover_human id d :
  T (at_dispute id d) (recover_human_resolution_locked id d)
    (λ '(d', o) w, at_dispute id d' w ∧ ∀ r, o = Some r → at_hand id r w).
Proof.
  unfold recover_human_resolution_locked.
  eapply T_bind; [apply (triple_read_optional hex_encode resolutions_dir id (at_dispute id d)); apply _|]. intros current.
  apply T_pre with (λ w, at_dispute id d w ∧ ∀ r, current = Some r → on_hand id r w).
  { intros w Hi [Hd Hc]. split; [done|]. intros r ->. simpl in Hc. split; [by apply (di_resolutions _ _ Hi)|].
    right. unfold stored_record. by rewrite (di_resolutions _ _ Hi _ _ Hc). }
  eapply T_bind; [apply triple_list_pending; apply _|]. intros deliveries.
  apply T_pre with (λ w, (at_dispute id d w ∧ ∀ r, current = Some r → on_hand id r w) ∧
    ∀ r, r ∈ filter (λ r, rr_dispute_id r = id ∧ dr_resolved_by (rr_resolution r) = Human)
           (omap prd_resolution_record deliveries) → on_hand id r w).
  { intros w Hi [H Hl]. split; [done|]. intros r [[Hk _] (p & Hp & Hr)%list_elem_of_omap]%list_elem_of_filter.
    apply Hl in Hp as [k Hp]. by eapply listed_on_hand. }
  generalize (filter (λ r, rr_dispute_id r = id ∧ dr_resolved_by (rr_resolution r) = Human)
    (omap prd_resolution_record deliveries)) as pending. intros pending.
  apply T_bind with (λ o w, at_dispute id d w ∧ ∀ r, match o with Some r => Some r | None => current end = Some r → on_hand id r w).
  { destruct pending as [|r [|]]; [| |apply T_fail]; apply T_ret; intros w _ [[Hd Hc] Hp]; split; [done|done|done|].
    intros ? [= <-]. apply Hp. by left. }
  intros o. generalize (match o with Some r => Some r | None => current end) as stored. intros stored. clear o.
  apply T_bind with (λ d' w, at_dispute id d' w ∧ ∀ r, stored = Some r → on_hand id r w);
    [|intros d'; exact (triple_recovered_answer id d' stored)].
  destruct stored as [r|]; [|by apply T_ret]. destruct (_ && _) eqn:Hcond; [|by apply T_ret].
  apply andb_true_iff in Hcond as [Hh%bool_decide_eq_true Hrec].
  destruct (recovers_can r d Hh Hrec) as [Hcan Hne].
  apply (T_assume hex_encode (rr_dispute_id r = id)); [solve_preserves| |]. { by intros w _ [_ [? _]%(λ H, H r eq_refl)]. }
  intros Hk. eapply T_pre with (λ w, at_dispute id d w ∧ pending_record r w).
  { intros w Hi [Hd Hs]. split; [done|]. destruct (Hs r eq_refl) as [_ Hf]. by eapply uncommitted_pending. }
  apply (T_write_commit id); [done..|]. apply T_ret. intros w _ (Hd & Hp & _). split; [done|].
  intros ? [= <-]. split; [done|by left].
Qed.

(** ** New records *)

Definition fresh_id (id : ArbitrationResolutionId) (w : ArbStore) : Prop := known hex_encode id w ∧ unused id w.

Lemma triple_draw K : Keeps false false false K →
  T K (draw hex_encode resolution_prefix) (λ c w, K w ∧ fresh_id c w).
Proof.
  intros HK. pose proof (draw_aside hex_encode resolution_prefix) as Ha.
  apply T_intro; [by eapply aside_grows|]. intros w r w' Hdis Hi Hk Hr. pose proof (Ha _ _ _ Hr) as Hf.
  split; [by eapply frame_dstep|]. split; [by eapply dinv_aside|]. intros c ->. split; [exact (HK w w' Hi Hf Hk)|].
  unfold draw in Hr. apply team_run in Hr as (t & [Hr Ht]%draw_step & ->). injection Hr as ->. subst t.
  assert (Hnew : ∀ id, known hex_encode id w → id ≠ resolution_id_of hex_encode (as_team w) (ts_drawn (as_team w))).
  { intros id (n & Hn & ->) He.
    apply (distinct_inj hex_encode (put_team (bump_drawn (as_team w)) w) n (ts_drawn (as_team w)) Hdis) in He; simpl in *; lia. }
  split; [|split].
  - exists (ts_drawn (as_team w)). split; [simpl; lia|done].
  - intros r Hr Hid. apply (occurs_aside hex_encode _ _ _ Hf) in Hr.
    destruct (di_occurs _ _ Hi _ Hr) as [Hkn _]. by apply Hnew in Hkn.
  - intros k d c Hd Hc Hid. destruct (di_exact _ _ Hi k d c Hd Hc) as [Hkn _]. by apply Hnew in Hkn.
Qed.

Lemma triple_mint id K : Keeps false false false K →
  T K (mint_resolution_id hex_encode self id) (λ c w, K w ∧ fresh_id c w).
Proof.
  intros HK. unfold mint_resolution_id. generalize (Nat.max (id_mint_max_attempts self) 1) as n.
  induction n as [|n IH]; simpl; [apply T_fail|].
  eapply T_bind; [by apply triple_draw|]. intros c. simpl.
  eapply T_aside; [apply resolution_id_exists_aside|apply _|]. intros [].
  - eapply T_pre; [|exact IH]. by intros w _ [? _].
  - by apply T_ret.
Qed.

(** Minting an inbox id takes a name that is free. *)
Lemma mint_inbox_run t r t' : mint_inbox_id_for_outbox hex_encode self t = (r, t') →
  (∃ id, r = Ok id ∧ ts_outbox t !! id = None ∧ ts_outbox t' = <[id := Reserved]> (ts_outbox t)) ∨
  ((∃ e, r = Err e) ∧ ts_outbox t' = ts_outbox t).
Proof.
  intros Hm. eapply (mint_inv outbox_dir _ _ (λ _, True) (λ _, True)) in Hm as [_ Hm]; [|by intros ? ? ? _ [= <- <-]|done..].
  destruct Hm as [(id & ? & _ & ? & ?)|?]; [left; eauto|by right].
Qed.

Lemma intent_targets_ids kind agents w l w' : intent_targets hex_encode self kind agents w = (Ok l, w') →
  Forall (λ t, msg_id (dti_inbox_message t) = dti_inbox_id t) l ∧ NoDup (dti_inbox_id <$> l) ∧
  Forall (λ t, ts_outbox (as_team w) !! dti_inbox_id t = None) l.
Proof.
  revert w l w'. induction agents as [|a agents IH]; simpl; intros w l w' Hr.
  { injection Hr as <- _. by repeat constructor. }
  apply bind_ok in Hr as (i & w1 & H1 & Hr). apply bind_ok in Hr as (rest & w2 & H2 & Hr).
  injection Hr as <- _. destruct (IH _ _ _ H2) as (Hids & Hnd & Hfree).
  apply team_run in H1 as (t & H1 & ->).
  apply mint_inbox_run in H1 as [(id & [= <-] & Hn & Ho)|[[? [=]] _]].
  assert (Hrest : Forall (λ t, dti_inbox_id t ≠ i ∧ ts_outbox (as_team w) !! dti_inbox_id t = None) rest).
  { eapply Forall_impl; [exact Hfree|]. intros t' Ht'. simpl in Ht'. rewrite Ho in Ht'.
    by apply lookup_insert_None in Ht' as [? ?]. }
  split_and!; constructor; [done..| |done|done|].
  - intros (t' & Ht' & Hin)%list_elem_of_fmap. rewrite Forall_forall in Hrest. by destruct (Hrest _ Hin).
  - eapply Forall_impl; [exact Hrest|]. by intros ? [? ?].
Qed.

Lemma triple_build d snapshots r dc now K : Keeps false false false K →
  T K (build_delivery_intent hex_encode self d snapshots r dc now)
    (λ i w, K w ∧ intent_ok i).
Proof.
  intros HK. apply triple_learn; [apply build_intent_aside|done|]. intros w i w' _ _.
  unfold build_delivery_intent. case_bool_decide; [done|].
  intros (? & w1 & _ & Hr)%bind_ok. apply bind_ok in Hr as (? & w2 & _ & Hr).
  apply bind_ok in Hr as (? & w3 & _ & Hr). apply bind_ok in Hr as (targets & w4 & Ht & Hr).
  injection Hr as <- _. by apply intent_targets_ids in Ht as (? & ? & _).
Qed.

Lemma fresh_introducible r w : fresh_id (rr_resolution_id r) w →
  rr_schema_version r = ARBITRATION_SCHEMA_VERSION → rr_resolution_id r = dr_resolution_id (rr_resolution r) →
  (∀ i, rr_delivery_intent r = Some i → intent_ok i) →
  introducible r w.
Proof. intros [Hk Hu] ? ? ?. split; [done|by split|by right]. Qed.

(** ** Resolutions by a person *)

Lemma triple_answer_recovered r same id now :
  T (at_hand id r) (answer_recovered r same id now) (λ _ _, True).
Proof.
  unfold answer_recovered. eapply T_seq; [by apply (triple_preempt hex_encode id now (at_hand id r)); apply _|].
  intros _. eapply T_seq; [eapply T_pre; [|apply (triple_persist hex_encode r _ (committed_record r)); apply _]|].
  - intros w Hi (Hk & Hf & Hc). split; [done|]. by apply occurs_introducible, filed_occurs.
  - intros _. eapply T_seq; [eapply T_pre; [|apply (triple_try_delivery r (λ _, True)); apply _]|].
    + intros w Hi [Hc Hp]. split_and!; [done..|by left].
    + intros _. destruct same; [by apply T_ret|apply T_fail].
Qed.

Lemma triple_commit_human r d id now : rr_dispute_id r = id → can_recover_commit r d = true →
  T (λ w, at_dispute id d w ∧ introducible r w) (commit_human r d now) (λ _ _, True).
Proof.
  intros Hk Hc. unfold commit_human.
  eapply T_seq; [apply (triple_persist hex_encode r now (at_dispute id d)); apply _|]. intros _.
  apply (T_write_commit id); [done..|].
  eapply T_seq; [eapply T_pre; [|apply (triple_preempt hex_encode _ now (λ w, filed r w ∧ committed_record r w)); apply _]|].
  { intros w _ (_ & ? & _ & ?). split; [by left|done]. }
  intros _. eapply T_seq; [eapply T_pre; [|apply (triple_try_delivery r (λ _, True)); apply _]|].
  { intros w _ [? ?]. by split_and!. }
  intros _. by apply T_ret.
Qed.

Lemma triple_read_record id rid K : Keeps false false false K →
  T K (read_resolution_record id rid)
    (λ r w, K w ∧ rr_resolution_id r = rid ∧ rr_dispute_id r = id ∧ occurs r w).
Proof.
  intros HK. unfold read_resolution_record.
  eapply T_bind; [apply (triple_read_optional hex_encode resolutions_dir id K HK)|]. intros stored.
  apply T_bind with (λ r w, K w ∧ (rr_resolution_id r = rid → rr_dispute_id r = id ∧ occurs r w)).
  - destruct stored as [r|].
    + apply T_ret. intros w Hi [Hk Hs]. split; [done|]. intros _. split; [by apply (di_resolutions _ _ Hi)|].
      right. left. eauto.
    + eapply T_pre with K; [by intros w _ [? _]|].
      apply triple_learn; [apply (preserves_read aside); apply _|done|].
      intros w r w' Hi _ Hr. pose proof (preserves_read aside decisions_dir _ _ _ _ Hr) as Hf.
      apply (read_yaml_ok decisions_dir) in Hr as [Hr Hd]. rewrite <-Hd in Hr. intros Hid.
      split; [|do 2 right; left; eauto].
      assert (Hi' : dinv w') by by eapply dinv_aside. by eapply (di_decisions _ _ Hi').
  - intros r. case_bool_decide as Hid; [|apply T_fail]. apply T_ret. intros w _ [Hk Ho].
    split; [done|]. destruct (Ho Hid). by split_and!.
Qed.

Lemma open_can r d : mdr_resolution d = None → can_recover_commit r d = true.
Proof. unfold can_recover_commit. by intros ->. Qed.

Lemma open_unresolved id d w : dinv w → at_dispute id d w → dispute_status (mdr_dispute d) = DisputeOpen →
  mdr_resolution d = None.
Proof.
  intros Hi Hd Ho. destruct (mdr_resolution d) as [c|] eqn:Hc; [|done].
  assert (is_Some (mdr_resolution d)) as H by eauto. apply (di_modern _ _ Hi _ _ Hd) in H. congruence.
Qed.
End ops.

(** * The flows of arbitration keep their commitments

    Resolution and replacement by a person, adoption and its recoveries,
    and the delivery of pending resolutions, from end to end. *)

Section flows.
Context (hex_encode : list Z → string) (self : Maintainer).

Abbreviation dinv := (dinv hex_encode).
Abbreviation dstep := (dstep hex_encode).
Abbreviation frame := (frame hex_encode).
Abbreviation aside := (frame false false false).
Abbreviation Keeps := (Keeps hex_encode).
Abbreviation introducible := (introducible hex_encode).
Abbreviation fresh_id := (fresh_id hex_encode).
Abbreviation T := (guarded dinv dstep grows (distinct hex_encode)).

(** ** Resolutions by a person *)

Lemma T_check {B} r (f : unit → AM B) K R : Keeps false false false K → (∀ a, T K (f a) R) → T K (check r ≫= f) R.
Proof. intros HK Hf. eapply T_seq; [apply triple_check|done]. Qed.

Lemma triple_resolve_human id input now : T (λ _, True) (resolve_human hex_encode self id input now) (λ _ _, True).
Proof.
  unfold resolve_human. apply T_check; [apply _|]. intros _.
  eapply T_aside; [apply lock_dispute_aside|apply _|]. intros _.
  eapply T_bind; [apply (triple_read_dispute hex_encode id (λ _, True)); apply _|]. intros d0. simpl.
  apply T_pre with (at_dispute id d0); [by intros w _ [_ ?]|].
  apply T_check; [apply _|]. intros _.
  apply T_bind with (λ '(d', o) w, at_dispute id d' w ∧ ∀ r, o = Some r → at_hand id r w).
  { case_bool_decide; [apply triple_recover_human|]. by apply T_ret. }
  intros [d [r|]].
  { eapply T_pre; [|apply triple_answer_recovered]. intros w _ [_ Hr]. by apply Hr. }
  case_bool_decide as Ho; simpl; [|apply T_fail].
  apply T_pre with (at_dispute id d); [by intros w _ [? _]|].
  apply (T_assume hex_encode (mdr_resolution d = None)); [solve_preserves|intros w Hi Hd; by eapply open_unresolved|]. intros Hn.
  eapply T_aside; [apply preserves_m_try, load_snapshots_aside|apply _|]. intros found.
  eapply T_seq with (Q := at_dispute id d).
  { destruct found; [by apply T_ret|]. destruct (_ && _); [by apply T_ret|apply T_fail]. }
  intros snapshots. eapply T_bind; [apply (triple_mint hex_encode self id (at_dispute id d)); apply _|]. intros rid.
  apply T_bind with (λ i w, (at_dispute id d w ∧ fresh_id rid w) ∧ ∀ x, i = Some x → intent_ok x).
  { destruct (hi_notify_affected_agents input).
    - eapply T_bind; [apply (triple_build hex_encode self); apply _|]. intros i. apply T_ret.
      intros w _ [? Hi]. split; [done|]. by intros ? [= <-].
    - by apply T_ret. }
  intros i. eapply T_pre; [|apply (triple_commit_human hex_encode _ _ id); [done|by apply open_can]].
  intros w _ [[Hd Hf] Hi]. split; [done|]. by apply fresh_introducible.
Qed.

Lemma triple_replace id input now d :
  T (at_dispute id d) (replace_resolution hex_encode self id input now d) (λ _ _, True).
Proof.
  unfold replace_resolution. destruct (mdr_resolution d) as [c|] eqn:Hc; [|apply T_fail].
  case_bool_decide as Hid; simpl; [|apply T_fail]. case_bool_decide as Ha; simpl; [|apply T_fail].
  apply T_check; [apply _|]. intros _.
  eapply T_bind; [apply (triple_read_record hex_encode id _ (at_dispute id d)); apply _|]. intros superseded.
  apply T_pre with (at_dispute id d); [by intros w _ [? _]|].
  eapply T_aside; [apply preserves_m_try, load_snapshots_aside|apply _|]. intros found.
  eapply T_bind; [apply (triple_mint hex_encode self id (at_dispute id d)); apply _|]. intros rid.
  eapply T_bind; [apply (triple_build hex_encode self); apply _|]. intros i.
  eapply T_pre; [|apply (triple_commit_human hex_encode _ _ id); [done|]].
  - intros w _ [[Hd Hf] Hi]. split; [done|]. apply fresh_introducible; [done..|]. by intros ? [= <-].
  - unfold can_recover_commit. rewrite Hc. simpl. by rewrite Ha.
Qed.

Lemma triple_reject id input now : T (λ _, True) (reject_and_replace hex_encode self id input now) (λ _ _, True).
Proof.
  unfold reject_and_replace. apply T_check; [apply _|]. intros _.
  eapply T_aside; [apply lock_dispute_aside|apply _|]. intros _.
  eapply T_bind; [apply (triple_read_dispute hex_encode id (λ _, True)); apply _|]. intros d0. simpl.
  apply T_pre with (at_dispute id d0); [by intros w _ [_ ?]|].
  eapply T_bind; [apply triple_recover_human|]. intros [d [r|]].
  - case_bool_decide; simpl.
    + eapply T_pre; [|apply triple_replace]. by intros w _ [? _].
    + eapply T_pre; [|apply triple_answer_recovered]. intros w _ [_ Hr]. by apply Hr.
  - eapply T_pre; [|apply triple_replace]. by intros w _ [? _].
Qed.

(** ** Adoption *)

(** The dispute may be committed to the record, or is already. *)
Definition committable (id : DisputeId) (r : ArbitrationResolutionRecord) (d : MaintainerDisputeRecord) : Prop :=
  rr_dispute_id r = id ∧ (mdr_resolution d = None ∨ dr_resolution_id <$> mdr_resolution d = Some (rr_resolution_id r)).

Lemma other_committable id r d : rr_dispute_id r = id → other_resolution d r = None → committable id r d.
Proof.
  intros Hk Ho. split; [done|]. unfold other_resolution in Ho. destruct (mdr_resolution d) as [c|]; [|by left].
  case_bool_decide; [right; simpl; congruence|done].
Qed.

Lemma triple_write_final a r K : an_pending_resolution a = None ∨ an_pending_resolution a = Some r →
  rr_dispute_id r = an_dispute_id a → Keeps true false false K → Keeps false false false K →
  T (λ w, K w ∧ filed r w) (write_analysis a) (λ _ _, True).
Proof.
  intros Hp Hk HK HK'. eapply T_post; [|eapply T_pre; [|apply (triple_write_analysis hex_encode a K); done]].
  - done.
  - intros w Hi [Hkw Hf]. split; [done|]. intros r' Hr. destruct Hp as [Hp|Hp]; [congruence|].
    assert (r' = r) as -> by congruence. split; [done|]. by apply occurs_introducible, filed_occurs.
Qed.

Lemma triple_finish_adoption a d r now id : committable id r d → an_dispute_id a = id →
  an_pending_resolution a = None ∨ an_pending_resolution a = Some r →
  T (λ w, at_dispute id d w ∧ introducible r w) (finish_analysis_adoption_locked a d r now) (λ _ _, True).
Proof.
  intros [Hk Hc] Ha Hp. unfold finish_analysis_adoption_locked.
  eapply T_seq; [apply (triple_persist hex_encode r now (at_dispute id d)); apply _|]. intros _.
  assert (Htail : T (λ w, stored_record r w ∧ pending_record r w ∧ committed_record r w)
    (delivered ← m_try (ensure_delivery r);
     let a' := match delivered with Ok _ => adopted now a | Err _ => still_adopting now a end in
     _ ← write_analysis a'; mret a') (λ _ _, True)).
  { eapply T_seq; [eapply T_pre; [|apply (triple_attempt hex_encode r (stored_record r)); apply _]|].
    - intros w _ (? & ? & ?). split_and!; [done..|by left].
    - intros delivered. eapply T_seq; [|intros ?; by apply T_ret].
      eapply T_pre; [|apply (triple_write_final _ r (λ _, True))]; [|by destruct delivered; [left|]|by destruct delivered; rewrite Hk|apply _..].
      intros w _ Hs. split; [done|by right]. }
  case_bool_decide as Ho.
  - apply (T_assume hex_encode (can_recover_commit r d = true)); [solve_preserves| |].
    { intros w Hi [Hd _]. apply open_can. by eapply open_unresolved. }
    intros Hcan. apply (T_write_commit hex_encode id); [done..|].
    eapply T_pre; [|exact Htail]. intros w _ (_ & ? & ? & ?). by split_and!.
  - eapply T_seq; [eapply T_pre; [|apply (triple_write_record hex_encode r (committed_record r)); apply _]|].
    + intros w Hi [Hd Hpe]. assert (Hcr : committed_record r w); [|split_and!; [done|done|by left]].
      destruct (mdr_resolution d) as [c|] eqn:Hr.
      * destruct Hc as [|Hc]; [done|]. injection Hc as Hc. exists d, c. rewrite Hk. by split_and!.
      * exfalso. apply Ho. destruct (dispute_status (mdr_dispute d)) eqn:Hst; [done|].
        apply (di_modern _ _ Hi _ _ Hd) in Hst as [? ?]. congruence.
    + intros _. eapply T_seq; [by apply T_ret; intros w _ (Hc' & Hpe & Hs); exact (conj Hs (conj Hpe Hc'))|].
      intros _. exact Htail.
Qed.

(** The analysis that was read, and the record it fixes. *)
Definition held (job : AnalysisJob) (a : ArbitrationAnalysis) (w : ArbStore) : Prop := seen (job_dispute_id job) a w.

#[export] Instance keeps_held job a : Keeps false false false (held job a).
Proof. apply keeps_seen. Qed.

Lemma triple_fixed job a : T (held job a) (fixed_analysis_resolution job a)
  (λ r w, held job a w ∧ rr_dispute_id r = job_dispute_id job ∧ occurs r w
    ∧ (an_pending_resolution a = None ∨ an_pending_resolution a = Some r)).
Proof.
  unfold fixed_analysis_resolution. destruct (an_resolution_id a) as [rid|]; [|apply T_fail].
  destruct (an_pending_resolution a) as [r|] eqn:Hp.
  - eapply T_bind with (λ x w, held job a w ∧ x = r); [by apply T_ret|]. intros r'.
    case_bool_decide; [|apply T_fail]. apply T_ret. intros w Hi [Hh Hr]. subst r'.
    destruct (seen_pending _ _ _ Hh r Hp). split_and!; [done..|by right].
  - eapply T_bind; [apply (triple_read_record hex_encode _ rid (held job a)); apply _|]. intros r.
    case_bool_decide; [|apply T_fail]. apply T_ret. intros w _ (Hh & _ & Hk & Ho). split_and!; [done..|by left].
Qed.

(** What an analysis update that keeps its pending resolution writes. *)
Lemma triple_update job a a' : an_dispute_id a' = an_dispute_id a →
  an_pending_resolution a' = None ∨ an_pending_resolution a' = an_pending_resolution a →
  T (held job a) (write_analysis a') (λ _ _, True).
Proof.
  intros Hid Hp. eapply T_post; [|eapply T_pre; [|apply (triple_write_seen hex_encode (job_dispute_id job) a a' (λ _, True)); [done|done|apply _..]]]; done.
Qed.

Lemma triple_commit_or_yield job a r now : rr_dispute_id r = job_dispute_id job →
  an_pending_resolution a = None ∨ an_pending_resolution a = Some r →
  T (λ w, held job a w ∧ occurs r w) (commit_or_yield job a r now) (λ _ _, True).
Proof.
  intros Hk Hp. unfold commit_or_yield.
  eapply T_bind; [apply (triple_read_dispute hex_encode (job_dispute_id job) (λ w, held job a w ∧ occurs r w)); apply _|].
  intros d. apply (T_assume hex_encode (an_dispute_id a = job_dispute_id job)); [solve_preserves|by intros w _ [[Hh _] _]; apply Hh|]. intros Ha.
  destruct (other_resolution d r) as [c|] eqn:Ho.
  - eapply T_seq; [|intros ?; by apply T_ret]. eapply T_pre; [|by apply (triple_update job a); [|left]].
    by intros w _ [[Hh _] _].
  - eapply T_seq; [|intros ?; by apply T_ret].
    eapply T_pre; [|apply (triple_finish_adoption a d r now (job_dispute_id job)); [by apply other_committable|done|done]].
    intros w Hi [[_ Hor] Hd]. split; [done|]. by apply occurs_introducible.
Qed.

Lemma fixed_aside job a : preserves aside (fixed_analysis_resolution job a).
Proof.
  unfold fixed_analysis_resolution, read_resolution_record.
  assert (Hro : ∀ k, preserves aside (read_optional resolutions_dir k)) by (intros; apply read_optional_aside).
  assert (Hr : ∀ k, preserves aside (read_yaml (E:=ArbError) decisions_dir k)) by (intros; apply preserves_read; apply _).
  solve_preserves.
Qed.

Lemma find_owner_aside id : preserves aside (find_human_analysis_adoption_owner id).
Proof.
  unfold find_human_analysis_adoption_owner. pose proof (read_current_aside hex_encode).
  pose proof fixed_aside. solve_preserves.
Qed.

Lemma triple_recover_adoption job now : T (λ _, True) (recover_analysis_adoption job now) (λ _ _, True).
Proof.
  unfold recover_analysis_adoption. eapply T_aside; [apply lock_dispute_aside|apply _|]. intros _.
  eapply T_bind; [apply (triple_read_analysis hex_encode job (λ _, True)); apply _|]. intros a. simpl.
  apply T_pre with (held job a). { by intros w _ (_ & ? & _). }
  case_bool_decide; simpl; [|by apply T_ret].
  eapply T_bind; [apply triple_fixed|]. intros r.
  apply (T_assume hex_encode (rr_dispute_id r = job_dispute_id job ∧
    (an_pending_resolution a = None ∨ an_pending_resolution a = Some r))); [solve_preserves| |]. { by intros w _ (_ & ? & _ & ?). }
  intros [Hk Hp]. apply T_pre with (λ w, held job a w ∧ occurs r w). { by intros w _ (? & _ & ? & _). }
  eapply (T_aside hex_encode); [|apply _|].
  { case_bool_decide; [apply find_owner_aside|apply preserves_ret, _]. }
  intros [o|]; [|by apply triple_commit_or_yield].
  case_bool_decide; [by apply triple_commit_or_yield|].
  eapply T_seq; [|intros ?; by apply T_ret]. eapply T_pre; [|by apply (triple_update job a); [|right]].
  by intros w _ [? _].
Qed.

Lemma triple_resume job expected now :
  T (λ _, True) (resume_matching_analysis_adoption_locked job expected now) (λ _ _, True).
Proof.
  unfold resume_matching_analysis_adoption_locked. eapply T_aside; [apply find_owner_aside|apply _|]. intros owner.
  apply T_seq with (λ _, True). { destruct owner; [case_bool_decide|]; (by apply T_ret) || apply T_fail. }
  intros _. eapply T_bind; [apply (triple_read_analysis hex_encode job (λ _, True)); apply _|]. intros a. simpl.
  apply T_pre with (held job a). { by intros w _ (_ & ? & _). }
  destruct (negb _); [by apply T_ret|].
  eapply T_bind; [apply triple_fixed|]. intros r.
  apply (T_assume hex_encode (rr_dispute_id r = job_dispute_id job ∧
    (an_pending_resolution a = None ∨ an_pending_resolution a = Some r))); [solve_preserves| |]. { by intros w _ (_ & ? & _ & ?). }
  intros [Hk Hp]. apply T_pre with (λ w, held job a w ∧ occurs r w). { by intros w _ (? & _ & ? & _). }
  destruct (negb _); [apply T_fail|].
  eapply T_bind; [apply (triple_read_dispute hex_encode (job_dispute_id job)); apply _|]. intros d.
  case_bool_decide. { case_bool_decide; [by apply T_ret|apply T_fail]. }
  apply (T_assume hex_encode (an_dispute_id a = job_dispute_id job)); [solve_preserves|by intros w _ [[Hh _] _]; apply Hh|]. intros Ha.
  destruct (other_resolution d r) as [c|] eqn:Ho.
  - eapply T_seq; [|intros _; apply T_fail]. eapply T_pre; [|by apply (triple_update job a); [|left]].
    by intros w _ [[Hh _] _].
  - eapply T_seq; [|intros ?; by apply T_ret].
    eapply T_pre; [|apply (triple_finish_adoption a d r now (job_dispute_id job)); [by apply other_committable|done|done]].
    intros w Hi [[_ Hor] Hd]. split; [done|]. by apply occurs_introducible.
Qed.
End flows.
