(* ===== verification/CommitmentService.v ===== *)
(** * The service and the event scheduler keep the commitments

    The adoption of an approved analysis, the recovery and retry of pending
    deliveries, and the phases of an analysis. *)

From S2P Require Import Prelude Storage Claim Maintainer Ledger Delivery Guarantees StepLogic ArbitrationTypes.
From S2P Require Import ArbitrationChecks ArbitrationStore Resolution Adoption ArbitrationContext Analysis.
From S2P Require Import ArbitrationRuns ArbitrationDraws Commitments CommitmentWrites CommitmentRules.
From S2P Require Import CommitmentSteps CommitmentOps.
Import Ids.

Section service.
Context (hex_encode : list Z → string) (maintainer : Maintainer) (self : ArbitrationService).

Abbreviation dinv := (dinv hex_encode).
Abbreviation dstep := (dstep hex_encode).
Abbreviation frame := (frame hex_encode).
Abbreviation aside := (frame false false false).
Abbreviation Keeps := (Keeps hex_encode).
Abbreviation introducible := (introducible hex_encode).
Abbreviation fresh_id := (fresh_id hex_encode).
Abbreviation T := (guarded dinv dstep grows (distinct hex_encode)).

(** ** Adopting an approved analysis *)

Lemma T_or_fail {A B} (o : option A) why (f : A → AM B) P R :
  (∀ x, T P (f x) R) → T P (or_fail o why ≫= f) R.
Proof. intros Hf. eapply T_seq; [|exact Hf]. destruct o; [by apply T_ret|apply T_fail]. Qed.

Lemma triple_begin job by_ now :
  T (λ _, True) (begin_analysis_adoption_locked hex_encode maintainer job by_ now) (λ _ _, True).
Proof.
  unfold begin_analysis_adoption_locked. set (id := job_dispute_id job).
  eapply T_bind; [apply (triple_read_analysis hex_encode job (λ _, True)); apply _|]. intros a. simpl.
  apply (T_assume hex_encode (an_dispute_id a = id)); [unfold or_fail; solve_preserves| |]. { intros w _ (_ & Hs & _). by apply Hs. } intros Ha.
  apply T_pre with (λ _, True); [done|].
  destruct (negb _); [apply T_fail|].
  eapply T_bind; [apply (triple_read_dispute hex_encode id (λ _, True)); apply _|]. intros d0. simpl.
  apply T_pre with (at_dispute id d0); [by intros w _ [_ ?]|].
  eapply T_bind; [apply triple_recover_human|]. intros [d [human|]].
  { eapply T_seq; [|intros _; apply (T_fail hex_encode _ (λ _, True))].
    eapply T_pre; [|apply (triple_try_delivery hex_encode human (λ _, True)); apply _].
    intros w _ [_ Hh]. by destruct (Hh human eq_refl) as (_ & ? & ?). }
  destruct (negb _) eqn:Hopen; [apply T_fail|].
  apply negb_false_iff in Hopen. unfold is_open in Hopen. apply andb_true_iff in Hopen as [_ Hn%bool_decide_eq_true].
  apply T_pre with (at_dispute id d); [by intros w _ [? _]|].
  apply T_or_fail. intros p. destruct (negb _); [apply T_fail|].
  apply T_or_fail. intros c. apply T_or_fail. intros fingerprint. apply T_or_fail. intros snapshot_hash.
  eapply T_bind; [apply (triple_mint hex_encode maintainer id (at_dispute id d)); apply _|]. intros rid.
  eapply T_bind; [apply (triple_build hex_encode maintainer); apply _|]. intros i.
  match goal with |- T _ (_ ← write_analysis (adopting ?x _ _); _) _ => set (r := x) end.
  eapply T_seq.
  { eapply T_pre; [|apply (triple_write_analysis hex_encode (adopting r now a) (at_dispute id d)); apply _].
    intros w _ [[Hd Hf] Hi]. split; [done|]. intros r' [= <-]. split; [by symmetry|].
    apply fresh_introducible; [done..|]. by intros ? [= <-]. }
  intros _. eapply T_seq; [|intros ?; by apply T_ret].
  eapply T_pre; [|apply (triple_finish_adoption hex_encode (adopting r now a) d r now id); [by split; [|left]|done|by right]].
  intros w Hi [Hd Hc]. split; [done|]. apply occurs_introducible; [done|]. do 3 right.
  exists (an_dispute_id (adopting r now a)), (adopting r now a). split; [by left|done].
Qed.

(** ** Pending deliveries *)

Lemma triple_drop id K : Keeps false false true K → Keeps false false false K →
  T (λ w, K w ∧ removable id w) (remove_pending_delivery id) (λ _, K).
Proof. apply triple_remove_pending. Qed.

(** The record a pending delivery is about. *)
Definition source_record (target : ResolutionEventTarget) (mine : option ArbitrationResolutionRecord)
    (r : ArbitrationResolutionRecord) (w : ArbStore) : Prop :=
  filed r w ∧ (mine = None → pending_record r w).

#[export] Instance keeps_source target mine r : Keeps false false false (source_record target mine r).
Proof.
  intros w w' Hi Hf [Hfi Hp]. split; [by eapply keeps_filed|]. intros Hm. by eapply keeps_pending; eauto.
Qed.

Lemma triple_recover_record target mine r d : rr_resolution_id r = ret_resolution_id target →
  rr_dispute_id r = ret_dispute_id target →
  T (λ w, source_record target mine r w ∧ at_dispute (ret_dispute_id target) d w)
    (let is_current := bool_decide (dr_resolution_id <$> mdr_resolution d = Some (ret_resolution_id target)) in
     if negb is_current && negb (can_recover_commit r d)
     then remove_pending_delivery (ret_resolution_id target)
     else
       _ ← (if negb is_current then
              _ ← write_resolution_record r;
              write_dispute (resolved_by_record (rr_resolution r) (dr_resolved_at (rr_resolution r)) d)
            else mret tt);
       _ ← match mine with Some _ => mret tt | None => write_resolution_record r end;
       ensure_delivery r)
    (λ _ w, dr_resolution_id <$> mdr_resolution d = Some (ret_resolution_id target) → delivered r w).
Proof.
  intros Hid Hk. simpl. set (id := ret_dispute_id target) in *.
  assert (Htail : T (λ w, committed_record r w ∧ filed r w ∧ (mine = None → pending_record r w))
    (_ ← match mine with Some _ => mret tt | None => write_resolution_record r end; ensure_delivery r) (λ _, delivered r)).
  { apply T_seq with (λ w, committed_record r w ∧ filed r w).
    - destruct mine as [m|]; [apply T_ret; by intros w _ (? & ? & _)|].
      eapply T_post; [|eapply T_pre; [|apply (triple_write_record hex_encode r (committed_record r)); apply _]].
      + intros _ w _ (? & ? & ?). split; [done|by left].
      + intros w _ (Hc & _ & Hp). split_and!; [done|by apply Hp|by left].
    - intros _. eapply T_post; [|eapply T_pre; [|apply (triple_ensure_delivery hex_encode r (λ _, True)); apply _]].
      + by intros _ w _ [_ ?].
      + intros w _ [Hc Hf]. split_and!; [done..|by apply filed_occurs]. }
  case_bool_decide as Hcur; simpl.
  - eapply T_seq; [apply (T_ret hex_encode tt _ (λ _ w, committed_record r w ∧ filed r w ∧ (mine = None → pending_record r w)))|intros _; eapply T_post; [|exact Htail]; done].
    intros w _ [[Hf Hp] Hd]. split_and!; [|done..].
    destruct (mdr_resolution d) as [c|] eqn:Hr; [|done]. injection Hcur as Hc. exists d, c. rewrite Hk. split_and!; [done..|].
    by rewrite Hc, Hid.
  - destruct (can_recover_commit r d) eqn:Hcan; simpl.
    + eapply T_seq; [|intros _; eapply T_post; [|exact Htail]; done].
      eapply T_pre; [|eapply T_post; [|apply (triple_write_commit hex_encode id r _ d); done]].
      * intros w Hi [[Hf _] Hd]. split; [done|]. eapply uncommitted_pending; [done..|]. by rewrite Hid.
      * intros _ w _ (_ & ? & _ & ?). split_and!; [done|by left|done].
    + eapply T_post; [|eapply T_pre; [|apply (triple_drop _ (λ _, True)); apply _]]; [done|].
      intros w Hi [[Hf _] Hd]. split; [done|]. intros r' Hp Hid'. right. exists d.
      assert (Hr : r' = r).
      { eapply (di_agree _ _ Hi); [by left|by apply filed_occurs|congruence]. }
      subst r'. by rewrite Hk.
Qed.

(** What the two reads of the recovery find. *)
Definition pending_slot (id : string) (o : option PendingResolutionDelivery) (w : ArbStore) : Prop :=
  match o with
  | Some p => as_pending w !! id = Some (Stored p)
  | None => as_pending w !! id = None
  end.

#[export] Instance keeps_pending_slot cur res id o : Keeps cur res false (pending_slot id o).
Proof. intros w w' Hi Hf. unfold pending_slot. by rewrite (fr_pen _ _ _ _ _ _ Hf). Qed.

Lemma slot_removable id o w : dinv w → pending_slot id o w → o ≫= prd_resolution_record = None → removable id w.
Proof.
  intros Hi Ho Hn r (p & Hp & Hr) Hid. rewrite Hid in Hp. unfold pending_slot in Ho.
  destruct o as [p'|]; [|congruence]. rewrite Hp in Ho. injection Ho as ->. simpl in Hn. congruence.
Qed.

Lemma slot_record id o r w : dinv w → pending_slot id o w → o ≫= prd_resolution_record = Some r →
  rr_resolution_id r = id → pending_record r w.
Proof.
  intros Hi Ho Hr Hid. destruct o as [p|]; [|done]. exists p. rewrite Hid. by split.
Qed.

Lemma triple_recover_pending target : T (λ _, True) (recover_pending_delivery target) (λ _ _, True).
Proof.
  unfold recover_pending_delivery. eapply T_aside; [apply lock_dispute_aside|apply _|]. intros _.
  set (id := ret_resolution_id target).
  eapply T_bind; [apply (triple_read_optional hex_encode pending_dir id (λ _, True)); apply _|]. intros pending. simpl.
  apply T_pre with (pending_slot id pending); [by intros w _ [_ ?]|].
  eapply T_bind; [apply (triple_read_optional hex_encode resolutions_dir (ret_dispute_id target)); apply _|].
  intros current. simpl.
  set (mine := match current with
               | Some r => if bool_decide (rr_resolution_id r = id) then Some r else None
               | None => None
               end).
  apply T_pre with (λ w, pending_slot id pending w ∧ ∀ r, mine = Some r → stored_record r w ∧ rr_resolution_id r = id).
  { intros w Hi [Hp Hc]. split; [done|]. intros r Hr. unfold mine in Hr. destruct current as [r'|]; [|done].
    case_bool_decide; [|done]. injection Hr as ->. split; [|done]. unfold stored_record.
    by rewrite (di_resolutions _ _ Hi _ _ Hc). }
  clearbody mine.
  assert (Hdrop : pending ≫= prd_resolution_record = None →
    T (λ w, pending_slot id pending w ∧ ∀ r, mine = Some r → stored_record r w ∧ rr_resolution_id r = id)
      (remove_pending_delivery id) (λ _ _, True)).
  { intros Hn. eapply T_pre; [|apply (triple_drop _ (λ _, True)); apply _].
    intros w Hi [Hs _]. split; [done|]. by eapply slot_removable. }
  destruct (match pending ≫= prd_resolution_record with Some r => Some r | None => mine end) as [r|] eqn:Hr.
  2: { apply Hdrop. by destruct (pending ≫= prd_resolution_record). }
  destruct (_ || _) eqn:Hids; [apply T_fail|].
  apply orb_false_iff in Hids as [Hid%negb_false_iff%bool_decide_eq_true Hk%negb_false_iff%bool_decide_eq_true].
  apply T_pre with (source_record target mine r).
  { intros w Hi [Hs Hm]. destruct (pending ≫= prd_resolution_record) as [r'|] eqn:Hpr.
    - injection Hr as ->. assert (pending_record r w) by by eapply slot_record. split; [by left|done].
    - simpl in Hr. subst mine. split; [right; by apply Hm|done]. }
  eapply T_bind; [apply (triple_read_dispute hex_encode (ret_dispute_id target)); apply _|]. intros d.
  eapply T_post; [|by apply triple_recover_record]. done.
Qed.

(** Of a dispute's own resolution it completes the delivery. *)
Lemma triple_deliver_current r d : dr_resolution_id <$> mdr_resolution d = Some (rr_resolution_id r) →
  T (λ w, pending_record r w ∧ at_dispute (rr_dispute_id r) d w) (recover_pending_delivery (record_target r))
    (λ _, delivered r).
Proof.
  intros Hcur. unfold recover_pending_delivery. set (K w := pending_record r w ∧ at_dispute (rr_dispute_id r) d w).
  assert (HK : Keeps false false false K) by (unfold K; apply _).
  eapply T_aside; [apply lock_dispute_aside|done|]. intros _. simpl.
  eapply T_bind; [by apply (triple_read_optional hex_encode pending_dir)|]. intros pending. simpl.
  apply T_pre with (λ w, K w ∧ pending ≫= prd_resolution_record = Some r).
  { intros w _ [[(p & Hp & Hr) Hd] Ho]. split; [by split; [exists p|]|]. destruct pending as [p'|]; [|congruence].
    rewrite Hp in Ho. injection Ho as <-. exact Hr. }
  apply T_pure; [solve_preserves|]. intros Hpr.
  eapply T_aside; [apply read_optional_aside|done|]. intros current. rewrite Hpr, !bool_decide_true by done. simpl.
  match goal with |- context [match ?o with Some _ => mret tt | None => write_resolution_record r end] => generalize o end.
  intros mine. eapply T_bind; [by apply (triple_read_dispute hex_encode (rr_dispute_id r) K)|]. intros d'. simpl.
  apply (T_assume hex_encode (d' = d)); [solve_preserves| |]. { intros w _ [[_ Hd] Hd']. unfold at_dispute in *. congruence. } intros ->.
  eapply T_post; [|eapply T_pre; [|by apply (triple_recover_record (record_target r) mine r d)]].
  - intros a w Hi H. by apply H.
  - intros w _ [[Hp _] Hd]. split; [|done]. split; [by left|done].
Qed.

Lemma triple_complete target now : T (λ _, True) (complete_analysis_adoption_after_delivery target now) (λ _ _, True).
Proof.
  unfold complete_analysis_adoption_after_delivery. eapply T_aside; [apply lock_dispute_aside|apply _|]. intros _.
  eapply T_aside; [apply read_optional_aside|apply _|]. intros [r|]; [|by apply T_ret].
  destruct (negb _); [by apply T_ret|]. destruct (rr_analysis_source_id r) as [s|]; [|by apply T_ret].
  eapply T_bind; [apply (triple_read_current hex_encode (ret_dispute_id target) (λ _, True)); apply _|].
  intros [a|]; simpl; [|by apply T_ret].
  destruct (negb _); [by apply T_ret|]. destruct (negb _); [by apply T_ret|]. destruct (negb _); [apply T_fail|].
  eapply T_pre; [|apply (triple_update hex_encode {| job_dispute_id := ret_dispute_id target; job_analysis_id := s |} a); [done|by left]].
  intros w _ [_ Hs]. by apply Hs.
Qed.

(** The pending file of a retry keeps its record. *)
Lemma put_retried_inv id p p' w : dinv w → as_pending w !! id = Some (Stored p) →
  prd_target p' = prd_target p → prd_resolution_record p' = prd_resolution_record p → dinv (put_delivery p' w).
Proof.
  intros Hi Hp Ht Hr. destruct (di_pending _ _ Hi _ _ Hp) as [Hid Hrec].
  apply dinv_pending with w; [apply put_delivery_frame| | |done].
  - intros r. unfold pending_record, put_delivery. simpl. rewrite Ht, Hid. split.
    + intros (q & Hq & Hqr). apply lookup_insert_Some in Hq as [[<- [= <-]]|[_ Hq]]; [|eauto].
      exists p. split; [done|congruence].
    + intros (q & Hq & Hqr). destruct (decide (rr_resolution_id r = id)) as [He|Hne].
      * rewrite He in *. exists p'. rewrite lookup_insert_eq. split; [done|]. congruence.
      * exists q. by rewrite lookup_insert_ne.
  - intros k q. unfold put_delivery. simpl. rewrite Ht, Hid. rewrite lookup_insert_Some.
    intros [[<- [= <-]]|[_ Hq]]; [|by apply Hi]. split; [by rewrite Ht|]. intros r Hr'. rewrite Ht. apply Hrec. congruence.
Qed.

Lemma triple_retry target now : T (λ _, True) (retry_delivery target now) (λ _ _, True).
Proof.
  unfold retry_delivery. set (id := ret_resolution_id target).
  eapply T_bind; [apply (triple_read_optional hex_encode pending_dir id (λ _, True)); apply _|]. intros [p|]; simpl.
  - eapply T_bind with (λ o w, as_pending w !! id = Some (Stored p) ∧ o = Some p); [by apply T_ret; intros w _ [_ ?]|].
    intros o. apply T_pure; [solve_preserves|]. intros ->. eapply T_seq; [|intros _; apply (T_ret hex_encode _ (λ _, True)); done].
    apply triple_write; [apply _|intros w w' Hi Hf; by rewrite (fr_pen _ _ _ _ _ _ Hf)|].
    intros w Hi Hp. simpl. fold (put_delivery (retried p now) w). split_and!; [|exact (put_retried_inv id p (retried p now) w Hi Hp eq_refl eq_refl)|done].
    exact (frame_dstep _ _ _ _ _ _ (put_delivery_frame hex_encode (retried p now) w)).
  - eapply T_pre with (λ _, True); [done|].
    eapply T_bind with (λ o w, ∀ p, o = Some p → ∃ r, prd_resolution_record p = Some r ∧ record_target r = prd_target p ∧ occurs r w).
    { eapply T_bind; [apply (triple_read_optional hex_encode resolutions_dir (ret_dispute_id target) (λ _, True)); apply _|].
      intros [r|]; simpl; [|by apply T_ret]. apply T_ret. intros w Hi [_ Hs] p.
      case_bool_decide as Hid; simpl; [|done]. case_bool_decide; [|done]. intros [= <-]. exists r. split; [done|]. split.
      - unfold record_target. rewrite Hid, (di_resolutions _ _ Hi _ _ Hs). by destruct target.
      - right; left. eauto. }
    intros [p|]; [|by apply T_ret]. eapply T_seq; [|intros _; apply (T_ret hex_encode _ (λ _, True)); done].
    apply (T_assume hex_encode (∃ r, prd_resolution_record p = Some r ∧ record_target r = prd_target p)); [solve_preserves| |].
    { intros w _ Hp. destruct (Hp p eq_refl) as (r & ? & ? & _). eauto. }
    intros (r & Hr & Ht). eapply T_post; [|eapply T_pre; [|apply (triple_write_delivery hex_encode (retried p now) r (λ _, True) Hr Ht); apply _]].
    + done.
    + intros w Hi Hp. destruct (Hp p eq_refl) as (r' & Hr' & _ & Ho). assert (r' = r) as -> by congruence.
      assert (introducible r w) by by apply occurs_introducible. split_and!; [done..|by eapply introducible_slot].
Qed.

Lemma triple_persist_retry event now : T (λ _, True) (persist_retry event now) (λ _ _, True).
Proof.
  destruct event as [target|target|job]; simpl; [apply triple_retry| |by apply T_ret].
  eapply T_aside; [apply observation_aside|apply _|]. intros _. by apply T_ret.
Qed.

Lemma triple_observed id : T (λ _, True) (remove_pending_observation id) (λ _ _, True).
Proof.
  apply triple_remove; [apply _..|]. intros w Hi _. simpl.
  assert (Hf : aside w (put_observe (delete id (as_observe w)) w)) by (split; try done; set_solver).
  split_and!; [by eapply frame_dstep|by eapply dinv_aside|done].
Qed.
End service.

(** * Every command of arbitration keeps the commitments *)

Section runs.
Context (hex_encode : list Z → string) (maintainer : Maintainer) (self : ArbitrationService).

Abbreviation dinv := (dinv hex_encode).
Abbreviation dstep := (dstep hex_encode).
Abbreviation frame := (frame hex_encode).
Abbreviation aside := (frame false false false).
Abbreviation Keeps := (Keeps hex_encode).
Abbreviation T := (guarded dinv dstep grows (distinct hex_encode)).
Abbreviation keeps_all m := (T (λ _, True) m (λ _ _, True)).

(** ** Phases *)

Lemma token_aside : preserves aside (random_lease_token hex_encode).
Proof.
  apply team_aside. intros t r t' [= _ <-]. split; [|done]. split; [|eauto|done|simpl; lia].
  intros Hi. split; [exact Hi|done].
Qed.

Lemma lease_aside phase now : preserves aside (new_lease hex_encode self phase now).
Proof. unfold new_lease. apply preserves_bind; [apply _|apply token_aside|]. intros t. apply preserves_ret, _. Qed.

#[local] Hint Resolve token_aside lease_aside clock_aside lock_dispute_aside read_dispute_aside
  read_current_aside draw_aside preserves_m_try : aside_steps.

(** The body of a locked section that read the analysis [a]. *)
Lemma T_then {A B} (m : AM A) (f : A → AM B) P : T P m (λ _ _, True) → (∀ a, keeps_all (f a)) → T P (m ≫= f) (λ _ _, True).
Proof. intros Hm Hf. by eapply T_seq. Qed.

Lemma T_analysis {B} job (f : ArbitrationAnalysis → AM B) :
  (∀ a, T (held job a) (f a) (λ _ _, True)) → keeps_all (read_analysis job ≫= f).
Proof.
  intros Hf. eapply T_bind; [apply (triple_read_analysis hex_encode job (λ _, True)); apply _|]. intros a.
  eapply T_pre; [|apply Hf]. by intros w _ (_ & ? & _).
Qed.

Lemma weaken {A} P (m : AM A) : keeps_all m → T P m (λ _ _, True).
Proof. by apply T_pre. Qed.

Ltac section_step :=
  first
    [ progress (intros; simpl)
    | solve [by apply T_ret]
    | solve [apply T_fail]
    | match goal with
      | |- guarded _ _ _ _ (held ?job ?a) (write_analysis _) _ => apply triple_update; [try done|try (by left); try (by right)]
      | |- guarded _ _ _ _ (held ?job ?a) (write_analysis _ ≫= _) _ =>
          apply T_then; [apply triple_update; [try done|try (by left); try (by right)]|]
      end
    | apply T_analysis
    | eapply T_aside; [solve [eauto with aside_steps]|apply _|]
    | apply T_check; [apply _|]
    | match goal with
      | |- guarded _ _ _ _ _ (match ?x with _ => _ end) _ => destruct x eqn:?
      end ].

Lemma triple_start_round job : keeps_all (start_reanalysis_round job).
Proof. unfold start_reanalysis_round. repeat section_step. Qed.

Lemma triple_wait_context job : keeps_all (record_waiting_context job).
Proof. unfold record_waiting_context. repeat section_step. Qed.

Lemma triple_save_context job b : keeps_all (save_prepared_context hex_encode self job b).
Proof. unfold save_prepared_context. repeat section_step. Qed.

Lemma triple_acquire job phase : keeps_all (acquire_phase hex_encode self job phase).
Proof. unfold acquire_phase. repeat section_step. Qed.

Lemma triple_save_proposal job token p : keeps_all (save_proposal hex_encode self job token p).
Proof. unfold save_proposal. repeat section_step. Qed.

Lemma completed_pending now threshold v a :
  an_dispute_id (verified threshold v now a) = an_dispute_id a ∧
  an_pending_resolution (verified threshold v now a) = an_pending_resolution a.
Proof. unfold verified. by destruct (completed_round _ _). Qed.

Lemma triple_save_verification job token v : keeps_all (save_verification self job token v).
Proof.
  unfold save_verification. repeat section_step; try apply completed_pending. right. apply completed_pending.
Qed.

Lemma preempt_pending a now a' : preempt_analysis_for_resolution a now = Some a' →
  an_dispute_id a' = an_dispute_id a ∧ an_pending_resolution a' = an_pending_resolution a.
Proof. unfold preempt_analysis_for_resolution. destruct (_ || _); [done|]. by intros [= <-]. Qed.

Lemma triple_mark_preempted job : keeps_all (mark_analysis_preempted job).
Proof.
  unfold mark_analysis_preempted. repeat section_step.
  - by eapply preempt_pending.
  - right. by eapply preempt_pending.
Qed.

Lemma triple_finish_failed job token code e : keeps_all (finish_failed job token code e).
Proof. unfold finish_failed. repeat section_step. Qed.

Lemma triple_fail_unleased job code e : keeps_all (finish_failed_without_lease job code e).
Proof. unfold finish_failed_without_lease. repeat section_step. Qed.

(** ** Adoption *)

Lemma triple_map_err {A} f (m : AM A) P (Q : A → ArbStore → Prop) : T P m Q → T P (m_map_err f m : AM A) Q.
Proof.
  intros Hm w r w' Hr Hp. unfold m_map_err in Hr. destruct (m w) as [r0 w0] eqn:Em. injection Hr as <- <-.
  destruct (Hm _ _ _ Em Hp) as (? & HQ). split; [done|]. intros Hok. destruct (HQ Hok) as (? & ? & HQa).
  split_and!; [done..|]. intros a Ha. apply HQa. by destruct r0; simplify_eq/=.
Qed.

Lemma triple_resume_adoption job by_ : keeps_all (resume_adoption job by_).
Proof.
  unfold resume_adoption. eapply T_aside; [apply clock_aside|apply _|]. intros now.
  apply triple_map_err, triple_resume.
Qed.

Lemma T_preconditions {B} r (f : unit → AM B) P R : (∀ a, T P (f a) R) → T P (lift_result r ≫= f) R.
Proof. intros Hf. eapply T_seq; [|exact Hf]. destruct r; [by apply T_ret|apply T_fail]. Qed.

Lemma triple_adopt_check job by_ : keeps_all (adopt_check job by_).
Proof.
  unfold adopt_check. eapply T_aside; [eauto with aside_steps|apply _|]. intros _.
  apply T_then; [apply triple_resume_adoption|]. intros [r|]; [by apply T_ret|].
  apply T_analysis. intros a. eapply T_aside; [eauto with aside_steps|apply _|]. intros d.
  apply T_preconditions. intros _. by apply T_ret.
Qed.

Lemma triple_adopt_commit job by_ current : keeps_all (adopt_commit hex_encode maintainer self job by_ current).
Proof.
  unfold adopt_commit, schedule_reanalysis. eapply T_aside; [eauto with aside_steps|apply _|]. intros _.
  apply T_then; [apply triple_resume_adoption|]. intros [r|]; [by apply T_ret|].
  apply T_analysis. intros a. eapply T_aside; [eauto with aside_steps|apply _|]. intros d.
  apply T_preconditions. intros _. destruct current as [b|e].
  2: { destruct e; try apply T_fail. repeat section_step. }
  destruct (negb _).
  2: { eapply T_aside; [eauto with aside_steps|apply _|]. intros now. by apply weaken, triple_map_err, triple_begin. }
  destruct (_ && _); [|repeat section_step].
  apply T_then; [|intros _; apply T_fail]. eapply T_aside; [eauto with aside_steps|apply _|]. intros now.
  apply triple_update; unfold scheduled; repeat case_bool_decide; try done; by left.
Qed.

(** ** Reports *)

Lemma triple_new_file a K : an_pending_resolution a = None → Keeps true false false K → Keeps false false false K →
  T K (write_yaml_atomic current_dir (an_dispute_id a) a) (λ _, K).
Proof.
  intros Hp HK HK'. eapply T_post; [|eapply T_pre; [|apply (triple_put_analysis hex_encode a K); done]].
  - by intros _ w _ [? _].
  - intros w _ Hk. split; [done|]. intros r Hr. congruence.
Qed.

Lemma new_analysis_aside id : preserves aside (new_analysis hex_encode self id).
Proof.
  unfold new_analysis. apply preserves_bind; [apply _|apply clock_aside|intros now].
  apply preserves_bind; [apply _|apply draw_aside|intros i]. apply preserves_ret, _.
Qed.

Lemma new_analysis_fresh id w a w' : new_analysis hex_encode self id w = (Ok a, w') →
  an_dispute_id a = id ∧ an_pending_resolution a = None.
Proof.
  unfold new_analysis. intros (now & w1 & _ & H)%bind_ok. apply bind_ok in H as (i & w2 & _ & H).
  by injection H as <- _.
Qed.

Lemma T_new_analysis {B} id (f : ArbitrationAnalysis → AM B) K R : Keeps false false false K →
  (∀ a, preserves grows (f a)) → (∀ a, an_dispute_id a = id → an_pending_resolution a = None → T K (f a) R) →
  T K (new_analysis hex_encode self id ≫= f) R.
Proof.
  intros HK Hg Hf. eapply T_bind; [apply (triple_learn hex_encode _ K (λ a _, an_dispute_id a = id ∧ an_pending_resolution a = None)); [apply new_analysis_aside|done|]|].
  - intros w a w' _ _. apply new_analysis_fresh.
  - intros a. apply T_pure; [done|]. intros [? ?]. by apply Hf.
Qed.

Lemma triple_create id : keeps_all (create_analysis hex_encode self id).
Proof.
  unfold create_analysis. eapply T_aside; [eauto with aside_steps|apply _|]. intros _.
  eapply T_aside; [eauto with aside_steps|apply _|]. intros d. destruct (negb _); [apply T_fail|].
  eapply T_aside; [eauto with aside_steps|apply _|]. intros current. destruct (match current with _ => _ end); [apply T_fail|].
  apply T_new_analysis; [apply _|unfold replace_current_analysis; solve_preserves|]. intros a _ Hp. apply T_then; [|intros _; by apply T_ret].
  by apply triple_new_file; [|apply _|apply _].
Qed.

Lemma validate_claims_aside d : preserves aside (validate_direct_claims d).
Proof.
  apply team_aside. unfold validate_new_dispute_direct_claims, load_team_claims. solve_preserves.
Qed.

Lemma triple_report_analysis d k :
  T (unreported k) (report_analysis hex_encode self d) (λ _, unreported k).
Proof.
  unfold report_analysis. eapply T_aside; [eauto with aside_steps|apply _|]. intros [existing|].
  { destruct (orphan_matches _ _); [by apply T_ret|apply T_fail]. }
  apply T_new_analysis; [apply _|unfold create_report_analysis, create_once_yaml; solve_preserves|]. intros a Ha Hp.
  eapply T_seq; [|intros _; by apply T_ret]. unfold create_report_analysis, create_once_yaml.
  eapply T_aside; [apply read_optional_aside|apply _|]. intros [x|].
  { destruct (analysis_eqb _ _); [by apply T_ret|apply T_fail]. }
  by apply triple_new_file; [|apply _|apply _].
Qed.

Lemma team_read_missing {A} (d : Dir TeamStore A) `{!DirLaws d} key w w' :
  team (read_yaml d key) w = (Err (AMaintainer (StorageErr FileNotFound)), w') → dir_get d (as_team w') !! key = None.
Proof.
  unfold team. destruct (read_yaml d key (as_team w)) as [[a|e] t] eqn:Er; [done|]. simpl.
  intros [= -> <-]. simpl. unfold read_yaml in Er. apply bind_cases in Er as [([] & t1 & H1 & H2)|(e & H1 & He)].
  - mrun_in H2. destruct (dir_get d t1 !! key) as [[]|] eqn:Hk; by simplify_eq.
  - apply io_inv in H1 as [[?|?] _]; simplify_eq.
Qed.

Lemma triple_report_dispute d : keeps_all (report_dispute hex_encode self d).
Proof.
  unfold report_dispute. destruct (validate_agent_report d) as [[]|] eqn:Hv; [|apply T_fail].
  assert (Ho : dispute_status d = DisputeOpen).
  { unfold validate_agent_report in Hv. repeat case_bool_decide; simplify_eq/=; done. }
  eapply T_aside; [eauto with aside_steps|apply _|]. intros _.
  eapply T_bind.
  { apply (triple_learn hex_encode _ (λ _, True) (λ r w, r = Err (AMaintainer (StorageErr FileNotFound)) → unreported (dispute_id d) w));
      [eauto with aside_steps|apply _|].
    intros w r w' _ _ Hr ->. unfold m_try in Hr. destruct (read_dispute (dispute_id d) w) as [r0 w0] eqn:Er.
    injection Hr as -> <-. by apply (team_read_missing disputes_dir) in Er. }
  intros [existing|e].
  { apply T_pre with (λ _, True); [done|]. destruct (negb _); [apply T_fail|].
    eapply T_aside; [eauto with aside_steps|apply _|]. intros c. by apply T_ret. }
  destruct e as [| [[]| | | | | | |] | | | | | | |]; try apply T_fail.
  apply T_pre with (unreported (dispute_id d)); [intros w _ [_ H]; by apply H|].
  unfold report_new. eapply T_aside; [apply validate_claims_aside|apply _|]. intros _.
  case_bool_decide.
  - eapply T_aside; [eauto with aside_steps|apply _|]. intros o. simpl.
    match goal with |- context [if ?b then _ else _] => destruct b; [apply T_fail|] end.
    apply T_then; [by apply triple_report|]. intros _. by apply T_ret.
  - eapply T_seq; [apply triple_report_analysis|]. intros a.
    apply T_then; [by apply triple_report|]. intros _. by apply T_ret.
Qed.
End runs.
