(* ===== verification/CommitmentLiveness.v ===== *)
(** * The Maintainer's own commands beside arbitration

    No command on the team store touches a resolution, a stored policy or
    the randomness already drawn; a report adds a dispute and changes none. *)

From S2P Require Import Prelude Storage Claim Maintainer Ledger Delivery DeliveryRuns Publish Sweep Guarantees.
From S2P Require Import StepLogic ArbitrationTypes ArbitrationChecks ArbitrationStore Resolution Adoption.
From S2P Require Import ArbitrationDraws Commitments CommitmentWrites CommitmentRules CommitmentSteps.
From S2P Require Import CommitmentOps.
Import Ids.

Section team.
Context (hex_encode : list Z → string) (self : Maintainer).

(** What a step beside the disputes leaves. *)
Record tcalm (t t' : TeamStore) : Prop := {
  tc_entropy : ts_entropy t' = ts_entropy t;
  tc_drawn : ts_drawn t ≤ ts_drawn t';
  tc_policies k p : ts_policies t !! k = Some (Stored p) → ∃ p', ts_policies t' !! k = Some (Stored p');
  tc_disputes : ts_disputes t' = ts_disputes t;
}.

#[export] Instance tcalm_preorder : PreOrder tcalm.
Proof.
  split; [intros t; split; eauto|]. intros t1 t2 t3 [H1 H2 H3 H4] [H5 H6 H7 H8].
  split; [congruence|lia|intros k p (? & ?)%H3; eauto|congruence].
Qed.

#[export] Instance tcalm_faults : FaultClosed tcalm.
Proof. intros fs t. split; eauto. Qed.

#[export] Instance tcalm_outbox : DirClosed tcalm outbox_dir.
Proof. intros m t. split; simpl; eauto. Qed.

Lemma tquiet_calm t t' : tquiet hex_encode t t' → tcalm t t'.
Proof. intros [[H1 H2 H3 H4] H5]. by split. Qed.

Lemma quiet_calm {E A} (m : M TeamStore E A) : preserves (tquiet hex_encode) m → preserves tcalm m.
Proof. intros Hm t r t' Hr. by eapply tquiet_calm, Hm. Qed.

Lemma draw_calm prefix : preserves tcalm (draw_id hex_encode prefix).
Proof. apply quiet_calm, draw_tquiet. Qed.
Lemma mint_policy_calm : preserves tcalm (mint_policy_id hex_encode self).
Proof. apply quiet_calm, mint_policy_tquiet. Qed.
Lemma mint_inbox_calm : preserves tcalm (mint_inbox_id_for_outbox hex_encode self).
Proof. apply quiet_calm, mint_inbox_tquiet. Qed.
Lemma policy_calm k p : preserves tcalm (write_yaml_atomic (E:=MaintainerError) policies_dir k p).
Proof. apply quiet_calm, write_policy_tquiet. Qed.
Lemma agents_calm {E} f : preserves (E:=E) tcalm (modify (λ w, set_agents (f w) w)).
Proof. intros t r t' [= _ <-]. split; simpl; eauto. Qed.

Lemma action_calm : preserves tcalm (mint_action_id_for_outbox hex_encode self).
Proof.
  unfold mint_action_id_for_outbox, outbox_list. case_bool_decide as Hn; clear Hn; [apply preserves_fail, _|].
  apply preserves_bind; [apply _|apply preserves_list; apply _|]. intros es.
  generalize (@None string). induction (id_mint_max_attempts self) as [|n IH]; intros last; simpl; [apply preserves_fail, _|].
  apply preserves_bind; [apply _|apply draw_calm|]. intros c.
  case_bool_decide; [apply IH|apply preserves_ret, _].
Qed.

#[local] Hint Resolve draw_calm mint_policy_calm mint_inbox_calm policy_calm agents_calm action_calm
  preserves_io preserves_io_step preserves_read preserves_list preserves_get preserves_write tcalm_preorder tcalm_faults tcalm_outbox : acn.

Lemma entries_calm kind action_id now items targets n :
  preserves tcalm (create_entries_loop hex_encode self kind action_id now items targets n).
Proof. revert n. induction targets as [|t targets IH]; intros n; simpl; unfold outbox_write; solve_preserves. Qed.
#[local] Hint Resolve entries_calm : acn.

Lemma suggestion_locked_calm statement now targets items :
  preserves tcalm (claim_update_suggestion_locked hex_encode self statement now targets items).
Proof. unfold claim_update_suggestion_locked, write_policy, create_outbox_entries. solve_preserves. Qed.
#[local] Hint Resolve suggestion_locked_calm : acn.

Lemma notify_calm sched now groups : ∀ report,
  preserves tcalm (notify_loop hex_encode self sched now groups report).
Proof.
  induction groups as [|[a items] groups IH]; intros report; simpl; [solve_preserves|].
  destruct (unscheduled sched a items) as [|i l]; [apply IH|].
  apply preserves_bind; [apply _|apply preserves_m_try, suggestion_locked_calm|intros; apply IH].
Qed.
#[local] Hint Resolve notify_calm : acn.

Lemma offers_calm agent now chosen : preserves tcalm (offer_loop agent now chosen).
Proof. induction chosen as [|e chosen IH]; simpl; unfold record_offered, outbox_write; solve_preserves. Qed.
Lemma deliveries_calm agent now ids : preserves tcalm (deliver_loop agent now ids).
Proof.
  induction ids as [|e ids IH]; simpl; [solve_preserves|]. apply preserves_bind; [apply _| |intros _; exact IH].
  apply preserves_m_map_err. unfold append_delivered, outbox_write. solve_preserves.
Qed.
#[local] Hint Resolve offers_calm deliveries_calm : acn.

(** Every command but a report leaves the disputes alone. *)
Lemma exec_calm fs c t : (∀ d, c ≠ CReport d) → tcalm t (exec hex_encode self (fs, c) t).
Proof.
  intros Hc. etrans; [apply (tcalm_faults fs t)|]. unfold exec. simpl.
  assert (Hrun : ∀ E A (m : M TeamStore E A), preserves tcalm m → tcalm (set_ts_faults fs t) (m (set_ts_faults fs t)).2).
  { intros E A m Hm. destruct (m (set_ts_faults fs t)) as [r t'] eqn:Em. by eapply Hm. }
  destruct c; try (by destruct (Hc d)); apply Hrun.
  - unfold publish_new_policy, lock_outbox_file, write_policy, create_outbox_entries. solve_preserves.
  - unfold deprecate_policy, lock_outbox_file, create_outbox_entries, write_policy. solve_preserves.
  - unfold claim_update_suggestion, lock_outbox_file. solve_preserves.
  - unfold upload_claim. solve_preserves.
  - unfold run_stale_sweep, list_all_claims, list_agent_ids, send_sweep_notifications, lock_outbox_file, outbox_list.
    solve_preserves.
  - unfold pull_inbox, lock_outbox_file, ensure_agent_registered, active_policy_id_set, list_policies, outbox_list.
    solve_preserves.
  - unfold ack_inbox, lock_outbox_file, outbox_list. solve_preserves.
    all: apply preserves_m_map_err; solve_preserves.
Qed.

Lemma exec_quiet fs c t : (∀ d, c ≠ CReport d) → tquiet hex_encode t (exec hex_encode self (fs, c) t).
Proof.
  intros Hc. destruct (exec_calm fs c t Hc) as [H1 H2 H3 H4]. split; [|done]. split; [|done..].
  intros Hi. destruct (exec_moves hex_encode self (fs, c) t Hi) as [Hr Hi']. split; [done|by apply outbox_run_le].
Qed.

Lemma read_none {A} (d : Dir TeamStore A) `{!DirLaws d} key t t' :
  read_yaml (E:=MaintainerError) d key t = (Err (StorageErr FileNotFound), t') → dir_get d t' !! key = None.
Proof.
  unfold read_yaml. intros [([] & t1 & H1 & H2)|(e & H1 & He)]%bind_cases.
  - mrun_in H2. destruct (dir_get d t1 !! key) as [[]|] eqn:Hk; by simplify_eq.
  - apply io_inv in H1 as [[?|?] _]; simplify_eq.
Qed.

(** A report leaves the disputes, or adds the one that was missing. *)
Lemma report_cases d t r t' : Maintainer.report_dispute d t = (r, t') →
  tquiet hex_encode t t' ∨
  ∃ v, tquiet hex_encode t v ∧ ts_disputes v !! dispute_id d = None ∧ dispute_status d = DisputeOpen ∧
    t' = set_disputes (<[dispute_id d := Stored (MaintainerDisputeRecord_from d)]> (ts_disputes v)) v.
Proof.
  unfold Maintainer.report_dispute. destruct (validate_agent_report d) as [[]|] eqn:Hv; [|intros [= _ <-]; by left].
  assert (Ho : dispute_status d = DisputeOpen).
  { unfold validate_agent_report in Hv. repeat case_bool_decide; simplify_eq/=; done. }
  assert (Hio : ∀ e, preserves (E:=MaintainerError) (tquiet hex_encode) (io_step e)) by (intros; apply preserves_io_step; apply _).
  intros [([] & t1 & H1 & H2)|(e & H1 & _)]%bind_cases; apply Hio in H1; [|by left].
  rewrite m_try_bind in H2. destruct (Maintainer.read_dispute (dispute_id d) t1) as [r0 t2] eqn:Hr.
  pose proof (preserves_read (tquiet hex_encode) disputes_dir _ _ _ _ Hr) as Hq2.
  assert (Hq : tquiet hex_encode t t2) by by etrans.
  destruct r0 as [ex|e0]. { destruct (same_report_payload _ _); injection H2 as _ <-; by left. }
  destruct (decide (e0 = StorageErr FileNotFound)) as [->|Hne].
  2: { left. by destruct e0 as [[]| | | | | | |]; try done; injection H2 as _ <-. }
  apply (read_none disputes_dir) in Hr. simpl in Hr.
  assert (Hval : preserves (tquiet hex_encode) (validate_new_dispute_direct_claims d)).
  { unfold validate_new_dispute_direct_claims, load_team_claims. solve_preserves. }
  apply bind_cases in H2 as [([] & t3 & H2 & H3)|(e & H2 & _)]; apply Hval in H2; [|left; by etrans].
  assert (Hq3 : tquiet hex_encode t t3) by by etrans.
  assert (Hn : ts_disputes t3 !! dispute_id d = None) by (destruct H2 as [_ ->]; exact Hr).
  unfold Maintainer.write_dispute in H3. destruct (validate_dispute_record _); [|injection H3 as _ <-; by left].
  unfold write_yaml_atomic in H3. apply bind_cases in H3 as [([] & t4 & H3 & H4)|(e & H3 & _)];
    pose proof (Hio _ _ _ _ H3) as Hq4; [|left; by etrans].
  right. exists t4. injection H4 as _ <-. split_and!; [by etrans| |done|done].
  destruct Hq4 as [_ ->]. exact Hn.
Qed.
End team.

(** * A pending delivery succeeds once the file system does

    [succeeds R m]: from a store without faults in which [R] holds, the
    operation returns a value and leaves no fault behind. *)

Definition calm (w : ArbStore) : Prop := faults w = [].

Definition succeeds {A} (P : ArbStore → Prop) (m : AM A) (Q : A → ArbStore → Prop) : Prop :=
  ∀ w, calm w → P w → ∃ a w', m w = (Ok a, w') ∧ calm w' ∧ Q a w'.

Lemma S_bind {A B} (m : AM A) (f : A → AM B) P Q R :
  succeeds P m Q → (∀ a, succeeds (Q a) (f a) R) → succeeds P (m ≫= f) R.
Proof.
  intros Hm Hf w Hc Hp. destruct (Hm w Hc Hp) as (a & w1 & H1 & Hc1 & Hq).
  destruct (Hf a w1 Hc1 Hq) as (b & w2 & H2 & ? & ?). exists b, w2. split; [|done].
  unfold mbind, M_bind. by rewrite H1.
Qed.

Lemma S_seq {A B} (m : AM A) (k : AM B) P Q R :
  succeeds P m (λ _, Q) → succeeds Q k R → succeeds P (_ ← m; k) R.
Proof. intros Hm Hk. by eapply S_bind. Qed.

Lemma S_ret {A} (a : A) P (Q : A → ArbStore → Prop) : (∀ w, P w → Q a w) → succeeds P (mret a) Q.
Proof. intros H w Hc Hp. eexists _, w. by split_and!; [|done|apply H]. Qed.

Lemma S_pre {A} P P' (m : AM A) Q : (∀ w, P w → P' w) → succeeds P' m Q → succeeds P m Q.
Proof. intros H Hm w Hc Hp. by apply Hm, H. Qed.

Lemma S_io P : succeeds P io (λ _, P).
Proof. intros w Hc Hp. exists tt, w. by rewrite io_no_fault. Qed.

Lemma S_io_step e P : succeeds P (io_step e) (λ _, P).
Proof. intros w Hc Hp. exists tt, w. unfold io_step. by rewrite Hc. Qed.

Lemma S_modify f P (Q : ArbStore → Prop) : (∀ w, calm w → P w → calm (f w) ∧ Q (f w)) → succeeds P (modify f) (λ _, Q).
Proof. intros H w Hc Hp. eexists _, _. split; [done|]. by apply H. Qed.

Lemma S_gets {A} (f : ArbStore → A) P : succeeds P (gets f) (λ a w, P w ∧ a = f w).
Proof. intros w Hc Hp. by eexists _, w. Qed.

Lemma S_write {A} (d : Dir ArbStore A) key v P (Q : ArbStore → Prop) :
  (∀ m w, faults (dir_set d m w) = faults w) → (∀ w, P w → Q (dir_set d (<[key := Stored v]> (dir_get d w)) w)) →
  succeeds P (write_yaml_atomic d key v) (λ _, Q).
Proof.
  intros Hd H. unfold write_yaml_atomic. eapply S_seq; [apply S_io|]. apply S_modify.
  intros w Hc Hp. split; [unfold calm; by rewrite Hd|by apply H].
Qed.

Definition stored_of {A} (f : option (file A)) : option A :=
  match f with Some (Stored a) => Some a | _ => None end.

Lemma read_calm {W E A} `{!HasIO W} `{!FromStorage E} (d : Dir W A) key w : faults w = [] →
  read_yaml (E:=E) d key w =
    (match dir_get d w !! key with
     | None => Err (from_storage FileNotFound)
     | Some Reserved => Err (from_storage DecodeFailed)
     | Some (Stored a) => Ok a
     end, w).
Proof.
  intros Hc. unfold read_yaml. rewrite (bind_step _ _ w tt w) by by apply io_no_fault.
  unfold mbind, M_bind, get_world, gets. by destruct (dir_get d w !! key) as [[]|].
Qed.

Lemma S_read_optional {A} (d : Dir ArbStore A) key P :
  succeeds (λ w, P w ∧ dir_get d w !! key ≠ Some Reserved) (read_optional d key)
    (λ o w, P w ∧ o = stored_of (dir_get d w !! key)).
Proof.
  intros w Hc [Hp Hr]. exists (stored_of (dir_get d w !! key)), w. split; [|done].
  unfold read_optional. rewrite m_try_bind, read_calm by done. by destruct (dir_get d w !! key) as [[|a]|].
Qed.

Lemma S_for_each {X} (f : X → AM unit) l P : (∀ x, x ∈ l → succeeds P (f x) (λ _, P)) →
  succeeds P (for_each f l) (λ _, P).
Proof.
  induction l as [|x l IH]; intros H; simpl; [by apply S_ret|].
  eapply S_seq; [apply H; by left|]. apply IH. intros y Hy. apply H. by right.
Qed.

(** ** Deliveries *)

Definition team_eq (t : TeamStore) (w : ArbStore) : Prop := as_team w = t.

(** The file is missing, a placeholder, or already what is wanted. *)
Definition policy_ready (p : Policy) (t : TeamStore) : Prop :=
  ∀ p', ts_policies t !! policy_id p = Some (Stored p') → p' = p.
Definition entry_ready (e : OutboxEntry) (t : TeamStore) : Prop :=
  ∀ e', ts_outbox t !! ob_inbox_id e = Some (Stored e') → same_payload e' e = true.

Lemma team_read_calm {A} (d : Dir TeamStore A) key w : calm w →
  m_try (team (read_yaml d key)) w =
    (Ok (map_err AMaintainer (match dir_get d (as_team w) !! key with
       | None => Err (StorageErr FileNotFound)
       | Some Reserved => Err (StorageErr DecodeFailed)
       | Some (Stored a) => Ok a
       end)), put_team (as_team w) w).
Proof. intros Hc. by rewrite team_try, read_calm. Qed.

Lemma team_write_calm {A} (d : Dir TeamStore A) key v w : calm w →
  team (write_yaml_atomic (E:=MaintainerError) d key v) w =
    (Ok tt, put_team (dir_set d (<[key := Stored v]> (dir_get d (as_team w))) (as_team w)) w).
Proof.
  intros Hc. unfold team, write_yaml_atomic. by rewrite (bind_step _ _ (as_team w) tt (as_team w)) by by apply io_no_fault.
Qed.

Lemma S_policy p (P : TeamStore → Prop) :
  (∀ t m, P t → P (set_policies m t)) →
  succeeds (λ w, P (as_team w) ∧ policy_ready p (as_team w)) (ensure_policy p) (λ _ w, P (as_team w)).
Proof.
  intros HP w Hc [Hp Hr]. unfold ensure_policy. unfold mbind, M_bind. rewrite team_read_calm by done. simpl.
  assert (Hw : ∃ w', team (write_yaml_atomic policies_dir (policy_id p) p) (put_team (as_team w) w) = (Ok tt, w') ∧ calm w' ∧ P (as_team w')).
  { rewrite team_write_calm by done. eexists. split_and!; [done|done|]. by apply HP. }
  destruct (ts_policies (as_team w) !! policy_id p) as [[|p']|] eqn:Hk; simpl.
  - unfold is_zero_length, mbind, M_bind. rewrite io_no_fault by done. destruct Hw as (w' & ? & ? & ?). by exists tt, w'.
  - apply Hr in Hk as ->. rewrite bool_decide_true by done. by eexists _, _.
  - destruct Hw as (w' & ? & ? & ?). by exists tt, w'.
Qed.

Lemma S_entry e (P : TeamStore → Prop) :
  (∀ t v, P t → P (set_outbox (<[ob_inbox_id e := v]> (ts_outbox t)) t)) →
  succeeds (λ w, P (as_team w) ∧ entry_ready e (as_team w)) (ensure_outbox_entry e) (λ _ w, P (as_team w)).
Proof.
  intros HP w Hc [Hp Hr]. unfold ensure_outbox_entry. unfold mbind, M_bind. rewrite team_read_calm by done. simpl.
  assert (Hw : ∃ w', team (outbox_write e) (put_team (as_team w) w) = (Ok tt, w') ∧ calm w' ∧ P (as_team w')).
  { unfold outbox_write. rewrite team_write_calm by done. eexists. split_and!; [done|done|]. by apply HP. }
  destruct (ts_outbox (as_team w) !! ob_inbox_id e) as [[|e']|] eqn:Hk; simpl.
  - unfold is_zero_length, mbind, M_bind. rewrite io_no_fault by done. destruct Hw as (w' & ? & ? & ?). by exists tt, w'.
  - rewrite (Hr _ Hk). by eexists _, _.
  - destruct Hw as (w' & ? & ? & ?). by exists tt, w'.
Qed.

Lemma S_entries {X} (f : X → OutboxEntry) l : NoDup (ob_inbox_id ∘ f <$> l) →
  succeeds (λ w, ∀ x, x ∈ l → entry_ready (f x) (as_team w)) (for_each (λ x, ensure_outbox_entry (f x)) l) (λ _ _, True).
Proof.
  induction l as [|x l IH]; simpl; [intros _; by apply S_ret|].
  intros [Hx Hl]%NoDup_cons. eapply S_seq; [|by apply IH].
  eapply S_pre; [|apply (S_entry (f x) (λ t, ∀ y, y ∈ l → entry_ready (f y) t))].
  - intros w H. split; [intros y Hy|]; apply H; by constructor.
  - intros t v Ht y Hy e'. simpl. rewrite lookup_insert_ne; [by apply Ht|]. intros He. apply Hx.
    apply list_elem_of_fmap. exists y. by split.
Qed.

(** What the redelivery of [r] needs of the files that others can write. *)
Definition ready (r : ArbitrationResolutionRecord) (t : TeamStore) : Prop :=
  ∀ i, rr_delivery_intent r = Some i →
    policy_ready (di_policy i) t ∧ ∀ x, x ∈ di_targets i → entry_ready (intent_entry r i x) t.

Lemma S_register r : succeeds (λ _, True) (register_resolution_event_targets r) (λ _ _, True).
Proof.
  unfold register_resolution_event_targets. eapply S_seq with (Q := λ _, True).
  - destruct (rr_delivery_intent r) as [i|]; [|by apply S_ret].
    eapply S_seq with (Q := λ _, True); [by apply S_write|]. apply S_for_each. intros x _. by apply S_write.
  - apply S_for_each. intros x _. by apply S_write.
Qed.

Lemma S_history r : succeeds (λ _, True) (ensure_resolution_history r) (λ _ _, True).
Proof.
  assert (Htail : ∀ (b : bool) f, (∀ w, faults (f w) = faults w) →
    succeeds (λ _, True) (if b then mret tt else _ ← io; modify f) (λ _ _, True)).
  { intros [] f Hf; [by apply S_ret|]. eapply S_seq; [apply S_io|]. apply S_modify. intros w Hc _.
    unfold calm. by rewrite Hf. }
  unfold ensure_resolution_history. eapply S_seq with (Q := λ _, True).
  - destruct (rr_delivery_intent r) as [i|]; [|by apply S_ret]. unfold ensure_policy_event.
    eapply S_seq; [apply S_io|]. eapply S_bind; [apply S_gets|]. intros l. eapply S_pre; [|by apply Htail]. done.
  - unfold ensure_dispute_resolution_event.
    eapply S_seq; [apply S_io|]. eapply S_bind; [apply S_gets|]. intros l. eapply S_pre; [|by apply Htail]. done.
Qed.

Lemma S_remove_pending id :
  succeeds (λ _, True) (remove_pending_delivery id) (λ _ w, as_pending w !! id = None).
Proof.
  unfold remove_pending_delivery, remove_file. eapply S_seq; [apply S_io|]. apply S_modify. intros w Hc _.
  split; [done|]. simpl. by rewrite lookup_delete_eq.
Qed.

Lemma S_ensure_delivery r : record_ok r →
  succeeds (λ w, ready r (as_team w)) (ensure_delivery r) (λ _ w, as_pending w !! rr_resolution_id r = None).
Proof.
  intros Hok. unfold ensure_delivery. eapply S_seq with (Q := λ _, True).
  - destruct (rr_delivery_intent r) as [i|] eqn:Hi; [|by apply S_ret].
    eapply S_seq with (Q := λ w, policy_ready (di_policy i) (as_team w) ∧
      ∀ x, x ∈ di_targets i → entry_ready (intent_entry r i x) (as_team w)).
    { intros w Hc Hr. exists tt, (put_team (as_team w) w). split; [|split; [done|by apply Hr]].
      unfold team, lock_outbox_file, io_step. change (ts_faults (as_team w)) with (faults w).
      unfold faults at 1. simpl. unfold calm in Hc. simpl in Hc. by rewrite Hc. }
    eapply S_seq.
    { eapply S_pre; [|apply (S_policy (di_policy i) (λ t, ∀ x, x ∈ di_targets i → entry_ready (intent_entry r i x) t))].
      - by intros w [? ?].
      - done. }
    apply S_entries. destruct (rok_targets _ Hok i Hi) as [_ Hnd]. by rewrite <-list_fmap_compose in Hnd || exact Hnd.
  - eapply S_seq; [apply S_register|]. eapply S_seq with (Q := λ _, True); [by apply S_write|].
    eapply S_seq; [apply S_history|]. apply S_remove_pending.
Qed.

Lemma put_team_id w : put_team (as_team w) w = w.
Proof. by destruct w. Qed.

Lemma read_optional_calm {A} (d : Dir ArbStore A) key w : calm w → dir_get d w !! key ≠ Some Reserved →
  read_optional d key w = (Ok (stored_of (dir_get d w !! key)), w).
Proof.
  intros Hc Hr. unfold read_optional. rewrite m_try_bind, read_calm by done. by destruct (dir_get d w !! key) as [[|a]|].
Qed.

Lemma read_dispute_calm k d w : calm w → at_dispute k d w → read_dispute k w = (Ok d, w).
Proof.
  intros Hc Hd. unfold read_dispute, team, Maintainer.read_dispute. rewrite read_calm by done.
  unfold at_dispute, disp in Hd. simpl. rewrite Hd. simpl. by rewrite put_team_id.
Qed.

(** The recovery of the pending delivery of a dispute's resolution. *)
Lemma recover_pending_succeeds r d w : calm w → record_ok r → pending_record r w →
  at_dispute (rr_dispute_id r) d w → dr_resolution_id <$> mdr_resolution d = Some (rr_resolution_id r) →
  as_resolutions w !! rr_dispute_id r ≠ Some Reserved → ready r (as_team w) →
  ∃ w', recover_pending_delivery (record_target r) w = (Ok tt, w') ∧ as_pending w' !! rr_resolution_id r = None.
Proof.
  intros Hc Hok (p & Hp & Hpr) Hd Hcur Hres Hready. unfold recover_pending_delivery. simpl.
  rewrite (bind_step _ _ w tt w). 2: { unfold lock_dispute, io_step. by rewrite Hc. }
  unfold read_pending_delivery.
  rewrite (bind_step _ _ w (Some p) w). 2: { rewrite read_optional_calm; [simpl; by rewrite Hp|done|simpl; by rewrite Hp]. }
  unfold read_current_resolution_record.
  rewrite (bind_step _ _ w (stored_of (as_resolutions w !! rr_dispute_id r)) w). 2: { by rewrite read_optional_calm. }
  simpl. rewrite Hpr. rewrite !bool_decide_true by done. simpl.
  rewrite (bind_step _ _ w d w) by by apply read_dispute_calm. rewrite bool_decide_true by done. simpl.
  rewrite (bind_step _ _ w tt w) by done.
  match goal with |- context [match ?o with Some _ => mret tt | None => write_resolution_record r end] => set (mine := o) end.
  assert (Hrest : succeeds (λ w, ready r (as_team w))
    (_ ← match mine with Some _ => mret tt | None => write_resolution_record r end; ensure_delivery r)
    (λ _ w, as_pending w !! rr_resolution_id r = None)).
  { eapply S_seq; [|by apply S_ensure_delivery]. destruct mine; [by apply S_ret|].
    unfold write_resolution_record. rewrite (bool_decide_true (rr_schema_version r = _)) by apply Hok.
    rewrite (bool_decide_true (rr_resolution_id r = dr_resolution_id _)) by apply Hok. by apply S_write. }
  destruct (Hrest w Hc Hready) as ([] & w' & Hrun & _ & Hn). by exists w'.
Qed.
