(* ===== verification/CommitmentGuarantees.v ===== *)
(** * What runs of arbitration guarantee

    Over any sequence of commands of any workers, each under its own
    faults: a resolution is final but for one replacement of an automatic
    one by a person, and a committed resolution is pending or delivered. *)

From S2P Require Import Prelude Storage Claim Maintainer Ledger Delivery Guarantees StepLogic ArbitrationTypes.
From S2P Require Import ArbitrationChecks ArbitrationStore Resolution Adoption ArbitrationContext Analysis.
From S2P Require Import ArbitrationRuns ArbitrationDraws Commitments CommitmentWrites CommitmentRules CommitmentSteps.
From S2P Require Import CommitmentOps CommitmentService CommitmentLiveness.
Import Ids.

Section guarantees.
Context (hex_encode : list Z → string) (maintainer : Maintainer) (self : ArbitrationService).

Abbreviation dinv := (dinv hex_encode).
Abbreviation dstep := (dstep hex_encode).
Abbreviation aside := (frame hex_encode false false false).
Abbreviation T := (guarded dinv dstep grows (distinct hex_encode)).
Abbreviation arb_run := (arb_run hex_encode maintainer self).

(** What a step does, provided no id was drawn twice by its end. *)
Definition kept (w w' : ArbStore) : Prop :=
  (distinct hex_encode w → dinv w) → grows w w' ∧ (distinct hex_encode w' → dstep w w' ∧ dinv w').

Lemma aside_kept w w' : aside w w' → kept w w'.
Proof.
  intros Hf Hi. pose proof (frame_grows _ _ _ _ _ _ Hf) as Hg. split; [done|]. intros Hd.
  apply (distinct_grows hex_encode _ _ Hg) in Hd. split; [by eapply frame_dstep|]. eapply dinv_aside; [done|by apply Hi].
Qed.

Lemma kept_trans w1 w2 w3 : kept w1 w2 → kept w2 w3 → kept w1 w3.
Proof.
  intros H1 H2 Hi. destruct (H1 Hi) as [Hg1 Hk1]. destruct (H2 (λ Hd, proj2 (Hk1 Hd))) as [Hg2 Hk2].
  split; [by etrans|]. intros Hd. destruct (Hk2 Hd) as [Hs2 Hi3].
  destruct (Hk1 (distinct_grows hex_encode _ _ Hg2 Hd)) as [Hs1 _]. split; [by etrans|done].
Qed.

Lemma run_kept {A} (m : AM A) fs w : T (λ _, True) m (λ _ _, True) → kept w (m (set_faults fs w)).2.
Proof.
  intros Hm. eapply kept_trans; [apply aside_kept, (frame_faults hex_encode false false false fs)|].
  intros Hi. destruct (m (set_faults fs w)) as [r w'] eqn:Em. simpl.
  destruct (Hm _ _ _ Em) as (Hg & HQ); [auto|]. split; [done|]. intros Hd. by destruct (HQ Hd) as (? & ? & _).
Qed.

Lemma team_kept t w : tquiet hex_encode (as_team w) t → kept w (put_team t w).
Proof. intros [Ht Hd]. apply aside_kept. split; try done; simpl; set_solver. Qed.

Lemma command_kept fs c w : kept w (put_team (exec hex_encode maintainer (fs, c) (as_team w)) w).
Proof.
  assert (Hc : (∃ d, c = CReport d) ∨ ∀ d, c ≠ CReport d) by (destruct c; eauto).
  destruct Hc as [[d ->]|Hc]; [|by apply team_kept, exec_quiet].
  unfold exec. simpl. destruct (Maintainer.report_dispute d (set_ts_faults fs (as_team w))) as [r t] eqn:Hr.
  simpl. assert (Hq0 : tquiet hex_encode (as_team w) (set_ts_faults fs (as_team w))) by apply tquiet_faults.
  apply (report_cases hex_encode) in Hr as [Hq|(v & Hq & Hn & Ho & ->)]; [apply team_kept; by etrans|].
  apply kept_trans with (put_team v w); [apply team_kept; by etrans|]. intros Hi. split; [done|].
  intros Hd. assert (Hi' : dinv (put_team v w)) by by apply Hi. split.
  - exact (report_step hex_encode d (put_team v w) Hn).
  - exact (report_inv hex_encode d (put_team v w) Hi' Hn Ho).
Qed.

Lemma arb_exec_kept step w : kept w (arb_exec hex_encode maintainer self step w).
Proof.
  destruct step as [fs c]. unfold arb_exec. simpl. destruct c; [apply run_kept..|apply command_kept].
  - apply triple_report_dispute.
  - apply triple_create.
  - apply triple_start_round.
  - apply triple_wait_context.
  - apply triple_save_context.
  - apply triple_acquire.
  - apply triple_save_proposal.
  - apply triple_save_verification.
  - apply triple_mark_preempted.
  - apply triple_finish_failed.
  - apply triple_fail_unleased.
  - apply triple_adopt_check.
  - apply triple_adopt_commit.
  - apply triple_recover_adoption.
  - apply triple_resolve_human.
  - apply triple_reject.
  - apply triple_recover_pending.
  - apply triple_complete.
  - apply triple_persist_retry.
  - apply triple_observed.
Qed.

Lemma arb_run_kept steps w : kept w (arb_run steps w).
Proof.
  revert w. induction steps as [|s steps IH]; intros w; [by apply aside_kept|].
  eapply kept_trans; [apply arb_exec_kept|apply IH].
Qed.

(** ** Reachable states *)

(** A store without disputes and without files of arbitration. *)
Record arb_start (w : ArbStore) : Prop := {
  st_team : store_inv hex_encode (as_team w);
  st_disputes : ts_disputes (as_team w) = ∅;
  st_current : as_current w = ∅;
  st_automatic : as_legacy_automatic w = ∅;
  st_manual : as_legacy_manual w = ∅;
  st_resolutions : as_resolutions w = ∅;
  st_decisions : as_decisions w = ∅;
  st_pending : as_pending w = ∅;
}.

(** The states of the runs in which the generator did not repeat a
    resolution id. *)
Definition arb_reachable (w : ArbStore) : Prop :=
  ∃ w0 steps, arb_start w0 ∧ w = arb_run steps w0 ∧ distinct hex_encode w.

Lemma start_inv w : arb_start w → dinv w.
Proof.
  intros [H1 H2 H3 H4 H5 H6 H7 H8].
  assert (Hf : ∀ k a, ¬ analysis_file k a w).
  { intros k a. unfold analysis_file. rewrite H3, H4, H5, !lookup_empty. naive_solver. }
  assert (Ho : ∀ r, ¬ occurs r w).
  { intros r. unfold occurs, pending_record. rewrite H6, H7, H8.
    intros [(p & H & _)|[[k H]|[[k H]|(k & a & H & _)]]]; [by rewrite lookup_empty in H..|by apply Hf in H]. }
  assert (Hd : ∀ k d, ¬ at_dispute k d w).
  { intros k d. unfold at_dispute, disp. by rewrite H2, lookup_empty. }
  split; try done; rewrite ?H6, ?H7, ?H8; intros *; rewrite ?lookup_empty; try done;
    intros Hx; try (by apply Ho in Hx); try (by apply Hd in Hx); by apply Hf in Hx.
Qed.

Lemma reachable_dinv w : arb_reachable w → dinv w.
Proof.
  intros (w0 & steps & Hs & -> & Hd). destruct (arb_run_kept steps w0) as [_ H]; [intros _; by apply start_inv|]. by apply H.
Qed.

Lemma run_dinv w steps : arb_reachable w → distinct hex_encode (arb_run steps w) → dstep w (arb_run steps w) ∧ dinv (arb_run steps w).
Proof. intros Hw Hd. destruct (arb_run_kept steps w) as [_ H]; [intros _; by apply reachable_dinv|]. by apply H. Qed.

(** C4. A reported dispute and its resolution are final: after any further
    commands of any workers under any faults the dispute is on record with
    the payload that was reported, it is resolved if it was, and its
    resolution is the same record, except that an automatic one may have been
    rejected by a person and replaced by that person's resolution, which is
    then final. *)
Theorem resolution_is_final w k d steps (Hw : arb_reachable w) (Hn : distinct hex_encode (arb_run steps w))
    (Hd : ts_disputes (as_team w) !! k = Some (Stored d)) :
  ∃ d', ts_disputes (as_team (arb_run steps w)) !! k = Some (Stored d') ∧
    same_report_payload (mdr_dispute d) (mdr_dispute d') = true ∧
    (dispute_status (mdr_dispute d') = DisputeResolved ↔ is_Some (mdr_resolution d')) ∧
    ∀ c, mdr_resolution d = Some c →
      mdr_resolution d' = Some c ∨
      (dr_resolved_by c = Automatic ∧
        ∃ c', mdr_resolution d' = Some c' ∧ dr_resolved_by c' = Human ∧ is_Some (dr_rejection_reason c')).
Proof.
  destruct (run_dinv w steps Hw Hn) as [Hs Hi].
  destruct (ds_disputes _ _ _ Hs k d Hd) as (d' & Hd' & [Hp _ Hr]).
  exists d'. split_and!; [done|done|by eapply (di_modern _ _ Hi)|].
  intros c Hc. rewrite Hc in Hr. exact Hr.
Qed.


End guarantees.
