(* ===== verification/Provenance.v ===== *)
(** * Where resolutions come from

    An invariant of the files of arbitration that speaks of the run so far:
    every resolution record was entered by a person, or is the proposal of an
    analysis that a verification approved, both of which were saved under a
    lease of that analysis. *)

From S2P Require Import Prelude Storage Claim Maintainer Ledger Delivery Guarantees StepLogic ArbitrationTypes.
From S2P Require Import ArbitrationChecks ArbitrationStore Resolution Adoption ArbitrationContext Analysis.
From S2P Require Import ArbitrationRuns Commitments CommitmentWrites CommitmentLiveness CommitmentGuarantees.
Import Ids.

Section provenance.
Context (self : ArbitrationService).
(** The commands of the run so far. *)
Context (log : list (list bool * arb_command)).

(** ** What the invariant says *)

Definition proposed_in_log (id : ArbitrationAnalysisId) (p : ArbitrationProposal) : Prop :=
  ∃ fs job token, (fs, ASaveProposal job token p) ∈ log ∧ job_analysis_id job = id.

Definition verified_in_log (id : ArbitrationAnalysisId) (v : ArbitrationVerification) : Prop :=
  ∃ fs job token, (fs, ASaveVerification job token v) ∈ log ∧ job_analysis_id job = id.

(** The verification agrees with every part of the proposal, and both are
    sure enough. *)
Definition approves (p : ArbitrationProposal) (v : ArbitrationVerification) : Prop :=
  is_resolved (ap_resolution_type p) = true ∧
  f64_le (threshold self) (ap_confidence p) = true ∧ f64_le (threshold self) (av_confidence v) = true ∧
  av_verdict v = VerdictApprove ∧
  av_resolution_type_agreed v = true ∧ av_resolution_basis_agreed v = true ∧ av_conclusion_agreed v = true ∧
  Forall (λ c, cav_agreed c = true) (av_claim_assessments v).

Record adopted_from (r : ArbitrationResolutionRecord) (id : ArbitrationAnalysisId) (p : ArbitrationProposal)
    (v : ArbitrationVerification) : Prop := {
  af_source : rr_analysis_source_id r = Some id;
  af_proposed : proposed_in_log id p;
  af_verified : verified_in_log id v;
  af_approves : approves p v;
  af_content : rr_resolution r =
    adoption_resolution (rr_resolution_id r) (dr_resolved_by (rr_resolution r)) (rr_created_at r) p;
}.

(** A person resolved the dispute with this input, or replaced its automatic
    resolution. *)
Definition entered (r : ArbitrationResolutionRecord) : Prop :=
  rr_analysis_source_id r = None ∧ dr_resolved_by (rr_resolution r) = Human ∧
  ((∃ fs input now, (fs, AResolve (rr_dispute_id r) input now) ∈ log ∧ human_resolution_matches_input r input = true) ∨
   (∃ fs input now, (fs, AReject (rr_dispute_id r) input now) ∈ log ∧
      replacement_resolution_matches_input r input = true)).

Definition provenance (r : ArbitrationResolutionRecord) : Prop :=
  entered r ∨ ∃ id p v, adopted_from r id p v.

Definition settled (s : AnalysisState) : bool :=
  match s with Approved | Adopting | Adopted => true | _ => false end.

Record sourced (a : ArbitrationAnalysis) : Prop := {
  so_proposal p : an_proposal a = Some p → proposed_in_log (an_analysis_id a) p;
  so_verification v : an_verification a = Some v → verified_in_log (an_analysis_id a) v;
  so_approved : settled (an_state a) = true → analysis_is_approved a (threshold self) = true;
  so_pending r : an_pending_resolution a = Some r → provenance r ∧ rr_dispute_id r = an_dispute_id a;
}.

Definition owed (p : PendingResolutionDelivery) : Prop := ∀ r, prd_resolution_record p = Some r → provenance r.

(** The record behind the resolution of a dispute. *)
Definition resolved_from (k : DisputeId) (c : DisputeResolution) : Prop :=
  ∃ r, rr_resolution r = c ∧ rr_dispute_id r = k ∧ provenance r.

Definition traced_dispute (k : DisputeId) (d : MaintainerDisputeRecord) : Prop :=
  dispute_id (mdr_dispute d) = k ∧ ∀ c, mdr_resolution d = Some c → resolved_from k c.

Record traced (w : ArbStore) : Prop := {
  tr_dispute k d : at_dispute k d w → traced_dispute k d;
  tr_analysis k a : analysis_file k a w → sourced a ∧ an_dispute_id a = k;
  tr_resolution k r : as_resolutions w !! k = Some (Stored r) → provenance r ∧ rr_dispute_id r = k;
  tr_decision k : as_decisions w !! k = None;
  tr_pending k p : as_pending w !! k = Some (Stored p) → owed p;
}.

(** ** The logic *)

Abbreviation yields m Q := (triple (E:=ArbError) traced (λ _ _ : ArbStore, True) (λ _, True) m (λ a _, Q a)).

#[export] Instance true_preorder : PreOrder (λ _ _ : ArbStore, True).
Proof. by split. Qed.

Lemma yields_ret {A} (a : A) (Q : A → Prop) : Q a → yields (mret a) Q.
Proof. intros HQ. by apply triple_ret. Qed.

Lemma yields_fail {A} e (Q : A → Prop) : yields (fail e) Q.
Proof. apply triple_fail, _. Qed.

Lemma yields_bind {A B} (m : AM A) (f : A → AM B) Q R :
  yields m Q → (∀ a, Q a → yields (f a) R) → yields (m ≫= f) R.
Proof.
  intros Hm Hf. eapply (triple_bind traced _ m f _ (λ a _, Q a)); [exact Hm|].
  intros a w r w' Hi HQ. by apply Hf.
Qed.

Lemma yields_post {A} (m : AM A) (Q Q' : A → Prop) : (∀ a, Q' a → Q a) → yields m Q' → yields m Q.
Proof. intros HQ. apply triple_post. auto. Qed.

Lemma yields_any {A} (m : AM A) (Q : A → Prop) : yields m Q → yields m (λ _, True).
Proof. by apply yields_post. Qed.

Lemma yields_try {A} (m : AM A) (Q : A → Prop) : yields m Q →
  yields (m_try m) (λ r, match r with Ok a => Q a | Err _ => True end).
Proof. intros Hm. eapply triple_try; [by intros w w'|exact Hm|done|done]. Qed.

Lemma yields_map_err {A} f (m : AM A) (Q : A → Prop) : yields m Q → yields (m_map_err f m : AM A) Q.
Proof.
  intros Hm w r w' Hi Hp Hr. unfold m_map_err in Hr. destruct (m w) as [r0 w0] eqn:Em. injection Hr as <- <-.
  destruct (Hm _ _ _ Hi Hp Em) as (? & ? & HQ). split_and!; [done..|].
  intros a Ha. apply HQ. by destruct r0; simplify_eq/=.
Qed.

Lemma yields_lift {A} (x : Result ArbError A) : yields (lift_result x) (λ a, x = Ok a).
Proof. intros w r w' Hi _ [= <- <-]. split_and!; [done..|]. by intros a ->. Qed.

(** *** Steps beside the traced files *)

Record beside (w w' : ArbStore) : Prop := {
  be_disputes : disp w' = disp w;
  be_current : as_current w' = as_current w;
  be_automatic : as_legacy_automatic w' = as_legacy_automatic w;
  be_manual : as_legacy_manual w' = as_legacy_manual w;
  be_resolutions : as_resolutions w' = as_resolutions w;
  be_decisions : as_decisions w' = as_decisions w;
  be_pending : as_pending w' = as_pending w;
}.

#[export] Instance beside_preorder : PreOrder beside.
Proof. split; [by intros w|]. intros w1 w2 w3 [] []. split; congruence. Qed.
#[export] Instance beside_faults : FaultClosed beside.
Proof. by intros fs w. Qed.
#[export] Instance beside_observe : DirClosed beside observe_dir.
Proof. by intros m w. Qed.
#[export] Instance beside_policy_index : DirClosed beside policy_index_dir.
Proof. by intros m w. Qed.
#[export] Instance beside_inbox_index : DirClosed beside inbox_index_dir.
Proof. by intros m w. Qed.
#[export] Instance beside_claim_index : DirClosed beside claim_index_dir.
Proof. by intros m w. Qed.

Lemma traced_beside w w' : beside w w' → traced w → traced w'.
Proof.
  intros [H0 H1 H2 H3 H4 H5 H6] [T0 T1 T2 T3 T4]. split; rewrite ?H4, ?H5, ?H6; [| |done..].
  - intros k d. unfold at_dispute. rewrite H0. apply T0.
  - intros k a. unfold analysis_file. rewrite H1, H2, H3. apply T1.
Qed.

Lemma yields_beside {A} (m : AM A) : preserves beside m → yields m (λ _, True).
Proof. intros Hm w r w' Hi _ Hr. split; [done|]. split; [|done]. eapply traced_beside; [by eapply Hm|done]. Qed.

(** On the team store: the disputes stay. *)
Definition keeps_disputes (t t' : TeamStore) : Prop := ts_disputes t' = ts_disputes t.

#[export] Instance keeps_disputes_preorder : PreOrder keeps_disputes.
Proof. unfold keeps_disputes. split; [done|]. intros t1 t2 t3. congruence. Qed.
#[export] Instance keeps_disputes_faults : FaultClosed keeps_disputes.
Proof. by intros fs t. Qed.
#[export] Instance keeps_disputes_policies : DirClosed keeps_disputes policies_dir.
Proof. by intros m t. Qed.
#[export] Instance keeps_disputes_outbox : DirClosed keeps_disputes outbox_dir.
Proof. by intros m t. Qed.

Lemma team_beside {A} (m : MM A) : preserves keeps_disputes m → preserves beside (team m).
Proof.
  intros Hm w r w'. unfold team. destruct (m (as_team w)) as [r0 t] eqn:Em. intros [= _ <-]. split; try done.
  exact (Hm _ _ _ Em).
Qed.

Lemma draw_keeps_disputes hex_encode prefix : preserves keeps_disputes (draw_id hex_encode prefix).
Proof. by intros t r t' [= _ <-]. Qed.

Lemma clock_beside : preserves beside clock_now.
Proof. by intros w r w' [= _ <-]. Qed.

Lemma modify_beside f : (∀ w, beside w (f w)) → preserves (E:=ArbError) beside (modify f).
Proof. intros Hf w r w' [= _ <-]. apply Hf. Qed.

Lemma read_optional_beside {A} (d : Dir ArbStore A) key : preserves beside (read_optional d key).
Proof.
  unfold read_optional. apply preserves_bind; [apply _|apply preserves_m_try, preserves_read; apply _|].
  intros [a|[[]| | | | | | | |]]; auto with acn typeclass_instances.
Qed.

(** *** The traced files *)

Lemma yields_read {A} (d : Dir ArbStore A) `{!DirLaws d} key (Q : A → Prop) :
  (∀ w a, traced w → dir_get d w !! key = Some (Stored a) → Q a) → yields (read_yaml d key) Q.
Proof.
  intros HQ w r w' Hi _ Hr. split; [done|]. split.
  - eapply traced_beside; [|done]. by eapply preserves_read; [apply _..|].
  - apply read_yaml_inv in Hr as [_ Ha]; [|done]. eauto.
Qed.

Lemma yields_read_optional {A} (d : Dir ArbStore A) `{!DirLaws d} key (Q : A → Prop) :
  (∀ w a, traced w → dir_get d w !! key = Some (Stored a) → Q a) →
  yields (read_optional d key) (λ o, ∀ a, o = Some a → Q a).
Proof.
  intros HQ. unfold read_optional. eapply yields_bind; [apply yields_try, (yields_read d key Q HQ)|].
  intros [a|e] Ha.
  - apply yields_ret. by intros a' [= ->].
  - destruct e as [[]| | | | | | | |]; solve [apply yields_fail|by apply yields_ret].
Qed.

Lemma yields_write {A} (d : Dir ArbStore A) key v :
  (∀ w, traced w → traced (dir_set d (<[key := Stored v]> (dir_get d w)) w)) →
  yields (write_yaml_atomic d key v) (λ _, True).
Proof.
  intros Hw. unfold write_yaml_atomic. eapply yields_bind; [apply yields_beside, preserves_io; apply _|].
  intros _ _. apply triple_modify. intros w Hi _. auto.
Qed.

Lemma yields_write_current a : sourced a → yields (write_yaml_atomic current_dir (an_dispute_id a) a) (λ _, True).
Proof.
  intros Ha. apply yields_write. intros w [T0 T1 T2 T3 T4]. split; [done| |done..]. intros k a'. unfold analysis_file.
  simpl. rewrite lookup_insert_Some. intros [[[<- [= <-]]|[_ ?]]|?]; [done|apply (T1 k); by left|apply (T1 k); by right].
Qed.

Lemma yields_write_analysis a : sourced a → yields (write_analysis a) (λ _, True).
Proof.
  intros Ha. unfold write_analysis, check. eapply yields_bind; [apply yields_lift|]. intros _ _.
  by apply yields_write_current.
Qed.

Lemma yields_write_record r : provenance r → yields (write_resolution_record r) (λ _, True).
Proof.
  intros Hr. unfold write_resolution_record. destruct (negb _); [apply yields_fail|]. destruct (negb _); [apply yields_fail|].
  apply yields_write. intros w [T0 T1 T2 T3 T4]. split; try done. intros k r'. simpl. rewrite lookup_insert_Some.
  intros [[<- [= <-]]|[_ ?]]; eauto.
Qed.

Lemma yields_write_pending p : owed p → yields (write_pending_delivery p) (λ _, True).
Proof.
  intros Hp. apply yields_write. intros w [T0 T1 T2 T3 T4]. split; try done. intros k p'. simpl.
  rewrite lookup_insert_Some. intros [[_ [= <-]]|[_ ?]]; eauto.
Qed.

Lemma yields_remove_pending id : yields (remove_pending_delivery id) (λ _, True).
Proof.
  unfold remove_pending_delivery, remove_file. eapply yields_bind; [apply yields_beside, preserves_io; apply _|].
  intros _ _. apply triple_modify. intros w [T0 T1 T2 T3 T4] _. split; [done|]. split; [|done]. split; try done.
  intros k p. simpl. rewrite lookup_delete_Some. intros [_ ?]. eauto.
Qed.

Lemma yields_read_record id : yields (read_current_resolution_record id) (λ o, ∀ r, o = Some r → provenance r ∧ rr_dispute_id r = id).
Proof. apply (yields_read_optional resolutions_dir id). intros w a Hi. apply (tr_resolution _ Hi). Qed.

Lemma yields_read_pending id : yields (read_pending_delivery id) (λ o, ∀ p, o = Some p → owed p).
Proof. apply (yields_read_optional _ _). intros w a Hi. apply (tr_pending _ Hi). Qed.

Lemma yields_list_pending : yields list_pending_deliveries (λ l, ∀ p, p ∈ l → owed p).
Proof.
  intros w r w' Hi _ Hr. split; [done|]. split.
  - eapply traced_beside; [|done]. by eapply preserves_list; [apply _..|].
  - intros l ->. apply (list_yaml_inv pending_dir) in Hr as [_ Hl]. rewrite (Hl l eq_refl).
    intros p [k Hk]%elem_of_stored. by apply (tr_pending _ Hi k).
Qed.

(** ** Analyses *)

Lemma sourced_normalize a source : sourced a → sourced (normalize_legacy_adoption_mode a source).
Proof.
  intros [S1 S2 S3 S4]. unfold normalize_legacy_adoption_mode. destruct (_ || _); [by split|]. by destruct source; split.
Qed.

Lemma found_normalize a source id : sourced a ∧ an_dispute_id a = id →
  sourced (normalize_legacy_adoption_mode a source) ∧ an_dispute_id (normalize_legacy_adoption_mode a source) = id.
Proof.
  intros [Ha Hid]. split; [by apply sourced_normalize|]. unfold normalize_legacy_adoption_mode.
  by destruct (_ || _); [|destruct source].
Qed.

Lemma sourced_legacy automatic manual id a : (∀ a, automatic = Some a → sourced a ∧ an_dispute_id a = id) →
  (∀ a, manual = Some a → sourced a ∧ an_dispute_id a = id) →
  select_legacy_current_analysis automatic manual = Some a → sourced a ∧ an_dispute_id a = id.
Proof.
  intros H1 H2. unfold select_legacy_current_analysis. destruct automatic as [x|], manual as [y|]; simpl; [| |by intros [= <-]; eauto using found_normalize|done].
  - repeat case_bool_decide; simpl; try destruct (analysis_cmp _ _); intros [= <-]; eauto using found_normalize.
  - intros [= <-]; eauto using found_normalize.
Qed.

Lemma yields_current id : yields (read_current_analysis id) (λ o, ∀ a, o = Some a → sourced a ∧ an_dispute_id a = id).
Proof.
  assert (H : ∀ (d : Dir ArbStore ArbitrationAnalysis) `{!DirLaws d}, (∀ w k a, dir_get d w !! k = Some (Stored a) → analysis_file k a w) →
    yields (read_optional d id) (λ o, ∀ a, o = Some a → sourced a ∧ an_dispute_id a = id)).
  { intros d Hd Hf. apply (yields_read_optional d id). intros w a Hi Ha. by eapply (tr_analysis _ Hi), Hf. }
  unfold read_current_analysis. eapply yields_bind; [apply (H current_dir _); intros w k a ?; unfold analysis_file; by left|]. intros [a|] Ha.
  - apply yields_ret. intros a' [= <-]. by apply found_normalize, Ha.
  - eapply yields_bind; [apply (H automatic_dir _); intros w k a ?; unfold analysis_file; by right; left|]. intros automatic H1.
    eapply yields_bind; [apply (H manual_dir _); intros w k a ?; unfold analysis_file; by right; right|]. intros manual H2.
    apply yields_ret. intros a'. by apply sourced_legacy.
Qed.

Lemma yields_analysis job : 
  yields (read_analysis job) (λ a, sourced a ∧ an_analysis_id a = job_analysis_id job ∧ an_dispute_id a = job_dispute_id job).
Proof.
  unfold read_analysis. eapply yields_bind; [apply yields_current|]. intros [a|] Ha; [|apply yields_fail].
  case_bool_decide; [|apply yields_fail]. apply yields_ret.
  destruct (Ha a eq_refl). auto.
Qed.

(** ** Disputes *)

Lemma yields_dispute id : yields (read_dispute id) (traced_dispute id).
Proof.
  intros w r w' Hi _. unfold read_dispute, team, Maintainer.read_dispute.
  destruct (read_yaml disputes_dir id (as_team w)) as [r0 t0] eqn:Hr. intros [= <- <-].
  apply (read_yaml_inv disputes_dir) in Hr as [Hd Ha]. split; [done|]. split.
  - apply (traced_beside w); [|done]. by split.
  - intros d. destruct r0 as [d0|]; [|done]. intros [= <-]. apply (tr_dispute _ Hi). exact (Ha d0 eq_refl).
Qed.

Lemma yields_write_dispute d k : traced_dispute k d → yields (write_dispute d) (λ _, True).
Proof.
  intros Hd w r w' Hi _. unfold write_dispute, team.
  destruct (Maintainer.write_dispute d (as_team w)) as [r0 t0] eqn:Hr. intros [= <- <-].
  split; [done|]. split; [|done].
  assert (Ht : ts_disputes t0 = <[k := Stored d]> (ts_disputes (as_team w)) ∨ ts_disputes t0 = ts_disputes (as_team w)).
  { unfold Maintainer.write_dispute in Hr. destruct (validate_dispute_record d); [|injection Hr as _ <-; by right].
    apply (write_yaml_inv disputes_dir) in Hr as [[_ Hr]|[_ Hr]]; [left|by right]. destruct Hd as [<- _]. exact Hr. }
  destruct Hi as [T0 T1 T2 T3 T4]. split; try done. intros k' d'. unfold at_dispute, disp. simpl.
  destruct Ht as [-> | ->]; [|apply T0]. rewrite lookup_insert_Some. intros [[<- [= <-]]|[_ ?]]; [done|by apply T0].
Qed.
End provenance.
#[export] Hint Resolve preserves_mint draw_keeps_disputes modify_beside team_beside clock_beside read_optional_beside : acn.

(** * Every command of arbitration keeps the provenance of resolutions *)

Section steps.
Context (hex_encode : list Z → string) (maintainer : Maintainer) (self : ArbitrationService).
Context (log : list (list bool * arb_command)).

Abbreviation yields m Q := (triple (E:=ArbError) (traced self log) (λ _ _ : ArbStore, True) (λ _, True) m (λ a _, Q a)).
Abbreviation sourced := (sourced self log).
Abbreviation provenance := (provenance self log).
Abbreviation owed := (owed self log).

(** What a changed analysis keeps. *)
Lemma sourced_update a a' : sourced a → an_analysis_id a' = an_analysis_id a → an_dispute_id a' = an_dispute_id a →
  an_proposal a' = an_proposal a ∨ an_proposal a' = None →
  an_verification a' = an_verification a ∨ an_verification a' = None →
  (settled (an_state a') = true → settled (an_state a) = true ∧ an_proposal a' = an_proposal a ∧
     an_verification a' = an_verification a) →
  an_pending_resolution a' = an_pending_resolution a ∨ an_pending_resolution a' = None →
  sourced a'.
Proof.
  intros [S1 S2 S3 S4] Hid Hdid Hp Hv Hs Hr. split.
  - rewrite Hid. destruct Hp as [-> | ->]; [done|discriminate].
  - rewrite Hid. destruct Hv as [-> | ->]; [done|discriminate].
  - intros H. destruct (Hs H) as (? & Ep & Ev). unfold analysis_is_approved. rewrite Ep, Ev. by apply S3.
  - rewrite Hdid. destruct Hr as [-> | ->]; [done|discriminate].
Qed.

(** Close a side condition of a write: the analysis written is one that was
    read, changed in fields that do not matter. *)
Ltac update := solve
  [ assumption
  | match goal with
    | H : sourced ?a |- Provenance.sourced _ _ _ =>
        apply (sourced_update a _ H); try done; try (by left); try (by right); try (by intros ?; split)
    end ].

Ltac known :=
  match goal with
  | |- triple _ _ _ (read_analysis _) _ => apply yields_analysis
  | |- triple _ _ _ (read_current_analysis _) _ => apply yields_current
  | |- triple _ _ _ (read_current_resolution_record _) _ => apply yields_read_record
  | |- triple _ _ _ (read_pending_delivery _) _ => apply yields_read_pending
  | |- triple _ _ _ list_pending_deliveries _ => apply yields_list_pending
  | |- triple _ _ _ (remove_pending_delivery _) _ => apply yields_remove_pending
  | |- triple _ _ _ (write_analysis _) _ => apply yields_write_analysis; update
  | |- triple _ _ _ (write_dispute (MaintainerDisputeRecord_from ?d)) _ => by apply (yields_write_dispute _ _ _ (dispute_id d))
  | |- triple _ _ _ (lift_result _) _ => apply yields_lift
  | |- triple _ _ _ (check _) _ => eapply yields_any, yields_lift
  end.

(** One step along the structure of an operation. *)
Ltac step :=
  first
    [ progress (intros; cbv beta in *)
    | match goal with H : Provenance.sourced _ _ _ ∧ _ |- _ => destruct H as (? & ? & ?) end
    | apply yields_fail
    | solve [by apply yields_ret]
    | solve [known]
    | solve [eapply yields_any; eauto with prov]
    | solve [apply yields_beside; solve_preserves]
    | match goal with
      | |- triple _ _ _ (_ ≫= _) _ =>
          eapply yields_bind; [solve [known|eauto with prov|apply yields_beside; solve_preserves]|]
      end
    | match goal with |- triple _ _ _ (match ?x with _ => _ end) _ => destruct x eqn:? end ].

(** ** The small steps *)

Lemma sourced_fresh id aid now : sourced (fresh_analysis self id aid now).
Proof. by split. Qed.

Lemma yields_start_round job : yields (start_reanalysis_round job) (λ _, True).
Proof. unfold start_reanalysis_round, lock_dispute. repeat step. Qed.

Lemma yields_wait_context job : yields (record_waiting_context job) (λ _, True).
Proof. unfold record_waiting_context, lock_dispute. repeat step. Qed.

Lemma lease_beside phase now : preserves beside (new_lease hex_encode self phase now).
Proof. unfold new_lease, random_lease_token. solve_preserves. by apply team_beside; intros t r t' [= _ <-]. Qed.

Lemma draw_beside prefix : preserves beside (draw hex_encode prefix).
Proof. apply team_beside, draw_keeps_disputes. Qed.

Lemma lock_beside id : preserves beside (lock_dispute id).
Proof. unfold lock_dispute. solve_preserves. Qed.

Lemma read_dispute_beside id : preserves beside (read_dispute id).
Proof. apply team_beside. unfold Maintainer.read_dispute. solve_preserves. Qed.
#[local] Hint Resolve lease_beside draw_beside lock_beside read_dispute_beside : acn.

Lemma yields_save_context job b : yields (save_prepared_context hex_encode self job b) (λ _, True).
Proof. unfold save_prepared_context. repeat step. Qed.

Lemma yields_acquire job phase : yields (acquire_phase hex_encode self job phase) (λ _, True).
Proof. unfold acquire_phase. repeat step. Qed.

Lemma sourced_proposed p lease now a : sourced a → proposed_in_log log (an_analysis_id a) p →
  sourced (proposed p lease now a).
Proof. intros [S1 S2 S3 S4] Hp. split; [by intros ? [= <-]|exact S2|done|exact S4]. Qed.

Lemma yields_save_proposal fs job token p : (fs, ASaveProposal job token p) ∈ log →
  yields (save_proposal hex_encode self job token p) (λ _, True).
Proof.
  intros Hlog. unfold save_proposal. repeat step. eapply yields_bind; [|repeat step].
  apply yields_write_analysis, sourced_proposed; [done|]. exists fs, job, token. by split.
Qed.

Lemma sourced_verified v now a : sourced a → verified_in_log log (an_analysis_id a) v →
  sourced (verified (threshold self) v now a).
Proof.
  intros [S1 S2 S3 S4] Hv. unfold verified.
  set (b := _ |> set_state _ |> set_lease None |> set_updated_at now).
  assert (Hb : sourced b).
  { split; [exact S1|by intros ? [= <-]| |exact S4]. intros Hs.
    change (analysis_is_approved (set_verification (Some v) a) (threshold self) = true).
    change (settled (if analysis_is_approved (set_verification (Some v) a) (threshold self) then Approved
      else StateUnresolved) = true) in Hs.
    by destruct (analysis_is_approved (set_verification (Some v) a) (threshold self)). }
  destruct (completed_round now b); [|exact Hb]. clearbody b. apply (sourced_update b _ Hb); try done; by left.
Qed.

Lemma yields_save_verification fs job token v : (fs, ASaveVerification job token v) ∈ log →
  yields (save_verification self job token v) (λ _, True).
Proof.
  intros Hlog. unfold save_verification. repeat step.
  apply yields_write_analysis, sourced_verified; [done|]. exists fs, job, token. by split.
Qed.

Lemma sourced_preempted a now a' : sourced a → preempt_analysis_for_resolution a now = Some a' → sourced a'.
Proof.
  intros Ha. unfold preempt_analysis_for_resolution. destruct (_ || _); [done|]. intros [= <-]. update.
Qed.

Lemma yields_preempt job : yields (mark_analysis_preempted job) (λ _, True).
Proof. unfold mark_analysis_preempted. repeat step. by eapply yields_write_analysis, sourced_preempted. Qed.

Lemma yields_fail_leased job token code e : yields (finish_failed job token code e) (λ _, True).
Proof. unfold finish_failed. repeat step. Qed.

Lemma yields_fail_unleased job code e : yields (finish_failed_without_lease job code e) (λ _, True).
Proof. unfold finish_failed_without_lease. repeat step. Qed.

Lemma yields_preempt_current id now : yields (preempt_current_analysis_locked id now) (λ _, True).
Proof.
  unfold preempt_current_analysis_locked. eapply yields_bind; [|repeat step].
  eapply yields_any, (yields_try _ _ _ (λ _, True)).
  eapply yields_bind; [apply yields_current|intros [a|] Ha]; [|by apply yields_ret].
  destruct (preempt_analysis_for_resolution a now) as [a'|] eqn:E; [|by apply yields_ret].
  eapply yields_write_analysis, sourced_preempted; [by apply Ha|done].
Qed.
#[local] Hint Resolve yields_preempt_current : prov.

(** ** Reports *)

Lemma new_analysis_sourced id : yields (new_analysis hex_encode self id) (λ a, sourced a).
Proof. unfold new_analysis. repeat step. Qed.
#[local] Hint Resolve new_analysis_sourced : prov.

Lemma yields_create id : yields (create_analysis hex_encode self id) (λ _, True).
Proof. unfold create_analysis, replace_current_analysis. repeat step. eapply yields_bind; [by apply yields_write_current|]. repeat step. Qed.

Lemma yields_report_analysis d : yields (report_analysis hex_encode self d) (λ _, True).
Proof.
  unfold report_analysis, create_report_analysis, create_once_yaml. repeat step. eapply yields_bind; [|repeat step].
  eapply yields_bind; [apply yields_beside, read_optional_beside|]. repeat step.
  apply (yields_write_current self log (set_report_snapshot (Some d) a0)). update.
Qed.

Lemma validate_beside d : preserves beside (validate_direct_claims d).
Proof. apply team_beside. unfold validate_new_dispute_direct_claims, load_team_claims. solve_preserves. Qed.

#[local] Hint Resolve validate_beside : acn.

Lemma yields_report_dispute d : yields (report_dispute hex_encode self d) (λ _, True).
Proof.
  unfold report_dispute, report_new. repeat step.
  eapply yields_bind; [apply yields_report_analysis|]. repeat step.
Qed.

(** ** Delivery and commit *)

Lemma assessments_match_refl l : assessments_match l l = true.
Proof.
  unfold assessments_match. rewrite bool_decide_eq_true_2 by done. simpl. apply forallb_forall. intros x Hx.
  apply bool_decide_eq_true_2. by apply list_elem_of_In.
Qed.

Lemma ensure_policy_beside p : preserves beside (ensure_policy p).
Proof. unfold ensure_policy, is_zero_length. solve_preserves. Qed.

Lemma ensure_outbox_beside e : preserves beside (ensure_outbox_entry e).
Proof. unfold ensure_outbox_entry, is_zero_length. solve_preserves. Qed.

Lemma history_beside r : preserves beside (ensure_resolution_history r).
Proof. unfold ensure_resolution_history, ensure_policy_event, ensure_dispute_resolution_event. solve_preserves; apply modify_beside; by intros w0. Qed.

Lemma register_beside r : preserves beside (register_resolution_event_targets r).
Proof. unfold register_resolution_event_targets. solve_preserves. Qed.

Lemma observation_beside t : preserves beside (write_pending_observation t).
Proof. unfold write_pending_observation. solve_preserves. Qed.
#[local] Hint Resolve ensure_policy_beside ensure_outbox_beside history_beside register_beside observation_beside : acn.

Lemma yields_delivery r : yields (ensure_delivery r) (λ _, True).
Proof. unfold ensure_delivery. repeat step. Qed.

Lemma yields_try_delivery r : yields (try_delivery r) (λ _, True).
Proof. unfold try_delivery. eapply yields_bind; [eapply yields_any, yields_try, yields_delivery|]. repeat step. Qed.

Lemma yields_persist r now : provenance r → yields (persist_pending_delivery r now) (λ _, True).
Proof.
  intros Hr. unfold persist_pending_delivery. repeat step; apply yields_write_pending; by intros ? [= <-].
Qed.

Lemma resolved_traced d r at_ k : traced_dispute self log k d → provenance r → rr_dispute_id r = k →
  traced_dispute self log k (resolved_by_record (rr_resolution r) at_ d).
Proof. intros [Hd _] Hr Hk. split; [done|]. simpl. intros c [= <-]. by exists r. Qed.

Lemma yields_finish a d r now k : provenance r → rr_dispute_id r = k → traced_dispute self log k d →
  sourced a → settled (an_state a) = true →
  yields (finish_analysis_adoption_locked a d r now) (λ _, True).
Proof.
  intros Hr Hk Hd Ha Hs. unfold finish_analysis_adoption_locked.
  eapply yields_bind; [by apply yields_persist|intros _ _].
  eapply yields_bind; [by apply yields_write_record|intros _ _]. eapply yields_bind.
  { instantiate (1 := λ _, True). destruct (bool_decide _); [|by apply yields_ret].
    by eapply yields_write_dispute, resolved_traced. }
  intros _ _. eapply yields_bind; [eapply yields_any, yields_try, yields_delivery|intros delivered _]. simpl.
  eapply yields_bind; [|repeat step]. apply yields_write_analysis.
  destruct delivered; apply (sourced_update a _ Ha); try done; try (by left); by right.
Qed.

Lemma yields_commit r d now : provenance r → traced_dispute self log (rr_dispute_id r) d → yields (commit_human r d now) (λ _, True).
Proof.
  intros Hr Hd. unfold commit_human.
  eapply yields_bind; [by apply yields_persist|intros _ _].
  eapply yields_bind; [by apply yields_write_record|intros _ _].
  eapply yields_bind; [by eapply yields_write_dispute, resolved_traced|intros _ _].
  eapply yields_bind; [apply yields_preempt_current|intros _ _].
  eapply yields_bind; [apply yields_try_delivery|]. repeat step.
Qed.

Lemma yields_answer r same id now : provenance r → yields (answer_recovered r same id now) (λ _, True).
Proof.
  intros Hr. unfold answer_recovered.
  eapply yields_bind; [apply yields_preempt_current|intros _ _].
  eapply yields_bind; [by apply yields_persist|intros _ _].
  eapply yields_bind; [apply yields_try_delivery|]. repeat step.
Qed.

Lemma yields_recover_human id d : traced_dispute self log id d →
  yields (recover_human_resolution_locked id d)
    (λ x, traced_dispute self log id x.1 ∧ ∀ r, x.2 = Some r → provenance r).
Proof.
  intros Hd0. unfold recover_human_resolution_locked.
  eapply yields_bind; [apply yields_read_record|intros current Hc].
  eapply yields_bind; [apply yields_list_pending|intros deliveries Hd]. simpl.
  assert (Hp : ∀ r, r ∈ filter (λ r, rr_dispute_id r = id ∧ dr_resolved_by (rr_resolution r) = Human)
                 (omap prd_resolution_record deliveries) → provenance r ∧ rr_dispute_id r = id).
  { intros r ([Hid _] & (p & Hp & Hr)%list_elem_of_omap)%list_elem_of_filter. split; [by apply (Hd p)|done]. }
  eapply (yields_bind _ _ _ _ (λ o, ∀ r, o = Some r → provenance r ∧ rr_dispute_id r = id)).
  { destruct (filter _ _) as [|r [|]]; [by apply yields_ret| |apply yields_fail].
    apply yields_ret. intros r' [= <-]. apply Hp. by left. }
  intros pending Hpend.
  set (stored := match pending with Some r => Some r | None => current end).
  assert (Hs : ∀ r, stored = Some r → provenance r ∧ rr_dispute_id r = id) by (unfold stored; destruct pending; auto).
  clearbody stored. clear Hc Hd Hp Hpend.
  eapply (yields_bind _ _ _ _ (traced_dispute self log id)).
  { destruct stored as [r|]; [|by apply yields_ret]. destruct (Hs r eq_refl) as [Hr Hid].
    destruct (_ && _); [|by apply yields_ret].
    eapply yields_bind; [by apply yields_write_record|intros _ _].
    eapply yields_bind; [by eapply yields_write_dispute, resolved_traced|intros _ _].
    by apply yields_ret, resolved_traced. }
  intros d' Hd'. destruct (mdr_resolution d') as [c|]; [|by apply yields_ret].
  destruct (negb _); [by apply yields_ret|]. destruct stored as [r|]; [|apply yields_fail].
  case_bool_decide; [|apply yields_fail]. apply yields_ret. split; [done|]. simpl. intros r' [= <-]. by apply Hs.
Qed.

(** ** Adoption *)

(** A record that belongs to the dispute [id]. *)
Abbreviation of_dispute id r := (provenance r ∧ rr_dispute_id r = id).

Lemma yields_stored_record id rid : yields (read_resolution_record id rid) (λ r, of_dispute id r).
Proof.
  unfold read_resolution_record.
  eapply yields_bind; [apply (yields_read_record self log id)|intros stored Hs].
  eapply (yields_bind _ _ _ _ (λ r, of_dispute id r)).
  { destruct stored as [r|]; [by apply yields_ret, Hs|].
    apply (yields_read _ _ decisions_dir). intros w a Hi. simpl. by rewrite (tr_decision _ _ _ Hi). }
  intros r Hr. case_bool_decide; [by apply yields_ret|apply yields_fail].
Qed.

Lemma yields_fixed job a : sourced a → an_dispute_id a = job_dispute_id job →
  yields (fixed_analysis_resolution job a) (λ r, of_dispute (job_dispute_id job) r).
Proof.
  intros Ha Hid. unfold fixed_analysis_resolution. destruct (an_resolution_id a) as [rid|]; [|apply yields_fail].
  eapply (yields_bind _ _ _ _ (λ r, of_dispute (job_dispute_id job) r)).
  { destruct (an_pending_resolution a) as [r|] eqn:Hr; [|apply yields_stored_record].
    apply yields_ret. rewrite <-Hid. by apply Ha. }
  intros r Hr. case_bool_decide; [by apply yields_ret|apply yields_fail].
Qed.

Lemma yields_owner id : yields (find_human_analysis_adoption_owner id) (λ _, True).
Proof.
  unfold find_human_analysis_adoption_owner. eapply yields_bind; [apply yields_current|intros [a|] Ha]; [|by apply yields_ret].
  destruct (negb _); [by apply yields_ret|]. destruct (Ha a eq_refl).
  eapply yields_bind; [by apply yields_fixed|]. repeat step.
Qed.

Lemma yields_commit_or_yield job a r now : sourced a → settled (an_state a) = true →
  of_dispute (job_dispute_id job) r → yields (commit_or_yield job a r now) (λ _, True).
Proof.
  intros Ha Hs [Hr Hid]. unfold commit_or_yield. eapply yields_bind; [apply yields_dispute|intros d Hd].
  destruct (other_resolution d r); [repeat step|].
  eapply yields_bind; [by eapply yields_finish|]. repeat step.
Qed.

Lemma adopting_settled a : negb (bool_decide (an_state a = Adopting)) = false → settled (an_state a) = true.
Proof. case_bool_decide as H; [|done]. by rewrite H. Qed.

Lemma yields_recover_adoption job now : yields (recover_analysis_adoption job now) (λ _, True).
Proof.
  unfold recover_analysis_adoption. eapply yields_bind; [apply yields_beside; solve_preserves|intros _ _].
  eapply yields_bind; [apply yields_analysis|intros a (Ha & _ & Hid)].
  destruct (negb _) eqn:Hs; [by apply yields_ret|]. apply adopting_settled in Hs.
  eapply yields_bind; [by apply yields_fixed|intros r Hr].
  eapply yields_bind; [destruct (bool_decide _); [apply yields_owner|by apply yields_ret]|intros owner _].
  destruct owner as [o|]; [destruct (bool_decide _)|]; try by apply yields_commit_or_yield.
  eapply yields_bind; [|repeat step]. apply yields_write_analysis. update.
Qed.

Lemma yields_resume_matching job expected now :
  yields (resume_matching_analysis_adoption_locked job expected now) (λ _, True).
Proof.
  unfold resume_matching_analysis_adoption_locked. eapply yields_bind; [apply yields_owner|intros owner _].
  eapply yields_bind; [instantiate (1 := λ _, True); repeat step|intros _ _].
  eapply yields_bind; [apply yields_analysis|intros a (Ha & _ & Hid)].
  destruct (negb (_ || _)) eqn:Hst; [by apply yields_ret|].
  assert (Hs : settled (an_state a) = true).
  { apply negb_false_iff, orb_true_iff in Hst as [H|H]; apply bool_decide_eq_true in H; by rewrite H. }
  clear Hst. eapply yields_bind; [by apply yields_fixed|intros r [Hr Hrid]]. destruct (negb _); [apply yields_fail|].
  eapply yields_bind; [apply yields_dispute|intros d Hd].
  destruct (bool_decide _); [destruct (bool_decide _); [by apply yields_ret|apply yields_fail]|].
  destruct (other_resolution d r) as [c|].
  - eapply yields_bind; [|repeat step]. apply yields_write_analysis. update.
  - eapply yields_bind; [by eapply yields_finish|]. repeat step.
Qed.

Lemma yields_resume job by_ : yields (resume_adoption job by_) (λ _, True).
Proof.
  unfold resume_adoption. eapply yields_bind; [apply yields_beside; solve_preserves|intros now _].
  apply yields_map_err, yields_resume_matching.
Qed.

Lemma yields_adopt_check job by_ : yields (adopt_check job by_) (λ _, True).
Proof.
  unfold adopt_check. eapply yields_bind; [apply yields_beside; solve_preserves|intros _ _].
  eapply yields_bind; [apply yields_resume|intros [r|] _]; [by apply yields_ret|].
  repeat step.
Qed.

(** ** Resolutions by a person *)

Lemma mint_resolution_beside id : preserves beside (mint_resolution_id hex_encode maintainer id).
Proof.
  unfold mint_resolution_id. generalize (Nat.max (id_mint_max_attempts maintainer) 1). intros n.
  induction n as [|n IH]; simpl; unfold resolution_id_exists, read_current_resolution_record; solve_preserves.
Qed.

Lemma mint_action_beside : preserves beside (mint_action_id hex_encode maintainer).
Proof.
  assert (Hu : ∀ l, preserves beside (used_actions l)).
  { induction l as [|d l IH]; simpl; unfold read_current_resolution_record; solve_preserves. }
  assert (Hm : ∀ used n, preserves beside (mint_action_ids hex_encode used n)).
  { intros used n. induction n as [|n IH]; simpl; solve_preserves. }
  unfold mint_action_id, list_disputes, outbox_list. solve_preserves.
Qed.

Lemma intent_targets_beside kind agents : preserves beside (intent_targets hex_encode maintainer kind agents).
Proof. induction agents as [|a agents IH]; simpl; unfold mint_inbox_id_for_outbox; solve_preserves. Qed.
#[local] Hint Resolve mint_resolution_beside mint_action_beside intent_targets_beside : acn.

Lemma intent_beside d snapshots r dc now : preserves beside (build_delivery_intent hex_encode maintainer d snapshots r dc now).
Proof. unfold build_delivery_intent, lock_outbox_file, mint_policy_id. solve_preserves. Qed.

Lemma snapshots_beside ids : preserves beside (load_direct_snapshots ids).
Proof.
  unfold load_direct_snapshots. apply preserves_bind; [apply _| |solve_preserves].
  apply team_beside. unfold load_team_claims. solve_preserves.
Qed.
#[local] Hint Resolve intent_beside snapshots_beside : acn.

Ltac aside_as x := eapply yields_bind; [apply yields_beside; solve_preserves|intros x _].

Lemma yields_resolve fs id input now : (fs, AResolve id input now) ∈ log →
  yields (resolve_human hex_encode maintainer id input now) (λ _, True).
Proof.
  intros Hlog. unfold resolve_human, check. eapply yields_bind; [apply yields_lift|intros _ _].
  aside_as u. eapply yields_bind; [apply yields_dispute|intros d Hd]. eapply yields_bind; [apply yields_lift|intros _ _].
  eapply (yields_bind _ _ _ _ (λ x, traced_dispute self log id x.1 ∧ ∀ r, x.2 = Some r → provenance r)).
  { destruct (bool_decide _); [by apply yields_recover_human|by apply yields_ret]. }
  intros [d' [r|]] [Hd' Hr]; [by apply yields_answer, Hr|]. destruct (negb _); [apply yields_fail|].
  aside_as found. eapply yields_bind.
  { instantiate (1 := λ _, True). destruct found; [by apply yields_ret|]. destruct (_ && _); [by apply yields_ret|apply yields_fail]. }
  intros snapshots _. aside_as rid.
  eapply (yields_bind _ _ _ _ (λ o, bool_decide (is_Some o) = hi_notify_affected_agents input)).
  { destruct (hi_notify_affected_agents input); [|by apply yields_ret].
    aside_as i. by apply yields_ret. }
  intros intent Hi. apply yields_commit; [|done]. left. split; [done|]. split; [done|]. left. exists fs, input, now.
  split; [done|]. unfold human_resolution_matches_input. simpl. rewrite Hi, assessments_match_refl.
  by rewrite !bool_decide_eq_true_2 by done.
Qed.

Lemma yields_replace fs id input now d : (fs, AReject id input now) ∈ log → traced_dispute self log id d →
  yields (replace_resolution hex_encode maintainer id input now d) (λ _, True).
Proof.
  intros Hlog Hd. unfold replace_resolution, check. destruct (mdr_resolution d) as [c|]; [|apply yields_fail].
  destruct (negb _); [apply yields_fail|]. destruct (negb _); [apply yields_fail|].
  eapply yields_bind; [apply yields_lift|intros _ _].
  eapply yields_bind; [apply yields_stored_record|intros superseded _].
  aside_as found. aside_as rid. aside_as intent.
  apply yields_commit; [|done]. left. split; [done|]. split; [done|]. right. exists fs, input, now.
  split; [done|]. unfold replacement_resolution_matches_input. simpl. rewrite assessments_match_refl.
  by rewrite !bool_decide_eq_true_2 by done.
Qed.

Lemma yields_reject fs id input now : (fs, AReject id input now) ∈ log →
  yields (reject_and_replace hex_encode maintainer id input now) (λ _, True).
Proof.
  intros Hlog. unfold reject_and_replace, check. eapply yields_bind; [apply yields_lift|intros _ _].
  aside_as u. eapply yields_bind; [apply yields_dispute|intros d Hd]. simpl.
  eapply yields_bind; [by apply yields_recover_human|].
  intros [d' [r|]] [Hd' Hr]; [destruct (negb _); [by apply yields_answer, Hr|]|]; by eapply yields_replace.
Qed.

(** ** Beginning an adoption *)

Lemma approved_by a p : analysis_is_approved a (threshold self) = true → an_proposal a = Some p →
  ∃ v, an_verification a = Some v ∧ approves self p v.
Proof.
  intros Ha Hp. unfold analysis_is_approved in Ha. rewrite Hp in Ha.
  destruct (an_verification a) as [v|]; [|done]. exists v. split; [done|].
  rewrite !andb_true_iff, forallb_forall in Ha. destruct Ha as (((((((? & ?) & ?) & Hv) & ?) & ?) & ?) & Hc).
  apply bool_decide_eq_true in Hv. split_and!; try done. apply Forall_forall. intros c Hin. apply Hc. by apply list_elem_of_In.
Qed.

Lemma yields_or_fail {A} (o : option A) why : yields (or_fail o why) (λ x, o = Some x).
Proof. destruct o; [by apply yields_ret|apply yields_fail]. Qed.

Lemma yields_begin job by_ now : yields (begin_analysis_adoption_locked hex_encode maintainer job by_ now) (λ _, True).
Proof.
  unfold begin_analysis_adoption_locked. eapply yields_bind; [apply yields_analysis|intros a (Ha & _ & Hid)].
  destruct (negb (bool_decide (an_state a = Approved))) eqn:Hst; [apply yields_fail|].
  apply negb_false_iff, bool_decide_eq_true in Hst.
  eapply yields_bind; [apply yields_dispute|intros d0 Hd0].
  eapply yields_bind; [by apply yields_recover_human|]. intros [d [human|]] [Hd _].
  { eapply yields_bind; [apply yields_try_delivery|]. repeat step. }
  destruct (negb (is_open d)); [apply yields_fail|]. eapply yields_bind; [apply yields_or_fail|intros p Hp].
  destruct (negb (is_resolved (ap_resolution_type p))); [apply yields_fail|].
  eapply yields_bind; [apply yields_or_fail|intros c _]. eapply yields_bind; [apply yields_or_fail|intros f _].
  eapply yields_bind; [apply yields_or_fail|intros h _]. aside_as rid. simpl. aside_as intent.
  set (r := Build_ArbitrationResolutionRecord _ _ _ _ _ _ _ _ _ _ _ _).
  assert (Happ : analysis_is_approved a (threshold self) = true) by (apply Ha; by rewrite Hst).
  assert (Hr : provenance r).
  { destruct (approved_by a p Happ Hp) as (v & Hv & Hpv). right. exists (an_analysis_id a), p, v.
    split; [done|by apply Ha|by apply Ha|done|done]. }
  assert (Ha' : sourced (adopting r now a)).
  { destruct Ha as [S1 S2 S3 S4]. split; [exact S1|exact S2|by intros _|intros ? [= <-]]. split; [done|by symmetry]. }
  eapply yields_bind; [by apply yields_write_analysis|intros _ _].
  eapply yields_bind; [exact (yields_finish _ d r now _ Hr eq_refl Hd Ha' eq_refl)|]. repeat step.
Qed.

Lemma yields_adopt_commit job by_ current :
  yields (adopt_commit hex_encode maintainer self job by_ current) (λ _, True).
Proof.
  unfold adopt_commit. aside_as u. eapply yields_bind; [apply yields_resume|intros [r|] _]; [by apply yields_ret|].
  eapply yields_bind; [apply yields_analysis|intros a (Ha & _ & Hid)]. aside_as d.
  eapply yields_bind; [apply yields_lift|intros [] Hpre].
  assert (Hst : an_state a = Approved).
  { unfold ensure_adoption_preconditions in Hpre. by case_bool_decide. }
  destruct current as [b|e]; [|destruct e; try apply yields_fail; repeat step].
  destruct (negb _).
  - simpl. destruct (_ && _); [|repeat step]. eapply yields_bind; [|repeat step]. unfold schedule_reanalysis.
    aside_as now. apply yields_write_analysis. unfold scheduled.
    repeat case_bool_decide; apply (sourced_update a _ Ha); try done; try (by left); try (by right).
    intros _. by rewrite Hst.
  - aside_as now. apply yields_map_err, yields_begin.
Qed.

(** ** Deliveries *)

Lemma yields_recover_pending target : yields (recover_pending_delivery target) (λ _, True).
Proof.
  unfold recover_pending_delivery. aside_as u. eapply yields_bind; [apply yields_read_pending|intros pending Hp].
  eapply yields_bind; [apply yields_read_record|intros current Hc]. simpl.
  assert (Hc' : ∀ r, current = Some r → provenance r) by (intros; by apply Hc). clear Hc.
  set (mine := match current with Some r => if bool_decide _ then Some r else None | None => None end).
  assert (Hm : ∀ r, mine = Some r → provenance r).
  { intros r. unfold mine. destruct current as [r'|]; [|done]. case_bool_decide; [|done]. intros [= <-]. auto. }
  set (record := match pending ≫= prd_resolution_record with Some r => Some r | None => mine end).
  assert (Hr : ∀ r, record = Some r → provenance r).
  { intros r. unfold record. destruct pending as [p|]; simpl; [|apply Hm].
    destruct (prd_resolution_record p) as [r'|] eqn:Ep; [|apply Hm]. intros [= <-]. by eapply Hp. }
  clearbody record mine. destruct record as [r|]; [|apply yields_remove_pending].
  specialize (Hr r eq_refl). destruct (_ || _) eqn:Hid; [apply yields_fail|].
  apply orb_false_iff in Hid as [_ Hid%negb_false_iff%bool_decide_eq_true].
  eapply yields_bind; [apply yields_dispute|intros d Hd]. simpl.
  destruct (negb _ && _); [apply yields_remove_pending|].
  eapply yields_bind.
  { instantiate (1 := λ _, True). destruct (negb _); [|by apply yields_ret].
    eapply yields_bind; [by apply yields_write_record|intros _ _]. by eapply yields_write_dispute, resolved_traced. }
  intros _ _. eapply yields_bind.
  { instantiate (1 := λ _, True). destruct mine; [by apply yields_ret|by apply yields_write_record]. }
  intros _ _. apply yields_delivery.
Qed.

Lemma yields_complete target now : yields (complete_analysis_adoption_after_delivery target now) (λ _, True).
Proof.
  unfold complete_analysis_adoption_after_delivery. aside_as u.
  eapply yields_bind; [apply yields_read_record|intros [r|] _]; [|by apply yields_ret].
  destruct (negb _); [by apply yields_ret|]. destruct (rr_analysis_source_id r) as [source|]; [|by apply yields_ret].
  eapply yields_bind; [apply yields_current|intros [a|] Ha]; [|by apply yields_ret]. destruct (Ha a eq_refl) as [Hs _]. clear Ha.
  destruct (negb _); [by apply yields_ret|]. destruct (negb (bool_decide (an_state a = Adopting))) eqn:Hst; [by apply yields_ret|].
  apply adopting_settled in Hst. destruct (negb _); [apply yields_fail|]. apply yields_write_analysis. update.
Qed.

Lemma yields_retry event now : yields (persist_retry event now) (λ _, True).
Proof.
  unfold persist_retry. destruct event as [target|target|job]; [|repeat step|by apply yields_ret].
  unfold retry_delivery. eapply yields_bind; [apply yields_read_pending|intros found Hf].
  eapply (yields_bind _ _ _ _ (λ o, ∀ p, o = Some p → owed p)).
  { destruct found as [p|]; [apply yields_ret; auto|].
    eapply yields_bind; [apply yields_read_record|intros [r|] Hr]; [|by apply yields_ret].
    apply yields_ret. destruct (_ && _); [|done]. intros p [= <-] r' [= <-]. by apply Hr. }
  intros [p|] Hp; [|by apply yields_ret]. eapply yields_bind; [|repeat step].
  apply yields_write_pending. exact (Hp p eq_refl).
Qed.

Lemma yields_observed id : yields (remove_pending_observation id) (λ _, True).
Proof.
  apply yields_beside. unfold remove_pending_observation, remove_file. solve_preserves. by apply modify_beside.
Qed.
End steps.

(** ** Runs *)

Section runs.
Context (hex_encode : list Z → string) (maintainer : Maintainer) (self : ArbitrationService).

Abbreviation arb_run := (arb_run hex_encode maintainer self).
Abbreviation arb_exec := (arb_exec hex_encode maintainer self).

Lemma provenance_mono log log' r : log ⊆ log' → provenance self log r → provenance self log' r.
Proof.
  intros Hl [(? & ? & [(fs & input & now & ? & ?)|(fs & input & now & ? & ?)])|(id & p & v & [H1 H2 H3 H4 H5])].
  - left. split; [done|]. split; [done|]. left. eauto 8.
  - left. split; [done|]. split; [done|]. right. eauto 8.
  - right. exists id, p, v. destruct H2 as (fs & job & token & ? & ?), H3 as (fs' & job' & token' & ? & ?).
    split; [done|by exists fs, job, token; auto|by exists fs', job', token'; auto|done|done].
Qed.

Lemma traced_mono log log' w : log ⊆ log' → traced self log w → traced self log' w.
Proof.
  intros Hl [T0 T1 T2 T3 T4]. pose proof (λ r, provenance_mono log log' r Hl) as Hp. split.
  - intros k d Hd. destruct (T0 k d Hd) as [Hk Hc]. split; [done|]. intros c Hdc.
    destruct (Hc c Hdc) as (r & ? & ? & ?). exists r. auto.
  - intros k a Ha. destruct (T1 k a Ha) as [[S1 S2 S3 S4] Hk]. split; [|done]. split.
    + intros p Hap. destruct (S1 p Hap) as (fs & job & token & ? & ?). exists fs, job, token. auto.
    + intros v Hav. destruct (S2 v Hav) as (fs & job & token & ? & ?). exists fs, job, token. auto.
    + done.
    + intros r Hr. destruct (S4 r Hr). auto.
  - intros k r Hr. destruct (T2 k r Hr). auto.
  - done.
  - intros k p Hkp r Hr. apply Hp. by eapply T4.
Qed.

Lemma team_traced log fs c w : traced self log w →
  traced self log (put_team (exec hex_encode maintainer (fs, c) (as_team w)) w).
Proof.
  intros Hw. assert (Hq : ∀ t, ts_disputes t = ts_disputes (as_team w) → traced self log (put_team t w)).
  { intros t Ht. apply (traced_beside self log w); [|done]. by split. }
  assert (Hc : (∃ d, c = CReport d) ∨ ∀ d, c ≠ CReport d) by (destruct c; eauto).
  destruct Hc as [[d ->]|Hc]; [|by apply Hq, (exec_quiet hex_encode)].
  unfold exec. simpl. destruct (Maintainer.report_dispute d (set_ts_faults fs (as_team w))) as [r t] eqn:Hr.
  apply (report_cases hex_encode) in Hr as [[_ Ht]|(v & [_ Hv] & _ & _ & ->)]; [by apply Hq|].
  destruct Hw as [T0 T1 T2 T3 T4]. split; try done. intros k' d'. unfold at_dispute, disp. simpl.
  rewrite Hv, lookup_insert_Some. intros [[<- [= <-]]|[_ ?]]; [done|by apply T0].
Qed.

Lemma traced_faults log fs w : traced self log w → traced self log (set_faults fs w).
Proof. by apply traced_beside. Qed.

Lemma exec_traced log fs c w : (fs, c) ∈ log → traced self log w → traced self log (arb_exec (fs, c) w).
Proof.
  intros Hlog Hw. unfold ArbitrationRuns.arb_exec. simpl.
  assert (H : ∀ A (m : AM A), triple (traced self log) (λ _ _, True) (λ _, True) m (λ _ _, True) →
    traced self log (m (set_faults fs w)).2).
  { intros A m Hm. destruct (m (set_faults fs w)) as [r w'] eqn:Em.
    by destruct (Hm _ _ _ (traced_faults _ fs _ Hw) I Em) as (_ & ? & _). }
  destruct c; try apply H.
  - apply yields_report_dispute.
  - apply yields_create.
  - apply yields_start_round.
  - apply yields_wait_context.
  - apply yields_save_context.
  - apply yields_acquire.
  - by eapply yields_save_proposal.
  - by eapply yields_save_verification.
  - apply yields_preempt.
  - apply yields_fail_leased.
  - apply yields_fail_unleased.
  - apply yields_adopt_check.
  - apply yields_adopt_commit.
  - apply yields_recover_adoption.
  - by eapply yields_resolve.
  - by eapply yields_reject.
  - apply yields_recover_pending.
  - apply yields_complete.
  - apply yields_retry.
  - apply yields_observed.
  - by apply team_traced.
Qed.

Lemma run_traced log steps w : steps ⊆ log → traced self log w → traced self log (arb_run steps w).
Proof.
  revert w. induction steps as [|[fs c] steps IH]; intros w Hs Hw; [done|].
  apply (IH (arb_exec (fs, c) w)); [set_solver|]. apply exec_traced; [set_solver|done].
Qed.

Lemma start_traced w : arb_start hex_encode w → traced self [] w.
Proof.
  intros [_ H2 H3 H4 H5 H6 H7 H8]. split; intros k; rewrite ?H6, ?H7, ?H8, ?lookup_empty; try done.
  - intros d. unfold at_dispute, disp. by rewrite H2, lookup_empty.
  - intros a. unfold analysis_file. rewrite H3, H4, H5, !lookup_empty. naive_solver.
Qed.

(** C8. Nobody but a person or an approved analysis resolves a dispute:
    after any commands of any workers under any faults, the record behind a
    dispute's resolution carries what a person entered for that dispute, or
    else it names an analysis, and a proposal and a verification were submitted
    for that analysis, the verification approved every part
    of the proposal, both reached the configured confidence, and the
    resolution is that proposal.  An automatic resolution is of the second
    kind. *)
Theorem resolution_provenance w0 steps k d c (Hs : arb_start hex_encode w0)
    (Hd : ts_disputes (as_team (arb_run steps w0)) !! k = Some (Stored d)) (Hc : mdr_resolution d = Some c) :
  ∃ r, rr_resolution r = c ∧ rr_dispute_id r = k ∧
    ((dr_resolved_by c = Human ∧ entered steps r) ∨ ∃ id p v, adopted_from self steps r id p v).
Proof.
  assert (Ht : traced self steps (arb_run steps w0)).
  { apply run_traced; [done|]. apply (traced_mono []); [set_solver|by apply start_traced]. }
  destruct (tr_dispute _ _ _ Ht k d Hd) as [_ Hk]. destruct (Hk c Hc) as (r & <- & Hid & [He|Ha]).
  - exists r. split; [done|]. split; [done|]. left. split; [apply He|done].
  - exists r. auto.
Qed.
End runs.
