(* ===== verification/ArbitrationDemo.v ===== *)
(** * Concrete runs of arbitration

    A dispute is reported and resolved by a person while the file system
    fails at some point; the witnesses of the guarantees evaluate on it. *)

From S2P Require Import Prelude Storage Claim Maintainer Ledger Delivery Guarantees MaintainerDemo StepLogic.
From S2P Require Import ArbitrationTypes ArbitrationChecks ArbitrationStore Resolution Adoption ArbitrationContext.
From S2P Require Import Analysis ArbitrationRuns ArbitrationDraws Commitments CommitmentRules.
From S2P Require Import CommitmentLiveness CommitmentGuarantees Provenance.
Import Ids.

Definition demo_config : MaintainerArbitrationConfig :=
  {| cfg_mode := ModeAuto; cfg_confidence_threshold := f64_zero; cfg_max_source_claims := 10 |}.
Definition demo_service : ArbitrationService := ArbitrationService_new demo_config "model" 1000.

Definition demo_arb : ArbStore :=
  {| as_team := demo_mirror; as_current := ∅; as_legacy_automatic := ∅; as_legacy_manual := ∅;
     as_resolutions := ∅; as_decisions := ∅; as_pending := ∅; as_observe := ∅; as_policy_index := ∅;
     as_inbox_index := ∅; as_claim_index := ∅; as_policy_events := []; as_resolution_events := [];
     as_router := λ _, None; as_clock := λ n, Z.of_nat n; as_ticks := 0 |}.

Definition demo_input : HumanResolutionInput :=
  {| hi_conclusion := "keep"; hi_notify_affected_agents := true; hi_resolution_type := None;
     hi_resolution_basis := None; hi_claim_assessments := [] |}.

Definition demo_run := arb_run demo_hex demo_self demo_service.
Definition demo_fail_at (n : nat) : list bool := replicate n false ++ [true].
Definition demo_resolved (n : nat) : ArbStore :=
  demo_run [([], AReport demo_dispute); (demo_fail_at n, AResolve "dispute_00000001" demo_input 50)] demo_arb.

Lemma demo_start : arb_start demo_hex demo_arb.
Proof. split; [exact demo_mirror_inv|reflexivity..]. Qed.

Definition demo_pending : ArbStore := demo_resolved 28.
Definition demo_value {A} (f : option (file A)) : option A :=
  match f with Some (Stored a) => Some a | _ => None end.

Definition demo_record : ArbitrationResolutionRecord :=
  ltac:(let t := eval vm_compute in
          (demo_value (as_pending demo_pending !! "resolution_00000001") ≫= prd_resolution_record) in
        match t with Some ?r => exact r end).
Definition demo_committed : MaintainerDisputeRecord :=
  ltac:(let t := eval vm_compute in (demo_value (ts_disputes (as_team demo_pending) !! "dispute_00000001")) in
        match t with Some ?d => exact d end).

Lemma demo_arb_reachable steps : distinct demo_hex (demo_run steps demo_arb) →
  arb_reachable demo_hex demo_self demo_service (demo_run steps demo_arb).
Proof. intros Hd. exists demo_arb, steps. split; [exact demo_start|by split]. Qed.

Lemma demo_pending_reachable : arb_reachable demo_hex demo_self demo_service demo_pending.
Proof. apply demo_arb_reachable. apply (bool_decide_unpack _). vm_compute. exact I. Qed.

Lemma demo_pending_at : ts_disputes (as_team demo_pending) !! "dispute_00000001" = Some (Stored demo_committed).
Proof. vm_compute. reflexivity. Qed.

Lemma demo_pending_record : pending_record demo_record demo_pending.
Proof. eexists. split; vm_compute; reflexivity. Qed.

Definition demo_rejection : RejectResolutionInput :=
  {| ri_expected_resolution_id := "resolution_00000001"; ri_rejection_reason := "no"; ri_conclusion := "drop";
     ri_resolution_type := None; ri_resolution_basis := None; ri_claim_assessments := [] |}.

Lemma resolution_is_final_witness : ∃ d',
  ts_disputes (as_team (demo_run [([], AReject "dispute_00000001" demo_rejection 60)] demo_pending))
    !! "dispute_00000001" = Some (Stored d') ∧ mdr_resolution d' = mdr_resolution demo_committed.
Proof.
  destruct (resolution_is_final demo_hex demo_self demo_service demo_pending "dispute_00000001" demo_committed
    [([], AReject "dispute_00000001" demo_rejection 60)] demo_pending_reachable) as (d' & Hd & _ & _ & Hr).
  - apply (bool_decide_unpack _). vm_compute. exact I.
  - exact demo_pending_at.
  - exists d'. split; [exact Hd|]. destruct (Hr _ eq_refl) as [H|[H _]]; [exact H|discriminate H].
Defined.



(** ** An automatic resolution *)

Definition demo_job : AnalysisJob := {| job_dispute_id := "dispute_00000001"; job_analysis_id := "analysis_00000000" |}.
Definition demo_built : BuiltArbitrationContext :=
  {| bc_frozen := {| fc_generated_at := 3; fc_dispute := demo_dispute; fc_direct_claims := [demo_claim];
       fc_source_claims := []; fc_policies := []; fc_router_candidate_claims := []; fc_router_disputes := [];
       fc_prior_resolutions := []; fc_warnings := [] |};
     bc_semantic_fingerprint := "f"; bc_context_snapshot_hash := "h" |}.
Definition demo_proposal : ArbitrationProposal :=
  {| ap_resolution_type := ConflictResolved; ap_resolution_basis := DirectAnalysis; ap_conclusion := "keep";
     ap_claim_assessments := []; ap_confidence := f64_one; ap_evidence_refs := ["claim_000000aa"];
     ap_missing_evidence := []; ap_human_review_reason := None; ap_reasoning := "r" |}.
Definition demo_verification : ArbitrationVerification :=
  {| av_verdict := VerdictApprove; av_resolution_type_agreed := true; av_resolution_basis_agreed := true;
     av_conclusion_agreed := true; av_claim_assessments := []; av_confidence := f64_one;
     av_missing_evidence := []; av_reasoning := "r" |}.
Definition demo_automatic : list (list bool * arb_command) :=
  [([], AReport demo_dispute); ([], ASaveContext demo_job demo_built);
   ([], ASaveProposal demo_job "00000001" demo_proposal);
   ([], ASaveVerification demo_job "00000001" demo_verification);
   ([], AAdoptCommit demo_job Automatic (Ok demo_built))].


Definition demo_automatic_end : ArbStore := demo_run demo_automatic demo_arb.
Definition demo_automatic_record : MaintainerDisputeRecord :=
  ltac:(let t := eval vm_compute in (demo_value (ts_disputes (as_team demo_automatic_end) !! "dispute_00000001")) in
        match t with Some ?d => exact d end).
Definition demo_automatic_resolution : DisputeResolution :=
  ltac:(let t := eval vm_compute in (mdr_resolution demo_automatic_record) in match t with Some ?c => exact c end).

Lemma resolution_provenance_witness :
  dr_resolved_by demo_automatic_resolution = Automatic ∧
  ∃ r, rr_resolution r = demo_automatic_resolution ∧
    ∃ id p v, adopted_from demo_service demo_automatic r id p v.
Proof.
  split; [vm_compute; reflexivity|].
  destruct (resolution_provenance demo_hex demo_self demo_service demo_arb demo_automatic "dispute_00000001"
    demo_automatic_record demo_automatic_resolution demo_start) as (r & Hr & _ & [[H _]|H]).
  - vm_compute. reflexivity.
  - vm_compute. reflexivity.
  - vm_compute in H. discriminate H.
  - exists r. exact (conj Hr H).
Defined.
