(* ===== verification/TurnJournal.v ===== *)
(** * The journal of a turn: its events and their replay (src/src/session/turn_journal.rs)

    The facts of a session's turns are logged as events; [replay_turn_journal]
    folds them into what a turn was about, and
    [turn_journal_recovery_context_for_chain] tells the model of a later turn
    what the interrupted ones had done.  The file that holds the events is
    modelled in JournalFile.v. *)

From S2P Require Import Prelude Claim Maintainer.

(** ** Data *)

Abbreviation PathBuf := string (only parsing).

Inductive TurnJournalStatus := Committed | Failed | RejectedByProvider | Cancelled | InterruptedByUser.

Definition TurnJournalStatus_as_str (s : TurnJournalStatus) : string :=
  match s with
  | Committed => "committed" | Failed => "failed" | RejectedByProvider => "rejected_by_provider"
  | Cancelled => "cancelled" | InterruptedByUser => "interrupted_by_user"
  end.

Inductive CompactionAssetKind := AssetSkillInstructions | AssetTextAttachment | AssetImage | AssetDocument.

Record CompactionAssetReference := {
  asset_kind : CompactionAssetKind;
  asset_sha256 : string;
  asset_path : PathBuf;
  asset_source_label : option string;
}.

(** api/types.rs *)
Inductive ModelContextSource := Runtime | BackgroundProcess | Delegation | RequestSizeRecovery.

Inductive ToolExecutionOutcome :=
| OutcomeCompleted
| DispatchFailure
| BusinessFailure
| ProcessExit (exit_code : option Z) (success : bool)
| ProcessTerminated (signal : option Z)
| ProcessRunning
| HttpResponse (http_status : Z).

Inductive ToolCallSkipReason := TurnCancelledBeforeDispatch | TurnInterruptedBeforeDispatch.

(** skill.rs *)
Record SkillInstructions := {
  skill_name : string;
  skill_spec_path : PathBuf;
  skill_base_dir : PathBuf;
  skill_arguments : option string;
  skill_content : string;
  skill_content_hash : string;
}.

(** tool/diff.rs *)
Inductive FileChangeKind := Created | Modified.
Inductive FileDiffLineKind := DiffContext | DiffAdd | DiffRemove | DiffGap.
Inductive FileLineEnding := EndingUnknown | Lf | CrLf | EndingNone.

Record FileDiffLine := {
  dl_kind : FileDiffLineKind;
  dl_old_line : option Z;
  dl_new_line : option Z;
  dl_content : string;
  dl_line_ending : FileLineEnding;
  dl_content_truncated : bool;
}.

Record FileDiffHunk := { hunk_lines : list FileDiffLine }.

Record FileChange := {
  fch_path : string;
  fch_kind : FileChangeKind;
  fch_added_lines : Z;
  fch_removed_lines : Z;
  fch_hunks : list FileDiffHunk;
  fch_truncated_changed_lines : Z;
  fch_content_truncated : bool;
  fch_approximate : bool;
}.

(** serde_json::Value.  An object lists its members in the order in which they
    were inserted; the printer sorts them. *)
Inductive Value :=
| VNull
| VBool (b : bool)
| VInt (n : Z)
| VFloat (bits : Z)
| VString (s : string)
| VArray (vs : list Value)
| VObject (members : list (string * Value)).

(** session/mod.rs *)
Inductive SessionContentBlock :=
| BlockText (text : string)
| BlockModelContext (source : ModelContextSource) (fingerprint text : string)
| BlockSkillInstructions (instruction : SkillInstructions)
| BlockImage (media_type data : string)
| BlockDocument (media_type data : string) (filename : option string)
| BlockToolUse (id name : string) (input : Value)
| BlockInvalidToolUse (id name error : string)
| BlockToolResult (tool_use_id content : string).

Inductive TurnJournalEventKind :=
| TurnStarted
| UserInputAccepted (text : string)
| CanonicalUserMessage (content_hash : option string) (content : option (list SessionContentBlock))
| ModelContextAppended (source : ModelContextSource) (fingerprint text : string)
| SkillInstructionsResolved (skills : list SkillInstructions)
| CompactionAssetsExternalized (assets : list CompactionAssetReference)
| UserSteerSubmitted (text : string)
| InterruptRequested (reason : option string)
| InterruptPending (reason : option string)
| AssistantDelta (text : string)
| AssistantOutputAccepted
| AssistantOutputCheckpoint (text : string)
| AssistantOutputPreservedForFallback
| AssistantOutputDiscarded
| AssistantCompleted (text : string)
| NonStreamingFallbackAttemptStarted (attempt max_attempts : Z) (previous_error : string)
| NonStreamingFallbackAttemptFailed (attempt max_attempts : Z) (error : string)
| NonStreamingFallbackSucceeded (attempt max_attempts : Z) (text : string)
| ToolCallStarted (tool_use_id name summary input_preview : string) (input_truncated : bool)
| ToolCallSkipped (tool_use_id name summary input_preview : string) (input_truncated : bool)
    (reason : ToolCallSkipReason)
| ToolCallProgress (tool_use_id summary : string)
| ToolCallCompleted (tool_use_id summary : string) (outcome : option ToolExecutionOutcome)
    (output_preview : string) (output_truncated : bool) (file_change : option FileChange)
| ToolCallInterrupted (tool_use_id summary : string)
| BackgroundProcessCompleted (tool_use_id process_id : string) (instance_id : Z) (status : string)
    (exit_code signal : option Z) (success : bool)
| ProviderRequestRejected (rejection_id : Z) (discard_turn : bool)
| ProviderRequestRetriedAfterRejection (rejection_id : Z)
| HistoricalMediaCleaned
| TurnFinished (status : TurnJournalStatus).

Record TurnJournalEvent := {
  ev_seq : Z;
  ev_turn_id : string;
  ev_created_at : DateTime;
  ev_kind : TurnJournalEventKind;
}.

Inductive TurnJournalFlush := Immediate | Buffered.

(** The kinds of warnings; their texts are left out. *)
Inductive TurnJournalWarningMessage := ReadFailed | NotUtf8 | SeqZero | SeqNotIncreasing | SeqRepeated | BadLine.

Record TurnJournalWarning := { tw_line : option nat; tw_message : TurnJournalWarningMessage }.

Record TurnJournalRead := {
  tr_events : list TurnJournalEvent;
  tr_warnings : list TurnJournalWarning;
}.

(** ** What a replay yields *)

Record TurnJournalModelContext := {
  mc_source : ModelContextSource;
  mc_fingerprint : string;
  mc_text : string;
  mc_appended_at : DateTime;
}.

Inductive TurnJournalNonStreamingFallbackState := InProgress | AttemptFailed | Succeeded.

Definition TurnJournalNonStreamingFallbackState_as_str (s : TurnJournalNonStreamingFallbackState) : string :=
  match s with InProgress => "in_progress" | AttemptFailed => "attempt_failed" | Succeeded => "succeeded" end.

Record TurnJournalNonStreamingFallback := {
  fb_attempt : Z;
  fb_max_attempts : Z;
  fb_state : TurnJournalNonStreamingFallbackState;
  fb_last_error : option string;
}.

Record TurnJournalBackgroundProcessCompletion := {
  bg_process_id : string;
  bg_instance_id : Z;
  bg_status : string;
  bg_exit_code : option Z;
  bg_signal : option Z;
  bg_success : bool;
}.

Record TurnJournalToolCall := {
  tc_tool_use_id : string;
  tc_name : string;
  tc_started_summary : string;
  tc_input_preview : string;
  tc_input_truncated : bool;
  tc_latest_progress : option string;
  tc_completed_summary : option string;
  tc_interrupted_summary : option string;
  tc_skipped_summary : option string;
  tc_skip_reason : option ToolCallSkipReason;
  tc_outcome : option ToolExecutionOutcome;
  tc_output_preview : option string;
  tc_output_truncated : bool;
  tc_file_change : option FileChange;
  tc_background_completion : option TurnJournalBackgroundProcessCompletion;
}.

Inductive TurnJournalTimelineItem :=
| TimelineAssistant (text : string) (completed : bool)
| TimelineToolCall (tool : TurnJournalToolCall).

Record TurnJournalTurn := {
  tj_turn_id : string;
  tj_started_at : option DateTime;
  tj_accepted_at : option DateTime;
  tj_finished_at : option DateTime;
  tj_status : option TurnJournalStatus;
  tj_original_user_request : option string;
  tj_canonical_user_content_hash : option string;
  tj_canonical_user_first_text : option string;
  tj_model_context : list TurnJournalModelContext;
  tj_skill_instructions : list SkillInstructions;
  tj_compaction_assets : list CompactionAssetReference;
  tj_assistant_text : string;
  tj_assistant_completed : bool;
  tj_tool_calls : list TurnJournalToolCall;
  tj_timeline_items : list TurnJournalTimelineItem;
  tj_user_steers : list string;
  tj_non_streaming_fallbacks : list TurnJournalNonStreamingFallback;
}.

Record TurnJournalProjection := {
  tp_turns : list TurnJournalTurn;
  tp_warnings : list TurnJournalWarning;
}.

#[export] Instance TurnJournalStatus_eq_dec : EqDecision TurnJournalStatus.
Proof. solve_decision. Defined.
#[export] Instance CompactionAssetKind_eq_dec : EqDecision CompactionAssetKind.
Proof. solve_decision. Defined.
#[export] Instance CompactionAssetReference_eq_dec : EqDecision CompactionAssetReference.
Proof. solve_decision. Defined.
#[export] Instance ModelContextSource_eq_dec : EqDecision ModelContextSource.
Proof. solve_decision. Defined.
#[export] Instance ToolExecutionOutcome_eq_dec : EqDecision ToolExecutionOutcome.
Proof. solve_decision. Defined.
#[export] Instance ToolCallSkipReason_eq_dec : EqDecision ToolCallSkipReason.
Proof. solve_decision. Defined.
#[export] Instance SkillInstructions_eq_dec : EqDecision SkillInstructions.
Proof. solve_decision. Defined.

(** ** The accumulator of one turn *)

Record AssistantSegment := {
  seg_text : string;
  seg_completed : bool;
  seg_accepted_bytes : nat;
}.

Inductive TimelineAccumulatorItem :=
| ItemAssistant (segment : AssistantSegment)
| ItemToolCall (id : string).

Record ToolAccumulator := {
  ac_tool_use_id : string;
  ac_name : string;
  ac_started_summary : string;
  ac_input_preview : string;
  ac_input_truncated : bool;
  ac_latest_progress : option string;
  ac_completed_summary : option string;
  ac_interrupted_summary : option string;
  ac_skipped_summary : option string;
  ac_skip_reason : option ToolCallSkipReason;
  ac_outcome : option ToolExecutionOutcome;
  ac_output_preview : option string;
  ac_output_truncated : bool;
  ac_file_change : option FileChange;
  ac_background_completion : option TurnJournalBackgroundProcessCompletion;
}.

Record TurnAccumulator := {
  ta_turn_id : string;
  ta_started_at : option DateTime;
  ta_accepted_at : option DateTime;
  ta_finished_at : option DateTime;
  ta_status : option TurnJournalStatus;
  ta_original_user_request : option string;
  ta_canonical_user_content_hash : option string;
  ta_canonical_user_first_text : option string;
  ta_model_context : list TurnJournalModelContext;
  ta_skill_instructions : list SkillInstructions;
  ta_compaction_assets : list CompactionAssetReference;
  ta_tool_calls : gmap string ToolAccumulator;
  ta_tool_order : list string;
  ta_timeline_items : list TimelineAccumulatorItem;
  ta_user_steers : list string;
  ta_non_streaming_fallbacks : list TurnJournalNonStreamingFallback;
  ta_provider_rejection_status : option TurnJournalStatus;
  ta_provider_rejection_at : option DateTime;
  ta_provider_rejection_id : option Z;
  ta_historical_media_cleaned : bool;
}.

(** Field updates: a record rebuilt from its fields with one of them replaced. *)
Definition ta_eta (a : TurnAccumulator) : TurnAccumulator :=
  {| ta_turn_id := ta_turn_id a; ta_started_at := ta_started_at a; ta_accepted_at := ta_accepted_at a;
     ta_finished_at := ta_finished_at a; ta_status := ta_status a;
     ta_original_user_request := ta_original_user_request a;
     ta_canonical_user_content_hash := ta_canonical_user_content_hash a;
     ta_canonical_user_first_text := ta_canonical_user_first_text a;
     ta_model_context := ta_model_context a; ta_skill_instructions := ta_skill_instructions a;
     ta_compaction_assets := ta_compaction_assets a; ta_tool_calls := ta_tool_calls a;
     ta_tool_order := ta_tool_order a; ta_timeline_items := ta_timeline_items a;
     ta_user_steers := ta_user_steers a; ta_non_streaming_fallbacks := ta_non_streaming_fallbacks a;
     ta_provider_rejection_status := ta_provider_rejection_status a;
     ta_provider_rejection_at := ta_provider_rejection_at a;
     ta_provider_rejection_id := ta_provider_rejection_id a;
     ta_historical_media_cleaned := ta_historical_media_cleaned a |}.

Definition ac_eta (t : ToolAccumulator) : ToolAccumulator :=
  {| ac_tool_use_id := ac_tool_use_id t; ac_name := ac_name t; ac_started_summary := ac_started_summary t;
     ac_input_preview := ac_input_preview t; ac_input_truncated := ac_input_truncated t;
     ac_latest_progress := ac_latest_progress t; ac_completed_summary := ac_completed_summary t;
     ac_interrupted_summary := ac_interrupted_summary t; ac_skipped_summary := ac_skipped_summary t;
     ac_skip_reason := ac_skip_reason t; ac_outcome := ac_outcome t; ac_output_preview := ac_output_preview t;
     ac_output_truncated := ac_output_truncated t; ac_file_change := ac_file_change t;
     ac_background_completion := ac_background_completion t |}.

Definition set_started_at v a : TurnAccumulator := ltac:(eta_set ta_eta a ta_started_at v).
Definition set_accepted_at v a : TurnAccumulator := ltac:(eta_set ta_eta a ta_accepted_at v).
Definition set_finished_at v a : TurnAccumulator := ltac:(eta_set ta_eta a ta_finished_at v).
Definition set_status v a : TurnAccumulator := ltac:(eta_set ta_eta a ta_status v).
Definition set_original_user_request v a : TurnAccumulator := ltac:(eta_set ta_eta a ta_original_user_request v).
Definition set_content_hash v a : TurnAccumulator := ltac:(eta_set ta_eta a ta_canonical_user_content_hash v).
Definition set_first_text v a : TurnAccumulator := ltac:(eta_set ta_eta a ta_canonical_user_first_text v).
Definition set_model_context v a : TurnAccumulator := ltac:(eta_set ta_eta a ta_model_context v).
Definition set_skill_instructions v a : TurnAccumulator := ltac:(eta_set ta_eta a ta_skill_instructions v).
Definition set_compaction_assets v a : TurnAccumulator := ltac:(eta_set ta_eta a ta_compaction_assets v).
Definition set_tool_calls v a : TurnAccumulator := ltac:(eta_set ta_eta a ta_tool_calls v).
Definition set_tool_order v a : TurnAccumulator := ltac:(eta_set ta_eta a ta_tool_order v).
Definition set_timeline_items v a : TurnAccumulator := ltac:(eta_set ta_eta a ta_timeline_items v).
Definition set_user_steers v a : TurnAccumulator := ltac:(eta_set ta_eta a ta_user_steers v).
Definition set_fallbacks v a : TurnAccumulator := ltac:(eta_set ta_eta a ta_non_streaming_fallbacks v).
Definition set_rejection_status v a : TurnAccumulator := ltac:(eta_set ta_eta a ta_provider_rejection_status v).
Definition set_rejection_at v a : TurnAccumulator := ltac:(eta_set ta_eta a ta_provider_rejection_at v).
Definition set_rejection_id v a : TurnAccumulator := ltac:(eta_set ta_eta a ta_provider_rejection_id v).
Definition set_media_cleaned v a : TurnAccumulator := ltac:(eta_set ta_eta a ta_historical_media_cleaned v).

Definition set_name v t : ToolAccumulator := ltac:(eta_set ac_eta t ac_name v).
Definition set_started_summary v t : ToolAccumulator := ltac:(eta_set ac_eta t ac_started_summary v).
Definition set_input_preview v t : ToolAccumulator := ltac:(eta_set ac_eta t ac_input_preview v).
Definition set_input_truncated v t : ToolAccumulator := ltac:(eta_set ac_eta t ac_input_truncated v).
Definition set_latest_progress v t : ToolAccumulator := ltac:(eta_set ac_eta t ac_latest_progress v).
Definition set_completed_summary v t : ToolAccumulator := ltac:(eta_set ac_eta t ac_completed_summary v).
Definition set_interrupted_summary v t : ToolAccumulator := ltac:(eta_set ac_eta t ac_interrupted_summary v).
Definition set_skipped_summary v t : ToolAccumulator := ltac:(eta_set ac_eta t ac_skipped_summary v).
Definition set_skip_reason v t : ToolAccumulator := ltac:(eta_set ac_eta t ac_skip_reason v).
Definition set_outcome v t : ToolAccumulator := ltac:(eta_set ac_eta t ac_outcome v).
Definition set_output_preview v t : ToolAccumulator := ltac:(eta_set ac_eta t ac_output_preview v).
Definition set_output_truncated v t : ToolAccumulator := ltac:(eta_set ac_eta t ac_output_truncated v).
Definition set_file_change v t : ToolAccumulator := ltac:(eta_set ac_eta t ac_file_change v).
Definition set_background_completion v t : ToolAccumulator :=
  ltac:(eta_set ac_eta t ac_background_completion v).

(** A sequence of assignments, in the order of the source. *)
Open Scope acn_scope.

Definition empty_turn (turn_id : string) : TurnAccumulator :=
  {| ta_turn_id := turn_id; ta_started_at := None; ta_accepted_at := None; ta_finished_at := None;
     ta_status := None; ta_original_user_request := None; ta_canonical_user_content_hash := None;
     ta_canonical_user_first_text := None; ta_model_context := []; ta_skill_instructions := [];
     ta_compaction_assets := []; ta_tool_calls := ∅; ta_tool_order := []; ta_timeline_items := [];
     ta_user_steers := []; ta_non_streaming_fallbacks := []; ta_provider_rejection_status := None;
     ta_provider_rejection_at := None; ta_provider_rejection_id := None;
     ta_historical_media_cleaned := false |}.

Definition unknown (tool_use_id : string) : ToolAccumulator :=
  {| ac_tool_use_id := tool_use_id; ac_name := "unknown"; ac_started_summary := ""; ac_input_preview := "";
     ac_input_truncated := false; ac_latest_progress := None; ac_completed_summary := None;
     ac_interrupted_summary := None; ac_skipped_summary := None; ac_skip_reason := None; ac_outcome := None;
     ac_output_preview := None; ac_output_truncated := false; ac_file_change := None;
     ac_background_completion := None |}.

Definition COMPACTION_ASSET_REFERENCES_PER_TURN_MAX : nat := 64.

(** ** Assistant output *)

Definition last_item (a : TurnAccumulator) : option TimelineAccumulatorItem := last (ta_timeline_items a).

(** [self.timeline_items.last_mut()] with what is written through it. *)
Definition put_last (i : TimelineAccumulatorItem) (a : TurnAccumulator) : TurnAccumulator :=
  set_timeline_items (removelast (ta_timeline_items a) ++ [i]) a.
Definition push_item (i : TimelineAccumulatorItem) (a : TurnAccumulator) : TurnAccumulator :=
  set_timeline_items (ta_timeline_items a ++ [i]) a.

(** The assistant segment that is still being written. *)
Definition open_segment (a : TurnAccumulator) : option AssistantSegment :=
  match last_item a with
  | Some (ItemAssistant segment) => if seg_completed segment then None else Some segment
  | _ => None
  end.

Definition push_assistant_delta (text : string) (a : TurnAccumulator) : TurnAccumulator :=
  match open_segment a with
  | Some segment =>
      put_last (ItemAssistant {| seg_text := (seg_text segment +:+ text)%string; seg_completed := seg_completed segment;
                                 seg_accepted_bytes := seg_accepted_bytes segment |}) a
  | None => push_item (ItemAssistant {| seg_text := text; seg_completed := false; seg_accepted_bytes := 0 |}) a
  end.

Definition accept_incomplete_assistant (a : TurnAccumulator) : TurnAccumulator :=
  match open_segment a with
  | Some segment =>
      put_last (ItemAssistant {| seg_text := seg_text segment; seg_completed := seg_completed segment;
                                 seg_accepted_bytes := String.length (seg_text segment) |}) a
  | None => a
  end.

(** A segment whose text is known as a whole: a checkpoint, or the completed output. *)
Definition put_segment (completed : bool) (text : string) (a : TurnAccumulator) : TurnAccumulator :=
  let segment := {| seg_text := text; seg_completed := completed;
                    seg_accepted_bytes := String.length text |} in
  match open_segment a with
  | Some _ => put_last (ItemAssistant segment) a
  | None => push_item (ItemAssistant segment) a
  end.

Definition push_assistant_completed (text : string) : TurnAccumulator → TurnAccumulator := put_segment true text.

(** [String::truncate], which leaves a shorter string alone.  It panics inside
    a character; the length given to it is always that of a whole prefix
    ([accepted_output_kept] in TurnJournalProofs.v). *)
Definition truncate (s : string) (new_len : nat) : string :=
  if (String.length s <=? new_len)%nat then s else String.substring 0 new_len s.

Definition discard_incomplete_assistant (a : TurnAccumulator) : TurnAccumulator :=
  match open_segment a with
  | None => a
  | Some segment =>
      if (seg_accepted_bytes segment =? 0)%nat
      then set_timeline_items (removelast (ta_timeline_items a)) a
      else put_last (ItemAssistant {| seg_text := truncate (seg_text segment) (seg_accepted_bytes segment);
                                      seg_completed := seg_completed segment;
                                      seg_accepted_bytes := seg_accepted_bytes segment |}) a
  end.

(** ** Tools *)

Definition note_tool_timeline (tool_use_id : string) (a : TurnAccumulator) : TurnAccumulator :=
  if bool_decide (tool_use_id ∈ ta_tool_order a) then a
  else a |> set_tool_order (ta_tool_order a ++ [tool_use_id]) |> push_item (ItemToolCall tool_use_id).

(** [entry(id).or_insert_with(unknown)] with the assignments made through it. *)
Definition update_tool (tool_use_id : string) (f : ToolAccumulator → ToolAccumulator) (a : TurnAccumulator) :
    TurnAccumulator :=
  let a := note_tool_timeline tool_use_id a in
  set_tool_calls (<[tool_use_id := f (default (unknown tool_use_id) (ta_tool_calls a !! tool_use_id))]>
    (ta_tool_calls a)) a.

(** ** Fallbacks and assets *)

(** The last fallback, made when there is none, after the assignments [f]. *)
Definition ensure_non_streaming_fallback (attempt max_attempts : Z)
    (f : TurnJournalNonStreamingFallback → TurnJournalNonStreamingFallback) (a : TurnAccumulator) : TurnAccumulator :=
  let fallbacks :=
    match ta_non_streaming_fallbacks a with
    | [] => [{| fb_attempt := attempt; fb_max_attempts := max_attempts; fb_state := InProgress;
                fb_last_error := None |}]
    | fs => fs
    end in
  set_fallbacks (alter f (length fallbacks - 1) fallbacks) a.

Definition same_asset (x y : CompactionAssetReference) : bool :=
  bool_decide (asset_kind x = asset_kind y) && bool_decide (asset_sha256 x = asset_sha256 y).

Fixpoint externalize (assets acc : list CompactionAssetReference) : list CompactionAssetReference :=
  match assets with
  | [] => acc
  | asset :: assets' =>
      if (COMPACTION_ASSET_REFERENCES_PER_TURN_MAX <=? length acc)%nat then acc
      else externalize assets'
             (if existsb (λ existing, same_asset existing asset) acc then acc else acc ++ [asset])
  end.

Definition first_text (content : list SessionContentBlock) : option string :=
  head (omap (λ b, match b with BlockText text => Some text | _ => None end) content).

(** ** Applying an event *)

(** What a finished turn still takes in. *)
Definition applies_after_finish (kind : TurnJournalEventKind) : bool :=
  match kind with
  | BackgroundProcessCompleted _ _ _ _ _ _ _ | CompactionAssetsExternalized _ => true
  | _ => false
  end.

Section replay.
Context (canonical_user_content_hash : list SessionContentBlock → option string).

Definition apply_kind (created_at : DateTime) (kind : TurnJournalEventKind) (a : TurnAccumulator) :
    TurnAccumulator :=
  match kind with
  | HistoricalMediaCleaned => set_media_cleaned true a
  | TurnStarted => set_started_at (Some created_at) a
  | UserInputAccepted text =>
      let a := match ta_accepted_at a with None => set_accepted_at (Some created_at) a | Some _ => a end in
      match ta_original_user_request a with None => set_original_user_request (Some text) a | Some _ => a end
  | CanonicalUserMessage content_hash content =>
      match ta_canonical_user_content_hash a with
      | Some _ => a
      | None =>
          a |> set_content_hash (match content_hash with
                                 | Some h => Some h
                                 | None => content ≫= canonical_user_content_hash
                                 end)
            |> set_first_text (content ≫= first_text)
      end
  | ModelContextAppended source fingerprint text =>
      set_model_context (ta_model_context a ++
        [{| mc_source := source; mc_fingerprint := fingerprint; mc_text := text; mc_appended_at := created_at |}]) a
  | SkillInstructionsResolved skills =>
      match ta_skill_instructions a with [] => set_skill_instructions skills a | _ => a end
  | CompactionAssetsExternalized assets => set_compaction_assets (externalize assets (ta_compaction_assets a)) a
  | UserSteerSubmitted text => set_user_steers (ta_user_steers a ++ [text]) a
  | InterruptRequested _ | InterruptPending _ => a
  | AssistantDelta text => push_assistant_delta text a
  | AssistantOutputAccepted => accept_incomplete_assistant a
  | AssistantOutputCheckpoint text => put_segment false text a
  | AssistantOutputPreservedForFallback => a
  | AssistantOutputDiscarded => discard_incomplete_assistant a
  | AssistantCompleted text => push_assistant_completed text a
  | NonStreamingFallbackAttemptStarted attempt max_attempts previous_error =>
      let fallback := {| fb_attempt := attempt; fb_max_attempts := max_attempts; fb_state := InProgress;
                         fb_last_error := Some previous_error |} in
      let fs := ta_non_streaming_fallbacks a in
      if (attempt =? 1)%Z || bool_decide (fs = []) then set_fallbacks (fs ++ [fallback]) a
      else set_fallbacks (removelast fs ++ [fallback]) a
  | NonStreamingFallbackAttemptFailed attempt max_attempts error =>
      ensure_non_streaming_fallback attempt max_attempts (λ f,
        {| fb_attempt := fb_attempt f; fb_max_attempts := fb_max_attempts f; fb_state := AttemptFailed;
           fb_last_error := Some error |}) a
  | NonStreamingFallbackSucceeded attempt max_attempts text =>
      ensure_non_streaming_fallback attempt max_attempts (λ f,
        {| fb_attempt := fb_attempt f; fb_max_attempts := fb_max_attempts f; fb_state := Succeeded;
           fb_last_error := fb_last_error f |}) a
      |> push_assistant_completed text
  | ToolCallStarted tool_use_id name summary input_preview input_truncated =>
      update_tool tool_use_id (λ t, t |> set_name name |> set_started_summary summary
        |> set_input_preview input_preview |> set_input_truncated input_truncated) a
  | ToolCallSkipped tool_use_id name summary input_preview input_truncated reason =>
      update_tool tool_use_id (λ t, t |> set_name name |> set_skipped_summary (Some summary)
        |> set_input_preview input_preview |> set_input_truncated input_truncated
        |> set_skip_reason (Some reason)) a
  | ToolCallProgress tool_use_id summary => update_tool tool_use_id (set_latest_progress (Some summary)) a
  | ToolCallCompleted tool_use_id summary outcome output_preview output_truncated file_change =>
      update_tool tool_use_id (λ t, t |> set_completed_summary (Some summary) |> set_outcome outcome
        |> set_output_preview (Some output_preview) |> set_output_truncated output_truncated
        |> set_file_change file_change) a
  | ToolCallInterrupted tool_use_id summary => update_tool tool_use_id (set_interrupted_summary (Some summary)) a
  | BackgroundProcessCompleted tool_use_id process_id instance_id status exit_code signal success =>
      match ta_tool_calls a !! tool_use_id with
      | Some tool =>
          set_tool_calls (<[tool_use_id := set_background_completion (Some
            {| bg_process_id := process_id; bg_instance_id := instance_id; bg_status := status;
               bg_exit_code := exit_code; bg_signal := signal; bg_success := success |}) tool]>
            (ta_tool_calls a)) a
      | None => a
      end
  | ProviderRequestRejected rejection_id discard_turn =>
      a |> set_rejection_status (Some (if discard_turn then RejectedByProvider else Failed))
        |> set_rejection_at (Some created_at)
        |> set_rejection_id (Some rejection_id)
  | ProviderRequestRetriedAfterRejection rejection_id =>
      if bool_decide (ta_provider_rejection_id a = Some rejection_id)
      then a |> set_rejection_status None |> set_rejection_at None |> set_rejection_id None
      else a
  | TurnFinished status => a |> set_status (Some status) |> set_finished_at (Some created_at)
  end.

Definition apply (created_at : DateTime) (kind : TurnJournalEventKind) (a : TurnAccumulator) : TurnAccumulator :=
  if bool_decide (ta_status a ≠ None) && negb (applies_after_finish kind) then a
  else apply_kind created_at kind a.

Definition apply_event (a : TurnAccumulator) (e : TurnJournalEvent) : TurnAccumulator :=
  apply (ev_created_at e) (ev_kind e) a.

(** ** The projection of a turn *)

Definition newline : string := String (Ascii.ascii_of_nat 10) EmptyString.

Definition ToolAccumulator_finish (t : ToolAccumulator) : TurnJournalToolCall :=
  {| tc_tool_use_id := ac_tool_use_id t; tc_name := ac_name t; tc_started_summary := ac_started_summary t;
     tc_input_preview := ac_input_preview t; tc_input_truncated := ac_input_truncated t;
     tc_latest_progress := ac_latest_progress t; tc_completed_summary := ac_completed_summary t;
     tc_interrupted_summary := ac_interrupted_summary t; tc_skipped_summary := ac_skipped_summary t;
     tc_skip_reason := ac_skip_reason t; tc_outcome := ac_outcome t; tc_output_preview := ac_output_preview t;
     tc_output_truncated := ac_output_truncated t; tc_file_change := ac_file_change t;
     tc_background_completion := ac_background_completion t |}.

Definition segments (items : list TimelineAccumulatorItem) : list AssistantSegment :=
  omap (λ i, match i with ItemAssistant s => Some s | ItemToolCall _ => None end) items.

Definition timeline_item (tools : gmap string ToolAccumulator) (i : TimelineAccumulatorItem) :
    option TurnJournalTimelineItem :=
  match i with
  | ItemAssistant segment =>
      if bool_decide (seg_text segment = ""%string) then None
      else Some (TimelineAssistant (seg_text segment) (seg_completed segment))
  | ItemToolCall id => TimelineToolCall ∘ ToolAccumulator_finish <$> tools !! id
  end.

(** [order.filter_map(|id| map.remove(&id))] *)
Fixpoint remove_in_order {A} (order : list string) (m : gmap string A) : list A :=
  match order with
  | [] => []
  | id :: order' =>
      match m !! id with
      | Some a => a :: remove_in_order order' (delete id m)
      | None => remove_in_order order' m
      end
  end.

Definition option_or {A} (x y : option A) : option A := match x with Some _ => x | None => y end.

Definition finish (a : TurnAccumulator) : TurnJournalTurn :=
  let status := option_or (ta_provider_rejection_status a) (ta_status a) in
  {| tj_turn_id := ta_turn_id a;
     tj_started_at := ta_started_at a;
     tj_accepted_at := ta_accepted_at a;
     tj_finished_at := option_or (ta_finished_at a) (ta_provider_rejection_at a);
     tj_status := status;
     tj_original_user_request := ta_original_user_request a;
     tj_canonical_user_content_hash := ta_canonical_user_content_hash a;
     tj_canonical_user_first_text := ta_canonical_user_first_text a;
     tj_model_context :=
       (if bool_decide (status = Some RejectedByProvider)
        then List.filter (λ c, ta_historical_media_cleaned a && bool_decide (mc_source c = RequestSizeRecovery))
               (ta_model_context a)
        else ta_model_context a);
     tj_skill_instructions := ta_skill_instructions a;
     tj_compaction_assets := ta_compaction_assets a;
     tj_assistant_text := String.concat "
" (seg_text <$> segments (ta_timeline_items a));
     tj_assistant_completed := default false (seg_completed <$> last (segments (ta_timeline_items a)));
     tj_tool_calls := ToolAccumulator_finish <$> remove_in_order (ta_tool_order a) (ta_tool_calls a);
     tj_timeline_items := omap (timeline_item (ta_tool_calls a)) (ta_timeline_items a);
     tj_user_steers := ta_user_steers a;
     tj_non_streaming_fallbacks := ta_non_streaming_fallbacks a |}.

(** ** Replay *)

(** The accumulators and the order in which their turns first appeared. *)
Definition replay_event (s : gmap string TurnAccumulator * list string) (e : TurnJournalEvent) :
    gmap string TurnAccumulator * list string :=
  let '(turns, order) := s in
  let id := ev_turn_id e in
  let order := match turns !! id with None => order ++ [id] | Some _ => order end in
  (<[id := apply_event (default (empty_turn id) (turns !! id)) e]> turns, order).

Definition replay_turn_journal (read : TurnJournalRead) : TurnJournalProjection :=
  let '(turns, order) := fold_left replay_event (tr_events read) (∅, []) in
  {| tp_turns := finish <$> remove_in_order order turns; tp_warnings := tr_warnings read |}.
End replay.

Fixpoint take_while {A} (p : A → bool) (l : list A) : list A :=
  match l with [] => [] | x :: l' => if p x then x :: take_while p l' else [] end.

Definition unresolved_tail (p : TurnJournalProjection) : option TurnJournalTurn :=
  List.find (λ t, bool_decide (tj_status t ≠ Some RejectedByProvider))
    (take_while (λ t, bool_decide (tj_status t ≠ Some Committed)) (reverse (tp_turns p))).

(** ** What a later turn is told of the interrupted ones *)

Record RecoveryContextLimits := {
  original_user_request_max_chars : nat;
  partial_assistant_max_chars : nat;
  tool_input_max_chars : nat;
  tool_output_max_chars : nat;
  user_steer_max_chars : nat;
}.

Definition RecoveryContextLimits_default : RecoveryContextLimits :=
  {| original_user_request_max_chars := 8192; partial_assistant_max_chars := 8192;
     tool_input_max_chars := 2048; tool_output_max_chars := 4096; user_steer_max_chars := 8192 |}.

(** A byte of a UTF-8 text that begins a character. *)
Definition char_start (c : Ascii.ascii) : bool :=
  let b := Ascii.nat_of_ascii c in (b <? 128)%nat || (192 <=? b)%nat.

(** [chars().count()] and [chars().take(n)] *)
Fixpoint chars_count (s : string) : nat :=
  match s with
  | EmptyString => 0
  | String c s' => (if char_start c then 1 else 0) + chars_count s'
  end.

Fixpoint take_chars (n : nat) (s : string) : string :=
  match s with
  | EmptyString => EmptyString
  | String c s' =>
      if char_start c then match n with O => EmptyString | S n' => String c (take_chars n' s') end
      else String c (take_chars n s')
  end.

Definition truncated_mark : string := "...[truncated]".

Definition truncate_chars (value : string) (max_chars : nat) : string :=
  if (chars_count value <=? max_chars)%nat then value else (take_chars max_chars value +:+ truncated_mark)%string.

Definition VOption {A} (f : A → Value) (o : option A) : Value := match o with Some a => f a | None => VNull end.
Definition VTruncated (s : string) (max_chars : nat) : Value := VString (truncate_chars s max_chars).

(** The derived serialisations that the context holds. *)
Definition ToolExecutionOutcome_value (o : ToolExecutionOutcome) : Value :=
  let kind k more := VObject (("kind"%string, VString k) :: more) in
  match o with
  | OutcomeCompleted => kind "completed" []
  | DispatchFailure => kind "dispatch_failure" []
  | BusinessFailure => kind "business_failure" []
  | ProcessExit exit_code success =>
      kind "process_exit" [("exit_code", VOption VInt exit_code); ("success", VBool success)]
  | ProcessTerminated signal => kind "process_terminated" [("signal", VOption VInt signal)]
  | ProcessRunning => kind "process_running" []
  | HttpResponse http_status => kind "http_response" [("http_status", VInt http_status)]
  end%string.

Definition ToolCallSkipReason_value (r : ToolCallSkipReason) : Value :=
  VString match r with
          | TurnCancelledBeforeDispatch => "turn_cancelled_before_dispatch"
          | TurnInterruptedBeforeDispatch => "turn_interrupted_before_dispatch"
          end.

Definition background_completion_recovery_value (b : TurnJournalBackgroundProcessCompletion) : Value :=
  VObject [("process_id", VString (bg_process_id b)); ("instance_id", VInt (bg_instance_id b));
           ("status", VString (bg_status b)); ("exit_code", VOption VInt (bg_exit_code b));
           ("signal", VOption VInt (bg_signal b)); ("success", VBool (bg_success b))]%string.

Definition background_member (t : TurnJournalToolCall) : list (string * Value) :=
  match tc_background_completion t with
  | Some b => [("background_completion"%string, background_completion_recovery_value b)]
  | None => []
  end.

(** [preview], or the summary where there is none. *)
Definition input_or (t : TurnJournalToolCall) (summary : string) : string :=
  if bool_decide (tc_input_preview t = ""%string) then summary else tc_input_preview t.

Section recovery.
(** serde_json on paths and values: both may fail. *)
Context (skills_value : list SkillInstructions → option Value)
        (assets_value : list CompactionAssetReference → option Value)
        (to_string : Value → option string).
Context (limits : RecoveryContextLimits).
Local Open Scope string_scope.

Definition completed_tool (t : TurnJournalToolCall) : option Value :=
  (λ summary, VObject (
     [("tool_use_id", VString (tc_tool_use_id t)); ("name", VString (tc_name t));
      ("summary", VTruncated summary (tool_output_max_chars limits));
      ("outcome", VOption ToolExecutionOutcome_value (tc_outcome t));
      ("output_preview", VTruncated (default summary (tc_output_preview t)) (tool_output_max_chars limits));
      ("output_truncated", VBool (tc_output_truncated t))] ++ background_member t)) <$> tc_completed_summary t.

Definition interrupted_tool (t : TurnJournalToolCall) : option Value :=
  (λ summary, VObject (
     [("tool_use_id", VString (tc_tool_use_id t)); ("name", VString (tc_name t));
      ("summary", VTruncated summary (tool_output_max_chars limits))] ++ background_member t))
  <$> tc_interrupted_summary t.

Definition skipped_tool (t : TurnJournalToolCall) : option Value :=
  (λ summary, VObject
     [("tool_use_id", VString (tc_tool_use_id t)); ("name", VString (tc_name t));
      ("summary", VTruncated summary (tool_input_max_chars limits));
      ("input_preview", VTruncated (input_or t summary) (tool_input_max_chars limits));
      ("input_truncated", VBool (tc_input_truncated t));
      ("reason", VOption ToolCallSkipReason_value (tc_skip_reason t))]) <$> tc_skipped_summary t.

Definition is_pending_tool (t : TurnJournalToolCall) : bool :=
  bool_decide (tc_completed_summary t = None) && bool_decide (tc_interrupted_summary t = None)
  && bool_decide (tc_skipped_summary t = None).

Definition pending_tool (t : TurnJournalToolCall) : Value :=
  VObject
    [("tool_use_id", VString (tc_tool_use_id t)); ("name", VString (tc_name t));
     ("summary", VTruncated (tc_started_summary t) (tool_input_max_chars limits));
     ("input_preview", VTruncated (input_or t (tc_started_summary t)) (tool_input_max_chars limits));
     ("input_truncated", VBool (tc_input_truncated t))].

Definition fallback_value (f : TurnJournalNonStreamingFallback) : Value :=
  VObject
    [("attempt", VInt (fb_attempt f)); ("max_attempts", VInt (fb_max_attempts f));
     ("state", VString (TurnJournalNonStreamingFallbackState_as_str (fb_state f)));
     ("last_error", VOption (λ e, VTruncated e (tool_output_max_chars limits)) (fb_last_error f))].

(** A member that is left out when its list is empty. *)
Definition list_member (name : string) (vs : list Value) : list (string * Value) :=
  match vs with [] => [] | _ => [(name, VArray vs)] end.
Definition option_member (name : string) (v : option Value) : list (string * Value) :=
  match v with Some v => [(name, v)] | None => [] end.

Definition previous_turn_status (turn : TurnJournalTurn) : string :=
  match tj_status turn with
  | Some status => TurnJournalStatus_as_str status
  | None => match tj_non_streaming_fallbacks turn with
            | _ :: _ => "interrupted"
            | [] => TurnJournalStatus_as_str Failed
            end
  end.

Definition recovery_turn_value (turn : TurnJournalTurn) : Value :=
  let skill_was_externalized :=
    existsb (λ asset, bool_decide (asset_kind asset = AssetSkillInstructions)) (tj_compaction_assets turn) in
  let tools := tj_tool_calls turn in
  VObject (
    [("previous_turn_status", VString (previous_turn_status turn))]
    ++ option_member "original_user_request"
         ((λ r, VTruncated r (original_user_request_max_chars limits)) <$> tj_original_user_request turn)
    ++ (if negb skill_was_externalized && negb (bool_decide (tj_skill_instructions turn = []))
        then option_member "skill_instructions" (skills_value (tj_skill_instructions turn)) else [])
    ++ (if negb (bool_decide (tj_compaction_assets turn = []))
        then option_member "externalized_compaction_assets" (assets_value (tj_compaction_assets turn)) else [])
    ++ (if string_blank (tj_assistant_text turn) then []
        else [((if tj_assistant_completed turn then "assistant_completed_summary"
                else "assistant_partial_or_completed_summary"),
               VTruncated (tj_assistant_text turn) (partial_assistant_max_chars limits))])
    ++ list_member "tools_completed" (omap completed_tool tools)
    ++ list_member "tools_interrupted" (omap interrupted_tool tools)
    ++ list_member "tools_skipped" (omap skipped_tool tools)
    ++ list_member "tools_pending_or_skipped" (pending_tool <$> List.filter is_pending_tool tools)
    ++ (if bool_decide (tj_status turn ≠ Some Cancelled) && negb (bool_decide (tj_user_steers turn = []))
        then [("user_steer", VTruncated (String.concat newline (tj_user_steers turn)) (user_steer_max_chars limits))]
        else [])
    ++ list_member "non_streaming_fallbacks" (fallback_value <$> tj_non_streaming_fallbacks turn)).

(** [replace(char, &str)] *)
Fixpoint replace_char (c : Ascii.ascii) (by_ s : string) : string :=
  match s with
  | EmptyString => EmptyString
  | String d s' => if Ascii.eqb d c then by_ +:+ replace_char c by_ s' else String d (replace_char c by_ s')
  end.

Definition quote : string := String (Ascii.ascii_of_nat 34) EmptyString.
Definition empty_payload : string := "{" +:+ quote +:+ "unresolved_turns" +:+ quote +:+ ":[]}".

Definition json_for_tag_payload (value : Value) : string :=
  replace_char ">" "\u003e" (replace_char "<" "\u003c" (default empty_payload (to_string value))).

Definition unresolved (turn : TurnJournalTurn) : bool :=
  match tj_status turn with Some Committed | Some RejectedByProvider => false | _ => true end.

Definition turn_journal_recovery_context_for_chain (turns : list TurnJournalTurn) : option string :=
  let unresolved_turns := List.filter unresolved turns in
  match unresolved_turns with
  | [] => None
  | _ =>
      let payload := VObject
        [("unresolved_turn_count", VInt (Z.of_nat (length unresolved_turns)));
         ("unresolved_turns", VArray (recovery_turn_value <$> unresolved_turns))] in
      Some ("<interrupted_turn_context>" +:+ newline +:+ json_for_tag_payload payload +:+ newline
            +:+ "</interrupted_turn_context>")
  end.

Definition turn_journal_recovery_context (turn : TurnJournalTurn) : option string :=
  turn_journal_recovery_context_for_chain [turn].
End recovery.
