(* ===== verification/JsonLines.v ===== *)
(** * Files of JSON lines

    A file to which values are appended, each as one line of JSON, where a
    write may be cut short.  [encode] and [parse] stand for serde_json and the
    decoding of a line. *)

From S2P Require Import Prelude Text.

(** The values of a file: a line that cannot be read has none. *)
Definition entries {E} (parse : list Z → option E) (bytes : list Z) : list E := omap parse (split_on line_feed bytes).

Section lines.
Context {E : Type} (encode : E → option (list Z)) (parse : list Z → option E).

(** What serde_json provides: a value is written without a raw line feed and
    read back as it was, and no part of a line that begins like it and is
    shorter can be read (the closing brace is missing). *)
Record codec : Prop := {
  codec_line e line : encode e = Some line → line_feed ∉ line ∧ parse line = Some e;
  codec_cut e line p : encode e = Some line → p `prefix_of` line → p ≠ line → parse p = None;
  codec_empty : parse [] = None;
}.
Context (Hcodec : codec).

(** ** Files of whole and cut lines *)

Definition piece_ok (p : list Z) : Prop := p = [] ∨ ∃ e line, encode e = Some line ∧ p `prefix_of` line.
Definition file_ok (b : list Z) : Prop := Forall piece_ok (split_on line_feed b).
Definition closed (b : list Z) : Prop := b = [] ∨ ∃ b0, b = b0 ++ [line_feed].

Lemma piece_ok_prefix p q : piece_ok (p ++ q) → piece_ok p.
Proof.
  intros [H|(e & line & He & Hp)].
  - left. by apply app_eq_nil in H as [-> _].
  - right. exists e, line. split; [done|]. etrans; [by apply prefix_app_r|exact Hp].
Qed.

(** A piece that can be read is whole. *)
Lemma piece_read p e : piece_ok p → parse p = Some e → encode e = Some p.
Proof.
  intros [ ->|(e' & line & He & Hp)] Hr; [by rewrite (codec_empty Hcodec) in Hr|]. destruct (decide (p = line)) as [ ->|Hne].
  - destruct (codec_line Hcodec _ _ He) as [_ Hl]. by simplify_eq.
  - by rewrite (codec_cut Hcodec _ _ _ He Hp Hne) in Hr.
Qed.

Lemma piece_extended p q e : piece_ok (p ++ q) → parse p = Some e → q = [].
Proof.
  intros Hok Hr. pose proof (piece_read _ _ (piece_ok_prefix _ _ Hok) Hr) as Hp.
  destruct Hok as [H|(e' & line & He & Hpre)]; [by apply app_eq_nil in H as [_ ->]|].
  destruct (decide (p = line)) as [ ->|Hne].
  - destruct Hpre as [k Hk]. rewrite <-(assoc_L (++)) in Hk. apply (f_equal length) in Hk.
    rewrite !length_app in Hk. destruct q; [done|simpl in Hk; lia].
  - rewrite (codec_cut Hcodec _ _ p He) in Hr; [done| |done]. etrans; [by apply prefix_app_r|exact Hpre].
Qed.

Lemma entries_feed b : entries parse (b ++ [line_feed]) = entries parse b.
Proof. unfold entries. rewrite (split_on_cut _ b []), omap_app. simpl. rewrite (codec_empty Hcodec). apply app_nil_r. Qed.

Lemma closed_pieces b p : closed b → line_feed ∉ p →
  ∃ ps, split_on line_feed b = ps ++ [[]] ∧ split_on line_feed (b ++ p) = ps ++ [p].
Proof.
  intros [ ->|(b0 & ->)] Hp.
  - exists []. simpl. by rewrite split_on_whole.
  - exists (split_on line_feed b0). rewrite (split_on_cut _ b0 []). split; [done|].
    rewrite <-(assoc_L (++)). simpl. by rewrite split_on_cut, (split_on_whole _ p).
Qed.

Lemma entries_piece b p : closed b → line_feed ∉ p →
  entries parse (b ++ p) = entries parse b ++ match parse p with Some e => [e] | None => [] end.
Proof.
  intros Hb Hp. destruct (closed_pieces b p Hb Hp) as (ps & H1 & H2).
  unfold entries. rewrite H1, H2, !omap_app. simpl. rewrite (codec_empty Hcodec), app_nil_r. by destruct (parse p).
Qed.

Lemma file_ok_feed b : file_ok b → file_ok (b ++ [line_feed]).
Proof. intros Hb. unfold file_ok. rewrite (split_on_cut _ b []). apply Forall_app_2; [done|]. repeat constructor. Qed.

Lemma file_ok_piece b p : closed b → line_feed ∉ p → file_ok b → piece_ok p → file_ok (b ++ p).
Proof.
  intros Hb Hp Hok Hpiece. destruct (closed_pieces b p Hb Hp) as (ps & H1 & H2).
  unfold file_ok in *. rewrite H1 in Hok. rewrite H2. apply Forall_app in Hok as [Hok _].
  apply Forall_app_2; [done|by constructor].
Qed.

(** A reader that sees the beginning of the file sees the first events. *)
Lemma file_ok_prefix x y : file_ok (x ++ y) → entries parse x `prefix_of` entries parse (x ++ y).
Proof.
  unfold file_ok, entries. intros Hok.
  destruct (split_on_snoc line_feed x) as (ps & p & Hx).
  destruct (split_on line_feed y) as [|q qs] eqn:Hy; [by apply split_on_nil in Hy|].
  rewrite (split_on_join _ _ _ _ _ _ _ Hx Hy) in *. rewrite Hx, !omap_app. simpl.
  apply Forall_app in Hok as [_ [Hp _]%Forall_cons]. apply prefix_app.
  destruct (parse p) as [e|] eqn:He; [|apply prefix_nil].
  rewrite (piece_extended _ _ _ Hp He), app_nil_r, He. apply prefix_cons, prefix_nil.
Qed.

Lemma prefix_feed (p line : list Z) : p `prefix_of` line ++ [line_feed] → p `prefix_of` line ∨ p = line ++ [line_feed].
Proof.
  intros [k Hk]. destruct k as [|x k _] using rev_ind; [right; by rewrite app_nil_r in Hk|left].
  rewrite (assoc_L (++)) in Hk. apply app_inj_tail in Hk as [-> _]. by apply prefix_app_r.
Qed.
End lines.

Arguments codec_line {E encode parse}.
Arguments codec_cut {E encode parse}.
Arguments codec_empty {E encode parse}.
Arguments file_ok_feed {E encode}.
Arguments file_ok_piece {E encode}.
