(* ===== verification/JournalFile.v ===== *)
(** * The file of the turn journal (src/src/session/turn_journal.rs)

    One line of JSON per event.  Writers of any number of processes append
    under a lock; opening and reading take no lock.  A write may reach the
    file in part, so a line may be cut short; the next append begins a line of
    its own. *)

From S2P Require Import Prelude Claim Text JsonLines Utf8 Maintainer TurnJournal.
Local Open Scope Z_scope.

Inductive TurnJournalError := JournalIo | JournalLock | JsonEncode | TurnJournalWriterUnavailable | TurnJournalDurabilityTimeout.

Record TurnJournalWriter := {
  wr_next_seq : Z;
  wr_known_len : Z;
  wr_failed : bool;
}.

Record TurnJournalAppendResult := {
  ap_event : TurnJournalEvent;
  ap_next_seq : Z;
  ap_known_len : Z;
}.

(** The file, absent or with its bytes, and what its I/O will meet: a call
    that fails is an entry [Some n], where [n] bytes of a write had been
    written. *)
Record JournalFile := { jf_bytes : option (list Z); jf_faults : list (option nat) }.

Definition put_bytes (b : option (list Z)) (f : JournalFile) : JournalFile :=
  {| jf_bytes := b; jf_faults := jf_faults f |}.
Definition put_faults (fs : list (option nat)) (f : JournalFile) : JournalFile :=
  {| jf_bytes := jf_bytes f; jf_faults := fs |}.

Definition content (f : JournalFile) : list Z := default [] (jf_bytes f).

Abbreviation JM := (M JournalFile TurnJournalError).

Definition take_fault : JM (option nat) := λ f, (Ok (default None (head (jf_faults f))), put_faults (tail (jf_faults f)) f).

Definition io (e : TurnJournalError) : JM unit :=
  fault ← take_fault; match fault with None => mret tt | Some _ => fail e end.

Definition write_all (bytes : list Z) : JM unit :=
  fault ← take_fault;
  match fault with
  | None => modify (λ f, put_bytes (Some (content f ++ bytes)) f)
  | Some n => _ ← modify (λ f, put_bytes (Some (content f ++ take n bytes)) f); fail JournalIo
  end.

Definition byte_len (bytes : list Z) : Z := Z.of_nat (length bytes).

(** One line decoded ([String::from_utf8_lossy], which never joins bytes
    across a line feed) and trimmed; [lines] also drops the carriage return
    that trimming drops. *)
Definition decode_line (raw : list Z) : Text :=
  let '(cs, rest) := lossy raw in
  trim (cs ++ match rest with [] => [] | _ => [REPLACEMENT_CHARACTER] end).

Section file.
(** serde_json *)
Context (to_vec : TurnJournalEvent → option (list Z)) (from_str : Text → option TurnJournalEvent).

(** ** Reading *)

(** The event of a line, [None] for a blank or a bad one. *)
Definition from_line (raw : list Z) : option TurnJournalEvent :=
  match decode_line raw with [] => None | line => from_str line end.

Definition file_events (bytes : list Z) : list TurnJournalEvent := entries from_line bytes.

(** The loop of [read_turn_journal] over the lines from number [idx] on, with
    the numbers seen and the last one. *)
Fixpoint read_lines (lines : list (list Z)) (idx : nat) (seen : list Z) (previous : option Z) :
    list TurnJournalEvent * list TurnJournalWarning :=
  match lines with
  | [] => ([], [])
  | raw :: lines' =>
      let line_no := S idx in
      let warn m := {| tw_line := Some line_no; tw_message := m |} in
      match decode_line raw with
      | [] => read_lines lines' (S idx) seen previous
      | line =>
          match from_str line with
          | Some event =>
              let seq := ev_seq event in
              let '(events, warnings) := read_lines lines' (S idx) (seq :: seen) (Some seq) in
              (event :: events,
               (if (seq =? 0) then [warn SeqZero] else [])
               ++ (match previous with Some p => if (seq <=? p) then [warn SeqNotIncreasing] else [] | None => [] end)
               ++ (if bool_decide (seq ∈ seen) then [warn SeqRepeated] else [])
               ++ warnings)
          | None =>
              let '(events, warnings) := read_lines lines' (S idx) seen previous in
              (events, warn BadLine :: warnings)
          end
      end
  end.

(** The reader at a moment when the file holds [bytes]. *)
Definition read_turn_journal (bytes : Result unit (option (list Z))) : TurnJournalRead :=
  match bytes with
  | Err _ => {| tr_events := []; tr_warnings := [{| tw_line := None; tw_message := ReadFailed |}] |}
  | Ok None => {| tr_events := []; tr_warnings := [] |}
  | Ok (Some bytes) =>
      let not_utf8 := match (from_utf8 bytes).2 with
                      | Some _ => [{| tw_line := None; tw_message := NotUtf8 |}]
                      | None => []
                      end in
      let '(events, warnings) := read_lines (split_on line_feed bytes) 0 [] None in
      {| tr_events := sort_by (cmp_on ev_seq Z.compare) events; tr_warnings := not_utf8 ++ warnings |}
  end.

(** ** Writing *)

Definition max_seq (bytes : list Z) : Z := foldr (λ e m, Z.max (ev_seq e) m) 0 (file_events bytes).

(** [seen]: how much of the file a reader without the lock gets to see of an
    append that is under way; [None] is all of it. *)
Definition next_turn_journal_seq_and_len_blocking (seen : option nat) : JM (Z * Z) :=
  _ ← io JournalIo;
  bytes ← gets jf_bytes;
  match bytes with
  | None => mret (1, 0)
  | Some bytes =>
      let bytes := match seen with Some n => take n bytes | None => bytes end in
      mret (max_seq bytes +sat 1, byte_len bytes)
  end.

Definition turn_journal_file_len_blocking : JM Z :=
  _ ← io JournalIo; gets (λ f, byte_len (content f)).

Definition open_turn_journal_blocking (seen : option nat) : JM (Z * Z) :=
  _ ← io JournalIo;
  next_turn_journal_seq_and_len_blocking seen.

Definition ensure_turn_journal_append_boundary_blocking : JM unit :=
  _ ← io JournalIo;
  bytes ← gets jf_bytes;
  match last (default [] bytes) with
  | None => mret tt
  | Some b =>
      _ ← io JournalIo;
      _ ← io JournalIo;
      if (b =? line_feed) then mret tt
      else
        _ ← io JournalIo;
        _ ← write_all [line_feed];
        io JournalIo
  end.

Definition append_turn_journal_event_blocking (event : TurnJournalEvent) (flush : TurnJournalFlush) : JM unit :=
  _ ← io JournalIo;
  _ ← io JournalIo;
  before ← gets content;
  let needs_parent_sync_after_immediate := match before with [] => true | _ => false end in
  _ ← ensure_turn_journal_append_boundary_blocking;
  _ ← io JournalIo;
  _ ← modify (λ f, put_bytes (Some (content f)) f);
  line ← lift_result (match to_vec event with Some line => Ok line | None => Err JsonEncode end);
  _ ← write_all (line ++ [line_feed]);
  _ ← io JournalIo;
  match flush with
  | Buffered => mret tt
  | Immediate =>
      _ ← io JournalIo;
      if (needs_parent_sync_after_immediate : bool) then io JournalIo else mret tt
  end.

Definition append_turn_journal_blocking (next_seq known_len : Z) (turn_id : string) (created_at : DateTime)
    (kind : TurnJournalEventKind) (flush : TurnJournalFlush) : JM TurnJournalAppendResult :=
  _ ← io JournalLock;
  current_len ← turn_journal_file_len_blocking;
  next_seq ← (if (current_len =? known_len) then mret next_seq
              else scanned ← next_turn_journal_seq_and_len_blocking None; mret scanned.1);
  let event := {| ev_seq := next_seq; ev_turn_id := turn_id; ev_created_at := created_at; ev_kind := kind |} in
  _ ← append_turn_journal_event_blocking event flush;
  known_len ← turn_journal_file_len_blocking;
  mret {| ap_event := event; ap_next_seq := next_seq +sat 1; ap_known_len := known_len |}.

(** ** Writers *)

(** What becomes of a request to the writer thread: its answer arrives, or
    the caller is told otherwise while the request was carried out, or the
    thread is gone and it was not. *)
Inductive reply := Answered | TimedOut | ThreadGone.

Definition lost (r : reply) : TurnJournalError :=
  match r with TimedOut => TurnJournalDurabilityTimeout | _ => TurnJournalWriterUnavailable end.

Definition request {A} (r : reply) (m : JM A) : JM A :=
  match r with
  | Answered => m
  | TimedOut => _ ← m_try m; fail (lost r)
  | ThreadGone => fail (lost r)
  end.

Definition writer_open (r : reply) (seen : option nat) : JM TurnJournalWriter :=
  '(next_seq, known_len) ← request r (open_turn_journal_blocking seen);
  mret {| wr_next_seq := next_seq; wr_known_len := known_len; wr_failed := false |}.

(** [TurnJournalWriter::append]: its result and the writer after it. *)
Definition writer_append (r : reply) (turn_id : string) (created_at : DateTime) (kind : TurnJournalEventKind)
    (flush : TurnJournalFlush) (self : TurnJournalWriter) (f : JournalFile) :
    Result TurnJournalError TurnJournalEvent * TurnJournalWriter * JournalFile :=
  if wr_failed self then (Err TurnJournalWriterUnavailable, self, f)
  else
    match request r (append_turn_journal_blocking (wr_next_seq self) (wr_known_len self) turn_id created_at kind flush) f with
    | (Ok result, f') =>
        (Ok (ap_event result),
         {| wr_next_seq := ap_next_seq result; wr_known_len := ap_known_len result; wr_failed := false |}, f')
    | (Err e, f') =>
        (Err e, {| wr_next_seq := wr_next_seq self; wr_known_len := wr_known_len self; wr_failed := true |}, f')
    end.

(** ** Histories *)

Inductive journal_command :=
| JOpen (writer : nat) (seen : option nat)
| JAppend (writer : nat) (turn_id : string) (created_at : DateTime) (kind : TurnJournalEventKind)
    (flush : TurnJournalFlush).

(** A command with what its I/O meets and what becomes of its request. *)
Record journal_step := { js_command : journal_command; js_reply : reply; js_faults : list (option nat) }.

(** The file, the writers, and the events whose append was acknowledged, in
    the order of their acknowledgements. *)
Record JournalState := {
  jst_bytes : option (list Z);
  jst_writers : gmap nat TurnJournalWriter;
  jst_acknowledged : list TurnJournalEvent;
}.

Definition journal_start : JournalState := {| jst_bytes := None; jst_writers := ∅; jst_acknowledged := [] |}.

Definition journal_exec (st : JournalState) (s : journal_step) : JournalState :=
  let f := {| jf_bytes := jst_bytes st; jf_faults := js_faults s |} in
  match js_command s with
  | JOpen w seen =>
      match writer_open (js_reply s) seen f with
      | (Ok writer, f') =>
          {| jst_bytes := jf_bytes f'; jst_writers := <[w := writer]> (jst_writers st);
             jst_acknowledged := jst_acknowledged st |}
      | (Err _, f') =>
          {| jst_bytes := jf_bytes f'; jst_writers := jst_writers st; jst_acknowledged := jst_acknowledged st |}
      end
  | JAppend w turn_id created_at kind flush =>
      match jst_writers st !! w with
      | None => st
      | Some writer =>
          let '(r, writer, f') := writer_append (js_reply s) turn_id created_at kind flush writer f in
          {| jst_bytes := jf_bytes f'; jst_writers := <[w := writer]> (jst_writers st);
             jst_acknowledged := jst_acknowledged st ++ match r with Ok e => [e] | Err _ => [] end |}
      end
  end.

Definition journal_run (steps : list journal_step) (st : JournalState) : JournalState := fold_left journal_exec steps st.
End file.
