(* ===== verification/TurnJournalProofs.v ===== *)
(** * What a replay of the turn journal yields

    Proofs about TurnJournal.v: a turn depends on its own events only, its
    projection is well formed, a finished turn stays as it is, accepted output
    survives what is discarded after it, and the context made for a later turn
    is closed by its own tag and nothing else.  Then, about JournalFile.v: what
    is acknowledged stays in the file of events. *)

From S2P Require Import Prelude Claim Maintainer Text Utf8 TurnJournal JsonLines JournalFile.

(** ** Turns are folded one by one *)

Section replay.
Context (hash : list SessionContentBlock → option string).

Abbreviation apply_events := (fold_left (apply_event hash)).

Definition events_of (id : string) (es : list TurnJournalEvent) : list TurnJournalEvent :=
  List.filter (λ e, bool_decide (ev_turn_id e = id)) es.

(** Reference: the turn [id] from its events alone. *)
Definition turn_state (es : list TurnJournalEvent) (id : string) : TurnAccumulator :=
  apply_events (events_of id es) (empty_turn id).

Definition turn_ids (es : list TurnJournalEvent) : list string := dedup (ev_turn_id <$> es).

Lemma remove_in_order_omap {A} (order : list string) (m : gmap string A) : NoDup order →
  remove_in_order order m = omap (λ id, m !! id) order.
Proof.
  revert m. induction order as [|id order IH]; intros m Hnd; [done|].
  apply NoDup_cons in Hnd as [Hid Hnd]. simpl. destruct (m !! id) as [a|] eqn:Hm; [|by apply IH].
  f_equal. rewrite IH by done. apply list_omap_ext, Forall2_same_length_lookup_2; [done|].
  intros i x y Hx Hy. simplify_eq. rewrite lookup_delete_ne; [done|]. apply list_elem_of_lookup_2 in Hx. set_solver.
Qed.

Lemma nodup_snoc {A} (l : list A) x : x ∉ l → NoDup l → NoDup (l ++ [x]).
Proof. intros Hx Hl. apply NoDup_app. split_and!; [done|set_solver|apply NoDup_singleton]. Qed.

Lemma dedup_snoc (l : list string) x :
  dedup (l ++ [x]) = if bool_decide (x ∈ l) then dedup l else dedup l ++ [x].
Proof.
  unfold dedup. assert (∀ seen, dedup_onto seen (l ++ [x]) =
    if bool_decide (x ∈ seen ++ l) then dedup_onto seen l else dedup_onto seen l ++ [x]) as H; [|apply (H [])].
  induction l as [|y l IH]; intros seen; simpl.
  - rewrite app_nil_r. by case_bool_decide.
  - rewrite IH. apply (f_equal (λ b : bool, if b then _ else _)), bool_decide_ext. case_bool_decide; set_solver.
Qed.

Lemma events_of_snoc id es e : events_of id (es ++ [e]) =
  events_of id es ++ (if bool_decide (ev_turn_id e = id) then [e] else []).
Proof. unfold events_of. rewrite List.filter_app. simpl. by case_bool_decide. Qed.

Lemma turn_state_snoc es e id : turn_state (es ++ [e]) id =
  if bool_decide (ev_turn_id e = id) then apply_event hash (turn_state es id) e else turn_state es id.
Proof.
  unfold turn_state. rewrite events_of_snoc. case_bool_decide; [|by rewrite app_nil_r].
  by rewrite fold_left_app.
Qed.

Lemma turn_state_fresh es id : id ∉ ev_turn_id <$> es → turn_state es id = empty_turn id.
Proof.
  intros Hid. unfold turn_state. replace (events_of id es) with (@nil TurnJournalEvent); [done|].
  symmetry. unfold events_of. induction es as [|e es IH]; [done|]. simpl.
  rewrite bool_decide_false by set_solver. apply IH. set_solver.
Qed.

Lemma replay_fold es : ∃ turns, fold_left (replay_event hash) es (∅, []) = (turns, turn_ids es) ∧
  ∀ id, turns !! id = if bool_decide (id ∈ ev_turn_id <$> es) then Some (turn_state es id) else None.
Proof.
  induction es as [|e es (turns & Hf & Hl)] using rev_ind.
  { exists ∅. split; [done|]. intros id. by rewrite lookup_empty. }
  rewrite fold_left_app, Hf. eexists. split.
  - simpl. f_equal. unfold turn_ids. rewrite fmap_app. simpl. rewrite dedup_snoc, Hl. by case_bool_decide.
  - intros id. rewrite turn_state_snoc. destruct (decide (ev_turn_id e = id)) as [<-|Hne].
    + rewrite lookup_insert_eq, (bool_decide_true (_ = _)), bool_decide_true by set_solver.
      rewrite Hl. f_equal. case_bool_decide; [done|]. simpl. by rewrite turn_state_fresh.
    + rewrite lookup_insert_ne, Hl, (bool_decide_false (_ = _)) by done.
      apply (f_equal (λ b : bool, if b then _ else _)), bool_decide_ext. set_solver.
Qed.

Lemma replay_turns read : tp_turns (replay_turn_journal hash read) =
  (λ id, finish (turn_state (tr_events read) id)) <$> turn_ids (tr_events read).
Proof.
  unfold replay_turn_journal. destruct (replay_fold (tr_events read)) as (turns & -> & Hl). simpl.
  rewrite remove_in_order_omap by apply NoDup_dedup. unfold turn_ids.
  assert (∀ ids : list string, (∀ id, id ∈ ids → id ∈ ev_turn_id <$> tr_events read) →
    finish <$> omap (λ id, turns !! id) ids = (λ id, finish (turn_state (tr_events read) id)) <$> ids) as H.
  { induction ids as [|id ids IH]; intros Hin; [done|]. simpl. rewrite Hl, bool_decide_true by set_solver.
    simpl. f_equal. apply IH. set_solver. }
  apply H. intros id. apply elem_of_dedup.
Qed.

(** ** The shape of an accumulator *)

Definition tool_ids (items : list TimelineAccumulatorItem) : list string :=
  omap (λ i, match i with ItemToolCall id => Some id | ItemAssistant _ => None end) items.

(** The tools of the timeline are the tools of the turn, each of them once,
    under its own id. *)
Record turn_ok (a : TurnAccumulator) : Prop := {
  ok_order : tool_ids (ta_timeline_items a) = ta_tool_order a;
  ok_nodup : NoDup (ta_tool_order a);
  ok_tools id : is_Some (ta_tool_calls a !! id) ↔ id ∈ ta_tool_order a;
  ok_named id t : ta_tool_calls a !! id = Some t → ac_tool_use_id t = id;
  ok_assets : length (ta_compaction_assets a) ≤ COMPACTION_ASSET_REFERENCES_PER_TURN_MAX;
  ok_distinct : NoDup ((λ x, (asset_kind x, asset_sha256 x)) <$> ta_compaction_assets a);
}.

Lemma tool_ids_app l1 l2 : tool_ids (l1 ++ l2) = tool_ids l1 ++ tool_ids l2.
Proof. apply omap_app. Qed.

Lemma open_segment_items a s : open_segment a = Some s →
  ta_timeline_items a = removelast (ta_timeline_items a) ++ [ItemAssistant s] ∧ seg_completed s = false.
Proof.
  unfold open_segment, last_item. destruct (last (ta_timeline_items a)) as [[s'|id]|] eqn:Hl; try done.
  destruct (seg_completed s') eqn:Hc; [done|]. intros [= <-]. split; [|done].
  apply last_Some in Hl as [l ->]. by rewrite removelast_last.
Qed.

(** What only touches assistant items leaves the shape alone. *)
Lemma turn_ok_timeline a items : turn_ok a → tool_ids items = tool_ids (ta_timeline_items a) →
  turn_ok (set_timeline_items items a).
Proof. intros [] Hi. split; simpl; try done. by rewrite Hi. Qed.

Lemma put_last_ok a s s' : turn_ok a → open_segment a = Some s → turn_ok (put_last (ItemAssistant s') a).
Proof.
  intros Ha [Hs _]%open_segment_items. apply turn_ok_timeline; [done|]. rewrite Hs at 2. by rewrite !tool_ids_app.
Qed.

Lemma push_item_ok a s : turn_ok a → turn_ok (push_item (ItemAssistant s) a).
Proof. intros Ha. apply turn_ok_timeline; [done|]. rewrite tool_ids_app. by rewrite app_nil_r. Qed.

Lemma put_segment_ok c text a : turn_ok a → turn_ok (put_segment c text a).
Proof.
  intros Ha. unfold put_segment. destruct (open_segment a) eqn:Ho; [by eapply put_last_ok|by apply push_item_ok].
Qed.

Lemma push_assistant_delta_ok text a : turn_ok a → turn_ok (push_assistant_delta text a).
Proof.
  intros Ha. unfold push_assistant_delta.
  destruct (open_segment a) eqn:Ho; [by eapply put_last_ok|by apply push_item_ok].
Qed.

Lemma accept_incomplete_assistant_ok a : turn_ok a → turn_ok (accept_incomplete_assistant a).
Proof. intros Ha. unfold accept_incomplete_assistant. destruct (open_segment a) eqn:Ho; [by eapply put_last_ok|done]. Qed.

Lemma discard_incomplete_assistant_ok a : turn_ok a → turn_ok (discard_incomplete_assistant a).
Proof.
  intros Ha. unfold discard_incomplete_assistant. destruct (open_segment a) as [s|] eqn:Ho; [|done].
  case_match; [|by eapply put_last_ok]. apply turn_ok_timeline; [done|].
  destruct (open_segment_items _ _ Ho) as [Hs _]. rewrite Hs at 2. rewrite tool_ids_app. by rewrite app_nil_r.
Qed.

Lemma note_tool_spec id a : turn_ok a → let a' := note_tool_timeline id a in
  tool_ids (ta_timeline_items a') = ta_tool_order a' ∧ NoDup (ta_tool_order a') ∧
  (∀ j, j ∈ ta_tool_order a' ↔ j = id ∨ j ∈ ta_tool_order a) ∧
  ta_tool_calls a' = ta_tool_calls a ∧ ta_compaction_assets a' = ta_compaction_assets a.
Proof.
  intros [Ho Hn Ht Hi Hl Hd] a'. subst a'. unfold note_tool_timeline. case_bool_decide as Hin; simpl.
  - split_and!; try done. set_solver.
  - split_and!; try done.
    + rewrite tool_ids_app. simpl. by rewrite Ho.
    + by apply nodup_snoc.
    + set_solver.
Qed.

Lemma update_tool_ok id f a : (∀ t, ac_tool_use_id (f t) = ac_tool_use_id t) → turn_ok a → turn_ok (update_tool id f a).
Proof.
  intros Hf Ha. destruct (note_tool_spec id a Ha) as (Ho & Hn & Hin & Heq & Has). destruct Ha as [_ _ Ht Hi Hl Hd].
  unfold update_tool. rewrite Heq. split; simpl; rewrite ?Has; try done.
  - intros j. rewrite Hin, lookup_insert_is_Some', Ht. naive_solver.
  - intros j t. rewrite lookup_insert_Some. intros [[<- <-]|[_ Hj]]; [|by eapply Hi].
    rewrite Hf. destruct (ta_tool_calls a !! id) eqn:Hg; simpl; [by eapply Hi|done].
Qed.

Lemma externalize_ok assets acc :
  length acc ≤ COMPACTION_ASSET_REFERENCES_PER_TURN_MAX → NoDup ((λ x, (asset_kind x, asset_sha256 x)) <$> acc) →
  length (externalize assets acc) ≤ COMPACTION_ASSET_REFERENCES_PER_TURN_MAX ∧
  NoDup ((λ x, (asset_kind x, asset_sha256 x)) <$> externalize assets acc).
Proof.
  revert acc. induction assets as [|x assets IH]; intros acc Hl Hd; [done|]. cbn [externalize].
  destruct (Nat.leb_spec COMPACTION_ASSET_REFERENCES_PER_TURN_MAX (length acc)); [done|].
  destruct (existsb _ acc) eqn:He; [by apply IH|]. apply IH.
  - rewrite length_app. simpl. lia.
  - rewrite fmap_app. apply nodup_snoc; [|done]. intros (y & Hy & Hin)%list_elem_of_fmap.
    assert (existsb (λ existing, same_asset existing x) acc = true) as Ht; [|congruence].
    apply existsb_exists. exists y. split; [by apply list_elem_of_In|].
    injection Hy as Hk Hs. unfold same_asset. by rewrite Hk, Hs, !bool_decide_true.
Qed.

(** The same of a tool that exists. *)
Lemma set_tool_ok a id t t' : turn_ok a → ta_tool_calls a !! id = Some t → ac_tool_use_id t' = ac_tool_use_id t →
  turn_ok (set_tool_calls (<[id := t']> (ta_tool_calls a)) a).
Proof.
  intros [Ho Hn Ht Hi Hl Hd] Hg Hname. split; simpl; try done.
  - intros j. rewrite lookup_insert_is_Some', <-Ht. split; [|by right]. intros [<-|]; [by eexists|done].
  - intros j t''. rewrite lookup_insert_Some. intros [[<- <-]|[_ Hj]]; [|by eapply Hi]. rewrite Hname. by eapply Hi.
Qed.

Lemma turn_ok_quiet a b : ta_timeline_items b = ta_timeline_items a → ta_tool_order b = ta_tool_order a →
  ta_tool_calls b = ta_tool_calls a → ta_compaction_assets b = ta_compaction_assets a → turn_ok a → turn_ok b.
Proof. intros H1 H2 H3 H4 []. split; rewrite ?H1, ?H2, ?H3, ?H4; done. Qed.

Lemma apply_kind_ok at_ kind a : turn_ok a → turn_ok (apply_kind hash at_ kind a).
Proof.
  intros Ha. destruct kind; simpl; repeat case_match;
    try (by apply (turn_ok_quiet a)); try (by apply update_tool_ok).
  - destruct (externalize_ok assets (ta_compaction_assets a)); [apply Ha..|]. destruct Ha. by split.
  - by apply push_assistant_delta_ok.
  - by apply accept_incomplete_assistant_ok.
  - by apply put_segment_ok.
  - by apply discard_incomplete_assistant_ok.
  - by apply put_segment_ok.
  - by apply put_segment_ok, (turn_ok_quiet a).
  - by eapply set_tool_ok.
Qed.

Lemma apply_ok at_ kind a : turn_ok a → turn_ok (apply hash at_ kind a).
Proof. intros Ha. unfold apply. case_match; [done|by apply apply_kind_ok]. Qed.

Lemma turn_state_ok es id : turn_ok (turn_state es id).
Proof.
  unfold turn_state. assert (turn_ok (empty_turn id)) as H.
  { split; simpl; try done; try (by constructor); try (unfold COMPACTION_ASSET_REFERENCES_PER_TURN_MAX; lia).
    intros j. rewrite lookup_empty. split; [by intros [? [=]]|set_solver]. }
  revert H. generalize (empty_turn id) as a. induction (events_of id es) as [|e l IH]; intros a Ha; [done|].
  apply IH. by apply apply_ok.
Qed.

Lemma apply_turn_id at_ kind a : ta_turn_id (apply hash at_ kind a) = ta_turn_id a.
Proof.
  unfold apply. case_match; [done|]. destruct kind; simpl; try done;
    unfold put_segment, push_assistant_completed, push_assistant_delta, accept_incomplete_assistant,
      discard_incomplete_assistant, update_tool, note_tool_timeline, put_segment; repeat case_match; done.
Qed.

Lemma turn_state_id es id : ta_turn_id (turn_state es id) = id.
Proof.
  unfold turn_state. assert (ta_turn_id (empty_turn id) = id) as H by done. revert H.
  generalize (empty_turn id) as a. induction (events_of id es) as [|e l IH]; intros a Ha; [done|].
  apply IH. unfold apply_event. by rewrite apply_turn_id.
Qed.

(** ** The projection *)

Definition timeline_tools (items : list TurnJournalTimelineItem) : list TurnJournalToolCall :=
  omap (λ i, match i with TimelineToolCall t => Some t | TimelineAssistant _ _ => None end) items.

Record projected_ok (t : TurnJournalTurn) : Prop := {
  pr_timeline : timeline_tools (tj_timeline_items t) = tj_tool_calls t;
  pr_nodup : NoDup (tc_tool_use_id <$> tj_tool_calls t);
  pr_shown text c : TimelineAssistant text c ∈ tj_timeline_items t → text ≠ ""%string;
  pr_assets : length (tj_compaction_assets t) ≤ COMPACTION_ASSET_REFERENCES_PER_TURN_MAX;
  pr_distinct : NoDup ((λ x, (asset_kind x, asset_sha256 x)) <$> tj_compaction_assets t);
  pr_context : tj_status t = Some RejectedByProvider →
    Forall (λ c, mc_source c = RequestSizeRecovery) (tj_model_context t);
}.

Lemma finish_tools a : turn_ok a → tj_tool_calls (finish a) =
  ToolAccumulator_finish <$> omap (λ id, ta_tool_calls a !! id) (ta_tool_order a).
Proof. intros Ha. simpl. by rewrite remove_in_order_omap by apply Ha. Qed.

Lemma timeline_tools_omap tools items : timeline_tools (omap (timeline_item tools) items) =
  ToolAccumulator_finish <$> omap (λ id, tools !! id) (tool_ids items).
Proof.
  unfold timeline_tools. induction items as [|[s|id] items IH]; [done| |]; simpl.
  - by case_bool_decide.
  - destruct (tools !! id); simpl; [f_equal|]; exact IH.
Qed.

Lemma finish_ok a : turn_ok a → projected_ok (finish a).
Proof.
  intros Ha. split.
  - rewrite finish_tools by done. simpl. rewrite timeline_tools_omap. by rewrite (ok_order _ Ha).
  - rewrite finish_tools by done. rewrite <-list_fmap_compose.
    replace (_ <$> _) with (ta_tool_order a); [apply Ha|].
    assert (∀ id, id ∈ ta_tool_order a → ∃ t, ta_tool_calls a !! id = Some t ∧ ac_tool_use_id t = id) as H.
    { intros id Hid. destruct (proj2 (ok_tools _ Ha id) Hid) as [t Ht]. exists t. split; [done|]. by eapply ok_named. }
    revert H. generalize (ta_tool_order a) as l. induction l as [|id l IH]; intros H; [done|]. simpl.
    destruct (H id) as (t & -> & Hid); [set_solver|]. simpl. rewrite Hid. f_equal. apply IH. set_solver.
  - simpl. intros text c ([s|id] & _ & Hs)%list_elem_of_omap; simpl in Hs.
    + case_bool_decide; naive_solver.
    + by destruct (ta_tool_calls a !! id).
  - apply Ha.
  - apply Ha.
  - simpl. intros ->. rewrite bool_decide_true by done. apply Forall_forall. intros c Hc.
    apply list_elem_of_In, filter_In in Hc as [_ Hc]. apply andb_prop in Hc as [_ Hc].
    by apply bool_decide_eq_true in Hc.
Qed.

(** ** A finished turn *)

(** A turn without what may still reach it after its end: the completion of
    background processes and the assets that compactions put aside. *)
Definition settled_tool (t : ToolAccumulator) : ToolAccumulator := set_background_completion None t.

Definition settled_call (t : TurnJournalToolCall) : TurnJournalToolCall :=
  {| tc_tool_use_id := tc_tool_use_id t; tc_name := tc_name t; tc_started_summary := tc_started_summary t;
     tc_input_preview := tc_input_preview t; tc_input_truncated := tc_input_truncated t;
     tc_latest_progress := tc_latest_progress t; tc_completed_summary := tc_completed_summary t;
     tc_interrupted_summary := tc_interrupted_summary t; tc_skipped_summary := tc_skipped_summary t;
     tc_skip_reason := tc_skip_reason t; tc_outcome := tc_outcome t; tc_output_preview := tc_output_preview t;
     tc_output_truncated := tc_output_truncated t; tc_file_change := tc_file_change t;
     tc_background_completion := None |}.

Definition settled_item (i : TurnJournalTimelineItem) : TurnJournalTimelineItem :=
  match i with TimelineToolCall t => TimelineToolCall (settled_call t) | _ => i end.

Definition settled_turn (t : TurnJournalTurn) : TurnJournalTurn :=
  {| tj_turn_id := tj_turn_id t; tj_started_at := tj_started_at t; tj_accepted_at := tj_accepted_at t;
     tj_finished_at := tj_finished_at t; tj_status := tj_status t;
     tj_original_user_request := tj_original_user_request t;
     tj_canonical_user_content_hash := tj_canonical_user_content_hash t;
     tj_canonical_user_first_text := tj_canonical_user_first_text t; tj_model_context := tj_model_context t;
     tj_skill_instructions := tj_skill_instructions t; tj_compaction_assets := [];
     tj_assistant_text := tj_assistant_text t; tj_assistant_completed := tj_assistant_completed t;
     tj_tool_calls := settled_call <$> tj_tool_calls t; tj_timeline_items := settled_item <$> tj_timeline_items t;
     tj_user_steers := tj_user_steers t; tj_non_streaming_fallbacks := tj_non_streaming_fallbacks t |}.

(** The same of an accumulator, as a relation in time. *)
Record later (a b : TurnAccumulator) : Prop := {
  la_same : set_tool_calls (settled_tool <$> ta_tool_calls b) (set_compaction_assets [] b) =
            set_tool_calls (settled_tool <$> ta_tool_calls a) (set_compaction_assets [] a);
  la_assets : ta_compaction_assets a `prefix_of` ta_compaction_assets b;
}.

#[export] Instance later_preorder : PreOrder later.
Proof.
  split; [by split|]. intros a b c [] []. split; [by etrans|by etrans].
Qed.

Lemma externalize_prefix assets acc : acc `prefix_of` externalize assets acc.
Proof.
  revert acc. induction assets as [|x assets IH]; intros acc; [done|]. cbn [externalize].
  case_match; [done|]. destruct (existsb _ acc); [done|]. etrans; [|apply IH]. by apply prefix_app_r.
Qed.

Lemma apply_finished at_ kind a : ta_status a ≠ None → later a (apply hash at_ kind a).
Proof.
  intros Hs. unfold apply. rewrite (bool_decide_true (ta_status a ≠ None)) by done.
  destruct kind; simpl; try reflexivity.
  - split; [done|]. apply externalize_prefix.
  - destruct (ta_tool_calls a !! tool_use_id) as [t|] eqn:Ht; [|reflexivity]. split; [|done]. simpl.
    rewrite fmap_insert, insert_id; [done|]. by rewrite lookup_fmap, Ht.
Qed.

Lemma later_status a b : later a b → ta_status b = ta_status a.
Proof. intros [H _]. by apply (f_equal ta_status) in H. Qed.

Lemma later_run es a : ta_status a ≠ None → later a (apply_events es a).
Proof.
  revert a. induction es as [|e es IH]; intros a Ha; [reflexivity|]. simpl.
  pose proof (apply_finished (ev_created_at e) (ev_kind e) a Ha) as H. etrans; [exact H|]. apply IH.
  by rewrite (later_status a (apply_event hash a e) H).
Qed.

Lemma finish_settled a : settled_turn (finish a) =
  settled_turn (finish (set_tool_calls (settled_tool <$> ta_tool_calls a) (set_compaction_assets [] a))).
Proof.
  unfold settled_turn, finish. simpl. f_equal.
  - generalize (ta_tool_calls a) as m. induction (ta_tool_order a) as [|id l IH]; intros m; [done|]. simpl.
    rewrite lookup_fmap. destruct (m !! id); simpl; [|apply IH]. f_equal. rewrite <-fmap_delete. apply IH.
  - induction (ta_timeline_items a) as [|[s|id] l IH]; [done| |]; simpl.
    + case_bool_decide; [done|]. simpl. by f_equal.
    + rewrite lookup_fmap. destruct (ta_tool_calls a !! id); simpl; [by f_equal|done].
Qed.

Lemma later_finish a b : later a b → settled_turn (finish b) = settled_turn (finish a) ∧
  tj_compaction_assets (finish a) `prefix_of` tj_compaction_assets (finish b).
Proof.
  intros [Hs Ha]. split; [|done]. rewrite (finish_settled b), (finish_settled a). by rewrite Hs.
Qed.

Lemma apply_finish_status at_ status a : is_Some (ta_status (apply hash at_ (TurnFinished status) a)).
Proof. unfold apply. case_bool_decide as H; simpl; [|by eexists]. by destruct (ta_status a); [eexists|]. Qed.

Lemma turn_state_app es es' id : turn_state (es ++ es') id = apply_events (events_of id es') (turn_state es id).
Proof. unfold turn_state, events_of. by rewrite List.filter_app, fold_left_app. Qed.

Lemma turn_state_finished es id e status : e ∈ es → ev_turn_id e = id → ev_kind e = TurnFinished status →
  ta_status (turn_state es id) ≠ None.
Proof.
  intros (l1 & l2 & ->)%list_elem_of_split Hid Hk. rewrite cons_middle, (assoc_L (++)), turn_state_app, turn_state_snoc.
  rewrite bool_decide_true by done.
  assert (is_Some (ta_status (apply_event hash (turn_state l1 id) e))) as [st Hst].
  { unfold apply_event. rewrite Hk. apply apply_finish_status. }
  rewrite (later_status _ _ (later_run (events_of id l2) _ ltac:(by rewrite Hst))). by rewrite Hst.
Qed.

(** ** Assistant output *)

(** Reference: output as the pieces that came in, those before the last
    acceptance apart from those after it. *)
Inductive output_item :=
| OText (accepted pending : list string) (completed : bool)
| OTool (id : string).

Definition joined (pieces : list string) : string := foldr String.append ""%string pieces.

Definition open_text (items : list output_item) : option (list string * list string) :=
  match last items with Some (OText accepted pending false) => Some (accepted, pending) | _ => None end.

Definition whole (completed : bool) (text : string) (items : list output_item) : list output_item :=
  match open_text items with Some _ => removelast items | None => items end ++ [OText [text] [] completed].

Definition called (id : string) (items : list output_item) : list output_item :=
  if bool_decide (id ∈ omap (λ i, match i with OTool id => Some id | _ => None end) items) then items
  else items ++ [OTool id].

Definition output_step (items : list output_item) (kind : TurnJournalEventKind) : list output_item :=
  match kind with
  | AssistantDelta text =>
      match open_text items with
      | Some (accepted, pending) => removelast items ++ [OText accepted (pending ++ [text]) false]
      | None => items ++ [OText [] [text] false]
      end
  | AssistantOutputAccepted =>
      match open_text items with
      | Some (accepted, pending) => removelast items ++ [OText (accepted ++ pending) [] false]
      | None => items
      end
  | AssistantOutputDiscarded =>
      match open_text items with
      | Some (accepted, _) =>
          removelast items ++ (if bool_decide (joined accepted = ""%string) then [] else [OText accepted [] false])
      | None => items
      end
  | AssistantOutputCheckpoint text => whole false text items
  | AssistantCompleted text | NonStreamingFallbackSucceeded _ _ text => whole true text items
  | ToolCallStarted id _ _ _ _ | ToolCallSkipped id _ _ _ _ _ | ToolCallProgress id _
  | ToolCallCompleted id _ _ _ _ _ | ToolCallInterrupted id _ => called id items
  | _ => items
  end.

Definition is_finish (e : TurnJournalEvent) : bool := match ev_kind e with TurnFinished _ => true | _ => false end.

(** The output of a turn, up to its end. *)
Definition output_of (es : list TurnJournalEvent) : list output_item :=
  fold_left output_step (ev_kind <$> take_while (negb ∘ is_finish) es) [].

Definition render (i : output_item) : TimelineAccumulatorItem :=
  match i with
  | OText accepted pending completed =>
      ItemAssistant {| seg_text := joined (accepted ++ pending); seg_completed := completed;
                       seg_accepted_bytes := String.length (joined accepted) |}
  | OTool id => ItemToolCall id
  end.

Lemma string_append_nil s : (s +:+ "")%string = s.
Proof. induction s as [|c s IH]; [done|]. exact (f_equal (String c) IH). Qed.

Lemma string_app_length s t : String.length (s +:+ t) = String.length s + String.length t.
Proof. induction s as [|c s IH]; [done|]. exact (f_equal S IH). Qed.

Lemma string_app_assoc s t u : (s +:+ (t +:+ u) = (s +:+ t) +:+ u)%string.
Proof. induction s as [|c s IH]; [done|]. exact (f_equal (String c) IH). Qed.

Lemma truncate_app s t : truncate (s +:+ t) (String.length s) = s.
Proof.
  unfold truncate. rewrite string_app_length. destruct (Nat.leb_spec (String.length s + String.length t) (String.length s)).
  - destruct t; [by rewrite string_append_nil|simpl in *; lia].
  - clear. induction s as [|c s IH]; [by destruct t|]. exact (f_equal (String c) IH).
Qed.

Lemma joined_app l1 l2 : joined (l1 ++ l2) = (joined l1 +:+ joined l2)%string.
Proof. induction l1 as [|s l1 IH]; [done|]. simpl. rewrite IH. apply string_app_assoc. Qed.

Lemma removelast_fmap {A B} (f : A → B) l : removelast (f <$> l) = f <$> removelast l.
Proof. induction l as [|x [|y l] IH]; [done..|]. simpl. f_equal. exact IH. Qed.

Section output.
Context (a : TurnAccumulator) (items : list output_item).
Hypothesis Hitems : ta_timeline_items a = render <$> items.

Lemma open_segment_text : open_segment a =
  (λ '(accepted, pending), {| seg_text := joined (accepted ++ pending); seg_completed := false;
                              seg_accepted_bytes := String.length (joined accepted) |}) <$> open_text items.
Proof.
  unfold open_segment, last_item, open_text. rewrite Hitems, fmap_last.
  by destruct (last items) as [[? ? [|]|id]|].
Qed.

Lemma put_last_text i j : i = render j → ta_timeline_items (put_last i a) = render <$> removelast items ++ [j].
Proof. intros ->. simpl. by rewrite Hitems, removelast_fmap, fmap_app. Qed.

Lemma push_item_text i j : i = render j → ta_timeline_items (push_item i a) = render <$> items ++ [j].
Proof. intros ->. simpl. by rewrite Hitems, fmap_app. Qed.

Lemma put_segment_text c text : ta_timeline_items (put_segment c text a) = render <$> whole c text items.
Proof.
  assert (∀ s, ItemAssistant s = render (OText [text] [] c) ↔ s =
    {| seg_text := text; seg_completed := c; seg_accepted_bytes := String.length text |}) as Hr.
  { intros s. simpl. rewrite !string_append_nil. naive_solver. }
  unfold put_segment, whole. rewrite open_segment_text.
  destruct (open_text items) as [[? ?]|]; simpl fmap; cbn iota.
  - apply put_last_text. by apply Hr.
  - apply push_item_text. by apply Hr.
Qed.

Lemma discard_text :
  ta_timeline_items (discard_incomplete_assistant a) = render <$> output_step items AssistantOutputDiscarded.
Proof.
  unfold discard_incomplete_assistant. simpl. rewrite open_segment_text.
  destruct (open_text items) as [[accepted pending]|]; [|done]. simpl fmap. cbn iota beta. cbn [seg_accepted_bytes].
  destruct (joined accepted) as [|ch s] eqn:Hj; simpl.
  - by rewrite Hitems, removelast_fmap, app_nil_r.
  - rewrite Hitems, removelast_fmap, fmap_app. repeat f_equal. simpl.
    by rewrite joined_app, app_nil_r, Hj, (truncate_app (String ch s)).
Qed.

Lemma delta_text text :
  ta_timeline_items (push_assistant_delta text a) = render <$> output_step items (AssistantDelta text).
Proof.
  unfold push_assistant_delta. simpl output_step. rewrite open_segment_text.
  destruct (open_text items) as [[accepted pending]|]; simpl fmap; cbn iota beta.
  - apply put_last_text. simpl. repeat f_equal. rewrite (assoc_L (++)), (joined_app (accepted ++ pending)). simpl.
    by rewrite string_append_nil.
  - apply push_item_text. simpl. by rewrite string_append_nil.
Qed.

Lemma accept_text :
  ta_timeline_items (accept_incomplete_assistant a) = render <$> output_step items AssistantOutputAccepted.
Proof.
  unfold accept_incomplete_assistant. simpl output_step. rewrite open_segment_text.
  destruct (open_text items) as [[accepted pending]|]; simpl fmap; cbn iota beta; [|done].
  apply put_last_text. simpl. by rewrite app_nil_r.
Qed.

Lemma update_tool_text id f : tool_ids (ta_timeline_items a) = ta_tool_order a →
  ta_timeline_items (update_tool id f a) = render <$> called id items.
Proof.
  intros Ho. unfold update_tool, note_tool_timeline, called. rewrite <-Ho, Hitems. simpl.
  replace (tool_ids (render <$> items)) with (omap (λ i, match i with OTool id => Some id | _ => None end) items).
  - case_bool_decide; simpl; rewrite Hitems; [done|by rewrite fmap_app].
  - clear. unfold tool_ids. induction items as [|[? ? ?|j] l IH]; [done|exact IH|exact (f_equal (cons j) IH)].
Qed.
End output.

Lemma apply_kind_output at_ kind a items : turn_ok a → ta_timeline_items a = render <$> items →
  ta_timeline_items (apply_kind hash at_ kind a) = render <$> output_step items kind.
Proof.
  intros Ha Hi. assert (Ho := ok_order _ Ha). destruct kind; cbn [apply_kind];
    first [ by apply update_tool_text | by apply delta_text | by apply accept_text | by apply discard_text
          | by apply put_segment_text | by repeat case_match ].
Qed.

Lemma output_step_finish items status : output_step items (TurnFinished status) = items.
Proof. done. Qed.

Lemma apply_kind_status at_ kind a : ta_status (apply_kind hash at_ kind a) =
  match kind with TurnFinished status => Some status | _ => ta_status a end.
Proof.
  destruct kind; simpl; try done;
    unfold put_segment, push_assistant_completed, push_assistant_delta, accept_incomplete_assistant,
      discard_incomplete_assistant, update_tool, note_tool_timeline, put_segment; repeat case_match; done.
Qed.

Lemma later_timeline a b : later a b → ta_timeline_items b = ta_timeline_items a.
Proof. intros [H _]. by apply (f_equal ta_timeline_items) in H. Qed.

Lemma apply_events_output es a items : turn_ok a → ta_status a = None → ta_timeline_items a = render <$> items →
  ta_timeline_items (apply_events es a) =
    render <$> fold_left output_step (ev_kind <$> take_while (negb ∘ is_finish) es) items.
Proof.
  revert a items. induction es as [|e es IH]; intros a items Ha Hs Hi; [done|].
  change (apply_events (e :: es) a) with (apply_events es (apply_event hash a e)).
  assert (He : apply_event hash a e = apply_kind hash (ev_created_at e) (ev_kind e) a).
  { unfold apply_event, apply. by rewrite Hs. }
  assert (Hi' := apply_kind_output (ev_created_at e) (ev_kind e) a items Ha Hi).
  assert (Hs' := apply_kind_status (ev_created_at e) (ev_kind e) a). rewrite <-He in Hi', Hs'.
  unfold is_finish. simpl. destruct (ev_kind e) eqn:Hk; simpl; rewrite ?Hk;
    try (apply IH; [rewrite He; by apply apply_kind_ok|by rewrite Hs'|exact Hi']).
  rewrite (later_timeline _ _ (later_run es _ ltac:(by rewrite Hs'))). exact Hi'.
Qed.


(** ** The theorems on replay *)

(** A turn is what its own events say: the replay of a journal, in
    whatever order the events of several turns are interleaved, lists the
    turns in the order of their first events, each of them once, and each is
    the fold of its own events alone; the warnings of the reader are passed
    on. *)
Theorem replay_by_turn read :
  let p := replay_turn_journal hash read in
  tj_turn_id <$> tp_turns p = dedup (ev_turn_id <$> tr_events read) ∧
  tp_turns p = (λ id, finish (apply_events (events_of id (tr_events read)) (empty_turn id))) <$>
                 dedup (ev_turn_id <$> tr_events read) ∧
  tp_warnings p = tr_warnings read.
Proof.
  intros p. subst p. split_and!.
  - rewrite replay_turns. unfold turn_ids. rewrite <-list_fmap_compose.
    induction (dedup _) as [|id l IH]; [done|]. simpl. f_equal; [|exact IH]. apply turn_state_id.
  - apply replay_turns.
  - unfold replay_turn_journal. by destruct (fold_left _ _ _).
Qed.

(** C25. Projections are well typed whatever events were read: in every turn
    of a replay the tool calls of the timeline are exactly its tool calls, in
    the same order and each id once; no empty assistant text is shown; the
    assets put aside are distinct and at most 64; and a turn whose request the
    provider rejected keeps no model context but that of a request-size
    recovery. *)
Theorem replay_well_formed read : Forall projected_ok (tp_turns (replay_turn_journal hash read)).
Proof.
  rewrite replay_turns. apply Forall_fmap, Forall_forall. intros id _. apply finish_ok, turn_state_ok.
Qed.

(** A finished turn stays as it is: once an event that finishes the turn
    [id] is in the journal, events appended later change nothing of what the
    replay says of that turn, except that assets put aside by compactions are
    added at the end and the completion of background processes is noted. *)
Theorem finished_turn_frozen es es' id e status (He : e ∈ es) (Hid : ev_turn_id e = id)
    (Hk : ev_kind e = TurnFinished status) ws :
  ∃ t t', t ∈ tp_turns (replay_turn_journal hash {| tr_events := es; tr_warnings := ws |}) ∧
    t' ∈ tp_turns (replay_turn_journal hash {| tr_events := es ++ es'; tr_warnings := ws |}) ∧
    tj_turn_id t = id ∧ settled_turn t' = settled_turn t ∧
    tj_compaction_assets t `prefix_of` tj_compaction_assets t'.
Proof.
  exists (finish (turn_state es id)), (finish (turn_state (es ++ es') id)).
  assert (Hin : id ∈ ev_turn_id <$> es) by (subst id; by apply list_elem_of_fmap_2).
  rewrite !replay_turns. split_and!.
  - apply (list_elem_of_fmap_2 (λ id, finish (turn_state es id))). by apply elem_of_dedup.
  - apply (list_elem_of_fmap_2 (λ id, finish (turn_state (es ++ es') id))). apply elem_of_dedup.
    simpl. rewrite fmap_app. set_solver.
  - apply turn_state_id.
  - apply later_finish. rewrite turn_state_app. by eapply later_run, turn_state_finished.
  - apply later_finish. rewrite turn_state_app. by eapply later_run, turn_state_finished.
Qed.

(** Accepted output survives: keeping only the number of accepted bytes,
    the replay of the assistant output agrees with a reference that keeps the
    pieces themselves, where acceptance moves the pending pieces to the
    accepted ones and a discard drops the pending pieces and no other (the
    segment with them when nothing was accepted); so a discard cuts a text
    only between whole pieces, and the number never exceeds the text. *)
Theorem accepted_output_kept es id :
  ta_timeline_items (apply_events (events_of id es) (empty_turn id)) = render <$> output_of (events_of id es).
Proof.
  unfold output_of. apply apply_events_output; [|done..]. apply (turn_state_ok []).
Qed.
End replay.

(** ** What a later turn is told *)

Section recovery.
Context (skills_value : list SkillInstructions → option Value)
        (assets_value : list CompactionAssetReference → option Value)
        (to_string : Value → option string).

Abbreviation chars := String.list_ascii_of_string.

Lemma chars_app s t : chars (s +:+ t) = chars s ++ chars t.
Proof. induction s as [|c s IH]; [done|]. exact (f_equal (cons c) IH). Qed.

Lemma replace_char_in c by_ s x : x ∈ chars (replace_char c by_ s) → x ∈ chars by_ ∨ (x ∈ chars s ∧ x ≠ c).
Proof.
  induction s as [|d s IH]; simpl; [set_solver|]. destruct (Ascii.eqb_spec d c) as [->|Hne].
  - rewrite chars_app. set_solver.
  - simpl. set_solver.
Qed.

Lemma payload_no_angle v : let p := json_for_tag_payload to_string v in "<"%char ∉ chars p ∧ ">"%char ∉ chars p.
Proof.
  unfold json_for_tag_payload. split; intros [H|[H Hne]]%replace_char_in; try done.
  - vm_compute in H. set_solver.
  - apply replace_char_in in H as [H|[_ H]]; [|done]. vm_compute in H. set_solver.
  - vm_compute in H. set_solver.
Qed.

Definition members (v : Value) : list (string * Value) := match v with VObject ms => ms | _ => [] end.

(** The object [v] lists the tool [id] under one of the four headings. *)
Definition lists_tool (v : Value) (id : string) : Prop :=
  ∃ heading tools tool, heading ∈ ["tools_completed"; "tools_interrupted"; "tools_skipped"; "tools_pending_or_skipped"]%string ∧
    (heading, VArray tools) ∈ members v ∧ tool ∈ tools ∧ ("tool_use_id"%string, VString id) ∈ members tool.

Lemma list_member_in name vs v : v ∈ vs → (name, VArray vs) ∈ list_member name vs.
Proof. destruct vs; [set_solver|]. intros _. simpl. set_solver. Qed.

Lemma recovery_lists_tool limits turn t : t ∈ tj_tool_calls turn →
  lists_tool (recovery_turn_value skills_value assets_value limits turn) (tc_tool_use_id t).
Proof.
  intros Ht. set (tools := tj_tool_calls turn) in *.
  assert (Hlist : ∀ (f : TurnJournalToolCall → option Value) o, f t = Some o → o ∈ omap f tools).
  { intros f o Hf. apply list_elem_of_omap. by exists t. }
  destruct (completed_tool limits t) as [o|] eqn:Hc; [|destruct (interrupted_tool limits t) as [o|] eqn:Hi;
    [|destruct (skipped_tool limits t) as [o|] eqn:Hk]].
  - exists "tools_completed"%string, (omap (completed_tool limits) tools), o. split_and!; [set_solver| |by apply Hlist|].
    + do 5 (apply elem_of_app; right). apply elem_of_app; left. by eapply list_member_in, Hlist.
    + unfold completed_tool in Hc. destruct (tc_completed_summary t); [|done]. injection Hc as <-. simpl. set_solver.
  - exists "tools_interrupted"%string, (omap (interrupted_tool limits) tools), o. split_and!; [set_solver| |by apply Hlist|].
    + do 6 (apply elem_of_app; right). apply elem_of_app; left. by eapply list_member_in, Hlist.
    + unfold interrupted_tool in Hi. destruct (tc_interrupted_summary t); [|done]. injection Hi as <-. simpl. set_solver.
  - exists "tools_skipped"%string, (omap (skipped_tool limits) tools), o. split_and!; [set_solver| |by apply Hlist|].
    + do 7 (apply elem_of_app; right). apply elem_of_app; left. by eapply list_member_in, Hlist.
    + unfold skipped_tool in Hk. destruct (tc_skipped_summary t); [|done]. injection Hk as <-. simpl. set_solver.
  - assert (Hp : t ∈ List.filter is_pending_tool tools).
    { apply list_elem_of_In, filter_In. split; [by apply list_elem_of_In|]. unfold is_pending_tool.
      apply fmap_None in Hc, Hi, Hk. by rewrite Hc, Hi, Hk. }
    exists "tools_pending_or_skipped"%string, (pending_tool limits <$> List.filter is_pending_tool tools), (pending_tool limits t).
    split_and!; [set_solver| |by apply list_elem_of_fmap_2|simpl; set_solver].
    do 8 (apply elem_of_app; right). apply elem_of_app; left. by eapply list_member_in, list_elem_of_fmap_2.
Qed.

(** C26. The context given to a later turn cannot be forged from inside: there
    is one exactly when some turn of the chain is unresolved, and it is the
    JSON of the unresolved turns between its two tags, a text without any
    angle bracket, whatever users, tools and the model wrote; and for each of
    these turns it names every tool call as completed, interrupted, skipped or
    pending. *)
Theorem recovery_context_closed limits turns :
  (turn_journal_recovery_context_for_chain skills_value assets_value to_string limits turns = None ↔
    Forall (λ t, tj_status t = Some Committed ∨ tj_status t = Some RejectedByProvider) turns) ∧
  ∀ context, turn_journal_recovery_context_for_chain skills_value assets_value to_string limits turns = Some context →
    ∃ payload values,
      context = ("<interrupted_turn_context>" +:+ newline +:+ payload +:+ newline
                 +:+ "</interrupted_turn_context>")%string ∧
      "<"%char ∉ chars payload ∧ ">"%char ∉ chars payload ∧
      payload = json_for_tag_payload to_string (VObject
        [("unresolved_turn_count", VInt (Z.of_nat (length values))); ("unresolved_turns", VArray values)])%string ∧
      Forall2 (λ t v, ∀ tool, tool ∈ tj_tool_calls t → lists_tool v (tc_tool_use_id tool))
        (List.filter unresolved turns) values.
Proof.
  unfold turn_journal_recovery_context_for_chain. split.
  - trans (List.filter unresolved turns = []); [by destruct (List.filter _ _)|].
    induction turns as [|t turns IH]; [done|]. rewrite Forall_cons. simpl. unfold unresolved at 1.
    destruct (tj_status t) as [[]|]; naive_solver.
  - intros context Hc.
    exists (json_for_tag_payload to_string (VObject
      [("unresolved_turn_count", VInt (Z.of_nat (length (recovery_turn_value skills_value assets_value limits <$>
          List.filter unresolved turns))));
       ("unresolved_turns", VArray (recovery_turn_value skills_value assets_value limits <$>
          List.filter unresolved turns))]))%string.
    exists (recovery_turn_value skills_value assets_value limits <$> List.filter unresolved turns).
    split_and!.
    + destruct (List.filter unresolved turns) eqn:Hf; [done|]. injection Hc as <-. by rewrite length_fmap.
    + apply payload_no_angle.
    + apply payload_no_angle.
    + done.
    + apply Forall2_fmap_r, Forall_Forall2_diag, Forall_forall. intros t _ tool. apply recovery_lists_tool.
Qed.
End recovery.
(** ** A concrete journal *)

Definition demo_journal_event (seq : Z) (kind : TurnJournalEventKind) : TurnJournalEvent :=
  {| ev_seq := seq; ev_turn_id := "turn"; ev_created_at := seq; ev_kind := kind |}.

Definition demo_finished : list TurnJournalEvent :=
  [demo_journal_event 1 TurnStarted;
   demo_journal_event 2 (ToolCallStarted "a" "run" "s" "" false);
   demo_journal_event 3 (AssistantCompleted "done");
   demo_journal_event 4 (TurnFinished Committed)].

Definition demo_late : list TurnJournalEvent :=
  [demo_journal_event 5 (AssistantDelta "more");
   demo_journal_event 6 (BackgroundProcessCompleted "a" "p" 1 "exited" (Some 0%Z) None true)].

Lemma finished_turn_frozen_witness : ∃ t t',
  t ∈ tp_turns (replay_turn_journal (λ _, None) {| tr_events := demo_finished; tr_warnings := [] |}) ∧
  t' ∈ tp_turns (replay_turn_journal (λ _, None) {| tr_events := demo_finished ++ demo_late; tr_warnings := [] |}) ∧
  tj_assistant_text t' = "done"%string ∧ tj_tool_calls t' ≠ tj_tool_calls t.
Proof.
  destruct (finished_turn_frozen (λ _, None) demo_finished demo_late "turn"
    (demo_journal_event 4 (TurnFinished Committed)) Committed ltac:(set_solver) eq_refl eq_refl [])
    as (t & t' & H1 & H2 & _ & Hs & _).
  exists t, t'. split; [exact H1|]. split; [exact H2|]. vm_compute in H1, H2.
  apply list_elem_of_singleton in H1, H2. subst t t'. split; [reflexivity|discriminate].
Defined.

(** * What survives in the file of the turn journal

    Proofs about JournalFile.v: acknowledged events stay in the file, in order
    and under increasing numbers, whatever writes are cut short and however
    many writers, processes and readers there are. *)

Section proofs.
Context (to_vec : TurnJournalEvent → option (list Z)) (from_str : Text → option TurnJournalEvent).

Abbreviation from_line := (from_line from_str).
Abbreviation file_events := (file_events from_str).
Abbreviation max_seq := (max_seq from_str).

Abbreviation codec := (codec to_vec from_line).
Abbreviation file_ok := (file_ok to_vec).
Context (Hcodec : codec).

Definition events_feed := entries_feed to_vec from_line Hcodec : ∀ b, file_events (b ++ [line_feed]) = file_events b.
Definition events_piece := entries_piece to_vec from_line Hcodec : ∀ b p, closed b → line_feed ∉ p →
  file_events (b ++ p) = file_events b ++ match from_line p with Some e => [e] | None => [] end.

(** ** What an append leaves *)

(** [b'] is [b] after an append of [e] that may have been cut short; [whole]
    when it was not. *)
Record appended (e : TurnJournalEvent) (whole : Prop) (b b' : list Z) : Prop := {
  ap_grown : b `prefix_of` b';
  ap_ok : file_ok b → file_ok b';
  ap_events : file_events b' = file_events b ∨ file_events b' = file_events b ++ [e];
  ap_whole : whole → file_events b' = file_events b ++ [e];
}.

Lemma appended_piece e line b p (whole : Prop) : closed b → to_vec e = Some line → p `prefix_of` line ++ [line_feed] →
  (whole → p = line ++ [line_feed]) → appended e whole b (b ++ p).
Proof.
  intros Hb He Hp Hw. destruct (codec_line Hcodec _ _ He) as [Hfree Hread].
  assert (Hwhole : appended e True b (b ++ line ++ [line_feed])).
  { rewrite (assoc_L (++)). assert (Hev : file_events ((b ++ line) ++ [line_feed]) = file_events b ++ [e])
      by (by rewrite events_feed, events_piece, Hread). split.
    - rewrite <-(assoc_L (++)). by apply prefix_app_r.
    - intros Hok. apply file_ok_feed, file_ok_piece; [done..|]. right. by exists e, line.
    - by right.
    - done. }
  destruct (prefix_feed _ _ Hp) as [Hpre| ->].
  - assert (Hfree' : line_feed ∉ p).
    { intros Hin. apply Hfree. destruct Hpre as [k ->]. set_solver. }
    split.
    + by apply prefix_app_r.
    + intros Hok. apply file_ok_piece; [done..|]. right. by exists e, line.
    + rewrite events_piece by done. destruct (decide (p = line)) as [ ->|Hne]; [right; by rewrite Hread|].
      left. rewrite (codec_cut Hcodec _ _ _ He Hpre Hne). by rewrite app_nil_r.
    + intros Hline%Hw. subst p. destruct Hpre as [k Hk]. apply (f_equal length) in Hk. rewrite !length_app in Hk. simpl in Hk. lia.
  - destruct Hwhole. by split; auto.
Qed.

Lemma appended_feed e whole b b' : appended e whole (b ++ [line_feed]) b' → appended e whole b b'.
Proof.
  intros [H1 H2 H3 H4]. rewrite events_feed in *. split; try done.
  - etrans; [by apply prefix_app_r|exact H1].
  - intros Hok. apply H2. by apply file_ok_feed.
Qed.

Lemma appended_same e (whole : Prop) b : ¬ whole → appended e whole b b.
Proof. intros Hw. by split; [|auto|left|]. Qed.

Lemma appended_mono e (W W' : Prop) b b' : (W' → W) → appended e W b b' → appended e W' b b'.
Proof. intros HW []. by split; auto. Qed.

(** ** The operations *)

Definition same_content (f f' : JournalFile) : Prop := content f' = content f.

#[local] Instance same_content_preorder : PreOrder same_content.
Proof. split; [done|]. intros f1 f2 f3 H1 H2. unfold same_content in *. congruence. Qed.

Lemma io_cases e f r f' : io e f = (r, f') → content f' = content f ∧ (r = Ok tt ∨ r = Err e).
Proof.
  unfold io, take_fault, mbind, M_bind. destruct (head (jf_faults f)) as [[n|]|]; simpl; intros [= <- <-]; auto.
Qed.

Lemma write_all_cases l f r f' : write_all l f = (r, f') →
  ∃ p, p `prefix_of` l ∧ content f' = content f ++ p ∧ (r = Ok tt ∧ p = l ∨ r = Err JournalIo).
Proof.
  unfold write_all, take_fault, mbind, M_bind. destruct (head (jf_faults f)) as [[n|]|]; simpl; intros [= <- <-].
  - exists (take n l). split; [apply prefix_take|]. auto.
  - exists l. auto.
  - exists l. auto.
Qed.

(** One step of a computation that reports failure of an I/O call at once. *)
Ltac io_step H :=
  let a := fresh "a" in let f := fresh "f" in let Hio := fresh "Hio" in let e := fresh "e" in
  apply bind_cases in H as [([] & f & Hio & H)|(e & Hio & ->)];
  apply io_cases in Hio as [Hio _].

Lemma boundary_cases f r f' : ensure_turn_journal_append_boundary_blocking f = (r, f') →
  (content f' = content f ∨ content f' = content f ++ [line_feed]) ∧ (r = Ok tt → closed (content f')).
Proof.
  unfold ensure_turn_journal_append_boundary_blocking. intros H.
  io_step H; [|split; [by left|done]]. apply bind_cases in H as [(bytes & f1 & [= <- <-] & H)|(e & [=] & _)].
  fold (content f0) in H. rewrite <-Hio. clear f Hio. rename f0 into f.
  destruct (last (content f)) as [b|] eqn:Hl.
  2: { injection H as <- <-. split; [by left|]. left. by apply last_None in Hl. }
  apply last_Some in Hl as [b0 Hl].
  io_step H; [|split; [left; congruence|done]]. io_step H; [|split; [left; congruence|done]].
  destruct (Z.eqb_spec b line_feed) as [->|Hb].
  { injection H as <- <-. split; [left; congruence|]. intros _. right. exists b0. congruence. }
  io_step H; [|split; [left; congruence|done]].
  apply bind_cases in H as [([] & f4 & Hw & H)|(e & Hw & ->)];
    apply write_all_cases in Hw as (p & Hp & Hc & Hr).
  - destruct Hr as [[_ ->]|[=]]. apply io_cases in H as [H _]. split; [right; congruence|].
    intros _. right. exists (content f). congruence.
  - split; [|done]. destruct (prefix_feed p [] Hp) as [Hn| ->]; [left|right; simpl in *; congruence].
    apply prefix_nil_inv in Hn. subst p. rewrite app_nil_r in Hc. congruence.
Qed.

Lemma append_event_cases e flush f r f' : append_turn_journal_event_blocking to_vec e flush f = (r, f') →
  appended e (r = Ok tt) (content f) (content f').
Proof.
  unfold append_turn_journal_event_blocking. intros H.
  io_step H; [|rewrite Hio; by apply appended_same]. rewrite <-Hio. clear f Hio. rename f0 into f.
  io_step H; [|rewrite Hio; by apply appended_same]. rewrite <-Hio. clear f Hio. rename f0 into f.
  apply bind_cases in H as [(before & f1 & [= <- <-] & H)|(e1 & [=] & _)].
  assert (Hfeed : ∀ (whole : Prop) b c, c = b ∨ c = b ++ [line_feed] → appended e whole c (content f') →
    appended e whole b (content f')).
  { intros whole b c [->| ->]; [done|apply appended_feed]. }
  apply bind_cases in H as [([] & f1 & Hb & H)|(e1 & Hb & ->)]; apply boundary_cases in Hb as [Hb Hclosed].
  2: { apply (Hfeed _ _ (content f')); [done|by apply appended_same]. }
  apply (Hfeed _ _ (content f1)); [done|]. specialize (Hclosed eq_refl). clear Hb Hfeed.
  io_step H; [|rewrite Hio; by apply appended_same]. rewrite <-Hio in *. clear f1 Hio. rename f0 into f1.
  apply bind_cases in H as [([] & f2 & [= <-] & H)|(e1 & [=] & _)].
  apply bind_cases in H as [(line & f3 & Hline & H)|(e1 & Hline & ->)].
  2: { injection Hline as _ <-. by apply appended_same. }
  unfold lift_result in Hline. destruct (to_vec e) as [line'|] eqn:He; [|done]. injection Hline as -> <-.
  apply bind_cases in H as [([] & f4 & Hw & H)|(e1 & Hw & ->)];
    apply write_all_cases in Hw as (p & Hp & Hc & Hr); change (content (put_bytes _ _)) with (content f1) in Hc.
  2: { rewrite Hc. by eapply appended_piece. }
  destruct Hr as [[_ ->]|[=]].
  assert (Hsame : content f' = content f4).
  { io_step H; [|done]. destruct flush; [|injection H as _ <-; done].
    io_step H; [|congruence]. destruct (match content f with [] => true | _ => false end).
    - apply io_cases in H as [H _]. congruence.
    - injection H as _ <-. congruence. }
  rewrite Hsame, Hc. by eapply appended_piece.
Qed.

(** ** Numbering *)

Lemma next_seq_cases seen f r f' : next_turn_journal_seq_and_len_blocking from_str seen f = (r, f') →
  content f' = content f ∧ ∀ next_seq len, r = Ok (next_seq, len) →
    ∃ n, next_seq = max_seq (take n (content f)) +sat 1 ∧ len = byte_len (take n (content f)) ∧
         (seen = None → take n (content f) = content f).
Proof.
  unfold next_turn_journal_seq_and_len_blocking. intros H.
  io_step H; [|split; [done|by intros]]. apply bind_cases in H as [(bytes & f1 & [= <- <-] & H)|(e & [=] & _)].
  unfold content in *. destruct (jf_bytes f0) as [b|] eqn:Hb; simpl in *.
  - injection H as <- <-. rewrite Hb. simpl. split; [done|]. intros next_seq len [= <- <-].
    destruct seen as [n|]; [exists n; by rewrite <-Hio|]. exists (length b). by rewrite <-Hio, take_ge by done.
  - injection H as <- <-. rewrite Hb. split; [done|]. intros next_seq len [= <- <-]. exists 0%nat. by rewrite <-Hio.
Qed.

Lemma file_len_cases f r f' : turn_journal_file_len_blocking f = (r, f') →
  content f' = content f ∧ ∀ len, r = Ok len → len = byte_len (content f).
Proof.
  unfold turn_journal_file_len_blocking. intros H. io_step H; [|split; [done|by intros]]. injection H as <- <-.
  split; [done|]. intros len [= <-]. by rewrite Hio.
Qed.

(** The number that an append gives. *)
Definition next_number (next_seq known_len : Z) (b : list Z) : Z :=
  if (byte_len b =? known_len)%Z then next_seq else max_seq b +sat 1.

Lemma append_cases next_seq known_len turn_id at_ kind flush f r f' e :
  append_turn_journal_blocking to_vec from_str next_seq known_len turn_id at_ kind flush f = (r, f') →
  e = {| ev_seq := next_number next_seq known_len (content f); ev_turn_id := turn_id; ev_created_at := at_; ev_kind := kind |} →
  content f' = content f ∧ is_ok r = false ∨
  appended e (is_ok r = true) (content f) (content f') ∧
    ∀ res, r = Ok res → res = {| ap_event := e; ap_next_seq := ev_seq e +sat 1; ap_known_len := byte_len (content f') |}.
Proof.
  unfold append_turn_journal_blocking. intros H He.
  io_step H; [|by left]. rewrite <-Hio in *. clear Hio f. rename f0 into f.
  apply bind_cases in H as [(len & f1 & Hl & H)|(e1 & Hl & ->)]; apply file_len_cases in Hl as [Hc Hlen];
    [|by left].
  specialize (Hlen _ eq_refl). subst len. rewrite <-Hc in *.
  apply bind_cases in H as [(seq & f2 & Hs & H)|(e1 & Hs & ->)].
  - assert (Hseq : content f2 = content f1 ∧ seq = ev_seq e).
    { rewrite He. unfold next_number. simpl. destruct (byte_len (content f1) =? known_len)%Z; [by injection Hs as <- <-|].
      apply bind_ok in Hs as ([s l] & f3 & Hs & [= <- <-]). apply next_seq_cases in Hs as [Hc2 Hs].
      split; [done|]. destruct (Hs _ _ eq_refl) as (n & -> & _ & Hn). by rewrite Hn. }
    destruct Hseq as [Hc2 ->]. cbv zeta in H.
    replace ({| ev_seq := ev_seq e; ev_turn_id := turn_id; ev_created_at := at_; ev_kind := kind |}) with e in H by (by rewrite He).
    apply bind_cases in H as [([] & f3 & Ha & H)|(e1 & Ha & ->)]; apply append_event_cases in Ha; rewrite Hc2 in Ha; right.
    + apply bind_cases in H as [(len & f4 & Hl & H)|(e1 & Hl & ->)]; apply file_len_cases in Hl as [Hc3 Hlen].
      * injection H as <- <-. rewrite Hc3, (Hlen _ eq_refl). split; [by eapply appended_mono, Ha|]. by intros res [= <-].
      * rewrite Hc3. split; [by eapply appended_mono, Ha|done].
    + split; [by eapply appended_mono, Ha|done].
  - left. destruct (byte_len (content f1) =? known_len)%Z; [done|].
    apply bind_cases in Hs as [([s l] & f3 & Hs & [=])|(e2 & Hs & ?)]. apply next_seq_cases in Hs as [Hs _]. auto.
Qed.

(** ** The invariant of a history *)

Abbreviation journal_exec := (journal_exec to_vec from_str).
Abbreviation journal_run := (journal_run to_vec from_str).

Definition bytes_of (st : JournalState) : list Z := default [] (jst_bytes st).

(** Writer numbers are right for the file as it was when they were taken. *)
Definition writer_ok (b : list Z) (wr : TurnJournalWriter) : Prop :=
  wr_failed wr = false →
  (wr_known_len wr ≤ byte_len b)%Z ∧ (wr_known_len wr = byte_len b → wr_next_seq wr = max_seq b +sat 1).

Record journal_inv (k : nat) (b : list Z) (acknowledged : list TurnJournalEvent) (writers : gmap nat TurnJournalWriter) :
    Prop := {
  ji_ok : file_ok b;
  ji_sorted : StronglySorted Z.lt (ev_seq <$> file_events b);
  ji_range : Forall (λ e, 1 ≤ ev_seq e ≤ Z.of_nat k)%Z (file_events b);
  ji_acknowledged : acknowledged `sublist_of` file_events b;
  ji_writers w wr : writers !! w = Some wr → writer_ok b wr;
}.

Lemma journal_inv_mono k k' b acknowledged writers : k ≤ k' → journal_inv k b acknowledged writers →
  journal_inv k' b acknowledged writers.
Proof.
  intros Hk []. split; try done. eapply Forall_impl; [done|]. simpl. lia.
Qed.

Lemma max_seq_snoc b b' e : file_events b' = file_events b ++ [e] → max_seq b' = Z.max (max_seq b) (ev_seq e).
Proof.
  unfold JournalFile.max_seq. intros ->. induction (file_events b) as [|x l IH]; simpl; [lia|]. rewrite IH. lia.
Qed.

Lemma max_seq_range k b : Forall (λ e, 1 ≤ ev_seq e ≤ Z.of_nat k)%Z (file_events b) → (0 ≤ max_seq b ≤ Z.of_nat k)%Z.
Proof. unfold JournalFile.max_seq. induction 1; simpl; lia. Qed.

Lemma max_seq_upper b : Forall (λ e, ev_seq e ≤ max_seq b)%Z (file_events b).
Proof.
  unfold JournalFile.max_seq. induction (file_events b) as [|x l IH]; constructor; simpl; [lia|].
  eapply Forall_impl; [exact IH|]. simpl. lia.
Qed.

Lemma sorted_snoc l x : StronglySorted Z.lt l → Forall (λ y, y < x)%Z l → StronglySorted Z.lt (l ++ [x]).
Proof.
  induction 1 as [|y l Hl IH Hy]; intros Hx; simpl; [by repeat constructor|].
  apply Forall_cons in Hx as [Hyx Hx]. constructor; [by apply IH|]. apply Forall_app. split; [done|by constructor].
Qed.

Lemma byte_len_prefix b b' : b `prefix_of` b' → (byte_len b ≤ byte_len b')%Z ∧ (byte_len b = byte_len b' → b = b').
Proof.
  intros [k ->]. unfold byte_len. rewrite length_app. split; [lia|]. intros H. destruct k; [by rewrite app_nil_r|simpl in H; lia].
Qed.

Lemma writer_ok_grown b b' wr : b `prefix_of` b' → b ≠ b' → writer_ok b wr → writer_ok b' wr.
Proof. intros [Hle Heq]%byte_len_prefix Hne Hw Hf. destruct (Hw Hf) as [Hl _]. split; [lia|]. intros He. destruct Hne. apply Heq. lia. Qed.

Lemma next_number_ok k b wr acknowledged writers : journal_inv k b acknowledged writers → wr_failed wr = false →
  writer_ok b wr → (Z.of_nat k < u64_max)%Z → next_number (wr_next_seq wr) (wr_known_len wr) b = (max_seq b + 1)%Z.
Proof.
  intros Hi Hf Hw Hk. pose proof (max_seq_range _ _ (ji_range _ _ _ _ Hi)). unfold next_number.
  destruct (Z.eqb_spec (byte_len b) (wr_known_len wr)) as [He|_]; [|apply sat_add_small; lia].
  destruct (Hw Hf) as [_ ->]; [|done]. apply sat_add_small. lia.
Qed.

(** An append, acknowledged or not. *)
Lemma inv_appended k b b' acknowledged writers e (whole : Prop) : journal_inv k b acknowledged writers →
  appended e whole b b' → ev_seq e = (max_seq b + 1)%Z →
  journal_inv (S k) b' acknowledged writers ∧ (whole → journal_inv (S k) b' (acknowledged ++ [e]) writers).
Proof.
  intros Hi [Hg Hok He Hw] Hseq. pose proof (max_seq_range _ _ (ji_range _ _ _ _ Hi)) as Hm.
  assert (Hwr : ∀ w wr, writers !! w = Some wr → writer_ok b' wr).
  { intros w wr Hwr. apply (ji_writers _ _ _ _ Hi) in Hwr. destruct (decide (b = b')) as [<-|Hne]; [done|].
    by eapply writer_ok_grown. }
  assert (Hone : file_events b' = file_events b ++ [e] →
    StronglySorted Z.lt (ev_seq <$> file_events b') ∧ Forall (λ x, 1 ≤ ev_seq x ≤ Z.of_nat (S k))%Z (file_events b')).
  { intros ->. rewrite fmap_app. split.
    - apply sorted_snoc; [apply Hi|]. apply Forall_fmap. eapply Forall_impl; [apply max_seq_upper|]. simpl. lia.
    - apply Forall_app. split; [|by constructor; [lia|]]. eapply Forall_impl; [apply Hi|]. simpl. lia. }
  split.
  - destruct He as [He|He].
    + split; [by apply Hok, Hi|rewrite He; apply Hi| |rewrite He; apply Hi|done].
      rewrite He. eapply Forall_impl; [apply Hi|]. simpl. lia.
    + destruct (Hone He) as [H1 H2]. split; [by apply Hok, Hi|done|done| |done].
      rewrite He. apply sublist_inserts_r, Hi.
  - intros He'%Hw. destruct (Hone He') as [H1 H2]. split; [by apply Hok, Hi|done|done| |done].
    rewrite He'. apply sublist_app; [apply Hi|done].
Qed.

Lemma inv_writer k b acknowledged writers w wr : journal_inv k b acknowledged writers → writer_ok b wr →
  journal_inv k b acknowledged (<[w := wr]> writers).
Proof.
  intros [] Hw. split; try done. intros w' wr'. rewrite lookup_insert_Some. intros [[<- <-]|[_ H]]; [done|by eapply ji_writers0].
Qed.

Lemma writer_failed_ok b wr : wr_failed wr = true → writer_ok b wr.
Proof. intros Hf Hf'. congruence. Qed.

Lemma request_cases {A} rep (m : JM A) f r f' : request rep m f = (r, f') →
  (∃ r0, m f = (r0, f') ∧ (r = r0 ∨ is_ok r = false)) ∨ (f' = f ∧ is_ok r = false).
Proof.
  destruct rep; simpl.
  - intros H. left. exists r. auto.
  - rewrite m_try_bind. destruct (m f) as [r0 f0]. intros [= <- <-]. left. exists r0. auto.
  - intros [= <- <-]. by right.
Qed.

Lemma open_cases seen f r f' : open_turn_journal_blocking from_str seen f = (r, f') →
  content f' = content f ∧ ∀ next_seq len, r = Ok (next_seq, len) →
    ∃ n, next_seq = max_seq (take n (content f)) +sat 1 ∧ len = byte_len (take n (content f)).
Proof.
  unfold open_turn_journal_blocking. intros H. io_step H; [|split; [done|by intros]].
  apply next_seq_cases in H as [Hc Hn]. split; [congruence|]. intros s l Hr.
  destruct (Hn _ _ Hr) as (n & -> & -> & _). exists n. by rewrite Hio.
Qed.

Lemma writer_open_cases rep seen f r f' : writer_open from_str rep seen f = (r, f') →
  content f' = content f ∧ ∀ wr, r = Ok wr → writer_ok (content f) wr.
Proof.
  unfold writer_open. intros H.
  apply bind_cases in H as [([s l] & f1 & H1 & [= <- <-])|(e & H1 & ->)];
    apply request_cases in H1 as [(r0 & H1 & Hr)|[-> Hr]]; try done; apply open_cases in H1 as [Hc Hn]; [|done].
  split; [done|]. intros wr [= <-] _. destruct Hr as [Hr|Hr]; [|done].
  destruct (Hn s l) as (n & -> & ->); [done|]. simpl.
  destruct (byte_len_prefix (take n (content f)) (content f)) as [Hle Heq]; [apply prefix_take|].
  split; [done|]. by intros ->%Heq.
Qed.

Lemma exec_inv k st s : (Z.of_nat (S k) < u64_max)%Z →
  journal_inv k (bytes_of st) (jst_acknowledged st) (jst_writers st) →
  let st' := journal_exec st s in journal_inv (S k) (bytes_of st') (jst_acknowledged st') (jst_writers st').
Proof.
  intros Hk Hi. unfold JournalFile.journal_exec. set (f := {| jf_bytes := jst_bytes st; jf_faults := js_faults s |}).
  change (bytes_of st) with (content f) in Hi. assert (Hi' := journal_inv_mono k (S k) _ _ _ ltac:(lia) Hi).
  destruct (js_command s) as [w seen|w turn_id at_ kind flush].
  - destruct (writer_open from_str (js_reply s) seen f) as [[wr|e] f'] eqn:Ho;
      apply writer_open_cases in Ho as [Hc Hw]; unfold bytes_of; simpl; fold (content f'); rewrite Hc; [|done].
    apply inv_writer; [done|by apply Hw].
  - destruct (jst_writers st !! w) as [wr|] eqn:Hwr; [|exact Hi']. unfold writer_append.
    assert (Hok := ji_writers _ _ _ _ Hi _ _ Hwr).
    destruct (wr_failed wr) eqn:Hf.
    { unfold bytes_of. simpl. fold (content f). rewrite app_nil_r. by apply inv_writer. }
    destruct (request _ _ f) as [r f'] eqn:Hr.
    set (e := {| ev_seq := next_number (wr_next_seq wr) (wr_known_len wr) (content f); ev_turn_id := turn_id;
                 ev_created_at := at_; ev_kind := kind |}).
    assert (He : ev_seq e = (max_seq (content f) + 1)%Z) by (eapply next_number_ok; [exact Hi|done|done|lia]).
    assert (Hfail : is_ok r = false → content f' = content f ∨ appended e False (content f) (content f') →
      journal_inv (S k) (content f') (jst_acknowledged st) (jst_writers st)).
    { intros _ [->|Ha]; [done|]. by destruct (inv_appended _ _ _ _ _ _ _ Hi Ha He). }
    apply request_cases in Hr as [(r0 & Hr & Hr0)|[-> Hr]].
    + destruct (append_cases _ _ _ _ _ _ _ _ _ e Hr eq_refl) as [[Hc Hr0']|[Ha Hres]].
      * assert (is_ok r = false) as Hno by (by destruct Hr0 as [->|Hr0]).
        destruct r; [done|]. unfold bytes_of. simpl. rewrite app_nil_r.
        apply inv_writer; [apply Hfail; auto|by apply writer_failed_ok].
      * destruct r as [res|e0]; unfold bytes_of; simpl.
        -- destruct Hr0 as [Hr0|Hr0]; [subst r0|done]. rewrite (Hres _ eq_refl). simpl.
           destruct (inv_appended _ _ _ _ _ _ _ Hi Ha He) as [_ Hj]. apply inv_writer; [by apply Hj|].
           intros _. split; [done|]. intros _. change (ev_seq e +sat 1 = max_seq (content f') +sat 1).
           rewrite (max_seq_snoc (content f) (content f') e).
           ++ f_equal. rewrite He. lia.
           ++ by apply (ap_whole _ _ _ _ Ha).
        -- rewrite app_nil_r. apply inv_writer; [|by apply writer_failed_ok]. apply Hfail; [done|].
           right. by eapply appended_mono, Ha.
    + destruct r; [done|]. unfold bytes_of. simpl. rewrite app_nil_r.
      apply inv_writer; [apply Hfail; auto|by apply writer_failed_ok].
Qed.

Lemma journal_run_inv steps : (Z.of_nat (length steps) < u64_max)%Z →
  let st := journal_run steps journal_start in
  journal_inv (length steps) (bytes_of st) (jst_acknowledged st) (jst_writers st).
Proof.
  induction steps as [|s steps IH] using rev_ind; intros Hk.
  - split; simpl; try constructor; try done. by left.
  - unfold JournalFile.journal_run in *. rewrite length_app, Nat.add_comm in *. rewrite fold_left_app.
    apply exec_inv; [simpl in *; lia|]. apply IH. simpl in *. lia.
Qed.

(** ** Where events come from, and what readers see *)

(** The step asked for the event to be appended. *)
Definition submits (s : journal_step) (e : TurnJournalEvent) : Prop :=
  ∃ w flush, js_command s = JAppend w (ev_turn_id e) (ev_created_at e) (ev_kind e) flush.

Lemma exec_submitted st s e : e ∈ file_events (bytes_of (journal_exec st s)) →
  e ∈ file_events (bytes_of st) ∨ submits s e.
Proof.
  unfold JournalFile.journal_exec, bytes_of. set (f := {| jf_bytes := jst_bytes st; jf_faults := js_faults s |}).
  change (default [] (jst_bytes st)) with (content f). destruct (js_command s) as [w seen|w turn_id at_ kind flush] eqn:Hs.
  - destruct (writer_open from_str (js_reply s) seen f) as [[wr|e0] f'] eqn:Ho;
      apply writer_open_cases in Ho as [Hc _]; simpl; fold (content f'); rewrite Hc; by left.
  - destruct (jst_writers st !! w) as [wr|]; [|by left]. unfold writer_append.
    destruct (wr_failed wr); [by left|]. destruct (request _ _ f) as [r f'] eqn:Hr.
    assert (e ∈ file_events (content f') → e ∈ file_events (content f) ∨ submits s e) as H.
    { apply request_cases in Hr as [(r0 & Hr & _)|[-> _]]; [|by left].
      destruct (append_cases _ _ _ _ _ _ _ _ _ _ Hr eq_refl) as [[-> _]|[[_ _ [-> | ->] _] _]]; [by left..|].
      rewrite elem_of_app. intros [H| ->%list_elem_of_singleton]; [by left|]. right. by exists w, flush. }
    by destruct r.
Qed.

Lemma run_submitted steps e : e ∈ file_events (bytes_of (journal_run steps journal_start)) →
  ∃ s, s ∈ steps ∧ submits s e.
Proof.
  induction steps as [|s steps IH] using rev_ind; [simpl; set_solver|].
  unfold JournalFile.journal_run in *. rewrite fold_left_app. simpl.
  intros [H|H]%exec_submitted; [destruct (IH H) as (s' & Hin & Hs); exists s'|exists s]; set_solver.
Qed.

Lemma read_lines_sorted lines idx seen previous : let es := omap from_line lines in
  StronglySorted Z.lt (ev_seq <$> es) → Forall (λ e, 1 ≤ ev_seq e)%Z es →
  (∀ s e, s ∈ seen → e ∈ es → (s < ev_seq e)%Z) → (∀ s e, previous = Some s → e ∈ es → (s < ev_seq e)%Z) →
  let read := read_lines from_str lines idx seen previous in
  read.1 = es ∧ Forall (λ w, tw_message w = BadLine) read.2.
Proof.
  revert idx seen previous. induction lines as [|raw lines IH]; intros idx seen previous es; [done|].
  subst es. change (omap from_line (raw :: lines)) with
    (match from_line raw with Some e => e :: omap from_line lines | None => omap from_line lines end).
  assert (Hf : from_line raw = match decode_line raw with [] => None | line => from_str line end) by done.
  cbn [read_lines]. destruct (decode_line raw) as [|c line]; [rewrite Hf; by apply IH|].
  destruct (from_str (c :: line)) as [e|]; rewrite Hf.
  - intros Hs Hr Hseen Hprev. rewrite fmap_cons in Hs. apply StronglySorted_inv in Hs as [Hs Hlt].
    rewrite Forall_fmap, Forall_forall in Hlt. apply Forall_cons in Hr as [Hr1 Hr].
    specialize (IH (S idx) (ev_seq e :: seen) (Some (ev_seq e)) Hs Hr).
    destruct (read_lines from_str lines (S idx) (ev_seq e :: seen) (Some (ev_seq e))) as [events warnings].
    destruct IH as [IH1 IH2]; [|naive_solver|].
    { intros s e' [->|Hin]%elem_of_cons He'; [by apply Hlt|]. apply Hseen; set_solver. }
    simpl in *. rewrite IH1. split; [done|].
    replace (ev_seq e =? 0)%Z with false by lia. rewrite bool_decide_false.
    2: { intros Hin. specialize (Hseen _ e Hin ltac:(set_solver)). lia. }
    destruct previous as [p|]; [|done].
    specialize (Hprev p e eq_refl ltac:(set_solver)). by replace (ev_seq e <=? p)%Z with false by lia.
  - intros Hs Hr Hseen Hprev. specialize (IH (S idx) seen previous Hs Hr Hseen Hprev).
    destruct (read_lines from_str lines (S idx) seen previous) as [events warnings]. simpl in *.
    destruct IH. split; [done|by constructor].
Qed.

Lemma sorted_prefix (l1 l2 : list Z) : l1 `prefix_of` l2 → StronglySorted Z.lt l2 → StronglySorted Z.lt l1.
Proof. intros [k ->]. induction l1 as [|x l1 IH]; intros Hs; [constructor|].
  apply StronglySorted_inv in Hs as [Hs Hx]. apply Forall_app in Hx as [Hx _]. constructor; [by apply IH|done].
Qed.

Lemma read_bytes b : StronglySorted Z.lt (ev_seq <$> file_events b) → Forall (λ e, 1 ≤ ev_seq e)%Z (file_events b) →
  let read := read_turn_journal from_str (Ok (Some b)) in
  tr_events read = file_events b ∧ Forall (λ w, tw_message w = BadLine ∨ tw_message w = NotUtf8) (tr_warnings read).
Proof.
  intros Hs Hr. unfold read_turn_journal.
  pose proof (read_lines_sorted (split_on line_feed b) 0 [] None Hs Hr) as H.
  destruct (read_lines from_str (split_on line_feed b) 0 [] None) as [events warnings]. simpl in *.
  destruct H as [-> Hw]; [set_solver|done|]. split.
  - apply sort_by_id. fold (file_events b). revert Hs. clear. unfold cmp_le, cmp_on.
    induction (file_events b) as [|e l IH]; [constructor|]. rewrite fmap_cons. intros [Hs Hx]%StronglySorted_inv.
    constructor; [by apply IH|]. rewrite Forall_fmap in Hx. eapply Forall_impl; [exact Hx|]. simpl.
    intros y Hy. by apply Z.lt_le_incl.
  - apply Forall_app. split; [destruct (from_utf8 b).2; constructor; [by right|constructor]|].
    eapply Forall_impl; [exact Hw|]. auto.
Qed.

(** C12. What is acknowledged stays: after any history of writers of any
    processes that open a fresh journal and append to it, where every I/O call
    may fail, writes may be cut at any byte, answers may be lost and opens may
    see only the beginning of the file, the events of the file include the
    acknowledged ones in the order of their acknowledgements, are numbered
    1 or more and strictly increasingly, and were all submitted; a reader gets
    exactly them, and a reader that sees only the beginning of the file gets
    the first of them, with no warnings but of cut lines.  The bound keeps the
    64-bit numbers from running out. *)
Theorem acknowledged_events_kept steps (Hlen : (Z.of_nat (length steps) < u64_max)%Z) :
  let st := journal_run steps journal_start in
  let es := tr_events (read_turn_journal from_str (Ok (jst_bytes st))) in
  jst_acknowledged st `sublist_of` es ∧
  StronglySorted Z.lt (ev_seq <$> es) ∧ Forall (λ e, 1 ≤ ev_seq e)%Z es ∧
  (∀ e, e ∈ es → ∃ s, s ∈ steps ∧ submits s e) ∧
  ∀ n, let read := read_turn_journal from_str (Ok (take n <$> jst_bytes st)) in
    tr_events read `prefix_of` es ∧ Forall (λ w, tw_message w = BadLine ∨ tw_message w = NotUtf8) (tr_warnings read).
Proof.
  intros st. pose proof (journal_run_inv steps Hlen) as Hi. fold st in Hi. pose proof (run_submitted steps) as Hsub. fold st in Hsub.
  assert (Hr : Forall (λ e, 1 ≤ ev_seq e)%Z (file_events (bytes_of st))).
  { eapply Forall_impl; [apply Hi|]. simpl. lia. }
  assert (Hread : ∀ n, let read := read_turn_journal from_str (Ok (take n <$> jst_bytes st)) in
    tr_events read = file_events (take n (bytes_of st)) ∧
    file_events (take n (bytes_of st)) `prefix_of` file_events (bytes_of st) ∧
    Forall (λ w, tw_message w = BadLine ∨ tw_message w = NotUtf8) (tr_warnings read)).
  { intros n. assert (Hpre : file_events (take n (bytes_of st)) `prefix_of` file_events (bytes_of st)).
    { rewrite <-(take_drop n (bytes_of st)) at 2. apply (file_ok_prefix to_vec from_line Hcodec). rewrite take_drop. apply Hi. }
    unfold bytes_of in *. destruct (jst_bytes st) as [b|] eqn:Hb; simpl in *; [|by rewrite take_nil].
    destruct (read_bytes (take n b)) as [H1 H2].
    - eapply sorted_prefix, Hi. destruct Hpre as [k ->]. rewrite fmap_app. by apply prefix_app_r.
    - destruct Hpre as [k Hk]. rewrite Hk in Hr. by apply Forall_app in Hr as [? _].
    - done. }
  assert (Hall : tr_events (read_turn_journal from_str (Ok (jst_bytes st))) = file_events (bytes_of st)).
  { unfold bytes_of. destruct (jst_bytes st) as [b|] eqn:Hb; [|done].
    destruct (Hread (length b)) as [H _]. unfold bytes_of in H. rewrite Hb in H. simpl in H. by rewrite take_ge in H by done. }
  intros es. subst es. rewrite Hall. split_and!; [apply Hi..|done|exact Hsub|].
  intros n. destruct (Hread n) as (H1 & H2 & H3). split; [by rewrite H1|done].
Qed.
End proofs.

(** ** A concrete history *)

(** Stands for serde_json on the events [TurnStarted] of one turn: the number
    in unary between braces. *)
Definition demo_to_vec (e : TurnJournalEvent) : option (list Z) :=
  match e with
  | {| ev_seq := n; ev_turn_id := EmptyString; ev_created_at := 0%Z; ev_kind := TurnStarted |} =>
      if (0 <=? n)%Z then Some (123%Z :: replicate (Z.to_nat n) 49%Z ++ [125%Z]) else None
  | _ => None
  end.

Definition demo_event (n : nat) : TurnJournalEvent :=
  {| ev_seq := Z.of_nat n; ev_turn_id := ""; ev_created_at := 0; ev_kind := TurnStarted |}.

Fixpoint demo_count (t : Text) (n : nat) : option TurnJournalEvent :=
  match t with
  | [125%Z] => Some (demo_event n)
  | 49%Z :: t' => demo_count t' (S n)
  | _ => None
  end.

Definition demo_from_str (t : Text) : option TurnJournalEvent :=
  match t with 123%Z :: t' => demo_count t' 0 | _ => None end.

Lemma demo_to_vec_some e line : demo_to_vec e = Some line →
  ∃ n, e = demo_event n ∧ line = 123%Z :: replicate n 49%Z ++ [125%Z].
Proof.
  destruct e as [n id at_ k]. simpl. destruct id; [|done]. destruct at_; [|done..]. destruct k; try done.
  destruct (Z.leb_spec 0 n); [|done]. intros [= <-]. exists (Z.to_nat n). split; [|done].
  unfold demo_event. by rewrite Z2Nat.id.
Qed.

Lemma encode_ascii l : Forall (λ c, 0 ≤ c < 128)%Z l → encode_all l = l.
Proof.
  induction 1 as [|c l Hc Hl IH]; [done|]. rewrite encode_all_cons, IH. unfold utf8_encode.
  by replace (c <? 128)%Z with true by lia.
Qed.

Lemma lossy_ascii l : Forall (λ c, 0 ≤ c < 128)%Z l → lossy l = (l, []).
Proof.
  intros Hl. rewrite <-(lossy_encode l).
  - by rewrite encode_ascii.
  - eapply Forall_impl; [exact Hl|]. simpl. intros c Hc. unfold is_scalar. lia.
Qed.

Lemma decode_ascii c l d : Forall (λ c, 0 ≤ c < 128)%Z (c :: l ++ [d]) → is_whitespace c = false →
  is_whitespace d = false → decode_line (c :: l ++ [d]) = c :: l ++ [d].
Proof.
  intros Ha Hc Hd. unfold decode_line. rewrite lossy_ascii by done. rewrite app_nil_r. unfold trim. simpl. rewrite Hc.
  unfold trim_end. change (c :: l ++ [d]) with ((c :: l) ++ [d]). rewrite reverse_snoc. simpl. rewrite Hd.
  by rewrite reverse_cons, reverse_involutive.
Qed.

Lemma demo_count_ones n t m : demo_count (replicate n 49%Z ++ t) m = demo_count t (n + m).
Proof.
  revert m. induction n as [|n IH]; intros m; [done|].
  change (demo_count (replicate n 49%Z ++ t) (S m) = demo_count t (S n + m)). rewrite IH. f_equal. lia.
Qed.

Lemma demo_ascii n : Forall (λ c, 0 ≤ c < 128)%Z (replicate n 49%Z).
Proof. apply Forall_replicate. lia. Qed.

Lemma demo_codec : codec demo_to_vec (JournalFile.from_line demo_from_str).
Proof.
  split.
  - intros e line (n & -> & ->)%demo_to_vec_some. split.
    + rewrite elem_of_cons, elem_of_app, list_elem_of_singleton. intros [H|[[H _]%elem_of_replicate|H]]; done.
    + unfold JournalFile.from_line. rewrite decode_ascii; [|by repeat (constructor || apply Forall_app || apply demo_ascii || split)|done..].
      simpl. rewrite demo_count_ones. simpl. by rewrite Nat.add_0_r.
  - intros e line p (n & -> & ->)%demo_to_vec_some Hp Hne.
    destruct p as [|c p]; [done|]. apply prefix_cons_inv_1 in Hp as Hc. apply prefix_cons_inv_2 in Hp. subst c.
    assert (p `prefix_of` replicate n 49%Z) as Hones.
    { destruct Hp as [k Hk]. destruct k as [|x k _] using rev_ind; [by rewrite app_nil_r in Hk; subst p|].
      rewrite (assoc_L (++)) in Hk. apply app_inj_tail in Hk as [-> _]. by apply prefix_app_r. }
    assert (p = replicate (length p) 49%Z) as Hrep.
    { destruct Hones as [k Hk]. symmetry. apply replicate_as_elem_of. split; [done|]. intros x Hx.
      assert (x ∈ replicate n 49%Z) as H by (rewrite Hk; set_solver). by apply elem_of_replicate in H as [-> _]. }
    rewrite Hrep. unfold JournalFile.from_line. destruct (length p) as [|m]; [done|].
    rewrite (replicate_S_end m), decode_ascii; [|constructor; [lia|]; apply Forall_app; split; [apply demo_ascii|repeat constructor; lia]|done..].
    rewrite <-replicate_S_end. cbn [demo_from_str]. by rewrite <-(app_nil_r (replicate (S m) 49%Z)), demo_count_ones.
  - done.
Qed.

Definition demo_append (w : nat) : journal_command := JAppend w "" 0 TurnStarted Immediate.
Definition demo_step (c : journal_command) (fs : list (option nat)) : journal_step :=
  {| js_command := c; js_reply := Answered; js_faults := fs |}.

(** The second line of the first writer is cut after two bytes; another
    process goes on. *)
Definition demo_history : list journal_step :=
  [demo_step (JOpen 0 None) []; demo_step (demo_append 0) []; demo_step (demo_append 0) (replicate 8 None ++ [Some 2]);
   demo_step (demo_append 0) []; demo_step (JOpen 1 (Some 1)) []; demo_step (demo_append 1) []].

Lemma acknowledged_events_kept_witness :
  let st := journal_run demo_to_vec demo_from_str demo_history journal_start in
  jst_acknowledged st = [demo_event 1; demo_event 2] ∧
  jst_bytes st = Some [123; 49; 125; 10; 123; 49; 10; 123; 49; 49; 125; 10]%Z ∧
  jst_acknowledged st `sublist_of` tr_events (read_turn_journal demo_from_str (Ok (jst_bytes st))).
Proof.
  intros st. split; [vm_compute; reflexivity|]. split; [vm_compute; reflexivity|].
  apply (acknowledged_events_kept demo_to_vec demo_from_str demo_codec demo_history). vm_compute. reflexivity.
Defined.
