(* ===== verification/SessionStore.v ===== *)
(** * The files of a session (src/src/session/mod.rs)

    A session is a directory with its metadata, its transcript of messages,
    the window that was last sent to the provider, checkpoints and the turn
    journal.  [SessionHandle] works on the files of one session; every
    operation that changes the metadata reads them again under the session
    lock.  A write of the transcript may be cut at any byte and is then rolled
    back, which may fail as well. *)

From S2P Require Import Prelude Storage Claim Text JsonLines Utf8 Maintainer TurnJournal JournalFile.
Import Ids.

(** ** api/types.rs and api/provider.rs *)

Inductive ProviderReplayProtocol := OpenAiResponsesProtocol | OpenAiChatCompletionsProtocol | AnthropicMessagesProtocol.

Record ProviderReplayIdentity := { pri_protocol : ProviderReplayProtocol; pri_model : string }.

Inductive ProviderReplayState :=
| OpenAiResponses (model : option string) (items : list Value)
| OpenAiChatCompletions (model : string) (messages : list Value)
| AnthropicMessages (model : string) (messages : list Value).

Inductive SessionTurnContentBlock :=
| TurnText (text : string)
| TurnModelContext (source : ModelContextSource) (fingerprint text : string)
| TurnSkillInstructions (instruction : SkillInstructions)
| TurnImage (media_type data : string)
| TurnDocument (media_type data : string) (filename : option string)
| TurnToolUse (id name : string) (input : Value)
| TurnInvalidToolUse (id name error : string)
| TurnToolResult (tool_use_id content : string).

Record SessionTurnMessage := {
  stm_role : string;
  stm_content : list SessionTurnContentBlock;
  stm_provider_replay : option ProviderReplayState;
}.

Record CompletedSessionTurnMessage := {
  ctm_message : SessionTurnMessage;
  ctm_completed_at : DateTime;
}.

(** ** Metadata *)

Inductive SessionStatus := Open | Finalizing | Closed.

#[export] Instance SessionStatus_eq_dec : EqDecision SessionStatus.
Proof. solve_decision. Defined.

Record ActiveTurnCompactionCursor := {
  atc_turn_id : string;
  atc_base_message_count : Z;
  atc_compacted_until_segment : Z;
  atc_safe_until_event_seq : Z;
  atc_source_hash : string;
}.

Record CompactionFrontier := {
  cf_committed_message_until : Z;
  cf_active_turn : option ActiveTurnCompactionCursor;
}.

Record PendingProviderHistoryTurn := {
  pht_turn_id : string;
  pht_base_message_count : Z;
  pht_provider_request_message_count : option Z;
}.

Record CompactedProviderHistory := {
  cph_replay_identity : option ProviderReplayIdentity;
  cph_recovery_turn_id : option string;
  cph_recovery_base_message_count : option Z;
  cph_pending_turn : option PendingProviderHistoryTurn;
  cph_canonical_message_until : Z;
  cph_messages : list SessionTurnMessage;
}.

Record SessionCompactionState := {
  scs_committed_summary : string;
  scs_active_turn_summary : option string;
  scs_summary_updated_at : DateTime;
  scs_frontier : CompactionFrontier;
  scs_provider_history : option CompactedProviderHistory;
}.

Record SessionMetadata := {
  sm_id : SessionId;
  sm_agent_id : AgentId;
  sm_status : SessionStatus;
  sm_created_at : DateTime;
  sm_updated_at : DateTime;
  sm_closed_at : option DateTime;
  sm_source : string;
  sm_model : string;
  sm_system_prompt_path : string;
  sm_message_count : nat;
  sm_finalized_at : option DateTime;
  sm_recapped_until : nat;
  sm_provider_background_completion_until_seq : option Z;
  sm_recap_background_completion_until_seq : option Z;
  sm_compaction : option SessionCompactionState;
}.

Definition default_session_source : string := "tui".
Definition default_session_model : string := "unknown".

(** What the file may say of a compaction, in its fields of today and of
    earlier versions. *)
Record Wire := {
  wi_committed_summary : option string;
  wi_active_turn_summary : option string;
  wi_summary_updated_at : DateTime;
  wi_frontier : option CompactionFrontier;
  wi_compacted_until : option Z;
  wi_summary : option string;
  wi_provider_history : option CompactedProviderHistory;
}.

(** session.yaml: the metadata, with its compaction as a [Wire]. *)
Record SessionYaml := { sy_metadata : SessionMetadata; sy_compaction : option Wire }.

Definition set_frontier_active (t : option ActiveTurnCompactionCursor) (f : CompactionFrontier) : CompactionFrontier :=
  {| cf_committed_message_until := cf_committed_message_until f; cf_active_turn := t |}.

Definition set_active (summary : option string) (cursor : option ActiveTurnCompactionCursor)
    (s : SessionCompactionState) : SessionCompactionState :=
  {| scs_committed_summary := scs_committed_summary s; scs_active_turn_summary := summary;
     scs_summary_updated_at := scs_summary_updated_at s;
     scs_frontier := set_frontier_active cursor (scs_frontier s); scs_provider_history := scs_provider_history s |}.

Definition normalize_active_turn (s : SessionCompactionState) : SessionCompactionState :=
  match scs_active_turn_summary s, cf_active_turn (scs_frontier s) with
  | Some summary, Some _ => if string_blank summary then set_active None None s else s
  | _, _ => set_active None None s
  end.

Definition set_provider_history (h : option CompactedProviderHistory) (s : SessionCompactionState) : SessionCompactionState :=
  {| scs_committed_summary := scs_committed_summary s; scs_active_turn_summary := scs_active_turn_summary s;
     scs_summary_updated_at := scs_summary_updated_at s; scs_frontier := scs_frontier s; scs_provider_history := h |}.

Definition from_committed_summary (committed_message_until : Z) (committed_summary : string)
    (summary_updated_at : DateTime) : SessionCompactionState :=
  {| scs_committed_summary := committed_summary; scs_active_turn_summary := None;
     scs_summary_updated_at := summary_updated_at;
     scs_frontier := {| cf_committed_message_until := committed_message_until; cf_active_turn := None |};
     scs_provider_history := None |}.

(** [SessionCompactionState::deserialize] after the derived one of [Wire] *)
Definition from_wire (w : Wire) : SessionCompactionState :=
  let committed_message_until :=
    default 0%Z (option_or (cf_committed_message_until <$> wi_frontier w) (wi_compacted_until w)) in
  let frontier := default {| cf_committed_message_until := committed_message_until; cf_active_turn := None |} (wi_frontier w) in
  normalize_active_turn
    {| scs_committed_summary := default ""%string (option_or (wi_committed_summary w) (wi_summary w));
       scs_active_turn_summary := wi_active_turn_summary w; scs_summary_updated_at := wi_summary_updated_at w;
       scs_frontier := frontier; scs_provider_history := wi_provider_history w |}.

(** The derived serialisation, which skips [provider_history]. *)
Definition to_wire (s : SessionCompactionState) : Wire :=
  {| wi_committed_summary := Some (scs_committed_summary s); wi_active_turn_summary := scs_active_turn_summary s;
     wi_summary_updated_at := scs_summary_updated_at s; wi_frontier := Some (scs_frontier s);
     wi_compacted_until := None; wi_summary := None; wi_provider_history := None |}.

Definition sm_eta (m : SessionMetadata) : SessionMetadata :=
  {| sm_id := sm_id m; sm_agent_id := sm_agent_id m; sm_status := sm_status m; sm_created_at := sm_created_at m;
     sm_updated_at := sm_updated_at m; sm_closed_at := sm_closed_at m; sm_source := sm_source m;
     sm_model := sm_model m; sm_system_prompt_path := sm_system_prompt_path m;
     sm_message_count := sm_message_count m; sm_finalized_at := sm_finalized_at m;
     sm_recapped_until := sm_recapped_until m;
     sm_provider_background_completion_until_seq := sm_provider_background_completion_until_seq m;
     sm_recap_background_completion_until_seq := sm_recap_background_completion_until_seq m;
     sm_compaction := sm_compaction m |}.

Definition set_status v m : SessionMetadata := ltac:(eta_set sm_eta m sm_status v).
Definition set_updated_at v m : SessionMetadata := ltac:(eta_set sm_eta m sm_updated_at v).
Definition set_closed_at v m : SessionMetadata := ltac:(eta_set sm_eta m sm_closed_at v).
Definition set_model v m : SessionMetadata := ltac:(eta_set sm_eta m sm_model v).
Definition set_message_count v m : SessionMetadata := ltac:(eta_set sm_eta m sm_message_count v).
Definition set_finalized_at v m : SessionMetadata := ltac:(eta_set sm_eta m sm_finalized_at v).
Definition set_recapped_until v m : SessionMetadata := ltac:(eta_set sm_eta m sm_recapped_until v).
Definition set_provider_cursor v m : SessionMetadata :=
  ltac:(eta_set sm_eta m sm_provider_background_completion_until_seq v).
Definition set_recap_cursor v m : SessionMetadata :=
  ltac:(eta_set sm_eta m sm_recap_background_completion_until_seq v).
Definition set_compaction v m : SessionMetadata := ltac:(eta_set sm_eta m sm_compaction v).

Definition encode_metadata (m : SessionMetadata) : SessionYaml :=
  {| sy_metadata := set_compaction None m; sy_compaction := to_wire <$> sm_compaction m |}.
Definition decode_metadata (y : SessionYaml) : SessionMetadata :=
  set_compaction (from_wire <$> sy_compaction y) (sy_metadata y).

(** ** Messages *)

Inductive SessionMessageRole := User | Assistant.

#[export] Instance SessionMessageRole_eq_dec : EqDecision SessionMessageRole.
Proof. solve_decision. Defined.

Record SessionMessage := {
  msg_index : nat;
  msg_role : SessionMessageRole;
  msg_content : list SessionContentBlock;
  msg_created_at : DateTime;
  msg_model : string;
  msg_provider_replay : option ProviderReplayState;
}.

Record NewSessionMessage := {
  nm_role : SessionMessageRole;
  nm_content : list SessionContentBlock;
  nm_created_at : DateTime;
  nm_model : string;
  nm_provider_replay : option ProviderReplayState;
}.

(** [SessionMessageRole::try_from(&str)] *)
Definition SessionMessageRole_try_from (value : string) : option SessionMessageRole :=
  if bool_decide (value = "user"%string) then Some User
  else if bool_decide (value = "assistant"%string) then Some Assistant else None.

(** [From<SessionTurnContentBlock> for SessionContentBlock] and back *)
Definition stored_block (b : SessionTurnContentBlock) : SessionContentBlock :=
  match b with
  | TurnText text => BlockText text
  | TurnModelContext source fingerprint text => BlockModelContext source fingerprint text
  | TurnSkillInstructions instruction => BlockSkillInstructions instruction
  | TurnImage media_type data => BlockImage media_type data
  | TurnDocument media_type data filename => BlockDocument media_type data filename
  | TurnToolUse id name input => BlockToolUse id name input
  | TurnInvalidToolUse id name error => BlockInvalidToolUse id name error
  | TurnToolResult tool_use_id content => BlockToolResult tool_use_id content
  end.

Definition turn_block (b : SessionContentBlock) : SessionTurnContentBlock :=
  match b with
  | BlockText text => TurnText text
  | BlockModelContext source fingerprint text => TurnModelContext source fingerprint text
  | BlockSkillInstructions instruction => TurnSkillInstructions instruction
  | BlockImage media_type data => TurnImage media_type data
  | BlockDocument media_type data filename => TurnDocument media_type data filename
  | BlockToolUse id name input => TurnToolUse id name input
  | BlockInvalidToolUse id name error => TurnInvalidToolUse id name error
  | BlockToolResult tool_use_id content => TurnToolResult tool_use_id content
  end.

(** ** Checkpoints *)

Inductive CompactionCheckpointStatus := CompactionPrepared | CompactionApplied.
Inductive FinalizeCheckpointStatus := FinalizePrepared | FinalizeApplied.

Record CompactionCheckpoint := {
  cc_schema_version : option Z;
  cc_audit_ids : list string;
  cc_summary_start_index : Z;
  cc_summary_end_index : Z;
  cc_summary_segment_hash : string;
  cc_summary : string;
  cc_active_turn_summary : option string;
  cc_active_turn : option ActiveTurnCompactionCursor;
  cc_preserve_provider_history : bool;
  cc_status : CompactionCheckpointStatus;
}.

Record FinalizeClaimRevision := { fcr_claim_id : ClaimId; fcr_preimage_hash : option string }.

Record FinalizeCheckpoint := {
  fcp_analysis_claims : option (list Claim);
  fcp_applied_claims : list Claim;
  fcp_warnings : list string;
  fcp_recap_start_index : nat;
  fcp_recap_end_index : nat;
  fcp_recap_segment_hash : string;
  fcp_prepared_claims : list Claim;
  fcp_expected_claim_revisions : list FinalizeClaimRevision;
  fcp_prepared_disputes : list Dispute;
  fcp_used_claim_ids : list ClaimId;
  fcp_trace_text : string;
  fcp_trace_created_at : DateTime;
  fcp_trace_id : option TraceId;
  fcp_status : FinalizeCheckpointStatus;
}.

Definition finalize_checkpoint_covers_pending_range (checkpoint : FinalizeCheckpoint)
    (recapped_until message_count : nat) : bool :=
  ((fcp_recap_start_index checkpoint =? recapped_until) && (fcp_recap_start_index checkpoint <=? fcp_recap_end_index checkpoint)
   && (fcp_recap_end_index checkpoint <=? message_count))%nat.

(** ** History as it is shown *)

Record HistoricalTurn := { ht_user_text : string; ht_assistant_text : option string }.

(** The texts of [turn_status_detail], by what they say. *)
Inductive TurnStatusDetail :=
| FailedAfterRetries (attempt max_attempts : Z) (error : string)
| InterruptedDuringFallback (attempt : Z)
| InterruptedAfterFailedFallback (attempt : Z) (error : string)
| InterruptedAfterFallback (attempt : Z).

Record HistoricalTimelineTurn := {
  hl_turn_id : option string;
  hl_user_text : string;
  hl_canonical_user_content_hash : option string;
  hl_assistant_text : option string;
  hl_assistant_completed : bool;
  hl_status : option TurnJournalStatus;
  hl_tool_calls : list TurnJournalToolCall;
  hl_timeline_items : list TurnJournalTimelineItem;
  hl_user_steers : list string;
  hl_recovery_notice : option string;
  hl_turn_status_detail : option TurnStatusDetail;
}.

Inductive SessionResumeKind := ResumeClosed | ResumeInterrupted | ResumeFinalizing.

(** ** Errors *)

Inductive SessionStoreError :=
| SessionIo
| SessionStorage (e : StorageError)
| SessionJsonEncode
| ProviderHistoryCodec
| SessionJsonLine (line : nat)
| SessionUnknownRole (value : string)
| SessionClosed
| WrongAgent
| NotClosed (status : SessionStatus)
| RuntimeLocked
| NoRealUserInput
| MessageCountMismatch (message_count actual_count : nat)
| RecappedUntilOutOfBounds (recapped_until message_count : nat)
| CompactedUntilOutOfBounds (compacted_until : Z) (message_count : nat)
| MessageIndexMismatch (line expected_index actual_index : nat)
| MessagesCommittedMetadataUpdateFailed (message_count : nat) (model : string) (source : SessionStoreError)
| MessagesAppendRollbackFailed (original_len : nat)
| IdCollisionExhausted (max_attempts : nat) (last_id : string)
| InvalidMaxAttempts
| RuntimeLock
| CleanupLock
| SessionLock.

(** ** Texts of messages *)

(** [text.find(needle)] with the text before and after it *)
Fixpoint find_split (needle s : string) : option (string * string) :=
  if String.prefix needle s
  then Some (""%string, String.substring (String.length needle) (String.length s - String.length needle) s)
  else match s with
       | EmptyString => None
       | String c s' => (λ '(before, after), (String c before, after)) <$> find_split needle s'
       end.

(** [trim_matches('\n')] *)
Fixpoint trim_start_char (c : Ascii.ascii) (s : string) : string :=
  match s with
  | EmptyString => EmptyString
  | String d s' => if Ascii.eqb d c then trim_start_char c s' else s
  end.
Fixpoint trim_end_char (c : Ascii.ascii) (s : string) : string :=
  match s with
  | EmptyString => EmptyString
  | String d s' =>
      match trim_end_char c s' with
      | EmptyString => if Ascii.eqb d c then EmptyString else String d EmptyString
      | rest => String d rest
      end
  end.
Definition trim_char (c : Ascii.ascii) (s : string) : string := trim_end_char c (trim_start_char c s).

Definition scalars (s : string) : Text := default [] (decode_valid (str_bytes s)).

(** [split_whitespace] *)
Fixpoint words_onto (word : Text) (t : Text) : list Text :=
  match t with
  | [] => match word with [] => [] | _ => [word] end
  | c :: t' =>
      if is_whitespace c then match word with [] => words_onto [] t' | _ => word :: words_onto [] t' end
      else words_onto (word ++ [c]) t'
  end.

Fixpoint join_words (ws : list Text) : Text :=
  match ws with [] => [] | [w] => w | w :: ws' => w ++ 32%Z :: join_words ws' end.

Definition truncate_for_resume_table (text : string) (max_chars : nat) : Text :=
  take max_chars (join_words (words_onto [] (scalars text))).

Section texts.
(** [serde_json::from_str(payload)], then its member "text" where that is a string *)
Context (json_text : string → option string) (canonical_user_content_hash : list SessionContentBlock → option string).

Definition extract_current_user_request (text : string) : option string :=
  '(_, tail) ← find_split "<current_user_request>" text;
  '(payload, _) ← find_split "</current_user_request>" tail;
  let payload := trim_char (Ascii.ascii_of_nat 10) payload in
  Some (default payload (json_text payload)).

Definition strip_appended_directory_context (text : string) : string :=
  match find_split (newline +:+ newline +:+ "[Referenced directory: ") text with
  | Some (before, _) => before
  | None => text
  end.

Definition canonical_user_display_text (text : string) : string :=
  strip_appended_directory_context (default text (extract_current_user_request text)).

Definition user_display_text_from_blocks (blocks : list SessionContentBlock) : string :=
  default ""%string (canonical_user_display_text <$> first_text blocks).

Definition text_from_blocks (blocks : list SessionContentBlock) : string :=
  String.concat newline (omap (λ b, match b with BlockText text => Some text | _ => None end) blocks).

Definition nonempty (s : string) : bool := negb (bool_decide (s = ""%string)).

Definition journal_user_display_text (turn : TurnJournalTurn) : option string :=
  let canonical := canonical_user_display_text <$> tj_canonical_user_first_text turn in
  option_or (match canonical with Some text => if nonempty text then Some text else None | None => None end)
    (canonical_user_display_text <$> tj_original_user_request turn).

Definition is_user_shell_command_message (m : SessionMessage) : bool :=
  bool_decide (msg_role m = User) &&
  let trimmed := trim_start (scalars (text_from_blocks (msg_content m))) in
  text_starts_with (lit "<user_shell_command>") trimmed && text_contains (lit "</user_shell_command>") trimmed.

Definition is_real_user_message (m : SessionMessage) : bool :=
  bool_decide (msg_role m = User) && negb (is_user_shell_command_message m)
  && negb (existsb (λ b, match b with BlockModelContext _ _ _ => true | _ => false end) (msg_content m))
  && negb (existsb (λ b, match b with BlockToolResult _ _ => true | _ => false end) (msg_content m)).

Definition count_real_user_turns (messages : list SessionMessage) : nat :=
  length (List.filter is_real_user_message messages).

(** The loop of [extract_last_n_turns]: the turns that are over and the
    current one. *)
Definition turns_step (s : list HistoricalTurn * option HistoricalTurn) (m : SessionMessage) :
    list HistoricalTurn * option HistoricalTurn :=
  let '(turns, current) := s in
  match msg_role m with
  | User =>
      if is_real_user_message m
      then (turns ++ match current with Some turn => [turn] | None => [] end,
            Some {| ht_user_text := user_display_text_from_blocks (msg_content m); ht_assistant_text := None |})
      else s
  | Assistant =>
      match current with
      | Some turn =>
          let text := text_from_blocks (msg_content m) in
          if nonempty text
          then (turns, Some {| ht_user_text := ht_user_text turn;
                               ht_assistant_text := Some (match ht_assistant_text turn with
                                                          | Some existing => existing +:+ newline +:+ text
                                                          | None => text
                                                          end) |})
          else s
      | None => s
      end
  end.

Definition last_n {A} (n : nat) (l : list A) : list A := drop (length l - n) l.

Definition extract_last_n_turns (messages : list SessionMessage) (n : nat) : list HistoricalTurn :=
  match n with
  | O => []
  | _ => let '(turns, current) := fold_left turns_step messages ([], None) in
         last_n n (turns ++ match current with Some turn => [turn] | None => [] end)
  end.

(** [HistoricalTimelineTurn::from] with the hash put in. *)
Definition timeline_turn (turn : HistoricalTurn) (hash : option string) : HistoricalTimelineTurn :=
  {| hl_turn_id := None; hl_user_text := ht_user_text turn; hl_canonical_user_content_hash := hash;
     hl_assistant_text := ht_assistant_text turn;
     hl_assistant_completed := match ht_assistant_text turn with Some _ => true | None => false end;
     hl_status := Some Committed; hl_tool_calls := []; hl_timeline_items := []; hl_user_steers := [];
     hl_recovery_notice := None; hl_turn_status_detail := None |}.

Definition extract_last_n_timeline_turns (messages : list SessionMessage) (n : nat) : list HistoricalTimelineTurn :=
  let turns := extract_last_n_turns messages n in
  let hashes := (λ m, canonical_user_content_hash (msg_content m)) <$> List.filter is_real_user_message messages in
  zip_with timeline_turn turns (drop (length hashes - length turns) hashes).

Definition turn_status_detail (turn : TurnJournalTurn) : option TurnStatusDetail :=
  fallback ← last (tj_non_streaming_fallbacks turn);
  let error := default "unknown provider error"%string (fb_last_error fallback) in
  match tj_status turn, fb_state fallback with
  | Some Failed, AttemptFailed =>
      if (fb_max_attempts fallback <=? fb_attempt fallback)%Z
      then Some (FailedAfterRetries (fb_attempt fallback) (fb_max_attempts fallback) error) else None
  | None, InProgress => Some (InterruptedDuringFallback (fb_attempt fallback))
  | None, AttemptFailed => Some (InterruptedAfterFailedFallback (fb_attempt fallback) error)
  | None, Succeeded => Some (InterruptedAfterFallback (fb_attempt fallback))
  | _, _ => None
  end.

Definition journal_timeline_turn (turn : TurnJournalTurn) : option HistoricalTimelineTurn :=
  user_text ← journal_user_display_text turn;
  Some {| hl_turn_id := Some (tj_turn_id turn); hl_user_text := user_text;
          hl_canonical_user_content_hash := tj_canonical_user_content_hash turn;
          hl_assistant_text := (if string_blank (tj_assistant_text turn) then None else Some (tj_assistant_text turn));
          hl_assistant_completed := tj_assistant_completed turn; hl_status := tj_status turn;
          hl_tool_calls := tj_tool_calls turn; hl_timeline_items := tj_timeline_items turn;
          hl_user_steers := tj_user_steers turn; hl_recovery_notice := None;
          hl_turn_status_detail := turn_status_detail turn |}.

Definition extract_last_n_timeline_turns_from_journal (projection : TurnJournalProjection) (n : nat) :
    list HistoricalTimelineTurn :=
  match n with O => [] | _ => last_n n (omap journal_timeline_turn (tp_turns projection)) end.

Definition keep_nonempty (t : Text) : option Text := match t with [] => None | _ => Some t end.

Definition extract_last_user_text (messages : list SessionMessage) : option Text :=
  m ← List.find is_real_user_message (reverse messages);
  keep_nonempty (truncate_for_resume_table (user_display_text_from_blocks (msg_content m)) 80).

Definition resumable_journal_last_user_text (read : TurnJournalRead) : option Text :=
  match tr_events read with
  | [] => None
  | _ => head (omap (λ turn, text ← journal_user_display_text turn; keep_nonempty (truncate_for_resume_table text 80))
                 (reverse (tp_turns (replay_turn_journal canonical_user_content_hash read))))
  end.
End texts.

(** provider_history.json *)
Inductive ProviderHistoryFile := HistoryMissing | HistoryLoaded (h : CompactedProviderHistory) | HistoryInvalid.

(** The handle's metadata, the files, the clock, and what the I/O calls will
    meet: an entry [Some n] is a call that fails, a write after [n] bytes.
    A YAML file that cannot be decoded is [Some None]. *)
Record SessionWorld := {
  sw_self : SessionMetadata;
  sw_yaml : option (option SessionYaml);
  sw_messages : option (list Z);
  sw_history : ProviderHistoryFile;
  sw_finalize_checkpoint : option (option FinalizeCheckpoint);
  sw_compaction_checkpoint : option (option CompactionCheckpoint);
  sw_turn_events : option (list Z);
  sw_clock : nat → DateTime;
  sw_ticks : nat;
  sw_faults : list (option nat);
}.

Definition sw_eta (w : SessionWorld) : SessionWorld :=
  {| sw_self := sw_self w; sw_yaml := sw_yaml w; sw_messages := sw_messages w; sw_history := sw_history w;
     sw_finalize_checkpoint := sw_finalize_checkpoint w; sw_compaction_checkpoint := sw_compaction_checkpoint w;
     sw_turn_events := sw_turn_events w; sw_clock := sw_clock w; sw_ticks := sw_ticks w; sw_faults := sw_faults w |}.

Definition put_self v w : SessionWorld := ltac:(eta_set sw_eta w sw_self v).
Definition put_yaml v w : SessionWorld := ltac:(eta_set sw_eta w sw_yaml v).
Definition put_messages v w : SessionWorld := ltac:(eta_set sw_eta w sw_messages v).
Definition put_history v w : SessionWorld := ltac:(eta_set sw_eta w sw_history v).
Definition put_finalize_checkpoint v w : SessionWorld := ltac:(eta_set sw_eta w sw_finalize_checkpoint v).
Definition put_compaction_checkpoint v w : SessionWorld := ltac:(eta_set sw_eta w sw_compaction_checkpoint v).
Definition put_turn_events v w : SessionWorld := ltac:(eta_set sw_eta w sw_turn_events v).
Definition put_ticks v w : SessionWorld := ltac:(eta_set sw_eta w sw_ticks v).
Definition put_session_faults v w : SessionWorld := ltac:(eta_set sw_eta w sw_faults v).

Abbreviation SM := (M SessionWorld SessionStoreError).

Definition session_fault : SM (option nat) :=
  λ w, (Ok (default None (head (sw_faults w))), put_session_faults (tail (sw_faults w)) w).

Definition sio (e : SessionStoreError) : SM unit :=
  fault ← session_fault; match fault with None => mret tt | Some _ => fail e end.

(** [Utc::now()] *)
Definition utc_now : SM DateTime := λ w, (Ok (sw_clock w (sw_ticks w)), put_ticks (S (sw_ticks w)) w).

Definition self : SM SessionMetadata := gets sw_self.
Definition set_self (m : SessionMetadata) : SM unit := modify (put_self m).

(** storage/yaml.rs on the single files *)
Definition read_file {A} (f : SessionWorld → option (option A)) : SM A :=
  _ ← sio (SessionStorage IoFailed);
  content ← gets f;
  match content with
  | None => fail (SessionStorage FileNotFound)
  | Some None => fail (SessionStorage DecodeFailed)
  | Some (Some a) => mret a
  end.

Definition write_file (put : SessionWorld → SessionWorld) : SM unit :=
  _ ← sio (SessionStorage IoFailed); modify put.

(** [fs::remove_file], where a missing file is not an error *)
Definition remove_file (put : SessionWorld → SessionWorld) : SM unit :=
  _ ← sio SessionIo; modify put.

Definition lock_session : SM unit := sio SessionLock.

Definition write_metadata : SM unit :=
  m ← self; write_file (put_yaml (Some (Some (encode_metadata m)))).

Section store.
(** serde_json on messages and journal events, and SHA-256 *)
Context (to_string : SessionMessage → option (list Z)) (parse : list Z → option SessionMessage).
Context (from_str : Text → option TurnJournalEvent).
Context (json_text : string → option string) (canonical_user_content_hash : list SessionContentBlock → option string).

(** ** Reading the transcript *)

(** [u8::is_ascii_whitespace] *)
Definition is_ascii_whitespace (b : Z) : bool :=
  ((b =? 32) || (b =? 9) || (b =? 10) || (b =? 12) || (b =? 13))%Z.

(** The loop over the lines from number [line_no] on. *)
Fixpoint read_message_lines (has_unterminated_tail : bool) (line_no : nat) (lines : list (list Z)) :
    Result SessionStoreError (list SessionMessage) :=
  match lines with
  | [] => Ok []
  | line :: lines' =>
      if forallb is_ascii_whitespace line then read_message_lines has_unterminated_tail (S line_no) lines'
      else match parse line with
           | Some message =>
               messages ← read_message_lines has_unterminated_tail (S line_no) lines';
               mret (message :: messages)
           | None =>
               if has_unterminated_tail && bool_decide (lines' = []) then Ok []
               else Err (SessionJsonLine (S line_no))
           end
  end.

Definition ends_with_feed (bytes : list Z) : bool := bool_decide (last bytes = Some line_feed).

Definition read_messages_file : SM (list SessionMessage) :=
  _ ← sio SessionIo;
  raw ← gets sw_messages;
  match raw with
  | None => fail SessionIo
  | Some raw =>
      let has_unterminated_tail := negb (bool_decide (raw = [])) && negb (ends_with_feed raw) in
      lift_result (read_message_lines has_unterminated_tail 0 (split_on line_feed raw))
  end.

Definition read_messages : SM (list SessionMessage) := read_messages_file.

(** ** Metadata and the provider's history *)

Definition read_metadata_light : SM SessionMetadata := y ← read_file sw_yaml; mret (decode_metadata y).

(** [self.metadata = self.read_metadata_light().await?] *)
Definition refresh : SM SessionMetadata := m ← read_metadata_light; _ ← set_self m; mret m.

Definition read_provider_history_file : SM ProviderHistoryFile :=
  fault ← session_fault;
  match fault with Some _ => mret HistoryInvalid | None => gets sw_history end.

Definition write_provider_history_file (history : option CompactedProviderHistory) : SM unit :=
  match history with
  | None => remove_file (put_history HistoryMissing)
  | Some h =>
      _ ← sio ProviderHistoryCodec;
      write_file (put_history (HistoryLoaded h))
  end.

Definition inline_history (m : SessionMetadata) : option CompactedProviderHistory :=
  sm_compaction m ≫= scs_provider_history.

Definition with_history (h : option CompactedProviderHistory) (m : SessionMetadata) : SessionMetadata :=
  set_compaction (set_provider_history h <$> sm_compaction m) m.

Definition read_metadata : SM SessionMetadata :=
  y ← read_file sw_yaml;
  let metadata := decode_metadata y in
  file ← read_provider_history_file;
  mret (with_history (match file with
                      | HistoryLoaded h => Some h
                      | HistoryMissing => inline_history metadata
                      | HistoryInvalid => None
                      end) metadata).

Definition hydrate_provider_history : SM unit :=
  m ← self;
  let inline := inline_history m in
  _ ← set_self (with_history None m);
  file ← read_provider_history_file;
  provider_history ←
    match file with
    | HistoryLoaded h => mret (Some h)
    | HistoryMissing =>
        match inline with
        | Some h => _ ← write_provider_history_file (Some h); _ ← write_metadata; mret (Some h)
        | None => mret None
        end
    | HistoryInvalid =>
        _ ← m_try (remove_file (put_history HistoryMissing));
        _ ← write_metadata;
        mret None
    end;
  m ← self;
  set_self (with_history provider_history m).

(** ** Checkpoints *)

Definition not_found_is_none {A} (m : SM A) : SM (option A) :=
  r ← m_try m;
  match r with
  | Ok a => mret (Some a)
  | Err (SessionStorage FileNotFound) => mret None
  | Err e => fail e
  end.

Definition read_compaction_checkpoint : SM (option CompactionCheckpoint) := not_found_is_none (read_file sw_compaction_checkpoint).
Definition write_compaction_checkpoint (c : CompactionCheckpoint) : SM unit :=
  write_file (put_compaction_checkpoint (Some (Some c))).
Definition read_finalize_checkpoint : SM (option FinalizeCheckpoint) := not_found_is_none (read_file sw_finalize_checkpoint).
Definition write_finalize_checkpoint (c : FinalizeCheckpoint) : SM unit :=
  write_file (put_finalize_checkpoint (Some (Some c))).

(** ** Background completions *)

Definition is_background_completion (e : TurnJournalEvent) : bool :=
  match ev_kind e with BackgroundProcessCompleted _ _ _ _ _ _ _ => true | _ => false end.

Definition read_journal : SM TurnJournalRead :=
  fault ← session_fault;
  bytes ← gets sw_turn_events;
  mret (read_turn_journal from_str (match fault with None => Ok bytes | Some _ => Err tt end)).

Definition latest_background_completion_seq : SM Z :=
  read ← read_journal;
  mret (foldr (λ e m, Z.max (ev_seq e) m) 0%Z (List.filter is_background_completion (tr_events read))).

Definition is_none {A} (o : option A) : bool := match o with None => true | Some _ => false end.

Definition initialize_background_completion_cursors : SM unit :=
  m ← self;
  let no_provider := is_none (sm_provider_background_completion_until_seq m) in
  let no_recap := is_none (sm_recap_background_completion_until_seq m) in
  if negb no_provider && negb no_recap then mret tt
  else
    preserve_legacy_recap_cursor ←
      (if no_recap && bool_decide (sm_status m = Finalizing)
       then c ← read_finalize_checkpoint; mret (negb (is_none c))
       else mret false);
    max_historical_seq ← latest_background_completion_seq;
    let m' := if no_provider then set_provider_cursor (Some max_historical_seq) m else m in
    let advance := no_recap && negb preserve_legacy_recap_cursor in
    let m'' := if advance then set_recap_cursor (Some max_historical_seq) m' else m' in
    _ ← set_self m'';
    if no_provider || advance then write_metadata else mret tt.

(** ** Appending to the transcript *)

Definition stored_message (index : nat) (m : NewSessionMessage) : SessionMessage :=
  {| msg_index := index; msg_role := nm_role m; msg_content := nm_content m; msg_created_at := nm_created_at m;
     msg_model := nm_model m; msg_provider_replay := nm_provider_replay m |}.

Fixpoint stored_messages (start_index : nat) (messages : list NewSessionMessage) : list SessionMessage :=
  match messages with
  | [] => []
  | m :: messages' => stored_message start_index m :: stored_messages (S start_index) messages'
  end.

Fixpoint encode_lines (messages : list SessionMessage) : option (list Z) :=
  match messages with
  | [] => Some []
  | m :: messages' =>
      line ← to_string m; rest ← encode_lines messages'; mret (line ++ line_feed :: rest)
  end.

(** The bytes after the last line feed. *)
Definition tail_of (raw : list Z) : list Z := default [] (last (split_on line_feed raw)).

Definition valid_tail (tail : list Z) : bool :=
  negb (is_none (decode_valid tail)) && (forallb is_ascii_whitespace tail || negb (is_none (parse tail))).

Definition prepare_messages_tail_for_append : SM bool :=
  _ ← sio SessionIo;
  raw ← gets sw_messages;
  match raw with
  | None => fail SessionIo
  | Some raw =>
      _ ← sio SessionIo;
      if bool_decide (raw = []) then mret false
      else
        _ ← sio SessionIo;
        _ ← sio SessionIo;
        if ends_with_feed raw then mret false
        else
          _ ← sio SessionIo;
          if valid_tail (tail_of raw) then mret true
          else
            _ ← sio SessionIo;
            _ ← modify (put_messages (Some (take (length raw - length (tail_of raw)) raw)));
            _ ← sio SessionIo;
            mret false
  end.

Definition rollback_messages_append (original_len : nat) : SM SessionStoreError :=
  r ← m_try (_ ← sio SessionIo;
             _ ← modify (λ w, put_messages (take original_len <$> sw_messages w) w);
             sio SessionIo);
  mret (match r with Ok _ => SessionIo | Err _ => MessagesAppendRollbackFailed original_len end).

Definition or_rollback (original_len : nat) (m : SM unit) : SM unit :=
  r ← m_try m;
  match r with
  | Ok _ => mret tt
  | Err _ => e ← rollback_messages_append original_len; fail e
  end.

Definition write_messages (bytes : list Z) : SM unit :=
  fault ← session_fault;
  let append l := modify (λ w, put_messages ((λ raw, raw ++ l) <$> sw_messages w) w) in
  match fault with
  | None => append bytes
  | Some n => _ ← append (take n bytes); fail SessionIo
  end.

(** [write_all], [flush] and [sync_all], each undone where it fails. *)
Definition write_all_messages (original_len : nat) (jsonl : list Z) : SM unit :=
  _ ← or_rollback original_len (write_messages jsonl);
  _ ← or_rollback original_len (sio SessionIo);
  or_rollback original_len (sio SessionIo).

(** Read again under the lock, change, write. *)
Definition update_metadata (f : SessionMetadata → SessionMetadata) : SM unit :=
  m ← refresh; _ ← set_self (f m); write_metadata.

(** The same with [updated_at = Utc::now()]. *)
Definition touch_metadata (f : SessionMetadata → SessionMetadata) : SM unit :=
  m ← refresh; now ← utc_now; _ ← set_self (f m |> set_updated_at now); write_metadata.

Definition committed (message_count : nat) (model : option string) (m : SessionMetadata) : SessionMetadata :=
  m |> set_message_count message_count |> set_model (default (sm_model m) model).

Definition commit_metadata (message_count : nat) (model : option string) : SM unit :=
  touch_metadata (committed message_count model).

Definition append_messages (messages : list NewSessionMessage) : SM unit :=
  match messages with
  | [] => mret tt
  | _ =>
      _ ← lock_session;
      m ← refresh;
      if negb (bool_decide (sm_status m = Open)) || negb (is_none (sm_closed_at m)) then fail SessionClosed
      else
        let start_index := sm_message_count m in
        jsonl ← lift_result (match encode_lines (stored_messages start_index messages) with
                             | Some bytes => Ok bytes
                             | None => Err SessionJsonEncode
                             end);
        feed ← prepare_messages_tail_for_append;
        let jsonl := if (feed : bool) then line_feed :: jsonl else jsonl in
        _ ← sio SessionIo;
        _ ← sio SessionIo;
        original_len ← gets (λ w, length (default [] (sw_messages w)));
        _ ← write_all_messages original_len jsonl;
        let message_count := (start_index + length messages)%nat in
        let model := nm_model <$> last messages in
        r ← m_try (commit_metadata message_count model);
        match r with
        | Ok _ => mret tt
        | Err source =>
            m ← self;
            fail (MessagesCommittedMetadataUpdateFailed message_count (default (sm_model m) model) source)
        end
  end.

Definition repair_committed_message_metadata (message_count : nat) (model : string) : SM unit :=
  _ ← lock_session; commit_metadata message_count (Some model).

(** The messages of a turn, and what the session engine does when they are
    committed but the metadata is not (agent/session_engine.rs). *)
Fixpoint turn_messages (messages : list CompletedSessionTurnMessage) (model : string) :
    Result SessionStoreError (list NewSessionMessage) :=
  match messages with
  | [] => Ok []
  | c :: messages' =>
      let message := ctm_message c in
      role ← (match SessionMessageRole_try_from (stm_role message) with
              | Some role => Ok role
              | None => Err (SessionUnknownRole (stm_role message))
              end);
      next ← turn_messages messages' model;
      mret ({| nm_role := role; nm_content := stored_block <$> stm_content message;
               nm_created_at := ctm_completed_at c; nm_model := model;
               nm_provider_replay := stm_provider_replay message |} :: next)
  end.

Definition append_session_turn_messages (messages : list CompletedSessionTurnMessage) (model : string) : SM unit :=
  next ← lift_result (turn_messages messages model); append_messages next.

Definition commit_turn (messages : list CompletedSessionTurnMessage) (model : string) : SM unit :=
  r ← m_try (append_session_turn_messages messages model);
  match r with
  | Ok _ => mret tt
  | Err (MessagesCommittedMetadataUpdateFailed message_count model _) =>
      r ← m_try (repair_committed_message_metadata message_count model);
      match r with
      | Ok _ => mret tt
      | Err repair_error => fail (MessagesCommittedMetadataUpdateFailed message_count model repair_error)
      end
  | Err e => fail e
  end.

(** ** The other changes of the metadata *)

Definition max_cursor (seq : Z) (cursor : option Z) : option Z := Some (Z.max (default 0%Z cursor) seq).

Definition advance_recap_cursor (seq : Z) (m : SessionMetadata) : SessionMetadata :=
  set_recap_cursor (max_cursor seq (sm_recap_background_completion_until_seq m)) m.

Definition discard_legacy_finalize_checkpoint_and_advance_recap_background_cursor (seq : Z) : SM unit :=
  _ ← lock_session;
  _ ← remove_file (put_finalize_checkpoint None);
  touch_metadata (advance_recap_cursor seq).

Definition update_compaction (compaction : SessionCompactionState) : SM unit :=
  _ ← lock_session;
  let compaction := normalize_active_turn compaction in
  _ ← write_provider_history_file (scs_provider_history compaction);
  touch_metadata (set_compaction (Some compaction)).

Definition clear_compaction : SM unit :=
  _ ← lock_session;
  _ ← write_provider_history_file None;
  touch_metadata (set_compaction None).

Definition raise_recapped (recapped_until : nat) (m : SessionMetadata) : SessionMetadata :=
  set_recapped_until (Nat.max (sm_recapped_until m) recapped_until) m.

Definition advance_recapped_until (recapped_until : nat) : SM unit :=
  _ ← lock_session; touch_metadata (raise_recapped recapped_until).

Definition advance_provider_background_completion_until (seq : Z) : SM unit :=
  _ ← lock_session;
  touch_metadata (λ m, set_provider_cursor (max_cursor seq (sm_provider_background_completion_until_seq m)) m).

Definition finalized (finalized_at : DateTime) (m : SessionMetadata) : SessionMetadata :=
  m |> set_status Closed |> set_finalized_at (Some finalized_at) |> set_closed_at (Some finalized_at)
    |> set_updated_at finalized_at.

Definition recap_and_mark_finalized (recapped_until : nat) (finalized_at : DateTime) : SM unit :=
  _ ← lock_session; update_metadata (λ m, finalized finalized_at (raise_recapped recapped_until m)).

Definition recap_and_mark_finalized_with_background_cursor (recapped_until : nat)
    (background_completion_until_seq : Z) (finalized_at : DateTime) : SM unit :=
  _ ← lock_session;
  update_metadata (λ m, finalized finalized_at
    (advance_recap_cursor background_completion_until_seq (raise_recapped recapped_until m))).

Definition mark_finalized (finalized_at : DateTime) : SM unit :=
  _ ← lock_session; update_metadata (finalized finalized_at).

Definition mark_finalizing (updated_at : DateTime) : SM unit :=
  _ ← lock_session;
  m ← refresh;
  if negb (is_none (sm_finalized_at m)) || negb (is_none (sm_closed_at m)) || negb (bool_decide (sm_status m = Open))
  then fail SessionClosed
  else _ ← set_self (m |> set_status Finalizing |> set_updated_at updated_at); write_metadata.

Definition mark_open (updated_at : DateTime) : SM unit :=
  _ ← lock_session;
  m ← refresh;
  if bool_decide (sm_status m = Finalizing) then fail SessionClosed
  else if negb (is_none (sm_finalized_at m)) && negb (bool_decide (sm_status m = Closed)) then fail SessionClosed
  else
    _ ← remove_file (put_finalize_checkpoint None);
    _ ← set_self (m |> set_status Open |> set_closed_at None |> set_finalized_at None |> set_updated_at updated_at);
    write_metadata.

Definition mark_open_after_finalize_takeover (updated_at : DateTime) : SM unit :=
  _ ← lock_session;
  m ← refresh;
  if negb (bool_decide (sm_status m = Finalizing)) || negb (is_none (sm_finalized_at m)) || negb (is_none (sm_closed_at m))
  then fail (NotClosed (sm_status m))
  else _ ← set_self (m |> set_status Open |> set_updated_at updated_at); write_metadata.

Definition mark_closed (closed_at : DateTime) : SM unit :=
  _ ← lock_session;
  update_metadata (λ m, m |> set_status Closed |> set_closed_at (Some closed_at) |> set_updated_at closed_at).

(** ** Opening a session again *)

Fixpoint validate_message_indexes (expected_index : nat) (messages : list SessionMessage) :
    Result SessionStoreError unit :=
  match messages with
  | [] => Ok tt
  | m :: messages' =>
      if bool_decide (msg_index m = expected_index) then validate_message_indexes (S expected_index) messages'
      else Err (MessageIndexMismatch (S expected_index) expected_index (msg_index m))
  end.

Definition committed_message_until (s : SessionCompactionState) : Z := cf_committed_message_until (scs_frontier s).

Definition validate_resume_metadata_bounds (m : SessionMetadata) (actual_count : nat) : Result SessionStoreError unit :=
  if (actual_count <? sm_recapped_until m)%nat then Err (RecappedUntilOutOfBounds (sm_recapped_until m) actual_count)
  else match sm_compaction m with
       | Some compaction =>
           if (Z.of_nat actual_count <? committed_message_until compaction)%Z
           then Err (CompactedUntilOutOfBounds (committed_message_until compaction) actual_count)
           else Ok tt
       | None => Ok tt
       end.

Definition validate_and_reconcile_resume_metadata (messages : list SessionMessage) : SM unit :=
  _ ← lift_result (validate_message_indexes 0 messages);
  m ← self;
  let actual_count := length messages in
  if (actual_count <? sm_message_count m)%nat then fail (MessageCountMismatch (sm_message_count m) actual_count)
  else
    _ ← lift_result (validate_resume_metadata_bounds m actual_count);
    if (sm_message_count m <? actual_count)%nat
    then repair_committed_message_metadata actual_count (default (sm_model m) (msg_model <$> last messages))
    else mret tt.

(** A new handle on what is on disk. *)
Definition load_existing_session (agent_id : AgentId) : SM unit :=
  y ← read_file sw_yaml;
  let metadata := decode_metadata y in
  if negb (bool_decide (sm_agent_id metadata = agent_id)) then fail WrongAgent
  else
    _ ← set_self metadata;
    _ ← hydrate_provider_history;
    _ ← initialize_background_completion_cursors;
    messages ← read_messages;
    validate_and_reconcile_resume_metadata messages.

Definition open_existing_session (agent_id : AgentId) : SM unit :=
  _ ← load_existing_session agent_id;
  m ← self;
  if bool_decide (sm_status m = Closed) then mret tt else fail (NotClosed (sm_status m)).

Definition read_existing_session_status (agent_id : AgentId) : SM SessionStatus :=
  y ← read_file sw_yaml;
  let metadata := decode_metadata y in
  if negb (bool_decide (sm_agent_id metadata = agent_id)) then fail WrongAgent
  else mret (sm_status metadata).

Definition reopen_existing_session (agent_id : AgentId) : SM unit :=
  _ ← sio CleanupLock;
  _ ← open_existing_session agent_id;
  now ← utc_now;
  mark_open now.
(** ** Making, resuming and deleting a session *)

Definition new_metadata (id : SessionId) (agent_id : AgentId) (source model : string) (now : DateTime) : SessionMetadata :=
  {| sm_id := id; sm_agent_id := agent_id; sm_status := Open; sm_created_at := now; sm_updated_at := now;
     sm_closed_at := None; sm_source := source; sm_model := model; sm_system_prompt_path := "system_prompt.md";
     sm_message_count := 0; sm_finalized_at := None; sm_recapped_until := 0;
     sm_provider_background_completion_until_seq := Some 0%Z; sm_recap_background_completion_until_seq := Some 0%Z;
     sm_compaction := None |}.

(** The files of a new session, in the order in which they are written; the
    system prompt and the compaction log, which nothing here reads, are calls
    that may fail. *)
Definition create_files (id : SessionId) (agent_id : AgentId) (source model : string) : SM unit :=
  now ← utc_now;
  _ ← set_self (new_metadata id agent_id source model now);
  _ ← write_metadata;
  _ ← sio (SessionStorage IoFailed);
  _ ← write_file (put_messages (Some []));
  _ ← write_file (put_turn_events (Some []));
  sio (SessionStorage IoFailed).

(** The loop of [create_with_metadata_id_factory_inner] from attempt number
    [attempt] on; [existing] are the names in the directory of sessions. *)
Fixpoint create_attempts (existing : gset SessionId) (id_factory : nat → SessionId) (lease : option bool)
    (agent_id : AgentId) (source model : string) (attempts attempt : nat) (last_id : option string) : SM SessionId :=
  match attempts with
  | O => fail (IdCollisionExhausted attempt (default "?"%string last_id))
  | S attempts' =>
      let session_id := id_factory attempt in
      _ ← sio SessionIo;
      if bool_decide (session_id ∈ existing)
      then create_attempts existing id_factory lease agent_id source model attempts' (S attempt) (Some session_id)
      else
        _ ← (match lease with
             | None => mret tt
             | Some lease_free => _ ← sio RuntimeLock; if (lease_free : bool) then mret tt else fail RuntimeLocked
             end);
        _ ← create_files session_id agent_id source model;
        mret session_id
  end.

(** [lease] is whether the runtime lease is free, where it is asked for. *)
Definition create_with_metadata_id_factory_inner (existing : gset SessionId) (id_factory : nat → SessionId) (lease : option bool)
    (agent_id : AgentId) (source model : string) (max_attempts : nat) : SM SessionId :=
  if bool_decide (max_attempts = 0%nat) then fail InvalidMaxAttempts
  else
    _ ← sio SessionIo;
    create_attempts existing id_factory lease agent_id source model max_attempts 0 None.

Definition resumable_last_user_text : SM (option Text) :=
  messages ← read_messages_file;
  match extract_last_user_text json_text messages with
  | Some text => mret (Some text)
  | None => read ← read_journal; mret (resumable_journal_last_user_text json_text canonical_user_content_hash read)
  end.

(** [resume_runtime_session_inner], for a caller that takes the runtime lease
    where it is free. *)
Definition resume_runtime_session_inner (lease_free : bool) (agent_id : AgentId) (open_closed : bool) :
    SM SessionResumeKind :=
  _ ← sio CleanupLock;
  _ ← sio RuntimeLock;
  if negb lease_free then fail RuntimeLocked
  else
    y ← read_file sw_yaml;
    let metadata := decode_metadata y in
    if negb (bool_decide (sm_agent_id metadata = agent_id)) then fail WrongAgent
    else
      _ ← (if bool_decide (sm_status metadata = Finalizing)
           then _ ← set_self metadata; messages ← read_messages; validate_and_reconcile_resume_metadata messages
           else load_existing_session agent_id);
      text ← resumable_last_user_text;
      match text with
      | None => fail NoRealUserInput
      | Some _ =>
          m ← self;
          let unclosed := is_none (sm_closed_at m) && is_none (sm_finalized_at m) in
          match sm_status m with
          | Closed =>
              _ ← (if (open_closed : bool) then now ← utc_now; mark_open now else mret tt);
              mret ResumeClosed
          | Open => if unclosed then mret ResumeInterrupted else fail (NotClosed Open)
          | Finalizing => if unclosed then mret ResumeFinalizing else fail (NotClosed Finalizing)
          end
      end.

Definition resume_runtime_session (lease_free : bool) (agent_id : AgentId) : SM SessionResumeKind :=
  resume_runtime_session_inner lease_free agent_id true.
Definition reserve_runtime_session (lease_free : bool) (agent_id : AgentId) : SM SessionResumeKind :=
  resume_runtime_session_inner lease_free agent_id false.

(** ** Listing and deleting *)

Record ResumedSessionSummary := {
  rs_id : SessionId;
  rs_status : SessionStatus;
  rs_updated_at : DateTime;
  rs_closed_at : option DateTime;
  rs_last_user_text : option Text;
}.

(** What the loop of [list_resumable_sessions] does with one directory. *)
Definition resumable_summary (lease_free : bool) (agent_id : AgentId) : SM (option ResumedSessionSummary) :=
  y ← not_found_is_none (read_file sw_yaml);
  match y with
  | None => mret None
  | Some y =>
      let metadata := decode_metadata y in
      let unclosed := is_none (sm_closed_at metadata) && is_none (sm_finalized_at metadata) in
      let resumable_status := match sm_status metadata with Closed => true | _ => unclosed end in
      if negb resumable_status || negb (bool_decide (sm_agent_id metadata = agent_id)) then mret None
      else if negb (bool_decide (sm_status metadata = Finalizing)) && negb lease_free then mret None
      else
        last_user_text ← resumable_last_user_text;
        mret (match last_user_text with
              | None => None
              | Some text =>
                  Some {| rs_id := sm_id metadata; rs_status := sm_status metadata; rs_updated_at := sm_updated_at metadata;
                          rs_closed_at := sm_closed_at metadata; rs_last_user_text := Some text |}
              end)
  end.

Definition cmp_summary (a b : ResumedSessionSummary) : comparison :=
  match Z.compare (default (rs_updated_at b) (rs_closed_at b)) (default (rs_updated_at a) (rs_closed_at a)) with
  | Eq => String.compare (rs_id b) (rs_id a)
  | c => c
  end.

Fixpoint resumable_summaries (agent_id : AgentId) (sessions : list (bool * SessionWorld)) :
    Result SessionStoreError (list ResumedSessionSummary) :=
  match sessions with
  | [] => Ok []
  | (lease_free, w) :: sessions' =>
      summary ← fst (resumable_summary lease_free agent_id w);
      summaries ← resumable_summaries agent_id sessions';
      mret (match summary with Some s => s :: summaries | None => summaries end)
  end.

(** The directories with the name of a session, in the order of the listing,
    each with whether its lease is free. *)
Definition list_resumable_sessions (agent_id : AgentId) (sessions : list (bool * SessionWorld)) :
    Result SessionStoreError (list ResumedSessionSummary) :=
  summaries ← resumable_summaries agent_id sessions; mret (sort_by cmp_summary summaries).

Definition turn_journal_has_nonempty_content : SM bool :=
  _ ← sio SessionIo;
  bytes ← gets sw_turn_events;
  mret (match bytes with None => false | Some bytes => existsb (λ b, negb (is_ascii_whitespace b)) bytes end).

Definition remove_session (w : SessionWorld) : SessionWorld :=
  put_yaml None (put_messages None (put_history HistoryMissing (put_finalize_checkpoint None
    (put_compaction_checkpoint None (put_turn_events None w))))).

(** [delegations] is whether the directory of delegations has an entry. *)
Definition delete_empty_session (delegations : bool) (agent_id : AgentId) : SM bool :=
  y ← not_found_is_none (read_file sw_yaml);
  match y with
  | None => mret false
  | Some y =>
      let metadata := decode_metadata y in
      if negb (bool_decide (sm_agent_id metadata = agent_id)) then fail WrongAgent
      else
        messages ← read_messages;
        if negb (bool_decide (sm_message_count metadata = 0%nat)) || negb (bool_decide (length messages = 0%nat)) then mret false
        else
          journal ← turn_journal_has_nonempty_content;
          if (journal : bool) then mret false
          else
            _ ← sio SessionIo;
            if delegations then mret false
            else _ ← sio SessionIo; _ ← modify remove_session; mret true
  end.

(** ** Histories *)

(** The operations on a session that change a file. *)
Inductive SessionOp :=
| op_append (messages : list NewSessionMessage)
| op_commit (messages : list CompletedSessionTurnMessage) (model : string)
| op_compact (compaction : SessionCompactionState)
| op_clear
| op_recap (recapped_until : nat)
| op_provider (seq : Z)
| op_discard (seq : Z)
| op_recap_finalized (recapped_until : nat) (finalized_at : DateTime)
| op_recap_cursor_finalized (recapped_until : nat) (seq : Z) (finalized_at : DateTime)
| op_finalized (finalized_at : DateTime)
| op_finalizing (updated_at : DateTime)
| op_open (updated_at : DateTime)
| op_takeover (updated_at : DateTime)
| op_closed (closed_at : DateTime)
| op_compaction_checkpoint (c : CompactionCheckpoint)
| op_finalize_checkpoint (c : FinalizeCheckpoint)
| op_load (agent_id : AgentId)
| op_open_existing (agent_id : AgentId)
| op_reopen (agent_id : AgentId)
| op_resume (lease_free : bool) (agent_id : AgentId) (open_closed : bool).

Definition exec (op : SessionOp) : SM unit :=
  match op with
  | op_append messages => append_messages messages
  | op_commit messages model => commit_turn messages model
  | op_compact compaction => update_compaction compaction
  | op_clear => clear_compaction
  | op_recap n => advance_recapped_until n
  | op_provider seq => advance_provider_background_completion_until seq
  | op_discard seq => discard_legacy_finalize_checkpoint_and_advance_recap_background_cursor seq
  | op_recap_finalized n finalized_at => recap_and_mark_finalized n finalized_at
  | op_recap_cursor_finalized n seq finalized_at => recap_and_mark_finalized_with_background_cursor n seq finalized_at
  | op_finalized finalized_at => mark_finalized finalized_at
  | op_finalizing updated_at => mark_finalizing updated_at
  | op_open updated_at => mark_open updated_at
  | op_takeover updated_at => mark_open_after_finalize_takeover updated_at
  | op_closed closed_at => mark_closed closed_at
  | op_compaction_checkpoint c => write_compaction_checkpoint c
  | op_finalize_checkpoint c => write_finalize_checkpoint c
  | op_load agent_id => load_existing_session agent_id
  | op_open_existing agent_id => open_existing_session agent_id
  | op_reopen agent_id => reopen_existing_session agent_id
  | op_resume lease_free agent_id open_closed =>
      _ ← resume_runtime_session_inner lease_free agent_id open_closed; mret tt
  end.

Definition is_append (op : SessionOp) : bool :=
  match op with op_append _ | op_commit _ _ => true | _ => false end.
Definition is_open (op : SessionOp) : bool :=
  match op with op_load _ | op_open_existing _ | op_reopen _ | op_resume _ _ _ => true | _ => false end.

Definition appended (op : SessionOp) : list NewSessionMessage :=
  match op with
  | op_append messages => messages
  | op_commit messages model => match turn_messages messages model with Ok next => next | Err _ => [] end
  | _ => []
  end.

(** An append whose outcome the caller cannot know from the metadata. *)
Definition in_doubt (e : SessionStoreError) : bool :=
  match e with MessagesAppendRollbackFailed _ | MessagesCommittedMetadataUpdateFailed _ _ _ => true | _ => false end.

(** Whether the count of the metadata is that of the transcript, as far as
    the results of the operations tell. *)
Definition trusted (op : SessionOp) (r : Result SessionStoreError unit) (before : bool) : bool :=
  match r with Ok _ => before || is_open op | Err e => before && negb (in_doubt e) end.

(** The bounds that a request takes from the metadata it has seen. *)
Definition within (op : SessionOp) (m : SessionMetadata) : Prop :=
  match op with
  | op_recap n | op_recap_finalized n _ | op_recap_cursor_finalized n _ _ => (n <= sm_message_count m)%nat
  | op_compact c => (committed_message_until c <= Z.of_nat (sm_message_count m))%Z
  | _ => True
  end.

Definition metadata_on_disk (w : SessionWorld) : option SessionMetadata := y ← sw_yaml w; decode_metadata <$> y.

(** A session of [agent_id] from its creation on, and the messages that were
    acknowledged.  Each operation runs on a handle with any metadata in
    memory and meets any faults, those of a crash included: every call after
    it fails.  Messages are appended only while the count is trusted. *)
Inductive session_history (agent_id : AgentId) : SessionWorld → bool → list NewSessionMessage → Prop :=
| sh_created existing id_factory lease source model max_attempts id w w' :
    create_with_metadata_id_factory_inner existing id_factory lease agent_id source model max_attempts w = (Ok id, w') →
    session_history agent_id w' true []
| sh_step op m faults w trust acked r w' :
    session_history agent_id w trust acked →
    (is_append op = true → trust = true) → (∀ m, metadata_on_disk w = Some m → within op m) →
    exec op (put_session_faults faults (put_self m w)) = (r, w') →
    session_history agent_id w' (trusted op r trust)
      (acked ++ match r with Ok _ => appended op | Err _ => [] end).
End store.
