(* ===== verification/SessionProofs.v ===== *)
(** * What survives in the files of a session

    Proofs about SessionStore.v: the transcript keeps what was committed to
    it, numbered without gaps, through cut writes, failed roll-backs and
    crashes, provided that a session whose commit ended in doubt is opened
    again before it goes on; and opening it again repairs it. *)

From S2P Require Import Prelude Storage Claim Text JsonLines Utf8 Maintainer TurnJournal JournalFile TurnJournalProofs SessionStore.

Section transcript.
Context (to_string : SessionMessage → option (list Z)) (parse : list Z → option SessionMessage).

Lemma prefix_app_cases {A} (p a b : list A) : p `prefix_of` a ++ b → p `prefix_of` a ∨ ∃ q, p = a ++ q ∧ q `prefix_of` b.
Proof.
  revert p. induction a as [|x a IH]; intros p H; [right; by exists p|].
  destruct p as [|y p]; [left; apply prefix_nil|]. apply prefix_cons_inv_1 in H as Hx. subst y.
  apply prefix_cons_inv_2 in H. destruct (IH p H) as [Hp|(q & -> & Hq)]; [left; by apply prefix_cons|right; by exists q].
Qed.

(** What serde_json provides: lines can be read back and parts of lines
    cannot, a line begins with a brace and is UTF-8. *)
Record message_codec : Prop := {
  mc_codec : codec to_string parse;
  mc_brace m line : to_string m = Some line → ∃ r, line = 123%Z :: r;
  mc_utf8 m line : to_string m = Some line → decode_valid line ≠ None;
}.
Context (Hcodec : message_codec).

(** ** Transcripts *)

(** Lines, some of them blank, and their messages. *)
Inductive rows : list (list Z) → list SessionMessage → Prop :=
| rows_nil : rows [] []
| rows_blank ls ms : rows ls ms → rows ([] :: ls) ms
| rows_line line m ls ms : to_string m = Some line → rows ls ms → rows (line :: ls) (m :: ms).

Definition torn (tail : list Z) : Prop :=
  tail ≠ [] ∧ ∃ m line, to_string m = Some line ∧ tail `prefix_of` line ∧ tail ≠ line.

Definition whole (raw : list Z) (ms : list SessionMessage) : Prop := rows (split_on line_feed raw) ms.

Definition transcript (raw : list Z) (ms : list SessionMessage) : Prop :=
  whole raw ms ∨ ∃ ls tail, split_on line_feed raw = ls ++ [tail] ∧ rows ls ms ∧ torn tail.

Lemma rows_app ls1 ls2 ms1 ms2 : rows ls1 ms1 → rows ls2 ms2 → rows (ls1 ++ ls2) (ms1 ++ ms2).
Proof. induction 1; simpl; intros H2; [done|constructor; auto..]. Qed.

Lemma rows_blank_end ls ms : rows (ls ++ [[]]) ms → rows ls ms.
Proof.
  revert ms. induction ls as [|l ls IH]; intros ms H; inversion H; subst; simpl in *; try (constructor; by auto).
  - inversion H1; subst. constructor.
  - destruct (mc_brace Hcodec _ _ H2) as [r [=]].
Qed.

Lemma rows_last ls tail ms : rows (ls ++ [tail]) ms → tail = [] ∨ ∃ m, to_string m = Some tail.
Proof.
  revert ms. induction ls as [|l ls IH]; intros ms H; inversion H; subst; simpl in *; eauto.
Qed.

Lemma line_not_blank m line p : to_string m = Some line → p `prefix_of` line → p ≠ [] → forallb is_ascii_whitespace p = false.
Proof.
  intros (r & ->)%(mc_brace Hcodec) Hp Hne. destruct p as [|c p]; [done|].
  by apply prefix_cons_inv_1 in Hp as ->.
Qed.

(** ** Reading *)

Lemma read_rows u n ls ms rest : rows ls ms → read_message_lines parse u n (ls ++ rest) =
  (messages ← read_message_lines parse u (n + length ls) rest; mret (ms ++ messages)).
Proof.
  intros H. revert n. induction H as [|ls ms H IH|line m ls ms Hl H IH]; intros n; simpl.
  - rewrite Nat.add_0_r. by destruct (read_message_lines parse u n rest).
  - rewrite IH. by rewrite Nat.add_succ_r.
  - rewrite (line_not_blank m line line) by (done || by destruct (mc_brace Hcodec _ _ Hl) as [r ->]).
    destruct (codec_line (mc_codec Hcodec) _ _ Hl) as [_ ->]. rewrite IH, Nat.add_succ_r.
    by destruct (read_message_lines parse u _ rest).
Qed.

Definition unterminated (raw : list Z) : bool := negb (bool_decide (raw = [])) && negb (ends_with_feed raw).

Lemma ends_with_feed_true raw : ends_with_feed raw = true → ∃ raw0, raw = raw0 ++ [line_feed].
Proof. intros H%bool_decide_eq_true. by apply last_Some in H. Qed.

Lemma unterminated_tail raw ls tail : split_on line_feed raw = ls ++ [tail] → tail ≠ [] → unterminated raw = true.
Proof.
  intros Hs Ht. unfold unterminated. destruct (ends_with_feed raw) eqn:He.
  - apply ends_with_feed_true in He as [raw0 ->]. rewrite (split_on_cut _ raw0 []) in Hs.
    by apply app_inj_tail in Hs as [_ <-].
  - rewrite bool_decide_false; [done|]. intros ->. simpl in Hs. by apply (app_inj_tail [] ls) in Hs as [_ <-].
Qed.

Lemma transcript_read raw ms : transcript raw ms →
  read_message_lines parse (unterminated raw) 0 (split_on line_feed raw) = Ok ms.
Proof.
  intros [H|(ls & tail & Hs & H & Hne & m & line & Hl & Hp & Hcut)].
  - pose proof (read_rows (unterminated raw) 0 _ _ [] H) as Hr. rewrite app_nil_r in Hr. rewrite Hr. simpl. by rewrite app_nil_r.
  - rewrite (unterminated_tail _ _ _ Hs Hne), Hs, (read_rows _ _ _ _ _ H). simpl.
    rewrite (line_not_blank _ _ _ Hl Hp Hne), (codec_cut (mc_codec Hcodec) _ _ _ Hl Hp Hcut). simpl. by rewrite app_nil_r.
Qed.

(** ** Appending lines *)

Lemma whole_line raw ms m line : closed raw → whole raw ms → to_string m = Some line →
  whole (raw ++ line) (ms ++ [m]) ∧ closed (raw ++ line ++ [line_feed]) ∧ whole (raw ++ line ++ [line_feed]) (ms ++ [m]).
Proof.
  intros Hc Hw Hl. destruct (codec_line (mc_codec Hcodec) _ _ Hl) as [Hfree _].
  destruct (closed_pieces raw line Hc Hfree) as (ps & H1 & H2). unfold whole in *. rewrite H1 in Hw.
  apply rows_blank_end in Hw.
  assert (rows (ps ++ [line]) (ms ++ [m])) as Hrow by (apply rows_app; [done|by apply rows_line; [|constructor]]).
  rewrite H2. split; [done|]. rewrite (assoc_L (++)). split; [right; by eexists|].
  rewrite (split_on_cut _ (raw ++ line) []), H2. simpl. rewrite <-(app_nil_r (ms ++ [m])).
  apply rows_app; [done|]. apply rows_blank, rows_nil.
Qed.

Lemma append_cut batch : ∀ raw ms bytes p, closed raw → whole raw ms → encode_lines to_string batch = Some bytes →
  p `prefix_of` bytes →
  ∃ k, transcript (raw ++ p) (ms ++ take k batch) ∧
    (p = bytes → take k batch = batch ∧ closed (raw ++ p) ∧ whole (raw ++ p) (ms ++ batch)).
Proof.
  induction batch as [|m batch IH]; intros raw ms bytes p Hc Hw He Hp; simpl in He.
  - injection He as <-. apply prefix_nil_inv in Hp as ->. exists 0. rewrite !app_nil_r. split; [by left|]. done.
  - destruct (to_string m) as [line|] eqn:Hl; [|done]. simpl in He.
    destruct (encode_lines to_string batch) as [rest|] eqn:Hr; [|done]. injection He as <-.
    destruct (whole_line raw ms m line Hc Hw Hl) as (H1 & H2 & H3).
    assert (line ++ line_feed :: rest = (line ++ [line_feed]) ++ rest) as Heq by (by rewrite <-(assoc_L (++))).
    rewrite Heq in Hp |- *.
    destruct (prefix_app_cases p (line ++ [line_feed]) rest Hp) as [Hshort|(q & -> & Hq)].
    + destruct (prefix_feed p line Hshort) as [Hpre| ->].
      * destruct (decide (p = line)) as [ ->|Hne].
        -- exists 1. simpl. split; [by left|]. intros H. apply (f_equal length) in H. rewrite !length_app in H. simpl in H. lia.
        -- exists 0. simpl. rewrite app_nil_r. split.
           ++ destruct (codec_line (mc_codec Hcodec) _ _ Hl) as [Hfree _].
              assert (line_feed ∉ p) as Hfp by (intros Hin; apply Hfree; destruct Hpre as [z ->]; set_solver).
              destruct (closed_pieces raw p Hc Hfp) as (ps & Hs1 & Hs2). unfold whole in Hw. rewrite Hs1 in Hw.
              destruct (decide (p = [])) as [ ->|Hn]; [left; rewrite app_nil_r; unfold whole; by rewrite Hs1|].
              right. exists ps, p. split; [done|]. split; [by apply rows_blank_end|]. split; [done|]. eauto.
           ++ intros ->. exfalso. apply Hne. destruct Hpre as [z Hz]. apply (f_equal length) in Hz.
              rewrite !length_app in Hz. simpl in Hz. lia.
      * exists 1. simpl. split; [by left|]. intros H. rewrite <-(app_nil_r (line ++ [line_feed])) in H at 1.
        apply app_inv_head in H. subst rest.
        destruct batch as [|m' batch]; [done|]. simpl in Hr. destruct (to_string m'); [|done]. simpl in Hr.
        destruct (encode_lines to_string batch); [|done]. injection Hr as Hr. by destruct l.
    + destruct (IH (raw ++ line ++ [line_feed]) (ms ++ [m]) rest q H2 H3 eq_refl Hq) as (k & Ht & Hf).
      rewrite <-!(assoc_L (++)) in Ht. rewrite <-!(assoc_L (++)). exists (S k). simpl. split; [done|].
      intros [= H]%app_inv_head. destruct (Hf H) as (Hk & Hcl & Hwh).
      rewrite <-!(assoc_L (++)) in Hcl, Hwh. rewrite Hk. split; [done|]. split; [exact Hcl|]. by rewrite <-(assoc_L (++) ms) in Hwh.
Qed.

(** ** The steps of an append *)

(** Everything on disk. *)
Definition files (w : SessionWorld) :=
  (sw_yaml w, sw_messages w, sw_history w, sw_finalize_checkpoint w, sw_compaction_checkpoint w, sw_turn_events w).

Lemma sio_cases e w r w' : sio e w = (r, w') → files w' = files w ∧ sw_self w' = sw_self w ∧ (r = Ok tt ∨ r = Err e).
Proof.
  unfold sio, session_fault, mbind, M_bind. destruct (head (sw_faults w)) as [[n|]|]; simpl; intros [= <- <-]; auto.
Qed.

(** One I/O call, whose failure ends the computation. *)
Ltac sio_step H :=
  let w := fresh "w" in let Hio := fresh "Hio" in let Hself := fresh "Hself" in let Hr := fresh "Hr" in let e := fresh "e" in
  let Heq := fresh "Heq" in
  apply bind_cases in H as [([] & w & Hio & H)|(e & Hio & Heq)];
  apply sio_cases in Hio as (Hio & Hself & Hr);
  [clear Hr|destruct Hr as [Hr|Hr]; [discriminate Hr|injection Hr as ->]; first [discriminate Heq|subst]].

Lemma files_messages w w' : files w' = files w → sw_messages w' = sw_messages w.
Proof. intros H. by injection H. Qed.
Lemma files_yaml w w' : files w' = files w → sw_yaml w' = sw_yaml w.
Proof. intros H. by injection H. Qed.

Lemma files_put_messages w w' m : files w' = files w → files (put_messages m w') = files (put_messages m w).
Proof. unfold files. simpl. intros [= -> _ -> -> -> ->]. done. Qed.

Lemma split_tail raw : ∃ raw0, raw = raw0 ++ tail_of raw ∧ closed raw0 ∧ line_feed ∉ tail_of raw.
Proof.
  assert (∃ raw0 t, raw = raw0 ++ t ∧ closed raw0 ∧ line_feed ∉ t) as (raw0 & t & -> & Hc & Ht).
  { induction raw as [|c raw IH] using rev_ind; [exists [], []; split; [done|]; split; [by left|set_solver]|].
    destruct (decide (c = line_feed)) as [ ->|Hne].
    - exists (raw ++ [line_feed]), []. rewrite app_nil_r. split; [done|]. split; [right; by eexists|set_solver].
    - destruct IH as (raw0 & t & -> & Hc & Ht). exists raw0, (t ++ [c]). rewrite (assoc_L (++)). split; [done|].
      split; [done|]. set_solver. }
  destruct (closed_pieces raw0 t Hc Ht) as (ps & _ & Hs). exists raw0. unfold tail_of. rewrite Hs, last_snoc. done.
Qed.

Lemma tail_of_split raw ls tail : split_on line_feed raw = ls ++ [tail] → tail_of raw = tail.
Proof. intros H. unfold tail_of. by rewrite H, last_snoc. Qed.

Lemma closed_feed raw : ends_with_feed raw = true → closed raw.
Proof. intros [raw0 ->]%ends_with_feed_true. right. by exists raw0. Qed.

Lemma valid_tail_whole raw ms : transcript raw ms → raw ≠ [] → ends_with_feed raw = false →
  if valid_tail parse (tail_of raw) then whole raw ms
  else whole (take (length raw - length (tail_of raw)) raw) ms ∧ closed (take (length raw - length (tail_of raw)) raw).
Proof.
  intros Ht Hne Hf. destruct (split_tail raw) as (raw0 & Hraw & Hc & Hfree).
  assert (Htail : tail_of raw ≠ []).
  { intros H. rewrite H, app_nil_r in Hraw. destruct Hc as [Hn|(b & Hb)]; [congruence|].
    unfold ends_with_feed in Hf. rewrite Hraw, Hb, last_snoc in Hf. by rewrite bool_decide_true in Hf. }
  destruct (closed_pieces raw0 _ Hc Hfree) as (ps & Hs0 & Hs). rewrite <-Hraw in Hs.
  destruct Ht as [Hw|(ls & tail & Hsl & Hrows & Hne' & m & line & Hl & Hp & Hcut)].
  - assert (valid_tail parse (tail_of raw) = true) as ->; [|done].
    unfold whole in Hw. rewrite Hs in Hw. apply rows_last in Hw as [H|(m & Hm)]; [done|].
    unfold valid_tail. destruct (decode_valid (tail_of raw)) eqn:Hd; [|by destruct (mc_utf8 Hcodec _ _ Hm)].
    destruct (codec_line (mc_codec Hcodec) _ _ Hm) as [_ ->]. simpl. by rewrite orb_true_r.
  - rewrite (tail_of_split _ _ _ Hsl) in *. rewrite Hsl in Hs. apply app_inj_tail in Hs as [<- _].
    assert (valid_tail parse tail = false) as ->.
    { unfold valid_tail. rewrite (line_not_blank _ _ _ Hl Hp Hne'), (codec_cut (mc_codec Hcodec) _ _ _ Hl Hp Hcut). simpl.
      by rewrite andb_false_r. }
    replace (take _ raw) with raw0.
    + split; [|done]. unfold whole. rewrite Hs0. rewrite <-(app_nil_r ms). apply rows_app; [done|]. apply rows_blank, rows_nil.
    + rewrite Hraw. rewrite length_app. replace (_ + _ - _) with (length raw0) by lia. by rewrite take_app_length.
Qed.

Lemma prepare_cases w r w' raw ms : sw_messages w = Some raw → transcript raw ms →
  prepare_messages_tail_for_append parse w = (r, w') →
  ∃ raw', files w' = files (put_messages (Some raw') w) ∧ sw_self w' = sw_self w ∧ transcript raw' ms ∧
    (∀ e, r = Err e → e = SessionIo) ∧
    (∀ feed, r = Ok feed → whole raw' ms ∧ (feed = false → closed raw')).
Proof.
  intros Hm Ht. unfold prepare_messages_tail_for_append. intros H.
  assert (Hsame : ∀ w1, files w1 = files w → files w1 = files (put_messages (Some raw) w)).
  { intros w1 ->. unfold files. simpl. by rewrite Hm. }
  assert (Hfail : ∀ w1 (e : SessionStoreError), files w1 = files w → sw_self w1 = sw_self w → e = SessionIo →
    ∃ raw', files w1 = files (put_messages (Some raw') w) ∧ sw_self w1 = sw_self w ∧ transcript raw' ms ∧
      (∀ e', Err e = Err (A:=bool) e' → e' = SessionIo) ∧ (∀ feed, Err e = Ok feed → whole raw' ms ∧ (feed = false → closed raw'))).
  { intros w1 e H1 H2 ->. exists raw. split; [by apply Hsame|]. split; [done|]. split; [done|]. split; [congruence|done]. }
  sio_step H; [|by apply Hfail].
  apply bind_cases in H as [(raw1 & w1 & [= <- <-] & H)|(e & [=] & _)].
  rewrite (files_messages _ _ Hio), Hm in H.
  sio_step H; [|apply Hfail; congruence].
  case_bool_decide as Hnil.
  { injection H as <- <-. exists raw. split; [apply Hsame; congruence|]. split; [congruence|]. split; [done|].
    split; [done|]. intros feed [= <-]. subst raw. split; [|intros _; by left].
    destruct Ht as [Hw|(ls & tail & Hs & _ & Hne & _)]; [done|]. by apply (app_inj_tail [] ls) in Hs as [_ <-]. }
  do 2 (sio_step H; [|apply Hfail; congruence]).
  destruct (ends_with_feed raw) eqn:He.
  { injection H as <- <-. exists raw. split; [apply Hsame; congruence|]. split; [congruence|]. split; [done|].
    split; [done|]. intros feed [= <-]. split; [|intros _; by apply closed_feed].
    destruct Ht as [Hw|(ls & tail & Hs & _ & Hne & _)]; [done|].
    pose proof (unterminated_tail _ _ _ Hs Hne) as Hu. unfold unterminated in Hu. by rewrite He, andb_false_r in Hu. }
  pose proof (valid_tail_whole raw ms Ht Hnil He) as Hvalid.
  sio_step H; [|apply Hfail; congruence].
  destruct (valid_tail parse (tail_of raw)).
  { injection H as <- <-. exists raw. split; [apply Hsame; congruence|]. split; [congruence|]. split; [done|].
    split; [done|]. by intros feed [= <-]. }
  sio_step H; [|apply Hfail; congruence].
  apply bind_cases in H as [([] & w6 & [= <-] & H)|(e & [=] & _)].
  destruct Hvalid as [Hw Hc]. exists (take (length raw - length (tail_of raw)) raw).
  assert (Hfiles : ∀ w7, files w7 = files (put_messages (Some (take (length raw - length (tail_of raw)) raw)) w5) →
    files w7 = files (put_messages (Some (take (length raw - length (tail_of raw)) raw)) w)).
  { intros w7 ->. apply files_put_messages. congruence. }
  sio_step H.
  - injection H as <- <-. split; [by apply Hfiles|]. split; [simpl in *; congruence|]. split; [by left|]. split; [done|].
    by intros feed [= <-].
  - split; [by apply Hfiles|]. split; [simpl in *; congruence|]. split; [by left|]. split; [|done].
    by intros e' [= <-].
Qed.

(** ** Changes of the metadata *)

Definition put_meta (m : SessionMetadata) (w : SessionWorld) : SessionWorld := put_yaml (Some (Some (encode_metadata m))) w.

Lemma files_put_meta w w' m : files w' = files w → files (put_meta m w') = files (put_meta m w).
Proof. unfold files. simpl. intros [= _ -> -> -> -> ->]. done. Qed.

Lemma refresh_cases w r w' y : sw_yaml w = Some (Some y) → refresh w = (r, w') →
  files w' = files w ∧ (r = Ok (decode_metadata y) ∧ sw_self w' = decode_metadata y ∨ r = Err (SessionStorage IoFailed)).
Proof.
  intros Hy H. unfold refresh in H. apply bind_cases in H as [(m & w1 & Hr & H)|(e & Hr & ->)].
  - unfold read_metadata_light in Hr. apply bind_ok in Hr as (y' & w2 & Hr & [= <- <-]). unfold read_file in Hr.
    sio_step Hr. apply bind_cases in Hr as [(c & w3 & [= <- <-] & Hr)|(e & [=] & _)].
    rewrite (files_yaml _ _ Hio), Hy in Hr. injection Hr as -> ->. injection H as <- <-. auto.
  - unfold read_metadata_light in Hr. apply bind_cases in Hr as [(y' & w2 & Hr & [=])|(e' & Hr & [= ->])].
    unfold read_file in Hr. apply bind_cases in Hr as [([] & w1 & Hio & Hr)|(e & Hio & [= ->])];
      apply sio_cases in Hio as (Hio & _ & He).
    + apply bind_cases in Hr as [(c & w3 & [= <- <-] & Hr)|(e & [=] & _)].
      rewrite (files_yaml _ _ Hio), Hy in Hr. discriminate Hr.
    + destruct He as [[=]|[= ->]]. auto.
Qed.

Lemma write_metadata_cases w r w' : write_metadata w = (r, w') →
  (r = Ok tt ∧ files w' = files (put_meta (sw_self w) w)) ∨ (r = Err (SessionStorage IoFailed) ∧ files w' = files w).
Proof.
  unfold write_metadata, self, write_file. intros H.
  apply bind_cases in H as [(m & w1 & [= <- <-] & H)|(e & [=] & _)].
  sio_step H; [|by right]. injection H as <- <-. left. split; [done|]. by apply (files_put_meta w w0).
Qed.

(** [w'] is [w] with the metadata changed by one of [f]. *)
Definition meta_changed (f : SessionMetadata → SessionMetadata → Prop) (y : SessionYaml) (w w' : SessionWorld) : Prop :=
  ∃ m, f (decode_metadata y) m ∧ files w' = files (put_meta m w).

Definition touched (f : SessionMetadata → SessionMetadata) (m m' : SessionMetadata) : Prop :=
  ∃ now, m' = (f m |> set_updated_at now).

Lemma touch_cases f w r w' y : sw_yaml w = Some (Some y) → touch_metadata f w = (r, w') →
  (r = Ok tt ∧ meta_changed (touched f) y w w') ∨ (r = Err (SessionStorage IoFailed) ∧ files w' = files w).
Proof.
  intros Hy H. unfold touch_metadata in H. apply bind_cases in H as [(m & w1 & Hr & H)|(e & Hr & ->)];
    apply (refresh_cases _ _ _ _ Hy) in Hr as [Hf [[Hr Hs]|Hr]]; try discriminate Hr; [|right; by injection Hr as ->].
  injection Hr as ->. apply bind_cases in H as [(now & w2 & [= <- <-] & H)|(e & [=] & _)].
  apply bind_cases in H as [([] & w3 & [= <-] & H)|(e & [=] & _)].
  apply write_metadata_cases in H as [[-> H]|[-> H]]; [left|right; split; [done|]; rewrite H; exact Hf].
  split; [done|]. eexists. split; [by eexists|]. rewrite H. simpl. by apply (files_put_meta w).
Qed.

Lemma update_cases f w r w' y : sw_yaml w = Some (Some y) → update_metadata f w = (r, w') →
  (r = Ok tt ∧ files w' = files (put_meta (f (decode_metadata y)) w)) ∨ (r = Err (SessionStorage IoFailed) ∧ files w' = files w).
Proof.
  intros Hy H. unfold update_metadata in H. apply bind_cases in H as [(m & w1 & Hr & H)|(e & Hr & ->)];
    apply (refresh_cases _ _ _ _ Hy) in Hr as [Hf [[Hr Hs]|Hr]]; try discriminate Hr; [|right; by injection Hr as ->].
  injection Hr as ->. apply bind_cases in H as [([] & w3 & [= <-] & H)|(e & [=] & _)].
  apply write_metadata_cases in H as [[-> H]|[-> H]]; [left|right; split; [done|]; rewrite H; exact Hf].
  split; [done|]. rewrite H. simpl. by apply (files_put_meta w).
Qed.

(** ** What an append leaves *)

(** The result, the new metadata where they were written, and the messages of
    the transcript after an append to [ms] under the metadata [m]. *)
Inductive appended_to (m : SessionMetadata) (ms : list SessionMessage) (messages : list NewSessionMessage) :
    Result SessionStoreError unit → option SessionMetadata → list SessionMessage → Prop :=
| at_refused e : in_doubt e = false → appended_to m ms messages (Err e) None ms
| at_torn n k : sm_status m = Open →
    appended_to m ms messages (Err (MessagesAppendRollbackFailed n)) None (ms ++ take k (stored_messages (sm_message_count m) messages))
| at_unrecorded model e : sm_status m = Open →
    appended_to m ms messages (Err (MessagesCommittedMetadataUpdateFailed (sm_message_count m + length messages) model e)) None
      (ms ++ stored_messages (sm_message_count m) messages)
| at_done model now : sm_status m = Open → sm_closed_at m = None →
    appended_to m ms messages (Ok tt) (Some (committed (sm_message_count m + length messages) model m |> set_updated_at now))
      (ms ++ stored_messages (sm_message_count m) messages).

Definition new_files (m : option SessionMetadata) (raw : list Z) (w : SessionWorld) : SessionWorld :=
  put_messages (Some raw) (match m with Some m => put_meta m w | None => w end).

Lemma files_new w w' m raw : files w' = files w → files (new_files m raw w') = files (new_files m raw w).
Proof. intros H. apply files_put_messages. destruct m; [by apply files_put_meta|done]. Qed.

Lemma rollback_cases n w r w' raw : sw_messages w = Some raw → rollback_messages_append n w = (r, w') →
  (r = Ok SessionIo ∧ files w' = files (put_messages (Some (take n raw)) w)) ∨
  (r = Ok (MessagesAppendRollbackFailed n) ∧
    (files w' = files w ∨ files w' = files (put_messages (Some (take n raw)) w))).
Proof.
  intros Hm H. unfold rollback_messages_append in H. rewrite m_try_bind in H.
  destruct ((_ ← sio SessionIo; _) w) as [r0 w0] eqn:E. injection H as <- <-.
  sio_step E; [|by right; split; [|left]].
  apply bind_cases in E as [([] & w9 & [= <-] & E)|(e & [=] & _)].
  apply sio_cases in E as (E & _ & Hr). rewrite (files_messages _ _ Hio), Hm in E. simpl in E.
  assert (files w0 = files (put_messages (Some (take n raw)) w)) as Hf by (rewrite E; by apply files_put_messages).
  destruct Hr as [ -> | ->]; [by left|right; auto].
Qed.

Lemma or_rollback_cases n m w r w' : or_rollback n m w = (r, w') →
  (r = Ok tt ∧ m w = (Ok tt, w')) ∨
  ∃ e w1 x, m w = (Err e, w1) ∧ rollback_messages_append n w1 = (Ok x, w') ∧ r = Err x.
Proof.
  unfold or_rollback. rewrite m_try_bind. destruct (m w) as [[[]|e] w1]; [intros [= <- <-]; by left|].
  intros H. right. unfold rollback_messages_append in H |- *.
  apply bind_cases in H as [(x & w2 & H & [= <- <-])|(x & H & ->)]; [by exists e, w1, x|].
  rewrite m_try_bind in H. by destruct ((_ ← sio SessionIo; _) w1).
Qed.

Lemma write_messages_cases l w r w' raw : sw_messages w = Some raw → write_messages l w = (r, w') →
  ∃ p, p `prefix_of` l ∧ files w' = files (put_messages (Some (raw ++ p)) w) ∧ (r = Ok tt ∧ p = l ∨ r = Err SessionIo).
Proof.
  intros Hm. unfold write_messages, session_fault, mbind, M_bind.
  assert (∀ w1 p, sw_messages w1 = sw_messages w → files w1 = files w →
    files (put_messages ((λ raw, raw ++ p) <$> sw_messages w1) w1) = files (put_messages (Some (raw ++ p)) w)) as Hf.
  { intros w1 p -> Hf. rewrite Hm. by apply files_put_messages. }
  destruct (head (sw_faults w)) as [[n|]|]; simpl; intros [= <- <-].
  - exists (take n l). split; [apply prefix_take|]. split; [by apply (Hf (put_session_faults (tail (sw_faults w)) w))|auto].
  - exists l. split; [done|]. split; [by apply (Hf (put_session_faults (tail (sw_faults w)) w))|auto].
  - exists l. split; [done|]. split; [by apply (Hf (put_session_faults (tail (sw_faults w)) w))|auto].
Qed.

Lemma files_at w w' raw : files w' = files (put_messages (Some raw) w) → sw_messages w' = Some raw ∧
  ∀ raw', files (put_messages (Some raw') w') = files (put_messages (Some raw') w).
Proof. unfold files. simpl. intros [= -> -> -> -> -> ->]. done. Qed.

Lemma undo_cases w1 w2 raw p x : files w1 = files (put_messages (Some (raw ++ p)) w2) →
  ∀ w', rollback_messages_append (length raw) w1 = (Ok x, w') →
  (x = SessionIo ∨ x = MessagesAppendRollbackFailed (length raw)) ∧
  (files w' = files (put_messages (Some raw) w2) ∨
    x = MessagesAppendRollbackFailed (length raw) ∧ files w' = files (put_messages (Some (raw ++ p)) w2)).
Proof.
  intros Hf w' H. destruct (files_at _ _ _ Hf) as [Hm Hput].
  apply (rollback_cases _ _ _ _ _ Hm) in H as [[[= ->] H]|[[= ->] [H|H]]].
  - split; [by left|]. left. by rewrite H, Hput, take_app_length.
  - split; [by right|]. right. by rewrite H.
  - split; [by right|]. left. by rewrite H, Hput, take_app_length.
Qed.

Lemma write_all_messages_cases jsonl w r w' raw : sw_messages w = Some raw → write_all_messages (length raw) jsonl w = (r, w') →
  (r = Ok tt ∧ files w' = files (put_messages (Some (raw ++ jsonl)) w)) ∨
  (∃ x, r = Err x ∧ (x = SessionIo ∨ x = MessagesAppendRollbackFailed (length raw)) ∧
    (files w' = files (put_messages (Some raw) w) ∨
     x = MessagesAppendRollbackFailed (length raw) ∧
       ∃ p, p `prefix_of` jsonl ∧ files w' = files (put_messages (Some (raw ++ p)) w))).
Proof.
  intros Hm H. unfold write_all_messages in H.
  assert (Hundo : ∀ w1 p x, p `prefix_of` jsonl → files w1 = files (put_messages (Some (raw ++ p)) w) →
    ∀ w', rollback_messages_append (length raw) w1 = (Ok x, w') →
    ∃ x', Err x = Err (A:=unit) x' ∧ (x' = SessionIo ∨ x' = MessagesAppendRollbackFailed (length raw)) ∧
      (files w' = files (put_messages (Some raw) w) ∨
       x' = MessagesAppendRollbackFailed (length raw) ∧
         ∃ p, p `prefix_of` jsonl ∧ files w' = files (put_messages (Some (raw ++ p)) w))).
  { intros w1 p x Hp Hf w2 Hr. destruct (undo_cases _ _ _ _ _ Hf _ Hr) as [H1 H2]. exists x. split; [done|].
    split; [done|]. destruct H2 as [H2|[H2 H3]]; [by left|]. right. split; [done|]. by exists p. }
  apply bind_cases in H as [([] & w1 & H1 & H)|(e & H1 & ->)];
    apply or_rollback_cases in H1 as [[Hr H1]|(e1 & wf & x & H1 & Hb & Hr)]; try discriminate Hr.
  2: { apply (write_messages_cases _ _ _ _ _ Hm) in H1 as (p & Hp & Hf & [[[=] _]|_]). right. injection Hr as ->. by eapply Hundo. }
  apply (write_messages_cases _ _ _ _ _ Hm) in H1 as (p & _ & Hf & [[_ ->]|[=]]).
  apply bind_cases in H as [([] & w2 & H1 & H)|(e & H1 & ->)];
    apply or_rollback_cases in H1 as [[Hr2 H1]|(e1 & wf & x & H1 & Hb & Hr2)]; try discriminate Hr2;
    apply sio_cases in H1 as (H1 & _ & _).
  2: { right. injection Hr2 as ->. eapply (Hundo wf jsonl); [done|by rewrite H1|done]. }
  apply or_rollback_cases in H as [[-> H]|(e1 & wf & x & H & Hb & ->)]; apply sio_cases in H as (H & _ & _).
  - left. split; [done|]. by rewrite H, H1.
  - right. eapply (Hundo wf jsonl); [done|by rewrite H, H1|done].
Qed.

Lemma stored_messages_length n messages : length (stored_messages n messages) = length messages.
Proof. revert n. induction messages as [|x l IH]; intros n; simpl; [done|]. by rewrite IH. Qed.

(** From a transcript made ready to the end of the append. *)
Lemma append_ready feed w r w' y raw ms m messages bytes :
  sw_yaml w = Some (Some y) → sw_messages w = Some raw → m = decode_metadata y →
  sm_status m = Open → sm_closed_at m = None →
  whole raw ms → (feed = false → closed raw) →
  encode_lines to_string (stored_messages (sm_message_count m) messages) = Some bytes →
  (_ ← write_all_messages (length raw) (if (feed : bool) then line_feed :: bytes else bytes);
   r ← m_try (commit_metadata (sm_message_count m + length messages) (nm_model <$> last messages));
   match r with
   | Ok _ => mret tt
   | Err source =>
       m' ← self;
       fail (MessagesCommittedMetadataUpdateFailed (sm_message_count m + length messages)
               (default (sm_model m') (nm_model <$> last messages)) source)
   end) w = (r, w') →
  ∃ new raw' ms', appended_to m ms messages r new ms' ∧ transcript raw' ms' ∧ files w' = files (new_files new raw' w).
Proof.
  intros Hy Hm -> Ho Hcl Hw Hfeed Hb H. set (m := decode_metadata y) in *.
  set (batch := stored_messages (sm_message_count m) messages) in *.
  set (raw1 := if feed then raw ++ [line_feed] else raw).
  assert (Hraw1 : closed raw1 ∧ whole raw1 ms).
  { subst raw1. destruct feed; [|by split; [apply Hfeed|]]. split; [right; by eexists|].
    unfold whole. rewrite (split_on_cut _ raw []), <-(app_nil_r ms). apply rows_app; [done|]. apply rows_blank, rows_nil. }
  destruct Hraw1 as [Hc1 Hw1].
  assert (Hcut : ∀ p, p `prefix_of` (if feed then line_feed :: bytes else bytes) →
    ∃ k, transcript (raw ++ p) (ms ++ take k batch)).
  { intros p Hp. destruct feed; subst raw1.
    - destruct p as [|c p]; [exists 0; rewrite !app_nil_r; by left|].
      apply prefix_cons_inv_1 in Hp as Hx. subst c. apply prefix_cons_inv_2 in Hp.
      destruct (append_cut batch _ _ _ _ Hc1 Hw1 Hb Hp) as (k & Ht & _). exists k. by rewrite <-(assoc_L (++)) in Ht.
    - destruct (append_cut batch _ _ _ _ Hc1 Hw1 Hb Hp) as (k & Ht & _). by exists k. }
  assert (Hfull : transcript (raw ++ if feed then line_feed :: bytes else bytes) (ms ++ batch)).
  { destruct (append_cut batch raw1 ms bytes bytes Hc1 Hw1 Hb ltac:(done)) as (k & _ & Hf).
    destruct (Hf eq_refl) as (_ & _ & Hwh). left. subst raw1. destruct feed; [by rewrite <-(assoc_L (++)) in Hwh|done]. }
  apply bind_cases in H as [([] & w1 & H1 & H)|(e & H1 & ->)];
    apply (write_all_messages_cases _ _ _ _ _ Hm) in H1 as [[Hr Hf]|(x & Hr & Hx & Hf)]; try discriminate Hr.
  - rewrite m_try_bind in H. destruct (commit_metadata _ _ w1) as [r1 w2] eqn:Hcm.
    assert (Hy1 : sw_yaml w1 = Some (Some y)) by (injection Hf as -> _ _ _ _ _; done).
    apply (touch_cases _ _ _ _ _ Hy1) in Hcm as [[-> (m' & (now & ->) & Hf2)]|[-> Hf2]].
    + injection H as <- <-. eexists _, _, _. split; [by apply (at_done m ms messages (nm_model <$> last messages) now)|]. split; [exact Hfull|].
      rewrite Hf2. rewrite (files_put_meta _ _ _ Hf). by unfold new_files, files.
    + apply bind_cases in H as [(m' & w3 & [= <- <-] & [= <- <-])|(e & [=] & _)].
      eexists None, _, _. split; [by apply (at_unrecorded m ms messages)|]. split; [exact Hfull|]. by rewrite Hf2.
  - injection Hr as ->. destruct Hf as [Hf|[-> (p & Hp & Hf)]].
    + destruct Hx as [->| ->].
      * exists None, raw, ms. split; [by apply at_refused|]. split; [left; exact Hw|]. exact Hf.
      * eexists None, raw, _. split; [by apply (at_torn m ms messages _ 0)|]. split; [rewrite app_nil_r; left; exact Hw|]. exact Hf.
    + destruct (Hcut p Hp) as [k Ht]. eexists None, _, _. split; [by apply (at_torn m ms messages)|]. split; [exact Ht|]. exact Hf.
Qed.

Lemma append_messages_cases messages w r w' y raw ms :
  sw_yaml w = Some (Some y) → sw_messages w = Some raw → transcript raw ms →
  append_messages to_string parse messages w = (r, w') →
  (messages = [] ∧ r = Ok tt ∧ w' = w) ∨
  ∃ new raw' ms', appended_to (decode_metadata y) ms messages r new ms' ∧ transcript raw' ms' ∧
    files w' = files (new_files new raw' w).
Proof.
  intros Hy Hm Ht H. destruct messages as [|x l]; [injection H as <- <-; by left|]. right.
  cbn [append_messages] in H. set (messages := x :: l) in *. clearbody messages. clear x l.
  assert (Hsame : ∀ w1 e, files w1 = files w → in_doubt e = false →
    ∃ new raw' ms', appended_to (decode_metadata y) ms messages (Err e) new ms' ∧ transcript raw' ms' ∧
      files w1 = files (new_files new raw' w)).
  { intros w1 e Hf He. exists None, raw, ms. split; [by apply at_refused|]. split; [done|]. rewrite Hf. unfold files. simpl. by rewrite Hm. }
  unfold lock_session in H. sio_step H; [|by apply Hsame].
  apply bind_cases in H as [(m & w1 & Hr & H)|(e & Hr & ->)];
    apply (refresh_cases _ _ _ y) in Hr as [Hf [[Hr _]|Hr]]; try discriminate Hr;
    try (by rewrite (files_yaml _ _ Hio)).
  2: { injection Hr as ->. apply Hsame; [congruence|done]. }
  injection Hr as ->.
  destruct (negb (bool_decide (sm_status (decode_metadata y) = Open)) || negb (is_none (sm_closed_at (decode_metadata y)))) eqn:Hg.
  { injection H as <- <-. apply Hsame; [congruence|done]. }
  apply orb_false_elim in Hg as [Ho Hcl]. apply negb_false_iff, bool_decide_eq_true in Ho.
  assert (sm_closed_at (decode_metadata y) = None) as Hcl' by (by destruct (sm_closed_at (decode_metadata y))).
  cbv zeta in H.
  apply bind_cases in H as [(bytes & w2 & Hb & H)|(e & Hb & ->)]; unfold lift_result in Hb.
  2: { injection Hb as He <-. apply Hsame; [congruence|]. destruct (encode_lines _ _); [done|]. by injection He as <-. }
  destruct (encode_lines to_string _) as [bytes'|] eqn:Hbytes; [|discriminate Hb]. injection Hb as -> <-.
  assert (Hm1 : sw_messages w1 = Some raw) by (by rewrite (files_messages _ _ Hf), (files_messages _ _ Hio)).
  apply bind_cases in H as [(feed & w3 & Hp & H)|(e & Hp & ->)];
    destruct (prepare_cases _ _ _ _ _ Hm1 Ht Hp) as (raw1 & Hf3 & _ & Ht1 & He & Hready).
  2: { exists None, raw1, ms. split; [apply at_refused; by rewrite (He _ eq_refl)|]. split; [done|].
       rewrite Hf3. apply files_put_messages. congruence. }
  assert (Hf3' : files w3 = files (put_messages (Some raw1) w)) by (rewrite Hf3; apply files_put_messages; congruence).
  assert (Hsame3 : ∀ w4 e, files w4 = files w3 → in_doubt e = false →
    ∃ new raw' ms', appended_to (decode_metadata y) ms messages (Err e) new ms' ∧ transcript raw' ms' ∧
      files w4 = files (new_files new raw' w)).
  { intros w4 e Hf4 He4. exists None, raw1, ms. split; [by apply at_refused|]. split; [done|]. by rewrite Hf4. }
  sio_step H; [|by apply Hsame3]. sio_step H; [|apply Hsame3; [congruence|done]].
  apply bind_cases in H as [(len & w5 & [= <- <-] & H)|(e & [=] & _)].
  assert (Hf5 : files w4 = files (put_messages (Some raw1) w)) by congruence.
  destruct (files_at _ _ _ Hf5) as [Hm5 Hput]. rewrite Hm5 in H. simpl default in H.
  destruct (Hready feed eq_refl) as [Hw Hc].
  destruct (append_ready feed w4 r w' y raw1 ms (decode_metadata y) messages bytes) as (new & raw' & ms' & Ha & Ht' & Hf');
    try done.
  { injection Hf5 as -> _ _ _ _ _. exact Hy. }
  exists new, raw', ms'. split; [done|]. split; [done|]. rewrite Hf'. rewrite (files_new _ _ _ _ Hf5).
  unfold new_files. by destruct new.
Qed.
(** ** Triples

    [spec q P m Q E]: from a world in [P], [m] ends in [Q] or fails in [E];
    where [q] holds, the world has no faults and has none after it. *)
Definition spec {A} (q : bool) (P : SessionWorld → Prop) (m : SM A) (Q : A → SessionWorld → Prop)
    (E : SessionStoreError → SessionWorld → Prop) : Prop :=
  ∀ w r w', (q = true → sw_faults w = []) → P w → m w = (r, w') →
    (q = true → sw_faults w' = []) ∧ match r with Ok a => Q a w' | Err e => E e w' end.

Section rules.
Context {A : Type} (q : bool).

Lemma spec_ret (a : A) (P : SessionWorld → Prop) Q E : (∀ w, P w → Q a w) → spec q P (mret a) Q E.
Proof. intros H w r w' Hq HP [= <- <-]. auto. Qed.
Lemma spec_fail e (P : SessionWorld → Prop) (Q : A → _) E : (∀ w, P w → E e w) → spec q P (fail e) Q E.
Proof. intros H w r w' Hq HP [= <- <-]. auto. Qed.
Lemma spec_gets (f : _ → A) (P : SessionWorld → Prop) Q E : (∀ w, P w → Q (f w) w) → spec q P (gets f) Q E.
Proof. intros H w r w' Hq HP [= <- <-]. auto. Qed.
Lemma spec_lift (x : Result SessionStoreError A) (P : SessionWorld → Prop) Q E :
  (∀ w, P w → match x with Ok a => Q a w | Err e => E e w end) → spec q P (lift_result x) Q E.
Proof. intros H w r w' Hq HP [= <- <-]. split; [done|exact (H _ HP)]. Qed.
Lemma spec_bind {B} (m : SM A) (f : A → SM B) P R Q E : spec q P m R E → (∀ a, spec q (R a) (f a) Q E) → spec q P (m ≫= f) Q E.
Proof.
  intros Hm Hf w r w' Hq HP [(a & w1 & H1 & H2)|(e & H1 & ->)]%bind_cases; destruct (Hm _ _ _ Hq HP H1) as [Hq1 H]; [|done].
  by apply (Hf a w1).
Qed.
Lemma spec_try (m : SM A) P Q E : spec q P m (λ a, Q (Ok a)) (λ e, Q (Err e)) → spec q P (m_try m) Q E.
Proof.
  intros Hm w r w' Hq HP H. unfold m_try in H. destruct (m w) as [r1 w1] eqn:Hmw. injection H as <- <-.
  destruct (Hm _ _ _ Hq HP Hmw) as [Hq1 H]. split; [done|]. by destruct r1.
Qed.
Lemma spec_weaken (m : SM A) (P P' : SessionWorld → Prop) (Q Q' : A → SessionWorld → Prop) (E E' : _ → SessionWorld → Prop) :
  spec q P m Q E → (∀ w, P' w → P w) → (∀ a w, Q a w → Q' a w) → (∀ e w, E e w → E' e w) → spec q P' m Q' E'.
Proof.
  intros Hm HP HQ HE w r w' Hq HP' H. destruct (Hm _ _ _ Hq (HP _ HP') H) as [Hq1 H1]. split; [done|]. destruct r; auto.
Qed.
Lemma spec_pure (m : SM A) (P : SessionWorld → Prop) (φ : Prop) Q E :
  (φ → spec q P m Q E) → spec q (λ w, φ ∧ P w) m Q E.
Proof. intros H w r w' Hq [Hφ HP]. by apply H. Qed.
End rules.

Lemma spec_modify q f (P : SessionWorld → Prop) Q E :
  (∀ w, sw_faults (f w) = sw_faults w) → (∀ w, P w → Q tt (f w)) → spec q P (modify f) Q E.
Proof. intros Hf H w r w' Hq HP [= <- <-]. rewrite Hf. auto. Qed.

(** The metadata on disk are in [I], those in memory in [J], the transcript is [raw]. *)
Definition disk (I J : SessionMetadata → Prop) (raw : list Z) (w : SessionWorld) : Prop :=
  sw_messages w = Some raw ∧ (∃ y, sw_yaml w = Some (Some y) ∧ I (decode_metadata y)) ∧ J (sw_self w).

Abbreviation anything := (λ _ : SessionMetadata, True).

Lemma disk_weaken (I I' J J' : SessionMetadata → Prop) raw w :
  (∀ m, I m → I' m) → (∀ m, J m → J' m) → disk I J raw w → disk I' J' raw w.
Proof. intros HI HJ (H1 & (y & H2 & H3) & H4). split; [done|]. split; [|auto]. exists y. auto. Qed.

Lemma spec_fault q I J raw E : spec q (disk I J raw) session_fault (λ f w, disk I J raw w ∧ (q = true → f = None)) E.
Proof.
  intros w r w' Hq HP [= <- <-]. simpl. split; [intros H; by rewrite (Hq H)|]. split; [exact HP|]. intros H. by rewrite (Hq H).
Qed.

Lemma spec_sio q e I J raw (E : SessionStoreError → SessionWorld → Prop) : (∀ w, q = false → disk I J raw w → E e w) →
  spec q (disk I J raw) (sio e) (λ _, disk I J raw) E.
Proof.
  intros HE. eapply spec_bind; [apply spec_fault|]. intros [n|].
  - apply spec_fail. intros w [Hw Hn]. apply HE; [|done]. destruct q; [by specialize (Hn eq_refl)|done].
  - apply spec_ret. by intros w [Hw _].
Qed.

(** Where only I/O fails, and without a trace. *)
Definition io_failed (q : bool) (raw : list Z) (I : SessionMetadata → Prop) (e : SessionStoreError) (w : SessionWorld) : Prop := q = false ∧ disk I anything raw w.

Lemma io_failed_at q I J raw e w : q = false → disk I J raw w → io_failed q raw I e w.
Proof. intros Hq Hw. split; [done|]. by eapply disk_weaken, Hw. Qed.

Lemma spec_read_yaml q I J raw E : (∀ e w, q = false → disk I J raw w → E e w) →
  spec q (disk I J raw) (read_file sw_yaml) (λ y w, I (decode_metadata y) ∧ disk I J raw w) E.
Proof.
  intros HE. eapply spec_bind; [apply spec_sio; auto|]. intros []. intros w r w' Hq (Hm & (y & Hy & HI) & HJ) H.
  unfold mbind, M_bind, gets in H. rewrite Hy in H. injection H as <- <-. split; [done|]. split; [done|]. split; [done|]. eauto.
Qed.

Lemma spec_refresh q (I J I' : SessionMetadata → Prop) raw : (∀ m, I m → I' m) →
  spec q (disk I J raw) refresh (λ m w, I m ∧ disk I (eq m) raw w) (io_failed q raw I').
Proof.
  intros HI. unfold refresh, read_metadata_light. eapply (spec_bind _ _ _ _ (λ m w, I m ∧ disk I J raw w)).
  - eapply spec_bind.
    + apply spec_read_yaml. intros e w Hq Hw. eapply (io_failed_at _ I' J); [done|]. eapply disk_weaken, Hw; auto.
    + intros y. by apply spec_ret.
  - intros m. simpl. apply spec_pure. intros Hm. eapply spec_bind; [apply (spec_modify _ _ _ (λ _, disk I (eq m) raw))|].
    + done.
    + intros w (H1 & H2 & H3). by split.
    + intros []. apply spec_ret. auto.
Qed.

Definition norm (m : SessionMetadata) : SessionMetadata := decode_metadata (encode_metadata m).

Lemma spec_write_metadata q (I J I' J' : SessionMetadata → Prop) raw :
  (∀ m, J m → J' m ∧ I' (norm m)) →
  spec q (disk I J raw) write_metadata (λ _, disk I' J' raw) (io_failed q raw I).
Proof.
  intros HJ. unfold write_metadata. eapply spec_bind; [apply (spec_gets _ _ _ (λ m w, J m ∧ disk I (eq m) raw w))|].
  - intros w (H1 & H2 & H3). split; [done|]. by split.
  - intros m. apply spec_pure. intros Hm. eapply spec_bind; [apply spec_sio; intros w Hq Hw; by eapply io_failed_at|].
    intros []. apply spec_modify; [done|]. intros w (H1 & H2 & H3). destruct (HJ _ Hm) as [HJ' HI']. split; [done|].
    split; [by eexists|]. simpl in *. by subst.
Qed.

Lemma spec_set_write q (I J I' J' : SessionMetadata → Prop) raw m : J' m → I' (norm m) →
  spec q (disk I J raw) (_ ← set_self m; write_metadata) (λ _, disk I' J' raw) (io_failed q raw I).
Proof.
  intros HJ' HI'. eapply spec_bind; [apply (spec_modify _ _ _ (λ _, disk I (eq m) raw)); [done|]|].
  - intros w (H1 & H2 & H3). by split.
  - intros []. eapply spec_weaken; [apply (spec_write_metadata q I (eq m) I' J')|done|done|]; simpl; [|done].
    by intros ? <-.
Qed.

Lemma spec_touch q (I J I' : SessionMetadata → Prop) raw f : (∀ m now, I m → I' (norm (f m |> set_updated_at now))) →
  spec q (disk I J raw) (touch_metadata f) (λ _, disk I' anything raw) (io_failed q raw I).
Proof.
  intros Hf. eapply spec_bind; [by apply spec_refresh|]. intros m. simpl. apply spec_pure. intros Hm.
  eapply (spec_bind _ _ _ _ (λ _, disk I anything raw)); [by intros w r w' Hq (H1 & H2 & H3) [= <- <-]|].
  intros now. by apply spec_set_write; [|apply Hf].
Qed.

Lemma spec_update q (I J I' : SessionMetadata → Prop) raw f : (∀ m, I m → I' (norm (f m))) →
  spec q (disk I J raw) (update_metadata f) (λ _, disk I' anything raw) (io_failed q raw I).
Proof.
  intros Hf. eapply spec_bind; [by apply spec_refresh|]. intros m. simpl. apply spec_pure. intros Hm.
  by apply spec_set_write; [|apply Hf].
Qed.

(** ** Opening changes nothing but what it repairs *)

Definition cursor_le (c c' : option Z) : Prop := (default 0 c <= default 0 c')%Z ∧ (c ≠ None → c' ≠ None).

(** [m] says what [m0] says, of a transcript of [n] messages. *)
Record settled (n : nat) (m0 m : SessionMetadata) : Prop := {
  st_id : sm_id m = sm_id m0;
  st_agent : sm_agent_id m = sm_agent_id m0;
  st_status : sm_status m = sm_status m0;
  st_created : sm_created_at m = sm_created_at m0;
  st_closed : sm_closed_at m = sm_closed_at m0;
  st_finalized : sm_finalized_at m = sm_finalized_at m0;
  st_count : sm_message_count m = n;
  st_recapped : sm_recapped_until m = sm_recapped_until m0;
  st_compaction : committed_message_until <$> sm_compaction m = committed_message_until <$> sm_compaction m0;
  st_provider : cursor_le (sm_provider_background_completion_until_seq m0) (sm_provider_background_completion_until_seq m);
  st_recap : cursor_le (sm_recap_background_completion_until_seq m0) (sm_recap_background_completion_until_seq m);
}.

Lemma settled_refl m : settled (sm_message_count m) m m.
Proof. by split. Qed.

Lemma settled_trans n n' m0 m1 m2 : settled n m0 m1 → settled n' m1 m2 → settled n' m0 m2.
Proof.
  intros [] []. split; try congruence; unfold cursor_le in *; (split; [lia|tauto]).
Qed.

Lemma committed_normalized s : committed_message_until (normalize_active_turn s) = committed_message_until s.
Proof. unfold normalize_active_turn. by destruct (scs_active_turn_summary s), (cf_active_turn (scs_frontier s)); try case_match. Qed.

Lemma settled_norm m : settled (sm_message_count m) m (norm m).
Proof.
  split; try done. simpl. destruct (sm_compaction m) as [s|]; simpl; [|done]. f_equal.
  unfold from_wire. by rewrite committed_normalized.
Qed.

Lemma settled_norm_to n m : sm_message_count m = n → settled n m (norm m).
Proof. intros <-. apply settled_norm. Qed.

Lemma settled_history h m : settled (sm_message_count m) m (with_history h m).
Proof. split; try done. simpl. by destruct (sm_compaction m). Qed.

Section opening.
Context (from_str : Text → option TurnJournalEvent) (q : bool) (raw : list Z) (m0 : SessionMetadata).

(** Settled, with its own count. *)
Definition still (m : SessionMetadata) : Prop := settled (sm_message_count m0) m0 m.

Lemma still_step m m' : still m → settled (sm_message_count m) m m' → still m'.
Proof. intros Hm Hs. rewrite (st_count _ _ _ Hm) in Hs. by eapply settled_trans. Qed.

Definition cursors_set (m : SessionMetadata) : Prop :=
  sm_provider_background_completion_until_seq m ≠ None ∧ sm_recap_background_completion_until_seq m ≠ None.

Lemma still_cursors m : still m → cursors_set m0 → cursors_set m.
Proof. intros [] []. unfold cursor_le in *. split; tauto. Qed.

Abbreviation open_disk := (disk still still raw).

Lemma spec_self (Q : SessionMetadata → SessionWorld → Prop) E I J :
  (∀ w, disk I J raw w → Q (sw_self w) w) → spec q (disk I J raw) self Q E.
Proof. intros H. apply spec_gets. exact H. Qed.

Lemma spec_set_self (I J J' : SessionMetadata → Prop) m E : J' m → spec q (disk I J raw) (set_self m) (λ _, disk I J' raw) E.
Proof. intros Hm. apply spec_modify; [done|]. intros w (H1 & H2 & H3). by split. Qed.

(** A change of a file that is neither the metadata nor the transcript. *)
Lemma spec_other_file put I J (E : SessionStoreError → SessionWorld → Prop) e :
  (∀ w, sw_faults (put w) = sw_faults w ∧ sw_yaml (put w) = sw_yaml w ∧ sw_messages (put w) = sw_messages w ∧ sw_self (put w) = sw_self w) →
  (∀ w, q = false → disk I J raw w → E e w) →
  spec q (disk I J raw) (_ ← sio e; modify put) (λ _, disk I J raw) E.
Proof.
  intros Hput HE. eapply spec_bind; [apply spec_sio, HE|]. intros []. apply spec_modify; [apply Hput|].
  intros w (H1 & H2 & H3). unfold disk. by destruct (Hput w) as (_ & -> & -> & ->).
Qed.

Lemma spec_write_history I J h : spec q (disk I J raw) (write_provider_history_file h) (λ _, disk I J raw) (io_failed q raw I).
Proof.
  assert (HE : ∀ e w, q = false → disk I J raw w → io_failed q raw I e w) by (intros; by eapply io_failed_at).
  destruct h; simpl; [eapply spec_bind; [apply spec_sio, HE|intros []]|]; apply spec_other_file; auto.
Qed.

Lemma spec_write_still : spec q open_disk write_metadata (λ _, open_disk) (io_failed q raw still).
Proof. apply spec_write_metadata. intros m Hm. split; [done|]. eapply still_step; [done|]. apply settled_norm. Qed.

Lemma spec_hydrate : spec q open_disk hydrate_provider_history (λ _, open_disk) (io_failed q raw still).
Proof.
  unfold hydrate_provider_history.
  eapply spec_bind; [apply (spec_self (λ m w, still m ∧ open_disk w)); intros w Hw; split; [apply Hw|done]|].
  intros m. apply spec_pure. intros Hm.
  eapply spec_bind; [apply (spec_set_self _ _ still); by eapply still_step, settled_history|intros []].
  eapply (spec_bind _ _ _ _ (λ _, open_disk)).
  { eapply spec_bind; [apply spec_fault|]. intros []; [apply spec_ret|apply spec_gets]; by intros w []. }
  intros file. eapply (spec_bind _ _ _ _ (λ _, open_disk)).
  - destruct file as [|h|]; [destruct (inline_history m) as [h|]|..].
    + eapply spec_bind; [apply spec_write_history|intros []]. eapply spec_bind; [apply spec_write_still|intros []]. by apply spec_ret.
    + by apply spec_ret.
    + by apply spec_ret.
    + eapply (spec_bind _ _ _ _ (λ _, open_disk)); [apply spec_try, spec_other_file; [done|by intros]|intros _].
      eapply spec_bind; [apply spec_write_still|intros []]. by apply spec_ret.
  - intros h. eapply spec_bind; [apply (spec_self (λ m w, still m ∧ open_disk w)); intros w Hw; split; [apply Hw|done]|].
    intros m'. apply spec_pure. intros Hm'. apply spec_set_self. by eapply still_step, settled_history.
Qed.

Lemma latest_nonneg events : (0 <= foldr (λ e m, Z.max (ev_seq e) m) 0 (List.filter is_background_completion events))%Z.
Proof. induction (List.filter _ events); simpl; lia. Qed.

Lemma spec_latest I J E : spec q (disk I J raw) (latest_background_completion_seq from_str) (λ z w, (0 <= z)%Z ∧ disk I J raw w) E.
Proof.
  eapply (spec_bind _ _ _ _ (λ _, disk I J raw)).
  - eapply spec_bind; [apply spec_fault|]. intros f. simpl. eapply (spec_bind _ _ _ _ (λ _, disk I J raw)).
    + apply spec_gets. by intros w [].
    + intros bytes. by apply spec_ret.
  - intros read. apply spec_ret. intros w Hw. split; [apply latest_nonneg|done].
Qed.

Lemma spec_checkpoint I J : spec q (disk I J raw) read_finalize_checkpoint (λ _, disk I J raw) (λ _, disk I J raw).
Proof.
  unfold read_finalize_checkpoint, not_found_is_none. eapply (spec_bind _ _ _ _ (λ _, disk I J raw)).
  - apply spec_try. eapply spec_bind; [by apply spec_sio|]. intros []. eapply (spec_bind _ _ _ _ (λ _, disk I J raw)); [by apply spec_gets|].
    intros [[c|]|]; [by apply spec_ret|by apply spec_fail..].
  - intros [c|e]; [by apply spec_ret|]. destruct e; try (by apply spec_fail).
    match goal with e : StorageError |- _ => destruct e end; first [by apply spec_ret|by apply spec_fail].
Qed.

(** Why opening a session may fail although every call succeeds. *)
Definition unless (φ : Prop) (e : SessionStoreError) (w : SessionWorld) : Prop := disk still anything raw w ∧ (q = true → ¬ φ).

Lemma unless_io φ e w : io_failed q raw still e w → unless φ e w.
Proof. intros [Hq Hw]. split; [done|]. congruence. Qed.

Lemma still_provider m z : still m → sm_provider_background_completion_until_seq m = None → (0 <= z)%Z → still (set_provider_cursor (Some z) m).
Proof.
  intros Hm Hn Hz. eapply still_step; [done|]. split; try done. simpl. rewrite Hn. split; simpl; [lia|done].
Qed.
Lemma still_recap m z : still m → sm_recap_background_completion_until_seq m = None → (0 <= z)%Z → still (set_recap_cursor (Some z) m).
Proof.
  intros Hm Hn Hz. eapply still_step; [done|]. split; try done. simpl. rewrite Hn. split; simpl; [lia|done].
Qed.

Lemma spec_initialize : spec q open_disk (initialize_background_completion_cursors from_str) (λ _, open_disk) (unless (cursors_set m0)).
Proof.
  unfold initialize_background_completion_cursors.
  eapply spec_bind; [apply (spec_self (λ m w, still m ∧ open_disk w)); intros w Hw; split; [apply Hw|done]|].
  intros m. apply spec_pure. intros Hm. cbv zeta.
  destruct (sm_provider_background_completion_until_seq m) as [c1|] eqn:Hc1,
    (sm_recap_background_completion_until_seq m) as [c2|] eqn:Hc2; simpl; [by apply spec_ret|..];
    (assert (¬ cursors_set m0) as Hunset by (intros H; destruct (still_cursors _ Hm H); congruence));
    (assert (Hun : ∀ e w, disk still still raw w → unless (cursors_set m0) e w) by
      (intros e w Hw; split; [by eapply disk_weaken, Hw|done])).
  all: eapply (spec_bind _ _ _ _ (λ _, open_disk)).
  all: try (try case_bool_decide; [eapply spec_bind; [eapply spec_weaken; [apply spec_checkpoint|done|by intros ??; exact id|auto]|intros c; by apply spec_ret]|by apply spec_ret]).
  all: try by apply spec_ret.
  all: intros p; simpl; eapply spec_bind; [apply spec_latest|intros z; apply spec_pure; intros Hz].
  all: eapply spec_bind; [apply (spec_set_self _ _ still)|intros []].
  all: try (destruct p; simpl; eauto using still_provider, still_recap; fail).
  all: try (destruct p; simpl).
  all: try by apply spec_ret.
  all: eapply spec_weaken; [apply spec_write_still|done|by intros ??|intros; by apply unless_io].
Qed.
End opening.

(** ** What the other operations change *)

Definition opened (updated_at : DateTime) (m : SessionMetadata) : SessionMetadata :=
  m |> set_status Open |> set_closed_at None |> set_finalized_at None |> set_updated_at updated_at.

Definition change (op : SessionOp) (m x : SessionMetadata) : Prop :=
  match op with
  | op_compact c => touched (set_compaction (Some (normalize_active_turn c))) m x
  | op_clear => touched (set_compaction None) m x
  | op_recap n => touched (raise_recapped n) m x
  | op_provider seq => touched (λ m, set_provider_cursor (max_cursor seq (sm_provider_background_completion_until_seq m)) m) m x
  | op_discard seq => touched (advance_recap_cursor seq) m x
  | op_recap_finalized n finalized_at => x = finalized finalized_at (raise_recapped n m)
  | op_recap_cursor_finalized n seq finalized_at => x = finalized finalized_at (advance_recap_cursor seq (raise_recapped n m))
  | op_finalized finalized_at => x = finalized finalized_at m
  | op_finalizing updated_at =>
      sm_status m = Open ∧ sm_closed_at m = None ∧ sm_finalized_at m = None ∧ x = (m |> set_status Finalizing |> set_updated_at updated_at)
  | op_open updated_at => sm_status m ≠ Finalizing ∧ x = opened updated_at m
  | op_takeover updated_at =>
      sm_status m = Finalizing ∧ sm_closed_at m = None ∧ sm_finalized_at m = None ∧ x = (m |> set_status Open |> set_updated_at updated_at)
  | op_closed closed_at => x = (m |> set_status Closed |> set_closed_at (Some closed_at) |> set_updated_at closed_at)
  | _ => x = m
  end.

(** The metadata after [op], which are [m0] or a change of them. *)
Definition changed (op : SessionOp) (m0 m : SessionMetadata) : Prop := m = m0 ∨ ∃ x, change op m0 x ∧ m = norm x.

Section operations.
Context (from_str : Text → option TurnJournalEvent) (json_text : string → option string)
  (canonical_user_content_hash : list SessionContentBlock → option string).

Abbreviation run := (exec to_string parse from_str json_text canonical_user_content_hash).

Lemma spec_mark_open q (I J I' : SessionMetadata → Prop) raw updated_at :
  (∀ m, I m → sm_status m ≠ Finalizing → I' (norm (opened updated_at m))) →
  spec q (disk I J raw) (mark_open updated_at) (λ _, disk I' anything raw) (λ _, disk I anything raw).
Proof.
  intros HI. unfold mark_open.
  eapply spec_bind; [apply spec_sio; intros w _ Hw; by eapply disk_weaken, Hw|intros []].
  eapply spec_bind; [eapply spec_weaken; [by apply (spec_refresh q I J I)|done|intros ??; exact id|by intros e w []]|].
  intros m. simpl. apply spec_pure. intros Hm. case_bool_decide as Hs; [apply spec_fail; intros w; by apply disk_weaken|].
  case_match; [apply spec_fail; intros w; by apply disk_weaken|].
  eapply spec_bind; [apply spec_other_file; [done|intros w _; by apply disk_weaken]|intros []].
  eapply spec_weaken; [by apply (spec_set_write q I (eq m) I' anything raw (opened updated_at m)); [|apply HI]|done|by intros ??|].
  intros e w [_ Hw]. exact Hw.
Qed.

Lemma spec_guarded q (I I' : SessionMetadata → Prop) raw (g : SessionMetadata → bool) e f :
  (∀ m, I m → g m = false → I' (norm (f m))) →
  spec q (disk I anything raw) (m ← refresh; if g m then fail (e m) else _ ← set_self (f m); write_metadata)
    (λ _, disk I' anything raw) (λ _, disk I anything raw).
Proof.
  intros HI.
  eapply spec_bind; [eapply spec_weaken; [by apply (spec_refresh q I anything I)|done|intros ??; exact id|by intros ? w []]|].
  intros m. simpl. apply spec_pure. intros Hm. destruct (g m) eqn:Hg; [apply spec_fail; intros w; by apply disk_weaken|].
  eapply spec_weaken; [apply (spec_set_write q I (eq m) I' anything raw (f m)); [done|by apply HI]|done|done|].
  intros ? w [_ Hw]. exact Hw.
Qed.

Lemma spec_op op raw m0 : is_append op = false → is_open op = false →
  spec false (disk (eq m0) anything raw) (run op) (λ _, disk (changed op m0) anything raw) (λ _, disk (eq m0) anything raw).
Proof.
  intros Ha Ho.
  assert (Hmark : ∀ x, change op m0 x → changed op m0 (norm x)) by (intros x Hx; right; eauto).
  assert (Hio : ∀ (e : SessionStoreError) w, io_failed false raw (eq m0) e w → disk (eq m0) anything raw w) by (by intros e w []).
  assert (Hlock : ∀ e, spec false (disk (eq m0) anything raw) (sio e) (λ _, disk (eq m0) anything raw) (λ _, disk (eq m0) anything raw))
    by (intros e; by apply spec_sio).
  destruct op; try discriminate; cbn [exec].
  all: unfold update_compaction, clear_compaction, advance_recapped_until, advance_provider_background_completion_until,
    discard_legacy_finalize_checkpoint_and_advance_recap_background_cursor, recap_and_mark_finalized,
    recap_and_mark_finalized_with_background_cursor, mark_finalized, mark_finalizing, mark_open_after_finalize_takeover,
    mark_closed, write_compaction_checkpoint, write_finalize_checkpoint, lock_session.
  all: repeat lazymatch goal with
    | |- spec _ _ (mbind _ (sio _)) _ _ => eapply spec_bind; [apply Hlock|intros []]
    | |- spec _ _ (mbind _ (remove_file _)) _ _ => eapply spec_bind; [by apply spec_other_file|intros []]
    | |- spec _ _ (mbind _ (write_provider_history_file _)) _ _ =>
        eapply spec_bind; [eapply spec_weaken; [apply (spec_write_history false raw (eq m0) anything)|done|intros ??; exact id|exact Hio]|intros []]
    | |- spec _ _ (update_metadata ?f) (λ _, disk (changed ?op _) _ _) _ =>
        apply (spec_weaken _ _ _ _ _ _ _ _ (spec_update false (eq m0) anything (changed op m0) raw f
          (λ m Hm, eq_ind _ (λ m, changed op m0 (norm (f m))) (Hmark (f m0) eq_refl) _ Hm)) (λ _ H, H) (λ _ _ H, H) Hio)
    | |- spec _ _ (touch_metadata ?f) (λ _, disk (changed ?op _) _ _) _ =>
        apply (spec_weaken _ _ _ _ _ _ _ _ (spec_touch false (eq m0) anything (changed op m0) raw f
          (λ m now Hm, eq_ind _ (λ m, changed op m0 (norm (f m |> set_updated_at now))) (Hmark _ (ex_intro _ now eq_refl)) _ Hm)) (λ _ H, H) (λ _ _ H, H) Hio)
    end.
  - apply (spec_guarded false (eq m0) _ raw _ (λ _, SessionClosed) (λ m, set_updated_at updated_at (set_status Finalizing m))).
    intros m <- Hg. apply Hmark. simpl. destruct (sm_finalized_at m0), (sm_closed_at m0), (sm_status m0); done.
  - apply spec_mark_open. intros m <- Hs. by apply Hmark.
  - apply (spec_guarded false (eq m0) _ raw _ (λ m, NotClosed (sm_status m)) (λ m, set_updated_at updated_at (set_status Open m))).
    intros m <- Hg. apply Hmark. simpl. destruct (sm_finalized_at m0), (sm_closed_at m0), (sm_status m0); done.
  - eapply spec_weaken; [by apply spec_other_file with (E := λ _, disk (eq m0) anything raw)|done| |done].
    intros [] w. apply disk_weaken; [|done]. intros m <-. by left.
  - eapply spec_weaken; [by apply spec_other_file with (E := λ _, disk (eq m0) anything raw)|done| |done].
    intros [] w. apply disk_weaken; [|done]. intros m <-. by left.
Qed.
(** ** What opening a session repairs *)

Definition resumable (n : nat) (m : SessionMetadata) : Prop :=
  sm_message_count m ≤ n ∧ sm_recapped_until m ≤ n ∧
  ∀ u, committed_message_until <$> sm_compaction m = Some u → (u <= Z.of_nat n)%Z.

Definition loaded (n : nat) (m0 m : SessionMetadata) : Prop := settled n m0 m ∧ sm_message_count m0 ≤ n.

Lemma bounds_ok n m : resumable n m → validate_resume_metadata_bounds m n = Ok tt.
Proof.
  intros (_ & Hr & Hc). unfold validate_resume_metadata_bounds. destruct (Nat.ltb_spec n (sm_recapped_until m)); [lia|].
  destruct (sm_compaction m) as [s|]; [|done]. destruct (Z.ltb_spec (Z.of_nat n) (committed_message_until s)); [|done].
  specialize (Hc _ eq_refl). lia.
Qed.

Lemma still_resumable m0 m n : still m0 m → resumable n m0 → resumable n m.
Proof. intros [] (H1 & H2 & H3). unfold resumable. rewrite st_recapped0, st_count0, st_compaction0. done. Qed.

Lemma spec_reconcile q raw m0 ms : spec q (disk (still m0) (still m0) raw) (validate_and_reconcile_resume_metadata ms)
  (λ _, disk (loaded (length ms) m0) anything raw)
  (unless q raw m0 (validate_message_indexes 0 ms = Ok tt ∧ resumable (length ms) m0)).
Proof.
  assert (Hun : ∀ (φ : Prop) e w, ¬ φ → disk (still m0) (still m0) raw w → unless q raw m0 φ e w).
  { intros φ e w Hφ Hw. split; [by eapply disk_weaken, Hw|done]. }
  unfold validate_and_reconcile_resume_metadata.
  eapply (spec_bind _ _ _ _ (λ _, disk (still m0) (still m0) raw)).
  { apply spec_lift. intros w Hw. destruct (validate_message_indexes 0 ms) as [[]|e] eqn:Hv; [done|]. apply Hun; [|done]. by intros []. }
  intros [].
  eapply spec_bind; [apply (spec_self q raw (λ m w, still m0 m ∧ disk (still m0) (still m0) raw w)); intros w Hw; split; [apply Hw|done]|].
  intros m. apply spec_pure. intros Hm. cbv zeta. rewrite (st_count _ _ _ Hm).
  destruct (Nat.ltb_spec (length ms) (sm_message_count m0)) as [Hlt|Hle].
  { apply spec_fail. intros w Hw. apply Hun; [|done]. intros [_ [? _]]. lia. }
  eapply (spec_bind _ _ _ _ (λ _, disk (still m0) (still m0) raw)).
  { apply spec_lift. intros w Hw. destruct (validate_resume_metadata_bounds m (length ms)) as [[]|e] eqn:Hv; [done|].
    apply Hun; [|done]. intros [_ Hr%(still_resumable _ _ _ Hm)%bounds_ok]. congruence. }
  intros []. destruct (Nat.ltb_spec (sm_message_count m0) (length ms)) as [Hlt|Hge].
  - eapply spec_bind; [apply (spec_sio _ _ (still m0) (still m0)); intros w Hq Hw; by apply unless_io, (io_failed_at _ _ (still m0))|intros []].
    unfold commit_metadata. eapply spec_weaken; [apply (spec_touch q (still m0) (still m0) (loaded (length ms) m0) raw)|done|done|intros; by apply unless_io].
    intros m' now Hm'. split; [|lia]. eapply settled_trans; [exact Hm'|]. eapply settled_trans; [|by apply settled_norm_to]. by split.
  - apply spec_ret. intros w. apply disk_weaken; [|done]. intros m' Hm'. assert (sm_message_count m0 = length ms) as <- by lia. by split.
Qed.

Lemma spec_read_messages q I J raw ms : transcript raw ms →
  spec q (disk I J raw) (read_messages_file parse) (λ ms' w, ms' = ms ∧ disk I J raw w) (λ _ w, q = false ∧ disk I J raw w).
Proof.
  intros Ht. eapply spec_bind; [by apply spec_sio|intros []].
  eapply (spec_bind _ _ _ _ (λ o w, o = Some raw ∧ disk I J raw w)); [apply spec_gets; intros w Hw; split; [apply Hw|done]|].
  intros o. apply spec_pure. intros ->. apply spec_lift. intros w Hw. cbv zeta.
  change (negb (bool_decide (raw = [])) && negb (ends_with_feed raw)) with (unterminated raw). by rewrite (transcript_read _ _ Ht).
Qed.

(** What an opened session needs in order to be opened once more. *)
Definition ready (agent_id : AgentId) (ms : list SessionMessage) (m : SessionMetadata) : Prop :=
  sm_agent_id m = agent_id ∧ validate_message_indexes 0 ms = Ok tt ∧ resumable (length ms) m ∧ cursors_set m.

Lemma spec_load q a raw ms m0 : transcript raw ms →
  spec q (disk (eq m0) anything raw) (load_existing_session parse from_str a) (λ _, disk (loaded (length ms) m0) anything raw)
    (unless q raw m0 (ready a ms m0)).
Proof.
  intros Ht.
  assert (Hm0 : still m0 m0) by apply settled_refl.
  assert (Hun : ∀ (φ : Prop) e w, (q = true → ¬ φ) → disk (eq m0) anything raw w → unless q raw m0 φ e w).
  { intros φ e w Hφ Hw. split; [|done]. eapply disk_weaken, Hw; [by intros m <-|done]. }
  eapply spec_bind; [apply spec_read_yaml; intros e w Hq; apply Hun; congruence|].
  intros y. cbv beta zeta. apply spec_pure. intros Hy. rewrite <-Hy. case_bool_decide as Ha; cbn [negb].
  2: { apply spec_fail. intros w. apply Hun. by intros _ []. }
  eapply (spec_bind _ _ _ _ (λ _, disk (still m0) (still m0) raw)).
  { eapply spec_weaken; [apply (spec_set_self q raw (eq m0) anything (still m0) m0); exact Hm0|done| |intros e w H; exact H]. intros [] w. apply (disk_weaken (eq m0) (still m0) (still m0) (still m0)); [by intros m <-|done]. }
  intros []. eapply spec_bind; [eapply spec_weaken; [apply spec_hydrate|done|by intros ??|intros e w; apply unless_io]|intros []].
  eapply spec_bind; [eapply spec_weaken; [apply spec_initialize|done|by intros ??|]|intros []].
  { intros e w [Hw Hq]. split; [done|]. intros Ht' (_ & _ & _ & H). by apply Hq. }
  eapply spec_bind; [eapply spec_weaken; [by apply (spec_read_messages q (still m0) (still m0) raw ms)|done|intros ? ? H; exact H|]|].
  { intros e w [Hq Hw]. apply unless_io. by eapply io_failed_at. }
  intros ms'. apply spec_pure. intros ->.
  eapply spec_weaken; [apply spec_reconcile|done|by intros ??|].
  intros e w [Hw Hq]. split; [done|]. intros Ht' (_ & H1 & H2 & _). by apply Hq.
Qed.

(** The metadata after an operation that opens a session, which may go on to
    mark it open. *)
Definition opened_from (b : bool) (n : nat) (m0 m : SessionMetadata) : Prop :=
  loaded n m0 m ∨ b = true ∧ ∃ x now, loaded n m0 x ∧ sm_status x ≠ Finalizing ∧ m = norm (opened now x).

Definition maybe_opened (b : bool) (n : nat) (m0 m : SessionMetadata) : Prop := still m0 m ∨ opened_from b n m0 m.

Lemma spec_loaded a b raw ms m0 : transcript raw ms →
  spec false (disk (eq m0) anything raw) (load_existing_session parse from_str a) (λ _, disk (loaded (length ms) m0) anything raw)
    (λ _, disk (maybe_opened b (length ms) m0) anything raw).
Proof.
  intros Ht. eapply spec_weaken; [by apply (spec_load false)|done|done|].
  intros e w [Hw _]. eapply disk_weaken, Hw; [|done]. by left.
Qed.

Lemma spec_marked raw n m0 now J : spec false (disk (loaded n m0) J raw) (mark_open now)
  (λ _, disk (opened_from true n m0) anything raw) (λ _, disk (maybe_opened true n m0) anything raw).
Proof.
  eapply spec_weaken; [apply (spec_mark_open false (loaded n m0) J (opened_from true n m0))|done|done|].
  - intros m Hm Hs. right. eauto 6.
  - intros e w. apply disk_weaken; [|done]. intros m Hm. by right; left.
Qed.

Lemma spec_clock q I J raw E : spec q (disk I J raw) utc_now (λ _, disk I J raw) E.
Proof. intros w r w' Hq Hw [= <- <-]. done. Qed.

Lemma spec_last_text I J raw ms : transcript raw ms →
  spec false (disk I J raw) (resumable_last_user_text parse from_str json_text canonical_user_content_hash)
    (λ _, disk I J raw) (λ _, disk I J raw).
Proof.
  intros Ht. eapply spec_bind; [eapply spec_weaken; [by apply (spec_read_messages false I J raw ms)|done|intros ? ? H; exact H|by intros e w []]|].
  intros ms'. apply spec_pure. intros ->. destruct (extract_last_user_text json_text ms); [by apply spec_ret|].
  eapply (spec_bind _ _ _ _ (λ _, disk I J raw)); [|intros read; by apply spec_ret].
  eapply spec_bind; [apply spec_fault|]. intros f. simpl. eapply (spec_bind _ _ _ _ (λ _, disk I J raw)).
  - apply spec_gets. by intros w [].
  - intros bytes. by apply spec_ret.
Qed.

Lemma spec_open_existing a b raw ms m0 : transcript raw ms →
  spec false (disk (eq m0) anything raw) (open_existing_session parse from_str a) (λ _, disk (loaded (length ms) m0) anything raw)
    (λ _, disk (maybe_opened b (length ms) m0) anything raw).
Proof.
  intros Ht. eapply spec_bind; [by apply spec_loaded|intros []].
  eapply (spec_bind _ _ _ _ (λ _, disk (loaded (length ms) m0) anything raw)); [by apply spec_gets|].
  intros m. case_bool_decide; [by apply spec_ret|]. apply spec_fail. intros w. apply disk_weaken; [|done]. by right; left.
Qed.

Lemma spec_resume lease a b raw ms m0 : transcript raw ms →
  spec false (disk (eq m0) anything raw)
    (resume_runtime_session_inner parse from_str json_text canonical_user_content_hash lease a b)
    (λ _, disk (opened_from b (length ms) m0) anything raw) (λ _, disk (maybe_opened b (length ms) m0) anything raw).
Proof.
  intros Ht. set (n := length ms).
  assert (Hsame : ∀ w, disk (eq m0) anything raw w → disk (maybe_opened b n m0) anything raw w).
  { intros w. apply disk_weaken; [|done]. intros m <-. left. apply settled_refl. }
  assert (Hload : ∀ J w, disk (loaded n m0) J raw w → disk (maybe_opened b n m0) anything raw w).
  { intros J w. apply disk_weaken; [|done]. by right; left. }
  assert (Hdone : ∀ J w, disk (loaded n m0) J raw w → disk (opened_from b n m0) anything raw w).
  { intros J w. apply disk_weaken; [|done]. by left. }
  unfold resume_runtime_session_inner.
  do 2 (eapply spec_bind; [apply (spec_sio false _ (eq m0) anything raw); auto|intros []]).
  destruct lease; cbn [negb]; [|by apply spec_fail].
  eapply spec_bind; [apply spec_read_yaml; auto|]. intros y. cbv beta zeta. apply spec_pure. intros Hy. rewrite <-Hy.
  case_bool_decide as Ha; cbn [negb]; [|by apply spec_fail].
  eapply (spec_bind _ _ _ _ (λ _, disk (loaded n m0) anything raw)).
  { case_bool_decide as Hs; [|by apply spec_loaded].
    eapply (spec_bind _ _ _ _ (λ _, disk (still m0) (still m0) raw)).
    { eapply spec_weaken; [apply (spec_set_self false raw (eq m0) anything (still m0) m0), settled_refl|done| |intros e w H; exact H].
      intros [] w. apply disk_weaken; [|done]. intros m <-. apply settled_refl. }
    intros []. eapply spec_bind; [eapply spec_weaken; [by apply (spec_read_messages false (still m0) (still m0) raw ms)|done|intros ? ? H; exact H|]|].
    { intros e w [_ Hw]. eapply disk_weaken, Hw; [|done]. by left. }
    intros ms'. apply spec_pure. intros ->. eapply spec_weaken; [apply spec_reconcile|done|done|].
    intros e w [Hw _]. eapply disk_weaken, Hw; [|done]. by left. }
  intros []. eapply spec_bind; [eapply spec_weaken; [by apply (spec_last_text (loaded n m0) anything raw ms)|done|intros ? ? H; exact H|intros e w; by apply Hload]|].
  intros [t|]; [|apply spec_fail; by apply Hload].
  eapply (spec_bind _ _ _ _ (λ _, disk (loaded n m0) anything raw)); [by apply spec_gets|]. intros m. cbv zeta.
  destruct (sm_status m); [| |].
  - case_match; [apply spec_ret|apply spec_fail]; eauto.
  - case_match; [apply spec_ret|apply spec_fail]; eauto.
  - eapply (spec_bind _ _ _ _ (λ _, disk (opened_from b n m0) anything raw)); [|intros _; by apply spec_ret].
    destruct b; [|apply spec_ret; eauto]. eapply spec_bind; [apply spec_clock|]. intros now. apply spec_marked.
Qed.

Definition may_open (op : SessionOp) : bool := match op with op_reopen _ | op_resume _ _ true => true | _ => false end.

Lemma spec_open op raw ms m0 : is_open op = true → transcript raw ms →
  spec false (disk (eq m0) anything raw) (run op) (λ _, disk (opened_from (may_open op) (length ms) m0) anything raw)
    (λ _, disk (maybe_opened (may_open op) (length ms) m0) anything raw).
Proof.
  intros Ho Ht.
  assert (Hdone : ∀ w, disk (loaded (length ms) m0) anything raw w → disk (opened_from (may_open op) (length ms) m0) anything raw w).
  { intros w. apply disk_weaken; [|done]. by left. }
  destruct op; try discriminate Ho; cbn [exec].
  - eapply spec_weaken; [by apply (spec_loaded _ false)|done|intros []; apply Hdone|done].
  - eapply spec_weaken; [by apply (spec_open_existing _ false)|done|intros []; apply Hdone|done].
  - eapply spec_bind; [apply (spec_sio false _ (eq m0) anything raw)|intros []].
    { intros w _. apply disk_weaken; [|done]. intros m <-. left. apply settled_refl. }
    eapply spec_bind; [by apply (spec_open_existing _ true)|intros []].
    eapply spec_bind; [apply spec_clock|]. intros now. apply spec_marked.
  - eapply (spec_bind _ _ _ _ (λ _, disk (opened_from open_closed (length ms) m0) anything raw)); [eapply spec_weaken; [by apply spec_resume|done|done|by destruct open_closed]|].
    intros _. apply spec_ret. by destruct open_closed.
Qed.

(** ** The invariant of a history *)

Record sound (agent_id : AgentId) (n : nat) (trust : bool) (m : SessionMetadata) : Prop := {
  sd_agent : sm_agent_id m = agent_id;
  sd_resumable : resumable n m;
  sd_count : trust = true → sm_message_count m = n;
  sd_cursors : cursors_set m;
  sd_closed : sm_status m = Closed ↔ sm_closed_at m ≠ None;
  sd_finalized : sm_finalized_at m ≠ None → sm_status m = Closed;
}.

Definition indexed (ms : list SessionMessage) : Prop := ∀ i m, ms !! i = Some m → msg_index m = i.

Definition session_at (agent_id : AgentId) (ms : list SessionMessage) (trust : bool) (w : SessionWorld) : Prop :=
  ∃ raw, disk (sound agent_id (length ms) trust) anything raw w ∧ transcript raw ms ∧ indexed ms.

Lemma sound_settled a n n' t m0 m : settled n' m0 m → n' ≤ n → (t = true → n' = n) → sound a n t m0 → sound a n t m.
Proof.
  intros [] Hle Ht [H1 (H2 & H3 & H4) H5 H6 H7 H8]. split; try congruence.
  - unfold resumable. rewrite st_compaction0. split; [lia|]. split; [lia|]. exact H4.
  - intros H. rewrite st_count0. auto.
  - destruct H6. unfold cursor_le in *. split; tauto.
  - by rewrite st_status0, st_finalized0.
Qed.

Lemma sound_still a n t m0 m : still m0 m → sound a n t m0 → sound a n t m.
Proof. intros Hs Hm. eapply sound_settled; [exact Hs| |apply Hm|done]. apply (sd_resumable _ _ _ _ Hm). Qed.

Lemma sound_norm a n t m : sound a n t m → sound a n t (norm m).
Proof. apply sound_still, settled_norm. Qed.

Lemma sound_loaded a n t m0 m : loaded n m0 m → sound a n t m0 → sound a n true m.
Proof.
  intros [Hs Hle] Hm. assert (sound a n false m0) as Hm0 by (destruct Hm; by split).
  pose proof (sound_settled a n n false m0 m Hs (le_n _) ltac:(done) Hm0) as [].
  split; try done. intros _. apply Hs.
Qed.

Lemma sound_opened a n t now m : sm_status m ≠ Finalizing → sound a n t m → sound a n t (opened now m).
Proof. intros Hs []. split; simpl; try done. Qed.

Lemma sound_opened_from a b n t m0 m : opened_from b n m0 m → sound a n t m0 → sound a n true m.
Proof.
  intros [Hl|(_ & x & now & Hl & Hs & ->)] Hm; [by eapply sound_loaded|]. apply sound_norm, sound_opened; [done|]. by eapply sound_loaded.
Qed.

Lemma sound_any a n t m : sound a n true m → sound a n t m.
Proof. intros []. split; auto. Qed.

Lemma sound_change a n t op m x : within op m → change op m x → sound a n t m → sound a n t x.
Proof.
  intros Hw Hc [Ha (H1 & H2 & H3) Hn [Hcp Hcr] Hcl Hf].
  assert (resumable n m) as Hres by done.
  destruct op; simpl in *; unfold touched in *; subst; try (by split).
  all: try (destruct Hc as (Hs & Hcn & Hfn & ->); split; simpl; rewrite ?Hcn, ?Hfn; done).
  all: try (destruct Hc as [Hs ->]; by apply sound_opened).
  all: try (destruct Hc as [now ->]).
  all: split; simpl; try done.
  all: try (split; simpl; [done|]; try (split; [lia|done])).
  split; [done|]. intros u [= <-]. rewrite committed_normalized. lia.
Qed.

Lemma sound_changed a n t op m0 m : within op m0 → changed op m0 m → sound a n t m0 → sound a n t m.
Proof. intros Hw [->|(x & Hc & ->)] Hm; [done|]. apply sound_norm. by eapply sound_change. Qed.

Lemma sound_more a n n' m t : n ≤ n' → sound a n t m → sound a n' false m.
Proof.
  intros Hle [Ha (H1 & H2 & H3) Hn Hc Hcl Hf]. split; try done. split; [lia|]. split; [lia|]. intros u Hu%H3. lia.
Qed.

Lemma sound_committed a n t m model now : sm_message_count m ≤ n → sound a n t m → sound a n true (norm (committed n model m |> set_updated_at now)).
Proof.
  intros Hle [Ha (H1 & H2 & H3) Hn Hc Hcl Hf]. apply sound_norm. split; simpl; try done.
Qed.

Lemma indexed_validate_from k ms : (∀ i m, ms !! i = Some m → msg_index m = k + i) → validate_message_indexes k ms = Ok tt.
Proof.
  revert k. induction ms as [|m ms IH]; intros k H; simpl; [done|].
  rewrite (H 0 m eq_refl), Nat.add_0_r. rewrite bool_decide_true by done. apply IH. intros i m' Hi. rewrite (H (S i) m' Hi). lia.
Qed.
Lemma indexed_validate ms : indexed ms → validate_message_indexes 0 ms = Ok tt.
Proof. intros H. apply indexed_validate_from. exact H. Qed.

Lemma stored_messages_lookup n l i m : stored_messages n l !! i = Some m → msg_index m = n + i.
Proof.
  revert n i. induction l as [|x l IH]; intros n [|i]; simpl; intros H; try discriminate H.
  - injection H as <-. simpl. lia.
  - rewrite (IH _ _ H). lia.
Qed.

Lemma indexed_append ms k l : indexed ms → indexed (ms ++ take k (stored_messages (length ms) l)).
Proof.
  intros H i m Hi. apply lookup_app_Some in Hi as [Hi|[Hle Hi]]; [by apply H|].
  apply lookup_take_Some in Hi as [Hi _]. apply stored_messages_lookup in Hi. lia.
Qed.

(** ** The steps of a history *)

Lemma session_at_files a ms t w w' : sw_yaml w' = sw_yaml w → sw_messages w' = sw_messages w →
  session_at a ms t w → session_at a ms t w'.
Proof. intros Hy Hm (raw & (H1 & H2 & _) & H). exists raw. split; [|done]. unfold disk. by rewrite Hy, Hm. Qed.

Lemma session_at_new a ms t w w' m raw : files w' = files (new_files m raw w) → transcript raw ms → indexed ms →
  match m with
  | Some m => sound a (length ms) t (norm m)
  | None => ∃ y, sw_yaml w = Some (Some y) ∧ sound a (length ms) t (decode_metadata y)
  end → session_at a ms t w'.
Proof.
  intros Hf Ht Hi Hs. exists raw. split; [|done]. apply files_yaml in Hf as Hy. apply files_messages in Hf as Hm.
  unfold new_files in *. split; [by rewrite Hm|]. split; [|done]. rewrite Hy. destruct m as [m|]; simpl; eauto.
Qed.

Lemma append_at a ms l w r w' : session_at a ms true w → append_messages to_string parse l w = (r, w') →
  ∃ extra, session_at a (ms ++ extra) (match r with Ok _ => true | Err e => negb (in_doubt e) end) w' ∧
    (r = Ok tt → extra = stored_messages (length ms) l) ∧
    ∀ n model e, r = Err (MessagesCommittedMetadataUpdateFailed n model e) →
      n = length (ms ++ extra) ∧ extra = stored_messages (length ms) l.
Proof.
  intros (raw & (Hm & (y & Hy & Hs) & _) & Ht & Hi) H. set (m := decode_metadata y) in *.
  pose proof (sd_count _ _ _ _ Hs eq_refl) as Hn.
  assert (Hsame : session_at a ms true w) by (exists raw; split; [by split; [|split; [eauto|]]|done]).
  destruct (append_messages_cases l w r w' y raw ms Hy Hm Ht H) as [(-> & -> & ->)|(new & raw' & ms' & Ha & Ht' & Hf)].
  { exists []. rewrite app_nil_r. split; [done|]. split; [done|]. intros; discriminate. }
  fold m in Ha. destruct Ha as [e He|k0 k Ho|model e Ho|model now Ho Hc].
  - exists []. rewrite app_nil_r. split; [|split; [done|intros n model e' [= ->]; discriminate He]].
    rewrite He. apply (session_at_new _ _ _ _ _ _ _ Hf Ht' Hi). eauto.
  - rewrite Hn in *. exists (take k (stored_messages (length ms) l)). split; [|split; [done|by intros ? ? ? [=]]].
    apply (session_at_new _ _ _ _ _ _ _ Hf Ht'); [by apply indexed_append|]. exists y. split; [done|].
    eapply sound_more; [|exact Hs]. rewrite length_app. lia.
  - rewrite Hn in *. exists (stored_messages (length ms) l). split.
    + apply (session_at_new _ _ _ _ _ _ _ Hf Ht').
      * rewrite <-(firstn_all (stored_messages _ _)). by apply indexed_append.
      * exists y. split; [done|]. eapply sound_more; [|exact Hs]. rewrite length_app. lia.
    + split; [done|]. intros n model' e' [= <- _ _]. by rewrite length_app, stored_messages_length.
  - rewrite Hn in *. exists (stored_messages (length ms) l). split; [|split; [done|by intros ? ? ? [=]]].
    apply (session_at_new _ _ _ _ _ _ _ Hf Ht').
    + rewrite <-(firstn_all (stored_messages _ _)). by apply indexed_append.
    + rewrite length_app, stored_messages_length. apply sound_committed with (t := false); [fold m; lia|].
      eapply sound_more; [|exact Hs]. lia.
Qed.

Lemma turn_messages_err messages model e : turn_messages messages model = Err e → ∃ role, e = SessionUnknownRole role.
Proof.
  revert e. induction messages as [|c messages IH]; intros e H; simpl in H; [discriminate H|].
  destruct (SessionMessageRole_try_from _); simpl in H; [|injection H as <-; eauto].
  destruct (turn_messages messages model) as [?|e2]; simpl in H; [discriminate H|]. injection H as <-. by apply IH.
Qed.

Lemma commit_at a ms messages model w r w' : session_at a ms true w → commit_turn to_string parse messages model w = (r, w') →
  ∃ extra, session_at a (ms ++ extra) (match r with Ok _ => true | Err e => negb (in_doubt e) end) w' ∧
    (r = Ok tt → extra = stored_messages (length ms) (appended (op_commit messages model))).
Proof.
  intros Hat H. unfold commit_turn in H. rewrite m_try_bind in H.
  destruct (append_session_turn_messages _ _ _ _ w) as [r1 w1] eqn:E. unfold append_session_turn_messages in E. simpl.
  apply bind_cases in E as [(next & w2 & E & H1)|(e & E & ->)]; injection E as Hnext <-.
  2: { destruct (turn_messages_err _ _ _ Hnext) as [role ->]. injection H as <- <-. exists []. by rewrite app_nil_r. }
  rewrite Hnext. destruct (append_at a ms next w r1 w1 Hat H1) as (extra & Hs & Hok & Hdoubt). exists extra.
  destruct r1 as [[]|e]; [injection H as <- <-; by split; [|intros _; apply Hok]|].
  assert (Hother : (r, w') = (Err e, w1) → session_at a (ms ++ extra) (match r with Ok _ => true | Err e => negb (in_doubt e) end) w' ∧
    (r = Ok tt → extra = stored_messages (length ms) next)) by (intros [= -> ->]; done).
  destruct e; try (by apply Hother).
  destruct (Hdoubt _ _ _ eq_refl) as [-> ->]. clear Hother Hok Hdoubt. simpl in Hs.
  destruct Hs as (raw & Hd & Ht & Hi). rewrite m_try_bind in H.
  destruct (repair_committed_message_metadata _ _ w1) as [r2 w2] eqn:E.
  set (ms' := ms ++ stored_messages (length ms) next) in *.
  assert (Hspec : spec false (disk (sound a (length ms') false) anything raw) (repair_committed_message_metadata (length ms') model0)
    (λ _, disk (sound a (length ms') true) anything raw) (λ _, disk (sound a (length ms') false) anything raw)).
  { eapply spec_bind; [by apply spec_sio|intros []].
    eapply spec_weaken; [apply (spec_touch false (sound a (length ms') false) anything (sound a (length ms') true) raw)|done|done|by intros e' w0 []].
    intros m now Hm. apply sound_committed with (t := false); [apply (sd_resumable _ _ _ _ Hm)|done]. }
  destruct (Hspec w1 r2 w2 ltac:(done) Hd E) as [_ Hr].
  destruct r2 as [[]|e1]; injection H as <- <-; (split; [|done]); by exists raw.
Qed.

Lemma step_at a ms t op w r w' : session_at a ms t w → (is_append op = true → t = true) →
  (∀ m, metadata_on_disk w = Some m → within op m) → run op w = (r, w') →
  ∃ extra, session_at a (ms ++ extra) (trusted op r t) w' ∧ (r = Ok tt → extra = stored_messages (length ms) (appended op)).
Proof.
  intros Hat Htrust Hwithin H. destruct (is_append op) eqn:Ha.
  { specialize (Htrust eq_refl). subst t.
    assert (∃ extra, session_at a (ms ++ extra) (match r with Ok _ => true | Err e => negb (in_doubt e) end) w' ∧
      (r = Ok tt → extra = stored_messages (length ms) (appended op))) as (extra & Hs & Hok).
    { destruct op; try discriminate Ha; cbn [exec] in H; [|by eapply commit_at].
      destruct (append_at _ _ _ _ _ _ Hat H) as (extra & Hs & Hok & _). by exists extra. }
    exists extra. split; [|done]. unfold trusted. destruct op, r; done. }
  destruct Hat as (raw & (Hm & (y & Hy & Hs) & _) & Ht & Hi). set (m := decode_metadata y) in *.
  assert (Hd : disk (eq m) anything raw w) by (split; [done|]; split; eauto).
  assert (Happ : appended op = []) by (by destruct op).
  exists []. rewrite app_nil_r, Happ. split; [|done]. exists raw. split; [|done].
  destruct (is_open op) eqn:Ho.
  - destruct (spec_open op raw ms m Ho Ht w r w' ltac:(done) Hd H) as [_ Hr].
    assert (Hsound : ∀ m', opened_from (may_open op) (length ms) m m' → sound a (length ms) true m') by (intros m' Hf; by eapply sound_opened_from).
    destruct r as [[]|e]; unfold trusted; rewrite ?Ho, ?orb_true_r; (eapply disk_weaken, Hr; [|done]); [done|].
    assert (negb (in_doubt e) && t = t ∨ t && negb (in_doubt e) = false) as Hcase by (destruct (in_doubt e), t; auto).
    intros m' [Hst|Hf].
    + apply (sound_still _ _ _ _ _ Hst). destruct Hs. split; auto. intros [? _]%andb_prop; auto.
    + apply sound_any. auto.
  - destruct (spec_op op raw m Ha Ho w r w' ltac:(done) Hd H) as [_ Hr].
    assert (Hw : within op m) by (apply Hwithin; unfold metadata_on_disk; by rewrite Hy).
    destruct r as [[]|e]; unfold trusted; rewrite ?Ho, ?orb_false_r; (eapply disk_weaken, Hr; [|done]).
    + intros m' Hc. by eapply sound_changed.
    + intros m' <-. destruct Hs. split; auto. intros [? _]%andb_prop; auto.
Qed.

(** ** Histories *)

Definition unstored (m : SessionMessage) : NewSessionMessage :=
  {| nm_role := msg_role m; nm_content := msg_content m; nm_created_at := msg_created_at m; nm_model := msg_model m;
     nm_provider_replay := msg_provider_replay m |}.

Lemma unstored_stored n l : unstored <$> stored_messages n l = l.
Proof. revert n. induction l as [|[] l IH]; intros n; simpl; [done|]. by rewrite IH. Qed.

Lemma created_at id a source model w w' : create_files id a source model w = (Ok tt, w') → session_at a [] true w'.
Proof.
  intros H. unfold create_files in H. apply bind_ok in H as (now & w1 & [= <- <-] & H).
  apply bind_ok in H as ([] & w2 & [= <-] & H). apply bind_ok in H as ([] & w3 & Hw & H).
  apply write_metadata_cases in Hw as [[_ Hf]|[[=] _]].
  apply bind_ok in H as ([] & w4 & Hio & H). apply sio_cases in Hio as (Hf4 & _).
  apply bind_ok in H as ([] & w5 & Hm & H). apply bind_ok in Hm as ([] & w6 & Hio & [= <-]). apply sio_cases in Hio as (Hf6 & _).
  apply bind_ok in H as ([] & w7 & Ht & H). apply bind_ok in Ht as ([] & w8 & Hio & [= <-]). apply sio_cases in Hio as (Hf8 & _).
  apply sio_cases in H as (Hf9 & _). exists [].
  assert (files w4 = files (put_meta (new_metadata id a source model (sw_clock w (sw_ticks w))) (put_self (new_metadata id a source model (sw_clock w (sw_ticks w))) (put_ticks (S (sw_ticks w)) w)))) as Hf' by (rewrite Hf4; exact Hf).
  pose proof (files_yaml _ _ Hf9) as Hy. pose proof (files_messages _ _ Hf9) as Hms. simpl in Hy, Hms.
  rewrite (files_yaml _ _ Hf8) in Hy. rewrite (files_messages _ _ Hf8) in Hms. simpl in Hy, Hms.
  rewrite (files_yaml _ _ Hf6), (files_yaml _ _ Hf') in Hy. simpl in Hy.
  split; [|split; [left; apply rows_blank, rows_nil|by intros i m Hi]]. split; [done|]. split; [|done].
  eexists. split; [exact Hy|]. apply (sound_norm _ _ _ (new_metadata id a source model (sw_clock w (sw_ticks w)))).
  by split.
Qed.

(** An id that is found is new. *)
Lemma create_attempts_ok existing id_factory lease a source model id w' : ∀ attempts attempt last_id w,
  create_attempts existing id_factory lease a source model attempts attempt last_id w = (Ok id, w') →
  id ∉ existing ∧ ∃ w1, create_files id a source model w1 = (Ok tt, w').
Proof.
  induction attempts as [|attempts IH]; intros attempt last_id w H; [discriminate H|]. simpl in H.
  apply bind_ok in H as ([] & w1 & _ & H). case_bool_decide as Hin; [by eapply IH|].
  apply bind_ok in H as ([] & w2 & _ & H). apply bind_ok in H as ([] & w3 & Hc & [= <- <-]). eauto.
Qed.

Abbreviation history := (session_history to_string parse from_str json_text canonical_user_content_hash).

Lemma history_at a w trust acked : history a w trust acked →
  ∃ ms, session_at a ms trust w ∧ acked `sublist_of` (unstored <$> ms).
Proof.
  induction 1 as [existing id_factory lease source model max_attempts id w w' H|op m faults w trust acked r w' _ (ms & Hat & Hsub) Htrust Hwithin H].
  - exists []. split; [|done]. unfold create_with_metadata_id_factory_inner in H. case_bool_decide; [discriminate H|].
    apply bind_ok in H as ([] & w1 & _ & H). apply create_attempts_ok in H as (_ & w2 & H). by eapply created_at.
  - assert (Hat' : session_at a ms trust (put_session_faults faults (put_self m w))) by (by eapply session_at_files, Hat).
    destruct (step_at a ms trust op _ r w' Hat' Htrust Hwithin H) as (extra & Hs & Hok). exists (ms ++ extra). split; [done|].
    rewrite fmap_app. destruct r as [[]|e].
    + rewrite (Hok eq_refl), unstored_stored. by apply sublist_app.
    + rewrite app_nil_r. by apply sublist_inserts_r.
Qed.

Lemma session_read a ms t w : session_at a ms t w → read_messages parse (put_session_faults [] w) = (Ok ms, put_session_faults [] w).
Proof.
  intros (raw & (Hm & _) & Ht & _). unfold read_messages, read_messages_file, sio, session_fault, mbind, M_bind, gets. simpl.
  rewrite Hm. unfold lift_result. change (negb (bool_decide (raw = [])) && negb (ends_with_feed raw)) with (unterminated raw).
  by rewrite (transcript_read _ _ Ht).
Qed.

Lemma session_loads a ms t w : session_at a ms t w → ∃ w', load_existing_session parse from_str a (put_session_faults [] w) = (Ok tt, w') ∧
  session_at a ms true w' ∧ sw_faults w' = [].
Proof.
  intros (raw & (Hm & (y & Hy & Hs) & _) & Ht & Hi). destruct (load_existing_session _ _ _ _) as [r w'] eqn:E.
  destruct (spec_load true a raw ms (decode_metadata y) Ht (put_session_faults [] w) r w' ltac:(done) ltac:(split; [exact Hm|]; split; [by exists y|done]) E) as [Hq Hr].
  destruct r as [[]|e].
  - exists w'. split; [done|]. split; [|by apply Hq]. exists raw. split; [|done]. eapply disk_weaken, Hr; [|done].
    intros m' Hl. by eapply sound_loaded.
  - exfalso. destruct Hr as [_ Hn]. apply (Hn eq_refl). split; [apply Hs|]. split; [by apply indexed_validate|]. split; apply Hs.
Qed.
(** ** How the metadata evolve *)

Definition may_become (op : SessionOp) (s s' : SessionStatus) : bool :=
  match s, s' with
  | Open, Open | Finalizing, Finalizing | Closed, Closed => true
  | Open, Finalizing => match op with op_finalizing _ => true | _ => false end
  | Finalizing, Open => match op with op_takeover _ => true | _ => false end
  | Closed, Finalizing => false
  | Closed, Open => match op with op_open _ | op_reopen _ | op_resume _ _ true => true | _ => false end
  | Open, Closed | Finalizing, Closed =>
      match op with op_finalized _ | op_recap_finalized _ _ | op_recap_cursor_finalized _ _ _ | op_closed _ => true | _ => false end
  end.

Record evolves (op : SessionOp) (m m' : SessionMetadata) : Prop := {
  ev_id : sm_id m' = sm_id m;
  ev_agent : sm_agent_id m' = sm_agent_id m;
  ev_created : sm_created_at m' = sm_created_at m;
  ev_count : sm_message_count m ≤ sm_message_count m';
  ev_recapped : sm_recapped_until m ≤ sm_recapped_until m';
  ev_provider : cursor_le (sm_provider_background_completion_until_seq m) (sm_provider_background_completion_until_seq m');
  ev_recap : cursor_le (sm_recap_background_completion_until_seq m) (sm_recap_background_completion_until_seq m');
  ev_status : may_become op (sm_status m) (sm_status m') = true;
  ev_messages : sm_message_count m' ≠ sm_message_count m → is_open op = true ∨ is_append op = true ∧ sm_status m = Open;
}.

Lemma may_stay op s : may_become op s s = true.
Proof. by destruct s. Qed.

Lemma cursor_le_refl c : cursor_le c c.
Proof. split; [lia|done]. Qed.

Lemma evolves_settled op n m m' : settled n m m' → sm_message_count m ≤ n → (n ≠ sm_message_count m → is_open op = true) → evolves op m m'.
Proof.
  intros [] Hle Hn. split; try done; [lia..| |]; [rewrite st_status0; apply may_stay|].
  rewrite st_count0. auto.
Qed.

Lemma evolves_still op m m' : still m m' → evolves op m m'.
Proof. intros H. by eapply evolves_settled. Qed.

(** [norm] is invisible to [evolves]. *)
Lemma evolves_norm op m x : evolves op m x → evolves op m (norm x).
Proof. intros []. by split. Qed.

Lemma max_cursor_le seq c : cursor_le c (max_cursor seq c).
Proof. unfold max_cursor. split; simpl; [lia|done]. Qed.

Lemma evolves_change op m x : is_append op = false → is_open op = false → change op m x → evolves op m x.
Proof.
  intros Ha Ho Hc. destruct op; try discriminate; simpl in Hc; unfold touched in Hc; subst.
  all: try (apply evolves_still, settled_refl).
  all: try (destruct Hc as (Hs & _ & _ & ->)).
  all: try (destruct Hc as [Hs ->]).
  all: try (destruct Hc as [now ->]).
  all: split; simpl; try (apply cursor_le_refl || apply max_cursor_le); try done; try lia; rewrite ?Hs; try apply may_stay.
  all: by destruct (sm_status m).
Qed.

Lemma evolves_opened op n m m' : is_open op = true → opened_from (may_open op) n m m' → evolves op m m'.
Proof.
  intros Ho [[Hs Hle]|(Hb & x & now & [Hs Hle] & Hst & ->)]; [by eapply evolves_settled|].
  apply evolves_norm. destruct (evolves_settled op n m x Hs Hle ltac:(done)). split; try done. simpl.
  rewrite (st_status _ _ _ Hs) in Hst. destruct op; try discriminate; [|destruct open_closed; [|discriminate]]; by destruct (sm_status m).
Qed.

(** The metadata after an append: as before, or with more messages. *)
Definition grown (m m' : SessionMetadata) : Prop :=
  m' = m ∨ sm_status m = Open ∧ ∃ n model now, sm_message_count m ≤ n ∧ m' = norm (committed n model m |> set_updated_at now).

Lemma evolves_grown op m m' : is_append op = true → grown m m' → evolves op m m'.
Proof.
  intros Ha [->|(Ho & n & model & now & Hle & ->)]; [apply evolves_still, settled_refl|].
  apply evolves_norm. split; simpl; try done; try apply cursor_le_refl; [apply may_stay|]. intros _. by right.
Qed.

Lemma append_grown l w r w' y raw ms : sw_yaml w = Some (Some y) → sw_messages w = Some raw → transcript raw ms →
  append_messages to_string parse l w = (r, w') →
  ∃ m', metadata_on_disk w' = Some m' ∧ grown (decode_metadata y) m' ∧ is_Some (sw_messages w') ∧
    ∀ n model e, r = Err (MessagesCommittedMetadataUpdateFailed n model e) →
      sw_yaml w' = Some (Some y) ∧ sm_status (decode_metadata y) = Open ∧ sm_message_count (decode_metadata y) ≤ n.
Proof.
  intros Hy Hm Ht H. unfold metadata_on_disk.
  destruct (append_messages_cases l w r w' y raw ms Hy Hm Ht H) as [(_ & -> & ->)|(new & raw' & ms' & Ha & _ & Hf)].
  { exists (decode_metadata y). rewrite Hy, Hm. split; [done|]. split; [by left|]. split; [eauto|]. intros; discriminate. }
  apply files_yaml in Hf as Hy'. apply files_messages in Hf as Hm'. rewrite Hy', Hm'.
  destruct Ha as [e He|k0 k Ho|model e Ho|model now Ho Hc]; simpl; rewrite ?Hy; simpl; eexists; (split; [done|]).
  - split; [by left|]. split; [eauto|]. intros n model e' [= ->]. discriminate He.
  - split; [by left|]. split; [eauto|]. by intros.
  - split; [by left|]. split; [eauto|]. intros n model' e' [= <- _ _]. split; [done|]. split; [done|lia].
  - split; [|split; [eauto|by intros]]. right. split; [done|]. eexists _, model, now. split; [|reflexivity]. apply Nat.le_add_r.
Qed.

Lemma commit_grown messages model w r w' y raw ms : sw_yaml w = Some (Some y) → sw_messages w = Some raw → transcript raw ms →
  commit_turn to_string parse messages model w = (r, w') → ∃ m', metadata_on_disk w' = Some m' ∧ grown (decode_metadata y) m'.
Proof.
  intros Hy Hm Ht H. unfold commit_turn in H. rewrite m_try_bind in H.
  destruct (append_session_turn_messages _ _ _ _ w) as [r1 w1] eqn:E. unfold append_session_turn_messages in E.
  assert (Hdone : ∀ m', metadata_on_disk w1 = Some m' → grown (decode_metadata y) m' → w' = w1 →
    ∃ m', metadata_on_disk w' = Some m' ∧ grown (decode_metadata y) m') by (intros m' H1 H2 ->; eauto).
  apply bind_cases in E as [(next & w2 & E & H1)|(e & E & ->)]; injection E as Hnext <-.
  2: { destruct (turn_messages_err _ _ _ Hnext) as [role ->]. injection H as _ <-. exists (decode_metadata y).
       unfold metadata_on_disk. rewrite Hy. by split; [|left]. }
  destruct (append_grown next w r1 w1 y raw ms Hy Hm Ht H1) as (m' & Hd & Hg & [raw1 Hm1] & Hdoubt).
  destruct r1 as [[]|e]; [injection H as _ <-; by eapply Hdone|].
  destruct e; try (injection H as _ <-; by eapply Hdone).
  destruct (Hdoubt _ _ _ eq_refl) as (Hy1 & Ho & Hle). rewrite m_try_bind in H.
  destruct (repair_committed_message_metadata _ _ w1) as [r2 w2] eqn:E.
  assert (Hspec : spec false (disk (eq (decode_metadata y)) anything raw1) (repair_committed_message_metadata message_count model0)
    (λ _, disk (grown (decode_metadata y)) anything raw1) (λ _, disk (grown (decode_metadata y)) anything raw1)).
  { eapply spec_bind; [apply (spec_sio false _ (eq (decode_metadata y)) anything raw1)|intros []].
    - intros w0 _. apply disk_weaken; [|done]. intros m <-. by left.
    - eapply spec_weaken; [apply (spec_touch false (eq (decode_metadata y)) anything (grown (decode_metadata y)) raw1)|done|done|].
      + intros m now <-. right. split; [done|]. by eexists _, (Some model0), now.
      + intros e' w0 [_ Hw]. eapply disk_weaken, Hw; [|done]. intros m <-. by left. }
  destruct (Hspec w1 r2 w2 ltac:(done) ltac:(split; [done|]; split; eauto) E) as [_ Hr].
  assert (w' = w2) as -> by (by destruct r2 as [[]|?]; injection H).
  assert (disk (grown (decode_metadata y)) anything raw1 w2) as (_ & (y2 & Hy2 & Hg2) & _) by (by destruct r2).
  exists (decode_metadata y2). unfold metadata_on_disk. by rewrite Hy2.
Qed.

Lemma step_evolves a ms t op w r w' m : session_at a ms t w → metadata_on_disk w = Some m → run op w = (r, w') →
  ∃ m', metadata_on_disk w' = Some m' ∧ evolves op m m'.
Proof.
  intros (raw & (Hm & (y & Hy & Hs) & _) & Ht & Hi) Hmeta H. unfold metadata_on_disk in Hmeta. rewrite Hy in Hmeta.
  simpl in Hmeta. injection Hmeta as <-. set (m := decode_metadata y) in *.
  assert (Hd : disk (eq m) anything raw w) by (split; [done|]; split; eauto).
  assert (Hread : ∀ I, disk I anything raw w' → (∀ m', I m' → evolves op m m') → ∃ m', metadata_on_disk w' = Some m' ∧ evolves op m m').
  { intros I (_ & (y' & Hy' & HI) & _) Hev. exists (decode_metadata y'). unfold metadata_on_disk. rewrite Hy'. auto. }
  destruct (is_append op) eqn:Ha.
  - assert (∃ m', metadata_on_disk w' = Some m' ∧ grown m m') as (m' & H1 & H2).
    { destruct op; try discriminate Ha; cbn [exec] in H.
      - destruct (append_grown _ _ _ _ _ _ _ Hy Hm Ht H) as (m' & H1 & H2 & _). by exists m'.
      - by eapply commit_grown. }
    exists m'. split; [done|]. by apply evolves_grown.
  - destruct (is_open op) eqn:Ho.
    + destruct (spec_open op raw ms m Ho Ht w r w' ltac:(done) Hd H) as [_ Hr]. destruct r as [[]|e]; apply (Hread _ Hr).
      * intros m' Hf. by eapply evolves_opened.
      * intros m' [Hst|Hf]; [by apply evolves_still|by eapply evolves_opened].
    + destruct (spec_op op raw m Ha Ho w r w' ltac:(done) Hd H) as [_ Hr]. destruct r as [[]|e]; apply (Hread _ Hr).
      * intros m' [->|(x & Hc & ->)]; [apply evolves_still, settled_refl|]. by apply evolves_norm, evolves_change.
      * intros m' <-. apply evolves_still, settled_refl.
Qed.
End operations.
End transcript.

Lemma not_found_cases w r w' : not_found_is_none (read_file sw_yaml) w = (r, w') → files w' = files w.
Proof.
  unfold not_found_is_none. rewrite m_try_bind. destruct (read_file sw_yaml w) as [r1 w1] eqn:E. intros H.
  assert (files w1 = files w) as Hf.
  { unfold read_file in E. apply bind_cases in E as [([] & w2 & Hio & E)|(e & Hio & _)]; apply sio_cases in Hio as (Hio & _ & _); [|done].
    unfold mbind, M_bind, gets in E. by destruct (sw_yaml w2) as [[?|]|]; injection E as _ <-. }
  assert (w' = w1) as ->; [|done].
  destruct r1 as [y|e]; [by injection H|]. destruct e; try (by injection H). destruct e; by injection H.
Qed.

Lemma read_messages_cases to_string parse w r w' raw ms : message_codec to_string parse → transcript to_string raw ms →
  sw_messages w = Some raw → read_messages parse w = (r, w') → files w' = files w ∧ ∀ ms', r = Ok ms' → ms' = ms.
Proof.
  intros Hc Ht Hm H. unfold read_messages, read_messages_file in H.
  apply bind_cases in H as [([] & w2 & Hio & H)|(e & Hio & ->)]; apply sio_cases in Hio as (Hio & _ & _); [|done].
  unfold mbind, M_bind, gets in H. rewrite (files_messages _ _ Hio), Hm in H. unfold lift_result in H.
  change (negb (bool_decide (raw = [])) && negb (ends_with_feed raw)) with (unterminated raw) in H.
  rewrite (transcript_read _ _ Hc _ _ Ht) in H. injection H as <- <-. split; [done|]. by intros ? [= <-].
Qed.

(** ** The guarantees *)

Section guarantees.
Context (to_string : SessionMessage → option (list Z)) (parse : list Z → option SessionMessage).
Context (from_str : Text → option TurnJournalEvent) (json_text : string → option string)
  (canonical_user_content_hash : list SessionContentBlock → option string).
Context (Hcodec : message_codec to_string parse).

Abbreviation history := (session_history to_string parse from_str json_text canonical_user_content_hash).

(** C13. Whatever calls fail, at whatever byte a write is cut and wherever a
    crash stops an operation: the transcript of a session can be read, its
    messages are numbered from zero without gap or repetition, and every
    message that was acknowledged is there, in order. *)
Theorem acknowledged_messages_kept agent_id w trust acked : history agent_id w trust acked →
  ∃ ms, fst (read_messages parse (put_session_faults [] w)) = Ok ms ∧ indexed ms ∧ acked `sublist_of` (unstored <$> ms).
Proof using Hcodec.
  intros (ms & Hat & Hsub)%(history_at _ _ Hcodec). exists ms. rewrite (session_read _ _ Hcodec _ _ _ _ Hat).
  destruct Hat as (raw & _ & _ & Hi). done.
Qed.

(** C14. A session can always be opened again: without a fault the loading
    succeeds whatever happened before, the transcript is what it was and the
    metadata then count its messages. *)
Theorem session_opens_again agent_id w trust acked : history agent_id w trust acked →
  ∃ ms m w', load_existing_session parse from_str agent_id (put_session_faults [] w) = (Ok tt, w') ∧
    fst (read_messages parse (put_session_faults [] w)) = Ok ms ∧ fst (read_messages parse w') = Ok ms ∧
    metadata_on_disk w' = Some m ∧ sm_message_count m = length ms ∧ sm_recapped_until m ≤ length ms.
Proof using Hcodec.
  intros (ms & Hat & _)%(history_at _ _ Hcodec). destruct (session_loads _ _ Hcodec from_str json_text _ _ _ _ Hat) as (w' & Hl & Hat' & Hq).
  pose proof (session_read _ _ Hcodec _ _ _ _ Hat') as Hr. replace (put_session_faults [] w') with w' in Hr by (destruct w'; simpl in *; by subst).
  destruct Hat' as (raw & (_ & (y & Hy & Hs) & _) & _). exists ms, (decode_metadata y), w'.
  rewrite (session_read _ _ Hcodec _ _ _ _ Hat), Hr. unfold metadata_on_disk. rewrite Hy.
  split; [done|]. split; [done|]. split; [done|]. split; [done|]. split; [by apply Hs|apply (sd_resumable _ _ _ _ Hs)].
Qed.

(** C15. The life of a session: an operation on its files may only advance the
    count of messages, the recapped part and the cursors; a closed session is
    never finalized again before it is opened, a finalizing one goes back to
    open only by a takeover, only an open one gains messages by an append.
    After it the session is closed exactly if it says when, a finalized one is
    closed, and what is recapped is in the transcript. *)
Theorem session_lifecycle agent_id w trust acked op m faults r w' : history agent_id w trust acked →
  (is_append op = true → trust = true) → (∀ m, metadata_on_disk w = Some m → within op m) →
  exec to_string parse from_str json_text canonical_user_content_hash op (put_session_faults faults (put_self m w)) = (r, w') →
  ∃ m m' ms, metadata_on_disk w = Some m ∧ metadata_on_disk w' = Some m' ∧ evolves op m m' ∧
    (sm_status m' = Closed ↔ sm_closed_at m' ≠ None) ∧ (sm_finalized_at m' ≠ None → sm_status m' = Closed) ∧
    fst (read_messages parse (put_session_faults [] w')) = Ok ms ∧ sm_recapped_until m' ≤ length ms ∧ sm_message_count m' ≤ length ms.
Proof using Hcodec.
  intros (ms & Hat & _)%(history_at _ _ Hcodec) Htrust Hwithin H.
  assert (Hat' : session_at to_string agent_id ms trust (put_session_faults faults (put_self m w))) by (by eapply session_at_files, Hat).
  destruct Hat as (raw & (_ & (y & Hy & _) & _) & _).
  assert (Hm : metadata_on_disk w = Some (decode_metadata y)) by (unfold metadata_on_disk; by rewrite Hy).
  destruct (step_evolves _ _ Hcodec from_str json_text canonical_user_content_hash _ _ _ _ _ _ _ _ Hat' Hm H) as (m' & Hm' & Hev).
  destruct (step_at _ _ Hcodec from_str json_text canonical_user_content_hash _ _ _ _ _ _ _ Hat' Htrust Hwithin H) as (extra & Hs & _).
  exists (decode_metadata y), m', (ms ++ extra). rewrite (session_read _ _ Hcodec _ _ _ _ Hs).
  destruct Hs as (raw' & (_ & (y' & Hy' & Hsd) & _) & _). unfold metadata_on_disk in Hm'. rewrite Hy' in Hm'. injection Hm' as <-.
  split; [done|]. split; [unfold metadata_on_disk; by rewrite Hy'|]. split; [done|]. split; [apply Hsd|]. split; [apply Hsd|].
  split; [done|]. destruct (sd_resumable _ _ _ _ Hsd) as (H1 & H2 & _). by split.
Qed.

(** C22. A session with an acknowledged message is never deleted as an empty
    one, whatever the count in its metadata says and whatever fails. *)
Theorem acknowledged_session_kept agent_id w trust acked delegations other faults m r w' : history agent_id w trust acked →
  acked ≠ [] → delete_empty_session parse delegations other (put_session_faults faults (put_self m w)) = (r, w') →
  r ≠ Ok true ∧ files w' = files w.
Proof using Hcodec.
  intros (ms & (raw & (Hm & (y & Hy & _) & _) & Ht & _) & Hsub)%(history_at _ _ Hcodec) Hne H.
  set (w0 := put_session_faults faults (put_self m w)) in *.
  assert (Hdone : ∀ w1, files w1 = files w0 → files w1 = files w) by (by intros w1 ->).
  unfold delete_empty_session, not_found_is_none in H.
  apply bind_cases in H as [(y' & w1 & Hr & H)|(e & Hr & ->)]; apply not_found_cases in Hr as Hf.
  2: { by split; [|apply Hdone]. }
  destruct y' as [y'|]; [|injection H as <- <-; by split; [|apply Hdone]].
  destruct (negb _); [injection H as <- <-; by split; [|apply Hdone]|].
  assert (Hm1 : sw_messages w1 = Some raw) by (rewrite (files_messages _ _ Hf); exact Hm).
  apply bind_cases in H as [(messages & w2 & Hr2 & H)|(e & Hr2 & ->)];
    apply (read_messages_cases _ _ _ _ _ _ _ Hcodec Ht Hm1) in Hr2 as [Hf2 Hr2].
  2: { split; [done|]. apply Hdone. congruence. }
  specialize (Hr2 _ eq_refl). subst messages.
  assert (length ms ≠ 0) as Hlen by (destruct ms; [by apply sublist_nil_r in Hsub|done]).
  rewrite (bool_decide_false (length ms = 0)) in H by done. simpl in H. rewrite orb_true_r in H. injection H as <- <-.
  split; [done|]. apply Hdone. congruence.
Qed.
End guarantees.

(** ** The history that is shown *)

Section shown.
Context (json_text : string → option string) (canonical_user_content_hash : list SessionContentBlock → option string).

Definition turns_of (s : list HistoricalTurn * option HistoricalTurn) : list HistoricalTurn :=
  s.1 ++ match s.2 with Some turn => [turn] | None => [] end.

Definition display (m : SessionMessage) : string := user_display_text_from_blocks json_text (msg_content m).

Lemma turns_step_texts s m : ht_user_text <$> turns_of (turns_step json_text s m) =
  (ht_user_text <$> turns_of s) ++ if is_real_user_message m then [display m] else [].
Proof.
  destruct s as [turns current]. unfold turns_step, turns_of. simpl.
  destruct (msg_role m) eqn:Hr.
  - destruct (is_real_user_message m); simpl; [|by rewrite app_nil_r]. rewrite !fmap_app. done.
  - assert (is_real_user_message m = false) as -> by (unfold is_real_user_message; by rewrite Hr, bool_decide_false).
    rewrite app_nil_r. destruct current as [turn|]; [|done]. destruct (nonempty _); [|done]. simpl. by rewrite !fmap_app.
Qed.

Lemma turns_texts messages s : ht_user_text <$> turns_of (fold_left (turns_step json_text) messages s) =
  (ht_user_text <$> turns_of s) ++ (display <$> List.filter is_real_user_message messages).
Proof.
  revert s. induction messages as [|m messages IH]; intros s; simpl; [by rewrite app_nil_r|].
  rewrite IH, turns_step_texts, <-(assoc_L (++)). f_equal. by destruct (is_real_user_message m).
Qed.

Lemma fmap_last_n {A B} (f : A → B) n l : f <$> last_n n l = last_n n (f <$> l).
Proof. unfold last_n. by rewrite fmap_drop, length_fmap. Qed.

Lemma last_n_length {A} n (l : list A) : length (last_n n l) = n `min` length l.
Proof. unfold last_n. rewrite length_drop. lia. Qed.

Lemma extracted_texts messages n : n ≠ 0 →
  ht_user_text <$> extract_last_n_turns json_text messages n = last_n n (display <$> List.filter is_real_user_message messages).
Proof.
  intros Hn. unfold extract_last_n_turns. destruct n as [|n]; [done|].
  pose proof (turns_texts messages ([], None)) as H. destruct (fold_left _ _ _) as [turns current] eqn:E. unfold turns_of in H. simpl in H.
  rewrite fmap_last_n. by rewrite H.
Qed.

(** The turns shown of a session are its last [n] real messages of the
    user, in order, each with the hash of the message its text is from: the
    hash that finds the tools of the turn in the journal. *)
Theorem shown_turns_match_messages messages n :
  (λ t, (hl_user_text t, hl_canonical_user_content_hash t)) <$> extract_last_n_timeline_turns json_text canonical_user_content_hash messages n =
  last_n n ((λ m, (display m, canonical_user_content_hash (msg_content m))) <$> List.filter is_real_user_message messages).
Proof.
  destruct (decide (n = 0)) as [->|Hn].
  { unfold last_n. rewrite Nat.sub_0_r, drop_all. done. }
  unfold extract_last_n_timeline_turns. pose proof (extracted_texts messages n Hn) as Ht.
  set (turns := extract_last_n_turns json_text messages n) in *. set (real := List.filter is_real_user_message messages) in *.
  assert (length turns = n `min` length real) as Hlen.
  { rewrite <-(length_fmap ht_user_text), Ht, last_n_length. by rewrite length_fmap. }
  rewrite length_fmap. replace (length real - length turns) with (length real - n) by lia.
  rewrite <-fmap_last_n, <-fmap_drop. fold (last_n n real). rewrite <-fmap_last_n in Ht.
  assert (length turns = length (last_n n real)) as Hl by (by rewrite last_n_length).
  clearbody turns. generalize dependent (last_n n real). clear. intros l.
  revert l. induction turns as [|t turns IH]; intros [|m l] Ht Hl; try discriminate Hl; [done|].
  simpl in *. injection Ht as Ht1 Ht2. f_equal; [by rewrite Ht1|]. apply IH; [done|lia].
Qed.
End shown.

(** ** A session that is cut off in the middle of an append *)

Definition demo_message (n : nat) : SessionMessage :=
  {| msg_index := n; msg_role := User; msg_content := []; msg_created_at := 0; msg_model := ""; msg_provider_replay := None |}.

(** Stand for serde_json on such messages: the number in unary between braces. *)
Definition demo_to_string (m : SessionMessage) : option (list Z) :=
  match m with
  | {| msg_index := n; msg_role := User; msg_content := []; msg_created_at := 0%Z; msg_model := EmptyString;
       msg_provider_replay := None |} => demo_to_vec (demo_event n)
  | _ => None
  end.
Definition demo_parse (line : list Z) : option SessionMessage :=
  (λ e, demo_message (Z.to_nat (ev_seq e))) <$> JournalFile.from_line demo_from_str line.

Lemma demo_to_string_some m line : demo_to_string m = Some line →
  ∃ n, m = demo_message n ∧ demo_to_vec (demo_event n) = Some line.
Proof.
  destruct m as [n role content at_ model replay]. simpl. destruct role; [|done]. destruct content; [|done].
  destruct at_; [|done..]. destruct model; [|done]. destruct replay; [done|]. intros H. by exists n.
Qed.

Lemma demo_message_codec : message_codec demo_to_string demo_parse.
Proof.
  split; [split|..].
  - intros m line (n & -> & H)%demo_to_string_some. destruct (codec_line demo_codec _ _ H) as [Hl Hp]. split; [done|].
    unfold demo_parse. rewrite Hp. simpl. by rewrite Nat2Z.id.
  - intros m line p (n & -> & H)%demo_to_string_some Hp Hne. unfold demo_parse. by rewrite (codec_cut demo_codec _ _ p H).
  - done.
  - intros m line (n & -> & (k & _ & ->)%demo_to_vec_some)%demo_to_string_some. by eexists.
  - intros m line (n & -> & (k & _ & ->)%demo_to_vec_some)%demo_to_string_some.
    assert (Forall (λ c, 0 ≤ c < 128)%Z (123%Z :: replicate k 49%Z ++ [125%Z])) as Ha.
    { constructor; [lia|]. apply Forall_app. split; [apply demo_ascii|repeat constructor; lia]. }
    rewrite <-(encode_ascii _ Ha), decode_valid_encode; [done|]. eapply Forall_impl; [exact Ha|]. simpl. unfold is_scalar. lia.
Qed.

Definition demo_blank : SessionWorld :=
  {| sw_self := new_metadata "s" "a" "tui" "m" 0; sw_yaml := None; sw_messages := None; sw_history := HistoryMissing;
     sw_finalize_checkpoint := None; sw_compaction_checkpoint := None; sw_turn_events := None;
     sw_clock := Z.of_nat; sw_ticks := 0; sw_faults := [] |}.

Definition demo_new : NewSessionMessage := unstored (demo_message 0).

Definition demo_exec (op : SessionOp) (faults : list (option nat)) (w : SessionWorld) : Result SessionStoreError unit * SessionWorld :=
  exec demo_to_string demo_parse demo_from_str (λ _, None) (λ _, None) op (put_session_faults faults (put_self (sw_self w) w)).

(** A message is appended; an append of two more is cut within the second and
    the process dies; the session is loaded, which counts the one that is
    whole, and goes on. *)
Definition demo_ids (n : nat) : SessionId := match n with O => "t" | _ => "s" end.
Definition demo_w0 : SessionWorld :=
  snd (create_with_metadata_id_factory_inner {["t"]} demo_ids (Some true) "a" "tui" "m" 3 demo_blank).
Definition demo_w1 : SessionWorld := snd (demo_exec (op_append [demo_new]) [] demo_w0).
Definition demo_w2 : SessionWorld := snd (demo_exec (op_append [demo_new; demo_new]) (replicate 8 None ++ replicate 9 (Some 6)) demo_w1).
Definition demo_w3 : SessionWorld := snd (demo_exec (op_load "a") [] demo_w2).
Definition demo_w4 : SessionWorld := snd (demo_exec (op_append [demo_new]) [] demo_w3).

Abbreviation demo_history := (session_history demo_to_string demo_parse demo_from_str (λ _, None) (λ _, None) "a").

Lemma demo_history_2 : demo_history demo_w2 false [demo_new].
Proof.
  assert (H0 : demo_history demo_w0 true []) by (apply (sh_created _ _ _ _ _ "a" {["t"]} demo_ids (Some true) "tui" "m" 3 "s" demo_blank); vm_compute; reflexivity).
  assert (H1 : demo_history demo_w1 true [demo_new]).
  { eapply (sh_step _ _ _ _ _ "a" (op_append [demo_new]) (sw_self demo_w0) [] demo_w0 true [] (Ok tt)); [exact H0|done..|].
    vm_compute; reflexivity. }
  eapply (sh_step _ _ _ _ _ "a" (op_append [demo_new; demo_new]) (sw_self demo_w1) (replicate 8 None ++ replicate 9 (Some 6)) demo_w1
    true [demo_new] (Err (MessagesAppendRollbackFailed 3))); [exact H1|done..|].
  vm_compute; reflexivity.
Qed.

Lemma demo_history_3 : demo_history demo_w3 true [demo_new].
Proof.
  eapply (sh_step _ _ _ _ _ "a" (op_load "a") (sw_self demo_w2) [] demo_w2 false [demo_new] (Ok tt)); [exact demo_history_2|done..|].
  vm_compute; reflexivity.
Qed.

Lemma acknowledged_messages_kept_witness :
  demo_history demo_w4 true [demo_new; demo_new] ∧
  sw_messages demo_w4 = Some [123; 125; 10; 123; 49; 125; 10; 123; 49; 49; 125; 10]%Z ∧
  ∃ ms, fst (read_messages demo_parse (put_session_faults [] demo_w4)) = Ok ms ∧ indexed ms ∧ [demo_new; demo_new] `sublist_of` (unstored <$> ms).
Proof.
  assert (H : demo_history demo_w4 true [demo_new; demo_new]).
  { eapply (sh_step _ _ _ _ _ "a" (op_append [demo_new]) (sw_self demo_w3) [] demo_w3 true [demo_new] (Ok tt));
      [exact demo_history_3|done..|]. vm_compute; reflexivity. }
  split; [exact H|]. split; [vm_compute; reflexivity|].
  exact (acknowledged_messages_kept _ _ _ _ _ demo_message_codec _ _ _ _ H).
Defined.

Lemma session_opens_again_witness :
  sm_message_count <$> metadata_on_disk demo_w2 = Some 1 ∧
  ∃ ms m w', load_existing_session demo_parse demo_from_str "a" (put_session_faults [] demo_w2) = (Ok tt, w') ∧
    fst (read_messages demo_parse (put_session_faults [] demo_w2)) = Ok ms ∧ fst (read_messages demo_parse w') = Ok ms ∧
    metadata_on_disk w' = Some m ∧ sm_message_count m = length ms ∧ sm_recapped_until m ≤ length ms.
Proof.
  split; [vm_compute; reflexivity|].
  exact (session_opens_again _ _ _ _ _ demo_message_codec _ _ _ _ demo_history_2).
Defined.

(** The session is closed by a process whose handle still has the metadata of
    its creation. *)
Lemma session_lifecycle_witness :
  let r := demo_exec (op_recap_finalized 2 7) [] demo_w3 in
  ∃ m m' ms, metadata_on_disk demo_w3 = Some m ∧ metadata_on_disk (snd r) = Some m' ∧ evolves (op_recap_finalized 2 7) m m' ∧
    (sm_status m' = Closed ↔ sm_closed_at m' ≠ None) ∧ (sm_finalized_at m' ≠ None → sm_status m' = Closed) ∧
    fst (read_messages demo_parse (put_session_faults [] (snd r))) = Ok ms ∧ sm_recapped_until m' ≤ length ms ∧ sm_message_count m' ≤ length ms.
Proof.
  intros r.
  apply (session_lifecycle _ _ demo_from_str (λ _, None) (λ _, None) demo_message_codec "a" demo_w3 true [demo_new] (op_recap_finalized 2 7) (sw_self demo_w3) [] (fst r) (snd r)).
  - exact demo_history_3.
  - done.
  - intros m Hm. vm_compute in Hm. injection Hm as <-. simpl. lia.
  - vm_compute. reflexivity.
Defined.

(** Where a session goes on after an append in doubt without being opened
    again, the next append repeats an index and the session cannot be opened
    any more: the write is whole, its flush fails and so does the roll-back. *)
Lemma append_after_doubt :
  let '(r1, w1) := demo_exec (op_append [demo_new]) (replicate 7 None ++ [None; Some 0; Some 0]) demo_w0 in
  let '(r2, w2) := demo_exec (op_append [demo_new]) [] w1 in
  r1 = Err (MessagesAppendRollbackFailed 0) ∧ r2 = Ok tt ∧ sw_messages w2 = Some [123; 125; 10; 123; 125; 10]%Z ∧
  fst (demo_exec (op_load "a") [] w2) = Err (MessageIndexMismatch 2 1 0).
Proof. vm_compute. done. Qed.

Lemma acknowledged_session_kept_witness :
  let w := put_session_faults [] (put_self (sw_self demo_w2) demo_w2) in
  fst (delete_empty_session demo_parse false "a" w) = Ok false ∧
  fst (delete_empty_session demo_parse false "a" demo_w0) = Ok true ∧
  fst (delete_empty_session demo_parse false "a" w) ≠ Ok true ∧ files (snd (delete_empty_session demo_parse false "a" w)) = files demo_w2.
Proof.
  intros w. split; [vm_compute; reflexivity|]. split; [vm_compute; reflexivity|].
  apply (acknowledged_session_kept _ _ demo_from_str (λ _, None) (λ _, None) demo_message_codec "a" demo_w2 false [demo_new] false "a" [] (sw_self demo_w2)).
  - exact demo_history_2.
  - done.
  - apply surjective_pairing.
Defined.

(** The metadata are the first file of a new session.  Where the process dies
    before the transcript is made, the session is in the way of the listing of
    all of them. *)
Lemma half_made_session_breaks_listing :
  let half := snd (create_files "t" "a" "tui" "m" (put_session_faults (replicate 2 None ++ replicate 3 (Some 0)) demo_blank)) in
  list_resumable_sessions demo_parse demo_from_str (λ _, None) (λ _, None) "a" [(true, put_session_faults [] demo_w4); (true, put_session_faults [] half)]
    = Err SessionIo ∧
  list_resumable_sessions demo_parse demo_from_str (λ _, None) (λ _, None) "a" [(true, put_session_faults [] demo_w4)] = Ok [] ∧
  sw_messages half = None ∧ sm_id <$> metadata_on_disk half = Some "t"%string.
Proof. vm_compute. done. Qed.
