(* ===== verification/FileText.v ===== *)
(** * Pages of text files and what an edit leaves known (src/src/tool/file_text.rs)

    A file is read in chunks and scanned byte by byte for the lines of one
    page, so that a page is bounded whatever the file holds; the evidence of
    the page is what later permits edits.  After an edit the lines that are
    still known are found from the byte ranges that were. *)

From stdpp Require Import pretty.
From S2P Require Import Prelude Text Claim Utf8 ReadState.
Import Ids.

Open Scope acn_scope.

(** The error of a tool, as far as the file tools raise it. *)
Inductive ToolError := ToolIo | ToolInvalidArgs | ToolAttachment | ToolInterrupted.

(** ** Requests and results *)

Record TextPageRequest := {
  tpr_display_path : string;
  tpr_canonical_path : Path;
  tpr_start : Z;
  tpr_count : Z;
  tpr_keyword : option (list Z);
  tpr_show_linenos : bool;
  tpr_max_chars : Z;
}.

Inductive StopReason := StopMaxChars | StopStartAfterEof | StopKeywordNotFound | StopEof | StopCount.

#[export] Instance StopReason_eq_dec : EqDecision StopReason.
Proof. solve_decision. Defined.

(** The JSON of a page, member by member. *)
Record PageOutput := {
  po_path : string;
  po_content : list Z;
  po_truncated : bool;
  po_returned_start : option Z;
  po_returned_end : option Z;
  po_total_lines : Z;
  po_next_start : option Z;
  po_reaches_eof : bool;
  po_ends_with_newline : option bool;
  po_keyword_match_line : option Z;
  po_stop_reason : StopReason;
}.

Record TextPageResult := { tp_output : PageOutput; tp_evidence : option ReadEvidence }.

Inductive TextPageOutcome := Page (r : TextPageResult) | LineTooLong (line : Z).

Record ScannedLine := { sl_number : Z; sl_text : option (list Z) }.

Record ScanResult := {
  sr_revision : ContentRevision;
  sr_total_lines : Z;
  sr_ends_with_newline : bool;
  sr_selected : list ScannedLine;
  sr_keyword_match_line : option Z;
  sr_blocking_long_line : option Z;
  sr_selection_limited : bool;
}.

(** tool/mod.rs *)
Definition bounded_text_byte_limit (max_chars : Z) : Z :=
  Z.max 16 (sat_add u64_max (Z.min u64_max (max_chars * 4)) 16).

(** ** The lines of a page *)

Record PageCollector := {
  pc_start : Z;
  pc_count : Z;
  pc_keyword : option (list Z);
  pc_before : list ScannedLine;
  pc_selected : list ScannedLine;
  pc_matched_line : option Z;
  pc_blocking_long_line : option Z;
  pc_buffered_bytes : Z;
  pc_before_bytes : Z;
  pc_max_buffered_bytes : Z;
  pc_selection_limited : bool;
}.

Definition pc_eta (c : PageCollector) : PageCollector :=
  {| pc_start := pc_start c; pc_count := pc_count c; pc_keyword := pc_keyword c; pc_before := pc_before c;
     pc_selected := pc_selected c; pc_matched_line := pc_matched_line c;
     pc_blocking_long_line := pc_blocking_long_line c; pc_buffered_bytes := pc_buffered_bytes c;
     pc_before_bytes := pc_before_bytes c; pc_max_buffered_bytes := pc_max_buffered_bytes c;
     pc_selection_limited := pc_selection_limited c |}.

Definition set_before v c : PageCollector := ltac:(eta_set pc_eta c pc_before v).
Definition set_selected v c : PageCollector := ltac:(eta_set pc_eta c pc_selected v).
Definition set_matched v c : PageCollector := ltac:(eta_set pc_eta c pc_matched_line v).
Definition set_blocking v c : PageCollector := ltac:(eta_set pc_eta c pc_blocking_long_line v).
Definition set_buffered v c : PageCollector := ltac:(eta_set pc_eta c pc_buffered_bytes v).
Definition set_before_bytes v c : PageCollector := ltac:(eta_set pc_eta c pc_before_bytes v).
Definition set_limited v c : PageCollector := ltac:(eta_set pc_eta c pc_selection_limited v).

(** [to_ascii_lowercase] *)
Definition ascii_lowercase (b : Z) : Z := if ((65 <=? b) && (b <=? 90))%Z then (b + 32)%Z else b.

Definition PageCollector_new (r : TextPageRequest) : PageCollector :=
  {| pc_start := tpr_start r;
     pc_count := Z.max 1 (Z.min (tpr_count r) (sat_add u64_max (tpr_max_chars r) 1));
     pc_keyword := fmap (M:=list) ascii_lowercase <$> tpr_keyword r;
     pc_before := []; pc_selected := []; pc_matched_line := None; pc_blocking_long_line := None;
     pc_buffered_bytes := 0; pc_before_bytes := 0;
     pc_max_buffered_bytes := Z.max 8 (Z.min u64_max (bounded_text_byte_limit (tpr_max_chars r) * 2));
     pc_selection_limited := false |}.

Definition scanned_line_bytes (line : ScannedLine) : Z :=
  match sl_text line with Some text => Z.of_nat (length text) | None => 0%Z end.

(** The loops that drop lines from the front of [before]. *)
Fixpoint drop_before (drops : nat → Z → bool) (before : list ScannedLine) (bytes : Z) : list ScannedLine * Z :=
  match before with
  | [] => ([], bytes)
  | dropped :: before' =>
      if drops (length before) bytes then drop_before drops before' (sat_sub bytes (scanned_line_bytes dropped))
      else (before, bytes)
  end.

Definition push_before (line : ScannedLine) (c : PageCollector) : PageCollector :=
  let keep := (pc_count c / 3)%Z in
  if (keep =? 0)%Z then c
  else
    let '(before, bytes) :=
      drop_before (λ n bytes, (keep <? Z.of_nat n)%Z || (pc_max_buffered_bytes c <? bytes)%Z)
        (pc_before c ++ [line]) (sat_add u64_max (pc_before_bytes c) (scanned_line_bytes line)) in
    c |> set_before before |> set_before_bytes bytes.

Definition push_selected (line : ScannedLine) (c : PageCollector) : PageCollector :=
  if (pc_count c <=? Z.of_nat (length (pc_selected c)))%Z || pc_selection_limited c then c
  else
    let bytes := sat_add u64_max (pc_buffered_bytes c) (scanned_line_bytes line) in
    if negb (bool_decide (length (pc_selected c) = 0%nat)) && (pc_max_buffered_bytes c <? bytes)%Z then set_limited true c
    else c |> set_buffered bytes |> set_selected (pc_selected c ++ [line]).

(** [before] goes to the page as far as it fits with the line that matches. *)
Definition take_before (line : ScannedLine) (c : PageCollector) : PageCollector :=
  let '(before, _) :=
    drop_before (λ n bytes, (pc_count c <? sat_add u64_max (Z.of_nat n) 1)%Z
      || (pc_max_buffered_bytes c
          <? sat_add u64_max (sat_add u64_max bytes (scanned_line_bytes line)) (pc_buffered_bytes c))%Z)
      (pc_before c) (pc_before_bytes c) in
  c |> set_buffered (fold_left (λ n l, sat_add u64_max n (scanned_line_bytes l)) before (pc_buffered_bytes c))
    |> set_selected (pc_selected c ++ before) |> set_before [] |> set_before_bytes 0.

Definition observe (line : ScannedLine) (c : PageCollector) : PageCollector :=
  match pc_keyword c with
  | None =>
      let end_ := sat_add u64_max (pc_start c) (sat_sub (pc_count c) 1) in
      if (pc_start c <=? sl_number line)%Z && (sl_number line <=? end_)%Z then push_selected line c else c
  | Some keyword =>
      match pc_matched_line c, pc_blocking_long_line c with
      | Some _, _ => push_selected line c
      | None, Some _ => c
      | None, None =>
          if (sl_number line <? pc_start c)%Z then push_before line c
          else match sl_text line with
               | None => set_blocking (Some (sl_number line)) c
               | Some text =>
                   if text_contains keyword (ascii_lowercase <$> text)
                   then c |> set_matched (Some (sl_number line)) |> take_before line |> push_selected line
                   else push_before line c
               end
      end
  end.

(** ** Scanning *)

(** [Utf8Validator::push]: the bytes of an incomplete character at the end
    wait for the next chunk. *)
Definition validator_push (pending bytes : list Z) : Result ToolError (list Z) :=
  match from_utf8 (pending ++ bytes) with
  | (_, _, None) => Ok []
  | (_, rest, Some Utf8Incomplete) => Ok rest
  | (_, _, Some (Utf8ErrorLen _)) => Err ToolIo
  end.

Record ScanState := {
  ss_collector : PageCollector;
  ss_current : list Z;
  ss_current_too_long : bool;
  ss_line_number : Z;
  ss_ends_with_newline : bool;
}.

(** The text of the line that ends here. *)
Definition line_text (current : list Z) (too_long : bool) : Result ToolError (option (list Z)) :=
  if too_long then Ok None
  else match decode_valid current with Some _ => Ok (Some current) | None => Err ToolIo end.

Definition scan_byte (capture_limit : Z) (s : ScanState) (byte : Z) : Result ToolError ScanState :=
  let '(current, too_long) :=
    if ss_current_too_long s then (ss_current s, true)
    else if (Z.of_nat (length (ss_current s)) <? capture_limit)%Z then (ss_current s ++ [byte], false)
    else ([], true) in
  if (byte =? 10)%Z then
    text ← line_text current too_long;
    mret {| ss_collector := observe {| sl_number := ss_line_number s; sl_text := text |} (ss_collector s);
            ss_current := []; ss_current_too_long := false; ss_line_number := sat_add u64_max (ss_line_number s) 1;
            ss_ends_with_newline := true |}
  else Ok {| ss_collector := ss_collector s; ss_current := current; ss_current_too_long := too_long;
             ss_line_number := ss_line_number s; ss_ends_with_newline := false |}.

Fixpoint scan_bytes (capture_limit : Z) (s : ScanState) (bytes : list Z) : Result ToolError ScanState :=
  match bytes with
  | [] => Ok s
  | byte :: bytes' => s' ← scan_byte capture_limit s byte; scan_bytes capture_limit s' bytes'
  end.

(** The loop over what the reads return; an empty read is the end of the file. *)
Fixpoint scan_chunks (capture_limit : Z) (pending : list Z) (s : ScanState) (chunks : list (list Z)) :
    Result ToolError (list Z * ScanState) :=
  match chunks with
  | [] | [] :: _ => Ok (pending, s)
  | chunk :: chunks' =>
      pending' ← validator_push pending chunk;
      s' ← scan_bytes capture_limit s chunk;
      scan_chunks capture_limit pending' s' chunks'
  end.

(** What the reads return before the end. *)
Fixpoint bytes_read (chunks : list (list Z)) : list Z :=
  match chunks with [] | [] :: _ => [] | chunk :: chunks' => chunk ++ bytes_read chunks' end.

Section text.
Context (sha256_hex : list Z → string).

Definition scan_text_file (chunks : list (list Z)) (r : TextPageRequest) : Result ToolError ScanResult :=
  let capture_limit := Z.max 4 (bounded_text_byte_limit (tpr_max_chars r)) in
  '(pending, s) ← scan_chunks capture_limit []
    {| ss_collector := PageCollector_new r; ss_current := []; ss_current_too_long := false; ss_line_number := 1;
       ss_ends_with_newline := false |} chunks;
  _ ← (if bool_decide (length pending = 0%nat) then Ok tt else Err ToolIo);
  let saw_any := negb (bool_decide (length (bytes_read chunks) = 0%nat)) in
  collector ←
    (if saw_any && negb (ss_ends_with_newline s) then
       text ← line_text (ss_current s) (ss_current_too_long s);
       mret (observe {| sl_number := ss_line_number s; sl_text := text |} (ss_collector s))
     else Ok (ss_collector s));
  mret {| sr_revision := ContentRevision_from_bytes sha256_hex (bytes_read chunks);
          sr_total_lines :=
            (if negb saw_any then 0
             else if ss_ends_with_newline s then sat_sub (ss_line_number s) 1 else ss_line_number s)%Z;
          sr_ends_with_newline := ss_ends_with_newline s; sr_selected := pc_selected collector;
          sr_keyword_match_line := pc_matched_line collector;
          sr_blocking_long_line := pc_blocking_long_line collector;
          sr_selection_limited := pc_selection_limited collector |}.

(** ** A page *)

Definition rendered (show_linenos : bool) (number : Z) (text : list Z) : list Z :=
  if show_linenos then str_bytes (pretty (Z.to_N number)) ++ 124%Z :: text else text.

Definition chars (t : list Z) : Z := Z.of_nat (length (default [] (decode_valid t))).

Record PageState := {
  ps_content : list Z;
  ps_returned_start : option Z;
  ps_returned_end : option Z;
  ps_content_chars : Z;
}.

(** The loop over the selected lines: the page and whether it stopped for its
    size, or the line that cannot be shown. *)
Fixpoint render_lines (r : TextPageRequest) (lines : list ScannedLine) (s : PageState) : (PageState * bool) + Z :=
  match lines with
  | [] => inl (s, false)
  | line :: lines' =>
      match sl_text line with
      | None => inr (sl_number line)
      | Some text =>
          let out := rendered (tpr_show_linenos r) (sl_number line) text in
          if (tpr_max_chars r <? chars out)%Z then inr (sl_number line)
          else
            let next_chars := sat_add u64_max (ps_content_chars s) (chars out) in
            if (tpr_max_chars r <? next_chars)%Z then inl (s, true)
            else
              match ps_returned_end s with
              | Some previous =>
                  let expected := sat_add u64_max previous 1 in
                  if negb (sl_number line =? expected)%Z then inr expected
                  else render_lines r lines'
                    {| ps_content := ps_content s ++ out; ps_returned_start := ps_returned_start s;
                       ps_returned_end := Some (sl_number line); ps_content_chars := next_chars |}
              | None => render_lines r lines'
                  {| ps_content := ps_content s ++ out;
                     ps_returned_start := Some (default (sl_number line) (ps_returned_start s));
                     ps_returned_end := Some (sl_number line); ps_content_chars := next_chars |}
              end
      end
  end.

Definition is_Some_b {A} (o : option A) : bool := match o with Some _ => true | None => false end.

Definition page_stop (r : TextPageRequest) (scan : ScanResult) (s : PageState) (full reaches_eof : bool) : StopReason :=
  if full then StopMaxChars
  else if negb (is_Some_b (ps_returned_end s)) then
    if (sr_total_lines scan <? tpr_start r)%Z && negb ((sr_total_lines scan =? 0)%Z && (tpr_start r =? 1)%Z)
    then StopStartAfterEof
    else if is_Some_b (tpr_keyword r) && negb (is_Some_b (sr_keyword_match_line scan)) then StopKeywordNotFound
    else StopEof
  else if sr_selection_limited scan then StopMaxChars
  else if reaches_eof then StopEof else StopCount.

Definition read_text_page (chunks : list (list Z)) (r : TextPageRequest) : Result ToolError TextPageOutcome :=
  scan ← scan_text_file chunks r;
  match sr_blocking_long_line scan with
  | Some line => mret (LineTooLong line)
  | None =>
      match render_lines r (sr_selected scan)
              {| ps_content := []; ps_returned_start := None; ps_returned_end := None; ps_content_chars := 0 |} with
      | inr line => mret (LineTooLong line)
      | inl (s, full) =>
          let nothing := page_stop r scan s full false in
          let reaches_eof :=
            bool_decide (ps_returned_end s = Some (sr_total_lines scan))
            || ((sr_total_lines scan =? 0)%Z && (tpr_start r =? 1)%Z && negb (is_Some_b (tpr_keyword r))
                && bool_decide (nothing = StopEof)) in
          let stop_reason := page_stop r scan s full reaches_eof in
          let no_page := bool_decide (stop_reason = StopKeywordNotFound) || bool_decide (stop_reason = StopStartAfterEof) in
          let range := start ← ps_returned_start s; end_ ← ps_returned_end s; LineRange_new start end_ in
          let complete :=
            reaches_eof && ((sr_total_lines scan =? 0)%Z || bool_decide (ps_returned_start s = Some 1%Z)) in
          mret (Page {|
            tp_output := {|
              po_path := tpr_display_path r; po_content := ps_content s;
              po_truncated := negb reaches_eof && negb no_page;
              po_returned_start := ps_returned_start s; po_returned_end := ps_returned_end s;
              po_total_lines := sr_total_lines scan;
              po_next_start :=
                (if no_page || bool_decide (stop_reason = StopEof) then None
                 else Some (match ps_returned_end s with Some line => sat_add u64_max line 1 | None => tpr_start r end));
              po_reaches_eof := reaches_eof;
              po_ends_with_newline := (if reaches_eof then Some (sr_ends_with_newline scan) else None);
              po_keyword_match_line := sr_keyword_match_line scan; po_stop_reason := stop_reason |};
            tp_evidence :=
              (if no_page then None
               else if is_Some_b range || complete then
                 Some {| re_path := tpr_canonical_path r; re_revision := sr_revision scan;
                         re_total_lines := sr_total_lines scan; re_ends_with_newline := sr_ends_with_newline scan;
                         re_ranges := option_list range; re_complete := complete |}
               else None) |})
      end
  end.
End text.

(** ** What an edit leaves known *)

Record CoverageMigration := { cm_ranges : list LineRange; cm_complete : bool }.

(** Offsets of bytes in a text in memory. *)
Record ByteSpan := { bs_start : nat; bs_end : nat }.

(** The loop of [line_byte_spans]: the current line begins at [start], the
    next byte is at [index]. *)
Fixpoint spans_from (start index : nat) (text : list Z) : list ByteSpan :=
  match text with
  | [] => if (start <? index)%nat then [{| bs_start := start; bs_end := index |}] else []
  | byte :: text' =>
      if (byte =? 10)%Z then {| bs_start := start; bs_end := S index |} :: spans_from (S index) (S index) text'
      else spans_from start (S index) text'
  end.

Definition line_byte_spans (text : list Z) : list ByteSpan := spans_from 0 0 text.

(** [iter().position(p)] *)
Fixpoint position {A} (p : A → bool) (l : list A) : option nat :=
  match l with [] => None | x :: l' => if p x then Some 0%nat else S <$> position p l' end.

Definition line_range_for_byte_range (lines : list ByteSpan) (start end_ : nat) : option LineRange :=
  match lines with
  | [] => None
  | _ =>
      let first := default (length lines - 1)%nat (position (λ line, (start <? bs_end line)%nat) lines) in
      let last_byte := Nat.max (end_ - 1) start in
      let last := default (length lines - 1)%nat (position (λ line, (last_byte <? bs_end line)%nat) lines) in
      LineRange_new (Z.of_nat first + 1) (Z.of_nat last + 1)
  end.

Definition cmp_span : ByteSpan → ByteSpan → comparison :=
  cmp_then (cmp_on bs_start Nat.compare) (cmp_on bs_end Nat.compare).

(** The loop of [merge_byte_spans]; the last merged span is at the head. *)
Fixpoint merge_spans_loop (merged spans : list ByteSpan) : list ByteSpan :=
  match spans with
  | [] => reverse merged
  | span :: spans' =>
      match merged with
      | last :: rest =>
          if (bs_start span <=? bs_end last)%nat
          then merge_spans_loop ({| bs_start := bs_start last; bs_end := Nat.max (bs_end last) (bs_end span) |} :: rest) spans'
          else merge_spans_loop (span :: merged) spans'
      | [] => merge_spans_loop [span] spans'
      end
  end.

Definition merge_byte_spans (spans : list ByteSpan) : list ByteSpan := merge_spans_loop [] (sort_by cmp_span spans).

Definition nth_line (lines : list ByteSpan) (number : Z) : option ByteSpan := lines !! Z.to_nat (sat_sub number 1).

Definition range_span (lines : list ByteSpan) (range : LineRange) : option ByteSpan :=
  first ← nth_line lines (lr_start range);
  last ← nth_line lines (lr_end range);
  Some {| bs_start := bs_start first; bs_end := bs_end last |}.

Definition known_byte_spans (lines : list ByteSpan) (ranges : list LineRange) : list ByteSpan :=
  merge_byte_spans (omap (range_span lines) ranges).

Definition shift_offset (offset removed replacement_len : nat) : nat := (offset - removed + replacement_len)%nat.

Definition transform_span (edit_start edit_end replacement_len : nat) (span : ByteSpan) : list ByteSpan :=
  let removed := (edit_end - edit_start)%nat in
  (if (bs_start span <? edit_start)%nat then [{| bs_start := bs_start span; bs_end := Nat.min (bs_end span) edit_start |}] else [])
  ++ (if (edit_end <? bs_end span)%nat
      then [{| bs_start := shift_offset (Nat.max (bs_start span) edit_end) removed replacement_len;
               bs_end := shift_offset (bs_end span) removed replacement_len |}]
      else []).

Definition transform_spans (spans : list ByteSpan) (edit_start edit_end replacement_len : nat) : list ByteSpan :=
  let result := flat_map (transform_span edit_start edit_end replacement_len) spans
    ++ (if (0 <? replacement_len)%nat then [{| bs_start := edit_start; bs_end := (edit_start + replacement_len)%nat |}] else []) in
  List.filter (λ span, (bs_start span <? bs_end span)%nat) result.

Definition span_is_covered (spans : list ByteSpan) (start end_ : nat) : bool :=
  (start =? end_)%nat || existsb (λ span, (bs_start span <=? start)%nat && (end_ <=? bs_end span)%nat) spans.

Definition touched_result_lines (lines : list ByteSpan) (start end_ : nat) : list ByteSpan :=
  List.filter (λ line,
    if (start =? end_)%nat then (bs_start line <=? start)%nat && (start <=? bs_end line)%nat
    else (bs_start line <? end_)%nat && (start <? bs_end line)%nat) lines.

(** The loop of [project_known_line_ranges] from line [number] on; the last
    range is at the head. *)
Fixpoint project_loop (spans : list ByteSpan) (number : Z) (lines : list ByteSpan) (ranges : list LineRange) : list LineRange :=
  match lines with
  | [] => reverse ranges
  | line :: lines' =>
      let next := sat_add u64_max number 1 in
      if span_is_covered spans (bs_start line) (bs_end line) then
        match ranges with
        | last :: ranges' =>
            if (sat_add u64_max (lr_end last) 1 =? number)%Z
            then project_loop spans next lines' ({| lr_start := lr_start last; lr_end := number |} :: ranges')
            else project_loop spans next lines' (option_list (LineRange_new number number) ++ ranges)
        | [] => project_loop spans next lines' (option_list (LineRange_new number number))
        end
      else project_loop spans next lines' ranges
  end.

Definition project_known_line_ranges (lines spans : list ByteSpan) : list LineRange := project_loop spans 1 lines [].

Definition expand_required_range (range : LineRange) (total_lines : Z) : LineRange :=
  {| lr_start := Z.max 1 (sat_sub (lr_start range) 1);
     lr_end := Z.min (sat_add u64_max (lr_end range) 1) (Z.max 1 total_lines) |}.

Definition whole_range (total_lines : Z) : LineRange := {| lr_start := 1; lr_end := Z.max 1 total_lines |}.

Definition migrate_edit_coverage (before after : list Z) (authority : ReadAuthority)
    (edit_start edit_end replacement_len : nat) : Result LineRange CoverageMigration :=
  if ra_complete authority then
    Ok {| cm_ranges := option_list (LineRange_new 1 (logical_line_count after)); cm_complete := true |}
  else
    let before_lines := line_byte_spans before in
    let affected := default (whole_range (ra_total_lines authority)) (line_range_for_byte_range before_lines edit_start edit_end) in
    let required := expand_required_range affected (ra_total_lines authority) in
    if negb (covers authority (lr_start affected) (lr_end affected)) then Err required
    else
      let known_before := known_byte_spans before_lines (ra_ranges authority) in
      if negb (span_is_covered known_before edit_start edit_end) then Err required
      else
        let known_after := merge_byte_spans (transform_spans known_before edit_start edit_end replacement_len) in
        let after_lines := line_byte_spans after in
        let new_end := (edit_start + replacement_len)%nat in
        if negb (forallb (λ line, span_is_covered known_after (bs_start line) (bs_end line))
                   (touched_result_lines after_lines edit_start new_end))
        then Err required
        else
          let ranges := project_known_line_ranges after_lines known_after in
          let complete :=
            match after with
            | [] => true
            | _ => match ranges with
                   | [r] => (lr_start r =? 1)%Z && (lr_end r =? Z.of_nat (length after_lines))%Z
                   | _ => false
                   end
            end in
          Ok {| cm_ranges := ranges; cm_complete := complete |}.

Definition suggested_read_range (text : list Z) (edit_start edit_end : nat) : LineRange :=
  let lines := line_byte_spans text in
  let total_lines := Z.of_nat (length lines) in
  expand_required_range (default (whole_range total_lines) (line_range_for_byte_range lines edit_start edit_end)) total_lines.

(** ** The lines of a text *)

(** The lines of [cur ++ text] that end in it, each with its line feed. *)
Fixpoint lines_from (cur text : list Z) : list (list Z) :=
  match text with
  | [] => if bool_decide (cur = []) then [] else [cur]
  | byte :: text' => if (byte =? 10)%Z then (cur ++ [byte]) :: lines_from [] text' else lines_from (cur ++ [byte]) text'
  end.
Definition text_lines (text : list Z) : list (list Z) := lines_from [] text.

Definition slice (text : list Z) (span : ByteSpan) : list Z := take (bs_end span - bs_start span) (drop (bs_start span) text).

Lemma spans_lines pre cur text :
  slice (pre ++ cur ++ text) <$> spans_from (length pre) (length pre + length cur) text = lines_from cur text.
Proof.
  revert pre cur. induction text as [|b text IH]; intros pre cur; simpl.
  - rewrite app_nil_r. destruct (Nat.ltb_spec (length pre) (length pre + length cur)).
    + rewrite bool_decide_false by (intros ->; simpl in *; lia). simpl. unfold slice. simpl.
      rewrite drop_app_length. replace (_ - _) with (length cur) by lia. by rewrite firstn_all.
    + rewrite bool_decide_true; [done|]. apply length_zero_iff_nil. lia.
  - destruct (Z.eqb_spec b 10) as [ ->|Hb].
    + simpl. f_equal.
      * unfold slice. simpl. rewrite drop_app_length. replace (S (length pre + length cur) - length pre) with (length (cur ++ [10%Z])) by (rewrite length_app; simpl; lia).
        change (10%Z :: text) with ([10%Z] ++ text). rewrite (app_assoc cur). by rewrite take_app_length.
      * specialize (IH (pre ++ cur ++ [10%Z]) []). rewrite !length_app, Nat.add_0_r in IH. simpl in IH.
        rewrite <-!(app_assoc), app_assoc in IH. simpl in IH. rewrite <-(app_assoc pre) in IH.
        replace (S (length pre + length cur)) with (length pre + (length cur + 1)) by lia. exact IH.
    + specialize (IH pre (cur ++ [b])). rewrite length_app in IH. simpl in IH. rewrite <-app_assoc in IH. simpl in IH.
      replace (S (length pre + length cur)) with (length pre + (length cur + 1)) by lia. exact IH.
Qed.

(** Each line is the slice of its span. *)
Lemma text_lines_spans text : slice text <$> line_byte_spans text = text_lines text.
Proof. apply (spans_lines [] [] text). Qed.

Lemma spans_from_bounds text : ∀ start index sp, sp ∈ spans_from start index text → start ≤ index →
  start ≤ bs_start sp ∧ bs_start sp < bs_end sp ≤ index + length text.
Proof.
  induction text as [|b text IH]; intros start index sp; simpl.
  - destruct (Nat.ltb_spec start index); [|by intros ?%not_elem_of_nil]. intros ->%list_elem_of_singleton. simpl. lia.
  - destruct (b =? 10)%Z.
    + intros [->|H]%elem_of_cons Hle; simpl; [lia|]. apply IH in H; lia.
    + intros H Hle. apply IH in H; lia.
Qed.

(** Every byte is in a line. *)
Lemma spans_from_cover text : ∀ start index p, start ≤ index → start ≤ p < index + length text →
  ∃ i sp, spans_from start index text !! i = Some sp ∧ bs_start sp ≤ p < bs_end sp.
Proof.
  induction text as [|b text IH]; intros start index p Hle Hp; simpl in *.
  - destruct (Nat.ltb_spec start index); [|lia]. exists 0. eexists. split; [done|]. simpl. lia.
  - destruct (b =? 10)%Z; [|apply IH; lia]. destruct (decide (p < S index)).
    + exists 0. eexists. split; [done|]. simpl. lia.
    + destruct (IH (S index) (S index) p) as (i & sp & H1 & H2); [lia..|]. by exists (S i), sp.
Qed.

Lemma spans_from_count text : ∀ start index, start ≤ index →
  length (spans_from start index text) =
  length (filter (λ b, b = 10%Z) text) +
    (if decide (last text = Some 10%Z) then 0 else if decide (start = index ∧ text = []) then 0 else 1).
Proof.
  induction text as [|b text IH]; intros start index Hle; cbn [spans_from].
  - rewrite decide_False by done. destruct (Nat.ltb_spec start index); [rewrite decide_False by (intros []; lia)|rewrite decide_True by (split; [lia|done])]; done.
  - rewrite filter_cons. destruct (Z.eqb_spec b 10) as [ ->|Hb].
    + rewrite decide_True by done. cbn [length]. rewrite IH by done. destruct text as [|c text].
      * rewrite decide_False by done. rewrite !decide_True by done. done.
      * change (last (10%Z :: c :: text)) with (last (c :: text)). rewrite (decide_False (P := _ ∧ _)) by (by intros []).
        rewrite (decide_False (P := _ ∧ _)) by (by intros []). lia.
    + rewrite (decide_False (P := b = 10%Z)) by done. rewrite IH by lia. destruct text as [|c text].
      * simpl. rewrite decide_False by (intros []; lia). rewrite decide_False by congruence. by rewrite decide_False by (by intros []).
      * change (last (b :: c :: text)) with (last (c :: text)). by rewrite !(decide_False (P := _ ∧ _)) by (by intros []).
Qed.

Lemma line_count text : (Z.of_nat (length text) < u64_max)%Z → logical_line_count text = Z.of_nat (length (line_byte_spans text)).
Proof.
  intros Hlen. unfold line_byte_spans. rewrite spans_from_count by done. unfold logical_line_count. destruct text as [|b text]; [done|].
  rewrite (decide_False (P := _ ∧ _)) by (by intros []).
  pose proof (length_filter (λ b, b = 10%Z) (b :: text)). unfold sat_add. destruct (decide _); lia.
Qed.

(** ** What is scanned is in the file *)

Section scanning.
Context (L : list (list Z)).

Definition good (line : ScannedLine) : Prop :=
  ∃ i, sl_number line = (Z.of_nat i + 1)%Z ∧ ∀ t, sl_text line = Some t → L !! i = Some t.

Definition sane (c : PageCollector) : Prop := ∀ line, line ∈ pc_before c ++ pc_selected c → good line.

Lemma drop_before_sub drops before bytes line : line ∈ (drop_before drops before bytes).1 → line ∈ before.
Proof.
  revert bytes. induction before as [|d before IH]; intros bytes; cbn [drop_before]; [done|].
  destruct (drops _ _); [|done]. intros H%IH. by right.
Qed.

Lemma sane_push_selected line c : good line → sane c → sane (push_selected line c).
Proof.
  intros Hl Hc. unfold push_selected. case_match; [done|]. case_match; [done|].
  intros l. simpl. rewrite !elem_of_app, list_elem_of_singleton. intros [H'|[H'| ->]]; [..|done]; apply Hc; set_solver.
Qed.

Lemma sane_push_before line c : good line → sane c → sane (push_before line c).
Proof.
  intros Hl Hc. unfold push_before. case_match; [done|].
  destruct (drop_before _ _ _) as [before bytes] eqn:E. intros l. simpl. rewrite elem_of_app. intros [H'|H'].
  - change before with ((before, bytes).1) in H'. rewrite <-E in H'. apply drop_before_sub in H'.
    apply elem_of_app in H' as [H'| ->%list_elem_of_singleton]; [|done]. apply Hc. set_solver.
  - apply Hc. set_solver.
Qed.

Lemma sane_take_before line c : sane c → sane (take_before line c).
Proof.
  intros Hc. unfold take_before. destruct (drop_before _ _ _) as [before bytes] eqn:E. intros l. simpl.
  rewrite elem_of_app. intros [H'|H']; [apply Hc; set_solver|].
  change before with ((before, bytes).1) in H'. rewrite <-E in H'. apply drop_before_sub in H'. apply Hc. set_solver.
Qed.

Lemma sane_observe line c : good line → sane c → sane (observe line c).
Proof.
  intros Hl Hc. unfold observe. destruct (pc_keyword c); [|case_match; [by apply sane_push_selected|done]].
  destruct (pc_matched_line c); [by apply sane_push_selected|]. destruct (pc_blocking_long_line c); [done|].
  case_match; [by apply sane_push_before|]. destruct (sl_text line); [|done].
  case_match; [|by apply sane_push_before]. by apply sane_push_selected, sane_take_before.
Qed.

(** The state between two bytes: [ls] are the lines that have ended, [cur] is
    the part of the current one. *)
Record scanned (ls : list (list Z)) (cur pre : list Z) (s : ScanState) : Prop := {
  sn_number : ss_line_number s = (Z.of_nat (length ls) + 1)%Z;
  sn_current : ss_current_too_long s = false → ss_current s = cur;
  sn_ends : ss_ends_with_newline s = bool_decide (last pre = Some 10%Z);
  sn_cur : pre ≠ [] → cur = [] ↔ last pre = Some 10%Z;
  sn_start : pre = [] → cur = [] ∧ ls = [];
  sn_sane : sane (ss_collector s);
}.

Lemma line_text_some current too_long t : line_text current too_long = Ok (Some t) → too_long = false ∧ t = current.
Proof. unfold line_text. destruct too_long; [by intros [=]|]. destruct (decode_valid current); [by intros [= ->]|done]. Qed.

Lemma scan_bytes_ok limit bytes : ∀ ls cur pre s s', scanned ls cur pre s → L = ls ++ lines_from cur bytes →
  (Z.of_nat (length ls + length bytes) < u64_max)%Z → scan_bytes limit s bytes = Ok s' →
  ∃ ls' cur', scanned ls' cur' (pre ++ bytes) s' ∧ L = ls' ++ lines_from cur' [].
Proof.
  induction bytes as [|b bytes IH]; intros ls cur pre s s' Hs HL Hlen H; simpl in H.
  - injection H as <-. exists ls, cur. by rewrite app_nil_r.
  - apply result_bind_ok in H as (s1 & H1 & H). unfold scan_byte in H1.
    set (p := if ss_current_too_long s then _ else _) in H1. destruct p as [current too_long] eqn:Hp.
    assert (Hcur : too_long = false → current = cur ++ [b]).
    { subst p. pose proof (sn_current _ _ _ _ Hs) as Hc. destruct (ss_current_too_long s); [by injection Hp as _ <-|].
      destruct (_ <? _)%Z; injection Hp as <- <-; [|done]. intros _. by rewrite Hc. }
    clear Hp p. simpl in HL. simpl in Hlen. destruct (Z.eqb_spec b 10) as [ ->|Hb].
    + apply result_bind_ok in H1 as (text & Ht & [= <-]).
      edestruct (IH (ls ++ [cur ++ [10%Z]]) [] (pre ++ [10%Z])) as (ls' & cur' & H1 & H2); [..|exact H|].
      * split; simpl.
        -- rewrite (sn_number _ _ _ _ Hs), length_app. simpl. rewrite sat_add_small; lia.
        -- done.
        -- by rewrite last_snoc, bool_decide_true.
        -- intros _. by rewrite last_snoc.
        -- intros []%app_nil. done.
        -- apply sane_observe; [|apply Hs]. exists (length ls). simpl. split; [apply Hs|]. intros t ->.
           destruct (line_text_some _ _ _ Ht) as [Hl ->]. rewrite HL. rewrite (Hcur Hl). by apply list_lookup_middle.
      * rewrite HL. by rewrite <-app_assoc.
      * rewrite length_app. simpl. lia.
      * exists ls', cur'. split; [|done]. by rewrite <-app_assoc in H1.
    + injection H1 as <-. edestruct (IH ls (cur ++ [b]) (pre ++ [b])) as (ls' & cur' & H1 & H2); [..|exact H|].
      * split; simpl; try apply Hs; try done.
        -- rewrite last_snoc. rewrite bool_decide_false; [done|]. congruence.
        -- intros _. rewrite last_snoc. split; [by intros []%app_nil|congruence].
        -- by intros []%app_nil.
      * exact HL.
      * lia.
      * exists ls', cur'. split; [|done]. by rewrite <-app_assoc in H1.
Qed.
End scanning.

Lemma scan_bytes_app limit b1 b2 s : scan_bytes limit s (b1 ++ b2) = (s' ← scan_bytes limit s b1; scan_bytes limit s' b2).
Proof. revert s. induction b1 as [|b b1 IH]; intros s; simpl; [done|]. destruct (scan_byte limit s b) as [s1|]; simpl; [apply IH|done]. Qed.

Lemma scan_chunks_bytes limit chunks : ∀ pending s pending' s', scan_chunks limit pending s chunks = Ok (pending', s') →
  scan_bytes limit s (bytes_read chunks) = Ok s'.
Proof.
  induction chunks as [|chunk chunks IH]; intros pending s pending' s' H; simpl in H; [by injection H as _ <-|].
  destruct chunk as [|b chunk]; [by injection H as _ <-|].
  apply result_bind_ok in H as (p1 & _ & H). apply result_bind_ok in H as (s1 & H1 & H).
  change (bytes_read ((b :: chunk) :: chunks)) with ((b :: chunk) ++ bytes_read chunks). rewrite scan_bytes_app.
  change (scan_bytes limit s (b :: chunk) = Ok s1) in H1. rewrite H1. simpl. by eapply IH.
Qed.


Section pages.
Context (sha256_hex : list Z → string).

Lemma lines_length text : length (text_lines text) = length (line_byte_spans text).
Proof. by rewrite <-text_lines_spans, length_fmap. Qed.

Lemma line_count_lines text : (Z.of_nat (length text) < u64_max)%Z → logical_line_count text = Z.of_nat (length (text_lines text)).
Proof. intros H. by rewrite lines_length, line_count. Qed.

Lemma lines_bound text : length (text_lines text) ≤ length text.
Proof.
  rewrite lines_length. unfold line_byte_spans. rewrite spans_from_count by done. destruct text as [|b text]; [done|].
  rewrite (decide_False (P := _ ∧ _)) by (by intros []). case_decide as Hl.
  - rewrite Nat.add_0_r. apply length_filter.
  - rewrite filter_cons. pose proof (length_filter (λ b, b = 10%Z) text) as Hf. case_decide as Hb; [|simpl; lia].
    destruct text as [|c text]; [by subst|]. change (last (b :: c :: text)) with (last (c :: text)) in Hl.
    enough (length (filter (λ b, b = 10%Z) (c :: text)) < length (c :: text)) by (simpl in *; lia).
    clear -Hl. destruct (last (c :: text)) as [d|] eqn:E; [|by apply last_None in E].
    apply last_Some in E as [l ->]. rewrite filter_app.
    rewrite !length_app. cbn [filter list_filter]. rewrite decide_False by congruence. simpl.
    pose proof (length_filter (λ b, b = 10%Z) l). lia.
Qed.

Lemma scanned_page_ok chunks r scan : let text := bytes_read chunks in
  (Z.of_nat (length text) < u64_max)%Z → scan_text_file sha256_hex chunks r = Ok scan →
  sr_revision scan = ContentRevision_from_bytes sha256_hex text ∧ sr_total_lines scan = Z.of_nat (length (text_lines text)) ∧
  sr_ends_with_newline scan = bool_decide (last text = Some 10%Z) ∧
  ∀ line, line ∈ sr_selected scan → good (text_lines text) line.
Proof.
  intros text Hlen H. unfold scan_text_file in H. apply result_bind_ok in H as ([pending s] & Hs & H).
  apply scan_chunks_bytes in Hs. apply result_bind_ok in H as ([] & _ & H). fold text in Hs, H.
  match type of Hs with scan_bytes _ ?s0 _ = _ => assert (Hs0 : scanned (text_lines text) [] [] [] s0) end.
  { split; simpl; try done. by intros line ?%not_elem_of_nil. }
  destruct (scan_bytes_ok (text_lines text) _ text [] [] [] _ _ Hs0 eq_refl Hlen Hs) as (ls & cur & [Hn Hc He Hcur Hst Hsane] & HL).
  simpl in He, Hcur, Hst. apply result_bind_ok in H as (collector & Hcol & [= <-]). simpl.
  split; [done|]. rewrite He. destruct (decide (text = [])) as [Htext|Htext].
  { rewrite (bool_decide_true (length text = 0)) in Hcol |- * by (by rewrite Htext). simpl in Hcol |- *. injection Hcol as <-.
    split; [by rewrite Htext|]. split; [done|]. intros line Hline. apply Hsane, elem_of_app. by right. }
  rewrite (bool_decide_false (length text = 0)) in Hcol |- * by (by intros ?%length_zero_iff_nil). simpl in Hcol |- *.
  rewrite He in Hcol. destruct (decide (last text = Some 10%Z)) as [Hl|Hl].
  - rewrite (bool_decide_true _ Hl) in *. simpl in Hcol. injection Hcol as <-.
    assert (cur = []) as -> by (by apply Hcur). rewrite HL. simpl. rewrite app_nil_r.
    split; [rewrite Hn; unfold sat_sub; lia|]. split; [done|]. intros line Hline.
    pose proof (Hsane line ltac:(set_solver)) as Hg. rewrite HL in Hg. simpl in Hg. by rewrite app_nil_r in Hg.
  - rewrite (bool_decide_false _ Hl) in *. simpl in Hcol. apply result_bind_ok in Hcol as (t & Ht & [= <-]).
    assert (cur ≠ []) as Hne by (intros ?; by apply Hl, Hcur).
    assert (HL' : text_lines text = ls ++ [cur]) by (rewrite HL; simpl; by rewrite bool_decide_false).
    split; [rewrite HL', Hn, length_app; simpl; lia|]. split; [done|]. intros line Hline.
    apply (sane_observe (text_lines text) {| sl_number := ss_line_number s; sl_text := t |} (ss_collector s)); [|done|apply elem_of_app; by right].
    exists (length ls). split; [exact Hn|]. simpl. intros t' ->. destruct (line_text_some _ _ _ Ht) as [Htl ->].
    rewrite (Hc Htl), HL'. by apply list_lookup_middle.
Qed.

(** Lines [i + 1] to [i + n], as a page shows them. *)
Definition shown_lines (show : bool) (L : list (list Z)) (i n : nat) : list Z :=
  concat (imap (λ k t, rendered show (Z.of_nat (i + k) + 1) t) (take n (drop i L))).

(** Where a page begins and ends, and that its content is these lines. *)
Definition page_of (show : bool) (L : list (list Z)) (start end_ : option Z) (content : list Z) : Prop :=
  match start, end_ with
  | None, None => content = []
  | Some a, Some b => ∃ i n, n ≠ 0 ∧ i + n ≤ length L ∧ a = (Z.of_nat i + 1)%Z ∧ b = Z.of_nat (i + n) ∧ content = shown_lines show L i n
  | _, _ => False
  end.

Lemma shown_snoc show L i n t : L !! (i + n) = Some t →
  shown_lines show L i (S n) = shown_lines show L i n ++ rendered show (Z.of_nat (i + n) + 1) t.
Proof.
  intros H. unfold shown_lines. rewrite (take_S_r _ _ t) by (by rewrite lookup_drop).
  rewrite imap_app, concat_app. simpl. rewrite app_nil_r. f_equal. f_equal. f_equal. f_equal.
  rewrite length_take, length_drop. apply lookup_lt_Some in H. lia.
Qed.

Lemma render_ok r L lines : ∀ s s' full, (∀ line, line ∈ lines → good L line) → (Z.of_nat (length L) < u64_max)%Z →
  page_of (tpr_show_linenos r) L (ps_returned_start s) (ps_returned_end s) (ps_content s) →
  render_lines r lines s = inl (s', full) →
  page_of (tpr_show_linenos r) L (ps_returned_start s') (ps_returned_end s') (ps_content s').
Proof.
  induction lines as [|line lines IH]; intros s s' full Hg Hb Hp H; simpl in H; [by injection H as <- _|].
  destruct (sl_text line) as [t|] eqn:Ht; [|discriminate H]. case_match; [discriminate H|]. case_match; [by injection H as <- _|].
  destruct (Hg line) as (j & Hj & HL); [by left|]. specialize (HL _ Ht).
  assert (Hrest : ∀ l, l ∈ lines → good L l) by (intros l Hl; apply Hg; by right).
  destruct (ps_returned_end s) as [b|] eqn:Hend.
  - case_match eqn:Hne; [discriminate H|]. apply negb_false_iff, Z.eqb_eq in Hne.
    eapply (IH _ _ _ Hrest Hb); [|exact H]. simpl. unfold page_of in Hp |- *. destruct (ps_returned_start s) as [a|]; [|done].
    destruct Hp as (i & n & Hn & Hle & -> & -> & ->). exists i, (S n). rewrite sat_add_small in Hne by lia.
    assert (j = i + n) as -> by lia. apply lookup_lt_Some in HL as Hlt. split; [done|]. split; [lia|]. split; [done|]. split; [lia|].
    rewrite (shown_snoc _ _ _ _ _ HL). by rewrite Hj.
  - eapply (IH _ _ _ Hrest Hb); [|exact H]. simpl. unfold page_of in Hp |- *.
    destruct (ps_returned_start s) as [a|]; [done|]. exists j, 1. apply lookup_lt_Some in HL as Hlt.
    split; [done|]. split; [lia|]. split; [done|]. split; [lia|]. rewrite Hp.
    pose proof (shown_snoc (tpr_show_linenos r) L j 0 t) as Hsn. rewrite Nat.add_0_r in Hsn. rewrite (Hsn HL), Hj.
    unfold shown_lines. rewrite take_0. done.
Qed.

Lemma page_facts chunks r page : let text := bytes_read chunks in
  (Z.of_nat (length text) < u64_max)%Z → read_text_page sha256_hex chunks r = Ok (Page page) →
  let out := tp_output page in
  po_total_lines out = Z.of_nat (length (text_lines text)) ∧
  page_of (tpr_show_linenos r) (text_lines text) (po_returned_start out) (po_returned_end out) (po_content out) ∧
  ∀ e, tp_evidence page = Some e →
    re_path e = tpr_canonical_path r ∧ re_revision e = ContentRevision_from_bytes sha256_hex text ∧
    re_total_lines e = logical_line_count text ∧ re_ends_with_newline e = bool_decide (last text = Some 10%Z) ∧
    re_ranges e = match po_returned_start out, po_returned_end out with
                  | Some a, Some b => [{| lr_start := a; lr_end := b |}]
                  | _, _ => []
                  end ∧
    (re_complete e = true → text = [] ∨ po_returned_start out = Some 1%Z ∧ po_returned_end out = Some (po_total_lines out)).
Proof.
  intros text Hlen H. unfold read_text_page in H. apply result_bind_ok in H as (scan & Hscan & H).
  destruct (scanned_page_ok _ _ _ Hlen Hscan) as (Hrev & Htotal & Hends & Hgood). fold text in Hrev, Htotal, Hends, Hgood.
  destruct (sr_blocking_long_line scan); [discriminate H|].
  destruct (render_lines _ _ _) as [[s full]|] eqn:Hr; [|discriminate H].
  assert (HLb : (Z.of_nat (length (text_lines text)) < u64_max)%Z) by (pose proof (lines_bound text); lia).
  assert (Hpage : page_of (tpr_show_linenos r) (text_lines text) (ps_returned_start s) (ps_returned_end s) (ps_content s)).
  { eapply (render_ok _ _ _ _ _ _ Hgood HLb); [|exact Hr]. done. }
  injection H as <-. cbv zeta. simpl.
  split; [done|]. split; [done|]. intros e He. case_match; [discriminate He|]. case_match; [|discriminate He]. injection He as <-. simpl.
  split; [done|]. split; [done|]. split; [by rewrite line_count_lines|]. split; [done|]. split.
  - unfold page_of in Hpage. destruct (ps_returned_start s) as [a|], (ps_returned_end s) as [b|]; try done.
    destruct Hpage as (i & n & Hn & Hle & -> & -> & _). simpl. unfold LineRange_new.
    rewrite (proj2 (Z.ltb_lt _ _)), (proj2 (Z.leb_le _ _)) by lia. done.
  - rewrite Htotal. intros Hc. apply andb_prop in Hc as [Heof Hc].
    destruct (decide (text = [])) as [|Hne]; [by left|right].
    assert (Hz : (Z.of_nat (length (text_lines text)) =? 0)%Z = false).
    { apply Z.eqb_neq. intros Hz. apply Hne. rewrite lines_length in Hz. unfold line_byte_spans in Hz.
      destruct text as [|b text0]; [done|]. destruct (spans_from_cover (b :: text0) 0 0 0) as (i & sp & Hi & _); [lia|simpl; lia|].
      apply lookup_lt_Some in Hi. lia. }
    rewrite Hz in Hc, Heof. simpl in Hc, Heof. rewrite orb_false_r in Heof. split; [by apply bool_decide_eq_true in Hc|by apply bool_decide_eq_true in Heof].
Qed.

(** C17. A page shows the file: whatever chunks the file is read in, the page
    holds the lines from its first to its last number, complete and in order,
    and its evidence is for these lines and this content: it claims the
    whole file only where every line is on the page. *)
Theorem page_shows_the_file chunks r page : let text := bytes_read chunks in
  (Z.of_nat (length text) < u64_max)%Z → read_text_page sha256_hex chunks r = Ok (Page page) →
  let out := tp_output page in
  po_total_lines out = Z.of_nat (length (text_lines text)) ∧
  page_of (tpr_show_linenos r) (text_lines text) (po_returned_start out) (po_returned_end out) (po_content out) ∧
  ∀ e, tp_evidence page = Some e →
    re_path e = tpr_canonical_path r ∧ re_revision e = ContentRevision_from_bytes sha256_hex text ∧
    re_total_lines e = logical_line_count text ∧ re_ends_with_newline e = bool_decide (last text = Some 10%Z) ∧
    re_ranges e = match po_returned_start out, po_returned_end out with
                  | Some a, Some b => [{| lr_start := a; lr_end := b |}]
                  | _, _ => []
                  end ∧
    (re_complete e = true → text = [] ∨ po_returned_start out = Some 1%Z ∧ po_returned_end out = Some (po_total_lines out)).
Proof. exact (page_facts chunks r page). Qed.
End pages.

(** * What an edit leaves known, proved *)

(** ** Spans as sets of bytes *)

Definition covered (spans : list ByteSpan) (p : nat) : Prop := ∃ sp, sp ∈ spans ∧ bs_start sp ≤ p < bs_end sp.

(** What a caller knows that has read these line ranges of the text. *)
Definition known_at (text : list Z) (ranges : list LineRange) (p : nat) : Prop :=
  ∃ i sp, line_byte_spans text !! i = Some sp ∧ bs_start sp ≤ p < bs_end sp ∧ line_in (Z.of_nat i + 1) ranges.

Definition gap : relation ByteSpan := λ a b, bs_end a < bs_start b.
Definition span_ok (sp : ByteSpan) : Prop := bs_start sp < bs_end sp.
Definition separated (spans : list ByteSpan) : Prop := StronglySorted gap spans ∧ Forall span_ok spans.

Lemma covered_nil p : ¬ covered [] p.
Proof. by intros (sp & ?%not_elem_of_nil & _). Qed.

Lemma covered_cons sp spans p : covered (sp :: spans) p ↔ bs_start sp ≤ p < bs_end sp ∨ covered spans p.
Proof. unfold covered. setoid_rewrite elem_of_cons. naive_solver. Qed.

Lemma covered_app l1 l2 p : covered (l1 ++ l2) p ↔ covered l1 p ∨ covered l2 p.
Proof. unfold covered. setoid_rewrite elem_of_app. naive_solver. Qed.

#[export] Instance covered_perm : Proper ((≡ₚ) ==> (=) ==> iff) covered.
Proof. intros l1 l2 H p ? <-. unfold covered. by setoid_rewrite H. Qed.

Lemma merge_spans_loop_spec spans : ∀ merged,
  StronglySorted (flip gap) merged → Forall span_ok merged → Forall span_ok spans →
  StronglySorted (λ a b, bs_start a ≤ bs_start b) spans →
  (∀ lst rest sp, merged = lst :: rest → sp ∈ spans → bs_start lst ≤ bs_start sp) →
  separated (merge_spans_loop merged spans) ∧
  ∀ p, covered (merge_spans_loop merged spans) p ↔ covered merged p ∨ covered spans p.
Proof.
  induction spans as [|sp spans IH]; intros merged Hs Hok Hsok Hss Hle; simpl.
  - split; [split; [by apply StronglySorted_reverse|by apply Forall_reverse]|].
    intros p. rewrite (reverse_Permutation merged). pose proof (covered_nil p). tauto.
  - apply Forall_cons in Hsok as [Hsp Hsok]. apply StronglySorted_cons in Hss as [Hhd Hss].
    rewrite Forall_forall in Hhd. destruct merged as [|lst rest].
    + destruct (IH [sp]) as [Hn Hp]; [repeat constructor|by constructor|done|done| |].
      { intros ? ? sp' [= <- <-] Hin. by apply Hhd. }
      split; [done|]. intros p. rewrite Hp, !covered_cons. pose proof (covered_nil p). tauto.
    + apply Forall_cons in Hok as [Hlok Hok]. apply StronglySorted_cons in Hs as [Hlr Hs].
      assert (Hlst : bs_start lst ≤ bs_start sp) by (apply (Hle lst rest); [done|by left]).
      unfold span_ok in *. destruct (Nat.leb_spec (bs_start sp) (bs_end lst)).
      * destruct (IH ({| bs_start := bs_start lst; bs_end := Nat.max (bs_end lst) (bs_end sp) |} :: rest)) as [Hn Hp]; [| |done|done| |].
        -- constructor; [done|]. eapply Forall_impl; [exact Hlr|]. intros x. unfold flip, gap. simpl. lia.
        -- constructor; [simpl; lia|done].
        -- intros ? ? sp' [= <- <-] Hin. simpl. specialize (Hhd _ Hin). lia.
        -- split; [done|]. intros p. rewrite Hp, !covered_cons. cbn [bs_start bs_end].
           assert (bs_start lst ≤ p < Nat.max (bs_end lst) (bs_end sp) ↔
             bs_start lst ≤ p < bs_end lst ∨ bs_start sp ≤ p < bs_end sp) by lia. tauto.
      * destruct (IH (sp :: lst :: rest)) as [Hn Hp]; [| |done|done| |].
        -- constructor; [by constructor|]. constructor; [unfold flip, gap; lia|].
           eapply Forall_impl; [exact Hlr|]. unfold flip, gap. intros x. simpl. lia.
        -- by repeat constructor.
        -- intros ? ? sp' [= <- <-] Hin. by apply Hhd.
        -- split; [done|]. intros p. rewrite Hp, !covered_cons. tauto.
Qed.

(** Merging keeps the bytes and leaves no two spans that touch. *)
Lemma merge_byte_spans_spec spans : Forall span_ok spans →
  separated (merge_byte_spans spans) ∧ ∀ p, covered (merge_byte_spans spans) p ↔ covered spans p.
Proof.
  intros Hok. destruct (merge_spans_loop_spec (sort_by cmp_span spans) []) as [Hn Hp].
  - constructor.
  - constructor.
  - by rewrite sort_by_perm.
  - assert (Hs : StronglySorted (cmp_le cmp_span) (sort_by cmp_span spans))
      by (apply sort_by_sorted; unfold cmp_span; apply _).
    induction Hs as [|r l Hl IH Hr]; constructor; [done|].
    eapply Forall_impl; [exact Hr|]. intros r'. unfold cmp_le, cmp_span, cmp_then, cmp_on.
    destruct (Nat.compare_spec (bs_start r) (bs_start r')); [lia|lia|done].
  - done.
  - split; [done|]. intros p. unfold merge_byte_spans. rewrite Hp, sort_by_perm. pose proof (covered_nil p). tauto.
Qed.

Lemma separated_order spans a b : StronglySorted gap spans → a ∈ spans → b ∈ spans → a = b ∨ gap a b ∨ gap b a.
Proof.
  intros Hs Ha Hb. induction Hs as [|x l Hl IH Hx]; [by apply not_elem_of_nil in Ha|].
  rewrite Forall_forall in Hx. apply elem_of_cons in Ha as [->|Ha], Hb as [->|Hb]; auto.
Qed.

(** In merged spans an interval is in one span as soon as each of its bytes is
    in some span. *)
Lemma span_is_covered_spec spans a b : separated spans → a ≤ b →
  span_is_covered spans a b = true ↔ ∀ p, a ≤ p < b → covered spans p.
Proof.
  intros [Hs Hok] Hab. unfold span_is_covered. rewrite orb_true_iff, Nat.eqb_eq, existsb_exists. split.
  - intros [->|(sp & Hin%list_elem_of_In & Hc)] p Hp; [lia|]. rewrite andb_true_iff, !Nat.leb_le in Hc. exists sp. split; [done|lia].
  - intros Hall. destruct (decide (a = b)) as [|Hne]; [by left|right]. destruct (Hall a) as (sp & Hin & Hsp); [lia|].
    exists sp. split; [by apply list_elem_of_In|]. rewrite andb_true_iff, !Nat.leb_le. split; [lia|].
    destruct (Nat.le_gt_cases b (bs_end sp)) as [?|Hgt]; [done|exfalso].
    destruct (Hall (bs_end sp)) as (sp' & Hin' & Hsp'); [lia|]. rewrite Forall_forall in Hok.
    pose proof (Hok _ Hin). pose proof (Hok _ Hin'). unfold span_ok in *.
    destruct (separated_order _ sp sp' Hs Hin Hin') as [->|[Hg|Hg]]; unfold gap in *; lia.
Qed.

(** *** The lines of a text are consecutive *)

Lemma spans_from_sorted text : ∀ start index, start ≤ index →
  StronglySorted (λ a b, bs_end a ≤ bs_start b) (spans_from start index text).
Proof.
  induction text as [|b text IH]; intros start index Hle; simpl.
  - destruct (start <? index); repeat constructor.
  - destruct (b =? 10)%Z; [|apply IH; lia]. constructor; [apply IH; lia|]. apply Forall_forall. intros sp Hin.
    apply spans_from_bounds in Hin; [|lia]. simpl. lia.
Qed.

Lemma line_bounds text i sp : line_byte_spans text !! i = Some sp → span_ok sp ∧ bs_end sp ≤ length text.
Proof. intros H%list_elem_of_lookup_2. apply spans_from_bounds in H; [unfold span_ok; lia|done]. Qed.

Lemma line_order text i j a b : line_byte_spans text !! i = Some a → line_byte_spans text !! j = Some b →
  i < j → bs_end a ≤ bs_start b.
Proof.
  intros Ha Hb Hij. apply (StronglySorted_lookup_lt (λ a b, bs_end a ≤ bs_start b) (line_byte_spans text) i j); [by apply spans_from_sorted|done..].
Qed.

Lemma byte_line text p : p < length text → ∃ i sp, line_byte_spans text !! i = Some sp ∧ bs_start sp ≤ p < bs_end sp.
Proof. intros Hp. apply (spans_from_cover text 0 0 p); lia. Qed.

(** ** The bytes known before an edit *)

Lemma nth_line_of lines (n : Z) : (1 ≤ n)%Z → nth_line lines n = lines !! Z.to_nat (n - 1).
Proof. intros Hn. unfold nth_line, sat_sub. f_equal. lia. Qed.

Lemma range_span_ok text r sp : range_ok r → range_span (line_byte_spans text) r = Some sp → span_ok sp.
Proof.
  unfold range_ok, range_span. intros Hr. rewrite !nth_line_of by lia.
  destruct (_ !! Z.to_nat (lr_start r - 1)) as [a|] eqn:Ha; [|done]. destruct (_ !! Z.to_nat (lr_end r - 1)) as [b|] eqn:Hb; [|done].
  simpl. intros [= <-]. unfold span_ok. simpl. destruct (line_bounds _ _ _ Ha) as [Hoa _], (line_bounds _ _ _ Hb) as [Hob _].
  unfold span_ok in *. destruct (decide (lr_start r = lr_end r)) as [Heq|Hne]; [rewrite Heq in Ha; simplify_eq; lia|].
  pose proof (line_order _ _ _ _ _ Ha Hb). lia.
Qed.

(** A range of lines that are all in the text stands for their bytes; one that
    goes beyond is left out. *)
Lemma range_span_covers text r p : range_ok r →
  (∃ sp, range_span (line_byte_spans text) r = Some sp ∧ bs_start sp ≤ p < bs_end sp) ↔
  known_at text [r] p ∧ (lr_end r ≤ Z.of_nat (length (line_byte_spans text)))%Z.
Proof.
  unfold range_ok, range_span. intros Hr. rewrite !nth_line_of by lia. split.
  - intros (sp & H & Hp). destruct (_ !! Z.to_nat (lr_start r - 1)) as [a|] eqn:Ha; [|done].
    destruct (_ !! Z.to_nat (lr_end r - 1)) as [b|] eqn:Hb; [|done]. injection H as <-. simpl in Hp.
    apply lookup_lt_Some in Hb as Hlt. split; [|lia]. destruct (line_bounds _ _ _ Hb) as [_ Hlen].
    destruct (byte_line text p) as (i & sp & Hi & Hsp); [lia|]. exists i, sp. split; [done|]. split; [done|].
    exists r. split; [by apply list_elem_of_singleton|]. split.
    + destruct (decide (i < Z.to_nat (lr_start r - 1))) as [Hlt'|]; [|lia]. pose proof (line_order _ _ _ _ _ Hi Ha Hlt'). lia.
    + destruct (decide (Z.to_nat (lr_end r - 1) < i)) as [Hlt'|]; [|lia]. pose proof (line_order _ _ _ _ _ Hb Hi Hlt'). lia.
  - intros [(i & sp & Hi & Hsp & r' & ->%list_elem_of_singleton & Hir) Hlen].
    destruct (lookup_lt_is_Some_2 (line_byte_spans text) (Z.to_nat (lr_start r - 1))) as [a Ha]; [lia|].
    destruct (lookup_lt_is_Some_2 (line_byte_spans text) (Z.to_nat (lr_end r - 1))) as [b Hb]; [lia|].
    rewrite Ha, Hb. simpl. eexists. split; [done|]. simpl. split.
    + destruct (decide (Z.to_nat (lr_start r - 1) = i)) as [Heq|]; [rewrite Heq in Ha; simplify_eq; lia|].
      pose proof (line_order _ _ _ _ _ Ha Hi). pose proof (line_bounds _ _ _ Ha) as [? _]. unfold span_ok in *. lia.
    + destruct (decide (Z.to_nat (lr_end r - 1) = i)) as [Heq|]; [rewrite Heq in Hb; simplify_eq; lia|].
      pose proof (line_order _ _ _ _ _ Hi Hb). pose proof (line_bounds _ _ _ Hb) as [? _]. unfold span_ok in *. lia.
Qed.

Definition in_text (text : list Z) (r : LineRange) : Prop := range_ok r ∧ (lr_end r ≤ Z.of_nat (length (line_byte_spans text)))%Z.

Lemma known_byte_spans_spec text ranges : Forall (in_text text) ranges →
  separated (known_byte_spans (line_byte_spans text) ranges) ∧
  ∀ p, covered (known_byte_spans (line_byte_spans text) ranges) p ↔ known_at text ranges p.
Proof.
  intros Hr. rewrite Forall_forall in Hr.
  destruct (merge_byte_spans_spec (omap (range_span (line_byte_spans text)) ranges)) as [Hs Hp].
  { apply Forall_forall. intros sp (r & Hin & Hsp)%list_elem_of_omap. eapply range_span_ok; [|exact Hsp]. by apply Hr. }
  split; [done|]. intros p. unfold known_byte_spans. rewrite Hp. unfold covered. setoid_rewrite list_elem_of_omap. split.
  - intros (sp & (r & Hin & Hsp) & Hpp). destruct (proj1 (range_span_covers text r p (proj1 (Hr r Hin)))) as [(i & l & Hi & Hl & Hl') _]; [by exists sp|].
    exists i, l. split; [done|]. split; [done|]. destruct Hl' as (r' & ->%list_elem_of_singleton & H). by exists r.
  - intros (i & l & Hi & Hl & r & Hin & Hlr). destruct (proj2 (range_span_covers text r p (proj1 (Hr r Hin)))) as (sp & Hsp & Hpp).
    { split; [|by apply Hr]. exists i, l. split; [done|]. split; [done|]. exists r. split; [by apply list_elem_of_singleton|done]. }
    exists sp. split; [|done]. by exists r.
Qed.

(** ** The bytes known after an edit *)

(** The byte at [q] after the edit is one of the replacement, or was known
    where it was before. *)
Definition kept_known (known : nat → Prop) (edit_start edit_end replacement_len q : nat) : Prop :=
  edit_start ≤ q < edit_start + replacement_len
  ∨ q < edit_start ∧ known q
  ∨ edit_start + replacement_len ≤ q ∧ known (q - (edit_start + replacement_len) + edit_end).

Lemma transform_span_spec es ee n sp q : es ≤ ee → span_ok sp →
  covered (List.filter (λ s, bs_start s <? bs_end s) (transform_span es ee n sp)) q ↔
  q < es ∧ bs_start sp ≤ q < bs_end sp
  ∨ es + n ≤ q ∧ bs_start sp ≤ q - (es + n) + ee < bs_end sp.
Proof.
  intros Hle Hok. unfold transform_span, shift_offset, span_ok in *. rewrite List.filter_app, covered_app.
  assert (Hnil : covered [] q ↔ False) by (split; [apply covered_nil|done]).
  destruct (Nat.ltb_spec (bs_start sp) es), (Nat.ltb_spec ee (bs_end sp)); simpl;
    repeat match goal with |- context [(?a <? ?b)%nat] => destruct (Nat.ltb_spec a b) end;
    rewrite ?covered_cons, ?Hnil; cbn [bs_start bs_end]; lia.
Qed.

Lemma covered_filter_flat_map (f : ByteSpan → list ByteSpan) keep spans q :
  covered (List.filter keep (flat_map f spans)) q ↔ ∃ sp, sp ∈ spans ∧ covered (List.filter keep (f sp)) q.
Proof.
  induction spans as [|sp spans IH]; simpl.
  - split; [by intros ?%covered_nil|by intros (? & ?%not_elem_of_nil & _)].
  - rewrite List.filter_app, covered_app, IH. setoid_rewrite elem_of_cons. naive_solver.
Qed.

Lemma transform_spans_spec spans es ee n q : es ≤ ee → Forall span_ok spans →
  covered (transform_spans spans es ee n) q ↔ kept_known (covered spans) es ee n q.
Proof.
  intros Hle Hok. unfold transform_spans, kept_known. rewrite List.filter_app, covered_app, covered_filter_flat_map.
  rewrite Forall_forall in Hok.
  assert (Hnew : covered (List.filter (λ s, bs_start s <? bs_end s) (if 0 <? n then [{| bs_start := es; bs_end := es + n |}] else [])) q
                 ↔ es ≤ q < es + n).
  { pose proof (covered_nil q). destruct (Nat.ltb_spec 0 n); simpl; [|split; [done|lia]].
    destruct (Nat.ltb_spec es (es + n)); [|lia]. rewrite covered_cons. cbn [bs_start bs_end]. tauto. }
  rewrite Hnew. unfold covered. split.
  - intros [(sp & Hin & H)|?]; [|by left]. apply (transform_span_spec es ee n sp q Hle (Hok _ Hin)) in H. naive_solver.
  - intros [?|H]; [by right|left].
    assert (∃ sp, sp ∈ spans ∧ (q < es ∧ bs_start sp ≤ q < bs_end sp ∨ es + n ≤ q ∧ bs_start sp ≤ q - (es + n) + ee < bs_end sp))
      as (sp & Hin & Hq) by naive_solver.
    exists sp. split; [done|]. by apply (transform_span_spec es ee n sp q Hle (Hok _ Hin)).
Qed.

Lemma transform_spans_ok spans es ee n : Forall span_ok (transform_spans spans es ee n).
Proof.
  apply Forall_forall. intros sp Hin. unfold transform_spans in Hin. apply list_elem_of_In, List.filter_In in Hin as [_ H].
  by apply Nat.ltb_lt in H.
Qed.

(** One line of the loop. *)
Definition project_step (spans : list ByteSpan) (number : Z) (line : ByteSpan) (ranges : list LineRange) : list LineRange :=
  if span_is_covered spans (bs_start line) (bs_end line) then
    match ranges with
    | last :: ranges' =>
        if (sat_add u64_max (lr_end last) 1 =? number)%Z then {| lr_start := lr_start last; lr_end := number |} :: ranges'
        else option_list (LineRange_new number number) ++ ranges
    | [] => option_list (LineRange_new number number)
    end
  else ranges.

Lemma project_loop_step spans number line lines ranges :
  project_loop spans number (line :: lines) ranges =
  project_loop spans (sat_add u64_max number 1) lines (project_step spans number line ranges).
Proof. unfold project_step. simpl. repeat case_match; done. Qed.

Definition ends_before (number : Z) (r : LineRange) : Prop := range_ok r ∧ (lr_end r < number)%Z.

Lemma project_step_spec spans number line ranges : (1 ≤ number < u64_max)%Z → Forall (ends_before number) ranges →
  Forall (ends_before (number + 1)) (project_step spans number line ranges) ∧
  ∀ l, line_in l (project_step spans number line ranges) ↔
    line_in l ranges ∨ l = number ∧ span_is_covered spans (bs_start line) (bs_end line) = true.
Proof.
  intros Hn Hr. unfold project_step.
  assert (Hwk : Forall (ends_before (number + 1)) ranges).
  { eapply Forall_impl; [exact Hr|]. intros r [? ?]. split; [done|lia]. }
  assert (LineRange_new number number = Some {| lr_start := number; lr_end := number |}) as ->.
  { unfold LineRange_new. by rewrite (proj2 (Z.ltb_lt _ _)), (proj2 (Z.leb_le _ _)) by lia. }
  assert (Hnew : ends_before (number + 1) {| lr_start := number; lr_end := number |}) by (split; [unfold range_ok|]; simpl; lia).
  assert (Hin : ∀ rs l, line_in l ({| lr_start := number; lr_end := number |} :: rs) ↔ line_in l rs ∨ l = number).
  { intros rs l. rewrite line_in_cons. simpl. assert ((number ≤ l ≤ number)%Z ↔ l = number) by lia. tauto. }
  destruct (span_is_covered _ _ _); [|split; [done|]; naive_solver].
  destruct ranges as [|lst ranges]; simpl.
  { split; [by constructor|]. intros l. rewrite Hin. naive_solver. }
  destruct (Z.eqb_spec (sat_add u64_max (lr_end lst) 1) number) as [Heq|Hne].
  - apply Forall_cons in Hr as [[Hok Hlt] Hr]. apply Forall_cons in Hwk as [_ Hwk]. unfold range_ok in Hok.
    rewrite sat_add_small in Heq by lia. split.
    + constructor; [|done]. split; [unfold range_ok|]; simpl; lia.
    + intros l. rewrite !line_in_cons. simpl.
      assert ((lr_start lst ≤ l ≤ number)%Z ↔ (lr_start lst ≤ l ≤ lr_end lst)%Z ∨ l = number) by lia. naive_solver.
  - split; [by constructor|]. intros l. rewrite Hin. naive_solver.
Qed.

(** The ranges of the lines that are covered, and no other lines. *)
Lemma project_loop_spec spans lines : ∀ number ranges, (1 ≤ number)%Z → (number + Z.of_nat (length lines) ≤ u64_max)%Z →
  Forall (ends_before number) ranges →
  Forall (ends_before (number + Z.of_nat (length lines))) (project_loop spans number lines ranges) ∧
  ∀ l, line_in l (project_loop spans number lines ranges) ↔
    line_in l ranges ∨ ∃ i line, lines !! i = Some line ∧ l = (number + Z.of_nat i)%Z ∧ span_is_covered spans (bs_start line) (bs_end line) = true.
Proof.
  induction lines as [|line lines IH]; intros number ranges Hn Hmax Hr.
  { cbn [project_loop length]. rewrite Z.add_0_r. split; [by apply Forall_reverse|]. intros l. rewrite (line_in_perm l _ _ (reverse_Permutation ranges)).
    split; [by left|]. by intros [?|(i & ? & ? & _)]. }
  rewrite project_loop_step. cbn [length] in Hmax |- *. rewrite sat_add_small by lia.
  destruct (project_step_spec spans number line ranges) as [Hs1 Hs2]; [lia|done|].
  destruct (IH (number + 1)%Z (project_step spans number line ranges)) as [H1 H2]; [lia|lia|done|].
  replace (number + 1 + Z.of_nat (length lines))%Z with (number + Z.of_nat (S (length lines)))%Z in H1 by lia.
  split; [done|]. intros l. rewrite H2, Hs2. split.
  - intros [[?|[-> ?]]|(i & ln & Hi & -> & ?)]; [by left|right; exists 0, line; split; [done|]; split; [lia|done]|].
    right. exists (S i), ln. split; [done|]. split; [lia|done].
  - intros [?|(i & ln & Hi & -> & Hc)]; [by left; left|]. destruct i as [|i]; simpl in Hi.
    + injection Hi as <-. left. right. split; [lia|done].
    + right. exists i, ln. split; [done|]. split; [lia|done].
Qed.

(** ** The migration *)

Definition edited (before new : list Z) (edit_start edit_end : nat) : list Z := take edit_start before ++ new ++ drop edit_end before.

Lemma project_known_spec text spans : separated spans → (Z.of_nat (length text) < u64_max)%Z →
  Forall (in_text text) (project_known_line_ranges (line_byte_spans text) spans) ∧
  ∀ l, line_in l (project_known_line_ranges (line_byte_spans text) spans) ↔
    ∃ i line, line_byte_spans text !! i = Some line ∧ l = (Z.of_nat i + 1)%Z ∧ ∀ q, bs_start line ≤ q < bs_end line → covered spans q.
Proof.
  intros Hs Hlen. pose proof (lines_bound text) as Hb. rewrite lines_length in Hb.
  destruct (project_loop_spec spans (line_byte_spans text) 1 []) as [H1 H2]; [lia|lia|constructor|]. split.
  - eapply Forall_impl; [exact H1|]. intros r [? ?]. split; [done|lia].
  - intros l. unfold project_known_line_ranges. rewrite H2. split.
    + intros [(? & ?%not_elem_of_nil & _)|(i & line & Hi & -> & Hc)]; [done|]. exists i, line. split; [done|]. split; [lia|].
      apply span_is_covered_spec; [done| |done]. destruct (line_bounds _ _ _ Hi). unfold span_ok in *. lia.
    + intros (i & line & Hi & -> & Hc). right. exists i, line. split; [done|]. split; [lia|].
      apply span_is_covered_spec; [done| |done]. destruct (line_bounds _ _ _ Hi). unfold span_ok in *. lia.
Qed.

Lemma kept_known_ext (P Q : nat → Prop) es ee n q : (∀ p, P p ↔ Q p) → kept_known P es ee n q ↔ kept_known Q es ee n q.
Proof. intros H. unfold kept_known. by rewrite !H. Qed.

Lemma known_after_spec before ranges es ee n : es ≤ ee → Forall (in_text before) ranges →
  let known := merge_byte_spans (transform_spans (known_byte_spans (line_byte_spans before) ranges) es ee n) in
  separated known ∧ ∀ q, covered known q ↔ kept_known (known_at before ranges) es ee n q.
Proof.
  intros Hle Hr. destruct (known_byte_spans_spec _ _ Hr) as [[Hks Hkok] Hk].
  destruct (merge_byte_spans_spec _ (transform_spans_ok (known_byte_spans (line_byte_spans before) ranges) es ee n)) as [Hs Hc].
  split; [exact Hs|]. intros q. rewrite Hc, transform_spans_spec by done. by apply kept_known_ext.
Qed.

Lemma migration_facts before new authority edit_start edit_end m :
  let after := edited before new edit_start edit_end in
  let known := kept_known (known_at before (ra_ranges authority)) edit_start edit_end (length new) in
  edit_start ≤ edit_end ≤ length before → (Z.of_nat (length after) < u64_max)%Z →
  Forall (in_text before) (ra_ranges authority) → ra_complete authority = false →
  migrate_edit_coverage before after authority edit_start edit_end (length new) = Ok m →
  (∀ p, edit_start ≤ p < edit_end → known_at before (ra_ranges authority) p) ∧
  Forall (in_text after) (cm_ranges m) ∧
  (∀ l, line_in l (cm_ranges m) ↔
    ∃ i line, line_byte_spans after !! i = Some line ∧ l = (Z.of_nat i + 1)%Z ∧ ∀ q, bs_start line ≤ q < bs_end line → known q) ∧
  (∀ q, edit_start ≤ q < edit_start + length new → known_at after (cm_ranges m) q) ∧
  (cm_complete m = true → ∀ q, q < length after → known q).
Proof.
  intros after known Hspan Hlen Hr Hpart H. unfold migrate_edit_coverage in H. rewrite Hpart in H.
  case_match; [discriminate H|]. case_match eqn:Hcov; [discriminate H|]. case_match eqn:Htouch; [discriminate H|]. injection H as <-.
  apply negb_false_iff in Hcov, Htouch. destruct (known_byte_spans_spec _ _ Hr) as [Hks Hk].
  destruct (known_after_spec before (ra_ranges authority) edit_start edit_end (length new)) as [Hs Hc]; [lia|done|].
  fold known in Hc. destruct (project_known_spec after _ Hs Hlen) as [Hin Hlines]. cbn [cm_ranges cm_complete].
  setoid_rewrite Hc in Hlines. split; [|split; [exact Hin|split; [exact Hlines|split]]].
  - intros p Hp. apply Hk. eapply span_is_covered_spec; [exact Hks| |exact Hcov|exact Hp]. lia.
  - intros q Hq. destruct (byte_line after q) as (i & line & Hi & Hline).
    { unfold after, edited. rewrite !length_app, length_take. lia. }
    exists i, line. split; [done|]. split; [done|]. apply Hlines. exists i, line. split; [done|]. split; [done|].
    rewrite forallb_forall in Htouch. specialize (Htouch line). intros q' Hq'. apply Hc. eapply span_is_covered_spec; [exact Hs| |apply Htouch|exact Hq'].
    + lia.
    + apply List.filter_In. split; [by apply list_elem_of_In, (list_elem_of_lookup_2 _ i)|].
      destruct (Nat.eqb_spec edit_start (edit_start + length new)); [lia|]. apply andb_true_intro. rewrite !Nat.ltb_lt. lia.
  - intros Hcm q Hq. destruct (byte_line after q Hq) as (i & line & Hi & Hline). destruct after as [|b after'] eqn:Ha; [simpl in Hq; lia|].
    rewrite <-Ha in *. destruct (project_known_line_ranges _ _) as [|r [|]]; [done| |done]. apply andb_prop in Hcm as [H1%Z.eqb_eq H2%Z.eqb_eq].
    apply lookup_lt_Some in Hi as Hlt. destruct (proj1 (Hlines (Z.of_nat i + 1)%Z)) as (j & line' & Hj & Heq & Hall).
    { exists r. split; [by apply list_elem_of_singleton|]. lia. }
    assert (j = i) as -> by lia. simplify_eq. by apply Hall.
Qed.

(** C16. What a caller knows after an edit is what it knew and what it wrote: a
    caller that has not read the whole file replaces only bytes it has read;
    afterwards a line counts as read exactly if each of its bytes comes from
    the replacement or was in a line read before, the lines that the
    replacement made or joined do, and the whole file counts as read only if
    all of it is known in this way. *)
Theorem edit_coverage_exact before new authority edit_start edit_end m :
  let after := edited before new edit_start edit_end in
  let known := kept_known (known_at before (ra_ranges authority)) edit_start edit_end (length new) in
  edit_start ≤ edit_end ≤ length before → (Z.of_nat (length after) < u64_max)%Z →
  Forall (in_text before) (ra_ranges authority) → ra_complete authority = false →
  migrate_edit_coverage before after authority edit_start edit_end (length new) = Ok m →
  (∀ p, edit_start ≤ p < edit_end → known_at before (ra_ranges authority) p) ∧
  Forall (in_text after) (cm_ranges m) ∧
  (∀ l, line_in l (cm_ranges m) ↔
    ∃ i line, line_byte_spans after !! i = Some line ∧ l = (Z.of_nat i + 1)%Z ∧ ∀ q, bs_start line ≤ q < bs_end line → known q) ∧
  (∀ q, edit_start ≤ q < edit_start + length new → known_at after (cm_ranges m) q) ∧
  (cm_complete m = true → ∀ q, q < length after → known q).
Proof. exact (migration_facts before new authority edit_start edit_end m). Qed.

(** *** What is known is editable *)

Lemma position_bound {A} (p : A → bool) l : l ≠ [] → default (length l - 1) (position p l) < length l.
Proof.
  assert (H : ∀ i, position p l = Some i → i < length l).
  { induction l as [|x l IH]; simpl; intros i Hi; [done|]. destruct (p x); [injection Hi as <-; lia|].
    destruct (position p l) as [j|]; [|done]. injection Hi as <-. specialize (IH _ eq_refl). lia. }
  intros Hl. destruct (position p l) as [i|]; simpl; [by apply H|]. destruct l; [done|simpl; lia].
Qed.

Lemma position_mono {A} (p1 p2 : A → bool) l : (∀ x, p2 x = true → p1 x = true) → l ≠ [] →
  default (length l - 1) (position p1 l) ≤ default (length l - 1) (position p2 l).
Proof.
  intros Hp Hl. assert (H : ∀ i, position p2 l = Some i → ∃ j, position p1 l = Some j ∧ j ≤ i).
  { induction l as [|x l IH]; simpl; intros i Hi; [done|]. destruct (p2 x) eqn:E.
    - rewrite (Hp _ E). injection Hi as <-. by exists 0.
    - destruct (p1 x); [exists 0; split; [done|lia]|]. destruct (position p2 l) as [j|] eqn:Ej; [|done]. injection Hi as <-.
      destruct l as [|y l]; [done|]. destruct (IH ltac:(done) _ eq_refl) as (j' & -> & Hj). exists (S j'). split; [done|lia]. }
  destruct (position p2 l) as [i|]; simpl; [destruct (H i eq_refl) as (j & -> & Hj); done|]. pose proof (position_bound p1 l Hl). lia.
Qed.

Lemma affected_range lines start end_ : lines ≠ [] → ∃ r, line_range_for_byte_range lines start end_ = Some r ∧
  (1 ≤ lr_start r ≤ lr_end r)%Z ∧ (lr_end r ≤ Z.of_nat (length lines))%Z.
Proof.
  intros Hl. unfold line_range_for_byte_range. destruct lines as [|line lines]; [done|].
  set (p1 := λ ln, start <? bs_end ln). set (p2 := λ ln, Nat.max (end_ - 1) start <? bs_end ln).
  pose proof (position_bound p2 _ Hl) as Hb. assert (Hm := position_mono p1 p2 (line :: lines)). revert Hb Hm.
  generalize (default (length (line :: lines) - 1) (position p1 (line :: lines))), (default (length (line :: lines) - 1) (position p2 (line :: lines))).
  intros first last Hb Hm. assert (first ≤ last).
  { apply Hm; [|done]. intros x. unfold p1, p2. rewrite !Nat.ltb_lt. lia. }
  unfold LineRange_new. rewrite (proj2 (Z.ltb_lt _ _)), (proj2 (Z.leb_le _ _)) by lia. eexists. split; [done|]. simpl in *. lia.
Qed.

(** *** What an edit depends on *)

Lemma spans_from_inner text : ∀ start index sp x, sp ∈ spans_from start index text → start ≤ index → index ≤ x → bs_start sp ≤ x → S x < bs_end sp →
  text !! (x - index) ≠ Some 10%Z.
Proof.
  induction text as [|b text IH]; intros start index sp x Hin Hle Hx Hs He; simpl in *; [done|].
  destruct (Z.eqb_spec b 10) as [->|Hb].
  - apply elem_of_cons in Hin as [->|Hin]; [simpl in *; lia|]. pose proof (spans_from_bounds _ _ _ _ Hin (Nat.le_refl _)).
    replace (x - index) with (S (x - S index)) by lia. simpl. eapply IH; [exact Hin|lia..].
  - destruct (decide (x = index)) as [->|]; [rewrite Nat.sub_diag; simpl; congruence|].
    replace (x - index) with (S (x - S index)) by lia. simpl. eapply IH; [exact Hin|lia..].
Qed.

Lemma spans_from_end text : ∀ start index sp, sp ∈ spans_from start index text → start ≤ index → bs_end sp < index + length text →
  index < bs_end sp ∧ text !! (bs_end sp - 1 - index) = Some 10%Z.
Proof.
  induction text as [|b text IH]; intros start index sp Hin Hle He; simpl in *.
  - destruct (Nat.ltb_spec start index); [|by apply not_elem_of_nil in Hin]. apply list_elem_of_singleton in Hin as ->. simpl in *. lia.
  - destruct (Z.eqb_spec b 10) as [->|Hb].
    + apply elem_of_cons in Hin as [->|Hin]; [cbn [bs_end]; split; [lia|]; by replace (S index - 1 - index) with 0 by lia|].
      destruct (IH _ _ _ Hin) as [H1 H2]; [lia|lia|]. split; [lia|]. replace (bs_end sp - 1 - index) with (S (bs_end sp - 1 - S index)) by lia. done.
    + destruct (IH _ _ _ Hin) as [H1 H2]; [lia|lia|]. split; [lia|]. replace (bs_end sp - 1 - index) with (S (bs_end sp - 1 - S index)) by lia. done.
Qed.

(** The byte at [p] is in the line with index [i]. *)
Definition in_line (text : list Z) (i p : nat) : Prop := ∃ sp, line_byte_spans text !! i = Some sp ∧ bs_start sp ≤ p < bs_end sp.

Lemma in_line_exists text p : p < length text → ∃ i, in_line text i p.
Proof. intros Hp. destruct (byte_line text p Hp) as (i & sp & H). by exists i, sp. Qed.

Lemma in_line_mono text i j p q : in_line text i p → in_line text j q → p ≤ q → i ≤ j.
Proof.
  intros (a & Ha & Hp) (b & Hb & Hq) Hpq. destruct (Nat.le_gt_cases i j) as [|Hlt]; [done|].
  pose proof (line_order _ _ _ _ _ Hb Ha Hlt). lia.
Qed.

Lemma in_line_same text i p q : in_line text i p → p ≤ q < length text → (∀ x, p ≤ x < q → text !! x ≠ Some 10%Z) → in_line text i q.
Proof.
  intros (sp & Hsp & Hp) Hq Hno. exists sp. split; [done|]. split; [lia|]. destruct (Nat.lt_ge_cases q (bs_end sp)) as [|Hge]; [done|].
  apply list_elem_of_lookup_2 in Hsp. destruct (spans_from_end _ _ _ _ Hsp) as [_ Hnl]; [done|lia|].
  rewrite Nat.sub_0_r in Hnl. destruct (Hno (bs_end sp - 1)); [lia|done].
Qed.

Lemma in_line_next text i j p : in_line text i p → in_line text j (S p) → j ≤ S i.
Proof.
  intros (a & Ha & Hp) (b & Hb & Hq). destruct (Nat.le_gt_cases j (S i)) as [|Hlt]; [done|]. exfalso.
  destruct (lookup_lt_is_Some_2 (line_byte_spans text) (S i)) as [c Hc]; [apply lookup_lt_Some in Hb; lia|].
  pose proof (line_order _ _ _ _ _ Ha Hc (Nat.lt_succ_diag_r i)). pose proof (line_order _ _ _ _ _ Hc Hb Hlt).
  destruct (line_bounds _ _ _ Hc). unfold span_ok in *. lia.
Qed.

(** The search for the line of a byte finds it. *)
Lemma position_line text p : p < length text →
  ∃ i, position (λ line, p <? bs_end line) (line_byte_spans text) = Some i ∧ in_line text i p.
Proof.
  intros Hp. destruct (in_line_exists text p Hp) as (j & sp & Hj & Hsp).
  assert (H : ∀ l : list ByteSpan, StronglySorted (λ a b, bs_end a ≤ bs_start b) l → ∀ j, l !! j = Some sp → position (λ line, p <? bs_end line) l = Some j).
  { induction 1 as [|x l Hl IH Hx]; intros k Hk; [done|]. simpl. destruct k as [|k]; simpl in Hk.
    - injection Hk as ->. by rewrite (proj2 (Nat.ltb_lt _ _)) by lia.
    - rewrite Forall_forall in Hx. specialize (Hx sp (list_elem_of_lookup_2 _ _ _ Hk)).
      rewrite (proj2 (Nat.ltb_ge _ _)) by lia. by rewrite (IH _ Hk). }
  exists j. split; [|by exists sp]. apply H; [by apply spans_from_sorted|done].
Qed.

Lemma position_none text p : length text ≤ p → position (λ line, p <? bs_end line) (line_byte_spans text) = None.
Proof.
  intros Hp. assert (H : Forall (λ line, bs_end line ≤ p) (line_byte_spans text)).
  { apply Forall_lookup. intros i sp Hi. destruct (line_bounds _ _ _ Hi). lia. }
  induction H as [|sp l Hsp _ IH]; [done|]. simpl. rewrite (proj2 (Nat.ltb_ge _ _)) by lia. by rewrite IH.
Qed.

Lemma in_line_bound text i p : in_line text i p → i < length (line_byte_spans text) ∧ p < length text.
Proof. intros (sp & Hsp & Hp). destruct (line_bounds _ _ _ Hsp). split; [by eapply lookup_lt_Some|lia]. Qed.

Definition line_index (text : list Z) (x : nat) : nat :=
  default (length (line_byte_spans text) - 1) (position (λ line, x <? bs_end line) (line_byte_spans text)).

(** It is the line of the byte, or the last line for the end of the text. *)
Lemma line_index_in text x : x < length text → in_line text (line_index text x) x.
Proof. intros Hx. unfold line_index. by destruct (position_line text x Hx) as (i & -> & Hi). Qed.

Lemma line_index_after text i p x : in_line text i p → p ≤ x → i ≤ line_index text x.
Proof.
  intros Hi Hp. destruct (Nat.lt_ge_cases x (length text)) as [Hx|Hx].
  - by eapply in_line_mono; [exact Hi|by apply line_index_in|].
  - unfold line_index. rewrite position_none by done. apply in_line_bound in Hi. simpl. lia.
Qed.

Lemma line_index_before text i x : in_line text i x → line_index text (S x) ≤ S i.
Proof.
  intros Hi. destruct (in_line_bound _ _ _ Hi) as [_ Hx]. destruct (Nat.lt_ge_cases (S x) (length text)) as [Hlt|Hge].
  - by eapply in_line_next; [|apply line_index_in].
  - unfold line_index. rewrite position_none by done. simpl. destruct (line_byte_spans text) as [|sp l] eqn:E using rev_ind; [simpl; lia|].
    rewrite length_app. simpl. assert (Hl : line_byte_spans text !! length l = Some sp) by (by rewrite E, list_lookup_middle).
    destruct (line_bounds _ _ _ Hl) as [Hok Hend]. unfold span_ok in Hok.
    assert (length l ≤ i); [|lia]. eapply (in_line_mono text (length l) i (bs_start sp) x); [exists sp; split; [done|lia]|done|lia].
Qed.

(** The lines that an edit affects: those of the bytes it replaces, and the
    line before and the line after them at most one further. *)
Lemma affected_facts text es ee : es ≤ ee ≤ length text → text ≠ [] →
  ∃ first last, line_range_for_byte_range (line_byte_spans text) es ee = Some {| lr_start := Z.of_nat first + 1; lr_end := Z.of_nat last + 1 |} ∧
    first ≤ last < length (line_byte_spans text) ∧
    (∀ i p, in_line text i p → es ≤ p < ee → first ≤ i ≤ last) ∧
    (∀ i p, in_line text i p → S p = es → first ≤ S i ∧ i ≤ last) ∧
    (∀ i, in_line text i ee → first ≤ i ≤ S last).
Proof.
  intros Hspan Hne. destruct (in_line_exists text 0) as [i0 H0]; [destruct text; [done|simpl; lia]|].
  destruct (in_line_bound _ _ _ H0) as [Hi0 _].
  assert (Hl : line_byte_spans text ≠ []) by (intros E; rewrite E in Hi0; simpl in Hi0; lia).
  destruct (affected_range (line_byte_spans text) es ee Hl) as (r & Hr & Hr1 & Hr2).
  assert (r = {| lr_start := Z.of_nat (line_index text es) + 1; lr_end := Z.of_nat (line_index text (Nat.max (ee - 1) es)) + 1 |}) as ->.
  { unfold line_range_for_byte_range in Hr. destruct (line_byte_spans text) as [|sp l] eqn:E; [done|].
    unfold LineRange_new in Hr. destruct (_ && _); [|done]. injection Hr as <-. unfold line_index. by rewrite E. }
  exists (line_index text es), (line_index text (Nat.max (ee - 1) es)). cbn [lr_start lr_end] in *. split; [done|]. split; [lia|].
  assert (Hmono : ∀ i p x, in_line text i p → x ≤ p → line_index text x ≤ i).
  { intros i p x Hi Hx. destruct (in_line_bound _ _ _ Hi) as [_ Hp]. eapply in_line_mono; [|exact Hi|exact Hx]. apply line_index_in. lia. }
  split; [|split].
  - intros i p Hi Hp. split; [eapply Hmono; [done|lia]|eapply line_index_after; [done|lia]].
  - intros i p Hi <-. split; [by apply line_index_before|eapply line_index_after; [done|lia]].
  - intros i Hi. split; [eapply Hmono; [done|lia]|]. destruct (decide (es = ee)) as [->|Hlt].
    + rewrite Nat.max_r by lia. apply le_S. eapply (in_line_mono text i _ ee ee); [done|apply line_index_in; by apply in_line_bound in Hi as [_ ?]|done].
    + rewrite Nat.max_l by lia. apply (in_line_next text _ _ (ee - 1)).
      * apply line_index_in. apply in_line_bound in Hi. lia.
      * by replace (S (ee - 1)) with ee by lia.
Qed.

(** A byte that an edit may join to what it writes is near an affected line. *)
Lemma touched_line before new es ee line q :
  let after := edited before new es ee in
  es ≤ ee ≤ length before → line ∈ touched_result_lines (line_byte_spans after) es (es + length new) →
  line ∈ line_byte_spans after ∧
  (bs_start line ≤ q < bs_end line → q < es → ∀ i, in_line before i q → ∃ p, S p = es ∧ in_line before i p) ∧
  (bs_start line ≤ q < bs_end line → es + length new ≤ q → ∀ i, in_line before i (q - (es + length new) + ee) → in_line before i ee).
Proof.
  intros after Hspan [Hin Ht]%list_elem_of_In%List.filter_In. apply list_elem_of_In in Hin. split; [done|].
  assert (Hb : bs_start line ≤ es + length new ∧ es ≤ bs_end line).
  { destruct (Nat.eqb_spec es (es + length new)); apply andb_prop in Ht as [H1 H2]; rewrite ?Nat.leb_le, ?Nat.ltb_lt in *; lia. }
  assert (Hno : ∀ x, bs_start line ≤ x → S x < bs_end line → after !! x ≠ Some 10%Z).
  { intros x H1 H2. pose proof (spans_from_inner after 0 0 line x Hin) as H. rewrite Nat.sub_0_r in H. apply H; lia. }
  assert (Hend : bs_end line ≤ length after).
  { apply spans_from_bounds in Hin; [|done]. lia. }
  unfold after, edited in Hno, Hend. rewrite !length_app, length_take, length_drop in Hend. split.
  - intros Hq Hlt i Hi. exists (es - 1). split; [lia|]. eapply in_line_same; [exact Hi|lia|].
    intros x Hx. specialize (Hno x). rewrite lookup_app_l, lookup_take_lt in Hno by (rewrite ?length_take; lia). apply Hno; lia.
  - intros Hq Hge i Hi. destruct (in_line_exists before ee) as [j Hj]; [apply in_line_bound in Hi; lia|].
    assert (in_line before j (q - (es + length new) + ee)) as Hj'.
    { eapply in_line_same; [exact Hj|apply in_line_bound in Hi; lia|]. intros x Hx. specialize (Hno (x - ee + (es + length new))).
      rewrite lookup_app_r, lookup_app_r, lookup_drop in Hno by (rewrite ?length_take; lia). rewrite length_take in Hno.
      replace (ee + (x - ee + (es + length new) - es `min` length before - length new)) with x in Hno by lia. apply Hno; lia. }
    assert (i = j) as ->; [|done]. apply Nat.le_antisymm; by eapply in_line_mono.
Qed.

Lemma known_in_line text ranges i p : in_line text i p → line_in (Z.of_nat i + 1) ranges → known_at text ranges p.
Proof. intros (sp & Hi & Hp) Hl. by exists i, sp. Qed.

(** With the lines of [suggested_read_range] known an edit is accepted. *)
Lemma suggested_range_suffices before new a es ee : before ≠ [] → es ≤ ee ≤ length before →
  (Z.of_nat (length before) < u64_max)%Z → Forall (in_text before) (ra_ranges a) → normalized (ra_ranges a) →
  let suggested := suggested_read_range before es ee in
  (∀ l, (lr_start suggested ≤ l ≤ lr_end suggested)%Z → line_in l (ra_ranges a)) →
  ∃ m, migrate_edit_coverage before (edited before new es ee) a es ee (length new) = Ok m.
Proof.
  intros Hne Hspan Hlen Hr Hnorm suggested Hall. destruct (affected_facts before es ee Hspan Hne) as (first & lst & Haff & Hfl & Hin & Hbefore & Hafter).
  pose proof (lines_bound before) as Hlb. rewrite lines_length in Hlb.
  assert (Hknown : ∀ i, first ≤ S i ∧ i ≤ S lst → i < length (line_byte_spans before) → line_in (Z.of_nat i + 1) (ra_ranges a)).
  { intros i Hi Hil. apply Hall. unfold suggested, suggested_read_range, expand_required_range, sat_sub. rewrite Haff. unfold default, id. cbn [lr_start lr_end].
    rewrite sat_add_small by lia. lia. }
  assert (Hline : ∀ i p, in_line before i p → first ≤ S i ∧ i ≤ S lst → known_at before (ra_ranges a) p).
  { intros i p Hi Hb. eapply known_in_line; [exact Hi|]. apply Hknown; [done|]. by apply in_line_bound in Hi as [? _]. }
  unfold migrate_edit_coverage. case_match; [by eexists|]. rewrite Haff. unfold default, id. cbn [lr_start lr_end]. unfold covers.
  rewrite (proj2 (normalized_covers (ra_ranges a) (Z.of_nat first + 1) (Z.of_nat lst + 1) Hnorm ltac:(lia))).
  2: { intros l Hl. replace l with (Z.of_nat (Z.to_nat (l - 1)) + 1)%Z by lia. apply Hknown; lia. }
  rewrite orb_true_r. cbn [negb]. destruct (known_byte_spans_spec _ _ Hr) as [Hks Hk].
  rewrite (proj2 (span_is_covered_spec _ _ _ Hks (proj1 Hspan))).
  2: { intros p Hp. apply Hk. destruct (in_line_exists before p) as [i Hi]; [lia|]. apply (Hline i); [done|]. specialize (Hin i p Hi Hp). lia. }
  destruct (known_after_spec before (ra_ranges a) es ee (length new)) as [Hs Hc]; [lia|done|]. cbn [negb].
  rewrite (proj2 (forallb_forall _ _)); [by eexists|]. intros line Hl%list_elem_of_In.
  pose proof (proj1 (touched_line before new es ee line 0 Hspan Hl)) as Hlin. pose proof (spans_from_bounds _ _ _ _ Hlin (Nat.le_refl _)) as Hlb2.
  apply span_is_covered_spec; [done|lia|]. intros q Hq. apply Hc.
  destruct (touched_line before new es ee line q Hspan Hl) as (_ & Hleft & Hright). unfold kept_known.
  unfold edited in Hlb2. rewrite !length_app, length_take, length_drop in Hlb2.
  destruct (Nat.lt_ge_cases q es) as [Hlt|Hge]; [right; left; split; [done|]|].
  - destruct (in_line_exists before q) as [i Hi]; [lia|]. destruct (Hleft Hq Hlt i Hi) as (p & Hp & Hip).
    apply (Hline i); [done|]. specialize (Hbefore i p Hip Hp). lia.
  - destruct (Nat.lt_ge_cases q (es + length new)) as [Hlt|Hge2]; [by left|right; right; split; [done|]].
    destruct (in_line_exists before (q - (es + length new) + ee)) as [i Hi]; [lia|].
    apply (Hline i); [done|]. specialize (Hafter i (Hright Hq Hge2 i Hi)). lia.
Qed.

(** ** Reading until an edit is accepted *)

(** A caller records [pages] of a file one after the other; in between, any
    operations on the store that leave the caller's entry for the file. *)
Inductive reading (scope : ReadStateScope) (path : Path) : list ReadEvidence → Inner → Inner → Prop :=
| reading_starts s : reading scope path [] s s
| reading_page pages s s1 e : reading scope path pages s s1 → reading scope path (pages ++ [e]) s (record scope e s1)
| reading_elsewhere pages s s1 op :
    reading scope path pages s s1 → op_valid op → in_map (rs_step s1 op) !! (scope, path) = in_map s1 !! (scope, path) →
    reading scope path pages s (rs_step s1 op).

(** The evidence of some lines of a text. *)
Definition page_of_text (path : Path) (revision : ContentRevision) (text : list Z) (e : ReadEvidence) : Prop :=
  re_path e = path ∧ re_revision e = revision ∧ Forall (in_text text) (re_ranges e).

(** The ranges on record for a revision of a file. *)
Definition ranges_on_record (scope : ReadStateScope) (path : Path) (revision : ContentRevision) (s : Inner) : list LineRange :=
  match in_map s !! (scope, path) with
  | Some st => if bool_decide (frs_revision st = revision) then frs_ranges st else []
  | None => []
  end.

(** The entry of a file of which [ranges] of a text were read. *)
Definition entry_of (revision : ContentRevision) (text : list Z) (ranges : list LineRange) (st : FileReadState) : Prop :=
  frs_revision st = revision ∧ Forall (in_text text) (frs_ranges st) ∧ normalized (frs_ranges st) ∧
  ∀ l, line_in l (frs_ranges st) ↔ line_in l ranges.

Lemma line_in_app l rs1 rs2 : line_in l (rs1 ++ rs2) ↔ line_in l rs1 ∨ line_in l rs2.
Proof. unfold line_in. setoid_rewrite elem_of_app. naive_solver. Qed.

Lemma in_text_lines text rs rs' : Forall (in_text text) rs → Forall range_ok rs' → (∀ l, line_in l rs' → line_in l rs) → Forall (in_text text) rs'.
Proof.
  rewrite !Forall_forall. intros Hin Hok Hl r Hr. split; [by apply Hok|]. pose proof (Hok r Hr) as Hr1. unfold range_ok in Hr1.
  destruct (Hl (lr_end r)) as (r' & Hr' & Hb); [exists r; split; [done|lia]|]. destruct (Hin r' Hr') as [_ ?]. lia.
Qed.

(** One page joins the ranges on record. *)
Lemma record_state_entry path revision text e old earlier :
  page_of_text path revision text e → (∀ st, old = Some st → normalized (frs_ranges st)) → Forall (in_text text) earlier →
  (∀ l, line_in l earlier ↔ ∃ st, old = Some st ∧ frs_revision st = revision ∧ line_in l (frs_ranges st)) →
  entry_of revision text (earlier ++ re_ranges e) (record_state old e).
Proof.
  intros (_ & Hrev & Hin) Hold He Hl.
  assert (Hok : Forall range_ok (re_ranges e)) by (eapply Forall_impl; [exact Hin|]; by intros r []).
  destruct (record_state_ranges old e Hold Hok) as [Hn Hlines].
  assert (Heq : ∀ l, line_in l (frs_ranges (record_state old e)) ↔ line_in l (earlier ++ re_ranges e)).
  { intros l. rewrite Hlines, Hrev, line_in_app, Hl. tauto. }
  split; [|split; [|split; [done|exact Heq]]].
  - unfold record_state. simpl. destruct old as [st|]; simpl; [|done]. by case_bool_decide; simpl; [congruence|].
  - eapply in_text_lines; [apply Forall_app_2; [exact He|exact Hin]|apply Hn|]. intros l. apply Heq.
Qed.

Lemma entry_length revision text ranges st : Forall (in_text text) ranges → entry_of revision text ranges st →
  length (frs_ranges st) = length (merge_ranges ranges).
Proof.
  intros Hr (_ & _ & Hn & Hl). destruct (merge_ranges_spec ranges) as [Hn' Hl']; [eapply Forall_impl; [exact Hr|]; by intros r []|].
  f_equal. apply normalized_unique; [done|done|]. intros l. by rewrite Hl, Hl'.
Qed.

Lemma reading_entry scope path revision text pages s s1 :
  reading scope path pages s s1 → inner_ok s → Forall (page_of_text path revision text) pages →
  let earlier := ranges_on_record scope path revision s in
  Forall (in_text text) earlier →
  (∀ n, length (merge_ranges (earlier ++ (take n pages ≫= re_ranges))) ≤ READ_STATE_MAX_RANGES_PER_FILE) →
  inner_ok s1 ∧ (pages = [] ∧ in_map s1 !! (scope, path) = in_map s !! (scope, path) ∨
    ∃ st, in_map s1 !! (scope, path) = Some st ∧ entry_of revision text (earlier ++ (pages ≫= re_ranges)) st).
Proof.
  intros Hread Hs Hpages earlier Hearlier. induction Hread as [s|pages s s1 e Hread IH|pages s s1 op Hread IH Hop Hsame]; intros Hfew.
  - split; [done|by left].
  - apply Forall_app in Hpages as [Hpages [He _]%Forall_cons]. destruct (IH Hs Hpages Hearlier) as [Hs1 Hst].
    { intros n. destruct (Nat.le_gt_cases n (length pages)) as [Hn|Hn].
      - specialize (Hfew n). by rewrite take_app_le in Hfew.
      - specialize (Hfew (length pages)). rewrite take_app_length in Hfew. by rewrite (take_ge pages) by lia. }
    assert (Hok : Forall range_ok (re_ranges e)) by (destruct He as (_ & _ & Hin); eapply Forall_impl; [exact Hin|]; by intros r []).
    split; [exact (rs_step_ok s1 (RsRecord scope e) Hs1 Hok)|]. right.
    assert (Hin : Forall (in_text text) (earlier ++ (pages ≫= re_ranges))).
    { apply Forall_app_2; [done|]. apply Forall_bind. eapply Forall_impl; [exact Hpages|]. by intros p (_ & _ & ?). }
    assert (Hentry : entry_of revision text ((earlier ++ (pages ≫= re_ranges)) ++ re_ranges e) (record_state (in_map s1 !! (scope, path)) e)).
    { eapply record_state_entry; [exact He| |exact Hin|].
      - intros st Hm. by apply (ok_states _ (proj1 Hs1) _ _ Hm).
      - intros l. destruct Hst as [[-> Hm]|(st & Hm & Hrev & _ & _ & Hl)]; rewrite Hm.
        + simpl. rewrite app_nil_r. unfold earlier, ranges_on_record. destruct (in_map s !! (scope, path)) as [st|].
          * case_bool_decide; [naive_solver|]. split; [by intros (? & ?%not_elem_of_nil & _)|naive_solver].
          * split; [by intros (? & ?%not_elem_of_nil & _)|naive_solver].
        + fold earlier in Hl; rewrite <-(Hl l). naive_solver. }
    rewrite bind_app. simpl. rewrite app_nil_r, app_assoc. destruct He as (<- & _ & Hine). eexists. split; [|exact Hentry].
    apply record_kept; [done|]. rewrite (entry_length revision text _ _ (Forall_app_2 _ _ _ Hin Hine) Hentry).
    specialize (Hfew (S (length pages))). rewrite take_ge, bind_app in Hfew by (rewrite length_app; simpl; lia). simpl in Hfew.
    by rewrite app_nil_r, app_assoc in Hfew.
  - destruct (IH Hs Hpages Hearlier Hfew) as [Hs1 Hst]. split; [by apply rs_step_ok|]. by rewrite Hsame.
Qed.

(** C35. Reading leads to writing: a caller that has read, in whatever pages
    and order and whatever it had read of the text before, the lines that
    [suggested_read_range] names for an edit - those of the replaced bytes,
    one before and one after - holds fresh authority for the text, and with
    it the edit is accepted; provided that what it has read was never in more
    than READ_STATE_MAX_RANGES_PER_FILE separate ranges, above which the
    store forgets the file, and that its entry is not evicted or cleared. *)
Theorem edit_of_read_lines_accepted scope path revision pages s s1 before new edit_start edit_end :
  inner_ok s → reading scope path pages s s1 → Forall (page_of_text path revision before) pages →
  let earlier := ranges_on_record scope path revision s in
  let suggested := suggested_read_range before edit_start edit_end in
  Forall (in_text before) earlier →
  (∀ n, length (merge_ranges (earlier ++ (take n pages ≫= re_ranges))) ≤ READ_STATE_MAX_RANGES_PER_FILE) →
  before ≠ [] → edit_start ≤ edit_end ≤ length before → (Z.of_nat (length before) < u64_max)%Z →
  (∀ l, (lr_start suggested ≤ l ≤ lr_end suggested)%Z → line_in l (earlier ++ (pages ≫= re_ranges))) →
  ∃ a, evaluate scope path revision s1 = (Fresh a, s1) ∧
    ∃ m, migrate_edit_coverage before (edited before new edit_start edit_end) a edit_start edit_end (length new) = Ok m.
Proof.
  intros Hs Hread Hpages earlier suggested Hearlier Hfew Hne Hspan Hlen Hall.
  destruct (reading_entry _ _ _ _ _ _ _ Hread Hs Hpages Hearlier Hfew) as [Hs1 Hst].
  assert (∃ st, in_map s1 !! (scope, path) = Some st ∧ entry_of revision before (earlier ++ (pages ≫= re_ranges)) st) as (st & Hm & Hrev & Hin & Hn & Hl).
  { destruct Hst as [[-> Hm]|Hst]; [|done]. simpl in Hall |- *. rewrite app_nil_r in Hall |- *. rewrite Hm.
    destruct (affected_facts before edit_start edit_end Hspan Hne) as (first & lst & Haff & Hfl & _).
    destruct (Hall (Z.of_nat first + 1)%Z) as (r & Hr & _).
    { unfold suggested, suggested_read_range, expand_required_range, sat_sub. rewrite Haff. unfold default, id. cbn [lr_start lr_end].
      pose proof (lines_bound before) as Hlb. rewrite lines_length in Hlb. rewrite sat_add_small by lia. lia. }
    unfold earlier, ranges_on_record in Hr, Hearlier |- *. destruct (in_map s !! (scope, path)) as [st|] eqn:E; [|by apply not_elem_of_nil in Hr].
    case_bool_decide as Hrev; [|by apply not_elem_of_nil in Hr]. exists st. split; [done|]. split; [done|]. split; [done|].
    split; [|done]. by apply (ok_states _ (proj1 Hs) _ _ E). }
  exists (authority_of st). unfold evaluate. rewrite Hm, bool_decide_true by done. split; [done|].
  apply suggested_range_suffices; [done|done|done|exact Hin|exact Hn|]. intros l Hlb. by apply Hl, Hall.
Qed.

(** ** Witnesses *)

Definition demo_lines : list Z := [111; 110; 101; 10; 116; 119; 111; 10; 51; 10]%Z.
Definition demo_authority (a b : Z) : ReadAuthority :=
  {| ra_total_lines := 3; ra_ends_with_newline := true; ra_ranges := [{| lr_start := a; lr_end := b |}]; ra_complete := false |}.

Lemma demo_in_text a b : (1 ≤ a ≤ b)%Z → (b ≤ 3)%Z → Forall (in_text demo_lines) (ra_ranges (demo_authority a b)).
Proof. intros Ha Hb. repeat constructor; unfold u64_max; simpl; lia. Defined.

Lemma page_shows_the_file_witness :
  ∃ page, read_text_page (λ _, ""%string) [take 5 demo_lines; drop 5 demo_lines; []]
      {| tpr_display_path := "f"; tpr_canonical_path := []; tpr_start := 2; tpr_count := 2; tpr_keyword := None; tpr_show_linenos := false;
         tpr_max_chars := 100 |} = Ok (Page page) ∧
    page_of false (text_lines demo_lines) (po_returned_start (tp_output page)) (po_returned_end (tp_output page)) (po_content (tp_output page)).
Proof.
  destruct (read_text_page _ _ _) as [[page|line]|e] eqn:E; [|vm_compute in E; discriminate E..].
  exists page. split; [reflexivity|]. refine (proj1 (proj2 (page_shows_the_file _ _ _ page _ E))). vm_compute. reflexivity.
Defined.

Lemma edit_coverage_exact_witness :
  ∃ m, migrate_edit_coverage demo_lines (edited demo_lines [50%Z] 4 7) (demo_authority 2 2) 4 7 1 = Ok m ∧ line_in 2 (cm_ranges m) ∧ ¬ line_in 1 (cm_ranges m).
Proof.
  destruct (migrate_edit_coverage _ _ _ _ _ _) as [m|] eqn:E; [|vm_compute in E; discriminate E].
  exists m. split; [reflexivity|].
  destruct (edit_coverage_exact demo_lines [50%Z] (demo_authority 2 2) 4 7 m) as (_ & _ & H & _);
    [simpl; lia|vm_compute; reflexivity|apply demo_in_text; lia|reflexivity|exact E|].
  split.
  - apply H. exists 1, {| bs_start := 4; bs_end := 6 |}. split; [reflexivity|]. split; [reflexivity|]. simpl. intros q Hq. unfold kept_known. simpl.
    destruct (decide (q = 4)); [left; lia|right; right; split; [lia|]]. exists 1, {| bs_start := 4; bs_end := 8 |}.
    split; [reflexivity|]. split; [simpl; lia|]. exists {| lr_start := 2; lr_end := 2 |}. split; [left|simpl; lia].
  - intros (i & line & Hi & Heq & Hall)%H. assert (i = 0) as -> by lia. injection Hi as <-. specialize (Hall 0). simpl in Hall.
    destruct Hall as [?|[[_ (j & sp & Hj & Hsp & r & ->%list_elem_of_singleton & Hr)]|[? _]]]; [lia|lia| |simpl in *; lia].
    simpl in Hr. assert (j = 1) as -> by lia. injection Hj as <-. simpl in Hsp. lia.
Defined.

Lemma edit_of_read_lines_accepted_witness :
  let page a b := {| re_path := []; re_revision := demo_rev "t"; re_total_lines := 3; re_ends_with_newline := true;
    re_ranges := [{| lr_start := a; lr_end := b |}]; re_complete := false |} in
  let s1 := record demo_scope (page 1 1)%Z (record demo_scope (page 3 3)%Z (record demo_scope (page 2 2)%Z ReadStateStore_default)) in
  ∃ a, evaluate demo_scope [] (demo_rev "t") s1 = (Fresh a, s1) ∧
    ∃ m, migrate_edit_coverage demo_lines (edited demo_lines [50%Z] 4 7) a 4 7 1 = Ok m.
Proof.
  intros page s1. apply (edit_of_read_lines_accepted demo_scope [] (demo_rev "t") [page 2 2; page 3 3; page 1 1]%Z ReadStateStore_default s1 demo_lines [50%Z] 4 7).
  - exact inner_ok_default.
  - apply (reading_page _ _ [page 2 2; page 3 3]%Z), (reading_page _ _ [page 2 2]%Z), (reading_page _ _ []), reading_starts.
  - repeat constructor; unfold u64_max; simpl; lia.
  - constructor.
  - intros [|[|[|[|n]]]]; vm_compute; repeat constructor.
  - discriminate.
  - simpl. lia.
  - vm_compute. reflexivity.
  - intros l Hl. change (1 ≤ l ≤ 3)%Z in Hl. simpl. destruct (decide (l = 1)%Z) as [->|]; [|destruct (decide (l = 2)%Z) as [->|]].
    + exists {| lr_start := 1; lr_end := 1 |}. split; [set_solver|simpl; lia].
    + exists {| lr_start := 2; lr_end := 2 |}. split; [set_solver|simpl; lia].
    + exists {| lr_start := 3; lr_end := 3 |}. split; [set_solver|simpl; lia].
Defined.
