(* ===== verification/FileTools.v ===== *)
(** * The file tools (src/src/tool/file.rs)

    Reading, patching and writing of files by the tool calls of several
    sessions and processes at once.  A call is a tree of atomic steps over the
    world of the file system, the read-state stores of the processes and the
    locks; the system interleaves the steps of all calls with what other
    programs do to the files.  A call may be dropped between two steps; an I/O
    call that was begun ends before the locks of its call are released. *)

From stdpp Require Import pretty.
From S2P Require Import Prelude Text Claim Utf8 ReadState FileText.
Import Ids.

(** ** Paths ([std::path], tool/mod.rs, path_util.rs, attachment.rs) *)

Definition is_absolute (p : Path) : bool := match p with RootDir :: _ => true | _ => false end.

Definition join (root p : Path) : Path := if is_absolute p then p else root ++ filter (λ c, c ≠ CurDir) p.

Definition push (p : Path) (c : Component) : Path := match c with RootDir => [RootDir] | _ => p ++ [c] end.

Definition parent (p : Path) : option Path :=
  match last p with None | Some RootDir => None | Some _ => Some (removelast p) end.

Definition pop (p : Path) : Path := default p (parent p).

Definition file_name (p : Path) : option string := match last p with Some (Normal n) => Some n | _ => None end.

(** The parts between slashes. *)
Fixpoint split_slash (s : string) : list string :=
  match s with
  | EmptyString => [""%string]
  | String c s' =>
      if Ascii.eqb c "/" then ""%string :: split_slash s'
      else match split_slash s' with part :: parts => String c part :: parts | [] => [String c ""] end
  end.

Definition component (part : string) : option Component :=
  if bool_decide (part = ""%string) || bool_decide (part = "."%string) then None
  else if bool_decide (part = ".."%string) then Some ParentDir else Some (Normal part).

(** [Path::components] *)
Definition components (raw : string) : Path :=
  let parts := split_slash raw in
  (match parts with
   | first :: _ :: _ => if bool_decide (first = ""%string) then [RootDir] else if bool_decide (first = "."%string) then [CurDir] else []
   | first :: _ => if bool_decide (first = "."%string) then [CurDir] else []
   | [] => []
   end) ++ omap component parts.

Fixpoint trim_slashes (s : string) : string :=
  match s with String c s' => if Ascii.eqb c "/" then trim_slashes s' else s | EmptyString => s end.

Definition expand_current_user_home_with (raw : string) (home : option Path) : Path :=
  match raw, home with
  | String "~" rest, Some home =>
      match rest with
      | EmptyString => home
      | String "/" relative => join home (components (trim_slashes relative))
      | _ => components raw
      end
  | _, _ => components raw
  end.

Definition resolve_tool_path_with_home (root : Path) (raw : string) (home : option Path) : Path :=
  let requested := expand_current_user_home_with raw home in
  if is_absolute requested then requested else join root requested.

(** [normalize_path_lexically] of attachment.rs is the same function. *)
Definition lexical_normalize_path (p : Path) : Path :=
  fold_left (λ out c, match c with CurDir => out | ParentDir => pop out | _ => push out c end) p [].

Definition lower_ascii (c : ascii) : ascii :=
  let n := nat_of_ascii c in if (65 <=? n) && (n <=? 90) then ascii_of_nat (n + 32) else c.
Fixpoint to_ascii_lowercase (s : string) : string :=
  match s with EmptyString => EmptyString | String c s' => String (lower_ascii c) (to_ascii_lowercase s') end.
Definition eq_ignore_ascii_case (a b : string) : bool := bool_decide (to_ascii_lowercase a = to_ascii_lowercase b).

Definition is_protected_memory_path (path : Path) : bool :=
  let normalized := lexical_normalize_path path in
  let is_memory_file := match file_name normalized with
    | Some name => eq_ignore_ascii_case name "MEMORY.md" || eq_ignore_ascii_case name "USER.md"
    | None => false
    end in
  let under_memories_dir := match parent normalized ≫= file_name with
    | Some name => eq_ignore_ascii_case name "memories"
    | None => false
    end in
  is_memory_file && under_memories_dir.

(** What follows the last dot of a name that does not begin with it. *)
Fixpoint after_last_dot (s : string) : option string :=
  match s with
  | EmptyString => None
  | String c s' => match after_last_dot s' with Some e => Some e | None => if Ascii.eqb c "." then Some s' else None end
  end.
Definition extension (p : Path) : option string :=
  match file_name p with Some (String _ rest) => after_last_dot rest | _ => None end.

Inductive AttachmentKind := Image | Pdf | TextFile.

Definition attachment_kind_for_path (path : Path) : AttachmentKind :=
  match to_ascii_lowercase <$> extension path with
  | Some "png" | Some "jpg" | Some "jpeg" | Some "gif" | Some "webp" => Image
  | Some "pdf" => Pdf
  | _ => TextFile
  end%string.

(** ** The file system *)

Inductive Node := File (content : list Z) (mode : Z) | Directory | Symlink (target : Path).

(** Nodes by the names that lead to them from the root. *)
Definition Files : Type := gmap (list string) Node.

Inductive IoKind := IoNotFound | IoOther.

Definition node_at (fs : Files) (names : list string) : option Node :=
  match names with [] => Some Directory | _ => fs !! names end.

(** The system's resolution of a path; [links] bounds the symbolic links. *)
Fixpoint walk (links : nat) (fs : Files) : list string → Path → Result IoKind (list string) :=
  fix go (dir : list string) (todo : Path) : Result IoKind (list string) :=
    match todo with
    | [] => Ok dir
    | RootDir :: todo' => go [] todo'
    | CurDir :: todo' => go dir todo'
    | ParentDir :: todo' => go (removelast dir) todo'
    | Normal name :: todo' =>
        let names := dir ++ [name] in
        match fs !! names with
        | None => Err IoNotFound
        | Some Directory => go names todo'
        | Some (File _ _) => match todo' with [] => Ok names | _ => Err IoOther end
        | Some (Symlink target) =>
            match links with O => Err IoOther | S links' => walk links' fs dir (target ++ todo') end
        end
    end.

Definition MAX_LINKS : nat := 40.
Definition follow (fs : Files) (p : Path) : Result IoKind (list string) := walk MAX_LINKS fs [] p.

(** The path of these names. *)
Definition absolute (names : list string) : Path := RootDir :: (Normal <$> names).

Definition canonicalize (fs : Files) (p : Path) : Result IoKind Path := names ← follow fs p; mret (absolute names).

(** Where the last component is, itself not followed. *)
Definition location (fs : Files) (p : Path) : Result IoKind (list string) :=
  match last p with
  | Some (Normal name) =>
      dir ← follow fs (removelast p);
      match node_at fs dir with Some Directory => Ok (dir ++ [name]) | _ => Err IoOther end
  | _ => follow fs p
  end.

Definition symlink_metadata (fs : Files) (p : Path) : Result IoKind Node :=
  names ← location fs p;
  match node_at fs names with Some node => Ok node | None => Err IoNotFound end.

Definition metadata (fs : Files) (p : Path) : Result IoKind Node :=
  names ← follow fs p;
  match node_at fs names with Some node => Ok node | None => Err IoNotFound end.

Definition read_bytes (fs : Files) (p : Path) : Result IoKind (list Z) :=
  node ← metadata fs p;
  match node with File content _ => Ok content | _ => Err IoOther end.

Definition mkdir (fs : Files) (p : Path) : Result IoKind Files :=
  names ← location fs p;
  match node_at fs names with None => Ok (<[names := Directory]> fs) | Some _ => Err IoOther end.

Definition is_dir (fs : Files) (p : Path) : bool :=
  match metadata fs p with Ok Directory => true | _ => false end.

(** [std::fs::create_dir_all]; [depth] is the number of components. *)
Fixpoint create_dirs (depth : nat) (fs : Files) (p : Path) : Result IoKind Files :=
  match depth with
  | O => Ok fs
  | S depth' =>
      match mkdir fs p with
      | Ok fs' => Ok fs'
      | Err IoNotFound =>
          match parent p with
          | None => Err IoOther
          | Some up =>
              fs1 ← create_dirs depth' fs up;
              match mkdir fs1 p with
              | Ok fs' => Ok fs'
              | Err e => if is_dir fs1 p then Ok fs1 else Err e
              end
          end
      | Err e => if is_dir fs p then Ok fs else Err e
      end
  end.
Definition create_dir_all (fs : Files) (p : Path) : Result IoKind Files := create_dirs (length p) fs p.

(** [rename] of a file with this content to [p]: what was there before, and
    the files after. *)
Definition rename_to (fs : Files) (p : Path) (content : list Z) (mode : Z) : Result IoKind (option Node * Files) :=
  names ← location fs p;
  match node_at fs names with
  | Some Directory => Err IoOther
  | replaced => Ok (replaced, <[names := File content mode]> fs)
  end.

(** No file is longer than the offsets of the system. *)
Definition MAX_FILE : Z := 9223372036854775807.
Definition fits (bytes : list Z) : bool := (Z.of_nat (length bytes) <=? MAX_FILE)%Z.

(** The loop over the components: [resolved] exists, [unresolved] does not. *)
Fixpoint lock_key_loop (fs : Files) (resolved : Path) (unresolved : list string) (todo : Path) : Path :=
  match todo with
  | [] => resolved ++ (Normal <$> unresolved)
  | RootDir :: todo' => lock_key_loop fs (push resolved RootDir) unresolved todo'
  | CurDir :: todo' => lock_key_loop fs resolved unresolved todo'
  | ParentDir :: todo' =>
      match unresolved with
      | [] => lock_key_loop fs (pop resolved) [] todo'
      | _ => lock_key_loop fs resolved (removelast unresolved) todo'
      end
  | Normal part :: todo' =>
      match unresolved with
      | [] =>
          match canonicalize fs (push resolved (Normal part)) with
          | Ok canonical => lock_key_loop fs canonical [] todo'
          | Err _ => lock_key_loop fs resolved [part] todo'
          end
      | _ => lock_key_loop fs resolved (unresolved ++ [part]) todo'
      end
  end.

Definition tool_path_lock_key (fs : Files) (p : Path) : Path :=
  match canonicalize fs p with Ok canonical => canonical | Err _ => lock_key_loop fs [] [] p end.

(** ** The text of a patch ([str::match_indices], [replace], [replacen]) *)

(** The starts of the matches, which do not overlap; [skip] bytes of the last
    one are left. *)
Fixpoint matches (needle : list Z) (skip index : nat) (text : list Z) : list nat :=
  match text with
  | [] => []
  | _ :: text' =>
      match skip with
      | S skip' => matches needle skip' (S index) text'
      | O => if text_starts_with needle text then index :: matches needle (length needle - 1) (S index) text'
             else matches needle 0 (S index) text'
      end
  end.
Definition match_indices (text needle : list Z) : list nat := matches needle 0 0 text.

Fixpoint replace_from (needle new : list Z) (skip : nat) (text : list Z) : list Z :=
  match text with
  | [] => []
  | b :: text' =>
      match skip with
      | S skip' => replace_from needle new skip' text'
      | O => if text_starts_with needle text then new ++ replace_from needle new (length needle - 1) text'
             else b :: replace_from needle new 0 text'
      end
  end.
Definition replace (text needle new : list Z) : list Z := replace_from needle new 0 text.

(** [replacen(.., 1)] *)
Fixpoint replace_first (text needle new : list Z) : list Z :=
  match text with
  | [] => []
  | b :: text' =>
      if text_starts_with needle text then new ++ drop (length needle) text else b :: replace_first text' needle new
  end.

(** ** The world *)

(** The bytes from [start] to [end_] are replaced by [new], or every match of
    [old] is. *)
Inductive Change := Splice (start end_ : nat) (new : list Z) | SpliceAll (old new : list Z).

(** What happened, newest first.  [Shown]: evidence of a text that was shown to
    a caller was registered.  [Confirmed]: a call found the file as it expects
    it.  [Changed]: a call made the change to the text [before] ([None]: there
    was no file) and renamed a file with [content] to its target, where
    [replaced] was.  [Outside]: another program changed files. *)
Inductive Event :=
| Shown (process : nat) (scope : ReadStateScope) (path : Path) (text : list Z) (ranges : list LineRange) (complete : bool)
| Confirmed (call : nat) (path : Path) (expected : option (list Z))
| Changed (call process : nat) (scope : option ReadStateScope) (path : Path) (before : option (list Z)) (change : Change)
    (content : list Z) (replaced : option Node)
| Outside.

Record World := {
  w_files : Files;
  w_reads : gmap nat Inner;
  w_path_locks : gmap (nat * Path) nat;
  w_write_locks : gmap Path nat;
  w_cancelled : gset nat;
  w_log : list Event;
}.

Definition w_eta (w : World) : World :=
  {| w_files := w_files w; w_reads := w_reads w; w_path_locks := w_path_locks w; w_write_locks := w_write_locks w;
     w_cancelled := w_cancelled w; w_log := w_log w |}.
Definition set_files v w : World := ltac:(eta_set w_eta w w_files v).
Definition set_reads v w : World := ltac:(eta_set w_eta w w_reads v).
Definition set_path_locks v w : World := ltac:(eta_set w_eta w w_path_locks v).
Definition set_write_locks v w : World := ltac:(eta_set w_eta w w_write_locks v).
Definition set_cancelled v w : World := ltac:(eta_set w_eta w w_cancelled v).
Definition log_event e w : World := ltac:(let l := constr:(e :: w_log w) in eta_set w_eta w w_log l).

Definition reads (process : nat) (w : World) : Inner := default ReadStateStore_default (w_reads w !! process).
Definition update_reads (process : nat) (f : Inner → Inner) (w : World) : World :=
  set_reads (<[process := f (reads process w)]> (w_reads w)) w.

(** What the system decides in a step: that an I/O call fails, and what the
    reads of a file that is scanned return if others change it meanwhile. *)
Record Label := { l_fault : bool; l_chunks : option (list (list Z)) }.

(** ** Calls *)

Inductive Media := PlainMedia (kind : AttachmentKind) (media_type : string) (data : string).

(** The JSON of a result by its members. *)
Inductive Output :=
| ReadPage (page : PageOutput) (file_version : option (Path * ContentRevision))
| ReadMedia (path : string) (media : Media)
| ReadLineTooLong (path : string) (line : Z) (authority_enabled : bool)
| PatchNoFile (path : string)
| PatchNoMatch (path : string)
| PatchNotUnique (path : string)
| PatchPermission (path : string) (required : option LineRange) (stale : bool)
| WritePermission (path : string) (mode : string) (stale : bool) (total_lines : Z)
| StaleWrite (path : string)
| Patched (path : string) (replacements : Z)
| WriteNoChange (path : string) (bytes : Z)
| Written (path : string) (bytes : Z).

Inductive ToolExecution := Completed (o : Output) | BusinessFailure (o : Output).

(** An early end of a call: with an error, or with a result. *)
Inductive Exit := Raise (e : ToolError) | Return (x : ToolExecution).

(** The rest of a call.  A step that yields [None] is waiting. *)
Inductive Tool (A : Type) : Type :=
| Done (r : Result Exit A)
| Step (f : World → Label → option (World * Tool A)).
Arguments Done {A} r.
Arguments Step {A} f.

Fixpoint tool_bind {A B} (k : A → Tool B) (t : Tool A) : Tool B :=
  match t with
  | Done (Ok a) => k a
  | Done (Err e) => Done (Err e)
  | Step f => Step (λ w l, match f w l with Some (w', t') => Some (w', tool_bind k t') | None => None end)
  end.

#[export] Instance tool_mret : MRet Tool := λ A a, Done (Ok a).
#[export] Instance tool_mbind : MBind Tool := λ A B k t, tool_bind k t.

Definition raise {A} (e : ToolError) : Tool A := Done (Err (Raise e)).
Definition return_ {A} (o : Output) : Tool A := Done (Err (Return (BusinessFailure o))).
Definition atomic {A} (f : World → Label → option (World * Result Exit A)) : Tool A :=
  Step (λ w l, match f w l with Some (w', r) => Some (w', Done r) | None => None end).

(** An I/O call that reads, or changes nothing of this world. *)
Definition io_read {A} (f : Files → Result IoKind A) : Tool (Result IoKind A) :=
  atomic (λ w l, Some (w, Ok (if l_fault l then Err IoOther else f (w_files w)))).

Definition io {A} (r : Result IoKind A) : Tool A :=
  match r with Ok a => mret a | Err _ => raise ToolIo end.

Definition io_call {A} (f : Files → Result IoKind A) : Tool A := io_read f ≫= io.

(** ** The registry's settings and a call's context *)

Record Settings := {
  st_workspace_root : Path;
  st_home : option Path;
  st_memory_store : bool;
  st_file_edit_authority_enabled : bool;
  st_file_write_locks : bool;
  st_file_read_max_chars : Z;
  st_dream_read_only : bool;
  st_attachments_enabled : bool;
  st_max_file_bytes : Z;
  st_new_mode : Z;
}.

Record ToolDispatchContext := {
  tc_call : nat;
  tc_process : nat;
  tc_delegation_child : bool;
  tc_session_id : option string;
  tc_turn_id : option string;
}.

Record FileReadArgs := {
  fra_path : string;
  fra_start : option Z;
  fra_count : option Z;
  fra_keyword : option (list Z);
  fra_show_linenos : option bool;
}.
Record FilePatchArgs := { fpa_path : string; fpa_old_content : list Z; fpa_new_content : list Z; fpa_replace_all : bool }.
Record FileWriteArgs := { fwa_path : string; fwa_content : list Z; fwa_mode : option string }.

Definition DEFAULT_FILE_READ_LINES : Z := 2000.

Section tools.
Context (sha256_hex : list Z → string).
(** The checks and the resampling of images and documents (crate image). *)
Context (normalize_media : AttachmentKind → list Z → option Media).
Context (cfg : Settings).

Definition resolve_tool_path (raw : string) : Path :=
  resolve_tool_path_with_home (st_workspace_root cfg) raw (st_home cfg).

Definition file_read_state_scope (c : ToolDispatchContext) : option ReadStateScope :=
  if negb (st_file_edit_authority_enabled cfg) then None
  else
    session_id ← tc_session_id c;
    if tc_delegation_child c then
      turn_id ← tc_turn_id c;
      Some {| rs_session_id := Some session_id; rs_caller_id := Some turn_id |}
    else Some {| rs_session_id := Some session_id; rs_caller_id := None |}.

Definition ensure_not_memory_path (path : Path) : Tool unit :=
  if is_protected_memory_path path then raise ToolInvalidArgs else mret tt.

Definition evaluate_file_read_state (c : ToolDispatchContext) (path : Path) (content : list Z) : Tool ReadStateVerdict :=
  match file_read_state_scope c with
  | None => mret Missing
  | Some scope => atomic (λ w _,
      let '(verdict, s) := evaluate scope path (ContentRevision_from_bytes sha256_hex content) (reads (tc_process c) w) in
      Some (update_reads (tc_process c) (λ _, s) w, Ok verdict))
  end.

(** [shown] is the text that the evidence is about, when it is shown now. *)
Definition activate_file_read_evidence (c : ToolDispatchContext) (e : ReadEvidence) (shown : option (list Z)) : Tool unit :=
  match file_read_state_scope c with
  | None => mret tt
  | Some scope => atomic (λ w _,
      let w1 := match shown with
        | Some text => log_event (Shown (tc_process c) scope (re_path e) text (re_ranges e) (re_complete e)) w
        | None => w
        end in
      Some (update_reads (tc_process c) (record scope e) w1, Ok tt))
  end.

Definition clear_file_path_state (c : ToolDispatchContext) (path : Path) : Tool unit :=
  match file_read_state_scope c with
  | None => mret tt
  | Some scope => atomic (λ w _, Some (update_reads (tc_process c) (clear_path scope path) w, Ok tt))
  end.

(** *** Locks *)

(** The mutex of a path within the process; it is free again when its holder
    ends. *)
Definition path_lock (c : ToolDispatchContext) (path : Path) : Tool unit :=
  key ← atomic (λ w _, Some (w, Ok (tool_path_lock_key (w_files w) path)));
  atomic (λ w _,
    match w_path_locks w !! (tc_process c, key) with
    | Some _ => None
    | None => Some (set_path_locks (<[(tc_process c, key) := tc_call c]> (w_path_locks w)) w, Ok tt)
    end).

Definition is_cancelled (c : ToolDispatchContext) (w : World) : bool := bool_decide (tc_call c ∈ w_cancelled w).

Definition ensure_file_commit_not_cancelled (c : ToolDispatchContext) : Tool unit :=
  atomic (λ w _, Some (w, if is_cancelled c w then Err (Raise ToolInterrupted) else Ok tt)).

(** The loop that tries to lock ends when the lock is free, or when the call
    is cancelled. *)
Definition acquire_file_write_lock (c : ToolDispatchContext) (key : Path) : Tool unit :=
  if negb (st_file_write_locks cfg) then mret tt
  else
    _ ← atomic (λ w l,
      if is_cancelled c w then Some (w, Err (Raise ToolInterrupted))
      else if l_fault l then Some (w, Err (Raise ToolIo))
      else match w_write_locks w !! key with
           | Some _ => None
           | None => Some (set_write_locks (<[key := tc_call c]> (w_write_locks w)) w, Ok tt)
           end);
    ensure_file_commit_not_cancelled c.

(** *** Reading *)

Definition read_validated_bytes (path : Path) : Tool (list Z) :=
  if is_protected_memory_path path then raise ToolAttachment
  else
    meta ← io_read (λ fs, metadata fs path);
    match meta with
    | Ok (File content _) =>
        if (st_max_file_bytes cfg <? Z.of_nat (length content))%Z then raise ToolAttachment
        else
          bytes ← io_read (λ fs, read_bytes fs path);
          match bytes with Ok bytes => mret bytes | Err _ => raise ToolAttachment end
    | _ => raise ToolAttachment
    end.

Definition read_media_attachment (kind : AttachmentKind) (path : Path) : Tool Media :=
  if negb (st_attachments_enabled cfg) then raise ToolAttachment
  else
    bytes ← read_validated_bytes path;
    match normalize_media kind bytes with Some media => mret media | None => raise ToolAttachment end.

(** The scan of the file: what it shows and the bytes that were read. *)
Definition scan_page (path : Path) (r : TextPageRequest) : Tool (list Z * TextPageOutcome) :=
  atomic (λ w l,
    let chunks := match l_chunks l with
      | Some chunks => Ok chunks
      | None => content ← read_bytes (w_files w) path; mret [content]
      end in
    Some (w, match chunks with
      | Ok chunks =>
          if l_fault l || negb (fits (bytes_read chunks)) then Err (Raise ToolIo)
          else match read_text_page sha256_hex chunks r with
               | Ok outcome => Ok (bytes_read chunks, outcome)
               | Err e => Err (Raise e)
               end
      | Err _ => Err (Raise ToolIo)
      end)).

Definition is_blank (t : list Z) : bool := bool_decide (trim (default [] (decode_valid t)) = []).

Definition file_read (c : ToolDispatchContext) (args : FileReadArgs) : Tool ToolExecution :=
  let start := default 1%Z (fra_start args) in
  let count := default DEFAULT_FILE_READ_LINES (fra_count args) in
  if (start =? 0)%Z then raise ToolInvalidArgs
  else if (count =? 0)%Z then raise ToolInvalidArgs
  else
    let path := resolve_tool_path (fra_path args) in
    _ ← (if st_memory_store cfg then ensure_not_memory_path path else mret tt);
    match attachment_kind_for_path path with
    | TextFile =>
        _ ← path_lock c path;
        read_path ← io_call (λ fs, canonicalize fs path);
        _ ← (if st_memory_store cfg then ensure_not_memory_path read_path else mret tt);
        let canonical := lexical_normalize_path read_path in
        let keyword := keyword ← fra_keyword args; if is_blank keyword then None else Some keyword in
        '(text, outcome) ← scan_page read_path
          {| tpr_display_path := fra_path args; tpr_canonical_path := canonical; tpr_start := start; tpr_count := count;
             tpr_keyword := keyword; tpr_show_linenos := default true (fra_show_linenos args);
             tpr_max_chars := st_file_read_max_chars cfg |};
        match outcome with
        | Page result =>
            match tp_evidence result with
            | Some evidence =>
                let version := if st_dream_read_only cfg then Some (re_path evidence, re_revision evidence) else None in
                _ ← activate_file_read_evidence c evidence (Some text);
                mret (Completed (ReadPage (tp_output result) version))
            | None => mret (Completed (ReadPage (tp_output result) None))
            end
        | LineTooLong line =>
            mret (BusinessFailure (ReadLineTooLong (fra_path args) line (st_file_edit_authority_enabled cfg)))
        end
    | kind =>
        media ← read_media_attachment kind path;
        mret (Completed (ReadMedia (fra_path args) media))
    end.

(** *** Writing *)

Definition resolve_write_target (path : Path) : Tool (Path * bool) :=
  target ← io_read (λ fs, canonicalize fs path);
  match target with
  | Ok target => mret (target, true)
  | Err IoNotFound =>
      meta ← io_read (λ fs, symlink_metadata fs path);
      match meta with
      | Ok (Symlink _) => raise ToolInvalidArgs
      | Ok _ => raise ToolIo
      | Err IoNotFound => mret (path, false)
      | Err IoOther => raise ToolIo
      end
  | Err IoOther => raise ToolIo
  end.

(** A whole text file; an error has a kind. *)
Definition read_to_string (path : Path) : Tool (Result IoKind (list Z)) :=
  io_read (λ fs,
    content ← read_bytes fs path;
    match decode_valid content with Some _ => if fits content then Ok content else Err IoOther | None => Err IoOther end).

(** [target_matches_expected]; [key] is the path that the log names. *)
Definition target_matches_expected (c : ToolDispatchContext) (path key : Path) (expected : option (list Z)) (mode : Z) : Tool bool :=
  meta ← io_read (λ fs, symlink_metadata fs path);
  match meta, expected with
  | Ok _, None => mret false
  | Err IoNotFound, None => mret true
  | Ok (File content mode'), Some expected =>
      if negb (bool_decide (mode' = mode)) then mret false
      else if negb (bool_decide (length content = length expected)) then mret false
      else
        current ← atomic (λ w l,
          match (if l_fault l then Err IoOther else read_bytes (w_files w) path) with
          | Ok current =>
              let same := bool_decide (current = expected) in
              Some (if same then log_event (Confirmed (tc_call c) key (Some expected)) w else w, Ok (Some same))
          | Err _ => Some (w, Ok None)
          end);
        match current with Some same => mret same | None => raise ToolIo end
  | Ok _, Some _ => mret false
  | Err IoNotFound, Some _ => mret false
  | Err IoOther, _ => raise ToolIo
  end.

(** [write_text_atomic_if_unchanged] (storage/yaml.rs).  The temporary file has
    a name of its own; [event] is what is logged of the rename. *)
Definition write_text_atomic_if_unchanged (c : ToolDispatchContext) (path key : Path) (content : list Z) (expected : option (list Z))
    (event : list Z → option Node → Event) : Tool bool :=
  preserved ← match expected with
    | None => mret (Some (st_new_mode cfg))
    | Some _ =>
        meta ← io_read (λ fs, symlink_metadata fs path);
        match meta with
        | Ok (File _ mode) => mret (Some mode)
        | Ok _ | Err IoNotFound => mret None
        | Err IoOther => raise ToolIo
        end
    end;
  match preserved with
  | None => mret false
  | Some mode =>
      _ ← match parent path with
          | Some up => atomic (λ w l,
              match (if l_fault l then Err IoOther else create_dir_all (w_files w) up) with
              | Ok fs => Some (set_files fs w, Ok tt)
              | Err _ => Some (w, Err (Raise ToolIo))
              end)
          | None => mret tt
          end;
      _ ← io_call (λ _, if fits content then Ok tt else Err IoOther);
      unchanged ← target_matches_expected c path key expected mode;
      if (unchanged : bool) then
        atomic (λ w l,
          match (if l_fault l then Err IoOther else rename_to (w_files w) path content mode) with
          | Ok (replaced, fs) => Some (log_event (event content replaced) (set_files fs w), Ok true)
          | Err _ => Some (w, Err (Raise ToolIo))
          end)
      else _ ← io_call (λ _, Ok tt); mret false
  end.

(** Everything of the text is known. *)
Definition whole_text (text : list Z) : CoverageMigration :=
  {| cm_ranges := option_list (LineRange_new 1 (logical_line_count text)); cm_complete := true |}.

(** Commit of a change: the write, and the evidence of what is known of the
    text afterwards. *)
Definition commit_change (c : ToolDispatchContext) (display : string) (write_path key : Path) (expected : option (list Z)) (after : list Z)
    (migration : option CoverageMigration) (event : list Z → option Node → Event) (success : Output) : Tool ToolExecution :=
  _ ← ensure_file_commit_not_cancelled c;
  _ ← ensure_file_commit_not_cancelled c;
  written ← write_text_atomic_if_unchanged c write_path key after expected event;
  if (written : bool) then
    _ ← match migration with
        | Some m => activate_file_read_evidence c (known_ranges sha256_hex key after (cm_ranges m) (cm_complete m)) None
        | None => mret tt
        end;
    mret (Completed success)
  else
    _ ← clear_file_path_state c key;
    mret (BusinessFailure (StaleWrite display)).

Definition file_patch (c : ToolDispatchContext) (args : FilePatchArgs) : Tool ToolExecution :=
  let old := fpa_old_content args in
  let new := fpa_new_content args in
  let display := fpa_path args in
  _ ← (if bool_decide (old = []) then raise ToolInvalidArgs else mret tt);
  let path := resolve_tool_path display in
  _ ← ensure_not_memory_path path;
  _ ← path_lock c path;
  '(write_path, existed) ← resolve_write_target path;
  _ ← (if negb existed then return_ (PatchNoFile display) else mret tt);
  _ ← ensure_not_memory_path write_path;
  let key := lexical_normalize_path write_path in
  _ ← acquire_file_write_lock c key;
  content ← read_to_string write_path;
  before ← (match content with
            | Ok before => mret before
            | Err IoNotFound => return_ (PatchNoFile display)
            | Err IoOther => raise ToolIo
            end : Tool (list Z));
  match match_indices before old with
  | [] => return_ (PatchNoMatch display)
  | match_start :: more =>
      _ ← (if negb (fpa_replace_all args) && negb (bool_decide (more = [])) then return_ (PatchNotUnique display) else mret tt);
      let match_end := (match_start + length old)%nat in
      let suggested := if fpa_replace_all args then None else Some (suggested_read_range before match_start match_end) in
      authority ← (if st_file_edit_authority_enabled cfg then
                     verdict ← evaluate_file_read_state c key before;
                     match verdict with
                     | Fresh authority => mret (Some authority)
                     | Missing => return_ (PatchPermission display suggested false)
                     | Stale => return_ (PatchPermission display suggested true)
                     end
                   else mret None);
      _ ← (match authority with
           | Some a => if fpa_replace_all args && negb (ra_complete a) then return_ (PatchPermission display None false) else mret tt
           | None => mret tt
           end : Tool unit);
      let replacements := if fpa_replace_all args then sat_add u64_max 1 (Z.of_nat (length more)) else 1%Z in
      let after := if fpa_replace_all args then replace before old new else replace_first before old new in
      migration ← (match authority with
                   | None => mret None
                   | Some a =>
                       if fpa_replace_all args then mret (Some (whole_text after))
                       else match migrate_edit_coverage before after a match_start match_end (length new) with
                            | Ok m => mret (Some m)
                            | Err required => return_ (PatchPermission display (Some required) false)
                            end
                   end : Tool (option CoverageMigration));
      let change := if fpa_replace_all args then SpliceAll old new else Splice match_start match_end new in
      let event := Changed (tc_call c) (tc_process c) (file_read_state_scope c) key (Some before) change in
      commit_change c display write_path key (Some before) after migration event (Patched display replacements)
  end.

Definition file_write (c : ToolDispatchContext) (args : FileWriteArgs) : Tool ToolExecution :=
  let display := fwa_path args in
  let content := fwa_content args in
  let mode := default "overwrite"%string (fwa_mode args) in
  _ ← (if bool_decide (mode ∈ ["overwrite"; "append"; "prepend"]%string) then mret tt else raise ToolInvalidArgs);
  let path := resolve_tool_path display in
  _ ← ensure_not_memory_path path;
  _ ← path_lock c path;
  '(write_path, existed) ← resolve_write_target path;
  _ ← (if (existed : bool) then ensure_not_memory_path write_path else mret tt);
  key ← (if existed then mret (lexical_normalize_path write_path)
         else atomic (λ w _, Some (w, Ok (tool_path_lock_key (w_files w) write_path))));
  _ ← (if existed then mret tt else ensure_not_memory_path key);
  _ ← acquire_file_write_lock c key;
  before ← (if existed then content ← read_to_string write_path; io content else mret []);
  authority ← (if existed && st_file_edit_authority_enabled cfg then
                 verdict ← evaluate_file_read_state c key before;
                 match verdict with
                 | Fresh authority => mret (Some authority)
                 | Missing => return_ (WritePermission display mode false (logical_line_count before))
                 | Stale => return_ (WritePermission display mode true (logical_line_count before))
                 end
               else mret None);
  _ ← (match authority with
       | Some a =>
           let authorized := if bool_decide (mode = "append"%string) then has_eof a else ra_complete a in
           if authorized then mret tt else return_ (WritePermission display mode false (ra_total_lines a))
       | None => mret tt
       end : Tool unit);
  let '(start, end_) :=
    if bool_decide (mode = "append"%string) then (length before, length before)
    else if bool_decide (mode = "prepend"%string) then (0, 0)%nat else (0, length before)%nat in
  let after :=
    if bool_decide (mode = "overwrite"%string) then content
    else if bool_decide (mode = "append"%string) then before ++ content else content ++ before in
  if existed && bool_decide (before = after) then mret (Completed (WriteNoChange display (Z.of_nat (length before))))
  else
    migration ← (if negb (st_file_edit_authority_enabled cfg) then mret None
                 else match authority with
                      | Some a =>
                          if ra_complete a || negb (bool_decide (mode = "append"%string)) then mret (Some (whole_text after))
                          else match migrate_edit_coverage before after a (length before) (length before) (length after - length before) with
                               | Ok m => mret (Some m)
                               | Err _ =>
                                   _ ← clear_file_path_state c key;
                                   return_ (WritePermission display mode false (ra_total_lines a))
                               end
                      | None => mret (Some (whole_text after))
                      end : Tool (option CoverageMigration));
    let expected := if existed then Some before else None in
    let event := Changed (tc_call c) (tc_process c) (file_read_state_scope c) key expected (Splice start end_ content) in
    commit_change c display write_path key expected after migration event (Written display (Z.of_nat (length after))).

Inductive Request := FileRead (args : FileReadArgs) | FilePatch (args : FilePatchArgs) | FileWrite (args : FileWriteArgs).

Definition tool_call (c : ToolDispatchContext) (r : Request) : Tool ToolExecution :=
  match r with FileRead args => file_read c args | FilePatch args => file_patch c args | FileWrite args => file_write c args end.

(** *** What the session engine asks of the registry *)

Definition file_read_state_scope_for_turn (child : bool) (session_id turn_id : string) : ReadStateScope :=
  {| rs_session_id := Some session_id; rs_caller_id := if child then Some turn_id else None |}.

Inductive RegistryOp :=
| ClearSession (session_id : string)
| ClearParent (session_id : string)
| ClearDelegation (session_id caller_id : string)
| BeginCheckpoint (child : bool) (session_id turn_id : string)
| CommitCheckpoint (child : bool) (session_id turn_id : string)
| RollbackCheckpoint (child : bool) (session_id turn_id : string).

Definition registry_op (op : RegistryOp) (s : Inner) : Result CheckpointError Inner :=
  if negb (st_file_edit_authority_enabled cfg) then Ok s
  else match op with
       | ClearSession session_id => Ok (clear_session session_id s)
       | ClearParent session_id => Ok (clear_scope {| rs_session_id := Some session_id; rs_caller_id := None |} s)
       | ClearDelegation session_id caller_id =>
           Ok (clear_scope {| rs_session_id := Some session_id; rs_caller_id := Some caller_id |} s)
       | BeginCheckpoint child session_id turn_id =>
           begin_checkpoint (file_read_state_scope_for_turn child session_id turn_id) turn_id s
       | CommitCheckpoint child session_id turn_id =>
           commit_checkpoint (file_read_state_scope_for_turn child session_id turn_id) turn_id s
       | RollbackCheckpoint child session_id turn_id =>
           rollback_checkpoint (file_read_state_scope_for_turn child session_id turn_id) turn_id s
       end.

Definition record_text_attachment_read (c : ToolDispatchContext) (canonical_path : Path) (content : list Z) : Tool unit :=
  activate_file_read_evidence c (complete_text sha256_hex canonical_path content) (Some content).

(** ** The system: all calls, step by step *)

Record System := { sy_world : World; sy_calls : gmap nat (Tool ToolExecution) }.

Definition release (call : nat) (w : World) : World :=
  set_write_locks (filter (λ kv, kv.2 ≠ call) (w_write_locks w))
    (set_path_locks (filter (λ kv, kv.2 ≠ call) (w_path_locks w)) w).

Inductive sys_step : System → System → Prop :=
| SysStart s c r : sy_calls s !! tc_call c = None →
    sys_step s {| sy_world := sy_world s; sy_calls := <[tc_call c := tool_call c r]> (sy_calls s) |}
| SysRun s i f l w t : sy_calls s !! i = Some (Step f) → f (sy_world s) l = Some (w, t) →
    sys_step s {| sy_world := w; sy_calls := <[i := t]> (sy_calls s) |}
| SysEnd s i t : sy_calls s !! i = Some t → (** it returns, or its task is dropped *)
    sys_step s {| sy_world := release i (sy_world s); sy_calls := delete i (sy_calls s) |}
| SysAttach s c path text f l w t : fits text = true → record_text_attachment_read c path text = Step f →
    f (sy_world s) l = Some (w, t) → sys_step s {| sy_world := w; sy_calls := sy_calls s |}
| SysRegistry s process op :
    sys_step s {| sy_world := update_reads process (λ s, keep_on_error s (registry_op op s)) (sy_world s); sy_calls := sy_calls s |}
| SysCancel s i :
    sys_step s {| sy_world := set_cancelled ({[i]} ∪ w_cancelled (sy_world s)) (sy_world s); sy_calls := sy_calls s |}
| SysOutside s fs :
    sys_step s {| sy_world := log_event Outside (set_files fs (sy_world s)); sy_calls := sy_calls s |}.

Definition initial (fs : Files) : System :=
  {| sy_world := {| w_files := fs; w_reads := ∅; w_path_locks := ∅; w_write_locks := ∅; w_cancelled := ∅; w_log := [] |}; sy_calls := ∅ |}.

Definition reachable (s : System) : Prop := ∃ fs, rtc sys_step (initial fs) s.
End tools.
