(* ===== verification/FileToolsProofs.v ===== *)
(** * No edit is blind (proofs on FileTools.v)

    What a caller knows of a text is defined from the log alone: what it was
    shown and what it wrote.  A rely-guarantee logic for the steps of calls
    shows that the read-state stores never claim more. *)

From S2P Require Import Prelude Text Claim Utf8 ReadState FileText FileTools.
Import Ids.

(** ** What a caller knows *)

Definition spliced (before : list Z) (change : Change) : list Z :=
  match change with Splice start end_ new => edited before new start end_ | SpliceAll old new => replace before old new end.

(** The byte at [p] of the text of a file, by what the log says up to now. *)
Fixpoint knows (log : list Event) (process : nat) (scope : ReadStateScope) (path : Path) (text : list Z) (p : nat) : Prop :=
  match log with
  | [] => False
  | e :: older =>
      knows older process scope path text p ∨
      match e with
      | Shown process' scope' path' text' ranges complete =>
          process' = process ∧ scope' = scope ∧ path' = path ∧ text' = text ∧ (complete = true ∨ known_at text ranges p)
      | Changed _ process' scope' path' before change content _ =>
          process' = process ∧ scope' = Some scope ∧ path' = path ∧ content = text ∧
          match change with
          | Splice start end_ new => kept_known (knows older process scope path (default [] before)) start end_ (length new) p
          | SpliceAll _ _ => ∀ q, q < length (default [] before) → knows older process scope path (default [] before) q
          end
      | _ => False
      end
  end.

(** What a change presupposes: each byte that goes is known; an insertion is
    next to a byte that is. *)
Definition presupposed (before : list Z) (change : Change) (known : nat → Prop) : Prop :=
  match change with
  | Splice start end_ _ =>
      start ≤ end_ ≤ length before ∧ (∀ p, start ≤ p < end_ → known p) ∧ (start = end_ → before ≠ [] → known (start - 1))
  | SpliceAll _ _ => ∀ p, p < length before → known p
  end.

(** The change of an existing file was made by a caller that knew it so. *)
Definition informed (e : Event) (older : list Event) : Prop :=
  match e with
  | Changed _ process scope path (Some before) change content _ =>
      is_protected_memory_path path = false ∧ content = spliced before change ∧
      ∃ sc, scope = Some sc ∧ presupposed before change (knows older process sc path before)
  | Changed _ _ _ path None change content _ => is_protected_memory_path path = false ∧ content = spliced [] change
  | _ => True
  end.

Fixpoint all_informed (log : list Event) : Prop :=
  match log with [] => True | e :: older => informed e older ∧ all_informed older end.

Lemma all_informed_at newer e older : all_informed (newer ++ e :: older) → informed e older.
Proof. induction newer as [|x newer IH]; simpl; intros []; auto. Qed.

Lemma knows_later newer older process scope path text p :
  knows older process scope path text p → knows (newer ++ older) process scope path text p.
Proof. intros H. induction newer as [|e newer IH]; simpl; [done|by left]. Qed.

Definition later (l1 l2 : list Event) : Prop := ∃ newer, l2 = newer ++ l1.

#[export] Instance later_preorder : PreOrder later.
Proof. split; [by exists []|]. intros l1 l2 l3 [n1 ->] [n2 ->]. exists (n2 ++ n1). by rewrite app_assoc. Qed.

Lemma later_cons l1 l2 e : later l1 l2 → later l1 (e :: l2).
Proof. intros [n ->]. by exists (e :: n). Qed.

Lemma knows_mono l1 l2 process scope path text p :
  later l1 l2 → knows l1 process scope path text p → knows l2 process scope path text p.
Proof. intros [n ->]. apply knows_later. Qed.

(** ** Normal paths *)

Lemma normalize_names names out : fold_left (λ out c, match c with CurDir => out | ParentDir => pop out | _ => push out c end) (Normal <$> names) out
  = out ++ (Normal <$> names).
Proof.
  revert out. induction names as [|n names IH]; intros out; simpl; [by rewrite app_nil_r|]. rewrite IH. unfold push. by rewrite <-app_assoc.
Qed.

Definition clean (p : Path) : Prop := ∃ names, p = (Normal <$> names) ∨ p = absolute names.

Lemma clean_normal p : clean p → lexical_normalize_path p = p.
Proof. intros (names & [->| ->]); unfold lexical_normalize_path; simpl; apply normalize_names. Qed.

Lemma clean_pop p : clean p → clean (pop p).
Proof.
  intros (names & H). unfold pop, parent. destruct names as [|n names _] using rev_ind; [by destruct H as [-> | ->]; exists []; auto|].
  exists names. unfold absolute in *. rewrite fmap_app in H. simpl in H. destruct H as [->| ->].
  - rewrite last_snoc, removelast_last. by left.
  - rewrite app_comm_cons, last_snoc, removelast_last. by right.
Qed.

Lemma clean_push p c : clean p → c ≠ ParentDir → c ≠ CurDir → clean (push p c).
Proof.
  intros (names & H) H1 H2. destruct c as [| | |n]; simpl; [exists []; by right|done|done|]. exists (names ++ [n]). unfold absolute in *.
  rewrite fmap_app. destruct H as [->| ->]; auto.
Qed.

Lemma normalize_clean p : clean (lexical_normalize_path p).
Proof.
  unfold lexical_normalize_path. assert (H : clean []) by (exists []; by left). revert H. generalize (@nil Component).
  induction p as [|c p IH]; intros out Hout; simpl; [done|]. apply IH. destruct c; [by apply clean_push|done|by apply clean_pop|by apply clean_push].
Qed.

Lemma normalize_protected p : is_protected_memory_path (lexical_normalize_path p) = is_protected_memory_path p.
Proof. unfold is_protected_memory_path. by rewrite (clean_normal _ (normalize_clean p)). Qed.

(** ** A logic of steps *)

Lemma tool_induction {A} (P : Tool A → Prop) : (∀ r, P (Done r)) →
  (∀ f, (∀ w l w' t, f w l = Some (w', t) → P t) → P (Step f)) → ∀ t, P t.
Proof.
  intros Hd Hs. fix IH 1. intros [r|f]; [apply Hd|]. apply Hs. intros w l w' t E.
  destruct (f w l) as [[w1 t1]|]; [|discriminate E]. injection E as _ <-. apply IH.
Qed.

Definition rely (w w' : World) : Prop := later (w_log w) (w_log w').

#[export] Instance rely_preorder : PreOrder rely.
Proof. split; unfold rely; [by intros w|]. intros w1 w2 w3 H1 H2. by etrans. Qed.

Lemma rely_same w w' : w_log w' = w_log w → rely w w'.
Proof. unfold rely. by intros ->. Qed.

(** A logic is given by an invariant, what the others may do to the world
    between two steps of a call ([lg_others]), what a step of the call may do
    ([lg_step]), and what all of this has in common ([lg_future]). *)
Class StepLogic := {
  lg_inv : World → Prop;
  lg_others : relation World;
  lg_step : relation World;
  lg_future : relation World;
  lg_preorder :: PreOrder lg_future;
  lg_others_future w w' : lg_others w w' → lg_future w w';
  lg_step_future w w' : lg_step w w' → lg_future w w';
  lg_quiet w w' : lg_inv w → w_files w' = w_files w → w_reads w' = w_reads w → w_write_locks w' = w_write_locks w →
    w_log w' = w_log w → lg_step w w' ∧ lg_inv w';
}.

Section wp.
Context `{SL : StepLogic}.

(** After any steps of others and of [t], [Q] holds of the result; each step of
    [t] keeps the invariant and is one that [lg_step] permits. *)
Fixpoint wp {A} (t : Tool A) (Q : Result Exit A → World → Prop) (w : World) : Prop :=
  match t with
  | Done r => Q r w
  | Step f => ∀ w1 l, lg_others w w1 → lg_inv w1 →
      match f w1 l with Some (w2, t') => lg_step w1 w2 ∧ lg_inv w2 ∧ wp t' Q w2 | None => True end
  end.

Definition safe {A} (t : Tool A) (w : World) : Prop := wp t (λ _ _, True) w.

Lemma wp_mono {A} (t : Tool A) Q Q' w : (∀ r w', lg_future w w' → Q r w' → Q' r w') → wp t Q w → wp t Q' w.
Proof.
  revert w. induction t as [r|f IH] using tool_induction; intros w HQ; simpl; [by apply HQ|].
  intros H w1 l Hr Hi. specialize (H w1 l Hr Hi). destruct (f w1 l) as [[w2 t']|] eqn:E; [|done].
  destruct H as (Hr2 & Hi2 & H). split; [done|]. split; [done|]. eapply IH; [exact E| |exact H].
  intros r w' Hr'. apply HQ. etrans; [by apply lg_others_future|]. etrans; [by apply lg_step_future|done].
Qed.

Lemma wp_bind {A B} (k : A → Tool B) (t : Tool A) Q w :
  wp t (λ r w', match r with Ok a => wp (k a) Q w' | Err e => Q (Err e) w' end) w → wp (t ≫= k) Q w.
Proof.
  change (t ≫= k) with (tool_bind k t). revert w. induction t as [[a|e]|f IH] using tool_induction; intros w; simpl; [done..|].
  intros H w1 l Hr Hi. specialize (H w1 l Hr Hi). destruct (f w1 l) as [[w2 t']|] eqn:E; [|done].
  destruct H as (Hr2 & Hi2 & H). split; [done|]. split; [done|]. eapply IH; [exact E|exact H].
Qed.

Lemma wp_atomic {A} (f : World → Label → option (World * Result Exit A)) (Q : Result Exit A → World → Prop) w :
  (∀ w1 l w2 r, lg_others w w1 → lg_inv w1 → f w1 l = Some (w2, r) → lg_step w1 w2 ∧ lg_inv w2 ∧ Q r w2) → wp (atomic f) Q w.
Proof. intros H w1 l Hr Hi. destruct (f w1 l) as [[w2 r]|] eqn:E; [|done]. exact (H w1 l w2 r Hr Hi E). Qed.

(** Steps that change nothing. *)
Lemma wp_look {A} (f : World → Label → option (World * Result Exit A)) (Q : Result Exit A → World → Prop) w :
  (∀ w1 l w2 r, f w1 l = Some (w2, r) → w2 = w1) →
  (∀ w1 l r, lg_others w w1 → lg_inv w1 → f w1 l = Some (w1, r) → Q r w1) → wp (atomic f) Q w.
Proof.
  intros Hf HQ. apply wp_atomic. intros w1 l w2 r Hr Hi E. rewrite (Hf _ _ _ _ E) in E |- *.
  destruct (lg_quiet w1 w1 Hi) as [H1 H2]; [done..|]. split; [done|]. split; [done|]. by eapply HQ.
Qed.

Lemma wp_io_read {A} (g : Files → Result IoKind A) (Q : Result Exit (Result IoKind A) → World → Prop) w :
  (∀ w1 r, lg_others w w1 → lg_inv w1 → r = Err IoOther ∨ r = g (w_files w1) → Q (Ok r) w1) → wp (io_read g) Q w.
Proof.
  intros HQ. apply wp_look; [by intros w1 l w2 r [= <- _]|]. intros w1 l r Hr Hi [= <-]. apply HQ; [done|done|]. case_match; auto.
Qed.

Lemma wp_io_call {A} (g : Files → Result IoKind A) (Q : Result Exit A → World → Prop) w :
  (∀ w1 r, lg_others w w1 → (∀ a, r = Ok a → g (w_files w1) = Ok a) → Q r w1) → wp (io_call g) Q w.
Proof.
  intros HQ. apply wp_bind, wp_io_read. intros w1 [a|e] Hr Hi H; simpl; apply HQ; try done.
  intros ? [= <-]. by destruct H.
Qed.

Lemma safe_then {A B} (k : A → Tool B) (t : Tool A) w :
  safe t w → (∀ a w', lg_future w w' → safe (k a) w') → safe (t ≫= k) w.
Proof. intros Ht Hk. apply wp_bind. eapply wp_mono; [|exact Ht]. intros [a|e] w' Hr _; [by apply Hk|done]. Qed.

Lemma safe_then_post {A B} (k : A → Tool B) (t : Tool A) (Q : Result Exit A → World → Prop) w :
  wp t Q w → (∀ a w', lg_future w w' → Q (Ok a) w' → safe (k a) w') → safe (t ≫= k) w.
Proof. intros Ht Hk. apply wp_bind. eapply wp_mono; [|exact Ht]. intros [a|e] w' Hr HQ; [by apply Hk|done]. Qed.

Lemma safe_of_post {A} (t : Tool A) w : wp t (λ _ w', lg_future w w') w → safe t w.
Proof. by apply wp_mono. Qed.

Lemma safe_done {A} r w : safe (Done (A := A) r) w.
Proof. done. Qed.

Lemma safe_if {A} (b : bool) (t1 t2 : Tool A) w : safe t1 w → safe t2 w → safe (if b then t1 else t2) w.
Proof. by destruct b. Qed.

Lemma safe_io_read {A} (g : Files → Result IoKind A) w : safe (io_read g) w.
Proof. by apply wp_io_read. Qed.

Lemma safe_io {A} (r : Result IoKind A) w : safe (io r) w.
Proof. by destruct r. Qed.

Lemma safe_io_call {A} (g : Files → Result IoKind A) w : safe (io_call g) w.
Proof. by apply wp_io_call. Qed.

(** A step that changes none of what the logics are about. *)
Lemma safe_quiet {A} (f : World → Label → option (World * Result Exit A)) w :
  (∀ w1 l w2 r, f w1 l = Some (w2, r) →
    w_files w2 = w_files w1 ∧ w_reads w2 = w_reads w1 ∧ w_write_locks w2 = w_write_locks w1 ∧ w_log w2 = w_log w1) → safe (atomic f) w.
Proof.
  intros Hf. apply wp_atomic. intros w1 l w2 r Hr Hi E. destruct (Hf _ _ _ _ E) as (H1 & H2 & H3 & H4).
  destruct (lg_quiet w1 w2 Hi) as [? ?]; [done..|]. by split_and!.
Qed.

Ltac quiet := apply safe_quiet; intros ? ? ? ? ?; repeat (case_match; try discriminate); simplify_eq; done.

Lemma safe_ensure_memory path w : safe (ensure_not_memory_path path) w.
Proof. unfold ensure_not_memory_path. by case_match. Qed.

Lemma wp_ensure_memory path w : wp (ensure_not_memory_path path) (λ r _, r = Ok tt → is_protected_memory_path path = false) w.
Proof. unfold ensure_not_memory_path. by destruct (is_protected_memory_path path). Qed.

Lemma safe_path_lock c path w : safe (path_lock c path) w.
Proof. apply safe_then; [quiet|]. intros key w' _. quiet. Qed.

Lemma safe_lock_key path w : safe (atomic (λ w _, Some (w, Ok (tool_path_lock_key (w_files w) path)))) w.
Proof. quiet. Qed.

Lemma safe_not_cancelled c w : safe (ensure_file_commit_not_cancelled c) w.
Proof. quiet. Qed.

Lemma safe_resolve path w : safe (resolve_write_target path) w.
Proof.
  apply safe_then; [apply safe_io_read|]. intros [target|[|]] w' _; [done| |done].
  apply safe_then; [apply safe_io_read|]. intros [[]|[]] w'' _; done.
Qed.

Lemma safe_media normalize_media cfg kind path w : safe (read_media_attachment normalize_media cfg kind path) w.
Proof.
  unfold read_media_attachment, read_validated_bytes. case_match; [done|]. apply safe_then; [|intros; by case_match].
  case_match; [done|]. apply safe_then; [apply safe_io_read|]. intros [[]|] w' _; try done. case_match; [done|].
  apply safe_then; [apply safe_io_read|]. by intros [] w'' _.
Qed.

Lemma wp_scan sha256_hex path request w :
  wp (scan_page sha256_hex path request) (λ r _, ∀ text outcome, r = Ok (text, outcome) →
    ∃ chunks, text = bytes_read chunks ∧ fits text = true ∧ read_text_page sha256_hex chunks request = Ok outcome) w.
Proof.
  apply wp_look; [by intros w1 l w2 r [= <- _]|]. intros w1 l r _ _ [= <-] text outcome H.
  destruct (match l_chunks l with Some _ => _ | None => _ end) as [chunks|]; [|done]. destruct (l_fault l); [done|].
  simpl in H. destruct (fits (bytes_read chunks)) eqn:Hfit; [|done]. simpl in H.
  destruct (read_text_page _ _ _) as [outcome'|] eqn:Hpage; [|done]. injection H as <- <-. eauto.
Qed.
End wp.

Lemma all_states_mono (P Q : ReadStateKey → FileReadState → Prop) s :
  (∀ k st, P k st → Q k st) → all_states P s → all_states Q s.
Proof. intros H [Hm Hi]. split; intros; apply H; [by apply Hm|by eapply Hi]. Qed.

(** ** The invariant: the stores claim no more than the callers know *)

Section invariant.
Context (sha256_hex : list Z → string).

Notation revision := (ContentRevision_from_bytes sha256_hex).

(** Texts that differ have different revisions. *)
Definition revision_inj : Prop := ∀ t1 t2, revision t1 = revision t2 → t1 = t2.

Record claims (log : list Event) (process : nat) (scope : ReadStateScope) (path : Path) (text : list Z)
    (total : Z) (ends : bool) (ranges : list LineRange) (complete : bool) : Prop := {
  cl_length : (Z.of_nat (length text) < u64_max)%Z;
  cl_total : total = logical_line_count text;
  cl_ends : ends = bool_decide (last text = Some 10%Z);
  cl_ranges : Forall (in_text text) ranges;
  cl_known p : p < length text → complete = true ∨ known_at text ranges p → knows log process scope path text p;
}.

Definition justified (log : list Event) (process : nat) (k : ReadStateKey) (st : FileReadState) : Prop :=
  state_ok st ∧ ∃ text, frs_revision st = revision text ∧
    claims log process k.1 k.2 text (frs_total_lines st) (frs_ends_with_newline st) (frs_ranges st) (frs_complete st).

Definition evidence_ok (log : list Event) (process : nat) (scope : ReadStateScope) (e : ReadEvidence) (text : list Z) : Prop :=
  re_revision e = revision text ∧
  claims log process scope (re_path e) text (re_total_lines e) (re_ends_with_newline e) (re_ranges e) (re_complete e).

Definition granted (log : list Event) (process : nat) (scope : ReadStateScope) (path : Path) (text : list Z) (a : ReadAuthority) : Prop :=
  normalized (ra_ranges a) ∧ claims log process scope path text (ra_total_lines a) (ra_ends_with_newline a) (ra_ranges a) (ra_complete a).

Definition inv (w : World) : Prop :=
  all_informed (w_log w) ∧ ∀ process, all_states (justified (w_log w) process) (reads process w).

Lemma claims_mono l1 l2 process scope path text total ends ranges complete : later l1 l2 →
  claims l1 process scope path text total ends ranges complete → claims l2 process scope path text total ends ranges complete.
Proof. intros Hl [H1 H2 H3 H4 H5]. split; try done. intros p Hp H. eapply knows_mono; [exact Hl|by apply H5]. Qed.

Lemma state_justified_mono l1 l2 process k st : later l1 l2 → justified l1 process k st → justified l2 process k st.
Proof. intros Hl (H1 & text & H2 & H3). split; [done|]. exists text. split; [done|]. by eapply claims_mono. Qed.


(** Lines 1 to the last one are the whole text. *)
Lemma whole_known text ranges p : (Z.of_nat (length text) < u64_max)%Z → covers_whole_file ranges (logical_line_count text) = true →
  p < length text → known_at text ranges p.
Proof.
  intros Hlen Hc Hp. destruct (byte_line text p Hp) as (i & sp & Hi & Hsp). exists i, sp. split; [done|]. split; [done|].
  apply lookup_lt_Some in Hi. rewrite (line_count text Hlen) in Hc. unfold covers_whole_file in Hc. destruct ranges as [|r [|]]; [done| |done].
  apply andb_prop in Hc as [[_ H1%Z.eqb_eq]%andb_prop H2%Z.eqb_eq]. exists r. split; [by apply list_elem_of_singleton|]. lia.
Qed.

Lemma state_record_justified log process scope e text old :
  revision_inj → evidence_ok log process scope e text →
  (∀ st, old = Some st → justified log process (scope, re_path e) st) →
  justified log process (scope, re_path e) (record_state old e) ∨
  READ_STATE_MAX_RANGES_PER_FILE < length (frs_ranges (record_state old e)).
Proof.
  intros Hinj [Hrev [Hlen Htotal Hends Hranges Hknown]] Hold.
  assert (Hrok : Forall range_ok (re_ranges e)) by (eapply Forall_impl; [exact Hranges|]; by intros r []).
  destruct (record_state_ok old e) as [Hok|?]; [intros st Hst; by apply Hold|done| |by right]. left.
  destruct (record_state_ranges old e) as [[Hn1 Hn2] Hline]; [intros st Hst; by apply Hold|done|].
  assert (Hsame : ∀ st, old = Some st → frs_revision st = re_revision e →
    claims log process scope (re_path e) text (frs_total_lines st) (frs_ends_with_newline st) (frs_ranges st) (frs_complete st)).
  { intros st Hst Heq. destruct (Hold st Hst) as (_ & text' & H1 & H2). rewrite (Hinj text text'); [exact H2|]. by rewrite <-Hrev, <-Heq. }
  split; [done|]. exists text. cbn [fst snd]. split.
  { unfold record_state. rewrite <-Hrev. cbn [frs_revision]. destruct old as [st|]; [|done].
    destruct (bool_decide_reflect (frs_revision st = re_revision e)) as [Heq|]; [exact Heq|done]. }
  assert (Hin : Forall (in_text text) (frs_ranges (record_state old e))).
  { rewrite Forall_forall in Hn2 |- *. intros r Hr. split; [by apply Hn2|]. specialize (Hn2 _ Hr). unfold range_ok in Hn2.
    destruct (proj1 (Hline (lr_end r))) as [(r' & Hr' & Hl)|(st & Hst & Heq & r' & Hr' & Hl)]; [exists r; split; [done|lia]|..].
    - rewrite Forall_forall in Hranges. destruct (Hranges _ Hr') as [_ ?]. lia.
    - pose proof (cl_ranges _ _ _ _ _ _ _ _ _ (Hsame st Hst Heq)) as Hf. rewrite Forall_forall in Hf. destruct (Hf _ Hr') as [_ ?]. lia. }
  assert (Hat : ∀ p, p < length text → known_at text (frs_ranges (record_state old e)) p → knows log process scope (re_path e) text p).
  { intros p Hp (i & sp & Hi & Hsp & [Hl|(st & Hst & Heq & Hl)]%Hline).
    - apply Hknown; [done|]. right. by exists i, sp.
    - apply (Hsame st Hst Heq); [done|]. right. by exists i, sp. }
  split; [done|exact Htotal|exact Hends|exact Hin|]. intros p Hp [Hc|Hk]; [|by apply Hat].
  unfold record_state in Hc. cbn [frs_complete] in Hc. apply orb_prop in Hc as [[Hc|Hc]%orb_prop|Hc].
  - destruct old as [st|]; [|done]. destruct (bool_decide_reflect (frs_revision st = re_revision e)) as [Heq|]; [|done].
    apply (Hsame st eq_refl Heq); [done|by left].
  - apply Hknown; [done|by left].
  - apply Hat; [done|]. apply whole_known; [done| |done]. by rewrite <-Htotal.
Qed.

(** *** The stores of a world *)

Lemma reads_update process process' f w :
  reads process' (update_reads process f w) = if decide (process' = process) then f (reads process w) else reads process' w.
Proof.
  unfold update_reads, reads. simpl. case_decide; [subst; by rewrite lookup_insert_eq|]. by rewrite lookup_insert_ne.
Qed.

Lemma inv_update w process f : inv w →
  (all_states (justified (w_log w) process) (reads process w) → all_states (justified (w_log w) process) (f (reads process w))) →
  inv (update_reads process f w).
Proof.
  intros [Hlog Hst] Hf. split; [exact Hlog|]. intros process'. rewrite reads_update. simpl.
  case_decide; [subst; by apply Hf|apply Hst].
Qed.

Lemma inv_log e w : inv w → informed e (w_log w) → inv (log_event e w).
Proof.
  intros [Hlog Hst] He. split; [by split|]. intros process. change (reads process (log_event e w)) with (reads process w).
  eapply all_states_mono; [|apply Hst]. intros k st. apply state_justified_mono. by eexists [e].
Qed.

Lemma inv_same w w' : inv w → w_log w' = w_log w → w_reads w' = w_reads w → inv w'.
Proof. intros [H1 H2] Hl Hr. unfold inv, reads. rewrite Hl, Hr. by split. Qed.

Lemma inv_record process scope e text w : revision_inj → inv w → evidence_ok (w_log w) process scope e text →
  inv (update_reads process (record scope e) w).
Proof.
  intros Hinj Hw He. apply inv_update; [done|]. intros Hall. apply (all_step _ _ (RsRecord scope e)); [done|].
  intros sc e' [= <- <-]. eapply state_record_justified; [done|exact He|]. intros st. apply Hall.
Qed.
End invariant.

(** ** The steps of the tools keep the invariant *)

Section steps.
Context (sha256_hex : list Z → string) (normalize_media : AttachmentKind → list Z → option Media) (cfg : Settings).
Context (Hinj : revision_inj sha256_hex).

Notation revision := (ContentRevision_from_bytes sha256_hex).
Notation inv := (inv sha256_hex).

#[local] Instance knowledge_logic : StepLogic :=
  {| lg_inv := inv; lg_others := rely; lg_step := rely; lg_future := rely; lg_quiet w w' Hi _ Hr _ Hl := conj (rely_same w w' Hl) (inv_same sha256_hex w w' Hi Hl Hr);
     lg_others_future _ _ H := H; lg_step_future _ _ H := H |}.

Lemma inv_op process op w : inv w → (∀ sc e, op ≠ RsRecord sc e) → inv (update_reads process (λ s, rs_step s op) w).
Proof. intros Hw Hop. apply inv_update; [done|]. intros Hall. apply all_step; [done|]. intros sc e ->. by destruct (Hop sc e). Qed.

(** The rules, for this logic. *)
Lemma wp_act {A} (f : World → Label → option (World * Result Exit A)) (Q : Result Exit A → World → Prop) w :
  (∀ w1 l w2 r, rely w w1 → inv w1 → f w1 l = Some (w2, r) → rely w1 w2 ∧ inv w2 ∧ Q r w2) → wp (atomic f) Q w.
Proof. exact (wp_atomic f Q w). Qed.

Lemma wp_conseq {A} (t : Tool A) (Q Q' : Result Exit A → World → Prop) w : (∀ r w', rely w w' → Q r w' → Q' r w') → wp t Q w → wp t Q' w.
Proof. exact (wp_mono t Q Q' w). Qed.

Lemma safe_seq {A B} (k : A → Tool B) (t : Tool A) w : safe t w → (∀ a w', rely w w' → safe (k a) w') → safe (t ≫= k) w.
Proof. exact (safe_then k t w). Qed.

Lemma safe_seq_post {A B} (k : A → Tool B) (t : Tool A) (Q : Result Exit A → World → Prop) w :
  wp t Q w → (∀ a w', rely w w' → Q (Ok a) w' → safe (k a) w') → safe (t ≫= k) w.
Proof. exact (safe_then_post k t Q w). Qed.

Lemma wp_io_done {A} (g : Files → Result IoKind A) (Q : Result Exit A → World → Prop) w :
  (∀ w1 r, rely w w1 → (∀ a, r = Ok a → g (w_files w1) = Ok a) → Q r w1) → wp (io_call g) Q w.
Proof. exact (wp_io_call g Q w). Qed.

(** A step that changes neither the log nor the stores. *)
Lemma safe_atomic {A} (f : World → Label → option (World * Result Exit A)) w :
  (∀ w1 l w2 r, f w1 l = Some (w2, r) → w_log w2 = w_log w1 ∧ w_reads w2 = w_reads w1) → safe (atomic f) w.
Proof.
  intros Hf. apply wp_act. intros w1 l w2 r Hr Hi E. destruct (Hf _ _ _ _ E) as [H1 H2].
  split; [unfold rely; by rewrite H1|]. split; [by apply (inv_same _ w1)|done].
Qed.

Ltac atomic_same := apply safe_atomic; intros ? ? ? ? ?; repeat (case_match; try discriminate); simplify_eq; done.

Lemma safe_write_lock c key w : safe (acquire_file_write_lock cfg c key) w.
Proof. unfold acquire_file_write_lock. case_match; [done|]. apply safe_seq; [atomic_same|]. intros. apply safe_not_cancelled. Qed.

Lemma safe_clear c path w : safe (clear_file_path_state cfg c path) w.
Proof.
  unfold clear_file_path_state. case_match; [|done]. apply wp_act. intros w1 l w2 res Hr Hi [= <- <-].
  split; [by apply rely_same|]. split; [|done]. by apply (inv_op _ (RsClearPath _ path)).
Qed.

(** *** What a verdict grants, what evidence records *)

Lemma wp_evaluate c path text w :
  wp (evaluate_file_read_state sha256_hex cfg c path text)
    (λ r w', ∀ a, r = Ok (Fresh a) → ∃ sc, file_read_state_scope cfg c = Some sc ∧ granted (w_log w') (tc_process c) sc path text a) w.
Proof.
  unfold evaluate_file_read_state. destruct (file_read_state_scope cfg c) as [sc|]; [|done].
  apply wp_act. intros w1 l w2 res Hr Hi H. destruct (evaluate _ _ _ _) as [v s] eqn:E.
  injection H as <- <-.
  assert (Hs : s = rs_step (reads (tc_process c) w1) (RsEvaluate sc path (revision text))) by (simpl; by rewrite E).
  split; [by apply rely_same|]. split; [rewrite Hs; by apply (inv_op _ (RsEvaluate sc path (revision text)))|].
  intros a [= ->]. exists sc. split; [done|]. unfold evaluate in E.
  destruct (in_map _ !! (sc, path)) as [st|] eqn:Hst; [|done]. case_bool_decide as Hrev; [|done]. injection E as <- _.
  destruct Hi as [_ Hall]. destruct (in_map_P _ _ (Hall (tc_process c)) _ _ Hst) as (Hok & text' & Heq & Hcl).
  split; [apply Hok|]. simpl in *. rewrite (Hinj text text'); [exact Hcl|]. congruence.
Qed.

Lemma wp_activate c e shown text w :
  (∀ sc w1, file_read_state_scope cfg c = Some sc → rely w w1 →
    match shown with
    | Some t => evidence_ok sha256_hex (Shown (tc_process c) sc (re_path e) t (re_ranges e) (re_complete e) :: w_log w1) (tc_process c) sc e text
    | None => evidence_ok sha256_hex (w_log w1) (tc_process c) sc e text
    end) → safe (activate_file_read_evidence cfg c e shown) w.
Proof.
  intros He. unfold activate_file_read_evidence. destruct (file_read_state_scope cfg c) as [sc|]; [|done].
  apply wp_act. intros w1 l w2 r Hr Hi [= <- <-]. specialize (He sc w1 eq_refl Hr).
  destruct shown as [t|]; (split; [|split; [|done]]).
  - unfold rely. simpl. by apply later_cons.
  - eapply inv_record; [done| |exact He]. by apply inv_log.
  - by apply rely_same.
  - by eapply inv_record.
Qed.

Lemma safe_matches c path key expected mode w : safe (target_matches_expected c path key expected mode) w.
Proof.
  apply safe_seq; [apply safe_io_read|]. intros meta w1 _.
  destruct meta as [[content mode'| |target]|[|]], expected as [want|]; try done.
  destruct (negb (bool_decide (mode' = mode))); [done|]. destruct (negb _); [done|].
  apply safe_seq; [|by intros [] w2 _].
  apply wp_act. intros w2 lb w3 res Hr Hi E. destruct (if l_fault lb then _ else _) as [current|]; injection E as <- <-; [|done].
  case_bool_decide; [|by split_and!]. split; [unfold rely; simpl; by apply later_cons|]. split; [|done]. by apply inv_log.
Qed.

Lemma fits_bound t : fits t = true → (Z.of_nat (length t) < u64_max)%Z.
Proof. unfold fits, MAX_FILE, u64_max. rewrite Z.leb_le. lia. Qed.

(** The write logs the change at its rename, or nothing. *)
Lemma wp_write c path key content expected event w :
  (fits content = true → ∀ w1 replaced, rely w w1 → informed (event content replaced) (w_log w1)) →
  wp (write_text_atomic_if_unchanged cfg c path key content expected event)
    (λ r w', r = Ok true → fits content = true ∧ ∃ older replaced, later (w_log w) older ∧ later (event content replaced :: older) (w_log w')) w.
Proof.
  intros He. unfold write_text_atomic_if_unchanged. apply wp_bind. eapply (wp_conseq _ (λ _ _, True)).
  2: { destruct expected; [|done]. apply safe_seq; [apply safe_io_read|]. by intros [[]|[]] w' _. }
  intros [preserved|] w1 Hr1 _; [|done]. destruct preserved as [mode|]; [|done].
  apply wp_bind. eapply (wp_conseq _ (λ _ _, True)). 2: { destruct (parent path); [|done]. atomic_same. }
  intros [[]|] w2 Hr2 _; [|done]. apply wp_bind, wp_io_done. intros w3 [[]|] Hr3 Hfits; [|done].
  specialize (Hfits tt eq_refl). destruct (fits content) eqn:Hfit; [|done].
  apply wp_bind. eapply (wp_conseq _ (λ _ _, True)); [|apply safe_matches]. intros [[]|] w4 Hr4 _; [| |done].
  2: { apply wp_bind, wp_io_done. by intros w5 [[]|] _ _. }
  apply wp_act. intros w5 l w6 res Hr5 Hi E. assert (Hr : rely w w5) by (by rewrite Hr1, Hr2, Hr3, Hr4).
  destruct (if l_fault l then _ else _) as [[replaced fs]|]; injection E as <- <-; [|done].
  specialize (He eq_refl w5 replaced Hr). split; [unfold rely; simpl; by apply later_cons|]. split.
  - apply inv_log; [by apply (inv_same _ w5)|exact He].
  - intros _. split; [done|]. exists (w_log w5), replaced. by split.
Qed.
(** *** Commits *)

Lemma safe_commit c display path key expected after migration event success w :
  (fits after = true →
    (∀ w1 replaced, rely w w1 → informed (event after replaced) (w_log w1)) ∧
    ∀ m older replaced log sc, migration = Some m → file_read_state_scope cfg c = Some sc →
      later (w_log w) older → later (event after replaced :: older) log →
      evidence_ok sha256_hex log (tc_process c) sc (known_ranges sha256_hex key after (cm_ranges m) (cm_complete m)) after) →
  safe (commit_change sha256_hex cfg c display path key expected after migration event success) w.
Proof.
  intros He. unfold commit_change. apply safe_seq; [apply safe_not_cancelled|]. intros _ w1 Hr1.
  apply safe_seq; [apply safe_not_cancelled|]. intros _ w2 Hr2. eapply safe_seq_post; [apply wp_write|].
  { intros Hfit w3 replaced Hr3. apply (He Hfit). by rewrite Hr1, Hr2. }
  intros written w3 Hr3 HQ. destruct written; [|apply safe_seq; [apply safe_clear|done]].
  destruct (HQ eq_refl) as (Hfit & older & replaced & Hold & Hlog). apply safe_seq; [|done].
  destruct migration as [m|]; [|done]. apply (wp_activate _ _ _ after). intros sc w4 Hsc Hr4.
  eapply (proj2 (He Hfit) m older replaced); [done|done| |].
  - unfold rely in *. by rewrite Hr1, Hr2.
  - unfold rely in *. by rewrite Hlog.
Qed.

(** Knowledge of a text that was written: it stays if the log grows. *)
Lemma knows_spliced log older call process sc path before start end_ new content replaced p :
  later (Changed call process (Some sc) path before (Splice start end_ new) content replaced :: older) log →
  kept_known (knows older process sc path (default [] before)) start end_ (length new) p → knows log process sc path content p.
Proof. intros Hl Hk. eapply knows_mono; [exact Hl|]. simpl. right. by split_and!. Qed.

Lemma whole_range_in_text text : (Z.of_nat (length text) < u64_max)%Z → Forall (in_text text) (cm_ranges (whole_text text)).
Proof.
  intros Hlen. simpl. unfold LineRange_new. rewrite line_count by done. pose proof (lines_bound text) as Hb. rewrite lines_length in Hb.
  case_match eqn:E; [|constructor]. apply andb_prop in E as [_ E%Z.leb_le]. repeat constructor; simpl; lia.
Qed.

Lemma evidence_whole log process sc key text : fits text = true → (∀ p, p < length text → knows log process sc key text p) →
  evidence_ok sha256_hex log process sc (known_ranges sha256_hex key text (cm_ranges (whole_text text)) (cm_complete (whole_text text))) text.
Proof.
  intros Hfit Hk. split; [done|]. split; [by apply fits_bound|done|done|by apply whole_range_in_text, fits_bound|]. intros p Hp _. by apply Hk.
Qed.

Lemma length_edited before new start end_ : start ≤ end_ ≤ length before →
  length (edited before new start end_) = start + length new + (length before - end_).
Proof. intros H. unfold edited. rewrite !length_app, length_take, length_drop. lia. Qed.

(** Who knows all of a text knows all of an edit of it. *)
Lemma kept_whole (known : nat → Prop) before new start end_ p : start ≤ end_ ≤ length before → (∀ q, q < length before → known q) →
  p < length (edited before new start end_) → kept_known known start end_ (length new) p.
Proof.
  intros Hspan Hk Hp. rewrite length_edited in Hp by done. unfold kept_known.
  destruct (decide (p < start)); [right; left; split; [done|apply Hk; lia]|].
  destruct (decide (p < start + length new)); [left; lia|]. right; right. split; [lia|]. apply Hk. lia.
Qed.

Lemma granted_known log process sc path text a p : granted log process sc path text a →
  p < length text → ra_complete a = true ∨ known_at text (ra_ranges a) p → knows log process sc path text p.
Proof. intros [_ Hc]. apply Hc. Qed.

Lemma known_at_bound text ranges p : known_at text ranges p → p < length text.
Proof. intros (i & sp & Hi & Hsp & _). apply line_bounds in Hi. lia. Qed.

(** The migration of an authority. *)
Lemma migrate_informs log0 log process sc path before a new start end_ m :
  granted log0 process sc path before a → later log0 log → start ≤ end_ ≤ length before →
  (Z.of_nat (length (edited before new start end_)) < u64_max)%Z →
  migrate_edit_coverage before (edited before new start end_) a start end_ (length new) = Ok m →
  ∀ p, start ≤ p < end_ → knows log process sc path before p.
Proof.
  intros Hg Hl Hspan Hlen Hm p Hp. eapply knows_mono; [exact Hl|]. eapply granted_known; [exact Hg|lia|].
  destruct (ra_complete a) eqn:Hc; [by left|right].
  destruct (migration_facts before new a start end_ m) as (H & _); try done; [apply Hg|]. by apply H.
Qed.

Lemma migrate_evidence log0 older log call process sc path before a new start end_ m replaced :
  granted log0 process sc path before a → later log0 older → start ≤ end_ ≤ length before →
  let after := edited before new start end_ in
  fits after = true → migrate_edit_coverage before after a start end_ (length new) = Ok m →
  later (Changed call process (Some sc) path (Some before) (Splice start end_ new) after replaced :: older) log →
  evidence_ok sha256_hex log process sc (known_ranges sha256_hex path after (cm_ranges m) (cm_complete m)) after.
Proof.
  intros Hg Hold Hspan after Hfit Hm Hl. assert (Hlen := fits_bound _ Hfit).
  assert (Hknows : ∀ p, kept_known (knows older process sc path before) start end_ (length new) p → knows log process sc path after p).
  { intros p Hp. by eapply knows_spliced. }
  destruct (ra_complete a) eqn:Hc.
  - unfold migrate_edit_coverage in Hm. rewrite Hc in Hm. injection Hm as <-. apply evidence_whole; [done|]. intros p Hp.
    apply Hknows. eapply kept_whole; [exact Hspan| |exact Hp]. intros q Hq. eapply knows_mono; [exact Hold|].
    eapply granted_known; [exact Hg|done|by left].
  - destruct (migration_facts before new a start end_ m) as (_ & Hin & Hlines & _ & Hcomplete); try done; [apply Hg|].
    assert (Hkept : ∀ p, kept_known (known_at before (ra_ranges a)) start end_ (length new) p → knows log process sc path after p).
    { intros p Hp. apply Hknows. assert (Hkn : ∀ q, known_at before (ra_ranges a) q → knows older process sc path before q).
      { intros q Hq. eapply knows_mono; [exact Hold|]. eapply granted_known; [exact Hg|by eapply known_at_bound|by right]. }
      destruct Hp as [?|[[? ?]|[? ?]]]; [by left|right; left|right; right]; (split; [done|apply Hkn; done]). }
    split; [done|]. split; [done|done|done|exact Hin|]. intros p Hp [Hcm|(i & sp & Hi & Hsp & Hl')]; simpl in *.
    + apply Hkept. by apply Hcomplete.
    + apply Hkept. destruct (proj1 (Hlines _) Hl') as (j & line & Hj & Heq & Hall). assert (j = i) as -> by lia.
      change (line_byte_spans after !! i = Some line) in Hj. simplify_eq. by apply Hall.
Qed.
(** *** The matches of a patch *)

Lemma matches_bound needle text : ∀ skip index i, i ∈ matches needle skip index text → index ≤ i.
Proof.
  induction text as [|b text IH]; intros skip index i; cbn [matches]; [by intros ?%not_elem_of_nil|].
  destruct skip as [|skip]; [|intros H%IH; lia]. destruct (text_starts_with _ _); [|intros H%IH; lia].
  intros [->|H%IH]%elem_of_cons; lia.
Qed.

Lemma starts_with_app needle text : text_starts_with needle text = true → ∃ rest, text = needle ++ rest.
Proof.
  revert text. induction needle as [|a needle IH]; intros text H; [by exists text|]. destruct text as [|b text]; [done|].
  simpl in H. apply andb_prop in H as [->%Z.eqb_eq H]. destruct (IH _ H) as [rest ->]. by exists rest.
Qed.

(** The first match is what a patch replaces. *)
Lemma replace_first_edited needle new text : ∀ index i more, needle ≠ [] → matches needle 0 index text = i :: more →
  index ≤ i ∧ i - index + length needle ≤ length text ∧
  replace_first text needle new = edited text new (i - index) (i - index + length needle).
Proof.
  induction text as [|b text IH]; intros index i more Hne H; cbn [matches] in H; [done|].
  cbn [replace_first]. destruct (text_starts_with needle (b :: text)) eqn:E.
  - injection H as <- _. apply starts_with_app in E as [rest E]. rewrite Nat.sub_diag, Nat.add_0_l. split; [lia|]. split; [rewrite E, length_app; lia|].
    done.
  - destruct (IH (S index) i more Hne H) as (H1 & H2 & H3). split; [lia|]. split; [simpl; lia|]. rewrite H3. unfold edited.
    replace (i - index) with (S (i - S index)) by lia. done.
Qed.

Lemma match_first before old new i more : old ≠ [] → match_indices before old = i :: more →
  i + length old ≤ length before ∧ replace_first before old new = edited before new i (i + length old).
Proof.
  intros Hne H. destruct (replace_first_edited old new before 0 i more Hne H) as (_ & H2 & H3). rewrite Nat.sub_0_r in H2, H3. by split.
Qed.

(** *** The tools *)

Lemma safe_patch c args w : st_file_edit_authority_enabled cfg = true → safe (file_patch sha256_hex cfg c args) w.
Proof.
  intros Hon. unfold file_patch. destruct (bool_decide_reflect (fpa_old_content args = [])) as [|Hold]; [done|]. apply safe_seq; [done|]. intros _ w1 _.
  apply safe_seq; [apply safe_ensure_memory|]. intros _ w2 _. apply safe_seq; [apply safe_path_lock|]. intros _ w3 _.
  apply safe_seq; [apply safe_resolve|]. intros [write_path existed] w4 _. apply safe_seq; [by apply safe_if|]. intros _ w5 _.
  eapply safe_seq_post; [apply wp_ensure_memory|]. intros [] w6 _ Hmem. specialize (Hmem eq_refl). rewrite <-normalize_protected in Hmem.
  apply safe_seq; [apply safe_write_lock|]. intros _ w7 _. apply safe_seq; [apply safe_io_read|]. intros content w8 _. apply safe_seq; [by repeat case_match|]. intros before w9 _.
  destruct (match_indices before (fpa_old_content args)) as [|start more] eqn:Hm; [done|].
  destruct (match_first _ _ (fpa_new_content args) _ _ Hold Hm) as [Hspan Hfirst].
  apply safe_seq; [by apply safe_if|]. intros _ w10 _. rewrite Hon. cbn zeta beta.
  eapply (safe_seq_post _ _ (λ r w', ∀ au, r = Ok au → ∃ a sc, au = Some a ∧ file_read_state_scope cfg c = Some sc ∧
    granted (w_log w') (tc_process c) sc (lexical_normalize_path write_path) before a)).
  { apply wp_bind. eapply wp_conseq; [|apply wp_evaluate]. intros [[|a|]|] w11 _ Hv; try done. destruct (Hv a eq_refl) as (sc & Hsc & Hg).
    intros au [= <-]. by exists a, sc. }
  intros au w11 _ Hau. destruct (Hau au eq_refl) as (a & sc & -> & Hsc & Hg). clear Hau.
  eapply (safe_seq_post _ _ (λ r _, r = Ok tt → fpa_replace_all args = true → ra_complete a = true)).
  { by destruct (fpa_replace_all args), (ra_complete a). }
  intros [] w12 Hr12 Hwhole. specialize (Hwhole eq_refl). destruct (fpa_replace_all args) eqn:Hall.
  - specialize (Hwhole eq_refl). eapply (safe_seq_post _ _ (λ r _, r = Ok (Some (whole_text (replace before (fpa_old_content args) (fpa_new_content args)))))); [done|].
    intros migration w13 Hr13 [= ->]. rewrite Hsc. assert (Hk : ∀ log p, later (w_log w11) log → p < length before →
      knows log (tc_process c) sc (lexical_normalize_path write_path) before p).
    { intros log p Hl Hp. eapply knows_mono; [exact Hl|]. eapply granted_known; [exact Hg|done|by left]. }
    assert (Hr : rely w11 w13) by (by rewrite Hr12). apply safe_commit. intros Hfit. split.
    + intros w14 replaced Hr14. split; [done|]. split; [done|]. exists sc. split; [done|]. intros p Hp. apply Hk; [|done]. unfold rely in *. by rewrite Hr.
    + intros m older replaced log sc' [= <-] Hsc' Hold' Hl. assert (sc' = sc) as -> by congruence. apply evidence_whole; [done|].
      intros p Hp. eapply knows_mono; [exact Hl|]. simpl. right. split_and!; try done. intros q Hq. apply Hk; [|done].
      unfold rely in *. by rewrite Hr.
  - eapply (safe_seq_post _ _ (λ r _, ∀ o, r = Ok o → ∃ m, o = Some m ∧
      migrate_edit_coverage before (replace_first before (fpa_old_content args) (fpa_new_content args)) a start
        (start + length (fpa_old_content args)) (length (fpa_new_content args)) = Ok m)).
    { destruct (migrate_edit_coverage _ _ _ _ _ _) as [m|required]; [|done]. intros o [= <-]. by exists m. }
    intros migration w13 Hr13 Hm'. destruct (Hm' migration eq_refl) as (m & -> & Hmig). clear Hm' Hwhole. rewrite Hsc, Hfirst in *.
    assert (Hr : rely w11 w13) by (by rewrite Hr12). apply safe_commit.
    intros Hfit. assert (Hlen := fits_bound _ Hfit). split.
    + intros w14 replaced Hr14. split; [done|]. split; [done|]. exists sc. split; [done|]. split; [lia|]. split.
      * intros p Hp. eapply (migrate_informs (w_log w11)); [exact Hg| | |exact Hlen|exact Hmig|exact Hp]; [|lia]. unfold rely in *. by rewrite Hr.
      * intros Heq. exfalso. destruct (fpa_old_content args); [done|simpl in *; lia].
    + intros m' older replaced log sc' [= <-] Hsc' Hold' Hl. assert (sc' = sc) as -> by congruence.
      eapply migrate_evidence; [exact Hg| | |exact Hfit|exact Hmig|exact Hl]; [|lia]. unfold rely in *. by rewrite Hr.
Qed.
Lemma page_evidence chunks r page e log process sc : fits (bytes_read chunks) = true →
  read_text_page sha256_hex chunks r = Ok (Page page) → tp_evidence page = Some e →
  evidence_ok sha256_hex (Shown process sc (re_path e) (bytes_read chunks) (re_ranges e) (re_complete e) :: log) process sc e (bytes_read chunks).
Proof.
  intros Hfit%fits_bound H He. destruct (page_facts sha256_hex chunks r page Hfit H) as (_ & Hpage & Hev).
  destruct (Hev e He) as (Hpath & Hrev & Htotal & Hends & Hranges & _). split; [exact Hrev|]. split; [done|done|done| |].
  - rewrite Hranges. unfold page_of in Hpage. destruct (po_returned_start _) as [a|], (po_returned_end _) as [b|]; try done.
    destruct Hpage as (i & n & Hn & Hle & -> & -> & _). pose proof (lines_bound (bytes_read chunks)).
    repeat constructor; simpl; rewrite <-?lines_length; lia.
  - intros p Hp Hk. simpl. right. by split_and!.
Qed.

Lemma safe_read c args w : safe (file_read sha256_hex normalize_media cfg c args) w.
Proof.
  unfold file_read. destruct (_ =? 0)%Z; [done|]. destruct (_ =? 0)%Z; [done|]. apply safe_seq; [apply safe_if; [apply safe_ensure_memory|done]|].
  intros _ w1 _. destruct (attachment_kind_for_path _); try (apply safe_seq; [apply safe_media|done]).
  apply safe_seq; [apply safe_path_lock|]. intros _ w2 _. apply safe_seq; [apply safe_io_call|]. intros read_path w3 _.
  apply safe_seq; [apply safe_if; [apply safe_ensure_memory|done]|]. intros _ w4 _.
  eapply safe_seq_post; [apply wp_scan|]. intros [text outcome] w5 _ H. destruct (H _ _ eq_refl) as (chunks & -> & Hfit & Hpage).
  destruct outcome as [page|line]; [|done]. destruct (tp_evidence page) as [e|] eqn:He; [|done].
  apply safe_seq; [|done]. apply (wp_activate _ _ _ (bytes_read chunks)). intros sc w6 _ _. by eapply page_evidence.
Qed.
(** What the mode of a write does to the text. *)
Lemma write_edit (append overwrite prepend : bool) before content : (overwrite = true → append = false ∧ prepend = false) → append || overwrite || prepend = true →
  let '(start, end_) := if append then (length before, length before) else if prepend then (0, 0) else (0, length before) in
  start ≤ end_ ≤ length before ∧
  (if overwrite then content else if append then before ++ content else content ++ before) = edited before content start end_.
Proof.
  intros Ho Hm. unfold edited. destruct append, overwrite, prepend; try done; try (by destruct Ho); simpl; (split; [lia|]);
    by rewrite ?firstn_all, ?drop_all, ?app_nil_r.
Qed.

(** The last byte is in the last line. *)
Lemma eof_known log process sc path before a : granted log process sc path before a → has_eof a = true → before ≠ [] →
  knows log process sc path before (length before - 1).
Proof.
  intros Hg Heof Hne. assert (Hp : length before - 1 < length before) by (destruct before; [done|simpl; lia]).
  apply (granted_known _ _ _ _ _ _ _ Hg Hp). unfold has_eof in Heof. apply orb_prop in Heof as [?|[_ Heof]%andb_prop]; [by left|right].
  apply existsb_exists in Heof as (r & Hr%list_elem_of_In & Hend%Z.eqb_eq). destruct (byte_line before (length before - 1) Hp) as (i & sp & Hi & Hsp).
  exists i, sp. split; [done|]. split; [done|]. exists r. split; [done|]. destruct Hg as [[_ Hok] [Hlen Htotal _ _ _]].
  rewrite Forall_forall in Hok. specialize (Hok _ Hr). unfold range_ok in Hok. rewrite Hend, Htotal, line_count in * by done.
  apply lookup_lt_Some in Hi as Hlt. destruct (decide (i = length (line_byte_spans before) - 1)) as [->|Hi']; [lia|exfalso].
  destruct (lookup_lt_is_Some_2 (line_byte_spans before) (S i)) as [sp' Hi'']; [lia|]. pose proof (line_order _ _ _ _ _ Hi Hi'').
  destruct (line_bounds _ _ _ Hi''). unfold span_ok in *. lia.
Qed.
(** The commit of a write whose caller may make the change: it created the
    file, or knows what [presupposed] asks, and its evidence is of all of the
    text or what the migration gives. *)
Lemma safe_create c display path key content start end_ after success w :
  is_protected_memory_path key = false → after = edited [] content start end_ → start ≤ end_ ≤ 0 →
  safe (commit_change sha256_hex cfg c display path key None after (Some (whole_text after))
    (Changed (tc_call c) (tc_process c) (file_read_state_scope cfg c) key None (Splice start end_ content)) success) w.
Proof.
  intros Hmem Hafter Hspan. apply safe_commit. intros Hfit. split; [by intros; split|].
  intros m older replaced log sc [= <-] Hsc Hold Hl. apply evidence_whole; [done|]. intros p Hp.
  eapply knows_mono; [exact Hl|]. simpl. right. split_and!; try done. apply (kept_whole _ []); [done| |by rewrite <-Hafter].
  intros q Hq. simpl in Hq. lia.
Qed.

Lemma safe_overwrite c display path key before a sc content start end_ after success w0 w :
  is_protected_memory_path key = false → rely w0 w → granted (w_log w0) (tc_process c) sc key before a → ra_complete a = true → file_read_state_scope cfg c = Some sc →
  after = edited before content start end_ → start ≤ end_ ≤ length before →
  safe (commit_change sha256_hex cfg c display path key (Some before) after (Some (whole_text after))
    (Changed (tc_call c) (tc_process c) (file_read_state_scope cfg c) key (Some before) (Splice start end_ content)) success) w.
Proof.
  intros Hmem Hr Hg Hc Hsc Hafter Hspan. rewrite Hsc. apply safe_commit. intros Hfit.
  assert (Hk : ∀ log p, later (w_log w0) log → p < length before → knows log (tc_process c) sc key before p).
  { intros log p Hl Hp. eapply knows_mono; [exact Hl|]. eapply granted_known; [exact Hg|done|by left]. }
  split.
  - intros w1 replaced Hr1. assert (Hl : later (w_log w0) (w_log w1)) by (unfold rely in *; by rewrite Hr). split; [done|]. split; [exact Hafter|].
    exists sc. split; [done|]. split; [done|]. split; [intros p Hp; apply Hk; [done|lia]|]. intros _ Hne. apply Hk; [done|].
    destruct before; [done|simpl in *; lia].
  - intros m older replaced log sc' [= <-] Hsc' Hold Hl. assert (sc' = sc) as -> by congruence. apply evidence_whole; [done|]. intros p Hp.
    eapply knows_mono; [exact Hl|]. simpl. right. split_and!; try done. apply (kept_whole _ before); [done| |by rewrite <-Hafter].
    intros q Hq. apply Hk; [|done]. unfold rely in *. by rewrite Hr.
Qed.

Lemma safe_append c display path key before a sc content after m success w0 w :
  is_protected_memory_path key = false → rely w0 w → granted (w_log w0) (tc_process c) sc key before a → has_eof a = true → file_read_state_scope cfg c = Some sc →
  after = edited before content (length before) (length before) →
  migrate_edit_coverage before after a (length before) (length before) (length content) = Ok m →
  safe (commit_change sha256_hex cfg c display path key (Some before) after (Some m)
    (Changed (tc_call c) (tc_process c) (file_read_state_scope cfg c) key (Some before) (Splice (length before) (length before) content)) success) w.
Proof.
  intros Hmem Hr Hg Heof Hsc Hafter Hm. rewrite Hsc. apply safe_commit. intros Hfit. subst after. split.
  - intros w1 replaced Hr1. split; [done|]. split; [done|]. exists sc. split; [done|]. split; [lia|]. split; [lia|]. intros _ Hne.
    eapply knows_mono; [|by eapply eof_known]. unfold rely in *. by rewrite Hr.
  - intros m' older replaced log sc' [= <-] Hsc' Hold Hl. assert (sc' = sc) as -> by congruence.
    eapply migrate_evidence; [exact Hg| | |exact Hfit|exact Hm|exact Hl]; [|lia]. unfold rely in *. by rewrite Hr.
Qed.

Lemma safe_write c args w : st_file_edit_authority_enabled cfg = true → safe (file_write sha256_hex cfg c args) w.
Proof.
  intros Hon. unfold file_write. cbn zeta. set (mode := default "overwrite"%string (fwa_mode args)).
  destruct (bool_decide_reflect (mode ∈ ["overwrite"; "append"; "prepend"]%string)) as [Hmode|]; [|done].
  apply safe_seq; [done|]. intros _ w1 _. apply safe_seq; [apply safe_ensure_memory|]. intros _ w2 _.
  apply safe_seq; [apply safe_path_lock|]. intros _ w3 _. apply safe_seq; [apply safe_resolve|]. intros [write_path existed] w4 _.
  eapply (safe_seq_post _ _ (λ r _, r = Ok tt → existed = true → is_protected_memory_path write_path = false)).
  { destruct existed; [|done]. eapply wp_conseq; [|apply wp_ensure_memory]. auto. }
  intros [] w5 _ Hmem1. specialize (Hmem1 eq_refl).
  eapply (safe_seq_post _ _ (λ r _, existed = true → r = Ok (lexical_normalize_path write_path))); [destruct existed; [done|]|].
  { eapply (wp_conseq _ (λ _ _, True)); [done|]. atomic_same. }
  intros key w6 _ Hkey. eapply (safe_seq_post _ _ (λ r _, r = Ok tt → is_protected_memory_path key = false)).
  { destruct existed; [|apply wp_ensure_memory]. intros _. injection (Hkey eq_refl) as ->. rewrite normalize_protected. by apply Hmem1. }
  intros [] w7 _ Hmem. specialize (Hmem eq_refl). apply safe_seq; [apply safe_write_lock|]. intros _ w8 _.
  eapply (safe_seq_post _ _ (λ r _, r = Ok [] ∨ existed = true)).
  { destruct existed; [|by left]. eapply wp_conseq; [|apply (safe_seq _ (read_to_string write_path)); [apply safe_io_read|intros; apply safe_io]]. by right. }
  intros before w9 _ Hbefore.
  eapply (safe_seq_post _ _ (λ r w', ∀ au, r = Ok au → existed = false ∧ au = None ∨
    ∃ a sc, existed = true ∧ au = Some a ∧ file_read_state_scope cfg c = Some sc ∧ granted (w_log w') (tc_process c) sc key before a)).
  { rewrite Hon. destruct existed; simpl; [|by intros au [= <-]; left]. apply wp_bind. eapply wp_conseq; [|apply wp_evaluate].
    intros [[|a|]|] w10 _ Hv; try done. destruct (Hv a eq_refl) as (sc & Hsc & Hg). intros au [= <-]. right. by exists a, sc. }
  intros au w10 _ Hau. specialize (Hau au eq_refl).
  eapply (safe_seq_post _ _ (λ r _, r = Ok tt → ∀ a, au = Some a → (if bool_decide (mode = "append"%string) then has_eof a else ra_complete a) = true)).
  { destruct au as [a|]; [|done]. destruct (if bool_decide _ then has_eof a else ra_complete a) eqn:E; [|done]. by intros _ a' [= <-]. }
  intros [] w11 Hr11 Hauth. specialize (Hauth eq_refl).
  pose proof (write_edit (bool_decide (mode = "append"%string)) (bool_decide (mode = "overwrite"%string)) (bool_decide (mode = "prepend"%string))
    before (fwa_content args)) as Hedit.
  destruct (if bool_decide (mode = "append"%string) then _ else _) as [start end_] eqn:Hse.
  destruct Hedit as [Hspan Hafter].
  { intros ->%bool_decide_eq_true. done. }
  { apply orb_true_iff. rewrite orb_true_iff, !bool_decide_eq_true. set_solver. }
  rewrite Hafter. destruct (existed && _); [done|]. rewrite Hon. simpl negb. cbn iota.
  destruct Hau as [[-> ->]|(a & sc & -> & -> & Hsc & Hg)].
  - destruct Hbefore as [[= ->]|]; [|done]. apply safe_create; [done|done|simpl in *; lia].
  - specialize (Hauth a eq_refl). destruct (ra_complete a) eqn:Hc; simpl.
    + by eapply safe_overwrite.
    + destruct (bool_decide_reflect (mode = "append"%string)) as [Happ|]; [|done]. injection Hse as <- <-. simpl.
      assert (length (edited before (fwa_content args) (length before) (length before)) - length before = length (fwa_content args)) as ->
        by (rewrite (length_edited _ _ _ _ Hspan); lia).
      destruct (migrate_edit_coverage _ _ _ _ _ _) as [m|] eqn:Hm; [by eapply safe_append|].
      eapply (safe_seq_post _ _ (λ r _, ∀ o, r ≠ Ok o)); [|intros o w12 _ H; by destruct (H o)].
      apply wp_bind. eapply wp_conseq; [|apply safe_clear]. by intros [].
Qed.
(** ** All reachable systems *)

Lemma safe_later {A} (t : Tool A) w w' : rely w w' → safe t w → safe t w'.
Proof. intros Hr. destruct t as [r|f]; [done|]. intros H w1 l Hr1. apply H. by rewrite Hr. Qed.

Lemma safe_call c r w : st_file_edit_authority_enabled cfg = true → safe (tool_call sha256_hex normalize_media cfg c r) w.
Proof. intros Hon. destruct r; [apply safe_read|by apply safe_patch|by apply safe_write]. Qed.

Lemma safe_attach c path text w : fits text = true → safe (record_text_attachment_read sha256_hex cfg c path text) w.
Proof.
  intros Hfit. apply (wp_activate _ _ _ text). intros sc w1 _ _. split; [done|].
  split; [by apply fits_bound|done|done|by apply whole_range_in_text, fits_bound|]. intros p Hp _. simpl. right. split_and!; try done. by left.
Qed.

Lemma inv_registry process op w : inv w → inv (update_reads process (λ s, keep_on_error s (registry_op cfg op s)) w).
Proof.
  intros Hw. unfold registry_op. destruct (negb _); [by apply inv_update|].
  destruct op as [sid|sid|sid caller|child sid t|child sid t|child sid t].
  - by apply (inv_op _ (RsClearSession sid)).
  - by apply (inv_op _ (RsClearScope {| rs_session_id := Some sid; rs_caller_id := None |})).
  - by apply (inv_op _ (RsClearScope {| rs_session_id := Some sid; rs_caller_id := Some caller |})).
  - by apply (inv_op _ (RsBegin (file_read_state_scope_for_turn child sid t) t)).
  - by apply (inv_op _ (RsCommit (file_read_state_scope_for_turn child sid t) t)).
  - by apply (inv_op _ (RsRollback (file_read_state_scope_for_turn child sid t) t)).
Qed.

Definition sys_ok (s : System) : Prop := inv (sy_world s) ∧ ∀ i t, sy_calls s !! i = Some t → safe t (sy_world s).

Lemma sys_step_ok s s' : st_file_edit_authority_enabled cfg = true →
  sys_step sha256_hex normalize_media cfg s s' → sys_ok s → sys_ok s'.
Proof.
  intros Hon Hstep [Hi Hc].
  assert (Hothers : ∀ w', rely (sy_world s) w' → ∀ i t, sy_calls s !! i = Some t → safe t w').
  { intros w' Hr i t Ht. eapply safe_later; [exact Hr|]. by eapply Hc. }
  destruct Hstep as [s c r Hnew|s i f l w t Hf Hstep|s i t Ht|s c path text f l w t Hfit Hf Hstep|s process op|s i|s fs]; simpl in *.
  - split; [done|]. simpl. intros i t. rewrite lookup_insert_Some. intros [[_ <-]|[_ Ht]]; [by apply safe_call|by eapply Hc].
  - pose proof (Hc i (Step f) Hf) as H. specialize (H (sy_world s) l). rewrite Hstep in H. destruct H as (Hr & Hi' & Ht); [done|done|].
    split; [done|]. simpl. intros j t'. rewrite lookup_insert_Some. intros [[_ <-]|[_ Hj]]; [done|by eapply Hothers].
  - split; [by apply (inv_same _ (sy_world s))|]. simpl. intros j t' [_ Hj]%lookup_delete_Some. eapply Hothers; [by apply rely_same|exact Hj].
  - pose proof (safe_attach c path text (sy_world s) Hfit) as H. rewrite Hf in H. specialize (H (sy_world s) l). rewrite Hstep in H.
    destruct H as (Hr & Hi' & _); [done|done|]. split; [done|]. intros j t'. by apply Hothers.
  - split; [by apply inv_registry|]. intros j t'. apply Hothers. by apply rely_same.
  - split; [by apply (inv_same _ (sy_world s))|]. intros j t'. apply Hothers. by apply rely_same.
  - split; [apply inv_log; [by apply (inv_same _ (sy_world s))|done]|]. intros j t'. apply Hothers. unfold rely. simpl. by apply later_cons.
Qed.

Lemma reachable_ok s : st_file_edit_authority_enabled cfg = true → reachable sha256_hex normalize_media cfg s → sys_ok s.
Proof.
  intros Hon [fs Hs]. assert (H0 : sys_ok (initial fs)).
  { split; [split; [done|]|intros i t Ht; simpl in Ht; by rewrite lookup_empty in Ht]. intros process. unfold reads. simpl. rewrite lookup_empty. apply all_states_default. }
  revert H0. generalize (initial fs) Hs. clear fs Hs. intros s0 Hs. induction Hs as [s|s1 s2 s3 H12 _ IH]; [done|].
  intros H1. by apply IH, (sys_step_ok s1).
Qed.

(** C5. With edit authority on (the setting file_edit_authority_enabled; with
    it off [file_patch] and [file_write] check no reads), no edit is blind:
    whatever calls of however many sessions, subagents and processes run at
    once, whatever other programs do to the files meanwhile, and whichever
    calls fail or are dropped between two of their steps, a file tool changes
    an existing file only by replacing bytes that its caller was shown, or
    wrote itself, in the text that the change was made to; an insertion is next to
    such a byte; what is written is that text with this change; and the file
    is not one of the protected files of the agent's memory.  Two texts are
    told apart by their SHA-256 digests, which are taken to differ. *)
Theorem no_blind_edit s newer call process scope path before change content replaced older :
  st_file_edit_authority_enabled cfg = true → reachable sha256_hex normalize_media cfg s →
  w_log (sy_world s) = newer ++ Changed call process scope path (Some before) change content replaced :: older →
  is_protected_memory_path path = false ∧ content = spliced before change ∧
  ∃ sc, scope = Some sc ∧ presupposed before change (knows older process sc path before).
Proof.
  intros Hon Hs Hlog. destruct (reachable_ok s Hon Hs) as [[Hall _] _]. rewrite Hlog in Hall. by apply all_informed_at in Hall.
Qed.

(** What the stores hold is true: of a file whose text a caller has the
    authority for, each line in the authority's ranges was shown to this very
    caller or written by it, byte by byte, and an authority for the whole file
    means that all of it was. *)
Theorem authority_was_shown s process scope path text a s' p :
  st_file_edit_authority_enabled cfg = true → reachable sha256_hex normalize_media cfg s →
  evaluate scope path (revision text) (reads process (sy_world s)) = (Fresh a, s') →
  p < length text → ra_complete a = true ∨ known_at text (ra_ranges a) p →
  knows (w_log (sy_world s)) process scope path text p.
Proof.
  intros Hon Hs He Hp Hk. destruct (reachable_ok s Hon Hs) as [[_ Hall] _]. unfold evaluate in He.
  destruct (in_map _ !! (scope, path)) as [st|] eqn:Hst; [|done]. case_bool_decide as Hrev; [|done]. injection He as <- _.
  destruct (in_map_P _ _ (Hall process) _ _ Hst) as (Hok & text' & Heq & Hcl). assert (text' = text) as -> by (apply Hinj; congruence).
  by apply Hcl.
Qed.
End steps.
