(* ===== verification/FileLocks.v ===== *)
(** * No edit is lost (on FileTools.v)

    Calls that take the write lock of a file exclude each other between the
    last look at the file and the rename, whatever processes they run in: an
    edit replaces exactly the text that it was decided on, and a new file
    replaces nothing, as long as only such calls change files (no command of a
    shell, no other program).  The key of a
    lock is the place where a path leads, now or when it has been made
    ([lock_key_sound]): the first sections say what paths resolve to in a tree
    of files that only grows.  At the end are schedules that are run. *)

From S2P Require Import Prelude Text Claim Utf8 ReadState FileText FileTools FileToolsProofs.
Import Ids.

(** ** Resolution of paths, as a relation *)

Inductive resolves (fs : Files) : nat → list string → Path → list string → Prop :=
| resolves_nil k dir : resolves fs k dir [] dir
| resolves_root k dir todo names : resolves fs k [] todo names → resolves fs k dir (RootDir :: todo) names
| resolves_cur k dir todo names : resolves fs k dir todo names → resolves fs k dir (CurDir :: todo) names
| resolves_parent k dir todo names : resolves fs k (removelast dir) todo names → resolves fs k dir (ParentDir :: todo) names
| resolves_directory k dir name todo names :
    fs !! (dir ++ [name]) = Some Directory → resolves fs k (dir ++ [name]) todo names → resolves fs k dir (Normal name :: todo) names
| resolves_file k dir name content mode : fs !! (dir ++ [name]) = Some (File content mode) → resolves fs k dir [Normal name] (dir ++ [name])
| resolves_link k dir name target todo names :
    fs !! (dir ++ [name]) = Some (Symlink target) → resolves fs k dir (target ++ todo) names → resolves fs (S k) dir (Normal name :: todo) names.

#[local] Hint Constructors resolves : acn.

Lemma walk_resolves fs k dir todo names : walk k fs dir todo = Ok names ↔ resolves fs k dir todo names.
Proof.
  split.
  - revert dir todo. induction k as [|k IHk]; intros dir todo; revert dir; induction todo as [|c todo IH]; intros dir H; simpl in H.
    1, 3: injection H as <-; constructor.
    all: destruct c as [| | |name]; try (by constructor; apply IH).
    all: destruct (fs !! (dir ++ [name])) as [[content mode| |target]|] eqn:E; try done.
    all: try (destruct todo; [injection H as <-; by eapply resolves_file|done]).
    all: try (eapply resolves_directory; [done|by apply IH]).
    eapply resolves_link; [done|by apply IHk].
  - induction 1 as [k dir|k dir todo names _ IH|k dir todo names _ IH|k dir todo names _ IH|k dir name todo names E _ IH|k dir name content mode E|
      k dir name target todo names E _ IH]; try (destruct k; simpl; rewrite ?E; done).
Qed.

Lemma resolves_budget fs k k' dir todo names : k ≤ k' → resolves fs k dir todo names → resolves fs k' dir todo names.
Proof.
  intros Hk H. revert k' Hk. induction H; intros k' Hk; eauto with acn.
  destruct k' as [|k']; [lia|]. eapply resolves_link; [done|]. apply IHresolves. lia.
Qed.

Lemma resolves_det fs k1 k2 dir todo names1 names2 : resolves fs k1 dir todo names1 → resolves fs k2 dir todo names2 → names1 = names2.
Proof.
  intros H1%(resolves_budget _ _ (Nat.max k1 k2)) H2%(resolves_budget _ _ (Nat.max k1 k2)); [|lia..].
  apply walk_resolves in H1, H2. congruence.
Qed.

(** ** Trees of files *)

(** All directories on the way. *)
Definition on_the_way (fs : Files) (names : list string) : Prop :=
  ∀ up rest, names = up ++ rest → up ≠ [] → rest ≠ [] → fs !! up = Some Directory.

Definition directory (fs : Files) (names : list string) : Prop := names = [] ∨ fs !! names = Some Directory.

(** Every node is in a directory. *)
Definition tree (fs : Files) : Prop := ∀ up name node, fs !! (up ++ [name]) = Some node → directory fs up.

(** No symbolic link dangles. *)
Definition links_lead (fs : Files) : Prop := ∀ names target, fs !! names = Some (Symlink target) → ∃ to, follow fs (absolute names) = Ok to.

(** Nodes keep their kinds, and links their targets. *)
Definition grows (fs fs' : Files) : Prop := ∀ names node, fs !! names = Some node →
  match node with File _ _ => ∃ content mode, fs' !! names = Some (File content mode) | _ => fs' !! names = Some node end.

Definition no_new_links (fs fs' : Files) : Prop := ∀ names target, fs' !! names = Some (Symlink target) → fs !! names = Some (Symlink target).

#[export] Instance grows_preorder : PreOrder grows.
Proof.
  split; [by intros fs names [] H; eauto|]. intros f1 f2 f3 H12 H23 names node H. specialize (H12 names node H).
  destruct node; [destruct H12 as (c & m & H12)| |]; exact (H23 _ _ H12).
Qed.

#[export] Instance no_new_links_preorder : PreOrder no_new_links.
Proof. split; [by intros fs names target|]. intros f1 f2 f3 H12 H23 names target H. by apply H12, H23. Qed.

Lemma grows_directory fs fs' names : grows fs fs' → directory fs names → directory fs' names.
Proof. intros Hg [->|H]; [by left|right]. exact (Hg _ _ H). Qed.

Lemma grows_on_the_way fs fs' names : grows fs fs' → on_the_way fs names → on_the_way fs' names.
Proof. intros Hg H up rest Heq Hup Hrest. exact (Hg _ _ (H up rest Heq Hup Hrest)). Qed.

Lemma tree_on_the_way fs names : tree fs → is_Some (fs !! names) → on_the_way fs names.
Proof.
  intros Ht. induction names as [|name names IH] using rev_ind; intros [node Hn] up rest Heq Hup Hrest; [by destruct up|].
  destruct rest as [|x rest _] using rev_ind; [done|]. rewrite app_assoc in Heq. apply app_inj_tail in Heq as [-> ->].
  destruct (Ht _ _ _ Hn) as [Hnil|Hd]; [by destruct up|]. destruct rest as [|y rest]; [by rewrite app_nil_r in Hd|].
  eapply IH; [by eexists|done|done|done].
Qed.

Lemma directory_on_the_way fs names : tree fs → directory fs names → on_the_way fs names.
Proof. intros Ht [->|H]; [|by apply tree_on_the_way; [|eexists]]. intros up rest Heq Hup _. by destruct up. Qed.

Lemma directory_up fs names : tree fs → directory fs names → directory fs (removelast names).
Proof.
  intros Ht [->|H]; [by left|]. destruct names as [|name names _] using rev_ind; [by left|]. rewrite removelast_last. by eapply Ht.
Qed.

(** What a path resolves to is there. *)
Lemma resolves_there fs k dir todo names : tree fs → directory fs dir → resolves fs k dir todo names →
  directory fs names ∨ ∃ content mode, fs !! names = Some (File content mode).
Proof.
  intros Ht Hd H. induction H; eauto.
  - apply IHresolves. by left.
  - by apply IHresolves, directory_up.
  - apply IHresolves. by right.
Qed.

Lemma resolves_on_the_way fs k dir todo names : tree fs → directory fs dir → resolves fs k dir todo names → on_the_way fs names.
Proof.
  intros Ht Hd H. destruct (resolves_there _ _ _ _ _ Ht Hd H) as [?|(c & m & ?)]; [by apply directory_on_the_way|].
  by apply tree_on_the_way; [|eexists].
Qed.

Lemma resolves_grows fs fs' k dir todo names : grows fs fs' → resolves fs k dir todo names → resolves fs' k dir todo names.
Proof.
  intros Hg H. induction H as [| | | |k dir name todo names E _ IH|k dir name content mode E|k dir name target todo names E _ IH]; eauto with acn.
  - eapply resolves_directory; [exact (Hg _ _ E)|done].
  - destruct (Hg _ _ E) as (c & m & E'). by eapply resolves_file.
  - eapply resolves_link; [exact (Hg _ _ E)|done].
Qed.

(** The parts of a path one after the other. *)
Lemma resolves_split fs k dir p q names : tree fs → directory fs dir → resolves fs k dir (p ++ q) names →
  ∃ mid k', k' ≤ k ∧ resolves fs k dir p mid ∧ resolves fs k' mid q names ∧ (q ≠ [] → directory fs mid).
Proof.
  intros Ht Hd H. remember (p ++ q) as todo eqn:Heq. revert p Heq.
  induction H as [k dir|k dir todo names H IH|k dir todo names H IH|k dir todo names H IH|k dir name todo names E H IH|k dir name content mode E|
    k dir name target todo names E H IH]; intros p Heq;
    (destruct p as [|c p]; [simpl in Heq; subst q; eexists dir, _; split; [reflexivity|]; eauto with acn|]); simplify_eq/=.
  - destruct (IH ltac:(by left) p eq_refl) as (mid & k' & ? & ? & ? & ?). eauto 8 with acn.
  - destruct (IH Hd p eq_refl) as (mid & k' & ? & ? & ? & ?). eauto 8 with acn.
  - destruct (IH ltac:(by apply directory_up) p eq_refl) as (mid & k' & ? & ? & ? & ?). eauto 8 with acn.
  - destruct (IH ltac:(by right) p eq_refl) as (mid & k' & ? & ? & ? & ?). eauto 8 with acn.
  - match goal with H : [] = p ++ q |- _ => symmetry in H; apply app_nil in H as [-> ->] end. exists (dir ++ [name]), k. split; [reflexivity|]. split; [by eapply resolves_file|]. split; [constructor|done].
  - destruct (IH Hd (target ++ p)) as (mid & k' & ? & ? & ? & ?); [by rewrite app_assoc|]. eexists mid, k'. split; [lia|]. eauto with acn.
Qed.

Lemma resolves_snoc fs k dir p mid name node : resolves fs k dir p mid → directory fs mid →
  fs !! (mid ++ [name]) = Some node → (∀ target, node ≠ Symlink target) → resolves fs k dir (p ++ [Normal name]) (mid ++ [name]).
Proof.
  intros H Hd Hn Hl. induction H as [k dir| | | | |k dir name' content mode E|k dir name' target todo names E _ IH]; simpl; eauto with acn.
  - destruct node as [content mode| |target]; [by eapply resolves_file|eapply resolves_directory; [done|constructor]|by destruct (Hl target)].
  - destruct Hd as [Hd|Hd]; [by destruct dir|congruence].
  - eapply resolves_link; [exact E|]. rewrite app_assoc. by apply IH.
Qed.

Lemma resolves_then fs k dir p mid q names : resolves fs k dir p mid → directory fs mid → resolves fs 0 mid q names →
  resolves fs k dir (p ++ q) names.
Proof.
  intros H Hd Hq. induction H as [k dir| | | | |k dir name' content mode E|k dir name' target todo to E _ IH]; simpl; eauto with acn.
  - eapply resolves_budget; [|done]. lia.
  - destruct Hd as [Hd|Hd]; [by destruct dir|congruence].
  - eapply resolves_link; [exact E|]. rewrite app_assoc. by apply IH.
Qed.

Lemma resolves_directories fs k names : ∀ dir rest to, on_the_way fs (dir ++ names) → (names ≠ [] → fs !! (dir ++ names) = Some Directory) →
  resolves fs k (dir ++ names) rest to → resolves fs k dir ((Normal <$> names) ++ rest) to.
Proof.
  induction names as [|name names IH]; intros dir rest to Hw Hd H; [by rewrite app_nil_r in H|]. simpl.
  eapply resolves_directory.
  - destruct names as [|x names]; [by apply Hd|]. apply (Hw (dir ++ [name]) (x :: names)); [by rewrite <-app_assoc|by destruct dir|done].
  - apply IH; rewrite <-app_assoc; [done|by intros _; apply Hd|done].
Qed.

(** Through directories a path leads where it says. *)
Lemma follow_directory fs names rest to : tree fs → directory fs names →
  follow fs (absolute names ++ rest) = Ok to ↔ resolves fs MAX_LINKS names rest to.
Proof.
  intros Ht Hd. assert (Hup : ∀ to, resolves fs MAX_LINKS names rest to → resolves fs MAX_LINKS [] (absolute names ++ rest) to).
  { intros to' H. apply resolves_root. apply (resolves_directories fs MAX_LINKS names []); simpl; [by apply directory_on_the_way|by destruct Hd|done]. }
  unfold follow. rewrite walk_resolves. split; [|apply Hup]. intros H.
  assert (Hself : resolves fs MAX_LINKS [] (absolute names) names).
  { apply resolves_root. rewrite <-(app_nil_r (Normal <$> names)). apply (resolves_directories fs MAX_LINKS names []); simpl;
      [by apply directory_on_the_way|by destruct Hd|constructor]. }
  apply resolves_split in H as (mid & k' & Hk & H1 & H2 & _); [|done|by left].
  rewrite (resolves_det _ _ _ _ _ _ _ H1 Hself) in H2. by eapply resolves_budget.
Qed.

(** ** The key of a lock is where the file will be *)

Definition rooted (p : Path) : Prop := ∃ rest, p = RootDir :: rest ∧ RootDir ∉ rest.

Lemma absolute_snoc names name : absolute (names ++ [name]) = absolute names ++ [Normal name].
Proof. unfold absolute. by rewrite fmap_app. Qed.

Lemma pop_absolute names : pop (absolute names) = absolute (removelast names).
Proof.
  destruct names as [|name names _] using rev_ind; [done|]. unfold pop, parent.
  by rewrite absolute_snoc, last_snoc, !removelast_last.
Qed.

Lemma push_absolute names name : push (absolute names) (Normal name) = absolute (names ++ [name]).
Proof. by rewrite absolute_snoc. Qed.

Section lock_key.
Context (fs fs' : Files) (Ht : tree fs) (Hlinks : links_lead fs) (Ht' : tree fs') (Hg : grows fs fs') (Hnew : no_new_links fs fs').

(** A path that resolves later was found already, or its next name was not
    there. *)
Lemma next_name names name k rest to : directory fs names → k ≤ MAX_LINKS → resolves fs' k names (Normal name :: rest) to →
  match canonicalize fs (absolute (names ++ [name])) with
  | Ok p => ∃ mid k', p = absolute mid ∧ k' ≤ k ∧ resolves fs' k' mid rest to ∧ (rest ≠ [] → directory fs mid)
  | Err _ => fs !! (names ++ [name]) = None ∧ resolves fs' k (names ++ [name]) rest to
  end.
Proof.
  intros Hd Hk H. unfold canonicalize. rewrite absolute_snoc.
  destruct (follow fs (absolute names ++ [Normal name])) as [mid|e] eqn:E; simpl.
  - apply follow_directory in E; [|done..].
    apply (resolves_split _ _ _ [Normal name] rest) in H as (mid' & k' & Hk' & H1 & H2 & H3); [|done|by eapply grows_directory].
    assert (mid' = mid) as -> by (eapply resolves_det; [exact H1|by eapply resolves_grows]).
    exists mid, k'. split; [done|]. split; [done|]. split; [done|]. intros Hr.
    destruct (resolves_there _ _ _ _ _ Ht Hd E) as [?|(c & m & Hf)]; [done|]. destruct (Hg _ _ Hf) as (c' & m' & Hf').
    destruct (H3 Hr) as [->|Hd']; [by left|congruence].
  - assert (Hnone : fs !! (names ++ [name]) = None).
    { assert (Hno : ∀ to, ¬ resolves fs MAX_LINKS names [Normal name] to) by (intros to' Hto; apply follow_directory in Hto; [congruence|done..]).
      destruct (fs !! (names ++ [name])) as [[c m| |target]|] eqn:Hn; [..|done].
      - destruct (Hno (names ++ [name])). by eapply resolves_file.
      - destruct (Hno (names ++ [name])). eapply resolves_directory; [done|constructor].
      - destruct (Hlinks _ _ Hn) as [to' Hto]. rewrite absolute_snoc in Hto. by apply follow_directory, Hno in Hto. }
    split; [done|]. inversion H as [| | | |k0 d0 n0 t0 to0 E1 H1|k0 d0 n0 c0 m0 E1|k0 d0 n0 t0 r0 to0 E1 H1]; subst; [done|constructor|].
    apply Hnew in E1. congruence.
Qed.

Lemma below_nothing names more : names ≠ [] → fs !! names = None → more ≠ [] → fs !! (names ++ more) = None.
Proof.
  intros Hne Hnone Hmore. destruct (fs !! (names ++ more)) as [node|] eqn:E; [|done].
  pose proof (tree_on_the_way fs (names ++ more) Ht ltac:(by eexists) names more eq_refl Hne Hmore). congruence.
Qed.

Lemma lock_key_loop_sound todo : RootDir ∉ todo →
  (∀ names k to, directory fs names → k ≤ MAX_LINKS → resolves fs' k names todo to →
    lock_key_loop fs (absolute names) [] todo = absolute to) ∧
  (∀ names part parts k to, directory fs names → fs !! (names ++ [part]) = None → k ≤ MAX_LINKS →
    resolves fs' k (names ++ part :: parts) todo to → lock_key_loop fs (absolute names) (part :: parts) todo = absolute to).
Proof.
  induction todo as [|c todo IH]; intros Hroot.
  - split; intros; match goal with H : resolves _ _ _ [] _ |- _ => inversion H; subst end; simpl; [by rewrite app_nil_r|].
    unfold absolute. by rewrite fmap_app.
  - apply not_elem_of_cons in Hroot as [Hc Hroot]. destruct (IH Hroot) as [IH1 IH2]. split.
    + intros names k to Hd Hk H. destruct c as [| | |name]; [done| | |].
      * inversion H; subst. simpl. by eapply IH1.
      * inversion H; subst. simpl. rewrite pop_absolute. by eapply IH1; [apply directory_up| |].
      * pose proof (next_name names name k todo to Hd Hk H) as Hn. cbn [lock_key_loop]. rewrite push_absolute.
        destruct (canonicalize fs (absolute (names ++ [name]))) as [p|e].
        -- destruct Hn as (mid & k' & -> & Hk' & Hr & Hm). destruct todo as [|c todo]; [|by eapply (IH1 mid k'); [apply Hm|etrans|]].
           inversion Hr; subst. simpl. by rewrite app_nil_r.
        -- destruct Hn as [Hnone Hr]. by eapply (IH2 names name []).
    + intros names part parts k to Hd Hnone Hk H. destruct c as [| | |name]; [done| | |].
      * inversion H; subst. simpl. by eapply IH2.
      * assert (H1 : resolves fs' k (removelast (names ++ part :: parts)) todo to) by (by inversion H). cbn [lock_key_loop].
        destruct parts as [|x parts _] using rev_ind; [rewrite removelast_last in H1; by eapply IH1|].
        rewrite !app_comm_cons, app_assoc, removelast_last in *. by eapply IH2.
      * cbn [lock_key_loop app]. eapply (IH2 names part (parts ++ [name]) k); [done|done|done|].
        replace (names ++ part :: parts ++ [name]) with ((names ++ part :: parts) ++ [name]) by (by rewrite <-app_assoc).
        inversion H as [| | | |k0 d0 n0 t0 to0 E1 H1|k0 d0 n0 c0 m0 E1|k0 d0 n0 t0 r0 to0 E1 H1]; subst; [done|constructor|].
        apply Hnew in E1. replace ((names ++ part :: parts) ++ [name]) with ((names ++ [part]) ++ parts ++ [name]) in E1 by (by rewrite <-!app_assoc).
        rewrite below_nothing in E1; [done|by destruct names|done|by destruct parts].
Qed.

(** The key taken for a path names the place that it resolves to, now or when
    it has been made. *)
Lemma lock_key_sound p to : rooted p → follow fs' p = Ok to → tool_path_lock_key fs p = absolute to.
Proof.
  intros (rest & -> & Hrest) H. apply walk_resolves in H. unfold tool_path_lock_key, canonicalize.
  destruct (follow fs (RootDir :: rest)) as [names|e] eqn:E; simpl.
  - apply walk_resolves in E. f_equal. eapply resolves_det; [by eapply resolves_grows|exact H].
  - inversion H; subst. change ([RootDir]) with (absolute []). eapply (lock_key_loop_sound rest Hrest); [by left|reflexivity|done].
Qed.
End lock_key.

(** ** Where the operations on files act *)

Lemma node_at_directory fs names : node_at fs names = Some Directory ↔ directory fs names.
Proof. destruct names; simpl; unfold directory; naive_solver. Qed.

Lemma node_at_below fs names name : node_at fs (names ++ [name]) = fs !! (names ++ [name]).
Proof. by destruct names. Qed.

Lemma location_snoc fs up name names : location fs (up ++ [Normal name]) = Ok names ↔
  ∃ dir, follow fs up = Ok dir ∧ directory fs dir ∧ names = dir ++ [name].
Proof.
  unfold location. rewrite last_snoc, removelast_last. destruct (follow fs up) as [dir|e]; simpl; [|naive_solver].
  pose proof (node_at_directory fs dir) as Hd. split.
  - intros H. exists dir. split; [done|]. destruct (node_at fs dir) as [[]|]; try done. split; [by apply Hd|congruence].
  - intros (? & [= <-] & ->%Hd & ->). done.
Qed.

Lemma follow_self fs names : tree fs → directory fs names → follow fs (absolute names) = Ok names.
Proof. intros Ht Hd. rewrite <-(app_nil_r (absolute names)). apply follow_directory; [done|done|constructor]. Qed.

Lemma on_the_way_directory fs dir name : on_the_way fs (dir ++ [name]) → directory fs dir.
Proof. intros H. destruct dir as [|x dir]; [by left|right]. by eapply (H (x :: dir) [name]). Qed.

Lemma directory_below fs dir name : tree fs → directory fs dir → on_the_way fs (dir ++ [name]).
Proof.
  intros Ht Hd up rest Heq Hup Hrest. destruct rest as [|x rest _] using rev_ind; [done|]. rewrite app_assoc in Heq. apply app_inj_tail in Heq as [-> ->].
  destruct rest as [|y rest]; [rewrite app_nil_r in *; by destruct Hd|]. by eapply directory_on_the_way.
Qed.

Lemma location_is fs names : tree fs → on_the_way fs names → location fs (absolute names) = Ok names.
Proof.
  intros Ht Hw. destruct names as [|name dir _] using rev_ind; [done|]. rewrite absolute_snoc. apply location_snoc.
  apply on_the_way_directory in Hw. exists dir. split; [by apply follow_self|done].
Qed.

Lemma location_on_the_way fs p names : tree fs → location fs p = Ok names → on_the_way fs names.
Proof.
  intros Ht H.
  assert (Hfollow : follow fs p = Ok names → on_the_way fs names).
  { intros Hf%walk_resolves. eapply resolves_on_the_way; [done| |exact Hf]. by left. }
  destruct p as [|c p _] using rev_ind; [by apply Hfollow|]. destruct c as [| | |name]; [..|apply location_snoc in H as (dir & _ & Hd & ->); by apply directory_below].
  all: apply Hfollow; unfold location in H; by rewrite last_snoc in H.
Qed.

Lemma read_bytes_is fs names content : tree fs → on_the_way fs names → (∀ target, fs !! names ≠ Some (Symlink target)) →
  read_bytes fs (absolute names) = Ok content → ∃ mode, fs !! names = Some (File content mode).
Proof.
  intros Ht Hw Hs H. unfold read_bytes, metadata in H. destruct names as [|name dir _] using rev_ind; [done|].
  apply on_the_way_directory in Hw. rewrite absolute_snoc in H.
  destruct (follow fs (absolute dir ++ [Normal name])) as [to|e] eqn:E; [|done]. apply follow_directory in E; [|done..]. simpl in H.
  inversion E as [| | | |k0 d0 n0 t0 to0 E1 H1|k0 d0 n0 c0 m0 E1|k0 d0 n0 t0 r0 to0 E1 H1]; subst; [|
    rewrite node_at_below, E1 in H; simpl in H; injection H as <-; by exists m0|by destruct (Hs t0)].
  inversion H1; subst. by rewrite node_at_below, E1 in H.
Qed.

(** ** What changes of the files do *)

Lemma files_insert (fs : Files) names node : <[names := node]> fs !! names = Some node.
Proof. apply (lookup_insert_eq (M := gmap (list string))). Qed.

Lemma files_insert_ne (fs : Files) names names' node : names' ≠ names → <[names := node]> fs !! names' = fs !! names'.
Proof. intros Hne. by apply (lookup_insert_ne (M := gmap (list string))). Qed.

(** A file or a directory is made, or a file replaced. *)
Lemma put_grows fs names node : match fs !! names with None => True | Some (File _ _) => ∃ content mode, node = File content mode | _ => False end →
  (∀ target, node ≠ Symlink target) → grows fs (<[names := node]> fs) ∧ no_new_links fs (<[names := node]> fs).
Proof.
  intros Hold Hnode. split; intros names'.
  - intros node' Hn. destruct (decide (names' = names)) as [->|Hne]; [|rewrite files_insert_ne by done; destruct node'; eauto].
    rewrite Hn in Hold. destruct node' as [c m| |]; [|done..]. destruct Hold as (c' & m' & ->). rewrite files_insert. eauto.
  - intros target Hn. destruct (decide (names' = names)) as [->|Hne]; [|by rewrite files_insert_ne in Hn].
    rewrite files_insert in Hn. injection Hn as ->. by destruct (Hnode target).
Qed.

Lemma put_tree fs names node : tree fs → on_the_way fs names → fs !! names ≠ Some Directory → tree (<[names := node]> fs).
Proof.
  intros Ht Hw Hnd up name node' Hn. assert (Hup : directory fs up).
  { destruct (decide (up ++ [name] = names)) as [<-|Hne]; [by eapply on_the_way_directory|]. rewrite files_insert_ne in Hn by done. by eapply Ht. }
  destruct Hup as [->|Hup]; [by left|right]. destruct (decide (up = names)) as [->|Hne]; [done|]. by rewrite files_insert_ne.
Qed.

(** Trees in which no link dangles stay such. *)
Definition sound (fs : Files) : Prop := tree fs ∧ links_lead fs.

Lemma links_lead_grows fs fs' : grows fs fs' → no_new_links fs fs' → links_lead fs → links_lead fs'.
Proof.
  intros Hg Hn Hl names target H%Hn. destruct (Hl _ _ H) as [to Hto]. exists to.
  apply walk_resolves. apply walk_resolves in Hto. by eapply resolves_grows.
Qed.

Definition adds_directories (fs fs' : Files) : Prop :=
  ∀ names, fs' !! names = fs !! names ∨ fs !! names = None ∧ fs' !! names = Some Directory.

#[export] Instance adds_directories_preorder : PreOrder adds_directories.
Proof.
  split; [by left|]. intros f1 f2 f3 H1 H2 names. destruct (H2 names) as [H|[H H']], (H1 names) as [E|[E E']]; rewrite ?H in *; auto.
Qed.

Lemma adds_grows fs fs' : adds_directories fs fs' → grows fs fs' ∧ no_new_links fs fs'.
Proof.
  intros Ha. split; intros names.
  - intros node Hn. destruct (Ha names) as [E|[E _]]; [|congruence]. rewrite E. destruct node; eauto.
  - intros target Hn. destruct (Ha names) as [E|[_ E]]; congruence.
Qed.

Lemma mkdir_is fs p fs' : mkdir fs p = Ok fs' → ∃ names, location fs p = Ok names ∧ fs !! names = None ∧ names ≠ [] ∧ fs' = <[names := Directory]> fs.
Proof.
  unfold mkdir. intros (names & Hl & H)%result_bind_ok. destruct (node_at fs names) eqn:Hn; [done|]. injection H as <-.
  exists names. by destruct names.
Qed.

Lemma mkdir_adds fs p fs' : mkdir fs p = Ok fs' → adds_directories fs fs' ∧ (tree fs → tree fs').
Proof.
  intros (names & Hl & Hn & _ & ->)%mkdir_is. split.
  - intros names'. destruct (decide (names' = names)) as [->|Hne]; [right; by rewrite files_insert|left; by rewrite files_insert_ne].
  - intros Ht. apply put_tree; [done|by eapply location_on_the_way|congruence].
Qed.

Lemma create_dirs_adds depth : ∀ fs p fs', create_dirs depth fs p = Ok fs' → adds_directories fs fs' ∧ (tree fs → tree fs').
Proof.
  assert (Htrans : ∀ f1 f2 f3, adds_directories f1 f2 ∧ (tree f1 → tree f2) → adds_directories f2 f3 ∧ (tree f2 → tree f3) →
    adds_directories f1 f3 ∧ (tree f1 → tree f3)) by (intros f1 f2 f3 [] []; split; [by etrans|auto]).
  induction depth as [|depth IH]; intros fs p fs' H; simpl in H; [by injection H as <-|].
  destruct (mkdir fs p) as [fs1|[|]] eqn:Hm; [injection H as <-; by eapply mkdir_adds| |].
  - destruct (parent p) as [up|]; [|done]. apply result_bind_ok in H as (fs1 & H1 & H). apply IH in H1. eapply Htrans; [exact H1|].
    destruct (mkdir fs1 p) as [fs2|] eqn:Hm2; [injection H as <-; by eapply mkdir_adds|]. destruct (is_dir fs1 p); [|done]. by injection H as <-.
  - destruct (is_dir fs p); [|done]. by injection H as <-.
Qed.

Lemma is_dir_follow fs p : is_dir fs p = true ↔ ∃ names, follow fs p = Ok names ∧ directory fs names.
Proof.
  unfold is_dir, metadata. destruct (follow fs p) as [names|e]; simpl; [|naive_solver]. pose proof (node_at_directory fs names) as Hd.
  split; [|intros (? & [= <-] & ->%Hd); done]. intros H. exists names. split; [done|]. apply Hd. by destruct (node_at fs names) as [[]|].
Qed.

Lemma mkdir_is_dir fs p fs' : tree fs → mkdir fs p = Ok fs' → is_dir fs' p = true.
Proof.
  intros Ht H. pose proof (mkdir_adds _ _ _ H) as [[Hg _]%adds_grows _]. apply mkdir_is in H as (names & Hl & Hn & Hne & ->).
  assert (Hfollow : follow fs p ≠ Ok names).
  { intros Hf%walk_resolves. apply resolves_there in Hf as [[?|?]|(c & m & ?)]; [done|congruence|congruence|done|by left]. }
  apply is_dir_follow. exists names. split; [|right; apply files_insert].
  destruct p as [|c p _] using rev_ind; [done|]. destruct c as [| | |name]; [exfalso; apply Hfollow; unfold location in Hl; rewrite last_snoc in Hl; exact Hl..|].
  apply location_snoc in Hl as (dir & Hf & Hd & ->). apply walk_resolves in Hf. apply walk_resolves.
  eapply resolves_snoc; [by eapply resolves_grows|by eapply grows_directory|apply files_insert|done].
Qed.

Lemma create_dirs_is_dir depth : ∀ fs p fs', tree fs → length p ≤ depth → create_dirs depth fs p = Ok fs' → is_dir fs' p = true.
Proof.
  induction depth as [|depth IH]; intros fs p fs' Ht Hlen H; simpl in H; [by destruct p; [injection H as <-|simpl in Hlen; lia]|].
  destruct (mkdir fs p) as [fs1|[|]] eqn:Hm; [injection H as <-; by eapply mkdir_is_dir| |].
  - destruct (parent p) as [up|]; [|done]. apply result_bind_ok in H as (fs1 & H1 & H). apply create_dirs_adds in H1 as [_ Ht1].
    destruct (mkdir fs1 p) as [fs2|] eqn:Hm2; [injection H as <-; eapply mkdir_is_dir; [by apply Ht1|done]|].
    destruct (is_dir fs1 p) eqn:Hd; [|done]. by injection H as <-.
  - destruct (is_dir fs p) eqn:Hd; [|done]. by injection H as <-.
Qed.

Lemma rename_is fs p content mode replaced fs' : rename_to fs p content mode = Ok (replaced, fs') →
  ∃ names, location fs p = Ok names ∧ replaced = fs !! names ∧ fs !! names ≠ Some Directory ∧ fs' = <[names := File content mode]> fs.
Proof.
  unfold rename_to. intros (names & Hl & H)%result_bind_ok. exists names. split; [done|].
  assert (Hn : node_at fs names ≠ Some Directory) by (intros E; by rewrite E in H).
  assert (Hat : node_at fs names = fs !! names) by (by destruct names). rewrite Hat in *.
  destruct (fs !! names) as [[]|]; try done; injection H as <- <-; done.
Qed.

(** A file that is not there, in a directory that is. *)
Lemma absent_file fs p : rooted p → tree fs → (∀ up, parent p = Some up → is_dir fs up = true) → symlink_metadata fs p = Err IoNotFound →
  ∃ up dir name, p = up ++ [Normal name] ∧ follow fs up = Ok dir ∧ directory fs dir ∧ fs !! (dir ++ [name]) = None.
Proof.
  intros (rest & -> & Hrest) Ht Hup H. destruct rest as [|c rest _] using rev_ind; [done|].
  apply not_elem_of_app in Hrest as [_ Hc]. assert (RootDir ≠ c) by set_solver.
  rewrite app_comm_cons in *. assert (Hp : parent ((RootDir :: rest) ++ [c]) = Some (RootDir :: rest)).
  { unfold parent. rewrite last_snoc, removelast_last. by destruct c. }
  apply Hup, is_dir_follow in Hp as (dir & Hf & Hd). unfold symlink_metadata in H.
  assert (Hother : follow fs ((RootDir :: rest) ++ [c]) = location fs ((RootDir :: rest) ++ [c]) →
    (∃ to, follow fs ((RootDir :: rest) ++ [c]) = Ok to ∧ directory fs to) → False).
  { intros Hl (to & Hto & Hdir). rewrite <-Hl, Hto in H. simpl in H. apply node_at_directory in Hdir. by rewrite Hdir in H. }
  apply walk_resolves in Hf. assert (Happ : ∀ to, resolves fs 0 dir [c] to → follow fs ((RootDir :: rest) ++ [c]) = Ok to).
  { intros to Hto. apply walk_resolves. by eapply resolves_then. }
  destruct c as [| | |name]; [done| | |].
  - destruct Hother; [unfold location; by rewrite last_snoc|]. exists dir. split; [|done]. apply Happ. repeat constructor.
  - destruct Hother; [unfold location; by rewrite last_snoc|]. exists (removelast dir). split; [|by apply directory_up]. apply Happ. repeat constructor.
  - exists (RootDir :: rest), dir, name. split; [done|]. split; [by apply walk_resolves|]. split; [done|].
    rewrite (proj2 (location_snoc fs (RootDir :: rest) name (dir ++ [name]))) in H; [|exists dir; split; [by apply walk_resolves|done]].
    simpl in H. rewrite node_at_below in H. by destruct (fs !! (dir ++ [name])).
Qed.

(** ** The logic of the lock holders *)

(** A change replaced what its call had found last: this text, or nothing. *)
Definition exclusive (e : Event) (older : list Event) : Prop :=
  match e with
  | Changed call _ _ path (Some before) _ _ replaced =>
      (∃ mid oldest, older = mid ++ Confirmed call path (Some before) :: oldest) ∧ ∃ mode, replaced = Some (File before mode)
  | Changed _ _ _ _ None _ _ replaced => replaced = None
  | _ => True
  end.

Fixpoint all_exclusive (log : list Event) : Prop :=
  match log with [] => True | e :: older => exclusive e older ∧ all_exclusive older end.

Lemma all_exclusive_at newer e older : all_exclusive (newer ++ e :: older) → exclusive e older.
Proof. induction newer as [|x newer IH]; simpl; intros []; auto. Qed.

Record keeps (me : nat) (w w' : World) : Prop := {
  kp_log : rely w w';
  kp_grows : grows (w_files w) (w_files w');
  kp_links : no_new_links (w_files w) (w_files w');
  kp_locks key : w_write_locks w !! key = Some me → w_write_locks w' !! key = Some me;
}.

(** A file is left as it is, or its absence. *)
Definition untouched (fs fs' : Files) (names : list string) : Prop :=
  match fs !! names with
  | Some (File content mode) => fs' !! names = Some (File content mode)
  | None => fs' !! names = None ∨ fs' !! names = Some Directory
  | _ => True
  end.

(** The others leave alone the files whose lock [me] holds. *)
Definition others_keep (me : nat) (w w' : World) : Prop :=
  keeps me w w' ∧ ∀ names, w_write_locks w !! absolute names = Some me → untouched (w_files w) (w_files w') names.

Definition step_keeps (me : nat) (w w' : World) : Prop := keeps me w w' ∧ ∀ other, other ≠ me → others_keep other w w'.

#[export] Instance keeps_preorder me : PreOrder (keeps me).
Proof.
  split; [intros w; split; auto; reflexivity|]. intros w1 w2 w3 [] []. split; auto; by etrans.
Qed.

Lemma untouched_trans f1 f2 f3 names : grows f2 f3 → untouched f1 f2 names → untouched f2 f3 names → untouched f1 f3 names.
Proof.
  unfold untouched. intros Hg H1 H2. destruct (f1 !! names) as [[c m| |]|]; [by rewrite H1 in H2|done|done|].
  destruct H1 as [H1|H1]; rewrite H1 in H2; [done|]. right. exact (Hg _ _ H1).
Qed.

Lemma others_keep_trans me w1 w2 w3 : others_keep me w1 w2 → others_keep me w2 w3 → others_keep me w1 w3.
Proof.
  intros [H1 F1] [H2 F2]. split; [by etrans|]. intros names Hl.
  eapply untouched_trans; [apply H2|by apply F1|]. by apply F2, H1.
Qed.

Lemma untouched_refl fs names : untouched fs fs names.
Proof. unfold untouched. destruct (fs !! names) as [[]|]; auto. Qed.

(** Steps that leave files and locks as they are. *)
Lemma apart_keeps me w w' : w_files w' = w_files w → w_write_locks w' = w_write_locks w → rely w w' → others_keep me w w'.
Proof.
  intros Hf Hl Hr. split; [split; rewrite ?Hf, ?Hl; done|]. intros names _. rewrite Hf. apply untouched_refl.
Qed.

Definition locks_inv (w : World) : Prop := all_exclusive (w_log w) ∧ sound (w_files w).

Lemma quiet_keeps me w w' : locks_inv w → w_files w' = w_files w → w_reads w' = w_reads w → w_write_locks w' = w_write_locks w →
  w_log w' = w_log w → step_keeps me w w' ∧ locks_inv w'.
Proof.
  intros Hi Hf _ Hl Hlog. unfold locks_inv. rewrite Hlog, Hf. split; [|done]. split; [|intros other _]; by apply apart_keeps, rely_same.
Qed.

Definition locks_logic (me : nat) : StepLogic :=
  {| lg_inv := locks_inv; lg_others := others_keep me; lg_step := step_keeps me; lg_future := keeps me;
     lg_others_future _ _ H := proj1 H; lg_step_future _ _ H := proj1 H; lg_quiet := quiet_keeps me |}.

Section locked.
Context (sha256_hex : list Z → string) (normalize_media : AttachmentKind → list Z → option Media) (cfg : Settings).
Context (me : nat).
#[local] Instance me_logic : StepLogic := locks_logic me.

(** Steps on the stores and their log. *)
Lemma safe_apart {A} (f : World → Label → option (World * Result Exit A)) w :
  (∀ w1 l w2 r, f w1 l = Some (w2, r) → w_files w2 = w_files w1 ∧ w_write_locks w2 = w_write_locks w1 ∧ rely w1 w2 ∧
    (all_exclusive (w_log w1) → all_exclusive (w_log w2))) → safe (atomic f) w.
Proof.
  intros Hf. apply wp_atomic. intros w1 l w2 r Hr [Hi Hs] E. destruct (Hf _ _ _ _ E) as (H1 & H2 & H3 & H4).
  split; [|split; [split; [by apply H4|by rewrite H1]|done]]. split; [|intros other _]; by apply apart_keeps.
Qed.

Lemma safe_activate_l c e shown w : safe (activate_file_read_evidence cfg c e shown) w.
Proof.
  unfold activate_file_read_evidence. case_match; [|done]. apply safe_apart. intros w1 l w2 res [= <- _].
  destruct shown; split_and!; try done; unfold rely; simpl; [by apply later_cons|reflexivity].
Qed.

Lemma safe_evaluate_l c path text w : safe (evaluate_file_read_state sha256_hex cfg c path text) w.
Proof.
  unfold evaluate_file_read_state. case_match; [|done]. apply safe_apart. intros w1 l w2 res E.
  destruct (evaluate _ _ _ _). injection E as <- _.
  split_and!; try done. unfold rely. simpl. reflexivity.
Qed.

Lemma safe_clear_l c path w : safe (clear_file_path_state cfg c path) w.
Proof.
  unfold clear_file_path_state. case_match; [|done]. apply safe_apart. intros w1 l w2 res [= <- _]. split_and!; try done. unfold rely. simpl. reflexivity.
Qed.

Lemma safe_read_l c args w : safe (file_read sha256_hex normalize_media cfg c args) w.
Proof.
  unfold file_read. destruct (_ =? 0)%Z; [done|]. destruct (_ =? 0)%Z; [done|]. apply safe_then; [apply safe_if; [apply safe_ensure_memory|done]|].
  intros _ w1 _. destruct (attachment_kind_for_path _); try (apply safe_then; [apply safe_media|done]).
  apply safe_then; [apply safe_path_lock|]. intros _ w2 _. apply safe_then; [apply safe_io_call|]. intros read_path w3 _.
  apply safe_then; [apply safe_if; [apply safe_ensure_memory|done]|]. intros _ w4 _.
  apply safe_then; [eapply wp_mono; [|apply wp_scan]; done|]. intros [text outcome] w5 _.
  destruct outcome as [page|line]; [|done]. destruct (tp_evidence page) as [e|]; [|done]. apply safe_then; [apply safe_activate_l|done].
Qed.

(** *** The lock *)

(** Where an existing file is. *)
Definition there (names : list string) (w : World) : Prop := sound (w_files w) ∧ on_the_way (w_files w) names.

(** The key of a path of a new file. *)
Definition key_taken (path key : Path) (w : World) : Prop :=
  ∃ fs, sound fs ∧ grows fs (w_files w) ∧ no_new_links fs (w_files w) ∧ key = tool_path_lock_key fs path.

Lemma there_keeps w w' names : keeps me w w' → on_the_way (w_files w) names → on_the_way (w_files w') names.
Proof. intros Hk. by apply grows_on_the_way, Hk. Qed.

Lemma key_taken_keeps path key w w' : keeps me w w' → key_taken path key w → key_taken path key w'.
Proof. intros [_ Hg Hn _] (fs & Hs & Hg' & Hn' & ->). exists fs. split; [done|]. split; [by etrans|]. split; [by etrans|done]. Qed.

Lemma wp_resolve path w :
  wp (resolve_write_target path) (λ r w', ∀ p existed, r = Ok (p, existed) →
    if existed : bool then ∃ names, p = absolute names ∧ on_the_way (w_files w') names else p = path) w.
Proof.
  apply wp_bind, wp_io_read. intros w1 r _ [_ [Ht _]] H. destruct r as [target|[|]]; [| |done].
  - simpl. intros p existed [= <- <-]. destruct H as [|H]; [done|]. symmetry in H. apply result_bind_ok in H as (names & Hn & [= <-]).
    exists names. split; [done|]. apply walk_resolves in Hn. eapply resolves_on_the_way; [done| |exact Hn]. by left.
  - apply wp_bind, wp_io_read. intros w2 [[]|[]] _ _ _; try done. by intros p existed [= <- <-].
Qed.

Lemma wp_key path w :
  wp (atomic (λ w _, Some (w, Ok (tool_path_lock_key (w_files w) path)))) (λ r w', ∀ key, r = Ok key → key_taken path key w') w.
Proof.
  apply wp_look; [by intros w1 l w2 r [= <- _]|]. intros w1 l r _ [_ Hs] [= <-] key [= <-].
  exists (w_files w1). split; [done|]. split; [reflexivity|]. by split; [reflexivity|].
Qed.

Context (Hlocks : st_file_write_locks cfg = true).

Lemma wp_acquire c key w : tc_call c = me →
  wp (acquire_file_write_lock cfg c key) (λ r w', r = Ok tt → w_write_locks w' !! key = Some me) w.
Proof.
  intros Hme. unfold acquire_file_write_lock. rewrite Hlocks. cbn [negb]. apply wp_bind, wp_atomic. intros w1 l w2 r Hr Hi E.
  destruct (is_cancelled c w1); [injection E as <- <-; split_and!; [by apply quiet_keeps|done|done]|].
  destruct (l_fault l); [injection E as <- <-; split_and!; [by apply quiet_keeps|done|done]|].
  destruct (w_write_locks w1 !! key) eqn:Hk; [done|]. injection E as <- <-. rewrite Hme.
  set (w2 := set_write_locks _ w1). assert (Hkeep : ∀ j, others_keep j w1 w2).
  { intros j. split; [|intros names _; apply untouched_refl]. split; [by apply rely_same|reflexivity|reflexivity|].
    intros k Hj. simpl. rewrite lookup_insert_ne; [done|]. congruence. }
  split; [split; [apply Hkeep|intros j _; apply Hkeep]|]. split; [exact Hi|].
  eapply wp_mono; [|apply safe_not_cancelled]. intros r w3 Hr3 _ _. eapply (kp_locks _ _ _ Hr3). simpl. by rewrite lookup_insert_eq.
Qed.

(** *** From the last look to the rename *)

Lemma mkdir_keeps w fs : adds_directories (w_files w) fs ∧ (tree (w_files w) → tree fs) → locks_inv w →
  step_keeps me w (set_files fs w) ∧ locks_inv (set_files fs w).
Proof.
  intros [Ha Ht'] [Hi [Ht Hl]]. pose proof (adds_grows _ _ Ha) as [Hg Hn].
  assert (Hkeep : ∀ j, others_keep j w (set_files fs w)).
  { intros j. split; [by split; [apply rely_same|..]|]. intros names _. unfold untouched. simpl.
    destruct (Ha names) as [->|[Hnone ?]]; [apply untouched_refl|rewrite Hnone; by right]. }
  split; [split; [apply Hkeep|by intros j _; apply Hkeep]|]. split; [done|]. split; [by apply Ht'|by eapply links_lead_grows].
Qed.

Lemma safe_mkdir path w :
  wp (match parent path with
      | Some up => atomic (λ w l,
          match (if l_fault l then Err IoOther else create_dir_all (w_files w) up) with
          | Ok fs => Some (set_files fs w, Ok tt)
          | Err _ => Some (w, Err (Raise ToolIo))
          end)
      | None => mret tt
      end : Tool unit) (λ r w', r = Ok tt → ∀ up, parent path = Some up → is_dir (w_files w') up = true) w.
Proof.
  destruct (parent path) as [up|]; [|by intros _ up]. apply wp_atomic. intros w1 l w2 r Hr Hi E.
  destruct (if l_fault l then _ else _) as [fs|] eqn:Hfs; injection E as <- <-; [|by destruct (lg_quiet w1 w1 Hi) as [? ?]].
  destruct (l_fault l); [done|]. pose proof (create_dirs_adds _ _ _ _ Hfs) as Hadds.
  destruct (mkdir_keeps w1 fs Hadds Hi) as [H1 H2]. split; [done|]. split; [done|]. intros _ up' [= <-].
  eapply create_dirs_is_dir; [apply Hi| |exact Hfs]. done.
Qed.

(** The caller's last look found this text, and it is still there. *)
Definition found (names : list string) (before : list Z) (w : World) : Prop :=
  (∃ newer oldest, w_log w = newer ++ Confirmed me (absolute names) (Some before) :: oldest) ∧
  ∃ mode, w_files w !! names = Some (File before mode).

Lemma found_stays names before w w' : w_write_locks w !! absolute names = Some me → others_keep me w w' → found names before w → found names before w'.
Proof.
  intros Hl [Hk Hf] ((newer & oldest & Hlog) & mode & Hfile). destruct (kp_log _ _ _ Hk) as [n Hn]. split.
  - exists (n ++ newer), oldest. by rewrite Hn, Hlog, app_assoc.
  - exists mode. specialize (Hf names Hl). unfold untouched in Hf. by rewrite Hfile in Hf.
Qed.

(** The rename, under the lock of the place where the file goes. *)
Lemma rename_keeps w p content mode replaced fs event names :
  rename_to (w_files w) p content mode = Ok (replaced, fs) → location (w_files w) p = Ok names →
  (∀ target, w_files w !! names ≠ Some (Symlink target)) → w_write_locks w !! absolute names = Some me →
  locks_inv w → exclusive event (w_log w) → step_keeps me w (log_event event (set_files fs w)) ∧ locks_inv (log_event event (set_files fs w)).
Proof.
  intros (at_ & Hloc & -> & Hdir & ->)%rename_is Hloc' Hno Hl [Hi [Ht Hlinks]] He. rewrite Hloc in Hloc'. injection Hloc' as ->.
  destruct (put_grows (w_files w) names (File content mode)) as [Hg Hn].
  { destruct (w_files w !! names) as [[c m| |target]|] eqn:E; [eauto|done|by destruct (Hno target)|done]. }
  { done. }
  set (w' := log_event event _). assert (Hk : ∀ j, keeps j w w') by (intros j; by split; [unfold rely; simpl; apply later_cons|..]).
  split; [|split; [done|split; [|by eapply links_lead_grows]]].
  - split; [done|]. intros j Hj. split; [done|]. intros names' Hl'. unfold untouched. simpl. rewrite files_insert_ne; [apply untouched_refl|].
    intros ->. congruence.
  - apply put_tree; [done|by eapply location_on_the_way|done].
Qed.

(** *** A new file *)

(** The last look found nothing where the file goes. *)
Definition nothing_at (path : Path) (names : list string) (w : World) : Prop :=
  (∃ up dir name, path = up ++ [Normal name] ∧ follow (w_files w) up = Ok dir ∧ directory (w_files w) dir ∧ names = dir ++ [name]) ∧
  w_write_locks w !! absolute names = Some me ∧ (w_files w !! names = None ∨ w_files w !! names = Some Directory).

Lemma follow_grows fs fs' p names : grows fs fs' → follow fs p = Ok names → follow fs' p = Ok names.
Proof. intros Hg H%walk_resolves. apply walk_resolves. by eapply resolves_grows. Qed.

Lemma nothing_stays path names w w' : others_keep me w w' → nothing_at path names w → nothing_at path names w'.
Proof.
  intros [[_ Hg _ Hlk] Hf] ((up & dir & name & -> & Hup & Hd & ->) & Hl & Hn). split; [|split; [by apply Hlk|]].
  - exists up, dir, name. split; [done|]. split; [by eapply follow_grows|]. split; [by eapply grows_directory|done].
  - specialize (Hf _ Hl). unfold untouched in Hf. destruct Hn as [Hn|Hn]; [by rewrite Hn in Hf|right]. exact (Hg _ _ Hn).
Qed.

Lemma is_dir_grows fs fs' p : grows fs fs' → is_dir fs p = true → is_dir fs' p = true.
Proof.
  intros Hg (names & Hf & Hd)%is_dir_follow. apply is_dir_follow. exists names. split; [by eapply follow_grows|by eapply grows_directory].
Qed.

(** The key that was taken is the place where the file goes. *)
Lemma key_of_new path key up dir name w : rooted path → key_taken path key w → sound (w_files w) → path = up ++ [Normal name] →
  follow (w_files w) up = Ok dir → directory (w_files w) dir → w_files w !! (dir ++ [name]) = None → key = absolute (dir ++ [name]).
Proof.
  intros Hroot (fs & [Ht Hl] & Hg & Hn & ->) [Htw _] -> Hup Hd Hnone.
  destruct (put_grows (w_files w) (dir ++ [name]) (File [] 0)) as [Hg' Hn']; [by rewrite Hnone|done|].
  eapply (lock_key_sound fs (<[dir ++ [name] := File [] 0]> (w_files w))); [done|done| |by etrans|by etrans|done|].
  - apply put_tree; [done|by apply directory_below|congruence].
  - apply walk_resolves. eapply resolves_snoc; [apply walk_resolves; by eapply follow_grows|by eapply grows_directory|apply files_insert|done].
Qed.

Lemma wp_matches_new c path key mode w : rooted path → key_taken path key w → w_write_locks w !! key = Some me →
  (∀ up, parent path = Some up → is_dir (w_files w) up = true) →
  wp (target_matches_expected c path key None mode) (λ r w', r = Ok true → ∃ names, nothing_at path names w') w.
Proof.
  intros Hroot Hkey Hl Hup. apply wp_bind, wp_io_read. intros w1 meta [Hk _] [_ Hs] H. destruct meta as [[]|[|]]; try done.
  intros _. destruct H as [|H]; [done|]. symmetry in H. apply absent_file in H as (up & dir & name & -> & Hf & Hd & Hnone); [|done|apply Hs|].
  2: { intros up Hp. eapply is_dir_grows; [apply Hk|by apply Hup]. }
  exists (dir ++ [name]). split; [by exists up, dir, name|]. split; [|by left].
  apply (kp_locks _ _ _ Hk) in Hl. erewrite <-(key_of_new _ key); [exact Hl|done|by eapply key_taken_keeps|done|done|done|done|done].
Qed.

Lemma safe_write_new c path key content event w : rooted path → key_taken path key w → w_write_locks w !! key = Some me →
  (∀ replaced, ∃ call process scope change, event content replaced = Changed call process scope key None change content replaced) →
  safe (write_text_atomic_if_unchanged cfg c path key content None event) w.
Proof.
  intros Hroot Hkey Hl He. unfold write_text_atomic_if_unchanged. apply safe_then; [done|]. intros [mode|] w1 Hr1; [|done].
  eapply safe_then_post; [apply safe_mkdir|]. intros [] w2 Hr2 Hup. specialize (Hup eq_refl).
  apply safe_then; [apply safe_io_call|]. intros _ w3 Hr3. assert (Hk3 : keeps me w w3) by (etrans; [exact Hr1|]; etrans; [exact Hr2|exact Hr3]).
  eapply safe_then_post; [apply (wp_matches_new c path key mode w3 Hroot); [by eapply key_taken_keeps|by eapply kp_locks|]|].
  { intros up Hp. eapply is_dir_grows; [apply Hr3|by apply Hup]. }
  intros [] w4 Hr4 Hnothing; [|apply safe_then; [apply safe_io_call|done]]. destruct (Hnothing eq_refl) as [names Hn4].
  apply wp_atomic. intros w5 l w6 r Hr5 Hi E. pose proof (nothing_stays _ _ _ _ Hr5 Hn4) as ((up & dir & name & Hpath & Hf & Hd & Hnames) & Hl5 & Hnode).
  clear Hn4. subst path names.
  destruct (if l_fault l then _ else _) as [[replaced fs]|] eqn:Hfs; injection E as <- <-; [|by destruct (lg_quiet w5 w5 Hi) as [? ?]].
  destruct (l_fault l); [done|]. assert (Hloc : location (w_files w5) (up ++ [Normal name]) = Ok (dir ++ [name])) by (apply location_snoc; eauto).
  destruct (rename_is _ _ _ _ _ _ Hfs) as (at_ & Hat & -> & Hdir & _). rewrite Hloc in Hat. injection Hat as <-.
  destruct Hnode as [Hnode|]; [|done]. destruct (He (w_files w5 !! (dir ++ [name]))) as (call & process & scope & change & He').
  destruct (rename_keeps w5 (up ++ [Normal name]) content mode (w_files w5 !! (dir ++ [name])) fs
    (event content (w_files w5 !! (dir ++ [name]))) (dir ++ [name]) Hfs Hloc) as [H1 H2]; [congruence|done|done|by rewrite He'|].
  by split; [|split].
Qed.

(** *** An existing file *)

Lemma wp_matches c names before mode w : tc_call c = me → on_the_way (w_files w) names → w_write_locks w !! absolute names = Some me →
  wp (target_matches_expected c (absolute names) (absolute names) (Some before) mode) (λ r w', r = Ok true → found names before w') w.
Proof.
  intros Hme Hw Hl. apply wp_bind, wp_io_read. intros w1 meta [Hk1 _] [_ Hs1] H. destruct meta as [[content mode'| |target]|[|]]; try done.
  destruct (negb _); [done|]. destruct (negb _); [done|]. destruct H as [|H]; [done|]. symmetry in H.
  assert (Hw1 : on_the_way (w_files w1) names) by (by eapply there_keeps).
  unfold symlink_metadata in H. rewrite (location_is _ _ (proj1 Hs1) Hw1) in H. simpl in H.
  assert (Hn : w_files w1 !! names = Some (File content mode')).
  { destruct names as [|x names _] using rev_ind; [done|]. rewrite node_at_below in H. destruct (w_files w1 !! _); congruence. }
  apply wp_bind, wp_atomic. intros w2 l w3 res [Hk2 Hf2] Hi2 E.
  destruct (if l_fault l then _ else _) as [current|] eqn:Hcur; injection E as <- <-; [|by destruct (lg_quiet w2 w2 Hi2) as [? ?]].
  destruct (l_fault l); [done|]. case_bool_decide as Hsame; [|by destruct (lg_quiet w2 w2 Hi2) as [? ?]]. subst current.
  apply read_bytes_is in Hcur as [mode2 Hfile]; [|apply Hi2|by eapply there_keeps|].
  2: { intros target Ht. apply (kp_links _ _ _ Hk2) in Ht. congruence. }
  assert (Hkeep : ∀ j, others_keep j w2 (log_event (Confirmed (tc_call c) (absolute names) (Some before)) w2)).
  { intros j. apply apart_keeps; [done|done|]. unfold rely. simpl. by apply later_cons. }
  split; [split; [apply Hkeep|by intros j _; apply Hkeep]|]. split; [split; [by split; [|apply Hi2]|apply Hi2]|].
  intros _. rewrite Hme. split; [by exists [], (w_log w2)|by exists mode2].
Qed.

Lemma safe_write_old c names content before event w : tc_call c = me → on_the_way (w_files w) names → w_write_locks w !! absolute names = Some me →
  (∀ replaced, ∃ process scope change, event content replaced = Changed me process scope (absolute names) (Some before) change content replaced) →
  safe (write_text_atomic_if_unchanged cfg c (absolute names) (absolute names) content (Some before) event) w.
Proof.
  intros Hme Hw Hl He. unfold write_text_atomic_if_unchanged.
  apply safe_then; [apply safe_then; [apply safe_io_read|by intros [[]|[]]]|]. intros [mode|] w1 Hr1; [|done].
  apply safe_then; [eapply wp_mono; [|apply safe_mkdir]; done|]. intros _ w2 Hr2. apply safe_then; [apply safe_io_call|]. intros _ w3 Hr3.
  assert (Hk3 : keeps me w w3) by (etrans; [exact Hr1|]; etrans; [exact Hr2|exact Hr3]).
  eapply safe_then_post; [apply (wp_matches c names before mode w3 Hme); [by eapply there_keeps|by eapply kp_locks]|].
  intros [] w4 Hr4 Hfound; [|apply safe_then; [apply safe_io_call|done]]. specialize (Hfound eq_refl).
  assert (Hk4 : keeps me w w4) by (etrans; [exact Hk3|exact Hr4]).
  apply wp_atomic. intros w5 l w6 r Hr5 Hi E. apply (found_stays names before w4 w5 (kp_locks _ _ _ Hk4 _ Hl) Hr5) in Hfound as [Hlog (mode2 & Hfile)].
  destruct (if l_fault l then _ else _) as [[replaced fs]|] eqn:Hfs; injection E as <- <-; [|by destruct (lg_quiet w5 w5 Hi) as [? ?]].
  destruct (l_fault l); [done|]. assert (Hk5 : keeps me w w5) by (etrans; [exact Hk4|apply Hr5]).
  assert (Hloc : location (w_files w5) (absolute names) = Ok names) by (apply location_is; [apply Hi|by eapply there_keeps]).
  destruct (rename_is _ _ _ _ _ _ Hfs) as (at_ & Hat & -> & _ & _). rewrite Hloc in Hat. injection Hat as <-.
  destruct (He (w_files w5 !! names)) as (process & scope & change & He').
  destruct (rename_keeps w5 (absolute names) content mode (w_files w5 !! names) fs (event content (w_files w5 !! names)) names Hfs Hloc) as [H1 H2];
    [congruence|by eapply kp_locks|done|rewrite He'; split; [done|by exists mode2]|].
  by split; [|split].
Qed.

(** *** The tools *)

Lemma safe_commit_l c display path key expected after migration event success w :
  (∀ w', keeps me w w' → safe (write_text_atomic_if_unchanged cfg c path key after expected event) w') →
  safe (commit_change sha256_hex cfg c display path key expected after migration event success) w.
Proof.
  intros Hwrite. unfold commit_change. apply safe_then; [apply safe_not_cancelled|]. intros _ w1 Hr1.
  apply safe_then; [apply safe_not_cancelled|]. intros _ w2 Hr2. apply safe_then; [apply Hwrite; by etrans|].
  intros [] w3 _; [|apply safe_then; [apply safe_clear_l|done]]. apply safe_then; [|done]. destruct migration; [apply safe_activate_l|done].
Qed.

Lemma safe_commit_old c display names content before migration change success w : tc_call c = me → on_the_way (w_files w) names →
  w_write_locks w !! absolute names = Some me →
  safe (commit_change sha256_hex cfg c display (absolute names) (absolute names) (Some before) content migration
    (Changed (tc_call c) (tc_process c) (file_read_state_scope cfg c) (absolute names) (Some before) change) success) w.
Proof.
  intros Hme Hw Hl. apply safe_commit_l. intros w' Hk. apply (safe_write_old c names content before); [done|by eapply there_keeps|by eapply kp_locks|].
  intros replaced. rewrite Hme. eauto.
Qed.

Lemma absolute_normal names : lexical_normalize_path (absolute names) = absolute names.
Proof. apply clean_normal. exists names. by right. Qed.

Lemma components_rest raw : RootDir ∉ omap component (split_slash raw).
Proof. intros (part & _ & H)%list_elem_of_omap. unfold component in H. by repeat case_bool_decide. Qed.

Lemma relative_path p : RootDir ∉ p → is_absolute p = false.
Proof. destruct p as [|[]]; set_solver. Qed.

Lemma relative_both p : RootDir ∉ p → is_absolute p = false ∧ RootDir ∉ p.
Proof. intros Hp. split; [by apply relative_path|done]. Qed.

Lemma components_shape raw : rooted (components raw) ∨ is_absolute (components raw) = false ∧ RootDir ∉ components raw.
Proof.
  unfold components. pose proof (components_rest raw) as Hr. set (rest := omap component (split_slash raw)) in *.
  destruct (split_slash raw) as [|first [|x more]]; [right; by apply relative_both|right; apply relative_both; case_bool_decide; set_solver|].
  case_bool_decide; [left; by exists rest|right]. apply relative_both. case_bool_decide; set_solver.
Qed.

Lemma trimmed_relative s : is_absolute (components (trim_slashes s)) = false.
Proof.
  induction s as [|c s IH]; [done|]. cbn [trim_slashes]. destruct (Ascii.eqb c "/") eqn:E; [done|].
  unfold components. pose proof (components_rest (String c s)) as Hr. cbn [split_slash] in *. rewrite E in *.
  set (rest := omap component _) in *. assert (Hd : ∀ first, RootDir ∉ (if bool_decide (first = "."%string) then [CurDir] else []) ++ rest)
    by (intros first; case_bool_decide; set_solver).
  destruct (split_slash s) as [|part [|x parts]]; apply relative_path; [apply Hd|apply Hd|].
  rewrite bool_decide_false by done. apply Hd.
Qed.

Lemma rooted_join root p : rooted root → RootDir ∉ p → rooted (join root p).
Proof.
  intros (rest & -> & Hrest) Hp. unfold join. rewrite relative_path by done.
  exists (rest ++ filter (λ c, c ≠ CurDir) p). split; [done|]. intros [?|[_ ?]%list_elem_of_filter]%elem_of_app; done.
Qed.

Lemma rooted_absolute p : rooted p → is_absolute p = true.
Proof. by intros (rest & -> & _). Qed.

(** The root of the workspace and the home directory are absolute. *)
Context (Hroot : rooted (st_workspace_root cfg)) (Hhome : ∀ home, st_home cfg = Some home → rooted home).

Lemma resolve_rooted raw : rooted (resolve_tool_path cfg raw).
Proof.
  assert (H : ∀ p, rooted p ∨ is_absolute p = false ∧ RootDir ∉ p → rooted (if is_absolute p then p else join (st_workspace_root cfg) p)).
  { intros p [Hp|[-> Hp]]; [by rewrite (rooted_absolute p Hp)|by apply rooted_join]. }
  apply H. clear H. assert (Hrest : ∀ s home, rooted home → rooted (join home (components (trim_slashes s)))).
  { intros s home Hh. apply rooted_join; [done|]. pose proof (trimmed_relative s) as Hrel.
    destruct (components_shape (trim_slashes s)) as [Hs%rooted_absolute|[_ ?]]; [congruence|done]. }
  unfold expand_current_user_home_with. destruct raw as [|[[] [] [] [] [] [] [] []] rest]; try apply components_shape.
  destruct (st_home cfg) as [home|] eqn:E; [|apply components_shape]. pose proof (Hhome home eq_refl) as Hh.
  destruct rest as [|[[] [] [] [] [] [] [] []] more]; try apply components_shape; left; [done|by apply Hrest].
Qed.

Lemma safe_patch_l c args w : tc_call c = me → safe (file_patch sha256_hex cfg c args) w.
Proof.
  intros Hme. unfold file_patch. apply safe_then; [by apply safe_if|]. intros _ w1 _. apply safe_then; [apply safe_ensure_memory|]. intros _ w2 _.
  apply safe_then; [apply safe_path_lock|]. intros _ w3 _. eapply safe_then_post; [apply wp_resolve|]. intros [write_path existed] w4 _ Hres.
  destruct existed; [|done]. destruct (Hres write_path true eq_refl) as (names & -> & Hw4). rewrite absolute_normal. apply safe_then; [done|]. intros _ w5 Hr5.
  apply safe_then; [apply safe_ensure_memory|]. intros _ w6 Hr6. eapply safe_then_post; [by apply wp_acquire|]. intros [] w7 Hr7 Hl. specialize (Hl eq_refl).
  assert (Hw7 : on_the_way (w_files w7) names)
    by exact (there_keeps _ _ _ Hr7 (there_keeps _ _ _ Hr6 (there_keeps _ _ _ Hr5 Hw4))).
  apply safe_then; [apply safe_io_read|]. intros content w8 Hr8. apply safe_then; [by repeat case_match|]. intros before w9 Hr9.
  destruct (match_indices before _) as [|start more]; [done|]. apply safe_then; [by apply safe_if|]. intros _ w10 Hr10. cbn zeta beta.
  apply safe_then. { destruct (st_file_edit_authority_enabled cfg); [|done]. apply safe_then; [apply safe_evaluate_l|by intros []]. }
  intros au w11 Hr11. apply safe_then; [destruct au; [by apply safe_if|done]|]. intros _ w12 Hr12.
  apply safe_then; [by repeat case_match|]. intros migration w13 Hr13.
  assert (Hk : keeps me w7 w13).
  { etrans; [exact Hr8|]. etrans; [exact Hr9|]. etrans; [exact Hr10|]. etrans; [exact Hr11|]. etrans; [exact Hr12|exact Hr13]. }
  apply safe_commit_old; [done|by eapply there_keeps|by eapply kp_locks].
Qed.

(** The target of [file_write], and the key of its lock. *)
Definition target_of (path write_path key : Path) (existed : bool) (w : World) : Prop :=
  if existed then ∃ names, write_path = absolute names ∧ key = absolute names ∧ on_the_way (w_files w) names
  else write_path = path ∧ key_taken path key w.

Lemma target_keeps path write_path key existed w w' : keeps me w w' → target_of path write_path key existed w → target_of path write_path key existed w'.
Proof.
  intros Hk. destruct existed; simpl; [intros (names & -> & -> & H)|intros [-> H]].
  - exists names. split; [done|]. split; [done|]. by eapply there_keeps.
  - split; [done|]. by eapply key_taken_keeps.
Qed.

Lemma safe_commit_target c display path write_path key existed content before migration change success w :
  tc_call c = me → rooted path → target_of path write_path key existed w → w_write_locks w !! key = Some me →
  let expected := if existed then Some before else None in
  safe (commit_change sha256_hex cfg c display write_path key expected content migration
    (Changed (tc_call c) (tc_process c) (file_read_state_scope cfg c) key expected change) success) w.
Proof.
  intros Hme Hp Ht Hl. destruct existed; simpl in *.
  - destruct Ht as (names & -> & -> & Hw). by apply safe_commit_old.
  - destruct Ht as [-> Ht]. apply safe_commit_l. intros w' Hk. eapply safe_write_new; [done|by eapply key_taken_keeps|by eapply kp_locks|].
    intros replaced. by eexists _, _, _, _.
Qed.

Lemma safe_write_l c args w : tc_call c = me → safe (file_write sha256_hex cfg c args) w.
Proof.
  intros Hme. unfold file_write. cbn zeta. apply safe_then; [by apply safe_if|]. intros _ w1 _. apply safe_then; [apply safe_ensure_memory|]. intros _ w2 _.
  apply safe_then; [apply safe_path_lock|]. intros _ w3 _. eapply safe_then_post; [apply wp_resolve|]. intros [write_path existed] w4 _ Hres.
  specialize (Hres write_path existed eq_refl).
  apply safe_then; [destruct existed; [apply safe_ensure_memory|done]|]. intros _ w5 Hr5.
  eapply (safe_then_post _ _ (λ r w', ∀ key, r = Ok key → target_of (resolve_tool_path cfg (fwa_path args)) write_path key existed w')).
  { destruct existed.
    - destruct Hres as (names & -> & Hw). intros key [= <-]. exists names. rewrite absolute_normal. split; [done|]. split; [done|]. by eapply there_keeps.
    - subst write_path. eapply wp_mono; [|apply wp_key]. intros r w' _ H key Hkey. split; [done|]. by apply H. }
  intros key w6 Hr6 Ht. specialize (Ht key eq_refl). apply safe_then; [destruct existed; [done|apply safe_ensure_memory]|]. intros _ w7 Hr7.
  eapply safe_then_post; [by apply wp_acquire|]. intros [] w8 Hr8 Hl. specialize (Hl eq_refl).
  apply safe_then; [destruct existed; [apply safe_then; [apply safe_io_read|intros; apply safe_io]|done]|]. intros before w9 Hr9.
  apply safe_then. { destruct (existed && _); [|done]. apply safe_then; [apply safe_evaluate_l|by intros []]. }
  intros au w10 Hr10. apply safe_then; [destruct au; [by apply safe_if|done]|]. intros [] w11 Hr11.
  destruct (if bool_decide (_ = "append"%string) then _ else _) as [start end_]. destruct (existed && bool_decide _); [done|].
  apply safe_then.
  { destruct (negb _); [done|]. destruct au as [a|]; [|done]. destruct (_ || _); [done|]. destruct (migrate_edit_coverage _ _ _ _ _ _); [done|].
    apply safe_then; [apply safe_clear_l|done]. }
  intros migration w12 Hr12.
  assert (Hk6 : keeps me w6 w8) by (etrans; [exact Hr7|exact Hr8]).
  assert (Hk8 : keeps me w8 w12) by (etrans; [exact Hr9|]; etrans; [exact Hr10|]; etrans; [exact Hr11|exact Hr12]).
  eapply safe_commit_target; [done|apply resolve_rooted| |by eapply kp_locks]. eapply target_keeps; [exact Hk8|]. by eapply target_keeps.
Qed.

Lemma safe_call_l c r w : tc_call c = me → safe (tool_call sha256_hex normalize_media cfg c r) w.
Proof. intros Hme. destruct r; [apply safe_read_l|by apply safe_patch_l|by apply safe_write_l]. Qed.
End locked.

(** ** All runs *)

Section runs.
Context (sha256_hex : list Z → string) (normalize_media : AttachmentKind → list Z → option Media) (cfg : Settings).
Context (Hlocks : st_file_write_locks cfg = true).
Context (Hroot : rooted (st_workspace_root cfg)) (Hhome : ∀ home, st_home cfg = Some home → rooted home).

Definition undisturbed (s s' : System) : Prop :=
  sys_step sha256_hex normalize_media cfg s s' ∧ Outside ∉ w_log (sy_world s').

Definition locked_ok (s : System) : Prop :=
  locks_inv (sy_world s) ∧ ∀ i t, sy_calls s !! i = Some t → safe (SL := locks_logic i) t (sy_world s).

Lemma safe_others {A} i (t : Tool A) w w' : others_keep i w w' → safe (SL := locks_logic i) t w → safe (SL := locks_logic i) t w'.
Proof. intros Hr. destruct t as [r|f]; [done|]. intros H w1 l Hr1. apply H. by eapply others_keep_trans. Qed.

Lemma release_keeps i j w : j ≠ i → others_keep j w (release i w).
Proof.
  intros Hne. split; [|intros names _; apply untouched_refl]. split; [by apply rely_same|reflexivity|reflexivity|].
  simpl. intros key Hk. apply map_lookup_filter_Some. by split.
Qed.

Lemma undisturbed_ok s s' : undisturbed s s' → locked_ok s → locked_ok s'.
Proof.
  intros [Hstep Hout] [Hi Hc].
  assert (Hall : ∀ w', (∀ j, others_keep j (sy_world s) w') → ∀ i t, sy_calls s !! i = Some t → safe (SL := locks_logic i) t w').
  { intros w' Hw i t Ht. eapply safe_others; [apply Hw|by apply Hc]. }
  destruct Hstep as [s c r Hnew|s i f l w t Hf Hstep|s i t Ht|s c path text f l w t Hfit Hf Hstep|s process op|s i|s fs]; simpl in *.
  - split; [done|]. simpl. intros i t. rewrite lookup_insert_Some. intros [[<- <-]|[_ Ht]]; [by apply safe_call_l|by apply Hc].
  - pose proof (Hc i (Step f) Hf) as H. assert (H0 : others_keep i (sy_world s) (sy_world s)) by (apply apart_keeps; done || reflexivity).
    specialize (H (sy_world s) l H0 Hi). rewrite Hstep in H. destruct H as (Hr & Hi' & Ht).
    split; [done|]. simpl. intros j t'. rewrite lookup_insert_Some. intros [[<- <-]|[Hne Hj]]; [done|]. eapply safe_others; [|by apply Hc]. by apply Hr.
  - split; [done|]. simpl. intros j t' [Hne Hj]%lookup_delete_Some. eapply safe_others; [by apply release_keeps|by apply Hc].
  - unfold record_text_attachment_read, activate_file_read_evidence in Hf. destruct (file_read_state_scope cfg c); [|done].
    injection Hf as <-. injection Hstep as <- _. split; [split; [by split; [|apply Hi]|apply Hi]|]. apply Hall. intros j. apply apart_keeps; [done|done|].
    unfold rely. simpl. by apply later_cons.
  - split; [done|]. apply Hall. intros j. apply apart_keeps; [done|done|]. by apply rely_same.
  - split; [done|]. apply Hall. intros j. apply apart_keeps; [done|done|]. by apply rely_same.
  - destruct Hout. by left.
Qed.

End runs.

(** ** Schedules

    A schedule is executed step by step; after each step [ok] must hold. *)

Section schedules.
Context (sha256_hex : list Z → string) (normalize_media : AttachmentKind → list Z → option Media) (cfg : Settings).
Context (ok : World → bool).

(** A schedule: a call begins, takes a step, runs on its own to its end, ends;
    another program replaces the files. *)
Inductive Act := Begin (c : ToolDispatchContext) (r : Request) | Once (i : nat) (l : Label) | Alone (i : nat) (fuel : nat) | Over (i : nat) | Meddle (f : Files → Files).

Definition calm : Label := {| l_fault := false; l_chunks := None |}.

Definition checked (s : System) : option System := if ok (sy_world s) then Some s else None.

Definition once (i : nat) (l : Label) (s : System) : option System :=
  match sy_calls s !! i with
  | Some (Step f) => match f (sy_world s) l with
                     | Some (w, t) => checked {| sy_world := w; sy_calls := <[i := t]> (sy_calls s) |}
                     | None => None
                     end
  | _ => None
  end.

Fixpoint alone (fuel : nat) (i : nat) (s : System) : option System :=
  match fuel, sy_calls s !! i with
  | S fuel', Some (Step _) => match once i calm s with Some s' => alone fuel' i s' | None => Some s end
  | _, _ => Some s
  end.

Definition act (a : Act) (s : System) : option System :=
  match a with
  | Begin c r => if bool_decide (sy_calls s !! tc_call c = None)
      then checked {| sy_world := sy_world s; sy_calls := <[tc_call c := tool_call sha256_hex normalize_media cfg c r]> (sy_calls s) |} else None
  | Once i l => once i l s
  | Alone i fuel => alone fuel i s (** or until it waits *)
  | Over i => match sy_calls s !! i with
              | Some _ => checked {| sy_world := release i (sy_world s); sy_calls := delete i (sy_calls s) |}
              | None => None
              end
  | Meddle f => checked {| sy_world := log_event Outside (set_files (f (w_files (sy_world s))) (sy_world s)); sy_calls := sy_calls s |}
  end.

Fixpoint acts (l : list Act) (s : System) : option System :=
  match l with [] => Some s | a :: l' => s' ← act a s; acts l' s' end.

Notation steps := (rtc (λ s s', sys_step sha256_hex normalize_media cfg s s' ∧ ok (sy_world s') = true)).

Lemma checked_step s s' s'' : sys_step sha256_hex normalize_media cfg s s' → checked s' = Some s'' → steps s s''.
Proof. unfold checked. intros Hs H. destruct (ok (sy_world s')) eqn:E; [|done]. injection H as <-. by apply rtc_once. Qed.

Lemma once_steps i l s s' : once i l s = Some s' → steps s s'.
Proof.
  unfold once. destruct (sy_calls s !! i) as [[|f]|] eqn:Hi; [done| |done]. destruct (f (sy_world s) l) as [[w t]|] eqn:E; [|done].
  apply checked_step. by eapply SysRun.
Qed.

Lemma alone_steps fuel i : ∀ s s', alone fuel i s = Some s' → steps s s'.
Proof.
  induction fuel as [|fuel IH]; intros s s' H; cbn [alone] in H; [by injection H as ->|].
  destruct (sy_calls s !! i) as [[r|f]|]; [by injection H as ->| |by injection H as ->].
  destruct (once i calm s) as [s1|] eqn:E; [|by injection H as ->]. etrans; [by eapply once_steps|by apply IH].
Qed.

Lemma act_steps a s s' : act a s = Some s' → steps s s'.
Proof.
  destruct a as [c r|i l|i fuel|i|f]; simpl; intros H.
  - case_bool_decide; [|done]. eapply checked_step; [by apply SysStart|exact H].
  - by eapply once_steps.
  - by eapply alone_steps.
  - destruct (sy_calls s !! i) as [t|] eqn:Hi; [|done]. eapply checked_step; [by eapply SysEnd|exact H].
  - eapply checked_step; [apply SysOutside|exact H].
Qed.

Lemma acts_steps l : ∀ s s', acts l s = Some s' → steps s s'.
Proof.
  induction l as [|a l IH]; intros s s' H; simpl in H; [by injection H as ->|].
  destruct (act a s) as [s1|] eqn:E; [|done]. etrans; [by eapply act_steps|by apply IH].
Qed.
End schedules.

(** ** A demonstration *)

Fixpoint pos_bits (p : positive) : string :=
  match p with xH => EmptyString | xO p' => String "0" (pos_bits p') | xI p' => String "1" (pos_bits p') end.

Lemma pos_bits_inj p q : pos_bits p = pos_bits q → p = q.
Proof. revert q. induction p as [p IH|p IH|]; intros [q|q|] H; simpl in H; try done; injection H as H; by rewrite (IH q H). Qed.

(** Digests that are the text itself. *)
Definition demo_digest (t : list Z) : string := pos_bits (encode t).

Lemma demo_digest_inj : revision_inj demo_digest.
Proof. intros t1 t2 [= H _]. by apply (inj encode), pos_bits_inj. Qed.

Definition demo_settings : Settings :=
  {| st_workspace_root := absolute ["w"%string]; st_home := None; st_memory_store := true; st_file_edit_authority_enabled := true;
     st_file_write_locks := true; st_file_read_max_chars := 1000; st_dream_read_only := false; st_attachments_enabled := true;
     st_max_file_bytes := 1000; st_new_mode := 420 |}.

Definition demo_text : list Z := lit "one" ++ [10%Z] ++ lit "two" ++ [10%Z] ++ lit "three" ++ [10%Z].
Definition demo_files : Files := <[["w"; "a.txt"]%string := File demo_text 420]> (<[["w"%string] := Directory]> ∅).

Definition demo_context (call : nat) (session : string) : ToolDispatchContext :=
  {| tc_call := call; tc_process := 0; tc_delegation_child := false; tc_session_id := Some session; tc_turn_id := Some "t"%string |}.

Definition demo_read_args (start count : Z) : FileReadArgs :=
  {| fra_path := "a.txt"; fra_start := Some start; fra_count := Some count; fra_keyword := None; fra_show_linenos := None |}.
Definition demo_patch_args : FilePatchArgs :=
  {| fpa_path := "./a.txt"; fpa_old_content := lit "two"; fpa_new_content := lit "2"; fpa_replace_all := false |}.

Definition demo_run (ok : World → bool) (l : list Act) : option System :=
  acts demo_digest (λ _ _, None) demo_settings ok l (initial demo_files).
Definition anything (w : World) : bool := true.
Definition nobody_else (w : World) : bool := forallb (λ e, match e with Outside => false | _ => true end) (w_log w).
Definition demo_result (call : nat) (s : option System) : option (Result Exit ToolExecution) :=
  s ← s; t ← sy_calls s !! call; match t with Done r => Some r | Step _ => None end.

Definition demo_reads_line_2 : list Act := [Begin (demo_context 0 "s") (FileRead (demo_read_args 2 1)); Alone 0 100; Over 0].
Definition demo_patches : list Act := [Begin (demo_context 1 "s") (FilePatch demo_patch_args); Alone 1 100].

(** A patch of a line that was read. *)
Lemma demo_patch_done : demo_result 1 (demo_run anything (demo_reads_line_2 ++ demo_patches)) = Some (Ok (Completed (Patched "./a.txt" 1))).
Proof. vm_compute. reflexivity. Qed.

(** One that was not read, or by another session, or before the file changed. *)
Lemma demo_patch_unread : demo_result 1 (demo_run anything demo_patches)
  = Some (Err (Return (BusinessFailure (PatchPermission "./a.txt" (Some {| lr_start := 1; lr_end := 3 |}) false)))).
Proof. vm_compute. reflexivity. Qed.

Lemma demo_patch_of_other : demo_result 1 (demo_run anything (demo_reads_line_2 ++ [Begin (demo_context 1 "x") (FilePatch demo_patch_args); Alone 1 100]))
  = Some (Err (Return (BusinessFailure (PatchPermission "./a.txt" (Some {| lr_start := 1; lr_end := 3 |}) false)))).
Proof. vm_compute. reflexivity. Qed.

Lemma demo_patch_stale :
  demo_result 1 (demo_run anything (demo_reads_line_2 ++ [Meddle (insert ["w"; "a.txt"]%string (File (lit "two") 420))] ++ demo_patches))
  = Some (Err (Return (BusinessFailure (PatchPermission "./a.txt" (Some {| lr_start := 1; lr_end := 1 |}) true)))).
Proof. vm_compute. reflexivity. Qed.

(** Two processes that have read the line: the second waits for the first and
    finds its evidence outdated. *)
Definition demo_process_1 (call : nat) : ToolDispatchContext :=
  {| tc_call := call; tc_process := 1; tc_delegation_child := false; tc_session_id := Some "s"%string; tc_turn_id := Some "t"%string |}.
Definition demo_race : list Act :=
  demo_reads_line_2 ++
  [Begin (demo_process_1 0) (FileRead (demo_read_args 1 3)); Alone 0 100; Over 0;
   Begin (demo_context 1 "s") (FilePatch demo_patch_args); Alone 1 6;
   Begin (demo_process_1 2) (FilePatch {| fpa_path := "a.txt"; fpa_old_content := lit "o"; fpa_new_content := lit "0"; fpa_replace_all := true |});
   Alone 2 100; Alone 1 100; Over 1; Alone 2 100].

Lemma demo_race_first : demo_result 1 (demo_run nobody_else (removelast (removelast demo_race))) = Some (Ok (Completed (Patched "./a.txt" 1))).
Proof. vm_compute. reflexivity. Qed.

Lemma demo_race_second : demo_result 2 (demo_run nobody_else demo_race) = Some (Err (Return (BusinessFailure (PatchPermission "a.txt" None true)))).
Proof. vm_compute. reflexivity. Qed.

Lemma demo_system_reachable ok l s : demo_run ok l = Some s → reachable demo_digest (λ _ _, None) demo_settings s.
Proof. intros H%acts_steps. exists demo_files. eapply rtc_subrel; [|exact H]. by intros s1 s2 []. Qed.

Lemma demo_undisturbed l s : demo_run nobody_else l = Some s → rtc (undisturbed demo_digest (λ _ _, None) demo_settings) (initial demo_files) s.
Proof.
  intros H%acts_steps. eapply rtc_subrel; [|exact H]. intros s1 s2 [Hs Hok]. split; [done|]. unfold nobody_else in Hok.
  intros Hin. rewrite forallb_forall in Hok. by specialize (Hok Outside (proj1 (list_elem_of_In _ _) Hin)).
Qed.

(** The change that the log ends with. *)
Definition demo_changed : list Z := lit "one" ++ [10%Z] ++ lit "2" ++ [10%Z] ++ lit "three" ++ [10%Z].
Definition demo_scope_s : ReadStateScope := {| rs_session_id := Some "s"%string; rs_caller_id := None |}.
Definition demo_event : Event :=
  Changed 1 0 (Some demo_scope_s) (absolute ["w"; "a.txt"]%string) (Some demo_text) (Splice 4 7 (lit "2")) demo_changed (Some (File demo_text 420)).

Lemma no_blind_edit_witness :
  ∃ s older, w_log (sy_world s) = [demo_event] ++ older ∧ demo_run anything (demo_reads_line_2 ++ demo_patches) = Some s ∧
    ∀ p, 4 ≤ p < 7 → knows older 0 demo_scope_s (absolute ["w"; "a.txt"]%string) demo_text p.
Proof.
  destruct (demo_run anything (demo_reads_line_2 ++ demo_patches)) as [s|] eqn:E; [|vm_compute in E; discriminate E].
  assert (Hlog : w_log (sy_world s) = [] ++ demo_event :: tail (w_log (sy_world s))).
  { vm_compute in E. injection E as <-. vm_compute. reflexivity. }
  exists s, (tail (w_log (sy_world s))). split; [exact Hlog|]. split; [reflexivity|].
  destruct (no_blind_edit demo_digest (λ _ _, None) demo_settings demo_digest_inj s [] 1 0 _ _ _ _ _ _ _ eq_refl (demo_system_reachable _ _ _ E) Hlog)
    as (_ & _ & sc & [= <-] & _ & H & _).
  exact H.
Defined.

Lemma demo_files_are names node : demo_files !! names = Some node →
  names = ["w"; "a.txt"]%string ∧ node = File demo_text 420 ∨ names = ["w"%string] ∧ node = Directory.
Proof. unfold demo_files. intros [[<- <-]|[_ [[<- <-]|[_ ?]]%lookup_insert_Some]]%lookup_insert_Some; auto. set_solver. Qed.

Lemma demo_tree : tree demo_files.
Proof.
  intros up name node [[E _]|[E _]]%demo_files_are; [apply (app_inj_tail up ["w"%string]) in E as [-> _]|apply (app_inj_tail up []) in E as [-> _]].
  - right. by vm_compute.
  - by left.
Qed.

Lemma demo_links : links_lead demo_files.
Proof. by intros names target [[_ E]|[_ E]]%demo_files_are. Qed.

Lemma demo_root : rooted (st_workspace_root demo_settings).
Proof. exists [Normal "w"%string]. split; [done|set_solver]. Qed.


(** Below a link to a directory that another call is about to make, two new
    files have locks of their own, and the one replaces the other. *)
Definition dangling_files : Files :=
  <[["w"; "link"]%string := Symlink (absolute ["w"; "sub"]%string)]> (<[["w"%string] := Directory]> ∅).
Definition demo_new (path : string) (text : list Z) : Request := FileWrite {| fwa_path := path; fwa_content := text; fwa_mode := None |}.
Definition demo_dangling : list Act :=
  [Begin (demo_context 1 "s") (demo_new "link/a.txt" (lit "one")); Alone 1 9;
   Begin (demo_process_1 2) (demo_new "sub/a.txt" (lit "two")); Alone 2 11; Alone 1 3; Alone 2 100; Over 2; Alone 1 100].

Lemma dangling_link_race :
  option_map (λ s, head (w_log (sy_world s))) (acts demo_digest (λ _ _, None) demo_settings nobody_else demo_dangling (initial dangling_files))
  = Some (Some (Changed 1 0 (Some demo_scope_s) (absolute ["w"; "link"; "a.txt"]%string) None (Splice 0 0 (lit "one")) (lit "one")
      (Some (File (lit "two") 420)))).
Proof. vm_compute. reflexivity. Qed.
